(* ===== verification/_CoqProject ===== *)
-Q . S2P
Prelude.v
Numeric.v
QuorumSet.v
LocalNode.v
QuorumFacts.v
Statement.v
SlotState.v
Ballot.v
BallotInv.v
Nomination.v
Frames.v
NoStray.v
SlotInv.v
SlotFacts.v
NominationFacts.v
Consensus.v
Scp.v
Exchange.v
Entries.v
OfferOrder.v
LedgerTxn.v
LedgerTxnInv.v
BestOffer.v
SqlOffers.v
LedgerTxnSpec.v
LedgerTxnFacts.v
BitSet.v
Tarjan.v
EvictionCache.v
QuorumChecker.v
QuorumSlices.v
QuorumSearch.v
QuorumNetwork.v
QuorumAgreement.v
QuorumCritical.v
BucketEntries.v
Bucket.v
BucketMerge.v
BucketSpec.v
BucketLevels.v
BucketManager.v
BucketList.v
HistoryArchive.v
BucketStore.v
BucketListInv.v
BucketRestart.v
HistoryArchiveSpec.v
BucketHash.v
BucketListFacts.v
WorkModel.v
WorkInv.v
WorkCrank.v
WorkRun.v
WorkEvents.v
WorkLive.v
WorkFairness.v
WorkFacts.v
QuorumTracker.v
Checkpoints.v
VerifyChain.v
VerifyFacts.v
Signatures.v
Balances.v
