(* ===== verification/Prelude.v ===== *)
(** * Verification of hcnet-core

    hcnet-core is the node software of a federated-consensus ledger: nodes agree on
    a value for each slot, the value names a set of transactions, the transactions
    change ledger entries, and the entries are kept in a database and, under one hash,
    in a list of buckets that is published in archives.  This library models those
    parts of the C++ sources under [src/src] that decide what is agreed on and what
    the ledger is, as executable functions, and proves what they promise each other.

    ** Conventions

    Machine integers are [Z] with the wrap-around of their width written out ([u32],
    [u64], [u128], [i32], [i64] below).  Code that changes an object is a computation
    in the state monad [M S A], whose outcome is [Ok a s] or [Err f s]; code that can
    only throw is in [exc A].  A fault is an exception, a failed assertion, a
    dereference of an empty pointer, or the model's recursion running out of fuel:
    the theorems that say an operation succeeds rule out all four.  Hashes, public
    keys and opaque byte strings are numbers or lists of bytes in the order the code
    compares them by.  Code that is not in the repository, and interfaces the
    application implements, are arguments of the definitions: the hash of a bucket
    file, the SCP driver, the random draws of a cache, the order in which background
    workers run.

    ** Parts, files and sources

    - Arithmetic: [Numeric] is util/numeric.cpp (bigDivide, hugeDivide,
      bigSquareRoot, bigMultiply); [Exchange] is the arithmetic of
      transactions/OfferExchange.cpp (exchangeV2, exchangeV3, exchangeV10,
      adjustOffer, exchangeWithPool).
    - Consensus (scp/): [QuorumSet] is QuorumSetUtils.cpp; [LocalNode] and
      [QuorumFacts] are LocalNode.cpp; [Statement] the XDR messages and the static
      functions on ballots; [SlotState] the members of Slot.cpp, BallotProtocol.h and
      NominationProtocol.h and the driver; [Ballot] is BallotProtocol.cpp;
      [Nomination] is NominationProtocol.cpp with the dispatch of Slot.cpp; [Scp] is
      SCP.cpp.  [BallotInv], [Frames], [NoStray], [SlotInv], [SlotFacts],
      [NominationFacts] hold the invariants of one slot; [Consensus] is a network of
      slots.
    - Quorum intersection (herder/): [BitSet] is util/BitSet.h over
      lib/util/cbitset.c; [Tarjan] is util/TarjanSCCCalculator.cpp; [EvictionCache]
      is util/RandomEvictionCache.h; [QuorumChecker] is
      QuorumIntersectionCheckerImpl.cpp.  [QuorumSlices], [QuorumSearch],
      [QuorumNetwork], [QuorumCritical] prove it exact, and [QuorumAgreement] joins it
      to [Consensus].
    - Ledger (ledger/): [Entries] are the XDR entries and keys; [OfferOrder] and
      [SqlOffers] the order of offers and the offers table of LedgerTxnOfferSQL.cpp;
      [LedgerTxn] is LedgerTxn.cpp, a stack of transactions over a root;
      [LedgerTxnInv], [BestOffer] its invariants, [LedgerTxnSpec] a stack of plain
      maps it refines, [LedgerTxnFacts] the theorems.
    - Buckets (bucket/, history/): [BucketEntries] is LedgerCmp.h; [Bucket] is
      Bucket.cpp with the two iterators; [BucketLevels] the level arithmetic of
      BucketList.cpp; [BucketManager] is BucketManagerImpl.cpp, BucketMergeMap.cpp,
      MergeKey.cpp and FutureBucket.cpp; [BucketList] the rest of BucketList.cpp and
      the snapshots; [HistoryArchive] is HistoryArchive.cpp.  [BucketMerge] and
      [BucketSpec] give the meaning of a merge, [BucketStore] shows that the store
      and the background merges are transparent, [BucketListInv] and [BucketRestart]
      hold the invariant of the list, [HistoryArchiveSpec] what a published snapshot
      promises, [BucketListFacts] the theorems on histories, and [BucketHash] an
      injective hash for their witnesses.
    - Transitive quorum (herder/): [QuorumTracker] is QuorumTracker.cpp with the
      functions of PendingEnvelopes.cpp that expand and rebuild it.
    - Work scheduler (work/): [WorkModel] is BasicWork.cpp, Work.cpp,
      WorkSequence.cpp, ConditionalWork.cpp, BatchWork.cpp, WorkWithCallback.cpp and
      WorkScheduler.cpp, a tree of objects changed by cranks, timers and events;
      [WorkInv] is its invariant, [WorkCrank] and [WorkRun] that a crank keeps it,
      [WorkEvents] that every event does, [WorkLive] the measure of an abort,
      [WorkFairness] the rotation of children, [WorkFacts] the theorems.
    - Catchup (history/, catchup/, ledger/): [Checkpoints] is the checkpoint
      arithmetic of HistoryManager.h, LedgerRange, CheckpointRange,
      CatchupConfiguration and CatchupRange; [VerifyChain] is
      VerifyLedgerChainWork.cpp, and [VerifyFacts] its theorems.
    - Transactions (transactions/): [Signatures] is SignatureChecker.cpp,
      SignatureUtils.cpp and the functions of TransactionFrame.cpp and
      OperationFrame.cpp that collect signers; [Balances] is the part of
      TransactionUtils.cpp that reads and changes the balance and the liabilities of
      one account or trust line, with addBalance of util/types.cpp.

    ** What the theorems show

    - Consensus: honest nodes never externalize different values when quorums
      intersect, and the checker decides exactly whether they do, so that a network
      it accepts agrees.  (The checker is exact for quorum sets with positive thresholds
      that name no node twice, with at most 64 nodes or a cache key without collisions;
      agreement from its answer needs every node named to run the code.)  One slot keeps
      its members ordered, its commit final, its statements increasing, its messages
      filed, and gives no function a statement it aborts on; processing an envelope ends;
      a slot restored from its own statement makes that statement again.  The slots of an
      instance do not affect each other.  The quorum and v-blocking tests are exactly the
      set-theoretic notions, and the intersection-critical groups exactly those whose
      fickleness splits the network.
    - Ledger: any legal sequence of operations on nested transactions gives the
      results of the specification; the best offer found through all shortcuts is the
      best offer; rolling back leaves no trace; the reported changes replay.
    - Buckets: for histories under protocol versions from 12 on, that is without
      shadows, and a hash of buckets without collisions:
      whatever the workers do, adding the batches of a valid history never
      fails, the list holds exactly the ledger, its hash depends on the history only,
      and a restart or a catchup from a published snapshot continues as if nothing
      had happened.  The size functions describe the levels exactly; a merge is the
      per-key combination of its inputs.
    - Arithmetic: results are exactly rounded, nothing overflows in the ledger's
      ranges, trades respect both sides' limits and pools never lose.
    - Quorum tracker: a rebuild computes exactly the reachable nodes with their
      distances, and the answers stay current under incremental expansion.
    - Work scheduler: no sequence of legal events breaks an assertion of the state
      machine; shutdown stops all work after a bounded number of cranks; wake-ups are not
      lost; children take turns; unfinished work is always waited for.  Implementers
      are [Lawful] ([WorkInv]): in particular doWork does not return WAITING while a
      child can run and onAbort ends; no legal event wakes a work in its retry delay.
    - Catchup: the computed range is exact and does not overflow; a verified chain is
      the authentic one unless the archive holds a second preimage of a hash, and an
      archive with the true headers is accepted after exactly one crank for each
      checkpoint.
    - Transactions: signatures are accepted only when the weights of signers who have
      signed, each counted once, are enough, and exactly then if no signature belongs
      to two signers; changes of balances and
      liabilities refine an amount between a floor and a ceiling.

    Some examples and theorems show inputs on which the code does something else than it
    means to: a zero counter that passes isStatementSane, a checkpoint file without its
    first ledgers, bit sets of different widths, a wake-up during a retry delay, a
    ConditionalWork started twice.

    ** Bounds and fuel

    Recursions that are not structural carry fuel, and a theorem shows that the fuel
    given is enough: fifty nested calls of advanceSlot (the source's own limit); the
    bits of the operand for the square root; one pass per node for quorum and
    contraction loops; one call per unvisited node for Tarjan's algorithm; one level
    per remaining node for the enumeration of minimal quorums; the elements of the
    map for erase_if; one candidate per entry and per row for the best offer; the
    records of both inputs for a merge and of a shadow for its cursor; six calls per
    level for the sizes of the bucket list; the records of a file for reading it.
    A crank of a work descends at most the height of its tree; a rebuild of the
    quorum tracker takes at most one step more than the members of all reachable
    quorum sets; the verification of a chain takes one crank for each checkpoint.

    ** Not modelled

    - Serialisation, files, SQL text, sockets, processes and clocks: the model starts
      from the decoded values and the rows of a table.
    - Cryptography: SHA-256 and signatures are parameters; collision freedom is a
      hypothesis where it is needed.
    - The garbage collection of bucket files depends on the reference counts of
      shared pointers, which the model does not have.
    - Bucket lists of protocol versions before 12: a single merge is modelled and proved
      for every version and with shadows, but the histories of the theorems start at
      version 12, as those of networks do whose genesis ledger has the configured
      version (USE_CONFIG_FOR_GENESIS).
    - The entry cache of the root of the ledger transactions, and the database's own
      errors; the offer cache is modelled.
    - The operations and the rest of the transaction frames, sponsorship, the
      crossing of offers on the ledger, the closing of a ledger and the invariants
      checked at run time: some thirty operations with rules per protocol version on
      top of the ledger transactions, balances, exchange arithmetic and signatures
      modelled here.
    - The rest of the herder (transaction sets, queue, upgrades), which needs the
      transactions, and the overlay: the consensus theorems hold for any driver within
      their hypotheses and any delivery of messages.
    - The works that download, publish and apply history: they move files around the
      scheduler, ranges, verification and archive state modelled here.
    - The database, process and configuration code, and the simulation: I/O and test
      drivers.
    - Logging, metrics and timers that only measure. *)

From stdpp Require Import base list gmap strings.
From Stdlib Require Export ZArith Lia.

(** ** Machine integers

    The C++ code uses fixed-width integers; the model keeps them as [Z] and
    writes the wrap-around of every operation that can leave its width. *)

Module Width.

Local Open Scope Z_scope.

Definition UINT32_MAX : Z := 4294967295.
Definition UINT64_MAX : Z := 18446744073709551615.
Definition UINT128_MAX : Z := 340282366920938463463374607431768211455.
Definition INT32_MAX : Z := 2147483647.
Definition INT64_MAX : Z := 9223372036854775807.

Definition u32 (z : Z) : Z := z mod 4294967296.
Definition u64 (z : Z) : Z := z mod 18446744073709551616.
Definition u128 (z : Z) : Z := z mod 340282366920938463463374607431768211456.

(** Conversion to a signed type, two's complement. *)
Definition i32 (z : Z) : Z := (z + 2147483648) mod 4294967296 - 2147483648.
Definition i64 (z : Z) : Z :=
  (z + 9223372036854775808) mod 18446744073709551616 - 9223372036854775808.

Lemma u32_small z : 0 <= z <= UINT32_MAX -> u32 z = z.
Proof. unfold u32, UINT32_MAX. intros. apply Z.mod_small. lia. Qed.

Lemma u64_small z : 0 <= z <= UINT64_MAX -> u64 z = z.
Proof. unfold u64, UINT64_MAX. intros. apply Z.mod_small. lia. Qed.

Lemma u128_small z : 0 <= z <= UINT128_MAX -> u128 z = z.
Proof. unfold u128, UINT128_MAX. intros. apply Z.mod_small. lia. Qed.

Lemma i32_small z : - INT32_MAX - 1 <= z <= INT32_MAX -> i32 z = z.
Proof. unfold i32, INT32_MAX. intros. rewrite Z.mod_small; lia. Qed.

Lemma i64_small z : - INT64_MAX - 1 <= z <= INT64_MAX -> i64 z = z.
Proof. unfold i64, INT64_MAX. intros. rewrite Z.mod_small; lia. Qed.

Lemma u32_range z : 0 <= u32 z <= UINT32_MAX.
Proof. unfold u32, UINT32_MAX. pose proof (Z.mod_pos_bound z 4294967296 eq_refl). lia. Qed.

Lemma u64_range z : 0 <= u64 z <= UINT64_MAX.
Proof.
  unfold u64, UINT64_MAX. pose proof (Z.mod_pos_bound z 18446744073709551616 eq_refl). lia.
Qed.

End Width.
Export Width.

(** Unfold the bounds of the widths, for [lia]. *)
Ltac widths :=
  unfold UINT32_MAX, UINT64_MAX, UINT128_MAX, INT32_MAX, INT64_MAX in *.

(** ** Monadic notation

    [let* x := m in k] for the bind of the development's two monads. *)

Definition bnd {M : Type -> Type} `{MBind M} {A B} (m : M A) (k : A -> M B) : M B := mbind k m.

Declare Scope code_scope.
Delimit Scope code_scope with code.
Notation "'let*' x ':=' m 'in' k" := (bnd m (fun x => k))
  (at level 200, x name, m at level 100, k at level 200, right associativity,
   format "'[v' 'let*'  x  ':='  m  'in' '/' k ']'") : code_scope.
Notation "'let*' ' x ':=' m 'in' k" := (bnd m (fun x => k))
  (at level 200, x strict pattern, m at level 100, k at level 200, right associativity,
   format "'[v' 'let*'  ' x  ':='  m  'in' '/' k ']'") : code_scope.
Notation "'do*' m 'in' k" := (bnd m (fun _ => k))
  (at level 200, m at level 100, k at level 200, right associativity,
   format "'[v' 'do*'  m  'in' '/' k ']'") : code_scope.
Open Scope code_scope.

(** ** Effects

    Stateful C++ code becomes a state monad with failure.  A failing run keeps
    the state it had reached: an exception does not undo the assignments made
    before it. *)

Inductive fault : Type :=
  | Throw (msg : string)            (* a C++ exception *)
  | AssertFailure (what : string)   (* dbgAssert / releaseAssert aborting *)
  | NullPointer (what : string)     (* dereference of an empty pointer *)
  | OutOfFuel.                      (* the model's recursion bound *)

Inductive outcome (S A : Type) : Type :=
  | Ok (a : A) (s : S)
  | Err (f : fault) (s : S).
Arguments Ok {S A} a s.
Arguments Err {S A} f s.

Definition M (S A : Type) : Type := S -> outcome S A.

#[export] Instance M_ret S : MRet (M S) := fun A a s => Ok a s.
#[export] Instance M_bind S : MBind (M S) := fun A B k m s =>
  match m s with
  | Ok a s' => k a s'
  | Err f s' => Err f s'
  end.

Definition get {S} : M S S := fun s => Ok s s.
Definition modify {S} (f : S -> S) : M S unit := fun s => Ok tt (f s).
Definition fail {S A} (f : fault) : M S A := fun s => Err f s.
Definition throw {S A} (msg : string) : M S A := fail (Throw msg).
Definition dbgAssert {S} (b : bool) (what : string) : M S unit :=
  if b then mret tt else fail (AssertFailure what).
Definition deref {S A} (o : option A) (what : string) : M S A :=
  match o with
  | Some a => mret a
  | None => fail (NullPointer what)
  end.
Definition when {S} (b : bool) (m : M S unit) : M S unit :=
  if b then m else mret tt.

(** Weakest precondition of a run, for the faults in [E]. *)
Definition wp {S A} (E : fault -> Prop) (m : M S A) (Q : A -> S -> Prop) (s : S) : Prop :=
  match m s with
  | Ok a s' => Q a s'
  | Err f _ => E f
  end.

Section WP.
Context {S : Type} (E : fault -> Prop).

Lemma wp_bind {A B} (m : M S A) (k : A -> M S B) Q s :
  wp E m (fun a s' => wp E (k a) Q s') s -> wp E (bnd m k) Q s.
Proof. unfold wp, bnd, mbind, M_bind. by destruct (m s). Qed.

Lemma wp_mono {A} (m : M S A) (Q Q' : A -> S -> Prop) s :
  wp E m Q s -> (forall a s', Q a s' -> Q' a s') -> wp E m Q' s.
Proof. unfold wp. destruct (m s); auto. Qed.

Lemma wp_ret {A} (a : A) (Q : A -> S -> Prop) s : Q a s -> wp E (mret a) Q s.
Proof. done. Qed.

Lemma wp_get (Q : S -> S -> Prop) s : Q s s -> wp E get Q s.
Proof. done. Qed.

Lemma wp_modify f (Q : unit -> S -> Prop) s : Q tt (f s) -> wp E (modify f) Q s.
Proof. done. Qed.

Lemma wp_assert b what (Q : unit -> S -> Prop) s :
  (b = false -> E (AssertFailure what)) -> (b = true -> Q tt s) ->
  wp E (dbgAssert b what) Q s.
Proof. destruct b; cbn; auto. Qed.

Lemma wp_deref {A} (o : option A) what (Q : A -> S -> Prop) s :
  (o = None -> E (NullPointer what)) -> (forall a, o = Some a -> Q a s) ->
  wp E (deref o what) Q s.
Proof. destruct o; cbn; auto. Qed.

Lemma wp_fail {A} f (Q : A -> S -> Prop) s : E f -> wp E (fail f) Q s.
Proof. done. Qed.

Lemma wp_when b m (Q : unit -> S -> Prop) s :
  (b = true -> wp E m Q s) -> (b = false -> Q tt s) -> wp E (when b m) Q s.
Proof. destruct b; cbn; auto. Qed.

End WP.

(** ** Pure code that can throw

    Functions without state return their value or the fault that stops them. *)

Definition exc (A : Type) : Type := (fault + A)%type.

#[export] Instance exc_ret : MRet exc := fun A a => inr a.
#[export] Instance exc_bind : MBind exc := fun A B k m =>
  match m with
  | inl f => inl f
  | inr a => k a
  end.

Definition exc_throw {A} (f : fault) : exc A := inl f.

(** [releaseAssertOrThrow] and [releaseAssert]. *)
Definition assertOrThrow (b : bool) (what : string) : exc unit :=
  if b then mret tt else exc_throw (Throw what).
Definition releaseAssert (b : bool) (what : string) : exc unit :=
  if b then mret tt else exc_throw (AssertFailure what).

Lemma exc_bind_inr {A B} (m : exc A) (k : A -> exc B) (b : B) :
  bnd m k = inr b -> exists a, m = inr a /\ k a = inr b.
Proof. destruct m as [f|a]; cbn; [done|]. intros H. by exists a. Qed.

(** A loop over a list whose body can throw. *)
Fixpoint foldM {A B} (f : B -> A -> exc A) (l : list B) (a : A) : exc A :=
  match l with
  | [] => mret a
  | b :: l => let* a := f b a in foldM f l a
  end.

Lemma foldM_pure {A B} (f : B -> A -> exc A) (g : A -> B -> A) l a :
  (forall b a, b ∈ l -> f b a = inr (g a b)) -> foldM f l a = inr (fold_left g l a).
Proof.
  revert a. induction l as [|b l IH]; intros a H; [done|]. cbn. rewrite H by left.
  cbn. apply IH. intros b' a' Hb. apply H. by right.
Qed.

(** Pure code run inside stateful code. *)
Definition lift {S A} (m : exc A) : M S A := fun s =>
  match m with inr a => Ok a s | inl f => Err f s end.
