(* ===== verification/Numeric.v ===== *)
(** * Wide arithmetic

    Model of [src/util/numeric.cpp]: division, multiplication and square root
    through 128-bit intermediates.  A C++ [bool f(T& result, ...)] returns the
    pair of its boolean and the value stored in [result] ([None] when the code
    leaves [result] untouched). *)

From stdpp Require Import base list strings.
From S2P Require Import Prelude.

Local Open Scope Z_scope.

Inductive Rounding := ROUND_DOWN | ROUND_UP.

(** ** Operations *)

Definition bigDivideUnsigned (A B C : Z) (rounding : Rounding) : exc (bool * Z) :=
  do* assertOrThrow (0 <? C) "C > 0" in
  let x := match rounding with
           | ROUND_DOWN => u128 (A * B) / C
           | ROUND_UP => u128 (u128 (u128 (A * B) + C) - 1) / C
           end in
  mret (x <=? UINT64_MAX, u64 x).

Definition bigDivide (A B C : Z) (rounding : Rounding) : exc (bool * option Z) :=
  do* assertOrThrow ((0 <=? A) && (0 <=? B) && (0 <? C)) "(A >= 0) && (B >= 0) && (C > 0)" in
  let* '(res, r2) := bigDivideUnsigned (u64 A) (u64 B) (u64 C) rounding in
  if res then mret (r2 <=? INT64_MAX, Some (i64 r2)) else mret (false, None).

Definition bigDivideOrThrow (A B C : Z) (rounding : Rounding) : exc Z :=
  let* r := bigDivide A B C rounding in
  match r with
  | (true, Some res) => mret res
  | _ => exc_throw (Throw "overflow while performing bigDivide")
  end.

Definition bigDivideUnsigned128 (a B : Z) (rounding : Rounding) : exc (bool * option Z) :=
  do* assertOrThrow (negb (B =? 0)) "B != 0" in
  match rounding with
  | ROUND_UP =>
      if u128 (UINT128_MAX - u128 (B - 1)) <? a then mret (false, None)
      else
        let x := u128 (u128 (a + B) - 1) / B in
        mret (x <=? UINT64_MAX, Some (u64 x))
  | ROUND_DOWN =>
      let x := a / B in
      mret (x <=? UINT64_MAX, Some (u64 x))
  end.

Definition bigDivide128 (a B : Z) (rounding : Rounding) : exc (bool * option Z) :=
  do* assertOrThrow (0 <? B) "B > 0" in
  let* r := bigDivideUnsigned128 a (u64 B) rounding in
  match r with
  | (true, Some r2) => mret (r2 <=? INT64_MAX, Some (i64 r2))
  | _ => mret (false, None)
  end.

Definition bigDivideOrThrow128 (a B : Z) (rounding : Rounding) : exc Z :=
  let* r := bigDivide128 a B rounding in
  match r with
  | (true, Some res) => mret res
  | _ => exc_throw (Throw "overflow while performing bigDivide")
  end.

Definition bigMultiplyUnsigned (a b : Z) : Z := u128 (a * b).

Definition bigMultiply (a b : Z) : exc Z :=
  do* assertOrThrow ((0 <=? a) && (0 <=? b)) "(a >= 0) && (b >= 0)" in
  mret (bigMultiplyUnsigned (u64 a) (u64 b)).

(** [__builtin_clzll] on a positive 64-bit number. *)
Definition clzll (x : Z) : Z := 63 - Z.log2 x.

(** Number of significant bits of a 128-bit number. *)
Definition uint128_bits (x : Z) : Z :=
  let hi := u64 (Z.shiftr x 64) in
  if negb (hi =? 0) then 128 - clzll hi
  else
    let lo := u64 x in
    if negb (lo =? 0) then 64 - clzll lo else 0.

(** One iteration of the [while (x != prev)] loop of [bigSquareRootCeil]. *)
Definition sqrtStep (R x : Z) : exc Z :=
  let* r := bigDivideUnsigned128 R x ROUND_UP in
  match r with
  | (true, Some y) =>
      if u64 (UINT64_MAX - x) <=? y then
        let temp := u128 (u128 (1 + x) + y) in
        mret (u64 (temp / 2))
      else mret (u64 (u64 (x + y) + 1) / 2)
  | _ => exc_throw (Throw "Overflow during bigSquareRoot")
  end.

Fixpoint sqrtLoop (fuel : nat) (R prev x : Z) : exc Z :=
  if x =? prev then mret x
  else
    match fuel with
    | O => exc_throw OutOfFuel
    | S fuel' => let* x' := sqrtStep R x in sqrtLoop fuel' R x x'
    end.

(** The error halves at each turn, so 70 turns reach the fixed point from any
    64-bit seed ([bigSquareRootCeil_correct]). *)
Definition sqrtFuel : nat := 70.

Definition bigSquareRootCeil (a b : Z) : exc Z :=
  if (a =? 0) || (b =? 0) then mret 0
  else
    let R := u128 (bigMultiplyUnsigned a b - 1) in
    let numBits := uint128_bits R / 2 + 1 in
    let x := if 64 <=? numBits then UINT64_MAX else Z.shiftl 1 numBits in
    sqrtLoop sqrtFuel R 0 x.

Definition bigSquareRoot (a b : Z) : exc Z :=
  let* sqrtCeil := bigSquareRootCeil a b in
  if bigMultiplyUnsigned sqrtCeil sqrtCeil <=? bigMultiplyUnsigned a b then mret sqrtCeil
  else mret (u64 (sqrtCeil - 1)).

Definition hugeDivide (a B C : Z) (rounding : Rounding) : exc (bool * option Z) :=
  do* assertOrThrow (0 <=? a) "a >= 0" in
  do* assertOrThrow (negb (C =? 0)) "C != 0ul" in
  do* assertOrThrow (C <=? u128 (INT32_MAX * INT64_MAX)) "C <= i32_max * i64_max" in
  let Q := B / C in
  let R := B mod C in
  if INT64_MAX <? Q then mret (false, None)
  else
    let A := u32 a in
    let res := match rounding with
               | ROUND_DOWN => u128 (u128 (A * Q) + u128 (A * R) / C)
               | ROUND_UP => u128 (u128 (A * Q) + u128 (u128 (u128 (A * R) + C) - 1) / C)
               end in
    if res <=? INT64_MAX then mret (true, Some (i64 (u64 res))) else mret (false, None).

(** ** Reference definitions *)

Definition ceil_div (n d : Z) : Z := (n + d - 1) / d.

Definition round_div (rounding : Rounding) (n d : Z) : Z :=
  match rounding with
  | ROUND_DOWN => n / d
  | ROUND_UP => ceil_div n d
  end.

(** ** Lemmas *)

Lemma mul64_bound A B :
  0 <= A <= UINT64_MAX -> 0 <= B <= UINT64_MAX ->
  0 <= A * B <= 340282366920938463426481119284349108225.
Proof. widths. nia. Qed.

Lemma mul64_u128 A B :
  0 <= A <= UINT64_MAX -> 0 <= B <= UINT64_MAX -> u128 (A * B) = A * B.
Proof.
  intros HA HB. pose proof (mul64_bound A B HA HB). apply u128_small. widths. lia.
Qed.

Lemma ceil_div_le n d k : 0 < d -> n <= k * d -> ceil_div n d <= k.
Proof.
  intros. unfold ceil_div. apply Z.lt_succ_r, Z.div_lt_upper_bound; nia.
Qed.

Lemma ceil_div_mul n d : 0 < d -> n <= ceil_div n d * d.
Proof.
  intros. unfold ceil_div.
  pose proof (Z.div_mod (n + d - 1) d ltac:(lia)).
  pose proof (Z.mod_pos_bound (n + d - 1) d ltac:(lia)). nia.
Qed.

Lemma ceil_div_nonneg n d : 0 < d -> 0 <= n -> 0 <= ceil_div n d.
Proof. intros. apply Z.div_pos; lia. Qed.

(** [bigDivideUnsigned] computes the exact quotient: the 128-bit intermediate
    never wraps. *)
Lemma bigDivideUnsigned_eq A B C r :
  0 <= A <= UINT64_MAX -> 0 <= B <= UINT64_MAX -> 0 < C <= UINT64_MAX ->
  bigDivideUnsigned A B C r =
    inr (round_div r (A * B) C <=? UINT64_MAX, u64 (round_div r (A * B) C)).
Proof.
  intros HA HB HC. unfold bigDivideUnsigned, assertOrThrow.
  rewrite (proj2 (Z.ltb_lt 0 C)) by lia. cbn.
  pose proof (mul64_bound A B HA HB). rewrite mul64_u128 by done.
  destruct r; [done|]. cbn. unfold ceil_div.
  by rewrite (u128_small (A * B + C)), (u128_small (A * B + C - 1)) by (widths; lia).
Qed.

(** ** Square root *)

Lemma sqrtStep_eq R T x :
  0 <= R -> (T - 1) * (T - 1) <= R -> R < T * T -> T <= x <= UINT64_MAX -> 0 < T ->
  sqrtStep R x = inr ((x + ceil_div R x + 1) / 2).
Proof.
  intros HR HT1 HT2 Hx HT.
  assert (0 <= ceil_div R x <= T) as Hy.
  { split; [apply ceil_div_nonneg; lia|]. apply ceil_div_le; nia. }
  assert (R <= UINT64_MAX * UINT64_MAX) as HRb by (widths; nia).
  unfold sqrtStep, bigDivideUnsigned128, assertOrThrow.
  rewrite (proj2 (Z.eqb_neq x 0)) by lia. cbn.
  rewrite (u128_small (x - 1)), (u128_small (UINT128_MAX - (x - 1))) by (widths; lia).
  rewrite (proj2 (Z.ltb_ge _ _)) by (widths; lia). cbn.
  rewrite (u128_small (R + x)), (u128_small (R + x - 1)) by (widths; lia).
  fold (ceil_div R x). rewrite (proj2 (Z.leb_le _ _)) by lia. cbn.
  rewrite (u64_small (ceil_div R x)) by lia.
  rewrite (u64_small (UINT64_MAX - x)) by lia.
  destruct (Z.leb_spec (UINT64_MAX - x) (ceil_div R x)) as [H|H].
  - rewrite (u128_small (1 + x)), u128_small by (widths; lia).
    cbn. rewrite u64_small; [f_equal; f_equal; lia|].
    split; [apply Z.div_pos; lia|]. apply Z.lt_succ_r, Z.div_lt_upper_bound; widths; lia.
  - rewrite (u64_small (x + ceil_div R x)), u64_small by (widths; lia). done.
Qed.

(** The step keeps above the limit, strictly decreases away from it and halves
    the distance to it. *)
Lemma sqrt_step_bounds R T x :
  0 <= R -> (T - 1) * (T - 1) <= R -> R < T * T -> T <= x -> 0 < T ->
  let x' := (x + ceil_div R x + 1) / 2 in
  T <= x' /\ x' - T <= (x - T + 1) / 2 /\ (T < x -> x' < x).
Proof.
  intros HR HT1 HT2 Hx HT x'.
  assert (ceil_div R x <= T) by (apply ceil_div_le; nia).
  assert (R <= ceil_div R x * x) by (apply ceil_div_mul; lia).
  assert (0 <= ceil_div R x) by (apply ceil_div_nonneg; lia).
  assert (T < x -> ceil_div R x <= x - 2) by (intros; apply ceil_div_le; nia).
  set (y := ceil_div R x) in *.
  assert (2 * T - 1 <= x + y) by nia.
  pose proof (Z.div_mod (x + y + 1) 2 ltac:(lia)).
  pose proof (Z.mod_pos_bound (x + y + 1) 2 ltac:(lia)).
  pose proof (Z.div_mod (x - T + 1) 2 ltac:(lia)).
  pose proof (Z.mod_pos_bound (x - T + 1) 2 ltac:(lia)).
  subst x'. repeat split; lia.
Qed.

Lemma sqrtLoop_limit R T (fuel : nat) prev :
  0 <= R -> (T - 1) * (T - 1) <= R -> R < T * T -> 0 < T <= UINT64_MAX ->
  sqrtLoop (S fuel) R prev T = inr T.
Proof.
  intros HR HT1 HT2 HT. cbn [sqrtLoop]. destruct (Z.eqb_spec T prev) as [->|_]; [done|].
  rewrite (sqrtStep_eq R T T) by (done || lia). cbn.
  destruct (sqrt_step_bounds R T T) as (H1 & H2 & _); try (done || lia).
  rewrite Z.sub_diag in H2. change ((0 + 1) / 2) with 0 in H2.
  assert ((T + ceil_div R T + 1) / 2 = T) as -> by lia.
  destruct fuel; cbn; by rewrite Z.eqb_refl.
Qed.

Lemma sqrtLoop_correct R T (k fuel : nat) prev x :
  0 <= R -> (T - 1) * (T - 1) <= R -> R < T * T -> 0 < T ->
  T <= x <= UINT64_MAX -> x - T <= 2 ^ Z.of_nat k ->
  (prev = x -> x = T) -> (k + 3 <= fuel)%nat ->
  sqrtLoop fuel R prev x = inr T.
Proof.
  intros HR HT1 HT2 HT. revert k prev x.
  induction fuel as [|fuel IH]; intros k prev x Hx HE Hprev Hf; [lia|].
  cbn [sqrtLoop]. destruct (Z.eqb_spec x prev) as [->|Hne]; [by rewrite Hprev|].
  rewrite (sqrtStep_eq R T x) by (done || lia). cbn.
  destruct (sqrt_step_bounds R T x) as (H1 & H2 & H3); try (done || lia).
  set (x' := (x + ceil_div R x + 1) / 2) in *.
  pose proof (Z.div_mod (x - T + 1) 2 ltac:(lia)).
  pose proof (Z.mod_pos_bound (x - T + 1) 2 ltac:(lia)).
  destruct (decide (x = T)) as [->|Hxt].
  - assert (x' = T) as -> by lia. destruct fuel; [lia|]. by apply sqrtLoop_limit; try lia.
  - destruct k as [|k].
    + change (2 ^ Z.of_nat 0) with 1 in HE. assert (x' = T) as -> by lia.
      destruct fuel as [|fuel]; [lia|]. apply sqrtLoop_limit; done || lia.
    + apply (IH k); try (done || lia).
      rewrite Nat2Z.inj_succ, Z.pow_succ_r in HE by lia. lia.
Qed.

Lemma sqrt_up_facts P :
  0 < P -> let T := Z.sqrt_up P in
  (T - 1) * (T - 1) <= P - 1 /\ P - 1 < T * T /\ 0 < T.
Proof.
  intros HP. cbv zeta. pose proof (Z.sqrt_up_spec P HP) as [H1 H2].
  pose proof (Z.sqrt_up_nonneg P). unfold Z.pred in H1. nia.
Qed.

Lemma sqrt_up_le P m : 0 < P -> 0 <= m -> P <= m * m -> Z.sqrt_up P <= m.
Proof.
  intros HP Hm H. pose proof (sqrt_up_facts P HP) as (H1 & H2 & H3). nia.
Qed.

Lemma uint128_bits_log2 x :
  0 <= x <= UINT128_MAX -> uint128_bits x = if x =? 0 then 0 else Z.log2 x + 1.
Proof.
  intros Hx. unfold uint128_bits, clzll. rewrite Z.shiftr_div_pow2 by lia.
  pose proof (Z.div_mod x (2 ^ 64) ltac:(lia)).
  pose proof (Z.mod_pos_bound x (2 ^ 64) ltac:(lia)).
  assert (0 <= x / 2 ^ 64 <= UINT64_MAX) as Hhi by (widths; lia).
  rewrite (u64_small (x / 2 ^ 64)) by done.
  destruct (Z.eqb_spec (x / 2 ^ 64) 0) as [E|E]; cbn [negb].
  - rewrite u64_small by (widths; lia).
    destruct (Z.eqb_spec x 0); cbn [negb]; lia.
  - rewrite (proj2 (Z.eqb_neq x 0)) by lia.
    replace (Z.log2 (x / 2 ^ 64)) with (Z.log2 x - 64); [lia|].
    rewrite <- Z.shiftr_div_pow2, Z.log2_shiftr by lia.
    assert (64 <= Z.log2 x) by (apply Z.log2_le_pow2; lia). lia.
Qed.

(** The seed of the iteration is above the limit. *)
Lemma sqrt_seed_ok P :
  0 < P <= UINT64_MAX * UINT64_MAX ->
  let numBits := uint128_bits (P - 1) / 2 + 1 in
  let x := if 64 <=? numBits then UINT64_MAX else Z.shiftl 1 numBits in
  Z.sqrt_up P <= x <= UINT64_MAX.
Proof.
  intros HP numBits x.
  assert (uint128_bits (P - 1) = if P - 1 =? 0 then 0 else Z.log2 (P - 1) + 1) as Ebits
    by (apply uint128_bits_log2; widths; lia).
  assert (0 <= uint128_bits (P - 1)) as Hb.
  { rewrite Ebits. case_match; [lia|]. pose proof (Z.log2_nonneg (P - 1)). lia. }
  assert (P <= 2 ^ uint128_bits (P - 1)) as Hpow.
  { rewrite Ebits. destruct (Z.eqb_spec (P - 1) 0); [cbn; lia|].
    pose proof (Z.log2_spec (P - 1) ltac:(lia)).
    replace (Z.log2 (P - 1) + 1) with (Z.succ (Z.log2 (P - 1))) by lia. lia. }
  pose proof (Z.div_mod (uint128_bits (P - 1)) 2 ltac:(lia)).
  pose proof (Z.mod_pos_bound (uint128_bits (P - 1)) 2 ltac:(lia)).
  subst x. destruct (Z.leb_spec 64 numBits).
  - split; [|lia]. apply sqrt_up_le; widths; lia.
  - rewrite Z.shiftl_mul_pow2, Z.mul_1_l by lia. split.
    + apply sqrt_up_le; [lia|apply Z.pow_nonneg; lia|].
      rewrite <- Z.pow_add_r by lia. etrans; [apply Hpow|]. apply Z.pow_le_mono_r; lia.
    + etrans; [apply (Z.pow_le_mono_r 2 numBits 63); lia|]. widths. vm_compute; discriminate.
Qed.

Lemma bigSquareRootCeil_correct a b :
  0 <= a <= UINT64_MAX -> 0 <= b <= UINT64_MAX ->
  bigSquareRootCeil a b = inr (Z.sqrt_up (a * b)).
Proof.
  intros Ha Hb. unfold bigSquareRootCeil, bigMultiplyUnsigned.
  destruct (Z.eqb_spec a 0) as [->|Ha0]; [done|].
  destruct (Z.eqb_spec b 0) as [->|Hb0]; [by rewrite Z.mul_0_r|]. cbn [orb].
  pose proof (mul64_bound a b Ha Hb). assert (0 < a * b) by nia.
  rewrite mul64_u128, u128_small by (done || widths; lia).
  pose proof (sqrt_up_facts (a * b) ltac:(lia)) as (H1 & H2 & H3).
  pose proof (sqrt_seed_ok (a * b) ltac:(widths; nia)) as H4. cbv zeta in H4.
  set (x := if 64 <=? _ then _ else _) in *.
  apply (sqrtLoop_correct _ _ 64); try (done || lia).
  - change (2 ^ Z.of_nat 64) with (UINT64_MAX + 1). lia.
  - unfold sqrtFuel. lia.
Qed.

Lemma sqrt_up_case P : 0 <= P ->
  Z.sqrt P = if Z.sqrt_up P * Z.sqrt_up P <=? P then Z.sqrt_up P else Z.sqrt_up P - 1.
Proof.
  intros HP. symmetry. destruct (decide (P = 0)) as [->|]; [done|].
  pose proof (sqrt_up_facts P ltac:(lia)) as (H1 & H2 & H3).
  destruct (Z.leb_spec (Z.sqrt_up P * Z.sqrt_up P) P); symmetry; apply Z.sqrt_unique; nia.
Qed.

(** Division by [C] distributes over the decomposition [B = Q * C + R]. *)
Lemma round_div_split r a B C :
  0 < C ->
  round_div r (a * B) C = a * (B / C) + round_div r (a * (B mod C)) C.
Proof.
  intros HC. pose proof (Z.div_mod B C ltac:(lia)) as HB.
  assert (a * B = a * (B mod C) + a * (B / C) * C) as -> by nia.
  destruct r; cbn; unfold ceil_div.
  - rewrite Z.div_add by lia. lia.
  - replace (a * (B mod C) + a * (B / C) * C + C - 1)
      with (a * (B mod C) + C - 1 + a * (B / C) * C) by lia.
    rewrite Z.div_add by lia. lia.
Qed.

Lemma round_div_nonneg r n d : 0 < d -> 0 <= n -> 0 <= round_div r n d.
Proof. intros. destruct r; cbn; [apply Z.div_pos|apply ceil_div_nonneg]; lia. Qed.

Lemma round_div_le r n d k : 0 < d -> n <= k * d -> round_div r n d <= k.
Proof.
  intros. destruct r; cbn; [|by apply ceil_div_le].
  apply Z.div_le_upper_bound; lia.
Qed.

(** ** Properties *)

(** ** The divisions on their ranges *)

Lemma bigDivide_eq A B C r :
  0 <= A <= INT64_MAX -> 0 <= B <= INT64_MAX -> 0 < C <= INT64_MAX ->
  exists stored, bigDivide A B C r = inr (round_div r (A * B) C <=? INT64_MAX, stored) /\
    (round_div r (A * B) C <= INT64_MAX -> stored = Some (round_div r (A * B) C)).
Proof.
  intros HA HB HC. unfold bigDivide, assertOrThrow.
  rewrite (proj2 (Z.leb_le 0 A)), (proj2 (Z.leb_le 0 B)), (proj2 (Z.ltb_lt 0 C)) by lia.
  cbn. rewrite !u64_small by (widths; lia).
  rewrite bigDivideUnsigned_eq by (widths; lia). cbn.
  set (x := round_div r (A * B) C).
  assert (0 <= x).
  { subst x. destruct r; cbn; [apply Z.div_pos|apply ceil_div_nonneg]; nia. }
  destruct (Z.leb_spec x UINT64_MAX) as [Hx|Hx].
  - rewrite u64_small by lia. exists (Some (i64 x)). split; [done|].
    intros. rewrite i64_small by (widths; lia). done.
  - exists None. rewrite (proj2 (Z.leb_gt x INT64_MAX)) by (widths; lia). split; [done|].
    widths. lia.
Qed.

Lemma bigDivideOrThrow_eq A B C r :
  0 <= A <= INT64_MAX -> 0 <= B <= INT64_MAX -> 0 < C <= INT64_MAX ->
  round_div r (A * B) C <= INT64_MAX ->
  bigDivideOrThrow A B C r = inr (round_div r (A * B) C).
Proof.
  intros HA HB HC H. unfold bigDivideOrThrow.
  destruct (bigDivide_eq A B C r HA HB HC) as (st & -> & E). cbn.
  rewrite (proj2 (Z.leb_le _ _) H), E by done. done.
Qed.

Lemma bigDivideOrThrow128_down a B :
  0 <= a <= UINT128_MAX -> 0 < B <= INT64_MAX -> a / B <= INT64_MAX ->
  bigDivideOrThrow128 a B ROUND_DOWN = inr (a / B).
Proof.
  intros Ha HB H. assert (0 <= a / B) by (apply Z.div_pos; lia).
  unfold bigDivideOrThrow128, bigDivide128, bigDivideUnsigned128, assertOrThrow.
  rewrite (proj2 (Z.ltb_lt 0 B)) by lia. cbn. rewrite (u64_small B) by (widths; lia).
  rewrite (proj2 (Z.eqb_neq B 0)) by lia. cbn.
  rewrite (proj2 (Z.leb_le (a / B) UINT64_MAX)) by (widths; lia). cbn.
  rewrite u64_small by (widths; lia). rewrite (proj2 (Z.leb_le _ _) H). cbn.
  rewrite i64_small by (widths; lia). done.
Qed.

Lemma bigMultiply_eq a b :
  0 <= a <= INT64_MAX -> 0 <= b <= INT64_MAX -> bigMultiply a b = inr (a * b).
Proof.
  intros Ha Hb. unfold bigMultiply, assertOrThrow, bigMultiplyUnsigned.
  rewrite (proj2 (Z.leb_le 0 a)), (proj2 (Z.leb_le 0 b)) by lia. cbn.
  rewrite !u64_small by (widths; lia). by rewrite mul64_u128 by (widths; lia).
Qed.

Lemma hugeDivide_eq a B C r :
  0 < a <= INT32_MAX -> 0 <= B <= UINT128_MAX -> 0 < C <= INT32_MAX * INT64_MAX ->
  hugeDivide a B C r =
    inr (if round_div r (a * B) C <=? INT64_MAX then (true, Some (round_div r (a * B) C))
         else (false, None)).
Proof.
  intros Ha HB HC. rewrite round_div_split by lia.
  unfold hugeDivide, assertOrThrow.
  rewrite (proj2 (Z.leb_le 0 a)), (proj2 (Z.eqb_neq C 0)) by lia. cbn -[Z.mul Z.leb INT32_MAX INT64_MAX].
  rewrite (u128_small (INT32_MAX * INT64_MAX)) by (widths; lia).
  rewrite (proj2 (Z.leb_le C _)) by lia. cbn -[Z.mul INT32_MAX INT64_MAX].
  pose proof (Z.mod_pos_bound B C ltac:(lia)) as HR.
  assert (0 <= B / C) as HQ by (apply Z.div_pos; lia).
  set (Q := B / C) in *. set (R := B mod C) in *.
  assert (0 <= round_div r (a * R) C <= INT32_MAX) as Hr.
  { split; [apply round_div_nonneg; nia|]. apply round_div_le; nia. }
  destruct (Z.ltb_spec INT64_MAX Q) as [H|H].
  { rewrite (proj2 (Z.leb_gt _ INT64_MAX)) by nia. done. }
  assert (0 <= a * Q <= INT32_MAX * INT64_MAX) as HaQ by nia.
  assert (0 <= a * R <= INT32_MAX * (INT32_MAX * INT64_MAX)) as HaR by nia.
  rewrite (u32_small a) by (widths; lia).
  rewrite (u128_small (a * Q)), (u128_small (a * R)) by (widths; lia).
  rewrite (u128_small (a * R + C)), (u128_small (a * R + C - 1)) by (widths; lia).
  assert (match r with ROUND_DOWN => u128 (a * Q + a * R / C)
          | ROUND_UP => u128 (a * Q + (a * R + C - 1) / C) end =
          a * Q + round_div r (a * R) C) as ->.
  { destruct r; cbn [round_div] in *; unfold ceil_div in *; apply u128_small; widths; lia. }
  destruct (Z.leb_spec (a * Q + round_div r (a * R) C) INT64_MAX); [|done].
  rewrite u64_small, i64_small by (widths; lia). done.
Qed.

(** [bigSquareRoot] terminates without overflow on every pair of 64-bit
    inputs and returns the integer square root of their 128-bit product. *)
Theorem bigSquareRoot_correct a b :
  0 <= a <= UINT64_MAX -> 0 <= b <= UINT64_MAX ->
  bigSquareRoot a b = inr (Z.sqrt (a * b)).
Proof.
  intros Ha Hb. unfold bigSquareRoot. rewrite bigSquareRootCeil_correct by done. cbn.
  pose proof (mul64_bound a b Ha Hb). unfold bigMultiplyUnsigned.
  pose proof (Z.sqrt_up_nonneg (a * b)).
  assert (Z.sqrt_up (a * b) <= UINT64_MAX) as Hle.
  { destruct (decide (a * b = 0)) as [->|]; [done|]. apply sqrt_up_le; widths; nia. }
  rewrite !mul64_u128 by lia. rewrite (sqrt_up_case (a * b)) by lia.
  destruct (Z.leb_spec (Z.sqrt_up (a * b) * Z.sqrt_up (a * b)) (a * b)); [done|].
  rewrite u64_small by nia. done.
Qed.

Lemma bigSquareRoot_correct_witness :
  bigSquareRoot UINT64_MAX UINT64_MAX = inr UINT64_MAX.
Proof.
  rewrite bigSquareRoot_correct by (vm_compute; split; discriminate).
  reflexivity.
Defined.

(** [bigDivide] on non-negative 64-bit operands and a positive divisor
    reports success exactly when the exact rounded quotient fits in an
    [int64_t], and then stores that quotient. *)
Theorem bigDivide_correct A B C r :
  0 <= A <= INT64_MAX -> 0 <= B <= INT64_MAX -> 0 < C <= INT64_MAX ->
  exists stored, bigDivide A B C r = inr (round_div r (A * B) C <=? INT64_MAX, stored) /\
    (round_div r (A * B) C <= INT64_MAX -> stored = Some (round_div r (A * B) C)).
Proof. apply bigDivide_eq. Qed.

Lemma bigDivide_correct_witness :
  exists stored, bigDivide INT64_MAX INT64_MAX INT64_MAX ROUND_UP = inr (true, stored) /\
    stored = Some INT64_MAX.
Proof.
  destruct (bigDivide_correct INT64_MAX INT64_MAX INT64_MAX ROUND_UP) as (st & H & H');
    try (vm_compute; split; discriminate || reflexivity).
  exists st. split; [exact H|]. apply H'. vm_compute. discriminate.
Defined.

(** [hugeDivide] computes [a * B / C], rounded as asked, for a positive
    32-bit [a] and 128-bit [B] without overflowing its 128-bit intermediates,
    and reports failure exactly when the result does not fit in an [int64_t]. *)
Theorem hugeDivide_correct a B C r :
  0 < a <= INT32_MAX -> 0 <= B <= UINT128_MAX -> 0 < C <= INT32_MAX * INT64_MAX ->
  hugeDivide a B C r =
    inr (if round_div r (a * B) C <=? INT64_MAX then (true, Some (round_div r (a * B) C))
         else (false, None)).
Proof. apply hugeDivide_eq. Qed.

Lemma hugeDivide_correct_witness :
  hugeDivide 100 1180591620717411303424 1099511627776 ROUND_UP = inr (true, Some 107374182400).
Proof.
  rewrite hugeDivide_correct by (vm_compute; split; discriminate || reflexivity).
  reflexivity.
Defined.
