(* ===== verification/QuorumSet.v ===== *)
(** * Quorum sets

    Model of [src/scp/QuorumSetUtils.cpp]: the nested quorum sets of the
    consensus protocol, their sanity check and their normalisation.  A node
    identifier is a 256-bit public key, kept as the integer its big-endian
    bytes denote, so that [<] on keys is [<] on [Z]. *)

From stdpp Require Import base list gmap strings sorting.
From S2P Require Import Prelude.

Local Open Scope Z_scope.

Abbreviation NodeID := Z (only parsing).

Inductive SCPQuorumSet : Type :=
  QSet (threshold : Z) (validators : list NodeID) (innerSets : list SCPQuorumSet).

Definition threshold (q : SCPQuorumSet) : Z := let 'QSet t _ _ := q in t.
Definition validators (q : SCPQuorumSet) : list NodeID := let 'QSet _ v _ := q in v.
Definition innerSets (q : SCPQuorumSet) : list SCPQuorumSet := let 'QSet _ _ i := q in i.

(** Induction that reaches the inner sets. *)
Fixpoint qset_ind' (P : SCPQuorumSet -> Prop)
    (H : forall t v i, Forall P i -> P (QSet t v i)) (q : SCPQuorumSet) : P q :=
  match q with
  | QSet t v i =>
      H t v i
        ((fix go (l : list SCPQuorumSet) : Forall P l :=
            match l with
            | [] => Forall_nil_2 P
            | q' :: l' => Forall_cons_2 P q' l' (qset_ind' P H q') (go l')
            end) i)
  end.

Fixpoint qset_eqb (l r : SCPQuorumSet) : bool :=
  match l, r with
  | QSet t v i, QSet t' v' i' =>
      (t =? t') && bool_decide (v = v') &&
      (fix go (a b : list SCPQuorumSet) : bool :=
         match a, b with
         | [], [] => true
         | x :: a', y :: b' => qset_eqb x y && go a' b'
         | _, _ => false
         end) i i'
  end.

Lemma qset_eqb_eq l r : qset_eqb l r = true <-> l = r.
Proof.
  revert r. induction l as [t v i IH] using qset_ind'. intros [t' v' i'].
  cbn. rewrite !andb_true_iff, Z.eqb_eq, bool_decide_eq_true.
  enough ((fix go (a b : list SCPQuorumSet) : bool :=
         match a, b with
         | [], [] => true
         | x :: a', y :: b' => qset_eqb x y && go a' b'
         | _, _ => false
         end) i i' = true <-> i = i') as ->.
  { split; [intros [[-> ->] ->]|intros [= -> -> ->]]; done. }
  revert i'. induction IH as [|x a Hx _ IH]; intros [|y b]; cbn; try done.
  rewrite andb_true_iff, Hx, IH. split; [intros [-> ->]|intros [= -> ->]]; done.
Qed.

#[export] Instance qset_eq_dec : EqDecision SCPQuorumSet.
Proof.
  intros l r. destruct (qset_eqb l r) eqn:H.
  - left. by apply qset_eqb_eq.
  - right. intros <-. rewrite (proj2 (qset_eqb_eq l l)) in H by done. done.
Defined.

(** Every node named by the set, validators of the outer set first: the order
    in which [LocalNode::forAllNodes] visits them. *)
Fixpoint qset_nodes (q : SCPQuorumSet) : list NodeID :=
  match q with
  | QSet _ v i => v ++ concat (map qset_nodes i)
  end.

(** ** QuorumSetSanityChecker *)

Definition MAXIMUM_QUORUM_NESTING_LEVEL : Z := 4.

Record SanityState := mkSanity {
  mKnownNodes : gset NodeID;
  mCount : Z
}.

(** The loop that inserts the validators in [mKnownNodes]; [false] when one is
    already there. *)
Fixpoint insertNodes (v : list NodeID) (known : gset NodeID) : bool * gset NodeID :=
  match v with
  | [] => (true, known)
  | n :: v' =>
      if bool_decide (n ∈ known) then (false, known)
      else insertNodes v' ({[n]} ∪ known)
  end.

(** [None] is the C++ [true]; [Some msg] is [false] with [errString = msg]. *)
Fixpoint checkSanity (extraChecks : bool) (qSet : SCPQuorumSet) (depth : Z)
    (st : SanityState) : option string * SanityState :=
  match qSet with
  | QSet t v i =>
      if MAXIMUM_QUORUM_NESTING_LEVEL <? depth then
        (Some "Maximum quorum nesting level exceeded"%string, st)
      else if t <? 1 then (Some "Threshold must be greater than 0"%string, st)
      else
        let totEntries := u64 (Z.of_nat (length v) + Z.of_nat (length i)) in
        let vBlockingSize := u64 (u64 (totEntries - t) + 1) in
        let st := mkSanity (mKnownNodes st) (u64 (mCount st + Z.of_nat (length v))) in
        if totEntries <? t then (Some "Threshold exceeds total number of entries"%string, st)
        else if extraChecks && (t <? vBlockingSize) then
          (Some "Threshold is lower than the v-blocking size (< 51%)."%string, st)
        else
          let '(fresh, known) := insertNodes v (mKnownNodes st) in
          let st := mkSanity known (mCount st) in
          if negb fresh then (Some "Duplicate node found in quorum configuration"%string, st)
          else
            (fix loop (l : list SCPQuorumSet) (st : SanityState) :=
               match l with
               | [] => (None, st)
               | iSet :: l' =>
                   match checkSanity extraChecks iSet (u32 (depth + 1)) st with
                   | (Some err, st') => (Some err, st')
                   | (None, st') => loop l' st'
                   end
               end) i st
  end.

(** The constructor of [QuorumSetSanityChecker] and [isQuorumSetSane]. *)
Definition QuorumSetSanityChecker (qSet : SCPQuorumSet) (extraChecks : bool) : option string :=
  match checkSanity extraChecks qSet 0 (mkSanity ∅ 0) with
  | (Some err, _) => Some err
  | (None, st) =>
      if (mCount st <? 1) || (1000 <? mCount st) then
        Some "Total number of nodes in a quorum must be within 1 and 1000"%string
      else None
  end.

Definition isQuorumSetSane (qSet : SCPQuorumSet) (extraChecks : bool) : bool :=
  bool_decide (QuorumSetSanityChecker qSet extraChecks = None).

(** ** Normalisation *)

(** [threshold -= number of removed validators], modulo 2^32, then the erase. *)
Definition removeValidator (idToRemove : option NodeID) (t : Z) (v : list NodeID)
    : Z * list NodeID :=
  match idToRemove with
  | None => (t, v)
  | Some id =>
      let v' := List.filter (fun n => negb (n =? id)) v in
      (u32 (t - Z.of_nat (length v - length v')), v')
  end.

Definition isSingleton (q : SCPQuorumSet) : bool :=
  match q with
  | QSet t [n] [] => t =? 1
  | _ => false
  end.

(** One pass of the [while] loop over the inner sets, given each inner set
    already simplified: singletons go to the validator list, the others stay. *)
Fixpoint mergeSingletons (v : list NodeID) (l : list SCPQuorumSet)
    : list NodeID * list SCPQuorumSet :=
  match l with
  | [] => (v, [])
  | q :: l' =>
      match q with
      | QSet 1 [n] [] => mergeSingletons (v ++ [n]) l'
      | _ => let '(v', i') := mergeSingletons v l' in (v', q :: i')
      end
  end.

Fixpoint normalizeQSetSimplify (idToRemove : option NodeID) (qSet : SCPQuorumSet)
    : SCPQuorumSet :=
  match qSet with
  | QSet t v i =>
      let '(t, v) := removeValidator idToRemove t v in
      let '(v, i) := mergeSingletons v (map (normalizeQSetSimplify idToRemove) i) in
      match v, i with
      | [], [inner] => if t =? 1 then inner else QSet t v i
      | _, _ => QSet t v i
      end
  end.

(** [intLexicographicalCompare] over two ranges. *)
Fixpoint intLexicographicalCompare {A} (comp : A -> A -> Z) (l1 l2 : list A) : Z :=
  match l1, l2 with
  | x :: l1', y :: l2' =>
      let c := comp x y in
      if negb (c =? 0) then c else intLexicographicalCompare comp l1' l2'
  | [], _ :: _ => -1
  | _ :: _, [] => 1
  | [], [] => 0
  end.

Definition nodeCompare (l r : NodeID) : Z :=
  if l <? r then -1 else if r <? l then 1 else 0.

Fixpoint qSetCompareInt (l r : SCPQuorumSet) : Z :=
  match l, r with
  | QSet lt lv li, QSet rt rv ri =>
      let res := intLexicographicalCompare nodeCompare lv rv in
      if negb (res =? 0) then res
      else
        let res :=
          (fix go (l1 l2 : list SCPQuorumSet) : Z :=
             match l1, l2 with
             | x :: l1', y :: l2' =>
                 let c := qSetCompareInt x y in
                 if negb (c =? 0) then c else go l1' l2'
             | [], _ :: _ => -1
             | _ :: _, [] => 1
             | [], [] => 0
             end) li ri in
        if negb (res =? 0) then res
        else if lt <? rt then -1 else if lt =? rt then 0 else 1
  end.

(** [std::sort] with a strict order given as a boolean function. *)
Fixpoint sortInsert {A} (ltb : A -> A -> bool) (x : A) (l : list A) : list A :=
  match l with
  | [] => [x]
  | y :: l' => if ltb y x then y :: sortInsert ltb x l' else x :: l
  end.

Definition stdSort {A} (ltb : A -> A -> bool) (l : list A) : list A :=
  foldr (sortInsert ltb) [] l.

Fixpoint normalizeQuorumSetReorder (q : SCPQuorumSet) : SCPQuorumSet :=
  match q with
  | QSet t v i =>
      QSet t (stdSort Z.ltb v)
        (stdSort (fun l r => qSetCompareInt l r <? 0) (map normalizeQuorumSetReorder i))
  end.

Definition normalizeQSet (qSet : SCPQuorumSet) (idToRemove : option NodeID) : SCPQuorumSet :=
  normalizeQuorumSetReorder (normalizeQSetSimplify idToRemove qSet).

(** ** Representable quorum sets

    What the XDR types guarantee: 32-bit thresholds, and far fewer than 2^31
    entries in all. *)

Fixpoint qset_size (q : SCPQuorumSet) : nat :=
  match q with
  | QSet _ v i => length v + length i + list_sum (map qset_size i)
  end.

Fixpoint qset_u32 (q : SCPQuorumSet) : bool :=
  match q with
  | QSet t _ i => (0 <=? t) && (t <=? UINT32_MAX) && forallb qset_u32 i
  end.

Definition qset_repr (q : SCPQuorumSet) : Prop :=
  qset_u32 q = true /\ Z.of_nat (qset_size q) <= INT32_MAX.

(** ** Reference definition of sanity *)

Fixpoint saneb (extraChecks : bool) (depth : nat) (q : SCPQuorumSet) : bool :=
  match q with
  | QSet t v i =>
      let n := Z.of_nat (length v + length i) in
      (Z.of_nat depth <=? MAXIMUM_QUORUM_NESTING_LEVEL) && (1 <=? t) && (t <=? n) &&
      (negb extraChecks || (n - t + 1 <=? t)) &&
      forallb (saneb extraChecks (S depth)) i
  end.

(** ** Lemmas *)

Lemma list_sum_In (l : list nat) x : In x l -> (x <= list_sum l)%nat.
Proof.
  unfold list_sum. induction l; cbn; [done|]. intros [->|H]; [lia|]. specialize (IHl H). lia.
Qed.

Lemma qset_size_inner t v i q :
  In q i -> (length v + length i + qset_size q <= qset_size (QSet t v i))%nat.
Proof.
  intros H. cbn [qset_size]. apply Nat.add_le_mono_l, list_sum_In. by apply in_map.
Qed.

Lemma qset_repr_inner t v i q : qset_repr (QSet t v i) -> In q i -> qset_repr q.
Proof.
  intros [H1 H2] Hq. pose proof (qset_size_inner t v i q Hq). split; [|lia].
  cbn in H1. rewrite !andb_true_iff, forallb_forall in H1. destruct H1 as [_ H1]. auto.
Qed.

Lemma qset_repr_Forall t v i : qset_repr (QSet t v i) -> Forall qset_repr i.
Proof. intros H. apply List.Forall_forall. eauto using qset_repr_inner. Qed.

Lemma qset_repr_bounds t v i :
  qset_repr (QSet t v i) ->
  0 <= t <= UINT32_MAX /\ Z.of_nat (length v + length i) <= INT32_MAX.
Proof. intros [H1 H2]. cbn [qset_u32 qset_size] in *. rewrite !andb_true_iff in H1. lia. Qed.

Lemma insertNodes_spec v known :
  match insertNodes v known with
  | (true, k') => NoDup v /\ (forall n, n ∈ v -> n ∉ known) /\ k' = known ∪ list_to_set v
  | (false, _) => ~ (NoDup v /\ forall n, n ∈ v -> n ∉ known)
  end.
Proof.
  revert known. induction v as [|n v IH]; intros known; cbn.
  - split; [constructor|]. split; [set_solver|set_solver].
  - case_bool_decide as Hn; [set_solver|].
    specialize (IH ({[n]} ∪ known)). destruct (insertNodes v _) as [[] k'].
    + destruct IH as (H1 & H2 & ->). split; [|split; [|set_solver]].
      * constructor; [|done]. intros Hin. specialize (H2 n Hin). set_solver.
      * set_solver.
    + rewrite NoDup_cons. intros [[H1 H2] H3]. apply IH. split; [done|]. set_solver.
Qed.

(** What the walk of [checkSanity] establishes, from the nodes [K] already
    seen. *)
Definition sane_from (extra : bool) (depth : nat) (q : SCPQuorumSet) (K : gset NodeID) : Prop :=
  saneb extra depth q = true /\ NoDup (qset_nodes q) /\ (forall n, n ∈ qset_nodes q -> n ∉ K).

Definition sanity_result (ok : Prop) (st : SanityState) (nodes : list NodeID)
    (r : option string * SanityState) : Prop :=
  match r with
  | (None, st') => ok /\
      st' = mkSanity (mKnownNodes st ∪ list_to_set nodes) (mCount st + Z.of_nat (length nodes))
  | (Some _, _) => ~ ok
  end.

Definition checkInner (extra : bool) (depth : Z) :=
  fix loop (l : list SCPQuorumSet) (st : SanityState) : option string * SanityState :=
    match l with
    | [] => (None, st)
    | iSet :: l' =>
        match checkSanity extra iSet depth st with
        | (Some err, st') => (Some err, st')
        | (None, st') => loop l' st'
        end
    end.

Lemma qset_nodes_size q : (length (qset_nodes q) <= qset_size q)%nat.
Proof.
  induction q as [t v i IH] using qset_ind'. cbn [qset_nodes qset_size]. rewrite length_app.
  enough (length (concat (map qset_nodes i)) <= list_sum (map qset_size i))%nat by lia.
  unfold list_sum. induction IH; cbn; [lia|]. rewrite length_app. lia.
Qed.

Lemma checkInner_spec extra depth l st :
  Forall (fun q => forall st, 0 <= mCount st ->
            mCount st + Z.of_nat (length (qset_nodes q)) <= UINT64_MAX ->
            sanity_result (sane_from extra (S depth) q (mKnownNodes st)) st (qset_nodes q)
              (checkSanity extra q (Z.of_nat (S depth)) st)) l ->
  0 <= mCount st ->
  mCount st + Z.of_nat (length (concat (map qset_nodes l))) <= UINT64_MAX ->
  sanity_result
    (forallb (saneb extra (S depth)) l = true /\ NoDup (concat (map qset_nodes l)) /\
     (forall n, n ∈ concat (map qset_nodes l) -> n ∉ mKnownNodes st))
    st (concat (map qset_nodes l)) (checkInner extra (Z.of_nat (S depth)) l st).
Proof.
  intros HF. revert st. induction HF as [|q l Hq _ IH]; intros st H0 Hc.
  - cbn. split; [split; [done|split; [constructor|set_solver]]|].
    destruct st; cbn. f_equal; [set_solver|lia].
  - cbn [map concat checkInner] in *. rewrite length_app in Hc.
    specialize (Hq st H0 ltac:(lia)). fold (checkInner extra (Z.of_nat (S depth))).
    destruct (checkSanity extra q _ st) as [[err|] st1].
    + cbn in Hq |- *. rewrite andb_true_iff, NoDup_app. unfold sane_from in Hq. set_solver.
    + destruct Hq as [(Hs & Hn & Hd) ->].
      specialize (IH (mkSanity (mKnownNodes st ∪ list_to_set (qset_nodes q))
                        (mCount st + Z.of_nat (length (qset_nodes q)))) ltac:(cbn; lia) ltac:(cbn; lia)).
      destruct (checkInner _ _ l _) as [[err|] st2]; cbn in IH |- *.
      * rewrite andb_true_iff, NoDup_app. set_solver.
      * destruct IH as [(Hs' & Hn' & Hd') ->]. rewrite andb_true_iff, NoDup_app.
        split; [set_solver|]. f_equal; [|rewrite length_app; lia].
        rewrite list_to_set_app_L. set_solver.
Qed.

Lemma checkSanity_unfold extra t v i depth st :
  checkSanity extra (QSet t v i) depth st =
    if MAXIMUM_QUORUM_NESTING_LEVEL <? depth then
      (Some "Maximum quorum nesting level exceeded"%string, st)
    else if t <? 1 then (Some "Threshold must be greater than 0"%string, st)
    else
      let totEntries := u64 (Z.of_nat (length v) + Z.of_nat (length i)) in
      let st := mkSanity (mKnownNodes st) (u64 (mCount st + Z.of_nat (length v))) in
      if totEntries <? t then (Some "Threshold exceeds total number of entries"%string, st)
      else if extra && (t <? u64 (u64 (totEntries - t) + 1)) then
        (Some "Threshold is lower than the v-blocking size (< 51%)."%string, st)
      else
        let '(fresh, known) := insertNodes v (mKnownNodes st) in
        let st := mkSanity known (mCount st) in
        if negb fresh then (Some "Duplicate node found in quorum configuration"%string, st)
        else checkInner extra (u32 (depth + 1)) i st.
Proof. reflexivity. Qed.

Lemma sane_from_unfold extra depth t v i K :
  sane_from extra depth (QSet t v i) K <->
  ((depth <= 4)%nat /\ 1 <= t <= Z.of_nat (length v) + Z.of_nat (length i) /\
   (extra = true -> Z.of_nat (length v) + Z.of_nat (length i) - t + 1 <= t)) /\
  (NoDup v /\ forall n, n ∈ v -> n ∉ K) /\
  (forallb (saneb extra (S depth)) i = true /\ NoDup (concat (map qset_nodes i)) /\
   (forall n, n ∈ concat (map qset_nodes i) -> n ∉ K ∪ list_to_set v)).
Proof.
  unfold sane_from. cbn [saneb qset_nodes]. unfold MAXIMUM_QUORUM_NESTING_LEVEL.
  rewrite !andb_true_iff, orb_true_iff, !Z.leb_le, NoDup_app.
  rewrite negb_true_iff. split.
  - intros ([[[[H1 H2] H3] H4] H5] & (H6 & H7 & H8) & H9).
    repeat split; try done; try lia; [intros ->; destruct H4; [done|lia]|set_solver..].
  - intros ((H1 & H2 & H3) & (H4 & H5) & H6 & H7 & H8).
    repeat split; try done; try lia; [|set_solver..].
    destruct extra; [right|by left]. specialize (H3 eq_refl). lia.
Qed.

Lemma checkSanity_spec extra q : forall depth st,
  qset_repr q -> (depth <= 5)%nat -> 0 <= mCount st ->
  mCount st + Z.of_nat (length (qset_nodes q)) <= UINT64_MAX ->
  sanity_result (sane_from extra depth q (mKnownNodes st)) st (qset_nodes q)
    (checkSanity extra q (Z.of_nat depth) st).
Proof.
  induction q as [t v i IH] using qset_ind'. intros depth st Hr Hd H0 Hc.
  pose proof (qset_repr_bounds t v i Hr) as [Ht Hn].
  pose proof (qset_repr_Forall t v i Hr) as Hi.
  pose proof (sane_from_unfold extra depth t v i (mKnownNodes st)) as Hsf.
  rewrite checkSanity_unfold. cbn [qset_nodes] in *. rewrite length_app in Hc.
  unfold MAXIMUM_QUORUM_NESTING_LEVEL, UINT64_MAX, INT32_MAX, UINT32_MAX in *.
  destruct (Z.ltb_spec 4 (Z.of_nat depth)); [cbn; rewrite Hsf; lia|].
  destruct (Z.ltb_spec t 1); [cbn; rewrite Hsf; lia|].
  rewrite (u64_small (Z.of_nat (length v) + _)), (u64_small (mCount st + _))
    by (unfold UINT64_MAX; lia). cbv zeta.
  destruct (Z.ltb_spec (Z.of_nat (length v) + Z.of_nat (length i)) t); [cbn; rewrite Hsf; lia|].
  rewrite (u64_small (_ - t)), u64_small by (unfold UINT64_MAX; lia).
  destruct (extra && _) eqn:Hex.
  { rewrite andb_true_iff, Z.ltb_lt in Hex. destruct Hex as [-> Hex]. cbn. rewrite Hsf.
    intros ((_ & _ & H') & _). specialize (H' eq_refl). lia. }
  pose proof (insertNodes_spec v (mKnownNodes st)) as Hins. cbn [mKnownNodes mCount].
  destruct (insertNodes v _) as [[] known]; cbn [negb]; [|cbn; rewrite Hsf; tauto].
  destruct Hins as (Hv1 & Hv2 & ->).
  rewrite (u32_small (_ + 1)) by (unfold UINT32_MAX; lia).
  replace (Z.of_nat depth + 1) with (Z.of_nat (S depth)) by lia.
  epose proof (checkInner_spec extra depth i (mkSanity (mKnownNodes st ∪ list_to_set v) (mCount st + Z.of_nat (length v)))) as Hin.
  cbn [mCount mKnownNodes] in Hin.
  destruct (checkInner _ _ i _) as [[err|] st2]; cbn in Hin |- *; rewrite Hsf.
  - intros (_ & _ & H'). revert H'. apply Hin; [|lia|unfold UINT64_MAX; lia].
    apply List.Forall_forall. intros q Hq st' ??.
    apply (proj1 (List.Forall_forall _ _) IH q Hq); auto; [|lia].
    by apply (qset_repr_inner t v i).
  - destruct Hin as [Hok ->]; [|lia|unfold UINT64_MAX; lia|].
    { apply List.Forall_forall. intros q Hq st' ??.
      apply (proj1 (List.Forall_forall _ _) IH q Hq); auto; [|lia].
      by apply (qset_repr_inner t v i). }
    rewrite andb_false_iff, Z.ltb_ge in Hex.
    split; [split; [|done]; split; [lia|split; [lia|intros ->; destruct Hex; [done|lia]]]|].
    rewrite length_app, list_to_set_app_L, (assoc_L (∪)). f_equal. lia.
Qed.

(** ** Properties *)

(** The sanity checker accepts exactly the quorum sets in which, at every
    level, the threshold lies between 1 and the number of entries (and is at
    least the v-blocking size when the extra checks are on), the nesting depth
    is at most four, no node appears twice, and between 1 and 1000 nodes are
    named in all. *)
Theorem isQuorumSetSane_spec q extra :
  qset_repr q ->
  isQuorumSetSane q extra = true <->
  saneb extra 0 q = true /\ NoDup (qset_nodes q) /\
  (1 <= length (qset_nodes q) <= 1000)%nat.
Proof.
  intros Hr. unfold isQuorumSetSane, QuorumSetSanityChecker. rewrite bool_decide_eq_true.
  pose proof (qset_nodes_size q). destruct (Hr) as [_ Hsz].
  pose proof (checkSanity_spec extra q 0 (mkSanity ∅ 0) Hr ltac:(lia)) as Hs.
  cbn [mCount mKnownNodes] in Hs. unfold sane_from in Hs.
  destruct (checkSanity _ _ _ _) as [[err|] st]; cbn in Hs.
  - split; [done|]. intros (H1 & H2 & _). exfalso.
    apply Hs; [lia|unfold UINT64_MAX, INT32_MAX in *; lia|]. set_solver.
  - destruct Hs as [(Hs & Hn & _) ->]; [lia|unfold UINT64_MAX, INT32_MAX in *; lia|].
    cbn [mCount]. destruct (_ || _) eqn:Hc.
    + rewrite orb_true_iff, !Z.ltb_lt in Hc. split; [done|]. lia.
    + rewrite orb_false_iff, !Z.ltb_ge in Hc. split; [|done]. intros _. split; [done|].
      split; [done|]. lia.
Qed.

Definition qset_ex : SCPQuorumSet := QSet 2 [1; 2] [QSet 1 [3; 4] []].

Lemma isQuorumSetSane_spec_witness :
  isQuorumSetSane qset_ex true = true <->
  saneb true 0 qset_ex = true /\ NoDup (qset_nodes qset_ex) /\
  (1 <= length (qset_nodes qset_ex) <= 1000)%nat.
Proof.
  apply isQuorumSetSane_spec. split; [reflexivity|vm_compute; discriminate].
Defined.
