(* ===== verification/LocalNode.v ===== *)
(** * Slices, v-blocking sets and quorums

    Model of [src/scp/LocalNode.cpp].  A [std::vector<NodeID>] is a list; the
    map from nodes to their latest envelopes is an association list in
    increasing order of keys, the iteration order of [std::map]. *)

From stdpp Require Import base list gmap strings.
From S2P Require Import Prelude Numeric QuorumSet.

Local Open Scope Z_scope.

(** ** Operations *)

Definition buildSingletonQSet (nodeID : NodeID) : SCPQuorumSet := QSet 1 [nodeID] [].
Definition getSingletonQSet (nodeID : NodeID) : option SCPQuorumSet :=
  Some (buildSingletonQSet nodeID).

(** [forAllNodes]: [proc] is a stateful callback; the walk stops when it
    returns [false]. *)
Fixpoint forAllList {S} (proc : NodeID -> S -> bool * S) (l : list NodeID) (s : S) : bool * S :=
  match l with
  | [] => (true, s)
  | n :: l' =>
      let '(go, s') := proc n s in
      if go then forAllList proc l' s' else (false, s')
  end.

Fixpoint forAllNodes {S} (proc : NodeID -> S -> bool * S) (qset : SCPQuorumSet) (s : S)
    : bool * S :=
  match qset with
  | QSet _ v i =>
      let '(go, s') := forAllList proc v s in
      if go then
        (fix inner (l : list SCPQuorumSet) (s : S) : bool * S :=
           match l with
           | [] => (true, s)
           | q :: l' =>
               let '(go, s') := forAllNodes proc q s in
               if go then inner l' s' else (false, s')
           end) i s'
      else (false, s')
  end.

Definition computeWeight (m total threshold : Z) : exc Z :=
  do* releaseAssert (threshold <=? total) "threshold <= total" in
  let* '(noOverflow, res) := bigDivideUnsigned m threshold total ROUND_UP in
  do* releaseAssert noOverflow "noOverflow" in
  mret res.

Fixpoint getNodeWeight (nodeID : NodeID) (qset : SCPQuorumSet) : exc Z :=
  match qset with
  | QSet n v i =>
      let d := u64 (Z.of_nat (length i) + Z.of_nat (length v)) in
      if existsb (Z.eqb nodeID) v then computeWeight UINT64_MAX d n
      else
        (fix inner (l : list SCPQuorumSet) : exc Z :=
           match l with
           | [] => mret 0
           | q :: l' =>
               let* leafW := getNodeWeight nodeID q in
               if leafW =? 0 then inner l' else computeWeight leafW d n
           end) i
  end.

(** A loop over a range that decrements a counter on each hit and returns as
    soon as the counter is exhausted: [None] is that early [return true],
    [Some left] the counter after the whole range. *)
Fixpoint countdown {A} (dec : Z -> Z) (hit : A -> bool) (l : list A) (left : Z) : option Z :=
  match l with
  | [] => Some left
  | x :: l' =>
      if hit x then
        let left := dec left in
        if left <=? 0 then None else countdown dec hit l' left
      else countdown dec hit l' left
  end.

Definition inNodes (nodeSet : list NodeID) (n : NodeID) : bool := existsb (Z.eqb n) nodeSet.

Fixpoint isQuorumSliceInternal (nodeSet : list NodeID) (qset : SCPQuorumSet) : bool :=
  match qset with
  | QSet t v i =>
      let dec := fun z => u32 (z - 1) in
      match countdown dec (inNodes nodeSet) v t with
      | None => true
      | Some thresholdLeft =>
          match countdown dec (isQuorumSliceInternal nodeSet) i thresholdLeft with
          | None => true
          | Some _ => false
          end
      end
  end.

Definition isQuorumSlice (qSet : SCPQuorumSet) (nodeSet : list NodeID) : bool :=
  isQuorumSliceInternal nodeSet qSet.

Fixpoint isVBlockingInternal (nodeSet : list NodeID) (qset : SCPQuorumSet) : bool :=
  match qset with
  | QSet t v i =>
      if t =? 0 then false
      else
        let leftTillBlock :=
          i32 (u64 (1 + Z.of_nat (length v) + Z.of_nat (length i) - t)) in
        let dec := fun z => z - 1 in
        match countdown dec (inNodes nodeSet) v leftTillBlock with
        | None => true
        | Some leftTillBlock =>
            match countdown dec (isVBlockingInternal nodeSet) i leftTillBlock with
            | None => true
            | Some _ => false
            end
        end
  end.

Definition isVBlocking (qSet : SCPQuorumSet) (nodeSet : list NodeID) : bool :=
  isVBlockingInternal nodeSet qSet.

Section Envelopes.
Context {Stmt : Type}.

(** The nodes whose statement passes the filter. *)
Definition filterNodes (filter : Stmt -> bool) (map : list (NodeID * Stmt)) : list NodeID :=
  (List.filter (fun '(_, st) => filter st) map).*1.

Definition isVBlockingMap (qSet : SCPQuorumSet) (map : list (NodeID * Stmt))
    (filter : Stmt -> bool) : bool :=
  isVBlocking qSet (filterNodes filter map).

(** [map.find]. *)
Definition mapFind {V} (map : list (NodeID * V)) (n : NodeID) : option V :=
  snd <$> List.find (fun '(k, _) => k =? n) map.

(** The predicate [quorumFilter]: the node's quorum set is known and is
    satisfied inside [pNodes]. *)
Definition quorumFilter (map : list (NodeID * Stmt)) (qfun : Stmt -> option SCPQuorumSet)
    (pNodes : list NodeID) (nodeID : NodeID) : bool :=
  match mapFind map nodeID with
  | Some st =>
      match qfun st with
      | Some qSet => isQuorumSlice qSet pNodes
      | None => false
      end
  | None => false
  end.

(** The [do ... while (count != pNodes.size())] loop. *)
Fixpoint quorumLoop (fuel : nat) (map : list (NodeID * Stmt))
    (qfun : Stmt -> option SCPQuorumSet) (pNodes : list NodeID) : option (list NodeID) :=
  match fuel with
  | O => None
  | S fuel' =>
      let fNodes := List.filter (quorumFilter map qfun pNodes) pNodes in
      if Nat.eqb (length pNodes) (length fNodes) then Some fNodes
      else quorumLoop fuel' map qfun fNodes
  end.

(** The list shrinks at every turn but the last: its length plus one turns are
    enough ([quorumLoop_fuel]). *)
Definition isQuorum (qSet : SCPQuorumSet) (map : list (NodeID * Stmt))
    (qfun : Stmt -> option SCPQuorumSet) (filter : Stmt -> bool) : bool :=
  let pNodes := filterNodes filter map in
  match quorumLoop (S (length pNodes)) map qfun pNodes with
  | Some pNodes => isQuorumSlice qSet pNodes
  | None => false
  end.

End Envelopes.

(** First loop of [findClosestVBlocking]: [None] when already blocked,
    otherwise what is left and the usable validators. *)
Fixpoint closestValidators (nodes : NodeID -> bool) (excluded : option NodeID)
    (v : list NodeID) (left : Z) (res : list NodeID) : option (Z * list NodeID) :=
  match v with
  | [] => Some (left, res)
  | n :: v' =>
      if bool_decide (excluded = Some n) then closestValidators nodes excluded v' left res
      else if negb (nodes n) then
        let left := u64 (left - 1) in
        if left =? 0 then None else closestValidators nodes excluded v' left res
      else closestValidators nodes excluded v' left (res ++ [n])
  end.

(** [std::multiset] ordered by size: [emplace] puts a vector after those of the
    same size. *)
Fixpoint insertBySize (x : list NodeID) (l : list (list NodeID)) : list (list NodeID) :=
  match l with
  | [] => [x]
  | y :: l' => if Nat.ltb (length x) (length y) then x :: l else y :: insertBySize x l'
  end.

(** The final loop: take the smallest inner answers first. *)
Fixpoint takeInternals (left : Z) (l : list (list NodeID)) (res : list NodeID) : list NodeID :=
  match l with
  | [] => res
  | x :: l' => if left =? 0 then res else takeInternals (u64 (left - 1)) l' (res ++ x)
  end.

Fixpoint findClosestVBlocking (nodes : NodeID -> bool) (excluded : option NodeID)
    (qset : SCPQuorumSet) : list NodeID :=
  match qset with
  | QSet t v i =>
      let leftTillBlock := u64 (1 + Z.of_nat (length v) + Z.of_nat (length i) - t) in
      match closestValidators nodes excluded v leftTillBlock [] with
      | None => []
      | Some (leftTillBlock, res) =>
          match
            (fix inner (l : list SCPQuorumSet) (left : Z) (ints : list (list NodeID))
                 : option (Z * list (list NodeID)) :=
               match l with
               | [] => Some (left, ints)
               | q :: l' =>
                   match findClosestVBlocking nodes excluded q with
                   | [] =>
                       let left := u64 (left - 1) in
                       if left =? 0 then None else inner l' left ints
                   | r => inner l' left (insertBySize r ints)
                   end
               end) i leftTillBlock []
          with
          | None => []
          | Some (leftTillBlock, resInternals) =>
              let res := if leftTillBlock <? Z.of_nat (length res)
                         then take (Z.to_nat leftTillBlock) res else res in
              let leftTillBlock := u64 (leftTillBlock - Z.of_nat (length res)) in
              takeInternals leftTillBlock resInternals res
          end
      end
  end.

Definition findClosestVBlockingMap {Stmt} (qset : SCPQuorumSet) (map : list (NodeID * Stmt))
    (filter : Stmt -> bool) (excluded : option NodeID) : list NodeID :=
  findClosestVBlocking (inNodes (filterNodes filter map)) excluded qset.

(** ** Counting characterisation *)

Definition count {A} (f : A -> bool) (l : list A) : Z := Z.of_nat (length (List.filter f l)).

Lemma count_nil {A} (f : A -> bool) : count f [] = 0.
Proof. done. Qed.

Lemma count_cons {A} (f : A -> bool) x l :
  count f (x :: l) = (if f x then 1 else 0) + count f l.
Proof. unfold count. cbn. destruct (f x); cbn [length]; lia. Qed.

Lemma count_bounds {A} (f : A -> bool) l : 0 <= count f l <= Z.of_nat (length l).
Proof. unfold count. pose proof (List.filter_length_le f l). lia. Qed.

Lemma count_ext {A} (f g : A -> bool) l :
  (forall x, In x l -> f x = g x) -> count f l = count g l.
Proof.
  induction l; intros H; [done|]. rewrite !count_cons. f_equal.
  - rewrite (H a) by (by left). done.
  - apply IHl. intros. apply H. by right.
Qed.

Lemma count_mono {A} (f g : A -> bool) l :
  (forall x, In x l -> f x = true -> g x = true) -> count f l <= count g l.
Proof.
  induction l; intros H; [done|]. rewrite !count_cons.
  assert (count f l <= count g l) by (apply IHl; intros; apply H; cbn; auto).
  destruct (f a) eqn:E; [rewrite (H a) by (cbn; auto)|]; destruct (g a); lia.
Qed.

Lemma count_negb {A} (f g : A -> bool) l :
  (forall x, In x l -> f x = negb (g x)) -> count f l = Z.of_nat (length l) - count g l.
Proof.
  induction l; intros H; [done|]. rewrite !count_cons, IHl by (intros; apply H; by right).
  rewrite (H a) by (by left). cbn [length]. destruct (g a); cbn; lia.
Qed.

Lemma count_Permutation {A} (f : A -> bool) l l' : Permutation l l' -> count f l = count f l'.
Proof. induction 1; rewrite ?count_cons; lia. Qed.

Lemma count_app {A} (f : A -> bool) l l' : count f (l ++ l') = count f l + count f l'.
Proof. induction l; cbn [app]; rewrite ?count_cons, ?count_nil; lia. Qed.

(** The two decrements agree with the mathematical one while the counter stays
    positive. *)
Lemma countdown_spec {A} dec (hit : A -> bool) l left (bound : Z) :
  (forall z, 1 <= z <= bound -> dec z = z - 1) -> 1 <= left <= bound ->
  countdown dec hit l left = if left <=? count hit l then None else Some (left - count hit l).
Proof.
  intros Hdec. revert left. induction l as [|x l IH]; intros left Hl.
  - rewrite count_nil, (proj2 (Z.leb_gt left 0)), Z.sub_0_r by lia. done.
  - cbn [countdown]. rewrite count_cons. destruct (hit x).
    + rewrite Hdec by lia. pose proof (count_bounds hit l). destruct (Z.leb_spec (left - 1) 0).
      * by rewrite (proj2 (Z.leb_le _ _)) by lia.
      * rewrite IH by lia. destruct (Z.leb_spec (left - 1) (count hit l));
          [rewrite (proj2 (Z.leb_le _ _))|rewrite (proj2 (Z.leb_gt _ _))]; try lia; [done|].
        f_equal. lia.
    + rewrite IH by lia. done.
Qed.

Lemma u32_dec z : 1 <= z <= 4294967296 -> u32 (z - 1) = z - 1.
Proof. intros. apply u32_small. unfold UINT32_MAX. lia. Qed.

(** A zero threshold wraps around at the first hit: it behaves as 2^32. *)
Definition eff_threshold (t : Z) : Z := if t =? 0 then 4294967296 else t.

Lemma countdown_u32 {A} (hit : A -> bool) l t :
  0 <= t <= UINT32_MAX -> Z.of_nat (length l) <= INT32_MAX ->
  countdown (fun z => u32 (z - 1)) hit l t =
    if eff_threshold t <=? count hit l then None
    else Some (u32 (eff_threshold t - count hit l)).
Proof.
  intros Ht Hl. unfold eff_threshold. destruct (Z.eqb_spec t 0) as [->|Hne].
  - assert (forall l, Z.of_nat (length l) <= INT32_MAX ->
      countdown (fun z => u32 (z - 1)) hit l 0 = Some (u32 (4294967296 - count hit l))) as Hz.
    { clear. induction l as [|x l IH]; intros Hl; [done|]. cbn [countdown length] in *.
      rewrite count_cons. destruct (hit x); [|rewrite IH by lia; done].
      pose proof (count_bounds hit l). unfold INT32_MAX in *.
      change (u32 (0 - 1)) with 4294967295. cbn [Z.leb Z.compare].
      rewrite (countdown_spec _ hit l 4294967295 4294967296) by (apply u32_dec || lia).
      rewrite (proj2 (Z.leb_gt _ _)) by lia. rewrite u32_small by (unfold UINT32_MAX; lia).
      f_equal. lia. }
    pose proof (count_bounds hit l). rewrite Hz by done. unfold INT32_MAX in *.
    by rewrite (proj2 (Z.leb_gt _ _)) by lia.
  - unfold UINT32_MAX in *. pose proof (count_bounds hit l).
    rewrite (countdown_spec _ hit l t 4294967296) by (apply u32_dec || lia).
    destruct (Z.leb_spec t (count hit l)); [done|].
    by rewrite u32_small by (unfold UINT32_MAX; lia).
Qed.

Lemma slice_unfold S t v i :
  qset_repr (QSet t v i) ->
  isQuorumSliceInternal S (QSet t v i) =
    (eff_threshold t <=? count (inNodes S) v + count (isQuorumSliceInternal S) i).
Proof.
  intros Hr. destruct (qset_repr_bounds t v i Hr) as [Ht Hn].
  cbn [isQuorumSliceInternal]. rewrite countdown_u32 by lia.
  pose proof (count_bounds (inNodes S) v). pose proof (count_bounds (isQuorumSliceInternal S) i).
  assert (1 <= eff_threshold t <= 4294967296).
  { unfold eff_threshold, UINT32_MAX in *. destruct (Z.eqb_spec t 0); lia. }
  destruct (Z.leb_spec (eff_threshold t) (count (inNodes S) v)).
  { by rewrite (proj2 (Z.leb_le _ _)) by lia. }
  set (left := u32 _). unfold INT32_MAX in *.
  assert (left = eff_threshold t - count (inNodes S) v \/
          (left = 0 /\ eff_threshold t = 4294967296 /\ count (inNodes S) v = 0)) as Hleft.
  { subst left. destruct (decide (eff_threshold t - count (inNodes S) v = 4294967296)) as [E|].
    - rewrite E. right. split; [done|]. lia.
    - left. apply u32_small. unfold UINT32_MAX. lia. }
  assert (0 <= left <= UINT32_MAX) by apply u32_range.
  rewrite countdown_u32 by (done || unfold INT32_MAX; lia).
  assert (eff_threshold left = eff_threshold t - count (inNodes S) v) as ->.
  { unfold eff_threshold at 1. destruct (Z.eqb_spec left 0); lia. }
  destruct (Z.leb_spec (eff_threshold t - count (inNodes S) v) (count (isQuorumSliceInternal S) i));
    [rewrite (proj2 (Z.leb_le _ _))|rewrite (proj2 (Z.leb_gt _ _))]; done || lia.
Qed.

(** Positive thresholds no larger than the number of entries, at every level:
    what [isQuorumSetSane] guarantees. *)
Fixpoint qset_wf (q : SCPQuorumSet) : bool :=
  match q with
  | QSet t v i =>
      (1 <=? t) && (t <=? Z.of_nat (length v + length i)) && forallb qset_wf i
  end.

Lemma saneb_wf extra depth q : saneb extra depth q = true -> qset_wf q = true.
Proof.
  revert depth. induction q as [t v i IH] using qset_ind'. intros depth. cbn [saneb qset_wf].
  rewrite !andb_true_iff, !forallb_forall. intros ((((_ & H1) & H2) & _) & H3).
  repeat split; try done. intros q Hq.
  apply (proj1 (List.Forall_forall _ _) IH q Hq (Datatypes.S depth)). auto.
Qed.

Lemma vblocking_unfold S t v i :
  qset_repr (QSet t v i) -> 1 <= t <= Z.of_nat (length v + length i) ->
  isVBlockingInternal S (QSet t v i) =
    (1 + Z.of_nat (length v + length i) - t <=?
       count (inNodes S) v + count (isVBlockingInternal S) i).
Proof.
  intros Hr Ht. destruct (qset_repr_bounds t v i Hr) as [_ Hn].
  cbn [isVBlockingInternal]. rewrite (proj2 (Z.eqb_neq t 0)) by lia. unfold INT32_MAX in *.
  rewrite (u64_small (1 + _ + _ - t)), i32_small by (unfold UINT64_MAX, INT32_MAX; lia).
  pose proof (count_bounds (inNodes S) v). pose proof (count_bounds (isVBlockingInternal S) i).
  rewrite (countdown_spec _ _ v _ INT32_MAX) by (done || unfold INT32_MAX; lia).
  destruct (Z.leb_spec (1 + Z.of_nat (length v) + Z.of_nat (length i) - t) (count (inNodes S) v)).
  { by rewrite (proj2 (Z.leb_le _ _)) by lia. }
  rewrite (countdown_spec _ _ i _ INT32_MAX) by (done || unfold INT32_MAX; lia).
  match goal with |- context [?a <=? count (isVBlockingInternal S) i] =>
    destruct (Z.leb_spec a (count (isVBlockingInternal S) i)) end;
    [rewrite (proj2 (Z.leb_le _ _))|rewrite (proj2 (Z.leb_gt _ _))]; done || lia.
Qed.

Lemma qset_wf_inner t v i q : qset_wf (QSet t v i) = true -> In q i -> qset_wf q = true.
Proof. cbn [qset_wf]. rewrite !andb_true_iff, forallb_forall. intros [_ H] Hq. auto. Qed.

Lemma qset_wf_bounds t v i :
  qset_wf (QSet t v i) = true -> 1 <= t <= Z.of_nat (length v + length i).
Proof. cbn [qset_wf]. rewrite !andb_true_iff, !Z.leb_le. intros [H _]. exact H. Qed.

Lemma in_nodes_validator t v i n : In n v -> In n (qset_nodes (QSet t v i)).
Proof. cbn. rewrite in_app_iff. auto. Qed.

Lemma in_nodes_inner t v i q n :
  In q i -> In n (qset_nodes q) -> In n (qset_nodes (QSet t v i)).
Proof.
  intros Hq Hn. cbn. rewrite in_app_iff, in_concat. right.
  exists (qset_nodes q). split; [by apply in_map|done].
Qed.

(** Slices only grow with the set of nodes. *)
Lemma slice_mono S S' q :
  qset_repr q -> (forall n, In n (qset_nodes q) -> inNodes S n = true -> inNodes S' n = true) ->
  isQuorumSliceInternal S q = true -> isQuorumSliceInternal S' q = true.
Proof.
  induction q as [t v i IH] using qset_ind'. intros Hr Hsub.
  rewrite !slice_unfold, !Z.leb_le by done. intros H.
  assert (count (inNodes S) v <= count (inNodes S') v).
  { apply count_mono. eauto using in_nodes_validator. }
  assert (count (isQuorumSliceInternal S) i <= count (isQuorumSliceInternal S') i); [|lia].
  apply count_mono. intros q Hq. apply (proj1 (List.Forall_forall _ _) IH q Hq).
  - by apply (qset_repr_inner t v i).
  - eauto using in_nodes_inner.
Qed.

Lemma vblocking_mono S S' q :
  qset_repr q -> qset_wf q = true ->
  (forall n, In n (qset_nodes q) -> inNodes S n = true -> inNodes S' n = true) ->
  isVBlockingInternal S q = true -> isVBlockingInternal S' q = true.
Proof.
  induction q as [t v i IH] using qset_ind'. intros Hr Hw Hsub.
  rewrite !vblocking_unfold, !Z.leb_le by (done || by apply qset_wf_bounds). intros H.
  assert (count (inNodes S) v <= count (inNodes S') v).
  { apply count_mono. eauto using in_nodes_validator. }
  assert (count (isVBlockingInternal S) i <= count (isVBlockingInternal S') i); [|lia].
  apply count_mono. intros q Hq. apply (proj1 (List.Forall_forall _ _) IH q Hq).
  - by apply (qset_repr_inner t v i).
  - by apply (qset_wf_inner t v i).
  - eauto using in_nodes_inner.
Qed.

(** Blocking is the complement of containing a slice. *)
Lemma vblocking_dual S T q :
  qset_repr q -> qset_wf q = true ->
  (forall n, In n (qset_nodes q) -> inNodes S n = negb (inNodes T n)) ->
  isVBlockingInternal S q = negb (isQuorumSliceInternal T q).
Proof.
  induction q as [t v i IH] using qset_ind'. intros Hr Hw Hc.
  pose proof (qset_wf_bounds t v i Hw) as Ht.
  rewrite vblocking_unfold, slice_unfold by done.
  rewrite (count_negb (inNodes S) (inNodes T) v) by eauto using in_nodes_validator.
  rewrite (count_negb (isVBlockingInternal S) (isQuorumSliceInternal T) i).
  2: { intros q Hq. apply (proj1 (List.Forall_forall _ _) IH q Hq).
       - by apply (qset_repr_inner t v i).
       - by apply (qset_wf_inner t v i).
       - eauto using in_nodes_inner. }
  unfold eff_threshold. rewrite (proj2 (Z.eqb_neq t 0)) by lia.
  pose proof (count_bounds (inNodes T) v). pose proof (count_bounds (isQuorumSliceInternal T) i).
  destruct (Z.leb_spec t (count (inNodes T) v + count (isQuorumSliceInternal T) i));
    [rewrite (proj2 (Z.leb_gt _ _))|rewrite (proj2 (Z.leb_le _ _))]; done || lia.
Qed.

Lemma inNodes_In S n : inNodes S n = true <-> In n S.
Proof.
  unfold inNodes. rewrite existsb_exists. split.
  - intros (x & Hx & ->%Z.eqb_eq). done.
  - intros. exists n. by rewrite Z.eqb_refl.
Qed.

Lemma inNodes_filter (f : NodeID -> bool) l n :
  inNodes (List.filter f l) n = f n && inNodes l n.
Proof.
  apply eq_true_iff_eq. rewrite andb_true_iff, !inNodes_In, filter_In. tauto.
Qed.

(** C39: On a sane quorum set, [isVBlocking] answers [true] exactly for the sets
    of nodes that meet every quorum slice of the set. *)
Theorem isVBlocking_meets_every_slice q S :
  qset_repr q -> qset_wf q = true ->
  isVBlocking q S = true <->
  (forall T, isQuorumSlice q T = true -> exists n, In n S /\ In n T).
Proof.
  intros Hr Hw. unfold isVBlocking, isQuorumSlice.
  set (T0 := List.filter (fun n => negb (inNodes S n)) (qset_nodes q)).
  assert (isVBlockingInternal S q = negb (isQuorumSliceInternal T0 q)) as ->.
  { apply vblocking_dual; [done..|]. intros n Hn. subst T0.
    rewrite inNodes_filter, (proj2 (inNodes_In (qset_nodes q) n)), andb_true_r, negb_involutive by done.
    done. }
  rewrite negb_true_iff. split.
  - intros H0 T HT. destruct (existsb (inNodes S) T) eqn:E.
    + apply existsb_exists in E as (n & Hn & Hs). exists n. by rewrite <- inNodes_In.
    + exfalso. enough (isQuorumSliceInternal T0 q = true) by congruence.
      apply (slice_mono T T0 q); [done| |done]. intros n Hn HnT. subst T0.
      rewrite inNodes_filter, (proj2 (inNodes_In (qset_nodes q) n)), andb_true_r by done.
      destruct (inNodes S n) eqn:E'; [|done]. exfalso.
      enough (existsb (inNodes S) T = true) by congruence.
      apply existsb_exists. exists n. by rewrite <- inNodes_In.
  - intros H. destruct (isQuorumSliceInternal T0 q) eqn:E; [|done].
    destruct (H T0 E) as (n & H1 & H2). subst T0. apply filter_In in H2 as [_ H2].
    rewrite (proj2 (inNodes_In S n) H1) in H2. done.
Qed.

Lemma isVBlocking_meets_every_slice_witness :
  isVBlocking qset_ex [1; 3; 4] = true <->
  (forall T, isQuorumSlice qset_ex T = true -> exists n, In n [1; 3; 4] /\ In n T).
Proof.
  apply isVBlocking_meets_every_slice; [|reflexivity].
  split; [reflexivity|vm_compute; discriminate].
Defined.

(** ** Quorums *)

Section Quorums.
Context {Stmt : Type} (map : list (NodeID * Stmt)) (qfun : Stmt -> option SCPQuorumSet).
Hypothesis qfun_repr : forall n st q, In (n, st) map -> qfun st = Some q -> qset_repr q.

(** Every member's quorum set is satisfied inside the set itself. *)
Definition closed (U : list NodeID) : Prop :=
  forall n, In n U -> quorumFilter map qfun U n = true.

Lemma mapFind_In {V} (m : list (NodeID * V)) n st : mapFind m n = Some st -> In (n, st) m.
Proof.
  unfold mapFind. destruct (List.find _ m) as [[k v]|] eqn:E; [|done].
  intros [= ->]. apply find_some in E as [H1 H2]. apply Z.eqb_eq in H2 as ->. done.
Qed.

Lemma quorumFilter_mono P P' n :
  (forall x, In x P -> In x P') ->
  quorumFilter map qfun P n = true -> quorumFilter map qfun P' n = true.
Proof.
  intros Hsub. unfold quorumFilter. destruct (mapFind map n) as [st|] eqn:E; [|done].
  destruct (qfun st) as [q|] eqn:E'; [|done]. apply slice_mono.
  - eapply qfun_repr; [by apply mapFind_In|done].
  - intros x _. rewrite !inNodes_In. auto.
Qed.

Lemma filter_length_eq {A} (f : A -> bool) l :
  length l = length (List.filter f l) -> List.filter f l = l.
Proof.
  induction l as [|x l IH]; [done|]. cbn. pose proof (List.filter_length_le f l).
  destruct (f x); cbn [length]; intros H1; [|lia]. by rewrite IH by lia.
Qed.

Lemma quorumLoop_spec fuel P :
  (length P < fuel)%nat ->
  exists R, quorumLoop fuel map qfun P = Some R /\ closed R /\
    (forall n, In n R -> In n P) /\
    (forall U, closed U -> (forall n, In n U -> In n P) -> forall n, In n U -> In n R).
Proof.
  revert P. induction fuel as [|fuel IH]; intros P Hf; [lia|]. cbn [quorumLoop].
  set (F := List.filter (quorumFilter map qfun P) P).
  assert (length F <= length P)%nat as Hle by apply List.filter_length_le.
  destruct (Nat.eqb_spec (length P) (length F)) as [E|E].
  - apply filter_length_eq in E. fold F in E. exists F. rewrite E. repeat split; auto.
    intros n Hn. rewrite <- E in Hn. by apply filter_In in Hn as [_ Hn].
  - destruct (IH F ltac:(lia)) as (R & HR & Hc & Hsub & Hgr). exists R.
    repeat split; auto.
    + intros n Hn. by apply Hsub, filter_In in Hn as [Hn _].
    + intros U HU HUP. apply Hgr; [done|]. intros n Hn. apply filter_In. split; [auto|].
      by apply (quorumFilter_mono U P), HU.
Qed.

Lemma mapFind_NoDup {V} (m : list (NodeID * V)) n st :
  NoDup m.*1 -> In (n, st) m -> mapFind m n = Some st.
Proof.
  intros Hnd Hin. unfold mapFind. induction m as [|[k v] m IH]; [done|].
  cbn in *. inversion Hnd as [|? ? Hk Hnd']; subst. destruct Hin as [[= -> ->]|Hin].
  - by rewrite Z.eqb_refl.
  - destruct (Z.eqb_spec k n) as [->|]; [|by apply IH].
    exfalso. apply Hk, list_elem_of_In, in_map_iff. by exists (n, st).
Qed.

Lemma filterNodes_In (flt : Stmt -> bool) n :
  NoDup map.*1 ->
  In n (filterNodes flt map) <-> exists st, mapFind map n = Some st /\ flt st = true.
Proof.
  intros Hnd. unfold filterNodes. rewrite in_map_iff. split.
  - intros ([k st] & <- & [H1 H2]%filter_In). exists st. split; [|done].
    by apply mapFind_NoDup.
  - intros (st & H1 & H2). exists (n, st). split; [done|]. apply filter_In. split; [|done].
    by apply mapFind_In.
Qed.

End Quorums.

(** A set of nodes is a quorum for the filter: each member has sent a statement
    that passes it and has a quorum slice inside the set. *)
Definition quorum_of {Stmt} (map : list (NodeID * Stmt)) (qfun : Stmt -> option SCPQuorumSet)
    (flt : Stmt -> bool) (U : list NodeID) : Prop :=
  forall n, In n U -> exists st qs,
    mapFind map n = Some st /\ flt st = true /\ qfun st = Some qs /\ isQuorumSlice qs U = true.

Lemma isQuorum_sound {Stmt} (q : SCPQuorumSet) (map : list (NodeID * Stmt)) qfun flt :
  NoDup map.*1 ->
  (forall n st qs, In (n, st) map -> qfun st = Some qs -> qset_repr qs) ->
  isQuorum q map qfun flt = true ->
  exists U, quorum_of map qfun flt U /\ isQuorumSlice q U = true.
Proof.
  intros Hnd Hq. unfold isQuorum. set (P := filterNodes flt map).
  destruct (quorumLoop_spec map qfun Hq (S (length P)) P ltac:(lia))
    as (R & -> & Hc & Hsub & Hgr).
  intros H. exists R. split; [|done]. intros n Hn.
  pose proof (Hsub n Hn) as (st & Hst & Hf)%filterNodes_In; [|done].
  specialize (Hc n Hn). unfold quorumFilter in Hc. rewrite Hst in Hc.
  destruct (qfun st) as [qs|] eqn:E; [|done]. by exists st, qs.
Qed.

(** C25: [isQuorum] finds a quorum whenever there is one and only then: it
    answers [true] exactly when some set of nodes, all of whose statements pass
    the filter and each of which has a slice inside the set, contains a slice
    of the local quorum set.  The fixpoint loop always terminates. *)
Theorem isQuorum_iff {Stmt} (q : SCPQuorumSet) (map : list (NodeID * Stmt)) qfun flt :
  NoDup map.*1 -> qset_repr q ->
  (forall n st qs, In (n, st) map -> qfun st = Some qs -> qset_repr qs) ->
  isQuorum q map qfun flt = true <->
  exists U, quorum_of map qfun flt U /\ isQuorumSlice q U = true.
Proof.
  intros Hnd Hr Hq. split; [by apply isQuorum_sound|]. unfold isQuorum. set (P := filterNodes flt map).
  destruct (quorumLoop_spec map qfun Hq (S (length P)) P ltac:(lia))
    as (R & -> & Hc & Hsub & Hgr).
  intros (U & HU & Hs). apply (slice_mono U R q); [done| |done].
  intros n _. rewrite !inNodes_In. apply Hgr.
  - intros x Hx. destruct (HU x Hx) as (st & qs & H1 & _ & H3 & H4).
    unfold quorumFilter. by rewrite H1, H3.
  - intros x Hx. destruct (HU x Hx) as (st & qs & H1 & H2 & _).
    apply filterNodes_In; eauto.
Qed.

Lemma isQuorum_iff_witness :
  isQuorum (QSet 2 [1; 2; 3] []) [(1, true); (2, true); (3, false)]
    (fun _ => Some (QSet 2 [1; 2; 3] [])) id = true <->
  exists U, quorum_of [(1, true); (2, true); (3, false)]
    (fun _ => Some (QSet 2 [1; 2; 3] [])) id U /\ isQuorumSlice (QSet 2 [1; 2; 3] []) U = true.
Proof.
  apply isQuorum_iff.
  - by apply (bool_decide_unpack _).
  - split; [reflexivity|vm_compute; discriminate].
  - intros ? ? ? _ [= <-]. split; [reflexivity|vm_compute; discriminate].
Defined.
