(* ===== verification/QuorumFacts.v ===== *)
(** * Normalisation, weights and closest blocking sets

    Theorems about the operations of [QuorumSetUtils.cpp] and [LocalNode.cpp]
    that combine the two: normalising a quorum set does not change its slices,
    node weights, and the answer of [findClosestVBlocking]. *)

From stdpp Require Import base list gmap strings.
From S2P Require Import Prelude Numeric QuorumSet LocalNode.

Local Open Scope Z_scope.

(** ** Sorting *)

Lemma sortInsert_perm {A} (ltb : A -> A -> bool) x l :
  Permutation (sortInsert ltb x l) (x :: l).
Proof.
  induction l as [|y l IH]; cbn; [done|]. destruct (ltb y x); [|done].
  rewrite IH. constructor.
Qed.

Lemma stdSort_perm {A} (ltb : A -> A -> bool) l : Permutation (stdSort ltb l) l.
Proof.
  induction l as [|x l IH]; cbn; [done|]. rewrite sortInsert_perm. by constructor.
Qed.

(** ** Normalisation preserves slices *)

Lemma count_map {A B} (f : B -> bool) (g : A -> B) l :
  count f (map g l) = count (fun x => f (g x)) l.
Proof. induction l; [done|]. cbn [map]. by rewrite !count_cons, IHl. Qed.

Lemma forallb_perm {A} (f : A -> bool) l l' :
  Permutation l l' -> forallb f l = forallb f l'.
Proof.
  intros H. apply eq_true_iff_eq. rewrite !forallb_forall.
  split; intros H' x Hx; apply H'; [by rewrite H|by rewrite <- H].
Qed.

Lemma list_sum_perm l l' : Permutation l l' -> list_sum l = list_sum l'.
Proof. unfold list_sum. induction 1; cbn; lia. Qed.

Lemma forallb_map' {A B} (f : B -> bool) (g : A -> B) l :
  forallb f (map g l) = forallb (fun x => f (g x)) l.
Proof. induction l; [done|]. cbn. by rewrite IHl. Qed.

Lemma forallb_ext_in {A} (f g : A -> bool) l :
  (forall x, In x l -> f x = g x) -> forallb f l = forallb g l.
Proof.
  induction l; intros H; [done|]. cbn. rewrite (H a), IHl; [done| |by left].
  intros. apply H. by right.
Qed.

Lemma reorder_u32 q : qset_u32 (normalizeQuorumSetReorder q) = qset_u32 q.
Proof.
  induction q as [t v i IH] using qset_ind'. cbn [normalizeQuorumSetReorder qset_u32]. f_equal.
  rewrite (forallb_perm _ _ _ (stdSort_perm _ _)), forallb_map'.
  apply forallb_ext_in. by apply List.Forall_forall.
Qed.

Lemma reorder_size q : qset_size (normalizeQuorumSetReorder q) = qset_size q.
Proof.
  induction q as [t v i IH] using qset_ind'. cbn [normalizeQuorumSetReorder qset_size].
  rewrite !(Permutation_length (stdSort_perm _ _)), length_map.
  rewrite (list_sum_perm _ _ (Permutation_map _ (stdSort_perm _ _))), map_map.
  do 2 f_equal. apply map_ext_in. by apply List.Forall_forall.
Qed.

Lemma reorder_repr q : qset_repr q -> qset_repr (normalizeQuorumSetReorder q).
Proof. unfold qset_repr. by rewrite reorder_u32, reorder_size. Qed.

Lemma reorder_slice S q :
  qset_repr q -> isQuorumSliceInternal S (normalizeQuorumSetReorder q) = isQuorumSliceInternal S q.
Proof.
  induction q as [t v i IH] using qset_ind'. intros Hr.
  pose proof (reorder_repr _ Hr) as Hr'. cbn [normalizeQuorumSetReorder] in *.
  rewrite !slice_unfold by done. do 2 f_equal.
  - apply count_Permutation, stdSort_perm.
  - rewrite (count_Permutation _ _ _ (stdSort_perm _ _)), count_map. apply count_ext.
    intros q Hq. apply (proj1 (List.Forall_forall _ _) IH q Hq).
    by apply (qset_repr_inner t v i).
Qed.

(** Moving singleton inner sets to the validators keeps the number of
    satisfied entries, of entries, and the size. *)
Lemma mergeSingletons_facts S v l :
  Forall qset_repr l ->
  let '(v', i') := mergeSingletons v l in
  count (inNodes S) v' + count (isQuorumSliceInternal S) i' =
    count (inNodes S) v + count (isQuorumSliceInternal S) l /\
  (length v' + length i' = length v + length l)%nat /\
  (list_sum (map qset_size i') <= list_sum (map qset_size l))%nat /\
  (forall q, In q i' -> In q l).
Proof.
  unfold list_sum. intros HF. revert v. induction HF as [|q l Hq HF IH]; intros v.
  { cbn. repeat split; auto with lia. }
  assert (let '(v', i') := mergeSingletons v l in
    count (inNodes S) v' + count (isQuorumSliceInternal S) (q :: i') =
      count (inNodes S) v + count (isQuorumSliceInternal S) (q :: l) /\
    (length v' + length (q :: i') = length v + length (q :: l))%nat /\
    (fold_right Nat.add 0 (map qset_size (q :: i')) <= fold_right Nat.add 0 (map qset_size (q :: l)))%nat /\
    (forall q', In q' (q :: i') -> In q' (q :: l))) as Hkeep.
  { specialize (IH v). destruct (mergeSingletons v l) as [v' i'].
    destruct IH as (H1 & H2 & H3 & H4). rewrite !count_cons. cbn [length map fold_right].
    repeat split; try lia. intros q' [->|H]; [by left|right; auto]. }
  cbn [mergeSingletons]. destruct q as [t vs ins].
  destruct t as [|[?|?|]|?]; try (destruct (mergeSingletons v l); exact Hkeep).
  destruct vs as [|n [|? ?]]; try (destruct (mergeSingletons v l); exact Hkeep).
  destruct ins as [|? ?]; try (destruct (mergeSingletons v l); exact Hkeep).
  clear Hkeep. specialize (IH (v ++ [n])). destruct (mergeSingletons (v ++ [n]) l) as [v' i'].
  destruct IH as (H1 & H2 & H3 & H4). rewrite count_cons, slice_unfold by done.
  rewrite !count_app, !count_cons, !count_nil in *. rewrite length_app in H2. cbn in H2 |- *.
  change (eff_threshold 1) with 1.
  repeat split; try lia.
  - replace (1 <=? _) with (inNodes S n) by (by destruct (inNodes S n)). lia.
  - intros q' H. right. auto.
Qed.

Lemma mergeSingletons_u32 v l :
  forallb qset_u32 l = true -> forallb qset_u32 (mergeSingletons v l).2 = true.
Proof.
  revert v. induction l as [|q l IH]; intros v H; [done|]. cbn [forallb] in H.
  apply andb_true_iff in H as [Hq Hl].
  assert (forallb qset_u32 (let '(v', i') := mergeSingletons v l in (v', q :: i')).2 = true).
  { specialize (IH v Hl). destruct (mergeSingletons v l). cbn in *. by rewrite Hq. }
  cbn [mergeSingletons]. destruct q as [[|[?|?|]|?] [|? [|? ?]] [|? ?]]; auto.
Qed.

(** Without a node to remove, the simplified set is representable and has the
    same slices. *)
Lemma simplify_facts S q :
  qset_repr q ->
  qset_repr (normalizeQSetSimplify None q) /\
  (qset_size (normalizeQSetSimplify None q) <= qset_size q)%nat /\
  isQuorumSliceInternal S (normalizeQSetSimplify None q) = isQuorumSliceInternal S q.
Proof.
  induction q as [t v i IH] using qset_ind'. intros Hr.
  assert (Forall (fun q => qset_repr (normalizeQSetSimplify None q) /\
    (qset_size (normalizeQSetSimplify None q) <= qset_size q)%nat /\
    isQuorumSliceInternal S (normalizeQSetSimplify None q) = isQuorumSliceInternal S q) i) as HI.
  { apply List.Forall_forall. intros q Hq. apply (proj1 (List.Forall_forall _ _) IH q Hq).
    by apply (qset_repr_inner t v i). }
  clear IH. cbn [normalizeQSetSimplify removeValidator].
  set (l := map (normalizeQSetSimplify None) i).
  assert (Forall qset_repr l) as Hl.
  { apply List.Forall_forall. intros q' (q & <- & Hq)%in_map_iff.
    by apply (proj1 (List.Forall_forall _ _) HI q Hq). }
  assert (list_sum (map qset_size l) <= list_sum (map qset_size i))%nat as Hsz.
  { subst l. rewrite map_map. unfold list_sum. clear -HI. induction HI; cbn; lia. }
  assert (count (isQuorumSliceInternal S) l = count (isQuorumSliceInternal S) i) as Hcnt.
  { subst l. rewrite count_map. apply count_ext. intros q Hq.
    by apply (proj1 (List.Forall_forall _ _) HI q Hq). }
  pose proof (mergeSingletons_facts S v l Hl) as Hm.
  destruct (mergeSingletons v l) as [v' i'] eqn:Em.
  destruct Hm as (H1 & H2 & H3 & H4).
  assert (length l = length i) as Hlen by (subst l; apply length_map).
  assert (qset_repr (QSet t v' i')) as Hr'.
  { destruct Hr as [Hu Hs]. split.
    - cbn [qset_u32] in *. rewrite !andb_true_iff in *. split; [tauto|].
      rewrite forallb_forall. intros q Hq.
      by apply (proj1 (List.Forall_forall _ _) Hl q (H4 q Hq)).
    - cbn [qset_size] in *. lia. }
  assert (isQuorumSliceInternal S (QSet t v' i') = isQuorumSliceInternal S (QSet t v i)) as Hsl.
  { rewrite !slice_unfold by done. f_equal. lia. }
  assert (qset_size (QSet t v' i') <= qset_size (QSet t v i))%nat as Hsz'.
  { cbn [qset_size]. lia. }
  destruct v' as [|]; [|auto]. destruct i' as [|inner [|]]; auto.
  destruct (Z.eqb_spec t 1) as [->|]; [|auto].
  pose proof (qset_repr_inner _ _ _ inner Hr' ltac:(by left)) as Hri. split; [done|].
  split; [cbn [qset_size map] in Hsz' |- *; unfold list_sum in Hsz'; cbn [fold_right] in Hsz'; cbn in *; lia|].
  rewrite <- Hsl, slice_unfold, count_cons, !count_nil by done.
  change (eff_threshold 1) with 1. destruct (isQuorumSliceInternal S inner); done.
Qed.

(** Normalising a quorum set (merging singleton inner sets, unwrapping a
    lone inner set, sorting) changes none of its quorum slices. *)
Theorem normalizeQSet_preserves_slices q S :
  qset_repr q -> isQuorumSlice (normalizeQSet q None) S = isQuorumSlice q S.
Proof.
  intros Hr. destruct (simplify_facts S q Hr) as (H1 & _ & H2).
  unfold isQuorumSlice, normalizeQSet. rewrite reorder_slice by done. exact H2.
Qed.

Lemma normalizeQSet_preserves_slices_witness :
  isQuorumSlice (normalizeQSet (QSet 2 [3; 1] [QSet 1 [2] []; QSet 1 [] [QSet 2 [5; 4] []]]) None) [2; 4; 5] = true.
Proof.
  rewrite normalizeQSet_preserves_slices; [reflexivity|].
  split; [reflexivity|vm_compute; discriminate].
Defined.

(** ** Node weights *)

Lemma computeWeight_spec m total t :
  0 <= m <= UINT64_MAX -> 1 <= t <= total -> total <= UINT64_MAX ->
  exists w, computeWeight m total t = inr w /\ 0 <= w <= m /\ (0 < m -> 0 < w).
Proof.
  intros Hm Ht Htot. unfold computeWeight, releaseAssert.
  rewrite (proj2 (Z.leb_le t total)) by lia. cbn -[bigDivideUnsigned].
  rewrite bigDivideUnsigned_eq by lia. cbn [round_div].
  assert (0 <= ceil_div (m * t) total <= m) as Hw.
  { split; [apply ceil_div_nonneg; nia|]. apply ceil_div_le; nia. }
  rewrite (proj2 (Z.leb_le _ UINT64_MAX)) by lia. cbn.
  exists (ceil_div (m * t) total). rewrite u64_small by lia. split; [done|]. split; [lia|].
  intros. pose proof (ceil_div_mul (m * t) total ltac:(lia)). nia.
Qed.

Definition weightInner (nodeID d n : Z) :=
  fix inner (l : list SCPQuorumSet) : exc Z :=
    match l with
    | [] => mret 0
    | q :: l' =>
        let* leafW := getNodeWeight nodeID q in
        if leafW =? 0 then inner l' else computeWeight leafW d n
    end.

Lemma weightInner_spec nodeID d n l :
  1 <= n <= d -> d <= UINT64_MAX ->
  Forall (fun q => exists w, getNodeWeight nodeID q = inr w /\ 0 <= w <= UINT64_MAX /\
            (0 < w <-> In nodeID (qset_nodes q))) l ->
  exists w, weightInner nodeID d n l = inr w /\ 0 <= w <= UINT64_MAX /\
    (0 < w <-> In nodeID (concat (map qset_nodes l))).
Proof.
  intros Hn Hd. induction 1 as [|q l (w & Hw & Hr & Hiff) _ IH].
  { exists 0. cbn. split; [done|]. unfold UINT64_MAX. lia. }
  cbn [weightInner map concat]. rewrite Hw. cbn [bnd mbind exc_bind].
  setoid_rewrite in_app_iff. setoid_rewrite <- Hiff.
  destruct (Z.eqb_spec w 0) as [->|Hne].
  - destruct IH as (w' & Hw' & ? & Hiff'). exists w'. split; [exact Hw'|]. split; [done|].
    rewrite Hiff'. split; [tauto|]. intros [?|?]; [lia|done].
  - destruct (computeWeight_spec w d n) as (w' & -> & ? & Hpos); [lia..|].
    exists w'. split; [done|]. split; [lia|]. split; [|lia]. left. lia.
Qed.

(** On a sane quorum set the weight of a node is computed without failing
    an assertion, fits in 64 bits, and is positive exactly for the nodes the
    quorum set names. *)
Theorem getNodeWeight_spec nodeID q :
  qset_repr q -> qset_wf q = true ->
  exists w, getNodeWeight nodeID q = inr w /\ 0 <= w <= UINT64_MAX /\
    (0 < w <-> In nodeID (qset_nodes q)).
Proof.
  induction q as [t v i IH] using qset_ind'. intros Hr Hw.
  pose proof (qset_repr_bounds t v i Hr) as [_ Hb]. pose proof (qset_wf_bounds t v i Hw) as Ht.
  cbn [getNodeWeight qset_nodes]. setoid_rewrite in_app_iff. unfold INT32_MAX in *.
  rewrite u64_small by (unfold UINT64_MAX; lia).
  fold (inNodes v nodeID). destruct (inNodes v nodeID) eqn:E.
  - destruct (computeWeight_spec UINT64_MAX (Z.of_nat (length i) + Z.of_nat (length v)) t)
      as (w & Hcw & Hle & Hpos); [unfold UINT64_MAX; lia..|].
    exists w. split; [exact Hcw|]. split; [lia|]. apply inNodes_In in E.
    split; [auto|]. intros _. apply Hpos. reflexivity.
  - apply not_true_iff_false in E. rewrite inNodes_In in E.
    destruct (weightInner_spec nodeID (Z.of_nat (length i) + Z.of_nat (length v)) t i)
      as (w & Hcw & Hle & Hiff); [lia|unfold UINT64_MAX; lia| |].
    { apply List.Forall_forall. intros q Hq. apply (proj1 (List.Forall_forall _ _) IH q Hq).
      - by apply (qset_repr_inner t v i).
      - by apply (qset_wf_inner t v i). }
    exists w. split; [exact Hcw|]. split; [done|]. rewrite Hiff. tauto.
Qed.

Lemma getNodeWeight_spec_witness :
  exists w, getNodeWeight 4 qset_ex = inr w /\ 0 <= w <= UINT64_MAX /\
    (0 < w <-> In 4 (qset_nodes qset_ex)).
Proof.
  apply getNodeWeight_spec; [|reflexivity].
  split; [reflexivity|vm_compute; discriminate].
Defined.

(** ** The closest v-blocking set *)

Lemma closestValidators_spec (nodes : NodeID -> bool) v left res :
  1 <= left <= UINT64_MAX ->
  closestValidators nodes None v left res =
    if left <=? count (fun n => negb (nodes n)) v then None
    else Some (left - count (fun n => negb (nodes n)) v, res ++ List.filter nodes v).
Proof.
  revert left res. induction v as [|n v IH]; intros left res Hl.
  - cbn. rewrite (proj2 (Z.leb_gt left _)) by (rewrite count_nil; lia).
    by rewrite count_nil, Z.sub_0_r, app_nil_r.
  - cbn [closestValidators List.filter]. rewrite bool_decide_false by done.
    rewrite count_cons. pose proof (count_bounds (fun n => negb (nodes n)) v).
    destruct (nodes n); cbn [negb].
    + rewrite IH, <- app_assoc by lia. done.
    + rewrite u64_small by lia. destruct (Z.eqb_spec (left - 1) 0) as [E|E].
      * by rewrite (proj2 (Z.leb_le _ _)) by lia.
      * rewrite IH by lia.
        destruct (Z.leb_spec (left - 1) (count (fun n => negb (nodes n)) v));
          [rewrite (proj2 (Z.leb_le _ _))|rewrite (proj2 (Z.leb_gt _ _))]; try lia; [done|].
        do 2 f_equal. lia.
Qed.

Definition closestInner (nodes : NodeID -> bool) (excluded : option NodeID) :=
  fix inner (l : list SCPQuorumSet) (left : Z) (ints : list (list NodeID))
      : option (Z * list (list NodeID)) :=
    match l with
    | [] => Some (left, ints)
    | q :: l' =>
        match findClosestVBlocking nodes excluded q with
        | [] =>
            let left := u64 (left - 1) in
            if left =? 0 then None else inner l' left ints
        | r => inner l' left (insertBySize r ints)
        end
    end.

Definition answered (nodes : NodeID -> bool) (q : SCPQuorumSet) : bool :=
  match findClosestVBlocking nodes None q with [] => true | _ => false end.

(** The inner answers that are not empty, in the order of the inner sets. *)
Definition answers (nodes : NodeID -> bool) (l : list SCPQuorumSet) : list (list NodeID) :=
  map (findClosestVBlocking nodes None) (List.filter (fun q => negb (answered nodes q)) l).

Lemma insertBySize_perm x l : Permutation (insertBySize x l) (x :: l).
Proof.
  induction l as [|y l IH]; cbn; [done|]. case_match; [done|].
  rewrite IH. constructor.
Qed.

Lemma closestInner_spec nodes l left ints :
  1 <= left <= UINT64_MAX ->
  match closestInner nodes None l left ints with
  | None => left <= count (answered nodes) l
  | Some (left', ints') =>
      count (answered nodes) l < left /\ left' = left - count (answered nodes) l /\
      Permutation ints' (ints ++ answers nodes l)
  end.
Proof.
  revert left ints. induction l as [|q l IH]; intros left ints Hl.
  - cbn. rewrite count_nil, app_nil_r. repeat split; lia || done.
  - cbn [closestInner]. rewrite count_cons. unfold answers. cbn [List.filter].
    assert (answered nodes q =
      match findClosestVBlocking nodes None q with [] => true | _ => false end) as Ha by done.
    destruct (findClosestVBlocking nodes None q) as [|x r] eqn:E; rewrite Ha; cbn [negb].
    + rewrite u64_small by lia. pose proof (count_bounds (answered nodes) l).
      destruct (Z.eqb_spec (left - 1) 0); [lia|].
      specialize (IH (left - 1) ints ltac:(lia)). fold (answers nodes l).
      destruct (closestInner nodes None l (left - 1) ints) as [[left' ints']|]; [|lia].
      destruct IH as (H1 & H2 & H3). repeat split; [lia..|done].
    + specialize (IH left (insertBySize (x :: r) ints) Hl).
      destruct (closestInner nodes None l left _) as [[left' ints']|]; [|lia].
      destruct IH as (H1 & H2 & H3). split; [lia|]. split; [lia|].
      rewrite H3. cbn [map]. rewrite E. fold (answers nodes l).
      rewrite (insertBySize_perm (x :: r) ints). apply Permutation_middle.
Qed.

Lemma takeInternals_spec left l res :
  0 <= left <= UINT64_MAX -> takeInternals left l res = res ++ concat (take (Z.to_nat left) l).
Proof.
  revert left res. induction l as [|x l IH]; intros left res Hl; cbn [takeInternals].
  - by rewrite take_nil, app_nil_r.
  - destruct (Z.eqb_spec left 0) as [->|Hne]; [cbn; by rewrite app_nil_r|].
    rewrite u64_small, IH by lia. replace (Z.to_nat left) with (Datatypes.S (Z.to_nat (left - 1))) by lia.
    cbn. by rewrite <- app_assoc.
Qed.

Lemma count_partition {A} (f g : A -> bool) l :
  count f l = count f (List.filter g l) + count f (List.filter (fun x => negb (g x)) l).
Proof.
  induction l as [|x l IH]; [done|]. rewrite count_cons. cbn [List.filter].
  destruct (g x); cbn [negb]; rewrite count_cons; lia.
Qed.

Lemma count_take {A} (f : A -> bool) k l :
  (forall x, In x (take k l) -> f x = true) -> Z.of_nat (length (take k l)) <= count f l.
Proof.
  revert k. induction l as [|x l IH]; intros k H; [by rewrite take_nil|].
  rewrite count_cons. destruct k as [|k]; cbn [take length].
  { pose proof (count_bounds f l). destruct (f x); lia. }
  rewrite (H x) by (by left). specialize (IH k). 
  enough (Z.of_nat (length (take k l)) <= count f l) by lia. apply IH.
  intros. apply H. by right.
Qed.

Lemma closest_unfold nodes t v i :
  findClosestVBlocking nodes None (QSet t v i) =
    match closestValidators nodes None v
            (u64 (1 + Z.of_nat (length v) + Z.of_nat (length i) - t)) [] with
    | None => []
    | Some (lft, res) =>
        match closestInner nodes None i lft [] with
        | None => []
        | Some (lft', ints) =>
            let res := if lft' <? Z.of_nat (length res) then take (Z.to_nat lft') res else res in
            takeInternals (u64 (lft' - Z.of_nat (length res))) ints res
        end
    end.
Proof. reflexivity. Qed.

(** The answer: the first usable validators, then the smallest inner answers. *)
Lemma closest_result nodes t v i :
  qset_repr (QSet t v i) -> 1 <= t <= Z.of_nat (length v + length i) ->
  let left := 1 + Z.of_nat (length v + length i) - t in
  let cv := count (fun n => negb (nodes n)) v in
  let ci := count (answered nodes) i in
  left <= cv + ci \/
  exists ints, Permutation ints (answers nodes i) /\ cv + ci < left /\
    let k := Z.to_nat (left - cv - ci) in
    findClosestVBlocking nodes None (QSet t v i) =
      take k (List.filter nodes v) ++ concat (take (k - length (List.filter nodes v)) ints).
Proof.
  intros Hr Ht left cv ci. destruct (qset_repr_bounds t v i Hr) as [_ Hb]. unfold INT32_MAX in *.
  pose proof (count_bounds (fun n => negb (nodes n)) v) as Hcv. fold cv in Hcv.
  pose proof (count_bounds (answered nodes) i) as Hci. fold ci in Hci.
  rewrite closest_unfold, u64_small by (unfold UINT64_MAX; lia).
  replace (1 + Z.of_nat (length v) + Z.of_nat (length i) - t) with left by lia.
  rewrite closestValidators_spec by (unfold UINT64_MAX; lia). fold cv.
  destruct (Z.leb_spec left cv); [lia|].
  pose proof (closestInner_spec nodes i (left - cv) [] ltac:(unfold UINT64_MAX; lia)) as Hin.
  fold ci in Hin. destruct (closestInner nodes None i (left - cv) []) as [[left' ints]|]; [|lia].
  destruct Hin as (H1 & -> & Hp). right. exists ints. split; [done|]. split; [lia|].
  cbn [app]. set (usable := List.filter nodes v). set (left' := left - cv - ci) in *.
  assert ((if left' <? Z.of_nat (length usable) then take (Z.to_nat left') usable else usable) =
          take (Z.to_nat left') usable) as ->.
  { destruct (Z.ltb_spec left' (Z.of_nat (length usable))); [done|].
    symmetry. apply take_ge. lia. }
  rewrite u64_small by (rewrite length_take; unfold UINT64_MAX; lia).
  rewrite takeInternals_spec by (rewrite length_take; unfold UINT64_MAX; lia).
  do 3 f_equal. rewrite length_take. lia.
Qed.

Lemma closest_blocks_aux nodes S q :
  qset_repr q -> qset_wf q = true ->
  (forall n, In n (qset_nodes q) -> nodes n = false -> In n S) ->
  (forall n, In n (findClosestVBlocking nodes None q) -> In n S) ->
  isVBlockingInternal S q = true.
Proof.
  induction q as [t v i IH] using qset_ind'. intros Hr Hw Hcompl Hres.
  pose proof (qset_wf_bounds t v i Hw) as Ht.
  assert (forall q, In q i -> (forall n, In n (findClosestVBlocking nodes None q) -> In n S) ->
            isVBlockingInternal S q = true) as Hblk.
  { intros q Hq Hn. apply (proj1 (List.Forall_forall _ _) IH q Hq); auto.
    - by apply (qset_repr_inner t v i).
    - by apply (qset_wf_inner t v i).
    - eauto using in_nodes_inner. }
  clear IH. rewrite vblocking_unfold by done. apply Z.leb_le.
  assert (count (inNodes S) (List.filter (fun n => negb (nodes n)) v) =
          count (fun n => negb (nodes n)) v) as Hnv.
  { unfold count at 2. rewrite (count_ext _ (fun _ => true)).
    - unfold count. f_equal. f_equal. apply List.forallb_filter_id. by apply forallb_forall.
    - intros n (Hn & Hn')%filter_In. rewrite inNodes_In. apply negb_true_iff in Hn'.
      eauto using in_nodes_validator. }
  assert (count (isVBlockingInternal S) (List.filter (answered nodes) i) = count (answered nodes) i) as Hni.
  { unfold count at 2. rewrite (count_ext _ (fun _ => true)).
    - unfold count. f_equal. f_equal. apply List.forallb_filter_id. by apply forallb_forall.
    - intros q (Hq & Ha)%filter_In. apply Hblk; [done|]. unfold answered in Ha.
      by destruct (findClosestVBlocking nodes None q). }
  rewrite (count_partition (inNodes S) nodes v), (count_partition (isVBlockingInternal S) (answered nodes) i).
  rewrite Hnv, Hni. set (cv := count (fun n => negb (nodes n)) v) in *. set (ci := count (answered nodes) i) in *.
  pose proof (count_bounds (inNodes S) (List.filter nodes v)).
  pose proof (count_bounds (isVBlockingInternal S) (List.filter (fun q => negb (answered nodes q)) i)).
  destruct (closest_result nodes t v i Hr Ht) as [H'|(ints & Hp & Hlt & Heq)]; [fold cv ci in H'; lia|].
  fold cv ci in Hlt, Heq. cbv zeta in Heq. rewrite Heq in Hres.
  set (k := Z.to_nat _) in *. set (usable := List.filter nodes v) in *.
  assert (Z.of_nat (length (take k usable)) <= count (inNodes S) usable) as Husb.
  { apply count_take. intros n Hn. rewrite inNodes_In. apply Hres, in_or_app. by left. }
  set (un := List.filter (fun q => negb (answered nodes q)) i) in *.
  assert (Z.of_nat (length (take (k - length usable) ints)) <= count (isVBlockingInternal S) un) as Hint.
  { etrans; [apply (count_take (forallb (inNodes S)))|].
    - intros r Hr'. rewrite forallb_forall. intros n Hn. rewrite inNodes_In.
      apply Hres, in_or_app. right. apply in_concat. eauto.
    - rewrite (count_Permutation _ _ _ Hp). unfold answers. fold un. rewrite count_map.
      apply count_mono. intros q (Hq & _)%filter_In. rewrite forallb_forall. intros Hq'.
      apply Hblk; [done|]. intros n Hn. rewrite <- inNodes_In. auto. }
  rewrite length_take in Hint. rewrite length_take in Husb.
  assert (length ints = length un) as Hlu.
  { rewrite (Permutation_length Hp). unfold answers. by rewrite length_map. }
  assert (Z.of_nat (length usable) = Z.of_nat (length v) - cv).
  { subst usable cv. rewrite (count_negb (fun n => negb (nodes n)) nodes v) by done. unfold count. lia. }
  assert (Z.of_nat (length un) = Z.of_nat (length i) - ci).
  { subst un ci. rewrite (count_negb (answered nodes) (fun q => negb (answered nodes q)) i)
      by (intros; by rewrite negb_involutive). unfold count. lia. }
  subst k. lia.
Qed.

(** Removing the nodes returned by [findClosestVBlocking] from [nodes]
    leaves the quorum set unsatisfiable: together with the nodes outside
    [nodes] they form a v-blocking set. *)
Theorem findClosestVBlocking_blocks nodes S q :
  qset_repr q -> qset_wf q = true ->
  (forall n, In n (qset_nodes q) -> nodes n = false -> In n S) ->
  (forall n, In n (findClosestVBlocking nodes None q) -> In n S) ->
  isVBlocking q S = true.
Proof. apply closest_blocks_aux. Qed.

Lemma findClosestVBlocking_blocks_witness :
  isVBlocking qset_ex (1 :: findClosestVBlocking (fun n => negb (n =? 1)) None qset_ex) = true.
Proof.
  apply (findClosestVBlocking_blocks (fun n => negb (n =? 1))); [|reflexivity| |].
  - split; [reflexivity|vm_compute; discriminate].
  - intros n _ Hn. left. apply negb_false_iff, Z.eqb_eq in Hn. congruence.
  - intros n Hn. by right.
Defined.
