(* ===== verification/Statement.v ===== *)
(** * Ballots and statements

    The data of [xdr/Hcnet-SCP.x] and the static functions of
    [src/scp/BallotProtocol.cpp] and [src/scp/Slot.cpp] that only look at
    ballots and statements.  A [Value] is an opaque byte string; [<] on values
    is the lexicographic order of their bytes. *)

From stdpp Require Import base list gmap strings.
From S2P Require Import Prelude QuorumSet LocalNode.

Local Open Scope Z_scope.

Abbreviation Value := (list Z) (only parsing).
Abbreviation Hash := Z (only parsing).

Record SCPBallot := mkBallot { counter : Z; value : Value }.

(** The default-constructed [SCPBallot()]. *)
Definition nullBallot : SCPBallot := mkBallot 0 [].

Record SCPPrepare := mkPrepare {
  p_quorumSetHash : Hash;
  p_ballot : SCPBallot;
  p_prepared : option SCPBallot;
  p_preparedPrime : option SCPBallot;
  p_nC : Z;
  p_nH : Z
}.

Record SCPConfirm := mkConfirm {
  c_ballot : SCPBallot;
  c_nPrepared : Z;
  c_nCommit : Z;
  c_nH : Z;
  c_quorumSetHash : Hash
}.

Record SCPExternalize := mkExternalize {
  e_commit : SCPBallot;
  e_nH : Z;
  e_commitQuorumSetHash : Hash
}.

Record SCPNomination := mkNomination {
  n_quorumSetHash : Hash;
  n_votes : list Value;
  n_accepted : list Value
}.

Inductive SCPPledges :=
  | SCP_ST_PREPARE (p : SCPPrepare)
  | SCP_ST_CONFIRM (c : SCPConfirm)
  | SCP_ST_EXTERNALIZE (e : SCPExternalize)
  | SCP_ST_NOMINATE (n : SCPNomination).

Record SCPStatement := mkStatement {
  nodeID : NodeID;
  slotIndex : Z;
  pledges : SCPPledges
}.

Record SCPEnvelope := mkEnvelope {
  statement : SCPStatement;
  signature : list Z
}.

#[export] Instance SCPBallot_eq_dec : EqDecision SCPBallot.
Proof. solve_decision. Defined.
#[export] Instance SCPPrepare_eq_dec : EqDecision SCPPrepare.
Proof. solve_decision. Defined.
#[export] Instance SCPConfirm_eq_dec : EqDecision SCPConfirm.
Proof. solve_decision. Defined.
#[export] Instance SCPExternalize_eq_dec : EqDecision SCPExternalize.
Proof. solve_decision. Defined.
#[export] Instance SCPNomination_eq_dec : EqDecision SCPNomination.
Proof. solve_decision. Defined.
#[export] Instance SCPPledges_eq_dec : EqDecision SCPPledges.
Proof. solve_decision. Defined.
#[export] Instance SCPStatement_eq_dec : EqDecision SCPStatement.
Proof. solve_decision. Defined.
#[export] Instance SCPEnvelope_eq_dec : EqDecision SCPEnvelope.
Proof. solve_decision. Defined.

(** ** Comparing values and ballots *)

(** [std::lexicographical_compare] on bytes. *)
Fixpoint valueLt (a b : Value) : bool :=
  match a, b with
  | _, [] => false
  | [], _ :: _ => true
  | x :: a', y :: b' => if x <? y then true else if y <? x then false else valueLt a' b'
  end.

Definition valueEq (a b : Value) : bool := bool_decide (a = b).

(** The overload of [compareBallots] on two ballots. *)
Definition compareBallots (b1 b2 : SCPBallot) : Z :=
  if counter b1 <? counter b2 then -1
  else if counter b2 <? counter b1 then 1
  else if valueLt (value b1) (value b2) then -1
  else if valueLt (value b2) (value b1) then 1
  else 0.

(** The overload on (possibly empty) pointers to ballots; [xdr::pointer]s in
    statements compare the same way. *)
Definition compareBallotPtrs (b1 b2 : option SCPBallot) : Z :=
  match b1, b2 with
  | Some b1, Some b2 => compareBallots b1 b2
  | Some _, None => 1
  | None, Some _ => -1
  | None, None => 0
  end.

Definition areBallotsCompatible (b1 b2 : SCPBallot) : bool := valueEq (value b1) (value b2).

Definition areBallotsLessAndIncompatible (b1 b2 : SCPBallot) : bool :=
  (compareBallots b1 b2 <=? 0) && negb (areBallotsCompatible b1 b2).

Definition areBallotsLessAndCompatible (b1 b2 : SCPBallot) : bool :=
  (compareBallots b1 b2 <=? 0) && areBallotsCompatible b1 b2.

(** ** Order on statements *)

(** The numeric value of the union's discriminant. *)
Definition pledgeType (p : SCPPledges) : Z :=
  match p with
  | SCP_ST_PREPARE _ => 0
  | SCP_ST_CONFIRM _ => 1
  | SCP_ST_EXTERNALIZE _ => 2
  | SCP_ST_NOMINATE _ => 3
  end.

(** [BallotProtocol::isNewerStatement] on ballot statements.  On nominations
    the C++ reads the [prepare] arm of a union holding a nomination, which
    throws; the model answers [false] and no caller gets there. *)
Definition isNewerStatement (oldst st : SCPStatement) : bool :=
  if negb (pledgeType (pledges oldst) =? pledgeType (pledges st)) then
    pledgeType (pledges oldst) <? pledgeType (pledges st)
  else
    match pledges oldst, pledges st with
    | SCP_ST_CONFIRM oldC, SCP_ST_CONFIRM c =>
        let compBallot := compareBallots (c_ballot oldC) (c_ballot c) in
        if compBallot <? 0 then true
        else if compBallot =? 0 then
          if c_nPrepared oldC =? c_nPrepared c then c_nH oldC <? c_nH c
          else c_nPrepared oldC <? c_nPrepared c
        else false
    | SCP_ST_PREPARE oldPrep, SCP_ST_PREPARE prep =>
        let compBallot := compareBallots (p_ballot oldPrep) (p_ballot prep) in
        if compBallot <? 0 then true
        else if compBallot =? 0 then
          let compBallot := compareBallotPtrs (p_prepared oldPrep) (p_prepared prep) in
          if compBallot <? 0 then true
          else if compBallot =? 0 then
            let compBallot := compareBallotPtrs (p_preparedPrime oldPrep) (p_preparedPrime prep) in
            if compBallot <? 0 then true
            else if compBallot =? 0 then p_nH oldPrep <? p_nH prep
            else false
          else false
        else false
    | _, _ => false
    end.

(** ** What a statement says

    In the source the functions of this part abort on a nomination.  The predicates
    and readers below have a value there that is never used: the protocol evaluates
    them on a statement only after [isStatementSane], [getPrepareCandidates] or
    [getCommitBoundariesFromStatements] has gone over the same statement, and those,
    like [statementBallotCounter], end in the fault [notABallot] on a nomination. *)

Definition hasPreparedBallot (ballot : SCPBallot) (st : SCPStatement) : bool :=
  match pledges st with
  | SCP_ST_PREPARE p =>
      match p_prepared p with
      | Some b => areBallotsLessAndCompatible ballot b
      | None => false
      end ||
      match p_preparedPrime p with
      | Some b => areBallotsLessAndCompatible ballot b
      | None => false
      end
  | SCP_ST_CONFIRM c =>
      areBallotsLessAndCompatible ballot (mkBallot (c_nPrepared c) (value (c_ballot c)))
  | SCP_ST_EXTERNALIZE e => areBallotsCompatible ballot (e_commit e)
  | SCP_ST_NOMINATE _ => false
  end.

(** The lambda of [attemptAcceptPrepared]: the statement votes to prepare. *)
Definition votesPrepared (ballot : SCPBallot) (st : SCPStatement) : bool :=
  match pledges st with
  | SCP_ST_PREPARE p => areBallotsLessAndCompatible ballot (p_ballot p)
  | SCP_ST_CONFIRM c => areBallotsCompatible ballot (c_ballot c)
  | SCP_ST_EXTERNALIZE e => areBallotsCompatible ballot (e_commit e)
  | SCP_ST_NOMINATE _ => false
  end.

Definition Interval : Type := Z * Z.

Definition commitPredicate (ballot : SCPBallot) (check : Interval) (st : SCPStatement) : bool :=
  match pledges st with
  | SCP_ST_PREPARE _ => false
  | SCP_ST_CONFIRM c =>
      areBallotsCompatible ballot (c_ballot c) &&
      ((c_nCommit c <=? check.1) && (check.2 <=? c_nH c))
  | SCP_ST_EXTERNALIZE e =>
      areBallotsCompatible ballot (e_commit e) && (counter (e_commit e) <=? check.1)
  | SCP_ST_NOMINATE _ => false
  end.

(** The lambda of [attemptAcceptCommit]: the statement votes to commit. *)
Definition votesCommit (ballot : SCPBallot) (cur : Interval) (st : SCPStatement) : bool :=
  match pledges st with
  | SCP_ST_PREPARE p =>
      areBallotsCompatible ballot (p_ballot p) && negb (p_nC p =? 0) &&
      ((p_nC p <=? cur.1) && (cur.2 <=? p_nH p))
  | SCP_ST_CONFIRM c => areBallotsCompatible ballot (c_ballot c) && (c_nCommit c <=? cur.1)
  | SCP_ST_EXTERNALIZE e =>
      areBallotsCompatible ballot (e_commit e) && (counter (e_commit e) <=? cur.1)
  | SCP_ST_NOMINATE _ => false
  end.

(** [abort] and [dbgAbort] in the [default] of a [switch] on the type of a
    statement: the functions below are for ballot statements only. *)
Definition notABallot : fault := AssertFailure "abort: not a ballot statement".

Definition statementBallotCounter (st : SCPStatement) : exc Z :=
  match pledges st with
  | SCP_ST_PREPARE p => mret (counter (p_ballot p))
  | SCP_ST_CONFIRM c => mret (counter (c_ballot c))
  | SCP_ST_EXTERNALIZE _ => mret UINT32_MAX
  | SCP_ST_NOMINATE _ => exc_throw notABallot
  end.

Definition getWorkingBallot (st : SCPStatement) : SCPBallot :=
  match pledges st with
  | SCP_ST_PREPARE p => p_ballot p
  | SCP_ST_CONFIRM c => mkBallot (c_nCommit c) (value (c_ballot c))
  | SCP_ST_EXTERNALIZE e => e_commit e
  | SCP_ST_NOMINATE _ => nullBallot
  end.

(** [Slot::getCompanionQuorumSetHashFromStatement]. *)
Definition getCompanionQuorumSetHashFromStatement (st : SCPStatement) : Hash :=
  match pledges st with
  | SCP_ST_PREPARE p => p_quorumSetHash p
  | SCP_ST_CONFIRM c => c_quorumSetHash c
  | SCP_ST_EXTERNALIZE e => e_commitQuorumSetHash e
  | SCP_ST_NOMINATE n => n_quorumSetHash n
  end.

(** ** Sorted sets

    [std::set] with the order given by [lt]: a sorted list without
    duplicates. *)

Fixpoint setInsert {A} (lt : A -> A -> bool) (x : A) (l : list A) : list A :=
  match l with
  | [] => [x]
  | y :: l' =>
      if lt x y then x :: l
      else if lt y x then y :: setInsert lt x l'
      else l
  end.

Definition setMem {A} (lt : A -> A -> bool) (x : A) (l : list A) : bool :=
  existsb (fun y => negb (lt x y) && negb (lt y x)) l.

Definition ballotLt (a b : SCPBallot) : bool := compareBallots a b <? 0.

(** [BallotProtocol::getStatementValues]: the set of values, in order. *)
Definition getStatementValues (st : SCPStatement) : list Value :=
  match pledges st with
  | SCP_ST_PREPARE p =>
      let values := if counter (p_ballot p) =? 0 then []
                    else setInsert valueLt (value (p_ballot p)) [] in
      let values := match p_prepared p with
                    | Some b => setInsert valueLt (value b) values
                    | None => values
                    end in
      match p_preparedPrime p with
      | Some b => setInsert valueLt (value b) values
      | None => values
      end
  | SCP_ST_CONFIRM c => [value (c_ballot c)]
  | SCP_ST_EXTERNALIZE e => [value (e_commit e)]
  | SCP_ST_NOMINATE _ => []
  end.

(** ** Orders *)

Lemma valueLt_irrefl a : valueLt a a = false.
Proof. induction a as [|x a IH]; cbn; [done|]. by rewrite Z.ltb_irrefl. Qed.

Lemma valueLt_trans a b c : valueLt a b = true -> valueLt b c = true -> valueLt a c = true.
Proof.
  revert b c. induction a as [|x a IH]; intros [|y b] [|z c]; cbn; try done.
  destruct (Z.ltb_spec x y), (Z.ltb_spec y x), (Z.ltb_spec y z), (Z.ltb_spec z y),
    (Z.ltb_spec x z), (Z.ltb_spec z x); try done; try lia. apply IH.
Qed.

Lemma valueLt_total a b : valueLt a b = false -> valueLt b a = false -> a = b.
Proof.
  revert b. induction a as [|x a IH]; intros [|y b]; cbn; try done.
  destruct (Z.ltb_spec x y), (Z.ltb_spec y x); try done; try lia.
  intros. assert (x = y) as -> by lia. f_equal. auto.
Qed.

Lemma valueLt_asym a b : valueLt a b = true -> valueLt b a = false.
Proof.
  intros H. destruct (valueLt b a) eqn:E; [|done].
  pose proof (valueLt_trans a b a H E). by rewrite valueLt_irrefl in *.
Qed.

(** [compareBallots] as a strict order: the pair order on counter and value. *)
Definition ballot_lt (a b : SCPBallot) : Prop :=
  counter a < counter b \/ (counter a = counter b /\ valueLt (value a) (value b) = true).

Definition ballot_le (a b : SCPBallot) : Prop := ballot_lt a b \/ a = b.

Lemma ballot_eq a b : counter a = counter b -> value a = value b -> a = b.
Proof. destruct a, b; cbn. congruence. Qed.

Lemma compareBallots_spec a b :
  (compareBallots a b = -1 /\ ballot_lt a b) \/
  (compareBallots a b = 0 /\ a = b) \/
  (compareBallots a b = 1 /\ ballot_lt b a).
Proof.
  unfold compareBallots, ballot_lt.
  destruct (Z.ltb_spec (counter a) (counter b)); [left; auto|].
  destruct (Z.ltb_spec (counter b) (counter a)); [right; right; auto|].
  assert (counter a = counter b) by lia.
  destruct (valueLt (value a) (value b)) eqn:E; [left; auto|].
  destruct (valueLt (value b) (value a)) eqn:E'; [right; right; auto|].
  right. left. split; [done|]. apply ballot_eq; [done|]. by apply valueLt_total.
Qed.

Lemma ballot_lt_irrefl a : ~ ballot_lt a a.
Proof. intros [H|[_ H]]; [lia|]. by rewrite valueLt_irrefl in H. Qed.

Lemma ballot_lt_trans a b c : ballot_lt a b -> ballot_lt b c -> ballot_lt a c.
Proof.
  unfold ballot_lt. intros [H|[H H']] [G|[G G']]; [left; lia..|].
  right. split; [lia|]. by apply (valueLt_trans _ (value b)).
Qed.

Lemma ballot_le_refl a : ballot_le a a.
Proof. by right. Qed.

Lemma ballot_le_trans a b c : ballot_le a b -> ballot_le b c -> ballot_le a c.
Proof.
  intros [H| ->] [G| ->]; [left; by apply (ballot_lt_trans _ b)|by left..|by right].
Qed.

Lemma ballot_lt_le_trans a b c : ballot_lt a b -> ballot_le b c -> ballot_lt a c.
Proof. intros H [G| <-]; [by apply (ballot_lt_trans _ b)|done]. Qed.

Lemma ballot_le_lt_trans a b c : ballot_le a b -> ballot_lt b c -> ballot_lt a c.
Proof. intros [H| ->] G; [by apply (ballot_lt_trans _ b)|done]. Qed.

Lemma ballot_le_counter a b : ballot_le a b -> counter a <= counter b.
Proof. intros [[H|[H _]]| ->]; lia. Qed.

Lemma compareBallots_lt a b : compareBallots a b < 0 <-> ballot_lt a b.
Proof.
  destruct (compareBallots_spec a b) as [[-> H]|[[-> ->]|[-> H]]]; split; intros G; try lia; try done.
  - by apply ballot_lt_irrefl in G.
  - exfalso. apply (ballot_lt_irrefl a). by apply (ballot_lt_trans _ b).
Qed.

Lemma compareBallots_eq a b : compareBallots a b = 0 <-> a = b.
Proof.
  destruct (compareBallots_spec a b) as [[-> H]|[[-> ->]|[-> H]]]; split; intros G; try done; subst;
    by apply ballot_lt_irrefl in H.
Qed.

Lemma compareBallots_le a b : compareBallots a b <= 0 <-> ballot_le a b.
Proof.
  unfold ballot_le. rewrite <- compareBallots_lt, <- compareBallots_eq. lia.
Qed.

Lemma compareBallots_gt a b : 0 < compareBallots a b <-> ballot_lt b a.
Proof.
  rewrite <- compareBallots_lt.
  destruct (compareBallots_spec a b) as [[-> H]|[[-> ->]|[-> H]]].
  - rewrite compareBallots_lt. split; [lia|]. intros G. exfalso.
    apply (ballot_lt_irrefl a). by apply (ballot_lt_trans _ b).
  - rewrite compareBallots_lt. split; [lia|]. intros G. by apply ballot_lt_irrefl in G.
  - rewrite compareBallots_lt. split; [done|lia].
Qed.

Lemma compareBallots_ge a b : 0 <= compareBallots a b <-> ballot_le b a.
Proof.
  rewrite <- compareBallots_le.
  destruct (compareBallots_spec a b) as [[-> H]|[[-> ->]|[-> H]]].
  - apply compareBallots_gt in H. lia.
  - rewrite (proj2 (compareBallots_eq b b)); done.
  - apply compareBallots_lt in H. lia.
Qed.

Lemma ballot_le_or_gt a b : ballot_le a b \/ ballot_lt b a.
Proof. rewrite <- compareBallots_le, <- compareBallots_gt. lia. Qed.

Lemma compat_iff a b : areBallotsCompatible a b = true <-> value a = value b.
Proof. unfold areBallotsCompatible, valueEq. by rewrite bool_decide_eq_true. Qed.

Lemma lessAndCompat_iff a b :
  areBallotsLessAndCompatible a b = true <-> ballot_le a b /\ value a = value b.
Proof.
  unfold areBallotsLessAndCompatible.
  by rewrite andb_true_iff, Z.leb_le, compareBallots_le, compat_iff.
Qed.

Lemma lessAndIncompat_iff a b :
  areBallotsLessAndIncompatible a b = true <-> ballot_le a b /\ value a <> value b.
Proof.
  unfold areBallotsLessAndIncompatible.
  rewrite andb_true_iff, Z.leb_le, compareBallots_le, negb_true_iff.
  unfold areBallotsCompatible, valueEq. by rewrite bool_decide_eq_false.
Qed.

Lemma same_value_le a b : value a = value b -> ballot_le a b <-> counter a <= counter b.
Proof.
  intros Hv. split; [apply ballot_le_counter|]. intros H.
  destruct (decide (counter a = counter b)); [right; by apply ballot_eq|left; left; lia].
Qed.

(** [compareBallotPtrs] is the same order with the empty pointer below. *)
Definition ballot_ptr_lt (a b : option SCPBallot) : Prop :=
  match a, b with
  | None, Some _ => True
  | Some a, Some b => ballot_lt a b
  | _, None => False
  end.

Lemma compareBallotPtrs_lt a b : compareBallotPtrs a b < 0 <-> ballot_ptr_lt a b.
Proof. destruct a, b; cbn; rewrite ?compareBallots_lt; intuition lia. Qed.

Lemma compareBallotPtrs_eq a b : compareBallotPtrs a b = 0 <-> a = b.
Proof. destruct a, b; cbn; rewrite ?compareBallots_eq; intuition (congruence || lia). Qed.

Lemma ballot_ptr_lt_trans a b c : ballot_ptr_lt a b -> ballot_ptr_lt b c -> ballot_ptr_lt a c.
Proof. destruct a, b, c; cbn; try done. apply ballot_lt_trans. Qed.

Lemma ballot_ptr_lt_irrefl a : ~ ballot_ptr_lt a a.
Proof. destruct a; cbn; [apply ballot_lt_irrefl|tauto]. Qed.

(** ** The order in which a node's statements supersede each other *)

(** [isNewerStatement] as a relation: lexicographic on (b, p, p', h) for
    PREPARE and on (b, p, h) for CONFIRM. *)
Definition newer_prepare (o n : SCPPrepare) : Prop :=
  ballot_lt (p_ballot o) (p_ballot n) \/
  (p_ballot o = p_ballot n /\
   (ballot_ptr_lt (p_prepared o) (p_prepared n) \/
    (p_prepared o = p_prepared n /\
     (ballot_ptr_lt (p_preparedPrime o) (p_preparedPrime n) \/
      (p_preparedPrime o = p_preparedPrime n /\ p_nH o < p_nH n))))).

Definition newer_confirm (o n : SCPConfirm) : Prop :=
  ballot_lt (c_ballot o) (c_ballot n) \/
  (c_ballot o = c_ballot n /\
   (c_nPrepared o < c_nPrepared n \/ (c_nPrepared o = c_nPrepared n /\ c_nH o < c_nH n))).

Definition newer (o n : SCPStatement) : Prop :=
  match pledges o, pledges n with
  | SCP_ST_PREPARE o, SCP_ST_PREPARE n => newer_prepare o n
  | SCP_ST_CONFIRM o, SCP_ST_CONFIRM n => newer_confirm o n
  | o, n => pledgeType o < pledgeType n
  end.

Lemma isNewerStatement_iff o n : isNewerStatement o n = true <-> newer o n.
Proof.
  unfold isNewerStatement, newer. destruct (pledges o) as [p|c|e|m], (pledges n) as [p'|c'|e'|m'];
    cbn [pledgeType negb Z.eqb Z.ltb Z.compare Pos.eqb Pos.compare Pos.compare_cont];
    try (split; [lia || done|intros; lia || done]).
  - unfold newer_prepare. rewrite <- !compareBallots_lt, <- !compareBallotPtrs_lt.
    rewrite <- !compareBallots_eq, <- !compareBallotPtrs_eq.
    repeat match goal with |- context [?a <? ?b] => destruct (Z.ltb_spec a b)
                         | |- context [?a =? ?b] => destruct (Z.eqb_spec a b) end;
      split; intros; lia || done.
  - unfold newer_confirm. rewrite <- !compareBallots_lt, <- !compareBallots_eq.
    repeat match goal with |- context [?a <? ?b] => destruct (Z.ltb_spec a b)
                         | |- context [?a =? ?b] => destruct (Z.eqb_spec a b) end;
      split; intros; lia || done.
Qed.

Lemma newer_irrefl st : ~ newer st st.
Proof.
  unfold newer, newer_prepare, newer_confirm.
  destruct (pledges st); [|intros [H|[_ H]]; [by apply ballot_lt_irrefl in H|lia]|lia..].
  intros [H|[_ [H|[_ [H|[_ H]]]]]];
    [by apply ballot_lt_irrefl in H|by apply ballot_ptr_lt_irrefl in H..|lia].
Qed.

Lemma newer_prepare_trans a b c : newer_prepare a b -> newer_prepare b c -> newer_prepare a c.
Proof.
  unfold newer_prepare.
  intros [H|[-> H]] [G|[<- G]]; [left; eapply ballot_lt_trans; eauto|by left..|].
  right. split; [done|].
  destruct H as [H|[-> H]], G as [G|[<- G]]; [left; eapply ballot_ptr_lt_trans; eauto|by left..|].
  right. split; [done|].
  destruct H as [H|[-> H]], G as [G|[<- G]]; [left; eapply ballot_ptr_lt_trans; eauto|by left..|].
  right. split; [done|]. lia.
Qed.

Lemma newer_confirm_trans a b c : newer_confirm a b -> newer_confirm b c -> newer_confirm a c.
Proof.
  unfold newer_confirm.
  intros [H|[-> H]] [G|[<- G]]; [left; eapply ballot_lt_trans; eauto|by left..|].
  right. split; [done|]. lia.
Qed.

Lemma newer_trans a b c : newer a b -> newer b c -> newer a c.
Proof.
  unfold newer. destruct (pledges a), (pledges b), (pledges c); cbn [pledgeType];
    try lia; eauto using newer_prepare_trans, newer_confirm_trans.
Qed.

(** [isNewerStatement] is a strict order on the statements of a node: no
    statement supersedes itself, and superseding is transitive, so a node whose
    messages only ever advance can never return to an earlier statement. *)
Theorem isNewerStatement_strict_order :
  (forall st, isNewerStatement st st = false) /\
  (forall a b c, isNewerStatement a b = true -> isNewerStatement b c = true ->
     isNewerStatement a c = true).
Proof.
  split.
  - intros st. apply not_true_iff_false. rewrite isNewerStatement_iff. apply newer_irrefl.
  - intros a b c. rewrite !isNewerStatement_iff. apply newer_trans.
Qed.
