(* ===== verification/SlotState.v ===== *)
(** * The state of a slot and its environment

    One slot of [src/scp/Slot.cpp] with the ballot protocol and the nomination
    protocol it owns.  The driver ([src/scp/SCPDriver.h]) is an interface the
    application implements: its queries are fields of a record every operation
    takes, its notifications are recorded in the order they are made. *)

From stdpp Require Import base list gmap strings.
From S2P Require Import Prelude Numeric QuorumSet LocalNode Statement.

Local Open Scope Z_scope.

(** ** The driver's interface *)

Inductive ValidationLevel := kInvalidValue | kMaybeValidValue | kFullyValidatedValue.

#[export] Instance ValidationLevel_eq_dec : EqDecision ValidationLevel.
Proof. solve_decision. Defined.

(** [std::min] on levels, ordered as in the enum. *)
Definition levelMin (a b : ValidationLevel) : ValidationLevel :=
  match a, b with
  | kInvalidValue, _ | _, kInvalidValue => kInvalidValue
  | kMaybeValidValue, _ | _, kMaybeValidValue => kMaybeValidValue
  | _, _ => kFullyValidatedValue
  end.

Record SCPDriver := mkDriver {
  getQSet : Hash -> option SCPQuorumSet;
  validateValue : Z -> Value -> bool -> ValidationLevel;
  extractValidValue : Z -> Value -> option Value;
  combineCandidates : Z -> list Value -> option Value;
  signEnvelope : SCPStatement -> list Z;
  computeHashNode : Z -> Value -> bool -> Z -> NodeID -> Z;
  computeValueHash : Z -> Value -> Z -> Value -> Z;
  computeTimeout : Z -> Z
}.

(** The implementation of [computeTimeout] a driver inherits from [SCPDriver], in
    milliseconds. *)
Definition MAX_TIMEOUT_SECONDS : Z := 30 * 60.
Definition defaultComputeTimeout (roundNumber : Z) : Z :=
  1000 * (if MAX_TIMEOUT_SECONDS <? roundNumber then MAX_TIMEOUT_SECONDS else i32 roundNumber).

Record LocalNodeState := mkLocalNode {
  mNodeID : NodeID;
  mIsValidator : bool;
  mQSet : SCPQuorumSet;
  mQSetHash : Hash
}.

Inductive timerIDs := NOMINATION_TIMER | BALLOT_PROTOCOL_TIMER.

(** The callbacks the protocol makes to the driver.  A timer event carries the
    delay, [None] for a cancelled timer. *)
Inductive Event :=
  | EmitEnvelope (e : SCPEnvelope)
  | SetupTimer (t : timerIDs) (timeout : option Z)
  | StartedBallotProtocol (b : SCPBallot)
  | AcceptedBallotPrepared (b : SCPBallot)
  | ConfirmedBallotPrepared (b : SCPBallot)
  | AcceptedCommit (b : SCPBallot)
  | BallotDidHearFromQuorum (b : SCPBallot)
  | ValueExternalized (v : Value)
  | NominatingValue (v : Value)
  | UpdatedCandidateValue (v : Value).

(** ** State *)

Inductive SCPPhase := SCP_PHASE_PREPARE | SCP_PHASE_CONFIRM | SCP_PHASE_EXTERNALIZE.

#[export] Instance SCPPhase_eq_dec : EqDecision SCPPhase.
Proof. solve_decision. Defined.

Abbreviation EnvMap := (list (NodeID * SCPEnvelope)) (only parsing).

(** The members of [BallotProtocol]. *)
Record BallotState := mkBallotState {
  mHeardFromQuorum : bool;
  mCurrentBallot : option SCPBallot;      (* b *)
  mPrepared : option SCPBallot;           (* p *)
  mPreparedPrime : option SCPBallot;      (* p' *)
  mHighBallot : option SCPBallot;         (* h *)
  mCommit : option SCPBallot;             (* c *)
  mLatestEnvelopes : EnvMap;              (* M *)
  mPhase : SCPPhase;                      (* Phi *)
  mValueOverride : option Value;          (* z *)
  mCurrentMessageLevel : Z;
  mTimerExpCount : Z;
  mLastEnvelope : option SCPEnvelope;
  mLastEnvelopeEmit : option SCPEnvelope
}.

(** The members of [NominationProtocol]; sets of values are sorted lists. *)
Record NominationState := mkNominationState {
  mRoundNumber : Z;
  mVotes : list Value;                    (* X *)
  mAccepted : list Value;                 (* Y *)
  mCandidates : list Value;               (* Z *)
  mLatestNominations : EnvMap;            (* N *)
  mNomLastEnvelope : option SCPEnvelope;
  mRoundLeaders : list NodeID;
  mNominationStarted : bool;
  mLatestCompositeCandidate : option Value;
  mPreviousValue : Value;
  mNomTimerExpCount : Z
}.

(** The members of [Slot], and the driver's callbacks so far (latest last). *)
Record SlotState := mkSlot {
  mSlotIndex : Z;
  ballot : BallotState;
  nomination : NominationState;
  mStatementsHistory : list (SCPStatement * bool);
  mFullyValidated : bool;
  mGotVBlocking : bool;
  events : list Event
}.

Definition initBallot : BallotState :=
  mkBallotState false None None None None None [] SCP_PHASE_PREPARE None 0 0 None None.

Definition initNomination : NominationState :=
  mkNominationState 0 [] [] [] [] None [] false None [] 0.

(** The constructor of [Slot]. *)
Definition initSlot (ln : LocalNodeState) (index : Z) : SlotState :=
  mkSlot index initBallot initNomination [] (mIsValidator ln) false [].

(** ** Assignments to members *)

Definition set_heard x s := mkBallotState x (mCurrentBallot s) (mPrepared s) (mPreparedPrime s) (mHighBallot s) (mCommit s) (mLatestEnvelopes s) (mPhase s) (mValueOverride s) (mCurrentMessageLevel s) (mTimerExpCount s) (mLastEnvelope s) (mLastEnvelopeEmit s).
Definition set_b x s := mkBallotState (mHeardFromQuorum s) x (mPrepared s) (mPreparedPrime s) (mHighBallot s) (mCommit s) (mLatestEnvelopes s) (mPhase s) (mValueOverride s) (mCurrentMessageLevel s) (mTimerExpCount s) (mLastEnvelope s) (mLastEnvelopeEmit s).
Definition set_p x s := mkBallotState (mHeardFromQuorum s) (mCurrentBallot s) x (mPreparedPrime s) (mHighBallot s) (mCommit s) (mLatestEnvelopes s) (mPhase s) (mValueOverride s) (mCurrentMessageLevel s) (mTimerExpCount s) (mLastEnvelope s) (mLastEnvelopeEmit s).
Definition set_pp x s := mkBallotState (mHeardFromQuorum s) (mCurrentBallot s) (mPrepared s) x (mHighBallot s) (mCommit s) (mLatestEnvelopes s) (mPhase s) (mValueOverride s) (mCurrentMessageLevel s) (mTimerExpCount s) (mLastEnvelope s) (mLastEnvelopeEmit s).
Definition set_h x s := mkBallotState (mHeardFromQuorum s) (mCurrentBallot s) (mPrepared s) (mPreparedPrime s) x (mCommit s) (mLatestEnvelopes s) (mPhase s) (mValueOverride s) (mCurrentMessageLevel s) (mTimerExpCount s) (mLastEnvelope s) (mLastEnvelopeEmit s).
Definition set_c x s := mkBallotState (mHeardFromQuorum s) (mCurrentBallot s) (mPrepared s) (mPreparedPrime s) (mHighBallot s) x (mLatestEnvelopes s) (mPhase s) (mValueOverride s) (mCurrentMessageLevel s) (mTimerExpCount s) (mLastEnvelope s) (mLastEnvelopeEmit s).
Definition set_latest x s := mkBallotState (mHeardFromQuorum s) (mCurrentBallot s) (mPrepared s) (mPreparedPrime s) (mHighBallot s) (mCommit s) x (mPhase s) (mValueOverride s) (mCurrentMessageLevel s) (mTimerExpCount s) (mLastEnvelope s) (mLastEnvelopeEmit s).
Definition set_phase x s := mkBallotState (mHeardFromQuorum s) (mCurrentBallot s) (mPrepared s) (mPreparedPrime s) (mHighBallot s) (mCommit s) (mLatestEnvelopes s) x (mValueOverride s) (mCurrentMessageLevel s) (mTimerExpCount s) (mLastEnvelope s) (mLastEnvelopeEmit s).
Definition set_override x s := mkBallotState (mHeardFromQuorum s) (mCurrentBallot s) (mPrepared s) (mPreparedPrime s) (mHighBallot s) (mCommit s) (mLatestEnvelopes s) (mPhase s) x (mCurrentMessageLevel s) (mTimerExpCount s) (mLastEnvelope s) (mLastEnvelopeEmit s).
Definition set_level x s := mkBallotState (mHeardFromQuorum s) (mCurrentBallot s) (mPrepared s) (mPreparedPrime s) (mHighBallot s) (mCommit s) (mLatestEnvelopes s) (mPhase s) (mValueOverride s) x (mTimerExpCount s) (mLastEnvelope s) (mLastEnvelopeEmit s).
Definition set_timerExp x s := mkBallotState (mHeardFromQuorum s) (mCurrentBallot s) (mPrepared s) (mPreparedPrime s) (mHighBallot s) (mCommit s) (mLatestEnvelopes s) (mPhase s) (mValueOverride s) (mCurrentMessageLevel s) x (mLastEnvelope s) (mLastEnvelopeEmit s).
Definition set_last x s := mkBallotState (mHeardFromQuorum s) (mCurrentBallot s) (mPrepared s) (mPreparedPrime s) (mHighBallot s) (mCommit s) (mLatestEnvelopes s) (mPhase s) (mValueOverride s) (mCurrentMessageLevel s) (mTimerExpCount s) x (mLastEnvelopeEmit s).
Definition set_lastEmit x s := mkBallotState (mHeardFromQuorum s) (mCurrentBallot s) (mPrepared s) (mPreparedPrime s) (mHighBallot s) (mCommit s) (mLatestEnvelopes s) (mPhase s) (mValueOverride s) (mCurrentMessageLevel s) (mTimerExpCount s) (mLastEnvelope s) x.

Definition set_round x n := mkNominationState x (mVotes n) (mAccepted n) (mCandidates n) (mLatestNominations n) (mNomLastEnvelope n) (mRoundLeaders n) (mNominationStarted n) (mLatestCompositeCandidate n) (mPreviousValue n) (mNomTimerExpCount n).
Definition set_votes x n := mkNominationState (mRoundNumber n) x (mAccepted n) (mCandidates n) (mLatestNominations n) (mNomLastEnvelope n) (mRoundLeaders n) (mNominationStarted n) (mLatestCompositeCandidate n) (mPreviousValue n) (mNomTimerExpCount n).
Definition set_accepted x n := mkNominationState (mRoundNumber n) (mVotes n) x (mCandidates n) (mLatestNominations n) (mNomLastEnvelope n) (mRoundLeaders n) (mNominationStarted n) (mLatestCompositeCandidate n) (mPreviousValue n) (mNomTimerExpCount n).
Definition set_candidates x n := mkNominationState (mRoundNumber n) (mVotes n) (mAccepted n) x (mLatestNominations n) (mNomLastEnvelope n) (mRoundLeaders n) (mNominationStarted n) (mLatestCompositeCandidate n) (mPreviousValue n) (mNomTimerExpCount n).
Definition set_nominations x n := mkNominationState (mRoundNumber n) (mVotes n) (mAccepted n) (mCandidates n) x (mNomLastEnvelope n) (mRoundLeaders n) (mNominationStarted n) (mLatestCompositeCandidate n) (mPreviousValue n) (mNomTimerExpCount n).
Definition set_nomLast x n := mkNominationState (mRoundNumber n) (mVotes n) (mAccepted n) (mCandidates n) (mLatestNominations n) x (mRoundLeaders n) (mNominationStarted n) (mLatestCompositeCandidate n) (mPreviousValue n) (mNomTimerExpCount n).
Definition set_leaders x n := mkNominationState (mRoundNumber n) (mVotes n) (mAccepted n) (mCandidates n) (mLatestNominations n) (mNomLastEnvelope n) x (mNominationStarted n) (mLatestCompositeCandidate n) (mPreviousValue n) (mNomTimerExpCount n).
Definition set_nominationStarted x n := mkNominationState (mRoundNumber n) (mVotes n) (mAccepted n) (mCandidates n) (mLatestNominations n) (mNomLastEnvelope n) (mRoundLeaders n) x (mLatestCompositeCandidate n) (mPreviousValue n) (mNomTimerExpCount n).
Definition set_composite x n := mkNominationState (mRoundNumber n) (mVotes n) (mAccepted n) (mCandidates n) (mLatestNominations n) (mNomLastEnvelope n) (mRoundLeaders n) (mNominationStarted n) x (mPreviousValue n) (mNomTimerExpCount n).
Definition set_previous x n := mkNominationState (mRoundNumber n) (mVotes n) (mAccepted n) (mCandidates n) (mLatestNominations n) (mNomLastEnvelope n) (mRoundLeaders n) (mNominationStarted n) (mLatestCompositeCandidate n) x (mNomTimerExpCount n).
Definition set_nomTimerExp x n := mkNominationState (mRoundNumber n) (mVotes n) (mAccepted n) (mCandidates n) (mLatestNominations n) (mNomLastEnvelope n) (mRoundLeaders n) (mNominationStarted n) (mLatestCompositeCandidate n) (mPreviousValue n) x.

Definition onBallot (f : BallotState -> BallotState) (s : SlotState) : SlotState :=
  mkSlot (mSlotIndex s) (f (ballot s)) (nomination s) (mStatementsHistory s) (mFullyValidated s) (mGotVBlocking s) (events s).
Definition onNomination (f : NominationState -> NominationState) (s : SlotState) : SlotState :=
  mkSlot (mSlotIndex s) (ballot s) (f (nomination s)) (mStatementsHistory s) (mFullyValidated s) (mGotVBlocking s) (events s).
Definition set_history x (s : SlotState) : SlotState :=
  mkSlot (mSlotIndex s) (ballot s) (nomination s) x (mFullyValidated s) (mGotVBlocking s) (events s).
Definition set_fullyValidated x (s : SlotState) : SlotState :=
  mkSlot (mSlotIndex s) (ballot s) (nomination s) (mStatementsHistory s) x (mGotVBlocking s) (events s).
Definition set_gotVBlocking x (s : SlotState) : SlotState :=
  mkSlot (mSlotIndex s) (ballot s) (nomination s) (mStatementsHistory s) (mFullyValidated s) x (events s).
Definition set_events x (s : SlotState) : SlotState :=
  mkSlot (mSlotIndex s) (ballot s) (nomination s) (mStatementsHistory s) (mFullyValidated s) (mGotVBlocking s) x.

(** ** Access from the monad *)

Definition SM (A : Type) : Type := M SlotState A.

Definition getB {A} (f : BallotState -> A) : SM A := fun s => Ok (f (ballot s)) s.
Definition getN {A} (f : NominationState -> A) : SM A := fun s => Ok (f (nomination s)) s.
Definition getS {A} (f : SlotState -> A) : SM A := fun s => Ok (f s) s.
Definition modB (f : BallotState -> BallotState) : SM unit := modify (onBallot f).
Definition modN (f : NominationState -> NominationState) : SM unit := modify (onNomination f).
Definition notify (e : Event) : SM unit := modify (fun s => set_events (events s ++ [e]) s).

(** [std::map::insert] or assignment through the iterator: insert in key order,
    replacing the value of an existing key. *)
Fixpoint mapInsert {V} (k : NodeID) (v : V) (m : list (NodeID * V)) : list (NodeID * V) :=
  match m with
  | [] => [(k, v)]
  | (k', v') :: m' =>
      if k <? k' then (k, v) :: m
      else if k =? k' then (k, v) :: m'
      else (k', v') :: mapInsert k v m'
  end.

(** ** Operations of [Slot] that both protocols use *)

Section SlotHelpers.
Context (d : SCPDriver) (ln : LocalNodeState).

(** [BallotProtocol::getLatestMessage], then [NominationProtocol::getLatestMessage]. *)
Definition getLatestMessage (id : NodeID) (s : SlotState) : option SCPEnvelope :=
  match mapFind (mLatestEnvelopes (ballot s)) id with
  | Some e => Some e
  | None => mapFind (mLatestNominations (nomination s)) id
  end.

(** [Slot::recordStatement], without the wall-clock time it also stores. *)
Definition recordStatement (st : SCPStatement) : SM unit :=
  modify (fun s => set_history (mStatementsHistory s ++ [(st, mFullyValidated s)]) s).

Definition getQuorumSetFromStatement (st : SCPStatement) : option SCPQuorumSet :=
  match pledges st with
  | SCP_ST_EXTERNALIZE _ => getSingletonQSet (nodeID st)
  | SCP_ST_PREPARE p => getQSet d (p_quorumSetHash p)
  | SCP_ST_CONFIRM c => getQSet d (c_quorumSetHash c)
  | SCP_ST_NOMINATE n => getQSet d (n_quorumSetHash n)
  end.

Definition qsetOfEnvelope (e : SCPEnvelope) : option SCPQuorumSet :=
  getQuorumSetFromStatement (statement e).

Definition federatedAccept (voted accepted : SCPStatement -> bool) (envs : EnvMap) : bool :=
  if isVBlockingMap (mQSet ln) envs (fun e => accepted (statement e)) then true
  else
    let ratifyFilter e := accepted (statement e) || voted (statement e) in
    if isQuorum (mQSet ln) envs qsetOfEnvelope ratifyFilter then true else false.

Definition federatedRatify (voted : SCPStatement -> bool) (envs : EnvMap) : bool :=
  isQuorum (mQSet ln) envs qsetOfEnvelope (fun e => voted (statement e)).

Definition createEnvelope (st : SCPStatement) : SM SCPEnvelope :=
  let* index := getS mSlotIndex in
  let mySt := mkStatement (mNodeID ln) index (pledges st) in
  mret (mkEnvelope mySt (signEnvelope d mySt)).

Definition maybeSetGotVBlocking : SM unit :=
  let* s := get in
  if mGotVBlocking s then mret tt
  else
    let qSet := mQSet ln in
    let '(_, nodes) :=
      forAllNodes (fun id nodes =>
        (true, match getLatestMessage id s with
               | Some _ => nodes ++ [id]
               | None => nodes
               end)) qSet [] in
    modify (set_gotVBlocking (isVBlocking qSet nodes)).

End SlotHelpers.
