(* ===== verification/Ballot.v ===== *)
(** * The ballot protocol

    Model of [src/scp/BallotProtocol.cpp].  Every member function that changes
    the slot is an operation of the slot monad; [dbgAssert], the dereference of
    an empty pointer and [throw] are its faults.  The mutual recursion
    processEnvelope -> advanceSlot -> attempt* -> set* ->
    emitCurrentStateStatement -> processEnvelope is tied by giving the
    operations the recursive call as an argument and closing the knot with
    fuel in [advanceSlot]. *)

From stdpp Require Import base list gmap strings.
From S2P Require Import Prelude Numeric QuorumSet LocalNode Statement SlotState.

Local Open Scope Z_scope.

Inductive EnvelopeState := INVALID | VALID.

#[export] Instance EnvelopeState_eq_dec : EqDecision EnvelopeState.
Proof. solve_decision. Defined.

Definition MAX_ADVANCE_SLOT_RECURSION : Z := 50.

(** [SCP::QuorumInfoNodeState]. *)
Inductive QuorumInfoNodeState := NO_INFO | AGREE | MISSING | DELAYED | DISAGREE.

Definition NUM_TIMEOUTS_THRESHOLD_FOR_REPORTING : Z := 2.

Section Ballot.
Context (d : SCPDriver) (ln : LocalNodeState).

(** ** Reading and recording envelopes *)

Definition isNewerStatementFrom (node : NodeID) (st : SCPStatement) (s : BallotState) : bool :=
  match mapFind (mLatestEnvelopes s) node with
  | None => true
  | Some old => isNewerStatement (statement old) st
  end.

Definition recordEnvelope (env : SCPEnvelope) : SM unit :=
  let st := statement env in
  do* modB (fun s => set_latest (mapInsert (nodeID st) env (mLatestEnvelopes s)) s) in
  recordStatement st.

Definition isStatementSane (st : SCPStatement) (self : bool) : exc bool :=
  match getQuorumSetFromStatement d st with
  | None => mret false
  | Some qSet =>
      if negb (isQuorumSetSane qSet false) then mret false
      else
        match pledges st with
        | SCP_ST_PREPARE p =>
            let isOK := self || (0 <? counter (p_ballot p)) in
            let isOK := isOK &&
              match p_preparedPrime p, p_prepared p with
              | Some pp, Some pr => areBallotsLessAndIncompatible pp pr
              | _, _ => true
              end in
            let isOK := isOK &&
              ((p_nH p =? 0) ||
               match p_prepared p with
               | Some pr => p_nH p <=? counter pr
               | None => false
               end) in
            mret (isOK &&
              ((p_nC p =? 0) ||
               (negb (p_nH p =? 0) && (p_nH p <=? counter (p_ballot p)) &&
                (p_nC p <=? p_nH p))))
        | SCP_ST_CONFIRM c =>
            mret ((0 <? counter (c_ballot c)) && (c_nH c <=? counter (c_ballot c)) &&
                  (c_nCommit c <=? c_nH c))
        | SCP_ST_EXTERNALIZE e =>
            mret ((0 <? counter (e_commit e)) && (counter (e_commit e) <=? e_nH e))
        | SCP_ST_NOMINATE _ => exc_throw notABallot
        end
  end.

Definition validateValues (st : SCPStatement) (index : Z) : ValidationLevel :=
  match getStatementValues st with
  | [] => kInvalidValue
  | values =>
      fold_left (fun lv v =>
        match lv with
        | kInvalidValue => lv
        | _ => levelMin (validateValue d index v false) lv
        end) values kFullyValidatedValue
  end.

(** ** Invariants checked at run time *)

Definition isSome {A} (o : option A) : bool := match o with Some _ => true | None => false end.

Definition checkInvariants : SM unit :=
  let* s := getB id in
  do* (match mPhase s with
       | SCP_PHASE_PREPARE => mret tt
       | _ =>
           do* dbgAssert (isSome (mCurrentBallot s)) "mCurrentBallot" in
           do* dbgAssert (isSome (mPrepared s)) "mPrepared" in
           do* dbgAssert (isSome (mCommit s)) "mCommit" in
           dbgAssert (isSome (mHighBallot s)) "mHighBallot"
       end) in
  do* (match mCurrentBallot s with
       | Some b => dbgAssert (negb (counter b =? 0)) "mCurrentBallot->getBallot().counter != 0"
       | None => mret tt
       end) in
  do* (match mPrepared s, mPreparedPrime s with
       | Some p, Some pp => dbgAssert (areBallotsLessAndIncompatible pp p) "p' < p and incompatible"
       | _, _ => mret tt
       end) in
  do* (match mHighBallot s with
       | Some h =>
           do* dbgAssert (isSome (mCurrentBallot s)) "h: mCurrentBallot" in
           let* b := deref (mCurrentBallot s) "mCurrentBallot" in
           dbgAssert (areBallotsLessAndCompatible h b) "h <= b and compatible"
       | None => mret tt
       end) in
  match mCommit s with
  | Some c =>
      do* dbgAssert (isSome (mCurrentBallot s)) "c: mCurrentBallot" in
      let* h := deref (mHighBallot s) "mHighBallot" in
      do* dbgAssert (areBallotsLessAndCompatible c h) "c <= h and compatible" in
      let* b := deref (mCurrentBallot s) "mCurrentBallot" in
      dbgAssert (areBallotsLessAndCompatible h b) "c: h <= b and compatible"
  | None => mret tt
  end.

(** ** The current ballot *)

Definition bumpToBallot (bal : SCPBallot) (check : bool) : SM unit :=
  let* s := getB id in
  do* dbgAssert (negb (bool_decide (mPhase s = SCP_PHASE_EXTERNALIZE))) "mPhase != SCP_PHASE_EXTERNALIZE" in
  do* when check
        (dbgAssert match mCurrentBallot s with
                   | Some b => 0 <=? compareBallots bal b
                   | None => true
                   end "ballot >= mCurrentBallot") in
  let gotBumped := match mCurrentBallot s with
                   | Some b => negb (counter b =? counter bal)
                   | None => true
                   end in
  do* when (negb (isSome (mCurrentBallot s))) (notify (StartedBallotProtocol bal)) in
  do* modB (set_b (Some bal)) in
  do* (match mHighBallot s with
       | Some h =>
           when (negb (areBallotsCompatible bal h))
             (do* modB (set_h None) in modB (set_c None))
       | None => mret tt
       end) in
  when gotBumped (modB (set_heard false)).

Definition updateCurrentValue (bal : SCPBallot) : SM bool :=
  let* s := getB id in
  match mPhase s with
  | SCP_PHASE_EXTERNALIZE => mret false
  | _ =>
      match mCurrentBallot s with
      | None =>
          do* bumpToBallot bal true in
          do* checkInvariants in
          mret true
      | Some b =>
          do* dbgAssert (compareBallots b bal <=? 0) "compareBallots(mCurrentBallot, ballot) <= 0" in
          if match mCommit s with
             | Some c => negb (areBallotsCompatible c bal)
             | None => false
             end
          then mret false
          else
            let comp := compareBallots b bal in
            if comp <? 0 then
              do* bumpToBallot bal true in
              do* checkInvariants in
              mret true
            else if 0 <? comp then mret false
            else
              do* checkInvariants in
              mret false
      end
  end.

Definition updateCurrentIfNeeded (h : SCPBallot) : SM bool :=
  let* s := getB id in
  if match mCurrentBallot s with
     | None => true
     | Some b => compareBallots b h <? 0
     end
  then do* bumpToBallot h true in mret true
  else mret false.

(** ** Timers *)

Definition startBallotProtocolTimer : SM unit :=
  let* s := getB id in
  let* b := deref (mCurrentBallot s) "mCurrentBallot" in
  notify (SetupTimer BALLOT_PROTOCOL_TIMER (Some (computeTimeout d (counter b)))).

Definition stopBallotProtocolTimer : SM unit :=
  notify (SetupTimer BALLOT_PROTOCOL_TIMER None).

(** The filter of [checkHeardFromQuorum]. *)
Definition heardFilter (b : SCPBallot) (st : SCPStatement) : bool :=
  match pledges st with
  | SCP_ST_PREPARE p => counter b <=? counter (p_ballot p)
  | _ => true
  end.

Definition checkHeardFromQuorum : SM unit :=
  let* s := getB id in
  match mCurrentBallot s with
  | None => mret tt
  | Some b =>
      if isQuorum (mQSet ln) (mLatestEnvelopes s) (qsetOfEnvelope d)
           (fun e => heardFilter b (statement e))
      then
        let oldHQ := mHeardFromQuorum s in
        do* modB (set_heard true) in
        do* when (negb oldHQ)
              (do* notify (BallotDidHearFromQuorum b) in
               when (negb (bool_decide (mPhase s = SCP_PHASE_EXTERNALIZE)))
                 startBallotProtocolTimer) in
        when (bool_decide (mPhase s = SCP_PHASE_EXTERNALIZE)) stopBallotProtocolTimer
      else
        do* modB (set_heard false) in
        stopBallotProtocolTimer
  end.

(** ** Emitting *)

Definition createStatement (phase : SCPPhase) : SM SCPStatement :=
  do* checkInvariants in
  let* s := getB id in
  match phase with
  | SCP_PHASE_PREPARE =>
      mret (mkStatement 0 0 (SCP_ST_PREPARE (mkPrepare (mQSetHash ln)
        (match mCurrentBallot s with Some b => b | None => nullBallot end)
        (mPrepared s) (mPreparedPrime s)
        (match mCommit s with Some c => counter c | None => 0 end)
        (match mHighBallot s with Some h => counter h | None => 0 end))))
  | SCP_PHASE_CONFIRM =>
      let* b := deref (mCurrentBallot s) "mCurrentBallot" in
      let* p := deref (mPrepared s) "mPrepared" in
      let* c := deref (mCommit s) "mCommit" in
      let* h := deref (mHighBallot s) "mHighBallot" in
      mret (mkStatement 0 0 (SCP_ST_CONFIRM
        (mkConfirm b (counter p) (counter c) (counter h) (mQSetHash ln))))
  | SCP_PHASE_EXTERNALIZE =>
      let* c := deref (mCommit s) "mCommit" in
      let* h := deref (mHighBallot s) "mHighBallot" in
      mret (mkStatement 0 0 (SCP_ST_EXTERNALIZE
        (mkExternalize c (counter h) (mQSetHash ln))))
  end.

(** The C++ compares the two [shared_ptr]s; [mLastEnvelope] is only ever
    replaced by a strictly newer envelope, so the envelopes differ exactly when
    the pointers do. *)
Definition sendLatestEnvelope : SM unit :=
  let* fully := getS mFullyValidated in
  let* s := getB id in
  match mLastEnvelope s with
  | Some e =>
      when ((mCurrentMessageLevel s =? 0) && fully &&
            negb (bool_decide (mLastEnvelopeEmit s = Some e)))
        (do* modB (set_lastEmit (Some e)) in notify (EmitEnvelope e))
  | None => mret tt
  end.

(** ** Operations that may re-enter [advanceSlot] *)

Section Reentrant.
Context (advance : SCPStatement -> SM unit).

Definition processEnvelope (env : SCPEnvelope) (self : bool) : SM EnvelopeState :=
  let* index := getS mSlotIndex in
  let st := statement env in
  do* dbgAssert (slotIndex st =? index) "slotIndex" in
  let* sane := lift (isStatementSane st self) in
  if negb sane then mret INVALID
  else
    let* newer := getB (isNewerStatementFrom (nodeID st) st) in
    if negb newer then mret INVALID
    else
      let validationRes := validateValues st index in
      match validationRes with
      | kInvalidValue => mret INVALID
      | _ =>
          let* s := getB id in
          match mPhase s with
          | SCP_PHASE_EXTERNALIZE =>
              let* c := deref (mCommit s) "mCommit" in
              if valueEq (value c) (value (getWorkingBallot st)) then
                do* recordEnvelope env in
                mret VALID
              else mret INVALID
          | _ =>
              do* when (bool_decide (validationRes = kMaybeValidValue))
                    (modify (set_fullyValidated false)) in
              do* recordEnvelope env in
              do* advance st in
              mret VALID
          end
      end.

(** [Slot::processEnvelope] on a ballot statement (the [catch] only logs and
    rethrows). *)
Definition slotProcessBallot (env : SCPEnvelope) (self : bool) : SM EnvelopeState :=
  let st := statement env in
  let* index := getS mSlotIndex in
  do* dbgAssert (slotIndex st =? index) "slotIndex" in
  let* prev := getS (fun s => isSome (getLatestMessage (nodeID st) s)) in
  let* res := processEnvelope env self in
  do* when (negb prev && bool_decide (res = VALID)) (maybeSetGotVBlocking ln) in
  mret res.

Definition emitCurrentStateStatement : SM unit :=
  let* phase := getB mPhase in
  let* st := createStatement phase in
  let* envelope := createEnvelope d ln st in
  let* s := getB id in
  let canEmit := isSome (mCurrentBallot s) in
  if bool_decide (mapFind (mLatestEnvelopes s) (mNodeID ln) = Some envelope) then mret tt
  else
    let* r := slotProcessBallot envelope true in
    match r with
    | VALID =>
        let* s := getB id in
        if canEmit && match mLastEnvelope s with
                      | None => true
                      | Some last => isNewerStatement (statement last) (statement envelope)
                      end
        then
          do* modB (set_last (Some envelope)) in
          sendLatestEnvelope
        else mret tt
    | INVALID => throw "moved to a bad state (ballot protocol)"
    end.

Definition bumpStateTo (v : Value) (n : Z) : SM bool :=
  let* s := getB id in
  match mPhase s with
  | SCP_PHASE_EXTERNALIZE => mret false
  | _ =>
      let newb := mkBallot n (match mValueOverride s with Some z => z | None => v end) in
      let* updated := updateCurrentValue newb in
      do* when updated
            (do* emitCurrentStateStatement in checkHeardFromQuorum) in
      mret updated
  end.

Definition bumpState (v : Value) (force : bool) : SM bool :=
  let* s := getB id in
  if negb force && isSome (mCurrentBallot s) then mret false
  else
    let n := match mCurrentBallot s with
             | Some b => u32 (counter b + 1)
             | None => 1
             end in
    bumpStateTo v n.

Definition abandonBallot (n : Z) : SM bool :=
  let* s := get in
  let v := mLatestCompositeCandidate (nomination s) in
  let v := match v with
           | None | Some [] =>
               match mCurrentBallot (ballot s) with
               | Some b => Some (value b)
               | None => v
               end
           | Some _ => v
           end in
  match v with
  | None | Some [] => mret false
  | Some x => if n =? 0 then bumpState x true else bumpStateTo x n
  end.

Definition ballotProtocolTimerExpired : SM unit :=
  do* modB (fun s => set_timerExp (i32 (mTimerExpCount s + 1)) s) in
  do* abandonBallot 0 in
  mret tt.

(** ** Steps 1 and 5: accept a ballot as prepared *)

Definition hintBallots (hint : SCPStatement) : exc (list SCPBallot) :=
  match pledges hint with
  | SCP_ST_PREPARE p =>
      let l := setInsert ballotLt (p_ballot p) [] in
      let l := match p_prepared p with Some b => setInsert ballotLt b l | None => l end in
      mret match p_preparedPrime p with Some b => setInsert ballotLt b l | None => l end
  | SCP_ST_CONFIRM c =>
      mret (setInsert ballotLt (mkBallot UINT32_MAX (value (c_ballot c)))
             (setInsert ballotLt (mkBallot (c_nPrepared c) (value (c_ballot c))) []))
  | SCP_ST_EXTERNALIZE e => mret [mkBallot UINT32_MAX (value (e_commit e))]
  | SCP_ST_NOMINATE _ => exc_throw notABallot
  end.

(** The body of the inner [for]: the candidates one envelope contributes. *)
Definition addCandidates (topVote : SCPBallot) (st : SCPStatement) (cands : list SCPBallot)
    : exc (list SCPBallot) :=
  match pledges st with
  | SCP_ST_PREPARE p =>
      let cands := if areBallotsLessAndCompatible (p_ballot p) topVote
                   then setInsert ballotLt (p_ballot p) cands else cands in
      let cands := match p_prepared p with
                   | Some b => if areBallotsLessAndCompatible b topVote
                               then setInsert ballotLt b cands else cands
                   | None => cands
                   end in
      mret match p_preparedPrime p with
           | Some b => if areBallotsLessAndCompatible b topVote
                       then setInsert ballotLt b cands else cands
           | None => cands
           end
  | SCP_ST_CONFIRM c =>
      mret (if areBallotsCompatible topVote (c_ballot c) then
              let cands := setInsert ballotLt topVote cands in
              if c_nPrepared c <? counter topVote
              then setInsert ballotLt (mkBallot (c_nPrepared c) (value topVote)) cands else cands
            else cands)
  | SCP_ST_EXTERNALIZE e =>
      mret (if areBallotsCompatible topVote (e_commit e)
            then setInsert ballotLt topVote cands else cands)
  | SCP_ST_NOMINATE _ => exc_throw notABallot
  end.

(** Votes are taken from the highest down, each scanned against every latest
    envelope. *)
Definition getPrepareCandidates (hint : SCPStatement) (envs : EnvMap) : exc (list SCPBallot) :=
  let* votes := hintBallots hint in
  foldM (fun topVote cands =>
    foldM (fun '(_, e) cands => addCandidates topVote (statement e) cands) envs cands)
    (rev votes) [].

(** [setPrepared]: p and p' are the two highest prepared incompatible ballots. *)
Definition setPrepared (bal : SCPBallot) : SM bool :=
  let* s := getB id in
  match mPrepared s with
  | Some p =>
      let comp := compareBallots p bal in
      if comp <? 0 then
        do* when (negb (areBallotsCompatible p bal)) (modB (set_pp (Some p))) in
        do* modB (set_p (Some bal)) in
        mret true
      else if 0 <? comp then
        if match mPreparedPrime s with
           | None => true
           | Some pp => (compareBallots pp bal <? 0) && negb (areBallotsCompatible p bal)
           end
        then do* modB (set_pp (Some bal)) in mret true
        else mret false
      else mret false
  | None => do* modB (set_p (Some bal)) in mret true
  end.

(** The test for clearing c: h is below p or p' and incompatible with it. *)
Definition commitOutdated (s : BallotState) : bool :=
  match mCommit s, mHighBallot s with
  | Some _, Some h =>
      match mPrepared s with Some p => areBallotsLessAndIncompatible h p | None => false end ||
      match mPreparedPrime s with Some pp => areBallotsLessAndIncompatible h pp | None => false end
  | _, _ => false
  end.

Definition setAcceptPrepared (bal : SCPBallot) : SM bool :=
  let* didWork := setPrepared bal in
  let* s := getB id in
  let clearC := commitOutdated s in
  do* when clearC
        (do* dbgAssert (bool_decide (mPhase s = SCP_PHASE_PREPARE)) "mPhase == SCP_PHASE_PREPARE" in
         modB (set_c None)) in
  let didWork := didWork || clearC in
  do* when didWork
        (do* notify (AcceptedBallotPrepared bal) in emitCurrentStateStatement) in
  mret didWork.

(** The [for] over the candidates, highest first. *)
Fixpoint acceptPreparedLoop (cands : list SCPBallot) : SM bool :=
  match cands with
  | [] => mret false
  | bal :: cands' =>
      let* s := getB id in
      let* skip :=
        match mPhase s with
        | SCP_PHASE_CONFIRM =>
            let* p := deref (mPrepared s) "mPrepared" in
            if negb (areBallotsLessAndCompatible p bal) then mret true
            else
              let* c := deref (mCommit s) "mCommit" in
              do* dbgAssert (areBallotsCompatible c bal) "areBallotsCompatible(mCommit, ballot)" in
              mret false
        | _ => mret false
        end in
      if skip then acceptPreparedLoop cands'
      else if match mPreparedPrime s with
              | Some pp => compareBallots bal pp <=? 0
              | None => false
              end then acceptPreparedLoop cands'
      else if match mPrepared s with
              | Some p => areBallotsLessAndCompatible bal p
              | None => false
              end then acceptPreparedLoop cands'
      else if federatedAccept d ln (votesPrepared bal) (hasPreparedBallot bal) (mLatestEnvelopes s)
      then setAcceptPrepared bal
      else acceptPreparedLoop cands'
  end.

Definition attemptAcceptPrepared (hint : SCPStatement) : SM bool :=
  let* s := getB id in
  match mPhase s with
  | SCP_PHASE_EXTERNALIZE => mret false
  | _ =>
      let* candidates := lift (getPrepareCandidates hint (mLatestEnvelopes s)) in
      acceptPreparedLoop (rev candidates)
  end.

(** ** Steps 2, 3 and 8: confirm a ballot as prepared *)

Definition setConfirmPrepared (newC newH : SCPBallot) : SM bool :=
  do* modB (set_override (Some (value newH))) in
  let* s := getB id in
  let* didWork :=
    if match mCurrentBallot s with
       | None => true
       | Some b => areBallotsCompatible b newH
       end
    then
      let raiseH := match mHighBallot s with
                    | None => true
                    | Some h => 0 <? compareBallots newH h
                    end in
      do* when raiseH (modB (set_h (Some newH))) in
      let setC := negb (counter newC =? 0) in
      do* when setC
            (do* dbgAssert (negb (isSome (mCommit s))) "!mCommit" in
             modB (set_c (Some newC))) in
      do* when (raiseH || setC) (notify (ConfirmedBallotPrepared newH)) in
      mret (raiseH || setC)
    else mret false in
  let* updated := updateCurrentIfNeeded newH in
  let didWork := updated || didWork in
  do* when didWork emitCurrentStateStatement in
  mret didWork.

(** First loop: the highest ratified candidate above h; the result is the rest
    of the iteration, starting at that candidate. *)
Fixpoint findNewH (h : option SCPBallot) (envs : EnvMap) (cands : list SCPBallot)
    : option (SCPBallot * list SCPBallot) :=
  match cands with
  | [] => None
  | bal :: cands' =>
      if match h with Some h => 0 <=? compareBallots h bal | None => false end then None
      else if federatedRatify d ln (hasPreparedBallot bal) envs then Some (bal, cands)
      else findNewH h envs cands'
  end.

(** Second loop: extend downwards from newH while ratified, not below b. *)
Fixpoint findNewC (b newH : SCPBallot) (envs : EnvMap) (cands : list SCPBallot) (newC : SCPBallot)
    : SCPBallot :=
  match cands with
  | [] => newC
  | bal :: cands' =>
      if compareBallots bal b <? 0 then newC
      else if negb (areBallotsLessAndCompatible bal newH) then findNewC b newH envs cands' newC
      else if federatedRatify d ln (hasPreparedBallot bal) envs
      then findNewC b newH envs cands' bal
      else newC
  end.

Definition attemptConfirmPrepared (hint : SCPStatement) : SM bool :=
  let* s := getB id in
  match mPhase s, mPrepared s with
  | SCP_PHASE_PREPARE, Some p =>
      let envs := mLatestEnvelopes s in
      let* candidates := lift (getPrepareCandidates hint envs) in
      match findNewH (mHighBallot s) envs (rev candidates) with
      | None => mret false
      | Some (newH, rest) =>
          let b := match mCurrentBallot s with Some b => b | None => nullBallot end in
          let newC :=
            if negb (isSome (mCommit s)) &&
               negb (areBallotsLessAndIncompatible newH p) &&
               match mPreparedPrime s with
               | Some pp => negb (areBallotsLessAndIncompatible newH pp)
               | None => true
               end
            then findNewC b newH envs rest nullBallot
            else nullBallot in
          setConfirmPrepared newC newH
      end
  | _, _ => mret false
  end.

(** ** Steps 4, 6 and 8: accept a commit *)

(** [findExtendedInterval], over the boundaries from the highest. *)
Fixpoint findExtendedIntervalLoop (candidate : Interval) (bounds : list Z) (pred : Interval -> bool)
    : Interval :=
  match bounds with
  | [] => candidate
  | b :: bounds' =>
      let step cur :=
        if pred cur then findExtendedIntervalLoop cur bounds' pred
        else if negb (candidate.1 =? 0) then candidate
        else findExtendedIntervalLoop candidate bounds' pred in
      if candidate.1 =? 0 then step (b, b)
      else if candidate.2 <? b then findExtendedIntervalLoop candidate bounds' pred
      else step (b, candidate.2)
  end.

Definition findExtendedInterval (candidate : Interval) (boundaries : list Z)
    (pred : Interval -> bool) : Interval :=
  findExtendedIntervalLoop candidate (rev boundaries) pred.

Definition getCommitBoundariesFromStatements (bal : SCPBallot) (envs : EnvMap) : exc (list Z) :=
  foldM (fun '(_, e) res =>
    match pledges (statement e) with
    | SCP_ST_PREPARE p =>
        mret (if areBallotsCompatible bal (p_ballot p) && negb (p_nC p =? 0)
              then setInsert Z.ltb (p_nH p) (setInsert Z.ltb (p_nC p) res) else res)
    | SCP_ST_CONFIRM c =>
        mret (if areBallotsCompatible bal (c_ballot c)
              then setInsert Z.ltb (c_nH c) (setInsert Z.ltb (c_nCommit c) res) else res)
    | SCP_ST_EXTERNALIZE e =>
        mret (if areBallotsCompatible bal (e_commit e)
              then setInsert Z.ltb UINT32_MAX
                     (setInsert Z.ltb (e_nH e) (setInsert Z.ltb (counter (e_commit e)) res))
              else res)
    | SCP_ST_NOMINATE _ => exc_throw notABallot
    end) envs [].

(** The test for updating c and h. *)
Definition commitChanged (c h : SCPBallot) (s : BallotState) : bool :=
  match mHighBallot s, mCommit s with
  | Some h0, Some c0 => negb (compareBallots h0 h =? 0) || negb (compareBallots c0 c =? 0)
  | _, _ => true
  end.

Definition setAcceptCommit (c h : SCPBallot) : SM bool :=
  do* modB (set_override (Some (value h))) in
  let* s := getB id in
  let changed := commitChanged c h s in
  do* when changed (do* modB (set_c (Some c)) in modB (set_h (Some h))) in
  let wasPrepare := bool_decide (mPhase s = SCP_PHASE_PREPARE) in
  do* when wasPrepare
        (do* modB (set_phase SCP_PHASE_CONFIRM) in
         do* when match mCurrentBallot s with
                  | Some b => negb (areBallotsLessAndCompatible h b)
                  | None => false
                  end (bumpToBallot h false) in
         modB (set_pp None)) in
  let didWork := changed || wasPrepare in
  do* when didWork
        (let* s := getB id in
         let* hb := deref (mHighBallot s) "mHighBallot" in
         do* updateCurrentIfNeeded hb in
         do* notify (AcceptedCommit h) in
         emitCurrentStateStatement) in
  mret didWork.

(** The value voted for by the hint, as a ballot; [None] is the early return. *)
Definition acceptCommitBallot (hint : SCPStatement) : exc (option SCPBallot) :=
  match pledges hint with
  | SCP_ST_PREPARE p =>
      mret (if negb (p_nC p =? 0) then Some (mkBallot (p_nH p) (value (p_ballot p))) else None)
  | SCP_ST_CONFIRM c => mret (Some (mkBallot (c_nH c) (value (c_ballot c))))
  | SCP_ST_EXTERNALIZE e => mret (Some (mkBallot (e_nH e) (value (e_commit e))))
  | SCP_ST_NOMINATE _ => exc_throw notABallot
  end.

Definition attemptAcceptCommit (hint : SCPStatement) : SM bool :=
  let* s := getB id in
  match mPhase s with
  | SCP_PHASE_EXTERNALIZE => mret false
  | phase =>
      let* hinted := lift (acceptCommitBallot hint) in
      match hinted with
      | None => mret false
      | Some bal =>
          let* compat :=
            match phase with
            | SCP_PHASE_CONFIRM =>
                let* h := deref (mHighBallot s) "mHighBallot" in
                mret (areBallotsCompatible bal h)
            | _ => mret true
            end in
          if negb compat then mret false
          else
            let envs := mLatestEnvelopes s in
            let pred cur := federatedAccept d ln (votesCommit bal cur) (commitPredicate bal cur) envs in
            let* boundaries := lift (getCommitBoundariesFromStatements bal envs) in
            match boundaries with
            | [] => mret false
            | _ =>
                let candidate := findExtendedInterval (0, 0) boundaries pred in
                if negb (candidate.1 =? 0) then
                  let* higher :=
                    match phase with
                    | SCP_PHASE_CONFIRM =>
                        let* h := deref (mHighBallot s) "mHighBallot" in
                        mret (counter h <? candidate.2)
                    | _ => mret true
                    end in
                  if higher then
                    setAcceptCommit (mkBallot candidate.1 (value bal)) (mkBallot candidate.2 (value bal))
                  else mret false
                else mret false
            end
      end
  end.

(** ** Steps 7 and 8: confirm a commit *)

(** [NominationProtocol::stopNomination]. *)
Definition stopNomination : SM unit := modN (set_nominationStarted false).

Definition setConfirmCommit (c h : SCPBallot) : SM bool :=
  do* modB (set_c (Some c)) in
  do* modB (set_h (Some h)) in
  do* updateCurrentIfNeeded h in
  do* modB (set_phase SCP_PHASE_EXTERNALIZE) in
  do* emitCurrentStateStatement in
  do* stopNomination in
  let* s := getB id in
  let* c := deref (mCommit s) "mCommit" in
  do* notify (ValueExternalized (value c)) in
  mret true.

Definition confirmCommitBallot (hint : SCPStatement) : exc (option SCPBallot) :=
  match pledges hint with
  | SCP_ST_PREPARE _ => mret None
  | SCP_ST_CONFIRM c => mret (Some (mkBallot (c_nH c) (value (c_ballot c))))
  | SCP_ST_EXTERNALIZE e => mret (Some (mkBallot (e_nH e) (value (e_commit e))))
  | SCP_ST_NOMINATE _ => exc_throw notABallot
  end.

Definition attemptConfirmCommit (hint : SCPStatement) : SM bool :=
  let* s := getB id in
  match mPhase s, mHighBallot s, mCommit s with
  | SCP_PHASE_CONFIRM, Some _, Some c =>
      let* hinted := lift (confirmCommitBallot hint) in
      match hinted with
      | None => mret false
      | Some bal =>
          if negb (areBallotsCompatible bal c) then mret false
          else
            let envs := mLatestEnvelopes s in
            let* boundaries := lift (getCommitBoundariesFromStatements bal envs) in
            let pred cur := federatedRatify d ln (commitPredicate bal cur) envs in
            let candidate := findExtendedInterval (0, 0) boundaries pred in
            if negb (candidate.1 =? 0) then
              setConfirmCommit (mkBallot candidate.1 (value bal)) (mkBallot candidate.2 (value bal))
            else mret false
      end
  | _, _, _ => mret false
  end.

(** ** Step 9: follow a v-blocking set of higher counters *)

(** [LocalNode::isVBlocking] with the filter [statementBallotCounter > n]. *)
Definition hasVBlockingSubsetStrictlyAheadOf (envs : EnvMap) (n : Z) : exc bool :=
  let* pNodes := foldM (fun '(node, e) nodes =>
    let* c := statementBallotCounter (statement e) in
    mret (if n <? c then nodes ++ [node] else nodes)) envs [] in
  mret (isVBlocking (mQSet ln) pNodes).

(** The counters above the local one, in increasing order. *)
Definition countersAhead (envs : EnvMap) (localCounter : Z) : exc (list Z) :=
  foldM (fun '(_, e) res =>
    let* c := statementBallotCounter (statement e) in
    mret (if localCounter <? c then setInsert Z.ltb c res else res)) envs [].

(** The first of the counters no v-blocking set is ahead of. *)
Fixpoint firstNotAhead (envs : EnvMap) (counters : list Z) : exc (option Z) :=
  match counters with
  | [] => mret None
  | n :: counters =>
      let* ahead := hasVBlockingSubsetStrictlyAheadOf envs n in
      if negb ahead then mret (Some n) else firstNotAhead envs counters
  end.

Definition attemptBump : SM bool :=
  let* s := getB id in
  match mPhase s with
  | SCP_PHASE_EXTERNALIZE => mret false
  | _ =>
      let localCounter := match mCurrentBallot s with Some b => counter b | None => 0 end in
      let envs := mLatestEnvelopes s in
      let* ahead := lift (hasVBlockingSubsetStrictlyAheadOf envs localCounter) in
      if negb ahead then mret false
      else
        let* allCounters := lift (countersAhead envs localCounter) in
        let* next := lift (firstNotAhead envs allCounters) in
        match next with
        | Some n => abandonBallot n
        | None => mret false
        end
  end.

(** The [do ... while (didBump)] loop. *)
Fixpoint bumpLoop (fuel : nat) : SM bool :=
  match fuel with
  | O => fail OutOfFuel
  | S fuel' =>
      let* didBump := attemptBump in
      if didBump then
        do* bumpLoop fuel' in
        mret true
      else mret false
  end.

(** The body of [advanceSlot], with the re-entrant calls going to [advance]. *)
Definition advanceBody (loopFuel : nat) (hint : SCPStatement) : SM unit :=
  do* modB (fun s => set_level (mCurrentMessageLevel s + 1) s) in
  let* level := getB mCurrentMessageLevel in
  if MAX_ADVANCE_SLOT_RECURSION <=? level then
    throw "maximum number of transitions reached in advanceSlot"
  else
    let* w1 := attemptAcceptPrepared hint in
    let* w2 := attemptConfirmPrepared hint in
    let* w3 := attemptAcceptCommit hint in
    let* w4 := attemptConfirmCommit hint in
    let* level := getB mCurrentMessageLevel in
    let* w5 :=
      if level =? 1 then
        let* didBump := bumpLoop loopFuel in
        do* checkHeardFromQuorum in
        mret didBump
      else mret false in
    do* modB (fun s => set_level (mCurrentMessageLevel s - 1) s) in
    when (w1 || w2 || w3 || w4 || w5) sendLatestEnvelope.

End Reentrant.

(** [advanceSlot]: each re-entrant call uses one unit of fuel; the recursion
    limit of the code stops it at fifty. *)
Fixpoint advanceSlot (fuel : nat) (hint : SCPStatement) : SM unit :=
  match fuel with
  | O => fail OutOfFuel
  | S fuel' => advanceBody (advanceSlot fuel') fuel' hint
  end.

(** ** Restoring and reporting *)

Definition setStateFromEnvelope (e : SCPEnvelope) : SM unit :=
  let* s := getB id in
  if isSome (mCurrentBallot s) then throw "Cannot set state after starting ballot protocol"
  else
    do* recordEnvelope e in
    do* modB (set_last (Some e)) in
    do* modB (set_lastEmit (Some e)) in
    match pledges (statement e) with
    | SCP_ST_PREPARE prep =>
        let b := p_ballot prep in
        do* bumpToBallot b true in
        do* when (isSome (p_prepared prep)) (modB (set_p (p_prepared prep))) in
        do* when (isSome (p_preparedPrime prep)) (modB (set_pp (p_preparedPrime prep))) in
        do* when (negb (p_nH prep =? 0)) (modB (set_h (Some (mkBallot (p_nH prep) (value b))))) in
        do* when (negb (p_nC prep =? 0)) (modB (set_c (Some (mkBallot (p_nC prep) (value b))))) in
        modB (set_phase SCP_PHASE_PREPARE)
    | SCP_ST_CONFIRM c =>
        let v := value (c_ballot c) in
        do* bumpToBallot (c_ballot c) true in
        do* modB (set_p (Some (mkBallot (c_nPrepared c) v))) in
        do* modB (set_h (Some (mkBallot (c_nH c) v))) in
        do* modB (set_c (Some (mkBallot (c_nCommit c) v))) in
        modB (set_phase SCP_PHASE_CONFIRM)
    | SCP_ST_EXTERNALIZE ext =>
        let v := value (e_commit ext) in
        do* bumpToBallot (mkBallot UINT32_MAX v) true in
        do* modB (set_p (Some (mkBallot UINT32_MAX v))) in
        do* modB (set_h (Some (mkBallot (e_nH ext) v))) in
        do* modB (set_c (Some (e_commit ext))) in
        modB (set_phase SCP_PHASE_EXTERNALIZE)
    | SCP_ST_NOMINATE _ => fail (AssertFailure "dbgAbort")
    end.

(** [processCurrentState] with the callback's effect as a fold: [f] returns the
    new accumulator and whether to go on. *)
Fixpoint processCurrentState {X} (fullyValidated forceSelf : bool) (f : SCPEnvelope -> X -> bool * X)
    (envs : EnvMap) (x : X) : bool * X :=
  match envs with
  | [] => (true, x)
  | (n, e) :: envs' =>
      if forceSelf || negb (n =? mNodeID ln) || fullyValidated then
        let '(go, x') := f e x in
        if go then processCurrentState fullyValidated forceSelf f envs' x' else (false, x')
      else processCurrentState fullyValidated forceSelf f envs' x
  end.

Fixpoint externalizingEnvelopes (fullyValidated : bool) (commit : option SCPBallot) (envs : EnvMap)
    : SM (list SCPEnvelope) :=
  match envs with
  | [] => mret []
  | (n, e) :: envs' =>
      let* keep :=
        if negb (n =? mNodeID ln) then
          let* c := deref commit "mCommit" in
          mret (areBallotsCompatible (getWorkingBallot (statement e)) c)
        else mret fullyValidated in
      let* rest := externalizingEnvelopes fullyValidated commit envs' in
      mret (if keep then e :: rest else rest)
  end.

Definition getExternalizingState : SM (list SCPEnvelope) :=
  let* fullyValidated := getS mFullyValidated in
  let* s := getB id in
  match mPhase s with
  | SCP_PHASE_EXTERNALIZE =>
      externalizingEnvelopes fullyValidated (mCommit s) (mLatestEnvelopes s)
  | _ => mret []
  end.

Definition ballotGetState (n : NodeID) (selfAlreadyMovedOn : bool) (s : BallotState)
    : QuorumInfoNodeState :=
  if n =? mNodeID ln then AGREE
  else
    match mapFind (mLatestEnvelopes s) n with
    | None =>
        if (NUM_TIMEOUTS_THRESHOLD_FOR_REPORTING <=? mTimerExpCount s) || selfAlreadyMovedOn
        then MISSING else NO_INFO
    | Some e =>
        match mLastEnvelopeEmit s with
        | None => AGREE
        | Some selfEnv =>
            let st := statement e in
            let externalized :=
              match pledges st with SCP_ST_EXTERNALIZE _ => true | _ => false end in
            let confirmedCommit :=
              match pledges st with
              | SCP_ST_CONFIRM c => counter (c_ballot c) =? UINT32_MAX
              | _ => false
              end in
            let state :=
              if bool_decide (mPhase s = SCP_PHASE_EXTERNALIZE) &&
                 (negb externalized || negb confirmedCommit) && selfAlreadyMovedOn
              then DELAYED else AGREE in
            let selfAcceptedConfirm :=
              match mPhase s with SCP_PHASE_PREPARE => false | _ => true end in
            let otherAcceptedConfirm :=
              match pledges st with
              | SCP_ST_CONFIRM _ | SCP_ST_EXTERNALIZE _ => true
              | _ => false
              end in
            if selfAcceptedConfirm && otherAcceptedConfirm &&
               negb (areBallotsCompatible (getWorkingBallot st) (getWorkingBallot (statement selfEnv)))
            then DISAGREE else state
        end
    end.

End Ballot.
