(* ===== verification/BallotInv.v ===== *)
(** * Invariants of the ballot protocol

    The facts every operation of [BallotProtocol] keeps, and how a slot may
    evolve under them: which members may change, in which direction, and which
    of the run-time checks can never fail. *)

From Stdlib Require Import Sorted.
From stdpp Require Import base list gmap strings.
From S2P Require Import Prelude Numeric QuorumSet LocalNode Statement SlotState Ballot.

Local Open Scope Z_scope.

#[local] Arguments mapFind : simpl never.
#[local] Arguments compareBallots : simpl never.
#[local] Arguments areBallotsCompatible : simpl never.
#[local] Arguments areBallotsLessAndCompatible : simpl never.
#[local] Arguments areBallotsLessAndIncompatible : simpl never.

(** ** Maps keyed by node *)

Lemma mapFind_cons {V} k v (m : list (NodeID * V)) n :
  mapFind ((k, v) :: m) n = if k =? n then Some v else mapFind m n.
Proof. unfold mapFind. cbn. by destruct (k =? n). Qed.

Lemma mapFind_mapInsert {V} k (v : V) m : mapFind (mapInsert k v m) k = Some v.
Proof.
  induction m as [|[k' v'] m IH]; cbn [mapInsert]; [by rewrite mapFind_cons, Z.eqb_refl|].
  destruct (Z.ltb_spec k k'); [by rewrite mapFind_cons, Z.eqb_refl|].
  destruct (Z.eqb_spec k k'); [by rewrite mapFind_cons, Z.eqb_refl|].
  rewrite mapFind_cons, (proj2 (Z.eqb_neq k' k)); [done|lia].
Qed.

Lemma mapFind_mapInsert_ne {V} k (v : V) m n : n <> k -> mapFind (mapInsert k v m) n = mapFind m n.
Proof.
  intros Hn. induction m as [|[k' v'] m IH]; cbn [mapInsert].
  - by rewrite mapFind_cons, (proj2 (Z.eqb_neq k n)).
  - destruct (Z.ltb_spec k k'); [by rewrite mapFind_cons, (proj2 (Z.eqb_neq k n))|].
    destruct (Z.eqb_spec k k') as [<-|]; rewrite !mapFind_cons.
    + by rewrite (proj2 (Z.eqb_neq k n)).
    + by rewrite IH.
Qed.

(** The keys of a [std::map] are in increasing order. *)
Definition ordered {V} (m : list (NodeID * V)) : Prop := StronglySorted Z.lt (map fst m).

Lemma mapInsert_keys {V} k (v : V) m n :
  In n (map fst (mapInsert k v m)) -> n = k \/ In n (map fst m).
Proof.
  induction m as [|[k' v'] m IH]; cbn; [intuition congruence|].
  destruct (Z.ltb_spec k k'); cbn; [intuition congruence|].
  destruct (Z.eqb_spec k k'); cbn; intuition congruence.
Qed.

Lemma mapInsert_ordered {V} k (v : V) m : ordered m -> ordered (mapInsert k v m).
Proof.
  unfold ordered. induction m as [|[k' v'] m IH]; cbn; intros H; [repeat constructor|].
  apply StronglySorted_inv in H as [H Hk]. rewrite List.Forall_forall in Hk.
  destruct (Z.ltb_spec k k'); [|destruct (Z.eqb_spec k k') as [->|Hne]]; cbn.
  - constructor; [by constructor; [|apply List.Forall_forall]|].
    apply List.Forall_forall. intros m' [<-|Hn]; [done|]. specialize (Hk m' Hn). lia.
  - by constructor; [|apply List.Forall_forall].
  - constructor; [by apply IH|]. apply List.Forall_forall. intros m' Hn.
    apply mapInsert_keys in Hn as [->|Hn]; [lia|by apply Hk].
Qed.

Lemma ordered_NoDup {V} (m : list (NodeID * V)) : ordered m -> NoDup (map fst m).
Proof.
  unfold ordered. induction (map fst m) as [|k l IH]; intros H; [constructor|].
  apply StronglySorted_inv in H as [H Hk]. constructor; [|by apply IH].
  rewrite list_elem_of_In. intros Hin. rewrite List.Forall_forall in Hk.
  specialize (Hk k Hin). lia.
Qed.

(** ** What the members mean to each other *)

Definition phaseRank (ph : SCPPhase) : Z :=
  match ph with
  | SCP_PHASE_PREPARE => 0
  | SCP_PHASE_CONFIRM => 1
  | SCP_PHASE_EXTERNALIZE => 2
  end.

(** x is unset, or y is set, not below x and has the same value. *)
Definition lec (x y : option SCPBallot) : Prop :=
  match x, y with
  | None, _ => True
  | Some x, Some y => ballot_le x y /\ value x = value y
  | Some _, None => False
  end.

(** x is unset, or y is set, above x and has another value. *)
Definition lti (x y : option SCPBallot) : Prop :=
  match x, y with
  | None, _ => True
  | Some x, Some y => ballot_lt x y /\ value x <> value y
  | Some _, None => False
  end.

(** The order with the unset ballot at the bottom. *)
Definition ole (x y : option SCPBallot) : Prop :=
  match x, y with
  | None, _ => True
  | Some x, Some y => ballot_le x y
  | Some _, None => False
  end.

Lemma ole_refl x : ole x x.
Proof. destruct x; cbn; [apply ballot_le_refl|done]. Qed.

Lemma ole_trans x y z : ole x y -> ole y z -> ole x z.
Proof. destruct x, y, z; cbn; try tauto. apply ballot_le_trans. Qed.

(** The members a statement is made of. *)
Definition fields (s : BallotState) :=
  (mCurrentBallot s, mPrepared s, mPreparedPrime s, mHighBallot s, mCommit s, mPhase s).

(** p' < p with another value; c <= h <= b with one value; from CONFIRM on, c
    is set and p' is not. *)
Definition Core (s : BallotState) : Prop :=
  lti (mPreparedPrime s) (mPrepared s) /\
  lec (mHighBallot s) (mCurrentBallot s) /\
  lec (mCommit s) (mHighBallot s) /\
  (mPhase s <> SCP_PHASE_PREPARE -> mPreparedPrime s = None /\ mCommit s <> None).

Definition HasP (s : BallotState) : Prop :=
  mPhase s <> SCP_PHASE_PREPARE -> mPrepared s <> None.

Definition commitValue (s : BallotState) : option Value := value <$> mCommit s.
Definition highCounter (s : BallotState) : Z :=
  match mHighBallot s with Some h => counter h | None => 0 end.
Definition localCounter (s : BallotState) : Z :=
  match mCurrentBallot s with Some b => counter b | None => 0 end.

(** How the members may move: the phase and p only go up; b goes up unless the
    node enters CONFIRM; from CONFIRM on the committed value is fixed, and
    EXTERNALIZE freezes everything. *)
Record Adv (s s' : BallotState) : Prop := {
  adv_phase : phaseRank (mPhase s) <= phaseRank (mPhase s');
  adv_p : ole (mPrepared s) (mPrepared s');
  adv_b : mPhase s = mPhase s' \/ mPhase s <> SCP_PHASE_PREPARE ->
          ole (mCurrentBallot s) (mCurrentBallot s');
  adv_c : mPhase s <> SCP_PHASE_PREPARE -> commitValue s' = commitValue s;
  adv_h : mPhase s = SCP_PHASE_CONFIRM -> mPhase s' = SCP_PHASE_CONFIRM ->
          highCounter s <= highCounter s';
  adv_ext : mPhase s = SCP_PHASE_EXTERNALIZE -> fields s' = fields s
}.

Lemma Adv_same s s' : fields s' = fields s -> Adv s s'.
Proof.
  destruct s, s'; unfold fields; cbn. intros [= -> -> -> -> -> ->].
  split; cbn; intros; try apply ole_refl; done.
Qed.

Lemma Adv_refl s : Adv s s.
Proof. by apply Adv_same. Qed.

Lemma phase_between s1 s2 s3 :
  phaseRank (mPhase s1) <= phaseRank (mPhase s2) -> phaseRank (mPhase s2) <= phaseRank (mPhase s3) ->
  mPhase s1 = mPhase s3 -> mPhase s1 = mPhase s2.
Proof. intros. destruct (mPhase s1), (mPhase s2), (mPhase s3); cbn in *; done || lia. Qed.

Lemma phase_above s s' :
  phaseRank (mPhase s) <= phaseRank (mPhase s') ->
  mPhase s <> SCP_PHASE_PREPARE -> mPhase s' <> SCP_PHASE_PREPARE.
Proof. destruct (mPhase s), (mPhase s'); cbn; done || lia. Qed.

Lemma Adv_trans s1 s2 s3 : Adv s1 s2 -> Adv s2 s3 -> Adv s1 s3.
Proof.
  intros H G. pose proof (adv_phase _ _ H). pose proof (adv_phase _ _ G). split.
  - lia.
  - eapply ole_trans; [apply H|apply G].
  - intros E. apply ole_trans with (mCurrentBallot s2).
    + apply H. destruct E as [E|E]; [left; by eapply phase_between|by right].
    + apply G. destruct E as [E|E]; [|right; by eapply phase_above].
      left. rewrite <- E. symmetry. by eapply phase_between.
  - intros E. rewrite (adv_c _ _ G), (adv_c _ _ H); try done. by eapply phase_above.
  - intros E E'. assert (mPhase s2 = SCP_PHASE_CONFIRM) as E2.
    { rewrite <- E. symmetry. apply (phase_between s1 s2 s3); [done..|by rewrite E, E']. }
    pose proof (adv_h _ _ H E E2). pose proof (adv_h _ _ G E2 E'). lia.
  - intros E. pose proof (adv_ext _ _ H E) as Hf. rewrite (adv_ext _ _ G), Hf; [done|].
    injection Hf as ??????. by rewrite <- E.
Qed.

(** ** The slot's callbacks *)

Definition isBallotStatement (st : SCPStatement) : bool :=
  match pledges st with SCP_ST_NOMINATE _ => false | _ => true end.

(** The ballot envelopes emitted and the values externalized, in order. *)
Definition emitOf (e : Event) : option SCPEnvelope :=
  match e with
  | EmitEnvelope e => if isBallotStatement (statement e) then Some e else None
  | _ => None
  end.
Definition extOf (e : Event) : option Value :=
  match e with ValueExternalized v => Some v | _ => None end.

Definition emits (s : SlotState) : list SCPEnvelope := omap emitOf (events s).
Definition exts (s : SlotState) : list Value := omap extOf (events s).

Definition newerEnv (e e' : SCPEnvelope) : Prop := newer (statement e) (statement e').
Definition newerEq (e e' : SCPEnvelope) : Prop := e' = e \/ newerEnv e e'.

Lemma newerEq_refl e : newerEq e e.
Proof. by left. Qed.

Lemma newerEq_trans a b c : newerEq a b -> newerEq b c -> newerEq a c.
Proof.
  intros [->|H] [->|G]; [by left|by right..|]. right. by apply (newer_trans _ (statement b)).
Qed.

(** An optional envelope only replaced by a newer one. *)
Definition replaced (o o' : option SCPEnvelope) : Prop :=
  forall e, o = Some e -> exists e', o' = Some e' /\ newerEq e e'.

Lemma replaced_refl o : replaced o o.
Proof. intros e ->. eauto using newerEq_refl. Qed.

Lemma replaced_trans o1 o2 o3 : replaced o1 o2 -> replaced o2 o3 -> replaced o1 o3.
Proof.
  intros H G e He. apply H in He as (e1 & He1 & N1). apply G in He1 as (e2 & He2 & N2).
  eauto using newerEq_trans.
Qed.

(** A slot change that touches neither the messages nor the outputs. *)
Record Quiet (s s' : SlotState) : Prop := {
  q_index : mSlotIndex s' = mSlotIndex s;
  q_latest : mLatestEnvelopes (ballot s') = mLatestEnvelopes (ballot s);
  q_level : mCurrentMessageLevel (ballot s') = mCurrentMessageLevel (ballot s);
  q_last : mLastEnvelope (ballot s') = mLastEnvelope (ballot s);
  q_lastEmit : mLastEnvelopeEmit (ballot s') = mLastEnvelopeEmit (ballot s);
  q_emits : emits s' = emits s;
  q_exts : exts s' = exts s
}.

Lemma Quiet_refl s : Quiet s s.
Proof. by split. Qed.

Lemma Quiet_trans s1 s2 s3 : Quiet s1 s2 -> Quiet s2 s3 -> Quiet s1 s3.
Proof. intros [] []. split; etransitivity; eauto. Qed.

Lemma Quiet_notify s e :
  emitOf e = None -> extOf e = None -> Quiet s (set_events (events s ++ [e]) s).
Proof.
  intros H G. split; cbn; try done; unfold emits, exts; rewrite omap_app; cbn;
    rewrite ?H, ?G; apply app_nil_r.
Qed.

(** *** Functions for ballot statements

    On ballot statements the functions that abort on a nomination return. *)

(** The counter [statementBallotCounter] returns. *)
Definition ballotCounter (st : SCPStatement) : Z :=
  match pledges st with
  | SCP_ST_PREPARE p => counter (p_ballot p)
  | SCP_ST_CONFIRM c => counter (c_ballot c)
  | SCP_ST_EXTERNALIZE _ => UINT32_MAX
  | SCP_ST_NOMINATE _ => 0
  end.

Lemma statementBallotCounter_eq st :
  isBallotStatement st = true -> statementBallotCounter st = inr (ballotCounter st).
Proof. unfold isBallotStatement, statementBallotCounter, ballotCounter. by destruct (pledges st). Qed.

Lemma isStatementSane_total d st self :
  isBallotStatement st = true -> exists b, isStatementSane d st self = inr b.
Proof.
  unfold isBallotStatement, isStatementSane. destruct (getQuorumSetFromStatement d st); [|eauto].
  destruct (negb _); [eauto|]. destruct (pledges st); try done; intros _; by eexists.
Qed.

Lemma isStatementSane_ballot d st self :
  isStatementSane d st self = inr true -> isBallotStatement st = true.
Proof.
  unfold isBallotStatement, isStatementSane. destruct (getQuorumSetFromStatement d st); [|done].
  destruct (negb _); [done|]. by destruct (pledges st).
Qed.

Lemma foldM_total {A B} (f : B -> A -> exc A) l a :
  (forall b a, In b l -> exists a', f b a = inr a') -> exists a', foldM f l a = inr a'.
Proof.
  revert a. induction l as [|b l IH]; intros a H; [by eexists|]. cbn.
  destruct (H b a) as [a' ->]; [by left|]. cbn. apply IH. intros b' a'' Hb. apply H. by right.
Qed.

Lemma getPrepareCandidates_total hint envs :
  isBallotStatement hint = true -> (forall n e, In (n, e) envs -> isBallotStatement (statement e) = true) ->
  exists l, getPrepareCandidates hint envs = inr l.
Proof.
  intros Hh He. unfold getPrepareCandidates.
  assert (exists votes, hintBallots hint = inr votes) as [votes ->].
  { unfold isBallotStatement, hintBallots in *. destruct (pledges hint); try done; by eexists. }
  cbn. apply foldM_total. intros top cands _. apply foldM_total. intros [n e] c Hin.
  specialize (He n e Hin). unfold isBallotStatement, addCandidates in *.
  destruct (pledges (statement e)); try done; by eexists.
Qed.

Lemma getCommitBoundaries_total bal envs :
  (forall n e, In (n, e) envs -> isBallotStatement (statement e) = true) ->
  exists l, getCommitBoundariesFromStatements bal envs = inr l.
Proof.
  intros He. apply foldM_total. intros [n e] res Hin. specialize (He n e Hin).
  unfold isBallotStatement in He. destruct (pledges (statement e)); try done; by eexists.
Qed.

Lemma hintedCommit_total hint :
  isBallotStatement hint = true ->
  (exists o, acceptCommitBallot hint = inr o) /\ (exists o, confirmCommitBallot hint = inr o).
Proof.
  unfold isBallotStatement, acceptCommitBallot, confirmCommitBallot.
  destruct (pledges hint); try done; intros _; split; by eexists.
Qed.

Section Protocol.
Context (d : SCPDriver) (ln : LocalNodeState).

(** ** What a statement of this node says about it *)

Definition Claim (s : SlotState) (st : SCPStatement) : Prop :=
  nodeID st = mNodeID ln /\ slotIndex st = mSlotIndex s /\
  match pledges st with
  | SCP_ST_PREPARE p => p_quorumSetHash p = mQSetHash ln
  | SCP_ST_CONFIRM c =>
      c_quorumSetHash c = mQSetHash ln /\ mPhase (ballot s) <> SCP_PHASE_PREPARE /\
      commitValue (ballot s) = Some (value (c_ballot c))
  | SCP_ST_EXTERNALIZE e =>
      mPhase (ballot s) = SCP_PHASE_EXTERNALIZE /\
      commitValue (ballot s) = Some (value (e_commit e))
  | SCP_ST_NOMINATE _ => False
  end.

Lemma Claim_ballot s st : Claim s st -> isBallotStatement st = true.
Proof. intros (_ & _ & C). unfold isBallotStatement. by destruct (pledges st). Qed.

Lemma phase_ext s s' :
  phaseRank (mPhase s) <= phaseRank (mPhase s') ->
  mPhase s = SCP_PHASE_EXTERNALIZE -> mPhase s' = SCP_PHASE_EXTERNALIZE.
Proof. destruct (mPhase s), (mPhase s'); cbn; done || lia. Qed.

Lemma Claim_mono s s' st :
  Adv (ballot s) (ballot s') -> mSlotIndex s' = mSlotIndex s -> Claim s st -> Claim s' st.
Proof.
  intros H Hi (Hn & Hs & C). split; [done|]. split; [by rewrite Hi|].
  pose proof (adv_phase _ _ H).
  destruct (pledges st); try done.
  - destruct C as (Hh & Hp & Hc). split; [done|]. split; [by eapply phase_above|].
    by rewrite (adv_c _ _ H).
  - destruct C as (Hp & Hc). split; [by eapply phase_ext|].
    rewrite (adv_c _ _ H); [done|]. by rewrite Hp.
Qed.

(** ** The invariant *)

(** Only ballot statements are kept by the ballot protocol. *)
Definition allBallots (m : EnvMap) : Prop :=
  forall n e, In (n, e) m -> isBallotStatement (statement e) = true.

Lemma mapInsert_pairs {V} k (v : V) m p : In p (mapInsert k v m) -> p = (k, v) \/ In p m.
Proof.
  induction m as [|[k' v'] m IH]; cbn; [intuition congruence|].
  destruct (k <? k'); cbn; [intuition congruence|]. destruct (k =? k'); cbn; intuition congruence.
Qed.

Lemma allBallots_insert k e m :
  isBallotStatement (statement e) = true -> allBallots m -> allBallots (mapInsert k e m).
Proof. intros He H n e' [[= -> ->]|Hin]%mapInsert_pairs; [done|by eapply H]. Qed.

(** The envelopes emitted are each newer than the one before, the last of them
    is [mLastEnvelopeEmit], and [mLastEnvelope] is that one or a newer one. *)
Definition Chain (s : SlotState) : Prop :=
  StronglySorted newerEnv (emits s) /\
  (forall e, last (emits s) = Some e -> mLastEnvelopeEmit (ballot s) = Some e) /\
  replaced (mLastEnvelopeEmit (ballot s)) (mLastEnvelope (ballot s)).

(** A value is externalized at most once, and it is the committed one. *)
Definition ExtOnce (s : SlotState) : Prop :=
  exts s = [] \/
  (mPhase (ballot s) = SCP_PHASE_EXTERNALIZE /\
   exists v, commitValue (ballot s) = Some v /\ exts s = [v]).

Record Inv0 (L : Z) (s : SlotState) : Prop := {
  inv_core : Core (ballot s);
  inv_level : mCurrentMessageLevel (ballot s) = L;
  inv_ordered : ordered (mLatestEnvelopes (ballot s));
  inv_ballots : allBallots (mLatestEnvelopes (ballot s));
  inv_chain : Chain s;
  inv_last : forall e, mLastEnvelope (ballot s) = Some e -> Claim s (statement e);
  inv_emits : forall e, In e (emits s) -> Claim s (statement e);
  inv_ext : ExtOnce s
}.

Definition Inv (L : Z) (s : SlotState) : Prop := Inv0 L s /\ HasP (ballot s).

(** The local node's latest message is not ahead of its current ballot. *)
Definition SelfOK (s : SlotState) : Prop :=
  mPhase (ballot s) <> SCP_PHASE_EXTERNALIZE ->
  forall e, mapFind (mLatestEnvelopes (ballot s)) (mNodeID ln) = Some e ->
    ballotCounter (statement e) <= localCounter (ballot s).

(** The quorum behind a commit: nodes whose latest messages accept it. *)
Definition Evidence (s : SlotState) : Prop :=
  exists M bal cur,
    ordered M /\
    (forall n, n <> mNodeID ln -> mapFind M n = mapFind (mLatestEnvelopes (ballot s)) n) /\
    federatedRatify d ln (commitPredicate bal cur) M = true /\
    commitValue (ballot s) = Some (value bal).

(** How an operation that processes no envelope of another node moves a slot. *)
Record Step (s s' : SlotState) : Prop := {
  st_adv : Adv (ballot s) (ballot s');
  st_index : mSlotIndex s' = mSlotIndex s;
  st_level : mCurrentMessageLevel (ballot s') = mCurrentMessageLevel (ballot s);
  st_others : forall n, n <> mNodeID ln ->
    mapFind (mLatestEnvelopes (ballot s')) n = mapFind (mLatestEnvelopes (ballot s)) n;
  st_self : replaced (mapFind (mLatestEnvelopes (ballot s)) (mNodeID ln))
                     (mapFind (mLatestEnvelopes (ballot s')) (mNodeID ln));
  st_last : replaced (mLastEnvelope (ballot s)) (mLastEnvelope (ballot s'));
  st_exts : mPhase (ballot s') <> SCP_PHASE_EXTERNALIZE \/ mPhase (ballot s) = SCP_PHASE_EXTERNALIZE ->
    exts s' = exts s;
  st_ext : mPhase (ballot s) <> SCP_PHASE_EXTERNALIZE -> mPhase (ballot s') = SCP_PHASE_EXTERNALIZE ->
    Evidence s' /\ exists v, commitValue (ballot s') = Some v /\ exts s' = exts s ++ [v]
}.

Lemma Step_refl s : Step s s.
Proof. split; try done; [apply Adv_refl|apply replaced_refl..]. Qed.

Lemma Evidence_step s s' :
  Step s s' -> mPhase (ballot s) = SCP_PHASE_EXTERNALIZE -> Evidence s -> Evidence s'.
Proof.
  intros H Hp (M & bal & cur & Ho & HM & Hq & Hc). exists M, bal, cur.
  split; [done|]. split; [|split; [done|]].
  - intros n Hn. by rewrite HM, (st_others _ _ H).
  - rewrite (adv_c _ _ (st_adv _ _ H)); [done|by rewrite Hp].
Qed.

Lemma Step_trans s1 s2 s3 : Step s1 s2 -> Step s2 s3 -> Step s1 s3.
Proof.
  intros H G. pose proof (adv_phase _ _ (st_adv _ _ H)) as R1.
  pose proof (adv_phase _ _ (st_adv _ _ G)) as R2. split.
  - eapply Adv_trans; [apply H|apply G].
  - rewrite (st_index _ _ G). apply H.
  - rewrite (st_level _ _ G). apply H.
  - intros n Hn. rewrite (st_others _ _ G n Hn). by apply H.
  - eapply replaced_trans; [apply H|apply G].
  - eapply replaced_trans; [apply H|apply G].
  - intros [E|E]; rewrite (st_exts _ _ G), (st_exts _ _ H); try done;
      [|by left|by right|right; by eapply phase_ext].
    left. intros E'. apply E. by eapply phase_ext.
  - intros E E'. destruct (decide (mPhase (ballot s2) = SCP_PHASE_EXTERNALIZE)) as [E2|E2].
    + destruct (st_ext _ _ H E E2) as (Ev & v & Hv & Hx).
      split; [by eapply Evidence_step|]. exists v.
      rewrite (adv_c _ _ (st_adv _ _ G)), (st_exts _ _ G), Hx; [done|by right|by rewrite E2].
    + destruct (st_ext _ _ G E2 E') as (Ev & v & Hv & Hx).
      split; [done|]. exists v. rewrite Hx, (st_exts _ _ H); [done|by left].
Qed.

(** A quiet change that moves the members forward without reaching EXTERNALIZE. *)
Lemma Quiet_step s s' :
  Quiet s s' -> Adv (ballot s) (ballot s') ->
  (mPhase (ballot s') = SCP_PHASE_EXTERNALIZE -> mPhase (ballot s) = SCP_PHASE_EXTERNALIZE) ->
  Step s s'.
Proof.
  intros Q A P. split; try apply Q; try done.
  - intros n Hn. by rewrite (q_latest _ _ Q).
  - rewrite (q_latest _ _ Q). apply replaced_refl.
  - rewrite (q_last _ _ Q). apply replaced_refl.
  - intros. by apply Q.
  - intros E E'. by apply P in E'.
Qed.

Lemma Quiet_inv L s s' :
  Quiet s s' -> Adv (ballot s) (ballot s') -> Core (ballot s') -> Inv0 L s -> Inv0 L s'.
Proof.
  intros Q A C I. split; [done|..].
  - rewrite (q_level _ _ Q). apply I.
  - rewrite (q_latest _ _ Q). apply I.
  - rewrite (q_latest _ _ Q). apply I.
  - unfold Chain. rewrite (q_emits _ _ Q), (q_lastEmit _ _ Q), (q_last _ _ Q). apply I.
  - rewrite (q_last _ _ Q). intros e He. eapply Claim_mono; [done|apply Q|by eapply inv_last].
  - rewrite (q_emits _ _ Q). intros e He. eapply Claim_mono; [done|apply Q|by eapply inv_emits].
  - unfold ExtOnce. rewrite (q_exts _ _ Q). destruct (inv_ext _ _ I) as [H|(H & v & Hv & Hx)];
      [by left|]. right. split; [eapply phase_ext; [apply A|done]|]. exists v.
    split; [|done]. rewrite (adv_c _ _ A); [done|by rewrite H].
Qed.

Lemma Quiet_self s s' :
  Quiet s s' -> phaseRank (mPhase (ballot s)) <= phaseRank (mPhase (ballot s')) ->
  localCounter (ballot s) <= localCounter (ballot s') -> SelfOK s -> SelfOK s'.
Proof.
  intros Q P H S E e He. rewrite (q_latest _ _ Q) in He. etransitivity; [|apply H].
  apply S; [|done]. intros E'. apply E. by eapply phase_ext.
Qed.

(** ** Faults

    The only ways a ballot operation can stop: the recursion limit, a statement
    of its own the driver rejects, and three run-time checks that depend on
    what other nodes sent.  The other [dbgAssert]s and dereferences of
    [BallotProtocol.cpp] are shown never to fail. *)
Inductive allowed : fault -> Prop :=
  | allowed_depth : allowed (Throw "maximum number of transitions reached in advanceSlot")
  | allowed_bad : allowed (Throw "moved to a bad state (ballot protocol)")
  | allowed_prepared : allowed (AssertFailure "mPrepared")
  | allowed_counter : allowed (AssertFailure "mCurrentBallot->getBallot().counter != 0")
  | allowed_commit : allowed (AssertFailure "areBallotsCompatible(mCommit, ballot)").

Context (E : fault -> Prop) (HE : forall f, allowed f -> E f).

Lemma wp_getB {A} (f : BallotState -> A) Q (s : SlotState) : Q (f (ballot s)) s -> wp E (getB f) Q s.
Proof. done. Qed.

Lemma wp_getB_id Q (s : SlotState) : Q (ballot s) s -> wp E (getB id) Q s.
Proof. done. Qed.

Lemma wp_getS {A} (f : SlotState -> A) Q (s : SlotState) : Q (f s) s -> wp E (getS f) Q s.
Proof. done. Qed.

Lemma wp_modB f (Q : unit -> SlotState -> Prop) s : Q tt (onBallot f s) -> wp E (modB f) Q s.
Proof. done. Qed.

Lemma wp_modN f (Q : unit -> SlotState -> Prop) s : Q tt (onNomination f s) -> wp E (modN f) Q s.
Proof. done. Qed.

Lemma wp_notify e (Q : unit -> SlotState -> Prop) s :
  Q tt (set_events (events s ++ [e]) s) -> wp E (notify e) Q s.
Proof. done. Qed.

Lemma wp_call {A} (m : SM A) (P Q : A -> SlotState -> Prop) s :
  wp E m P s -> (forall a s', P a s' -> Q a s') -> wp E m Q s.
Proof. apply wp_mono. Qed.

Lemma wp_seq2 {A B} (m1 m2 : SM unit) (r : A) (k : SM B) (P : A -> SlotState -> Prop) Q s :
  wp E (do* m1 in do* m2 in mret r) P s -> (forall s', P r s' -> wp E k Q s') ->
  wp E (do* m1 in do* m2 in k) Q s.
Proof.
  unfold wp, bnd, mbind, M_bind. intros H K.
  destruct (m1 s) as [? s1|]; [|exact H]. destruct (m2 s1) as [? s2|]; [|exact H]. exact (K s2 H).
Qed.

(** One step of symbolic execution. *)
Ltac wstep :=
  lazymatch goal with
  | |- wp _ (bnd _ _) _ _ => apply wp_bind
  | |- wp _ (getB id) _ _ => apply wp_getB_id
  | |- wp _ (getB _) _ _ => apply wp_getB
  | |- wp _ (getS _) _ _ => apply wp_getS
  | |- wp _ get _ _ => apply wp_get
  | |- wp _ (mret _) _ _ => apply wp_ret
  | |- wp _ (modB _) _ _ => apply wp_modB
  | |- wp _ (modN _) _ _ => apply wp_modN
  | |- wp _ (notify _) _ _ => apply wp_notify
  | |- wp _ (modify _) _ _ => apply wp_modify
  | |- wp _ (dbgAssert _ _) _ _ => apply wp_assert; [intros; try (apply HE; once constructor)|intros ?]
  | |- wp _ (deref _ _) _ _ => apply wp_deref; [intros; try (apply HE; once constructor)|intros ??]
  | |- wp _ (when _ _) _ _ => apply wp_when; intros ?
  | |- wp _ (if ?b then _ else _) _ _ => destruct b eqn:?
  | |- wp _ (throw _) _ _ => apply wp_fail; apply HE; once constructor
  | |- wp _ (lift (inr _)) _ _ => apply wp_ret
  end.

(** Boolean tests on ballots as facts. *)
Ltac bfacts :=
  repeat match goal with
  | H : negb _ = true |- _ => apply negb_true_iff in H
  | H : negb _ = false |- _ => apply negb_false_iff in H
  | H : andb _ _ = true |- _ => apply andb_true_iff in H as [??]
  | H : orb _ _ = false |- _ => apply orb_false_iff in H as [??]
  | H : areBallotsCompatible _ _ = true |- _ => apply compat_iff in H
  | H : areBallotsCompatible _ _ = false |- _ =>
      rewrite <- not_true_iff_false, compat_iff in H
  | H : areBallotsLessAndCompatible _ _ = true |- _ => apply lessAndCompat_iff in H as [??]
  | H : areBallotsLessAndCompatible _ _ = false |- _ =>
      rewrite <- not_true_iff_false, lessAndCompat_iff in H
  | H : areBallotsLessAndIncompatible _ _ = true |- _ => apply lessAndIncompat_iff in H as [??]
  | H : areBallotsLessAndIncompatible _ _ = false |- _ =>
      rewrite <- not_true_iff_false, lessAndIncompat_iff in H
  | H : (compareBallots _ _ <? 0) = true |- _ => apply Z.ltb_lt, compareBallots_lt in H
  | H : (compareBallots _ _ <? 0) = false |- _ => apply Z.ltb_ge, compareBallots_ge in H
  | H : (compareBallots _ _ <=? 0) = true |- _ => apply Z.leb_le, compareBallots_le in H
  | H : (compareBallots _ _ <=? 0) = false |- _ => apply Z.leb_gt, compareBallots_gt in H
  | H : (0 <? compareBallots _ _) = true |- _ => apply Z.ltb_lt, compareBallots_gt in H
  | H : (0 <? compareBallots _ _) = false |- _ => apply Z.ltb_ge, compareBallots_le in H
  | H : (0 <=? compareBallots _ _) = true |- _ => apply Z.leb_le, compareBallots_ge in H
  | H : (0 <=? compareBallots _ _) = false |- _ => apply Z.leb_gt, compareBallots_lt in H
  | H : bool_decide _ = true |- _ => apply bool_decide_eq_true in H
  | H : bool_decide _ = false |- _ => apply bool_decide_eq_false in H
  | H : (_ =? _) = true |- _ => apply Z.eqb_eq in H
  | H : (_ =? _) = false |- _ => apply Z.eqb_neq in H
  end.

(** ** Operations that do not re-enter *)

Lemma checkInvariants_spec s :
  Core (ballot s) ->
  wp E checkInvariants (fun _ s' => s' = s /\ HasP (ballot s) /\
    (forall b, mCurrentBallot (ballot s) = Some b -> counter b <> 0)) s.
Proof.
  intros (Cp & Ch & Cc & Cph). unfold checkInvariants, HasP. wstep. wstep. wstep.
  unfold id.
  eapply wp_call with (P := fun _ s' => s' = s /\ HasP (ballot s)).
  { destruct (mPhase (ballot s)) eqn:Hph; [apply wp_ret; split; [done|]; by intros G|..];
      (destruct Cph as [Hpp Hc]; [done|]);
      destruct (mCommit (ballot s)) as [c|]; try done;
      destruct (mHighBallot (ballot s)) as [h|]; try done;
      destruct (mCurrentBallot (ballot s)) as [b|]; try done; cbn;
      (destruct (mPrepared (ballot s)) eqn:Hp; cbn; [|apply HE; constructor]);
      (split; [done|]; unfold HasP; by rewrite Hp). }
  intros _ s' [-> HP]. unfold HasP in HP. wstep.
  eapply wp_call with (P := fun _ s' => s' = s /\
    (forall b, mCurrentBallot (ballot s) = Some b -> counter b <> 0)).
  { destruct (mCurrentBallot (ballot s)) as [b|]; wstep; [|done].
    split; [done|]. intros ? [= <-]. by bfacts. }
  intros _ s' [-> Hb]. wstep.
  eapply wp_call with (P := fun _ s' => s' = s).
  { destruct (mPrepared (ballot s)) as [p|]; [|by wstep].
    destruct (mPreparedPrime (ballot s)) as [pp|]; [|by wstep].
    wstep; [|done]. bfacts. destruct Cp as [Cp ?]. exfalso. apply H. split; [by left|done]. }
  intros _ s' ->. wstep.
  eapply wp_call with (P := fun _ s' => s' = s).
  { destruct (mHighBallot (ballot s)) as [h|]; [|by wstep].
    destruct (mCurrentBallot (ballot s)) as [b|]; [|done].
    repeat (wstep; simplify_eq/=; try done); by bfacts. }
  intros _ s' ->.
  destruct (mCommit (ballot s)) as [c|]; [|by wstep].
  destruct (mHighBallot (ballot s)) as [h|]; [|done].
  destruct (mCurrentBallot (ballot s)) as [b|]; [|done].
  repeat (wstep; simplify_eq/=; try done); by bfacts.
Qed.

(** The members after [bumpToBallot]: h and c survive if they have its value. *)
Definition bumped (bal : SCPBallot) (s : BallotState) :=
  let keep := match mHighBallot s with Some h => areBallotsCompatible bal h | None => true end in
  (Some bal, mPrepared s, mPreparedPrime s,
   if keep then mHighBallot s else None, if keep then mCommit s else None, mPhase s).

Lemma bumpToBallot_spec bal check s :
  mPhase (ballot s) <> SCP_PHASE_EXTERNALIZE ->
  (check = true -> ole (mCurrentBallot (ballot s)) (Some bal)) ->
  wp E (bumpToBallot bal check)
    (fun _ s' => Quiet s s' /\ fields (ballot s') = bumped bal (ballot s)) s.
Proof.
  intros Hph Hle. unfold bumpToBallot.
  wstep. wstep. wstep. wstep.
  { bfacts. by destruct Hph. }
  wstep.
  eapply wp_call with (P := fun _ s' => s' = s).
  { wstep; [|done]. wstep; [|done]. destruct (mCurrentBallot (ballot s)); [|done].
    cbn in *. bfacts. exfalso. eapply ballot_lt_irrefl, ballot_le_lt_trans; eauto. }
  intros _ s' ->. wstep.
  eapply wp_call with (P := fun _ s1 => Quiet s s1 /\ ballot s1 = ballot s).
  { wstep; [wstep|]; (split; [|done]); [by apply Quiet_notify|apply Quiet_refl]. }
  intros _ s1 [Q1 B1]. wstep. wstep.
  apply wp_bind. eapply wp_call with (P := fun _ s2 => Quiet s s2 /\ fields (ballot s2) = bumped bal (ballot s)).
  { unfold bumped, fields. destruct (mHighBallot (ballot s)) as [h|] eqn:Hh.
    - wstep; [repeat wstep|]; (split; [eapply Quiet_trans; [apply Q1|by split]|]);
        cbn; rewrite B1, ?Hh.
      + by rewrite (proj1 (negb_true_iff _) H0).
      + by rewrite (proj1 (negb_false_iff _) H0).
    - wstep. split; [eapply Quiet_trans; [apply Q1|by split]|]. cbn. by rewrite B1, Hh. }
  intros _ s2 [Q2 B2]. wstep; [wstep|done].
  split; [eapply Quiet_trans; [apply Q2|by split]|]. by rewrite <- B2.
Qed.

Lemma maybeSetGotVBlocking_spec s :
  wp E (maybeSetGotVBlocking ln) (fun _ s' => Quiet s s' /\ ballot s' = ballot s) s.
Proof.
  unfold maybeSetGotVBlocking. wstep. wstep.
  destruct (mGotVBlocking s); [wstep; split; [apply Quiet_refl|done]|].
  destruct (forAllNodes _ _ _) as [go nodes]. wstep. by split.
Qed.

Lemma startBallotProtocolTimer_spec s :
  mCurrentBallot (ballot s) <> None ->
  wp E (startBallotProtocolTimer d) (fun _ s' => Quiet s s' /\ ballot s' = ballot s) s.
Proof.
  intros Hb. unfold startBallotProtocolTimer. wstep. wstep. wstep.
  destruct (mCurrentBallot (ballot s)) as [b|]; [|done]. wstep; [done|]. wstep.
  split; [by apply Quiet_notify|done].
Qed.

Lemma Quiet_onBallot f s :
  mLatestEnvelopes (f (ballot s)) = mLatestEnvelopes (ballot s) ->
  mCurrentMessageLevel (f (ballot s)) = mCurrentMessageLevel (ballot s) ->
  mLastEnvelope (f (ballot s)) = mLastEnvelope (ballot s) ->
  mLastEnvelopeEmit (f (ballot s)) = mLastEnvelopeEmit (ballot s) ->
  Quiet s (onBallot f s).
Proof. by split. Qed.

Lemma checkHeardFromQuorum_spec s :
  wp E (checkHeardFromQuorum d ln)
    (fun _ s' => Quiet s s' /\ fields (ballot s') = fields (ballot s)) s.
Proof.
  unfold checkHeardFromQuorum. wstep. wstep.
  destruct (mCurrentBallot (ballot s)) as [b|] eqn:Hb; [|wstep; split; [apply Quiet_refl|done]].
  wstep; wstep; wstep.
  - wstep. set (s0 := onBallot _ s).
    assert (Quiet s s0 /\ fields (ballot s0) = fields (ballot s)) as [Q0 F0] by (by repeat split).
    apply wp_call with (P := fun _ s1 => Quiet s s1 /\ fields (ballot s1) = fields (ballot s)).
    { wstep; [|done]. wstep. wstep. set (s1 := set_events _ s0).
      assert (Quiet s s1) by (eapply Quiet_trans; [done|by apply Quiet_notify]).
      wstep; [|done]. eapply wp_call; [apply startBallotProtocolTimer_spec; subst s1 s0; cbn; by rewrite Hb|cbv beta].
      intros _ s2 [Q2 B2]. split; [by eapply Quiet_trans|by rewrite B2]. }
    intros _ s1 [Q1 F1]. wstep; [|done]. unfold stopBallotProtocolTimer. wstep.
    split; [eapply Quiet_trans; [done|by apply Quiet_notify]|done].
  - unfold stopBallotProtocolTimer. wstep. set (s0 := onBallot _ s).
    split; [|done]. apply Quiet_trans with s0; [by split|by apply Quiet_notify].
Qed.

Lemma Core_fields s s' : fields s' = fields s -> Core s -> Core s'.
Proof. destruct s, s'; unfold fields, Core; cbn. by intros [= -> -> -> -> -> ->]. Qed.

Lemma HasP_fields s s' : fields s' = fields s -> HasP s -> HasP s'.
Proof. destruct s, s'; unfold fields, HasP; cbn. by intros [= -> -> -> -> -> ->]. Qed.

Lemma HasP_adv s s' : mPhase s' = mPhase s -> ole (mPrepared s) (mPrepared s') -> HasP s -> HasP s'.
Proof.
  unfold HasP. intros -> H G Hp. specialize (G Hp).
  by destruct (mPrepared s), (mPrepared s').
Qed.

(** The result of an operation: the invariant again, reached by a step. *)
Definition Post (L : Z) (s s' : SlotState) : Prop :=
  Inv L s' /\ Step s s' /\ (SelfOK s -> SelfOK s').

Lemma Post_refl L s : Inv L s -> Post L s s.
Proof. intros. split; [done|]. split; [apply Step_refl|done]. Qed.

Lemma Post_trans L s1 s2 s3 : Post L s1 s2 -> Post L s2 s3 -> Post L s1 s3.
Proof.
  intros (I1 & S1 & O1) (I2 & S2 & O2). split; [done|]. split; [by eapply Step_trans|auto].
Qed.

(** A change of slot that leaves the protocol's members alone. *)
Lemma Quiet_post L s s' :
  Quiet s s' -> fields (ballot s') = fields (ballot s) -> Inv L s -> Post L s s'.
Proof.
  intros Q F [I P]. pose proof (Adv_same _ _ F) as A. injection F as Fb Fp Fpp Fh Fc Fph.
  split; [split|split].
  - eapply Quiet_inv; eauto. eapply Core_fields; [|apply I]. unfold fields. congruence.
  - eapply HasP_fields; [|done]. unfold fields. congruence.
  - apply Quiet_step; [done..|]. by rewrite Fph.
  - apply Quiet_self; [done|by apply A|]. unfold localCounter. by rewrite Fb.
Qed.

(** ** Statements of the node itself *)

(** The statement [createStatement] builds, as the slot addresses it. *)
Definition ownStatement (s : SlotState) (st : SCPStatement) : SCPStatement :=
  mkStatement (mNodeID ln) (mSlotIndex s) (pledges st).

Lemma createStatement_spec s :
  Core (ballot s) ->
  wp E (createStatement ln (mPhase (ballot s))) (fun st s' =>
    s' = s /\ HasP (ballot s) /\ Claim s (ownStatement s st) /\
    (mPhase (ballot s) <> SCP_PHASE_EXTERNALIZE ->
     ballotCounter st <= localCounter (ballot s))) s.
Proof.
  intros C. unfold createStatement. wstep.
  eapply wp_call; [by apply checkInvariants_spec|cbv beta]. intros _ s' (-> & HP & _).
  destruct C as (_ & Ch & Cc & Cph). wstep. wstep.
  unfold Claim, ownStatement, localCounter, commitValue. destruct (mPhase (ballot s)) eqn:Hph.
  - wstep. split; [done|]. split; [done|]. cbn. split; [done|].
    intros _. by destruct (mCurrentBallot (ballot s)).
  - destruct Cph as [_ Hc]; [done|]. pose proof (HP ltac:(by rewrite Hph)).
    destruct (mCommit (ballot s)) as [c|]; [|done]. destruct (mHighBallot (ballot s)) as [h|]; [|done].
    destruct (mCurrentBallot (ballot s)) as [b|]; [|done]. destruct (mPrepared (ballot s)); [|done].
    destruct Ch as [_ Ch], Cc as [_ Cc]. repeat (wstep; simplify_eq/=; try done).
    repeat split; try done. by rewrite Cc, Ch.
  - destruct Cph as [_ Hc]; [done|]. pose proof (HP ltac:(by rewrite Hph)).
    destruct (mCommit (ballot s)) as [c|]; [|done]. destruct (mHighBallot (ballot s)) as [h|]; [|done].
    repeat (wstep; simplify_eq/=; try done).
Qed.

Lemma StronglySorted_snoc {A} (R : A -> A -> Prop) l x :
  StronglySorted R l -> Forall (fun y => R y x) l -> StronglySorted R (l ++ [x]).
Proof.
  induction l as [|y l IH]; cbn; intros H F; [repeat constructor|].
  apply StronglySorted_inv in H as [H Hy]. inversion F; subst.
  constructor; [by apply IH|]. apply List.Forall_app. split; [done|by repeat constructor].
Qed.

(** In a strictly newer chain everything is older than what is newer than the last. *)
Lemma chain_last l e :
  StronglySorted newerEnv l -> (forall x, last l = Some x -> newerEnv x e) ->
  Forall (fun y => newerEnv y e) l.
Proof.
  induction l as [|y l IH]; intros H Hl; [constructor|].
  apply StronglySorted_inv in H as [H Hy]. destruct l as [|z l]; [repeat constructor; by apply Hl|].
  assert (Forall (λ y, newerEnv y e) (z :: l)) as F by (apply IH; [done|exact Hl]).
  constructor; [|done]. inversion F; inversion Hy; subst. by eapply newer_trans.
Qed.

Lemma sendLatestEnvelope_spec L s :
  Inv L s -> wp E sendLatestEnvelope (fun _ s' => Post L s s') s.
Proof.
  intros [I HP]. unfold sendLatestEnvelope. wstep. wstep. wstep. wstep.
  destruct (mLastEnvelope (ballot s)) as [e|] eqn:He; [|wstep; by apply Post_refl].
  wstep; [|by apply Post_refl]. wstep. wstep. wstep. bfacts.
  pose proof (inv_last _ _ I _ He) as Cl.
  assert (isBallotStatement (statement e) = true) as Hb.
  { by eapply Claim_ballot. }
  set (s' := set_events _ _).
  assert (emits s' = emits s ++ [e]) as Hem.
  { subst s'. unfold emits. cbn. rewrite omap_app. cbn. by rewrite Hb. }
  assert (exts s' = exts s) as Hex.
  { subst s'. unfold exts. cbn. rewrite omap_app. cbn. by rewrite app_nil_r. }
  destruct (inv_chain _ _ I) as (C1 & C2 & C3).
  split; [split|split]; [|done|split|done]; try done.
  - split; try apply I.
    + split; [|split].
      * rewrite Hem. apply StronglySorted_snoc; [done|]. apply chain_last; [done|].
        intros x Hx. apply C2 in Hx. destruct (C3 _ Hx) as (e' & He' & [->|N]); congruence.
      * rewrite Hem. intros x. by rewrite last_snoc.
      * subst s'. cbn. rewrite He. apply replaced_refl.
    + rewrite Hem. intros x Hx. apply in_app_iff in Hx as [Hx|[<-|[]]];
        [exact (inv_emits _ _ I _ Hx)|exact Cl].
    + unfold ExtOnce. rewrite Hex. apply I.
  - by apply Adv_same.
  - apply replaced_refl.
  - apply replaced_refl.
Qed.

(** ** Recording an envelope *)

(** [s1] is [s] with [env] recorded as the latest message of its node. *)
Record Recorded (env : SCPEnvelope) (s s1 : SlotState) : Prop := {
  rec_index : mSlotIndex s1 = mSlotIndex s;
  rec_events : events s1 = events s;
  rec_ballot : ballot s1 =
    set_latest (mapInsert (nodeID (statement env)) env (mLatestEnvelopes (ballot s))) (ballot s);
  rec_newer : forall old, mapFind (mLatestEnvelopes (ballot s)) (nodeID (statement env)) = Some old ->
    newerEnv old env;
  rec_kind : isBallotStatement (statement env) = true
}.

Lemma Recorded_inv L env s s1 : Recorded env s s1 -> Inv L s -> Inv L s1.
Proof.
  intros R [I HP]. destruct R as [Ri Re Rb _ Rk].
  assert (Adv (ballot s) (ballot s1)) as A by (apply Adv_same; by rewrite Rb).
  split; [|by rewrite Rb]. split.
  - rewrite Rb. apply I.
  - rewrite Rb. apply I.
  - rewrite Rb. cbn. apply mapInsert_ordered, I.
  - rewrite Rb. cbn. apply allBallots_insert, I. done.
  - unfold Chain, emits. rewrite Re, Rb. apply I.
  - rewrite Rb. intros e He. eapply Claim_mono; [done..|]. by eapply inv_last.
  - unfold emits. rewrite Re. intros e He. eapply Claim_mono; [done..|]. by eapply inv_emits.
  - unfold ExtOnce, exts. rewrite Re, Rb. apply I.
Qed.

Lemma Recorded_step env s s1 : Recorded env s s1 -> nodeID (statement env) = mNodeID ln -> Step s s1.
Proof.
  intros [Ri Re Rb Rn Rk] Hn. rewrite Hn in *.
  split; try (rewrite Rb; done).
  - apply Adv_same. by rewrite Rb.
  - done.
  - intros n Hne. rewrite Rb. cbn. by apply mapFind_mapInsert_ne.
  - rewrite Rb. cbn. rewrite mapFind_mapInsert. intros e He. exists env. split; [done|].
    right. by apply Rn.
  - rewrite Rb. apply replaced_refl.
  - intros _. unfold exts. by rewrite Re.
Qed.

Section Reentry.
Context (advance : SCPStatement -> SM unit) (L : Z).
Hypothesis advance_spec : forall st s, isBallotStatement st = true ->
  Inv L s -> wp E (advance st) (fun _ s' => Post L s s') s.

Lemma processEnvelope_spec env self s :
  Inv L s -> slotIndex (statement env) = mSlotIndex s -> isBallotStatement (statement env) = true ->
  wp E (processEnvelope d advance env self) (fun r s' =>
    match r with
    | INVALID => s' = s
    | VALID => exists s1, Recorded env s s1 /\ Post L s1 s'
    end) s.
Proof.
  intros HI Hidx Hk. unfold processEnvelope. wstep. wstep. wstep. wstep; [bfacts; congruence|].
  destruct (isStatementSane_total d (statement env) self Hk) as [sane ->]. wstep. wstep.
  wstep; [by wstep|]. wstep. wstep. wstep; [by wstep|].
  assert (forall s1, mSlotIndex s1 = mSlotIndex s -> events s1 = events s -> ballot s1 =
    set_latest (mapInsert (nodeID (statement env)) env (mLatestEnvelopes (ballot s))) (ballot s) ->
    Recorded env s s1) as Hrec.
  { intros s1 ???. split; [done..| |done]. intros old Hold. bfacts.
    unfold isNewerStatementFrom in *. rewrite Hold in *. by apply isNewerStatement_iff. }
  destruct (validateValues d (statement env) (mSlotIndex s)) eqn:Hv; [by wstep|..];
    wstep; wstep; destruct (mPhase (ballot s)) eqn:Hph.
  3,6: wstep; wstep;
    [destruct HI as [[(_ & _ & _ & Cp) _ _ _ _ _ _ _] _]; destruct Cp as [_ Cp]; [by rewrite Hph|done]|];
    wstep; [|by wstep]; wstep; unfold recordEnvelope, recordStatement; repeat wstep;
    eexists; (split; [|apply Post_refl; eapply Recorded_inv; [|done]]); by apply Hrec.
  all: repeat wstep; try done; unfold recordEnvelope, recordStatement; repeat wstep;
    eapply wp_call; [apply advance_spec; [done|]; eapply Recorded_inv; [by apply Hrec|done]|cbv beta];
    intros ? s' P; wstep; eexists; (split; [|exact P]); by apply Hrec.
Qed.

(** Processing an envelope of the node itself. *)
Lemma slotProcessBallot_self env s :
  Inv L s -> slotIndex (statement env) = mSlotIndex s -> nodeID (statement env) = mNodeID ln ->
  isBallotStatement (statement env) = true ->
  (mPhase (ballot s) <> SCP_PHASE_EXTERNALIZE ->
   ballotCounter (statement env) <= localCounter (ballot s)) ->
  wp E (slotProcessBallot d ln advance env true) (fun r s' =>
    r = INVALID \/ (Post L s s' /\ SelfOK s')) s.
Proof.
  intros HI Hidx Hn Hk Hc. unfold slotProcessBallot. wstep. wstep. wstep. wstep; [bfacts; congruence|].
  wstep. wstep. wstep. eapply wp_call; [by apply processEnvelope_spec|cbv beta]. intros r s1 Hr. wstep.
  eapply wp_call with (P := fun _ s2 => Quiet s1 s2 /\ ballot s2 = ballot s1).
  { wstep; [apply maybeSetGotVBlocking_spec|]. split; [apply Quiet_refl|done]. }
  intros _ s2 [Q2 B2]. wstep. destruct r; [by left|right]. destruct Hr as (s0 & R & P).
  assert (Post L s1 s2) as P2 by (apply Quiet_post; [done|by rewrite B2|apply P]).
  assert (SelfOK s0) as O0.
  { intros Hp e. rewrite (rec_ballot _ _ _ R), Hn in *. cbn. rewrite mapFind_mapInsert.
    intros [= <-]. by apply Hc. }
  split; [|apply P2, P, O0].
  eapply Post_trans; [|done]. eapply Post_trans; [|done].
  split; [by eapply Recorded_inv|]. split; [by eapply Recorded_step|done].
Qed.

Definition Emitted (s s' : SlotState) : Prop := Inv L s' /\ Step s s' /\ SelfOK s'.

Lemma Emitted_post s s' : Emitted s s' -> Post L s s'.
Proof. intros (? & ? & ?). by split; [|split]. Qed.

Lemma Emitted_then s s1 s2 : Emitted s s1 -> Post L s1 s2 -> Emitted s s2.
Proof.
  intros (I1 & S1 & O1) (I2 & S2 & O2). split; [done|]. split; [by eapply Step_trans|auto].
Qed.

(** Replacing [mLastEnvelope] by a newer statement of this node. *)
Lemma set_last_post e s :
  Inv L s -> Claim s (statement e) ->
  (forall l, mLastEnvelope (ballot s) = Some l -> newerEnv l e) ->
  Post L s (onBallot (set_last (Some e)) s).
Proof.
  intros [I HP] C N.
  assert (replaced (mLastEnvelope (ballot s)) (Some e)) as R.
  { intros l Hl. exists e. split; [done|]. right. by apply N. }
  split; [split|split]; [|done| |done].
  - destruct I as [Ic Il Io Ib (C1 & C2 & C3) Ila Ie Ix]. split; try done.
    + split; [done|]. split; [done|]. cbn. by eapply replaced_trans.
    + cbn. by intros ? [= <-].
  - split; try done; [by apply Adv_same|apply replaced_refl].
Qed.

Lemma emit_spec s :
  Inv0 L s -> wp E (emitCurrentStateStatement d ln advance) (fun _ s' => Emitted s s') s.
Proof.
  intros I. unfold emitCurrentStateStatement. wstep. wstep. wstep.
  eapply wp_call; [apply createStatement_spec, I|cbv beta]. intros st s' (-> & HP & C & Hc).
  unfold createEnvelope. repeat wstep.
  - bfacts. split; [done|]. split; [apply Step_refl|]. intros Hp e He.
    rewrite He in *. simplify_eq. by apply Hc.
  - fold (ownStatement s st). set (env := mkEnvelope _ _) in *.
    assert (isBallotStatement (statement env) = true) as Hk by (by eapply Claim_ballot).
    eapply wp_call; [by apply slotProcessBallot_self|cbv beta]. intros r s1 Hr.
    destruct r; [wstep|]. destruct Hr as [|[P1 O1]]; [done|].
    wstep. wstep.
    assert (Emitted s s1) as E1 by (split; [apply P1|split; [apply P1|done]]).
    destruct (isSome _ && _) eqn:Hn; [|by wstep].
    apply andb_true_iff in Hn as [_ Hn].
    assert (Post L s1 (onBallot (set_last (Some env)) s1)) as P2.
    { apply set_last_post; [apply P1|..].
      - eapply Claim_mono; [apply P1|apply P1|exact C].
      - intros l Hl. rewrite Hl in Hn. by apply isNewerStatement_iff in Hn. }
    wstep. wstep. eapply wp_call; [apply sendLatestEnvelope_spec, P2|cbv beta]. intros ? s2 P3.
    eapply Emitted_then; [by eapply Emitted_then|done].
Qed.

(** An operation that moved the members from [s] to [s1] and then emitted. *)
Lemma step_emitted s s1 s2 : Step s s1 -> Emitted s1 s2 -> Emitted s s2.
Proof. intros S (I2 & S2 & O2). split; [done|]. split; [by eapply Step_trans|done]. Qed.

(** ** Moving the current ballot *)

Lemma bumped_core bal s s' :
  Core s -> mPhase s <> SCP_PHASE_EXTERNALIZE -> ole (mCurrentBallot s) (Some bal) ->
  (mPhase s <> SCP_PHASE_PREPARE -> commitValue s = Some (value bal)) ->
  fields s' = bumped bal s ->
  Core s' /\ Adv s s' /\ mPhase s' = mPhase s /\ mCurrentBallot s' = Some bal.
Proof.
  destruct s as [? b p pp h c ? ph], s' as [? b' p' pp' h' c' ? ph'].
  unfold Core, fields, bumped, commitValue. cbn. intros (Cp & Ch & Cc & Cph) Hph Hb Hc.
  destruct (match h with Some h => areBallotsCompatible bal h | None => true end) eqn:K;
    intros [= -> -> -> -> -> ->].
  - split; [|split; [|done]].
    + split; [done|]. split; [|done]. destruct h as [h|]; [|done]. destruct b as [b|]; [|done].
      cbn in *. bfacts. destruct Ch. split; [by eapply ballot_le_trans|done].
    + split; unfold highCounter; cbn; try done. by apply ole_refl.
  - destruct h as [h|]; [|done]. bfacts.
    destruct (decide (ph = SCP_PHASE_PREPARE)) as [->|Hp].
    + split; [|split; [|done]]; [done|]. split; cbn; try done. by apply ole_refl.
    + exfalso. specialize (Hc Hp). destruct c as [c|]; [|done]. cbn in *. simplify_eq.
      destruct Cc. congruence.
Qed.

(** The check that a counter past the largest one would fail. *)
Definition mayWrap : Prop :=
  E (AssertFailure "compareBallots(mCurrentBallot, ballot) <= 0").

Lemma updateCurrentValue_spec bal s :
  Inv L s -> ole (mCurrentBallot (ballot s)) (Some bal) \/ mayWrap ->
  wp E (updateCurrentValue bal) (fun r s' =>
    if r then Inv0 L s' /\ Step s s' /\ mPhase (ballot s') = mPhase (ballot s) /\
              mCurrentBallot (ballot s') = Some bal
    else s' = s) s.
Proof.
  intros [I HP] Hle. unfold updateCurrentValue. wstep. wstep.
  assert (mPhase (ballot s) <> SCP_PHASE_EXTERNALIZE -> ole (mCurrentBallot (ballot s)) (Some bal) ->
    (mPhase (ballot s) <> SCP_PHASE_PREPARE -> commitValue (ballot s) = Some (value bal)) ->
    wp E (do* bumpToBallot bal true in do* checkInvariants in mret true) (fun r s' =>
      if r then Inv0 L s' /\ Step s s' /\ mPhase (ballot s') = mPhase (ballot s) /\
              mCurrentBallot (ballot s') = Some bal
      else s' = s) s) as Hbump.
  { intros Hph Hole Hc. wstep. eapply wp_call; [by apply bumpToBallot_spec|cbv beta].
    intros _ s1 [Q1 F1]. destruct (bumped_core bal (ballot s) (ballot s1)) as (C1 & A1 & P1 & B1); try done; [apply I|].
    wstep. eapply wp_call; [by apply checkInvariants_spec|cbv beta]. intros _ s2 (-> & _). wstep.
    split; [by eapply Quiet_inv|]. split; [|done]. apply Quiet_step; [done..|]. by rewrite P1. }
  destruct (inv_core _ _ I) as (_ & Ch & Cc & Cph).
  destruct (mPhase (ballot s)) eqn:Hph; [..|by wstep];
    (destruct (mCurrentBallot (ballot s)) as [b|] eqn:Hb;
     [wstep; wstep; [destruct Hle; [cbn in *; bfacts; exfalso;
        eapply ballot_lt_irrefl, ballot_lt_le_trans; eauto|done]|]|]).
  2: by apply Hbump.
  3: { apply Hbump; [done..|]. intros _. destruct Cph as [_ Cph]; [done|].
       destruct (mCommit (ballot s)); [|done]. by destruct (mHighBallot (ballot s)). }
  all: wstep; [by wstep|]; wstep;
    [|wstep; [by wstep|wstep; eapply wp_call; [apply checkInvariants_spec, I|cbv beta];
                      intros _ s1 (-> & _); by wstep]];
    apply Hbump; [done|left; by bfacts|]; try done.
  intros _. destruct Cph as [_ Cph]; [done|]. unfold commitValue.
  destruct (mCommit (ballot s)) as [c|]; [|done]. bfacts. cbn. by f_equal.
Qed.

Lemma bumpStateTo_spec v n s :
  Inv L s -> (forall b, mCurrentBallot (ballot s) = Some b -> counter b < n) \/ mayWrap ->
  wp E (bumpStateTo d ln advance v n) (fun r s' =>
    if r then Emitted s s' /\
              (mPhase (ballot s') = mPhase (ballot s) -> n <= localCounter (ballot s'))
    else s' = s) s.
Proof.
  intros HI Hn. unfold bumpStateTo. wstep. wstep.
  set (newb := mkBallot n _).
  assert (ole (mCurrentBallot (ballot s)) (Some newb) \/ mayWrap) as Hle.
  { destruct Hn as [Hn|Hn]; [left|by right].
    destruct (mCurrentBallot (ballot s)) as [b|]; [|done]. left. left. by apply Hn. }
  assert (wp E (let* updated := updateCurrentValue newb in
      do* when updated (do* emitCurrentStateStatement d ln advance in checkHeardFromQuorum d ln) in
      mret updated) (fun r s' =>
        if r then Emitted s s' /\
                  (mPhase (ballot s') = mPhase (ballot s) -> n <= localCounter (ballot s'))
        else s' = s) s) as H.
  { wstep. eapply wp_call; [by apply updateCurrentValue_spec|cbv beta]. intros r s1 Hr. wstep.
    destruct r; [|by wstep; [|wstep]]. destruct Hr as (I1 & S1 & P1 & B1).
    wstep; [|done]. wstep. eapply wp_call; [by apply emit_spec|cbv beta]. intros ? s2 E2.
    eapply wp_call; [apply checkHeardFromQuorum_spec|cbv beta]. intros ? s3 [Q3 F3]. wstep.
    assert (Post L s2 s3) as P3 by (apply Quiet_post; [done|done|apply E2]).
    assert (Emitted s1 s3) as E3 by (by eapply Emitted_then).
    split; [by eapply step_emitted|]. intros Hp.
    destruct E3 as (_ & S3 & _). pose proof (adv_b _ _ (st_adv _ _ S3)) as Hb.
    unfold localCounter. rewrite B1 in Hb. specialize (Hb ltac:(left; congruence)).
    destruct (mCurrentBallot (ballot s3)); [|done]. by apply ballot_le_counter in Hb. }
  by destruct (mPhase (ballot s)); [..|wstep].
Qed.

(** The counter can be incremented without wrapping. *)
Definition NoWrap (s : SlotState) : Prop :=
  forall b, mCurrentBallot (ballot s) = Some b -> counter b < UINT32_MAX.

Lemma u32_succ_gt x : x < UINT32_MAX -> x < u32 (x + 1).
Proof.
  intros H. destruct (Z.lt_ge_cases x 0).
  - pose proof (u32_range (x + 1)). lia.
  - rewrite u32_small; unfold UINT32_MAX in *; lia.
Qed.

Lemma bumpState_spec v force s :
  Inv L s -> NoWrap s \/ mayWrap ->
  wp E (bumpState d ln advance v force) (fun r s' =>
    if r then Emitted s s' /\
              (mPhase (ballot s') = mPhase (ballot s) -> 0 <= localCounter (ballot s'))
    else s' = s) s.
Proof.
  intros HI HW. unfold bumpState. wstep. wstep. wstep; [by wstep|].
  eapply wp_call; [apply bumpStateTo_spec; [done|]|cbv beta].
  - destruct HW as [HW|HW]; [left|by right]. intros b Hb. rewrite Hb. by apply u32_succ_gt, HW.
  - intros [] s'; [|done]. intros [HE' Hc]. split; [done|]. intros Hp. specialize (Hc Hp).
    etransitivity; [|apply Hc]. destruct (mCurrentBallot (ballot s)); [apply u32_range|done].
Qed.

Lemma abandonBallot_spec n s :
  Inv L s -> (n = 0 -> NoWrap s \/ mayWrap) ->
  (n <> 0 -> forall b, mCurrentBallot (ballot s) = Some b -> counter b < n) ->
  wp E (abandonBallot d ln advance n) (fun r s' =>
    if r then Emitted s s' /\
              (mPhase (ballot s') = mPhase (ballot s) -> n <= localCounter (ballot s'))
    else s' = s) s.
Proof.
  intros HI H0 Hn. unfold abandonBallot. wstep. wstep.
  match goal with |- wp _ (match ?x with _ => _ end) _ _ => destruct x as [[|z x']|] end;
    [by wstep| |by wstep].
  wstep; bfacts; [subst n|].
  - apply bumpState_spec; auto.
  - apply bumpStateTo_spec; auto.
Qed.

(** ** Accepting a ballot as prepared *)

(** The guards of [attemptAcceptPrepared]: the ballot is not covered by p or p',
    and in CONFIRM it raises p without leaving the committed value. *)
Definition mayPrepare (bal : SCPBallot) (s : BallotState) : Prop :=
  mPhase s <> SCP_PHASE_EXTERNALIZE /\
  (mPhase s = SCP_PHASE_CONFIRM -> lec (mPrepared s) (Some bal) /\ mPrepared s <> None /\
                                   commitValue s = Some (value bal)) /\
  (forall pp, mPreparedPrime s = Some pp -> ballot_lt pp bal) /\
  (forall p, mPrepared s = Some p -> ~ (ballot_le bal p /\ value bal = value p)).

(** Only p and p' differ between [s] and [s']. *)
Definition preparedMoved (s s' : BallotState) : Prop :=
  Core s' /\ Adv s s' /\
  (mCurrentBallot s', mHighBallot s', mCommit s', mPhase s') =
  (mCurrentBallot s, mHighBallot s, mCommit s, mPhase s).

Lemma set_p_pp_moved p pp s :
  Core s -> mPhase s <> SCP_PHASE_EXTERNALIZE -> lti pp p -> ole (mPrepared s) p ->
  (mPhase s = SCP_PHASE_CONFIRM -> pp = mPreparedPrime s) ->
  preparedMoved s (set_p p (set_pp pp s)).
Proof.
  intros (Cp & Ch & Cc & Cph) Hph H1 H2 H3. split; [|split; [|done]].
  - split; [done|]. split; [done|]. split; [done|]. cbn. intros Hn.
    rewrite H3; [by apply Cph|]. by destruct (mPhase s).
  - split; cbn; try done. intros _. apply ole_refl.
Qed.

Lemma moved_refl s : Core s -> preparedMoved s s.
Proof. intros. split; [done|]. split; [apply Adv_refl|done]. Qed.

Lemma set_p_eta s : set_pp (mPreparedPrime s) s = s.
Proof. by destruct s. Qed.

Lemma set_pp_eta pp s : set_pp pp s = set_p (mPrepared s) (set_pp pp s).
Proof. by destruct s. Qed.

Lemma setPrepared_spec bal s :
  Core (ballot s) -> mayPrepare bal (ballot s) ->
  wp E (setPrepared bal) (fun r s' =>
    Quiet s s' /\ preparedMoved (ballot s) (ballot s') /\
    (mPhase (ballot s) = SCP_PHASE_CONFIRM -> value <$> mPrepared (ballot s') = Some (value bal))) s.
Proof.
  intros C (Hph & Hconf & Hpp & Hp). pose proof C as (Cp & Ch & Cc & Cph).
  unfold setPrepared. wstep. wstep.
  destruct (mPrepared (ballot s)) as [p|] eqn:Hpr; cbn in Hconf.
  - specialize (Hp p eq_refl).
    wstep; [|wstep]; bfacts.
    + repeat wstep; bfacts; (split; [by split|]); (split; [|done]).
      * apply (set_p_pp_moved (Some bal) (Some p)); try done; [by rewrite Hpr; left|].
        intros Hc. by destruct (Hconf Hc) as [[_ ?] _].
      * cbn. rewrite <- (set_p_eta (ballot s)) at 2. apply set_p_pp_moved; try done;
          [|by rewrite Hpr; left].
        destruct (mPreparedPrime (ballot s)) as [pp|]; [|done]. cbn in *.
        destruct Cp. split; [by apply Hpp|congruence].
    + assert (mPhase (ballot s) <> SCP_PHASE_CONFIRM) as Hnc.
      { intros Hc. destruct (Hconf Hc) as [[? _] _].
        eapply ballot_lt_irrefl, ballot_le_lt_trans; eauto. }
      repeat wstep; (split; [by split|]); (split; [|done]); [|by apply moved_refl].
      cbn. rewrite set_pp_eta. apply set_p_pp_moved; try done; [|apply ole_refl].
      rewrite Hpr. cbn. split; [done|]. intros Hv. apply Hp. split; [by left|done].
    + wstep. split; [by split|]. split; [by apply moved_refl|].
      intros Hc. rewrite Hpr. cbn. f_equal. by apply Hconf.
  - repeat wstep. split; [by split|]. split; [|done]. cbn.
    rewrite <- (set_p_eta (ballot s)) at 2. apply set_p_pp_moved; try done; [|by rewrite Hpr].
    by destruct (mPreparedPrime (ballot s)).
Qed.

(** A quiet forward move that keeps the phase and the current ballot. *)
Lemma Quiet_moved s s' :
  Quiet s s' -> Core (ballot s') -> Adv (ballot s) (ballot s') ->
  mPhase (ballot s') = mPhase (ballot s) -> mCurrentBallot (ballot s') = mCurrentBallot (ballot s) ->
  Inv L s -> Post L s s'.
Proof.
  intros Q C A P B [I HP]. split; [split|split].
  - by eapply Quiet_inv.
  - eapply HasP_adv; [done|apply A|done].
  - apply Quiet_step; [done..|]. by rewrite P.
  - apply Quiet_self; [done|by rewrite P|]. unfold localCounter. by rewrite B.
Qed.

Lemma clear_commit s :
  Core s -> mPhase s = SCP_PHASE_PREPARE -> Core (set_c None s) /\ Adv s (set_c None s).
Proof.
  intros (Cp & Ch & Cc & Cph) Hp. split.
  - split; [done|]. split; [done|]. split; [done|]. cbn. by rewrite Hp.
  - split; cbn; try done; try apply ole_refl; try (intros _; apply ole_refl); by rewrite Hp.
Qed.

Lemma setAcceptPrepared_spec bal s :
  Inv L s -> mayPrepare bal (ballot s) ->
  wp E (setAcceptPrepared d ln advance bal) (fun _ s' => Post L s s') s.
Proof.
  intros HI M. pose proof M as (Hph & Hconf & _). unfold setAcceptPrepared. wstep.
  eapply wp_call; [apply setPrepared_spec; [apply HI|done]|cbv beta].
  intros r s1 (Q1 & (C1 & A1 & [= Fb Fh Fc Fph]) & V1). wstep. wstep. cbv zeta.
  assert (commitOutdated (ballot s1) = true -> mPhase (ballot s1) = SCP_PHASE_PREPARE) as Hclear.
  { intros H. destruct (mPhase (ballot s1)) eqn:Hp1; [done|exfalso|by destruct Hph; rewrite <- Fph].
    destruct C1 as (_ & _ & Cc1 & Cph1). destruct Cph1 as [Hpp1 _]; [by rewrite Hp1|].
    destruct (Hconf (eq_sym Fph)) as (_ & _ & Hcv). specialize (V1 (eq_sym Fph)).
    unfold commitOutdated in H. rewrite Hpp1 in H. unfold commitValue in Hcv. rewrite <- Fc in Hcv.
    destruct (mCommit (ballot s1)) as [c|]; [|done]. destruct (mHighBallot (ballot s1)) as [h|]; [|done].
    destruct (mPrepared (ballot s1)) as [p|]; [|done]. rewrite orb_false_r in H. cbn in *.
    bfacts. destruct Cc1. simplify_eq. congruence. }
  wstep.
  eapply wp_call with (P := fun _ s2 => Post L s s2); [|cbv beta].
  { wstep; [|by apply Quiet_moved]. specialize (Hclear ltac:(done)).
    wstep. wstep; [by bfacts|]. wstep.
    destruct (clear_commit (ballot s1)) as [C2 A2]; [done..|].
    apply Quiet_moved; try done; [|by eapply Adv_trans].
    eapply Quiet_trans; [done|by split]. }
  intros _ s2 P2. wstep. wstep; [|by wstep]. wstep. wstep.
  assert (Post L s (set_events (events s2 ++ [AcceptedBallotPrepared bal]) s2)) as P3.
  { eapply Post_trans; [done|]. apply Quiet_post; [by apply Quiet_notify|done|apply P2]. }
  eapply wp_call; [apply emit_spec; apply P3|cbv beta]. intros ? s4 E4. wstep.
  eapply Emitted_post, step_emitted; [apply P3|done].
Qed.

Lemma acceptPreparedLoop_spec cands s :
  Inv L s -> mPhase (ballot s) <> SCP_PHASE_EXTERNALIZE ->
  wp E (acceptPreparedLoop d ln advance cands) (fun _ s' => Post L s s') s.
Proof.
  intros HI Hph. induction cands as [|bal cands IH]; cbn [acceptPreparedLoop]; [wstep; by apply Post_refl|].
  wstep. wstep. wstep.
  eapply wp_call with (P := fun skip s' => s' = s /\ (skip = false -> mPhase (ballot s) = SCP_PHASE_CONFIRM ->
    lec (mPrepared (ballot s)) (Some bal) /\ mPrepared (ballot s) <> None /\
    commitValue (ballot s) = Some (value bal))); [|cbv beta].
  { destruct (mPhase (ballot s)) eqn:Hp; [by wstep| |done].
    destruct HI as [I HP]. specialize (HP ltac:(by rewrite Hp)).
    wstep. wstep; [done|]. wstep; [by wstep|]. wstep.
    destruct (inv_core _ _ I) as (_ & _ & _ & Cph). destruct Cph as [_ Cph]; [by rewrite Hp|].
    wstep; [done|]. wstep. wstep. wstep. split; [done|]. intros _ _. unfold commitValue.
    rewrite H, H0 in *. bfacts. cbn. split; [done|]. split; [done|congruence]. }
  intros skip s' [-> Hconf]. wstep; [done|]. wstep; [done|]. wstep; [done|]. wstep; [|done].
  apply setAcceptPrepared_spec; [done|]. split; [done|]. split; [by apply Hconf|]. split.
  - intros pp Hpp. rewrite Hpp in *. by bfacts.
  - intros p Hp. rewrite Hp in *. by bfacts.
Qed.

Lemma attemptAcceptPrepared_spec hint s :
  isBallotStatement hint = true -> Inv L s -> wp E (attemptAcceptPrepared d ln advance hint) (fun _ s' => Post L s s') s.
Proof.
  intros Hk HI. unfold attemptAcceptPrepared. wstep. wstep.
  destruct (getPrepareCandidates_total hint (mLatestEnvelopes (ballot s)) Hk (inv_ballots _ _ (proj1 HI)))
    as [cands ->].
  destruct (mPhase (ballot s)) eqn:Hp; [..|wstep; by apply Post_refl];
    wstep; wstep; (apply acceptPreparedLoop_spec; [done|by rewrite Hp]).
Qed.

(** ** Confirming a ballot as prepared *)

Lemma updateCurrentIfNeeded_spec h s :
  mPhase (ballot s) <> SCP_PHASE_EXTERNALIZE ->
  wp E (updateCurrentIfNeeded h) (fun r s' =>
    Quiet s s' /\
    if r then fields (ballot s') = bumped h (ballot s) /\ ole (mCurrentBallot (ballot s)) (Some h)
    else fields (ballot s') = fields (ballot s) /\
         exists b, mCurrentBallot (ballot s) = Some b /\ ballot_le h b) s.
Proof.
  intros Hph. unfold updateCurrentIfNeeded. wstep. wstep.
  destruct (mCurrentBallot (ballot s)) as [b|] eqn:Hb.
  - wstep; bfacts.
    + assert (ole (Some b) (Some h)) by by left. wstep.
      eapply wp_call; [apply bumpToBallot_spec; [done|by rewrite Hb]|cbv beta].
      intros _ s1 [Q1 F1]. by wstep.
    + wstep. split; [apply Quiet_refl|]. eauto.
  - wstep. eapply wp_call; [apply bumpToBallot_spec; [done|by rewrite Hb]|cbv beta].
    intros _ s1 [Q1 F1]. by wstep.
Qed.

(** Raising h to [newH] (and possibly setting c) below the new current ballot. *)
Lemma raiseH_core newH s s' :
  Core s -> mPhase s = SCP_PHASE_PREPARE ->
  mPrepared s' = mPrepared s -> mPreparedPrime s' = mPreparedPrime s -> mPhase s' = mPhase s ->
  mHighBallot s' = Some newH -> lec (Some newH) (mCurrentBallot s') ->
  ole (mCurrentBallot s) (mCurrentBallot s') -> lec (mCommit s') (Some newH) ->
  Core s' /\ Adv s s'.
Proof.
  intros (Cp & Ch & Cc & Cph) Hph Hp Hpp Hph' Hh Hb Hole Hc. split.
  - split; [by rewrite Hpp, Hp|]. rewrite Hh. split; [done|]. split; [done|]. by rewrite Hph', Hph.
  - split; try (rewrite ?Hph', Hph; done). rewrite Hp. apply ole_refl.
Qed.

(** What [attemptConfirmPrepared] passes to [setConfirmPrepared]. *)
Definition mayConfirm (newC newH : SCPBallot) (s : BallotState) : Prop :=
  mPhase s = SCP_PHASE_PREPARE /\
  (forall h, mHighBallot s = Some h -> ballot_lt h newH) /\
  (counter newC <> 0 -> mCommit s = None /\ ballot_le newC newH /\ value newC = value newH).

Lemma setConfirmPrepared_members newC newH s :
  Inv L s -> mayConfirm newC newH (ballot s) ->
  match mCurrentBallot (ballot s) with Some b => areBallotsCompatible b newH | None => true end = true ->
  wp E (let raiseH := match mHighBallot (ballot s) with
                      | None => true
                      | Some h => 0 <? compareBallots newH h
                      end in
        do* when raiseH (modB (set_h (Some newH))) in
        let setC := negb (counter newC =? 0) in
        do* when setC
              (do* dbgAssert (negb (isSome (mCommit (ballot s)))) "!mCommit" in
               modB (set_c (Some newC))) in
        do* when (raiseH || setC) (notify (ConfirmedBallotPrepared newH)) in
        mret (raiseH || setC))
    (fun r s' => r = true /\ Quiet s s' /\
       exists c, lec c (Some newH) /\
         fields (ballot s') = (mCurrentBallot (ballot s), mPrepared (ballot s),
                               mPreparedPrime (ballot s), Some newH, c, mPhase (ballot s))) s.
Proof.
  intros HI (Hph & Hh & Hc) Hb. cbv zeta.
  assert (match mHighBallot (ballot s) with None => true
          | Some h => 0 <? compareBallots newH h end = true) as ->.
  { destruct (mHighBallot (ballot s)) as [h|]; [|done]. apply Z.ltb_lt, compareBallots_gt. by apply Hh. }
  destruct (inv_core _ _ (proj1 HI)) as (_ & Ch & Cc & _).
  wstep. wstep; [|done]. wstep. wstep.
  eapply wp_call with (P := fun _ s' => Quiet s s' /\
       exists c, lec c (Some newH) /\
         fields (ballot s') = (mCurrentBallot (ballot s), mPrepared (ballot s),
                               mPreparedPrime (ballot s), Some newH, c, mPhase (ballot s))); [|cbv beta].
  - wstep; bfacts.
    + destruct (Hc H0) as (Hn & ? & ?). rewrite Hn. wstep. wstep; [done|]. wstep.
      split; [by split|]. by exists (Some newC).
    + split; [by split|]. exists (mCommit (ballot s)). split; [|done].
      destruct (mCommit (ballot s)) as [c|]; [|done]. destruct (mHighBallot (ballot s)) as [h|]; [|done].
      destruct (mCurrentBallot (ballot s)) as [b|]; [|done]. specialize (Hh h eq_refl). bfacts.
      destruct Cc, Ch. split; [left; by eapply ballot_le_lt_trans|congruence].
  - intros _ s1 (Q1 & c & Hcl & F1). wstep. wstep; [|done]. wstep. wstep. split; [done|].
    split; [eapply Quiet_trans; [done|by apply Quiet_notify]|]. by exists c.
Qed.

Lemma emit_when s s1 (b : bool) :
  Inv0 L s1 -> Step s s1 -> (b = false -> Post L s s1) ->
  wp E (do* when b (emitCurrentStateStatement d ln advance) in mret b) (fun _ s' => Post L s s') s1.
Proof.
  intros I1 S1 Hb. wstep. wstep; [|wstep; by apply Hb].
  eapply wp_call; [by apply emit_spec|cbv beta]. intros ? s2 E2. wstep.
  by eapply Emitted_post, step_emitted.
Qed.

Lemma setConfirmPrepared_spec newC newH s :
  Inv L s -> mayConfirm newC newH (ballot s) ->
  wp E (setConfirmPrepared d ln advance newC newH) (fun _ s' => Post L s s') s.
Proof.
  intros HI M. unfold setConfirmPrepared. wstep. wstep. set (s0 := onBallot _ s).
  assert (Post L s s0) as P0 by (apply Quiet_post; [by split|done|done]).
  assert (mayConfirm newC newH (ballot s0)) as M0 by done. clearbody s0.
  eapply wp_call with (P := fun _ s' => Post L s0 s');
    [|cbv beta; intros; by eapply Post_trans].
  destruct P0 as (I0 & _ & _). clear HI M s.
  pose proof M0 as (Hph & _ & _). pose proof (inv_core _ _ (proj1 I0)) as C0.
  wstep. wstep. wstep. wstep.
  - eapply wp_call; [by apply setConfirmPrepared_members|cbv beta].
    intros r s1 (-> & Q1 & c & Hc & F1). injection F1 as Fb Fp Fpp Fh Fc Fph. wstep.
    eapply wp_call; [apply updateCurrentIfNeeded_spec; by rewrite Fph, Hph|cbv beta].
    intros r s2 [Q2 F2]. rewrite orb_true_r.
    assert ((Core (ballot s2) /\ Adv (ballot s0) (ballot s2)) /\
            mPhase (ballot s2) = SCP_PHASE_PREPARE) as [[C2 A2] P2].
    { destruct r.
      - destruct F2 as [F2 Hle]. unfold bumped in F2. rewrite Fh, Fb in *.
        rewrite (proj2 (compat_iff _ _) eq_refl) in F2. injection F2 as Gb Gp Gpp Gh Gc Gph.
        split; [|congruence].
        apply (raiseH_core newH); rewrite ?Gb, ?Gc, ?Fc; try done; try congruence.
        split; [apply ballot_le_refl|done].
      - destruct F2 as [F2 (b & Hb & Hle)]. injection F2 as Gb Gp Gpp Gh Gc Gph.
        split; [|congruence].
        rewrite Fb in *. apply (raiseH_core newH); rewrite ?Gb, ?Gc, ?Fc; try done; try congruence.
        + rewrite Hb in *. bfacts. by split.
        + apply ole_refl. }
    assert (Quiet s0 s2) by (by eapply Quiet_trans).
    apply emit_when; [eapply Quiet_inv; try done; apply I0| |done].
    apply Quiet_step; [done..|]. by rewrite P2.
  - wstep. wstep. eapply wp_call; [apply updateCurrentIfNeeded_spec; by rewrite Hph|cbv beta].
    intros r s2 [Q2 F2]. rewrite orb_false_r. destruct r; [destruct F2 as [F2 Hle]|destruct F2 as [F2 _]].
    + destruct (bumped_core newH (ballot s0) (ballot s2)) as (C2 & A2 & P2 & B2); try done;
        [by rewrite Hph..|].
      apply emit_when; [eapply Quiet_inv; try done; apply I0| |done].
      apply Quiet_step; [done..|]. by rewrite P2.
    + pose proof (Quiet_post _ _ _ Q2 F2 I0) as P2. by apply emit_when; [apply P2|apply P2|].
Qed.

Lemma findNewH_above h envs cands newH rest :
  findNewH d ln h envs cands = Some (newH, rest) -> forall h0, h = Some h0 -> ballot_lt h0 newH.
Proof.
  induction cands as [|bal cands IH]; cbn [findNewH]; [done|].
  destruct (match h with Some h => 0 <=? compareBallots h bal | None => false end) eqn:Hh; [done|].
  destruct (federatedRatify _ _ _ _); [|done]. intros [= <- <-] h0 ->. by bfacts.
Qed.

Lemma findNewC_below b newH envs cands newC :
  (counter newC <> 0 -> ballot_le newC newH /\ value newC = value newH) ->
  let r := findNewC d ln b newH envs cands newC in
  counter r <> 0 -> ballot_le r newH /\ value r = value newH.
Proof.
  revert newC. induction cands as [|bal cands IH]; intros newC H; cbn [findNewC]; [done|].
  destruct (compareBallots bal b <? 0); [done|].
  destruct (areBallotsLessAndCompatible bal newH) eqn:Hc; cbn; [|by apply IH].
  destruct (federatedRatify _ _ _ _); [|done]. apply IH. intros _. by bfacts.
Qed.

Lemma attemptConfirmPrepared_spec hint s :
  isBallotStatement hint = true -> Inv L s -> wp E (attemptConfirmPrepared d ln advance hint) (fun _ s' => Post L s s') s.
Proof.
  intros Hk HI. unfold attemptConfirmPrepared. wstep. wstep.
  destruct (mPhase (ballot s)) eqn:Hph; try (wstep; by apply Post_refl).
  destruct (mPrepared (ballot s)) as [p|] eqn:Hp; [|wstep; by apply Post_refl].
  destruct (getPrepareCandidates_total hint (mLatestEnvelopes (ballot s)) Hk (inv_ballots _ _ (proj1 HI)))
    as [cands ->]. wstep. wstep.
  destruct (findNewH _ _ _ _ _) as [[newH rest]|] eqn:Hn; [|wstep; by apply Post_refl].
  apply setConfirmPrepared_spec; [done|]. split; [done|].
  split; [intros h Hh; by eapply findNewH_above|].
  destruct (_ && _) eqn:Hg; [|by cbn]. bfacts. intros Hc.
  split; [by destruct (mCommit (ballot s))|]. by apply findNewC_below in Hc.
Qed.

(** ** Accepting a commit *)

Lemma findExtendedIntervalLoop_spec bounds pred candidate :
  candidate.1 <= candidate.2 -> (candidate.1 <> 0 -> pred candidate = true) ->
  let r := findExtendedIntervalLoop candidate bounds pred in
  r.1 <= r.2 /\ (r.1 <> 0 -> pred r = true).
Proof.
  revert candidate. induction bounds as [|b bounds IH]; intros c H1 H2;
    cbn [findExtendedIntervalLoop]; [done|]. cbv zeta.
  destruct (Z.eqb_spec (c.1) 0) as [H0|H0]; [|destruct (Z.ltb_spec (c.2) b); [by apply IH|]].
  - destruct (pred (b, b)) eqn:Hp; [by apply IH; [cbn; lia|]|by apply IH].
  - destruct (pred (b, c.2)) eqn:Hp; [by apply IH; [cbn; lia|]|done].
Qed.

Lemma findExtendedInterval_spec bounds pred :
  let r := findExtendedInterval (0, 0) bounds pred in
  r.1 <= r.2 /\ (r.1 <> 0 -> pred r = true).
Proof. by apply findExtendedIntervalLoop_spec. Qed.

(** What [attemptAcceptCommit] passes to [setAcceptCommit]. *)
Definition mayCommit (c h : SCPBallot) (s : BallotState) : Prop :=
  mPhase s <> SCP_PHASE_EXTERNALIZE /\ counter c <= counter h /\ value c = value h /\
  (mPhase s = SCP_PHASE_CONFIRM -> commitValue s = Some (value h) /\ highCounter s <= counter h).

Lemma acceptCommit_core c h s s' :
  Core s -> mayCommit c h s ->
  mPrepared s' = mPrepared s -> mPreparedPrime s' = None -> mPhase s' = SCP_PHASE_CONFIRM ->
  mHighBallot s' = Some h -> mCommit s' = Some c -> lec (Some h) (mCurrentBallot s') ->
  (mPhase s = SCP_PHASE_CONFIRM -> ole (mCurrentBallot s) (mCurrentBallot s')) ->
  Core s' /\ Adv s s'.
Proof.
  intros (Cp & Ch & Cc & Cph) (Hph & Hle & Hv & Hconf) Hp Hpp Hph' Hh Hc Hb Hole. split.
  - split; [by rewrite Hpp|]. rewrite Hh, Hc. split; [done|]. split; [|done].
    split; [by apply same_value_le|done].
  - split; rewrite ?Hph'.
    + by destruct (mPhase s).
    + rewrite Hp. apply ole_refl.
    + intros [G|G]; apply Hole; [done|by destruct (mPhase s)].
    + intros G. unfold commitValue at 1. rewrite Hc. cbn. rewrite Hv. symmetry. apply Hconf.
      by destruct (mPhase s).
    + intros G _. unfold highCounter at 2. rewrite Hh. by apply Hconf.
    + done.
Qed.

(** The value of the current ballot once a commit is accepted. *)
Lemma current_value s b :
  Core s -> mPhase s <> SCP_PHASE_PREPARE -> mCurrentBallot s = Some b -> commitValue s = Some (value b).
Proof.
  intros (_ & Ch & Cc & Cph) Hp Hb. destruct (Cph Hp) as [_ Hc]. unfold commitValue. rewrite Hb in *.
  destruct (mCommit s) as [c|]; [|done]. destruct (mHighBallot s) as [h|]; [|done]. cbn.
  destruct Ch, Cc. congruence.
Qed.

(** After the assignments of c, h and the phase, before step (8). *)
Definition commitSet (c h : SCPBallot) (s s' : BallotState) : Prop :=
  mPrepared s' = mPrepared s /\ mHighBallot s' = Some h /\ mCommit s' = Some c /\
  mPhase s' = SCP_PHASE_CONFIRM /\ mPreparedPrime s' = None /\
  (mPhase s = SCP_PHASE_CONFIRM -> mCurrentBallot s' = mCurrentBallot s) /\
  (forall b, mCurrentBallot s' = Some b -> value b = value h).

Lemma setAcceptCommit_members c h s :
  Inv L s -> mayCommit c h (ballot s) ->
  wp E (let changed := commitChanged c h (ballot s) in
        do* when changed (do* modB (set_c (Some c)) in modB (set_h (Some h))) in
        let wasPrepare := bool_decide (mPhase (ballot s) = SCP_PHASE_PREPARE) in
        do* when wasPrepare
              (do* modB (set_phase SCP_PHASE_CONFIRM) in
               do* when match mCurrentBallot (ballot s) with
                        | Some b => negb (areBallotsLessAndCompatible h b)
                        | None => false
                        end (bumpToBallot h false) in
               modB (set_pp None)) in
        mret (changed || wasPrepare))
    (fun r s' => Quiet s s' /\ commitSet c h (ballot s) (ballot s') /\
       (r = false -> fields (ballot s') = fields (ballot s))) s.
Proof.
  intros HI (Hph & Hle & Hv & Hconf). cbv zeta. pose proof (inv_core _ _ (proj1 HI)) as C.
  set (changed := commitChanged c h (ballot s)).
  wstep.
  eapply wp_call with (P := fun _ s1 => Quiet s s1 /\
    fields (ballot s1) = (mCurrentBallot (ballot s), mPrepared (ballot s),
      mPreparedPrime (ballot s), Some h, Some c, mPhase (ballot s)) /\
    (changed = false -> s1 = s)); [|cbv beta].
  { wstep; [repeat wstep; split; [by split|split; [done|congruence]]|]. split; [apply Quiet_refl|]. split; [|done].
    subst changed. unfold commitChanged in *.
    destruct (mHighBallot (ballot s)) as [h0|] eqn:Hh; [|done].
    destruct (mCommit (ballot s)) as [c0|] eqn:Hc; [|done]. bfacts.
    rewrite compareBallots_eq in *. subst. unfold fields. by rewrite Hh, Hc. }
  intros _ s1 (Q1 & F1 & Hch). injection F1 as Fb Fp Fpp Fh Fc Fph. wstep. wstep; bfacts.
  - wstep. wstep. set (s2 := onBallot _ s1). wstep.
    eapply wp_call with (P := fun _ s3 => Quiet s1 s3 /\
      mPrepared (ballot s3) = mPrepared (ballot s) /\ mHighBallot (ballot s3) = Some h /\
      mCommit (ballot s3) = Some c /\ mPhase (ballot s3) = SCP_PHASE_CONFIRM /\
      (forall b, mCurrentBallot (ballot s3) = Some b -> value b = value h)); [|cbv beta].
    { assert (Quiet s1 s2) by by split. wstep.
      - eapply wp_call; [by apply bumpToBallot_spec|cbv beta]. intros _ s3 [Q3 F3].
        unfold bumped in F3. subst s2. cbn in F3. rewrite Fh in F3.
        rewrite (proj2 (compat_iff _ _) eq_refl) in F3. injection F3 as Gb Gp Gpp Gh Gc Gph.
        split; [by eapply Quiet_trans|]. rewrite Gb. repeat split; try congruence.
      - split; [done|]. subst s2. cbn. repeat split; try done. rewrite Fb.
        intros b Hb. rewrite Hb in *. bfacts. congruence. }
    intros _ s3 (Q3 & Gp & Gh & Gc & Gph & Gv). wstep. wstep.
    split; [eapply Quiet_trans; [done|]; eapply Quiet_trans; [done|by split]|].
    split; [|by intros Hr; bfacts].
    repeat split; cbn; try done. intros E'. by rewrite E' in *.
  - wstep. split; [done|].
    assert (mPhase (ballot s) = SCP_PHASE_CONFIRM) as Hp by (by destruct (mPhase (ballot s))).
    split; [|intros Hc; bfacts; by rewrite Hch].
    split; [done|]. split; [done|]. split; [done|]. split; [congruence|]. split; [|split; [done|]].
    + rewrite Fpp. apply C. by rewrite Hp.
    + rewrite Fb. intros b Hb. destruct (Hconf Hp) as [Hcv _].
      eapply current_value in Hb; [|done|by rewrite Hp]. congruence.
Qed.

Lemma commitSet_core c h s s1 s2 :
  Core s -> mayCommit c h s -> commitSet c h s s1 ->
  (fields s2 = bumped h s1 /\ ole (mCurrentBallot s1) (Some h) \/
   fields s2 = fields s1 /\ exists b, mCurrentBallot s1 = Some b /\ ballot_le h b) ->
  (Core s2 /\ Adv s s2) /\ mPhase s2 = SCP_PHASE_CONFIRM.
Proof.
  intros C M (Fp & Fh & Fc & Fph & Fpp & Fb & Fv) H2.
  destruct H2 as [[F2 Hle]|[F2 (b & Hb & Hle)]].
  - unfold bumped in F2. rewrite Fh, (proj2 (compat_iff _ _) eq_refl) in F2.
    injection F2 as Gb Gp Gpp Gh Gc Gph. split; [|congruence].
    apply (acceptCommit_core c h); try congruence.
    + rewrite Gb. split; [apply ballot_le_refl|done].
    + intros Hp. by rewrite Gb, <- (Fb Hp).
  - injection F2 as Gb Gp Gpp Gh Gc Gph. split; [|congruence].
    apply (acceptCommit_core c h); try congruence.
    + rewrite Gb, Hb. split; [done|]. symmetry. by apply Fv.
    + intros Hp. rewrite Gb, <- (Fb Hp). apply ole_refl.
Qed.

(** The tail of [setAcceptCommit]: step (8), the callback and the emission. *)
Lemma setAcceptCommit_tail c h s s1 :
  Inv L s -> mayCommit c h (ballot s) -> Quiet s s1 -> commitSet c h (ballot s) (ballot s1) ->
  wp E (let* s := getB id in
        let* hb := deref (mHighBallot s) "mHighBallot" in
        do* updateCurrentIfNeeded hb in
        do* notify (AcceptedCommit h) in
        emitCurrentStateStatement d ln advance) (fun _ s' => Post L s s') s1.
Proof.
  intros HI M Q1 CS. pose proof CS as (_ & Fh & _ & Fph & _).
  wstep. wstep. wstep. rewrite Fh. wstep; [done|]. simplify_eq. wstep.
  eapply wp_call; [apply updateCurrentIfNeeded_spec; by rewrite Fph|cbv beta].
  intros r s2 [Q2 F2].
  destruct (commitSet_core c a (ballot s) (ballot s1) (ballot s2)) as [[C2 A2] P2];
    [apply HI|done|done|destruct r; [by left|by right]|].
  wstep. wstep. set (s3 := set_events _ s2).
  assert (Quiet s s3) as Q3.
  { eapply Quiet_trans; [done|]. eapply Quiet_trans; [done|by apply Quiet_notify]. }
  assert (Inv0 L s3) as I3 by (eapply Quiet_inv; [done|done|done|apply HI]).
  eapply wp_call; [by apply emit_spec|cbv beta]. intros ? s4 E4.
  eapply Emitted_post, step_emitted; [|done].
  apply Quiet_step; [done|done|]. subst s3. cbn. by rewrite P2.
Qed.

Lemma setAcceptCommit_spec c h s :
  Inv L s -> mayCommit c h (ballot s) ->
  wp E (setAcceptCommit d ln advance c h) (fun _ s' => Post L s s') s.
Proof.
  intros HI M. unfold setAcceptCommit. wstep. wstep. set (s0 := onBallot _ s).
  assert (Post L s s0) as P0 by (apply Quiet_post; [by split|done|done]).
  assert (mayCommit c h (ballot s0)) as M0 by done. clearbody s0.
  eapply wp_call with (P := fun _ s' => Post L s0 s');
    [|cbv beta; intros; by eapply Post_trans].
  destruct P0 as (I0 & _ & _). clear HI M s. wstep. wstep.
  eapply wp_seq2; [by apply setAcceptCommit_members|cbv beta]. intros s1 (Q1 & CS & Hr).
  wstep. wstep.
  - eapply wp_call; [by eapply setAcceptCommit_tail|cbv beta]. intros ? s2 P2. by wstep.
  - wstep. apply Quiet_post; [done|by apply Hr|done].
Qed.

Lemma attemptAcceptCommit_spec hint s :
  isBallotStatement hint = true -> Inv L s -> wp E (attemptAcceptCommit d ln advance hint) (fun _ s' => Post L s s') s.
Proof.
  intros Hk HI. unfold attemptAcceptCommit. wstep. wstep.
  destruct (proj1 (hintedCommit_total hint Hk)) as [hinted ->].
  assert (forall bal, (mPhase (ballot s) <> SCP_PHASE_EXTERNALIZE) -> 
    (mPhase (ballot s) = SCP_PHASE_CONFIRM -> commitValue (ballot s) = Some (value bal)) ->
    forall c1 c2, c1 <= c2 -> 
    (mPhase (ballot s) = SCP_PHASE_CONFIRM -> highCounter (ballot s) < c2) ->
    wp E (setAcceptCommit d ln advance (mkBallot c1 (value bal)) (mkBallot c2 (value bal)))
      (fun _ s' => Post L s s') s) as Hset.
  { intros bal Hp Hv c1 c2 Hle Hh. apply setAcceptCommit_spec; [done|]. split; [done|].
    split; [done|]. split; [done|]. intros Hc. split; [by apply Hv|]. cbn. apply Hh in Hc. lia. }
  pose proof (inv_core _ _ (proj1 HI)) as (_ & _ & Cc & Cph).
  assert (mPhase (ballot s) = SCP_PHASE_CONFIRM -> exists h,
    mHighBallot (ballot s) = Some h /\ commitValue (ballot s) = Some (value h)) as Hh.
  { intros Hp. destruct Cph as [_ Hc]; [by rewrite Hp|]. unfold commitValue.
    destruct (mCommit (ballot s)) as [c|]; [|done]. destruct (mHighBallot (ballot s)) as [h|]; [|done].
    exists h. split; [done|]. cbn. f_equal. apply Cc. }
  destruct (mPhase (ballot s)) eqn:Hp; [..|wstep; by apply Post_refl];
    wstep; wstep; (destruct hinted as [bal|]; [|wstep; by apply Post_refl]);
    destruct (getCommitBoundaries_total bal (mLatestEnvelopes (ballot s)) (inv_ballots _ _ (proj1 HI)))
      as [bounds ->];
    [clear Hh|destruct (Hh eq_refl) as (h & Hh' & Hcv); rewrite Hh'];
    repeat (wstep; simplify_eq; try done); try (by apply Post_refl);
    match goal with |- context [findExtendedInterval (0, 0) ?bs ?pred] =>
      destruct (findExtendedInterval_spec bs pred) as [Hle Hpred] end;
    repeat (wstep; simplify_eq; try done); try (by apply Post_refl); bfacts; apply Hset; try done.
  - intros _. congruence.
  - intros _. unfold highCounter. rewrite Hh'. lia.
Qed.

(** ** Confirming a commit *)

(** What [attemptConfirmCommit] passes to [setConfirmCommit]. *)
Definition mayExternalize (c h : SCPBallot) (s : BallotState) : Prop :=
  mPhase s = SCP_PHASE_CONFIRM /\ counter c <= counter h /\ value c = value h /\
  commitValue s = Some (value h).

(** The members [setConfirmCommit] leaves before it emits. *)
Lemma confirmCommit_core c h s s' :
  Core s -> mayExternalize c h s ->
  mPrepared s' = mPrepared s -> mPreparedPrime s' = None -> mPhase s' = SCP_PHASE_EXTERNALIZE ->
  mHighBallot s' = Some h -> mCommit s' = Some c -> lec (Some h) (mCurrentBallot s') ->
  ole (mCurrentBallot s) (mCurrentBallot s') ->
  Core s' /\ Adv s s'.
Proof.
  intros (Cp & Ch & Cc & Cph) (Hph & Hle & Hv & Hconf) Hp Hpp Hph' Hh Hc Hb Hole. split.
  - split; [by rewrite Hpp|]. rewrite Hh, Hc. split; [done|]. split; [|done].
    split; [by apply same_value_le|done].
  - split; rewrite ?Hph', ?Hph; try done.
    + rewrite Hp. apply ole_refl.
    + intros _. unfold commitValue at 1. rewrite Hc. cbn. by rewrite Hv.
Qed.

(** Announcing the value of an externalized slot that announced none. *)
Lemma announce_inv c s s' :
  Inv L s -> mPhase (ballot s) = SCP_PHASE_EXTERNALIZE -> mCommit (ballot s) = Some c -> exts s = [] ->
  ballot s' = ballot s -> mSlotIndex s' = mSlotIndex s ->
  events s' = events s ++ [ValueExternalized (value c)] ->
  Inv L s' /\ exts s' = [value c].
Proof.
  intros [I HP] Hph Hc Hx Hb Hi He.
  assert (emits s' = emits s) as Hem.
  { unfold emits. rewrite He, omap_app. cbn. by rewrite app_nil_r. }
  assert (exts s' = [value c]) as Hex.
  { unfold exts in *. rewrite He, omap_app, Hx. done. }
  assert (Adv (ballot s) (ballot s')) as A by (rewrite Hb; apply Adv_refl).
  split; [|done]. split; [|by rewrite Hb]. split.
  - rewrite Hb. apply I.
  - rewrite Hb. apply I.
  - rewrite Hb. apply I.
  - rewrite Hb. apply I.
  - unfold Chain. rewrite Hem, Hb. apply I.
  - rewrite Hb. intros e G. eapply Claim_mono; [done..|]. by eapply inv_last.
  - rewrite Hem. intros e G. eapply Claim_mono; [done..|]. by eapply inv_emits.
  - right. rewrite Hb. split; [done|]. exists (value c). unfold commitValue. by rewrite Hc.
Qed.

(** The quorum the local node saw ratify the commit. *)
Definition ratified (c : SCPBallot) (s : BallotState) : Prop :=
  exists bal cur, value bal = value c /\
    federatedRatify d ln (commitPredicate bal cur) (mLatestEnvelopes s) = true.

Lemma externalize_step c s s3 s4 s6 :
  Inv L s -> mPhase (ballot s) = SCP_PHASE_CONFIRM -> ratified c (ballot s) ->
  Quiet s s3 -> Adv (ballot s) (ballot s3) -> mPhase (ballot s3) = SCP_PHASE_EXTERNALIZE ->
  mCommit (ballot s3) = Some c -> Emitted s3 s4 ->
  ballot s6 = ballot s4 -> mSlotIndex s6 = mSlotIndex s4 ->
  events s6 = events s4 ++ [ValueExternalized (value c)] ->
  Emitted s s6.
Proof.
  intros HI Hph (bal & cur & Hv & Hq) Q A Hp3 Hc3 (I4 & S4 & O4) Hb Hi He.
  pose proof (adv_ext _ _ (st_adv _ _ S4) Hp3) as F4. injection F4 as _ _ _ _ Gc Gph.
  assert (exts s4 = exts s) as X4 by (rewrite (st_exts _ _ S4) by (by right); apply Q).
  assert (exts s = []) as X0.
  { destruct (inv_ext _ _ (proj1 HI)) as [?|[? _]]; [done|congruence]. }
  assert (commitValue (ballot s6) = Some (value c)) as V6.
  { unfold commitValue. rewrite Hb, Gc, Hc3. done. }
  destruct (announce_inv c s4 s6) as [I6 X6]; try congruence.
  split; [done|]. split; [|intros G; rewrite Hb in G; congruence].
  assert (forall n, n <> mNodeID ln -> mapFind (mLatestEnvelopes (ballot s6)) n =
                                   mapFind (mLatestEnvelopes (ballot s)) n) as Hoth.
  { intros n Hn. rewrite Hb, (st_others _ _ S4 n Hn). by rewrite (q_latest _ _ Q). }
  split; try done.
  - rewrite Hb. eapply Adv_trans; [done|apply S4].
  - rewrite Hi, (st_index _ _ S4). apply Q.
  - rewrite Hb, (st_level _ _ S4). apply Q.
  - rewrite Hb, <- (q_latest _ _ Q). apply S4.
  - rewrite Hb, <- (q_last _ _ Q). apply S4.
  - intros [G|G]; [rewrite Hb in G; congruence|congruence].
  - intros _ _. split.
    + exists (mLatestEnvelopes (ballot s)), bal, cur. split; [apply HI|].
      split; [intros n Hn; symmetry; by apply Hoth|]. split; [done|]. by rewrite Hv.
    + exists (value c). split; [done|]. by rewrite X6, X0.
Qed.

Lemma setConfirmCommit_spec c h s :
  Inv L s -> mayExternalize c h (ballot s) -> ratified c (ballot s) ->
  wp E (setConfirmCommit d ln advance c h) (fun _ s' => Emitted s s') s.
Proof.
  intros HI M Hr. pose proof M as (Hph & _ & _ & Hcv). unfold setConfirmCommit. wstep. wstep. wstep. wstep.
  set (s1 := onBallot _ _). assert (Quiet s s1) as Q1 by by split.
  pose proof (inv_core _ _ (proj1 HI)) as C.
  wstep. eapply wp_call; [apply updateCurrentIfNeeded_spec; subst s1; cbn; by rewrite Hph|cbv beta].
  intros r s2 [Q2 F2]. wstep. wstep. set (s3 := onBallot _ s2).
  assert (Quiet s s3) as Q3.
  { eapply Quiet_trans; [done|]. eapply Quiet_trans; [done|by split]. }
  assert ((Core (ballot s3) /\ Adv (ballot s) (ballot s3)) /\ mCommit (ballot s3) = Some c)
    as [[C3 A3] Hc3].
  { destruct C as (_ & _ & _ & Cph). destruct Cph as [Hpp _]; [by rewrite Hph|].
    destruct r; [destruct F2 as [F2 Hle]|destruct F2 as [F2 (b & Hb & Hle)]].
    - unfold bumped in F2. cbn in F2. rewrite (proj2 (compat_iff _ _) eq_refl) in F2.
      injection F2 as Gb Gp Gpp Gh Gc Gph. split; [|done].
      apply (confirmCommit_core c h); cbn; try congruence; try done; [apply HI| |by rewrite Gb].
      rewrite Gb. split; [apply ballot_le_refl|done].
    - injection F2 as Gb Gp Gpp Gh Gc Gph. split; [|done]. cbn in Hb.
      apply (confirmCommit_core c h); cbn; try congruence; try done; [apply HI|..].
      + rewrite Gb. cbn. rewrite Hb. split; [done|].
        eapply current_value in Hb; [|apply HI|by rewrite Hph]. congruence.
      + rewrite Gb. apply ole_refl. }
  wstep. eapply wp_call; [apply emit_spec; eapply Quiet_inv; [done|done|done|apply HI]|cbv beta].
  intros ? s4 E4. unfold stopNomination. wstep. wstep. wstep. wstep. wstep.
  pose proof E4 as (_ & S4 & _). pose proof (adv_ext _ _ (st_adv _ _ S4) eq_refl) as F4.
  injection F4 as _ _ _ _ Gc Gph. cbn in Gc, Hc3.
  wstep; [cbn in *; congruence|]. wstep. wstep. wstep.
  assert (a0 = c) as -> by (cbn in *; congruence).
  by eapply (externalize_step c s s3 s4).
Qed.

Lemma attemptConfirmCommit_spec hint s :
  isBallotStatement hint = true -> Inv L s -> wp E (attemptConfirmCommit d ln advance hint) (fun _ s' => Post L s s') s.
Proof.
  intros Hk HI. unfold attemptConfirmCommit. wstep. wstep.
  destruct (mPhase (ballot s)) eqn:Hp; try (wstep; by apply Post_refl).
  destruct (mHighBallot (ballot s)) as [h|] eqn:Hh; [|wstep; by apply Post_refl].
  destruct (mCommit (ballot s)) as [c|] eqn:Hc; [|wstep; by apply Post_refl].
  destruct (proj2 (hintedCommit_total hint Hk)) as [hinted ->]. wstep. wstep.
  destruct hinted as [bal|]; [|wstep; by apply Post_refl].
  wstep; [wstep; by apply Post_refl|]. cbv zeta.
  destruct (getCommitBoundaries_total bal (mLatestEnvelopes (ballot s)) (inv_ballots _ _ (proj1 HI)))
    as [bounds ->]. wstep. wstep.
  match goal with |- context [findExtendedInterval (0, 0) ?bs ?pred] =>
    destruct (findExtendedInterval_spec bs pred) as [Hle Hpred] end.
  wstep; [|wstep; by apply Post_refl]. bfacts.
  eapply wp_call with (P := fun _ s' => Emitted s s');
    [|cbv beta; intros ? s' G; by apply Emitted_post].
  apply setConfirmCommit_spec; [done|..].
  - split; [done|]. split; [done|]. split; [done|]. unfold commitValue. rewrite Hc. cbn. by f_equal.
  - eexists bal, _. split; [done|]. by apply Hpred.
Qed.

(** ** Following a v-blocking set *)

Lemma setInsert_In {A} (lt : A -> A -> bool) x l y : In y (setInsert lt x l) -> y = x \/ In y l.
Proof.
  induction l as [|z l IH]; cbn; [intuition congruence|].
  destruct (lt x z); cbn; [intuition congruence|]. destruct (lt z x); cbn; intuition congruence.
Qed.

(** The functions over the counters of the latest messages, without their aborts. *)
Definition aheadOf (envs : EnvMap) (n : Z) : bool :=
  isVBlockingMap (mQSet ln) envs (fun e => n <? ballotCounter (statement e)).

Lemma hasVBlocking_eq envs n :
  allBallots envs -> hasVBlockingSubsetStrictlyAheadOf ln envs n = inr (aheadOf envs n).
Proof.
  intros H. unfold hasVBlockingSubsetStrictlyAheadOf, aheadOf, isVBlockingMap.
  assert (forall acc, foldM (fun '(node, e) nodes =>
      let* c := statementBallotCounter (statement e) in
      mret (if n <? c then nodes ++ [node] else nodes)) envs acc =
    inr (acc ++ filterNodes (fun e => n <? ballotCounter (statement e)) envs)) as ->; [|done].
  unfold filterNodes. induction envs as [|[k e] envs IH]; intros acc; cbn; [by rewrite app_nil_r|].
  rewrite statementBallotCounter_eq by (eapply H; by left). cbn.
  rewrite IH by (intros k' e' Hin; eapply H; by right).
  destruct (n <? _); cbn; [by rewrite <- app_assoc|done].
Qed.

Lemma countersAhead_gt envs n :
  allBallots envs -> exists l, countersAhead envs n = inr l /\ forall c, In c l -> n < c.
Proof.
  intros H. unfold countersAhead.
  assert (forall acc, (forall c, In c acc -> n < c) -> exists l, foldM (fun '(_, e) res =>
      let* c := statementBallotCounter (statement e) in
      mret (if n <? c then setInsert Z.ltb c res else res)) envs acc = inr l /\
    forall c, In c l -> n < c) as G; [|by apply G].
  induction envs as [|[k e] envs IH]; cbn; intros acc Hacc; [by exists acc|].
  rewrite statementBallotCounter_eq by (eapply H; by left). cbn.
  apply IH; [intros k' e' Hin; eapply H; by right|]. intros x Hx.
  destruct (Z.ltb_spec n (ballotCounter (statement e))); [|by apply Hacc].
  apply setInsert_In in Hx as [->|Hx]; [done|by apply Hacc].
Qed.

Lemma firstNotAhead_eq envs l :
  allBallots envs -> firstNotAhead ln envs l = inr (List.find (fun n => negb (aheadOf envs n)) l).
Proof.
  intros H. induction l as [|n l IH]; [done|]. cbn. rewrite hasVBlocking_eq by done. cbn.
  by destruct (aheadOf envs n).
Qed.

(** After a bump to [n], which no v-blocking set is ahead of, the counter is at
    least [n] unless the phase changed. *)
Definition caughtUp (s s' : SlotState) : Prop :=
  exists n, aheadOf (mLatestEnvelopes (ballot s)) n = false /\
    (mPhase (ballot s') = mPhase (ballot s) -> n <= localCounter (ballot s')).

Lemma attemptBump_spec s :
  Inv L s ->
  wp E (attemptBump d ln advance) (fun r s' =>
    if r then Emitted s s' /\ caughtUp s s' /\ mPhase (ballot s) <> SCP_PHASE_EXTERNALIZE
    else s' = s) s.
Proof.
  intros HI. unfold attemptBump. wstep. wstep.
  fold (localCounter (ballot s)). set (lc := localCounter (ballot s)).
  pose proof (inv_ballots _ _ (proj1 HI)) as Hb.
  destruct (countersAhead_gt (mLatestEnvelopes (ballot s)) lc Hb) as (l & El & Hl).
  rewrite El, hasVBlocking_eq by done.
  assert (mPhase (ballot s) <> SCP_PHASE_EXTERNALIZE ->
    wp E (let* ahead := lift (inr (aheadOf (mLatestEnvelopes (ballot s)) lc)) in
          if negb ahead then mret false
          else
            let* allCounters := lift (inr l) in
            let* next := lift (firstNotAhead ln (mLatestEnvelopes (ballot s)) allCounters) in
            match next with Some n => abandonBallot d ln advance n | None => mret false end)
      (fun r s' =>
      if r then Emitted s s' /\ caughtUp s s' /\ mPhase (ballot s) <> SCP_PHASE_EXTERNALIZE
      else s' = s) s) as H.
  { intros Hph. wstep. wstep. wstep; [by wstep|]. wstep. wstep. rewrite firstNotAhead_eq by done. wstep. wstep.
    destruct (List.find _ _) as [n|] eqn:Hf; [|by wstep].
    apply find_some in Hf as [Hin Hn]. apply Hl in Hin. apply negb_true_iff in Hn.
    assert (forall b, mCurrentBallot (ballot s) = Some b -> counter b < n) as Hlt.
    { intros b Hb'. subst lc. unfold localCounter in Hin. by rewrite Hb' in Hin. }
    eapply wp_call; [apply abandonBallot_spec; [done| |done]|cbv beta].
    - intros ->. left. intros b Hb'. specialize (Hlt b Hb'). unfold UINT32_MAX. lia.
    - intros [] s'; [|done]. intros [HE' Hc]. split; [done|]. split; [|done]. by exists n. }
  destruct (mPhase (ballot s)) eqn:Hp; [by apply H..|by wstep].
Qed.

(** A node that has caught up has nothing left to follow. *)
Definition settled (s : SlotState) : Prop :=
  mPhase (ballot s) = SCP_PHASE_EXTERNALIZE \/
  aheadOf (mLatestEnvelopes (ballot s)) (localCounter (ballot s)) = false.

Lemma settled_bump s :
  allBallots (mLatestEnvelopes (ballot s)) -> settled s -> attemptBump d ln advance s = Ok false s.
Proof.
  intros Hb. unfold attemptBump, bnd, mbind, M_bind, getB, id. fold (localCounter (ballot s)).
  rewrite hasVBlocking_eq by done.
  intros [->|H]; [done|]. rewrite H. by destruct (mPhase (ballot s)).
Qed.

Lemma caughtUp_settled s s' :
  qset_repr (mQSet ln) -> qset_wf (mQSet ln) = true ->
  Inv L s -> Emitted s s' -> caughtUp s s' -> mPhase (ballot s') = mPhase (ballot s) -> settled s'.
Proof.
  intros Hr Hw HI (I' & S & O) (n & Hn & Hc) Hp.
  destruct (decide (mPhase (ballot s') = SCP_PHASE_EXTERNALIZE)) as [He|He]; [by left|right].
  apply not_true_iff_false. rewrite <- not_true_iff_false in Hn. intros H. apply Hn.
  unfold aheadOf, isVBlockingMap, isVBlocking in *.
  eapply vblocking_mono; [done|done| |exact H]. intros x _. rewrite !inNodes_In.
  rewrite !filterNodes_In by (apply ordered_NoDup; by apply HI || by apply I').
  intros (e & Hx & Hlt). apply Z.ltb_lt in Hlt. specialize (Hc Hp).
  destruct (decide (x = mNodeID ln)) as [->|Hne].
  - specialize (O He e Hx). lia.
  - rewrite (st_others _ _ S x Hne) in Hx. exists e. split; [done|]. apply Z.ltb_lt. lia.
Qed.

(** The iterations [bumpLoop] still needs: at most one per phase, plus the last. *)
Definition bumpNeed (s : SlotState) : Z := 3 - phaseRank (mPhase (ballot s)).

Definition LocalSane : Prop := qset_repr (mQSet ln) /\ qset_wf (mQSet ln) = true.

Lemma bumpLoop_spec fuel s :
  Inv L s ->
  (LocalSane /\ (bumpNeed s <= Z.of_nat fuel \/ (settled s /\ (1 <= fuel)%nat)) \/ E OutOfFuel) ->
  wp E (bumpLoop d ln advance fuel) (fun _ s' => Post L s s') s.
Proof.
  revert s. induction fuel as [|fuel IH]; intros s HI Hf; cbn [bumpLoop].
  { apply wp_fail. destruct Hf as [[_ [Hf|[_ Hf]]]|Hf]; [|lia|done].
    unfold bumpNeed in Hf. destruct (mPhase (ballot s)); cbn in Hf; lia. }
  wstep. destruct (decide (settled s)) as [Hs|Hs].
  { unfold wp. rewrite settled_bump by (done || apply HI). by apply Post_refl. }
  eapply wp_call; [by apply attemptBump_spec|cbv beta]. intros r s1 Hr.
  wstep; [|wstep; subst; by apply Post_refl]. destruct Hr as (E1 & C1 & Hne).
  assert (Post L s s1) as P1 by (by apply Emitted_post).
  wstep. eapply wp_call; [apply IH; [apply E1|]|cbv beta].
  - destruct Hf as [[HL Hf]|Hf]; [left|by right]. split; [done|].
    destruct Hf as [Hf|[? _]]; [|done]. unfold bumpNeed in *.
    pose proof (adv_phase _ _ (st_adv _ _ (proj1 (proj2 P1)))).
    destruct (decide (mPhase (ballot s1) = mPhase (ballot s))) as [Hp|Hp].
    + right. split; [by destruct HL; eapply caughtUp_settled|].
      destruct (mPhase (ballot s)); cbn in Hf; lia || done.
    + left. destruct (mPhase (ballot s)), (mPhase (ballot s1)); cbn in *; lia || done.
  - intros ? s2 P2. wstep. by eapply Post_trans.
Qed.

End Reentry.

(** ** The whole of [advanceSlot] *)

Lemma level_inv L L' s :
  Inv L s -> Inv L' (onBallot (set_level L') s).
Proof.
  intros [I HP]. split; [|done]. destruct I. by split.
Qed.

(** Running the body one level deeper. *)
Lemma level_post L s s' :
  Inv L s -> Post (L + 1) (onBallot (set_level (L + 1)) s) s' ->
  Post L s (onBallot (fun b => set_level (mCurrentMessageLevel b - 1) b) s').
Proof.
  intros HI (I' & S & O).
  assert (mCurrentMessageLevel (ballot s') - 1 = L) as HL.
  { rewrite (inv_level _ _ (proj1 I')). lia. }
  split; [|split; [|exact O]].
  - destruct I' as [I' HP]. split; [|done]. destruct I'. by split.
  - destruct S as [A Si Sl So Ss Sla Sx Sev]. split; try done.
    + destruct A. by split.
    + cbn. rewrite HL. symmetry. apply HI.
Qed.

Lemma advanceBody_spec advance fuel L hint s :
  isBallotStatement hint = true -> Inv L s ->
  (forall st s, isBallotStatement st = true -> Inv (L + 1) s -> L + 1 < MAX_ADVANCE_SLOT_RECURSION ->
     wp E (advance st) (fun _ s' => Post (L + 1) s s') s) ->
  (L = 0 -> LocalSane /\ (3 <= fuel)%nat \/ E OutOfFuel) ->
  wp E (advanceBody d ln advance fuel hint) (fun _ s' => Post L s s') s.
Proof.
  intros Hk HI Hadv Hfuel. unfold advanceBody. wstep. wstep.
  assert (onBallot (fun b => set_level (mCurrentMessageLevel b + 1) b) s =
          onBallot (set_level (L + 1)) s) as ->.
  { unfold onBallot. by rewrite (inv_level _ _ (proj1 HI)). }
  set (s0 := onBallot _ s). assert (Inv (L + 1) s0) as I0 by (by apply (level_inv L)).
  wstep. wstep. change (mCurrentMessageLevel (ballot s0)) with (L + 1).
  wstep; [wstep|]. apply Z.leb_gt in Heqb.
  assert (forall st s, isBallotStatement st = true -> Inv (L + 1) s -> wp E (advance st) (fun _ s' => Post (L + 1) s s') s) as Ha
    by auto.
  wstep. eapply wp_call; [by apply (attemptAcceptPrepared_spec advance (L + 1) Ha)|cbv beta].
  intros w1 s1 P1. pose proof (proj1 P1) as I1.
  wstep. eapply wp_call; [by apply (attemptConfirmPrepared_spec advance (L + 1) Ha)|cbv beta].
  intros w2 s2 P2. pose proof (proj1 P2) as I2.
  wstep. eapply wp_call; [by apply (attemptAcceptCommit_spec advance (L + 1) Ha)|cbv beta].
  intros w3 s3 P3. pose proof (proj1 P3) as I3.
  wstep. eapply wp_call; [by apply (attemptConfirmCommit_spec advance (L + 1) Ha)|cbv beta].
  intros w4 s4 P4. pose proof (proj1 P4) as I4. wstep. wstep.
  rewrite (inv_level _ _ (proj1 I4)). wstep.
  eapply wp_call with (P := fun _ s5 => Post (L + 1) s4 s5); [|cbv beta].
  { wstep; [|wstep; by apply Post_refl]. bfacts. assert (L = 0) as -> by lia. wstep.
    eapply wp_call; [apply (bumpLoop_spec advance (0 + 1) Ha); [done|]|cbv beta].
    - destruct (Hfuel eq_refl) as [[HL Hf]|Hf]; [left|by right]. split; [done|]. left.
      unfold bumpNeed. destruct (mPhase (ballot s4)); cbn; lia.
    - intros w5 s5 P5. wstep. eapply wp_call; [apply checkHeardFromQuorum_spec|cbv beta].
      intros ? s6 [Q6 F6]. wstep. eapply Post_trans; [done|]. apply Quiet_post; [done|done|apply P5]. }
  intros w5 s5 P5. wstep. wstep.
  assert (Post L s (onBallot (fun b => set_level (mCurrentMessageLevel b - 1) b) s5)) as P6.
  { apply level_post; [done|]. eapply Post_trans; [exact P1|]. eapply Post_trans; [exact P2|].
    eapply Post_trans; [exact P3|]. eapply Post_trans; [exact P4|exact P5]. }
  wstep; [|done]. eapply wp_call; [apply sendLatestEnvelope_spec; apply P6|cbv beta].
  intros ? s7 P7. by eapply Post_trans.
Qed.

(** [advanceSlot] from recursion level [L]: the fuel suffices when it reaches
    the recursion limit. *)
Lemma advanceSlot_spec fuel L hint s :
  isBallotStatement hint = true -> Inv L s -> 0 <= L ->
  (LocalSane /\ (1 <= fuel)%nat /\ MAX_ADVANCE_SLOT_RECURSION <= Z.of_nat fuel + L \/ E OutOfFuel) ->
  wp E (advanceSlot d ln fuel hint) (fun _ s' => Post L s s') s.
Proof.
  revert L hint s. induction fuel as [|fuel IH]; intros L hint s Hk HI HL Hf.
  { cbn [advanceSlot]. apply wp_fail. destruct Hf as [(_ & ? & _)|]; [lia|done]. }
  cbn [advanceSlot]. apply advanceBody_spec; [done|done|..].
  - intros st s' Hk' HI' Hlt. apply IH; [done|done|lia|]. destruct Hf as [(Hq & _ & Hf)|Hf]; [left|by right].
    unfold MAX_ADVANCE_SLOT_RECURSION in *. split; [done|]. lia.
  - intros ->. destruct Hf as [(Hq & _ & Hf)|Hf]; [left|by right].
    unfold MAX_ADVANCE_SLOT_RECURSION in *. split; [done|]. lia.
Qed.

End Protocol.
