(* ===== verification/Nomination.v ===== *)
(** * The nomination protocol and the slot's operations

    Model of [src/scp/NominationProtocol.cpp] and of the operations of
    [src/scp/Slot.cpp] that dispatch to the two protocols.  [emitNomination]
    hands the new envelope back to the slot, which may emit again: the
    recursive call is an argument of the operations and closed with fuel. *)

From stdpp Require Import base list gmap strings.
From S2P Require Import Prelude Numeric QuorumSet LocalNode Statement SlotState Ballot.

Local Open Scope Z_scope.

(** ** Comparing nominations *)

(** [std::includes(v, p)] on two sorted ranges. *)
Fixpoint stdIncludes (v p : list Value) : bool :=
  match p with
  | [] => true
  | y :: p' =>
      match v with
      | [] => false
      | x :: v' =>
          if valueLt y x then false
          else if valueLt x y then stdIncludes v' p
          else stdIncludes v' p'
      end
  end.

(** Returns the result and the out-parameter [notEqual]. *)
Definition isSubsetHelper (p v : list Value) : bool * bool :=
  if (length p <=? length v)%nat then
    if stdIncludes v p then (true, negb (length p =? length v)%nat) else (false, true)
  else (false, true).

Definition isNewerNomination (oldst st : SCPNomination) : bool :=
  let '(sub, grows) := isSubsetHelper (n_votes oldst) (n_votes st) in
  if sub then
    let '(sub, g) := isSubsetHelper (n_accepted oldst) (n_accepted st) in
    if sub then grows || g else false
  else false.

(** [std::adjacent_find] with [!(l < r)] finds nothing. *)
Fixpoint strictlySorted (l : list Value) : bool :=
  match l with
  | x :: ((y :: _) as l') => valueLt x y && strictlySorted l'
  | _ => true
  end.

Definition isSane (nom : SCPNomination) : bool :=
  negb ((length (n_votes nom) + length (n_accepted nom) =? 0)%nat) &&
  strictlySorted (n_votes nom) && strictlySorted (n_accepted nom).

Definition valueIn (v : Value) (l : list Value) : bool := existsb (valueEq v) l.

(** The nomination of a statement; [pledges.nominate()] throws on another arm. *)
Definition nominateOf (st : SCPStatement) : option SCPNomination :=
  match pledges st with
  | SCP_ST_NOMINATE nom => Some nom
  | _ => None
  end.

Definition acceptPredicate (v : Value) (st : SCPStatement) : bool :=
  match nominateOf st with Some nom => valueIn v (n_accepted nom) | None => false end.

(** The [voted] predicate of [processEnvelope]. *)
Definition votePredicate (v : Value) (st : SCPStatement) : bool :=
  match nominateOf st with Some nom => valueIn v (n_votes nom) | None => false end.

(** The values [applyAll] passes to its processor, in order. *)
Definition applyAll (nom : SCPNomination) : list Value :=
  n_votes nom ++ List.filter (fun a => negb (valueIn a (n_votes nom))) (n_accepted nom).

Definition isNewerNominationFrom (node : NodeID) (nom : SCPNomination) (s : NominationState) : bool :=
  match mapFind (mLatestNominations s) node with
  | None => true
  | Some old =>
      match nominateOf (statement old) with
      | Some o => isNewerNomination o nom
      | None => false
      end
  end.

(** [Slot::isNewerNominationOrBallotSt]. *)
Definition isNewerNominationOrBallotSt (oldSt newSt : SCPStatement) : bool :=
  match nominateOf oldSt, nominateOf newSt with
  | Some o, Some n => isNewerNomination o n
  | None, None => isNewerStatement oldSt newSt
  | _, _ => false
  end.

(** [Slot::getStatementValues]. *)
Definition slotStatementValues (st : SCPStatement) : list Value :=
  match nominateOf st with
  | Some nom => applyAll nom
  | None => getStatementValues st
  end.

Definition valueInsert (v : Value) (l : list Value) : list Value := setInsert valueLt v l.
Definition valueMem (v : Value) (l : list Value) : bool := setMem valueLt v l.

Section Nomination.
Context (d : SCPDriver) (ln : LocalNodeState).

Definition recordNomination (env : SCPEnvelope) : SM unit :=
  let st := statement env in
  do* modN (fun n => set_nominations (mapInsert (nodeID st) env (mLatestNominations n)) n) in
  recordStatement st.

(** ** Round leaders *)

Definition hashNode (isPriority : bool) (id : NodeID) : SM Z :=
  let* s := get in
  let n := nomination s in
  do* dbgAssert (match mPreviousValue n with [] => false | _ => true end) "!mPreviousValue.empty()" in
  mret (computeHashNode d (mSlotIndex s) (mPreviousValue n) isPriority (mRoundNumber n) id).

Definition hashValue (v : Value) : SM Z :=
  let* s := get in
  let n := nomination s in
  do* dbgAssert (match mPreviousValue n with [] => false | _ => true end) "!mPreviousValue.empty()" in
  mret (computeValueHash d (mSlotIndex s) (mPreviousValue n) (mRoundNumber n) v).

Definition getNodePriority (id : NodeID) (qset : SCPQuorumSet) : SM Z :=
  let* w := if id =? mNodeID ln then mret UINT64_MAX else lift (getNodeWeight id qset) in
  if 0 <? w then
    let* h := hashNode false id in
    if h <=? w then hashNode true id else mret 0
  else mret 0.

(** The callback over the nodes of the quorum set: the top priority so far and
    the nodes that have it. *)
Fixpoint topLeaders (nodes : list NodeID) (myQSet : SCPQuorumSet) (topPriority : Z)
    (leaders : list NodeID) : SM (list NodeID) :=
  match nodes with
  | [] => mret leaders
  | cur :: nodes' =>
      let* w := getNodePriority cur myQSet in
      let '(topPriority, leaders) :=
        if topPriority <? w then (w, []) else (topPriority, leaders) in
      let leaders :=
        if (w =? topPriority) && (0 <? w) then setInsert Z.ltb cur leaders else leaders in
      topLeaders nodes' myQSet topPriority leaders
  end.

(** The nodes [forAllNodes] visits, with repetitions. *)
Definition allNodes (qset : SCPQuorumSet) : list NodeID :=
  snd (forAllNodes (fun id l => (true, l ++ [id])) qset []).

Fixpoint leadersLoop (fuel : nat) (myQSet : SCPQuorumSet) (maxLeaderCount : nat) : SM unit :=
  match fuel with
  | O => fail OutOfFuel
  | S fuel' =>
      let* old := getN mRoundLeaders in
      if (length old <? maxLeaderCount)%nat then
        let* topPriority := getNodePriority (mNodeID ln) myQSet in
        let* new := topLeaders (allNodes myQSet) myQSet topPriority [mNodeID ln] in
        let all := fold_left (fun l n => setInsert Z.ltb n l) new old in
        do* modN (set_leaders all) in
        if negb (length old =? length all)%nat then mret tt
        else
          do* modN (fun n => set_round (i32 (mRoundNumber n + 1)) n) in
          leadersLoop fuel' myQSet maxLeaderCount
      else mret tt
  end.

Definition updateRoundLeaders (fuel : nat) : SM unit :=
  let myQSet := normalizeQSet (mQSet ln) (Some (mNodeID ln)) in
  leadersLoop fuel myQSet (1 + length (allNodes myQSet)).

(** ** New votes *)

Definition nomValidate (v : Value) : SM ValidationLevel :=
  let* index := getS mSlotIndex in
  mret (validateValue d index v true).

Definition nomExtract (v : Value) : SM (option Value) :=
  let* index := getS mSlotIndex in
  mret (extractValidValue d index v).

Fixpoint newValueLoop (values : list Value) (newHash : Z) (newVote : option Value)
    : SM (option Value) :=
  match values with
  | [] => mret newVote
  | v :: values' =>
      let* vl := nomValidate v in
      let* toNominate :=
        match vl with
        | kFullyValidatedValue => mret (Some v)
        | _ => nomExtract v
        end in
      match toNominate with
      | Some x =>
          let* votes := getN mVotes in
          if valueMem x votes then newValueLoop values' newHash newVote
          else
            let* curHash := hashValue x in
            if newHash <=? curHash then newValueLoop values' curHash (Some x)
            else newValueLoop values' newHash newVote
      | None => newValueLoop values' newHash newVote
      end
  end.

Definition getNewValueFromNomination (nom : SCPNomination) : SM (option Value) :=
  newValueLoop (applyAll nom) 0 None.

(** ** Operations that may re-enter the slot *)

Section Reentrant.
Context (slotProcess : SCPEnvelope -> bool -> SM EnvelopeState).
Context (advance : SCPStatement -> SM unit).

Definition emitNomination : SM unit :=
  let* n := getN id in
  let nom := mkNomination (mQSetHash ln) (mVotes n) (mAccepted n) in
  let* envelope := createEnvelope d ln (mkStatement (mNodeID ln) 0 (SCP_ST_NOMINATE nom)) in
  let* r := slotProcess envelope true in
  match r with
  | VALID =>
      let* last := getN mNomLastEnvelope in
      let* newer :=
        match last with
        | None => mret true
        | Some l =>
            let* o := deref (nominateOf (statement l)) "nominate()" in
            mret (isNewerNomination o nom)
        end in
      when newer
        (do* modN (set_nomLast (Some envelope)) in
         let* fully := getS mFullyValidated in
         when fully (notify (EmitEnvelope envelope)))
  | INVALID => throw "moved to a bad state (nomination)"
  end.

(** Promote votes to accepted; returns [modified]. *)
Fixpoint acceptVotes (votes : list Value) (modified : bool) : SM bool :=
  match votes with
  | [] => mret modified
  | v :: votes' =>
      let* n := getN id in
      if valueMem v (mAccepted n) then acceptVotes votes' modified
      else if federatedAccept d ln (votePredicate v) (acceptPredicate v) (mLatestNominations n) then
        let* vl := nomValidate v in
        match vl with
        | kFullyValidatedValue =>
            do* modN (fun n => set_accepted (valueInsert v (mAccepted n)) n) in
            do* modN (fun n => set_votes (valueInsert v (mVotes n)) n) in
            acceptVotes votes' true
        | _ =>
            let* toVote := nomExtract v in
            match toVote with
            | Some x =>
                if valueMem x (mVotes n) then acceptVotes votes' modified
                else
                  do* modN (fun n => set_votes (valueInsert x (mVotes n)) n) in
                  acceptVotes votes' true
            | None => acceptVotes votes' modified
            end
        end
      else acceptVotes votes' modified
  end.

(** Promote accepted values to candidates; returns [newCandidates]. *)
Fixpoint ratifyAccepted (accepted : list Value) (newCandidates : bool) : SM bool :=
  match accepted with
  | [] => mret newCandidates
  | a :: accepted' =>
      let* n := getN id in
      if valueMem a (mCandidates n) then ratifyAccepted accepted' newCandidates
      else if federatedRatify d ln (acceptPredicate a) (mLatestNominations n) then
        do* modN (fun n => set_candidates (valueInsert a (mCandidates n)) n) in
        ratifyAccepted accepted' true
      else ratifyAccepted accepted' newCandidates
  end.

(** The vote taken from a round leader while there is no candidate. *)
Definition voteFromLeader (node : NodeID) (nom : SCPNomination) : SM bool :=
  let* n := getN id in
  if match mCandidates n with [] => true | _ => false end &&
     existsb (Z.eqb node) (mRoundLeaders n)
  then
    let* newVote := getNewValueFromNomination nom in
    match newVote with
    | Some v =>
        do* modN (fun n => set_votes (valueInsert v (mVotes n)) n) in
        do* notify (NominatingValue v) in
        mret true
    | None => mret false
    end
  else mret false.

Definition nominationProcessEnvelope (env : SCPEnvelope) : SM EnvelopeState :=
  let st := statement env in
  let* nom := deref (nominateOf st) "nominate()" in
  let* newer := getN (isNewerNominationFrom (nodeID st) nom) in
  if negb newer then mret INVALID
  else if negb (isSane nom) then mret INVALID
  else
    do* recordNomination env in
    let* started := getN mNominationStarted in
    do* when started
      (let* m1 := acceptVotes (n_votes nom) false in
       let* accepted := getN mAccepted in
       let* newCandidates := ratifyAccepted accepted false in
       let* m2 := voteFromLeader (nodeID st) nom in
       do* when (m1 || m2) emitNomination in
       when newCandidates
         (let* s := get in
          let composite := combineCandidates d (mSlotIndex s) (mCandidates (nomination s)) in
          do* modN (set_composite composite) in
          let* v := deref composite "mLatestCompositeCandidate" in
          do* notify (UpdatedCandidateValue v) in
          do* bumpState d ln advance v false in
          mret tt)) in
    mret VALID.

(** Take votes from the leaders' latest nominations; returns [updated]. *)
Fixpoint votesFromLeaders (leaders : list NodeID) (updated : bool) : SM bool :=
  match leaders with
  | [] => mret updated
  | l :: leaders' =>
      let* noms := getN mLatestNominations in
      match mapFind noms l with
      | None => votesFromLeaders leaders' updated
      | Some e =>
          let* nom := deref (nominateOf (statement e)) "nominate()" in
          let* newVote := getNewValueFromNomination nom in
          match newVote with
          | Some v =>
              do* modN (fun n => set_votes (valueInsert v (mVotes n)) n) in
              do* notify (NominatingValue v) in
              votesFromLeaders leaders' true
          | None => votesFromLeaders leaders' updated
          end
      end
  end.

Definition nominate (fuel : nat) (v previousValue : Value) (timedout : bool) : SM bool :=
  do* when timedout (modN (fun n => set_nomTimerExp (i32 (mNomTimerExpCount n + 1)) n)) in
  let* started := getN mNominationStarted in
  if timedout && negb started then mret false
  else
    do* modN (set_nominationStarted true) in
    do* modN (set_previous previousValue) in
    do* modN (fun n => set_round (i32 (mRoundNumber n + 1)) n) in
    do* updateRoundLeaders fuel in
    let* n := getN id in
    let timeout := computeTimeout d (u32 (mRoundNumber n)) in
    let* u1 :=
      if existsb (Z.eqb (mNodeID ln)) (mRoundLeaders n) && negb (valueMem v (mVotes n)) then
        do* modN (fun n => set_votes (valueInsert v (mVotes n)) n) in
        do* notify (NominatingValue v) in
        mret true
      else mret false in
    let* updated := votesFromLeaders (mRoundLeaders n) u1 in
    do* notify (SetupTimer NOMINATION_TIMER (Some timeout)) in
    do* when updated emitNomination in
    mret updated.

(** [Slot::processEnvelope]; the [catch] only logs and rethrows. *)
Definition slotBody (env : SCPEnvelope) (self : bool) : SM EnvelopeState :=
  let st := statement env in
  let* index := getS mSlotIndex in
  do* dbgAssert (slotIndex st =? index) "slotIndex" in
  let* prev := getS (fun s => isSome (getLatestMessage (nodeID st) s)) in
  let* res :=
    match nominateOf st with
    | Some _ => nominationProcessEnvelope env
    | None => processEnvelope d advance env self
    end in
  do* when (negb prev && bool_decide (res = VALID)) (maybeSetGotVBlocking ln) in
  mret res.

End Reentrant.

(** [Slot::processEnvelope] with the recursion closed: one unit of fuel per
    nomination emitted, [aFuel] for the ballot protocol. *)
Fixpoint slotProcessEnvelope (fuel aFuel : nat) (env : SCPEnvelope) (self : bool)
    : SM EnvelopeState :=
  match fuel with
  | O => fail OutOfFuel
  | S fuel' => slotBody (slotProcessEnvelope fuel' aFuel) (advanceSlot d ln aFuel) env self
  end.

Definition slotNominate (fuel aFuel : nat) (v previousValue : Value) (timedout : bool) : SM bool :=
  nominate (slotProcessEnvelope fuel aFuel) fuel v previousValue timedout.

(** ** Restoring and reporting *)

Definition setNominationStateFromEnvelope (e : SCPEnvelope) : SM unit :=
  let* started := getN mNominationStarted in
  if started then throw "Cannot set state after nomination is started"
  else
    do* recordNomination e in
    let* nom := deref (nominateOf (statement e)) "nominate()" in
    do* modN (fun n => set_accepted (fold_left (fun l v => valueInsert v l) (n_accepted nom) (mAccepted n)) n) in
    do* modN (fun n => set_votes (fold_left (fun l v => valueInsert v l) (n_votes nom) (mVotes n)) n) in
    modN (set_nomLast (Some e)).

(** [Slot::setStateFromEnvelope]. *)
Definition slotSetStateFromEnvelope (e : SCPEnvelope) : SM unit :=
  let* s := get in
  let st := statement e in
  if (nodeID st =? mNodeID ln) && (slotIndex st =? mSlotIndex s) then
    let prev := isSome (getLatestMessage (nodeID st) s) in
    do* match nominateOf st with
        | Some _ => setNominationStateFromEnvelope e
        | None => setStateFromEnvelope e
        end in
    when (negb prev) (maybeSetGotVBlocking ln)
  else mret tt.

Definition nominationGetState (id : NodeID) (selfAlreadyMovedOn : bool) (n : NominationState)
    : exc QuorumInfoNodeState :=
  if id =? mNodeID ln then mret AGREE
  else
    let enoughTimeHasPassed :=
      (NUM_TIMEOUTS_THRESHOLD_FOR_REPORTING <=? mNomTimerExpCount n) || selfAlreadyMovedOn in
    match mapFind (mLatestNominations n) id with
    | None => mret (if enoughTimeHasPassed then MISSING else NO_INFO)
    | Some e =>
        match mNomLastEnvelope n with
        | Some l =>
            if enoughTimeHasPassed then
              match nominateOf (statement e), nominateOf (statement l) with
              | Some other, Some mine =>
                  let '(isSubset, notEq) := isSubsetHelper (n_accepted other) (n_accepted mine) in
                  mret (if isSubset then if notEq then DELAYED else AGREE else DISAGREE)
              | _, _ => exc_throw (NullPointer "nominate()")
              end
            else mret AGREE
        | None => mret AGREE
        end
    end.

(** [Slot::getState]. *)
Definition slotGetState (id : NodeID) (selfAlreadyMovedOn : bool) (s : SlotState)
    : exc QuorumInfoNodeState :=
  match ballotGetState ln id selfAlreadyMovedOn (ballot s) with
  | NO_INFO => nominationGetState id selfAlreadyMovedOn (nomination s)
  | b => mret b
  end.

(** [Slot::processCurrentState]: nominations first, then ballot statements. *)
Definition slotProcessCurrentState {X} (forceSelf : bool) (f : SCPEnvelope -> X -> bool * X)
    (s : SlotState) (x : X) : bool * X :=
  let '(go, x') :=
    processCurrentState ln (mFullyValidated s) forceSelf f (mLatestNominations (nomination s)) x in
  if go then
    processCurrentState ln (mFullyValidated s) forceSelf f (mLatestEnvelopes (ballot s)) x'
  else (false, x').

Definition getEntireCurrentState (s : SlotState) : list SCPEnvelope :=
  snd (slotProcessCurrentState true (fun e res => (true, res ++ [e])) s []).

Definition getLatestMessagesSend (s : SlotState) : list SCPEnvelope :=
  if mFullyValidated s then
    match mNomLastEnvelope (nomination s) with Some e => [e] | None => [] end ++
    match mLastEnvelopeEmit (ballot s) with Some e => [e] | None => [] end
  else [].

End Nomination.

(** ** Inputs of a slot *)

Inductive SlotInput :=
  | InEnvelope (env : SCPEnvelope)
  | InNominate (v previousValue : Value) (timedout : bool)
  | InStopNomination
  | InBumpState (v : Value) (force : bool)
  | InAbandonBallot
  | InBallotTimer.

Definition sourceOf (i : SlotInput) : option SCPEnvelope :=
  match i with InEnvelope env => Some env | _ => None end.

(** What an input makes the slot do; the result of the call is dropped. *)
Definition runInput (d : SCPDriver) (ln : LocalNodeState) (fuel aFuel : nat) (i : SlotInput) : SM unit :=
  let advance := advanceSlot d ln aFuel in
  match i with
  | InEnvelope env => do* slotProcessEnvelope d ln fuel aFuel env false in mret tt
  | InNominate v p t => do* slotNominate d ln fuel aFuel v p t in mret tt
  | InStopNomination => stopNomination
  | InBumpState v force => do* bumpState d ln advance v force in mret tt
  | InAbandonBallot => do* abandonBallot d ln advance 0 in mret tt
  | InBallotTimer => ballotProtocolTimerExpired d ln advance
  end.

(** The envelope is routed to the slot it names. *)
Definition addressed (i : SlotInput) (s : SlotState) : Prop :=
  forall env, i = InEnvelope env -> slotIndex (statement env) = mSlotIndex s.
