(* ===== verification/Frames.v ===== *)
(** * Relations an operation keeps

    The operations of a slot, walked once for any relation between the states
    before and after: a preorder that the assignments to members and the
    recording of messages keep is kept by the whole of the ballot protocol and of
    nomination.  [KeepsBallot] and [KeepsNomination] state what the assignments
    have to keep. *)

From Stdlib Require Import Sorted.
From stdpp Require Import base list gmap strings.
From S2P Require Import Prelude Numeric QuorumSet LocalNode Statement SlotState Ballot BallotInv.
From S2P Require Import Nomination.

Local Open Scope Z_scope.

#[local] Arguments mapFind : simpl never.

(** ** Relations kept by an operation

    A preorder on slots that every primitive an operation is made of keeps, the
    operation keeps.  Nothing is claimed of a run that fails. *)

Definition anyFault : fault -> Prop := fun _ => True.

Section Keeps.
Context (R : SlotState -> SlotState -> Prop) `{HR : !PreOrder R}.

Definition keeps {A} (m : SM A) : Prop := forall s, wp anyFault m (fun _ s' => R s s') s.

Lemma keeps_ret {A} (a : A) : keeps (mret a).
Proof. intros s. apply wp_ret. reflexivity. Qed.

Lemma keeps_fail {A} f : keeps (fail f : SM A).
Proof. by intros s. Qed.

Lemma keeps_bind {A B} (m : SM A) (k : A -> SM B) : keeps m -> (forall a, keeps (k a)) -> keeps (bnd m k).
Proof.
  intros Hm Hk s. apply wp_bind. eapply wp_mono; [apply Hm|]. cbv beta. intros a s1 M1.
  eapply wp_mono; [apply Hk|]. cbv beta. intros b s2 M2. by transitivity s1.
Qed.

Lemma keeps_get : keeps get.
Proof. intros s. apply wp_get. reflexivity. Qed.

Lemma keeps_getB {A} (f : BallotState -> A) : keeps (getB f).
Proof. intros s. apply wp_getB. reflexivity. Qed.

Lemma keeps_getN {A} (f : NominationState -> A) : keeps (getN f).
Proof. intros s. unfold wp, getN. reflexivity. Qed.

Lemma keeps_getS {A} (f : SlotState -> A) : keeps (getS f).
Proof. intros s. apply wp_getS. reflexivity. Qed.

Lemma keeps_assert b what : keeps (dbgAssert b what).
Proof. destruct b; [apply keeps_ret|apply keeps_fail]. Qed.

Lemma keeps_deref {A} (o : option A) what : keeps (deref o what).
Proof. destruct o; [apply keeps_ret|apply keeps_fail]. Qed.

Lemma keeps_when b m : keeps m -> keeps (when b m).
Proof. destruct b; [done|]. intros _. apply keeps_ret. Qed.

Lemma keeps_lift {A} (m : exc A) : keeps (lift m).
Proof. destruct m; [apply keeps_fail|apply keeps_ret]. Qed.

(** Run on from a state the relation already reaches. *)
Lemma keeps_from {A} (m : SM A) s0 s : R s0 s -> keeps m -> wp anyFault m (fun _ s' => R s0 s') s.
Proof.
  intros H Hm. eapply wp_mono; [apply Hm|]. cbv beta. intros ? s' H'. by transitivity s.
Qed.

End Keeps.

Create HintDb keeps.
#[export] Hint Resolve keeps_ret keeps_fail keeps_get keeps_getB keeps_getN keeps_getS
  keeps_assert keeps_deref keeps_lift : keeps.

(** Split an operation into its primitives. *)
Ltac keep :=
  repeat first
    [ progress intros
    | solve [eauto with keeps typeclass_instances]
    | apply keeps_bind; [exact _|..]
    | apply keeps_when; [exact _|..]
    | match goal with
      | |- keeps _ (if ?b then _ else _) => destruct b
      | |- keeps _ (match ?x with _ => _ end) => destruct x
      end ].

(** ** The ballot protocol *)

(** What the relation has to be kept by.  A message is recorded only after it
    passed the sanity check under the index of the slot. *)
Class KeepsBallot (R : SlotState -> SlotState -> Prop) : Prop := {
  kb_preorder :: PreOrder R;
  kb_modB f : (forall b, mLatestEnvelopes (f b) = mLatestEnvelopes b) -> keeps R (modB f);
  kb_notify e : keeps R (notify e);
  kb_fully b : keeps R (modify (set_fullyValidated b));
  kb_vblocking b : keeps R (modify (set_gotVBlocking b));
  kb_stop : keeps R stopNomination;
  kb_record d env self s :
    isStatementSane d (statement env) self = inr true -> slotIndex (statement env) = mSlotIndex s ->
    wp anyFault (recordEnvelope env) (fun _ s' => R s s') s
}.

#[export] Hint Resolve kb_notify kb_fully kb_vblocking kb_stop : keeps.
#[export] Hint Extern 2 (keeps _ (modB _)) => apply kb_modB; done : keeps.

Section Ballot.
Context (R : SlotState -> SlotState -> Prop) `{!KeepsBallot R}.
Context (d : SCPDriver) (ln : LocalNodeState).

Lemma keeps_checkInvariants : keeps R checkInvariants.
Proof. unfold checkInvariants. keep. Qed.
#[local] Hint Resolve keeps_checkInvariants : keeps.

Lemma keeps_bumpToBallot b c : keeps R (bumpToBallot b c).
Proof. unfold bumpToBallot. keep. Qed.
#[local] Hint Resolve keeps_bumpToBallot : keeps.

Lemma keeps_updateCurrentValue b : keeps R (updateCurrentValue b).
Proof. unfold updateCurrentValue. keep. Qed.

Lemma keeps_updateCurrentIfNeeded b : keeps R (updateCurrentIfNeeded b).
Proof. unfold updateCurrentIfNeeded. keep. Qed.
#[local] Hint Resolve keeps_updateCurrentValue keeps_updateCurrentIfNeeded : keeps.

Lemma keeps_checkHeard : keeps R (checkHeardFromQuorum d ln).
Proof. unfold checkHeardFromQuorum, startBallotProtocolTimer, stopBallotProtocolTimer. keep. Qed.

Lemma keeps_maybeSetGotVBlocking : keeps R (maybeSetGotVBlocking ln).
Proof. unfold maybeSetGotVBlocking. keep. Qed.
#[local] Hint Resolve keeps_checkHeard keeps_maybeSetGotVBlocking : keeps.

Section Reentry.
Context (advance : SCPStatement -> SM unit).
Hypothesis keeps_advance : forall st, keeps R (advance st).
#[local] Hint Resolve keeps_advance : keeps.

Lemma keeps_processEnvelope env self : keeps R (processEnvelope d advance env self).
Proof.
  intros s. unfold processEnvelope. apply wp_bind, wp_getS, wp_bind, wp_assert; [done|].
  intros Hi%Z.eqb_eq. apply wp_bind.
  destruct (isStatementSane d (statement env) self) as [f|sane] eqn:Hs; [done|]. apply wp_ret.
  destruct sane; cbn [negb]; [|apply wp_ret; reflexivity].
  apply wp_bind, wp_getB. destruct (isNewerStatementFrom _ _ _); cbn [negb]; [|apply wp_ret; reflexivity].
  assert (forall A (m : SM A) s1, R s s1 -> mSlotIndex s1 = mSlotIndex s -> keeps R m ->
    wp anyFault (do* recordEnvelope env in m) (fun _ s' => R s s') s1) as Hrec.
  { intros A m s1 H1 E1 Hm. apply wp_bind. eapply wp_mono; [apply (kb_record d env self); [done|congruence]|].
    cbv beta. intros _ s2 R2. apply keeps_from; [exact _|by transitivity s1|done]. }
  assert (forall b, R s (set_fullyValidated b s)) as Hf by (intros b; exact (kb_fully b s)).
  destruct (validateValues _ _ _) eqn:Hv; [apply wp_ret; reflexivity|..];
    apply wp_bind, wp_getB; destruct (mPhase _);
    try (destruct (mCommit _) as [c|]; [|done]; apply wp_bind, wp_ret;
         destruct (valueEq _ _); [|apply wp_ret; reflexivity]; apply Hrec; [reflexivity|done|keep]);
    apply wp_bind; rewrite ?bool_decide_eq_true_2, ?bool_decide_eq_false_2 by done; cbn [when];
    [apply wp_modify|apply wp_modify|apply wp_ret|apply wp_ret]; apply Hrec; try done; try reflexivity; keep.
Qed.

#[local] Hint Resolve keeps_processEnvelope : keeps.

Lemma keeps_slotProcessBallot env self : keeps R (slotProcessBallot d ln advance env self).
Proof. unfold slotProcessBallot. keep. Qed.
#[local] Hint Resolve keeps_slotProcessBallot : keeps.

Lemma keeps_emit : keeps R (emitCurrentStateStatement d ln advance).
Proof.
  unfold emitCurrentStateStatement, createStatement, createEnvelope, sendLatestEnvelope, throw. keep.
Qed.
#[local] Hint Resolve keeps_emit : keeps.

Lemma keeps_bumpStateTo v n : keeps R (bumpStateTo d ln advance v n).
Proof. unfold bumpStateTo. keep. Qed.
#[local] Hint Resolve keeps_bumpStateTo : keeps.

Lemma keeps_bumpState v f : keeps R (bumpState d ln advance v f).
Proof. unfold bumpState. keep. Qed.
#[local] Hint Resolve keeps_bumpState : keeps.

Lemma keeps_abandonBallot n : keeps R (abandonBallot d ln advance n).
Proof. unfold abandonBallot. keep. Qed.
#[local] Hint Resolve keeps_abandonBallot : keeps.

Lemma keeps_acceptPrepared l : keeps R (acceptPreparedLoop d ln advance l).
Proof.
  induction l as [|b l IH]; cbn [acceptPreparedLoop]; unfold setAcceptPrepared, setPrepared; keep.
Qed.
#[local] Hint Resolve keeps_acceptPrepared : keeps.

Lemma keeps_attemptBump : keeps R (attemptBump d ln advance).
Proof. unfold attemptBump. keep. Qed.
#[local] Hint Resolve keeps_attemptBump : keeps.

Lemma keeps_bumpLoop fuel : keeps R (bumpLoop d ln advance fuel).
Proof. induction fuel as [|fuel IH]; cbn [bumpLoop]; keep. Qed.
#[local] Hint Resolve keeps_bumpLoop : keeps.

Lemma keeps_advanceBody fuel hint : keeps R (advanceBody d ln advance fuel hint).
Proof.
  unfold advanceBody, attemptAcceptPrepared, attemptConfirmPrepared, attemptAcceptCommit,
    attemptConfirmCommit, setConfirmPrepared, setAcceptCommit, setConfirmCommit, sendLatestEnvelope, throw.
  keep.
Qed.

End Reentry.

Lemma keeps_advanceSlot fuel hint : keeps R (advanceSlot d ln fuel hint).
Proof.
  revert hint. induction fuel as [|fuel IH]; intros hint; cbn [advanceSlot]; [keep|].
  by apply keeps_advanceBody.
Qed.

End Ballot.

(** ** The vote sets of nomination *)

Class KeepsVotes (R : SlotState -> SlotState -> Prop) : Prop := {
  kv_preorder :: PreOrder R;
  kv_modN f : (forall n, mLatestNominations (f n) = mLatestNominations n) -> keeps R (modN f);
  kv_notify e : emitOf e = None -> extOf e = None -> keeps R (notify e)
}.

#[export] Hint Extern 2 (keeps _ (modN _)) => apply kv_modN; done : keeps.
#[export] Hint Extern 3 (keeps _ (notify _)) => apply kv_notify; done : keeps.

Section Votes.
Context (R : SlotState -> SlotState -> Prop) `{!KeepsVotes R}.
Context (d : SCPDriver) (ln : LocalNodeState).

Lemma keeps_getNodePriority id q : keeps R (getNodePriority d ln id q).
Proof. unfold getNodePriority, hashNode. keep. Qed.
#[local] Hint Resolve keeps_getNodePriority : keeps.

Lemma keeps_topLeaders nodes q top l : keeps R (topLeaders d ln nodes q top l).
Proof.
  revert top l. induction nodes as [|n nodes IH]; cbn [topLeaders]; [keep|]. intros top l.
  apply keeps_bind; [exact _|apply keeps_getNodePriority|]. intros w. destruct (top <? w); apply IH.
Qed.
#[local] Hint Resolve keeps_topLeaders : keeps.

Lemma keeps_leadersLoop fuel q n : keeps R (leadersLoop d ln fuel q n).
Proof. induction fuel as [|fuel IH]; cbn [leadersLoop]; keep. Qed.

Lemma keeps_newValueLoop values h v : keeps R (newValueLoop d values h v).
Proof.
  revert h v. induction values as [|x values IH]; cbn [newValueLoop];
    unfold nomValidate, nomExtract, hashValue; keep.
Qed.
#[local] Hint Resolve keeps_newValueLoop : keeps.

Lemma keeps_acceptVotes votes m : keeps R (acceptVotes d ln votes m).
Proof.
  revert m. induction votes as [|x votes IH]; cbn [acceptVotes];
    unfold nomValidate, nomExtract; keep.
Qed.

Lemma keeps_ratifyAccepted acc m : keeps R (ratifyAccepted d ln acc m).
Proof. revert m. induction acc as [|x acc IH]; cbn [ratifyAccepted]; keep. Qed.

Lemma keeps_voteFromLeader n nom : keeps R (voteFromLeader d n nom).
Proof. unfold voteFromLeader, getNewValueFromNomination. keep. Qed.

Lemma keeps_votesFromLeaders ls u : keeps R (votesFromLeaders d ls u).
Proof.
  revert u. induction ls as [|l ls IH]; cbn [votesFromLeaders];
    unfold getNewValueFromNomination; keep.
Qed.

End Votes.

(** ** A whole slot *)

Class KeepsSlot (R : SlotState -> SlotState -> Prop) : Prop := {
  ks_ballot :: KeepsBallot R;
  ks_votes :: KeepsVotes R;
  ks_record env nom s :
    nominateOf (statement env) = Some nom -> isSane nom = true ->
    slotIndex (statement env) = mSlotIndex s ->
    wp anyFault (recordNomination env) (fun _ s' => R s s') s
}.

Section Slot.
Context (R : SlotState -> SlotState -> Prop) `{!KeepsSlot R}.
Context (d : SCPDriver) (ln : LocalNodeState).

Section Reentry.
Context (slotProcess : SCPEnvelope -> bool -> SM EnvelopeState) (aFuel : nat).
Hypothesis keeps_slotProcess : forall env self, keeps R (slotProcess env self).
#[local] Hint Resolve keeps_slotProcess keeps_bumpState keeps_advanceSlot keeps_acceptVotes
  keeps_ratifyAccepted keeps_voteFromLeader keeps_votesFromLeaders keeps_leadersLoop
  keeps_processEnvelope keeps_maybeSetGotVBlocking : keeps.

Lemma keeps_emitNomination : keeps R (emitNomination d ln slotProcess).
Proof. unfold emitNomination, createEnvelope, throw. keep. Qed.
#[local] Hint Resolve keeps_emitNomination : keeps.

Lemma keeps_nominationProcess env s :
  slotIndex (statement env) = mSlotIndex s ->
  wp anyFault (nominationProcessEnvelope d ln slotProcess (advanceSlot d ln aFuel) env)
    (fun _ s' => R s s') s.
Proof.
  intros Hi. unfold nominationProcessEnvelope.
  destruct (nominateOf (statement env)) as [nom|] eqn:Hn; [|done]. apply wp_bind, wp_ret, wp_bind.
  change (wp anyFault (getN ?f) ?Q s) with (Q (f (nomination s)) s). cbv beta.
  destruct (isNewerNominationFrom _ _ _); cbn [negb]; [|apply wp_ret; reflexivity].
  destruct (isSane nom) eqn:Hs; cbn [negb]; [|apply wp_ret; reflexivity].
  apply wp_bind. eapply wp_mono; [by eapply ks_record|]. cbv beta. intros _ s1 R1.
  apply keeps_from; [exact _|done|]. keep.
Qed.

Lemma keeps_nominate fuel v p t : keeps R (nominate d ln slotProcess fuel v p t).
Proof. unfold nominate, updateRoundLeaders. keep. Qed.

Lemma keeps_slotBody env self :
  keeps R (slotBody d ln slotProcess (advanceSlot d ln aFuel) env self).
Proof.
  intros s. unfold slotBody. apply wp_bind, wp_getS, wp_bind, wp_assert; [done|]. intros Hi%Z.eqb_eq.
  apply wp_bind, wp_getS, wp_bind.
  eapply wp_mono with (Q := fun _ s' => R s s').
  { destruct (nominateOf (statement env)); [by apply keeps_nominationProcess|].
    apply keeps_processEnvelope; [exact _|]. intros st. apply keeps_advanceSlot; exact _. }
  cbv beta. intros r s1 R1. apply keeps_from; [exact _|done|]. keep.
Qed.

End Reentry.

Lemma keeps_slotProcessEnvelope fuel aFuel env self :
  keeps R (slotProcessEnvelope d ln fuel aFuel env self).
Proof.
  revert env self. induction fuel as [|fuel IH]; intros env self; cbn [slotProcessEnvelope]; [keep|].
  by apply keeps_slotBody.
Qed.

Lemma keeps_runInput fuel aFuel i : keeps R (runInput d ln fuel aFuel i).
Proof.
  assert (forall st, keeps R (advanceSlot d ln aFuel st)) by (intros; apply keeps_advanceSlot; exact _).
  pose proof keeps_slotProcessEnvelope. pose proof (keeps_bumpState R d ln). pose proof (keeps_abandonBallot R d ln).
  pose proof (keeps_nominate (slotProcessEnvelope d ln fuel aFuel)).
  destruct i; cbn [runInput]; unfold ballotProtocolTimerExpired, slotNominate; keep.
Qed.

End Slot.
