(* ===== verification/NoStray.v ===== *)
(** * No statement is out of place

    Each protocol of a slot takes statements of its own kind: the functions of
    [BallotProtocol] over statements abort on a nomination, and those of
    [NominationProtocol] on a ballot statement.  [Placed] is what keeps them from doing
    so; the operations of a slot, walked once, keep it and never end in one of these
    aborts. *)

From stdpp Require Import base list gmap strings.
From S2P Require Import Prelude Numeric QuorumSet LocalNode Statement SlotState Ballot BallotInv.
From S2P Require Import Nomination.

Local Open Scope Z_scope.

#[local] Arguments mapFind : simpl never.

(** The aborts of the functions over statements: [dbgAbort] in a switch over the
    kind of ballot statement, and [pledges.nominate()] of another union arm. *)
Definition stray (f : fault) : Prop := f = notABallot \/ f = NullPointer "nominate()".

Definition notStray (f : fault) : Prop := ~ stray f.

Definition isNomination (st : SCPStatement) : Prop := exists nom, nominateOf st = Some nom.

(** Every message is with the protocol it belongs to. *)
Definition Placed (s : SlotState) : Prop :=
  allBallots (mLatestEnvelopes (ballot s)) /\
  (forall n e, mapFind (mLatestNominations (nomination s)) n = Some e -> isNomination (statement e)) /\
  (forall e, mNomLastEnvelope (nomination s) = Some e -> isNomination (statement e)).

Definition tidy {A} (m : SM A) : Prop := forall s, Placed s -> wp notStray m (fun _ s' => Placed s') s.

(** ** The primitives *)

Lemma tidy_ret {A} (a : A) : tidy (mret a).
Proof. by intros s H. Qed.

Lemma tidy_fail {A} f : notStray f -> tidy (fail f : SM A).
Proof. by intros Hf s H. Qed.

Lemma tidy_bind {A B} (m : SM A) (k : A -> SM B) : tidy m -> (forall a, tidy (k a)) -> tidy (bnd m k).
Proof.
  intros Hm Hk s H. apply wp_bind. eapply wp_mono; [by apply Hm|]. cbv beta. intros a s1 H1. by apply Hk.
Qed.

(** A read gives what is known of the members read. *)
Lemma tidy_get {B} (k : SlotState -> SM B) : (forall s, Placed s -> tidy (k s)) -> tidy (bnd get k).
Proof. intros Hk s H. apply wp_bind, wp_get. by apply Hk. Qed.

Lemma tidy_getB {A B} (f : BallotState -> A) (k : A -> SM B) :
  (forall s, allBallots (mLatestEnvelopes s) -> tidy (k (f s))) -> tidy (bnd (getB f) k).
Proof. intros Hk s H. apply wp_bind, wp_getB, Hk; [apply H|done]. Qed.

Lemma tidy_getN {A B} (f : NominationState -> A) (k : A -> SM B) :
  (forall s, Placed s -> tidy (k (f (nomination s)))) -> tidy (bnd (getN f) k).
Proof. intros Hk s H. by apply (Hk s H s H). Qed.

Lemma tidy_getS {A B} (f : SlotState -> A) (k : A -> SM B) : (forall a, tidy (k a)) -> tidy (bnd (getS f) k).
Proof. intros Hk s H. apply wp_bind, wp_getS. by apply Hk. Qed.

Lemma tidy_assert b what : notStray (AssertFailure what) -> tidy (dbgAssert b what).
Proof. intros Hf. destruct b; [apply tidy_ret|by apply tidy_fail]. Qed.

Lemma tidy_deref {A} (o : option A) what : notStray (NullPointer what) -> tidy (deref o what).
Proof. intros Hf. destruct o; [apply tidy_ret|by apply tidy_fail]. Qed.

Lemma tidy_when b m : tidy m -> tidy (when b m).
Proof. destruct b; [done|]. intros _. apply tidy_ret. Qed.

Lemma tidy_lift {A} (m : exc A) : (exists a, m = inr a) -> tidy (lift m).
Proof. intros [a ->]. apply tidy_ret. Qed.

(** Assignments to members other than the message maps. *)
Lemma tidy_modB f : (forall b, mLatestEnvelopes (f b) = mLatestEnvelopes b) -> tidy (modB f).
Proof. intros Hf s (B & N & L). split; [|done]. cbn. by rewrite Hf. Qed.

Lemma tidy_modN f :
  (forall n, mLatestNominations (f n) = mLatestNominations n) ->
  (forall n, mNomLastEnvelope (f n) = mNomLastEnvelope n) -> tidy (modN f).
Proof.
  intros Hf Hl s (B & N & L). split; [done|]. unfold modN, modify, onNomination. cbn. by rewrite Hf, Hl.
Qed.

Lemma tidy_modify f :
  (forall s, ballot (f s) = ballot s) -> (forall s, nomination (f s) = nomination s) -> tidy (modify f).
Proof. intros Hb Hn s H. apply wp_modify. unfold Placed. by rewrite Hb, Hn. Qed.

Lemma tidy_notify e : tidy (notify e).
Proof. by apply tidy_modify. Qed.

(** The functions over statements, where the statements are of their kind. *)
Lemma hasVBlocking_total ln envs n :
  allBallots envs -> exists b, hasVBlockingSubsetStrictlyAheadOf ln envs n = inr b.
Proof. intros H. rewrite (hasVBlocking_eq ln) by done. by eexists. Qed.

Lemma countersAhead_total envs n : allBallots envs -> exists l, countersAhead envs n = inr l.
Proof. intros H. destruct (countersAhead_gt envs n H) as (l & Hl & _). by exists l. Qed.

Lemma firstNotAhead_total ln envs l : allBallots envs -> exists o, firstNotAhead ln envs l = inr o.
Proof. intros H. rewrite (firstNotAhead_eq ln) by done. by eexists. Qed.

Lemma getNodeWeight_notStray id q f : getNodeWeight id q = inl f -> notStray f.
Proof.
  assert (forall a b c f', computeWeight a b c = inl f' -> notStray f') as Hc.
  { intros a b c f'. unfold computeWeight, bigDivideUnsigned, releaseAssert, assertOrThrow.
    repeat (case_match; cbn); intros E; simplify_eq; by intros [|]. }
  revert f. induction q as [t v inner IH] using qset_ind'; intros f. cbn [getNodeWeight].
  destruct (existsb _ v); [apply Hc|]. generalize (u64 (Z.of_nat (length inner) + Z.of_nat (length v))).
  intros n. induction IH as [|q l Hq _ IHl]; cbn; [done|].
  destruct (getNodeWeight id q) as [g|w]; cbn; [intros [= <-]; by apply Hq|].
  destruct (w =? 0); [apply IHl|apply Hc].
Qed.

Lemma tidy_getNodeWeight id q : tidy (lift (getNodeWeight id q)).
Proof.
  destruct (getNodeWeight id q) as [f|w] eqn:E; [|apply tidy_ret].
  apply tidy_fail. by eapply getNodeWeight_notStray.
Qed.

Create HintDb tidy.
#[export] Hint Resolve tidy_ret tidy_notify tidy_getNodeWeight getPrepareCandidates_total
  getCommitBoundaries_total hasVBlocking_total countersAhead_total firstNotAhead_total : tidy.
#[export] Hint Extern 1 (notStray _) => solve [intros [|]; discriminate] : tidy.
#[export] Hint Extern 1 (tidy (modB _)) => apply tidy_modB; done : tidy.
#[export] Hint Extern 1 (tidy (modN _)) => apply tidy_modN; done : tidy.
#[export] Hint Extern 1 (tidy (modify _)) => apply tidy_modify; done : tidy.
#[export] Hint Extern 1 (tidy (dbgAssert _ _)) => apply tidy_assert; intros [|]; discriminate : tidy.
#[export] Hint Extern 1 (tidy (deref _ _)) => apply tidy_deref; intros [|]; discriminate : tidy.
#[export] Hint Extern 1 (tidy (fail _)) => apply tidy_fail; intros [|]; discriminate : tidy.
#[export] Hint Extern 2 (tidy (lift _)) => apply tidy_lift; eauto with tidy : tidy.

Ltac tidying :=
  repeat first
    [ progress intros
    | solve [eauto with tidy]
    | match goal with
      | |- tidy (bnd (getB _) _) => apply tidy_getB
      | |- tidy (bnd (getN _) _) => apply tidy_getN
      | |- tidy (bnd get _) => apply tidy_get
      | |- tidy (bnd (getS _) _) => apply tidy_getS
      | |- tidy (bnd _ _) => apply tidy_bind
      | |- tidy (when _ _) => apply tidy_when
      | |- tidy (if ?b then _ else _) => destruct b
      | |- tidy (match ?x with _ => _ end) => destruct x eqn:?
      end ].

(** ** The ballot protocol *)

Section Ballot.
Context (d : SCPDriver) (ln : LocalNodeState).

Lemma tidy_checkInvariants : tidy checkInvariants.
Proof. unfold checkInvariants. tidying. Qed.
#[local] Hint Resolve tidy_checkInvariants : tidy.

Lemma tidy_bumpToBallot b c : tidy (bumpToBallot b c).
Proof. unfold bumpToBallot. tidying. Qed.
#[local] Hint Resolve tidy_bumpToBallot : tidy.

Lemma tidy_updateCurrentValue b : tidy (updateCurrentValue b).
Proof. unfold updateCurrentValue. tidying. Qed.

Lemma tidy_updateCurrentIfNeeded b : tidy (updateCurrentIfNeeded b).
Proof. unfold updateCurrentIfNeeded. tidying. Qed.
#[local] Hint Resolve tidy_updateCurrentValue tidy_updateCurrentIfNeeded : tidy.

Lemma tidy_checkHeard : tidy (checkHeardFromQuorum d ln).
Proof. unfold checkHeardFromQuorum, startBallotProtocolTimer, stopBallotProtocolTimer. tidying. Qed.

Lemma tidy_maybeSetGotVBlocking : tidy (maybeSetGotVBlocking ln).
Proof. unfold maybeSetGotVBlocking. tidying. Qed.
#[local] Hint Resolve tidy_checkHeard tidy_maybeSetGotVBlocking : tidy.

Lemma tidy_record env : isBallotStatement (statement env) = true -> tidy (recordEnvelope env).
Proof.
  intros Hb s (B & N & L). split; [|done]. by apply allBallots_insert.
Qed.
#[local] Hint Resolve tidy_record : tidy.

Section Reentry.
Context (advance : SCPStatement -> SM unit).
Hypothesis tidy_advance : forall st, isBallotStatement st = true -> tidy (advance st).
#[local] Hint Resolve tidy_advance : tidy.

Lemma tidy_processEnvelope env self :
  isBallotStatement (statement env) = true -> tidy (processEnvelope d advance env self).
Proof.
  intros Hb. pose proof (isStatementSane_total d (statement env) self Hb).
  unfold processEnvelope. tidying.
Qed.
#[local] Hint Resolve tidy_processEnvelope : tidy.

Lemma tidy_slotProcessBallot env self :
  isBallotStatement (statement env) = true -> tidy (slotProcessBallot d ln advance env self).
Proof. intros Hb. unfold slotProcessBallot. tidying. Qed.
#[local] Hint Resolve tidy_slotProcessBallot : tidy.

(** The statements a slot makes for the ballot protocol are ballot statements. *)
Lemma createStatement_ballot ph s :
  Placed s -> wp notStray (createStatement ln ph) (fun st s' => Placed s' /\ isBallotStatement st = true) s.
Proof.
  intros H. unfold createStatement. apply wp_bind. eapply wp_mono; [by apply tidy_checkInvariants|].
  cbv beta. intros _ s1 H1. apply wp_bind, wp_getB.
  destruct ph; repeat (apply wp_bind, wp_deref; [by intros _ [|]|intros ? _]); by apply wp_ret.
Qed.

Lemma tidy_createEnvelope {B} st (k : SCPEnvelope -> SM B) :
  (forall env, pledges (statement env) = pledges st -> tidy (k env)) -> tidy (bnd (createEnvelope d ln st) k).
Proof. intros Hk s H. by apply Hk. Qed.

Lemma tidy_emit : tidy (emitCurrentStateStatement d ln advance).
Proof.
  unfold emitCurrentStateStatement. apply tidy_getB. intros b _ s H.
  apply wp_bind. eapply wp_mono; [by apply createStatement_ballot|]. cbv beta. intros st s1 [H1 Hst].
  revert s1 H1. match goal with |- forall s1, Placed s1 -> wp _ ?m _ s1 => change (tidy m) end.
  apply tidy_createEnvelope. intros env He.
  assert (isBallotStatement (statement env) = true) by (unfold isBallotStatement in *; by rewrite He).
  unfold sendLatestEnvelope, throw. tidying.
Qed.
#[local] Hint Resolve tidy_emit : tidy.

Lemma tidy_bumpStateTo v n : tidy (bumpStateTo d ln advance v n).
Proof. unfold bumpStateTo. tidying. Qed.
#[local] Hint Resolve tidy_bumpStateTo : tidy.

Lemma tidy_bumpState v f : tidy (bumpState d ln advance v f).
Proof. unfold bumpState. tidying. Qed.
#[local] Hint Resolve tidy_bumpState : tidy.

Lemma tidy_abandonBallot n : tidy (abandonBallot d ln advance n).
Proof. unfold abandonBallot. tidying. Qed.
#[local] Hint Resolve tidy_abandonBallot : tidy.

Lemma tidy_acceptPrepared l : tidy (acceptPreparedLoop d ln advance l).
Proof. induction l as [|b l IH]; cbn [acceptPreparedLoop]; unfold setAcceptPrepared, setPrepared; tidying. Qed.
#[local] Hint Resolve tidy_acceptPrepared : tidy.

Lemma tidy_attemptBump : tidy (attemptBump d ln advance).
Proof. unfold attemptBump. tidying. Qed.
#[local] Hint Resolve tidy_attemptBump : tidy.

Lemma tidy_bumpLoop fuel : tidy (bumpLoop d ln advance fuel).
Proof. induction fuel as [|fuel IH]; cbn [bumpLoop]; tidying. Qed.
#[local] Hint Resolve tidy_bumpLoop : tidy.

Lemma tidy_advanceBody fuel hint :
  isBallotStatement hint = true -> tidy (advanceBody d ln advance fuel hint).
Proof.
  intros Hk. destruct (hintedCommit_total hint Hk).
  unfold advanceBody, attemptAcceptPrepared, attemptConfirmPrepared, attemptAcceptCommit,
    attemptConfirmCommit, setConfirmPrepared, setAcceptCommit, setConfirmCommit, stopNomination,
    sendLatestEnvelope, throw.
  tidying.
Qed.

End Reentry.

Lemma tidy_advanceSlot fuel hint : isBallotStatement hint = true -> tidy (advanceSlot d ln fuel hint).
Proof.
  revert hint. induction fuel as [|fuel IH]; intros hint Hk; cbn [advanceSlot]; [tidying|].
  by apply tidy_advanceBody.
Qed.

(** ** Nomination *)

Lemma tidy_getNodePriority id q : tidy (getNodePriority d ln id q).
Proof. unfold getNodePriority, hashNode. tidying. Qed.
#[local] Hint Resolve tidy_getNodePriority : tidy.

Lemma tidy_topLeaders nodes q top l : tidy (topLeaders d ln nodes q top l).
Proof.
  revert top l. induction nodes as [|n nodes IH]; cbn [topLeaders]; [tidying|]. intros top l.
  apply tidy_bind; [apply tidy_getNodePriority|]. intros w. destruct (top <? w); apply IH.
Qed.
#[local] Hint Resolve tidy_topLeaders : tidy.

Lemma tidy_leadersLoop fuel q n : tidy (leadersLoop d ln fuel q n).
Proof. induction fuel as [|fuel IH]; cbn [leadersLoop]; tidying. Qed.
#[local] Hint Resolve tidy_leadersLoop : tidy.

Lemma tidy_newValueLoop values h v : tidy (newValueLoop d values h v).
Proof.
  revert h v. induction values as [|x values IH]; cbn [newValueLoop];
    unfold nomValidate, nomExtract, hashValue; tidying.
Qed.
#[local] Hint Resolve tidy_newValueLoop : tidy.

Lemma tidy_acceptVotes votes m : tidy (acceptVotes d ln votes m).
Proof. revert m. induction votes as [|x votes IH]; cbn [acceptVotes]; unfold nomValidate, nomExtract; tidying. Qed.

Lemma tidy_ratifyAccepted acc m : tidy (ratifyAccepted d ln acc m).
Proof. revert m. induction acc as [|x acc IH]; cbn [ratifyAccepted]; tidying. Qed.

Lemma tidy_voteFromLeader n nom : tidy (voteFromLeader d n nom).
Proof. unfold voteFromLeader, getNewValueFromNomination. tidying. Qed.

Lemma tidy_nominateOf {B} st what (k : SCPNomination -> SM B) :
  isNomination st -> (forall nom, tidy (k nom)) -> tidy (bnd (deref (nominateOf st) what) k).
Proof. intros [nom ->] Hk. apply tidy_bind; [apply tidy_ret|done]. Qed.

Lemma tidy_votesFromLeaders ls u : tidy (votesFromLeaders d ls u).
Proof.
  revert u. induction ls as [|l ls IH]; intros u; cbn [votesFromLeaders]; [tidying|].
  apply tidy_getN. intros s (_ & N & _). destruct (mapFind _ l) as [e|] eqn:E; [|apply IH].
  apply tidy_nominateOf; [by eapply N|]. unfold getNewValueFromNomination. tidying.
Qed.
#[local] Hint Resolve tidy_acceptVotes tidy_ratifyAccepted tidy_voteFromLeader tidy_votesFromLeaders : tidy.

Section Slot.
Context (slotProcess : SCPEnvelope -> bool -> SM EnvelopeState) (aFuel : nat).
Hypothesis tidy_slotProcess : forall env self, tidy (slotProcess env self).
#[local] Hint Resolve tidy_slotProcess tidy_advanceSlot tidy_bumpState tidy_abandonBallot : tidy.

Lemma tidy_nomLast e : isNomination (statement e) -> tidy (modN (set_nomLast (Some e))).
Proof. intros He s (B & N & L). split; [done|]. split; [done|]. by intros e' [= <-]. Qed.

#[local] Hint Resolve tidy_nomLast : tidy.

Lemma tidy_emitNomination : tidy (emitNomination d ln slotProcess).
Proof.
  unfold emitNomination, throw. apply tidy_getN. intros s0 _. apply tidy_createEnvelope. intros env He.
  assert (isNomination (statement env)) by (unfold isNomination, nominateOf; rewrite He; by eexists).
  apply tidy_bind; [done|]. intros []; [tidying|]. apply tidy_getN. intros s1 (_ & _ & L).
  apply tidy_bind; [|tidying]. destruct (mNomLastEnvelope _) as [l|] eqn:E; [|tidying].
  apply tidy_nominateOf; [by apply L|tidying].
Qed.
#[local] Hint Resolve tidy_emitNomination : tidy.

Lemma tidy_recordNomination env : isNomination (statement env) -> tidy (recordNomination env).
Proof.
  intros He s (B & N & L). split; [done|]. split; [|done]. cbn. intros n e.
  destruct (decide (n = nodeID (statement env))) as [->|Hne].
  - rewrite mapFind_mapInsert. by intros [= <-].
  - rewrite mapFind_mapInsert_ne by done. apply N.
Qed.

#[local] Hint Resolve tidy_recordNomination : tidy.

Lemma tidy_nominationProcess env :
  isNomination (statement env) ->
  tidy (nominationProcessEnvelope d ln slotProcess (advanceSlot d ln aFuel) env).
Proof.
  intros He. unfold nominationProcessEnvelope. apply tidy_nominateOf; [done|]. intros nom. tidying.
Qed.

Lemma tidy_nominate fuel v p t : tidy (nominate d ln slotProcess fuel v p t).
Proof. unfold nominate, updateRoundLeaders. tidying. Qed.

Lemma tidy_slotBody env self : tidy (slotBody d ln slotProcess (advanceSlot d ln aFuel) env self).
Proof.
  unfold slotBody. apply tidy_getS. intros index. apply tidy_bind; [tidying|]. intros _.
  apply tidy_getS. intros prev. apply tidy_bind; [|tidying].
  destruct (nominateOf (statement env)) eqn:E; [apply tidy_nominationProcess; by eexists|].
  apply tidy_processEnvelope; [by intros; apply tidy_advanceSlot|].
  revert E. unfold nominateOf, isBallotStatement. by destruct (pledges (statement env)).
Qed.

End Slot.

Lemma tidy_slotProcessEnvelope fuel aFuel env self : tidy (slotProcessEnvelope d ln fuel aFuel env self).
Proof.
  revert env self. induction fuel as [|fuel IH]; intros env self; cbn [slotProcessEnvelope]; [tidying|].
  by apply tidy_slotBody.
Qed.

Lemma tidy_runInput fuel aFuel i : tidy (runInput d ln fuel aFuel i).
Proof.
  assert (forall st, isBallotStatement st = true -> tidy (advanceSlot d ln aFuel st)) as Ha
    by (intros; by apply tidy_advanceSlot).
  pose proof tidy_slotProcessEnvelope. pose proof (tidy_bumpState _ Ha). pose proof (tidy_abandonBallot _ Ha).
  pose proof (tidy_nominate (slotProcessEnvelope d ln fuel aFuel)).
  destruct i; cbn [runInput]; unfold ballotProtocolTimerExpired, slotNominate, stopNomination; tidying.
Qed.

End Ballot.
