(* ===== verification/SlotInv.v ===== *)
(** * A slot under its entry points

    Every entry point of [src/scp/Slot.cpp] keeps the invariant of the ballot
    protocol: nomination only touches its own members and reaches the ballot
    protocol through [bumpState]. *)

From Stdlib Require Import Sorted.
From stdpp Require Import base list gmap strings.
From S2P Require Import Prelude Numeric QuorumSet LocalNode Statement SlotState Ballot BallotInv.
From S2P Require Import Nomination Frames.

Local Open Scope Z_scope.

#[local] Arguments mapFind : simpl never.

(** ** Operations that leave the ballot protocol alone *)

Definition Mute (s s' : SlotState) : Prop := Quiet s s' /\ ballot s' = ballot s.

#[export] Instance Mute_preorder : PreOrder Mute.
Proof.
  split.
  - intros s. split; [apply Quiet_refl|done].
  - intros s1 s2 s3 [Q1 B1] [Q2 B2]. split; [by eapply Quiet_trans|congruence].
Qed.

#[export] Instance Mute_votes : KeepsVotes Mute.
Proof.
  split; [exact _|..].
  - intros f _ s. by split.
  - intros e H G s. split; [by apply Quiet_notify|done].
Qed.

Lemma mute_record st : keeps Mute (recordStatement st).
Proof. intros s. by split. Qed.
#[export] Hint Resolve mute_record : keeps.

Lemma mute_recordNomination env : keeps Mute (recordNomination env).
Proof. intros s. by split. Qed.

(** ** Nomination *)

Lemma any_allowed f : allowed f -> anyFault f.
Proof. done. Qed.

Section Slot.
Context (d : SCPDriver) (ln : LocalNodeState).

Lemma Mute_post s s' : Mute s s' -> Inv ln 0 s -> Post d ln 0 s s'.
Proof. intros [Q B]. apply Quiet_post; [done|by rewrite B]. Qed.

Lemma mute_call {A B} (m : SM A) (k : A -> SM B) s0 s :
  keeps Mute m -> Post d ln 0 s0 s ->
  (forall a s', Post d ln 0 s0 s' -> wp anyFault (k a) (fun _ s2 => Post d ln 0 s0 s2) s') ->
  wp anyFault (bnd m k) (fun _ s2 => Post d ln 0 s0 s2) s.
Proof.
  intros Hm P Hk. apply wp_bind. eapply wp_mono; [apply Hm|]. cbv beta. intros a s' M.
  apply Hk. eapply Post_trans; [done|]. apply Mute_post; [done|apply P].
Qed.

Lemma call_post {A B} (m : SM A) (k : A -> SM B) s0 s :
  (Inv ln 0 s -> wp anyFault m (fun _ s' => Post d ln 0 s s') s) -> Post d ln 0 s0 s ->
  (forall a s', Post d ln 0 s0 s' -> wp anyFault (k a) (fun _ s2 => Post d ln 0 s0 s2) s') ->
  wp anyFault (bnd m k) (fun _ s2 => Post d ln 0 s0 s2) s.
Proof.
  intros Hm P Hk. apply wp_bind. eapply wp_mono; [apply Hm, P|]. cbv beta. intros a s' P'.
  apply Hk. by eapply Post_trans.
Qed.

Lemma advance_any aFuel st s :
  isBallotStatement st = true ->
  Inv ln 0 s -> wp anyFault (advanceSlot d ln aFuel st) (fun _ s' => Post d ln 0 s s') s.
Proof. intros Hk HI. apply advanceSlot_spec; [apply any_allowed|done|done|done|by right]. Qed.

Lemma bumpState_any aFuel v force s :
  Inv ln 0 s ->
  wp anyFault (bumpState d ln (advanceSlot d ln aFuel) v force) (fun _ s' => Post d ln 0 s s') s.
Proof.
  intros HI. eapply wp_mono.
  - apply bumpState_spec with (L := 0); [apply any_allowed|apply advance_any|done|by right].
  - cbv beta. intros [] s'; [|intros ->; by apply Post_refl].
    intros [HE _]. by apply Emitted_post.
Qed.

Section Reentrant.
Context (slotProcess : SCPEnvelope -> bool -> SM EnvelopeState) (aFuel : nat).
Hypothesis slotProcess_post : forall env s,
  Inv ln 0 s -> slotIndex (statement env) = mSlotIndex s -> nominateOf (statement env) <> None ->
  wp anyFault (slotProcess env true) (fun _ s' => Post d ln 0 s s') s.

Lemma emitNomination_post s :
  Inv ln 0 s -> wp anyFault (emitNomination d ln slotProcess) (fun _ s' => Post d ln 0 s s') s.
Proof.
  intros HI. unfold emitNomination, createEnvelope. do 3 (apply wp_bind; try done).
  apply wp_bind. eapply wp_mono; [by apply slotProcess_post|]. cbv beta. intros [] s' P; [done|].
  apply mute_call; [keep|done|]. intros last s1 P1.
  apply mute_call; [keep|done|]. intros newer s2 P2.
  eapply wp_mono; [|cbv beta; intros ? s3 M3; eapply Post_trans; [exact P2|apply Mute_post; [exact M3|apply P2]]].
  keep.
Qed.

Lemma nominationProcess_post env s :
  Inv ln 0 s ->
  wp anyFault (nominationProcessEnvelope d ln slotProcess (advanceSlot d ln aFuel) env)
    (fun _ s' => Post d ln 0 s s') s.
Proof.
  intros HI. unfold nominationProcessEnvelope.
  apply mute_call; [keep|by apply Post_refl|]. intros nom s1 P1.
  apply mute_call; [keep|done|]. intros newer s2 P2. destruct (negb newer); [done|].
  destruct (negb (isSane nom)); [done|].
  apply mute_call; [apply mute_recordNomination|done|]. intros _ s3 P3.
  apply mute_call; [keep|done|]. intros started s4 P4.
  apply call_post; [|done|done]. intros I4. destruct started; [|by apply Post_refl]. cbn [when].
  apply mute_call; [apply keeps_acceptVotes; exact _|by apply Post_refl|]. intros m1 s5 P5.
  apply mute_call; [keep|done|]. intros accepted s6 P6.
  apply mute_call; [apply keeps_ratifyAccepted; exact _|done|]. intros nc s7 P7.
  apply mute_call; [apply keeps_voteFromLeader; exact _|done|]. intros m2 s8 P8.
  apply call_post; [|done|].
  { intros I8. destruct (m1 || m2); [by apply emitNomination_post|by apply Post_refl]. }
  intros _ s9 P9. destruct nc; [|done]. cbn [when].
  apply mute_call; [keep|done|]. intros sx s10 P10.
  apply mute_call; [keep|done|]. intros _ s11 P11.
  apply mute_call; [keep|done|]. intros v s12 P12.
  apply mute_call; [keep|done|]. intros _ s13 P13.
  apply call_post; [apply bumpState_any|done|]. intros b s14 P14. done.
Qed.

Lemma nominate_post fuel v prev timedout s :
  Inv ln 0 s ->
  wp anyFault (nominate d ln slotProcess fuel v prev timedout) (fun _ s' => Post d ln 0 s s') s.
Proof.
  intros HI. unfold nominate, updateRoundLeaders.
  apply mute_call; [keep|by apply Post_refl|]. intros _ s1 P1.
  apply mute_call; [keep|done|]. intros started s2 P2. destruct (timedout && negb started); [done|].
  do 3 (apply mute_call; [keep|done|]; clear P2; intros _ ? P2).
  apply mute_call; [apply keeps_leadersLoop; exact _|done|]. intros _ s3 P3.
  apply mute_call; [keep|done|]. intros n s4 P4.
  apply mute_call; [keep|done|]. intros u1 s5 P5.
  apply mute_call; [apply keeps_votesFromLeaders; exact _|done|]. intros updated s6 P6.
  apply mute_call; [keep|done|]. intros _ s7 P7.
  apply call_post; [|done|done]. intros I7.
  destruct updated; [by apply emitNomination_post|by apply Post_refl].
Qed.

Lemma slotBody_nomination env self s :
  Inv ln 0 s -> nominateOf (statement env) <> None ->
  wp anyFault (slotBody d ln slotProcess (advanceSlot d ln aFuel) env self)
    (fun _ s' => Post d ln 0 s s') s.
Proof.
  intros HI Hn. unfold slotBody.
  apply mute_call; [keep|by apply Post_refl|]. intros idx s1 P1.
  apply mute_call; [keep|done|]. intros _ s2 P2.
  apply mute_call; [keep|done|]. intros prev s3 P3.
  apply call_post; [|done|].
  { intros I3. destruct (nominateOf (statement env)); [|done]. by apply nominationProcess_post. }
  intros r s4 P4. apply call_post; [|done|done]. intros I4.
  destruct (negb prev && _); [|by apply Post_refl]. cbn [when].
  eapply wp_mono; [apply maybeSetGotVBlocking_spec|]. cbv beta. intros ? s5 M5. by apply Mute_post.
Qed.

End Reentrant.

Lemma slotProcess_nomination fuel aFuel env self s :
  Inv ln 0 s -> nominateOf (statement env) <> None ->
  wp anyFault (slotProcessEnvelope d ln fuel aFuel env self) (fun _ s' => Post d ln 0 s s') s.
Proof.
  revert env self s. induction fuel as [|fuel IH]; intros env self s HI Hn; [done|].
  cbn [slotProcessEnvelope]. apply slotBody_nomination; [|done|done]. auto.
Qed.

End Slot.

(** ** Ballot messages from other nodes *)

Lemma slotBody_ballot d ln sp adv env self :
  nominateOf (statement env) = None ->
  slotBody d ln sp adv env self = slotProcessBallot d ln adv env self.
Proof. intros H. unfold slotBody, slotProcessBallot. by rewrite H. Qed.

(** How a slot moves when it handles an input; [src] is the envelope it was
    given, if any. *)
Record Evolves (d : SCPDriver) (ln : LocalNodeState) (src : option SCPEnvelope) (s s' : SlotState)
    : Prop := {
  ev_adv : Adv (ballot s) (ballot s');
  ev_index : mSlotIndex s' = mSlotIndex s;
  ev_latest : forall n, replaced (mapFind (mLatestEnvelopes (ballot s)) n)
                                 (mapFind (mLatestEnvelopes (ballot s')) n);
  ev_from : forall n e, n <> mNodeID ln -> mapFind (mLatestEnvelopes (ballot s')) n = Some e ->
    mapFind (mLatestEnvelopes (ballot s)) n = Some e \/ (src = Some e /\ nodeID (statement e) = n);
  ev_last : replaced (mLastEnvelope (ballot s)) (mLastEnvelope (ballot s'));
  ev_ext : mPhase (ballot s) <> SCP_PHASE_EXTERNALIZE -> mPhase (ballot s') = SCP_PHASE_EXTERNALIZE ->
    Evidence d ln s' /\ exists v, commitValue (ballot s') = Some v /\ exts s' = exts s ++ [v]
}.

Lemma Step_evolves d ln src s s' : Step d ln s s' -> Evolves d ln src s s'.
Proof.
  intros S. split; try apply S.
  - intros n. destruct (decide (n = mNodeID ln)) as [->|Hn]; [apply S|].
    rewrite (st_others _ _ _ _ S n Hn). apply replaced_refl.
  - intros n e Hn. rewrite (st_others _ _ _ _ S n Hn). by left.
Qed.

Lemma Recorded_evolves d ln env s s1 s' :
  Recorded env s s1 -> Step d ln s1 s' -> Evolves d ln (Some env) s s'.
Proof.
  intros R S. destruct R as [Ri Re Rb Rn Rk]. split.
  - eapply Adv_trans; [|apply S]. apply Adv_same. by rewrite Rb.
  - rewrite (st_index _ _ _ _ S). done.
  - intros n. apply replaced_trans with (mapFind (mLatestEnvelopes (ballot s1)) n).
    + rewrite Rb. cbn. destruct (decide (n = nodeID (statement env))) as [->|Hn].
      * rewrite mapFind_mapInsert. intros e He. exists env. split; [done|]. right. by apply Rn.
      * rewrite mapFind_mapInsert_ne by done. apply replaced_refl.
    + by apply (ev_latest _ _ _ _ _ (Step_evolves d ln None _ _ S)).
  - intros n e Hn. rewrite (st_others _ _ _ _ S n Hn), Rb. cbn.
    destruct (decide (n = nodeID (statement env))) as [->|Hne].
    + rewrite mapFind_mapInsert. intros [= <-]. by right.
    + rewrite mapFind_mapInsert_ne by done. by left.
  - assert (mLastEnvelope (ballot s) = mLastEnvelope (ballot s1)) as -> by (by rewrite Rb). apply S.
  - assert (mPhase (ballot s) = mPhase (ballot s1)) as -> by (by rewrite Rb).
    assert (exts s = exts s1) as -> by (unfold exts; by rewrite Re). apply S.
Qed.

Lemma Evolves_refl d ln src s : Evolves d ln src s s.
Proof. apply Step_evolves, Step_refl. Qed.

(** A quiet end of an operation. *)
Lemma Evolves_mute d ln src s s1 s2 : Evolves d ln src s s1 -> Mute s1 s2 -> Evolves d ln src s s2.
Proof.
  intros [] [Q B]. split; try (rewrite B; done).
  - rewrite (q_index _ _ Q). done.
  - rewrite B, (q_exts _ _ Q). intros Hp Hp'. destruct (ev_ext0 Hp Hp') as [Ev Hx].
    split; [|done]. unfold Evidence in *. by rewrite B.
Qed.

Lemma ballot_or_nomination st : nominateOf st = None -> isBallotStatement st = true.
Proof. unfold nominateOf, isBallotStatement. by destruct (pledges st). Qed.

(** A ballot envelope, in an idle slot. *)
Lemma deliver_spec d ln E (HE : forall f, allowed f -> E f) aFuel env self s :
  Inv ln 0 s -> slotIndex (statement env) = mSlotIndex s -> nominateOf (statement env) = None ->
  (LocalSane ln /\ MAX_ADVANCE_SLOT_RECURSION <= Z.of_nat aFuel \/ E OutOfFuel) ->
  wp E (slotProcessBallot d ln (advanceSlot d ln aFuel) env self)
    (fun _ s' => Inv ln 0 s' /\ Evolves d ln (Some env) s s') s.
Proof.
  intros HI Hidx Hk%ballot_or_nomination Hf. unfold slotProcessBallot. apply wp_bind, wp_getS, wp_bind, wp_assert.
  { intros H. apply Z.eqb_neq in H. congruence. }
  intros _. apply wp_bind, wp_getS, wp_bind.
  eapply wp_mono; [apply processEnvelope_spec with (L := 0); [|done..]|cbv beta].
  { intros st s' Hst HI'. apply advanceSlot_spec; [done|done|done|done|].
    unfold MAX_ADVANCE_SLOT_RECURSION in *. destruct Hf as [[? ?]|?]; [left|by right].
    split; [done|]. lia. }
  intros r s1 Hr. apply wp_bind.
  assert (Inv ln 0 s1 /\ Evolves d ln (Some env) s s1) as [I1 V1].
  { destruct r; [subst; split; [done|apply Evolves_refl]|]. destruct Hr as (s0 & R & P).
    split; [apply P|]. eapply Recorded_evolves; [done|apply P]. }
  eapply wp_mono with (Q := fun _ s2 => Mute s1 s2).
  { apply wp_when; intros _; [apply maybeSetGotVBlocking_spec|apply reflexivity]. }
  cbv beta. intros _ s2 M2. apply wp_ret.
  split; [by apply (Mute_post d ln _ _ M2 I1)|by eapply Evolves_mute].
Qed.

Lemma abandon_any d ln aFuel s :
  Inv ln 0 s ->
  wp anyFault (abandonBallot d ln (advanceSlot d ln aFuel) 0) (fun _ s' => Post d ln 0 s s') s.
Proof.
  intros HI. eapply wp_mono.
  - apply abandonBallot_spec with (L := 0);
      [apply any_allowed|apply advance_any|done|by right|done].
  - cbv beta. intros [] s'; [|intros ->; by apply Post_refl]. intros [HE _]. by apply Emitted_post.
Qed.

Lemma runInput_spec d ln fuel aFuel i s :
  Inv ln 0 s -> addressed i s ->
  wp anyFault (runInput d ln fuel aFuel i)
    (fun _ s' => Inv ln 0 s' /\ Evolves d ln (sourceOf i) s s') s.
Proof.
  intros HI Ha.
  assert (forall A (m : SM A), wp anyFault m (fun _ s' => Post d ln 0 s s') s ->
    wp anyFault (do* m in mret tt) (fun _ s' => Inv ln 0 s' /\ Evolves d ln (sourceOf i) s s') s) as Hp.
  { intros A m H. apply wp_bind. eapply wp_mono; [apply H|]. cbv beta. intros _ s' (I' & S' & _).
    split; [done|by apply Step_evolves]. }
  destruct i as [env|v p t| |v force| |]; cbn [runInput].
  - destruct (nominateOf (statement env)) eqn:Hn.
    { apply Hp. apply slotProcess_nomination; [done|]. by rewrite Hn. }
    apply wp_bind. destruct fuel as [|fuel]; [done|]. cbn [slotProcessEnvelope].
    rewrite slotBody_ballot by done. eapply wp_mono; [|cbv beta; intros a s' H'; exact H'].
    apply deliver_spec; [done|done|by apply Ha|done|by right].
  - apply Hp. apply nominate_post; [|done]. intros. by apply slotProcess_nomination.
  - set (s1 := onNomination (set_nominationStarted false) s).
    assert (Post d ln 0 s s1) as P1 by (by apply Mute_post).
    split; [apply P1|apply Step_evolves, P1].
  - apply Hp. by apply bumpState_any.
  - apply Hp. by apply abandon_any.
  - unfold ballotProtocolTimerExpired. apply wp_bind, wp_modB.
    set (s1 := onBallot _ s).
    assert (Post d ln 0 s s1) as P1 by (apply Quiet_post; [by split|done|done]).
    apply wp_bind. eapply wp_mono; [apply abandon_any, P1|]. cbv beta. intros _ s2 P2.
    assert (Post d ln 0 s s2) as P by (by eapply Post_trans).
    split; [apply P|]. apply Step_evolves, P.
Qed.
