(* ===== verification/SlotFacts.v ===== *)
(** * What a slot guarantees

    The properties of every state a slot reaches from its construction under
    any sequence of inputs: envelopes from anyone, nominations, timers, bumps.
    The driver may answer differently at every step. *)

From Stdlib Require Import Sorted.
From stdpp Require Import base list gmap strings.
From S2P Require Import Prelude Numeric QuorumSet LocalNode Statement SlotState Ballot BallotInv.
From S2P Require Import Nomination Frames NoStray SlotInv.

Local Open Scope Z_scope.

#[local] Arguments areBallotsLessAndCompatible : simpl never.
#[local] Arguments areBallotsLessAndIncompatible : simpl never.
#[local] Arguments mapFind : simpl never.

Inductive reachable (ln : LocalNodeState) (index : Z) : SlotState -> Prop :=
  | reach_init : reachable ln index (initSlot ln index)
  | reach_step d fuel aFuel i s s' :
      reachable ln index s -> addressed i s -> runInput d ln fuel aFuel i s = Ok tt s' ->
      reachable ln index s'.

(** Further inputs lead from one state to another. *)
Inductive leads (ln : LocalNodeState) (s : SlotState) : SlotState -> Prop :=
  | leads_refl : leads ln s s
  | leads_step d fuel aFuel i s1 s2 :
      leads ln s s1 -> addressed i s1 -> runInput d ln fuel aFuel i s1 = Ok tt s2 -> leads ln s s2.

Lemma init_inv ln index : Inv ln 0 (initSlot ln index).
Proof.
  split; [|by intros H]. split; cbn; try done.
  - unfold ordered. constructor.
  - by intros n e [].
  - split; [constructor|]. split; [done|]. by intros e.
  - by left.
Qed.

Lemma runInput_inv d ln fuel aFuel i s s' :
  Inv ln 0 s -> addressed i s -> runInput d ln fuel aFuel i s = Ok tt s' ->
  Inv ln 0 s' /\ Evolves d ln (sourceOf i) s s'.
Proof.
  intros HI Ha Hr. pose proof (runInput_spec d ln fuel aFuel i s HI Ha) as H.
  unfold wp in H. by rewrite Hr in H.
Qed.

Lemma reachable_inv ln index s : reachable ln index s -> Inv ln 0 s /\ mSlotIndex s = index.
Proof.
  induction 1 as [|d fuel aFuel i s s' _ [IH IHi] Ha Hr]; [split; [apply init_inv|done]|].
  destruct (runInput_inv _ _ _ _ _ _ _ IH Ha Hr) as [I' V']. split; [done|].
  rewrite (ev_index _ _ _ _ _ V'). done.
Qed.

Lemma leads_adv ln s s' : Inv ln 0 s -> leads ln s s' -> Inv ln 0 s' /\ Adv (ballot s) (ballot s').
Proof.
  intros HI. induction 1 as [|d fuel aFuel i s1 s2 _ [IH A] Ha Hr]; [split; [done|apply Adv_refl]|].
  destruct (runInput_inv _ _ _ _ _ _ _ IH Ha Hr) as [I2 V2]. split; [done|].
  eapply Adv_trans; [done|apply V2].
Qed.

(** ** A network of four nodes, any three of which are a slice *)

Module Example.

Definition q4 : SCPQuorumSet := QSet 3 [1; 2; 3; 4] [].
Definition v1 : Value := [5].

Definition driver : SCPDriver := {|
  getQSet h := if h =? 11 then Some q4 else None;
  validateValue _ _ _ := kFullyValidatedValue;
  extractValidValue _ v := Some v;
  combineCandidates _ l := hd_error l;
  signEnvelope _ := [];
  computeHashNode _ _ _ _ n := n;
  computeValueHash _ _ _ _ := 7;
  computeTimeout := defaultComputeTimeout
|}.

Definition node (n : NodeID) : LocalNodeState := mkLocalNode n true q4 11.

Definition env (n : NodeID) (pl : SCPPledges) : SCPEnvelope := mkEnvelope (mkStatement n 9 pl) [].
Definition prepare (n bc : Z) (p : option SCPBallot) (nC nH : Z) : SCPEnvelope :=
  env n (SCP_ST_PREPARE (mkPrepare 11 (mkBallot bc v1) p None nC nH)).
Definition confirm (n : Z) : SCPEnvelope :=
  env n (SCP_ST_CONFIRM (mkConfirm (mkBallot 1 v1) 1 1 1 11)).

Fixpoint runAll (ln : LocalNodeState) (l : list SlotInput) (s : SlotState) : outcome SlotState unit :=
  match l with
  | [] => Ok tt s
  | i :: l' =>
      match runInput driver ln 10 50 i s with
      | Ok _ s' => runAll ln l' s'
      | Err f s' => Err f s'
      end
  end.

Definition addressedb (index : Z) (i : SlotInput) : bool :=
  match i with
  | InEnvelope e => slotIndex (statement e) =? index
  | _ => true
  end.

Lemma addressedb_sound ln index i s :
  reachable ln index s -> addressedb index i = true -> addressed i s.
Proof.
  intros R H e ->. cbn in H. apply Z.eqb_eq in H as ->. symmetry. by eapply reachable_inv.
Qed.

Lemma runAll_reachable ln index l s s1 s' :
  reachable ln index s1 -> leads ln s s1 -> forallb (addressedb index) l = true ->
  runAll ln l s1 = Ok tt s' -> reachable ln index s' /\ leads ln s s'.
Proof.
  revert s1. induction l as [|i l IH]; cbn; intros s1 R Hl H.
  - intros [= <-]. done.
  - apply andb_true_iff in H as [H1 H2].
    destruct (runInput driver ln 10 50 i s1) as [[] s2|f s2] eqn:E; [|done].
    assert (addressed i s1) by (by eapply addressedb_sound).
    apply IH; [by eapply reach_step|by eapply leads_step|done].
Qed.

(** Node 1 bumps to (1, v1), hears two peers through PREPARE and CONFIRM, and
    externalizes. *)
Definition toConfirm : list SlotInput :=
  InBumpState v1 true ::
  map InEnvelope
    [prepare 2 1 None 0 0; prepare 3 1 None 0 0;
     prepare 2 1 (Some (mkBallot 1 v1)) 0 0; prepare 3 1 (Some (mkBallot 1 v1)) 0 0;
     prepare 2 1 (Some (mkBallot 1 v1)) 1 1; prepare 3 1 (Some (mkBallot 1 v1)) 1 1].

Definition toExternalize : list SlotInput := map InEnvelope [confirm 2; confirm 3].

Definition final (o : outcome SlotState unit) : SlotState :=
  match o with Ok _ s => s | Err _ s => s end.

Definition confirmed : SlotState := Eval vm_compute in
  final (runAll (node 1) toConfirm (initSlot (node 1) 9)).
Definition externalized : SlotState := Eval vm_compute in
  final (runAll (node 1) toExternalize confirmed).

Lemma confirmed_run : runAll (node 1) toConfirm (initSlot (node 1) 9) = Ok tt confirmed.
Proof. by vm_compute. Qed.

Lemma externalized_run : runAll (node 1) toExternalize confirmed = Ok tt externalized.
Proof. by vm_compute. Qed.

Lemma confirmed_reachable : reachable (node 1) 9 confirmed.
Proof. eapply (runAll_reachable _ _ toConfirm); [apply reach_init|apply leads_refl|done|apply confirmed_run]. Qed.

Lemma externalized_reachable : reachable (node 1) 9 externalized /\ leads (node 1) confirmed externalized.
Proof.
  eapply (runAll_reachable _ _ toExternalize); [apply confirmed_reachable|apply leads_refl|done|apply externalized_run].
Qed.

End Example.

(** ** Properties *)

Lemma checkInvariants_ok s :
  Core (ballot s) -> HasP (ballot s) ->
  (forall b, mCurrentBallot (ballot s) = Some b -> counter b <> 0) -> checkInvariants s = Ok tt s.
Proof.
  intros (Cp & Ch & Cc & Cph) HP Hb. unfold checkInvariants, HasP in *.
  unfold bnd, mbind, M_bind, getB, id.
  assert (match mPhase (ballot s) with SCP_PHASE_PREPARE => mret tt | _ =>
       do* dbgAssert (isSome (mCurrentBallot (ballot s))) "mCurrentBallot" in
       do* dbgAssert (isSome (mPrepared (ballot s))) "mPrepared" in
       do* dbgAssert (isSome (mCommit (ballot s))) "mCommit" in
       dbgAssert (isSome (mHighBallot (ballot s))) "mHighBallot" end s = Ok tt s) as H1.
  { destruct (mPhase (ballot s)); [done|..]; (destruct Cph as [_ Hc]; [done|]); specialize (HP ltac:(done));
      destruct (mCommit (ballot s)); try done; destruct (mHighBallot (ballot s)); try done;
      destruct (mCurrentBallot (ballot s)); try done; by destruct (mPrepared (ballot s)). }
  unfold bnd, mbind, M_bind in H1. rewrite H1. clear H1 HP Cph.
  destruct (mCurrentBallot (ballot s)) as [b|]; cbn.
  - rewrite (proj2 (Z.eqb_neq _ _) (Hb b eq_refl)). cbn.
    destruct (mPrepared (ballot s)) as [p|], (mPreparedPrime (ballot s)) as [pp|]; try done; cbn;
      try rewrite (proj2 (lessAndIncompat_iff pp p) (conj (or_introl (proj1 Cp)) (proj2 Cp)));
      destruct (mHighBallot (ballot s)) as [h|]; cbn; try rewrite (proj2 (lessAndCompat_iff h b) Ch);
      destruct (mCommit (ballot s)) as [c|]; cbn in Cc |- *; try done;
      rewrite (proj2 (lessAndCompat_iff c h) Cc); cbn;
      by try rewrite (proj2 (lessAndCompat_iff h b) Ch).
  - destruct (mHighBallot (ballot s)); [done|]. destruct (mCommit (ballot s)); [done|].
    destruct (mPrepared (ballot s)) as [p|], (mPreparedPrime (ballot s)) as [pp|]; try done; cbn.
    by rewrite (proj2 (lessAndIncompat_iff pp p) (conj (or_introl (proj1 Cp)) (proj2 Cp))).
Qed.

(** C19: In every state a slot reaches, the members of the ballot protocol are in
    order: p' is below p and incompatible with it, h is at most b and c at most
    h with one value, and from CONFIRM on b, p, c and h are all set and p' is
    not.  So the run-time check [checkInvariants] passes whenever the current
    ballot's counter is not zero. *)
Theorem reachable_members_ordered ln index s :
  reachable ln index s ->
  Core (ballot s) /\ HasP (ballot s) /\
  ((forall b, mCurrentBallot (ballot s) = Some b -> counter b <> 0) -> checkInvariants s = Ok tt s).
Proof.
  intros R. destruct (reachable_inv _ _ _ R) as [[I HP] _].
  split; [apply I|]. split; [done|]. apply checkInvariants_ok; [apply I|done].
Qed.

Lemma reachable_members_ordered_witness : checkInvariants Example.externalized = Ok tt Example.externalized.
Proof.
  apply (reachable_members_ordered (Example.node 1) 9); [apply Example.externalized_reachable|].
  intros b. vm_compute. by intros [= <-].
Defined.

(** C20: A slot announces [valueExternalized] at most once, only in the
    EXTERNALIZE phase, and with the value of its commit ballot. *)
Theorem externalizes_at_most_once ln index s :
  reachable ln index s ->
  exts s = [] \/
  exists v, exts s = [v] /\ mPhase (ballot s) = SCP_PHASE_EXTERNALIZE /\
            commitValue (ballot s) = Some v.
Proof.
  intros R. destruct (reachable_inv _ _ _ R) as [[I _] _].
  destruct (inv_ext _ _ _ I) as [H|(Hp & v & Hv & Hx)]; [by left|right; eauto].
Qed.

Lemma externalizes_at_most_once_witness :
  exts Example.externalized = [] \/
  exists v, exts Example.externalized = [v] /\
    mPhase (ballot Example.externalized) = SCP_PHASE_EXTERNALIZE /\
    commitValue (ballot Example.externalized) = Some v.
Proof. apply (externalizes_at_most_once (Example.node 1) 9), Example.externalized_reachable. Defined.

(** C21: The ballot statements a slot emits supersede each other in the order
    they are emitted: every later one is newer than every earlier one, so no
    peer can take an old statement of this node for its last word. *)
Theorem emitted_statements_increase ln index s i j ei ej :
  reachable ln index s -> (i < j)%nat -> emits s !! i = Some ei -> emits s !! j = Some ej ->
  isNewerStatement (statement ei) (statement ej) = true.
Proof.
  intros R. destruct (reachable_inv _ _ _ R) as [[I _] _].
  destruct (inv_chain _ _ _ I) as (C & _ & _). rewrite isNewerStatement_iff.
  revert i j. induction C as [|e l C IH Hl]; intros i j Hij Hi Hj; [done|].
  destruct j as [|j]; [lia|]. cbn in Hj. destruct i as [|i]; cbn in Hi.
  - simplify_eq. rewrite List.Forall_forall in Hl. apply Hl.
    apply list_elem_of_In. by eapply list_elem_of_lookup_2.
  - apply (IH i j); [lia|done..].
Qed.

Lemma emitted_statements_increase_witness :
  exists e0 e4, emits Example.externalized !! 0%nat = Some e0 /\
    emits Example.externalized !! 4%nat = Some e4 /\
    isNewerStatement (statement e0) (statement e4) = true.
Proof.
  eexists _, _. split; [reflexivity|]. split; [reflexivity|].
  eapply (emitted_statements_increase (Example.node 1) 9 Example.externalized 0 4);
    [apply Example.externalized_reachable|lia|reflexivity|reflexivity].
Defined.

(** C18: Once a slot has accepted a commit its value never changes, whatever it
    is sent afterwards; the phase and the prepared ballot never go back, the
    high counter only grows while the slot stays in CONFIRM, and an
    externalized slot keeps all its ballots. *)
Theorem accepted_commit_is_final ln index s s' :
  reachable ln index s -> leads ln s s' ->
  phaseRank (mPhase (ballot s)) <= phaseRank (mPhase (ballot s')) /\
  ole (mPrepared (ballot s)) (mPrepared (ballot s')) /\
  (mPhase (ballot s) <> SCP_PHASE_PREPARE -> commitValue (ballot s') = commitValue (ballot s)) /\
  (mPhase (ballot s) = SCP_PHASE_CONFIRM -> mPhase (ballot s') = SCP_PHASE_CONFIRM ->
   highCounter (ballot s) <= highCounter (ballot s')) /\
  (mPhase (ballot s) = SCP_PHASE_EXTERNALIZE -> fields (ballot s') = fields (ballot s)).
Proof.
  intros R Hl. destruct (reachable_inv _ _ _ R) as [I _].
  destruct (leads_adv _ _ _ I Hl) as [_ A]. by repeat split; apply A.
Qed.

Lemma accepted_commit_is_final_witness :
  mPhase (ballot Example.confirmed) = SCP_PHASE_CONFIRM /\
  commitValue (ballot Example.externalized) = commitValue (ballot Example.confirmed).
Proof.
  split; [reflexivity|].
  apply (accepted_commit_is_final (Example.node 1) 9 Example.confirmed Example.externalized).
  - apply Example.confirmed_reachable.
  - apply Example.externalized_reachable.
  - discriminate.
Defined.

(** Whatever envelope a slot is handed, the latest message it keeps for any
    node is only ever replaced by a newer one of that node, and the last
    statement of its own likewise. *)
Theorem latest_messages_only_advance d ln fuel aFuel index i s s' :
  reachable ln index s -> addressed i s -> runInput d ln fuel aFuel i s = Ok tt s' ->
  (forall n e, mapFind (mLatestEnvelopes (ballot s)) n = Some e ->
     exists e', mapFind (mLatestEnvelopes (ballot s')) n = Some e' /\
       (e' = e \/ isNewerStatement (statement e) (statement e') = true)) /\
  (forall e, mLastEnvelope (ballot s) = Some e ->
     exists e', mLastEnvelope (ballot s') = Some e' /\
       (e' = e \/ isNewerStatement (statement e) (statement e') = true)).
Proof.
  intros R Ha Hr. destruct (reachable_inv _ _ _ R) as [I _].
  destruct (runInput_inv _ _ _ _ _ _ _ I Ha Hr) as [_ V].
  split; [intros n e He; destruct (ev_latest _ _ _ _ _ V n e He) as (e' & He' & N)
         |intros e He; destruct (ev_last _ _ _ _ _ V e He) as (e' & He' & N)];
    exists e'; (split; [done|]); rewrite isNewerStatement_iff; exact N.
Qed.

Lemma latest_messages_only_advance_witness :
  exists e', mapFind (mLatestEnvelopes (ballot
      (Example.final (runInput Example.driver (Example.node 1) 10 50
        (InEnvelope (Example.confirm 2)) Example.confirmed)))) 2 = Some e' /\
    (e' = Example.prepare 2 1 (Some (mkBallot 1 Example.v1)) 1 1 \/
     isNewerStatement (statement (Example.prepare 2 1 (Some (mkBallot 1 Example.v1)) 1 1))
       (statement e') = true).
Proof.
  eapply (latest_messages_only_advance Example.driver (Example.node 1) 10 50 9
    (InEnvelope (Example.confirm 2)) Example.confirmed).
  - apply Example.confirmed_reachable.
  - by intros e [= <-].
  - by vm_compute.
  - reflexivity.
Defined.

(** ** The messages a slot keeps *)

(** Every message is filed under its sender, belongs to the slot, and passed the
    sanity check of the protocol it is filed with. *)
Definition ballotFiled (s : SlotState) : Prop :=
  forall n e, mapFind (mLatestEnvelopes (ballot s)) n = Some e ->
    nodeID (statement e) = n /\ slotIndex (statement e) = mSlotIndex s /\
    exists d self, isStatementSane d (statement e) self = inr true.

Definition nominationFiled (s : SlotState) : Prop :=
  forall n e, mapFind (mLatestNominations (nomination s)) n = Some e ->
    nodeID (statement e) = n /\ slotIndex (statement e) = mSlotIndex s /\
    exists nom, nominateOf (statement e) = Some nom /\ isSane nom = true.

Definition Filed (s s' : SlotState) : Prop :=
  mSlotIndex s' = mSlotIndex s /\ (ballotFiled s -> ballotFiled s') /\
  (nominationFiled s -> nominationFiled s').

#[export] Instance Filed_preorder : PreOrder Filed.
Proof.
  split; [by intros s|]. intros s1 s2 s3 (E1 & B1 & N1) (E2 & B2 & N2).
  split; [congruence|]. split; auto.
Qed.

Lemma filed_same s s' :
  mSlotIndex s' = mSlotIndex s -> mLatestEnvelopes (ballot s') = mLatestEnvelopes (ballot s) ->
  mLatestNominations (nomination s') = mLatestNominations (nomination s) -> Filed s s'.
Proof. unfold Filed, ballotFiled, nominationFiled. intros -> -> ->. done. Qed.

#[export] Instance Filed_ballot : KeepsBallot Filed.
Proof.
  split; [exact _|try by intros; intros s; apply filed_same..|].
  - intros f Hf s. by apply filed_same; cbn; rewrite ?Hf.
  - intros d env self s Hs Hi. split; [done|]. split; [|done].
    intros B n e. cbn. destruct (decide (n = nodeID (statement env))) as [->|Hn].
    + rewrite mapFind_mapInsert. intros [= <-]. eauto.
    + rewrite mapFind_mapInsert_ne by done. apply B.
Qed.

#[export] Instance Filed_slot : KeepsSlot Filed.
Proof.
  split; [exact _|split; [exact _|..]|].
  - intros f Hf s. by apply filed_same; cbn; rewrite ?Hf.
  - intros e _ _ s. by apply filed_same.
  - intros env nom s Hn Hs Hi. split; [done|]. split; [done|].
    intros N n e. cbn. destruct (decide (n = nodeID (statement env))) as [->|Hne].
    + rewrite mapFind_mapInsert. intros [= <-]. eauto.
    + rewrite mapFind_mapInsert_ne by done. apply N.
Qed.

Lemma reachable_placed ln index s : reachable ln index s -> Placed s.
Proof.
  induction 1 as [|d fuel aFuel i s s' R IH Ha Hr]; [by split; [intros n e []|split]|].
  pose proof (tidy_runInput d ln fuel aFuel i s IH) as H. unfold wp in H. by rewrite Hr in H.
Qed.

(** C23: Every message a slot keeps is filed under the node that sent it, is
    about this slot, and passed the sanity check of its protocol when it was
    recorded; only ballot statements are among the ballot protocol's messages.
    Whatever the next input is (an envelope of any kind from any node, a nomination,
    a timer), it does not end in one of the aborts ([stray]) of the functions over
    statements: no function of the ballot protocol is given a nomination, and none of
    nomination a ballot statement. *)
Theorem messages_are_filed ln index s d fuel aFuel i :
  reachable ln index s ->
  ballotFiled s /\ nominationFiled s /\
  (forall n e, mapFind (mLatestEnvelopes (ballot s)) n = Some e -> isBallotStatement (statement e) = true) /\
  match runInput d ln fuel aFuel i s with Ok _ _ => True | Err f _ => ~ stray f end.
Proof.
  intros R. assert (ballotFiled s /\ nominationFiled s) as [B N].
  { induction R as [|d' fuel' aFuel' i' s s' R [B N] Ha Hr]; [by split|].
    pose proof (keeps_runInput Filed d' ln fuel' aFuel' i' s) as H. unfold wp in H. rewrite Hr in H.
    destruct H as (_ & HB & HN). auto. }
  split; [done|]. split; [done|]. split.
  - intros n e He. destruct (B n e He) as (_ & _ & d' & self & Hs). by eapply isStatementSane_ballot.
  - pose proof (tidy_runInput d ln fuel aFuel i s (reachable_placed _ _ _ R)) as H. unfold wp in H.
    by destruct (runInput d ln fuel aFuel i s).
Qed.

Lemma messages_are_filed_witness :
  ballotFiled Example.externalized /\ nominationFiled Example.externalized /\
  (forall n e, mapFind (mLatestEnvelopes (ballot Example.externalized)) n = Some e ->
    isBallotStatement (statement e) = true) /\
  match runInput Example.driver (Example.node 1) 10 50 InBallotTimer Example.externalized with
  | Ok _ _ => True
  | Err f _ => ~ stray f
  end.
Proof.
  exact (messages_are_filed _ _ _ Example.driver 10 50 InBallotTimer (proj1 Example.externalized_reachable)).
Defined.

(** C22: Processing a ballot envelope always ends, and the only faults it can end
    in are the five of [allowed], on a node whose own quorum set is representable and well
    formed ([LocalSane]: its thresholds are positive and can be reached).  Fifty levels of
    re-entry are enough for the recursion, the [do ... while] of bumps runs at most three
    times, and every other [dbgAssert] and pointer dereference on the way is safe. *)
Theorem envelope_processing_ends ln index s d fuel aFuel env :
  reachable ln index s -> LocalSane ln -> MAX_ADVANCE_SLOT_RECURSION <= Z.of_nat aFuel ->
  nominateOf (statement env) = None -> slotIndex (statement env) = index ->
  match slotProcessEnvelope d ln (S fuel) aFuel env false s with
  | Ok _ _ => True
  | Err f _ => allowed f
  end.
Proof.
  intros R HL Hf Hn Hi. destruct (reachable_inv _ _ _ R) as [I Hidx].
  cbn [slotProcessEnvelope]. rewrite slotBody_ballot by done.
  assert (wp allowed (slotProcessBallot d ln (advanceSlot d ln aFuel) env false)
    (fun _ s' => Inv ln 0 s' /\ Evolves d ln (Some env) s s') s) as H.
  { apply deliver_spec; [done|done|congruence|done|by left]. }
  unfold wp in H. by destruct (slotProcessBallot _ _ _ _ _ _).
Qed.

Lemma envelope_processing_ends_witness :
  match slotProcessEnvelope Example.driver (Example.node 1) 1 50 (Example.confirm 2) false
          Example.confirmed with
  | Ok _ _ => True
  | Err f _ => allowed f
  end.
Proof.
  refine (envelope_processing_ends (Example.node 1) 9 Example.confirmed Example.driver 0 50
    (Example.confirm 2) _ _ _ _ _).
  - apply Example.confirmed_reachable.
  - split; [|reflexivity]. by repeat split; vm_compute.
  - vm_compute. discriminate.
  - reflexivity.
  - reflexivity.
Defined.

(** The same holds when the ballot timer fires, as long as the counter is
    below the largest one: incrementing it cannot then trip the check that the
    current ballot never goes back. *)
Theorem timer_expiry_ends ln index s d aFuel :
  reachable ln index s -> LocalSane ln -> MAX_ADVANCE_SLOT_RECURSION <= Z.of_nat aFuel -> NoWrap s ->
  match ballotProtocolTimerExpired d ln (advanceSlot d ln aFuel) s with
  | Ok _ s' => Adv (ballot s) (ballot s')
  | Err f _ => allowed f
  end.
Proof.
  intros R HL Hf HW. destruct (reachable_inv _ _ _ R) as [I _].
  set (s1 := onBallot (fun b => set_timerExp (i32 (mTimerExpCount b + 1)) b) s).
  assert (Post d ln 0 s s1) as (I1 & S1 & _) by (apply Quiet_post; [by split|done|done]).
  assert (wp allowed (abandonBallot d ln (advanceSlot d ln aFuel) 0) (fun r s' =>
    if r then Emitted d ln 0 s1 s' /\ (mPhase (ballot s') = mPhase (ballot s1) ->
                                      0 <= localCounter (ballot s'))
    else s' = s1) s1) as H.
  { apply abandonBallot_spec; [done| |done|by left|done]. intros st s' Hst HI'.
    unfold MAX_ADVANCE_SLOT_RECURSION in Hf.
    apply advanceSlot_spec; [done|done|done|done|left]. split; [done|]. unfold MAX_ADVANCE_SLOT_RECURSION. lia. }
  unfold ballotProtocolTimerExpired, bnd, mbind, M_bind, modB, modify. fold s1.
  unfold wp in H. destruct (abandonBallot _ _ _ _ s1) as [r s'|f s']; [|done]. cbn.
  eapply Adv_trans; [apply S1|]. destruct r; [apply H|subst; apply Adv_refl].
Qed.

Lemma timer_expiry_ends_witness :
  match ballotProtocolTimerExpired Example.driver (Example.node 1)
          (advanceSlot Example.driver (Example.node 1) 50) Example.confirmed with
  | Ok _ s' => Adv (ballot Example.confirmed) (ballot s')
  | Err f _ => allowed f
  end.
Proof.
  refine (timer_expiry_ends (Example.node 1) 9 Example.confirmed Example.driver 50 _ _ _ _).
  - apply Example.confirmed_reachable.
  - split; [|reflexivity]. by repeat split; vm_compute.
  - vm_compute. discriminate.
  - intros b [= <-]. reflexivity.
Defined.

(** ** Restoring a slot from its last statement *)

(** The envelope a slot in this state makes of itself. *)
Definition ownEnvelope (d : SCPDriver) (ln : LocalNodeState) : SM SCPEnvelope :=
  let* phase := getB mPhase in
  let* st := createStatement ln phase in
  createEnvelope d ln st.

(** The statement made of the members. *)
Definition ownPledges (ln : LocalNodeState) (s : BallotState) : SCPPledges :=
  let cnt o := match o with Some b => counter b | None => 0 end in
  match mPhase s with
  | SCP_PHASE_PREPARE =>
      SCP_ST_PREPARE (mkPrepare (mQSetHash ln) (default nullBallot (mCurrentBallot s))
        (mPrepared s) (mPreparedPrime s) (cnt (mCommit s)) (cnt (mHighBallot s)))
  | SCP_PHASE_CONFIRM =>
      SCP_ST_CONFIRM (mkConfirm (default nullBallot (mCurrentBallot s)) (cnt (mPrepared s))
        (cnt (mCommit s)) (cnt (mHighBallot s)) (mQSetHash ln))
  | SCP_PHASE_EXTERNALIZE =>
      SCP_ST_EXTERNALIZE (mkExternalize (default nullBallot (mCommit s)) (cnt (mHighBallot s)) (mQSetHash ln))
  end.

(** The members pass [checkInvariants]. *)
Definition Presentable (s : BallotState) : Prop :=
  Core s /\ HasP s /\ forall b, mCurrentBallot s = Some b -> counter b <> 0.

Definition envelopeOf (d : SCPDriver) (ln : LocalNodeState) (s : SlotState) : SCPEnvelope :=
  let st := mkStatement (mNodeID ln) (mSlotIndex s) (ownPledges ln (ballot s)) in
  mkEnvelope st (signEnvelope d st).

Lemma ownEnvelope_ok d ln s : Presentable (ballot s) -> ownEnvelope d ln s = Ok (envelopeOf d ln s) s.
Proof.
  intros P. unfold ownEnvelope, createStatement, envelopeOf, ownPledges, bnd, mbind, M_bind, getB.
  rewrite checkInvariants_ok by apply P. destruct P as ((_ & Ch & Cc & Cph) & HP & _). unfold HasP in HP. cbn.
  destruct (mPhase (ballot s)) eqn:E; rewrite ?E; [cbn; by destruct (mCurrentBallot (ballot s))|..];
    (destruct Cph as [_ Hc]; [done|]); specialize (HP ltac:(done));
    destruct (mCommit (ballot s)); [|done| |done]; destruct (mHighBallot (ballot s)); [|done| |done];
    destruct (mCurrentBallot (ballot s)); [|done| |done]; by destruct (mPrepared (ballot s)).
Qed.

(** A slot that makes an envelope of itself was presentable. *)
Lemma ownEnvelope_presentable d ln s env s1 :
  Core (ballot s) -> ownEnvelope d ln s = Ok env s1 -> Presentable (ballot s).
Proof.
  intros C. pose proof (checkInvariants_spec anyFault any_allowed s C) as H. unfold wp in H.
  unfold ownEnvelope, createStatement, bnd, mbind, M_bind, getB.
  destruct (checkInvariants s) as [[] s2|f s2]; [|done]. intros _. split; [done|]. apply H.
Qed.

(** The members a fresh slot takes from a statement. *)
Definition restored (st : SCPStatement) (s : BallotState) : Prop :=
  match pledges st with
  | SCP_ST_PREPARE p =>
      fields s = (Some (p_ballot p), p_prepared p, p_preparedPrime p,
        if p_nH p =? 0 then None else Some (mkBallot (p_nH p) (value (p_ballot p))),
        if p_nC p =? 0 then None else Some (mkBallot (p_nC p) (value (p_ballot p))),
        SCP_PHASE_PREPARE)
  | SCP_ST_CONFIRM c =>
      let v := value (c_ballot c) in
      fields s = (Some (c_ballot c), Some (mkBallot (c_nPrepared c) v), None,
        Some (mkBallot (c_nH c) v), Some (mkBallot (c_nCommit c) v), SCP_PHASE_CONFIRM)
  | SCP_ST_EXTERNALIZE e =>
      let v := value (e_commit e) in
      fields s = (Some (mkBallot UINT32_MAX v), Some (mkBallot UINT32_MAX v), None,
        Some (mkBallot (e_nH e) v), Some (e_commit e), SCP_PHASE_EXTERNALIZE)
  | SCP_ST_NOMINATE _ => False
  end.

Lemma setState_restored e ln index :
  isBallotStatement (statement e) = true ->
  exists s', setStateFromEnvelope e (initSlot ln index) = Ok tt s' /\
    restored (statement e) (ballot s') /\ mLastEnvelopeEmit (ballot s') = Some e /\ mSlotIndex s' = index.
Proof.
  unfold isBallotStatement, setStateFromEnvelope, restored.
  destruct (pledges (statement e)) as [p|c|x|n]; [| | |done]; intros _.
  - cbn. destruct (p_nH p =? 0), (p_nC p =? 0), (p_prepared p), (p_preparedPrime p);
      cbn; eexists; split; try reflexivity; by repeat split.
  - cbn. eexists. split; [reflexivity|by repeat split].
  - cbn. eexists. split; [reflexivity|by repeat split].
Qed.

Lemma maybeSetGotVBlocking_frame ln s :
  exists s', maybeSetGotVBlocking ln s = Ok tt s' /\ ballot s' = ballot s /\ mSlotIndex s' = mSlotIndex s.
Proof.
  unfold maybeSetGotVBlocking, bnd, mbind, M_bind, get. destruct (mGotVBlocking s); [by exists s|].
  destruct (forAllNodes _ _ _) as [r nodes]. by eexists.
Qed.

(** The same through the slot, which only looks for a blocking set besides. *)
Lemma slotSetState_restored d ln s index :
  mSlotIndex s = index ->
  exists s', slotSetStateFromEnvelope ln (envelopeOf d ln s) (initSlot ln index) = Ok tt s' /\
    restored (statement (envelopeOf d ln s)) (ballot s') /\
    mLastEnvelopeEmit (ballot s') = Some (envelopeOf d ln s) /\ mSlotIndex s' = index.
Proof.
  intros Hi. unfold slotSetStateFromEnvelope, bnd, mbind, M_bind, get.
  destruct (setState_restored (envelopeOf d ln s) ln index) as (s' & E & F).
  { unfold envelopeOf, isBallotStatement, ownPledges. cbn. by destruct (mPhase (ballot s)). }
  assert (nominateOf (statement (envelopeOf d ln s)) = None) as ->.
  { unfold envelopeOf, nominateOf, ownPledges. cbn. by destruct (mPhase (ballot s)). }
  cbn. rewrite Hi, !Z.eqb_refl. cbn. rewrite E.
  destruct (maybeSetGotVBlocking_frame ln s') as (s2 & E2 & Eb & Ei). exists s2.
  by rewrite Eb, Ei.
Qed.

(** The counters c and h are [uint32]s. *)
Definition CountersU32 (s : BallotState) : Prop :=
  (forall h, mHighBallot s = Some h -> 0 <= counter h <= UINT32_MAX) /\
  (forall c, mCommit s = Some c -> 0 <= counter c <= UINT32_MAX).

(** The members of a presentable slot come back through its statement: the statement
    made of the restored members is the same. *)
Lemma restored_presentable ln s s' n index :
  Presentable s -> mCurrentBallot s <> None -> CountersU32 s ->
  restored (mkStatement n index (ownPledges ln s)) s' ->
  Presentable s' /\ ownPledges ln s' = ownPledges ln s /\
  (mPhase s <> SCP_PHASE_PREPARE ->
   mPhase s' = mPhase s /\ mHighBallot s' = mHighBallot s /\ mCommit s' = mCommit s).
Proof.
  intros ((Cp & Ch & Cc & Cph) & HP & Hb) Hn [Uh Uc] F. unfold restored, ownPledges, fields in F. cbn in F.
  unfold HasP, Presentable, Core, HasP, ownPledges in *. destruct (mCurrentBallot s) as [b|]; [|done]. clear Hn.
  specialize (Hb b eq_refl).
  destruct (mPhase s) eqn:Hph; cbn in F; injection F as Fb Fp Fpp Fh Fc Fph; rewrite Fb, Fp, Fpp, Fh, Fc, Fph.
  - destruct (mHighBallot s) as [h|]; cbn in Ch |- *.
    2: { destruct (mCommit s); [done|]. split_and!; try done. by intros ? [= <-]. }
    assert (mkBallot (counter h) (value b) = h) as -> by (apply ballot_eq; [done|symmetry; apply Ch]).
    destruct (mCommit s) as [c|]; cbn in Cc |- *.
    + assert (mkBallot (counter c) (value b) = c) as -> by (apply ballot_eq; [done|]; destruct Ch, Cc; cbn; congruence).
      specialize (Uh h eq_refl). specialize (Uc c eq_refl). pose proof (ballot_le_counter _ _ (proj1 Cc)).
      destruct (Z.eqb_spec (counter h) 0), (Z.eqb_spec (counter c) 0); try lia; cbn.
      all: split_and!; try done; try (by intros ? [= <-]); try (by apply Ch); try (by apply Cc); congruence.
    + destruct (Z.eqb_spec (counter h) 0); cbn.
      all: split_and!; try done; try (by intros ? [= <-]); try (by apply Ch); congruence.
  - destruct Cph as [Hpp Hc]; [done|]. specialize (HP ltac:(done)).
    destruct (mCommit s) as [c|]; [|done]. destruct (mHighBallot s) as [h|]; [|done].
    destruct (mPrepared s) as [p|]; [|done]. cbn in *. destruct Ch as [Ch Vh], Cc as [Cc Vc].
    assert (mkBallot (counter h) (value b) = h) as -> by (by apply ballot_eq).
    assert (mkBallot (counter c) (value b) = c) as -> by (apply ballot_eq; [done|]; cbn; congruence).
    split_and!; try done. by intros ? [= <-].
  - destruct Cph as [Hpp Hc]; [done|]. specialize (HP ltac:(done)).
    destruct (mCommit s) as [c|]; [|done]. destruct (mHighBallot s) as [h|]; [|done].
    cbn in *. destruct Cc as [Cc Vc].
    assert (mkBallot (counter h) (value c) = h) as -> by (by apply ballot_eq).
    specialize (Uh h eq_refl).
    assert (ballot_le h (mkBallot UINT32_MAX (value c))) as Hle.
    { destruct (decide (counter h = UINT32_MAX)) as [E|]; [right; by apply ballot_eq|left; left; cbn; lia]. }
    split_and!; try done. by intros ? [= <-].
Qed.

(** C24: A node that restarts from the last statement it made says what it said.  Take
    a reachable slot with a current ballot, whose c and h have [uint32] counters, and the
    envelope it makes of itself.  The slot of the restarted node, restored from that
    envelope, has exactly the members the statement determines, holds the envelope as
    the last one it emitted, and when it makes an envelope of itself it is that envelope
    again.  From CONFIRM on it is in the same phase with the same c and h, so it is bound
    to the same value. *)
Theorem restore_own_statement d ln index s env s1 :
  reachable ln index s -> mCurrentBallot (ballot s) <> None -> CountersU32 (ballot s) ->
  ownEnvelope d ln s = Ok env s1 ->
  exists s', slotSetStateFromEnvelope ln env (initSlot ln index) = Ok tt s' /\
    restored (statement env) (ballot s') /\
    mLastEnvelopeEmit (ballot s') = Some env /\
    ownEnvelope d ln s' = Ok env s' /\
    (mPhase (ballot s) <> SCP_PHASE_PREPARE ->
     mPhase (ballot s') = mPhase (ballot s) /\ mHighBallot (ballot s') = mHighBallot (ballot s) /\
     mCommit (ballot s') = mCommit (ballot s)).
Proof.
  intros R Hb HU He. destruct (reachable_inv _ _ _ R) as [[I _] Hi].
  assert (Presentable (ballot s)) as P by (eapply ownEnvelope_presentable; [apply I|done]).
  rewrite ownEnvelope_ok in He by done. injection He as <- _.
  destruct (slotSetState_restored d ln s index Hi) as (s' & E & F & L & Hi').
  destruct (restored_presentable ln (ballot s) (ballot s') _ _ P Hb HU F) as (P' & Ep & Hc).
  exists s'. split_and!; try done. rewrite ownEnvelope_ok by done. unfold envelopeOf. by rewrite Ep, Hi, Hi'.
Qed.

Lemma restore_own_statement_witness :
  exists env s', ownEnvelope Example.driver (Example.node 1) Example.confirmed = Ok env Example.confirmed /\
    slotSetStateFromEnvelope (Example.node 1) env (initSlot (Example.node 1) 9) = Ok tt s' /\
    ownEnvelope Example.driver (Example.node 1) s' = Ok env s' /\
    mCommit (ballot s') = mCommit (ballot Example.confirmed).
Proof.
  eexists. edestruct (restore_own_statement Example.driver (Example.node 1) 9 Example.confirmed)
    as (s' & H1 & _ & _ & H2 & H3);
    [apply Example.confirmed_reachable|discriminate| |
     |exists s'; split; [|split; [exact H1|split; [exact H2|by apply H3]]]].
  - split; intros x [= <-]; split; discriminate.
  - vm_compute. reflexivity.
  - by vm_compute.
Defined.


(** ** Behaviour the code does not intend *)

Module Findings.

Import Example.

Definition commitsTo (st : SCPStatement) : bool :=
  match pledges st with SCP_ST_CONFIRM _ | SCP_ST_EXTERNALIZE _ => true | _ => false end.

(** [isStatementSane] does not require the counter of [prepared] to be positive.
    With a quorum slice of three out of four, a node that has no ballot yet and
    hears one honest PREPARE and one PREPARE with [prepared = (0, v)] confirms
    (0, v) as prepared, takes it as its current ballot and aborts in
    [checkInvariants]. *)
Theorem zero_prepared_counter_aborts :
  match runAll (node 1)
          [InEnvelope (prepare 2 1 (Some (mkBallot 1 v1)) 0 0);
           InEnvelope (prepare 3 1 (Some (mkBallot 0 v1)) 0 0)] (initSlot (node 1) 9) with
  | Err f _ => f = AssertFailure "mCurrentBallot->getBallot().counter != 0"
  | Ok _ _ => False
  end.
Proof. by vm_compute. Qed.

(** Once a node has externalized and moved on, [ballotGetState] reports no
    peer it heard from as agreeing, not even one that externalized the same
    value: the test for "has not externalized yet" is always true, so every such
    peer is DELAYED unless it committed to another value. *)
Theorem moved_on_reports_delayed ln n s e self :
  mPhase s = SCP_PHASE_EXTERNALIZE -> n <> mNodeID ln ->
  mapFind (mLatestEnvelopes s) n = Some e -> mLastEnvelopeEmit s = Some self ->
  ballotGetState ln n true s =
    if commitsTo (statement e) &&
       negb (areBallotsCompatible (getWorkingBallot (statement e)) (getWorkingBallot (statement self)))
    then DISAGREE else DELAYED.
Proof.
  intros Hp Hn He Hs. unfold ballotGetState. rewrite (proj2 (Z.eqb_neq _ _) Hn), He, Hs, Hp.
  rewrite bool_decide_eq_true_2 by done. unfold commitsTo.
  destruct (pledges (statement e)); cbn [negb orb andb]; rewrite ?orb_true_r; reflexivity.
Qed.

Definition lastSent (s : BallotState) : SCPEnvelope :=
  match mLastEnvelopeEmit s with Some e => e | None => prepare 1 1 None 0 0 end.

Definition heardBack : SlotState := Eval vm_compute in
  match runAll (node 1)
          [InEnvelope (env 2 (SCP_ST_EXTERNALIZE (mkExternalize (mkBallot 1 v1) 1 11)))] externalized with
  | Ok _ s => s
  | Err _ s => s
  end.

Lemma moved_on_reports_delayed_witness : ballotGetState (node 1) 2 true (ballot heardBack) = DELAYED.
Proof.
  refine (moved_on_reports_delayed (node 1) 2 (ballot heardBack)
    (env 2 (SCP_ST_EXTERNALIZE (mkExternalize (mkBallot 1 v1) 1 11)))
    (lastSent (ballot heardBack)) _ _ _ _).
  - reflexivity.
  - discriminate.
  - reflexivity.
  - reflexivity.
Defined.

Definition conflicting (n : NodeID) (v : Value) : SlotInput :=
  InEnvelope (env n (SCP_ST_EXTERNALIZE (mkExternalize (mkBallot 1 v) 1 11))).

(** Two peers that externalize different values take the local counter to the
    largest one; the next timer wraps it to zero and aborts. *)
Theorem largest_counter_wraps :
  match runAll (node 1) [InBumpState v1 true; conflicting 2 [6]; conflicting 3 [7]; InBallotTimer]
          (initSlot (node 1) 9) with
  | Err f s => f = AssertFailure "compareBallots(mCurrentBallot, ballot) <= 0" /\
               localCounter (ballot s) = UINT32_MAX
  | Ok _ _ => False
  end.
Proof. by vm_compute. Qed.

End Findings.
