(* ===== verification/NominationFacts.v ===== *)
(** * What nomination guarantees

    The order on nominations, the invariant of the vote sets, and the choice of
    new votes and leaders. *)

From Stdlib Require Import Sorted.
From stdpp Require Import base list gmap strings.
From S2P Require Import Prelude Numeric QuorumSet LocalNode Statement SlotState Ballot BallotInv.
From S2P Require Import Nomination Frames SlotInv SlotFacts.

Local Open Scope Z_scope.

(** ** Sorted sets of values *)

Definition vlt (a b : Value) : Prop := valueLt a b = true.

Lemma strictlySorted_iff l : strictlySorted l = true <-> StronglySorted vlt l.
Proof.
  induction l as [|x l IH]; [split; [constructor|done]|].
  destruct l as [|y l]; [split; [repeat constructor|done]|].
  cbn [strictlySorted]. rewrite andb_true_iff, IH. split.
  - intros [Hxy Hs]. constructor; [done|]. constructor; [done|].
    apply StronglySorted_inv in Hs as [_ Hs]. rewrite List.Forall_forall in *.
    intros z Hz. specialize (Hs z Hz). by eapply valueLt_trans.
  - intros Hs. apply StronglySorted_inv in Hs as [Hs Hx]. split; [by inversion Hx|done].
Qed.

Lemma stdIncludes_spec v p :
  StronglySorted vlt v -> StronglySorted vlt p -> stdIncludes v p = true <-> incl p v.
Proof.
  revert p. induction v as [|x v IH]; intros [|y p] Hv Hp; cbn [stdIncludes];
    try (split; [intros _; apply incl_nil_l|done]).
  - split; [done|]. intros H. by destruct (H y (or_introl eq_refl)).
  - apply StronglySorted_inv in Hv as [Hv Hx]. pose proof Hp as Hp'.
    apply StronglySorted_inv in Hp' as [Hp' Hy]. rewrite List.Forall_forall in Hx, Hy. unfold vlt in Hx, Hy.
    assert (forall z, In z (y :: p) -> valueLt x y = true -> valueLt x z = true) as Hup.
    { intros z [<-|Hz] Hxy; [done|]. eapply valueLt_trans; [done|by apply Hy]. }
    destruct (valueLt y x) eqn:Hyx; [|destruct (valueLt x y) eqn:Hxy].
    + split; [done|]. intros H. destruct (H y (or_introl eq_refl)) as [->|Hin].
      * by rewrite valueLt_irrefl in Hyx.
      * specialize (Hx y Hin). pose proof (valueLt_trans _ _ _ Hx Hyx). by rewrite valueLt_irrefl in *.
    + rewrite (IH (y :: p)) by done. split; intros H z Hz; [right; by apply H|].
      destruct (H z Hz) as [->|?]; [|done]. specialize (Hup z Hz eq_refl). by rewrite valueLt_irrefl in Hup.
    + assert (x = y) as -> by (by apply valueLt_total). rewrite (IH p) by done. split; intros H z Hz.
      * destruct Hz as [<-|Hz]; [by left|right; by apply H].
      * destruct (H z (or_intror Hz)) as [->|?]; [|done]. specialize (Hy z Hz).
        by rewrite valueLt_irrefl in Hy.
Qed.

Lemma StronglySorted_NoDup l : StronglySorted vlt l -> NoDup l.
Proof.
  induction 1 as [|x l H IH Hx]; constructor; [|done]. rewrite list_elem_of_In. intros Hin.
  rewrite List.Forall_forall in Hx. specialize (Hx x Hin). unfold vlt in Hx. by rewrite valueLt_irrefl in Hx.
Qed.

(** Two sorted lists with the same elements are equal. *)
Lemma sorted_incl_eq p v :
  StronglySorted vlt p -> StronglySorted vlt v -> incl p v -> length p = length v -> p = v.
Proof.
  revert v. induction p as [|x p IH]; intros [|y v] Hp Hv Hi Hl; try done.
  apply StronglySorted_inv in Hp as [Hp Hx]. apply StronglySorted_inv in Hv as [Hv Hy].
  rewrite List.Forall_forall in Hx, Hy. unfold vlt in Hx, Hy. injection Hl as Hl.
  assert (incl p v) as Hpv.
  { intros z Hz. destruct (Hi z (or_intror Hz)) as [->|]; [|done]. exfalso.
    specialize (Hx z Hz). destruct (Hi x (or_introl eq_refl)) as [->|Hxv].
    - by rewrite valueLt_irrefl in Hx.
    - specialize (Hy x Hxv). pose proof (valueLt_trans _ _ _ Hx Hy). by rewrite valueLt_irrefl in *. }
  assert (p = v) as -> by (by apply IH). f_equal.
  destruct (Hi x (or_introl eq_refl)) as [->|Hxv]; [done|]. specialize (Hx x Hxv).
  by rewrite valueLt_irrefl in Hx.
Qed.

Lemma isSubsetHelper_spec p v :
  StronglySorted vlt p -> StronglySorted vlt v ->
  ((isSubsetHelper p v).1 = true <-> incl p v) /\ ((isSubsetHelper p v).2 = true <-> p <> v).
Proof.
  intros Hp Hv. unfold isSubsetHelper. pose proof (stdIncludes_spec v p Hv Hp) as Hs.
  destruct (Nat.leb_spec (length p) (length v)) as [Hle|Hgt].
  - destruct (stdIncludes v p) eqn:E; cbn.
    + assert (incl p v) as Hi by by apply Hs. split; [done|].
      destruct (Nat.eqb_spec (length p) (length v)) as [Hl|Hl]; cbn.
      * split; [done|]. intros H. destruct H. by apply sorted_incl_eq.
      * split; [|done]. intros _ ->. done.
    + split; [split; [done|]; intros H; by apply Hs in H|]. split; [|done]. intros _ ->.
      assert (incl v v) as H by apply incl_refl. by apply Hs in H.
  - cbn. split; [|split; [|done]; intros _ ->; lia]. split; [done|]. intros H. exfalso.
    pose proof (NoDup_incl_length (proj1 (NoDup_ListNoDup p) (StronglySorted_NoDup p Hp)) H). lia.
Qed.

(** On sane nominations (both lists strictly sorted), [isNewerNomination] says
    exactly that the votes and the accepted values of the old one are all in the
    new one and that at least one of the two sets grew. *)
Theorem isNewerNomination_spec o n :
  isSane o = true -> isSane n = true ->
  isNewerNomination o n = true <->
  incl (n_votes o) (n_votes n) /\ incl (n_accepted o) (n_accepted n) /\
  (n_votes o <> n_votes n \/ n_accepted o <> n_accepted n).
Proof.
  unfold isSane. rewrite !andb_true_iff, !strictlySorted_iff. intros [[_ Hov] Hoa] [[_ Hnv] Hna].
  unfold isNewerNomination.
  destruct (isSubsetHelper_spec _ _ Hov Hnv) as [V1 V2].
  destruct (isSubsetHelper_spec _ _ Hoa Hna) as [A1 A2].
  destruct (isSubsetHelper (n_votes o) (n_votes n)) as [[] g1]; cbn in *; [|intuition congruence].
  destruct (isSubsetHelper (n_accepted o) (n_accepted n)) as [[] g2]; cbn in *; [|intuition congruence].
  rewrite orb_true_iff. tauto.
Qed.

Lemma isNewerNomination_spec_witness :
  isNewerNomination (mkNomination 1 [[1]; [2]] []) (mkNomination 1 [[1]; [2]] [[2]]) = true <->
  incl [[1]; [2]] [[1]; [2]] /\ incl [] [[2]] /\ ([[1]; [2]] <> [[1]; [2]] \/ [] <> [[2]]).
Proof. apply (isNewerNomination_spec (mkNomination 1 [[1]; [2]] [])); reflexivity. Defined.

(** ** The ballot protocol leaves the vote sets alone *)

Definition SameSets (s s' : SlotState) : Prop :=
  (mVotes (nomination s'), mAccepted (nomination s'), mCandidates (nomination s')) =
  (mVotes (nomination s), mAccepted (nomination s), mCandidates (nomination s)).

#[export] Instance SameSets_preorder : PreOrder SameSets.
Proof. split; [by intros s|]. intros s1 s2 s3 H G. unfold SameSets in *. congruence. Qed.

#[export] Instance SameSets_ballot : KeepsBallot SameSets.
Proof. split; first [exact _|by intros; intros s|done]. Qed.

(** ** The vote sets *)

(** X, Y and Z are sets, every accepted value is also voted for, and every
    candidate is accepted. *)
Definition NSets (n : NominationState) : Prop :=
  StronglySorted vlt (mVotes n) /\ StronglySorted vlt (mAccepted n) /\
  StronglySorted vlt (mCandidates n) /\
  incl (mAccepted n) (mVotes n) /\ incl (mCandidates n) (mAccepted n).

(** The sets only grow, and stay well formed. *)
Definition Grows (s s' : SlotState) : Prop :=
  NSets (nomination s) ->
  NSets (nomination s') /\ incl (mVotes (nomination s)) (mVotes (nomination s')) /\
  incl (mAccepted (nomination s)) (mAccepted (nomination s')) /\
  incl (mCandidates (nomination s)) (mCandidates (nomination s')).

#[export] Instance Grows_preorder : PreOrder Grows.
Proof.
  split.
  - intros s H. repeat split; try apply H; apply incl_refl.
  - intros s1 s2 s3 H G N1. destruct (H N1) as (N2 & V2 & A2 & C2).
    destruct (G N2) as (N3 & V3 & A3 & C3).
    split; [done|]. split; [by eapply incl_tran|]. split; by eapply incl_tran.
Qed.

Lemma same_grows s s' : SameSets s s' -> Grows s s'.
Proof.
  intros H N. injection H as Hv Ha Hc. unfold NSets in *. rewrite Hv, Ha, Hc.
  split; [done|]. repeat split; apply incl_refl.
Qed.

Lemma keeps_same_grows {A} (m : SM A) : keeps SameSets m -> keeps Grows m.
Proof. intros H s. eapply wp_mono; [apply H|]. cbv beta. intros a s'. apply same_grows. Qed.

Lemma valueInsert_In v l x : In x (valueInsert v l) <-> x = v \/ In x l.
Proof.
  unfold valueInsert. induction l as [|y l IH]; cbn; [intuition congruence|].
  destruct (valueLt v y) eqn:H1; cbn; [intuition congruence|].
  destruct (valueLt y v) eqn:H2; cbn; [rewrite IH; intuition congruence|].
  assert (v = y) as -> by (by apply valueLt_total). intuition congruence.
Qed.

Lemma valueInsert_sorted v l : StronglySorted vlt l -> StronglySorted vlt (valueInsert v l).
Proof.
  induction 1 as [|y l H IH Hy]; cbn; [repeat constructor|]. unfold valueInsert in *. cbn.
  rewrite List.Forall_forall in Hy.
  destruct (valueLt v y) eqn:H1; [|destruct (valueLt y v) eqn:H2].
  - constructor; [by constructor; [|apply List.Forall_forall]|]. apply List.Forall_forall.
    intros z [<-|Hz]; [done|]. eapply valueLt_trans; [done|by apply Hy].
  - constructor; [done|]. apply List.Forall_forall. intros z Hz.
    apply (valueInsert_In v l z) in Hz as [->|Hz]; [done|by apply Hy].
  - by constructor; [|apply List.Forall_forall].
Qed.

Lemma incl_valueInsert v l : incl l (valueInsert v l).
Proof. intros x Hx. apply valueInsert_In. by right. Qed.

Definition addVote (v : Value) (n : NominationState) := set_votes (valueInsert v (mVotes n)) n.

Lemma grows_vote v : keeps Grows (modN (addVote v)).
Proof.
  intros s (Sv & Sa & Sc & Iav & Ica). cbn.
  repeat split; cbn; try done; try apply incl_refl; try apply incl_valueInsert.
  - by apply valueInsert_sorted.
  - eapply incl_tran; [done|apply incl_valueInsert].
Qed.

(** Accepting a value also votes for it. *)
Lemma grows_accept v {A} (k : SM A) :
  keeps Grows k ->
  keeps Grows (do* modN (fun n => set_accepted (valueInsert v (mAccepted n)) n) in
               do* modN (fun n => set_votes (valueInsert v (mVotes n)) n) in k).
Proof.
  intros Hk s. apply wp_bind, wp_modN, wp_bind, wp_modN. set (s2 := onNomination _ _).
  eapply wp_mono; [apply Hk|]. cbv beta. intros a s' G. etransitivity; [|exact G].
  intros (Sv & Sa & Sc & Iav & Ica). subst s2. cbn.
  repeat split; cbn; try done; try apply incl_refl; try apply incl_valueInsert;
    try by apply valueInsert_sorted.
  - intros x Hx. apply valueInsert_In in Hx as [->|Hx]; apply valueInsert_In; [by left|].
    right. by apply Iav.
  - eapply incl_tran; [done|apply incl_valueInsert].
Qed.

Lemma grows_quiet f :
  (forall n, mVotes (f n) = mVotes n /\ mAccepted (f n) = mAccepted n /\ mCandidates (f n) = mCandidates n) ->
  keeps Grows (modN f).
Proof.
  intros H. apply keeps_same_grows. intros s. unfold SameSets. cbn.
  destruct (H (nomination s)) as (-> & -> & ->). done.
Qed.

Lemma grows_notify e : keeps Grows (notify e).
Proof. apply keeps_same_grows. keep. Qed.
Lemma grows_record st : keeps Grows (recordStatement st).
Proof. apply keeps_same_grows. by intros s. Qed.

#[local] Hint Resolve grows_notify grows_record grows_vote : keeps.
#[local] Hint Extern 2 (keeps Grows (modN _)) => apply grows_quiet; done : keeps.
#[local] Hint Extern 2 (keeps Grows (modN (fun n => set_votes (valueInsert ?v _) n))) =>
  apply (grows_vote v) : keeps.

Section Grow.
Context (d : SCPDriver) (ln : LocalNodeState).

Lemma grows_getNodePriority id q : keeps Grows (getNodePriority d ln id q).
Proof. unfold getNodePriority, hashNode. keep. Qed.
#[local] Hint Resolve grows_getNodePriority : keeps.

Lemma grows_topLeaders nodes q top l : keeps Grows (topLeaders d ln nodes q top l).
Proof.
  revert top l. induction nodes as [|n nodes IH]; cbn [topLeaders]; [keep|]. intros top l.
  apply keeps_bind; [exact _|apply grows_getNodePriority|]. intros w. destruct (top <? w); apply IH.
Qed.
#[local] Hint Resolve grows_topLeaders : keeps.

Lemma grows_leadersLoop fuel q n : keeps Grows (leadersLoop d ln fuel q n).
Proof. induction fuel as [|fuel IH]; cbn [leadersLoop]; keep. Qed.

Lemma grows_newValueLoop values h v : keeps Grows (newValueLoop d values h v).
Proof.
  revert h v. induction values as [|x values IH]; cbn [newValueLoop];
    unfold nomValidate, nomExtract, hashValue; keep.
Qed.
#[local] Hint Resolve grows_newValueLoop : keeps.

Lemma grows_acceptVotes votes m : keeps Grows (acceptVotes d ln votes m).
Proof.
  revert m. induction votes as [|x votes IH]; cbn [acceptVotes]; [keep|]. intros m.
  apply keeps_bind; [exact _|keep|]. intros n. destruct (valueMem x (mAccepted n)); [done|].
  destruct (federatedAccept _ _ _ _ _); [|done]. unfold nomValidate, nomExtract.
  apply keeps_bind; [exact _|keep|]. intros [| |]; [keep..|]. by apply grows_accept.
Qed.

Lemma grows_voteFromLeader n nom : keeps Grows (voteFromLeader d n nom).
Proof. unfold voteFromLeader, getNewValueFromNomination. keep. Qed.

Lemma grows_votesFromLeaders ls u : keeps Grows (votesFromLeaders d ls u).
Proof.
  revert u. induction ls as [|l ls IH]; cbn [votesFromLeaders];
    unfold getNewValueFromNomination; keep.
Qed.

(** The promotion loop runs over the accepted values, so it only makes
    candidates of accepted values. *)
Lemma grows_ratify acc m s :
  incl acc (mAccepted (nomination s)) ->
  wp anyFault (ratifyAccepted d ln acc m) (fun _ s' => Grows s s') s.
Proof.
  revert m s. induction acc as [|a acc IH]; intros m s Hi; cbn [ratifyAccepted]; [apply wp_ret; reflexivity|].
  assert (incl acc (mAccepted (nomination s))) as Hi' by (intros x Hx; apply Hi; by right).
  apply wp_bind. change (wp anyFault (getN id) ?Q s) with (Q (nomination s) s). cbv beta.
  destruct (valueMem a (mCandidates (nomination s))); [by apply IH|].
  destruct (federatedRatify _ _ _ _); [|by apply IH].
  apply wp_bind, wp_modN. eapply wp_mono; [by apply IH|]. cbv beta. intros ? s' G.
  etransitivity; [|exact G]. intros (Sv & Sa & Sc & Iav & Ica). cbn.
  repeat split; cbn; try done; try apply incl_refl; try apply incl_valueInsert;
    try by apply valueInsert_sorted.
  intros x Hx. apply valueInsert_In in Hx as [->|Hx]; [apply Hi; by left|by apply Ica].
Qed.

Section Reentry.
Context (slotProcess : SCPEnvelope -> bool -> SM EnvelopeState) (aFuel : nat).
Hypothesis grows_slotProcess : forall env self, keeps Grows (slotProcess env self).
#[local] Hint Resolve grows_slotProcess : keeps.

Lemma grows_emitNomination : keeps Grows (emitNomination d ln slotProcess).
Proof. unfold emitNomination, createEnvelope, throw. keep. Qed.
#[local] Hint Resolve grows_emitNomination grows_acceptVotes grows_voteFromLeader : keeps.

Lemma grows_bumpState v f : keeps Grows (bumpState d ln (advanceSlot d ln aFuel) v f).
Proof. apply keeps_same_grows, keeps_bumpState; [exact _|]. intros st. apply keeps_advanceSlot. exact _. Qed.
#[local] Hint Resolve grows_bumpState : keeps.

Lemma grows_nominationProcess env :
  keeps Grows (nominationProcessEnvelope d ln slotProcess (advanceSlot d ln aFuel) env).
Proof.
  unfold nominationProcessEnvelope, recordNomination.
  apply keeps_bind; [exact _|keep|]. intros nom. apply keeps_bind; [exact _|keep|]. intros newer.
  destruct (negb newer); [keep|]. destruct (negb (isSane nom)); [keep|].
  apply keeps_bind; [exact _|keep|]. intros _. apply keeps_bind; [exact _|keep|]. intros started.
  apply keeps_bind; [exact _| |keep]. apply keeps_when; [exact _|].
  apply keeps_bind; [exact _|keep|]. intros m1 s. apply wp_bind.
  change (wp anyFault (getN mAccepted) ?Q s) with (Q (mAccepted (nomination s)) s). cbv beta.
  apply wp_bind. eapply wp_mono; [apply grows_ratify, incl_refl|]. cbv beta. intros nc s1 G1.
  assert (forall A (k : SM A), keeps Grows k -> wp anyFault k (fun _ s' => Grows s s') s1) as Hk.
  { intros A k H. eapply wp_mono; [apply H|]. cbv beta. intros ? s2 G2. by transitivity s1. }
  apply Hk. keep.
Qed.

Lemma grows_nominate fuel v p t : keeps Grows (nominate d ln slotProcess fuel v p t).
Proof.
  unfold nominate, updateRoundLeaders. pose proof grows_leadersLoop. pose proof grows_votesFromLeaders. keep.
Qed.

Lemma grows_slotBody env self :
  keeps Grows (slotBody d ln slotProcess (advanceSlot d ln aFuel) env self).
Proof.
  unfold slotBody. pose proof grows_nominationProcess.
  assert (forall e b, keeps Grows (processEnvelope d (advanceSlot d ln aFuel) e b)).
  { intros e b. apply keeps_same_grows, keeps_processEnvelope; [exact _|]. intros.
    apply keeps_advanceSlot. exact _. }
  assert (keeps Grows (maybeSetGotVBlocking ln))
    by (apply keeps_same_grows, keeps_maybeSetGotVBlocking; exact _).
  keep.
Qed.

End Reentry.

Lemma grows_slotProcessEnvelope fuel aFuel env self :
  keeps Grows (slotProcessEnvelope d ln fuel aFuel env self).
Proof.
  revert env self. induction fuel as [|fuel IH]; intros env self; cbn [slotProcessEnvelope]; [keep|].
  by apply grows_slotBody.
Qed.

Lemma grows_runInput fuel aFuel i : keeps Grows (runInput d ln fuel aFuel i).
Proof.
  assert (forall st, keeps SameSets (advanceSlot d ln aFuel st)) by (intros; apply keeps_advanceSlot; exact _).
  destruct i; cbn [runInput]; unfold ballotProtocolTimerExpired, slotNominate;
    try solve [apply keeps_same_grows; pose proof (keeps_bumpState SameSets d ln); pose proof (keeps_abandonBallot SameSets d ln); keep].
  - pose proof grows_slotProcessEnvelope. keep.
  - pose proof (grows_nominate (slotProcessEnvelope d ln fuel aFuel)).
    pose proof grows_slotProcessEnvelope. keep.
Qed.

End Grow.

(** ** Properties *)

(** Three nodes nominate [[5]] to node 1, whose only leader is node 4; node 1
    accepts the value, makes it a candidate and starts the ballot protocol. *)
Module NominationRun.

Import Example.

Definition vote (n : NodeID) (votes acc : list Value) : SlotInput :=
  InEnvelope (env n (SCP_ST_NOMINATE (mkNomination 11 votes acc))).

Definition inputs : list SlotInput :=
  [InNominate [9] [1] false; vote 2 [v1] []; vote 3 [v1] []; vote 4 [v1] [];
   vote 2 [v1] [v1]; vote 3 [v1] [v1]].

Definition nominated : SlotState := Eval vm_compute in
  final (runAll (node 1) inputs (initSlot (node 1) 9)).

Lemma nominated_run : runAll (node 1) inputs (initSlot (node 1) 9) = Ok tt nominated.
Proof. by vm_compute. Qed.

Lemma nominated_reachable :
  reachable (node 1) 9 nominated /\ leads (node 1) (initSlot (node 1) 9) nominated.
Proof.
  eapply (runAll_reachable _ _ inputs); [apply reach_init|apply leads_refl|done|apply nominated_run].
Qed.

Lemma nominated_sets :
  mCandidates (nomination nominated) = [v1] /\ mAccepted (nomination nominated) = [v1] /\
  mCurrentBallot (ballot nominated) = Some (mkBallot 1 v1).
Proof. by vm_compute. Qed.

End NominationRun.

(** C27: In every state a slot reaches, the votes, accepted values and candidates
    are sets (sorted without repetitions), every accepted value is voted for and
    every candidate is accepted; and whatever the slot handles next, no value
    ever leaves one of the three sets. *)
Theorem nomination_sets_only_grow ln index s s' :
  reachable ln index s -> leads ln s s' ->
  NSets (nomination s) /\ NSets (nomination s') /\
  incl (mVotes (nomination s)) (mVotes (nomination s')) /\
  incl (mAccepted (nomination s)) (mAccepted (nomination s')) /\
  incl (mCandidates (nomination s)) (mCandidates (nomination s')).
Proof.
  assert (forall d fuel aFuel i s s', runInput d ln fuel aFuel i s = Ok tt s' -> Grows s s') as Hstep.
  { intros d fuel aFuel i s0 s1 H. pose proof (grows_runInput d ln fuel aFuel i s0) as G.
    unfold wp in G. by rewrite H in G. }
  intros R Hl.
  assert (NSets (nomination s)) as HN.
  { clear Hl. induction R as [|d fuel aFuel i s s1 R IH Ha Hr].
    - repeat split; cbn; try constructor; apply incl_refl.
    - by apply (Hstep _ _ _ _ _ _ Hr). }
  assert (Grows s s') as G.
  { induction Hl as [|d fuel aFuel i s1 s2 Hl IH Ha Hr]; [reflexivity|].
    transitivity s1; [done|]. by eapply Hstep. }
  split; [done|]. by apply G.
Qed.

Lemma nomination_sets_only_grow_witness :
  NSets (nomination (initSlot (Example.node 1) 9)) /\ NSets (nomination NominationRun.nominated) /\
  incl [] (mVotes (nomination NominationRun.nominated)) /\
  incl [] (mAccepted (nomination NominationRun.nominated)) /\
  incl [] (mCandidates (nomination NominationRun.nominated)).
Proof.
  apply (nomination_sets_only_grow (Example.node 1) 9 (initSlot (Example.node 1) 9)).
  - apply reach_init.
  - apply NominationRun.nominated_reachable.
Defined.

(** ** The value taken from a leader *)

(** The value a node would vote for in place of [v], if any. *)
Definition nominable (d : SCPDriver) (index : Z) (v : Value) : option Value :=
  match validateValue d index v true with
  | kFullyValidatedValue => Some v
  | _ => extractValidValue d index v
  end.

Definition valueHash (d : SCPDriver) (s : SlotState) (v : Value) : Z :=
  computeValueHash d (mSlotIndex s) (mPreviousValue (nomination s)) (mRoundNumber (nomination s)) v.

(** What the loop has found among [seen]: the eligible value of highest hash. *)
Definition bestOf (d : SCPDriver) (s : SlotState) (seen : list Value) (r : option Value) : Prop :=
  let eligible y := exists v, In v seen /\ nominable d (mSlotIndex s) v = Some y /\
                              valueMem y (mVotes (nomination s)) = false in
  match r with
  | None => forall y, ~ eligible y
  | Some x => eligible x /\ forall y, eligible y -> valueHash d s y <= valueHash d s x
  end.

(** One iteration of the loop. *)
Definition chosen (d : SCPDriver) (s : SlotState) (r : option Value) (v : Value) : option Value :=
  match nominable d (mSlotIndex s) v with
  | Some x =>
      if valueMem x (mVotes (nomination s)) then r
      else if match r with Some y => valueHash d s y | None => 0 end <=? valueHash d s x
           then Some x else r
  | None => r
  end.

Lemma chosen_best d s seen r v :
  (forall v, 0 <= valueHash d s v) -> bestOf d s seen r -> bestOf d s (seen ++ [v]) (chosen d s r v).
Proof.
  intros Hpos Hb. unfold chosen, bestOf in *. cbv zeta in *.
  destruct (nominable d (mSlotIndex s) v) as [x|] eqn:Hv;
    [destruct (valueMem x (mVotes (nomination s))) eqn:Hm;
     [|destruct (Z.leb_spec (match r with Some y => valueHash d s y | None => 0 end) (valueHash d s x))]|].
  - destruct r as [r|].
    + destruct Hb as [(w & Hw & Hn & Hvm) Hb]. split; [exists w; rewrite in_app_iff; tauto|].
      intros y (u & Hu & Hy & Hym); apply in_app_iff in Hu as [Hu|[<-|[]]]; [eauto|congruence].
    + intros y (u & Hu & Hy & Hym); apply in_app_iff in Hu as [Hu|[<-|[]]]; [eapply Hb; eauto|congruence].
  - split; [exists v; rewrite in_app_iff; split; [right; by left|done]|].
    intros y (u & Hu & Hy & Hym); apply in_app_iff in Hu as [Hu|[<-|[]]]; [|simplify_eq; lia].
    destruct r as [r|]; [|by destruct (Hb y); eauto]. destruct Hb as [_ Hb].
    specialize (Hb y (ex_intro _ u (conj Hu (conj Hy Hym)))). lia.
  - destruct r as [r|]; [|specialize (Hpos x); lia].
    destruct Hb as [(w & Hw & Hn & Hvm) Hb]. split; [exists w; rewrite in_app_iff; tauto|].
    intros y (u & Hu & Hy & Hym); apply in_app_iff in Hu as [Hu|[<-|[]]]; [eauto|simplify_eq; lia].
  - destruct r as [r|].
    + destruct Hb as [(w & Hw & Hn & Hvm) Hb]. split; [exists w; rewrite in_app_iff; tauto|].
      intros y (u & Hu & Hy & Hym); apply in_app_iff in Hu as [Hu|[<-|[]]]; [eauto|congruence].
    + intros y (u & Hu & Hy & Hym); apply in_app_iff in Hu as [Hu|[<-|[]]]; [eapply Hb; eauto|congruence].
Qed.

Lemma hashValue_ok d s v :
  mPreviousValue (nomination s) <> [] -> hashValue d v s = Ok (valueHash d s v) s.
Proof.
  intros H. unfold hashValue, valueHash, bnd, mbind, M_bind, get.
  by destruct (mPreviousValue (nomination s)).
Qed.

Definition hashOf (d : SCPDriver) (s : SlotState) (r : option Value) : Z :=
  match r with Some x => valueHash d s x | None => 0 end.

Lemma newValueLoop_step d s v values r :
  mPreviousValue (nomination s) <> [] ->
  newValueLoop d (v :: values) (hashOf d s r) r s =
  newValueLoop d values (hashOf d s (chosen d s r v)) (chosen d s r v) s.
Proof.
  intros Hp. cbn [newValueLoop]. unfold chosen, nominable. fold (hashOf d s r).
  unfold nomValidate, nomExtract, bnd, mbind, M_bind, getS, getN.
  assert (forall x, match hashValue d x s with
    | Ok a s' => (if hashOf d s r <=? a then newValueLoop d values a (Some x)
                  else newValueLoop d values (hashOf d s r) r) s'
    | Err f s' => Err f s' end =
    newValueLoop d values
      (hashOf d s (if hashOf d s r <=? valueHash d s x then Some x else r))
      (if hashOf d s r <=? valueHash d s x then Some x else r) s) as Hx.
  { intros x. rewrite hashValue_ok by done. by destruct (_ <=? _). }
  destruct (validateValue d (mSlotIndex s) v true); cbn;
    try (destruct (extractValidValue d (mSlotIndex s) v) as [x|]; cbn; [|done]);
    match goal with |- context [valueMem ?y _] => destruct (valueMem y (mVotes (nomination s))); [done|] end;
    apply Hx.
Qed.

Lemma newValueLoop_spec d s values seen h r :
  mPreviousValue (nomination s) <> [] -> (forall v, 0 <= valueHash d s v) ->
  bestOf d s seen r -> h = hashOf d s r ->
  exists r', newValueLoop d values h r s = Ok r' s /\ bestOf d s (seen ++ values) r'.
Proof.
  intros Hp Hpos. revert seen h r. induction values as [|v values IH]; intros seen h r Hb ->.
  { exists r. rewrite app_nil_r. done. }
  replace (seen ++ v :: values) with ((seen ++ [v]) ++ values) by (by rewrite <- app_assoc).
  assert (bestOf d s (seen ++ [v]) (chosen d s r v)) as Hb' by (by apply chosen_best).
  destruct (IH _ _ _ Hb' eq_refl) as (r' & Hr & Hbest). exists r'. split; [|done]. rewrite <- Hr.
  by apply newValueLoop_step.
Qed.

(** The vote a node takes from a leader's nomination is a value it considers
    valid (the leader's own or one the application derives from it), that it has
    not voted for yet, and whose hash is highest among those; it takes none
    exactly when there is no such value.  Choosing does not change the slot. *)
Theorem getNewValueFromNomination_spec d nom s :
  mPreviousValue (nomination s) <> [] -> (forall v, 0 <= valueHash d s v) ->
  exists r, getNewValueFromNomination d nom s = Ok r s /\ bestOf d s (applyAll nom) r.
Proof.
  intros Hp Hpos. apply (newValueLoop_spec d s (applyAll nom) [] 0 None Hp Hpos); [|done].
  by intros y (v & [] & _).
Qed.

Lemma getNewValueFromNomination_spec_witness :
  exists r, getNewValueFromNomination Example.driver (mkNomination 11 [[3]; [5]; [7]] [])
              NominationRun.nominated = Ok r NominationRun.nominated /\
    bestOf Example.driver NominationRun.nominated [[3]; [5]; [7]] r.
Proof.
  apply (getNewValueFromNomination_spec Example.driver (mkNomination 11 [[3]; [5]; [7]] [])).
  - discriminate.
  - intros v. discriminate.
Defined.

(** ** Round leaders *)

Definition nodeHash (d : SCPDriver) (s : SlotState) (isPriority : bool) (n : NodeID) : Z :=
  computeHashNode d (mSlotIndex s) (mPreviousValue (nomination s)) isPriority
    (mRoundNumber (nomination s)) n.

(** The priority of a node in this round: its priority hash if its neighbour
    hash is within its weight, else zero. *)
Definition priority (d : SCPDriver) (ln : LocalNodeState) (q : SCPQuorumSet) (s : SlotState)
    (n : NodeID) : Z :=
  let w := if n =? mNodeID ln then UINT64_MAX
           else match getNodeWeight n q with inr w => w | inl _ => 0 end in
  if (0 <? w) && (nodeHash d s false n <=? w) then nodeHash d s true n else 0.

Lemma getNodePriority_ok d ln q s n :
  mPreviousValue (nomination s) <> [] -> (exists w, getNodeWeight n q = inr w) ->
  getNodePriority d ln n q s = Ok (priority d ln q s n) s.
Proof.
  intros Hp [w Hw].
  assert (forall b, hashNode d b n s = Ok (nodeHash d s b n) s) as Hh.
  { intros b. unfold hashNode, nodeHash, bnd, mbind, M_bind, get.
    by destruct (mPreviousValue (nomination s)). }
  unfold getNodePriority, priority, bnd, mbind, M_bind. rewrite Hw.
  set (w0 := if n =? mNodeID ln then UINT64_MAX else w).
  assert ((if n =? mNodeID ln then mret UINT64_MAX else lift (inr w)) s = Ok w0 s) as ->.
  { subst w0. by destruct (n =? mNodeID ln). }
  destruct (0 <? w0); cbn [andb]; [|done]. rewrite Hh. destruct (_ <=? w0); [apply Hh|done].
Qed.

Lemma setInsertZ_In x l y : In y (setInsert Z.ltb x l) <-> y = x \/ In y l.
Proof.
  induction l as [|z l IH]; cbn; [intuition congruence|].
  destruct (Z.ltb_spec x z); cbn; [intuition congruence|].
  destruct (Z.ltb_spec z x); cbn; [rewrite IH; intuition congruence|].
  assert (x = z) as -> by lia. intuition congruence.
Qed.

(** [l] are the nodes of highest priority [top] among the local node and [seen];
    the local node alone if nobody has a positive one. *)
Definition topOf (prio : NodeID -> Z) (self : NodeID) (seen : list NodeID) (top : Z) (l : list NodeID)
    : Prop :=
  (forall y, In y (self :: seen) -> prio y <= top) /\
  (exists y, In y (self :: seen) /\ prio y = top) /\
  (forall x, In x l <-> if 0 <? top then In x (self :: seen) /\ prio x = top else x = self).

Lemma topLeaders_spec d ln q s nodes seen top l :
  mPreviousValue (nomination s) <> [] ->
  (forall n, In n nodes -> exists w, getNodeWeight n q = inr w) ->
  (forall n, In n (mNodeID ln :: seen ++ nodes) -> 0 <= priority d ln q s n) ->
  topOf (priority d ln q s) (mNodeID ln) seen top l ->
  exists top' l', topLeaders d ln nodes q top l s = Ok l' s /\
    topOf (priority d ln q s) (mNodeID ln) (seen ++ nodes) top' l'.
Proof.
  intros Hp Hw. revert seen top l. induction nodes as [|n nodes IH]; intros seen top l Hpos Ht.
  { exists top, l. rewrite app_nil_r. done. }
  replace (seen ++ n :: nodes) with ((seen ++ [n]) ++ nodes) in * by (by rewrite <- app_assoc).
  cbn [topLeaders]. unfold bnd, mbind, M_bind. rewrite getNodePriority_ok by (done || (apply Hw; by left)).
  set (w := priority d ln q s n).
  assert (forall y, In y (mNodeID ln :: seen ++ [n]) <-> In y (mNodeID ln :: seen) \/ y = n) as Hin.
  { intros y. cbn. rewrite in_app_iff. cbn. intuition congruence. }
  destruct Ht as (Hmax & (y & Hy & Hyt) & Hl).
  assert (0 <= top).
  { rewrite <- Hyt. apply Hpos. destruct Hy as [<-|Hy]; [by left|right].
    rewrite !in_app_iff. by left; left. }
  destruct (Z.ltb_spec top w).
  - rewrite Z.eqb_refl. destruct (Z.ltb_spec 0 w); [|lia]. cbn [andb].
    apply IH; [intros m Hm; apply Hw; by right|done|]. split; [|split].
    + intros z Hz. apply Hin in Hz as [Hz|Hz]; [specialize (Hmax z Hz); lia|subst z; fold w; lia].
    + exists n. split; [apply Hin; by right|done].
    + intros x. rewrite setInsertZ_In, (proj2 (Z.ltb_lt 0 w)) by done. split.
      * intros [Hx|[]]. subst x. split; [apply Hin; by right|done].
      * intros [Hx Hxw]. left. apply Hin in Hx as [Hx|Hx]; [specialize (Hmax x Hx); lia|done].
  - apply IH; [intros m Hm; apply Hw; by right|done|]. split; [|split].
    + intros z Hz. apply Hin in Hz as [Hz|Hz]; [by apply Hmax|subst z; fold w; lia].
    + exists y. split; [apply Hin; by left|done].
    + intros x. destruct (Z.eqb_spec w top) as [Hwt|Hwt], (Z.ltb_spec 0 w); cbn [andb].
      * rewrite setInsertZ_In, Hl, <- Hwt, (proj2 (Z.ltb_lt 0 w)), Hin by done.
        split; [intros [ ->|[? ?]]; split; auto|intros [[?| ->] ?]; auto].
      * rewrite Hl, (proj2 (Z.ltb_ge 0 top)) by lia. done.
      * rewrite Hl, (proj2 (Z.ltb_lt 0 top)), Hin by lia.
        split; [intros [? ?]; auto|intros [[?| ->] ?]; [auto|subst w; lia]].
      * rewrite Hl. destruct (Z.ltb_spec 0 top); [|done]. rewrite Hin.
        split; [intros [? ?]; auto|intros [[?| ->] ?]; [auto|subst w; lia]].
Qed.

(** The leaders a round adds are exactly the nodes of highest priority among
    the local node and the nodes of its quorum set, or the local node alone when
    no node has a positive priority. *)
Theorem new_leaders_have_top_priority d ln q s :
  mPreviousValue (nomination s) <> [] ->
  (forall n, In n (allNodes q) -> exists w, getNodeWeight n q = inr w) ->
  (forall n, In n (mNodeID ln :: allNodes q) -> 0 <= priority d ln q s n) ->
  exists top l,
    topLeaders d ln (allNodes q) q (priority d ln q s (mNodeID ln)) [mNodeID ln] s = Ok l s /\
    topOf (priority d ln q s) (mNodeID ln) (allNodes q) top l.
Proof.
  intros Hp Hw Hpos. apply (topLeaders_spec d ln q s (allNodes q) []); [done..|].
  split; [intros y [<-|[]]; lia|]. split; [exists (mNodeID ln); split; [by left|done]|].
  intros x. destruct (0 <? _); cbn; intuition congruence.
Qed.

Lemma new_leaders_have_top_priority_witness :
  exists top l,
    topLeaders Example.driver (Example.node 1) (allNodes Example.q4) Example.q4
      (priority Example.driver (Example.node 1) Example.q4 NominationRun.nominated 1) [1]
      NominationRun.nominated = Ok l NominationRun.nominated /\
    topOf (priority Example.driver (Example.node 1) Example.q4 NominationRun.nominated) 1
      (allNodes Example.q4) top l.
Proof.
  apply (new_leaders_have_top_priority Example.driver (Example.node 1) Example.q4
    NominationRun.nominated).
  - discriminate.
  - intros n Hn. vm_compute in Hn.
    destruct Hn as [<-|[<-|[<-|[<-|[]]]]]; eexists; vm_compute; reflexivity.
  - intros n Hn. vm_compute in Hn.
    destruct Hn as [<-|[<-|[<-|[<-|[<-|[]]]]]]; vm_compute; discriminate.
Defined.
