(* ===== verification/Consensus.v ===== *)
(** * Agreement

    A network of nodes running the slot of [src/scp]: honest nodes run the code,
    the others send whatever they like.  If any two quorums that contain an
    honest node share an honest node, no two honest nodes externalize different
    values for a slot.

    The proof needs only what one node guarantees about itself (its accepted
    commit never changes value, its CONFIRM and EXTERNALIZE statements carry
    it) and what a node has seen when it externalizes (a quorum of such
    statements). *)

From Stdlib Require Import Sorted.
From stdpp Require Import base list gmap strings.
From S2P Require Import Prelude Numeric QuorumSet LocalNode Statement SlotState Ballot BallotInv.
From S2P Require Import Nomination Frames SlotInv SlotFacts.

Local Open Scope Z_scope.

#[local] Arguments mapFind : simpl never.

Section Network.

(** The configuration of the honest nodes, and the slot they agree on. *)
Context (cfg : NodeID -> option LocalNodeState) (index : Z).

Definition honest (n : NodeID) : Prop := cfg n <> None.

(** A driver an honest node may run with: the hash an honest node announces
    stands for its quorum set, and quorum sets are representable. *)
Definition Trusted (d : SCPDriver) : Prop :=
  (forall n ln, cfg n = Some ln -> getQSet d (mQSetHash ln) = Some (mQSet ln)) /\
  (forall h q, getQSet d h = Some q -> qset_repr q).

(** A statement by which a node commits itself. *)
Definition commits (st : SCPStatement) : bool :=
  match pledges st with
  | SCP_ST_CONFIRM _ | SCP_ST_EXTERNALIZE _ => true
  | _ => false
  end.

(** Signatures: a CONFIRM or EXTERNALIZE of an honest node was emitted by it.
    (Nothing is asked of the other statements.) *)
Definition authentic (g : NodeID -> SlotState) (i : SlotInput) : Prop :=
  forall env, i = InEnvelope env -> commits (statement env) = true ->
    honest (nodeID (statement env)) -> In env (emits (g (nodeID (statement env)))).

Definition update (g : NodeID -> SlotState) (n : NodeID) (s : SlotState) : NodeID -> SlotState :=
  fun m => if m =? n then s else g m.

Inductive network : (NodeID -> SlotState) -> Prop :=
  | network_init g :
      (forall n ln, cfg n = Some ln -> g n = initSlot ln index) -> network g
  | network_step g n ln d fuel aFuel i s' :
      network g -> cfg n = Some ln -> Trusted d -> addressed i (g n) -> authentic g i ->
      runInput d ln fuel aFuel i (g n) = Ok tt s' -> network (update g n s').

(** ** Quorums of the system *)

(** Every honest member has a quorum slice inside the set. *)
Definition quorum (U : list NodeID) : Prop :=
  forall n ln, In n U -> cfg n = Some ln -> isQuorumSlice (mQSet ln) U = true.

Definition intersection : Prop :=
  forall U V m n, quorum U -> quorum V -> In m U -> honest m -> In n V -> honest n ->
    exists x, In x U /\ In x V /\ honest x.

(** Each honest node is configured under its own identity, with a representable
    quorum set. *)
Definition wellConfigured : Prop :=
  forall n ln, cfg n = Some ln -> mNodeID ln = n /\ qset_repr (mQSet ln).

Hypothesis Hcfg : wellConfigured.

Lemma slice_incl q U V : qset_repr q -> incl U V -> isQuorumSlice q U = true -> isQuorumSlice q V = true.
Proof.
  intros Hr Hi. apply slice_mono; [done|]. intros n _. rewrite !inNodes_In. apply Hi.
Qed.

(** ** The invariant of the network *)

(** An honest member has accepted the commit of [v]. *)
Definition accepted (g : NodeID -> SlotState) (v : Value) (n : NodeID) : Prop :=
  mPhase (ballot (g n)) <> SCP_PHASE_PREPARE /\ commitValue (ballot (g n)) = Some v.

Definition backed (g : NodeID -> SlotState) (v : Value) (U : list NodeID) : Prop :=
  quorum U /\ forall n, In n U -> honest n -> accepted g v n.

Record NetInv (g : NodeID -> SlotState) : Prop := {
  net_inv : forall n ln, cfg n = Some ln -> Inv ln 0 (g n) /\ mSlotIndex (g n) = index;
  net_claims : forall n m ln lm e, cfg n = Some ln -> cfg m = Some lm -> n <> m ->
    mapFind (mLatestEnvelopes (ballot (g n))) m = Some e -> commits (statement e) = true ->
    Claim lm (g m) (statement e);
  net_quorum : forall n v, honest n -> mPhase (ballot (g n)) = SCP_PHASE_EXTERNALIZE ->
    commitValue (ballot (g n)) = Some v -> exists U, In n U /\ backed g v U
}.

Lemma backed_union g v U V : backed g v U -> backed g v V -> backed g v (U ++ V).
Proof.
  intros [QU AU] [QV AV]. split.
  - intros n ln Hn Hl. destruct (Hcfg _ _ Hl) as [_ Hr]. apply in_app_iff in Hn as [Hn|Hn].
    + eapply slice_incl; [done| |by eapply QU]. intros x Hx. apply in_app_iff. by left.
    + eapply slice_incl; [done| |by eapply QV]. intros x Hx. apply in_app_iff. by right.
  - intros n Hn Hh. apply in_app_iff in Hn as [Hn|Hn]; [by apply AU|by apply AV].
Qed.

(** The quorums behind the externalized members of a list, together. *)
Lemma backed_members g v l :
  NetInv g -> exists W, backed g v W /\
    forall n, In n l -> honest n -> mPhase (ballot (g n)) = SCP_PHASE_EXTERNALIZE ->
      commitValue (ballot (g n)) = Some v -> In n W.
Proof.
  intros N. induction l as [|n l (W & HW & IH)].
  { exists []. split; [|done]. split; [by intros n|]. by intros n. }
  destruct (decide (mPhase (ballot (g n)) = SCP_PHASE_EXTERNALIZE /\ commitValue (ballot (g n)) = Some v))
    as [[Hp Hv]|Hno].
  - destruct (cfg n) as [ln|] eqn:Hn.
    + destruct (net_quorum _ N n v) as (U & Hin & HU); [unfold honest; by rewrite Hn|done|done|].
      exists (U ++ W). split; [by apply backed_union|].
      intros m [<-|Hm] Hh Hpm Hvm; apply in_app_iff; [by left|right; by apply IH].
    + exists W. split; [done|]. intros m [<-|Hm] Hh Hpm Hvm; [by destruct Hh|by apply IH].
  - exists W. split; [done|]. intros m [<-|Hm] Hh Hpm Hvm; [by destruct Hno|by apply IH].
Qed.

(** ** One step of one node *)

Section Step.
Context (g : NodeID -> SlotState) (n : NodeID) (ln : LocalNodeState) (d : SCPDriver)
        (i : SlotInput) (s' : SlotState).
Hypotheses (N : NetInv g) (Hn : cfg n = Some ln) (Hd : Trusted d) (Hi : authentic g i)
           (I' : Inv ln 0 s') (V : Evolves d ln (sourceOf i) (g n) s').

Let g' := update g n s'.

Lemma update_same : g' n = s'.
Proof. unfold g', update. by rewrite Z.eqb_refl. Qed.

Lemma update_other m : m <> n -> g' m = g m.
Proof. intros H. unfold g', update. by rewrite (proj2 (Z.eqb_neq m n)). Qed.

Lemma accepted_step v m : accepted g v m -> accepted g' v m.
Proof.
  destruct (decide (m = n)) as [->|Hne]; unfold accepted; [|by rewrite update_other].
  rewrite update_same. intros [Hp Hv]. destruct (ev_adv _ _ _ _ _ V) as [A _ _ C _ _].
  split; [by eapply phase_above|]. by rewrite C.
Qed.

Lemma backed_step v U : backed g v U -> backed g' v U.
Proof. intros [Q A]. split; [done|]. intros m Hm Hh. by apply accepted_step, A. Qed.

Lemma claim_step m lm st : Claim lm (g m) st -> Claim lm (g' m) st.
Proof.
  destruct (decide (m = n)) as [->|Hne]; [|by rewrite update_other]. rewrite update_same.
  apply Claim_mono; apply V.
Qed.

(** What the node holds of another honest node is still true. *)
Lemma new_claims m lm e :
  cfg m = Some lm -> n <> m -> mapFind (mLatestEnvelopes (ballot s')) m = Some e ->
  commits (statement e) = true -> Claim lm (g m) (statement e).
Proof.
  intros Hm Hne He Hc. destruct (Hcfg _ _ Hn) as [Hid _].
  destruct (ev_from _ _ _ _ _ V m e) as [Hold|[Hsrc Hnode]]; [congruence|done|..].
  - by eapply (net_claims _ N n m).
  - destruct i as [env| | | | |]; try done. cbn in Hsrc. injection Hsrc as ->.
    assert (In e (emits (g m))) as Hin.
    { rewrite <- Hnode. apply (Hi e eq_refl Hc). rewrite Hnode. unfold honest. by rewrite Hm. }
    destruct (net_inv _ N m lm Hm) as [[Im _] _]. by eapply inv_emits.
Qed.

Lemma commitPredicate_claim bal cur m lm st :
  commitPredicate bal cur st = true -> Claim lm (g m) st ->
  accepted g (value bal) m /\
  (getQuorumSetFromStatement d st = getQSet d (mQSetHash lm) \/
   mPhase (ballot (g m)) = SCP_PHASE_EXTERNALIZE).
Proof.
  unfold commitPredicate, Claim, accepted, getQuorumSetFromStatement.
  intros H (_ & _ & C). destruct (pledges st) as [p|c|e|x]; try done.
  - destruct (areBallotsCompatible bal (c_ballot c)) eqn:Hb; [|done]. apply compat_iff in Hb.
    destruct C as (Hh & Hp & Hv). rewrite Hb, Hh. split; [done|by left].
  - destruct (areBallotsCompatible bal (e_commit e)) eqn:Hb; [|done]. apply compat_iff in Hb.
    destruct C as (Hp & Hv). rewrite Hb, Hp. split; [done|by right].
Qed.

Lemma commitPredicate_commits bal cur st : commitPredicate bal cur st = true -> commits st = true.
Proof. unfold commitPredicate, commits. by destruct (pledges st). Qed.

(** A node that externalizes has a backed quorum. *)
Lemma externalized_backed v :
  Evidence d ln s' -> mPhase (ballot s') = SCP_PHASE_EXTERNALIZE -> commitValue (ballot s') = Some v ->
  exists U, In n U /\ backed g' v U.
Proof.
  intros (M & bal & cur & Ho & HM & Hq & Hv') Hp Hv. assert (value bal = v) as <- by congruence.
  destruct (Hcfg _ _ Hn) as [Hid Hr]. destruct Hd as [Hd1 Hd2]. rewrite Hid in HM.
  apply isQuorum_sound in Hq as (U0 & HU0 & Hs0); [|by apply ordered_NoDup|].
  2: { intros k st qs _ Hqs. unfold qsetOfEnvelope, getQuorumSetFromStatement in Hqs.
    destruct (pledges (statement st)); try (by eapply Hd2).
    injection Hqs as <-. split; [reflexivity|vm_compute; discriminate]. }
  destruct (backed_members g (value bal) U0 N) as (W & HW & HinW).
  assert (forall m lm, In m U0 -> cfg m = Some lm -> m <> n ->
    accepted g (value bal) m /\ (isQuorumSlice (mQSet lm) U0 = true \/ In m W)) as Hmem.
  { intros m lm Hm Hlm Hne. destruct (HU0 m Hm) as (st & qs & H1 & H2 & H3 & H4).
    rewrite HM in H1 by done.
    assert (Claim lm (g m) (statement st)) as C.
    { eapply new_claims; [done|congruence|done|]. by eapply commitPredicate_commits. }
    destruct (commitPredicate_claim _ _ _ _ _ H2 C) as [Ha [Hqs|Hext]]; (split; [done|]).
    - left. unfold qsetOfEnvelope in H3. rewrite Hqs, (Hd1 m lm Hlm) in H3. congruence.
    - right. apply HinW; [done|unfold honest; by rewrite Hlm|done|apply Ha]. }
  assert (accepted g' (value bal) n) as Han.
  { unfold accepted. rewrite update_same, Hp. done. }
  apply backed_step in HW. destruct HW as [QW AW].
  exists (n :: U0 ++ W). split; [by left|]. split.
  - intros m lm Hm Hlm. destruct (Hcfg _ _ Hlm) as [_ Hrm].
    assert (incl U0 (n :: U0 ++ W)) as I0 by (intros x Hx; right; apply in_app_iff; by left).
    assert (incl W (n :: U0 ++ W)) as IW by (intros x Hx; right; apply in_app_iff; by right).
    assert (In m W -> isQuorumSlice (mQSet lm) (n :: U0 ++ W) = true) as HmW.
    { intros Hx. eapply slice_incl; [done|apply IW|by eapply QW]. }
    destruct (decide (m = n)) as [->|Hne].
    + assert (lm = ln) as -> by congruence. by eapply slice_incl; [|apply I0|].
    + destruct Hm as [Hm|Hm]; [by symmetry in Hm|]. apply in_app_iff in Hm as [Hm|Hm]; [|by apply HmW].
      destruct (Hmem m lm Hm Hlm Hne) as [_ [Hs|Hx]]; [|by apply HmW]. by eapply slice_incl; [|apply I0|].
  - intros m Hm Hh. destruct (decide (m = n)) as [->|Hne]; [done|].
    destruct Hm as [Hm|Hm]; [by symmetry in Hm|]. apply in_app_iff in Hm as [Hm|Hm]; [|by apply AW].
    unfold honest in Hh. destruct (cfg m) as [lm|] eqn:Hlm; [|done].
    apply accepted_step. by eapply Hmem.
Qed.

Lemma step_NetInv : mSlotIndex s' = index -> NetInv g'.
Proof.
  intros Hidx. split.
  - intros m lm Hm. destruct (decide (m = n)) as [->|Hne].
    + rewrite update_same. assert (lm = ln) as -> by congruence. done.
    + rewrite update_other by done. by apply N.
  - intros k m lk lm e Hk Hm Hne He Hc. apply claim_step. destruct (decide (k = n)) as [->|Hkn].
    + rewrite update_same in He. by eapply new_claims.
    + rewrite update_other in He by done. by eapply (net_claims _ N k m).
  - intros m v Hh Hp Hv. destruct (decide (m = n)) as [->|Hne].
    + rewrite update_same in Hp, Hv.
      destruct (decide (mPhase (ballot (g n)) = SCP_PHASE_EXTERNALIZE)) as [He|He].
      * destruct (net_quorum _ N n v) as (U & HU & HB); [done|done| |].
        { rewrite <- Hv. symmetry. apply (adv_c _ _ (ev_adv _ _ _ _ _ V)). by rewrite He. }
        exists U. split; [done|by apply backed_step].
      * apply externalized_backed; [|done|done]. by apply (ev_ext _ _ _ _ _ V He).
    + rewrite update_other in Hp, Hv by done.
      destruct (net_quorum _ N m v Hh Hp Hv) as (U & HU & HB). exists U.
      split; [done|by apply backed_step].
Qed.

End Step.

Lemma network_inv g : network g -> NetInv g.
Proof.
  induction 1 as [g Hg|g n ln d fuel aFuel i s' _ IH Hn Hd Ha Hi Hr].
  - split.
    + intros n ln Hn. rewrite (Hg n ln Hn). split; [apply init_inv|done].
    + intros n m ln lm e Hn _ _. by rewrite (Hg n ln Hn).
    + intros n v Hh. unfold honest in Hh. destruct (cfg n) as [ln|] eqn:Hn; [|done].
      by rewrite (Hg n ln Hn).
  - destruct (net_inv _ IH n ln Hn) as [In Hx].
    destruct (runInput_inv _ _ _ _ _ _ _ In Ha Hr) as [I' V].
    eapply step_NetInv; try done. rewrite (ev_index _ _ _ _ _ V). done.
Qed.

(** Two honest nodes that externalize do so with a quorum each, and the quorums
    share an honest node. *)
Lemma externalized_agree g m n v w :
  intersection -> network g -> honest m -> honest n ->
  In v (exts (g m)) -> In w (exts (g n)) -> v = w.
Proof.
  intros HX HN Hm Hn Hv Hw. pose proof (network_inv g HN) as N.
  assert (forall k x, honest k -> In x (exts (g k)) ->
    mPhase (ballot (g k)) = SCP_PHASE_EXTERNALIZE /\ commitValue (ballot (g k)) = Some x) as Hext.
  { intros k x Hk Hx. unfold honest in Hk. destruct (cfg k) as [lk|] eqn:E; [|done].
    destruct (net_inv _ N k lk E) as [[Ik _] _].
    destruct (inv_ext _ _ _ Ik) as [H|(Hp & y & Hy & H)]; rewrite H in Hx; [done|].
    destruct Hx as [->|[]]. done. }
  destruct (Hext m v Hm Hv) as [Pm Cm]. destruct (Hext n w Hn Hw) as [Pn Cn].
  destruct (net_quorum _ N m v Hm Pm Cm) as (U & HU & QU & AU).
  destruct (net_quorum _ N n w Hn Pn Cn) as (W & HW & QW & AW).
  destruct (HX U W m n QU QW HU Hm HW Hn) as (x & HxU & HxW & Hxh).
  destruct (AU x HxU Hxh) as [_ C1]. destruct (AW x HxW Hxh) as [_ C2]. congruence.
Qed.

(** C1: Agreement.  In a network where any two quorums with an honest member
    share an honest node, two honest nodes never externalize different values
    for a slot, whatever the dishonest nodes send and in whatever order messages
    arrive and timers fire.  Honest nodes have representable quorum sets and run with
    drivers that always resolve the hash an honest node announces to its quorum set
    ([Trusted]); CONFIRM and EXTERNALIZE statements of honest nodes are authentic. *)
Theorem agreement g m n v w :
  intersection -> network g -> honest m -> honest n ->
  In v (exts (g m)) -> In w (exts (g n)) -> v = w.
Proof. apply externalized_agree. Qed.

End Network.

(** ** A run of four nodes, the fourth one silent *)

Module Run.

Import Example.

(** The nodes up to [cap] run the code. *)
Definition cfgUpTo (cap n : NodeID) : option LocalNodeState :=
  if (1 <=? n) && (n <=? cap) then Some (node n) else None.
Definition cfg4 : NodeID -> option LocalNodeState := cfgUpTo 3.

Section Cap.
Context (cap : Z).

Lemma cap_wellConfigured : wellConfigured (cfgUpTo cap).
Proof.
  intros n ln. unfold cfgUpTo. destruct (_ && _); [|done]. intros [= <-]. split; [done|].
  split; [reflexivity|]. vm_compute. discriminate.
Qed.

Lemma driver_trusted : Trusted (cfgUpTo cap) driver.
Proof.
  split.
  - intros n ln. unfold cfgUpTo. destruct (_ && _); [|done]. by intros [= <-].
  - intros h q. cbn. destruct (h =? 11); [|done]. intros [= <-].
    split; [reflexivity|]. vm_compute. discriminate.
Qed.

End Cap.

(** Any two slices share one of the first three. *)
Lemma q4_slice U :
  isQuorumSlice q4 U = true ->
  (In 1 U /\ In 2 U) \/ (In 1 U /\ In 3 U) \/ (In 2 U /\ In 3 U).
Proof.
  unfold isQuorumSlice, q4. rewrite slice_unfold by (split; [reflexivity|vm_compute; discriminate]).
  rewrite <- !inNodes_In. unfold count.
  cbn. destruct (inNodes U 1), (inNodes U 2), (inNodes U 3), (inNodes U 4); cbn; tauto || done.
Qed.

Lemma cfg4_intersection : intersection cfg4.
Proof.
  assert (forall n, honest cfg4 n -> cfg4 n = Some (node n)) as Hc.
  { intros n. unfold honest, cfg4, cfgUpTo. by destruct (_ && _). }
  intros U V m n QU QV Hm Hhm Hn Hhn.
  pose proof (q4_slice U (QU m _ Hm (Hc m Hhm))) as HU.
  pose proof (q4_slice V (QV n _ Hn (Hc n Hhn))) as HV.
  assert (honest cfg4 1 /\ honest cfg4 2 /\ honest cfg4 3) as (H1 & H2 & H3) by done.
  destruct HU as [[? ?]|[[? ?]|[? ?]]], HV as [[? ?]|[[? ?]|[? ?]]];
    (by exists 1) || (by exists 2) || (by exists 3).
Qed.

(** Hand node [n] a list of inputs. *)
Fixpoint feed (g : NodeID -> SlotState) (n : NodeID) (l : list SlotInput)
    : option (NodeID -> SlotState) :=
  match l with
  | [] => Some g
  | i :: l' =>
      match runInput driver (node n) 10 50 i (g n) with
      | Ok _ s' => feed (update g n s') n l'
      | Err _ _ => None
      end
  end.

(** Hand [n] everything [m] has emitted so far. *)
Definition flood (g : NodeID -> SlotState) (n m : NodeID) : option (NodeID -> SlotState) :=
  feed g n (map InEnvelope (emits (g m))).

Fixpoint floods (g : NodeID -> SlotState) (l : list (NodeID * NodeID)) : option (NodeID -> SlotState) :=
  match l with
  | [] => Some g
  | (n, m) :: l' => match flood g n m with Some g' => floods g' l' | None => None end
  end.

Section CapRun.
Context (cap : Z).
Hypothesis cap_le : 3 <= cap.

Lemma cap_node n : (1 <=? n) && (n <=? 3) = true -> cfgUpTo cap n = Some (node n).
Proof.
  rewrite andb_true_iff, !Z.leb_le. intros [H1 H2]. unfold cfgUpTo. by rewrite (proj2 (Z.leb_le 1 n)), (proj2 (Z.leb_le n cap)) by lia.
Qed.

Lemma network_index g n : network (cfgUpTo cap) 9 g -> (cfgUpTo cap) n = Some (node n) -> mSlotIndex (g n) = 9.
Proof.
  intros HN Hn. exact (proj2 (net_inv _ _ _ (network_inv _ _ (cap_wellConfigured cap) g HN) n _ Hn)).
Qed.

Lemma feed_network g n m l g' :
  network (cfgUpTo cap) 9 g -> (cfgUpTo cap) n = Some (node n) -> (cfgUpTo cap) m = Some (node m) -> n <> m ->
  (forall e, In e l -> In e (emits (g m))) -> feed g n (map InEnvelope l) = Some g' -> network (cfgUpTo cap) 9 g'.
Proof.
  intros HN Hn Hm Hne. revert g HN. induction l as [|e l IH]; intros g HN Hl; cbn [map feed].
  { by intros [= <-]. }
  destruct (runInput driver (node n) 10 50 (InEnvelope e) (g n)) as [[] s'|f s'] eqn:E; [|done].
  pose proof (network_inv _ _ (cap_wellConfigured cap) g HN) as NI.
  destruct (net_inv _ _ _ NI m _ Hm) as [[Im _] Hx].
  assert (In e (emits (g m))) as He by (apply Hl; by left).
  destruct (inv_emits _ _ _ Im e He) as (Hnode & Hidx & _). cbn in Hnode.
  apply IH.
  - eapply network_step; try done; [apply (driver_trusted cap)| |].
    + intros e' [= <-]. rewrite Hidx, Hx. symmetry. by apply network_index.
    + intros e' [= <-] _ _. by rewrite Hnode.
  - intros e' He'. rewrite update_other by congruence. apply Hl. by right.
Qed.

Lemma floods_network l g g' :
  network (cfgUpTo cap) 9 g ->
  forallb (fun '(n, m) => (1 <=? n) && (n <=? 3) && ((1 <=? m) && (m <=? 3)) && negb (n =? m)) l = true ->
  floods g l = Some g' -> network (cfgUpTo cap) 9 g'.
Proof.
  revert g. induction l as [|[n m] l IH]; cbn [floods forallb]; intros g HN H; [by intros [= <-]|].
  destruct (flood g n m) as [g1|] eqn:E; [|done].
  apply andb_true_iff in H as [H Hl]. apply andb_true_iff in H as [H Hne].
  apply andb_true_iff in H as [Hn Hm]. apply negb_true_iff, Z.eqb_neq in Hne.
  apply IH; [|done]. eapply (feed_network g n m); try done; by apply cap_node.
Qed.

Definition start : NodeID -> SlotState := fun n => initSlot (node n) 9.

Definition round : list (NodeID * NodeID) := [(1, 2); (1, 3); (2, 1); (2, 3); (3, 1); (3, 2)].

Lemma bump_network g n g' :
  network (cfgUpTo cap) 9 g -> (cfgUpTo cap) n = Some (node n) -> feed g n [InBumpState v1 true] = Some g' ->
  network (cfgUpTo cap) 9 g'.
Proof.
  intros HN Hn. cbn [feed].
  destruct (runInput driver (node n) 10 50 (InBumpState v1 true) (g n)) as [[] s'|f s'] eqn:E; [|done].
  intros [= <-]. by eapply network_step; [..|done]; try done; [apply (driver_trusted cap)|..].
Qed.

(** Every node bumps to (1, v1); then four rounds of everyone hearing everyone. *)
Definition endState : option (NodeID -> SlotState) :=
  feed start 1 [InBumpState v1 true] ≫= fun g1 =>
  feed g1 2 [InBumpState v1 true] ≫= fun g2 =>
  feed g2 3 [InBumpState v1 true] ≫= fun g3 =>
  floods g3 (round ++ round ++ round ++ round).

Lemma endState_network g : endState = Some g -> network (cfgUpTo cap) 9 g.
Proof.
  unfold endState. intros H.
  apply bind_Some in H as (g1 & H1 & H). apply bind_Some in H as (g2 & H2 & H).
  apply bind_Some in H as (g3 & H3 & H).
  eapply (floods_network (round ++ round ++ round ++ round)); [|reflexivity|exact H].
  eapply (bump_network g2 3); [|by apply cap_node|exact H3].
  eapply (bump_network g1 2); [|by apply cap_node|exact H2].
  eapply (bump_network start 1); [|by apply cap_node|exact H1]. apply network_init.
  intros n ln. unfold cfgUpTo. destruct (_ && _); [|done]. by intros [= <-].
Qed.

End CapRun.

End Run.

Lemma agreement_witness :
  match Run.endState with
  | Some g => In Example.v1 (exts (g 1)) /\ forall w, In w (exts (g 2)) -> Example.v1 = w
  | None => False
  end.
Proof.
  assert (match Run.endState with Some g => In Example.v1 (exts (g 1)) | None => False end) as H.
  { vm_compute. by left. }
  destruct Run.endState as [g|] eqn:E; [|done]. split; [done|]. intros w Hw.
  apply (agreement Run.cfg4 9 (Run.cap_wellConfigured 3) g 1 2 Example.v1 w).
  - apply Run.cfg4_intersection.
  - by apply (Run.endState_network 3).
  - discriminate.
  - discriminate.
  - done.
  - done.
Defined.
