(* ===== verification/Scp.v ===== *)
(** * The SCP entry points

    Model of [src/scp/SCP.cpp]: the slots a node knows, by index, and the
    operations the application calls.  Each slot operation runs on the slot
    [getSlot] returns; a failing one leaves that slot in the state it had
    reached. *)

From Stdlib Require Import Sorted.
From stdpp Require Import base list gmap strings.
From S2P Require Import Prelude Numeric QuorumSet LocalNode Statement SlotState Ballot BallotInv.
From S2P Require Import Nomination Frames SlotInv SlotFacts.

Local Open Scope Z_scope.

Record SCPState := mkSCP {
  mLocalNode : LocalNodeState;
  mKnownSlots : list (Z * SlotState)
}.

(** The driver's [getHashOf] of the XDR encoding of a quorum set. *)
Section Construct.
Context (hashQSet : SCPQuorumSet -> Hash).

(** The constructor of [LocalNode]: the quorum set is normalised first. *)
Definition initLocalNode (nodeID : NodeID) (isValidator : bool) (qSet : SCPQuorumSet) : LocalNodeState :=
  let qSet := normalizeQSet qSet None in
  mkLocalNode nodeID isValidator qSet (hashQSet qSet).

Definition initSCP (nodeID : NodeID) (isValidator : bool) (qSetLocal : SCPQuorumSet) : SCPState :=
  mkSCP (initLocalNode nodeID isValidator qSetLocal) [].

(** [LocalNode::updateQuorumSet] takes the set as it is given. *)
Definition updateQuorumSet (qSet : SCPQuorumSet) (ln : LocalNodeState) : LocalNodeState :=
  mkLocalNode (mNodeID ln) (mIsValidator ln) qSet (hashQSet qSet).

End Construct.

Definition set_slots x s := mkSCP (mLocalNode s) x.
Definition set_localNode x s := mkSCP x (mKnownSlots s).

Definition CM (A : Type) : Type := M SCPState A.

Definition updateLocalQuorumSet (hashQSet : SCPQuorumSet -> Hash) (qSet : SCPQuorumSet) : CM unit :=
  modify (fun s => set_localNode (updateQuorumSet hashQSet qSet (mLocalNode s)) s).

Definition getSlot (slotIndex : Z) (create : bool) : CM (option SlotState) :=
  let* s := get in
  match mapFind (mKnownSlots s) slotIndex with
  | Some slot => mret (Some slot)
  | None =>
      if create then
        let slot := initSlot (mLocalNode s) slotIndex in
        do* modify (fun s => set_slots (mapInsert slotIndex slot (mKnownSlots s)) s) in
        mret (Some slot)
      else mret None
  end.

(** Run a slot operation on a known slot and store the slot back. *)
Definition runSlot {A} (slotIndex : Z) (slot : SlotState) (m : SM A) : CM A := fun s =>
  match m slot with
  | Ok a slot' => Ok a (set_slots (mapInsert slotIndex slot' (mKnownSlots s)) s)
  | Err f slot' => Err f (set_slots (mapInsert slotIndex slot' (mKnownSlots s)) s)
  end.

(** [getSlot(slotIndex, true)->op()]. *)
Definition onSlot {A} (slotIndex : Z) (m : LocalNodeState -> SM A) : CM A :=
  let* s := get in
  let* slot := getSlot slotIndex true in
  let* slot := deref slot "getSlot" in
  runSlot slotIndex slot (m (mLocalNode s)).

(** The same without creating the slot. *)
Definition onKnownSlot (slotIndex : Z) (m : LocalNodeState -> SM unit) : CM unit :=
  let* s := get in
  let* slot := getSlot slotIndex false in
  match slot with
  | Some slot => runSlot slotIndex slot (m (mLocalNode s))
  | None => mret tt
  end.

Section SCP.
Context (d : SCPDriver) (fuel aFuel : nat).

Definition receiveEnvelope (env : SCPEnvelope) : CM EnvelopeState :=
  onSlot (slotIndex (statement env)) (fun ln => slotProcessEnvelope d ln fuel aFuel env false).

Definition scpNominate (index : Z) (v previousValue : Value) : CM bool :=
  let* s := get in
  do* dbgAssert (mIsValidator (mLocalNode s)) "isValidator()" in
  onSlot index (fun ln => slotNominate d ln fuel aFuel v previousValue false).

Definition scpStopNomination (index : Z) : CM unit := onKnownSlot index (fun _ => stopNomination).

(** The callbacks handed to [setupTimer].  They keep the slot they were made in
    alive; once that slot is purged they no longer reach the instance. *)
Definition ballotTimer (index : Z) : CM unit :=
  onKnownSlot index (fun ln => ballotProtocolTimerExpired d ln (advanceSlot d ln aFuel)).

Definition nominationTimer (index : Z) (v previousValue : Value) : CM unit :=
  onKnownSlot index (fun ln => do* slotNominate d ln fuel aFuel v previousValue true in mret tt).

Definition scpSetStateFromEnvelope (index : Z) (e : SCPEnvelope) : CM unit :=
  onSlot index (fun ln => slotSetStateFromEnvelope ln e).

End SCP.

(** The slots below [maxSlotIndex] are the first ones of the ordered map. *)
Fixpoint eraseBelow (maxSlotIndex : Z) (slots : list (Z * SlotState)) : list (Z * SlotState) :=
  match slots with
  | (k, x) :: slots' => if k <? maxSlotIndex then eraseBelow maxSlotIndex slots' else slots
  | [] => []
  end.

Definition purgeSlots (maxSlotIndex : Z) : CM unit :=
  modify (fun s => set_slots (eraseBelow maxSlotIndex (mKnownSlots s)) s).

(** ** Queries *)

Definition NUM_SLOTS_TO_CHECK_FOR_REPORTING : nat := 2.

Fixpoint getStateLoop (s : SCPState) (id : NodeID) (slotIndex : Z) (n : nat) (k : Z)
    : exc QuorumInfoNodeState :=
  match n with
  | O => mret MISSING
  | S n' =>
      if slotIndex <=? k then mret MISSING
      else
        match mapFind (mKnownSlots s) (slotIndex - k) with
        | Some slot =>
            let* st := slotGetState (mLocalNode s) id (0 <? k) slot in
            match st with
            | NO_INFO => getStateLoop s id slotIndex n' (k + 1)
            | st => mret st
            end
        | None => getStateLoop s id slotIndex n' (k + 1)
        end
  end.

Definition scpGetState (s : SCPState) (id : NodeID) (slotIndex : Z) : exc QuorumInfoNodeState :=
  getStateLoop s id slotIndex NUM_SLOTS_TO_CHECK_FOR_REPORTING 0.

Definition isSlotFullyValidated (s : SCPState) (slotIndex : Z) : bool :=
  match mapFind (mKnownSlots s) slotIndex with
  | Some slot => mFullyValidated slot
  | None => false
  end.

Definition gotVBlocking (s : SCPState) (slotIndex : Z) : bool :=
  match mapFind (mKnownSlots s) slotIndex with
  | Some slot => mGotVBlocking slot
  | None => false
  end.

Definition getKnownSlotsCount (s : SCPState) : nat := length (mKnownSlots s).

Definition getCumulativeStatemtCount (s : SCPState) : nat :=
  fold_left (fun c '(_, slot) => (c + length (mStatementsHistory slot))%nat) (mKnownSlots s) 0%nat.

Definition scpGetLatestMessagesSend (s : SCPState) (slotIndex : Z) : list SCPEnvelope :=
  match mapFind (mKnownSlots s) slotIndex with
  | Some slot => getLatestMessagesSend slot
  | None => []
  end.

Definition scpGetExternalizingState (slotIndex : Z) : CM (list SCPEnvelope) :=
  let* s := get in
  match mapFind (mKnownSlots s) slotIndex with
  | Some slot => runSlot slotIndex slot (getExternalizingState (mLocalNode s))
  | None => mret []
  end.

Definition empty (s : SCPState) : bool :=
  match mKnownSlots s with [] => true | _ => false end.

Definition scpProcessCurrentState {X} (s : SCPState) (slotIndex : Z)
    (f : SCPEnvelope -> X -> bool * X) (forceSelf : bool) (x : X) : X :=
  match mapFind (mKnownSlots s) slotIndex with
  | Some slot => snd (slotProcessCurrentState (mLocalNode s) forceSelf f slot x)
  | None => x
  end.

(** The callback's effect on the caller's state is the accumulator. *)
Fixpoint processSlots {X} (f : Z -> X -> bool * X) (keys : list Z) (x : X) : X :=
  match keys with
  | [] => x
  | k :: keys' => let '(go, x') := f k x in if go then processSlots f keys' x' else x'
  end.

Definition processSlotsAscendingFrom {X} (s : SCPState) (startingSlot : Z)
    (f : Z -> X -> bool * X) (x : X) : X :=
  processSlots f (List.filter (Z.leb startingSlot) (map fst (mKnownSlots s))) x.

Definition processSlotsDescendingFrom {X} (s : SCPState) (startingSlot : Z)
    (f : Z -> X -> bool * X) (x : X) : X :=
  processSlots f (rev (List.filter (fun k => k <=? startingSlot) (map fst (mKnownSlots s)))) x.

Fixpoint latestMessageIn (id : NodeID) (slots : list (Z * SlotState)) : option SCPEnvelope :=
  match slots with
  | [] => None
  | (_, slot) :: slots' =>
      match getLatestMessage id slot with
      | Some e => Some e
      | None => latestMessageIn id slots'
      end
  end.

Definition scpGetLatestMessage (s : SCPState) (id : NodeID) : option SCPEnvelope :=
  latestMessageIn id (rev (mKnownSlots s)).

Definition scpIsNewer (s : SCPState) (oldSt newSt : SCPStatement) : bool :=
  if negb (slotIndex oldSt =? slotIndex newSt) || negb (nodeID oldSt =? nodeID newSt) then false
  else
    match mapFind (mKnownSlots s) (slotIndex oldSt) with
    | Some _ => isNewerNominationOrBallotSt oldSt newSt
    | None => false
    end.

(** ** Properties *)

#[local] Arguments mapFind : simpl never.

Lemma eraseBelow_find m slots k :
  ordered slots -> mapFind (eraseBelow m slots) k = if k <? m then None else mapFind slots k.
Proof.
  unfold ordered. induction slots as [|[k' x] slots IH]; cbn [map fst eraseBelow]; intros Ho.
  { by destruct (k <? m). }
  apply StronglySorted_inv in Ho as [Ho Hk]. rewrite List.Forall_forall in Hk.
  destruct (Z.ltb_spec k' m).
  - rewrite IH by done. destruct (Z.ltb_spec k m); [done|].
    rewrite mapFind_cons, (proj2 (Z.eqb_neq k' k)); [done|lia].
  - destruct (Z.ltb_spec k m); [|done].
    destruct (mapFind ((k', x) :: slots) k) as [y|] eqn:E; [|done]. exfalso.
    apply mapFind_In, (in_map fst) in E as [E|E]; cbn in E; [lia|]. specialize (Hk _ E). lia.
Qed.

Lemma eraseBelow_ordered m slots : ordered slots -> ordered (eraseBelow m slots).
Proof.
  unfold ordered. induction slots as [|[k x] slots IH]; [done|]. cbn [eraseBelow]. intros Ho.
  destruct (k <? m); [|done]. apply IH. by apply StronglySorted_inv in Ho as [? _].
Qed.

(** [purgeSlots] forgets exactly the slots below the given index. *)
Theorem purgeSlots_spec m s :
  ordered (mKnownSlots s) ->
  exists s', purgeSlots m s = Ok tt s' /\ mLocalNode s' = mLocalNode s /\
    forall k, mapFind (mKnownSlots s') k = if k <? m then None else mapFind (mKnownSlots s) k.
Proof.
  intros Ho. eexists. split; [done|]. split; [done|]. intros k. cbn. by apply eraseBelow_find.
Qed.

(** The calls an application makes, and its timers. *)
Inductive ScpCall :=
  | CallReceive (env : SCPEnvelope)
  | CallNominate (index : Z) (v previousValue : Value)
  | CallStopNomination (index : Z)
  | CallBallotTimer (index : Z)
  | CallNominationTimer (index : Z) (v previousValue : Value)
  | CallPurge (maxSlotIndex : Z).

Definition runCall (d : SCPDriver) (fuel aFuel : nat) (c : ScpCall) : CM unit :=
  match c with
  | CallReceive env => do* receiveEnvelope d fuel aFuel env in mret tt
  | CallNominate k v prev => do* scpNominate d fuel aFuel k v prev in mret tt
  | CallStopNomination k => scpStopNomination k
  | CallBallotTimer k => ballotTimer d aFuel k
  | CallNominationTimer k v prev => nominationTimer d fuel aFuel k v prev
  | CallPurge m => purgeSlots m
  end.

(** A call with the driver and the fuel it runs with. *)
Record TimedCall := mkTimed { t_driver : SCPDriver; t_fuel : nat; t_aFuel : nat; t_call : ScpCall }.

Definition runTimed (t : TimedCall) : CM unit := runCall (t_driver t) (t_fuel t) (t_aFuel t) (t_call t).

(** The states the calls [tr] lead to, none of them failing.  The quorum set stays
    the one the instance was made with. *)
Inductive scpRun (ln : LocalNodeState) : list TimedCall -> SCPState -> Prop :=
  | run_init hashQSet nodeID isValidator qSet :
      initLocalNode hashQSet nodeID isValidator qSet = ln ->
      scpRun ln [] (initSCP hashQSet nodeID isValidator qSet)
  | run_call t tr s s' : scpRun ln tr s -> runTimed t s = Ok tt s' -> scpRun ln (tr ++ [t]) s'.

(** *** One slot alone

    The history of slot [k] if there were no other: a call that names [k] is one of
    its inputs, a message or a nomination making the slot first if it is not there; a
    purge drops it if it is below the limit; the other calls are nothing to it. *)

Definition slotInput (ln : LocalNodeState) (k : Z) (c : ScpCall) : option SlotInput :=
  match c with
  | CallReceive env => if slotIndex (statement env) =? k then Some (InEnvelope env) else None
  | CallNominate i v prev => if mIsValidator ln && (i =? k) then Some (InNominate v prev false) else None
  | CallStopNomination i => if i =? k then Some InStopNomination else None
  | CallBallotTimer i => if i =? k then Some InBallotTimer else None
  | CallNominationTimer i v prev => if i =? k then Some (InNominate v prev true) else None
  | CallPurge _ => None
  end.

Definition creates (c : ScpCall) : bool :=
  match c with CallReceive _ | CallNominate _ _ _ => true | _ => false end.

Definition dropsSlot (k : Z) (c : ScpCall) : bool :=
  match c with CallPurge m => k <? m | _ => false end.

Definition stateAfter {S A} (o : outcome S A) : S := match o with Ok _ s | Err _ s => s end.

Definition aloneStep (ln : LocalNodeState) (k : Z) (o : option SlotState) (t : TimedCall)
    : option SlotState :=
  match slotInput ln k (t_call t) with
  | Some i =>
      let o := if creates (t_call t) then Some (default (initSlot ln k) o) else o in
      (fun slot => stateAfter (runInput (t_driver t) ln (t_fuel t) (t_aFuel t) i slot)) <$> o
  | None => if dropsSlot k (t_call t) then None else o
  end.

Definition alone (ln : LocalNodeState) (k : Z) (tr : list TimedCall) : option SlotState :=
  fold_left (aloneStep ln k) tr None.

(** An instance of the node [ln] whose slots are those of [view]. *)
Record Shows (ln : LocalNodeState) (view : Z -> option SlotState) (s : SCPState) : Prop := mkShows {
  sh_local : mLocalNode s = ln;
  sh_ordered : ordered (mKnownSlots s);
  sh_view k : mapFind (mKnownSlots s) k = view k
}.

Lemma Shows_ext ln view view' s : (forall k, view k = view' k) -> Shows ln view s -> Shows ln view' s.
Proof. intros H [Hl Ho Hv]. split; [done|done|]. intros k. by rewrite Hv. Qed.

Lemma Shows_insert ln view s k slot :
  Shows ln view s ->
  Shows ln (fun k' => if k =? k' then Some slot else view k')
    (set_slots (mapInsert k slot (mKnownSlots s)) s).
Proof.
  intros [Hl Ho Hv]. split; [done|by apply mapInsert_ordered|]. intros k'. cbn.
  destruct (Z.eqb_spec k k') as [->|Hne]; [apply mapFind_mapInsert|].
  by rewrite mapFind_mapInsert_ne, Hv by done.
Qed.

Lemma stateAfter_drop {S A} (m : M S A) s : stateAfter ((do* m in mret tt) s) = stateAfter (m s).
Proof. unfold bnd, mbind, M_bind. by destruct (m s). Qed.

Lemma runSlot_shows {A} ln view s k slot (m : SM A) :
  Shows ln view s ->
  Shows ln (fun k' => if k =? k' then Some (stateAfter (m slot)) else view k')
    (stateAfter (runSlot k slot m s)).
Proof. intros H. unfold runSlot. destruct (m slot); by apply Shows_insert. Qed.

Lemma onSlot_shows {A} ln view s k (m : LocalNodeState -> SM A) :
  Shows ln view s ->
  Shows ln (fun k' => if k =? k' then Some (stateAfter (m ln (default (initSlot ln k) (view k)))) else view k')
    (stateAfter (onSlot k m s)).
Proof.
  intros H. pose proof H as [Hl _ Hv]. unfold onSlot, getSlot, bnd, mbind, M_bind, get. rewrite Hl, Hv.
  destruct (view k) as [slot|] eqn:E; cbn [deref default from_option id]; [by apply runSlot_shows|].
  eapply Shows_ext; [|eapply runSlot_shows, (Shows_insert _ _ _ k (initSlot ln k)), H].
  intros k'. cbv beta. by destruct (k =? k').
Qed.

Lemma onKnownSlot_shows ln view s k (m : LocalNodeState -> SM unit) :
  Shows ln view s ->
  Shows ln (fun k' => if k =? k' then (fun slot => stateAfter (m ln slot)) <$> view k else view k')
    (stateAfter (onKnownSlot k m s)).
Proof.
  intros H. pose proof H as [Hl _ Hv]. unfold onKnownSlot, getSlot, bnd, mbind, M_bind, get.
  rewrite Hl, Hv. destruct (view k) as [slot|] eqn:E; [by apply runSlot_shows|].
  eapply Shows_ext; [|exact H]. intros k'. cbn. destruct (Z.eqb_spec k k'); [by subst|done].
Qed.

(** Every call, whether it fails or not, does to each slot what it would do to that
    slot alone. *)
Lemma runTimed_shows ln view s t :
  Shows ln view s -> Shows ln (fun k => aloneStep ln k (view k) t) (stateAfter (runTimed t s)).
Proof.
  intros H. destruct t as [d fuel aFuel c]. unfold runTimed, aloneStep. cbn [t_driver t_fuel t_aFuel t_call].
  destruct c as [env|i v prev|i|i|i v prev|m]; cbn [runCall slotInput creates dropsSlot].
  - refine (eq_ind_r (Shows ln _) _ (stateAfter_drop _ _)). eapply Shows_ext; [|apply onSlot_shows, H]. intros k. cbv beta.
    destruct (Z.eqb_spec (slotIndex (statement env)) k) as [<-|]; [|done].
    cbn. f_equal. symmetry. apply stateAfter_drop.
  - refine (eq_ind_r (Shows ln _) _ (stateAfter_drop _ _)). unfold scpNominate, bnd, mbind, M_bind, get, dbgAssert.
    rewrite (sh_local _ _ _ H). destruct (mIsValidator ln); cbn [andb]; [|exact H].
    eapply Shows_ext; [|apply onSlot_shows, H]. intros k. cbv beta.
    destruct (Z.eqb_spec i k) as [<-|]; [|done].
    cbn. f_equal. symmetry. apply stateAfter_drop.
  - eapply Shows_ext; [|apply onKnownSlot_shows, H]. intros k. cbv beta. by destruct (Z.eqb_spec i k) as [<-|].
  - eapply Shows_ext; [|apply onKnownSlot_shows, H]. intros k. cbv beta. by destruct (Z.eqb_spec i k) as [<-|].
  - eapply Shows_ext; [|apply onKnownSlot_shows, H]. intros k. cbv beta. by destruct (Z.eqb_spec i k) as [<-|].
  - destruct H as [Hl Ho Hv]. split; [done|by apply eraseBelow_ordered|]. intros k. cbn.
    by rewrite eraseBelow_find, Hv by done.
Qed.

Lemma alone_snoc ln k tr t : alone ln k (tr ++ [t]) = aloneStep ln k (alone ln k tr) t.
Proof. unfold alone. by rewrite fold_left_app. Qed.

Lemma scpRun_shows ln tr s : scpRun ln tr s -> Shows ln (fun k => alone ln k tr) s.
Proof.
  induction 1 as [hq n iv q E|t tr s s' _ IH H].
  - split; [done|unfold ordered; constructor|done].
  - eapply Shows_ext; [intros k; symmetry; apply alone_snoc|].
    apply (runTimed_shows _ _ _ t) in IH. by rewrite H in IH.
Qed.

(** *** The slots of a run are reachable *)

(** A call that returns ran its slot's handler to the end. *)
Lemma onSlot_ok {A} ln view s k (m : LocalNodeState -> SM A) a s' :
  Shows ln view s -> onSlot k m s = Ok a s' ->
  exists slot', m ln (default (initSlot ln k) (view k)) = Ok a slot'.
Proof.
  intros [Hl _ Hv]. unfold onSlot, getSlot, bnd, mbind, M_bind, get. rewrite Hl, Hv.
  destruct (view k) as [slot|]; unfold runSlot; cbn.
  - destruct (m ln slot); [|done]. intros [= -> _]. by eexists.
  - destruct (m ln (initSlot ln k)); [|done]. intros [= -> _]. by eexists.
Qed.

Lemma onKnownSlot_ok ln view s k (m : LocalNodeState -> SM unit) s' slot :
  Shows ln view s -> onKnownSlot k m s = Ok tt s' -> view k = Some slot ->
  exists slot', m ln slot = Ok tt slot'.
Proof.
  intros [Hl _ Hv] H E. revert H. unfold onKnownSlot, getSlot, bnd, mbind, M_bind, get. rewrite Hl, Hv, E.
  unfold runSlot. cbn. destruct (m ln slot) as [[] slot0|]; [|done]. by exists slot0.
Qed.

Lemma drop_result {A} (m : SM A) s a s' : m s = Ok a s' -> (do* m in mret tt) s = Ok tt s'.
Proof. unfold bnd, mbind, M_bind. by intros ->. Qed.

Lemma drop_result_inv {S A} (m : M S A) s s' : (do* m in mret tt) s = Ok tt s' -> exists a, m s = Ok a s'.
Proof. unfold bnd, mbind, M_bind. destruct (m s); [|done]. intros [= <-]. by eexists. Qed.

(** The handler of the slot a call names ends. *)
Lemma call_handler_ok ln view s t s' k i slot :
  Shows ln view s -> runTimed t s = Ok tt s' -> slotInput ln k (t_call t) = Some i ->
  (if creates (t_call t) then Some (default (initSlot ln k) (view k)) else view k) = Some slot ->
  exists slot', runInput (t_driver t) ln (t_fuel t) (t_aFuel t) i slot = Ok tt slot'.
Proof.
  intros H. destruct t as [d fuel aFuel c]. unfold runTimed. cbn [t_driver t_fuel t_aFuel t_call].
  destruct c as [env|j v prev|j|j|j v prev|m]; cbn [runCall slotInput creates];
    intros Hrun Hi Hs; try done.
  - destruct (Z.eqb_spec (slotIndex (statement env)) k) as [<-|]; [|done]. injection Hi as <-. injection Hs as <-.
    apply drop_result_inv in Hrun as [r Hrun]. apply (onSlot_ok ln view) in Hrun as [slot' Hr]; [|done].
    exists slot'. by eapply drop_result.
  - destruct (mIsValidator ln) eqn:Ev; cbn [andb] in Hi; [|done].
    destruct (Z.eqb_spec j k) as [->|]; [|done]. injection Hi as <-. injection Hs as <-.
    apply drop_result_inv in Hrun as [r Hrun]. unfold scpNominate, bnd, mbind, M_bind, get, dbgAssert in Hrun.
    rewrite (sh_local _ _ _ H), Ev in Hrun. apply (onSlot_ok ln view) in Hrun as [slot' Hr]; [|done].
    exists slot'. by eapply drop_result.
  - destruct (Z.eqb_spec j k) as [->|]; [|done]. injection Hi as <-. by eapply onKnownSlot_ok in Hrun.
  - destruct (Z.eqb_spec j k) as [->|]; [|done]. injection Hi as <-. by eapply onKnownSlot_ok in Hrun.
  - destruct (Z.eqb_spec j k) as [->|]; [|done]. injection Hi as <-. by eapply onKnownSlot_ok in Hrun.
Qed.

(** A slot operation that is one of the slot's inputs. *)
Lemma input_reachable ln k slot slot' d fuel aFuel i :
  reachable ln k slot -> (forall env, i = InEnvelope env -> slotIndex (statement env) = k) ->
  runInput d ln fuel aFuel i slot = Ok tt slot' -> reachable ln k slot'.
Proof.
  intros R Ha Hrun. eapply reach_step; [done| |done]. intros env Hi.
  rewrite (Ha _ Hi). symmetry. by apply (reachable_inv ln).
Qed.

Lemma slotInput_addressed ln k c i env :
  slotInput ln k c = Some i -> i = InEnvelope env -> slotIndex (statement env) = k.
Proof.
  intros H ->. destruct c as [e|j v p|j|j|j v p|m]; cbn in H; try done.
  - by destruct (Z.eqb_spec (slotIndex (statement e)) k); simplify_eq.
  - by destruct (mIsValidator ln && (j =? k)).
  - by destruct (j =? k).
  - by destruct (j =? k).
  - by destruct (j =? k).
Qed.

Lemma alone_reachable ln tr s k slot : scpRun ln tr s -> alone ln k tr = Some slot -> reachable ln k slot.
Proof.
  intros R. revert k slot. induction R as [|t tr s s' R IH H]; [done|]. intros k slot. rewrite alone_snoc.
  unfold aloneStep. destruct (slotInput ln k (t_call t)) as [i|] eqn:Ei.
  2: { destruct (dropsSlot k (t_call t)); [done|apply IH]. }
  cbv zeta. destruct (if creates (t_call t) then _ else _) as [slot0|] eqn:E0; [|done]. cbn. intros [= <-].
  destruct (call_handler_ok ln _ s t s' k i slot0 (scpRun_shows _ _ _ R) H Ei E0) as [slot' Hr]. rewrite Hr.
  eapply input_reachable; [|by intros env; eapply slotInput_addressed|exact Hr].
  destruct (creates (t_call t)); [|by apply IH]. injection E0 as <-.
  destruct (alone ln k tr) as [x|] eqn:Ex; [by apply IH|constructor].
Qed.

(** C28: The slots an SCP instance holds are independent.  Whatever sequence of
    envelopes, nominations, stops, timers and purges the instance has handled (each
    with its own driver), each index maps to exactly the slot that index would have if
    it were the only one: the result of running, one after the other, the handlers of
    the calls that name it, from the moment the first message or nomination for it made
    it, and nothing once a purge above it dropped it.  This is so of the next call too when that
    call fails.  A slot of a run without failure is a state that slot reaches on its own
    inputs, so all the properties of a slot hold of every slot of the instance. *)
Theorem slots_are_independent ln tr s t k :
  scpRun ln tr s ->
  mapFind (mKnownSlots s) k = alone ln k tr /\
  mapFind (mKnownSlots (stateAfter (runTimed t s))) k = alone ln k (tr ++ [t]) /\
  forall slot, mapFind (mKnownSlots s) k = Some slot -> reachable ln k slot.
Proof.
  intros R. pose proof (scpRun_shows _ _ _ R) as H. split; [apply H|]. split.
  - rewrite alone_snoc. apply (runTimed_shows _ _ _ t H).
  - intros slot. rewrite (sh_view _ _ _ H). by eapply alone_reachable.
Qed.

(** The state reported of a peer is never NO_INFO: a peer that nothing is
    known of in the slots looked at is MISSING. *)
Theorem getState_reports s id k st : scpGetState s id k = inr st -> st <> NO_INFO.
Proof.
  unfold scpGetState. generalize 0 as j. induction NUM_SLOTS_TO_CHECK_FOR_REPORTING as [|n IH];
    intros j; cbn [getStateLoop]; [by intros [= <-]|].
  destruct (k <=? j); [by intros [= <-]|].
  destruct (mapFind (mKnownSlots s) (k - j)) as [slot|]; [|apply IH].
  intros H. apply exc_bind_inr in H as (st' & _ & H). destruct st'; try (by injection H as <-). by apply IH in H.
Qed.

(** ** A node with two slots *)

Module ScpRun.

Import Example.

Definition env10 (n : NodeID) : SCPEnvelope :=
  mkEnvelope (mkStatement n 10 (SCP_ST_PREPARE (mkPrepare 11 (mkBallot 1 v1) None None 0 0))) [].

Definition stateOf {A} (o : outcome SCPState A) : SCPState :=
  match o with Ok _ s => s | Err _ s => s end.

Definition start : SCPState := initSCP (fun _ => 11) 1 true q4.
Definition one : SCPState := Eval vm_compute in
  stateOf (receiveEnvelope driver 10 50 (prepare 2 1 None 0 0) start).
Definition two : SCPState := Eval vm_compute in
  stateOf (receiveEnvelope driver 10 50 (env10 2) one).

Definition calls : list TimedCall :=
  [mkTimed driver 10 50 (CallReceive (prepare 2 1 None 0 0)); mkTimed driver 10 50 (CallReceive (env10 2))].

Lemma two_run : scpRun (node 1) calls two.
Proof.
  apply (run_call _ (mkTimed driver 10 50 (CallReceive (env10 2))) [mkTimed driver 10 50 (CallReceive (prepare 2 1 None 0 0))] one);
    [|by vm_compute].
  apply (run_call _ (mkTimed driver 10 50 (CallReceive (prepare 2 1 None 0 0))) [] start); [|by vm_compute].
  by apply run_init.
Qed.

End ScpRun.

Lemma purgeSlots_spec_witness :
  exists s', purgeSlots 10 ScpRun.two = Ok tt s' /\ mLocalNode s' = mLocalNode ScpRun.two /\
    forall k, mapFind (mKnownSlots s') k = if k <? 10 then None else mapFind (mKnownSlots ScpRun.two) k.
Proof. apply purgeSlots_spec. repeat constructor. Defined.

Lemma slots_are_independent_witness :
  let purge := mkTimed Example.driver 10 50 (CallPurge 11) in
  mapFind (mKnownSlots (stateAfter (runTimed purge ScpRun.two))) 10 = None /\
  exists slot, mapFind (mKnownSlots ScpRun.two) 10 = Some slot /\ reachable (Example.node 1) 10 slot.
Proof.
  destruct (slots_are_independent (Example.node 1) ScpRun.calls ScpRun.two
    (mkTimed Example.driver 10 50 (CallPurge 11)) 10 ScpRun.two_run) as (_ & H & R).
  split; [rewrite H; reflexivity|]. eexists. split; [reflexivity|]. apply R. reflexivity.
Defined.

Lemma getState_reports_witness :
  exists st, scpGetState ScpRun.two 4 10 = inr st /\ st <> NO_INFO.
Proof.
  eexists. split; [vm_compute; reflexivity|].
  apply (getState_reports ScpRun.two 4 10). vm_compute. reflexivity.
Defined.
