(* ===== verification/Exchange.v ===== *)
(** * Offer exchange arithmetic

    Model of the arithmetic of [src/transactions/OfferExchange.cpp]: what two
    crossing offers trade ([exchangeV2], [exchangeV3], [exchangeV10]), what is
    left of an offer after rounding ([adjustOffer]) and what a liquidity pool
    trades ([exchangeWithPool]).  "Wheat" is what the offer in the book sells,
    "sheep" what it buys. *)

From stdpp Require Import base list strings.
From S2P Require Import Prelude Numeric.

Local Open Scope Z_scope.

(** A price is a fraction of two positive 32-bit numbers. *)
Record Price := mkPrice { price_n : Z; price_d : Z }.

Inductive RoundingType := NORMAL | PATH_PAYMENT_STRICT_SEND | PATH_PAYMENT_STRICT_RECEIVE.

#[export] Instance RoundingType_eq_dec : EqDecision RoundingType.
Proof. solve_decision. Defined.

Inductive ExchangeResultType := RESULT_NORMAL | REDUCED_TO_ZERO | BOGUS.

Record ExchangeResult := mkExchangeResult {
  numWheatReceived : Z;
  numSheepSend : Z;
  reduced : bool
}.

Definition exchangeResultType (r : ExchangeResult) : ExchangeResultType :=
  if negb (numWheatReceived r =? 0) && negb (numSheepSend r =? 0) then RESULT_NORMAL
  else if reduced r then REDUCED_TO_ZERO else BOGUS.

Record ExchangeResultV10 := mkResultV10 {
  wheatReceived : Z;
  sheepSent : Z;
  wheatStays : bool
}.

(** A [bigDivide] whose failure the caller replaces by [dflt]. *)
Definition bigDivideOr (dflt A B C : Z) (rounding : Rounding) : exc (bool * Z) :=
  let* r := bigDivide A B C rounding in
  match r with
  | (true, Some x) => mret (true, x)
  | _ => mret (false, dflt)
  end.

Definition exchangeV2 (wheat : Z) (price : Price) (maxWheatReceive maxSheepSend : Z)
    : exc ExchangeResult :=
  let red := maxWheatReceive <? wheat in
  let wheat := Z.min wheat maxWheatReceive in
  let* '(_, sheep) := bigDivideOr INT64_MAX wheat (price_n price) (price_d price) ROUND_DOWN in
  let red := red || (maxSheepSend <? sheep) in
  let sheep := Z.min sheep maxSheepSend in
  let* received := bigDivideOrThrow sheep (price_d price) (price_n price) ROUND_DOWN in
  mret (mkExchangeResult received sheep red).

Definition exchangeV3 (wheat : Z) (price : Price) (maxWheatReceive maxSheepSend : Z)
    : exc ExchangeResult :=
  let red := maxWheatReceive <? wheat in
  let received := Z.min wheat maxWheatReceive in
  let* '(fits, sheep) := bigDivideOr INT64_MAX received (price_n price) (price_d price) ROUND_UP in
  let red := red || negb fits in
  let red := red || (maxSheepSend <? sheep) in
  let sheep := Z.min sheep maxSheepSend in
  let* '(_, newReceived) := bigDivideOr INT64_MAX sheep (price_d price) (price_n price) ROUND_DOWN in
  mret (mkExchangeResult (Z.min received newReceived) sheep red).

Definition checkPriceErrorBound (price : Price) (wheatReceive sheepSend : Z) (canFavorWheat : bool)
    : exc bool :=
  let errN := i64 (100 * price_n price) in
  let errD := i64 (100 * price_d price) in
  let* lhs := bigMultiply errN wheatReceive in
  let* rhs := bigMultiply errD sheepSend in
  if canFavorWheat && (lhs <? rhs) then mret true
  else
    let absDiff := if rhs <? lhs then u128 (lhs - rhs) else u128 (rhs - lhs) in
    let* cap := bigMultiply (price_n price) wheatReceive in
    mret (absDiff <=? cap).

Definition calculateOfferValue (priceN priceD maxSend maxReceive : Z) : exc Z :=
  let* sendValue := bigMultiply maxSend priceN in
  let* receiveValue := bigMultiply maxReceive priceD in
  mret (Z.min sendValue receiveValue).

Definition exchangeV10WithoutPriceErrorThresholds (price : Price)
    (maxWheatSend maxWheatReceive maxSheepSend maxSheepReceive : Z) (round : RoundingType)
    : exc ExchangeResultV10 :=
  let n := price_n price in
  let d := price_d price in
  let* wheatValue := calculateOfferValue n d maxWheatSend maxSheepReceive in
  let* sheepValue := calculateOfferValue d n maxSheepSend maxWheatReceive in
  let stays := sheepValue <? wheatValue in
  let* '(wheatReceive, sheepSend) :=
    if stays then
      if bool_decide (round = PATH_PAYMENT_STRICT_SEND) then
        let* w := bigDivideOrThrow128 sheepValue n ROUND_DOWN in
        mret (w, Z.min maxSheepSend maxSheepReceive)
      else if (d <? n) || bool_decide (round = PATH_PAYMENT_STRICT_RECEIVE) then
        let* w := bigDivideOrThrow128 sheepValue n ROUND_DOWN in
        let* s := bigDivideOrThrow w n d ROUND_UP in
        mret (w, s)
      else
        let* s := bigDivideOrThrow128 sheepValue d ROUND_DOWN in
        let* w := bigDivideOrThrow s d n ROUND_DOWN in
        mret (w, s)
    else
      if d <? n then
        let* w := bigDivideOrThrow128 wheatValue n ROUND_DOWN in
        let* s := bigDivideOrThrow w n d ROUND_DOWN in
        mret (w, s)
      else
        let* s := bigDivideOrThrow128 wheatValue d ROUND_DOWN in
        let* w := bigDivideOrThrow s d n ROUND_UP in
        mret (w, s) in
  if (wheatReceive <? 0) || (Z.min maxWheatReceive maxWheatSend <? wheatReceive) then
    exc_throw (Throw "wheatReceive out of bounds")
  else if (sheepSend <? 0) || (Z.min maxSheepReceive maxSheepSend <? sheepSend) then
    exc_throw (Throw "sheepSend out of bounds")
  else mret (mkResultV10 wheatReceive sheepSend stays).

Definition applyPriceErrorThresholds (price : Price) (wheatReceive sheepSend : Z) (stays : bool)
    (round : RoundingType) : exc ExchangeResultV10 :=
  if (0 <? wheatReceive) && (0 <? sheepSend) then
    let* wheatReceiveValue := bigMultiply wheatReceive (price_n price) in
    let* sheepSendValue := bigMultiply sheepSend (price_d price) in
    if stays && (sheepSendValue <? wheatReceiveValue) then
      exc_throw (Throw "favored sheep when wheat stays")
    else if negb stays && (wheatReceiveValue <? sheepSendValue) then
      exc_throw (Throw "favored wheat when sheep stays")
    else
      match round with
      | NORMAL =>
          let* ok := checkPriceErrorBound price wheatReceive sheepSend false in
          if negb ok then mret (mkResultV10 0 0 stays)
          else mret (mkResultV10 wheatReceive sheepSend stays)
      | _ =>
          let* ok := checkPriceErrorBound price wheatReceive sheepSend true in
          if negb ok then exc_throw (Throw "exceeded price error bound")
          else mret (mkResultV10 wheatReceive sheepSend stays)
      end
  else
    match round with
    | PATH_PAYMENT_STRICT_SEND =>
        if sheepSend =? 0 then exc_throw (Throw "invalid amount of sheep sent")
        else mret (mkResultV10 wheatReceive sheepSend stays)
    | _ => mret (mkResultV10 0 0 stays)
    end.

Definition exchangeV10 (price : Price)
    (maxWheatSend maxWheatReceive maxSheepSend maxSheepReceive : Z) (round : RoundingType)
    : exc ExchangeResultV10 :=
  let* before := exchangeV10WithoutPriceErrorThresholds price maxWheatSend maxWheatReceive
                   maxSheepSend maxSheepReceive round in
  applyPriceErrorThresholds price (wheatReceived before) (sheepSent before) (wheatStays before) round.

Definition adjustOffer (price : Price) (maxWheatSend maxSheepReceive : Z) : exc Z :=
  let* res := exchangeV10 price maxWheatSend INT64_MAX INT64_MAX maxSheepReceive NORMAL in
  mret (wheatReceived res).

(** ** Liquidity pools *)

Definition maxBps : Z := 10000.

(** What the call returns and leaves in its two reference arguments ([None] when
    it does not assign one). *)
Record PoolExchange := mkPoolExchange {
  pe_res : bool;
  pe_toPool : option Z;
  pe_fromPool : option Z
}.

Definition exchangeWithPool (reservesToPool maxSendToPool reservesFromPool maxReceiveFromPool : Z)
    (feeBps : Z) (round : RoundingType) : exc PoolExchange :=
  if (feeBps <? 0) || (maxBps <=? feeBps) then
    exc_throw (Throw "Liquidity pool fee out of range")
  else if (reservesToPool <=? 0) || (reservesFromPool <=? 0) then
    exc_throw (Throw "non-positive reserve in exchangeWithPool")
  else
    match round with
    | PATH_PAYMENT_STRICT_SEND =>
        if negb (maxReceiveFromPool =? INT64_MAX) then
          exc_throw (Throw "strict send with bounded receive?")
        else
          let maxReceiveFromPool := reservesFromPool in
          if i64 (INT64_MAX - reservesToPool) <? maxSendToPool then
            mret (mkPoolExchange false None None)
          else
            let toPool := maxSendToPool in
            let* x := bigMultiply maxBps reservesToPool in
            let* y := bigMultiply (i32 (maxBps - feeBps)) toPool in
            let denominator := u128 (x + y) in
            let* product := bigMultiply reservesFromPool toPool in
            let* r := hugeDivide (i32 (maxBps - feeBps)) product denominator ROUND_DOWN in
            match r with
            | (true, Some fromPool) =>
                if maxReceiveFromPool <? fromPool then
                  exc_throw (Throw "received too much from pool")
                else if fromPool <? 0 then exc_throw (Throw "fromPool is negative")
                else mret (mkPoolExchange (negb (fromPool =? 0)) (Some toPool) (Some fromPool))
            | (_, stored) => mret (mkPoolExchange false (Some toPool) stored)
            end
    | PATH_PAYMENT_STRICT_RECEIVE =>
        if negb (maxSendToPool =? INT64_MAX) then
          exc_throw (Throw "strict receive with bounded send?")
        else
          let maxSendToPool := i64 (INT64_MAX - reservesToPool) in
          if reservesFromPool <=? maxReceiveFromPool then mret (mkPoolExchange false None None)
          else
            let fromPool := maxReceiveFromPool in
            let* product := bigMultiply reservesToPool fromPool in
            let* denominator :=
              bigMultiply (i64 (reservesFromPool - fromPool)) (i32 (maxBps - feeBps)) in
            let* r := hugeDivide maxBps product denominator ROUND_UP in
            match r with
            | (true, Some toPool) =>
                if toPool <? 0 then exc_throw (Throw "toPool is negative")
                else mret (mkPoolExchange (toPool <=? maxSendToPool) (Some toPool) (Some fromPool))
            | (_, stored) => mret (mkPoolExchange false stored (Some fromPool))
            end
    | NORMAL => exc_throw (Throw "Invalid rounding type")
    end.

(** ** The trade in exact arithmetic *)

Definition validPrice (p : Price) : Prop :=
  1 <= price_n p <= INT32_MAX /\ 1 <= price_d p <= INT32_MAX.

Definition amount (x : Z) : Prop := 0 <= x <= INT64_MAX.

(** The sizes of the two offers in terms of sheep, scaled by [price_d]. *)
Definition wheatValue (p : Price) (maxWheatSend maxSheepReceive : Z) : Z :=
  Z.min (maxWheatSend * price_n p) (maxSheepReceive * price_d p).
Definition sheepValue (p : Price) (maxSheepSend maxWheatReceive : Z) : Z :=
  Z.min (maxSheepSend * price_d p) (maxWheatReceive * price_n p).

(** Wheat received and sheep sent when the wheat offer stays in the book, and
    when it is taken. *)
Definition tradeStays (p : Price) (value maxSheepSend maxSheepReceive : Z) (round : RoundingType)
    : Z * Z :=
  let n := price_n p in
  let d := price_d p in
  if bool_decide (round = PATH_PAYMENT_STRICT_SEND) then
    (value / n, Z.min maxSheepSend maxSheepReceive)
  else if (d <? n) || bool_decide (round = PATH_PAYMENT_STRICT_RECEIVE) then
    (value / n, ceil_div (value / n * n) d)
  else (value / d * d / n, value / d).

Definition tradeTaken (p : Price) (value : Z) : Z * Z :=
  let n := price_n p in
  let d := price_d p in
  if d <? n then (value / n, value / n * n / d)
  else (ceil_div (value / d * d) n, value / d).

(** The seller whose offer stays is never worse off than at the price. *)
Definition favours (p : Price) (stays : bool) (w s : Z) : Prop :=
  if stays then price_n p * w <= price_d p * s else price_d p * s <= price_n p * w.

Definition priceErrorOK (p : Price) (w s : Z) : bool :=
  100 * Z.abs (price_n p * w - price_d p * s) <=? price_n p * w.

Lemma floor_facts a b : 0 < b -> b * (a / b) <= a < b * (a / b) + b.
Proof.
  intros Hb. pose proof (Z.div_mod a b ltac:(lia)). pose proof (Z.mod_pos_bound a b Hb). lia.
Qed.

Lemma ceil_facts a b : 0 < b -> a <= b * ceil_div a b < a + b.
Proof. intros Hb. unfold ceil_div. pose proof (floor_facts (a + b - 1) b Hb). lia. Qed.

Ltac rounding :=
  repeat match goal with
  | |- context [?a / ?b] =>
      lazymatch goal with
      | _ : b * (a / b) <= a < _ |- _ => fail
      | _ => pose proof (floor_facts a b ltac:(lia))
      end
  | |- context [ceil_div ?a ?b] =>
      lazymatch goal with
      | _ : a <= b * ceil_div a b < _ |- _ => fail
      | _ => pose proof (ceil_facts a b ltac:(lia))
      end
  end.

Section Trade.
Context (p : Price) (Hp : validPrice p).

Lemma tradeStays_ok v mw mss msr round :
  0 <= v <= mw * price_n p -> v <= mss * price_d p -> v < msr * price_d p ->
  let '(w, s) := tradeStays p v mss msr round in
  0 <= w <= mw /\ 0 <= s <= Z.min mss msr /\ favours p true w s.
Proof using Hp.
  destruct Hp as [Hn Hd]. intros Hv Hs Hr. unfold tradeStays, favours.
  assert (0 <= v / price_n p) by (apply Z.div_pos; lia).
  assert (0 <= v / price_d p) by (apply Z.div_pos; lia).
  case_bool_decide; [|destruct (Z.ltb_spec (price_d p) (price_n p)) as [Hnd|Hnd]; cbn [orb];
    [|case_bool_decide]]; rounding; repeat split; try (apply Z.min_glb); nia.
Qed.

Lemma tradeTaken_ok v mw ms :
  0 <= v <= mw * price_n p -> v <= ms * price_d p ->
  let '(w, s) := tradeTaken p v in
  0 <= w <= mw /\ 0 <= s <= ms /\ favours p false w s.
Proof using Hp.
  destruct Hp as [Hn Hd]. intros Hv Hs. unfold tradeTaken, favours.
  assert (0 <= v / price_n p) by (apply Z.div_pos; lia).
  assert (0 <= v / price_d p) by (apply Z.div_pos; lia).
  destruct (Z.ltb_spec (price_d p) (price_n p)) as [Hnd|Hnd]; rounding; repeat split; nia.
Qed.

Lemma tradeStays_zero v mss msr round :
  0 <= v -> round <> PATH_PAYMENT_STRICT_SEND ->
  let '(w, s) := tradeStays p v mss msr round in w = 0 <-> s = 0.
Proof using Hp.
  destruct Hp as [Hn Hd]. intros Hv Hr. unfold tradeStays.
  assert (0 <= v / price_n p) by (apply Z.div_pos; lia).
  assert (0 <= v / price_d p) by (apply Z.div_pos; lia).
  rewrite bool_decide_eq_false_2 by done.
  destruct (Z.ltb_spec (price_d p) (price_n p)) as [Hnd|Hnd]; cbn [orb]; [|case_bool_decide];
    rounding; split; nia.
Qed.

Lemma tradeTaken_zero v :
  0 <= v -> let '(w, s) := tradeTaken p v in w = 0 <-> s = 0.
Proof using Hp.
  destruct Hp as [Hn Hd]. intros Hv. unfold tradeTaken.
  assert (0 <= v / price_n p) by (apply Z.div_pos; lia).
  assert (0 <= v / price_d p) by (apply Z.div_pos; lia).
  destruct (Z.ltb_spec (price_d p) (price_n p)) as [Hnd|Hnd]; rounding; split; nia.
Qed.

End Trade.

(** ** The code computes the exact trade *)

(** What the exchange computes before the thresholds. *)
Definition trade (p : Price) (mws mwr mss msr : Z) (round : RoundingType) : ExchangeResultV10 :=
  let wv := wheatValue p mws msr in
  let sv := sheepValue p mss mwr in
  let stays := sv <? wv in
  let '(w, s) := if stays then tradeStays p sv mss msr round else tradeTaken p wv in
  mkResultV10 w s stays.

Record TradeOK (p : Price) (mws mwr mss msr : Z) (r : ExchangeResultV10) : Prop := {
  tr_wheat : 0 <= wheatReceived r <= Z.min mwr mws;
  tr_sheep : 0 <= sheepSent r <= Z.min msr mss;
  tr_favours : favours p (wheatStays r) (wheatReceived r) (sheepSent r)
}.

Section Code.
Context (p : Price) (Hp : validPrice p) (mws mwr mss msr : Z).
Hypotheses (Hws : amount mws) (Hwr : amount mwr) (Hss : amount mss) (Hsr : amount msr).

Lemma value_bounds :
  0 <= wheatValue p mws msr <= Z.min (mws * price_n p) (msr * price_d p) /\
  0 <= sheepValue p mss mwr <= Z.min (mss * price_d p) (mwr * price_n p).
Proof using All.
  destruct Hp. unfold wheatValue, sheepValue, amount in *. split; (split; [|lia]); apply Z.min_glb; nia.
Qed.

Lemma trade_ok round : TradeOK p mws mwr mss msr (trade p mws mwr mss msr round).
Proof using All.
  pose proof value_bounds as [Hwv Hsv]. unfold trade.
  set (wv := wheatValue p mws msr) in *. set (sv := sheepValue p mss mwr) in *.
  destruct Hp as [Hn Hd]. destruct (Z.ltb_spec sv wv) as [Hlt|Hle].
  - pose proof (tradeStays_ok p Hp sv (Z.min mwr mws) mss msr round) as H.
    destruct (tradeStays _ _ _ _ _) as [w s]. destruct H as (H1 & H2 & H3); [|lia|lia|].
    { split; [lia|]. rewrite <- Z.mul_min_distr_nonneg_r by lia. lia. }
    split; cbn; [done|lia|done].
  - pose proof (tradeTaken_ok p Hp wv (Z.min mwr mws) (Z.min msr mss)) as H.
    destruct (tradeTaken _ _) as [w s]. destruct H as (H1 & H2 & H3).
    { split; [lia|]. rewrite <- Z.mul_min_distr_nonneg_r by lia. lia. }
    { rewrite <- Z.mul_min_distr_nonneg_r by lia. lia. }
    by split.
Qed.

Lemma calculateOfferValue_eq :
  calculateOfferValue (price_n p) (price_d p) mws msr = inr (wheatValue p mws msr) /\
  calculateOfferValue (price_d p) (price_n p) mss mwr = inr (sheepValue p mss mwr).
Proof using All.
  destruct Hp. unfold amount in *. unfold calculateOfferValue.
  rewrite !bigMultiply_eq by (widths; lia). done.
Qed.

Lemma without_eq round :
  exchangeV10WithoutPriceErrorThresholds p mws mwr mss msr round = inr (trade p mws mwr mss msr round).
Proof using All.
  pose proof (trade_ok round) as [T1 T2 _]. pose proof value_bounds as [Hwv Hsv].
  pose proof calculateOfferValue_eq as [E1 E2]. destruct Hp as [Hn Hd].
  unfold exchangeV10WithoutPriceErrorThresholds. rewrite E1, E2. cbn [bnd mbind exc_bind].
  unfold trade in *. set (wv := wheatValue p mws msr) in *. set (sv := sheepValue p mss mwr) in *.
  unfold amount in *. assert (0 <= wv <= UINT128_MAX /\ 0 <= sv <= UINT128_MAX) as [Hw Hs]
    by (widths; nia).
  unfold tradeStays, tradeTaken in *. destruct (sv <? wv).
  1: destruct (bool_decide (round = PATH_PAYMENT_STRICT_SEND));
     [|destruct ((price_d p <? price_n p) || _)].
  4: destruct (price_d p <? price_n p).
  all: cbn [wheatReceived sheepSent] in *; rewrite bigDivideOrThrow128_down by (widths; lia);
    cbn [bnd mbind exc_bind]; try (rewrite bigDivideOrThrow_eq by (cbn [round_div]; widths; lia));
    cbn [bnd mbind exc_bind mret exc_ret round_div]; rewrite !(proj2 (Z.ltb_ge _ _)) by lia; done.
Qed.

End Code.

Lemma checkPriceErrorBound_eq p w s canFavorWheat :
  validPrice p -> amount w -> amount s ->
  checkPriceErrorBound p w s canFavorWheat =
    inr (canFavorWheat && (price_n p * w <? price_d p * s) || priceErrorOK p w s).
Proof.
  intros [Hn Hd] Hw Hs. unfold amount in *. unfold checkPriceErrorBound, priceErrorOK.
  rewrite !i64_small by (widths; lia). rewrite !bigMultiply_eq by (widths; lia). cbn [bnd mbind exc_bind].
  replace (100 * price_n p * w <? 100 * price_d p * s) with (price_n p * w <? price_d p * s)
    by (apply eq_true_iff_eq; rewrite !Z.ltb_lt; lia).
  destruct (canFavorWheat && _); [done|]. cbn [orb]. f_equal.
  assert (0 <= price_n p * w <= INT32_MAX * INT64_MAX) by nia.
  assert (0 <= price_d p * s <= INT32_MAX * INT64_MAX) by nia.
  destruct (Z.ltb_spec (100 * price_d p * s) (100 * price_n p * w));
    rewrite u128_small by (widths; lia); f_equal; lia.
Qed.

(** What the thresholds make of a trade that favours the right side. *)
Lemma thresholds_eq p w s stays round :
  validPrice p -> amount w -> amount s -> favours p stays w s ->
  applyPriceErrorThresholds p w s stays round =
    if (0 <? w) && (0 <? s) then
      if bool_decide (round <> NORMAL) && stays || priceErrorOK p w s
      then inr (mkResultV10 w s stays)
      else if bool_decide (round = NORMAL) then inr (mkResultV10 0 0 stays)
      else inl (Throw "exceeded price error bound")
    else if bool_decide (round = PATH_PAYMENT_STRICT_SEND) then
      if s =? 0 then inl (Throw "invalid amount of sheep sent") else inr (mkResultV10 w s stays)
    else inr (mkResultV10 0 0 stays).
Proof.
  intros Hp Hw Hs Hf. unfold applyPriceErrorThresholds.
  destruct ((0 <? w) && (0 <? s)) eqn:Hpos; [|by destruct round, (s =? 0)].
  apply andb_true_iff in Hpos as [Hw0 Hs0]. apply Z.ltb_lt in Hw0, Hs0.
  pose proof Hp as [Hn Hd]. unfold amount, favours in *.
  rewrite !bigMultiply_eq by (widths; lia). cbn [bnd mbind exc_bind].
  replace (stays && (s * price_d p <? w * price_n p)) with false.
  2: { destruct stays; [|done]. symmetry. apply Z.ltb_ge. lia. }
  replace (negb stays && (w * price_n p <? s * price_d p)) with false.
  2: { destruct stays; [done|]. symmetry. apply Z.ltb_ge. lia. }
  assert ((price_n p * w <? price_d p * s) || priceErrorOK p w s = stays || priceErrorOK p w s) as Hside.
  { unfold priceErrorOK. destruct (Z.ltb_spec (price_n p * w) (price_d p * s)); destruct stays; try done; cbn [orb].
    - lia.
    - replace (price_n p * w - price_d p * s) with 0 by lia. apply Z.leb_le. cbn. nia. }
  destruct round; rewrite checkPriceErrorBound_eq by done; cbn [bnd mbind exc_bind andb orb negb];
    rewrite ?bool_decide_eq_true_2, ?bool_decide_eq_false_2 by (congruence || (intros H; by apply H));
    cbn [andb]; rewrite ?Hside; [|destruct stays; cbn [orb]..]; by destruct (priceErrorOK p w s).
Qed.

(** ** Crossing two offers *)

Section Crossing.
Context (p : Price) (Hp : validPrice p) (mws mwr mss msr : Z).
Hypotheses (Hws : amount mws) (Hwr : amount mwr) (Hss : amount mss) (Hsr : amount msr).

Lemma trade_stays round :
  wheatStays (trade p mws mwr mss msr round) = (sheepValue p mss mwr <? wheatValue p mws msr).
Proof. unfold trade. destruct (_ <? _); [by destruct (tradeStays _ _ _ _ _)|by destruct (tradeTaken _ _)]. Qed.

Lemma trade_zero round :
  round <> PATH_PAYMENT_STRICT_SEND \/ wheatStays (trade p mws mwr mss msr round) = false ->
  wheatReceived (trade p mws mwr mss msr round) = 0 <-> sheepSent (trade p mws mwr mss msr round) = 0.
Proof using All.
  rewrite trade_stays. pose proof (value_bounds p Hp mws mwr mss msr Hws Hwr Hss Hsr) as [Hwv Hsv].
  unfold trade. intros Hr. destruct (sheepValue p mss mwr <? wheatValue p mws msr).
  - pose proof (tradeStays_zero p Hp (sheepValue p mss mwr) mss msr round ltac:(lia)) as H.
    destruct (tradeStays _ _ _ _ _). apply H. by destruct Hr.
  - pose proof (tradeTaken_zero p Hp (wheatValue p mws msr) ltac:(lia)) as H.
    by destruct (tradeTaken _ _).
Qed.

(** The outcome of a crossing, in terms of the exact trade. *)
Lemma exchangeV10_eq round :
  exchangeV10 p mws mwr mss msr round =
    let r := trade p mws mwr mss msr round in
    let w := wheatReceived r in
    let s := sheepSent r in
    if (0 <? w) && (0 <? s) then
      if bool_decide (round <> NORMAL) && wheatStays r || priceErrorOK p w s then inr r
      else if bool_decide (round = NORMAL) then inr (mkResultV10 0 0 (wheatStays r))
      else inl (Throw "exceeded price error bound")
    else if bool_decide (round = PATH_PAYMENT_STRICT_SEND) then
      if s =? 0 then inl (Throw "invalid amount of sheep sent") else inr r
    else inr (mkResultV10 0 0 (wheatStays r)).
Proof using All.
  pose proof (trade_ok p Hp mws mwr mss msr Hws Hwr Hss Hsr round) as [T1 T2 T3].
  unfold exchangeV10. rewrite without_eq by done. cbn [bnd mbind exc_bind]. cbv zeta.
  destruct (trade p mws mwr mss msr round) as [w s stays]. cbn [wheatReceived sheepSent wheatStays] in *.
  unfold amount in *. apply thresholds_eq; [done|unfold amount; lia..|done].
Qed.

Lemma no_trade_ok stays : TradeOK p mws mwr mss msr (mkResultV10 0 0 stays).
Proof using All.
  unfold amount in *. split; cbn [wheatReceived sheepSent]; [lia..|].
  unfold favours. cbn. destruct stays; lia.
Qed.

(** C34: Crossing two offers on the book ([NORMAL] rounding) never throws and
    keeps the promises of CAP-0004: no limit of either side is exceeded, the
    larger offer is the one that stays, rounding favours the one that stays, the
    effective price is within 1% of the offer's price, and either both sides give
    something or neither does. *)
Theorem exchangeV10_normal :
  exists r, exchangeV10 p mws mwr mss msr NORMAL = inr r /\
    wheatStays r = (sheepValue p mss mwr <? wheatValue p mws msr) /\
    TradeOK p mws mwr mss msr r /\
    (wheatReceived r = 0 <-> sheepSent r = 0) /\
    priceErrorOK p (wheatReceived r) (sheepSent r) = true.
Proof using All.
  rewrite exchangeV10_eq. cbv zeta. rewrite (bool_decide_eq_false_2 (NORMAL <> NORMAL)) by auto.
  rewrite bool_decide_eq_true_2, bool_decide_eq_false_2 by done. cbn [andb orb].
  pose proof (trade_ok p Hp mws mwr mss msr Hws Hwr Hss Hsr NORMAL) as T.
  pose proof (trade_zero NORMAL ltac:(by left)) as Z0. pose proof (trade_stays NORMAL) as St.
  pose proof (no_trade_ok (wheatStays (trade p mws mwr mss msr NORMAL))) as T0.
  assert (priceErrorOK p 0 0 = true) by (unfold priceErrorOK; apply Z.leb_le; lia).
  set (r := trade p mws mwr mss msr NORMAL) in *.
  destruct (_ && _); [destruct (priceErrorOK p (wheatReceived r) (sheepSent r)) eqn:He|]; eexists; (split; [reflexivity|tauto]).
Qed.

End Crossing.

(** ** Adjusting an offer *)

(** [adjustOffer] crosses the offer with a buyer without limits, so the offer is
    always taken. *)
Lemma unlimited_taken p mws msr :
  validPrice p -> amount mws -> amount msr ->
  (sheepValue p INT64_MAX INT64_MAX <? wheatValue p mws msr) = false.
Proof.
  intros [Hn Hd] Hw Hs. apply Z.ltb_ge. unfold sheepValue, wheatValue, amount in *. nia.
Qed.

(** The amount an offer is adjusted to. *)
Definition adjusted (p : Price) (mws msr : Z) : Z :=
  let '(w, s) := tradeTaken p (wheatValue p mws msr) in
  if (0 <? w) && (0 <? s) && priceErrorOK p w s then w else 0.

Lemma adjustOffer_eq p mws msr :
  validPrice p -> amount mws -> amount msr -> adjustOffer p mws msr = inr (adjusted p mws msr).
Proof.
  intros Hp Hw Hs. assert (amount INT64_MAX) by (unfold amount; widths; lia).
  unfold adjustOffer. rewrite exchangeV10_eq by done. cbv zeta. unfold trade, adjusted.
  rewrite unlimited_taken by done. destruct (tradeTaken _ _) as [w s].
  cbn [wheatReceived sheepSent wheatStays]. rewrite andb_false_r.
  rewrite bool_decide_eq_true_2, bool_decide_eq_false_2 by done. cbn [orb].
  destruct ((0 <? w) && (0 <? s)); [|done]. cbn [andb]. by destruct (priceErrorOK p w s).
Qed.

(** Crossing what is left after rounding gives the same trade. *)
Lemma tradeTaken_again p mws msr :
  validPrice p -> amount mws -> amount msr ->
  let t := tradeTaken p (wheatValue p mws msr) in
  tradeTaken p (wheatValue p (fst t) msr) = t.
Proof.
  intros Hp Hw Hs. pose proof Hp as [Hn Hd]. unfold amount in *.
  pose proof (tradeTaken_ok p Hp (wheatValue p mws msr) mws msr) as H. cbv zeta.
  unfold tradeTaken in *. unfold wheatValue in *.
  set (v := Z.min (mws * price_n p) (msr * price_d p)) in *.
  assert (0 <= v <= mws * price_n p /\ v <= msr * price_d p) as [Hv Hv'] by (subst v; lia).
  destruct (price_d p <? price_n p); cbn [fst]; specialize (H Hv Hv').
  - pose proof (floor_facts v (price_n p) ltac:(lia)) as F.
    rewrite (Z.min_l (v / price_n p * price_n p)) by lia. rewrite Z.div_mul by lia. done.
  - destruct H as (Hw' & _ & _).
    pose proof (floor_facts v (price_d p) ltac:(lia)) as F.
    pose proof (ceil_facts (v / price_d p * price_d p) (price_n p) ltac:(lia)) as G.
    set (s := v / price_d p) in *. set (w := ceil_div (s * price_d p) (price_n p)) in *.
    replace (Z.min (w * price_n p) (msr * price_d p) / price_d p) with s; [done|].
    apply (Z.div_unique_pos _ _ _ (Z.min (w * price_n p) (msr * price_d p) - price_d p * s)); [|lia].
    subst v. nia.
Qed.

Lemma tradeTaken_0 p : validPrice p -> tradeTaken p (0 * price_n p) = (0, 0).
Proof.
  intros [Hn Hd]. unfold tradeTaken, ceil_div. rewrite Z.mul_0_l, !Z.div_0_l, !Z.mul_0_l by lia.
  destruct (_ <? _); [done|]. by rewrite Z.div_small by lia.
Qed.

Lemma adjusted_again p mws msr :
  validPrice p -> amount mws -> amount msr ->
  0 <= adjusted p mws msr <= mws /\ adjusted p (adjusted p mws msr) msr = adjusted p mws msr.
Proof.
  intros Hp Hw Hs. pose proof (tradeTaken_again p mws msr Hp Hw Hs) as Again. cbv zeta in Again.
  pose proof Hp as [Hn Hd]. unfold amount in *.
  pose proof (tradeTaken_ok p Hp (wheatValue p mws msr) mws msr) as Hok.
  unfold adjusted at 1 2 4 5. destruct (tradeTaken p (wheatValue p mws msr)) as [w s].
  cbn [fst] in Again. destruct Hok as (H1 & H2 & _); [unfold wheatValue; nia..|].
  destruct ((0 <? w) && (0 <? s) && priceErrorOK p w s) eqn:E.
  - split; [lia|]. unfold adjusted. by rewrite Again, E.
  - split; [lia|]. unfold adjusted, wheatValue. rewrite Z.min_l by nia. by rewrite tradeTaken_0.
Qed.

(** [adjustOffer] never increases an offer and has no effect on an offer it
    already adjusted, as the comment before it argues case by case. *)
Theorem adjustOffer_idempotent p mws msr :
  validPrice p -> amount mws -> amount msr ->
  exists a, adjustOffer p mws msr = inr a /\ 0 <= a <= mws /\ adjustOffer p a msr = inr a.
Proof.
  intros Hp Hw Hs. pose proof (adjusted_again p mws msr Hp Hw Hs) as [Hle E].
  exists (adjusted p mws msr). rewrite !adjustOffer_eq; unfold amount in *; try done; [|lia].
  by rewrite E.
Qed.

(** ** Path payments *)

Section PathPayment.
Context (p : Price) (Hp : validPrice p) (mws mwr mss msr : Z).
Hypotheses (Hws : amount mws) (Hwr : amount mwr) (Hss : amount mss) (Hsr : amount msr).
Hypotheses (Hwr0 : 0 < mwr) (Hss0 : 0 < mss).

(** Crossing an adjusted offer never throws, whatever the rounding: the
    errors that [applyPriceErrorThresholds] guards against do not happen.  When
    the offer does not stay it is taken whole, within 1% of its price. *)
Theorem adjusted_offer_crosses round :
  0 < mws -> adjustOffer p mws msr = inr mws ->
  exists r, exchangeV10 p mws mwr mss msr round = inr r /\
    TradeOK p mws mwr mss msr r /\
    (wheatStays r = false ->
       wheatReceived r = mws /\ priceErrorOK p (wheatReceived r) (sheepSent r) = true).
Proof using All.
  intros Hpos. rewrite adjustOffer_eq by done. intros [= Hadj].
  rewrite exchangeV10_eq by done. cbv zeta.
  pose proof (trade_ok p Hp mws mwr mss msr Hws Hwr Hss Hsr round) as T.
  pose proof (no_trade_ok p Hp mws mwr mss msr Hws Hwr Hss Hsr true) as T0.
  unfold trade, adjusted in *. destruct (Z.ltb_spec (sheepValue p mss mwr) (wheatValue p mws msr)) as [Hst|Hst].
  - assert (bool_decide (round = PATH_PAYMENT_STRICT_SEND) = true ->
      snd (tradeStays p (sheepValue p mss mwr) mss msr round) <> 0) as Hsend.
    { intros E. unfold tradeStays. rewrite E. cbn. unfold wheatValue, sheepValue, amount in *.
      destruct Hp. assert (0 < msr) by nia. lia. }
    destruct (tradeStays _ _ _ _ _) as [w s]. cbn [wheatReceived sheepSent wheatStays snd] in *.
    rewrite andb_true_r. destruct ((0 <? w) && (0 <? s)).
    + destruct round; rewrite ?(bool_decide_eq_false_2 (NORMAL <> NORMAL)) by auto; cbn;
        [destruct (priceErrorOK p w s)|..]; by eexists.
    + destruct (bool_decide (round = PATH_PAYMENT_STRICT_SEND)); [|by eexists].
      rewrite (proj2 (Z.eqb_neq s 0)) by (by apply Hsend). by eexists.
  - destruct (tradeTaken _ _) as [w s]. cbn [wheatReceived sheepSent wheatStays] in *.
    destruct ((0 <? w) && (0 <? s)) eqn:E; cbn [andb] in Hadj; [|lia].
    destruct (priceErrorOK p w s) eqn:Ep; [|lia]. rewrite orb_true_r. by eexists.
Qed.

(** A path payment that stops in the middle of an offer (the offer stays)
    gets what it asks for, at the offer's price or worse for the payer by less
    than one unit: with a fixed amount to receive it receives exactly that and
    sends the price rounded up; with a fixed amount to send it sends all of it
    and no larger amount of wheat would respect the price. *)
Theorem path_payment_exact :
  sheepValue p mss mwr < wheatValue p mws msr ->
  (mwr * price_n p <= mss * price_d p ->
     exchangeV10 p mws mwr mss msr PATH_PAYMENT_STRICT_RECEIVE =
       inr (mkResultV10 mwr (ceil_div (mwr * price_n p) (price_d p)) true)) /\
  exists w, exchangeV10 p mws mwr mss msr PATH_PAYMENT_STRICT_SEND =
       inr (mkResultV10 w (Z.min mss msr) true) /\
     (w < mwr -> mss <= msr /\ mss * price_d p < (w + 1) * price_n p).
Proof using All.
  intros Hst. pose proof Hp as [Hn Hd]. rewrite !exchangeV10_eq by done. unfold trade.
  rewrite (proj2 (Z.ltb_lt _ _) Hst). unfold tradeStays. cbv zeta.
  rewrite !(bool_decide_eq_true_2 (_ <> NORMAL)) by done.
  rewrite !(bool_decide_eq_true_2 (?[r] = ?r)) by done.
  rewrite !(bool_decide_eq_false_2 (PATH_PAYMENT_STRICT_RECEIVE = PATH_PAYMENT_STRICT_SEND)) by done.
  rewrite orb_true_r. cbn [wheatReceived sheepSent wheatStays andb orb].
  unfold sheepValue, wheatValue, amount in *. split.
  - intros Hle. rewrite Z.min_r, Z.div_mul by lia.
    pose proof (ceil_facts (mwr * price_n p) (price_d p) ltac:(lia)).
    rewrite !(proj2 (Z.ltb_lt 0 _)) by nia. done.
  - set (v := Z.min (mss * price_d p) (mwr * price_n p)) in *.
    pose proof (floor_facts v (price_n p) ltac:(lia)) as F. exists (v / price_n p). split.
    + assert (0 < msr) by nia. rewrite (proj2 (Z.eqb_neq (Z.min mss msr) 0)) by lia.
      by destruct (_ && _).
    + intros Hlt. destruct (Z.le_gt_cases (mwr * price_n p) (mss * price_d p)) as [Hm|Hm].
      * subst v. rewrite Z.min_r, Z.div_mul in Hlt by lia. lia.
      * assert (v = mss * price_d p) as Ev by (subst v; lia). rewrite Ev in *. nia.
Qed.

End PathPayment.

(** ** Trading with a pool *)

(** The pool's invariant with the fee taken out of what is paid in. *)
Definition poolKeeps (feeBps rt rf to from : Z) : Prop :=
  maxBps * rt * rf <= (maxBps * rt + (maxBps - feeBps) * to) * (rf - from).

Lemma poolKeeps_product feeBps rt rf to from :
  0 <= feeBps -> 0 <= to -> from <= rf ->
  poolKeeps feeBps rt rf to from -> rt * rf <= (rt + to) * (rf - from).
Proof.
  unfold poolKeeps, maxBps. intros Hf Ht Hr H.
  assert ((10000 * rt + (10000 - feeBps) * to) * (rf - from) <= 10000 * (rt + to) * (rf - from))
    by (apply Z.mul_le_mono_nonneg_r; nia).
  lia.
Qed.

Section Pool.
Context (rt rf feeBps : Z).
Hypotheses (Hrt : 0 < rt <= INT64_MAX) (Hrf : 0 < rf <= INT64_MAX) (Hfee : 0 <= feeBps < maxBps).

Lemma pool_send to :
  0 <= to <= INT64_MAX - rt ->
  let from := (maxBps - feeBps) * (rf * to) / (maxBps * rt + (maxBps - feeBps) * to) in
  exchangeWithPool rt to rf INT64_MAX feeBps PATH_PAYMENT_STRICT_SEND =
    inr (mkPoolExchange (negb (from =? 0)) (Some to) (Some from)) /\
  0 <= from < rf /\ poolKeeps feeBps rt rf to from /\ ~ poolKeeps feeBps rt rf to (from + 1).
Proof using All.
  intros Hto. unfold exchangeWithPool, poolKeeps, maxBps in *. cbv zeta.
  set (c := 10000 - feeBps) in *. assert (0 < c <= 10000) as Hc by lia.
  set (D := 10000 * rt + c * to). assert (0 < D) as HD by nia.
  pose proof (floor_facts (c * (rf * to)) D HD) as F. set (from := c * (rf * to) / D) in *.
  assert (0 <= from < rf) as Hfrom by nia.
  split; [|split; [done|split; nia]].
  rewrite (proj2 (Z.ltb_ge feeBps 0)), (proj2 (Z.leb_gt 10000 feeBps)) by lia. cbn [orb].
  rewrite !(proj2 (Z.leb_gt _ 0)) by lia. cbn [orb]. rewrite Z.eqb_refl. cbn [negb].
  rewrite i64_small by (widths; lia). rewrite (proj2 (Z.ltb_ge _ to)) by lia.
  rewrite i32_small by (widths; lia). fold c. rewrite !bigMultiply_eq by (widths; lia).
  cbn [bnd mbind exc_bind]. fold D.
  assert (D <= 20000 * INT64_MAX) by nia.
  rewrite u128_small by (widths; lia). rewrite hugeDivide_eq by (widths; nia).
  cbn [bnd mbind exc_bind round_div]. fold from.
  rewrite (proj2 (Z.leb_le from INT64_MAX)) by lia.
  rewrite (proj2 (Z.ltb_ge rf from)), (proj2 (Z.ltb_ge from 0)) by lia. done.
Qed.

Lemma pool_receive from :
  0 <= from < rf ->
  let to := ceil_div (maxBps * (rt * from)) ((rf - from) * (maxBps - feeBps)) in
  exists e, exchangeWithPool rt INT64_MAX rf from feeBps PATH_PAYMENT_STRICT_RECEIVE = inr e /\
  (if pe_res e then e = mkPoolExchange true (Some to) (Some from) /\ rt + to <= INT64_MAX
   else INT64_MAX < rt + to) /\
  0 <= to /\ poolKeeps feeBps rt rf to from /\ (0 < to -> ~ poolKeeps feeBps rt rf (to - 1) from).
Proof using All.
  intros Hfrom. unfold exchangeWithPool, poolKeeps, maxBps in *. cbv zeta.
  set (c := 10000 - feeBps) in *. assert (0 < c <= 10000) as Hc by lia.
  assert (0 < (rf - from) * c) as HD by nia.
  pose proof (ceil_facts (10000 * (rt * from)) ((rf - from) * c) HD) as F.
  set (to := ceil_div (10000 * (rt * from)) ((rf - from) * c)) in *.
  assert (0 <= to) by (apply ceil_div_nonneg; nia).
  rewrite (proj2 (Z.ltb_ge feeBps 0)), (proj2 (Z.leb_gt 10000 feeBps)) by lia. cbn [orb].
  rewrite !(proj2 (Z.leb_gt _ 0)) by lia. cbn [orb]. rewrite Z.eqb_refl. cbn [negb].
  rewrite (proj2 (Z.leb_gt rf from)) by lia. rewrite !i64_small by (widths; lia).
  rewrite i32_small by (widths; lia). fold c. rewrite !bigMultiply_eq by (widths; lia).
  cbn [bnd mbind exc_bind].
  assert ((rf - from) * c <= 10000 * INT64_MAX) by nia.
  rewrite hugeDivide_eq by (widths; nia). cbn [bnd mbind exc_bind round_div]. fold to.
  assert (10000 * rt * rf <= (10000 * rt + c * to) * (rf - from)) by nia.
  assert (0 < to -> ~ 10000 * rt * rf <= (10000 * rt + c * (to - 1)) * (rf - from)) by nia.
  destruct (Z.leb_spec to INT64_MAX).
  - rewrite (proj2 (Z.ltb_ge to 0)) by lia. eexists. split; [reflexivity|]. cbn [pe_res].
    destruct (Z.leb_spec to (INT64_MAX - rt)); repeat split; try done; lia.
  - eexists. split; [reflexivity|]. cbn [pe_res]. repeat split; try done; lia.
Qed.

Lemma send_overflows amt :
  0 <= amt <= INT64_MAX -> INT64_MAX - rt < amt ->
  exchangeWithPool rt amt rf INT64_MAX feeBps PATH_PAYMENT_STRICT_SEND =
    inr (mkPoolExchange false None None).
Proof using All.
  intros Ha Hgt. unfold exchangeWithPool, maxBps in *.
  rewrite (proj2 (Z.ltb_ge feeBps 0)), (proj2 (Z.leb_gt 10000 feeBps)) by lia.
  rewrite !(proj2 (Z.leb_gt _ 0)) by lia. rewrite Z.eqb_refl, i64_small by (widths; lia).
  by rewrite (proj2 (Z.ltb_lt _ amt)) by lia.
Qed.

Lemma receive_empties amt :
  rf <= amt ->
  exchangeWithPool rt INT64_MAX rf amt feeBps PATH_PAYMENT_STRICT_RECEIVE =
    inr (mkPoolExchange false None None).
Proof using All.
  intros Hge. unfold exchangeWithPool, maxBps in *.
  rewrite (proj2 (Z.ltb_ge feeBps 0)), (proj2 (Z.leb_gt 10000 feeBps)) by lia.
  rewrite !(proj2 (Z.leb_gt _ 0)) by lia. rewrite Z.eqb_refl.
  by rewrite (proj2 (Z.leb_le rf amt)) by lia.
Qed.

(** What a trade with a fixed amount sent, and one with a fixed amount received,
    may do. *)
Definition sendOutcome (amt : Z) (e : PoolExchange) : Prop :=
  if pe_res e then
    exists from, e = mkPoolExchange true (Some amt) (Some from) /\
      0 < from < rf /\ rt + amt <= INT64_MAX /\ rt * rf <= (rt + amt) * (rf - from) /\
      poolKeeps feeBps rt rf amt from /\ ~ poolKeeps feeBps rt rf amt (from + 1)
  else INT64_MAX < rt + amt \/ ~ poolKeeps feeBps rt rf amt 1.

Definition receiveOutcome (amt : Z) (e : PoolExchange) : Prop :=
  if pe_res e then
    exists to, e = mkPoolExchange true (Some to) (Some amt) /\
      amt < rf /\ 0 <= to /\ rt + to <= INT64_MAX /\ rt * rf <= (rt + to) * (rf - amt) /\
      poolKeeps feeBps rt rf to amt /\ (0 < to -> ~ poolKeeps feeBps rt rf (to - 1) amt)
  else rf <= amt \/ ~ poolKeeps feeBps rt rf (INT64_MAX - rt) amt.

(** C35: Trading with a liquidity pool never throws in the ranges the ledger
    allows and never lowers the product of the reserves: a fixed amount sent
    buys the largest amount, and a fixed amount received costs the smallest,
    for which the product of the reserves, net of the fee, does not decrease;
    the trade is refused only when it would buy nothing, empty a reserve or
    overflow one. *)
Theorem exchangeWithPool_keeps_product amt :
  amount amt ->
  (exists e, exchangeWithPool rt amt rf INT64_MAX feeBps PATH_PAYMENT_STRICT_SEND = inr e /\
     sendOutcome amt e) /\
  (exists e, exchangeWithPool rt INT64_MAX rf amt feeBps PATH_PAYMENT_STRICT_RECEIVE = inr e /\
     receiveOutcome amt e).
Proof using All.
  unfold amount, sendOutcome, receiveOutcome. intros Ha. split.
  - destruct (Z.le_gt_cases amt (INT64_MAX - rt)) as [Hle|Hgt].
    + destruct (pool_send amt ltac:(lia)) as (E & Hf & Hk & Hm). eexists. split; [exact E|]. cbn [pe_res].
      set (from := _ / _) in *. destruct (Z.eqb_spec from 0) as [E0|Hne]; cbn [negb].
      * right. by rewrite E0 in Hm.
      * exists from. repeat split; try (done || lia). apply (poolKeeps_product feeBps); [lia..|done].
    + rewrite send_overflows by lia. eexists. split; [reflexivity|]. cbn. left. lia.
  - destruct (Z.lt_ge_cases amt rf) as [Hlt|Hge].
    + destruct (pool_receive amt ltac:(lia)) as (e & E & Hres & Ht & Hk & Hm).
      exists e. split; [exact E|]. destruct (pe_res e).
      * destruct Hres as [Ee Hle]. eexists. split; [exact Ee|]. repeat split; try (done || lia).
        apply (poolKeeps_product feeBps); [lia|done|lia|done].
      * right. intros Hkeep. apply Hm; [lia|]. unfold poolKeeps, maxBps in *. nia.
    + rewrite receive_empties by lia. eexists. split; [reflexivity|]. cbn. by left.
Qed.

End Pool.

(** ** Instances *)

Definition twoThirds : Price := mkPrice 2 3.

Lemma twoThirds_valid : validPrice twoThirds.
Proof. unfold validPrice. cbn. widths. lia. Qed.

Lemma amount_of x : (0 <=? x) && (x <=? INT64_MAX) = true -> amount x.
Proof. intros H. apply andb_true_iff in H as [H1 H2]. unfold amount. lia. Qed.

Lemma exchangeV10_normal_witness :
  exists r, exchangeV10 twoThirds 150 101 1000 1000 NORMAL = inr r /\
    wheatStays r = true /\ TradeOK twoThirds 150 101 1000 1000 r /\
    (wheatReceived r = 0 <-> sheepSent r = 0) /\
    priceErrorOK twoThirds (wheatReceived r) (sheepSent r) = true.
Proof.
  exact (exchangeV10_normal twoThirds twoThirds_valid 150 101 1000 1000 (amount_of 150 eq_refl)
    (amount_of 101 eq_refl) (amount_of 1000 eq_refl) (amount_of 1000 eq_refl)).
Defined.

Lemma adjustOffer_idempotent_witness :
  exists a, adjustOffer twoThirds 1000 500 = inr a /\ 0 <= a <= 1000 /\ adjustOffer twoThirds a 500 = inr a.
Proof.
  exact (adjustOffer_idempotent twoThirds 1000 500 twoThirds_valid (amount_of 1000 eq_refl) (amount_of 500 eq_refl)).
Defined.

Lemma adjusted_offer_crosses_witness :
  exists r, exchangeV10 twoThirds 750 2000 2000 500 PATH_PAYMENT_STRICT_SEND = inr r /\
    TradeOK twoThirds 750 2000 2000 500 r /\
    (wheatStays r = false ->
       wheatReceived r = 750 /\ priceErrorOK twoThirds (wheatReceived r) (sheepSent r) = true).
Proof.
  exact (adjusted_offer_crosses twoThirds twoThirds_valid 750 2000 2000 500 (amount_of 750 eq_refl)
    (amount_of 2000 eq_refl) (amount_of 2000 eq_refl) (amount_of 500 eq_refl)
    ltac:(lia) ltac:(lia) PATH_PAYMENT_STRICT_SEND ltac:(lia) ltac:(vm_compute; reflexivity)).
Defined.

Lemma path_payment_exact_witness :
  (101 * 2 <= 1000 * 3 ->
     exchangeV10 twoThirds 150 101 1000 1000 PATH_PAYMENT_STRICT_RECEIVE = inr (mkResultV10 101 68 true)) /\
  exists w, exchangeV10 twoThirds 150 101 1000 1000 PATH_PAYMENT_STRICT_SEND =
       inr (mkResultV10 w 1000 true) /\ (w < 101 -> 1000 <= 1000 /\ 1000 * 3 < (w + 1) * 2).
Proof.
  exact (path_payment_exact twoThirds twoThirds_valid 150 101 1000 1000 (amount_of 150 eq_refl)
    (amount_of 101 eq_refl) (amount_of 1000 eq_refl) (amount_of 1000 eq_refl)
    ltac:(lia) ltac:(lia) ltac:(vm_compute; reflexivity)).
Defined.

Lemma exchangeWithPool_keeps_product_witness :
  (exists e, exchangeWithPool 1000 100 1000 INT64_MAX 30 PATH_PAYMENT_STRICT_SEND = inr e /\
     sendOutcome 1000 1000 30 100 e) /\
  (exists e, exchangeWithPool 1000 INT64_MAX 1000 100 30 PATH_PAYMENT_STRICT_RECEIVE = inr e /\
     receiveOutcome 1000 1000 30 100 e).
Proof.
  refine (exchangeWithPool_keeps_product 1000 1000 30 _ _ _ 100 (amount_of 100 eq_refl));
    unfold maxBps; widths; lia.
Defined.
