(* ===== verification/Entries.v ===== *)
(** * Ledger entries

    The data the ledger consists of ([Hcnet-ledger-entries.x] and
    [Hcnet-ledger.x]), the keys it is stored under ([util/types.cpp]), the
    bookkeeping entries that live only during a ledger close
    ([ledger/InternalLedgerEntry.h]) and the tests on protocol versions.  An XDR
    union whose case 0 is void is an [option]; account and pool identifiers and
    hashes are the numbers their bytes spell, so that the order of numbers is the
    order of the byte strings. *)

From stdpp Require Import base list gmap strings countable.
From S2P Require Import Prelude Exchange.

Local Open Scope Z_scope.

Abbreviation AccountID := Z (only parsing).
Abbreviation PoolID := Z (only parsing).

(** ** Assets *)

Inductive Asset :=
  | ASSET_TYPE_NATIVE
  | ASSET_TYPE_CREDIT_ALPHANUM4 (assetCode : list Z) (issuer : AccountID)
  | ASSET_TYPE_CREDIT_ALPHANUM12 (assetCode : list Z) (issuer : AccountID).

Inductive TrustLineAsset :=
  | TL_NATIVE
  | TL_CREDIT_ALPHANUM4 (assetCode : list Z) (issuer : AccountID)
  | TL_CREDIT_ALPHANUM12 (assetCode : list Z) (issuer : AccountID)
  | TL_POOL_SHARE (liquidityPoolID : PoolID).

#[export] Instance Asset_eq_dec : EqDecision Asset.
Proof. solve_decision. Defined.
#[export] Instance TrustLineAsset_eq_dec : EqDecision TrustLineAsset.
Proof. solve_decision. Defined.

Definition isNative (a : Asset) : bool :=
  match a with ASSET_TYPE_NATIVE => true | _ => false end.

Definition assetToTrustLineAsset (a : Asset) : TrustLineAsset :=
  match a with
  | ASSET_TYPE_NATIVE => TL_NATIVE
  | ASSET_TYPE_CREDIT_ALPHANUM4 c i => TL_CREDIT_ALPHANUM4 c i
  | ASSET_TYPE_CREDIT_ALPHANUM12 c i => TL_CREDIT_ALPHANUM12 c i
  end.

(** ** Accounts *)

Record Liabilities := mkLiabilities { liab_buying : Z; liab_selling : Z }.

Inductive SignerKey :=
  | SIGNER_KEY_TYPE_ED25519 (k : Z)
  | SIGNER_KEY_TYPE_PRE_AUTH_TX (h : Z)
  | SIGNER_KEY_TYPE_HASH_X (h : Z)
  | SIGNER_KEY_TYPE_ED25519_SIGNED_PAYLOAD (k : Z) (payload : list Z).

Record Signer := mkSigner { signer_key : SignerKey; signer_weight : Z }.

Record AccountEntryExtensionV3 := mkAccountV3 { seqLedger : Z; seqTime : Z }.

Record AccountEntryExtensionV2 := mkAccountV2 {
  numSponsored : Z;
  numSponsoring : Z;
  signerSponsoringIDs : list (option AccountID);
  v2_ext : option AccountEntryExtensionV3
}.

Record AccountEntryExtensionV1 := mkAccountV1 {
  v1_liabilities : Liabilities;
  v1_ext : option AccountEntryExtensionV2
}.

Record AccountEntry := mkAccount {
  acc_accountID : AccountID;
  acc_balance : Z;
  acc_seqNum : Z;
  acc_numSubEntries : Z;
  acc_inflationDest : option AccountID;
  acc_flags : Z;
  acc_homeDomain : list Z;
  acc_thresholds : list Z;
  acc_signers : list Signer;
  acc_ext : option AccountEntryExtensionV1
}.

Definition AUTH_REQUIRED_FLAG : Z := 1.
Definition AUTH_REVOCABLE_FLAG : Z := 2.
Definition AUTH_IMMUTABLE_FLAG : Z := 4.
Definition AUTH_CLAWBACK_ENABLED_FLAG : Z := 8.
Definition MASK_ACCOUNT_FLAGS : Z := 7.
Definition MASK_ACCOUNT_FLAGS_V17 : Z := 15.

(** ** Trust lines *)

Record TrustLineEntryExtensionV2 := mkTrustLineV2 { liquidityPoolUseCount : Z }.

Record TrustLineEntryExtensionV1 := mkTrustLineV1 {
  tlv1_liabilities : Liabilities;
  tlv1_ext : option TrustLineEntryExtensionV2
}.

Record TrustLineEntry := mkTrustLine {
  tl_accountID : AccountID;
  tl_asset : TrustLineAsset;
  tl_balance : Z;
  tl_limit : Z;
  tl_flags : Z;
  tl_ext : option TrustLineEntryExtensionV1
}.

Definition AUTHORIZED_FLAG : Z := 1.
Definition AUTHORIZED_TO_MAINTAIN_LIABILITIES_FLAG : Z := 2.
Definition TRUSTLINE_CLAWBACK_ENABLED_FLAG : Z := 4.
Definition MASK_TRUSTLINE_FLAGS : Z := 1.
Definition MASK_TRUSTLINE_FLAGS_V13 : Z := 3.
Definition MASK_TRUSTLINE_FLAGS_V17 : Z := 7.

(** ** Offers, data, claimable balances and pools *)

Record OfferEntry := mkOffer {
  oe_sellerID : AccountID;
  oe_offerID : Z;
  oe_selling : Asset;
  oe_buying : Asset;
  oe_amount : Z;
  oe_price : Price;
  oe_flags : Z
}.

Record DataEntry := mkData {
  data_accountID : AccountID;
  data_dataName : string;
  data_dataValue : list Z
}.

Inductive ClaimPredicate :=
  | CLAIM_PREDICATE_UNCONDITIONAL
  | CLAIM_PREDICATE_AND (andPredicates : list ClaimPredicate)
  | CLAIM_PREDICATE_OR (orPredicates : list ClaimPredicate)
  | CLAIM_PREDICATE_NOT (notPredicate : option ClaimPredicate)
  | CLAIM_PREDICATE_BEFORE_ABSOLUTE_TIME (absBefore : Z)
  | CLAIM_PREDICATE_BEFORE_RELATIVE_TIME (relBefore : Z).

Record Claimant := mkClaimant { destination : AccountID; predicate : ClaimPredicate }.

Record ClaimableBalanceEntry := mkClaimableBalance {
  cb_balanceID : Z;
  cb_claimants : list Claimant;
  cb_asset : Asset;
  cb_amount : Z;
  cb_flags : option Z
}.

Record LiquidityPoolEntry := mkPool {
  lp_liquidityPoolID : PoolID;
  lp_assetA : Asset;
  lp_assetB : Asset;
  lp_fee : Z;
  reserveA : Z;
  reserveB : Z;
  totalPoolShares : Z;
  poolSharesTrustLineCount : Z
}.

(** ** Ledger entries and their keys *)

Inductive LedgerEntryData :=
  | ACCOUNT (a : AccountEntry)
  | TRUSTLINE (t : TrustLineEntry)
  | OFFER (o : OfferEntry)
  | DATA (d : DataEntry)
  | CLAIMABLE_BALANCE (c : ClaimableBalanceEntry)
  | LIQUIDITY_POOL (p : LiquidityPoolEntry).

(** The extension holds the sponsor: [None] for version 0, and the sponsorship
    descriptor of version 1, itself optional. *)
Record LedgerEntry := mkEntry {
  lastModifiedLedgerSeq : Z;
  le_data : LedgerEntryData;
  le_ext : option (option AccountID)
}.

Inductive LedgerKey :=
  | KEY_ACCOUNT (accountID : AccountID)
  | KEY_TRUSTLINE (accountID : AccountID) (asset : TrustLineAsset)
  | KEY_OFFER (sellerID : AccountID) (offerID : Z)
  | KEY_DATA (accountID : AccountID) (dataName : string)
  | KEY_CLAIMABLE_BALANCE (balanceID : Z)
  | KEY_LIQUIDITY_POOL (liquidityPoolID : PoolID).

Definition LedgerEntryKey (e : LedgerEntry) : LedgerKey :=
  match le_data e with
  | ACCOUNT a => KEY_ACCOUNT (acc_accountID a)
  | TRUSTLINE t => KEY_TRUSTLINE (tl_accountID t) (tl_asset t)
  | OFFER o => KEY_OFFER (oe_sellerID o) (oe_offerID o)
  | DATA d => KEY_DATA (data_accountID d) (data_dataName d)
  | CLAIMABLE_BALANCE c => KEY_CLAIMABLE_BALANCE (cb_balanceID c)
  | LIQUIDITY_POOL p => KEY_LIQUIDITY_POOL (lp_liquidityPoolID p)
  end.

Inductive InternalLedgerKey :=
  | LedgerKeyOf (k : LedgerKey)
  | SponsorshipKey (sponsoredID : AccountID)
  | SponsorshipCounterKey (sponsoringID : AccountID)
  | MaxSeqNumToApplyKey (sourceAccount : AccountID).

Inductive InternalLedgerEntry :=
  | LedgerEntryOf (e : LedgerEntry)
  | SponsorshipEntry (sponsoredID sponsoringID : AccountID)
  | SponsorshipCounterEntry (sponsoringID : AccountID) (numSponsoring : Z)
  | MaxSeqNumToApplyEntry (sourceAccount : AccountID) (maxSeqNum : Z).

Definition toKey (e : InternalLedgerEntry) : InternalLedgerKey :=
  match e with
  | LedgerEntryOf e => LedgerKeyOf (LedgerEntryKey e)
  | SponsorshipEntry sponsored _ => SponsorshipKey sponsored
  | SponsorshipCounterEntry sponsoring _ => SponsorshipCounterKey sponsoring
  | MaxSeqNumToApplyEntry source _ => MaxSeqNumToApplyKey source
  end.

#[export] Instance LedgerKey_eq_dec : EqDecision LedgerKey.
Proof. solve_decision. Defined.
#[export] Instance InternalLedgerKey_eq_dec : EqDecision InternalLedgerKey.
Proof. solve_decision. Defined.

(** Encodings of the keys as sums and products, for the finite maps. *)

Definition assetEnc (a : Asset) : option (bool * (list Z * Z)) :=
  match a with
  | ASSET_TYPE_NATIVE => None
  | ASSET_TYPE_CREDIT_ALPHANUM4 c i => Some (false, (c, i))
  | ASSET_TYPE_CREDIT_ALPHANUM12 c i => Some (true, (c, i))
  end.
Definition assetDec (e : option (bool * (list Z * Z))) : Asset :=
  match e with
  | None => ASSET_TYPE_NATIVE
  | Some (false, (c, i)) => ASSET_TYPE_CREDIT_ALPHANUM4 c i
  | Some (true, (c, i)) => ASSET_TYPE_CREDIT_ALPHANUM12 c i
  end.
#[export] Instance Asset_countable : Countable Asset.
Proof. apply (inj_countable' assetEnc assetDec). by intros []. Defined.

Definition tlAssetEnc (a : TrustLineAsset) : Z + option (bool * (list Z * Z)) :=
  match a with
  | TL_NATIVE => inr None
  | TL_CREDIT_ALPHANUM4 c i => inr (Some (false, (c, i)))
  | TL_CREDIT_ALPHANUM12 c i => inr (Some (true, (c, i)))
  | TL_POOL_SHARE p => inl p
  end.
Definition tlAssetDec (e : Z + option (bool * (list Z * Z))) : TrustLineAsset :=
  match e with
  | inl p => TL_POOL_SHARE p
  | inr None => TL_NATIVE
  | inr (Some (false, (c, i))) => TL_CREDIT_ALPHANUM4 c i
  | inr (Some (true, (c, i))) => TL_CREDIT_ALPHANUM12 c i
  end.
#[export] Instance TrustLineAsset_countable : Countable TrustLineAsset.
Proof. apply (inj_countable' tlAssetEnc tlAssetDec). by intros []. Defined.

Definition keyEnc (k : LedgerKey) : Z * TrustLineAsset + Z * Z + Z * string + Z + Z + Z :=
  match k with
  | KEY_TRUSTLINE i a => inl (inl (inl (inl (inl (i, a)))))
  | KEY_OFFER i o => inl (inl (inl (inl (inr (i, o)))))
  | KEY_DATA i n => inl (inl (inl (inr (i, n))))
  | KEY_ACCOUNT i => inl (inl (inr i))
  | KEY_CLAIMABLE_BALANCE b => inl (inr b)
  | KEY_LIQUIDITY_POOL p => inr p
  end.
Definition keyDec (e : Z * TrustLineAsset + Z * Z + Z * string + Z + Z + Z) : LedgerKey :=
  match e with
  | inl (inl (inl (inl (inl (i, a))))) => KEY_TRUSTLINE i a
  | inl (inl (inl (inl (inr (i, o))))) => KEY_OFFER i o
  | inl (inl (inl (inr (i, n)))) => KEY_DATA i n
  | inl (inl (inr i)) => KEY_ACCOUNT i
  | inl (inr b) => KEY_CLAIMABLE_BALANCE b
  | inr p => KEY_LIQUIDITY_POOL p
  end.
#[export] Instance LedgerKey_countable : Countable LedgerKey.
Proof. apply (inj_countable' keyEnc keyDec). by intros []. Defined.

Definition internalKeyEnc (k : InternalLedgerKey) : LedgerKey + Z + Z + Z :=
  match k with
  | LedgerKeyOf k => inl (inl (inl k))
  | SponsorshipKey i => inl (inl (inr i))
  | SponsorshipCounterKey i => inl (inr i)
  | MaxSeqNumToApplyKey i => inr i
  end.
Definition internalKeyDec (e : LedgerKey + Z + Z + Z) : InternalLedgerKey :=
  match e with
  | inl (inl (inl k)) => LedgerKeyOf k
  | inl (inl (inr i)) => SponsorshipKey i
  | inl (inr i) => SponsorshipCounterKey i
  | inr i => MaxSeqNumToApplyKey i
  end.
#[export] Instance InternalLedgerKey_countable : Countable InternalLedgerKey.
Proof. apply (inj_countable' internalKeyEnc internalKeyDec). by intros []. Defined.

(** ** The ledger header *)

Record HcnetValue := mkHcnetValue { txSetHash : Z; closeTime : Z; upgrades : list (list Z) }.

Record LedgerHeader := mkHeader {
  ledgerVersion : Z;
  previousLedgerHash : Z;
  scpValue : HcnetValue;
  txSetResultHash : Z;
  bucketListHash : Z;
  ledgerSeq : Z;
  totalCoins : Z;
  feePool : Z;
  inflationSeq : Z;
  idPool : Z;
  baseFee : Z;
  baseReserve : Z;
  maxTxSetSize : Z;
  skipList : list Z;
  header_flags : option Z
}.

(** ** Protocol versions *)

Definition protocolVersionIsBefore (protocolVersion beforeVersion : Z) : bool :=
  protocolVersion <? beforeVersion.
Definition protocolVersionStartsFrom (protocolVersion fromVersion : Z) : bool :=
  fromVersion <=? protocolVersion.
Definition protocolVersionEquals (protocolVersion equalsVersion : Z) : bool :=
  protocolVersion =? equalsVersion.
