(* ===== verification/OfferOrder.v ===== *)
(** * The order of offers

    [isBetterOffer] of [ledger/LedgerTxnOfferSQL.cpp] sorts the offers of an asset
    pair by price, as a double-precision quotient, and then by identifier.  The
    quotient is computed by the standard library's executable model of IEEE 754
    ([SpecFloat]) in binary64. *)

From stdpp Require Import base list gmap.
From Stdlib Require Import Floats.SpecFloat.
From S2P Require Import Prelude Exchange Entries.

Local Open Scope Z_scope.

(** Conversion of an integer to a double, and division of doubles. *)
Definition toDouble (z : Z) : spec_float := binary_normalize 53 1024 z 0 false.
Definition doubleDiv (x y : spec_float) : spec_float := SFdiv 53 1024 x y.

Record OfferDescriptor := mkDescriptor { od_price : Price; od_offerID : Z }.

Definition priceAsDouble (p : Price) : spec_float :=
  doubleDiv (toDouble (price_n p)) (toDouble (price_d p)).

Definition isBetterOffer (lhs rhs : OfferDescriptor) : bool :=
  let lhsPrice := priceAsDouble (od_price lhs) in
  let rhsPrice := priceAsDouble (od_price rhs) in
  if SFltb lhsPrice rhsPrice then true
  else if SFeqb lhsPrice rhsPrice then od_offerID lhs <? od_offerID rhs
  else false.

(** The descriptor of an offer. *)
Definition descriptor (o : OfferEntry) : OfferDescriptor :=
  mkDescriptor (oe_price o) (oe_offerID o).

(** ** Prices as doubles are ordered

    Neither a conversion nor a quotient of valid prices is a NaN, the one value
    that would not be comparable. *)

Definition nonNegative (f : spec_float) : Prop :=
  match f with
  | S754_zero false | S754_finite false _ _ | S754_infinity false => True
  | _ => False
  end.

Lemma iter_pos_ind {A} (P : A -> Prop) (f : A -> A) :
  (forall a, P a -> P (f a)) -> forall p a, P a -> P (SpecFloat.iter_pos f p a).
Proof. intros H p. induction p; intros a Ha; cbn; auto. Qed.

Lemma shr_1_nonneg mrs : 0 <= shr_m mrs -> 0 <= shr_m (shr_1 mrs).
Proof.
  destruct mrs as [m r s]. cbn. intros Hm. destruct m as [|p|p]; [done| |lia].
  destruct p; cbn; lia.
Qed.

Lemma shr_nonneg mrs e n : 0 <= shr_m mrs -> 0 <= shr_m (fst (shr mrs e n)).
Proof.
  intros Hm. destruct n; cbn; try done.
  by apply (iter_pos_ind (fun mrs => 0 <= shr_m mrs)); [apply shr_1_nonneg|].
Qed.

Lemma record_of_loc_m m l : shr_m (shr_record_of_loc m l) = m.
Proof. by destruct l as [|[]]. Qed.

Lemma round_even_ge m l : m <= round_nearest_even m l.
Proof. destruct l as [|[]]; cbn; try lia. destruct (Z.even m); lia. Qed.

Lemma binary_round_aux_nonneg m e l : 0 <= m -> nonNegative (binary_round_aux 53 1024 false m e l).
Proof.
  intros Hm. unfold binary_round_aux, shr_fexp.
  pose proof (shr_nonneg (shr_record_of_loc m l) e (fexp 53 1024 (Zdigits2 m + e) - e)) as H1.
  rewrite record_of_loc_m in H1. specialize (H1 Hm).
  destruct (shr _ _ _) as [mrs e']. cbn in H1.
  pose proof (round_even_ge (shr_m mrs) (loc_of_shr_record mrs)) as Hr.
  set (m' := round_nearest_even _ _) in *.
  pose proof (shr_nonneg (shr_record_of_loc m' loc_Exact) e' (fexp 53 1024 (Zdigits2 m' + e') - e')) as H2.
  rewrite record_of_loc_m in H2. specialize (H2 ltac:(lia)).
  destruct (shr (shr_record_of_loc m' loc_Exact) _ _) as [mrs2 e2]. cbn in H2.
  destruct (shr_m mrs2); [done| |lia]. by destruct (_ <=? _).
Qed.

Lemma digits2_shift_pos k p : digits2_pos (Pos.iter xO p k) = (digits2_pos p + k)%positive.
Proof.
  induction k using Pos.peano_ind; [cbn; lia|]. rewrite Pos.iter_succ. cbn. rewrite IHk. lia.
Qed.

Lemma digits2_bound p : Z.pos p < 2 ^ Z.pos (digits2_pos p) /\ 2 ^ (Z.pos (digits2_pos p) - 1) <= Z.pos p.
Proof.
  induction p; cbn [digits2_pos]; [| |done];
    rewrite Pos2Z.inj_succ; unfold Z.succ;
    rewrite Z.add_simpl_r, Z.pow_add_r by lia; destruct IHp as [H1 H2];
    (replace (Z.pos (digits2_pos p)) with (Z.pos (digits2_pos p) - 1 + 1) in H1 |- * by lia);
    rewrite Z.pow_add_r in H1 |- * by lia; change (2 ^ 1) with 2 in *; lia.
Qed.

(** An integer of at most 53 bits is converted exactly. *)
Lemma toDouble_finite n : 0 < n -> n < 2 ^ 53 -> exists m e, toDouble n = S754_finite false m e.
Proof.
  intros Hn Hlt. destruct n as [|p|]; [lia| |lia]. unfold toDouble, binary_normalize, binary_round.
  pose proof (digits2_bound p) as [_ Hd].
  assert (Z.pos (digits2_pos p) <= 53) as Hdig.
  { destruct (Z.le_gt_cases (Z.pos (digits2_pos p)) 53) as [|Hgt]; [done|].
    pose proof (Z.pow_le_mono_r 2 53 (Z.pos (digits2_pos p) - 1)). lia. }
  set (dg := Z.pos (digits2_pos p)) in *. rewrite Z.add_0_r.
  assert (forall q e, Z.pos (digits2_pos q) + e = dg -> e = dg - 53 ->
    binary_round_aux 53 1024 false (Z.pos q) e loc_Exact = S754_finite false q e) as Hr.
  { intros q e Hq He. assert (fexp 53 1024 (Zdigits2 (Z.pos q) + e) - e = 0) as E0.
    { cbn [Zdigits2]. rewrite Hq. unfold fexp, emin. unfold dg in *. lia. }
    unfold binary_round_aux, shr_fexp. rewrite E0. cbn [shr shr_record_of_loc shr_m loc_of_shr_record round_nearest_even].
    rewrite E0. cbn [shr shr_m shr_record_of_loc].
    by rewrite (proj2 (Z.leb_le _ _)) by (unfold dg in *; lia). }
  assert (fexp 53 1024 dg = dg - 53) as Ef by (unfold fexp, emin, dg in *; lia).
  rewrite Ef. unfold shl_align. rewrite Z.sub_0_r.
  destruct (dg - 53) as [|q|q] eqn:E; [|lia|].
  - exists p, 0. apply Hr; unfold dg in *; lia.
  - eexists _, _. apply Hr; [|done]. rewrite digits2_shift_pos. unfold dg in *. lia.
Qed.

Lemma priceAsDouble_nonneg p : validPrice p -> nonNegative (priceAsDouble p).
Proof.
  intros [Hn Hd]. unfold priceAsDouble, doubleDiv.
  destruct (toDouble_finite (price_n p)) as (m1 & e1 & ->); [widths; lia..|].
  destruct (toDouble_finite (price_d p)) as (m2 & e2 & ->); [widths; lia..|].
  unfold SFdiv. destruct (SFdiv_core_binary _ _ _ _ _ _) as [[q e] l] eqn:E. cbn [xorb].
  apply binary_round_aux_nonneg. unfold SFdiv_core_binary in E.
  match type of E with context [Z.div_eucl ?a ?b] =>
    pose proof (Z_div_mod a b ltac:(lia)) as Hm; destruct (Z.div_eucl a b) as [q' r] eqn:Ed;
    assert (0 <= a) as Ha end.
  { destruct (_ - _); [lia| |lia]. rewrite Z.shiftl_mul_pow2 by lia. nia. }
  injection E as <- _ _. nia.
Qed.

(** On such doubles the comparison is a total order. *)
Definition rank (f : spec_float) : Z * Z * Z :=
  match f with
  | S754_finite _ m e => (1, e, Z.pos m)
  | S754_infinity _ => (2, 0, 0)
  | _ => (0, 0, 0)
  end.

Definition rankLt (x y : Z * Z * Z) : Prop :=
  let '(a, b, c) := x in let '(a', b', c') := y in
  a < a' \/ (a = a' /\ (b < b' \/ (b = b' /\ c < c'))).

Lemma SFltb_rank f g : nonNegative f -> nonNegative g -> (SFltb f g = true <-> rankLt (rank f) (rank g)).
Proof.
  destruct f as [[]|[]| |[] m e], g as [[]|[]| |[] m' e']; cbn; intros [] [];
    try (split; intros; try done; lia).
  unfold SFltb, SFcompare. destruct (Z.compare_spec e e') as [->| |]; cbn; try (split; intros; try done; lia).
  change (PosDef.Pos.compare_cont Eq m m') with (m ?= m')%positive.
  destruct (Pos.compare_spec m m'); split; intros; try done; lia.
Qed.

Lemma SFeqb_rank f g : nonNegative f -> nonNegative g -> (SFeqb f g = true <-> rank f = rank g).
Proof.
  destruct f as [[]|[]| |[] m e], g as [[]|[]| |[] m' e']; cbn; intros [] []; try (split; intros; done).
  unfold SFeqb, SFcompare. destruct (Z.compare_spec e e') as [->| |]; cbn.
  2, 3: split; intros HH; [done|]; injection HH; lia.
  change (PosDef.Pos.compare_cont Eq m m') with (m ?= m')%positive.
  destruct (Pos.compare_spec m m') as [->| |]; (split; intros H'; try done); injection H'; lia.
Qed.

Definition validDescriptor (d : OfferDescriptor) : Prop := validPrice (od_price d).

(** What decides the order of two offers. *)
Definition offerRank (d : OfferDescriptor) : Z * Z * Z * Z :=
  (rank (priceAsDouble (od_price d)), od_offerID d).

Definition betterRank (x y : Z * Z * Z * Z) : Prop :=
  rankLt (fst x) (fst y) \/ (fst x = fst y /\ snd x < snd y).

Lemma isBetterOffer_rank d d' :
  validDescriptor d -> validDescriptor d' ->
  (isBetterOffer d d' = true <-> betterRank (offerRank d) (offerRank d')).
Proof.
  intros H H'. unfold isBetterOffer, betterRank, offerRank. cbn [fst snd].
  pose proof (priceAsDouble_nonneg _ H) as N. pose proof (priceAsDouble_nonneg _ H') as N'.
  pose proof (SFltb_rank _ _ N N') as L. pose proof (SFeqb_rank _ _ N N') as Q.
  set (f := priceAsDouble _) in *. set (g := priceAsDouble (od_price d')) in *.
  destruct (SFltb f g), (SFeqb f g); rewrite ?Z.ltb_lt; naive_solver.
Qed.

Lemma betterRank_irrefl x : ~ betterRank x x.
Proof. destruct x as [[[a b] c] d]. unfold betterRank, rankLt. cbn. lia. Qed.

Lemma betterRank_trans x y z : betterRank x y -> betterRank y z -> betterRank x z.
Proof.
  destruct x as [[[a b] c] d], y as [[[a' b'] c'] d'], z as [[[a2 b2] c2] d2].
  unfold betterRank, rankLt. cbn. intros [H|[[= -> -> ->] H]] [H'|[[= -> -> ->] H']]; try lia.
  right. split; [done|lia].
Qed.

Lemma betterRank_total x y : snd x <> snd y -> betterRank x y \/ betterRank y x.
Proof.
  destruct x as [[[a b] c] d], y as [[[a' b'] c'] d']. unfold betterRank, rankLt. cbn. intros Hd.
  destruct (Z.lt_trichotomy a a') as [|[->|]]; [left; lia| |right; lia].
  destruct (Z.lt_trichotomy b b') as [|[->|]]; [left; lia| |right; lia].
  destruct (Z.lt_trichotomy c c') as [|[->|]]; [left; lia| |right; lia].
  destruct (Z.lt_trichotomy d d') as [|[->|]]; [left; right; split; [done|lia]|lia|right; right; split; [done|lia]].
Qed.
