(* ===== verification/LedgerTxn.v ===== *)
(** * Nested ledger transactions

    [ledger/LedgerTxn.cpp]: a stack of in-memory transactions over a root that
    writes to the database.  A transaction keeps the entries it recorded, the
    handles that are active, an index of its offers by asset pair and price and,
    for each pair, the worst offer it already returned as the best one.  The
    innermost transaction is the first of the stack; an outer one only answers
    the queries of its child, since every operation on a transaction with a child
    throws.

    A handle to an entry refers to the object stored in [mEntry], so that writing
    through it changes the recorded entry; a constant handle holds a copy. *)

From stdpp Require Import base list gmap strings.
From S2P Require Import Prelude Exchange Entries OfferOrder.

Local Open Scope Z_scope.

(** ** Recorded entries *)

(** [LedgerEntryPtr]: the constructor checks that an entry is present exactly
    when the state is not [DELETED], so the pair of pointer and state is a sum. *)
Inductive LedgerEntryPtr :=
  | Init (e : InternalLedgerEntry)
  | Live (e : InternalLedgerEntry)
  | Deleted.

Definition ptrGet (p : LedgerEntryPtr) : option InternalLedgerEntry :=
  match p with Init e | Live e => Some e | Deleted => None end.
Definition isInit (p : LedgerEntryPtr) : bool := match p with Init _ => true | _ => false end.
Definition isDeleted (p : LedgerEntryPtr) : bool := match p with Deleted => true | _ => false end.

Definition mergeFrom (self entryPtr : LedgerEntryPtr) : exc LedgerEntryPtr :=
  match self, entryPtr with
  | Init _, Deleted => exc_throw (Throw "cannot delete non-live entry")
  | Init _, (Init e | Live e) => mret (Init e)
  | Live _, Init _ => exc_throw (Throw "cannot commit a child init entry into a parent live entry")
  | Live _, _ => mret entryPtr
  | Deleted, Init e => mret (Live e)
  | Deleted, Live _ => exc_throw (Throw "cannot set deleted entry to live")
  | Deleted, Deleted => exc_throw (Throw "cannot delete deleted entry")
  end.

Inductive LedgerTxnConsistency := EXACT | EXTRA_DELETES.

Definition joinConsistencyLevels (c1 c2 : LedgerTxnConsistency) : LedgerTxnConsistency :=
  match c1 with EXACT => c2 | EXTRA_DELETES => EXTRA_DELETES end.

(** ** The state *)

Abbreviation AssetPair := (Asset * Asset)%type (only parsing).
Abbreviation EntryMap := (gmap InternalLedgerKey LedgerEntryPtr) (only parsing).

(** [std::map<OfferDescriptor, LedgerKey, IsBetterOfferComparator>]. *)
Abbreviation OrderBook := (list (OfferDescriptor * LedgerKey)) (only parsing).
Abbreviation MultiOrderBook := (gmap Asset (gmap Asset OrderBook)) (only parsing).

(** An active handle: [LedgerTxnEntry] refers to the recorded entry,
    [ConstLedgerTxnEntry] holds a copy of the entry. *)
Inductive EntryImpl :=
  | MutableEntry
  | ConstEntry (e : InternalLedgerEntry).

Record LedgerTxnImpl := mkImpl {
  mHeader : LedgerHeader;
  mActiveHeader : bool;
  mEntry : EntryMap;
  mActive : gmap InternalLedgerKey EntryImpl;
  mShouldUpdateLastModified : bool;
  mIsSealed : bool;
  mConsistency : LedgerTxnConsistency;
  mMultiOrderBook : MultiOrderBook;
  mWorstBestOffer : gmap AssetPair (option OfferDescriptor)
}.

Definition set_header h t := mkImpl h (mActiveHeader t) (mEntry t) (mActive t)
  (mShouldUpdateLastModified t) (mIsSealed t) (mConsistency t) (mMultiOrderBook t) (mWorstBestOffer t).
Definition set_activeHeader b t := mkImpl (mHeader t) b (mEntry t) (mActive t)
  (mShouldUpdateLastModified t) (mIsSealed t) (mConsistency t) (mMultiOrderBook t) (mWorstBestOffer t).
Definition set_entry m t := mkImpl (mHeader t) (mActiveHeader t) m (mActive t)
  (mShouldUpdateLastModified t) (mIsSealed t) (mConsistency t) (mMultiOrderBook t) (mWorstBestOffer t).
Definition set_active a t := mkImpl (mHeader t) (mActiveHeader t) (mEntry t) a
  (mShouldUpdateLastModified t) (mIsSealed t) (mConsistency t) (mMultiOrderBook t) (mWorstBestOffer t).
Definition set_sealed b t := mkImpl (mHeader t) (mActiveHeader t) (mEntry t) (mActive t)
  (mShouldUpdateLastModified t) b (mConsistency t) (mMultiOrderBook t) (mWorstBestOffer t).
Definition set_consistency c t := mkImpl (mHeader t) (mActiveHeader t) (mEntry t) (mActive t)
  (mShouldUpdateLastModified t) (mIsSealed t) c (mMultiOrderBook t) (mWorstBestOffer t).
Definition set_book b t := mkImpl (mHeader t) (mActiveHeader t) (mEntry t) (mActive t)
  (mShouldUpdateLastModified t) (mIsSealed t) (mConsistency t) b (mWorstBestOffer t).
Definition set_worst w t := mkImpl (mHeader t) (mActiveHeader t) (mEntry t) (mActive t)
  (mShouldUpdateLastModified t) (mIsSealed t) (mConsistency t) (mMultiOrderBook t) w.

(** The root: the rows of the database, the header, the offers of each pair
    loaded so far, best first, and whether a SQL transaction is open.  The cache
    of single entries, which only saves reads, is not part of the model. *)
Record BestOffersEntry := mkBestOffers { bestOffers : list LedgerEntry; allLoaded : bool }.

Record RootImpl := mkRoot {
  rDatabase : gmap LedgerKey LedgerEntry;
  rHeader : LedgerHeader;
  mBestOffers : gmap AssetPair BestOffersEntry;
  mTransaction : bool
}.

Definition set_bestOffers c r := mkRoot (rDatabase r) (rHeader r) c (mTransaction r).

Record LedgerTxnStack := mkStack { st_txns : list LedgerTxnImpl; st_root : RootImpl }.

(** ** Offers *)

Definition isOfferKey (k : InternalLedgerKey) : bool :=
  match k with LedgerKeyOf (KEY_OFFER _ _) => true | _ => false end.

(** [entry->ledgerEntry().data.offer()]. *)
Definition dataOffer (e : LedgerEntry) : exc OfferEntry :=
  match le_data e with
  | OFFER o => mret o
  | _ => exc_throw (Throw "union offer accessed when not selected")
  end.
Definition ledgerEntry (e : InternalLedgerEntry) : exc LedgerEntry :=
  match e with
  | LedgerEntryOf e => mret e
  | _ => exc_throw (Throw "InternalLedgerEntry does not have expected type")
  end.
Definition entryOffer (e : InternalLedgerEntry) : exc OfferEntry :=
  let* le := ledgerEntry e in dataOffer le.

(** [isBetterOffer] of two entries. *)
Definition isBetterOfferEntry (lhsEntry rhsEntry : LedgerEntry) : exc bool :=
  let* lhs := dataOffer lhsEntry in
  let* rhs := dataOffer rhsEntry in
  do* releaseAssert (bool_decide (oe_buying lhs = oe_buying rhs)) "lhs.buying == rhs.buying" in
  do* releaseAssert (bool_decide (oe_selling lhs = oe_selling rhs)) "lhs.selling == rhs.selling" in
  mret (isBetterOffer (descriptor lhs) (descriptor rhs)).

(** ** The order book of a transaction *)

(** Keys of the map are equivalent when neither is better. *)
Definition equivalent (d d' : OfferDescriptor) : bool :=
  negb (isBetterOffer d d') && negb (isBetterOffer d' d).

(** [emplace], [erase] of the element found, and [upper_bound]. *)
Fixpoint bookEmplace (d : OfferDescriptor) (k : LedgerKey) (ob : OrderBook) : OrderBook :=
  match ob with
  | [] => [(d, k)]
  | (d', k') :: rest =>
      if isBetterOffer d d' then (d, k) :: ob
      else if isBetterOffer d' d then (d', k') :: bookEmplace d k rest
      else ob
  end.

Fixpoint bookErase (d : OfferDescriptor) (ob : OrderBook) : OrderBook :=
  match ob with
  | [] => []
  | (d', k') :: rest => if equivalent d d' then rest else (d', k') :: bookErase d rest
  end.

Fixpoint bookUpperBound (d : OfferDescriptor) (ob : OrderBook) : option (OfferDescriptor * LedgerKey) :=
  match ob with
  | [] => None
  | (d', k') :: rest => if isBetterOffer d d' then Some (d', k') else bookUpperBound d rest
  end.

Definition removeFromOrderBookIfExists (o : OfferEntry) (mob : MultiOrderBook) : MultiOrderBook :=
  match mob !! oe_buying o with
  | None => mob
  | Some mobBuying =>
      match mobBuying !! oe_selling o with
      | None => mob
      | Some mobSelling =>
          if negb (existsb (fun x => equivalent (descriptor o) (fst x)) mobSelling) then mob
          else
            match bookErase (descriptor o) mobSelling with
            | [] =>
                let mobBuying := delete (oe_selling o) mobBuying in
                if decide (mobBuying = ∅) then delete (oe_buying o) mob
                else <[oe_buying o := mobBuying]> mob
            | ob => <[oe_buying o := <[oe_selling o := ob]> mobBuying]> mob
            end
      end
  end.

Definition findOrderBook (buying selling : Asset) (mob : MultiOrderBook) : option OrderBook :=
  mob !! buying ≫= lookup selling.

(** [mMultiOrderBook[oe.buying][oe.selling].emplace(...)]. *)
Definition addToOrderBook (o : OfferEntry) (k : LedgerKey) (mob : MultiOrderBook) : MultiOrderBook :=
  let mobBuying := default ∅ (mob !! oe_buying o) in
  let ob := default [] (mobBuying !! oe_selling o) in
  <[oe_buying o := <[oe_selling o := bookEmplace (descriptor o) k ob]> mobBuying]> mob.

(** ** Recording an entry *)

(** A [noexcept] function, or code whose exceptions are caught and turned into an
    abort, ends the program when it throws. *)
Definition noexcept {A} (m : exc A) : exc A :=
  match m with
  | inl (Throw msg) => inl (AssertFailure msg)
  | _ => m
  end.


Definition recordEntry (key : InternalLedgerKey) (lePtr : LedgerEntryPtr) (m : EntryMap) : exc EntryMap :=
  match m !! key with
  | None => mret (<[key := lePtr]> m)
  | Some p =>
      if isDeleted lePtr && isInit p then mret (delete key m)
      else let* p' := mergeFrom p lePtr in mret (<[key := p']> m)
  end.

(** [updateEntry] with the key looked up in [mEntry]: the iterator the callers
    pass as a hint only saves this lookup. *)
Definition updateEntry (key : InternalLedgerKey) (lePtr : LedgerEntryPtr) (effectiveActive : bool)
    (t : LedgerTxnImpl) : exc LedgerTxnImpl :=
  noexcept
    (match key with
     | LedgerKeyOf (KEY_OFFER _ _ as k) =>
         let* mob :=
           match mEntry t !! key ≫= ptrGet with
           | Some e => let* o := entryOffer e in mret (removeFromOrderBookIfExists o (mMultiOrderBook t))
           | None => mret (mMultiOrderBook t)
           end in
         let* mob :=
           match ptrGet lePtr with
           | Some e =>
               if effectiveActive then mret mob
               else let* o := entryOffer e in mret (addToOrderBook o k mob)
           | None => mret mob
           end in
         let* m := recordEntry key lePtr (mEntry t) in
         mret (set_entry m (set_book mob t))
     | _ =>
         let* m := recordEntry key lePtr (mEntry t) in
         mret (set_entry m t)
     end).

Definition updateEntryIfRecorded (key : InternalLedgerKey) (effectiveActive : bool) (t : LedgerTxnImpl)
    : exc LedgerTxnImpl :=
  if negb (isOfferKey key) then mret t
  else
    match mEntry t !! key with
    | Some p => updateEntry key p effectiveActive t
    | None => mret t
    end.

(** ** The worst best offer *)

Definition isWorseThan (lhs rhs : option OfferDescriptor) : bool :=
  match rhs with
  | None => false
  | Some r => match lhs with None => true | Some l => isBetterOffer r l end
  end.

Definition updateWorstBestOffer (assets : AssetPair) (offerDesc : option OfferDescriptor)
    (t : LedgerTxnImpl) : LedgerTxnImpl :=
  match mWorstBestOffer t !! assets with
  | Some w =>
      if isWorseThan offerDesc w then set_worst (<[assets := offerDesc]> (mWorstBestOffer t)) t else t
  | None => set_worst (<[assets := offerDesc]> (mWorstBestOffer t)) t
  end.

(** ** Reading through the stack *)

Definition rootGetNewestVersion (r : RootImpl) (key : InternalLedgerKey) : option InternalLedgerEntry :=
  match key with
  | LedgerKeyOf k => LedgerEntryOf <$> rDatabase r !! k
  | _ => None
  end.

Fixpoint getNewestVersion (txns : list LedgerTxnImpl) (r : RootImpl) (key : InternalLedgerKey)
    : option InternalLedgerEntry :=
  match txns with
  | [] => rootGetNewestVersion r key
  | t :: parents =>
      match mEntry t !! key with
      | Some p => ptrGet p
      | None => getNewestVersion parents r key
      end
  end.

(** [mParent.getHeader()]. *)
Definition getHeader (txns : list LedgerTxnImpl) (r : RootImpl) : LedgerHeader :=
  match txns with [] => rHeader r | t :: _ => mHeader t end.

(** ** The best offers of the root *)

Definition MIN_BEST_OFFERS_BATCH_SIZE : nat := 5.

(** The offers table: the query of [loadBestOffers], which returns at most
    [numOffers] offers of the pair, best first, only those worse than
    [worseThan] when one is given. *)
Class OffersTable := {
  loadBestOffers : gmap LedgerKey LedgerEntry -> Asset -> Asset -> option OfferDescriptor -> nat ->
    list LedgerEntry
}.

(** [std::upper_bound] on a list sorted by [isBetterOffer]: the first offer worse
    than [worseThan], the first offer without one. *)
Fixpoint findIncludedOffer (offers : list LedgerEntry) (worseThan : option OfferDescriptor)
    : exc (option LedgerEntry) :=
  match offers with
  | [] => mret None
  | e :: rest =>
      match worseThan with
      | None => mret (Some e)
      | Some w =>
          let* o := dataOffer e in
          if isBetterOffer w (descriptor o) then mret (Some e) else findIncludedOffer rest worseThan
      end
  end.

Section Txn.
Context `{OffersTable} (mMaxBestOffersBatchSize : nat).

Definition getFromBestOffers (buying selling : Asset) (r : RootImpl) : BestOffersEntry :=
  default (mkBestOffers [] false) (mBestOffers r !! (buying, selling)).

(** Appends the next batch to the cached offers; the offers it adds come with
    the new cache entry. *)
Definition loadNextBestOffersIntoCache (cached : BestOffersEntry) (buying selling : Asset)
    (db : gmap LedgerKey LedgerEntry) : exc (list LedgerEntry * BestOffersEntry) :=
  let offers := bestOffers cached in
  if allLoaded cached then mret ([], cached)
  else
    let BATCH_SIZE :=
      Nat.min mMaxBestOffersBatchSize (Nat.max MIN_BEST_OFFERS_BATCH_SIZE (length offers)) in
    let* loaded :=
      noexcept
        (match last offers with
         | None => mret (loadBestOffers db buying selling None BATCH_SIZE)
         | Some back =>
             let* oe := dataOffer back in
             if oe_offerID oe =? INT64_MAX then exc_throw (Throw "maximum offerID encountered")
             else mret (loadBestOffers db buying selling (Some (descriptor oe)) BATCH_SIZE)
         end) in
    mret (loaded, mkBestOffers (offers ++ loaded) (length loaded <? BATCH_SIZE)%nat).

(** The loop of [LedgerTxnRoot::Impl::getBestOffer]: batches are loaded until
    one of them has an offer worse than [worseThan]. *)
Fixpoint loadUntilFound (fuel : nat) (cached : BestOffersEntry) (buying selling : Asset)
    (worseThan : option OfferDescriptor) (db : gmap LedgerKey LedgerEntry)
    : exc (option LedgerEntry * BestOffersEntry) :=
  if allLoaded cached then mret (None, cached)
  else
    match fuel with
    | O => exc_throw OutOfFuel
    | S fuel =>
        let* '(loaded, cached) := loadNextBestOffersIntoCache cached buying selling db in
        let* found := findIncludedOffer loaded worseThan in
        match found with
        | Some e => mret (Some e, cached)
        | None => loadUntilFound fuel cached buying selling worseThan db
        end
    end.

Definition rootGetBestOffer (buying selling : Asset) (worseThan : option OfferDescriptor)
    : M RootImpl (option LedgerEntry) := fun r =>
  let cached := getFromBestOffers buying selling r in
  let res :=
    let* found := findIncludedOffer (bestOffers cached) worseThan in
    match found with
    | Some e => mret (Some e, cached)
    | None => loadUntilFound (S (size (rDatabase r))) cached buying selling worseThan (rDatabase r)
    end in
  match res with
  | inr (e, cached) => Ok e (set_bestOffers (<[(buying, selling) := cached]> (mBestOffers r)) r)
  | inl f => Err f r
  end.

(** ** The best offer of a transaction *)

(** [selfBest]: the first offer of the order book, or the first one worse than
    [worseThan]. *)
Definition selfBestOffer (t : LedgerTxnImpl) (buying selling : Asset)
    (worseThan : option OfferDescriptor) : exc (option LedgerEntry) :=
  match findOrderBook buying selling (mMultiOrderBook t) with
  | None => mret None
  | Some offers =>
      let found :=
        match worseThan with
        | None => head offers
        | Some w => bookUpperBound w offers
        end in
      match found with
      | None => mret None
      | Some (_, k) =>
          match mEntry t !! LedgerKeyOf k ≫= ptrGet with
          | None => exc_throw (Throw "invalid order book state")
          | Some e => let* le := ledgerEntry e in mret (Some le)
          end
      end
  end.

(** The loop at the end of [getBestOffer]: the parent's best offer, unless the
    transaction recorded it; then the next one of the parent. *)
Fixpoint bestOfferLoop (fuel : nat) (t : LedgerTxnImpl)
    (parentNext : OfferDescriptor -> M RootImpl (option LedgerEntry))
    (selfBest parentBest : option LedgerEntry) : M RootImpl (option LedgerEntry) :=
  match parentBest with
  | None => mret selfBest
  | Some p =>
      let* better :=
        match selfBest with
        | None => mret true
        | Some s => lift (isBetterOfferEntry p s)
        end in
      if negb better then mret selfBest
      else
        match mEntry t !! LedgerKeyOf (LedgerEntryKey p) with
        | None => mret (Some p)
        | Some _ =>
            match fuel with
            | O => fail OutOfFuel
            | S fuel =>
                let* oe := lift (dataOffer p) in
                let* parentBest := parentNext (descriptor oe) in
                bestOfferLoop fuel t parentNext selfBest parentBest
            end
        end
  end.

Fixpoint getBestOffer (txns : list LedgerTxnImpl) (buying selling : Asset)
    (worseThan : option OfferDescriptor) : M RootImpl (option LedgerEntry) :=
  match txns with
  | [] => rootGetBestOffer buying selling worseThan
  | t :: parents =>
      if decide (mActive t = ∅) then
        let* selfBest := lift (selfBestOffer t buying selling worseThan) in
        let* parentBest :=
          match worseThan with
          | Some w => getBestOffer parents buying selling (Some w)
          | None =>
              match mWorstBestOffer t !! (buying, selling) with
              | Some (Some w) => getBestOffer parents buying selling (Some w)
              | Some None => mret None
              | None => getBestOffer parents buying selling None
              end
          end in
        bestOfferLoop (size (mEntry t)) t (fun d => getBestOffer parents buying selling (Some d))
          selfBest parentBest
      else throw "active entries when getting best offer"
  end.

(** ** Operations on the innermost transaction *)

Definition throwIfSealed (t : LedgerTxnImpl) : exc unit :=
  if mIsSealed t then exc_throw (Throw "LedgerTxn is sealed") else mret tt.
Definition throwIfNotExactConsistency (t : LedgerTxnImpl) : exc unit :=
  match mConsistency t with
  | EXACT => mret tt
  | EXTRA_DELETES => exc_throw (Throw "LedgerTxn consistency level is not exact")
  end.

(** Run an operation of the innermost transaction, which can read its parents;
    its changes are kept when it does not throw. *)
Definition onTxn {A} (f : LedgerTxnImpl -> list LedgerTxnImpl -> RootImpl -> exc (A * LedgerTxnImpl))
    : M LedgerTxnStack A := fun s =>
  match st_txns s with
  | [] => Err (Throw "LedgerTxn was handled") s
  | t :: parents =>
      match f t parents (st_root s) with
      | inr (a, t) => Ok a (mkStack (t :: parents) (st_root s))
      | inl e => Err e s
      end
  end.

Definition emplaceActive (key : InternalLedgerKey) (i : EntryImpl) (t : LedgerTxnImpl) : LedgerTxnImpl :=
  match mActive t !! key with
  | Some _ => t
  | None => set_active (<[key := i]> (mActive t)) t
  end.
Definition eraseActive (key : InternalLedgerKey) (t : LedgerTxnImpl) : LedgerTxnImpl :=
  set_active (delete key (mActive t)) t.

Definition create (entry : InternalLedgerEntry) : M LedgerTxnStack unit :=
  onTxn (fun t parents r =>
    do* throwIfSealed t in
    let key := toKey entry in
    match getNewestVersion (t :: parents) r key with
    | Some _ => exc_throw (Throw "Key already exists")
    | None =>
        let* t := updateEntry key (Init entry) true (emplaceActive key MutableEntry t) in
        mret (tt, t)
    end).

Definition throwIfActive (key : InternalLedgerKey) (msg : string) (t : LedgerTxnImpl) : exc unit :=
  match mActive t !! key with
  | Some _ => exc_throw (Throw msg)
  | None => mret tt
  end.

Definition createWithoutLoading (entry : InternalLedgerEntry) : M LedgerTxnStack unit :=
  onTxn (fun t parents r =>
    do* throwIfSealed t in
    let key := toKey entry in
    do* throwIfActive key "Key is already active" t in
    let* t := updateEntry key (Init entry) false t in
    mret (tt, t)).

Definition updateWithoutLoading (entry : InternalLedgerEntry) : M LedgerTxnStack unit :=
  onTxn (fun t parents r =>
    do* throwIfSealed t in
    let key := toKey entry in
    do* throwIfActive key "Key is already active" t in
    let* t := updateEntry key (Live entry) false t in
    mret (tt, t)).

Definition deactivate (key : InternalLedgerKey) : M LedgerTxnStack unit :=
  onTxn (fun t parents r =>
    match mActive t !! key with
    | None => exc_throw (Throw "Key is not active")
    | Some _ =>
        let* t := updateEntryIfRecorded key false t in
        mret (tt, eraseActive key t)
    end).

Definition erase (key : InternalLedgerKey) : M LedgerTxnStack unit :=
  onTxn (fun t parents r =>
    do* throwIfSealed t in
    match getNewestVersion (t :: parents) r key with
    | None => exc_throw (Throw "Key does not exist")
    | Some _ =>
        let* t := updateEntry key Deleted false t in
        mret (tt, eraseActive key t)
    end).

Definition eraseWithoutLoading (key : InternalLedgerKey) : M LedgerTxnStack unit :=
  onTxn (fun t parents r =>
    do* throwIfSealed t in
    let* t := updateEntry key Deleted false t in
    mret (tt, set_consistency EXTRA_DELETES (eraseActive key t))).

(** Loading one key: the entry itself stands for the handle that is returned. *)
Definition loadTxn (key : InternalLedgerKey) (t : LedgerTxnImpl) (parents : list LedgerTxnImpl)
    (r : RootImpl) : exc (option InternalLedgerEntry * LedgerTxnImpl) :=
  do* throwIfSealed t in
  do* throwIfActive key "Key is active" t in
  match getNewestVersion (t :: parents) r key with
  | None => mret (None, t)
  | Some newest =>
      let current := match mEntry t !! key with Some p => p | None => Live newest end in
      let* t := updateEntry key current true (emplaceActive key MutableEntry t) in
      mret (Some newest, t)
  end.

Definition load (key : InternalLedgerKey) : M LedgerTxnStack (option InternalLedgerEntry) :=
  onTxn (loadTxn key).

Definition loadWithoutRecord (key : InternalLedgerKey) : M LedgerTxnStack (option InternalLedgerEntry) :=
  onTxn (fun t parents r =>
    do* throwIfSealed t in
    do* throwIfActive key "Key is active" t in
    match getNewestVersion (t :: parents) r key with
    | None => mret (None, t)
    | Some newest =>
        let* t := updateEntryIfRecorded key true (emplaceActive key (ConstEntry newest) t) in
        mret (Some newest, t)
    end).

Definition loadBestOffer (buying selling : Asset) : M LedgerTxnStack (option InternalLedgerEntry) := fun s =>
  match st_txns s with
  | [] => Err (Throw "LedgerTxn was handled") s
  | t :: parents =>
      match throwIfSealed t with
      | inl e => Err e s
      | inr _ =>
          match getBestOffer (t :: parents) buying selling None (st_root s) with
          | Err e r => Err e (mkStack (st_txns s) r)
          | Ok le r =>
              match le with
              | None => Ok None (mkStack (updateWorstBestOffer (buying, selling) None t :: parents) r)
              | Some e =>
                  match loadTxn (LedgerKeyOf (LedgerEntryKey e)) t parents r with
                  | inl f => Err f (mkStack (st_txns s) r)
                  | inr (res, t) =>
                      (* an exception here is caught: the map is only an optimisation *)
                      let t :=
                        match dataOffer e with
                        | inr oe => updateWorstBestOffer (buying, selling) (Some (descriptor oe)) t
                        | inl _ => t
                        end in
                      Ok res (mkStack (t :: parents) r)
                  end
              end
          end
      end
  end.

(** ** Access through the handles *)

Definition current (key : InternalLedgerKey) : M LedgerTxnStack InternalLedgerEntry :=
  onTxn (fun t parents r =>
    match mActive t !! key with
    | None => exc_throw (Throw "LedgerTxnEntry not active")
    | Some (ConstEntry e) => mret (e, t)
    | Some MutableEntry =>
        match mEntry t !! key ≫= ptrGet with
        | Some e => mret (e, t)
        | None => exc_throw (NullPointer "mEntryPtr")
        end
    end).

Definition ptrSet (p : LedgerEntryPtr) (e : InternalLedgerEntry) : LedgerEntryPtr :=
  match p with Init _ => Init e | Live _ => Live e | Deleted => Deleted end.

(** Assigning to the entry a [LedgerTxnEntry] refers to. *)
Definition assign (key : InternalLedgerKey) (e : InternalLedgerEntry) : M LedgerTxnStack unit :=
  onTxn (fun t parents r =>
    match mActive t !! key with
    | Some MutableEntry =>
        match mEntry t !! key with
        | Some p => mret (tt, set_entry (<[key := ptrSet p e]> (mEntry t)) t)
        | None => exc_throw (NullPointer "mEntryPtr")
        end
    | _ => exc_throw (Throw "LedgerTxnEntry not active")
    end).

Definition loadHeader : M LedgerTxnStack LedgerHeader :=
  onTxn (fun t parents r =>
    do* throwIfSealed t in
    if mActiveHeader t then exc_throw (Throw "LedgerTxnHeader is active")
    else mret (mHeader t, set_activeHeader true t)).

Definition assignHeader (h : LedgerHeader) : M LedgerTxnStack unit :=
  onTxn (fun t parents r =>
    if mActiveHeader t then mret (tt, set_header h t)
    else exc_throw (Throw "LedgerTxnHeader not active")).

Definition deactivateHeader : M LedgerTxnStack unit :=
  onTxn (fun t parents r =>
    if mActiveHeader t then mret (tt, set_activeHeader false t)
    else exc_throw (Throw "LedgerTxnHeader is not active")).

(** ** Opening, committing and rolling back *)

Fixpoint updateAll (keys : list InternalLedgerKey) (t : LedgerTxnImpl) : exc LedgerTxnImpl :=
  match keys with
  | [] => mret t
  | k :: rest => let* t := updateEntryIfRecorded k false t in updateAll rest t
  end.

Definition addChild (t : LedgerTxnImpl) : exc LedgerTxnImpl :=
  do* throwIfSealed t in
  let* t := noexcept (updateAll (fst <$> map_to_list (mActive t)) t) in
  mret (set_activeHeader false (set_active ∅ t)).

Definition newTxn (h : LedgerHeader) (shouldUpdateLastModified : bool) : LedgerTxnImpl :=
  mkImpl h false ∅ ∅ shouldUpdateLastModified false EXACT ∅ ∅.

(** The constructor: [sqlTxn] tells whether the root opens a SQL transaction. *)
Definition beginTxn (shouldUpdateLastModified sqlTxn : bool) : M LedgerTxnStack unit := fun s =>
  let r := st_root s in
  let child := newTxn (getHeader (st_txns s) r) shouldUpdateLastModified in
  match st_txns s with
  | [] => Ok tt (mkStack [child] (mkRoot (rDatabase r) (rHeader r) (mBestOffers r) sqlTxn))
  | t :: parents =>
      match addChild t with
      | inr t => Ok tt (mkStack (child :: t :: parents) r)
      | inl f => Err f s
      end
  end.

Definition setLastModified (seq : Z) (e : InternalLedgerEntry) : InternalLedgerEntry :=
  match e with
  | LedgerEntryOf le => LedgerEntryOf (mkEntry seq (le_data le) (le_ext le))
  | _ => e
  end.

Definition maybeUpdateLastModified (t : LedgerTxnImpl) : EntryMap :=
  if mShouldUpdateLastModified t then
    (fun p => match ptrGet p with
              | Some e => ptrSet p (setLastModified (ledgerSeq (mHeader t)) e)
              | None => p
              end) <$> mEntry t
  else mEntry t.

(** The entries handed to [f] by [maybeUpdateLastModifiedThenInvokeThenSeal],
    and the transaction afterwards. *)
Definition seal (t : LedgerTxnImpl) : EntryMap * LedgerTxnImpl :=
  if mIsSealed t then (mEntry t, t)
  else
    let entries := maybeUpdateLastModified t in
    (entries, set_sealed true (set_activeHeader false (set_active ∅ (set_book ∅ (set_entry entries t))))).

Fixpoint commitEntries (entries : list (InternalLedgerKey * LedgerEntryPtr)) (t : LedgerTxnImpl)
    : exc LedgerTxnImpl :=
  match entries with
  | [] => mret t
  | (k, p) :: rest => let* t := updateEntry k p false t in commitEntries rest t
  end.

Definition commitWorstBestOffers (ws : list (AssetPair * option OfferDescriptor)) (t : LedgerTxnImpl)
    : LedgerTxnImpl :=
  foldr (fun w t => updateWorstBestOffer (fst w) (snd w) t) t ws.

(** [commitChild] of a transaction. *)
Definition commitChild (entries : EntryMap) (child t : LedgerTxnImpl) : exc LedgerTxnImpl :=
  let t := set_consistency (joinConsistencyLevels (mConsistency t) (mConsistency child)) t in
  if decide (mActive t = ∅) then
    let* t := commitEntries (map_to_list entries) t in
    mret (set_header (mHeader child) (commitWorstBestOffers (map_to_list (mWorstBestOffer child)) t))
  else exc_throw (AssertFailure "Attempting to commit a child while parent has active entries").

(** [commitChild] of the root: the rows are inserted, updated or deleted; with
    exact consistency a deleted row must exist. *)
Fixpoint applyEntries (entries : list (InternalLedgerKey * LedgerEntryPtr)) (cons : LedgerTxnConsistency)
    (db : gmap LedgerKey LedgerEntry) : exc (gmap LedgerKey LedgerEntry) :=
  match entries with
  | [] => mret db
  | (LedgerKeyOf k, p) :: rest =>
      match ptrGet p with
      | Some e => let* le := ledgerEntry e in applyEntries rest cons (<[k := le]> db)
      | None =>
          match db !! k, cons with
          | None, EXACT => exc_throw (Throw "Could not update data in SQL")
          | _, _ => applyEntries rest cons (delete k db)
          end
      end
  | _ :: rest => applyEntries rest cons db
  end.

Definition rootCommitChild (entries : EntryMap) (child : LedgerTxnImpl) (r : RootImpl) : exc RootImpl :=
  if negb (mTransaction r) then
    exc_throw (AssertFailure "Illegal action in LedgerTxnRoot: committing child in read-only mode")
  else
    let* db := noexcept (applyEntries (map_to_list entries) (mConsistency child) (rDatabase r)) in
    mret (mkRoot db (mHeader child) ∅ false).

Definition commit : M LedgerTxnStack unit := fun s =>
  match st_txns s with
  | [] => Err (Throw "LedgerTxn was handled") s
  | t :: parents =>
      let '(entries, t) := seal t in
      match parents with
      | [] =>
          match rootCommitChild entries t (st_root s) with
          | inr r => Ok tt (mkStack [] r)
          | inl f => Err f s
          end
      | p :: rest =>
          match noexcept (commitChild entries t p) with
          | inr p => Ok tt (mkStack (p :: rest) (st_root s))
          | inl f => Err f s
          end
      end
  end.

Definition rollback : M LedgerTxnStack unit := fun s =>
  match st_txns s with
  | [] => Err (Throw "LedgerTxn was handled") s
  | [t] => let r := st_root s in
           Ok tt (mkStack [] (mkRoot (rDatabase r) (rHeader r) (mBestOffers r) false))
  | t :: parents => Ok tt (mkStack parents (st_root s))
  end.

(** ** Reports on a transaction *)

Inductive LedgerEntryChange :=
  | LEDGER_ENTRY_CREATED (e : LedgerEntry)
  | LEDGER_ENTRY_UPDATED (e : LedgerEntry)
  | LEDGER_ENTRY_REMOVED (k : LedgerKey)
  | LEDGER_ENTRY_STATE (e : LedgerEntry).

(** The changes of one recorded entry, given what the parent holds. *)
Definition entryChanges (k : LedgerKey) (p : LedgerEntryPtr) (previous : option InternalLedgerEntry)
    : exc (list LedgerEntryChange) :=
  match p with
  | Init e => let* le := ledgerEntry e in mret [LEDGER_ENTRY_CREATED le]
  | _ =>
      match previous with
      | None => exc_throw (AssertFailure "previous")
      | Some prev =>
          let* state := ledgerEntry prev in
          match p with
          | Deleted => mret [LEDGER_ENTRY_STATE state; LEDGER_ENTRY_REMOVED k]
          | Live e | Init e =>
              let* le := ledgerEntry e in mret [LEDGER_ENTRY_STATE state; LEDGER_ENTRY_UPDATED le]
          end
      end
  end.

Fixpoint changesOf (entries : list (InternalLedgerKey * LedgerEntryPtr))
    (parents : list LedgerTxnImpl) (r : RootImpl) : exc (list LedgerEntryChange) :=
  match entries with
  | [] => mret []
  | (LedgerKeyOf k, p) :: rest =>
      let* c := entryChanges k p (getNewestVersion parents r (LedgerKeyOf k)) in
      let* cs := changesOf rest parents r in
      mret (c ++ cs)
  | _ :: rest => changesOf rest parents r
  end.

Definition getChanges : M LedgerTxnStack (list LedgerEntryChange) :=
  onTxn (fun t parents r =>
    do* throwIfNotExactConsistency t in
    let '(entries, t) := seal t in
    let* cs := noexcept (changesOf (map_to_list entries) parents r) in
    mret (cs, t)).

(** The three lists of [getAllEntries]: created, updated and removed. *)
Fixpoint splitEntries (entries : list (InternalLedgerKey * LedgerEntryPtr))
    : exc (list LedgerEntry * list LedgerEntry * list LedgerKey) :=
  match entries with
  | [] => mret ([], [], [])
  | (LedgerKeyOf k, p) :: rest =>
      let* '(ini, live, dead) := splitEntries rest in
      match p with
      | Init e => let* le := ledgerEntry e in mret (le :: ini, live, dead)
      | Live e => let* le := ledgerEntry e in mret (ini, le :: live, dead)
      | Deleted => mret (ini, live, k :: dead)
      end
  | _ :: rest => splitEntries rest
  end.

Definition getAllEntries : M LedgerTxnStack (list LedgerEntry * list LedgerEntry * list LedgerKey) :=
  onTxn (fun t parents r =>
    let '(entries, t) := seal t in
    let* res := noexcept (splitEntries (map_to_list entries)) in
    mret (res, t)).

End Txn.
