(* ===== verification/LedgerTxnInv.v ===== *)
(** * Invariants of a ledger transaction

    What a transaction keeps true of its entries, its handles, its order book and
    its worst-best-offer map, relative to what its parent holds, and that
    recording an entry preserves it. *)

From stdpp Require Import base list gmap strings.
From Stdlib Require Import Sorting.Sorted.
From S2P Require Import Prelude Exchange Entries OfferOrder LedgerTxn.

Local Open Scope Z_scope.

Abbreviation View := (gmap InternalLedgerKey InternalLedgerEntry) (only parsing).

#[local] Arguments decide : simpl never.

(** ** The order of offers, for valid descriptors *)

Definition better (d d' : OfferDescriptor) : Prop := isBetterOffer d d' = true.

#[export] Instance better_dec d d' : Decision (better d d').
Proof. unfold better. apply _. Defined.

Lemma better_rank d d' : validDescriptor d -> validDescriptor d' ->
  (better d d' <-> betterRank (offerRank d) (offerRank d')).
Proof. apply isBetterOffer_rank. Qed.

Lemma better_irrefl d : validDescriptor d -> ~ better d d.
Proof. intros H. rewrite better_rank by done. apply betterRank_irrefl. Qed.

Lemma better_trans d1 d2 d3 :
  validDescriptor d1 -> validDescriptor d2 -> validDescriptor d3 ->
  better d1 d2 -> better d2 d3 -> better d1 d3.
Proof. intros H1 H2 H3. rewrite !better_rank by done. apply betterRank_trans. Qed.

Lemma better_asym d d' :
  validDescriptor d -> validDescriptor d' -> better d d' -> ~ better d' d.
Proof.
  intros H H' B B'. apply (better_irrefl d); [done|]. by apply (better_trans d d' d).
Qed.

Lemma better_total d d' :
  validDescriptor d -> validDescriptor d' -> od_offerID d <> od_offerID d' ->
  better d d' \/ better d' d.
Proof. intros H H' Hid. rewrite !better_rank by done. by apply betterRank_total. Qed.

Lemma betterRank_trichotomy x y : betterRank x y \/ x = y \/ betterRank y x.
Proof.
  destruct (decide (snd x = snd y)) as [E|Hne];
    [|destruct (betterRank_total x y Hne); auto].
  destruct x as [[[a b] c] d], y as [[[a' b'] c'] d']. cbn in E. subst d'.
  unfold betterRank, rankLt. cbn.
  destruct (Z.lt_trichotomy a a') as [|[->|]]; [left; lia| |right; right; lia].
  destruct (Z.lt_trichotomy b b') as [|[->|]]; [left; lia| |right; right; lia].
  destruct (Z.lt_trichotomy c c') as [|[->|]]; [left; lia| |right; right; lia].
  by right; left.
Qed.

(** An offer that [d1] is better than is also worse than every [d2] that [d1] is
    not better than. *)
Lemma not_better_trans d1 d2 d3 :
  validDescriptor d1 -> validDescriptor d2 -> validDescriptor d3 ->
  ~ better d1 d2 -> better d1 d3 -> better d2 d3.
Proof.
  intros H1 H2 H3. rewrite !better_rank by done. intros Hn Hb.
  destruct (betterRank_trichotomy (offerRank d1) (offerRank d2)) as [|[<-|]]; [done|done|].
  by apply (betterRank_trans _ (offerRank d1)).
Qed.

Lemma better_not_trans d1 d2 d3 :
  validDescriptor d1 -> validDescriptor d2 -> validDescriptor d3 ->
  better d1 d2 -> ~ better d3 d2 -> better d1 d3.
Proof.
  intros H1 H2 H3. rewrite !better_rank by done. intros Hb Hn.
  destruct (betterRank_trichotomy (offerRank d2) (offerRank d3)) as [?|[<-|]]; [|done|done].
  by apply (betterRank_trans _ (offerRank d2)).
Qed.

Lemma equivalent_same_id d d' :
  validDescriptor d -> validDescriptor d' ->
  equivalent d d' = true -> od_offerID d = od_offerID d'.
Proof.
  intros H H'. unfold equivalent. rewrite andb_true_iff, !negb_true_iff. intros [E1 E2].
  destruct (decide (od_offerID d = od_offerID d')) as [|Hne]; [done|].
  destruct (better_total d d' H H' Hne) as [B|B]; unfold better in B; congruence.
Qed.

Lemma equivalent_refl d : validDescriptor d -> equivalent d d = true.
Proof.
  intros H. unfold equivalent. pose proof (better_irrefl d H) as Hn. unfold better in Hn.
  by destruct (isBetterOffer d d).
Qed.

(** ** Well-formed entries

    Offers have valid prices, identifiers below the largest one, and an
    identifier belongs to one seller for ever: the ledger generates each of them
    once, from the header's [idPool]. *)

Section Owner.
Context (owner : Z -> AccountID).

Definition wfOffer (o : OfferEntry) : Prop :=
  validPrice (oe_price o) /\ oe_offerID o < INT64_MAX /\ oe_sellerID o = owner (oe_offerID o).

Definition wfEntry (e : InternalLedgerEntry) : Prop :=
  match e with
  | LedgerEntryOf le => match le_data le with OFFER o => wfOffer o | _ => True end
  | _ => True
  end.

Definition wfView (V : View) : Prop :=
  forall k e, V !! k = Some e -> toKey e = k /\ wfEntry e.

Lemma wfOffer_valid o : wfOffer o -> validDescriptor (descriptor o).
Proof. by intros [H _]. Qed.

(** The key of an offer is determined by its identifier. *)
Definition offerKeyOf (id : Z) : LedgerKey := KEY_OFFER (owner id) id.

Lemma toKey_offer e sellerID id :
  wfEntry e -> toKey e = LedgerKeyOf (KEY_OFFER sellerID id) ->
  exists le o, e = LedgerEntryOf le /\ le_data le = OFFER o /\ wfOffer o /\
    oe_offerID o = id /\ KEY_OFFER sellerID id = offerKeyOf id.
Proof.
  destruct e as [le| | |]; cbn; try done. unfold LedgerEntryKey. intros Hwf [= E].
  destruct (le_data le) as [| |o| | |] eqn:Ed; try done. injection E as E1 E2.
  exists le, o. split_and!; try done. unfold offerKeyOf. destruct Hwf as (_ & _ & Ho).
  by rewrite <- E1, <- E2, Ho.
Qed.

(** ** What a recorded entry says about the parent *)

Definition newest (pv : option InternalLedgerEntry) (old : option LedgerEntryPtr) : option InternalLedgerEntry :=
  match old with Some p => ptrGet p | None => pv end.

Definition entryOK (pv : option InternalLedgerEntry) (old : option LedgerEntryPtr) : Prop :=
  match old with
  | Some (Init _) => pv = None
  | Some (Live _) | Some Deleted => is_Some pv
  | None => True
  end.

(** [p] is a change that can be made to the current entry. *)
Definition compatible (cur : option InternalLedgerEntry) (p : LedgerEntryPtr) : Prop :=
  match p with
  | Init _ => cur = None
  | Live _ | Deleted => is_Some cur
  end.

(** The pointer after recording [p] over [old]. *)
Definition record (old : option LedgerEntryPtr) (p : LedgerEntryPtr) : option LedgerEntryPtr :=
  match old, p with
  | None, _ => Some p
  | Some (Init _), Deleted => None
  | Some (Init _), (Init e | Live e) => Some (Init e)
  | Some (Live _), _ => Some p
  | Some Deleted, Init e => Some (Live e)
  | Some Deleted, _ => old
  end.

Lemma record_ok pv old p :
  entryOK pv old -> compatible (newest pv old) p ->
  entryOK pv (record old p) /\ newest pv (record old p) = ptrGet p /\
  (is_Some pv -> is_Some (record old p)).
Proof. destruct old as [[]|], p; cbn; intros; naive_solver. Qed.

Lemma recordEntry_eq key p m pv :
  entryOK pv (m !! key) ->
  (compatible (newest pv (m !! key)) p \/ (m !! key = Some p /\ p <> Deleted)) ->
  recordEntry key p m =
    inr (match record (m !! key) p with Some q => <[key := q]> m | None => delete key m end).
Proof.
  unfold recordEntry. intros Hok Hp.
  destruct (m !! key) as [[]|], p; cbn in *; try done;
    destruct Hp as [Hp|[Hp1 Hp2]]; try done; by (destruct Hp || destruct Hok || simplify_eq).
Qed.

Lemma record_self p : p <> Deleted -> record (Some p) p = Some p.
Proof. by destruct p. Qed.

(** ** The order book *)

Definition bookOf (mob : MultiOrderBook) (b s : Asset) : OrderBook := default [] (findOrderBook b s mob).

(** [(d, k)] belongs to the book of a pair: [k] is recorded as an existing offer
    of the pair with descriptor [d], and has no active handle. *)
Definition bookable (m : EntryMap) (A : InternalLedgerKey -> Prop) (b s : Asset)
    (d : OfferDescriptor) (k : LedgerKey) : Prop :=
  exists le o, m !! LedgerKeyOf k ≫= ptrGet = Some (LedgerEntryOf le) /\ le_data le = OFFER o /\
    descriptor o = d /\ oe_buying o = b /\ oe_selling o = s /\ ~ A (LedgerKeyOf k).

Definition bookSorted : OrderBook -> Prop := StronglySorted (fun x y => better (fst x) (fst y)).

Definition BookOK (mob : MultiOrderBook) (m : EntryMap) (A : InternalLedgerKey -> Prop) : Prop :=
  forall b s, bookSorted (bookOf mob b s) /\
    forall d k, (d, k) ∈ bookOf mob b s <-> bookable m A b s d k.

Definition wfMap (m : EntryMap) : Prop :=
  forall k e, m !! k ≫= ptrGet = Some e -> toKey e = k /\ wfEntry e.

Definition validBook (ob : OrderBook) : Prop := Forall (fun x => validDescriptor (fst x)) ob.

Lemma bookEmplace_elem d k ob x :
  validDescriptor d -> validBook ob -> (forall y, y ∈ ob -> equivalent d (fst y) = false) ->
  (x ∈ bookEmplace d k ob <-> x = (d, k) \/ x ∈ ob).
Proof.
  intros Hd. induction 1 as [|[d' k'] ob Hv Hob IH]; intros Hne; cbn; [set_solver|].
  pose proof (Hne (d', k') ltac:(set_solver)) as Heq. cbn in Heq. unfold equivalent in Heq.
  destruct (isBetterOffer d d'); [set_solver|]. destruct (isBetterOffer d' d); [|done].
  rewrite !elem_of_cons, IH by set_solver. tauto.
Qed.

Lemma bookEmplace_sorted d k ob :
  validDescriptor d -> validBook ob -> (forall y, y ∈ ob -> equivalent d (fst y) = false) ->
  bookSorted ob -> bookSorted (bookEmplace d k ob).
Proof.
  intros Hd Hv Hne Hs. induction Hs as [|[d' k'] ob Hs IH Hall]; cbn; [by repeat constructor|].
  inversion_clear Hv as [|? ? Hv1 Hv2].
  pose proof (Hne (d', k') ltac:(set_solver)) as Heq. cbn in Heq, Hv1. unfold equivalent in Heq.
  destruct (isBetterOffer d d') eqn:E1.
  - constructor; [by constructor|]. constructor; [done|].
    rewrite Forall_forall in Hall, Hv2 |- *. intros y Hy. cbn.
    apply (better_trans d d' (fst y)); try done; [by apply Hv2|by apply Hall].
  - destruct (isBetterOffer d' d) eqn:E2; [|done]. constructor; [apply IH; [done|set_solver]|].
    rewrite Forall_forall in Hall |- *. intros y Hy.
    apply bookEmplace_elem in Hy as [->|Hy]; [done|by apply Hall|done..|set_solver].
Qed.

Lemma bookErase_absent d ob :
  existsb (fun x => equivalent d (fst x)) ob = false -> bookErase d ob = ob.
Proof.
  induction ob as [|[d' k'] ob IH]; [done|]. cbn. intros [E1 E2]%orb_false_iff.
  by rewrite E1, IH.
Qed.

Lemma equivalent_better d d1 d2 :
  validDescriptor d -> validDescriptor d1 -> validDescriptor d2 ->
  equivalent d d1 = true -> better d1 d2 -> equivalent d d2 = false.
Proof.
  intros H H1 H2. unfold equivalent. rewrite andb_true_iff, !negb_true_iff. intros [E1 E2] B.
  assert (better d d2) as B'; [|unfold better in B'; by rewrite B'].
  apply (not_better_trans d1 d d2); try done. unfold better. congruence.
Qed.

Lemma bookErase_elem d ob x :
  validDescriptor d -> validBook ob -> bookSorted ob ->
  (x ∈ bookErase d ob <-> x ∈ ob /\ equivalent d (fst x) = false).
Proof.
  intros Hd Hv Hs. induction Hs as [|[d' k'] ob Hs IH Hall]; cbn; [set_solver|].
  inversion_clear Hv as [|? ? Hv1 Hv2]. cbn in Hv1. destruct (equivalent d d') eqn:E.
  - split; [|intros [Hx Hn]; apply elem_of_cons in Hx as [->|]; [cbn in Hn; congruence|done]].
    intros Hx. split; [set_solver|]. rewrite Forall_forall in Hall, Hv2.
    apply (equivalent_better d d'); try done; [by apply Hv2|by apply Hall].
  - rewrite !elem_of_cons, IH by done. naive_solver.
Qed.

Lemma bookErase_sublist d ob : bookErase d ob `sublist_of` ob.
Proof.
  induction ob as [|[d' k'] ob IH]; cbn; [done|]. destruct (equivalent d d'); [by constructor|by constructor].
Qed.

Lemma StronglySorted_sublist {A} (R : A -> A -> Prop) l l' :
  l' `sublist_of` l -> StronglySorted R l -> StronglySorted R l'.
Proof.
  induction 1 as [|x l1 l2 Hl IH|x l1 l2 Hl IH]; [done| |].
  - intros [Hs Hall]%StronglySorted_inv. constructor; [auto|].
    rewrite Forall_forall in *. eauto using elem_of_sublist.
  - intros [Hs Hall]%StronglySorted_inv. auto.
Qed.

Lemma bookOf_remove o mob b s :
  bookOf (removeFromOrderBookIfExists o mob) b s =
    if decide (b = oe_buying o /\ s = oe_selling o) then bookErase (descriptor o) (bookOf mob b s)
    else bookOf mob b s.
Proof.
  unfold bookOf, removeFromOrderBookIfExists, findOrderBook.
  destruct (mob !! oe_buying o) as [mb|] eqn:Eb; cbn;
    [|case_decide as D; [destruct D as [-> ->]; by rewrite Eb|done]].
  destruct (mb !! oe_selling o) as [ob|] eqn:Es; cbn;
    [|case_decide as D; [destruct D as [-> ->]; rewrite Eb; cbn; by rewrite Es|done]].
  destruct (existsb _ ob) eqn:Ex; cbn.
  2: { case_decide as D; [|done]. destruct D as [-> ->]. rewrite Eb. cbn. rewrite Es. cbn.
       by rewrite bookErase_absent. }
  destruct (decide (b = oe_buying o)) as [->|Hb].
  2: { destruct (decide (b = _ /\ _)) as [[? ?]|_]; [done|].
       destruct (bookErase _ _); [case_decide|]; by rewrite ?lookup_delete_ne, ?lookup_insert_ne by done. }
  rewrite Eb. cbn. destruct (bookErase (descriptor o) ob) as [|x ob'] eqn:Eo.
  - case_decide as He.
    + rewrite lookup_delete_eq. cbn. case_decide as D; [destruct D as [_ ->]; rewrite Es; cbn; by rewrite Eo|].
      assert (mb !! s = None) as ->; [|done].
      assert (delete (oe_selling o) mb !! s = None) as H by (by rewrite He).
      rewrite lookup_delete_ne in H by (intros <-; by apply D). done.
    + rewrite lookup_insert_eq. cbn. case_decide as D.
      * destruct D as [_ ->]. rewrite lookup_delete_eq, Es. cbn. by rewrite Eo.
      * by rewrite lookup_delete_ne by (intros <-; by apply D).
  - rewrite lookup_insert_eq. cbn. case_decide as D.
    + destruct D as [_ ->]. rewrite lookup_insert_eq, Es. cbn. by rewrite Eo.
    + by rewrite lookup_insert_ne by (intros <-; by apply D).
Qed.

Lemma bookOf_add o k mob b s :
  bookOf (addToOrderBook o k mob) b s =
    if decide (b = oe_buying o /\ s = oe_selling o) then bookEmplace (descriptor o) k (bookOf mob b s)
    else bookOf mob b s.
Proof.
  unfold bookOf, addToOrderBook, findOrderBook.
  destruct (decide (b = oe_buying o)) as [->|Hb];
    [|rewrite decide_False by tauto; by rewrite lookup_insert_ne by done].
  rewrite lookup_insert_eq. cbn. destruct (decide (s = oe_selling o)) as [->|Hs].
  - rewrite decide_True by done. rewrite lookup_insert_eq. cbn.
    by destruct (mob !! oe_buying o).
  - rewrite decide_False by tauto. rewrite lookup_insert_ne by done.
    by destruct (mob !! oe_buying o).
Qed.

(** An entry recorded under an offer's key is an offer, under its own key. *)
Lemma wfMap_offer m k le o :
  wfMap m -> m !! LedgerKeyOf k ≫= ptrGet = Some (LedgerEntryOf le) -> le_data le = OFFER o ->
  wfOffer o /\ k = offerKeyOf (oe_offerID o) /\ LedgerEntryKey le = k.
Proof.
  intros Hm Hk Ho. destruct (Hm _ _ Hk) as [Ek Hwf]. cbn in Ek, Hwf. rewrite Ho in Hwf.
  unfold LedgerEntryKey in *. rewrite Ho in *. injection Ek as <-. destruct Hwf as (H1 & H2 & H3).
  split_and!; try done. unfold offerKeyOf. by rewrite <- H3.
Qed.

Lemma bookable_wf m A b s d k :
  wfMap m -> bookable m A b s d k -> validDescriptor d /\ k = offerKeyOf (od_offerID d).
Proof.
  intros Hm (le & o & Hk & Ho & <- & _). destruct (wfMap_offer m k le o Hm Hk Ho) as (Hw & -> & _).
  split; [by apply wfOffer_valid|done].
Qed.

Lemma BookOK_valid mob m A b s : wfMap m -> BookOK mob m A -> validBook (bookOf mob b s).
Proof.
  intros Hm HB. apply Forall_forall. intros [d k] Hx. apply HB in Hx.
  by apply bookable_wf in Hx as [? ?].
Qed.

(** The book without the offer recorded under [k], if any. *)
Definition bookWithout (m : EntryMap) (k : LedgerKey) (mob : MultiOrderBook) : MultiOrderBook :=
  match m !! LedgerKeyOf k ≫= ptrGet with
  | Some (LedgerEntryOf le) =>
      match le_data le with OFFER o => removeFromOrderBookIfExists o mob | _ => mob end
  | _ => mob
  end.

Lemma BookOK_remove mob m A k :
  wfMap m -> BookOK mob m A ->
  BookOK (bookWithout m k mob) m (fun k' => A k' \/ k' = LedgerKeyOf k).
Proof.
  intros Hm HB b s. unfold bookWithout.
  assert (forall d k', bookable m A b s d k' ->
    bookable m (fun k' => A k' \/ k' = LedgerKeyOf k) b s d k' \/ k' = k) as Hcase.
  { intros d k' (le & o & H1 & H2 & H3 & H4 & H5 & H6). destruct (decide (k' = k)); [by right|left].
    exists le, o. split_and!; try done. intros [?|[= ->]]; done. }
  assert (forall d k', bookable m (fun k' => A k' \/ k' = LedgerKeyOf k) b s d k' ->
    bookable m A b s d k' /\ k' <> k) as Hsub.
  { intros d k' (le & o & H1 & H2 & H3 & H4 & H5 & H6). split; [|intros ->; tauto].
    exists le, o. split_and!; try done. tauto. }
  destruct (HB b s) as [Hs He]. pose proof (BookOK_valid mob m A b s Hm HB) as Hv.
  assert ((forall d, ~ bookable m A b s d k) -> bookSorted (bookOf mob b s) /\
    forall d k', (d, k') ∈ bookOf mob b s <->
      bookable m (fun k' => A k' \/ k' = LedgerKeyOf k) b s d k') as Hnone.
  { intros Hn. split; [done|]. intros d k'. rewrite He. split; [|apply Hsub].
    intros H. destruct (Hcase d k' H) as [?| ->]; [done|]. by destruct (Hn d). }
  destruct (m !! LedgerKeyOf k ≫= ptrGet) as [[le| | |]|] eqn:Ek;
    try (apply Hnone; intros dd (le' & o & H & _); rewrite Ek in H; congruence).
  destruct (le_data le) as [| |o| | |] eqn:Ed;
    try (apply Hnone; intros dd (le' & o' & H & H2 & _); rewrite Ek in H; congruence).
  destruct (wfMap_offer m k le o Hm Ek Ed) as (Hw & Hk & _).
  rewrite bookOf_remove. case_decide as D.
  2: { apply Hnone. intros d (le' & o' & H & H2 & _ & <- & <- & _). rewrite Ek in H. injection H as <-. rewrite Ed in H2. injection H2 as <-. by apply D. }
  split; [by eapply StronglySorted_sublist; [apply bookErase_sublist|]|].
  intros d k'. rewrite bookErase_elem by (done || by apply wfOffer_valid). rewrite He. cbn [fst]. split.
  - intros [H Hq]. destruct (Hcase d k' H) as [?| ->]; [done|]. exfalso.
    destruct H as (le' & o' & H1 & H2 & <- & _). rewrite Ek in H1. simplify_eq.
    rewrite Ed in H2. simplify_eq. rewrite equivalent_refl in Hq by (by apply wfOffer_valid). done.
  - intros H. destruct (Hsub d k' H) as [H1 H2]. split; [done|].
    destruct (bookable_wf m A b s d k' Hm H1) as [Hd ->].
    apply not_true_is_false. intros Hq. apply equivalent_same_id in Hq; [|by apply wfOffer_valid|done].
    apply H2. rewrite Hk. cbn in Hq. by rewrite Hq.
Qed.

(** Adding an offer whose key is not in the book. *)
Lemma BookOK_add mob m A k le o :
  wfMap m -> BookOK mob m A -> A (LedgerKeyOf k) ->
  wfOffer o -> le_data le = OFFER o -> k = offerKeyOf (oe_offerID o) ->
  forall m', (forall k', k' <> LedgerKeyOf k -> m' !! k' = m !! k') ->
    m' !! LedgerKeyOf k ≫= ptrGet = Some (LedgerEntryOf le) ->
  BookOK (addToOrderBook o k mob) m' (fun k' => A k' /\ k' <> LedgerKeyOf k).
Proof.
  intros Hm HB HA Hw Ho Hk m' Hm' Hmk b s. destruct (HB b s) as [Hs He].
  pose proof (BookOK_valid mob m A b s Hm HB) as Hv.
  assert (forall y, y ∈ bookOf mob b s -> equivalent (descriptor o) (fst y) = false) as Hne.
  { intros [d k'] Hy. apply He in Hy. apply not_true_is_false. intros Hq.
    destruct (bookable_wf m A b s d k' Hm Hy) as [Hd ->].
    apply equivalent_same_id in Hq; [|by apply wfOffer_valid|done]. cbn in Hq.
    destruct Hy as (? & ? & _ & _ & _ & _ & _ & Hn). apply Hn. by rewrite <- Hq, <- Hk. }
  assert (forall d k', bookable m' (fun k' => A k' /\ k' <> LedgerKeyOf k) b s d k' <->
    bookable m A b s d k' \/ (k' = k /\ d = descriptor o /\ b = oe_buying o /\ s = oe_selling o)) as Hiff.
  { intros d k'. unfold bookable. destruct (decide (k' = k)) as [->|Hkk].
    - rewrite Hmk. split; [intros (le' & o' & [= <-] & H & <- & <- & <- & _); right; rewrite Ho in H; by injection H as <-|].
      intros [(? & ? & _ & _ & _ & _ & _ & Hn)|(_ & -> & -> & ->)]; [done|].
      exists le, o. split_and!; try done. tauto.
    - rewrite Hm' by congruence. split.
      + intros (le' & o' & H1 & H2 & H3 & H4 & H5 & H6). left. exists le', o'. split_and!; try done.
        intros HA'. apply H6. split; [done|]. intros [=]. congruence.
      + intros [(le' & o' & H1 & H2 & H3 & H4 & H5 & H6)|(? & _)]; [|done].
        exists le', o'. split_and!; try done. tauto. }
  rewrite bookOf_add. case_decide as D.
  - split; [apply bookEmplace_sorted; try done; by apply wfOffer_valid|]. intros d k'.
    rewrite Hiff, bookEmplace_elem, He by (done || by apply wfOffer_valid).
    destruct D as [-> ->]. split; [intros [[= -> ->]|]; tauto|intros [|(-> & -> & _)]; tauto].
  - split; [done|]. intros d k'. rewrite Hiff, He. split; [tauto|]. intros [|(_ & _ & -> & ->)]; tauto.
Qed.

(** The entry of an active key can change: the book does not know it. *)
Lemma BookOK_active mob m m' (A : InternalLedgerKey -> Prop) k :
  A k -> (forall k', k' <> k -> m' !! k' = m !! k') -> BookOK mob m A -> BookOK mob m' A.
Proof.
  intros HA Hm HB b s. destruct (HB b s) as [Hs He]. split; [done|]. intros d k'. rewrite He. unfold bookable.
  destruct (decide (LedgerKeyOf k' = k)) as [->|Hne]; [|by rewrite Hm].
  split; intros (le & o & _ & _ & _ & _ & _ & Hn); done.
Qed.

Lemma BookOK_ext mob m m' A A' :
  (forall k, isOfferKey k = true -> m' !! k ≫= ptrGet = m !! k ≫= ptrGet) ->
  (forall k e, isOfferKey k = true -> m !! k ≫= ptrGet = Some e -> (A' k <-> A k)) ->
  wfMap m -> wfMap m' -> BookOK mob m A -> BookOK mob m' A'.
Proof.
  intros Hm HA Hw Hw' HB b s. destruct (HB b s) as [Hs He]. split; [done|]. intros d k. rewrite He.
  unfold bookable. split; intros (le & o & H1 & H2 & H3 & H4 & H5 & H6); exists le, o.
  - pose proof (wfMap_offer m k le o Hw H1 H2) as (_ & Hk & _).
    assert (isOfferKey (LedgerKeyOf k) = true) as Hof by (by rewrite Hk).
    split_and!; try done; [by rewrite Hm|]. by rewrite (HA _ _ Hof H1).
  - pose proof (wfMap_offer m' k le o Hw' H1 H2) as (_ & Hk & _).
    assert (isOfferKey (LedgerKeyOf k) = true) as Hof by (by rewrite Hk).
    rewrite Hm in H1 by done. split_and!; try done. by rewrite <- (HA _ _ Hof H1).
Qed.

(** ** Recording an entry in a transaction *)

Definition put (k : InternalLedgerKey) (o : option LedgerEntryPtr) (m : EntryMap) : EntryMap :=
  partial_alter (fun _ => o) k m.

Lemma put_eq k o m : put k o m !! k = o.
Proof. apply lookup_partial_alter_eq. Qed.
Lemma put_ne k k' o m : k <> k' -> put k o m !! k' = m !! k'.
Proof. apply lookup_partial_alter_ne. Qed.

Lemma put_match k (o : option LedgerEntryPtr) m :
  match o with Some q => <[k := q]> m | None => delete k m end = put k o m.
Proof. by destruct o. Qed.

Lemma wfMap_put k o m :
  wfMap m -> (forall e, o ≫= ptrGet = Some e -> toKey e = k /\ wfEntry e) -> wfMap (put k o m).
Proof.
  intros Hm Ho k' e. destruct (decide (k' = k)) as [->|Hk].
  - rewrite put_eq. apply Ho.
  - rewrite put_ne by done. apply Hm.
Qed.

Lemma record_get pv old p :
  (compatible (newest pv old) p \/ (old = Some p /\ p <> Deleted)) -> entryOK pv old ->
  record old p ≫= ptrGet = ptrGet p.
Proof. destruct old as [[]|], p; cbn; intros; naive_solver. Qed.

Definition goodEntry (k : InternalLedgerKey) (p : LedgerEntryPtr) : Prop :=
  forall e, ptrGet p = Some e -> toKey e = k /\ wfEntry e.

Lemma isOfferKey_inv key :
  isOfferKey key = true -> exists seller id, key = LedgerKeyOf (KEY_OFFER seller id).
Proof. destruct key as [[]| | |]; try done. eauto. Qed.

Lemma updateEntry_other key p ea t :
  isOfferKey key = false ->
  updateEntry key p ea t =
    noexcept (let* m := recordEntry key p (mEntry t) in mret (set_entry m t)).
Proof. by destruct key as [[]| | |]. Qed.

Lemma updateEntry_offer key k p ea t :
  isOfferKey key = true -> key = LedgerKeyOf k -> wfMap (mEntry t) ->
  updateEntry key p ea t =
    noexcept
      (let* mob :=
         match ptrGet p with
         | Some e =>
             if ea then mret (bookWithout (mEntry t) k (mMultiOrderBook t))
             else let* o := entryOffer e in
                  mret (addToOrderBook o k (bookWithout (mEntry t) k (mMultiOrderBook t)))
         | None => mret (bookWithout (mEntry t) k (mMultiOrderBook t))
         end in
       let* m := recordEntry key p (mEntry t) in
       mret (set_entry m (set_book mob t))).
Proof.
  intros Hof -> Hwf. destruct (isOfferKey_inv _ Hof) as (seller & id & [= ->]).
  unfold updateEntry. unfold bookWithout.
  destruct (mEntry t !! LedgerKeyOf (KEY_OFFER seller id) ≫= ptrGet) as [e|] eqn:Ee; [|done].
  destruct (Hwf _ _ Ee) as [Hk Hw]. destruct (toKey_offer _ _ _ Hw Hk) as (le & o & -> & Ho & _).
  unfold entryOffer at 1, dataOffer at 1. cbn. by rewrite Ho.
Qed.

Section Update.
Context (P : View) (t : LedgerTxnImpl) (key : InternalLedgerKey) (p : LedgerEntryPtr) (ea : bool).
Context (A A' : InternalLedgerKey -> Prop).
Hypotheses (Hok : entryOK (P !! key) (mEntry t !! key))
  (Hwf : wfMap (mEntry t)) (Hp : goodEntry key p)
  (HB : BookOK (mMultiOrderBook t) (mEntry t) A)
  (Hc : compatible (newest (P !! key) (mEntry t !! key)) p \/ (mEntry t !! key = Some p /\ p <> Deleted))
  (HA : forall k, k <> key -> (A' k <-> A k))
  (HA' : is_Some (ptrGet p) -> isOfferKey key = true -> (A' key <-> ea = true)).

Let m' := put key (record (mEntry t !! key) p) (mEntry t).

Lemma wf_updated : wfMap m'.
Proof using All.
  apply wfMap_put; [done|]. intros e. rewrite (record_get (P !! key)) by done. apply Hp.
Qed.

(** The book when the key is not an offer's. *)
Lemma book_not_offer : isOfferKey key = false -> BookOK (mMultiOrderBook t) m' A'.
Proof using All.
  intros Hn. refine (BookOK_ext _ _ _ _ _ _ _ Hwf wf_updated HB).
  - intros k Hk. unfold m'. rewrite put_ne; [done|]. intros ->. congruence.
  - intros k e Hk _. apply HA. intros ->. congruence.
Qed.

(** The book of an offer that ends up absent or active. *)
Lemma book_removed mob k :
  key = LedgerKeyOf k -> isOfferKey key = true ->
  BookOK mob (mEntry t) (fun k' => A k' \/ k' = key) ->
  (is_Some (ptrGet p) -> ea = true) -> BookOK mob m' A'.
Proof using All.
  intros Ek Hof HR Hea b s. destruct (HR b s) as [Hs He]. split; [done|]. intros d k'. rewrite He.
  unfold bookable. destruct (decide (LedgerKeyOf k' = key)) as [E|Hne].
  - rewrite E. unfold m'. rewrite put_eq, (record_get (P !! key)) by done.
    split; intros (le & o & H1 & H2 & H3 & H4 & H5 & H6); [tauto|].
    destruct H6. apply HA'; eauto.
  - unfold m'. rewrite put_ne by done. pose proof (HA _ Hne) as HAk.
    split; intros (le & o & H1 & H2 & H3 & H4 & H5 & H6); exists le, o; split_and!; tauto.
Qed.

(** Its book when it is recorded and not active. *)
Lemma book_added mob k le o :
  key = LedgerKeyOf k -> isOfferKey key = true ->
  BookOK mob (mEntry t) (fun k' => A k' \/ k' = key) ->
  ptrGet p = Some (LedgerEntryOf le) -> le_data le = OFFER o -> ea = false ->
  BookOK (addToOrderBook o k mob) m' A'.
Proof using All.
  intros Ek Hof HR Hg Ho Hea. destruct (Hp _ Hg) as [Hk Hw]. cbn in Hk, Hw. rewrite Ho in Hw.
  assert (k = offerKeyOf (oe_offerID o)) as Hkey.
  { rewrite Ek in Hk. unfold LedgerEntryKey in Hk. rewrite Ho in Hk. injection Hk as <-.
    unfold offerKeyOf. by destruct Hw as (_ & _ & <-). }
  assert (BookOK (addToOrderBook o k mob) m' (fun k' => (A k' \/ k' = key) /\ k' <> LedgerKeyOf k)) as HB'.
  { apply (BookOK_add mob (mEntry t) (fun k' => A k' \/ k' = key) k le o); try done; [by right| |].
    - intros k' Hk'. unfold m'. rewrite put_ne; [done|]. congruence.
    - unfold m'. rewrite <- Ek, put_eq, (record_get (P !! key)) by done. done. }
  refine (BookOK_ext _ m' m' _ _ _ _ wf_updated wf_updated HB'); [done|].
  intros k' e _ _. destruct (decide (k' = key)) as [->|Hne].
  - rewrite HA' by (try done; by rewrite Hg). rewrite Hea, <- Ek. split; [done|tauto].
  - rewrite HA by done. rewrite <- Ek. tauto.
Qed.

(** [updateEntry] records the entry and keeps the order book exact. *)
Lemma updateEntry_spec :
  exists mob, updateEntry key p ea t = inr (set_entry m' (set_book mob t)) /\ BookOK mob m' A'.
Proof using All.
  pose proof (recordEntry_eq key p (mEntry t) (P !! key) Hok Hc) as Hrec. rewrite put_match in Hrec. fold m' in Hrec.
  destruct (decide (isOfferKey key = true)) as [Hof|Hof%not_true_is_false].
  2: { exists (mMultiOrderBook t). split; [|by apply book_not_offer].
       rewrite updateEntry_other, Hrec by done. by destruct t. }
  destruct (isOfferKey_inv key Hof) as (seller & id & Hkey). set (k := KEY_OFFER seller id) in Hkey.
  pose proof (BookOK_remove _ _ _ k Hwf HB) as HR. rewrite <- Hkey in HR.
  rewrite (updateEntry_offer key k) by (done || by rewrite Hkey). rewrite Hrec.
  pose proof (book_removed _ k Hkey Hof HR) as Hrem. pose proof (fun le o => book_added _ k le o Hkey Hof HR) as Hadd. pose proof Hp as Hgood.
  clear Hp Hc HA HA' Hrec. destruct (ptrGet p) as [e|] eqn:Hg.
  2: { eexists. split; [done|]. apply Hrem. by intros [? ?]. }
  destruct ea eqn:Hea.
  { eexists. split; [done|]. by apply Hrem. }
  destruct (Hgood _ Hg) as [Hk Hw]. rewrite Hkey in Hk.
  destruct (toKey_offer _ _ _ Hw Hk) as (le & o & -> & Ho & _). unfold entryOffer, dataOffer. cbn. rewrite Ho.
  eexists. split; [done|]. by apply (Hadd le).
Qed.

End Update.

(** ** The invariant of a transaction over its parent's view *)

(** The entries that exist as of a transaction. *)
Definition overlay (m : EntryMap) (P : View) : View := merge (fun o pv => newest pv o) m P.

Lemma overlay_lookup m P k : overlay m P !! k = newest (P !! k) (m !! k).
Proof. unfold overlay. rewrite lookup_merge. by destruct (m !! k), (P !! k). Qed.

(** The offers of the parent that are not worse than [w] are recorded. *)
Definition notWorse (o : OfferEntry) (w : option OfferDescriptor) : Prop :=
  match w with Some d => ~ better d (descriptor o) | None => True end.

Definition worstOK (P : View) (m : EntryMap) (b s : Asset) (w : option OfferDescriptor) : Prop :=
  (forall d, w = Some d -> validDescriptor d) /\
  forall k le o, P !! LedgerKeyOf k = Some (LedgerEntryOf le) -> le_data le = OFFER o ->
    oe_buying o = b -> oe_selling o = s -> notWorse o w -> is_Some (m !! LedgerKeyOf k).

(** A handle refers to an existing entry; a constant one has its value. *)
Definition handleOK (i : EntryImpl) (recorded : bool) (cur : option InternalLedgerEntry) : Prop :=
  match i with
  | MutableEntry => recorded = true /\ is_Some cur
  | ConstEntry e => cur = Some e
  end.

Definition isRecorded (m : EntryMap) (k : InternalLedgerKey) : bool := bool_decide (is_Some (m !! k)).

Record LevelInv (P : View) (t : LedgerTxnImpl) : Prop := {
  li_entry : forall k, entryOK (P !! k) (mEntry t !! k);
  li_wf : wfMap (mEntry t);
  li_handle : forall k i, mActive t !! k = Some i ->
    handleOK i (isRecorded (mEntry t) k) (overlay (mEntry t) P !! k);
  li_book : mIsSealed t = false ->
    BookOK (mMultiOrderBook t) (mEntry t) (fun k => is_Some (mActive t !! k));
  li_worst : forall b s w, mWorstBestOffer t !! (b, s) = Some w -> worstOK P (mEntry t) b s w;
  li_sealed : mIsSealed t = true -> mActive t = ∅
}.

Lemma record_newest pv old p :
  entryOK pv old -> (compatible (newest pv old) p \/ (old = Some p /\ p <> Deleted)) ->
  entryOK pv (record old p) /\ newest pv (record old p) = ptrGet p /\
  (is_Some pv -> is_Some (record old p)).
Proof.
  intros Hok [Hc|[-> Hp]]; [by apply record_ok|]. rewrite record_self by done. by split_and!.
Qed.

Lemma updateEntry_active key p ea a t :
  updateEntry key p ea (set_active a t) =
    match updateEntry key p ea t with inr t' => inr (set_active a t') | inl f => inl f end.
Proof.
  unfold updateEntry. cbn [mEntry mMultiOrderBook set_active].
  assert (forall m : exc LedgerTxnImpl, noexcept (let* t' := m in mret (set_active a t')) =
    match noexcept m with inr t' => inr (set_active a t') | inl f => inl f end) as Hn.
  { intros [[]|]; done. }
  destruct key as [[]| | |]; rewrite <- Hn; f_equal;
    repeat (match goal with |- context [bnd ?m _] => destruct m; cbn; try done end).
Qed.

Section Level.
Context (P : View) (t : LedgerTxnImpl) (Ht : LevelInv P t) (Hsealed : mIsSealed t = false).

Lemma LevelInv_update key p ea act :
  goodEntry key p ->
  (compatible (overlay (mEntry t) P !! key) p \/ (mEntry t !! key = Some p /\ p <> Deleted)) ->
  (forall k, k <> key -> act !! k = mActive t !! k) ->
  (forall i, act !! key = Some i -> handleOK i (isRecorded (put key (record (mEntry t !! key) p) (mEntry t)) key) (ptrGet p)) ->
  (is_Some (ptrGet p) -> isOfferKey key = true -> (is_Some (act !! key) <-> ea = true)) ->
  exists mob,
    let t' := set_book mob t in
    let m' := put key (record (mEntry t !! key) p) (mEntry t) in
    (forall a, updateEntry key p ea (set_active a t) = inr (set_entry m' (set_active a t'))) /\
    LevelInv P (set_entry m' (set_active act t')) /\
    overlay m' P = partial_alter (fun _ => ptrGet p) key (overlay (mEntry t) P).
Proof using Ht Hsealed.
  intros Hg Hc Hact Hh Hea. destruct Ht as [Hent Hwf Hhan Hbook Hworst Hseal]. specialize (Hbook Hsealed).
  rewrite overlay_lookup in Hc. destruct (record_newest _ _ _ (Hent key) Hc) as (Hok & Hnew & Hrec).
  destruct (updateEntry_spec P t key p ea (fun k => is_Some (mActive t !! k)) (fun k => is_Some (act !! k)))
    as (mob & Hup & HB); try done; [by intros k Hk; rewrite Hact|].
  assert (forall k, overlay (put key (record (mEntry t !! key) p) (mEntry t)) P !! k =
    partial_alter (fun _ => ptrGet p) key (overlay (mEntry t) P) !! k) as Hov.
  { intros k. destruct (decide (k = key)) as [->|Hne].
    - by rewrite lookup_partial_alter_eq, overlay_lookup, put_eq.
    - by rewrite lookup_partial_alter_ne, !overlay_lookup, put_ne by done. }
  exists mob. cbn. split_and!.
  - intros a. by rewrite updateEntry_active, Hup.
  - constructor; cbn.
    + intros k. destruct (decide (k = key)) as [->|Hne]; [by rewrite put_eq|by rewrite put_ne].
    + apply wfMap_put; [done|]. intros e. rewrite (record_get (P !! key)) by done. apply Hg.
    + intros k i Hi. rewrite Hov. destruct (decide (k = key)) as [->|Hne].
      * rewrite lookup_partial_alter_eq. by apply Hh.
      * rewrite lookup_partial_alter_ne by done. rewrite Hact in Hi by done.
        unfold isRecorded. rewrite put_ne by done. by apply Hhan.
    + done.
    + intros b s w Hw. destruct (Hworst b s w Hw) as [Hv Hrecd]. split; [done|].
      intros k le o Hk Ho Hb Hs Hn. destruct (decide (LedgerKeyOf k = key)) as [Heq|Hne].
      * rewrite Heq in *. rewrite put_eq. apply Hrec. by rewrite Hk.
      * rewrite put_ne by done. by apply (Hrecd k le o).
    + congruence.
  - by apply map_eq.
Qed.

(** Changing which keys are active without changing the recorded entries, for a
    key the order book does not know. *)
Lemma LevelInv_reactivate key act :
  (forall k, k <> key -> act !! k = mActive t !! k) ->
  (forall i, act !! key = Some i -> handleOK i (isRecorded (mEntry t) key) (overlay (mEntry t) P !! key)) ->
  (isOfferKey key = false \/ mEntry t !! key = None) ->
  LevelInv P (set_active act t).
Proof using Ht Hsealed.
  intros Hact Hh Hk. destruct Ht as [Hent Hwf Hhan Hbook Hworst Hseal]. constructor; try done; cbn.
  - intros k i Hi. destruct (decide (k = key)) as [->|Hne]; [by apply Hh|].
    rewrite Hact in Hi by done. by apply Hhan.
  - intros Hs. refine (BookOK_ext _ _ _ _ _ _ _ Hwf Hwf (Hbook Hs)); [done|].
    intros k e Hof He. rewrite Hact; [done|]. intros ->. destruct Hk as [Hk|Hk]; [congruence|].
    by rewrite Hk in He.
  - congruence.
Qed.

(** [updateEntryIfRecorded] when the key becomes active or inactive. *)
Lemma LevelInv_refresh key ea act :
  (forall k, k <> key -> act !! k = mActive t !! k) ->
  (forall i, act !! key = Some i -> handleOK i (isRecorded (mEntry t) key) (overlay (mEntry t) P !! key)) ->
  (isOfferKey key = true -> (is_Some (act !! key) <-> ea = true)) ->
  mEntry t !! key <> Some Deleted ->
  exists mob,
    (forall a, updateEntryIfRecorded key ea (set_active a t) = inr (set_active a (set_book mob t))) /\
    LevelInv P (set_active act (set_book mob t)).
Proof using Ht Hsealed.
  intros Hact Hh Hea Hd. unfold updateEntryIfRecorded. cbn [mEntry set_active].
  destruct (isOfferKey key) eqn:Hof; cbn [negb].
  2: { exists (mMultiOrderBook t). split; [by destruct t|]. replace (set_book _ t) with t by (by destruct t).
       apply (LevelInv_reactivate key); auto. }
  destruct (mEntry t !! key) as [p|] eqn:Hp.
  2: { exists (mMultiOrderBook t). split; [by destruct t|]. replace (set_book _ t) with t by (by destruct t).
       apply (LevelInv_reactivate key); auto. }
  assert (record (Some p) p = Some p) as Hr by (apply record_self; congruence).
  assert (put key (Some p) (mEntry t) = mEntry t) as Hput.
  { apply map_eq. intros k. destruct (decide (key = k)) as [<-|Hne]; [by rewrite put_eq|by rewrite put_ne]. }
  assert (overlay (mEntry t) P !! key = ptrGet p) as Hov by (by rewrite overlay_lookup, Hp).
  destruct (LevelInv_update key p ea act) as (mob & Hup & Hinv & _); try done.
  - intros e He. apply (li_wf _ _ Ht). by rewrite Hp.
  - right. split; [done|congruence].
  - intros i Hi. rewrite Hp, Hr, Hput, <- Hov. by apply Hh.
  - intros _ _. by apply Hea.
  - rewrite Hp, Hr, Hput in *. exists mob. split; [|by destruct t]. intros a. rewrite Hup. by destruct t.
Qed.

End Level.

(** ** Opening a child: every handle is deactivated *)

Lemma handle_not_deleted P t k :
  LevelInv P t -> is_Some (mActive t !! k) -> mEntry t !! k <> Some Deleted.
Proof.
  intros Ht [i Hi] Hd. pose proof (li_handle P t Ht k i Hi) as Hh.
  rewrite overlay_lookup, Hd in Hh. destruct i; cbn in Hh; [by destruct Hh as [_ [? ?]]|done].
Qed.

Lemma updateAll_spec P keys : forall t,
  LevelInv P t -> mIsSealed t = false -> Forall (fun k => is_Some (mActive t !! k)) keys -> NoDup keys ->
  exists mob,
    (forall a, updateAll keys (set_active a t) = inr (set_active a (set_book mob t))) /\
    LevelInv P (set_active (foldr delete (mActive t) keys) (set_book mob t)).
Proof.
  induction keys as [|k keys IH]; intros t Ht Hs Hall Hnd; cbn.
  - exists (mMultiOrderBook t). split; [by destruct t|]. by destruct t.
  - inversion_clear Hall as [|? ? Hk Hall']. inversion_clear Hnd as [|? ? Hni Hnd'].
    destruct (LevelInv_refresh P t Ht Hs k false (delete k (mActive t))) as (mob & Hup & Hinv).
    + intros k' Hk'. by rewrite lookup_delete_ne.
    + intros i. by rewrite lookup_delete_eq.
    + intros _. rewrite lookup_delete_eq. split; [by intros [? ?]|done].
    + by apply (handle_not_deleted P).
    + destruct (IH (set_active (delete k (mActive t)) (set_book mob t))) as (mob' & Hup' & Hinv'); try done.
      { rewrite Forall_forall in Hall' |- *. intros k' Hk'. cbn. rewrite lookup_delete_ne by set_solver.
        by apply Hall'. }
      exists mob'. split.
      * intros a. rewrite Hup. cbn. specialize (Hup' a). by destruct t.
      * cbn in Hinv'. rewrite <- delete_foldr_delete in Hinv'. by destruct t.
Qed.


Lemma addChild_spec P t :
  LevelInv P t -> mIsSealed t = false ->
  exists mob, let t' := set_activeHeader false (set_active ∅ (set_book mob t)) in
    addChild t = inr t' /\ LevelInv P t'.
Proof.
  intros Ht Hs. set (keys := (map_to_list (mActive t)).*1).
  assert (forall k, is_Some (mActive t !! k) <-> k ∈ keys) as Hkeys.
  { intros k. unfold keys. rewrite list_elem_of_fmap. split.
    - intros [i Hi]. exists (k, i). split; [done|]. by apply elem_of_map_to_list.
    - intros ([k' i] & -> & Hi). apply elem_of_map_to_list in Hi. cbn. eauto. }
  destruct (updateAll_spec P keys t Ht Hs) as (mob & Hup & Hinv).
  { apply Forall_forall. intros k. by rewrite Hkeys. }
  { apply NoDup_fst_map_to_list. }
  specialize (Hup (mActive t)). replace (set_active (mActive t) t) with t in Hup by (by destruct t).
  assert (foldr delete (mActive t) keys = ∅) as He.
  { apply map_empty. intros k. destruct (decide (k ∈ keys)) as [Hk|Hk]; [by apply lookup_foldr_delete|].
    rewrite lookup_foldr_delete_not_elem_of by done. apply eq_None_not_Some. by rewrite Hkeys. }
  rewrite He in Hinv. exists mob. cbn. split.
  - unfold addChild, throwIfSealed. rewrite Hs. fold keys. cbn [bnd mbind exc_bind mret exc_ret].
    rewrite Hup. by destruct t.
  - destruct Hinv as [H1 H2 H3 H4 H5 H6]. by constructor.
Qed.

(** ** Committing a child *)

(** The state of a parent after some of the child's entries were recorded. *)
Lemma commitEntries_spec P entries : forall t,
  LevelInv P t -> mIsSealed t = false -> mActive t = ∅ -> NoDup (entries.*1) ->
  Forall (fun kp => goodEntry (fst kp) (snd kp) /\ compatible (overlay (mEntry t) P !! fst kp) (snd kp)) entries ->
  exists mob m, let t' := set_entry m (set_book mob t) in
    commitEntries entries t = inr t' /\ LevelInv P t' /\
    (forall k, (exists p, (k, p) ∈ entries /\ overlay m P !! k = ptrGet p /\
                 (is_Some (P !! k) -> is_Some (m !! k))) \/
               (k ∉ entries.*1 /\ m !! k = mEntry t !! k)).
Proof.
  induction entries as [|[k p] entries IH]; intros t Ht Hs Ha Hnd Hall; cbn.
  - exists (mMultiOrderBook t), (mEntry t). split_and!; try (by destruct t).
    intros k. right. split; [set_solver|done].
  - inversion_clear Hnd as [|? ? Hni Hnd']. inversion_clear Hall as [|? ? [Hg Hc] Hall']. cbn in *.
    destruct (LevelInv_update P t Ht Hs k p false ∅) as (mob & Hup & Hinv & Hov).
    { done. } { by left. } { by rewrite Ha. } { done. } { intros _ _. rewrite lookup_empty. split; [by intros [? ?]|done]. }
    specialize (Hup (mActive t)). replace (set_active (mActive t) t) with t in Hup by (by destruct t).
    rewrite Hup. cbn. rewrite Ha. set (t1 := set_entry _ (set_active ∅ _)) in Hinv.
    replace (set_entry _ (set_active ∅ (set_book mob t))) with t1 by done.
    assert (is_Some (P !! k) -> is_Some (record (mEntry t !! k) p)) as Hrec.
    { rewrite overlay_lookup in Hc. apply (record_ok _ _ _ (li_entry P t Ht k) Hc). }
    destruct (IH t1 Hinv Hs eq_refl Hnd') as (mob' & m' & Hup' & Hinv' & Hm').
    { rewrite Forall_forall in Hall' |- *. intros [k' p'] Hk'. destruct (Hall' _ Hk') as [Hg' Hc'].
      split; [done|]. cbn [fst snd] in *. change (mEntry t1) with (put k (record (mEntry t !! k) p) (mEntry t)). rewrite Hov, lookup_partial_alter_ne; [done|].
      intros ->. apply Hni. apply list_elem_of_fmap. by exists (k', p'). }
    assert (set_entry m' (set_book mob' t1) = set_entry m' (set_book mob' t)) as E1
      by (clear -Ha; destruct t; cbn in Ha; by subst).
    exists mob', m'. rewrite Hup', E1 in *. split_and!; try done.
    intros k'. destruct (Hm' k') as [(p' & Hin & Hov' & Hr')|[Hnin Hm1]].
    + left. exists p'. split_and!; try done. set_solver.
    + destruct (decide (k' = k)) as [->|Hne].
      * left. exists p. split; [set_solver|]. change (mEntry t1) with (put k (record (mEntry t !! k) p) (mEntry t)) in Hm1.
        rewrite overlay_lookup, Hm1, put_eq. split; [|done]. pose proof (f_equal (lookup k) Hov) as Hk.
        by rewrite overlay_lookup, put_eq, lookup_partial_alter_eq in Hk.
      * right. split; [set_solver|]. rewrite Hm1. by apply put_ne.
Qed.

Lemma LevelInv_worst P t b s w :
  LevelInv P t -> worstOK P (mEntry t) b s w -> LevelInv P (updateWorstBestOffer (b, s) w t).
Proof.
  intros [H1 H2 H3 H4 H5 H6] Hw.
  assert (LevelInv P (set_worst (<[(b, s) := w]> (mWorstBestOffer t)) t)) as Hset.
  { constructor; try done. intros b' s' w'. cbn. rewrite lookup_insert. case_decide as D.
    - intros [= <-]. by injection D as <- <-.
    - apply H5. }
  unfold updateWorstBestOffer. destruct (mWorstBestOffer t !! (b, s)); [|done].
  by destruct (isWorseThan w o).
Qed.

Lemma updateWorst_fields a w t :
  exists m, updateWorstBestOffer a w t = set_worst m t.
Proof.
  assert (exists m, t = set_worst m t) by (exists (mWorstBestOffer t); by destruct t).
  unfold updateWorstBestOffer. destruct (mWorstBestOffer t !! a); [destruct (isWorseThan w o)|]; eauto.
Qed.

Lemma commitWorst_spec P t ws :
  LevelInv P t -> Forall (fun x => worstOK P (mEntry t) (fst (fst x)) (snd (fst x)) (snd x)) ws ->
  LevelInv P (commitWorstBestOffers ws t) /\ exists m, commitWorstBestOffers ws t = set_worst m t.
Proof.
  intros Ht. induction 1 as [|[[b s] w] ws Hw Hws [IH [m E]]]; cbn.
  - split; [done|]. exists (mWorstBestOffer t). by destruct t.
  - split.
    + apply LevelInv_worst; [done|]. unfold commitWorstBestOffers in *. by rewrite E.
    + unfold commitWorstBestOffers in *. rewrite E.
      destruct (updateWorst_fields (b, s) w (set_worst m t)) as [m' ->]. by exists m'.
Qed.

(** The entries a commit hands over: those recorded, with the ledger they were
    last modified in. *)
Definition touch (t : LedgerTxnImpl) (e : InternalLedgerEntry) : InternalLedgerEntry :=
  if mIsSealed t then e
  else if mShouldUpdateLastModified t then setLastModified (ledgerSeq (mHeader t)) e else e.

Lemma touch_key t e : toKey (touch t e) = toKey e.
Proof. unfold touch. destruct (mIsSealed t), (mShouldUpdateLastModified t); try done. by destruct e. Qed.

Lemma touch_wf t e : wfEntry (touch t e) <-> wfEntry e.
Proof. unfold touch. destruct (mIsSealed t), (mShouldUpdateLastModified t); try done. by destruct e. Qed.

Definition touchPtr (t : LedgerTxnImpl) (p : LedgerEntryPtr) : LedgerEntryPtr :=
  match p with Init e => Init (touch t e) | Live e => Live (touch t e) | Deleted => Deleted end.

Lemma seal_entries t : fst (seal t) = touchPtr t <$> mEntry t.
Proof.
  unfold seal, maybeUpdateLastModified, touchPtr, touch.
  destruct (mIsSealed t); cbn; [|destruct (mShouldUpdateLastModified t)].
  2: { apply map_fmap_ext. intros k p _. by destruct p. }
  all: rewrite <- (map_fmap_id (mEntry t)) at 1; apply map_fmap_ext; intros k p _; by destruct p.
Qed.

Lemma touchPtr_get t p : ptrGet (touchPtr t p) = touch t <$> ptrGet p.
Proof. by destruct p. Qed.

Section Commit.
Context (P : View) (t c : LedgerTxnImpl).
Hypotheses (Ht : LevelInv P t) (Hs : mIsSealed t = false) (Ha : mActive t = ∅)
  (Hc : LevelInv (overlay (mEntry t) P) c).

Lemma sealed_compatible :
  Forall (fun kp => goodEntry (fst kp) (snd kp) /\ compatible (overlay (mEntry t) P !! fst kp) (snd kp))
    (map_to_list (fst (seal c))).
Proof using Hc.
  apply Forall_forall. intros [k p] Hk. apply elem_of_map_to_list in Hk.
  rewrite seal_entries, lookup_fmap_Some in Hk. destruct Hk as (q & <- & Hq). cbn.
  pose proof (li_entry _ _ Hc k) as Hent. pose proof (li_wf _ _ Hc k) as Hwf. rewrite Hq in *. split.
  - intros e. rewrite touchPtr_get. destruct (ptrGet q) as [e0|] eqn:Eg; [|done]. intros [= <-].
    rewrite touch_key, touch_wf. by apply Hwf.
  - by destruct q.
Qed.

Lemma commitChild_spec :
  exists t', commitChild (fst (seal c)) (snd (seal c)) t = inr t' /\ LevelInv P t' /\
    overlay (mEntry t') P = overlay (fst (seal c)) (overlay (mEntry t) P) /\
    mHeader t' = mHeader c /\ mActive t' = ∅ /\ mIsSealed t' = false /\
    mActiveHeader t' = mActiveHeader t.
Proof using All.
  set (cons := joinConsistencyLevels (mConsistency t) (mConsistency (snd (seal c)))).
  set (t0 := set_consistency cons t).
  assert (LevelInv P t0) as Ht0 by (destruct Ht; by constructor).
  destruct (commitEntries_spec P (map_to_list (fst (seal c))) t0 Ht0 Hs Ha) as (mob & m & Hup & Hinv & Hm).
  { apply NoDup_fst_map_to_list. } { apply sealed_compatible. }
  assert (mWorstBestOffer (snd (seal c)) = mWorstBestOffer c) as Hw by (unfold seal; by destruct (mIsSealed c)).
  assert (mHeader (snd (seal c)) = mHeader c) as Hh by (unfold seal; by destruct (mIsSealed c)).
  assert (forall k, k ∉ (map_to_list (fst (seal c))).*1 -> mEntry c !! k = None /\ fst (seal c) !! k = None) as Hnone.
  { intros k Hk. assert (fst (seal c) !! k = None) as E.
    { apply eq_None_not_Some. intros [p Hp]. apply Hk, list_elem_of_fmap. exists (k, p). split; [done|].
      by apply elem_of_map_to_list. }
    split; [|done]. rewrite seal_entries, lookup_fmap in E. by destruct (mEntry c !! k). }
  destruct (commitWorst_spec P (set_entry m (set_book mob t0)) (map_to_list (mWorstBestOffer c)) Hinv)
    as [Hinv' [ws Ews]].
  { apply Forall_forall. intros [[b s] w] Hx. apply elem_of_map_to_list in Hx. cbn.
    destruct (li_worst _ _ Hc b s w Hx) as [Hv Hr]. split; [done|].
    intros k le o Hk Ho Hb Hsell Hn.
    destruct (Hm (LedgerKeyOf k)) as [(p & _ & _ & Hrec)|[Hnin Hmk]]; [apply Hrec; by rewrite Hk|].
    rewrite Hmk. destruct (mEntry t !! LedgerKeyOf k) eqn:Ek; [done|]. exfalso.
    destruct (Hnone _ Hnin) as [Hcn _]. destruct (Hr k le o) as [q Hq]; try done; [|congruence].
    rewrite overlay_lookup, Ek. done. }
  eexists. split.
  { unfold commitChild. cbv zeta. fold cons. fold t0. rewrite decide_True by done. rewrite Hup. cbn [bnd mbind exc_bind mret exc_ret].
    by rewrite Hw, Ews, Hh. }
  rewrite Ews in Hinv'. split_and!; try done.
  - destruct Hinv'. by constructor.
  - cbn. apply map_eq. intros k. rewrite overlay_lookup.
    destruct (Hm k) as [(p & Hin & Hov & _)|[Hnin Hmk]].
    + rewrite overlay_lookup in Hov. rewrite Hov. apply elem_of_map_to_list in Hin.
      by rewrite overlay_lookup, Hin.
    + destruct (Hnone k Hnin) as [_ Hcn]. rewrite Hmk, overlay_lookup, Hcn. cbn. by rewrite overlay_lookup.
Qed.

End Commit.

End Owner.
