(* ===== verification/BestOffer.v ===== *)
(** * The best offer of an asset pair

    [loadBestOffer] finds the best offer through the order book of each
    transaction of the stack, the worst-best-offer shortcut and the batches the
    root loads from the database.  It is the best offer among all the entries that
    exist as of the innermost transaction. *)

From stdpp Require Import base list gmap strings.
From Stdlib Require Import Sorting.Sorted.
From S2P Require Import Prelude Exchange Entries OfferOrder LedgerTxn LedgerTxnInv.

Local Open Scope Z_scope.

#[local] Arguments decide : simpl never.

Section Owner.
Context (owner : Z -> AccountID).

(** ** Offers of a view, and the best of them *)

Definition offerIn (V : View) (b s : Asset) (e : LedgerEntry) (o : OfferEntry) : Prop :=
  V !! LedgerKeyOf (LedgerEntryKey e) = Some (LedgerEntryOf e) /\ le_data e = OFFER o /\
  oe_buying o = b /\ oe_selling o = s.

Definition worse (wt : option OfferDescriptor) (o : OfferEntry) : Prop :=
  match wt with Some d => better d (descriptor o) | None => True end.

(** [e] is at least as good as every offer [e'] that satisfies [Q]. *)
Definition bestAmong (Q : LedgerEntry -> OfferEntry -> Prop) (wt : option OfferDescriptor)
    (res : option LedgerEntry) : Prop :=
  match res with
  | None => forall e o, Q e o -> ~ worse wt o
  | Some e =>
      exists o, Q e o /\ worse wt o /\
        forall e' o', Q e' o' -> worse wt o' -> e' = e \/ better (descriptor o) (descriptor o')
  end.

Definition IsBest (V : View) (b s : Asset) : option OfferDescriptor -> option LedgerEntry -> Prop :=
  bestAmong (offerIn V b s).

Definition validWorse (wt : option OfferDescriptor) : Prop :=
  match wt with Some d => validDescriptor d | None => True end.

(** Offers that are listed by a table or a cache. *)
Definition listed (Q : LedgerEntry -> OfferEntry -> Prop) (l : list LedgerEntry) : Prop :=
  Forall (fun e => exists o, Q e o /\ le_data e = OFFER o /\ wfOffer owner o) l.

Definition betterEntry (e e' : LedgerEntry) : Prop :=
  match le_data e, le_data e' with
  | OFFER o, OFFER o' => better (descriptor o) (descriptor o')
  | _, _ => False
  end.

Lemma betterEntry_offers e e' o o' :
  le_data e = OFFER o -> le_data e' = OFFER o' ->
  (betterEntry e e' <-> better (descriptor o) (descriptor o')).
Proof. unfold betterEntry. by intros -> ->. Qed.

Lemma findIncludedOffer_spec Q wt l :
  (forall e o, Q e o -> le_data e = OFFER o /\ wfOffer owner o) -> validWorse wt ->
  Forall (fun e => exists o, Q e o) l -> StronglySorted betterEntry l ->
  exists res, findIncludedOffer l wt = inr res /\
    bestAmong (fun e o => Q e o /\ e ∈ l) wt res.
Proof.
  intros HQ Hwt Hl Hs. induction Hs as [|e l Hs IH Hall]; cbn.
  - exists None. split; [done|]. intros e o [_ H]. by apply elem_of_nil in H.
  - inversion_clear Hl as [|? ? [o Ho] Hl']. destruct (HQ e o Ho) as [Hd Hw].
    assert (forall e' o', Q e' o' /\ e' ∈ e :: l -> e' = e \/ better (descriptor o) (descriptor o')) as Hbest.
    { intros e' o' [Hq' Hin]. apply elem_of_cons in Hin as [->|Hin]; [by left|right].
      rewrite Forall_forall in Hall. specialize (Hall e' Hin). destruct (HQ e' o' Hq') as [Hd' _].
      by apply (betterEntry_offers e e'). }
    destruct wt as [d|]; cbn in Hwt.
    2: { exists (Some e). split; [done|]. exists o. split_and!; try done; [set_solver|]. intros e' o' H _. by apply Hbest. }
    unfold dataOffer. rewrite Hd. cbn. destruct (isBetterOffer d (descriptor o)) eqn:E.
    + exists (Some e). split; [done|]. exists o. split_and!; try done; [set_solver|]. intros e' o' H _. by apply Hbest.
    + destruct (IH Hl') as (res & Hres & Hb). exists res. split; [done|].
      assert (forall e' o', Q e' o' -> worse (Some d) o' -> e' <> e) as Hne.
      { intros e' o' Hq' Hw' ->. destruct (HQ e o' Hq') as [Hd' _]. rewrite Hd in Hd'. injection Hd' as <-.
        cbn in Hw'. unfold better in Hw'. congruence. }
      destruct res as [r|]; cbn in *.
      * destruct Hb as (or & [Hqr Hr] & Hwr & Hbr). exists or. split_and!; try done; [set_solver|].
        intros e' o' [Hq' Hin'] Hw'. apply Hbr; [|done]. split; [done|].
        apply elem_of_cons in Hin' as [->|]; [|done]. by destruct (Hne e o' Hq' Hw').
      * intros e' o' [Hq' Hin'] Hw'. apply elem_of_cons in Hin' as [->|Hin']; [by apply (Hne e o')|].
        by apply (Hb e' o').
Qed.

(** ** The offers table and the root's cache *)

Definition rootView (db : gmap LedgerKey LedgerEntry) : View := kmap LedgerKeyOf (LedgerEntryOf <$> db).

#[export] Instance LedgerKeyOf_inj : Inj (=) (=) LedgerKeyOf.
Proof. by intros k k' [=]. Qed.

Lemma rootView_lookup db k : rootView db !! LedgerKeyOf k = LedgerEntryOf <$> db !! k.
Proof. unfold rootView. rewrite (lookup_kmap LedgerKeyOf). by rewrite lookup_fmap. Qed.

Lemma rootView_newest r k : rootView (rDatabase r) !! k = rootGetNewestVersion r k.
Proof.
  destruct k as [k| | |]; [apply rootView_lookup|..]; cbn; apply (lookup_kmap_None LedgerKeyOf); by intros k [=].
Qed.

Definition dbOffer (db : gmap LedgerKey LedgerEntry) (b s : Asset) : LedgerEntry -> OfferEntry -> Prop :=
  offerIn (rootView db) b s.

(** What the SQL query promises: rows of the pair, in the order of price and
    identifier, as many as asked for, and the others are worse. *)
Record TableAnswer (db : gmap LedgerKey LedgerEntry) (b s : Asset) (wt : option OfferDescriptor) (n : nat)
    (l : list LedgerEntry) : Prop := {
  ta_listed : Forall (fun e => exists o, dbOffer db b s e o /\ worse wt o) l;
  ta_sorted : StronglySorted betterEntry l;
  ta_length : (length l <= n)%nat;
  ta_complete : forall e o, dbOffer db b s e o -> worse wt o ->
    e ∈ l \/ (length l = n /\ Forall (fun e' => betterEntry e' e) l)
}.

Class OffersTableLaws `{OffersTable} := {
  loadBestOffers_spec : forall db b s wt n, wfView owner (rootView db) -> validWorse wt ->
    TableAnswer db b s wt n (loadBestOffers db b s wt n)
}.

Record CacheOK (db : gmap LedgerKey LedgerEntry) (b s : Asset) (c : BestOffersEntry) : Prop := {
  co_listed : Forall (fun e => exists o, dbOffer db b s e o) (bestOffers c);
  co_sorted : StronglySorted betterEntry (bestOffers c);
  co_complete : forall e o, dbOffer db b s e o ->
    e ∈ bestOffers c \/ (allLoaded c = false /\ Forall (fun e' => betterEntry e' e) (bestOffers c))
}.

Lemma wf_offerIn V b s e o : wfView owner V -> offerIn V b s e o -> le_data e = OFFER o /\ wfOffer owner o.
Proof.
  intros HV (He & Ho & _). split; [done|]. destruct (HV _ _ He) as [_ Hw]. cbn in Hw. by rewrite Ho in Hw.
Qed.

Section Root.
Context `{OffersTableLaws} (batch : nat) (Hbatch : (0 < batch)%nat).
Context (db : gmap LedgerKey LedgerEntry) (Hdb : wfView owner (rootView db)) (b s : Asset).

Lemma betterEntry_trans e1 e2 e3 o1 o2 o3 :
  dbOffer db b s e1 o1 -> dbOffer db b s e2 o2 -> dbOffer db b s e3 o3 ->
  betterEntry e1 e2 -> betterEntry e2 e3 -> betterEntry e1 e3.
Proof using Hdb.
  intros H1 H2 H3. destruct (wf_offerIn _ _ _ _ _ Hdb H1) as [E1 W1], (wf_offerIn _ _ _ _ _ Hdb H2) as [E2 W2],
    (wf_offerIn _ _ _ _ _ Hdb H3) as [E3 W3].
  rewrite !betterEntry_offers by done. apply better_trans; by apply (wfOffer_valid owner).
Qed.

(** Offers that are listed are pairwise different, so there are at most as many
    as rows. *)
Lemma sorted_length l :
  Forall (fun e => exists o, dbOffer db b s e o) l -> StronglySorted betterEntry l ->
  (length l <= size db)%nat.
Proof using Hdb.
  intros Hl Hs. assert (NoDup (LedgerEntryKey <$> l)) as Hnd.
  { induction Hs as [|e l Hs IH Hall]; cbn; [constructor|]. inversion_clear Hl as [|? ? [o Ho] Hl'].
    constructor; [|by apply IH]. rewrite list_elem_of_fmap. intros (e' & Ek & Hin).
    rewrite Forall_forall in Hall, Hl'. specialize (Hall e' Hin). destruct (Hl' e' Hin) as [o' Ho'].
    assert (e' = e) as ->. { destruct Ho as [H1 _], Ho' as [H2 _]. rewrite Ek in H1. rewrite H1 in H2. by injection H2. }
    destruct (wf_offerIn _ _ _ _ _ Hdb Ho) as [E1 W1]. rewrite (betterEntry_offers e e o o) in Hall by done.
    by apply better_irrefl in Hall; [|apply (wfOffer_valid owner)]. }
  rewrite <- (length_fmap LedgerEntryKey l). rewrite <- size_dom.
  rewrite <- (size_list_to_set (C:=gset LedgerKey)) by done. apply subseteq_size. intros k Hk.
  apply elem_of_list_to_set, list_elem_of_fmap in Hk as (e & -> & Hin).
  rewrite Forall_forall in Hl. destruct (Hl e Hin) as (o & Ho & _).
  rewrite rootView_lookup in Ho. apply elem_of_dom. destruct (db !! LedgerEntryKey e); [done|discriminate].
Qed.

Lemma app_sorted (l1 l2 : list LedgerEntry) :
  StronglySorted betterEntry l1 -> StronglySorted betterEntry l2 ->
  (forall e1 e2, e1 ∈ l1 -> e2 ∈ l2 -> betterEntry e1 e2) -> StronglySorted betterEntry (l1 ++ l2).
Proof.
  intros H1 H2 H12. induction H1 as [|e l1 H1 IH Hall]; [done|]. cbn. constructor.
  - apply IH. set_solver.
  - apply Forall_app. split; [done|]. apply Forall_forall. set_solver.
Qed.

(** In a sorted list every element is the last one or better than it. *)
Lemma sorted_last l back e :
  StronglySorted betterEntry l -> last l = Some back -> e ∈ l -> e = back \/ betterEntry e back.
Proof.
  intros Hs Hb Hin. apply last_Some in Hb as [l' ->]. apply elem_of_app in Hin as [Hin|Hin]; [right|left; set_solver].
  induction l' as [|x l' IH]; [by apply elem_of_nil in Hin|]. apply StronglySorted_inv in Hs as [Hs Hall].
  apply elem_of_cons in Hin as [->|Hin]; [|by apply IH].
  rewrite Forall_forall in Hall. apply Hall. set_solver.
Qed.

Lemma loadNext_spec c :
  CacheOK db b s c -> allLoaded c = false ->
  exists loaded c', loadNextBestOffersIntoCache batch c b s db = inr (loaded, c') /\
    CacheOK db b s c' /\ bestOffers c' = bestOffers c ++ loaded /\
    (allLoaded c' = false -> (0 < length loaded)%nat) /\
    StronglySorted betterEntry loaded /\ Forall (fun e => exists o, dbOffer db b s e o) loaded.
Proof using All.
  intros [Hl Hs Hc] Hnot. unfold loadNextBestOffersIntoCache. rewrite Hnot.
  set (n := Nat.min batch _). assert (0 < n)%nat as Hn by (unfold n, MIN_BEST_OFFERS_BATCH_SIZE; lia).
  set (wt := match last (bestOffers c) with
             | Some back => match le_data back with OFFER o => Some (descriptor o) | _ => None end
             | None => None end).
  assert (forall e o, dbOffer db b s e o -> e ∈ bestOffers c \/
    (worse wt o /\ Forall (fun e' => betterEntry e' e) (bestOffers c))) as Hrest.
  { intros e o He. destruct (Hc e o He) as [|[_ Hall]]; [by left|right]. split; [|done]. unfold wt.
    destruct (last (bestOffers c)) as [back|] eqn:El; [|done].
    assert (back ∈ bestOffers c) as Hin by (apply last_Some in El as [l' ->]; set_solver).
    rewrite Forall_forall in Hl, Hall. destruct (Hl back Hin) as [ob Hob].
    destruct (wf_offerIn _ _ _ _ _ Hdb Hob) as [Eb _], (wf_offerIn _ _ _ _ _ Hdb He) as [Ee _].
    rewrite Eb. cbn. specialize (Hall back Hin). by rewrite (betterEntry_offers back e ob o) in Hall. }
  assert (validWorse wt /\ noexcept
     (match last (bestOffers c) with
      | Some back => let* oe := dataOffer back in
          if oe_offerID oe =? INT64_MAX then exc_throw (Throw "maximum offerID encountered")
          else mret (loadBestOffers db b s (Some (descriptor oe)) n)
      | None => mret (loadBestOffers db b s None n)
      end) = inr (loadBestOffers db b s wt n)) as [Hwt Hload].
  { unfold wt. destruct (last (bestOffers c)) as [back|] eqn:El; [|done].
    assert (back ∈ bestOffers c) as Hin by (apply last_Some in El as [l' ->]; set_solver).
    rewrite Forall_forall in Hl. destruct (Hl back Hin) as [ob Hob].
    destruct (wf_offerIn _ _ _ _ _ Hdb Hob) as [Eb Wb]. unfold dataOffer. rewrite Eb. cbn.
    split; [by apply (wfOffer_valid owner)|]. destruct Wb as (_ & Hlt & _).
    by rewrite (proj2 (Z.eqb_neq _ _)) by lia. }
  rewrite Hload. cbn [bnd mbind exc_bind mret exc_ret].
  destruct (loadBestOffers_spec db b s wt n Hdb Hwt) as [Tl Ts Tn Tc].
  set (loaded := loadBestOffers db b s wt n) in *.
  assert (Forall (fun e => exists o, dbOffer db b s e o) loaded) as Tl'.
  { eapply Forall_impl; [exact Tl|]. intros e (o & Ho & _). by exists o. }
  assert (forall e1 e2, e1 ∈ bestOffers c -> e2 ∈ loaded -> betterEntry e1 e2) as Hcross.
  { intros e1 e2 H1 H2. rewrite Forall_forall in Tl. destruct (Tl e2 H2) as (o2 & Ho2 & Hw2).
    destruct (last (bestOffers c)) as [back|] eqn:El.
    2: { apply last_None in El. rewrite El in H1. by apply elem_of_nil in H1. }
    assert (back ∈ bestOffers c) as Hin by (apply last_Some in El as [l' ->]; set_solver).
    rewrite Forall_forall in Hl. destruct (Hl back Hin) as [ob Hob], (Hl e1 H1) as [o1 Ho1].
    destruct (wf_offerIn _ _ _ _ _ Hdb Hob) as [Eb _], (wf_offerIn _ _ _ _ _ Hdb Ho2) as [E2 _].
    unfold wt in Hw2. rewrite Eb in Hw2. cbn in Hw2.
    assert (betterEntry back e2) as Hb2 by (by rewrite (betterEntry_offers back e2 ob o2)).
    destruct (sorted_last _ _ _ Hs El H1) as [->|Hb1]; [done|].
    by apply (betterEntry_trans e1 back e2 o1 ob o2). }
  eexists loaded, _. split; [done|]. split_and!; try done; cbn.
  - constructor; cbn.
    + by apply Forall_app.
    + by apply app_sorted.
    + intros e o He. destruct (Hrest e o He) as [|[Hw Hall]]; [left; set_solver|].
      destruct (Tc e o He Hw) as [|[Hlen Hall']]; [left; set_solver|right]. split; [apply Nat.ltb_ge; lia|].
      by apply Forall_app.
  - intros E%Nat.ltb_ge. lia.
Qed.

(** With the offers loaded so far not worse than [wt], the loop finds the best of
    the others, or none; the fuel is enough since every batch adds rows. *)
Lemma loadUntilFound_spec wt : validWorse wt -> forall fuel c,
  CacheOK db b s c -> (forall e o, dbOffer db b s e o -> e ∈ bestOffers c -> ~ worse wt o) ->
  (size db < fuel + length (bestOffers c))%nat ->
  exists res c', loadUntilFound batch fuel c b s wt db = inr (res, c') /\ CacheOK db b s c' /\
    IsBest (rootView db) b s wt res.
Proof using All.
  intros Hwt. induction fuel as [|fuel IH]; intros c Hc Hnone Hfuel.
  { pose proof (sorted_length (bestOffers c) (co_listed _ _ _ _ Hc) (co_sorted _ _ _ _ Hc)). lia. }
  cbn. destruct (allLoaded c) eqn:Eall.
  { exists None, c. split_and!; try done. intros e o He. apply (Hnone e o He).
    destruct (co_complete _ _ _ _ Hc e o He) as [?|[? _]]; [done|congruence]. }
  destruct (loadNext_spec c Hc Eall) as (loaded & c' & Hload & Hc' & Hoff & Hpos & Hs & Hl).
  rewrite Hload. cbn [bnd mbind exc_bind].
  destruct (findIncludedOffer_spec (dbOffer db b s) wt loaded) as (res & Hres & Hbest); try done.
  { intros e o He. apply (wf_offerIn _ _ _ _ _ Hdb He). }
  rewrite Hres. cbn [bnd mbind exc_bind]. destruct res as [e|].
  - exists (Some e), c'. split_and!; try done. destruct Hbest as (o & [Ho Hin] & Hw & Hb).
    exists o. split_and!; try done. intros e' o' He' Hw'.
    destruct (co_complete _ _ _ _ Hc' e' o' He') as [Hin'|[_ Hall]].
    + rewrite Hoff in Hin'. apply elem_of_app in Hin' as [Hin'|Hin']; [by destruct (Hnone e' o' He' Hin')|].
      by apply Hb.
    + right. rewrite Hoff, Forall_app, !Forall_forall in Hall. destruct Hall as [_ Hall].
      specialize (Hall e Hin). destruct (wf_offerIn _ _ _ _ _ Hdb Ho) as [E _], (wf_offerIn _ _ _ _ _ Hdb He') as [E' _].
      by rewrite (betterEntry_offers e e' o o') in Hall.
  - destruct (allLoaded c') eqn:Eall'.
    + exists None, c'. split_and!; try done; [by destruct fuel; cbn; rewrite Eall'|].
      intros e o He Hw. destruct (co_complete _ _ _ _ Hc' e o He) as [Hin|[? _]]; [|congruence].
      rewrite Hoff in Hin. apply elem_of_app in Hin as [Hin|Hin]; [by apply (Hnone e o)|].
      by apply (Hbest e o).
    + apply IH; [done| |].
      * intros e o He Hin. rewrite Hoff in Hin. apply elem_of_app in Hin as [Hin|Hin]; [by apply (Hnone e o)|].
        by apply (Hbest e o).
      * rewrite Hoff, length_app. specialize (Hpos eq_refl). lia.
Qed.

End Root.

(** ** The root *)

Definition RootOK (r : RootImpl) : Prop :=
  wfView owner (rootView (rDatabase r)) /\
  forall b s c, mBestOffers r !! (b, s) = Some c -> CacheOK (rDatabase r) b s c.

(** A query that finds the best offer of [V] and at most extends the root's
    cache. *)
Definition answersBest (V : View) (b s : Asset) (wt : option OfferDescriptor)
    (m : M RootImpl (option LedgerEntry)) (r : RootImpl) : Prop :=
  exists res cache, m r = Ok res (set_bestOffers cache r) /\ RootOK (set_bestOffers cache r) /\
    IsBest V b s wt res.

(** ** The offers a transaction recorded *)

Definition recordedOffer (m : EntryMap) (b s : Asset) (e : LedgerEntry) (o : OfferEntry) : Prop :=
  m !! LedgerKeyOf (LedgerEntryKey e) ≫= ptrGet = Some (LedgerEntryOf e) /\ le_data e = OFFER o /\
  oe_buying o = b /\ oe_selling o = s.

Lemma bookUpperBound_spec w ob :
  validDescriptor w -> validBook ob -> bookSorted ob ->
  match bookUpperBound w ob with
  | Some x => x ∈ ob /\ better w (fst x) /\
      forall y, y ∈ ob -> better w (fst y) -> y = x \/ better (fst x) (fst y)
  | None => forall y, y ∈ ob -> ~ better w (fst y)
  end.
Proof.
  intros Hw Hv Hs. induction Hs as [|[d k] ob Hs IH Hall]; cbn; [intros y Hy; by apply elem_of_nil in Hy|].
  inversion_clear Hv as [|? ? Hd Hv']. specialize (IH Hv'). destruct (isBetterOffer w d) eqn:E.
  - split_and!; [set_solver|done|]. intros y Hy _. apply elem_of_cons in Hy as [->|Hy]; [by left|right].
    rewrite Forall_forall in Hall. by apply Hall.
  - assert (~ better w d) as Hn by (unfold better; congruence). destruct (bookUpperBound w ob) as [x|].
    + destruct IH as (H1 & H2 & H3). split_and!; [set_solver|done|]. intros y Hy Hb.
      apply elem_of_cons in Hy as [->|Hy]; [done|by apply H3].
    + intros y Hy. apply elem_of_cons in Hy as [->|Hy]; [done|by apply IH].
Qed.

Lemma selfBestOffer_spec P t b s wt :
  LevelInv owner P t -> mIsSealed t = false -> mActive t = ∅ -> validWorse wt ->
  exists res, selfBestOffer t b s wt = inr res /\ bestAmong (recordedOffer (mEntry t) b s) wt res.
Proof.
  intros Ht Hs Ha Hwt. pose proof (li_wf _ _ _ Ht) as Hwf. pose proof (li_book _ _ _ Ht Hs) as HB.
  destruct (HB b s) as [Hsort Hiff]. pose proof (BookOK_valid owner _ _ _ b s Hwf HB) as Hval.
  assert (forall e o, recordedOffer (mEntry t) b s e o <->
    (descriptor o, LedgerEntryKey e) ∈ bookOf (mMultiOrderBook t) b s /\
    mEntry t !! LedgerKeyOf (LedgerEntryKey e) ≫= ptrGet = Some (LedgerEntryOf e) /\ le_data e = OFFER o) as Hrec.
  { intros e o. rewrite Hiff. split.
    - intros (H1 & H2 & H3 & H4). split_and!; try done. exists e, o. split_and!; try done. rewrite Ha, lookup_empty.
      by intros [? ?].
    - intros ((le & o' & H1 & H2 & H3 & H4 & H5 & _) & H6 & H7). rewrite H1 in H6. injection H6 as ->.
      rewrite H2 in H7. injection H7 as ->. done. }
  assert (forall x, x ∈ bookOf (mMultiOrderBook t) b s -> exists e o,
    mEntry t !! LedgerKeyOf (snd x) ≫= ptrGet = Some (LedgerEntryOf e) /\ recordedOffer (mEntry t) b s e o /\
    x = (descriptor o, LedgerEntryKey e)) as Hin.
  { intros [d k] Hx. pose proof (proj1 (Hiff d k) Hx) as (le & o & H1 & H2 & <- & H4 & H5 & _).
    destruct (wfMap_offer owner _ _ _ _ Hwf H1 H2) as (_ & _ & Hk). exists le, o. cbn. split; [done|].
    split; [|by rewrite Hk]. split_and!; try done. by rewrite Hk. }
  unfold selfBestOffer, bookOf in *. destruct (findOrderBook b s (mMultiOrderBook t)) as [ob|]; cbn in *.
  2: { exists None. split; [done|]. intros e o He%Hrec. destruct He as [He _]. by apply elem_of_nil in He. }
  set (found := match wt with Some w => bookUpperBound w ob | None => head ob end).
  assert (match found with
    | Some x => x ∈ ob /\ match wt with Some w => better w (fst x) | None => True end /\
        forall y, y ∈ ob -> match wt with Some w => better w (fst y) | None => True end ->
          y = x \/ better (fst x) (fst y)
    | None => forall y, y ∈ ob -> ~ match wt with Some w => better w (fst y) | None => True end
    end) as Hf.
  { unfold found. destruct wt as [w|]; [by apply bookUpperBound_spec|].
    destruct ob as [|x ob]; cbn; [intros y Hy; by apply elem_of_nil in Hy|].
    apply StronglySorted_inv in Hsort as [_ Hall]. split_and!; [set_solver|done|].
    intros y Hy _. apply elem_of_cons in Hy as [->|Hy]; [by left|right]. rewrite Forall_forall in Hall. by apply Hall. }
  destruct found as [[d k]|].
  - destruct Hf as (Hx & Hw & Hb). destruct (Hin _ Hx) as (e & o & He & Hro & [= -> ->]). cbn in He. rewrite He.
    exists (Some e). split; [done|]. exists o. split_and!; [done|by destruct wt|].
    intros e' o' Hro' Hw'. pose proof (proj1 (Hrec e' o') Hro') as (Hin' & Hm' & _).
    destruct (Hb _ Hin') as [Ex|]; [by destruct wt|left|by right].
    apply (f_equal snd) in Ex. cbn in Ex. rewrite Ex, He in Hm'. by injection Hm'.
  - exists None. split; [done|]. intros e o He Hw. apply Hrec in He as [He _].
    apply (Hf _ He). by destruct wt.
Qed.

(** ** Combining a transaction with its parent *)

Section Loop.
Context (P : View) (t : LedgerTxnImpl) (b s : Asset) (wt : option OfferDescriptor).
Context (db : gmap LedgerKey LedgerEntry).
Context (parentNext : OfferDescriptor -> M RootImpl (option LedgerEntry)) (selfBest : option LedgerEntry).
Hypotheses (HP : wfView owner P) (Ht : LevelInv owner P t) (Hwt : validWorse wt)
  (Hnext : forall d r, validDescriptor d -> RootOK r -> rDatabase r = db ->
     answersBest P b s (Some d) (parentNext d) r)
  (Hself : bestAmong (recordedOffer (mEntry t) b s) wt selfBest).

Let V := overlay (mEntry t) P.
Let keyOf (e : LedgerEntry) := LedgerKeyOf (LedgerEntryKey e).

Lemma offer_of_view e o :
  offerIn V b s e o <->
  recordedOffer (mEntry t) b s e o \/ (offerIn P b s e o /\ mEntry t !! keyOf e = None).
Proof using.
  unfold offerIn, recordedOffer, V, keyOf. rewrite overlay_lookup.
  destruct (mEntry t !! _) as [p|]; cbn.
  - split; [tauto|]. intros [?|[_ ?]]; [done|discriminate].
  - split; [tauto|]. intros [[? _]|[? _]]; [discriminate|done].
Qed.

Lemma recorded_wf e o : recordedOffer (mEntry t) b s e o -> wfOffer owner o.
Proof using Ht.
  intros (H1 & H2 & _). by apply (wfMap_offer owner _ _ _ _ (li_wf _ _ _ Ht) H1 H2).
Qed.

(** An unrecorded offer of the parent and a recorded one have different
    identifiers. *)
Lemma distinct_ids e o e' o' :
  recordedOffer (mEntry t) b s e o -> offerIn P b s e' o' -> mEntry t !! keyOf e' = None ->
  oe_offerID o <> oe_offerID o'.
Proof using HP Ht.
  intros (H1 & H2 & _) (H3 & H4 & _) Hn Hid.
  destruct (wfMap_offer owner _ _ _ _ (li_wf _ _ _ Ht) H1 H2) as (_ & Hk & _).
  destruct (HP _ _ H3) as [_ Hw]. cbn in Hw. rewrite H4 in Hw. destruct Hw as (_ & _ & Hseller).
  assert (LedgerEntryKey e' = LedgerEntryKey e) as Ek.
  { rewrite Hk. unfold LedgerEntryKey. rewrite H4. unfold offerKeyOf. by rewrite Hid, Hseller. }
  unfold keyOf in Hn. rewrite Ek in Hn. rewrite Hn in H1. done.
Qed.

(** The candidate of the parent: no unrecorded offer comes before it. *)
Definition candidate (parentBest : option LedgerEntry) : Prop :=
  match parentBest with
  | Some p => exists op, offerIn P b s p op /\ worse wt op /\
      forall e o, offerIn P b s e o -> worse wt o -> mEntry t !! keyOf e = None ->
        e = p \/ better (descriptor op) (descriptor o)
  | None => forall e o, offerIn P b s e o -> worse wt o -> mEntry t !! keyOf e <> None
  end.

(** Without a better candidate, the transaction's own best offer is the best. *)
Lemma self_is_best parentBest :
  candidate parentBest ->
  (forall p, parentBest = Some p -> exists sb op os, selfBest = Some sb /\ le_data p = OFFER op /\
     le_data sb = OFFER os /\ ~ better (descriptor op) (descriptor os)) ->
  IsBest V b s wt selfBest.
Proof using HP Ht Hself.
  intros Hc Hnb. unfold IsBest.
  assert (forall e o, offerIn P b s e o -> worse wt o -> mEntry t !! keyOf e = None ->
    exists sb os, selfBest = Some sb /\ recordedOffer (mEntry t) b s sb os /\ better (descriptor os) (descriptor o)) as Hun.
  { intros e o He Hw Hn. destruct parentBest as [p|]; [|by destruct (Hc e o He Hw)].
    destruct Hc as (op & Hp & Hwp & Hc). destruct (Hnb p eq_refl) as (sb & op' & os & -> & Ep & Es & Hno).
    destruct (wf_offerIn _ _ _ _ _ HP Hp) as [Ep' Wp]. rewrite Ep in Ep'. injection Ep' as ->.
    destruct Hself as (os' & Hs & _). pose proof Hs as (_ & Es' & _). rewrite Es in Es'. injection Es' as <-.
    pose proof (recorded_wf _ _ Hs) as Ws. destruct (wf_offerIn _ _ _ _ _ HP He) as [Ee We].
    exists sb, os. split_and!; try done. destruct (Hc e o He Hw Hn) as [->|Hb].
    - rewrite Ep in Ee. injection Ee as <-.
      destruct (better_total (descriptor os) (descriptor op)) as [?|?]; try done;
        [by apply (wfOffer_valid owner)..|]. by apply (distinct_ids sb os p op).
    - apply (not_better_trans (descriptor op)); try done; by apply (wfOffer_valid owner). }
  destruct selfBest as [sb|].
  - destruct Hself as (os & Hs & Hws & Hb). exists os. split_and!; try done; [apply offer_of_view; by left|].
    intros e o He Hw. apply offer_of_view in He as [He|[He Hn]]; [by apply Hb|right].
    destruct (Hun e o He Hw Hn) as (? & os' & [= <-] & Hs' & Hbb). destruct Hs as (_ & E1 & _), Hs' as (_ & E2 & _).
    rewrite E1 in E2. by injection E2 as <-.
  - intros e o He Hw. apply offer_of_view in He as [He|[He Hn]]; [by apply (Hself e o)|].
    by destruct (Hun e o He Hw Hn) as (? & ? & ? & _).
Qed.

Lemma bestOfferLoop_spec : forall fuel (todo : gset InternalLedgerKey) parentBest r,
  RootOK r -> rDatabase r = db -> candidate parentBest ->
  (forall p op e o, parentBest = Some p -> offerIn P b s p op -> offerIn P b s e o ->
     is_Some (mEntry t !! keyOf e) -> (e = p \/ better (descriptor op) (descriptor o)) -> keyOf e ∈ todo) ->
  (size todo <= fuel)%nat ->
  answersBest V b s wt (bestOfferLoop fuel t parentNext selfBest parentBest) r.
Proof using All.
  induction fuel as [fuel IH] using lt_wf_ind. intros todo parentBest r Hr Hdb Hc Htodo Hfuel.
  assert (forall res, IsBest V b s wt res -> forall m, m r = Ok res r -> answersBest V b s wt m r) as Hret.
  { intros res Hb m Hm. exists res, (mBestOffers r). rewrite Hm. by destruct r. }
  destruct parentBest as [p|].
  2: { destruct fuel; apply (Hret selfBest); try done; by apply (self_is_best None). }
  pose proof Hc as (op & Hp & Hwp & Hbest). destruct (wf_offerIn _ _ _ _ _ HP Hp) as [Ep Wp].
  (* is the candidate better than the own best? *)
  assert (exists bt : bool,
    (match selfBest with None => mret true | Some sb => lift (isBetterOfferEntry p sb) end : M RootImpl bool) r = Ok bt r /\
    (bt = true -> forall e o, recordedOffer (mEntry t) b s e o -> worse wt o -> better (descriptor op) (descriptor o)) /\
    (bt = false -> IsBest V b s wt selfBest)) as (bt & Hbt & Hyes & Hno).
  { pose proof (self_is_best (Some p) Hc) as Hsib. pose proof recorded_wf as Hrw. clear IH Hret.
    destruct selfBest as [sb|].
    - pose proof Hself as (os & Hs & Hws & Hb). pose proof Hs as (_ & Es & Hbs & Hss).
      exists (isBetterOffer (descriptor op) (descriptor os)). unfold lift, isBetterOfferEntry, dataOffer.
      rewrite Ep, Es. cbn. destruct Hp as (_ & _ & Hbp & Hsp).
      rewrite bool_decide_eq_true_2 by congruence. cbn. rewrite bool_decide_eq_true_2 by congruence. cbn.
      split_and!; [done| |].
      + intros Hbt e o He Hw. pose proof (Hrw _ _ He). pose proof (Hrw _ _ Hs).
        destruct (Hb e o He Hw) as [->|Hb'].
        * destruct He as (_ & E & _). rewrite Es in E. by injection E as <-.
        * apply (better_trans _ (descriptor os)); try done; by apply (wfOffer_valid owner).
      + intros Hbt. apply Hsib. intros p' [= <-]. exists sb, op, os.
        split_and!; try done. unfold better. congruence.
    - exists true. split_and!; try done. intros _ e o He Hw. by destruct (Hself e o He Hw). }
  unfold answersBest. destruct fuel as [|fuel]; cbn [bestOfferLoop]; unfold bnd, mbind, M_bind; rewrite Hbt;
    (destruct bt; cbn [negb]; [|apply (Hret selfBest); auto]).
  all: destruct (mEntry t !! LedgerKeyOf (LedgerEntryKey p)) as [q|] eqn:Eq.
  2, 4: apply (Hret (Some p)); [|done]; exists op; split_and!; [apply offer_of_view; by right|done|];
    intros e o He Hw; apply offer_of_view in He as [He|[He Hn]]; [right; by apply (Hyes eq_refl e o)|by apply Hbest].
  - assert (keyOf p ∈ todo) as Hin by (apply (Htodo p op p op); auto; by exists q).
    assert (size todo = 0)%nat as E0 by lia. apply size_empty_inv in E0. set_solver.
  - unfold lift, dataOffer. rewrite Ep. cbn.
    destruct (Hnext (descriptor op) r ltac:(by apply (wfOffer_valid owner)) Hr Hdb) as (res & cache & Hm & Hr' & Hres).
    rewrite Hm. assert (keyOf p ∈ todo) as Hin by (apply (Htodo p op p op); auto; by exists q).
    destruct (IH fuel ltac:(lia) (todo ∖ {[keyOf p]}) res (set_bestOffers cache r)) as (res' & cache' & Hm' & Hr2 & Hb');
      try done.
    + destruct res as [p'|]; cbn.
      * destruct Hres as (op' & Hp' & Hw' & Hall). exists op'. split_and!; try done.
        { destruct wt as [w|]; [|done]. destruct (wf_offerIn _ _ _ _ _ HP Hp') as [_ W'].
          apply (better_trans w (descriptor op)); try done; by apply (wfOffer_valid owner). }
        intros e o He Hw Hn. destruct (Hbest e o He Hw Hn) as [->|Hbb]; [unfold keyOf in Hn; congruence|].
        by apply Hall.
      * intros e o He Hw Hn. destruct (Hbest e o He Hw Hn) as [->|Hbb]; [unfold keyOf in Hn; congruence|].
        by apply (Hres e o).
    + intros p' op' e o -> Hp' He Hrec Hcase. apply elem_of_difference.
      destruct Hres as (op2 & Hp2 & Hw2 & _). destruct (wf_offerIn _ _ _ _ _ HP Hp') as [E1 W1], (wf_offerIn _ _ _ _ _ HP Hp2) as [E2 _].
      rewrite E1 in E2. injection E2 as <-. destruct (wf_offerIn _ _ _ _ _ HP He) as [E3 W3].
      assert (better (descriptor op) (descriptor o)) as Hbo.
      { destruct Hcase as [->|Hcase]; [rewrite E1 in E3; by injection E3 as <-|].
        apply (better_trans _ (descriptor op')); try done; by apply (wfOffer_valid owner). }
      split; [apply (Htodo p op e o); auto|]. intros Hkey%elem_of_singleton.
      assert (e = p) as ->.
      { destruct He as [H1 _], Hp as [H2 _]. unfold keyOf in Hkey. rewrite Hkey in H1. rewrite H1 in H2. by injection H2. }
      rewrite Ep in E3. injection E3 as <-. by apply better_irrefl in Hbo; [|apply (wfOffer_valid owner)].
    + rewrite size_difference by set_solver. rewrite size_singleton. lia.
    + exists res', cache'. split_and!; try done; by destruct r.
Qed.

End Loop.

Section Stack.
Context `{OffersTableLaws} (batch : nat) (Hbatch : (0 < batch)%nat).

Lemma rootGetBestOffer_spec b s wt r :
  RootOK r -> validWorse wt -> answersBest (rootView (rDatabase r)) b s wt (rootGetBestOffer batch b s wt) r.
Proof using All.
  intros [Hdb Hcache] Hwt. unfold answersBest, rootGetBestOffer.
  assert (CacheOK (rDatabase r) b s (getFromBestOffers b s r)) as Hc.
  { unfold getFromBestOffers. destruct (mBestOffers r !! (b, s)) eqn:E; [by apply Hcache|]. cbn.
    constructor; cbn; [constructor..|]. intros. right. split; [done|constructor]. }
  set (c := getFromBestOffers b s r) in *.
  assert (exists res c', (let* found := findIncludedOffer (bestOffers c) wt in
    match found with
    | Some e => mret (Some e, c)
    | None => loadUntilFound batch (S (size (rDatabase r))) c b s wt (rDatabase r)
    end) = inr (res, c') /\ CacheOK (rDatabase r) b s c' /\ IsBest (rootView (rDatabase r)) b s wt res)
    as (res & c' & -> & Hc' & Hbest).
  { destruct (findIncludedOffer_spec (dbOffer (rDatabase r) b s) wt (bestOffers c)) as (res & Hres & Hb); try done.
    { intros e o He. apply (wf_offerIn _ _ _ _ _ Hdb He). } { apply Hc. } { apply Hc. }
    rewrite Hres. cbn [bnd mbind exc_bind]. destruct res as [e|].
    - exists (Some e), c. split_and!; try done. destruct Hb as (o & [Ho Hin] & Hw & Hb). exists o. split_and!; try done.
      intros e' o' He' Hw'. destruct (co_complete _ _ _ _ Hc e' o' He') as [Hin'|[_ Hall]]; [by apply Hb|right].
      rewrite Forall_forall in Hall. specialize (Hall e Hin).
      destruct (wf_offerIn _ _ _ _ _ Hdb Ho) as [E _], (wf_offerIn _ _ _ _ _ Hdb He') as [E' _].
      by rewrite (betterEntry_offers e e' o o') in Hall.
    - apply loadUntilFound_spec; try done; [|lia]. intros e o He Hin. by apply (Hb e o). }
  exists res, (<[(b, s) := c']> (mBestOffers r)). split_and!; try done. split; [done|].
  intros b' s' c2. cbn. rewrite lookup_insert. case_decide as D; [injection D as <- <-; by intros [= <-]|].
  apply Hcache.
Qed.

(** The entries that exist as of the innermost transaction of a stack. *)
Fixpoint viewOf (txns : list LedgerTxnImpl) (db : gmap LedgerKey LedgerEntry) : View :=
  match txns with
  | [] => rootView db
  | t :: parents => overlay (mEntry t) (viewOf parents db)
  end.

Lemma viewOf_lookup txns r k : viewOf txns (rDatabase r) !! k = getNewestVersion txns r k.
Proof.
  induction txns as [|t parents IH]; cbn; [apply rootView_newest|].
  rewrite overlay_lookup. by destruct (mEntry t !! k).
Qed.

(** Every transaction satisfies its invariant over its parent's view. *)
Fixpoint Chain (txns : list LedgerTxnImpl) (db : gmap LedgerKey LedgerEntry) : Prop :=
  match txns with
  | [] => True
  | t :: parents => LevelInv owner (viewOf parents db) t /\ Chain parents db
  end.

Lemma overlay_wf m P : wfView owner P -> wfMap owner m -> wfView owner (overlay m P).
Proof.
  intros HP Hm k e. rewrite overlay_lookup. specialize (HP k e). specialize (Hm k e).
  by destruct (m !! k).
Qed.

Lemma viewOf_wf txns db : wfView owner (rootView db) -> Chain txns db -> wfView owner (viewOf txns db).
Proof.
  intros Hdb. induction txns as [|t parents IH]; cbn; [done|]. intros [Ht Hc].
  apply overlay_wf; [by apply IH|apply Ht].
Qed.

Definition noHandles (t : LedgerTxnImpl) : Prop := mActive t = ∅ /\ mIsSealed t = false.

Lemma getBestOffer_spec txns : forall b s wt r,
  Chain txns (rDatabase r) -> Forall noHandles txns -> RootOK r -> validWorse wt ->
  answersBest (viewOf txns (rDatabase r)) b s wt (getBestOffer batch txns b s wt) r.
Proof using All.
  induction txns as [|t parents IH]; intros b s wt r Hc Hq Hr Hwt; cbn [getBestOffer viewOf].
  { by apply rootGetBestOffer_spec. }
  destruct Hc as [Ht Hc]. inversion_clear Hq as [|? ? [Ha Hs] Hq']. rewrite decide_True by done.
  set (P := viewOf parents (rDatabase r)) in *.
  assert (wfView owner P) as HP by (apply viewOf_wf; [apply Hr|done]).
  destruct (selfBestOffer_spec P t b s wt Ht Hs Ha Hwt) as (selfBest & Hself & Hsb).
  assert (exists parentBest cache,
    (match wt with
     | Some w => getBestOffer batch parents b s (Some w)
     | None => match mWorstBestOffer t !! (b, s) with
               | Some (Some w) => getBestOffer batch parents b s (Some w)
               | Some None => mret None
               | None => getBestOffer batch parents b s None
               end
     end) r = Ok parentBest (set_bestOffers cache r) /\ RootOK (set_bestOffers cache r) /\
    candidate P t b s wt parentBest) as (parentBest & cache & Hpb & Hr' & Hcand).
  { assert (forall wt', validWorse wt' -> (forall e o, offerIn P b s e o -> worse wt' o -> worse wt o) ->
      (forall e o, offerIn P b s e o -> worse wt o -> mEntry t !! LedgerKeyOf (LedgerEntryKey e) = None -> worse wt' o) ->
      exists parentBest cache, getBestOffer batch parents b s wt' r = Ok parentBest (set_bestOffers cache r) /\
        RootOK (set_bestOffers cache r) /\ candidate P t b s wt parentBest) as Hask.
    { intros wt' Hwt' Hsub Hun. destruct (IH b s wt' r Hc Hq' Hr Hwt') as (res & cache & Hm & Hr' & Hres).
      exists res, cache. split_and!; try done. destruct res as [p|]; cbn.
      - destruct Hres as (op & Hp & Hwp & Hall). exists op. split_and!; try done; [by apply (Hsub p)|].
        intros e o He Hw Hn. apply Hall; [done|]. by apply (Hun e).
      - intros e o He Hw Hn. apply (Hres e o He). by apply (Hun e). }
    destruct wt as [w|]; [by apply Hask|].
    destruct (mWorstBestOffer t !! (b, s)) as [[w|]|] eqn:Ew; [| |by apply Hask].
    - destruct (li_worst _ _ _ Ht b s _ Ew) as [Hv Hrec]. apply Hask; [by apply Hv|done|].
      intros e o (He & Ho & Hb & Hsl) _ Hn. cbn. destruct (decide (better w (descriptor o))) as [|Hnb]; [done|].
      destruct (Hrec (LedgerEntryKey e) e o) as [q Hq2]; try done. congruence.
    - destruct (li_worst _ _ _ Ht b s _ Ew) as [_ Hrec]. exists None, (mBestOffers r).
      split_and!; [by destruct r|by destruct r|].
      intros e o (He & Ho & Hb & Hsl) _ Hn. destruct (Hrec (LedgerEntryKey e) e o) as [q Hq2]; try done. congruence. }
  unfold answersBest, bnd, mbind, M_bind. unfold lift at 1. rewrite Hself, Hpb.
  destruct (bestOfferLoop_spec P t b s wt (rDatabase r) (fun d => getBestOffer batch parents b s (Some d)) selfBest HP Ht Hwt)
    with (fuel := size (mEntry t)) (todo := dom (mEntry t)) (parentBest := parentBest) (r := set_bestOffers cache r)
    as (res & cache' & Hm & Hr2 & Hbest); try done.
  - intros d r2 Hd Hr2 E. unfold P. rewrite <- E. apply IH; try done. by rewrite E.
  - intros p op e o _ _ _ Hin _. by apply elem_of_dom.
  - by rewrite size_dom.
  - exists res, cache'. rewrite Hm. split_and!; try done; by destruct r.
Qed.

End Stack.

End Owner.
