(* ===== verification/SqlOffers.v ===== *)
(** * The offers table

    The two queries of [LedgerTxnRoot::Impl::loadBestOffers]
    (ledger/LedgerTxnOfferSQL.cpp): a selection of the rows of a pair of assets,
    [ORDER BY price, offerid] and [LIMIT n], and, for the rows worse than a given
    offer, the union of the rows of a higher price and of the rows of the same
    price and a higher identifier, both limited.  The [price] column is the double
    [BulkUpsertOffersOperation] stores.  The queries answer as [OffersTableLaws]
    states. *)

From stdpp Require Import base list gmap strings.
From Stdlib Require Import Floats.SpecFloat Sorting.Sorted.
From S2P Require Import Prelude Exchange Entries OfferOrder LedgerTxn LedgerTxnInv BestOffer.

Local Open Scope Z_scope.

(** ** The queries *)

Definition OfferRow : Type := LedgerEntry * OfferEntry.
Definition col_price (x : OfferRow) : spec_float := priceAsDouble (oe_price (snd x)).
Definition col_offerid (x : OfferRow) : Z := oe_offerID (snd x).

Definition asOfferRow (kv : LedgerKey * LedgerEntry) : option OfferRow :=
  match le_data (snd kv) with OFFER o => Some (snd kv, o) | _ => None end.
Definition offers (db : gmap LedgerKey LedgerEntry) : list OfferRow := omap asOfferRow (map_to_list db).

(** [ORDER BY price, offerid] *)
Definition rowBefore (x y : OfferRow) : bool :=
  SFltb (col_price x) (col_price y) || (SFeqb (col_price x) (col_price y) && (col_offerid x <=? col_offerid y)).

Fixpoint insertRow (x : OfferRow) (l : list OfferRow) : list OfferRow :=
  match l with
  | [] => [x]
  | y :: rest => if rowBefore x y then x :: l else y :: insertRow x rest
  end.
Definition orderBy (l : list OfferRow) : list OfferRow := foldr insertRow [] l.

Definition ofPair (buying selling : Asset) (x : OfferRow) : Prop :=
  oe_selling (snd x) = selling /\ oe_buying (snd x) = buying.

Definition selectBestOffers (db : gmap LedgerKey LedgerEntry) (buying selling : Asset) (numOffers : nat) : list OfferRow :=
  take numOffers (orderBy (filter (ofPair buying selling) (offers db))).

Definition selectWorseOffers (db : gmap LedgerKey LedgerEntry) (buying selling : Asset)
    (worseThan : OfferDescriptor) (numOffers : nat) : list OfferRow :=
  let worseThanPrice := priceAsDouble (od_price worseThan) in
  let worseThanOfferID := od_offerID worseThan + 1 in
  let r1 := take numOffers (orderBy (filter (fun x => ofPair buying selling x /\ SFltb worseThanPrice (col_price x) = true) (offers db))) in
  let r2 := take numOffers (orderBy (filter (fun x => ofPair buying selling x /\ SFeqb (col_price x) worseThanPrice = true /\
                                                      worseThanOfferID <= col_offerid x) (offers db))) in
  take numOffers (orderBy (r1 ++ r2)).

Definition sqlLoadBestOffers (db : gmap LedgerKey LedgerEntry) (buying selling : Asset)
    (worseThan : option OfferDescriptor) (numOffers : nat) : list LedgerEntry :=
  fst <$> match worseThan with
          | None => selectBestOffers db buying selling numOffers
          | Some w => selectWorseOffers db buying selling w numOffers
          end.

#[export] Instance sqlOffers : OffersTable := {| loadBestOffers := sqlLoadBestOffers |}.

(** ** Ordering and limiting *)

Lemma forall_or_exists (P Q : OfferRow -> Prop) (l : list OfferRow) :
  (forall y, y ∈ l -> P y \/ Q y) -> (forall y, y ∈ l -> P y) \/ exists y, y ∈ l /\ Q y.
Proof.
  induction l as [|x l IH]; intros H; [left; set_solver|].
  destruct (H x) as [Hx|Hx]; [set_solver| |right; exists x; set_solver].
  destruct IH as [Hl|(y & Hy & HQ)]; [set_solver|left; set_solver|right; exists y; set_solver].
Qed.

Section Order.
Context (D : OfferRow -> Prop) (R : OfferRow -> OfferRow -> Prop).
Hypotheses (R_irrefl : forall x, D x -> ~ R x x)
  (R_trans : forall x y z, D x -> D y -> D z -> R x y -> R y z -> R x z)
  (R_total : forall x y, D x -> D y -> x <> y -> R x y \/ R y x)
  (R_before : forall x y, D x -> D y -> x <> y -> (rowBefore x y = true <-> R x y)).

Lemma insertRow_perm x l : insertRow x l ≡ₚ x :: l.
Proof using.
  induction l as [|y l IH]; cbn; [done|]. destruct (rowBefore x y); [done|]. rewrite IH. constructor.
Qed.

Lemma orderBy_perm l : orderBy l ≡ₚ l.
Proof using. induction l as [|x l IH]; cbn; [done|]. by rewrite insertRow_perm, IH. Qed.

Lemma insertRow_sorted x l :
  D x -> (forall y, y ∈ l -> D y) -> x ∉ l -> StronglySorted R l -> StronglySorted R (insertRow x l).
Proof using All.
  intros Hx Hl Hni Hs. induction Hs as [|y l Hs IH Hall]; cbn; [repeat constructor|].
  assert (D y) as Hy by (apply Hl; set_solver). assert (x <> y) as Hne by set_solver.
  destruct (rowBefore x y) eqn:E.
  - apply R_before in E; [|done..]. constructor; [by constructor|]. constructor; [done|].
    rewrite Forall_forall in Hall |- *. intros z Hz. apply (R_trans x y z); auto. apply Hl. set_solver.
  - constructor; [apply IH; set_solver|]. rewrite Forall_forall in Hall |- *. intros z.
    rewrite insertRow_perm, elem_of_cons. intros [->|Hz]; [|auto].
    destruct (R_total x y Hx Hy Hne) as [HR|]; [|done]. apply R_before in HR; [congruence|done..].
Qed.

Lemma orderBy_sorted l : (forall x, x ∈ l -> D x) -> NoDup l -> StronglySorted R (orderBy l).
Proof using All.
  intros Hl. induction 1 as [|x l Hni Hnd IH]; cbn; [constructor|].
  apply insertRow_sorted; [set_solver|intros y; rewrite orderBy_perm; set_solver|by rewrite orderBy_perm|].
  apply IH. set_solver.
Qed.

(** The first [n] of the rows that satisfy [Q]. *)
Record Answer (Q : OfferRow -> Prop) (n : nat) (l : list OfferRow) : Prop := {
  an_listed : forall x, x ∈ l -> Q x;
  an_sorted : StronglySorted R l;
  an_length : (length l <= n)%nat;
  an_complete : forall x, Q x -> x ∈ l \/ (length l = n /\ forall y, y ∈ l -> R y x)
}.

Lemma take_sorted n l : StronglySorted R l -> StronglySorted R (take n l).
Proof using.
  intros Hs. revert n. induction Hs as [|x l Hs IH Hall]; intros [|n]; cbn; try constructor; [apply IH|].
  by apply Forall_take.
Qed.

Lemma limit_answer n l :
  (forall x, x ∈ l -> D x) -> NoDup l -> Answer (fun x => x ∈ l) n (take n (orderBy l)).
Proof using All.
  intros Hl Hnd. pose proof (orderBy_sorted l Hl Hnd) as Hs. constructor.
  - intros x Hx. rewrite <- orderBy_perm. rewrite <- (take_drop n). set_solver.
  - by apply take_sorted.
  - rewrite length_take. lia.
  - intros x Hx. rewrite <- orderBy_perm, <- (take_drop n), elem_of_app in Hx. destruct Hx as [|Hx]; [by left|right].
    rewrite <- (take_drop n) in Hs. split.
    + rewrite length_take. assert (n < length (orderBy l))%nat; [|lia].
      destruct (Nat.le_gt_cases (length (orderBy l)) n); [|done]. rewrite drop_ge in Hx by done. set_solver.
    + intros y Hy. revert Hs Hy. generalize (take n (orderBy l)). intros l1. induction l1 as [|z l1 IH]; [set_solver|].
      cbn. intros Hs. inversion_clear Hs as [|? ? Hs' Hall]. rewrite elem_of_cons. intros [->|Hy]; [|by apply IH].
      rewrite Forall_forall in Hall. apply Hall. set_solver.
Qed.

Lemma sorted_nodup l : (forall x, x ∈ l -> D x) -> StronglySorted R l -> NoDup l.
Proof using All.
  intros Hl. induction 1 as [|x l Hs IH Hall]; constructor; [|apply IH; set_solver].
  intros Hx. rewrite Forall_forall in Hall. apply (R_irrefl x); [set_solver|auto].
Qed.

Lemma answer_ext (Q Q' : OfferRow -> Prop) n l : (forall x, Q x <-> Q' x) -> Answer Q n l -> Answer Q' n l.
Proof using. intros HQ [H1 H2 H3 H4]. constructor; [intros x Hx; by apply HQ, H1|done|done|intros x Hx; by apply H4, HQ]. Qed.

Section Union.
Context (Q1 Q2 : OfferRow -> Prop) (n : nat) (r1 r2 : list OfferRow).
Hypotheses (H1 : Answer Q1 n r1) (H2 : Answer Q2 n r2) (HD1 : forall x, Q1 x -> D x) (HD2 : forall x, Q2 x -> D x)
  (Hdisj : forall x, Q1 x -> ~ Q2 x).

Lemma union_nodup : NoDup (r1 ++ r2).
Proof using All.
  destruct H1 as [L1 S1 _ _], H2 as [L2 S2 _ _]. apply NoDup_app. split_and!.
  - apply sorted_nodup; auto.
  - intros x Hx Hx'. apply (Hdisj x); auto.
  - apply sorted_nodup; auto.
Qed.

Lemma union_in x : x ∈ r1 ++ r2 -> D x.
Proof using All. destruct H1 as [L1 _ _ _], H2 as [L2 _ _ _]. rewrite elem_of_app. intros [?|?]; auto. Qed.

(** A row left out of a full part is left out of the union. *)
Lemma union_left_out (r : list OfferRow) x :
  r ⊆ r1 ++ r2 -> NoDup r -> length r = n -> (forall y, y ∈ r -> R y x) -> D x ->
  length (take n (orderBy (r1 ++ r2))) = n /\ forall y, y ∈ take n (orderBy (r1 ++ r2)) -> R y x.
Proof using All.
  intros Hr Hnd Hlen Hx HDx. destruct (limit_answer n _ union_in union_nodup) as [LL SS LE CC].
  set (res := take n (orderBy (r1 ++ r2))) in *.
  assert (forall y, y ∈ res -> D y) as HDres by (intros y Hy; by apply union_in, LL).
  destruct (forall_or_exists (fun y => y ∈ res) (fun y => length res = n /\ forall z, z ∈ res -> R z y) r)
    as [Hsub|(y & Hy & Hl & Hall)]; [intros y Hy; by apply CC, Hr|..].
  - assert (r ⊆+ res) as Hsm by (by apply NoDup_submseteq).
    assert (length res = n) as Hlr by (apply submseteq_length in Hsm; lia).
    split; [done|]. intros y Hy. apply Hx. apply submseteq_length_Permutation in Hsm; [by rewrite Hsm|lia].
  - split; [done|]. intros z Hz.
    apply (R_trans z y x); auto. apply union_in. by apply Hr.
Qed.

Lemma union_answer : Answer (fun x => Q1 x \/ Q2 x) n (take n (orderBy (r1 ++ r2))).
Proof using All.
  destruct (limit_answer n _ union_in union_nodup) as [LL SS LE CC]. pose proof union_left_out as Hout.
  destruct H1 as [L1 S1 N1 C1], H2 as [L2 S2 N2 C2]. constructor; [|done|done|].
  - intros x Hx. apply LL, elem_of_app in Hx as [?|?]; auto.
  - intros x [Hx|Hx].
    + destruct (C1 x Hx) as [Hin|[Hl Hall]]; [apply CC, elem_of_app; by left|right].
      apply (Hout r1); auto; [set_solver|apply sorted_nodup; auto].
    + destruct (C2 x Hx) as [Hin|[Hl Hall]]; [apply CC, elem_of_app; by right|right].
      apply (Hout r2); auto; [set_solver|apply sorted_nodup; auto].
Qed.
End Union.

End Order.

(** ** The rows of a well-formed ledger *)

Section Owner.
Context (owner : Z -> AccountID) (db : gmap LedgerKey LedgerEntry) (Hdb : wfView owner (rootView db)).

Definition isRow (x : OfferRow) : Prop :=
  db !! LedgerEntryKey (fst x) = Some (fst x) /\ le_data (fst x) = OFFER (snd x) /\ wfOffer owner (snd x).
Definition rowBetter (x y : OfferRow) : Prop := better (descriptor (snd x)) (descriptor (snd y)).

Lemma row_valid x : isRow x -> validDescriptor (descriptor (snd x)).
Proof using. intros (_ & _ & Hw). by apply (wfOffer_valid owner). Qed.

Lemma row_id x y : isRow x -> isRow y -> col_offerid x = col_offerid y -> x = y.
Proof using.
  destruct x as [e o], y as [e' o']. unfold col_offerid. intros (He & Ho & _ & _ & Hs) (He' & Ho' & _ & _ & Hs') Hid. cbn in *.
  assert (LedgerEntryKey e = LedgerEntryKey e') as Hk.
  { unfold LedgerEntryKey. rewrite Ho, Ho'. by rewrite Hs, Hs', Hid. }
  rewrite Hk, He' in He. injection He as ->. rewrite Ho in Ho'. by injection Ho' as ->.
Qed.

Lemma rowBetter_irrefl x : isRow x -> ~ rowBetter x x.
Proof using. intros Hx. by apply better_irrefl, row_valid. Qed.
Lemma rowBetter_trans x y z : isRow x -> isRow y -> isRow z -> rowBetter x y -> rowBetter y z -> rowBetter x z.
Proof using. intros Hx Hy Hz. apply better_trans; by apply row_valid. Qed.
Lemma rowBetter_total x y : isRow x -> isRow y -> x <> y -> rowBetter x y \/ rowBetter y x.
Proof using. intros Hx Hy Hne. apply better_total; [by apply row_valid..|]. intros Hid. by apply Hne, row_id. Qed.

(** The order of the query is the order of [isBetterOffer]. *)
Lemma rowBefore_better x y : isRow x -> isRow y -> x <> y -> (rowBefore x y = true <-> rowBetter x y).
Proof using.
  intros Hx Hy Hne. unfold rowBetter, better, isBetterOffer, rowBefore.
  change (priceAsDouble (od_price (descriptor (snd x)))) with (col_price x).
  change (priceAsDouble (od_price (descriptor (snd y)))) with (col_price y).
  change (od_offerID (descriptor (snd x))) with (col_offerid x).
  change (od_offerID (descriptor (snd y))) with (col_offerid y).
  destruct (SFltb _ _); [done|]. cbn. destruct (SFeqb _ _); [|done]. cbn.
  assert (col_offerid x <> col_offerid y) by (intros Hid; by apply Hne, row_id). rewrite Z.leb_le, Z.ltb_lt. lia.
Qed.

Lemma elem_of_offers x : x ∈ offers db <-> isRow x.
Proof using Hdb.
  unfold offers. rewrite list_elem_of_omap. split.
  - intros ([k e] & Hin & He). apply elem_of_map_to_list in Hin. unfold asOfferRow in He. cbn in He.
    destruct (le_data e) eqn:Ed; try done. injection He as <-.
    destruct (Hdb (LedgerKeyOf k) (LedgerEntryOf e)) as [Hk Hw]; [by rewrite rootView_lookup, Hin|].
    cbn in Hk, Hw. injection Hk as Hk. rewrite Ed in Hw. split_and!; cbn; [by rewrite Hk|done|done].
  - intros (He & Ho & _). exists (LedgerEntryKey (fst x), fst x). split; [by apply elem_of_map_to_list|].
    unfold asOfferRow. cbn. rewrite Ho. by destruct x.
Qed.

Lemma offers_nodup : NoDup (offers db).
Proof using Hdb.
  apply (NoDup_fmap_1 (fun x : OfferRow => LedgerEntryKey (fst x))). unfold offers.
  assert (forall l, NoDup (l.*1) -> (forall kv, kv ∈ l -> kv.1 = LedgerEntryKey kv.2) ->
    NoDup ((fun x : OfferRow => LedgerEntryKey (fst x)) <$> omap asOfferRow l)) as Hl.
  { induction l as [|[k e] l IH]; intros Hnd Hk; cbn; [constructor|]. inversion_clear Hnd as [|? ? Hni Hnd'].
    specialize (IH Hnd' ltac:(set_solver)). unfold asOfferRow at 1. cbn. destruct (le_data e) eqn:Ed; try done. cbn.
    constructor; [|done]. rewrite list_elem_of_fmap. intros (x & Ex & Hx). apply Hni.
    apply list_elem_of_omap in Hx as ([k' e'] & Hin & He'). unfold asOfferRow in He'. cbn in He'.
    destruct (le_data e') eqn:Ed'; try done. injection He' as <-. cbn in Ex.
    pose proof (Hk _ ltac:(left)) as E1. pose proof (Hk _ ltac:(right; exact Hin)) as E2. cbn in E1, E2.
    apply list_elem_of_fmap. exists (k', e'). split; [cbn; congruence|done]. }
  apply Hl; [apply NoDup_fst_map_to_list|]. intros [k e] Hin. apply elem_of_map_to_list in Hin.
  destruct (Hdb (LedgerKeyOf k) (LedgerEntryOf e)) as [Hk _]; [by rewrite rootView_lookup, Hin|]. cbn in Hk |- *. congruence.
Qed.

Lemma select_answer (Q : OfferRow -> Prop) `{!forall x, Decision (Q x)} n :
  Answer rowBetter (fun x => isRow x /\ Q x) n (take n (orderBy (filter Q (offers db)))).
Proof using Hdb.
  apply (answer_ext _ (fun x => x ∈ filter Q (offers db))).
  - intros x. rewrite list_elem_of_filter, elem_of_offers. tauto.
  - apply (limit_answer isRow); [exact rowBetter_irrefl|exact rowBetter_trans|exact rowBetter_total|exact rowBefore_better|..].
    + intros x. rewrite list_elem_of_filter, elem_of_offers. tauto.
    + apply NoDup_filter, offers_nodup.
Qed.

End Owner.

Section Laws.
Context (owner : Z -> AccountID).

Lemma answer_table db b s wt n l :
  wfView owner (rootView db) ->
  Answer rowBetter (fun x => isRow owner db x /\ ofPair b s x /\ worse wt (snd x)) n l ->
  TableAnswer db b s wt n (fst <$> l).
Proof.
  intros Hdb [Al As Ale Ac].
  assert (forall x, isRow owner db x -> ofPair b s x -> dbOffer db b s (fst x) (snd x)) as Hrow.
  { intros x (He & Ho & _) [Hs Hb]. split_and!; try done. by rewrite rootView_lookup, He. }
  assert (forall x y, x ∈ l -> rowBetter x y -> isRow owner db y -> betterEntry (fst x) (fst y)) as Hbet.
  { intros x y Hx Hxy (_ & Hy & _). destruct (Al x Hx) as [(_ & Ho & _) _].
    by rewrite (betterEntry_offers (fst x) (fst y) (snd x) (snd y)). }
  constructor.
  - apply Forall_forall. intros e. rewrite list_elem_of_fmap. intros (x & -> & Hx). destruct (Al x Hx) as (Hr & Hp & Hw).
    exists (snd x). split; [by apply Hrow|done].
  - assert (forall x, x ∈ l -> isRow owner db x) as Hall by (intros x Hx; by apply Al). clear -As Hbet Hall.
    induction As as [|x l As IH Hx]; cbn; constructor.
    + apply IH; intros; [apply Hbet; set_solver|apply Hall; set_solver].
    + apply Forall_fmap, Forall_forall. intros y Hy. rewrite Forall_forall in Hx. apply Hbet; [set_solver|by apply Hx|].
      apply Hall. set_solver.
  - by rewrite length_fmap.
  - intros e o He Hw. destruct (wf_offerIn owner _ _ _ _ _ Hdb He) as [Eo Wo]. destruct He as (He & _ & Hb & Hs).
    assert (isRow owner db (e, o)) as Hr.
    { rewrite rootView_lookup in He. split_and!; [|done|done]. cbn. destruct (db !! LedgerEntryKey e); [|done].
      cbn in He. congruence. }
    destruct (Ac (e, o)) as [Hin|[Hl Hall]]; [done|left|right].
    + apply list_elem_of_fmap. by exists (e, o).
    + rewrite length_fmap. split; [done|]. apply Forall_fmap, Forall_forall. intros y Hy.
      apply (Hbet y (e, o)); auto.
Qed.

(** The two parts of the second query: the rows of a higher price, and those of
    the same price and a higher identifier. *)
Lemma worse_parts db w x : validDescriptor w -> isRow owner db x ->
  (SFltb (priceAsDouble (od_price w)) (col_price x) = true <-> rankLt (rank (priceAsDouble (od_price w))) (rank (col_price x))) /\
  (SFeqb (col_price x) (priceAsDouble (od_price w)) = true <-> rank (priceAsDouble (od_price w)) = rank (col_price x)) /\
  (worse (Some w) (snd x) <-> betterRank (offerRank w) (rank (col_price x), col_offerid x)).
Proof.
  intros Hw Hx. pose proof (row_valid _ _ _ Hx) as Vx.
  pose proof (priceAsDouble_nonneg _ Hw) as N. pose proof (priceAsDouble_nonneg _ Vx) as N'.
  split_and!; [by apply SFltb_rank| |by apply better_rank].
  change (priceAsDouble (od_price (descriptor (snd x)))) with (col_price x) in N'.
  rewrite SFeqb_rank by done. split; congruence.
Qed.

#[export] Instance sqlOffers_laws : OffersTableLaws owner.
Proof.
  constructor. intros db b s wt n Hdb Hwt. cbn. unfold sqlLoadBestOffers. destruct wt as [w|]; apply answer_table; try done.
  - unfold selectWorseOffers.
    set (Q1 := fun x => ofPair b s x /\ SFltb (priceAsDouble (od_price w)) (col_price x) = true).
    set (Q2 := fun x => ofPair b s x /\ SFeqb (col_price x) (priceAsDouble (od_price w)) = true /\ od_offerID w + 1 <= col_offerid x).
    eapply answer_ext; [|apply (union_answer (isRow owner db) rowBetter (rowBetter_irrefl owner db) (rowBetter_trans owner db)
      (rowBetter_total owner db) (rowBefore_better owner db)
      (fun x => isRow owner db x /\ Q1 x) (fun x => isRow owner db x /\ Q2 x)); try by apply select_answer].
    + intros x. cbn beta. assert (isRow owner db x -> (Q1 x \/ Q2 x <-> ofPair b s x /\ worse (Some w) (snd x))); [|tauto].
      intros Hx. destruct (worse_parts db w x Hwt Hx) as (E1 & E2 & E3). unfold Q1, Q2. rewrite E1, E2, E3.
      unfold betterRank, offerRank. cbn [fst snd]. rewrite (Z.le_succ_l (od_offerID w)). tauto.
    + tauto.
    + tauto.
    + intros x [Hx [_ H1]] [_ (_ & H2 & _)]. destruct (worse_parts db w x Hwt Hx) as (E1 & E2 & _).
      apply E1 in H1. apply E2 in H2. rewrite H2 in H1. destruct (rank (col_price x)) as [[? ?] ?]. unfold rankLt in H1. cbn in H1. lia.
  - eapply answer_ext; [|by apply select_answer]. intros x. cbn. tauto.
Qed.

End Laws.
