(* ===== verification/LedgerTxnSpec.v ===== *)
(** * What nested ledger transactions promise

    The specification: a stack of plain maps, where opening a transaction copies
    the map, committing replaces the parent's map and rolling back forgets the
    copy, and where the best offer is found by looking at all the entries.  The
    stack of [LedgerTxn] objects implements it: every operation has the same result
    and the same exceptions.  The ledger an entry was last modified in, which a
    commit stamps on every entry the transaction recorded, is not part of the
    specification. *)

From stdpp Require Import base list gmap strings.
From Stdlib Require Import Sorting.Sorted.
From S2P Require Import Prelude Exchange Entries OfferOrder LedgerTxn LedgerTxnInv BestOffer.

Local Open Scope Z_scope.

#[local] Arguments decide : simpl never.
#[local] Arguments overlay : simpl never.
#[local] Arguments put : simpl never.

(** ** The specification *)

Definition strip (e : InternalLedgerEntry) : InternalLedgerEntry := setLastModified 0 e.
Definition stripImpl (i : EntryImpl) : EntryImpl :=
  match i with MutableEntry => MutableEntry | ConstEntry e => ConstEntry (strip e) end.

Record SpecTxn := mkSpec {
  sp_entries : View;
  sp_header : LedgerHeader;
  sp_activeHeader : bool;
  sp_active : gmap InternalLedgerKey EntryImpl;
  sp_sealed : bool
}.

Record SpecStack := mkSpecStack {
  sp_txns : list SpecTxn;
  sp_db : View;
  sp_rootHeader : LedgerHeader;
  sp_sqlTxn : bool
}.

Definition sp_set (entries : View) (active : gmap InternalLedgerKey EntryImpl) (l : SpecTxn) : SpecTxn :=
  mkSpec entries (sp_header l) (sp_activeHeader l) active (sp_sealed l).

(** The better of two offers of the pair. *)
Definition pickBetter (b s : Asset) (e : InternalLedgerEntry) (acc : option (LedgerEntry * OfferEntry))
    : option (LedgerEntry * OfferEntry) :=
  match e with
  | LedgerEntryOf le =>
      match le_data le with
      | OFFER o =>
          if decide (oe_buying o = b /\ oe_selling o = s) then
            match acc with
            | Some (_, o') => if isBetterOffer (descriptor o') (descriptor o) then acc else Some (le, o)
            | None => Some (le, o)
            end
          else acc
      | _ => acc
      end
  | _ => acc
  end.

(** The best offer of a pair, by looking at every entry. *)
Definition bestOffer (V : View) (b s : Asset) : option LedgerEntry :=
  fst <$> foldr (fun kv => pickBetter b s (snd kv)) None (map_to_list V).

(** The operations a client makes on the innermost transaction. *)
Inductive Op :=
  | OpBegin (shouldUpdateLastModified sqlTxn : bool)
  | OpCommit
  | OpRollback
  | OpSeal
  | OpCreate (e : InternalLedgerEntry)
  | OpCreateWithoutLoading (e : InternalLedgerEntry)
  | OpUpdateWithoutLoading (e : InternalLedgerEntry)
  | OpErase (k : InternalLedgerKey)
  | OpEraseWithoutLoading (k : InternalLedgerKey)
  | OpLoad (k : InternalLedgerKey)
  | OpLoadWithoutRecord (k : InternalLedgerKey)
  | OpLoadBestOffer (buying selling : Asset)
  | OpCurrent (k : InternalLedgerKey)
  | OpAssign (k : InternalLedgerKey) (e : InternalLedgerEntry)
  | OpDeactivate (k : InternalLedgerKey)
  | OpLoadHeader
  | OpAssignHeader (h : LedgerHeader)
  | OpDeactivateHeader.

Inductive Result :=
  | RUnit
  | REntry (e : option InternalLedgerEntry)
  | RHeader (h : LedgerHeader).

Definition stripResult (r : Result) : Result :=
  match r with REntry e => REntry (strip <$> e) | _ => r end.

Definition specThrowIfSealed (l : SpecTxn) : exc unit :=
  if sp_sealed l then exc_throw (Throw "LedgerTxn is sealed") else mret tt.
Definition specThrowIfActive (k : InternalLedgerKey) (msg : string) (l : SpecTxn) : exc unit :=
  match sp_active l !! k with Some _ => exc_throw (Throw msg) | None => mret tt end.

Definition specCreate (e : InternalLedgerEntry) (l : SpecTxn) : exc (Result * SpecTxn) :=
  do* specThrowIfSealed l in
  match sp_entries l !! toKey e with
  | Some _ => exc_throw (Throw "Key already exists")
  | None => mret (RUnit, sp_set (<[toKey e := strip e]> (sp_entries l)) (<[toKey e := MutableEntry]> (sp_active l)) l)
  end.

Definition specWrite (e : InternalLedgerEntry) (l : SpecTxn) : exc (Result * SpecTxn) :=
  do* specThrowIfSealed l in
  do* specThrowIfActive (toKey e) "Key is already active" l in
  mret (RUnit, sp_set (<[toKey e := strip e]> (sp_entries l)) (sp_active l) l).

Definition specErase (k : InternalLedgerKey) (l : SpecTxn) : exc (Result * SpecTxn) :=
  do* specThrowIfSealed l in
  match sp_entries l !! k with
  | None => exc_throw (Throw "Key does not exist")
  | Some _ => mret (RUnit, sp_set (delete k (sp_entries l)) (delete k (sp_active l)) l)
  end.

Definition specEraseWithoutLoading (k : InternalLedgerKey) (l : SpecTxn) : exc (Result * SpecTxn) :=
  do* specThrowIfSealed l in
  mret (RUnit, sp_set (delete k (sp_entries l)) (delete k (sp_active l)) l).

(** [handle] makes the handle that becomes active. *)
Definition specLoad (handle : InternalLedgerEntry -> EntryImpl) (k : InternalLedgerKey) (l : SpecTxn)
    : exc (Result * SpecTxn) :=
  do* specThrowIfSealed l in
  do* specThrowIfActive k "Key is active" l in
  match sp_entries l !! k with
  | None => mret (REntry None, l)
  | Some e => mret (REntry (Some e), sp_set (sp_entries l) (<[k := handle e]> (sp_active l)) l)
  end.

Definition specLoadBestOffer (b s : Asset) (l : SpecTxn) : exc (Result * SpecTxn) :=
  do* specThrowIfSealed l in
  if decide (sp_active l = ∅) then
    match bestOffer (sp_entries l) b s with
    | None => mret (REntry None, l)
    | Some e => specLoad (fun _ => MutableEntry) (LedgerKeyOf (LedgerEntryKey e)) l
    end
  else exc_throw (Throw "active entries when getting best offer").

Definition specCurrent (k : InternalLedgerKey) (l : SpecTxn) : exc (Result * SpecTxn) :=
  match sp_active l !! k with
  | None => exc_throw (Throw "LedgerTxnEntry not active")
  | Some _ => mret (REntry (sp_entries l !! k), l)
  end.

Definition specAssign (k : InternalLedgerKey) (e : InternalLedgerEntry) (l : SpecTxn) : exc (Result * SpecTxn) :=
  match sp_active l !! k with
  | Some MutableEntry => mret (RUnit, sp_set (<[k := strip e]> (sp_entries l)) (sp_active l) l)
  | _ => exc_throw (Throw "LedgerTxnEntry not active")
  end.

Definition specDeactivate (k : InternalLedgerKey) (l : SpecTxn) : exc (Result * SpecTxn) :=
  match sp_active l !! k with
  | None => exc_throw (Throw "Key is not active")
  | Some _ => mret (RUnit, sp_set (sp_entries l) (delete k (sp_active l)) l)
  end.

Definition specSeal (l : SpecTxn) : exc (Result * SpecTxn) :=
  mret (RUnit, if sp_sealed l then l else mkSpec (sp_entries l) (sp_header l) false ∅ true).

Definition specLoadHeader (l : SpecTxn) : exc (Result * SpecTxn) :=
  do* specThrowIfSealed l in
  if sp_activeHeader l then exc_throw (Throw "LedgerTxnHeader is active")
  else mret (RHeader (sp_header l), mkSpec (sp_entries l) (sp_header l) true (sp_active l) (sp_sealed l)).

Definition specAssignHeader (h : LedgerHeader) (l : SpecTxn) : exc (Result * SpecTxn) :=
  if sp_activeHeader l then mret (RUnit, mkSpec (sp_entries l) h true (sp_active l) (sp_sealed l))
  else exc_throw (Throw "LedgerTxnHeader not active").

Definition specDeactivateHeader (l : SpecTxn) : exc (Result * SpecTxn) :=
  if sp_activeHeader l then
    mret (RUnit, mkSpec (sp_entries l) (sp_header l) false (sp_active l) (sp_sealed l))
  else exc_throw (Throw "LedgerTxnHeader is not active").

Definition onSpec (f : SpecTxn -> exc (Result * SpecTxn)) : M SpecStack Result := fun a =>
  match sp_txns a with
  | [] => Err (Throw "LedgerTxn was handled") a
  | l :: ls =>
      match f l with
      | inr (r, l) => Ok r (mkSpecStack (l :: ls) (sp_db a) (sp_rootHeader a) (sp_sqlTxn a))
      | inl e => Err e a
      end
  end.

Definition specBegin (sqlTxn : bool) : M SpecStack Result := fun a =>
  match sp_txns a with
  | [] =>
      Ok RUnit (mkSpecStack [mkSpec (sp_db a) (sp_rootHeader a) false ∅ false] (sp_db a) (sp_rootHeader a) sqlTxn)
  | l :: ls =>
      match specThrowIfSealed l with
      | inl e => Err e a
      | inr _ =>
          Ok RUnit
            (mkSpecStack
               (mkSpec (sp_entries l) (sp_header l) false ∅ false ::
                mkSpec (sp_entries l) (sp_header l) false ∅ false :: ls)
               (sp_db a) (sp_rootHeader a) (sp_sqlTxn a))
      end
  end.

(** Only ledger entries reach the database. *)
Definition isLedgerKey (k : InternalLedgerKey) : Prop := match k with LedgerKeyOf _ => True | _ => False end.
#[export] Instance isLedgerKey_dec k : Decision (isLedgerKey k).
Proof. destruct k; cbn; apply _. Defined.
Definition ledgerEntries (V : View) : View := filter (fun kv => isLedgerKey (fst kv)) V.

Definition specCommit : M SpecStack Result := fun a =>
  match sp_txns a with
  | [] => Err (Throw "LedgerTxn was handled") a
  | [l] =>
      if sp_sqlTxn a then Ok RUnit (mkSpecStack [] (ledgerEntries (sp_entries l)) (sp_header l) false)
      else Err (AssertFailure "Illegal action in LedgerTxnRoot: committing child in read-only mode") a
  | l :: p :: ls =>
      Ok RUnit
        (mkSpecStack (mkSpec (sp_entries l) (sp_header l) (sp_activeHeader p) (sp_active p) (sp_sealed p) :: ls)
           (sp_db a) (sp_rootHeader a) (sp_sqlTxn a))
  end.

Definition specRollback : M SpecStack Result := fun a =>
  match sp_txns a with
  | [] => Err (Throw "LedgerTxn was handled") a
  | [l] => Ok RUnit (mkSpecStack [] (sp_db a) (sp_rootHeader a) false)
  | l :: ls => Ok RUnit (mkSpecStack ls (sp_db a) (sp_rootHeader a) (sp_sqlTxn a))
  end.

Definition spec (op : Op) : M SpecStack Result :=
  match op with
  | OpBegin _ sqlTxn => specBegin sqlTxn
  | OpCommit => specCommit
  | OpRollback => specRollback
  | OpSeal => onSpec specSeal
  | OpCreate e => onSpec (specCreate e)
  | OpCreateWithoutLoading e | OpUpdateWithoutLoading e => onSpec (specWrite e)
  | OpErase k => onSpec (specErase k)
  | OpEraseWithoutLoading k => onSpec (specEraseWithoutLoading k)
  | OpLoad k => onSpec (specLoad (fun _ => MutableEntry) k)
  | OpLoadWithoutRecord k => onSpec (specLoad ConstEntry k)
  | OpLoadBestOffer b s => onSpec (specLoadBestOffer b s)
  | OpCurrent k => onSpec (specCurrent k)
  | OpAssign k e => onSpec (specAssign k e)
  | OpDeactivate k => onSpec (specDeactivate k)
  | OpLoadHeader => onSpec specLoadHeader
  | OpAssignHeader h => onSpec (specAssignHeader h)
  | OpDeactivateHeader => onSpec specDeactivateHeader
  end.

(** ** The implementation's operations *)

Section Impl.
Context `{OffersTable} (batch : nat).

Definition asUnit {A} (m : M LedgerTxnStack A) : M LedgerTxnStack Result := do* m in mret RUnit.
Definition asEntry (m : M LedgerTxnStack (option InternalLedgerEntry)) : M LedgerTxnStack Result :=
  let* e := m in mret (REntry e).

Definition exec (op : Op) : M LedgerTxnStack Result :=
  match op with
  | OpBegin upd sqlTxn => asUnit (beginTxn upd sqlTxn)
  | OpCommit => asUnit commit
  | OpRollback => asUnit rollback
  | OpSeal => asUnit getAllEntries
  | OpCreate e => asUnit (create e)
  | OpCreateWithoutLoading e => asUnit (createWithoutLoading e)
  | OpUpdateWithoutLoading e => asUnit (updateWithoutLoading e)
  | OpErase k => asUnit (erase k)
  | OpEraseWithoutLoading k => asUnit (eraseWithoutLoading k)
  | OpLoad k => asEntry (load k)
  | OpLoadWithoutRecord k => asEntry (loadWithoutRecord k)
  | OpLoadBestOffer b s => asEntry (loadBestOffer batch b s)
  | OpCurrent k => let* e := current k in mret (REntry (Some e))
  | OpAssign k e => asUnit (assign k e)
  | OpDeactivate k => asUnit (deactivate k)
  | OpLoadHeader => let* h := loadHeader in mret (RHeader h)
  | OpAssignHeader h => asUnit (assignHeader h)
  | OpDeactivateHeader => asUnit deactivateHeader
  end.

End Impl.

(** ** What a stack of transactions stands for *)

Definition absTxn (P : View) (t : LedgerTxnImpl) : SpecTxn :=
  mkSpec (strip <$> overlay (mEntry t) P) (mHeader t) (mActiveHeader t) (stripImpl <$> mActive t) (mIsSealed t).

Fixpoint absTxns (txns : list LedgerTxnImpl) (db : gmap LedgerKey LedgerEntry) : list SpecTxn :=
  match txns with
  | [] => []
  | t :: parents => absTxn (viewOf parents db) t :: absTxns parents db
  end.

Definition abs (s : LedgerTxnStack) : SpecStack :=
  let r := st_root s in
  mkSpecStack (absTxns (st_txns s) (rDatabase r)) (strip <$> rootView (rDatabase r)) (rHeader r) (mTransaction r).

Section Owner.
Context (owner : Z -> AccountID).

(** The invariant of the stack: only the innermost transaction has handles. *)
Definition StackOK (s : LedgerTxnStack) : Prop :=
  RootOK owner (st_root s) /\ Chain owner (st_txns s) (rDatabase (st_root s)) /\
  Forall noHandles (tail (st_txns s)).

(** What the clients of a transaction respect: entries are well-formed, a handle
    is not used to change the key of an entry, and the operations that do not look
    at the existing entry are used on keys that exist, or do not, as they assume. *)
Definition legal (op : Op) (a : SpecStack) : Prop :=
  match op with
  | OpCreate e => wfEntry owner e
  | OpAssign k e => wfEntry owner e /\ toKey e = k
  | OpCreateWithoutLoading e =>
      wfEntry owner e /\ forall l, head (sp_txns a) = Some l -> sp_entries l !! toKey e = None
  | OpUpdateWithoutLoading e =>
      wfEntry owner e /\ forall l, head (sp_txns a) = Some l -> is_Some (sp_entries l !! toKey e)
  | OpEraseWithoutLoading k => forall l, head (sp_txns a) = Some l -> is_Some (sp_entries l !! k)
  | _ => True
  end.

(** ** Stripping *)

Lemma strip_idemp e : strip (strip e) = strip e.
Proof. by destruct e. Qed.
Lemma strip_key e : toKey (strip e) = toKey e.
Proof. by destruct e. Qed.
Lemma strip_wf e : wfEntry owner (strip e) <-> wfEntry owner e.
Proof. by destruct e. Qed.
Lemma strip_touch t e : strip (touch t e) = strip e.
Proof. unfold touch. destruct (mIsSealed t), (mShouldUpdateLastModified t); by destruct e. Qed.

Lemma strip_view_wf V : wfView owner V -> wfView owner (strip <$> V).
Proof.
  intros HV k e. rewrite lookup_fmap_Some. intros (e0 & <- & He0). rewrite strip_key, strip_wf. by apply HV.
Qed.

Definition stripLedgerEntry (e : LedgerEntry) : LedgerEntry := mkEntry 0 (le_data e) (le_ext e).

Lemma strip_offerIn V b s e o : wfView owner V ->
  offerIn (strip <$> V) b s e o <-> exists e0, e = stripLedgerEntry e0 /\ offerIn V b s e0 o.
Proof.
  intros HV. unfold offerIn. split.
  - intros (H1 & H2 & H3 & H4). rewrite lookup_fmap_Some in H1. destruct H1 as ([e0| | |] & E & He0); try done.
    injection E as <-. exists e0. split; [done|]. by split_and!.
  - intros (e0 & -> & H1 & H2 & H3 & H4). split_and!; try done.
    change (LedgerEntryKey (stripLedgerEntry e0)) with (LedgerEntryKey e0). by rewrite lookup_fmap, H1.
Qed.

Lemma strip_IsBest V b s r : wfView owner V ->
  IsBest V b s None r -> IsBest (strip <$> V) b s None (stripLedgerEntry <$> r).
Proof.
  intros HV. destruct r as [e|]; cbn.
  - intros (o & Ho & _ & Hb). exists o. split_and!; [apply strip_offerIn; eauto|done|].
    intros e' o' He' _. apply strip_offerIn in He' as (e0 & -> & He0); [|done].
    destruct (Hb e0 o' He0 I) as [->|]; auto.
  - intros Hn e o He _. apply strip_offerIn in He as (e0 & -> & He0); [|done]. by apply (Hn e0 o).
Qed.

(** ** The best offer of the specification *)

Lemma IsBest_unique V b s r r' : wfView owner V -> IsBest V b s None r -> IsBest V b s None r' -> r = r'.
Proof.
  intros HV. destruct r as [e|], r' as [e'|]; cbn; [| | |done].
  - intros (o & Ho & _ & Hb) (o' & Ho' & _ & Hb').
    destruct (Hb e' o' Ho' I) as [->|H1]; [done|]. destruct (Hb' e o Ho I) as [->|H2]; [done|]. exfalso.
    destruct (wf_offerIn owner _ _ _ _ _ HV Ho) as [_ W], (wf_offerIn owner _ _ _ _ _ HV Ho') as [_ W'].
    by apply better_asym in H1; [|by apply (wfOffer_valid owner)..].
  - intros (o & Ho & _) Hn. by destruct (Hn e o Ho).
  - intros Hn (o & Ho & _). by destruct (Hn e' o Ho).
Qed.

(** [acc] is the best of the offers in [Q], a set of offers of [V]. *)
Definition bestSoFar (Q : LedgerEntry -> OfferEntry -> Prop) (acc : option (LedgerEntry * OfferEntry)) : Prop :=
  match acc with
  | None => forall e o, ~ Q e o
  | Some (e, o) => Q e o /\ forall e' o', Q e' o' -> e' = e \/ better (descriptor o) (descriptor o')
  end.

Lemma bestSoFar_ext (Q Q' : LedgerEntry -> OfferEntry -> Prop) acc :
  (forall e o, Q e o <-> Q' e o) -> bestSoFar Q acc -> bestSoFar Q' acc.
Proof.
  intros HQ. destruct acc as [[e o]|]; cbn.
  - intros [H1 H2]. split; [by apply HQ|]. intros e' o' H'. by apply H2, HQ.
  - intros Hn e o. rewrite <- HQ. apply Hn.
Qed.

(** Offers of a well-formed view with the same identifier are the same. *)
Lemma same_id_same_offer V b s e o e' o' :
  wfView owner V -> offerIn V b s e o -> offerIn V b s e' o' -> oe_offerID o = oe_offerID o' -> e = e' /\ o = o'.
Proof.
  intros HV Ho Ho' Hid. destruct (wf_offerIn owner _ _ _ _ _ HV Ho) as [E (_ & _ & S)],
    (wf_offerIn owner _ _ _ _ _ HV Ho') as [E' (_ & _ & S')].
  destruct Ho as [H1 _], Ho' as [H2 _]. unfold LedgerEntryKey in *. rewrite E in H1. rewrite E' in H2.
  rewrite S' in H2. rewrite S, Hid, H2 in H1. injection H1 as <-. rewrite E in E'. by injection E'.
Qed.

Lemma pickBetter_step V b s Q acc k x :
  wfView owner V -> (forall e o, Q e o -> offerIn V b s e o) -> V !! k = Some x -> bestSoFar Q acc ->
  bestSoFar (fun e o => Q e o \/ (x = LedgerEntryOf e /\ offerIn V b s e o)) (pickBetter b s x acc).
Proof.
  intros HV HQ Hx Hacc. destruct (HV _ _ Hx) as [Hk _].
  assert ((forall e o, x = LedgerEntryOf e -> ~ offerIn V b s e o) ->
    bestSoFar (fun e o => Q e o \/ (x = LedgerEntryOf e /\ offerIn V b s e o)) acc) as Hskip.
  { intros Hno. eapply bestSoFar_ext; [|exact Hacc]. intros e o. split; [tauto|].
    intros [?|[E He]]; [done|by destruct (Hno e o E)]. }
  unfold pickBetter. destruct x as [le| | |]; try (apply Hskip; done).
  destruct (le_data le) as [| |o| | |] eqn:Ed; try (apply Hskip; intros e o' [= <-] (_ & H2 & _); congruence).
  case_decide as D.
  2: { apply Hskip. intros e o' [= <-] (_ & H2 & H3 & H4). rewrite Ed in H2. injection H2 as <-. apply D; done. }
  assert (offerIn V b s le o) as Ho by (split_and!; try tauto; cbn in Hk; by rewrite Hk).
  assert (forall e' o', offerIn V b s e' o' -> validDescriptor (descriptor o')) as Hval.
  { intros e' o' He'. apply (wfOffer_valid owner). apply (wf_offerIn owner _ _ _ _ _ HV He'). }
  assert (forall e' o', Q e' o' \/ (LedgerEntryOf le = LedgerEntryOf e' /\ offerIn V b s e' o') ->
    Q e' o' \/ (e' = le /\ o' = o)) as Hcase.
  { intros e' o' [?|[[= <-] (_ & E & _)]]; [by left|right]. rewrite Ed in E. by injection E as <-. }
  destruct acc as [[ea oa]|]; cbn in Hacc |- *.
  - destruct Hacc as [Ha Hall]. destruct (isBetterOffer (descriptor oa) (descriptor o)) eqn:Eb; cbn.
    + split; [by left|]. intros e' o' H'. destruct (Hcase e' o' H') as [?|[-> ->]]; [by apply Hall|by right].
    + assert (~ better (descriptor oa) (descriptor o)) as Hnb by (unfold better; congruence).
      split; [by right|]. intros e' o' H'. destruct (Hcase e' o' H') as [HQ'|[-> ->]]; [|by left].
      destruct (decide (oe_offerID o = oe_offerID o')) as [Hid|Hid].
      { left. by apply (same_id_same_offer V b s e' o' le o HV (HQ _ _ HQ') Ho). }
      right. destruct (Hall e' o' HQ') as [->|Hb].
      * pose proof (HQ _ _ HQ') as (_ & E1 & _). pose proof (HQ _ _ Ha) as (_ & E2 & _). rewrite E1 in E2.
        injection E2 as ->. destruct (better_total (descriptor o) (descriptor oa)) as [|]; try done; eauto.
      * apply (not_better_trans (descriptor oa)); eauto.
  - split; [by right|]. intros e' o' H'. destruct (Hcase e' o' H') as [HQ'|[-> ->]]; [by destruct (Hacc e' o')|by left].
Qed.

Lemma bestOffer_correct V b s : wfView owner V -> IsBest V b s None (bestOffer V b s).
Proof.
  intros HV. unfold bestOffer.
  assert (forall l, (forall kv, kv ∈ l -> V !! fst kv = Some (snd kv)) ->
    bestSoFar (fun e o => offerIn V b s e o /\ exists k, (k, LedgerEntryOf e) ∈ l)
      (foldr (fun kv => pickBetter b s (snd kv)) None l)) as Hfold.
  { induction l as [|[k x] l IH]; intros Hl; [intros e o [_ [k Hin]]; by apply elem_of_nil in Hin|]. cbn [foldr snd].
    specialize (IH ltac:(set_solver)). pose proof (Hl (k, x) ltac:(set_solver)) as Hx.
    refine (bestSoFar_ext _ _ _ _ (pickBetter_step V b s _ _ k x HV _ Hx IH)); [|by intros e o [? _]].
    intros e o. split.
    - intros [[He [k' Hin]]|[-> He]]; (split; [done|]); [exists k'|exists k]; set_solver.
    - intros [He [k' Hin]]. apply elem_of_cons in Hin as [[= -> <-]|Hin]; [by right|left]. eauto. }
  specialize (Hfold (map_to_list V)). destruct (foldr _ None _) as [[e o]|]; cbn in *.
  - destruct Hfold as [[Ho _] Hall]; [intros [k x] Hin; by apply elem_of_map_to_list in Hin|].
    exists o. split_and!; try done. intros e' o' He' _. apply Hall. split; [done|]. exists (LedgerKeyOf (LedgerEntryKey e')).
    apply elem_of_map_to_list, He'.
  - intros e o He _. apply (Hfold ltac:(intros [k x] Hin; by apply elem_of_map_to_list in Hin) e o).
    split; [done|]. exists (LedgerKeyOf (LedgerEntryKey e)). apply elem_of_map_to_list, He.
Qed.

(** ** One transaction *)

(** The outcome of an operation of a transaction agrees with the specification's,
    and keeps the invariant. *)
Definition agrees {A} (P : View) (ret : A -> Result) (c : exc (A * LedgerTxnImpl)) (g : exc (Result * SpecTxn)) : Prop :=
  match c with
  | inr (a, t) => g = inr (stripResult (ret a), absTxn P t) /\ LevelInv owner P t
  | inl f => g = inl f
  end.

Lemma splitEntries_ok l :
  (forall k p e, (LedgerKeyOf k, p) ∈ l -> ptrGet p = Some e -> exists le, e = LedgerEntryOf le) ->
  exists res, splitEntries l = inr res.
Proof.
  induction l as [|[[k| | |] p] l IH]; intros Hl; cbn; [eauto| |apply IH; set_solver..].
  destruct IH as [[[ini live] dead] ->]; [set_solver|]. cbn.
  destruct p as [e|e|]; [| |eauto]; (destruct (Hl k _ e ltac:(left) eq_refl) as [le ->]); cbn; eauto.
Qed.

Lemma strip_overlay_seal Q c : strip <$> overlay (fst (seal c)) Q = strip <$> overlay (mEntry c) Q.
Proof.
  apply map_eq. intros k. rewrite !lookup_fmap, !overlay_lookup, seal_entries, lookup_fmap.
  destruct (mEntry c !! k) as [p|]; [|done]. cbn. rewrite touchPtr_get.
  destruct (ptrGet p); [|done]. cbn. by rewrite strip_touch.
Qed.

Section Level.
Context (P : View) (t : LedgerTxnImpl) (parents : list LedgerTxnImpl) (r : RootImpl).
Hypotheses (HP : wfView owner P) (Ht : LevelInv owner P t)
  (Hnew : forall k, getNewestVersion (t :: parents) r k = overlay (mEntry t) P !! k).

Lemma abs_entries k : sp_entries (absTxn P t) !! k = strip <$> overlay (mEntry t) P !! k.
Proof using. apply lookup_fmap. Qed.
Lemma abs_active k : sp_active (absTxn P t) !! k = stripImpl <$> mActive t !! k.
Proof using. apply lookup_fmap. Qed.

Lemma no_handle k : overlay (mEntry t) P !! k = None -> mActive t !! k = None.
Proof using All.
  intros Hk. destruct (mActive t !! k) as [i|] eqn:Ei; [|done].
  pose proof (li_handle _ _ _ Ht k i Ei) as Hh. rewrite Hk in Hh. destruct i; cbn in Hh; [|done].
  by destruct Hh as [_ [? ?]].
Qed.

Lemma active_recorded k : mActive t !! k = Some MutableEntry ->
  exists p e, mEntry t !! k = Some p /\ ptrGet p = Some e /\ overlay (mEntry t) P !! k = Some e.
Proof using All.
  intros Hk. pose proof (li_handle _ _ _ Ht k _ Hk) as [Hr [e He]]. apply bool_decide_eq_true in Hr as [p Hp].
  exists p, e. rewrite overlay_lookup, Hp in *. done.
Qed.

(** The specification's transaction after the entry under [k] became [e]. *)
Lemma abs_put k (e : option InternalLedgerEntry) mob m act :
  overlay m P = partial_alter (fun _ => e) k (overlay (mEntry t) P) ->
  absTxn P (set_entry m (set_active act (set_book mob t))) =
    sp_set (partial_alter (fun _ => strip <$> e) k (sp_entries (absTxn P t))) (stripImpl <$> act) (absTxn P t).
Proof using.
  intros Hov. unfold absTxn, sp_set. cbn. f_equal. rewrite Hov. apply map_eq. intros k'.
  destruct (decide (k = k')) as [<-|Hne].
  - by rewrite lookup_fmap, !lookup_partial_alter_eq.
  - by rewrite lookup_fmap, !lookup_partial_alter_ne, lookup_fmap by done.
Qed.

Lemma sim_create e :
  wfEntry owner e ->
  agrees P (fun _ : unit => RUnit)
    (do* throwIfSealed t in
     match getNewestVersion (t :: parents) r (toKey e) with
     | Some _ => exc_throw (Throw "Key already exists")
     | None =>
         let* t := updateEntry (toKey e) (Init e) true (emplaceActive (toKey e) MutableEntry t) in mret (tt, t)
     end) (specCreate e (absTxn P t)).
Proof using All.
  intros Hw. unfold throwIfSealed, specCreate, specThrowIfSealed. cbn [sp_sealed absTxn].
  destruct (mIsSealed t) eqn:Es; [done|]. cbn [bnd mbind exc_bind mret exc_ret].
  rewrite Hnew, abs_entries. destruct (overlay (mEntry t) P !! toKey e) as [e0|] eqn:Ek; [done|]. cbn [fmap option_fmap option_map].
  pose proof (no_handle _ Ek) as Hna. unfold emplaceActive. rewrite Hna.
  destruct (LevelInv_update owner P t Ht Es (toKey e) (Init e) true (<[toKey e := MutableEntry]> (mActive t)))
    as (mob & Hup & Hinv & Hov).
  - intros e' [= <-]. done.
  - left. by rewrite Ek.
  - intros k Hk. by rewrite lookup_insert_ne.
  - intros i. rewrite lookup_insert_eq. intros [= <-]. split; [|done]. unfold isRecorded. rewrite put_eq.
    apply bool_decide_eq_true. rewrite overlay_lookup in Ek. destruct (mEntry t !! toKey e) as [[]|]; done.
  - intros _ _. rewrite lookup_insert_eq. split; [done|eauto].
  - rewrite Hup. cbn. split; [|done]. rewrite (abs_put (toKey e) (Some e)) by done.
    by rewrite fmap_insert.
Qed.

Lemma sim_write e (p : LedgerEntryPtr) :
  wfEntry owner e -> ptrGet p = Some e -> compatible (overlay (mEntry t) P !! toKey e) p ->
  agrees P (fun _ : unit => RUnit)
    (do* throwIfSealed t in
     do* throwIfActive (toKey e) "Key is already active" t in
     let* t := updateEntry (toKey e) p false t in mret (tt, t)) (specWrite e (absTxn P t)).
Proof using All.
  intros Hw Hg Hc. unfold throwIfSealed, specWrite, specThrowIfSealed. cbn [sp_sealed absTxn].
  destruct (mIsSealed t) eqn:Es; [done|]. cbn [bnd mbind exc_bind mret exc_ret].
  unfold throwIfActive, specThrowIfActive. rewrite abs_active.
  destruct (mActive t !! toKey e) eqn:Ea; [done|]. cbn [fmap option_fmap option_map bnd mbind exc_bind mret exc_ret].
  destruct (LevelInv_update owner P t Ht Es (toKey e) p false (mActive t)) as (mob & Hup & Hinv & Hov).
  - intros e'. rewrite Hg. by intros [= <-].
  - by left.
  - done.
  - intros i. by rewrite Ea.
  - intros _ _. rewrite Ea. split; [by intros [? ?]|done].
  - specialize (Hup (mActive t)). replace (set_active (mActive t) t) with t in Hup by (by destruct t).
    rewrite Hup. cbn. split; [|done]. rewrite Hg in Hov. rewrite (abs_put (toKey e) (Some e)) by done. done.
Qed.

Lemma update_deleted k :
  mIsSealed t = false -> is_Some (overlay (mEntry t) P !! k) ->
  exists t', updateEntry k Deleted false t = inr t' /\ LevelInv owner P (eraseActive k t') /\
    absTxn P (eraseActive k t') =
      sp_set (delete k (sp_entries (absTxn P t))) (delete k (sp_active (absTxn P t))) (absTxn P t).
Proof using All.
  intros Es Hk. destruct (LevelInv_update owner P t Ht Es k Deleted false (delete k (mActive t))) as (mob & Hup & Hinv & Hov).
  - by intros e.
  - by left.
  - intros k' Hk'. by rewrite lookup_delete_ne.
  - intros i. by rewrite lookup_delete_eq.
  - by intros [? ?].
  - specialize (Hup (mActive t)). replace (set_active (mActive t) t) with t in Hup by (by destruct t).
    eexists. split; [exact Hup|]. split; [by destruct t|].
    transitivity (absTxn P (set_entry (put k (record (mEntry t !! k) Deleted) (mEntry t))
      (set_active (delete k (mActive t)) (set_book mob t)))); [by destruct t|].
    rewrite (abs_put k None) by done. unfold sp_set. cbn. by rewrite fmap_delete.
Qed.

Lemma sim_erase k :
  agrees P (fun _ : unit => RUnit)
    (do* throwIfSealed t in
     match getNewestVersion (t :: parents) r k with
     | None => exc_throw (Throw "Key does not exist")
     | Some _ => let* t := updateEntry k Deleted false t in mret (tt, eraseActive k t)
     end) (specErase k (absTxn P t)).
Proof using All.
  unfold throwIfSealed, specErase, specThrowIfSealed. cbn [sp_sealed absTxn].
  destruct (mIsSealed t) eqn:Es; [done|]. cbn [bnd mbind exc_bind mret exc_ret].
  rewrite Hnew, abs_entries. destruct (overlay (mEntry t) P !! k) as [e0|] eqn:Ek; [|done].
  destruct (update_deleted k Es) as (t' & -> & Hinv & Habs); [by rewrite Ek|]. cbn [bnd mbind exc_bind mret exc_ret agrees].
  by rewrite Habs.
Qed.

Lemma sim_eraseWithoutLoading k :
  is_Some (overlay (mEntry t) P !! k) ->
  agrees P (fun _ : unit => RUnit)
    (do* throwIfSealed t in
     let* t := updateEntry k Deleted false t in
     mret (tt, set_consistency EXTRA_DELETES (eraseActive k t))) (specEraseWithoutLoading k (absTxn P t)).
Proof using All.
  intros Hk. unfold throwIfSealed, specEraseWithoutLoading, specThrowIfSealed. cbn [sp_sealed absTxn].
  destruct (mIsSealed t) eqn:Es; [done|]. cbn [bnd mbind exc_bind mret exc_ret].
  destruct (update_deleted k Es Hk) as (t' & -> & Hinv & Habs). cbn [bnd mbind exc_bind mret exc_ret agrees].
  rewrite <- Habs. split; [done|]. destruct Hinv. by constructor.
Qed.

(** Loading records the entry and makes a handle active; nothing else changes. *)
Lemma sim_load k :
  agrees P REntry (loadTxn k t parents r) (specLoad (fun _ => MutableEntry) k (absTxn P t)) /\
  forall res t', loadTxn k t parents r = inr (res, t') ->
    (forall k', is_Some (mEntry t !! k') -> is_Some (mEntry t' !! k')) /\
    (is_Some (overlay (mEntry t) P !! k) -> is_Some (mEntry t' !! k)).
Proof using All.
  unfold loadTxn, throwIfSealed, specLoad, specThrowIfSealed. cbn [sp_sealed absTxn].
  destruct (mIsSealed t) eqn:Es; [done|]. cbn [bnd mbind exc_bind mret exc_ret].
  unfold throwIfActive, specThrowIfActive. rewrite abs_active.
  destruct (mActive t !! k) eqn:Ea; [done|]. cbn [fmap option_fmap option_map bnd mbind exc_bind mret exc_ret].
  rewrite Hnew, abs_entries. destruct (overlay (mEntry t) P !! k) as [e|] eqn:Ek.
  2: { split; [done|]. intros res t' [= <- <-]. split; [done|by intros [? ?]]. }
  set (cur := match mEntry t !! k with Some p => p | None => Live e end).
  assert (ptrGet cur = Some e) as Hcur.
  { unfold cur. rewrite overlay_lookup in Ek. by destruct (mEntry t !! k). }
  assert (overlay (mEntry t) P = partial_alter (fun _ => Some e) k (overlay (mEntry t) P)) as Hsame.
  { apply map_eq. intros k'. destruct (decide (k = k')) as [<-|Hne]; [by rewrite lookup_partial_alter_eq|].
    by rewrite lookup_partial_alter_ne. }
  unfold emplaceActive. rewrite Ea.
  destruct (LevelInv_update owner P t Ht Es k cur true (<[k := MutableEntry]> (mActive t))) as (mob & Hup & Hinv & Hov).
  - intros e' He'. rewrite Hcur in He'. injection He' as <-. by apply (overlay_wf owner _ _ HP (li_wf _ _ _ Ht)).
  - unfold cur in *. rewrite overlay_lookup in Ek |- *. destruct (mEntry t !! k) as [p|] eqn:Ep; [right|left].
    + split; [done|]. by intros ->.
    + cbn in *. by rewrite Ek.
  - intros k' Hk'. by rewrite lookup_insert_ne.
  - intros i. rewrite lookup_insert_eq. intros [= <-]. rewrite Hcur. split; [|done]. unfold isRecorded. rewrite put_eq.
    apply bool_decide_eq_true. unfold cur in *. destruct (mEntry t !! k) as [[]|]; done.
  - intros _ _. rewrite lookup_insert_eq. split; [done|eauto].
  - rewrite Hup. cbn [fmap option_fmap option_map bnd mbind exc_bind mret exc_ret agrees]. rewrite Hcur in Hov. split.
    + split; [|done]. rewrite (abs_put k (Some e)) by done. unfold sp_set. cbn. f_equal. f_equal. f_equal.
      * rewrite Hsame at 1. apply map_eq. intros k'. rewrite lookup_fmap. destruct (decide (k = k')) as [<-|Hne].
        -- by rewrite !lookup_partial_alter_eq.
        -- by rewrite !lookup_partial_alter_ne, lookup_fmap.
      * by rewrite fmap_insert.
    + intros res t' [= <- <-]. cbn. split.
      * intros k' Hk'. destruct (decide (k = k')) as [<-|Hne]; [|by rewrite put_ne]. rewrite put_eq.
        unfold cur in *. destruct (mEntry t !! k) as [[]|]; try done; by destruct Hk'.
      * intros _. rewrite put_eq. unfold cur in *. destruct (mEntry t !! k) as [[]|]; done.
Qed.

Lemma sim_loadWithoutRecord k :
  agrees P REntry
    (do* throwIfSealed t in
     do* throwIfActive k "Key is active" t in
     match getNewestVersion (t :: parents) r k with
     | None => mret (None, t)
     | Some newest =>
         let* t := updateEntryIfRecorded k true (emplaceActive k (ConstEntry newest) t) in
         mret (Some newest, t)
     end) (specLoad ConstEntry k (absTxn P t)).
Proof using All.
  unfold throwIfSealed, specLoad, specThrowIfSealed. cbn [sp_sealed absTxn].
  destruct (mIsSealed t) eqn:Es; [done|]. cbn [bnd mbind exc_bind mret exc_ret].
  unfold throwIfActive, specThrowIfActive. rewrite abs_active.
  destruct (mActive t !! k) eqn:Ea; [done|]. cbn [fmap option_fmap option_map bnd mbind exc_bind mret exc_ret].
  rewrite Hnew, abs_entries. destruct (overlay (mEntry t) P !! k) as [e|] eqn:Ek; [|done].
  unfold emplaceActive. rewrite Ea.
  destruct (LevelInv_refresh owner P t Ht Es k true (<[k := ConstEntry e]> (mActive t))) as (mob & Hup & Hinv).
  - intros k' Hk'. by rewrite lookup_insert_ne.
  - intros i. rewrite lookup_insert_eq. intros [= <-]. done.
  - intros _. rewrite lookup_insert_eq. split; [done|eauto].
  - intros Hd. by rewrite overlay_lookup, Hd in Ek.
  - rewrite Hup. cbn. split; [|done]. unfold sp_set, absTxn. cbn. by rewrite fmap_insert.
Qed.

Lemma sim_deactivate k :
  agrees P (fun _ : unit => RUnit)
    (match mActive t !! k with
     | None => exc_throw (Throw "Key is not active")
     | Some _ => let* t := updateEntryIfRecorded k false t in mret (tt, eraseActive k t)
     end) (specDeactivate k (absTxn P t)).
Proof using All.
  unfold specDeactivate. rewrite abs_active. destruct (mActive t !! k) eqn:Ea; [|done]. cbn [fmap option_fmap option_map].
  assert (mIsSealed t = false) as Es.
  { apply not_true_is_false. intros Es. apply (li_sealed _ _ _ Ht) in Es. by rewrite Es in Ea. }
  destruct (LevelInv_refresh owner P t Ht Es k false (delete k (mActive t))) as (mob & Hup & Hinv).
  - intros k' Hk'. by rewrite lookup_delete_ne.
  - intros i. by rewrite lookup_delete_eq.
  - intros _. rewrite lookup_delete_eq. split; [by intros [? ?]|done].
  - apply (handle_not_deleted owner P t k Ht). by rewrite Ea.
  - specialize (Hup (mActive t)). replace (set_active (mActive t) t) with t in Hup by (by destruct t).
    rewrite Hup. cbn. split; [|by destruct t]. unfold sp_set, absTxn, eraseActive. cbn. by rewrite fmap_delete.
Qed.

Lemma sim_current k :
  agrees P (fun e => REntry (Some e))
    (match mActive t !! k with
     | None => exc_throw (Throw "LedgerTxnEntry not active")
     | Some (ConstEntry e) => mret (e, t)
     | Some MutableEntry =>
         match mEntry t !! k ≫= ptrGet with
         | Some e => mret (e, t)
         | None => exc_throw (NullPointer "mEntryPtr")
         end
     end) (specCurrent k (absTxn P t)).
Proof using All.
  unfold specCurrent. rewrite abs_active, abs_entries. destruct (mActive t !! k) as [i|] eqn:Ea; [|done].
  cbn [fmap option_fmap option_map]. destruct i as [|e].
  - destruct (active_recorded k Ea) as (p & e & Hp & Hg & Hov). rewrite Hp. cbn. rewrite Hg. cbn. by rewrite Hov.
  - pose proof (li_handle _ _ _ Ht k _ Ea) as Hh. cbn in Hh. cbn. by rewrite Hh.
Qed.

Lemma sim_assign k e :
  wfEntry owner e -> toKey e = k ->
  agrees P (fun _ : unit => RUnit)
    (match mActive t !! k with
     | Some MutableEntry =>
         match mEntry t !! k with
         | Some p => mret (tt, set_entry (<[k := ptrSet p e]> (mEntry t)) t)
         | None => exc_throw (NullPointer "mEntryPtr")
         end
     | _ => exc_throw (Throw "LedgerTxnEntry not active")
     end) (specAssign k e (absTxn P t)).
Proof using All.
  intros Hw Hk. unfold specAssign. rewrite abs_active. destruct (mActive t !! k) as [i|] eqn:Ea; [|done].
  destruct i as [|e0]; [|done]. cbn [fmap option_fmap option_map stripImpl].
  destruct (active_recorded k Ea) as (p & e0 & Hp & Hg & Hov). rewrite Hp. cbn.
  assert (ptrGet (ptrSet p e) = Some e) as Hg' by (by destruct p).
  assert (overlay (<[k := ptrSet p e]> (mEntry t)) P = <[k := e]> (overlay (mEntry t) P)) as Hov'.
  { apply map_eq. intros k'. rewrite overlay_lookup, !lookup_insert. case_decide; [done|]. by rewrite overlay_lookup. }
  split; [unfold absTxn, sp_set; cbn; by rewrite Hov', fmap_insert|].
  destruct Ht as [Hent Hwf Hhan Hbook Hworst Hseal]. constructor; cbn; [..|done].
  - intros k'. rewrite lookup_insert. case_decide as D; [subst|done]. specialize (Hent (toKey e)). rewrite Hp in Hent. by destruct p.
  - intros k' e'. rewrite lookup_insert. case_decide as D; [subst; cbn; rewrite Hg'; by intros [= <-]|apply Hwf].
  - intros k' i Hi. rewrite Hov', lookup_insert. unfold isRecorded. rewrite lookup_insert. case_decide as D.
    + subst. rewrite Ea in Hi. injection Hi as <-. split; [by apply bool_decide_eq_true|done].
    + by apply Hhan.
  - intros Es. apply (BookOK_active _ (mEntry t) _ _ k); [by rewrite Ea| |by apply Hbook].
    intros k' Hk'. by rewrite lookup_insert_ne.
  - intros b s w Hb. destruct (Hworst b s w Hb) as [Hv Hr]. split; [done|]. intros k' le o H1 H2 H3 H4 H5.
    rewrite lookup_insert. case_decide; [done|]. by apply (Hr k' le o).
Qed.

Lemma seal_inv : LevelInv owner P (snd (seal t)).
Proof using Ht.
  destruct (mIsSealed t) eqn:Es; [unfold seal; by rewrite Es|].
  assert (mEntry (snd (seal t)) = touchPtr t <$> mEntry t) as Em.
  { rewrite <- seal_entries. unfold seal. by rewrite Es. }
  assert (mIsSealed (snd (seal t)) = true /\ mActive (snd (seal t)) = ∅ /\
    mWorstBestOffer (snd (seal t)) = mWorstBestOffer t) as (E1 & E2 & E3) by (unfold seal; by rewrite Es).
  destruct Ht as [Hent Hwf Hhan Hbook Hworst Hseal]. constructor; rewrite ?Em, ?E1, ?E2, ?E3; try done.
  - intros k. rewrite lookup_fmap. specialize (Hent k). by destruct (mEntry t !! k) as [[]|].
  - intros k e. rewrite lookup_fmap. specialize (Hwf k). destruct (mEntry t !! k) as [p|]; [|done]. cbn in *.
    rewrite touchPtr_get. destruct (ptrGet p) as [e0|]; [|done]. intros [= <-]. rewrite touch_key, touch_wf. by apply Hwf.
  - intros b s w Hw. destruct (Hworst b s w Hw) as [Hv Hr]. split; [done|]. intros k le o H1 H2 H3 H4 H5.
    rewrite lookup_fmap, fmap_is_Some. by apply (Hr k le o).
Qed.

Lemma sim_seal :
  agrees P (fun _ : list LedgerEntry * list LedgerEntry * list LedgerKey => RUnit)
    (let '(entries, t) := seal t in
     let* res := noexcept (splitEntries (map_to_list entries)) in mret (res, t)) (specSeal (absTxn P t)).
Proof using All.
  destruct (splitEntries_ok (map_to_list (fst (seal t)))) as [res Hres].
  { intros k p e Hin He. apply elem_of_map_to_list in Hin. rewrite seal_entries, lookup_fmap_Some in Hin.
    destruct Hin as (q & <- & Hq). rewrite touchPtr_get in He. destruct (ptrGet q) as [e0|] eqn:Eq; [|done].
    injection He as <-. destruct (li_wf _ _ _ Ht (LedgerKeyOf k) e0) as [Hk _]; [by rewrite Hq|].
    destruct e0 as [le| | |]; try done. unfold touch. destruct (mIsSealed t), (mShouldUpdateLastModified t); cbn; eauto. }
  pose proof seal_inv as Hinv. pose proof (strip_overlay_seal P t) as Hov.
  destruct (seal t) as [entries t'] eqn:Eseal. cbn in *. rewrite Hres. cbn. split; [|done].
  unfold specSeal, absTxn. cbn. unfold seal in Eseal. destruct (mIsSealed t) eqn:Es; injection Eseal as <- <-; cbn in *.
  - by rewrite Es.
  - by rewrite Hov, fmap_empty.
Qed.

Lemma sim_loadHeader :
  agrees P RHeader
    (do* throwIfSealed t in
     if mActiveHeader t then exc_throw (Throw "LedgerTxnHeader is active")
     else mret (mHeader t, set_activeHeader true t)) (specLoadHeader (absTxn P t)).
Proof using All.
  unfold throwIfSealed, specLoadHeader, specThrowIfSealed. cbn [sp_sealed sp_activeHeader absTxn].
  destruct (mIsSealed t) eqn:Es; [done|]. cbn. destruct (mActiveHeader t); [done|]. cbn.
  unfold absTxn. cbn. rewrite Es. split; [done|]. destruct Ht. by constructor.
Qed.

Lemma sim_assignHeader h :
  agrees P (fun _ : unit => RUnit)
    (if mActiveHeader t then mret (tt, set_header h t)
     else exc_throw (Throw "LedgerTxnHeader not active")) (specAssignHeader h (absTxn P t)).
Proof using All.
  unfold specAssignHeader. cbn. destruct (mActiveHeader t) eqn:Eh; [|done]. cbn. unfold absTxn. cbn. rewrite Eh.
  split; [done|]. destruct Ht. by constructor.
Qed.

Lemma sim_deactivateHeader :
  agrees P (fun _ : unit => RUnit)
    (if mActiveHeader t then mret (tt, set_activeHeader false t)
     else exc_throw (Throw "LedgerTxnHeader is not active")) (specDeactivateHeader (absTxn P t)).
Proof using All.
  unfold specDeactivateHeader. cbn. destruct (mActiveHeader t) eqn:Eh; [|done]. cbn.
  split; [done|]. destruct Ht. by constructor.
Qed.

End Level.

(** ** The stack *)

Definition simulates (s : LedgerTxnStack) (c : outcome LedgerTxnStack Result) (g : outcome SpecStack Result) : Prop :=
  match c with
  | Ok res s' => g = Ok (stripResult res) (abs s') /\ StackOK s'
  | Err f s' => g = Err f (abs s') /\ StackOK s'
  end.

Lemma sim_onTxn {A} (ret : A -> Result) f g s :
  StackOK s ->
  (forall t parents, st_txns s = t :: parents ->
     agrees (viewOf parents (rDatabase (st_root s))) ret (f t parents (st_root s))
       (g (absTxn (viewOf parents (rDatabase (st_root s))) t))) ->
  simulates s ((let* a := onTxn f in mret (ret a)) s) (onSpec g (abs s)).
Proof.
  intros Hs Hag. pose proof Hs as (Hr & Hc & Hq). destruct s as [txns r]. cbn [st_txns st_root] in *.
  unfold onTxn, onSpec, bnd, mbind, M_bind. cbn [st_txns st_root abs sp_txns].
  destruct txns as [|t parents]; [done|]. specialize (Hag t parents eq_refl). cbn [absTxns].
  destruct (f t parents r) as [e|[a t']]; cbn in Hag.
  - rewrite Hag. done.
  - destruct Hag as [-> Hinv]. cbn. split; [done|]. split_and!; [done| |done]. cbn. split; [done|]. apply Hc.
Qed.

Section OpSim.
Context (t : LedgerTxnImpl) (parents : list LedgerTxnImpl) (r : RootImpl).
Hypotheses (Hs : StackOK (mkStack (t :: parents) r)).

Lemma top_inv : LevelInv owner (viewOf parents (rDatabase r)) t.
Proof using Hs. apply Hs. Qed.
Lemma top_parent_wf : wfView owner (viewOf parents (rDatabase r)).
Proof using Hs. apply viewOf_wf; apply Hs. Qed.
Lemma top_newest k : getNewestVersion (t :: parents) r k = overlay (mEntry t) (viewOf parents (rDatabase r)) !! k.
Proof using. by rewrite <- viewOf_lookup. Qed.

End OpSim.

Lemma overlay_empty P : overlay ∅ P = P.
Proof. apply map_eq. intros k. by rewrite overlay_lookup, lookup_empty. Qed.

Lemma newTxn_inv P h upd : LevelInv owner P (newTxn h upd).
Proof.
  constructor; cbn.
  - intros k. by rewrite lookup_empty.
  - intros k e. by rewrite lookup_empty.
  - intros k i. by rewrite lookup_empty.
  - intros _ b s. unfold bookOf, findOrderBook. rewrite lookup_empty. cbn. split; [constructor|].
    intros d k. rewrite elem_of_nil. split; [done|]. intros (le & o & H & _). by rewrite lookup_empty in H.
  - intros b s w. by rewrite lookup_empty.
  - done.
Qed.

Lemma sim_begin upd sqlTxn s :
  StackOK s -> simulates s (asUnit (beginTxn upd sqlTxn) s) (specBegin sqlTxn (abs s)).
Proof.
  intros Hs. pose proof Hs as (Hr & Hc & Hq). destruct s as [txns r]. unfold asUnit, beginTxn, specBegin, bnd, mbind, M_bind. cbn [st_txns st_root abs sp_txns] in *.
  destruct txns as [|t parents]; cbn [absTxns].
  - cbn. split.
    + unfold abs. cbn. unfold absTxn. cbn. by rewrite overlay_empty, fmap_empty.
    + split_and!; try done. cbn. split; [apply newTxn_inv|done].
  - destruct Hc as [Ht Hc]. unfold specThrowIfSealed. cbn [sp_sealed absTxn].
    destruct (mIsSealed t) eqn:Es.
    { unfold addChild, throwIfSealed. rewrite Es. done. }
    destruct (addChild_spec owner _ t Ht Es) as (mob & -> & Hinv). cbn. split.
    + unfold abs. cbn. unfold absTxn. cbn. rewrite overlay_empty, !fmap_empty. by rewrite Es.
    + split_and!; try done; cbn; [split_and!; [apply newTxn_inv|done|done]|]. constructor; [done|]. done.
Qed.

Lemma sim_rollback s : StackOK s -> simulates s (asUnit rollback s) (specRollback (abs s)).
Proof.
  intros (Hr & Hc & Hq). destruct s as [[|t [|p parents]] r]; cbn in *; try done.
  split; [done|]. split_and!; [done|apply Hc|by apply Forall_tail in Hq].
Qed.

(** ** Writing to the database *)

Lemma applyEntries_spec cons l : forall db,
  NoDup (l.*1) ->
  (forall k p, (LedgerKeyOf k, p) ∈ l ->
     match ptrGet p with Some e => exists le, e = LedgerEntryOf le | None => is_Some (db !! k) end) ->
  exists db', applyEntries l cons db = inr db' /\
    forall k, (exists p, (LedgerKeyOf k, p) ∈ l /\ LedgerEntryOf <$> db' !! k = ptrGet p) \/
              (LedgerKeyOf k ∉ l.*1 /\ db' !! k = db !! k).
Proof.
  induction l as [|[[k| | |] p] l IH]; intros db Hnd Hl; cbn.
  { exists db. split; [done|]. intros k. right. split; [set_solver|done]. }
  2, 3, 4: inversion_clear Hnd as [|? ? Hni Hnd']; destruct (IH db Hnd' ltac:(set_solver)) as (db' & -> & Hdb');
    exists db'; split; [done|]; intros k; destruct (Hdb' k) as [(q & Hin & Hq)|[Hn Hq]];
    [left; exists q; split; [set_solver|done]|right; split; [set_solver|done]].
  inversion_clear Hnd as [|? ? Hni Hnd'].
  assert (forall db0, (forall k', k' <> k -> db0 !! k' = db !! k') -> LedgerEntryOf <$> db0 !! k = ptrGet p ->
    exists db', applyEntries l cons db0 = inr db' /\
    forall k', (exists p', (LedgerKeyOf k', p') ∈ (LedgerKeyOf k, p) :: l /\ LedgerEntryOf <$> db' !! k' = ptrGet p') \/
      (LedgerKeyOf k' ∉ LedgerKeyOf k :: l.*1 /\ db' !! k' = db !! k')) as Hstep.
  { intros db0 Hne Heq. destruct (IH db0 Hnd') as (db' & -> & Hdb').
    { intros k' q Hin. specialize (Hl k' q ltac:(set_solver)). destruct (ptrGet q); [done|]. rewrite Hne; [done|].
      intros ->. apply Hni, list_elem_of_fmap. by exists (LedgerKeyOf k, q). }
    exists db'. split; [done|]. intros k'. destruct (Hdb' k') as [(q & Hin & Hq)|[Hn Hq]].
    - left. exists q. split; [set_solver|done].
    - destruct (decide (k' = k)) as [->|Hk].
      + left. exists p. split; [set_solver|]. by rewrite Hq.
      + right. rewrite Hne in Hq by done. split; [|done]. rewrite not_elem_of_cons. split; [congruence|done]. }
  pose proof (Hl k p ltac:(set_solver)) as Hp. destruct (ptrGet p) as [e|].
  - destruct Hp as [le ->]. cbn. apply Hstep; [intros k' Hk'; by rewrite lookup_insert_ne|by rewrite lookup_insert_eq].
  - destruct Hp as [le Hle]. rewrite Hle. apply Hstep; [intros k' Hk'; by rewrite lookup_delete_ne|by rewrite lookup_delete_eq].
Qed.

Lemma rootView_other db k : ~ isLedgerKey k -> rootView db !! k = None.
Proof. intros Hk. unfold rootView. rewrite (lookup_kmap_None LedgerKeyOf). intros k' ->. by destruct Hk. Qed.

Lemma rootCommit_spec t r :
  RootOK owner r -> LevelInv owner (rootView (rDatabase r)) t -> mTransaction r = true ->
  exists db', rootCommitChild (fst (seal t)) (snd (seal t)) r = inr (mkRoot db' (mHeader t) ∅ false) /\
    wfView owner (rootView db') /\
    strip <$> rootView db' = ledgerEntries (strip <$> overlay (mEntry t) (rootView (rDatabase r))).
Proof.
  intros [Hdb _] Ht Hsql. set (P := rootView (rDatabase r)) in *. unfold rootCommitChild. rewrite Hsql. cbn [negb].
  assert (mHeader (snd (seal t)) = mHeader t) as -> by (unfold seal; by destruct (mIsSealed t)).
  assert (forall k e, fst (seal t) !! LedgerKeyOf k ≫= ptrGet = Some e -> exists le, e = LedgerEntryOf le) as Hle.
  { intros k e. rewrite seal_entries, lookup_fmap. destruct (mEntry t !! LedgerKeyOf k) as [q|] eqn:Eq; [|done]. cbn.
    rewrite touchPtr_get. destruct (ptrGet q) as [e0|] eqn:E0; [|done]. intros [= <-].
    destruct (li_wf _ _ _ Ht (LedgerKeyOf k) e0) as [Hk _]; [by rewrite Eq|]. destruct e0 as [le| | |]; try done.
    unfold touch. destruct (mIsSealed t), (mShouldUpdateLastModified t); cbn; eauto. }
  destruct (applyEntries_spec (mConsistency (snd (seal t))) (map_to_list (fst (seal t))) (rDatabase r)) as (db' & -> & Hdb').
  { apply NoDup_fst_map_to_list. }
  { intros k p Hin. apply elem_of_map_to_list in Hin. destruct (ptrGet p) as [e|] eqn:Ep.
    - apply (Hle k e). by rewrite Hin.
    - rewrite seal_entries, lookup_fmap_Some in Hin. destruct Hin as (q & <- & Hq).
      pose proof (li_entry _ _ _ Ht (LedgerKeyOf k)) as Hent. rewrite Hq in Hent. destruct q; try done.
      cbn in Hent. unfold P in Hent. rewrite rootView_lookup in Hent. by apply fmap_is_Some in Hent. }
  assert (forall k, rootView db' !! LedgerKeyOf k = overlay (fst (seal t)) P !! LedgerKeyOf k) as Hview.
  { intros k. rewrite rootView_lookup, overlay_lookup. destruct (Hdb' k) as [(p & Hin & ->)|[Hn ->]].
    - apply elem_of_map_to_list in Hin. by rewrite Hin.
    - assert (fst (seal t) !! LedgerKeyOf k = None) as ->.
      { apply eq_None_not_Some. intros [p Hp]. apply Hn, list_elem_of_fmap. exists (LedgerKeyOf k, p).
        split; [done|]. by apply elem_of_map_to_list. }
      cbn. unfold P. by rewrite rootView_lookup. }
  exists db'. split; [done|]. split.
  - intros [k| | |] e; [rewrite Hview|rewrite rootView_other; [done|exact (fun H => H)]..]. apply overlay_wf; [done|].
    intros k' e'. rewrite seal_entries, lookup_fmap. destruct (mEntry t !! k') as [q|] eqn:Eq; [|done]. cbn.
    rewrite touchPtr_get. destruct (ptrGet q) as [e0|] eqn:E0; [|done]. intros [= <-]. rewrite touch_key, touch_wf.
    apply (li_wf _ _ _ Ht). by rewrite Eq.
  - rewrite <- strip_overlay_seal. apply map_eq. intros k. rewrite lookup_fmap. unfold ledgerEntries.
    destruct (decide (isLedgerKey k)) as [Hk|Hk].
    + destruct k as [k| | |]; try done. rewrite Hview, map_lookup_filter, lookup_fmap.
      destruct (overlay _ _ !! _); [|done]. cbn. by rewrite option_guard_True.
    + rewrite rootView_other by done. symmetry. apply map_lookup_filter_None. right. intros e _. by apply Hk.
Qed.

Lemma sim_commit s : StackOK s -> simulates s (asUnit commit s) (specCommit (abs s)).
Proof.
  intros Hs. pose proof Hs as (Hr & Hc & Hq). destruct s as [[|t [|p parents]] r]; [done|..]; cbn [st_txns st_root] in *;
    unfold asUnit, commit, bnd, mbind, M_bind, specCommit; cbn [st_txns st_root abs absTxns sp_txns sp_sqlTxn];
    pose proof (surjective_pairing (seal t)) as E; destruct (seal t) as [entries c] eqn:Eseal; cbn [fst snd] in E.
  - destruct (mTransaction r) eqn:Et; [|unfold rootCommitChild; rewrite Et; done].
    destruct Hc as [Ht _]. destruct (rootCommit_spec t r Hr Ht Et) as (db' & Hcom & Hwf & Hstrip).
    rewrite Eseal in Hcom. cbn [fst snd] in Hcom. rewrite Hcom. cbn. split.
    + unfold abs. cbn. by rewrite Hstrip.
    + split_and!; [split; [done|]|done|done]. intros b s c'. cbn. by rewrite lookup_empty.
  - destruct Hc as (Ht & Hp & Hc). cbn [tail] in Hq. apply Forall_cons in Hq as [[Ha Hse] Hq].
    destruct (commitChild_spec owner (viewOf parents (rDatabase r)) p t Hp Hse Ha Ht)
      as (p' & Hcom & Hinv & Hov & Hh & Ha' & Hs' & Hah).
    rewrite Eseal in Hcom, Hov. cbn [fst snd] in Hcom, Hov. rewrite Hcom. cbn. split.
    + unfold abs. cbn. unfold absTxn. cbn. rewrite Hov, Hh, Ha', Hs', Hah, Ha, Hse.
      replace entries with (fst (seal t)) by (by rewrite Eseal). by rewrite strip_overlay_seal.
    + split_and!; [done|cbn; by split|done].
Qed.

(** ** The best offer *)

Lemma worst_after_load P t t' b s res :
  wfView owner P -> wfView owner (overlay (mEntry t) P) -> IsBest (overlay (mEntry t) P) b s None res ->
  (forall k, is_Some (mEntry t !! k) -> is_Some (mEntry t' !! k)) ->
  (forall e, res = Some e -> is_Some (mEntry t' !! LedgerKeyOf (LedgerEntryKey e))) ->
  forall w, match res with None => w = None | Some e => exists o, le_data e = OFFER o /\ w = Some (descriptor o) end ->
  worstOK P (mEntry t') b s w.
Proof.
  intros HP HV Hbest Hrec Hres w Hw. split.
  - intros d ->. destruct res as [e|]; [|done]. destruct Hw as (o & Eo & [= ->]), Hbest as (o' & Ho' & _).
    destruct (wf_offerIn owner _ _ _ _ _ HV Ho') as [_ W]. destruct Ho' as (_ & Eo' & _).
    rewrite Eo in Eo'. injection Eo' as <-. by apply (wfOffer_valid owner).
  - intros k le o Hk Ho Hb Hse Hnw. destruct (mEntry t' !! LedgerKeyOf k) eqn:Ek; [eauto|exfalso].
    assert (mEntry t !! LedgerKeyOf k = None) as Ek0.
    { apply eq_None_not_Some. intros [q Hq]. destruct (Hrec (LedgerKeyOf k) ltac:(eauto)) as [q' Hq']. congruence. }
    destruct (HP _ _ Hk) as [Hkey _]. cbn in Hkey. injection Hkey as Hkey.
    assert (offerIn (overlay (mEntry t) P) b s le o) as Hin.
    { split_and!; try done. by rewrite Hkey, overlay_lookup, Ek0. }
    destruct res as [e|]; [|by apply (Hbest le o Hin)].
    destruct Hbest as (o' & (_ & Eo' & _) & _ & Hall), Hw as (o2 & Eo2 & ->).
    rewrite Eo' in Eo2. injection Eo2 as <-. destruct (Hall le o Hin I) as [->|Hbt]; [|by apply Hnw].
    destruct (Hres e eq_refl) as [q Hq]. rewrite Hkey in Hq. congruence.
Qed.

Section Best.
Context `{!OffersTable, !OffersTableLaws owner} (batch : nat) (Hbatch : (0 < batch)%nat).

Lemma sim_loadBestOffer b s st :
  StackOK st -> simulates st (asEntry (loadBestOffer batch b s) st) (onSpec (specLoadBestOffer b s) (abs st)).
Proof using All.
  intros Hst. pose proof Hst as (Hr & Hc & Hq). destruct st as [[|t parents] r]; cbn [st_txns st_root] in *; [done|].
  unfold asEntry, loadBestOffer, bnd, mbind, M_bind, onSpec, specLoadBestOffer, throwIfSealed, specThrowIfSealed.
  cbn [st_txns st_root abs absTxns sp_txns sp_sealed absTxn sp_active].
  destruct (mIsSealed t) eqn:Es; [done|]. cbn [bnd mbind exc_bind mret exc_ret].
  destruct (decide (mActive t = ∅)) as [Ha|Ha].
  2: { rewrite decide_False by (by rewrite fmap_empty_iff). cbn [getBestOffer]. by rewrite decide_False. }
  rewrite decide_True by (by rewrite Ha, fmap_empty).
  pose proof Hc as [Ht Hcp]. set (P := viewOf parents (rDatabase r)) in *.
  assert (wfView owner P) as HP by (by apply viewOf_wf; [apply Hr|]).
  assert (wfView owner (overlay (mEntry t) P)) as HV by (apply overlay_wf; [done|apply Ht]).
  destruct (getBestOffer_spec owner batch Hbatch (t :: parents) b s None r) as (res & cache & -> & Hr' & Hbest);
    [done|by constructor|done|done|].
  change (viewOf (t :: parents) (rDatabase r)) with (overlay (mEntry t) P) in Hbest.
  assert (bestOffer (sp_entries (absTxn P t)) b s = stripLedgerEntry <$> res) as ->.
  { apply (IsBest_unique (strip <$> overlay (mEntry t) P) b s); [by apply strip_view_wf|by apply bestOffer_correct, strip_view_wf|by apply strip_IsBest]. }
  destruct res as [e|]; cbn [fmap option_fmap option_map].
  - assert (forall k, getNewestVersion (t :: parents) (set_bestOffers cache r) k = overlay (mEntry t) P !! k) as Hnew
      by (intros k; by rewrite <- viewOf_lookup).
    destruct (sim_load P t parents (set_bestOffers cache r) HP Ht Hnew (LedgerKeyOf (LedgerEntryKey e))) as [Hag Hrec].
    change (LedgerEntryKey (stripLedgerEntry e)) with (LedgerEntryKey e).
    destruct (loadTxn _ t parents _) as [f|[found t']]; cbn in Hag; [rewrite Hag; done|].
    destruct Hag as [-> Hinv], (Hrec _ _ eq_refl) as (Hmono & Hkey). pose proof Hbest as (o & (Hin & Eo & Ho) & _).
    unfold dataOffer. rewrite Eo. cbn [mret exc_ret].
    destruct (updateWorst_fields (b, s) (Some (descriptor o)) t') as [m Em]. split.
    + unfold abs. cbn. by rewrite Em.
    + split_and!; [done|cbn; split; [|done]|done]. apply LevelInv_worst; [done|].
      apply (worst_after_load P t t' b s (Some e)); try done; [|by exists o].
      intros e' [= <-]. apply Hkey. eauto.
  - cbn. destruct (updateWorst_fields (b, s) None t) as [m Em]. split.
    + unfold abs. cbn. by rewrite Em.
    + split_and!; [done|cbn; split; [|done]|done]. apply LevelInv_worst; [done|].
      by apply (worst_after_load P t t b s None).
Qed.

Lemma exec_simulates op s : StackOK s -> legal op (abs s) -> simulates s (exec batch op s) (spec op (abs s)).
Proof using All.
  intros Hs Hl.
  assert (forall t parents, st_txns s = t :: parents ->
    let P := viewOf parents (rDatabase (st_root s)) in
    wfView owner P /\ LevelInv owner P t /\
    (forall k, getNewestVersion (t :: parents) (st_root s) k = overlay (mEntry t) P !! k) /\
    head (sp_txns (abs s)) = Some (absTxn P t)) as Htop.
  { intros t parents E P. destruct s as [txns r]. cbn in *. subst. split_and!.
    - by apply (top_parent_wf t).
    - by apply top_inv.
    - apply top_newest.
    - done. }
  destruct op; cbn [exec spec legal] in *;
    [by apply sim_begin|by apply sim_commit|by apply sim_rollback|..];
    try (by apply sim_loadBestOffer).
  all: first [apply (sim_onTxn (fun _ => RUnit))|apply (sim_onTxn REntry)|apply (sim_onTxn (fun e => REntry (Some e)))
             |apply (sim_onTxn RHeader)]; [done|]; intros t parents E;
    destruct (Htop t parents E) as (HP & Ht & Hnew & Hh); clear Htop.
  - by eapply sim_seal.
  - by eapply sim_create.
  - destruct Hl as [Hwf Hl]. eapply sim_write; try done. specialize (Hl _ Hh). rewrite abs_entries in Hl.
    apply fmap_None in Hl. by rewrite Hl.
  - destruct Hl as [Hwf Hl]. eapply sim_write; try done. specialize (Hl _ Hh). rewrite abs_entries in Hl.
    apply fmap_is_Some in Hl as [e' ->]. cbn. eauto.
  - by eapply sim_erase.
  - eapply sim_eraseWithoutLoading; try done. specialize (Hl _ Hh). rewrite abs_entries in Hl. by apply fmap_is_Some in Hl.
  - by eapply sim_load.
  - by eapply sim_loadWithoutRecord.
  - by eapply sim_current.
  - destruct Hl as [Hwf Hk]. by eapply sim_assign.
  - by eapply sim_deactivate.
  - by eapply sim_loadHeader.
  - by eapply sim_assignHeader.
  - by eapply sim_deactivateHeader.
Qed.

End Best.

End Owner.
