(* ===== verification/LedgerTxnFacts.v ===== *)
(** * Nested ledger transactions: the theorems

    Runs of operations from a fresh root: they behave as the specification of
    LedgerTxnSpec.v, the best offer is found wherever it was recorded, and an
    abandoned transaction leaves no trace. *)

From stdpp Require Import base list gmap strings.
From S2P Require Import Prelude Exchange Entries OfferOrder LedgerTxn LedgerTxnInv BestOffer SqlOffers LedgerTxnSpec.

Local Open Scope Z_scope.

#[local] Arguments decide : simpl never.
#[local] Arguments overlay : simpl never.
#[local] Arguments put : simpl never.

(** ** Runs *)

(** A run of operations: the caller goes on after an exception, the process ends
    at a failed assertion. *)
Fixpoint runOps {S} (step : Op -> M S Result) (ops : list Op) (s : S) : list (fault + Result) * S :=
  match ops with
  | [] => ([], s)
  | op :: rest =>
      match step op s with
      | Ok res s => let '(out, s) := runOps step rest s in (inr res :: out, s)
      | Err (Throw m) s => let '(out, s) := runOps step rest s in (inl (Throw m) :: out, s)
      | Err f s => ([inl f], s)
      end
  end.

Definition stripOutcome (r : fault + Result) : fault + Result :=
  match r with inr res => inr (stripResult res) | inl f => inl f end.

(** A root that was just opened on a database. *)
Definition openRoot (db : gmap LedgerKey LedgerEntry) (h : LedgerHeader) : LedgerTxnStack :=
  mkStack [] (mkRoot db h ∅ false).

Section Runs.
Context (owner : Z -> AccountID) (batch : nat).

Fixpoint legalRun (ops : list Op) (a : SpecStack) : Prop :=
  match ops with
  | [] => True
  | op :: rest =>
      legal owner op a /\
      match spec op a with
      | Ok _ a' | Err (Throw _) a' => legalRun rest a'
      | Err _ _ => True
      end
  end.

Lemma openRoot_ok db h : wfView owner (rootView db) -> StackOK owner (openRoot db h).
Proof. intros Hdb. split_and!; [split; [done|]|done|done]. intros b s c. cbn. by rewrite lookup_empty. Qed.

Lemma run_simulates ops : (0 < batch)%nat -> forall s,
  StackOK owner s -> legalRun ops (abs s) ->
  let c := runOps (exec batch) ops s in
  runOps spec ops (abs s) = (stripOutcome <$> fst c, abs (snd c)) /\ StackOK owner (snd c).
Proof.
  intros Hb. induction ops as [|op ops IH]; intros s Hs Hl; cbn; [done|]. destruct Hl as [Hop Hl].
  pose proof (exec_simulates owner batch Hb op s Hs Hop) as Hsim.
  destruct (exec batch op s) as [res s'|f s']; cbn in Hsim; destruct Hsim as [E Hs']; rewrite E in Hl |- *.
  - destruct (IH s' Hs' Hl) as [-> Hok]. destruct (runOps (exec batch) ops s') as [out s2]. done.
  - destruct f; try done. destruct (IH s' Hs' Hl) as [-> Hok]. destruct (runOps (exec batch) ops s') as [out s2]. done.
Qed.

(** Operations on the innermost transaction. *)
Definition isLocal (op : Op) : Prop :=
  match op with OpBegin _ _ | OpCommit | OpRollback => False | _ => True end.

(** They change nothing but that transaction and the root's cache. *)
Definition sameBelow (s s' : LedgerTxnStack) : Prop :=
  tail (st_txns s') = tail (st_txns s) /\ length (st_txns s') = length (st_txns s) /\
  exists cache, st_root s' = set_bestOffers cache (st_root s).

Definition final {S A} (o : outcome S A) : S := match o with Ok _ s | Err _ s => s end.

Lemma sameBelow_refl s : sameBelow s s.
Proof. split_and!; try done. exists (mBestOffers (st_root s)). by destruct (st_root s). Qed.

Lemma onTxn_below {A} f (s : LedgerTxnStack) (ret : A -> Result) :
  sameBelow s (final ((let* a := onTxn f in mret (ret a)) s)).
Proof.
  unfold onTxn, bnd, mbind, M_bind. destruct s as [[|t ps] r]; cbn; [apply sameBelow_refl|].
  destruct (f t ps r) as [e|[a t']]; cbn; [apply sameBelow_refl|]. split_and!; try done.
  exists (mBestOffers r). by destruct r.
Qed.

Lemma loadBestOffer_below b se s : (0 < batch)%nat -> StackOK owner s ->
  sameBelow s (final (asEntry (loadBestOffer batch b se) s)).
Proof.
  intros Hb (Hr & Hc & Hq). unfold asEntry, loadBestOffer, bnd, mbind, M_bind.
  destruct s as [[|t ps] r]; cbn [st_txns st_root] in *; [apply sameBelow_refl|].
  destruct (throwIfSealed t) as [f|] eqn:Es; [apply sameBelow_refl|].
  destruct (decide (mActive t = ∅)) as [Ha|Ha].
  2: { cbn [getBestOffer]. rewrite decide_False by done. apply sameBelow_refl. }
  destruct (getBestOffer_spec owner batch Hb (t :: ps) b se None r) as (res & cache & -> & _); try done.
  { constructor; [|done]. split; [done|]. unfold throwIfSealed in Es. by destruct (mIsSealed t). }
  destruct res as [e|]; [|cbn; split_and!; eauto].
  destruct (loadTxn _ t ps _) as [f|[found t']]; cbn; split_and!; eauto.
Qed.

Lemma exec_below op s : (0 < batch)%nat -> isLocal op -> StackOK owner s -> sameBelow s (final (exec batch op s)).
Proof.
  intros Hb Hl Hs. destruct op; try done; cbn [exec];
    first [by apply loadBestOffer_below
          |apply (onTxn_below _ s (fun _ => RUnit))|apply (onTxn_below _ s REntry)
          |apply (onTxn_below _ s (fun e => REntry (Some e)))|apply (onTxn_below _ s RHeader)].
Qed.

(** The specification of these operations only throws exceptions. *)
Lemma spec_local op a f a' : isLocal op -> spec op a = Err f a' -> exists m, f = Throw m.
Proof.
  intros Hl. unfold spec, onSpec. destruct op; try done; destruct (sp_txns a) as [|l ls]; try (intros [= <- _]; eauto);
    unfold specSeal, specCreate, specWrite, specErase, specEraseWithoutLoading, specLoadBestOffer, specLoad, specCurrent,
      specAssign, specDeactivate, specLoadHeader, specAssignHeader, specDeactivateHeader, specThrowIfSealed, specThrowIfActive,
      exc_throw, bnd, mbind, exc_bind, mret, exc_ret;
    repeat case_match; try congruence; intros; simplify_eq; eauto.
Qed.

(** A run of local operations goes through to its end. *)
Lemma run_local ops rest : (0 < batch)%nat -> Forall isLocal ops -> forall s,
  StackOK owner s -> legalRun (ops ++ rest) (abs s) ->
  exists s' out, runOps (exec batch) (ops ++ rest) s =
      (let '(out', s'') := runOps (exec batch) rest s' in (out ++ out', s'')) /\
    sameBelow s s' /\ StackOK owner s' /\ legalRun rest (abs s').
Proof.
  intros Hb. induction 1 as [|op ops Hop Hops IH]; intros s Hs Hl; cbn.
  { exists s, []. split_and!; try done; [by destruct (runOps _ rest s)|apply sameBelow_refl]. }
  destruct Hl as [Hle Hl]. pose proof (exec_simulates owner batch Hb op s Hs Hle) as Hsim.
  pose proof (exec_below op s Hb Hop Hs) as Hbel.
  destruct (exec batch op s) as [res s1|f s1]; cbn in Hsim, Hbel; destruct Hsim as [E Hs1];
    [|destruct (spec_local op _ _ _ Hop E) as [m ->]]; rewrite E in Hl;
    destruct (IH s1 Hs1 Hl) as (s' & out & -> & (B1 & B2 & c & B3) & Hok & Hl'), Hbel as (B1' & B2' & c' & B3');
    exists s'; eexists (_ :: out); (split; [by destruct (runOps _ rest s')|]);
    (split_and!; [|done|done]); (split_and!; [congruence|congruence|]); exists c; rewrite B3, B3'; by destruct (st_root s).
Qed.

End Runs.

(** ** The reported changes *)

Definition applyChange (m : gmap LedgerKey LedgerEntry) (c : LedgerEntryChange) : gmap LedgerKey LedgerEntry :=
  match c with
  | LEDGER_ENTRY_CREATED e | LEDGER_ENTRY_UPDATED e => <[LedgerEntryKey e := e]> m
  | LEDGER_ENTRY_REMOVED k => delete k m
  | LEDGER_ENTRY_STATE _ => m
  end.

Definition isEntryOf (k : LedgerKey) (e : InternalLedgerEntry) : Prop :=
  exists le, e = LedgerEntryOf le /\ LedgerEntryKey le = k.

Lemma entryChanges_spec k p prev :
  entryOK prev (Some p) -> (forall e, ptrGet p = Some e -> isEntryOf k e) -> (forall e, prev = Some e -> isEntryOf k e) ->
  exists cs, entryChanges k p prev = inr cs /\
    (forall e, LEDGER_ENTRY_STATE e ∈ cs -> LedgerEntryKey e = k /\ prev = Some (LedgerEntryOf e)) /\
    forall m, LedgerEntryOf <$> foldl applyChange m cs !! k = ptrGet p /\
      forall k', k' <> k -> foldl applyChange m cs !! k' = m !! k'.
Proof.
  intros Hok Hp Hprev. destruct p as [e|e|]; cbn in Hok.
  - destruct (Hp e eq_refl) as (le & -> & <-). cbn. eexists. split; [done|]. split; [set_solver|].
    intros m. cbn. split; [by rewrite lookup_insert_eq|]. intros k' Hk'. by rewrite lookup_insert_ne.
  - destruct Hok as [pe ->]. destruct (Hp e eq_refl) as (le & -> & <-), (Hprev pe eq_refl) as (pl & -> & Hk). cbn.
    eexists. split; [done|]. split; [intros x Hx; set_unfold in Hx; naive_solver|].
    intros m. cbn. split; [by rewrite lookup_insert_eq|]. intros k' Hk'. by rewrite lookup_insert_ne.
  - destruct Hok as [pe ->]. destruct (Hprev pe eq_refl) as (pl & -> & Hk). cbn.
    eexists. split; [done|]. split; [intros x Hx; set_unfold in Hx; naive_solver|].
    intros m. cbn. split; [by rewrite lookup_delete_eq|]. intros k' Hk'. by rewrite lookup_delete_ne.
Qed.

Lemma changesOf_spec parents r l :
  NoDup (l.*1) ->
  (forall k p, (LedgerKeyOf k, p) ∈ l ->
     entryOK (getNewestVersion parents r (LedgerKeyOf k)) (Some p) /\ (forall e, ptrGet p = Some e -> isEntryOf k e)) ->
  (forall k e, getNewestVersion parents r (LedgerKeyOf k) = Some e -> isEntryOf k e) ->
  exists cs, changesOf l parents r = inr cs /\
    (forall e, LEDGER_ENTRY_STATE e ∈ cs -> getNewestVersion parents r (LedgerKeyOf (LedgerEntryKey e)) = Some (LedgerEntryOf e)) /\
    forall m k, (exists p, (LedgerKeyOf k, p) ∈ l /\ LedgerEntryOf <$> foldl applyChange m cs !! k = ptrGet p) \/
      (LedgerKeyOf k ∉ l.*1 /\ foldl applyChange m cs !! k = m !! k).
Proof.
  intros Hnd Hl Hprev. induction l as [|[key p] l IH]; cbn.
  { exists []. split; [done|]. split; [set_solver|]. intros m k. right. split; [set_solver|done]. }
  inversion_clear Hnd as [|? ? Hni Hnd']. destruct IH as (cs & Ecs & Hst & Hcs); [done|set_solver|].
  destruct key as [k| | |].
  2, 3, 4: exists cs; rewrite Ecs; (split; [done|]); (split; [done|]); intros m k;
    destruct (Hcs m k) as [(q & Hin & Hq)|[Hn Hq]];
    [left; exists q; split; [set_solver|done]|right; split; [set_solver|done]].
  destruct (Hl k p ltac:(left)) as [Hok Hp]. destruct (entryChanges_spec k p _ Hok Hp (Hprev k)) as (c & -> & Hc & Happ).
  cbn. rewrite Ecs. cbn. eexists. split; [done|]. split.
  - intros e. rewrite elem_of_app. intros [He|He]; [|by apply Hst]. by apply Hc in He as [-> ?].
  - intros m k'. rewrite foldl_app. destruct (Happ m) as [Hk Hne]. destruct (Hcs (foldl applyChange m c) k') as [(q & Hin & Hq)|[Hn Hq]].
    + left. exists q. split; [set_solver|done].
    + destruct (decide (k' = k)) as [->|Hk']; [left; exists p; split; [set_solver|]; by rewrite Hq|right].
      rewrite Hq. split; [set_solver|by apply Hne].
Qed.

(** ** The theorems *)

(** C29: a stack of [LedgerTxn] objects on a root refines the plain specification.  From a root just opened on a
    well-formed database, any sequence of the operations of the interface (opening, committing and rolling back nested
    transactions, creating, loading, changing and erasing entries, loading the best offer, sealing, and the header)
    gives, operation by operation, the results and the exceptions of the stack of plain maps, and ends in a state that
    stands for the same stack; the recorded, merged and annihilated entries, the order books and the cached best offers
    do not show. *)
Theorem ledgerTxn_refines_spec (owner : Z -> AccountID) (batch : nat) db h ops :
  (0 < batch)%nat -> wfView owner (rootView db) -> legalRun owner ops (abs (openRoot db h)) ->
  let c := runOps (exec batch) ops (openRoot db h) in
  runOps spec ops (abs (openRoot db h)) = (stripOutcome <$> fst c, abs (snd c)).
Proof. intros Hb Hdb Hl. by apply (run_simulates owner batch ops Hb); [apply openRoot_ok|]. Qed.

(** C30: the best offer of a pair of assets is found wherever it is: in the order book of any of the nested
    transactions, in the root's cache or in the offers table.  After any sequence of operations that leaves no handle,
    [getBestOffer] returns the best of the offers of the current ledger that are worse than the given one, and nothing
    when there is none. *)
Theorem getBestOffer_is_best (owner : Z -> AccountID) (batch : nat) db h ops b s wt :
  (0 < batch)%nat -> wfView owner (rootView db) -> legalRun owner ops (abs (openRoot db h)) -> validWorse wt ->
  let st := snd (runOps (exec batch) ops (openRoot db h)) in
  Forall noHandles (st_txns st) ->
  exists res r', getBestOffer batch (st_txns st) b s wt (st_root st) = Ok res r' /\
    IsBest (viewOf (st_txns st) (rDatabase (st_root st))) b s wt res /\ rDatabase r' = rDatabase (st_root st).
Proof.
  intros Hb Hdb Hl Hwt st Hq. destruct (run_simulates owner batch ops Hb _ (openRoot_ok owner db h Hdb) Hl) as [_ (Hr & Hc & _)].
  destruct (getBestOffer_spec owner batch Hb (st_txns st) b s wt (st_root st) Hc Hq Hr Hwt) as (res & cache & E & _ & Hbest).
  by eexists res, _.
Qed.

(** An abandoned transaction leaves no trace.  Opening a transaction, making any operations in it and rolling it
    back gives back every entry, the header and the database as they were, whatever the operations created, changed,
    erased or threw. *)
Theorem rollback_leaves_no_trace (owner : Z -> AccountID) (batch : nat) upd sqlTxn ops s :
  (0 < batch)%nat -> StackOK owner s -> Forall (fun t => mIsSealed t = false) (st_txns s) -> Forall isLocal ops ->
  legalRun owner (OpBegin upd sqlTxn :: ops ++ [OpRollback]) (abs s) ->
  let s' := snd (runOps (exec batch) (OpBegin upd sqlTxn :: ops ++ [OpRollback]) s) in
  (forall k, getNewestVersion (st_txns s') (st_root s') k = getNewestVersion (st_txns s) (st_root s) k) /\
  getHeader (st_txns s') (st_root s') = getHeader (st_txns s) (st_root s) /\
  length (st_txns s') = length (st_txns s) /\ rDatabase (st_root s') = rDatabase (st_root s).
Proof.
  intros Hb Hs Hun Hloc [_ Hl] s'. pose proof (exec_simulates owner batch Hb (OpBegin upd sqlTxn) s Hs I) as Hsim.
  assert (exists below, length below = length (st_txns s) /\
    (forall k, getNewestVersion below (st_root s) k = getNewestVersion (st_txns s) (st_root s) k) /\
    getHeader below (st_root s) = getHeader (st_txns s) (st_root s) /\
    exists child r, exec batch (OpBegin upd sqlTxn) s = Ok RUnit (mkStack (child :: below) r) /\
      rDatabase r = rDatabase (st_root s) /\ rHeader r = rHeader (st_root s)) as (below & B1 & B2 & B3 & child & r & E & E1 & E2).
  { destruct s as [[|t ps] r]; cbn.
    - exists []. split_and!; try done. by eexists _, _.
    - destruct Hs as (_ & [Ht _] & _). apply Forall_cons in Hun as [Es _].
      unfold asUnit, beginTxn, bnd, mbind, M_bind. cbn. destruct (addChild_spec owner _ t Ht Es) as (mob & -> & _).
      exists (set_activeHeader false (set_active ∅ (set_book mob t)) :: ps). split_and!; [done|done|done|]. by eexists _, _. }
  rewrite E in Hsim. destruct Hsim as [Espec Hs1]. rewrite Espec in Hl.
  destruct (run_local owner batch ops [OpRollback] Hb Hloc _ Hs1 Hl) as (s2 & out & Erun & (T1 & T2 & cache & T3) & _).
  assert (s' = final (exec batch OpRollback s2)) as ->.
  { unfold s'. cbn [runOps]. rewrite E, Erun. cbn. destruct (asUnit rollback s2) as [? ?|[] ?]; done. }
  destruct s2 as [[|t2 ps2] r2]; [done|]. cbn in T1, T2, T3. subst ps2 r2.
  assert (forall r', rDatabase r' = rDatabase (st_root s) ->
    forall k, getNewestVersion below r' k = getNewestVersion (st_txns s) (st_root s) k) as Hk.
  { intros r' Hr' k. rewrite <- B2, <- !viewOf_lookup. by rewrite Hr'. }
  destruct below as [|p ps]; (split_and!; [by apply Hk|..]); cbn in *; unfold asUnit, bnd, mbind, M_bind; cbn; congruence.
Qed.

(** The changes a transaction reports account for everything it did.  Sealing a transaction with [getChanges]
    returns changes whose replay on the ledger below the transaction gives exactly the transaction's ledger, with the
    entries as they are stamped on sealing, and every reported previous state is the entry of the ledger below. *)
Theorem getChanges_replays (owner : Z -> AccountID) s t parents (m : gmap LedgerKey LedgerEntry) :
  StackOK owner s -> st_txns s = t :: parents -> mConsistency t = EXACT ->
  (forall k, LedgerEntryOf <$> m !! k = getNewestVersion parents (st_root s) (LedgerKeyOf k)) ->
  exists cs s', getChanges s = Ok cs s' /\
    (forall k, LedgerEntryOf <$> foldl applyChange m cs !! k = getNewestVersion (st_txns s') (st_root s') (LedgerKeyOf k)) /\
    (forall e, LEDGER_ENTRY_STATE e ∈ cs -> m !! LedgerEntryKey e = Some e).
Proof.
  intros (Hr & Hc & _) Et Hex Hm. destruct s as [txns r]. cbn [st_txns st_root] in *. subst txns. destruct Hc as [Ht Hc].
  set (P := viewOf parents (rDatabase r)) in *.
  assert (wfView owner P) as HP by (apply viewOf_wf; [apply Hr|done]).
  assert (forall k V e, wfView owner V -> V !! LedgerKeyOf k = Some e -> isEntryOf k e) as Hwf.
  { intros k V e HV He. destruct (HV _ _ He) as [Hk _]. destruct e as [le| | |]; try done. exists le. cbn in Hk.
    split; [done|congruence]. }
  pose proof (seal_inv owner P t Ht) as Hinv.
  assert (mEntry (snd (seal t)) = fst (seal t)) as Eent by (unfold seal; by destruct (mIsSealed t)).
  unfold getChanges, onTxn, throwIfNotExactConsistency. cbn [st_txns st_root]. rewrite Hex. cbn.
  destruct (changesOf_spec parents r (map_to_list (fst (seal t)))) as (cs & Ecs & Hst & Hcs).
  - apply NoDup_fst_map_to_list.
  - intros k p Hin. apply elem_of_map_to_list in Hin. rewrite <- Eent in Hin. split.
    + pose proof (li_entry _ _ _ Hinv (LedgerKeyOf k)) as Hok. rewrite Hin in Hok. unfold P in Hok. by rewrite viewOf_lookup in Hok.
    + intros e He. apply (Hwf k (overlay (mEntry (snd (seal t))) P)); [by apply overlay_wf; [|apply Hinv]|].
      by rewrite overlay_lookup, Hin.
  - intros k e He. apply (Hwf k P); [done|]. unfold P. by rewrite viewOf_lookup.
  - destruct (seal t) as [entries t'] eqn:Es. cbn in *. rewrite Ecs. cbn. eexists cs, _. split; [done|]. cbn. split.
    + intros k. rewrite Eent. destruct (Hcs m k) as [(p & Hin & ->)|[Hn ->]].
      * apply elem_of_map_to_list in Hin. by rewrite Hin.
      * assert (entries !! LedgerKeyOf k = None) as ->; [|apply Hm]. apply eq_None_not_Some. intros [p Hp].
        apply Hn, list_elem_of_fmap. exists (LedgerKeyOf k, p). split; [done|]. by apply elem_of_map_to_list.
    + intros e He. apply Hst in He. rewrite <- Hm in He. destruct (m !! LedgerEntryKey e); [|done]. cbn in He. congruence.
Qed.

(** ** A concrete ledger *)

Module Sample.
Definition seller : AccountID := 7.
Definition usd : Asset := ASSET_TYPE_CREDIT_ALPHANUM4 [85; 83; 68; 0] 1.
Definition offer (i n d : Z) : LedgerEntry :=
  mkEntry 3 (OFFER (mkOffer seller i usd ASSET_TYPE_NATIVE 100 (mkPrice n d) 0)) None.
Definition db : gmap LedgerKey LedgerEntry :=
  list_to_map ((fun e => (LedgerEntryKey e, e)) <$> [offer 1 3 2; offer 2 1 1; offer 3 5 4]).
Definition header : LedgerHeader := mkHeader 19 0 (mkHcnetValue 0 0 []) 0 0 4 0 0 0 10 100 5000000 100 [] None.
Definition key (i : Z) : InternalLedgerKey := LedgerKeyOf (KEY_OFFER seller i).

Definition ops : list Op :=
  [OpBegin true true; OpLoadBestOffer ASSET_TYPE_NATIVE usd; OpErase (key 2);
   OpBegin true false; OpCreate (LedgerEntryOf (offer 4 6 5)); OpDeactivate (key 4);
   OpLoadBestOffer ASSET_TYPE_NATIVE usd; OpLoad (key 4); OpErase (key 4); OpErase (key 4);
   OpLoadBestOffer ASSET_TYPE_NATIVE usd; OpDeactivate (key 3); OpCommit; OpCommit].

Definition owner (_ : Z) : AccountID := seller.

Lemma wf_of_list l :
  Forall (fun e => wfEntry owner (LedgerEntryOf e)) l ->
  wfView owner (rootView (list_to_map ((fun e => (LedgerEntryKey e, e)) <$> l))).
Proof.
  intros Hl [k| | |] e; [rewrite rootView_lookup|rewrite rootView_other; [done|exact (fun H => H)]..].
  destruct (list_to_map _ !! k) as [le|] eqn:E; [|done]. intros [= <-].
  apply elem_of_list_to_map_2, list_elem_of_fmap in E as (e & [= -> ->] & Hin). split; [done|].
  rewrite Forall_forall in Hl. by apply Hl.
Qed.

Lemma db_wf : wfView owner (rootView db).
Proof. apply wf_of_list. repeat constructor; discriminate. Qed.

Lemma ops_legal : legalRun owner ops (abs (openRoot db header)).
Proof. vm_compute. repeat constructor; discriminate. Qed.

(** The operations of a transaction that is rolled back, in the middle of another one. *)
Definition before : LedgerTxnStack :=
  snd (runOps (exec 2) [OpBegin true true; OpLoad (key 2)] (openRoot db header)).
Definition inner : list Op :=
  [OpErase (key 1); OpCreate (LedgerEntryOf (offer 5 1 3)); OpLoad (key 1); OpDeactivate (key 5);
   OpLoadBestOffer ASSET_TYPE_NATIVE usd].

Lemma ops_end : st_txns (snd (runOps (exec 2) ops (openRoot db header))) = [].
Proof. apply nil_length_inv. vm_compute. reflexivity. Qed.

Lemma before_ok : StackOK owner before.
Proof. apply (run_simulates owner 2); [lia|apply openRoot_ok, db_wf|vm_compute; repeat constructor]. Qed.
Lemma before_unsealed : Forall (fun t => mIsSealed t = false) (st_txns before).
Proof.
  assert (forallb (fun t => negb (mIsSealed t)) (st_txns before) = true) as Hall by (vm_compute; reflexivity).
  apply Forall_forall. intros t Ht. rewrite forallb_forall in Hall. apply negb_true_iff, Hall. by apply list_elem_of_In.
Qed.
Lemma inner_legal : legalRun owner (OpBegin false false :: inner ++ [OpRollback]) (abs before).
Proof. vm_compute. repeat constructor; discriminate. Qed.

(** A transaction that created, changed and erased offers. *)
Definition changed : LedgerTxnStack :=
  snd (runOps (exec 2)
    [OpBegin true true; OpErase (key 1); OpCreate (LedgerEntryOf (offer 5 1 3)); OpLoad (key 3);
     OpAssign (key 3) (LedgerEntryOf (offer 3 7 4))] (openRoot db header)).
Definition changedTxn : LedgerTxnImpl := default (newTxn header true) (head (st_txns changed)).

Lemma changed_ok : StackOK owner changed.
Proof. apply (run_simulates owner 2); [lia|apply openRoot_ok, db_wf|vm_compute; repeat constructor; discriminate]. Qed.
Lemma changed_txns : st_txns changed = [changedTxn].
Proof.
  assert (length (st_txns changed) = 1%nat) as Hl by (vm_compute; reflexivity).
  unfold changedTxn. destruct (st_txns changed) as [|t [|]]; done.
Qed.
End Sample.

Lemma ledgerTxn_refines_spec_witness :
  let c := runOps (exec 5) Sample.ops (openRoot Sample.db Sample.header) in
  runOps spec Sample.ops (abs (openRoot Sample.db Sample.header)) = (stripOutcome <$> fst c, abs (snd c)) /\
  rDatabase (st_root (snd c)) !! KEY_OFFER Sample.seller 2 = None.
Proof.
  intros c. split; [|by vm_compute]. apply (ledgerTxn_refines_spec Sample.owner 5); [lia|exact Sample.db_wf|exact Sample.ops_legal].
Defined.

Lemma getBestOffer_is_best_witness :
  let st := snd (runOps (exec 2) Sample.ops (openRoot Sample.db Sample.header)) in
  exists res r', getBestOffer 2 (st_txns st) ASSET_TYPE_NATIVE Sample.usd (Some (mkDescriptor (mkPrice 5 4) 3)) (st_root st) = Ok res r' /\
    IsBest (viewOf (st_txns st) (rDatabase (st_root st))) ASSET_TYPE_NATIVE Sample.usd (Some (mkDescriptor (mkPrice 5 4) 3)) res /\
    rDatabase r' = rDatabase (st_root st).
Proof.
  apply (getBestOffer_is_best Sample.owner 2 Sample.db Sample.header Sample.ops);
    [lia|exact Sample.db_wf|exact Sample.ops_legal|repeat constructor; discriminate|].
  rewrite Sample.ops_end. constructor.
Defined.

Lemma rollback_leaves_no_trace_witness :
  let s' := snd (runOps (exec 2) (OpBegin false false :: Sample.inner ++ [OpRollback]) Sample.before) in
  (forall k, getNewestVersion (st_txns s') (st_root s') k = getNewestVersion (st_txns Sample.before) (st_root Sample.before) k) /\
  getHeader (st_txns s') (st_root s') = getHeader (st_txns Sample.before) (st_root Sample.before) /\
  length (st_txns s') = length (st_txns Sample.before) /\ rDatabase (st_root s') = rDatabase (st_root Sample.before).
Proof.
  apply (rollback_leaves_no_trace Sample.owner 2 false false Sample.inner Sample.before);
    [lia|exact Sample.before_ok|exact Sample.before_unsealed|repeat constructor|exact Sample.inner_legal].
Defined.

Lemma getChanges_replays_witness :
  exists cs s', getChanges Sample.changed = Ok cs s' /\
    (forall k, LedgerEntryOf <$> foldl applyChange (rDatabase (st_root Sample.changed)) cs !! k = getNewestVersion (st_txns s') (st_root s') (LedgerKeyOf k)) /\
    (forall e, LEDGER_ENTRY_STATE e ∈ cs -> rDatabase (st_root Sample.changed) !! LedgerEntryKey e = Some e).
Proof.
  apply (getChanges_replays Sample.owner Sample.changed Sample.changedTxn []);
    [exact Sample.changed_ok|exact Sample.changed_txns|vm_compute; reflexivity|].
  intros k. reflexivity.
Defined.
