(* ===== verification/BitSet.v ===== *)
(** * Bit sets

    The value-semantic wrapper of [util/BitSet.h] around the arrays of 64-bit words
    of [lib/util/cbitset.c].  A bit set is the list of its words; two bit sets with
    the same members may have different numbers of words, and the operations that
    look at two bit sets treat the missing words of the shorter one each in its own
    way. *)

From stdpp Require Import base list gmap sets.
From S2P Require Import Prelude.

Import Width.
Local Open Scope Z_scope.

(** ** Words *)

(** [bitset_popcountll], [bitset_ctzll] and [63 - bitset_clzll]. *)
Definition popcountll (w : Z) : nat := length (filter (fun k => Z.testbit w (Z.of_nat k) = true) (seq 0 64)).
Definition ctzll (w : Z) : nat := default 64%nat (head (filter (fun k => Z.testbit w (Z.of_nat k) = true) (seq 0 64))).
Definition highestBit (w : Z) : nat := Z.to_nat (Z.log2 w).

#[global] Arguments popcountll : simpl never.
#[global] Arguments ctzll : simpl never.

Definition not64 (w : Z) : Z := u64 (Z.lnot w).
Definition bit64 (i : nat) : Z := Z.shiftl 1 (Z.of_nat (i mod 64)).

(** ** Bit sets *)

Notation BitSet := (list Z).

(** [BitSet()] and [BitSet(n)]. *)
Definition emptyBitSet : BitSet := [0].
Definition bitSetWithCapacity (nBits : nat) : BitSet := replicate (Nat.max 1 ((nBits + 63) / 64)) 0.

(** [bitset_grow] and [bitset_resize] with padding. *)
Definition bitset_grow (nWords : nat) (b : BitSet) : BitSet := b ++ replicate (nWords - length b) 0.

Definition bitset_set (b : BitSet) (i : nat) : BitSet :=
  let b := bitset_grow (i / 64 + 1) b in
  alter (fun w => Z.lor w (bit64 i)) (i / 64)%nat b.

Definition bitset_unset (b : BitSet) (i : nat) : BitSet :=
  alter (fun w => Z.land w (not64 (bit64 i))) (i / 64)%nat b.

Definition bitset_get (b : BitSet) (i : nat) : bool :=
  match b !! (i / 64)%nat with
  | None => false
  | Some w => negb (Z.land w (bit64 i) =? 0)
  end.

Definition bitset_count (b : BitSet) : nat := list_sum (popcountll <$> b).

Definition bitset_intersection_count (b1 b2 : BitSet) : nat :=
  list_sum (popcountll <$> zip_with Z.land b1 b2).

(** The words of the longer operand are kept. *)
Fixpoint bitset_inplace_union (b1 b2 : BitSet) : BitSet :=
  match b1, b2 with
  | w1 :: b1, w2 :: b2 => Z.lor w1 w2 :: bitset_inplace_union b1 b2
  | [], _ => b2
  | _, [] => b1
  end.

(** The words of the first operand beyond the second are cleared. *)
Fixpoint bitset_inplace_intersection (b1 b2 : BitSet) : BitSet :=
  match b1, b2 with
  | w1 :: b1, w2 :: b2 => Z.land w1 w2 :: bitset_inplace_intersection b1 b2
  | w1 :: b1, [] => 0 :: bitset_inplace_intersection b1 []
  | [], _ => []
  end.

(** The words of the first operand beyond the second are kept. *)
Fixpoint bitset_inplace_difference (b1 b2 : BitSet) : BitSet :=
  match b1, b2 with
  | w1 :: b1, w2 :: b2 => Z.land w1 (not64 w2) :: bitset_inplace_difference b1 b2
  | _, [] => b1
  | [], _ => []
  end.

(** The words both have are compared. *)
Definition bitset_equal (b1 b2 : BitSet) : bool :=
  forallb (fun x => fst x =? snd x) (zip b1 b2).
Definition bitset_subseteq (b1 b2 : BitSet) : bool :=
  forallb (fun x => Z.land (fst x) (snd x) =? fst x) (zip b1 b2).

(** The loop of [nextSetBit] over the words from number [x] on. *)
Fixpoint nextWord (x : nat) (ws : list Z) : option nat :=
  match ws with
  | [] => None
  | w :: ws => if w =? 0 then nextWord (S x) ws else Some (x * 64 + ctzll w)%nat
  end.

Definition nextSetBit (b : BitSet) (i : nat) : option nat :=
  let x := (i / 64)%nat in
  match drop x b with
  | [] => None
  | w :: ws =>
      let w := Z.shiftr w (Z.of_nat (i mod 64)) in
      if w =? 0 then nextWord (S x) ws else Some (i + ctzll w)%nat
  end.

Fixpoint maximumFrom (k : nat) (ws : list Z) : nat :=
  match ws with
  | [] => 0
  | w :: ws => if w =? 0 then maximumFrom (k - 1) ws else (highestBit w + (k - 1) * 64)%nat
  end.
Definition bitset_maximum (b : BitSet) : nat := maximumFrom (length b) (rev b).

(** [empty] asks for the first member. *)
Definition bs_empty (b : BitSet) : bool := match nextSetBit b 0 with Some _ => false | None => true end.

(** The members visited by [for (size_t i = 0; b.nextSet(i); ++i)]. *)
Fixpoint bitsFrom (fuel : nat) (b : BitSet) (i : nat) : list nat :=
  match fuel with
  | O => []
  | S fuel => match nextSetBit b i with None => [] | Some j => j :: bitsFrom fuel b (S j) end
  end.
Definition bits (b : BitSet) : list nat := bitsFrom (64 * length b) b 0.

(** ** What the operations mean *)

Definition wordOK (w : Z) : Prop := 0 <= w < 2 ^ 64.
Definition bsOK (b : BitSet) : Prop := Forall wordOK b.

Definition toSet (b : BitSet) : gset nat :=
  list_to_set (filter (fun i => bitset_get b i = true) (seq 0 (64 * length b))).

Lemma bit64_testbit i k : 0 <= k -> Z.testbit (bit64 i) k = (k =? Z.of_nat (i mod 64)).
Proof.
  intros Hk. unfold bit64. rewrite Z.shiftl_spec by lia. destruct (Z.eqb_spec k (Z.of_nat (i mod 64))) as [->|Hne].
  - by rewrite Z.sub_diag.
  - destruct (Z.lt_trichotomy k (Z.of_nat (i mod 64))) as [H|[H|H]]; [|lia|].
    + apply Z.testbit_neg_r. lia.
    + change 1 with (2 ^ 0). rewrite Z.pow2_bits_eqb by lia. apply Z.eqb_neq. lia.
Qed.

Lemma bitset_get_testbit b i :
  bitset_get b i = match b !! (i / 64)%nat with None => false | Some w => Z.testbit w (Z.of_nat (i mod 64)) end.
Proof.
  unfold bitset_get. destruct (b !! _) as [w|]; [|done]. apply eq_bool_prop_intro.
  rewrite !Is_true_true, negb_true_iff, Z.eqb_neq. split.
  - intros Hne. destruct (Z.testbit w (Z.of_nat (i mod 64))) eqn:E; [done|]. destruct Hne. apply Z.bits_inj'. intros k Hk.
    rewrite Z.land_spec, bit64_testbit, Z.bits_0 by done. destruct (Z.eqb_spec k (Z.of_nat (i mod 64))) as [->|]; [by rewrite E|].
    apply andb_false_r.
  - intros Ht H0. assert (Z.testbit (Z.land w (bit64 i)) (Z.of_nat (i mod 64)) = true) as H1.
    { rewrite Z.land_spec, bit64_testbit, Ht, Z.eqb_refl by lia. done. }
    by rewrite H0, Z.bits_0 in H1.
Qed.

Lemma elem_toSet b i : i ∈ toSet b <-> bitset_get b i = true.
Proof.
  unfold toSet. rewrite elem_of_list_to_set, list_elem_of_filter, elem_of_seq. split; [by intros [? _]|].
  intros H. split; [done|]. rewrite bitset_get_testbit in H.
  destruct (b !! (i / 64)%nat) eqn:E; [|done]. apply lookup_lt_Some in E.
  pose proof (Nat.div_mod_eq i 64). pose proof (Nat.mod_upper_bound i 64). lia.
Qed.

(** The bit of word [x], position [k]. *)
Definition bitAt (b : BitSet) (x : nat) (k : Z) : bool :=
  match b !! x with None => false | Some w => Z.testbit w k end.

Lemma get_bitAt b i : bitset_get b i = bitAt b (i / 64) (Z.of_nat (i mod 64)).
Proof. apply bitset_get_testbit. Qed.

Lemma pos_lt i : 0 <= Z.of_nat (i mod 64) < 64.
Proof. pose proof (Nat.mod_upper_bound i 64). lia. Qed.

Lemma not64_testbit w k : 0 <= k < 64 -> Z.testbit (not64 w) k = negb (Z.testbit w k).
Proof.
  intros Hk. unfold not64, u64. change 18446744073709551616 with (2 ^ 64).
  rewrite Z.mod_pow2_bits_low by lia. by rewrite Z.lnot_spec by lia.
Qed.

Lemma not64_ok w : wordOK (not64 w).
Proof. unfold wordOK, not64, u64. change 18446744073709551616 with (2 ^ 64). apply Z.mod_pos_bound. lia. Qed.

(** A word is below [2^64] when its higher bits are clear. *)
Lemma wordOK_bits w : 0 <= w -> (forall k, 64 <= k -> Z.testbit w k = false) -> wordOK w.
Proof.
  intros H0 H. split; [done|]. destruct (Z.eq_dec w 0) as [->|Hne]; [lia|].
  apply Z.log2_lt_pow2; [lia|]. destruct (Z.lt_ge_cases (Z.log2 w) 64) as [|Hge]; [done|].
  specialize (H _ Hge). rewrite Z.bit_log2 in H by lia. done.
Qed.

Lemma wordOK_high w k : wordOK w -> 64 <= k -> Z.testbit w k = false.
Proof.
  intros [H0 H1] Hk. destruct (Z.eq_dec w 0) as [->|Hne]; [apply Z.bits_0|].
  apply Z.bits_above_log2; [done|]. apply Z.log2_lt_pow2 in H1; lia.
Qed.

Lemma land_ok a b : wordOK a -> 0 <= b -> wordOK (Z.land a b).
Proof.
  intros Ha Hb. apply wordOK_bits; [apply Z.land_nonneg; left; apply Ha|]. intros k Hk.
  rewrite Z.land_spec. by rewrite (wordOK_high a).
Qed.

Lemma lor_ok a b : wordOK a -> wordOK b -> wordOK (Z.lor a b).
Proof.
  intros Ha Hb. apply wordOK_bits; [apply Z.lor_nonneg; split; [apply Ha|apply Hb]|]. intros k Hk.
  rewrite Z.lor_spec. by rewrite (wordOK_high a), (wordOK_high b).
Qed.

Lemma bit64_ok i : wordOK (bit64 i).
Proof.
  apply wordOK_bits; [unfold bit64; apply Z.shiftl_nonneg; lia|]. intros k Hk.
  rewrite bit64_testbit by lia. apply Z.eqb_neq. pose proof (pos_lt i). lia.
Qed.

Lemma zero_ok : wordOK 0.
Proof. unfold wordOK. lia. Qed.

Lemma replicate_ok n : bsOK (replicate n 0).
Proof. apply Forall_replicate, zero_ok. Qed.

Lemma grow_ok n b : bsOK b -> bsOK (bitset_grow n b).
Proof. intros Hb. apply Forall_app. split; [done|apply replicate_ok]. Qed.

Lemma grow_bitAt n b x k : 0 <= k -> bitAt (bitset_grow n b) x k = bitAt b x k.
Proof.
  intros Hk. unfold bitAt, bitset_grow. destruct (b !! x) as [w|] eqn:E; [by rewrite (lookup_app_l_Some _ _ _ _ E)|].
  rewrite lookup_app_r by (by apply lookup_ge_None). destruct (replicate _ _ !! _) as [w|] eqn:E'; [|done].
  apply lookup_replicate in E' as [-> _]. apply Z.bits_0.
Qed.

Lemma alter_bitAt f b x y k :
  bitAt (alter f y b) x k = match b !! x with
                            | None => false
                            | Some w => if decide (x = y) then Z.testbit (f w) k else Z.testbit w k
                            end.
Proof.
  unfold bitAt. destruct (decide (x = y)) as [->|Hne].
  - rewrite list_lookup_alter_eq. by destruct (b !! y).
  - rewrite list_lookup_alter_ne by done. done.
Qed.

Lemma alter_ok f b x : (forall w, wordOK w -> wordOK (f w)) -> bsOK b -> bsOK (alter f x b).
Proof. intros Hf Hb. apply Forall_alter; [done|]. intros w _ Hw. by apply Hf. Qed.

Lemma set_ok b i : bsOK b -> bsOK (bitset_set b i).
Proof. intros Hb. apply alter_ok; [intros w Hw; apply lor_ok; [done|apply bit64_ok]|by apply grow_ok]. Qed.

Lemma unset_ok b i : bsOK b -> bsOK (bitset_unset b i).
Proof. intros Hb. apply alter_ok; [|done]. intros w Hw. apply land_ok; [done|apply not64_ok]. Qed.

Lemma same_bit i j : i = j <-> (i / 64 = j / 64)%nat /\ Z.of_nat (i mod 64) = Z.of_nat (j mod 64).
Proof. pose proof (Nat.div_mod_eq i 64). pose proof (Nat.div_mod_eq j 64). split; [by intros ->|lia]. Qed.

Lemma get_set b i j : bitset_get (bitset_set b i) j = bool_decide (i = j) || bitset_get b j.
Proof.
  rewrite !get_bitAt. unfold bitset_set. rewrite alter_bitAt, <- (grow_bitAt (i / 64 + 1)) by lia.
  unfold bitAt at 1. set (g := bitset_grow (i / 64 + 1) b).
  destruct (g !! (j / 64)%nat) as [w|] eqn:E.
  - case_decide as Hx.
    + rewrite Z.lor_spec, bit64_testbit by lia. rewrite orb_comm. f_equal. apply eq_bool_prop_intro.
      rewrite !Is_true_true, bool_decide_eq_true, Z.eqb_eq. rewrite (same_bit i j). intuition lia.
    + rewrite bool_decide_eq_false_2; [done|]. intros ->. done.
  - rewrite bool_decide_eq_false_2; [done|]. intros ->. apply lookup_ge_None in E. unfold g, bitset_grow in E.
    rewrite length_app, length_replicate in E. lia.
Qed.

Lemma get_unset b i j : bitset_get (bitset_unset b i) j = negb (bool_decide (i = j)) && bitset_get b j.
Proof.
  rewrite !get_bitAt. unfold bitset_unset. rewrite alter_bitAt. unfold bitAt at 1.
  destruct (b !! (j / 64)%nat) as [w|] eqn:E; [|by rewrite andb_false_r].
  case_decide as Hx.
  - rewrite Z.land_spec, not64_testbit, bit64_testbit by (pose proof (pos_lt j); lia). rewrite andb_comm. f_equal. f_equal.
    apply eq_bool_prop_intro. rewrite !Is_true_true, bool_decide_eq_true, Z.eqb_eq. rewrite (same_bit i j). intuition lia.
  - rewrite bool_decide_eq_false_2; [done|]. intros ->. done.
Qed.

(** ** Two operands *)

Lemma union_lookup b1 b2 x :
  bitset_inplace_union b1 b2 !! x = union_with (fun w1 w2 => Some (Z.lor w1 w2)) (b1 !! x) (b2 !! x).
Proof.
  revert b2 x. induction b1 as [|w1 b1 IH]; intros [|w2 b2] [|x]; cbn; try done.
  - by destruct (b2 !! x).
  - by destruct (b1 !! x).
Qed.

Lemma inter_lookup b1 b2 x :
  bitset_inplace_intersection b1 b2 !! x = (fun w1 => match b2 !! x with Some w2 => Z.land w1 w2 | None => 0 end) <$> b1 !! x.
Proof. revert b2 x. induction b1 as [|w1 b1 IH]; intros [|w2 b2] [|x]; cbn; try done; by rewrite IH. Qed.

Lemma diff_lookup b1 b2 x :
  bitset_inplace_difference b1 b2 !! x =
  (fun w1 => match b2 !! x with Some w2 => Z.land w1 (not64 w2) | None => w1 end) <$> b1 !! x.
Proof.
  revert b2 x. induction b1 as [|w1 b1 IH]; intros [|w2 b2] [|x]; cbn; try done.
  by destruct (b1 !! x).
Qed.

Lemma get_union b1 b2 i : bitset_get (bitset_inplace_union b1 b2) i = bitset_get b1 i || bitset_get b2 i.
Proof.
  rewrite !get_bitAt. unfold bitAt. rewrite union_lookup.
  destruct (b1 !! _), (b2 !! _); cbn; rewrite ?Z.lor_spec, ?orb_false_r; done.
Qed.

Lemma get_inter b1 b2 i : bitset_get (bitset_inplace_intersection b1 b2) i = bitset_get b1 i && bitset_get b2 i.
Proof.
  rewrite !get_bitAt. unfold bitAt. rewrite inter_lookup.
  destruct (b1 !! _), (b2 !! _); cbn; rewrite ?Z.land_spec, ?Z.bits_0, ?andb_false_r; done.
Qed.

Lemma get_diff b1 b2 i : bitset_get (bitset_inplace_difference b1 b2) i = bitset_get b1 i && negb (bitset_get b2 i).
Proof.
  rewrite !get_bitAt. unfold bitAt. rewrite diff_lookup. pose proof (pos_lt i).
  destruct (b1 !! _), (b2 !! _); cbn; rewrite ?Z.land_spec, ?not64_testbit, ?andb_true_r; try done; lia.
Qed.

Lemma union_ok b1 b2 : bsOK b1 -> bsOK b2 -> bsOK (bitset_inplace_union b1 b2).
Proof.
  unfold bsOK. rewrite !Forall_lookup. intros H1 H2 x w. rewrite union_lookup.
  destruct (b1 !! x) eqn:E1, (b2 !! x) eqn:E2; cbn; intros [= <-]; eauto using lor_ok.
Qed.

Lemma inter_ok b1 b2 : bsOK b1 -> bsOK b2 -> bsOK (bitset_inplace_intersection b1 b2).
Proof.
  unfold bsOK. rewrite !Forall_lookup. intros H1 H2 x w. rewrite inter_lookup.
  destruct (b1 !! x) eqn:E1, (b2 !! x) eqn:E2; cbn; intros [= <-]; [|apply zero_ok].
  apply land_ok; [eauto|]. by apply (H2 x).
Qed.

Lemma diff_ok b1 b2 : bsOK b1 -> bsOK b2 -> bsOK (bitset_inplace_difference b1 b2).
Proof.
  unfold bsOK. rewrite !Forall_lookup. intros H1 H2 x w. rewrite diff_lookup.
  destruct (b1 !! x) eqn:E1, (b2 !! x) eqn:E2; cbn; intros [= <-]; [|eauto].
  apply land_ok; [eauto|apply not64_ok].
Qed.

(** ** Sets of members *)

Lemma toSet_set b i : toSet (bitset_set b i) = {[i]} ∪ toSet b.
Proof.
  apply set_eq. intros j. rewrite elem_of_union, elem_of_singleton, !elem_toSet, get_set, orb_true_iff, bool_decide_eq_true.
  intuition congruence.
Qed.

Lemma toSet_unset b i : toSet (bitset_unset b i) = toSet b ∖ {[i]}.
Proof.
  apply set_eq. intros j.
  rewrite elem_of_difference, elem_of_singleton, !elem_toSet, get_unset, andb_true_iff, negb_true_iff, bool_decide_eq_false.
  intuition congruence.
Qed.

Lemma toSet_union b1 b2 : toSet (bitset_inplace_union b1 b2) = toSet b1 ∪ toSet b2.
Proof. apply set_eq. intros j. by rewrite elem_of_union, !elem_toSet, get_union, orb_true_iff. Qed.

Lemma toSet_inter b1 b2 : toSet (bitset_inplace_intersection b1 b2) = toSet b1 ∩ toSet b2.
Proof. apply set_eq. intros j. by rewrite elem_of_intersection, !elem_toSet, get_inter, andb_true_iff. Qed.

Lemma toSet_diff b1 b2 : toSet (bitset_inplace_difference b1 b2) = toSet b1 ∖ toSet b2.
Proof.
  apply set_eq. intros j. rewrite elem_of_difference, !elem_toSet, get_diff, andb_true_iff, negb_true_iff.
  by rewrite not_true_iff_false.
Qed.

Lemma toSet_replicate n : toSet (replicate n 0) = ∅.
Proof.
  apply elem_of_equiv_empty_L. intros i. rewrite elem_toSet, get_bitAt. unfold bitAt.
  destruct (replicate n 0 !! _) as [w|] eqn:E; [|done]. apply lookup_replicate in E as [-> _]. by rewrite Z.bits_0.
Qed.

Lemma get_cons_low w b k : (k < 64)%nat -> bitset_get (w :: b) k = Z.testbit w (Z.of_nat k).
Proof. intros Hk. rewrite bitset_get_testbit, Nat.div_small, Nat.mod_small by done. done. Qed.

Lemma get_cons_high w b k : bitset_get (w :: b) (64 + k) = bitset_get b k.
Proof.
  rewrite !bitset_get_testbit. replace (64 + k)%nat with (k + 1 * 64)%nat by lia.
  rewrite Nat.div_add, Nat.mod_add by lia. rewrite Nat.add_1_r. done.
Qed.

Lemma filter_ext_in {A} (P Q : A -> Prop) `{!forall x, Decision (P x), !forall x, Decision (Q x)} (l : list A) :
  (forall x, x ∈ l -> P x <-> Q x) -> filter P l = filter Q l.
Proof.
  induction l as [|x l IH]; intros Hpq; [done|]. rewrite !filter_cons, IH by set_solver.
  pose proof (Hpq x ltac:(set_solver)). repeat case_decide; tauto.
Qed.

Lemma bitset_count_size b : bitset_count b = size (toSet b).
Proof.
  unfold toSet. rewrite size_list_to_set by (apply NoDup_filter, NoDup_seq).
  induction b as [|w b IH]; [done|]. unfold bitset_count in *. cbn [fmap list_fmap list_sum length].
  change (list_sum (popcountll w :: (popcountll <$> b))) with (popcountll w + list_sum (popcountll <$> b))%nat. rewrite IH.
  replace (64 * S (length b))%nat with (64 + 64 * length b)%nat by lia. rewrite seq_app, filter_app, length_app. f_equal.
  - unfold popcountll. f_equal. apply filter_ext_in. intros k Hk. apply elem_of_seq in Hk.
    rewrite get_cons_low by lia. done.
  - change (seq (0 + 64)) with (seq (64 + 0)); rewrite <- (fmap_add_seq 64 0 (64 * length b)). clear IH. induction (seq 0 (64 * length b)) as [|k l IH]; [done|].
    rewrite fmap_cons, !filter_cons. rewrite get_cons_high. destruct (decide _); cbn; by rewrite IH.
Qed.

Lemma intersection_count_inter b1 b2 :
  bitset_intersection_count b1 b2 = bitset_count (bitset_inplace_intersection b1 b2).
Proof.
  unfold bitset_intersection_count, bitset_count.
  assert (forall w l, list_sum (popcountll <$> w :: l) = (popcountll w + list_sum (popcountll <$> l))%nat) as Hcons by done.
  assert (popcountll 0 = 0%nat) as H0 by done.
  assert (forall l : BitSet, list_sum (popcountll <$> bitset_inplace_intersection l []) = 0%nat) as Hnil.
  { induction l as [|w l IHl]; [done|]. change (bitset_inplace_intersection (w :: l) []) with (0 :: bitset_inplace_intersection l []).
    by rewrite Hcons, IHl, H0. }
  revert b2. induction b1 as [|w1 b1 IH]; intros [|w2 b2]; [done|done|by rewrite Hnil|].
  change (bitset_inplace_intersection (w1 :: b1) (w2 :: b2)) with (Z.land w1 w2 :: bitset_inplace_intersection b1 b2).
  change (zip_with Z.land (w1 :: b1) (w2 :: b2)) with (Z.land w1 w2 :: zip_with Z.land b1 b2).
  by rewrite !Hcons, IH.
Qed.

Lemma intersection_count_size b1 b2 : bitset_intersection_count b1 b2 = size (toSet b1 ∩ toSet b2).
Proof. by rewrite intersection_count_inter, bitset_count_size, toSet_inter. Qed.

(** ** Iteration *)

Lemma head_filter_seq (P : nat -> Prop) `{!forall x, Decision (P x)} s n :
  match head (filter P (seq s n)) with
  | Some k => (s <= k < s + n)%nat /\ P k /\ forall j, (s <= j < k)%nat -> ~ P j
  | None => forall j, (s <= j < s + n)%nat -> ~ P j
  end.
Proof.
  revert s. induction n as [|n IH]; intros s; [cbn; intros; lia|].
  change (seq s (S n)) with (s :: seq (S s) n). rewrite filter_cons. case_decide as Hs; cbn.
  - split_and!; [lia|lia|done|]. intros; lia.
  - specialize (IH (S s)). destruct (head _) as [k|].
    + destruct IH as (H1 & H2 & H3). split_and!; [lia|lia|done|]. intros j Hj.
      destruct (decide (j = s)) as [->|]; [done|]. apply H3. lia.
    + intros j Hj. destruct (decide (j = s)) as [->|]; [done|]. apply IH. lia.
Qed.

Lemma word_nonzero w : wordOK w -> w <> 0 -> exists k, 0 <= k < 64 /\ Z.testbit w k = true.
Proof.
  intros Hw Hne. exists (Z.log2 w). pose proof (Z.log2_nonneg w).
  assert (Z.testbit w (Z.log2 w) = true) as Hb by (apply Z.bit_log2; destruct Hw; lia).
  split; [|done]. split; [done|]. destruct (Z.lt_ge_cases (Z.log2 w) 64) as [|Hge]; [done|].
  by rewrite wordOK_high in Hb.
Qed.

Lemma ctzll_spec w : wordOK w -> w <> 0 ->
  (ctzll w < 64)%nat /\ Z.testbit w (Z.of_nat (ctzll w)) = true /\
  forall j, (j < ctzll w)%nat -> Z.testbit w (Z.of_nat j) = false.
Proof.
  intros Hw Hne. unfold ctzll.
  pose proof (head_filter_seq (fun k => Z.testbit w (Z.of_nat k) = true) 0 64) as H.
  destruct (head _) as [k|]; cbn.
  - destruct H as (H1 & H2 & H3). split_and!; [lia|done|]. intros j Hj. apply not_true_iff_false, H3. lia.
  - destruct (word_nonzero w Hw Hne) as (k & Hk & Hb). exfalso. apply (H (Z.to_nat k)); [lia|]. by rewrite Z2Nat.id by lia.
Qed.

Lemma nextWord_spec ws : forall x, bsOK ws ->
  match nextWord x ws with
  | Some j => exists i, j = (x * 64 + i)%nat /\ bitset_get ws i = true /\ forall k, (k < i)%nat -> bitset_get ws k = false
  | None => forall k, bitset_get ws k = false
  end.
Proof.
  induction ws as [|w ws IH]; intros x Hok; cbn.
  { intros k. rewrite bitset_get_testbit. by rewrite lookup_nil. }
  inversion_clear Hok as [|? ? Hw Hws]. destruct (Z.eqb_spec w 0) as [->|Hne].
  - assert (forall k, (k < 64)%nat -> bitset_get (0 :: ws) k = false) as Hlow.
    { intros k Hk. rewrite get_cons_low by done. apply Z.bits_0. }
    specialize (IH (S x) Hws). destruct (nextWord (S x) ws) as [j|].
    + destruct IH as (i & -> & Hi & Hk). exists (64 + i)%nat. split; [lia|]. rewrite get_cons_high. split; [done|].
      intros k Hlt. destruct (decide (k < 64)%nat); [by apply Hlow|]. replace k with (64 + (k - 64))%nat by lia.
      rewrite get_cons_high. apply Hk. lia.
    + intros k. destruct (decide (k < 64)%nat); [by apply Hlow|]. replace k with (64 + (k - 64))%nat by lia.
      by rewrite get_cons_high.
  - destruct (ctzll_spec w Hw Hne) as (H1 & H2 & H3). exists (ctzll w). split; [done|].
    rewrite get_cons_low by done. split; [done|]. intros k Hk. rewrite get_cons_low by lia. by apply H3.
Qed.

Lemma get_drop b x k : bitset_get (drop x b) k = bitset_get b (x * 64 + k).
Proof.
  rewrite !bitset_get_testbit, lookup_drop. replace (x * 64 + k)%nat with (k + x * 64)%nat by lia.
  rewrite Nat.div_add, Nat.mod_add by lia. by rewrite Nat.add_comm.
Qed.

Lemma nextSetBit_spec b i : bsOK b ->
  match nextSetBit b i with
  | Some j => (i <= j)%nat /\ bitset_get b j = true /\ forall k, (i <= k < j)%nat -> bitset_get b k = false
  | None => forall k, (i <= k)%nat -> bitset_get b k = false
  end.
Proof.
  intros Hok. unfold nextSetBit. set (x := (i / 64)%nat). pose proof (Nat.div_mod_eq i 64) as Hi. fold x in Hi.
  assert (forall k, (i <= k)%nat -> bitset_get b k = bitset_get (drop x b) (k - x * 64)) as Hget.
  { intros k Hk. rewrite get_drop. f_equal. lia. }
  assert (bsOK (drop x b)) as Hdrop by (by apply Forall_drop). set (p := (i mod 64)%nat) in *.
  assert (p < 64)%nat as Hp by (apply Nat.mod_upper_bound; lia).
  destruct (drop x b) as [|w ws].
  { intros k Hk. rewrite Hget by done. rewrite bitset_get_testbit. by rewrite lookup_nil. }
  inversion_clear Hdrop as [|? ? Hw Hws].
  assert (forall k, (k < 64)%nat -> Z.testbit (Z.shiftr w (Z.of_nat p)) (Z.of_nat k) = Z.testbit w (Z.of_nat (p + k))) as Hsh.
  { intros k Hk. rewrite Z.shiftr_spec by lia. f_equal. lia. }
  assert (forall k, (p + k < 64)%nat -> bitset_get b (i + k) = Z.testbit w (Z.of_nat (p + k))) as Hlow.
  { intros k Hk. rewrite Hget by lia. replace (i + k - x * 64)%nat with (p + k)%nat by lia. by apply get_cons_low. }
  assert (forall k, bitset_get b (S x * 64 + k) = bitset_get ws k) as Hhigh.
  { intros k. rewrite Hget by lia. replace (S x * 64 + k - x * 64)%nat with (64 + k)%nat by lia. apply get_cons_high. }
  assert (wordOK (Z.shiftr w (Z.of_nat p))) as Hshok.
  { apply wordOK_bits; [apply Z.shiftr_nonneg, Hw|]. intros k Hk. rewrite Z.shiftr_spec by lia. apply wordOK_high; [done|lia]. }
  destruct (Z.eqb_spec (Z.shiftr w (Z.of_nat p)) 0) as [E|Hne].
  - assert (forall k, (i <= k < S x * 64)%nat -> bitset_get b k = false) as Hlow0.
    { intros k Hk. replace k with (i + (k - i))%nat by lia. rewrite Hlow by lia. rewrite <- Hsh by lia. rewrite E. apply Z.bits_0. }
    pose proof (nextWord_spec ws (S x) Hws) as Hn. destruct (nextWord (S x) ws) as [j|].
    + destruct Hn as (q & -> & Hq & Hk). split; [lia|]. rewrite Hhigh. split; [done|]. intros k Hlt.
      destruct (decide (k < S x * 64)%nat); [apply Hlow0; lia|]. replace k with (S x * 64 + (k - S x * 64))%nat by lia.
      rewrite Hhigh. apply Hk. lia.
    + intros k Hlt. destruct (decide (k < S x * 64)%nat); [apply Hlow0; lia|].
      replace k with (S x * 64 + (k - S x * 64))%nat by lia. by rewrite Hhigh.
  - destruct (ctzll_spec _ Hshok Hne) as (H1 & H2 & H3). set (c := ctzll _) in *. rewrite Hsh in H2 by done.
    assert (p + c < 64)%nat as Hpc.
    { destruct (decide (p + c < 64)%nat) as [|Hge]; [done|]. by rewrite wordOK_high in H2 by (done || lia). }
    split; [lia|]. rewrite Hlow by done. split; [done|]. intros k Hk. replace k with (i + (k - i))%nat by lia.
    rewrite Hlow by lia. rewrite <- Hsh by lia. apply H3. lia.
Qed.

Lemma get_length b i : bitset_get b i = true -> (i < 64 * length b)%nat.
Proof.
  rewrite bitset_get_testbit. destruct (b !! _) eqn:E; [|done]. intros _. apply lookup_lt_Some in E.
  pose proof (Nat.div_mod_eq i 64). pose proof (Nat.mod_upper_bound i 64). lia.
Qed.

Lemma elem_bitsFrom b fuel : bsOK b -> forall i j, (64 * length b <= fuel + i)%nat ->
  (j ∈ bitsFrom fuel b i <-> (i <= j)%nat /\ bitset_get b j = true).
Proof.
  intros Hok. induction fuel as [|fuel IH]; intros i j Hf; cbn.
  { rewrite elem_of_nil. split; [done|]. intros [Hij Hj]. apply get_length in Hj. lia. }
  pose proof (nextSetBit_spec b i Hok) as Hn. destruct (nextSetBit b i) as [n|].
  - destruct Hn as (H1 & H2 & H3). rewrite elem_of_cons, IH by lia. split.
    + intros [->|[Hj Hg]]; [done|]. split; [lia|done].
    + intros [Hj Hg]. destruct (Nat.lt_trichotomy j n) as [Hlt|[->|Hgt]]; [|by left|right; split; [lia|done]].
      by rewrite H3 in Hg by lia.
  - rewrite elem_of_nil. split; [done|]. intros [Hij Hj]. by rewrite Hn in Hj.
Qed.

Lemma elem_bits b i : bsOK b -> (i ∈ bits b <-> i ∈ toSet b).
Proof.
  intros Hok. unfold bits. rewrite elem_bitsFrom by (done || lia). rewrite elem_toSet. split; [by intros [_ ?]|].
  intros H. split; [lia|done].
Qed.

Lemma bs_empty_spec b : bsOK b -> (bs_empty b = true <-> toSet b = ∅).
Proof.
  intros Hok. unfold bs_empty. pose proof (nextSetBit_spec b 0 Hok) as Hn. destruct (nextSetBit b 0) as [j|].
  - destruct Hn as (_ & Hj & _). split; [done|]. intros E. apply elem_toSet in Hj. rewrite E in Hj. set_solver.
  - split; [|done]. intros _. apply elem_of_equiv_empty_L. intros i Hi. apply elem_toSet in Hi.
    by rewrite Hn in Hi by lia.
Qed.

Lemma bs_empty_false b : bsOK b -> bs_empty b = false -> exists i, i ∈ toSet b.
Proof.
  intros Hok He. apply set_choose_L. intros E. apply (bs_empty_spec b Hok) in E. congruence.
Qed.

Lemma get_app_high b w i : bitset_get (b ++ [w]) (length b * 64 + i) = bitset_get [w] i.
Proof.
  rewrite !bitset_get_testbit. replace (length b * 64 + i)%nat with (i + length b * 64)%nat by lia.
  rewrite Nat.div_add, Nat.mod_add by lia. rewrite lookup_app_r by lia. by rewrite Nat.add_sub.
Qed.

Lemma get_app_low b w i : bitset_get b i = true -> bitset_get (b ++ [w]) i = true.
Proof.
  rewrite !bitset_get_testbit. destruct (b !! _) eqn:E; [|done]. by rewrite (lookup_app_l_Some _ _ _ _ E).
Qed.

Lemma bitset_maximum_member b : bsOK b -> bs_empty b = false -> bitset_maximum b ∈ toSet b.
Proof.
  intros Hok He. rewrite elem_toSet. destruct (bs_empty_false b Hok He) as [i Hi]. apply elem_toSet in Hi. clear He.
  unfold bitset_maximum. revert i Hi. induction b as [|w b IH] using rev_ind; intros i Hi.
  { rewrite bitset_get_testbit in Hi. by rewrite lookup_nil in Hi. }
  apply Forall_app in Hok as [Hb Hw]. inversion_clear Hw as [|? ? Hww _].
  rewrite rev_app_distr, length_app, Nat.add_1_r. cbn [rev app maximumFrom].
  rewrite Nat.sub_1_r. cbn [Nat.pred]. destruct (Z.eqb_spec w 0) as [->|Hne].
  - apply get_app_low. apply (IH Hb i). rewrite bitset_get_testbit in Hi |- *.
    destruct (decide (i / 64 < length b)%nat) as [Hlt|Hge]; [by rewrite lookup_app_l in Hi|].
    rewrite lookup_app_r in Hi by lia. destruct (i / 64 - length b)%nat; cbn in Hi; [by rewrite Z.bits_0 in Hi|done].
  - rewrite Nat.add_comm, get_app_high. rewrite get_cons_low; unfold highestBit.
    + rewrite Z2Nat.id by apply Z.log2_nonneg. apply Z.bit_log2. destruct Hww. lia.
    + destruct Hww as [H0 H1]. apply Z.log2_lt_pow2 in H1; lia.
Qed.

(** ** Comparisons *)

Lemma bitset_subseteq_spec b1 b2 : bsOK b1 -> (length b1 <= length b2)%nat ->
  (bitset_subseteq b1 b2 = true <-> toSet b1 ⊆ toSet b2).
Proof.
  intros Hok Hlen. unfold bitset_subseteq. rewrite forallb_forall. split.
  - intros H i. rewrite !elem_toSet, !bitset_get_testbit. destruct (b1 !! _) as [w1|] eqn:E1; [|done].
    destruct (lookup_lt_is_Some_2 b2 (i / 64)%nat) as [w2 E2]; [apply lookup_lt_Some in E1; lia|]. rewrite E2.
    specialize (H (w1, w2)). cbn in H. rewrite Z.eqb_eq in H. rewrite <- H at 1.
    + rewrite Z.land_spec. by intros [_ ?]%andb_prop.
    + apply list_elem_of_In, list_elem_of_lookup. exists (i / 64)%nat. by rewrite lookup_zip_with, E1, E2.
  - intros H [w1 w2] Hin. apply list_elem_of_In, list_elem_of_lookup in Hin as [x Hx]. cbn. apply Z.eqb_eq.
    rewrite lookup_zip_with in Hx. destruct (b1 !! x) as [v1|] eqn:E1; [|done]. cbn in Hx.
    destruct (b2 !! x) as [v2|] eqn:E2; [|done]. cbn in Hx. injection Hx as -> ->.
    assert (wordOK w1) as Hw1 by (unfold bsOK in Hok; rewrite Forall_lookup in Hok; eauto).
    apply Z.bits_inj'. intros k Hk. rewrite Z.land_spec. destruct (Z.testbit w1 k) eqn:Ek; [|done]. cbn.
    assert (k < 64) as Hk64 by (destruct (Z.lt_ge_cases k 64) as [|Hge]; [done|]; by rewrite wordOK_high in Ek).
    set (i := (x * 64 + Z.to_nat k)%nat). assert (i / 64 = x /\ i mod 64 = Z.to_nat k)%nat as [Ei Em].
    { unfold i. rewrite Nat.add_comm, Nat.div_add, Nat.mod_add, Nat.div_small, Nat.mod_small by lia. done. }
    specialize (H i). rewrite !elem_toSet, !bitset_get_testbit, Ei, Em, E1, E2, Z2Nat.id in H by lia. by apply H.
Qed.

(** Of sets with the same number of words, equal ones are the same words. *)
Lemma toSet_inj b1 b2 :
  bsOK b1 -> bsOK b2 -> length b1 = length b2 -> toSet b1 = toSet b2 -> b1 = b2.
Proof.
  revert b2. induction b1 as [|w1 b1 IH]; intros [|w2 b2] H1 H2 Hlen HS; try done. cbn in Hlen. injection Hlen as Hlen.
  apply Forall_cons in H1 as [Hw1 H1]. apply Forall_cons in H2 as [Hw2 H2].
  assert (forall i, bitset_get (w1 :: b1) i = bitset_get (w2 :: b2) i) as HG.
  { intros i. apply eq_bool_prop_intro. rewrite !Is_true_true, <- !elem_toSet. by rewrite HS. }
  f_equal.
  - apply Z.bits_inj'. intros k Hk. destruct (Z.lt_ge_cases k 64); [|by rewrite !wordOK_high].
    specialize (HG (Z.to_nat k)). rewrite !get_cons_low, Z2Nat.id in HG by lia. done.
  - apply IH; try done. apply set_eq. intros i. specialize (HG (64 + i)%nat).
    rewrite !get_cons_high in HG. by rewrite !elem_toSet, HG.
Qed.

Lemma bitset_equal_same b1 b2 : length b1 = length b2 -> (bitset_equal b1 b2 = true <-> b1 = b2).
Proof.
  revert b2. induction b1 as [|w1 b1 IH]; intros [|w2 b2] Hlen; try done. cbn in Hlen. injection Hlen as Hlen.
  unfold bitset_equal in *. cbn. rewrite andb_true_iff, Z.eqb_eq, IH by done. split; [intros [-> ->]; done|by intros [= -> ->]].
Qed.

(** ** Widths *)

Lemma length_set b i : length (bitset_set b i) = Nat.max (length b) (i / 64 + 1).
Proof. unfold bitset_set, bitset_grow. rewrite length_alter, length_app, length_replicate. lia. Qed.
Lemma length_unset b i : length (bitset_unset b i) = length b.
Proof. apply length_alter. Qed.
Lemma length_union b1 b2 : length (bitset_inplace_union b1 b2) = Nat.max (length b1) (length b2).
Proof. revert b2. induction b1 as [|w1 b1 IH]; intros [|w2 b2]; cbn; [done..|]. by rewrite IH. Qed.
Lemma length_diff b1 b2 : length (bitset_inplace_difference b1 b2) = length b1.
Proof. revert b2. induction b1 as [|w1 b1 IH]; intros [|w2 b2]; cbn; [done..|]. by rewrite IH. Qed.
Lemma length_inter b1 b2 : length (bitset_inplace_intersection b1 b2) = length b1.
Proof. revert b2. induction b1 as [|w1 b1 IH]; intros [|w2 b2]; cbn; [done..| |]; by rewrite IH. Qed.
