(* ===== verification/Tarjan.v ===== *)
(** * Strongly connected components

    [util/TarjanSCCCalculator.cpp].  The recursion of [scc] is bounded by the
    number of nodes that were not visited yet; [std::vector::at] throws when the
    index is out of range.  Node numbers stay below the number of nodes, so that
    the [int] counter does not overflow. *)

From stdpp Require Import base list gmap sets strings.
From Stdlib Require Import Sorting.Sorted.
From S2P Require Import Prelude BitSet.

Local Open Scope Z_scope.

Module Tarjan.

(** ** The calculator *)

Record SCCNode := mkNode { nIndex : Z; nLowLink : Z; nOnStack : bool }.
Definition newNode : SCCNode := mkNode (-1) (-1) false.

(** [mStack] has its top first. *)
Record Calculator := mkCalculator {
  mNodes : list SCCNode;
  mStack : list nat;
  mIndex : Z;
  mSCCs : list BitSet
}.

Definition set_nodes ns c := mkCalculator ns (mStack c) (mIndex c) (mSCCs c).
Definition set_stack s c := mkCalculator (mNodes c) s (mIndex c) (mSCCs c).
Definition set_index i c := mkCalculator (mNodes c) (mStack c) i (mSCCs c).
Definition set_sccs l c := mkCalculator (mNodes c) (mStack c) (mIndex c) l.

Definition nodeAt (i : nat) : M Calculator SCCNode := fun c =>
  match mNodes c !! i with Some v => Ok v c | None => Err (Throw "vector::at") c end.
Definition updateNode (i : nat) (f : SCCNode -> SCCNode) : M Calculator unit :=
  let* v := nodeAt i in modify (fun c => set_nodes (<[i := f v]> (mNodes c)) c).

Definition withLow (l : Z) (v : SCCNode) : SCCNode := mkNode (nIndex v) l (nOnStack v).
Definition withOnStack (b : bool) (v : SCCNode) : SCCNode := mkNode (nIndex v) (nLowLink v) b.

Section Calc.
Context (getNodeSuccessors : nat -> exc BitSet).

(** The loop that pops the component of [i] off the stack. *)
Fixpoint popComponent (fuel : nat) (i : nat) (newScc : BitSet) : M Calculator BitSet :=
  match fuel with
  | O => fail OutOfFuel
  | S fuel =>
      let* c := get in
      match mStack c with
      | [] => fail (NullPointer "mStack.back()")
      | j :: rest =>
          do* modify (set_stack rest) in
          do* updateNode j (withOnStack false) in
          let newScc := bitset_set newScc j in
          if (j =? i)%nat then mret newScc else popComponent fuel i newScc
      end
  end.

Definition finishNode (i : nat) : M Calculator unit :=
  let* v := nodeAt i in
  if nLowLink v =? nIndex v then
    let* c := get in
    let* newScc := popComponent (length (mStack c)) i (bitset_set emptyBitSet i) in
    modify (fun c => set_sccs (mSCCs c ++ [newScc]) c)
  else mret tt.

(** One successor of [i]. *)
Definition visitSuccessor (scc : nat -> M Calculator unit) (i j : nat) : M Calculator unit :=
  let* w := nodeAt j in
  if nIndex w =? -1 then
    do* scc j in
    let* w := nodeAt j in
    updateNode i (fun v => withLow (Z.min (nLowLink v) (nLowLink w)) v)
  else if nOnStack w then
    updateNode i (fun v => withLow (Z.min (nLowLink v) (nIndex w)) v)
  else mret tt.

Fixpoint visitSuccessors (scc : nat -> M Calculator unit) (i : nat) (js : list nat) : M Calculator unit :=
  match js with
  | [] => mret tt
  | j :: js => do* visitSuccessor scc i j in visitSuccessors scc i js
  end.

Definition startNode (i : nat) : M Calculator unit :=
  let* c := get in
  do* updateNode i (fun _ => mkNode (mIndex c) (mIndex c) true) in
  modify (fun c => set_stack (i :: mStack c) (set_index (mIndex c + 1) c)).

Fixpoint scc (fuel : nat) (i : nat) : M Calculator unit :=
  match fuel with
  | O => fail OutOfFuel
  | S fuel =>
      do* startNode i in
      match getNodeSuccessors i with
      | inl f => fail f
      | inr succ =>
          do* visitSuccessors (scc fuel) i (bits succ) in
          finishNode i
      end
  end.

Fixpoint sccAll (fuel : nat) (nodes : list nat) : M Calculator unit :=
  match nodes with
  | [] => mret tt
  | i :: nodes =>
      let* v := nodeAt i in
      do* (if nIndex v =? -1 then scc fuel i else mret tt) in
      sccAll fuel nodes
  end.

Definition calculateSCCs (graphSize : nat) : M Calculator unit := fun _ =>
  sccAll graphSize (seq 0 graphSize) (mkCalculator (replicate graphSize newNode) [] 0 []).

End Calc.

(** ** Correctness *)

Definition idx (c : Calculator) (k : nat) : Z := match mNodes c !! k with Some v => nIndex v | None => -1 end.
Definition low (c : Calculator) (k : nat) : Z := match mNodes c !! k with Some v => nLowLink v | None => -1 end.
Definition visited (c : Calculator) (k : nat) : Prop := idx c k <> -1.

Definition above (c : Calculator) (a b : nat) : Prop := idx c b < idx c a.

Section Proofs.
Context (n : nat) (succ : nat -> BitSet).
Hypotheses (succ_ok : forall i, (i < n)%nat -> bsOK (succ i))
  (succ_lt : forall i j, (i < n)%nat -> j ∈ toSet (succ i) -> (j < n)%nat).

Definition edge (i j : nat) : Prop := (i < n)%nat /\ j ∈ toSet (succ i).
Definition reach : nat -> nat -> Prop := rtc edge.

(** The components already found: disjoint, made of the visited nodes that left
    the stack, closed under edges with the earlier ones, and strongly connected. *)
Record Inv (c : Calculator) : Prop := {
  inv_length : length (mNodes c) = n;
  inv_index : 0 <= mIndex c;
  inv_idx : forall k, visited c k -> 0 <= idx c k < mIndex c;
  inv_stack : forall k v, mNodes c !! k = Some v -> (nOnStack v = true <-> k ∈ mStack c);
  inv_stack_visited : forall k, k ∈ mStack c -> visited c k;
  inv_sorted : StronglySorted (above c) (mStack c);
  inv_comps : forall k, (exists C, C ∈ mSCCs c /\ k ∈ toSet C) <-> visited c k /\ k ∉ mStack c;
  inv_disjoint : forall x y C D, mSCCs c !! x = Some C -> mSCCs c !! y = Some D -> x <> y -> toSet C ## toSet D;
  inv_closed : forall x C i j, mSCCs c !! x = Some C -> i ∈ toSet C -> edge i j ->
    exists y D, (y <= x)%nat /\ mSCCs c !! y = Some D /\ j ∈ toSet D;
  inv_strong : forall C i j, C ∈ mSCCs c -> i ∈ toSet C -> j ∈ toSet C -> reach i j;
  inv_ok : Forall bsOK (mSCCs c)
}.

Local Notation wp0 := (wp (fun _ => False)).

Lemma wp_updateNode i f (Q : unit -> Calculator -> Prop) c v :
  mNodes c !! i = Some v -> Q tt (set_nodes (<[i := f v]> (mNodes c)) c) -> wp0 (updateNode i f) Q c.
Proof using All. intros Hv HQ. unfold updateNode, wp, bnd, mbind, M_bind, nodeAt. by rewrite Hv. Qed.

Lemma wp_nodeAt i (Q : SCCNode -> Calculator -> Prop) c v :
  mNodes c !! i = Some v -> Q v c -> wp0 (nodeAt i) Q c.
Proof using All. intros Hv HQ. unfold wp, nodeAt. by rewrite Hv. Qed.

(** *** Changing what the invariant does not mention *)

Lemma sorted_ext c c' l :
  (forall k, k ∈ l -> idx c' k = idx c k) -> StronglySorted (above c) l -> StronglySorted (above c') l.
Proof using All.
  intros Hidx. induction 1 as [|a l Hs IH Hall]; constructor; [apply IH; set_solver|].
  rewrite Forall_forall in Hall |- *. intros b Hb. unfold above. rewrite !Hidx by set_solver. by apply Hall.
Qed.

Lemma Inv_low c i l v : mNodes c !! i = Some v -> Inv c -> Inv (set_nodes (<[i := withLow l v]> (mNodes c)) c).
Proof using All.
  intros Hv [H1 H2 H3 H4 H5 H6 H7 H8 H9 H10 H11]. set (c' := set_nodes _ c).
  assert (forall k, idx c' k = idx c k) as Hidx.
  { intros k. unfold idx, c'. cbn. destruct (decide (i = k)) as [<-|Hne].
    - rewrite list_lookup_insert_eq by (by eapply lookup_lt_Some). by rewrite Hv.
    - by rewrite list_lookup_insert_ne. }
  assert (forall k, visited c' k <-> visited c k) as Hvis by (intros k; unfold visited; by rewrite Hidx).
  constructor; cbn; try done.
  - by rewrite length_insert.
  - intros k. rewrite Hvis, Hidx. apply H3.
  - intros k w. destruct (decide (i = k)) as [<-|Hne].
    + rewrite list_lookup_insert_eq by (by eapply lookup_lt_Some). intros [= <-]. cbn. by apply H4.
    + rewrite list_lookup_insert_ne by done. apply H4.
  - intros k. rewrite Hvis. apply H5.
  - by apply (sorted_ext c).
  - intros k. rewrite Hvis. apply H7.
Qed.

Lemma sorted_NoDup c l : StronglySorted (above c) l -> NoDup l.
Proof using All.
  induction 1 as [|a l Hs IH Hall]; constructor; [|done]. intros Ha. rewrite Forall_forall in Hall.
  specialize (Hall a Ha). unfold above in Hall. lia.
Qed.

Lemma sorted_app c l1 x l2 y : StronglySorted (above c) (l1 ++ x :: l2) -> y ∈ l2 -> idx c y < idx c x.
Proof using All.
  induction l1 as [|a l1 IH]; cbn; intros Hs Hy; inversion_clear Hs as [|? ? Hs' Hall]; [|by apply IH].
  rewrite Forall_forall in Hall. by apply Hall.
Qed.

(** *** What a call of [scc] does *)

Definition unvisited (c : Calculator) : gset nat := filter (fun k => idx c k = -1) (set_seq 0 n).

Record Post (c c' : Calculator) (i : nat) : Prop := {
  po_inv : Inv c';
  po_seg : exists seg, mStack c' = seg ++ mStack c /\
    ((seg = [] /\ low c' i = idx c' i) \/ (exists x, x ∈ mStack c /\ low c' i = idx c x /\ reach i x)) /\
    (forall k x, k ∈ seg -> edge k x -> x ∈ mStack c -> low c' i <= idx c x) /\
    (forall k, k ∈ seg -> exists x, x ∈ mStack c' /\ idx c' x < idx c' k /\ reach k x);
  po_old : forall k, visited c k -> mNodes c' !! k = mNodes c !! k;
  po_visited : visited c' i;
  po_new : forall k, visited c' k -> ~ visited c k -> mIndex c <= idx c' k /\ reach i k /\ forall j, edge k j -> visited c' j;
  po_mindex : mIndex c <= mIndex c'
}.

(** During the loop over the successors; [seen] are those already visited. *)
Record Loop (c0 c : Calculator) (i : nat) (seen : nat -> Prop) : Prop := {
  lo_inv : Inv c;
  lo_seg : exists seg, mStack c = seg ++ i :: mStack c0 /\
    (forall k x, k ∈ seg -> edge k x -> x ∈ mStack c0 -> low c i <= idx c0 x) /\
    (forall k, k ∈ seg -> exists x, x ∈ mStack c /\ idx c x < idx c k /\ reach k x);
  lo_idx : idx c i = mIndex c0;
  lo_low : low c i = mIndex c0 \/ exists x, x ∈ mStack c0 /\ low c i = idx c0 x /\ reach i x;
  lo_old : forall k, visited c0 k -> mNodes c !! k = mNodes c0 !! k;
  lo_new : forall k, visited c k -> ~ visited c0 k -> k <> i ->
    mIndex c0 <= idx c k /\ reach i k /\ forall j, edge k j -> visited c j;
  lo_mindex : mIndex c0 < mIndex c;
  lo_seen : forall j, seen j -> visited c j /\ (j ∈ mStack c0 -> low c i <= idx c0 j)
}.

Lemma visited_some c k : visited c k -> exists v, mNodes c !! k = Some v /\ nIndex v <> -1.
Proof using All. unfold visited, idx. destruct (mNodes c !! k) as [v|]; [|done]. eauto. Qed.

Lemma same_idx c c' k : mNodes c' !! k = mNodes c !! k -> idx c' k = idx c k.
Proof using All. unfold idx. by intros ->. Qed.

Lemma unvisited_mono c c' : (forall k, visited c k -> visited c' k) -> (size (unvisited c') <= size (unvisited c))%nat.
Proof using All.
  intros Hv. apply subseteq_size. intros k. unfold unvisited. rewrite !elem_of_filter. intros [H1 H2]. split; [|done].
  destruct (decide (idx c k = -1)) as [|Hne]; [done|]. by apply Hv in Hne.
Qed.

Lemma unvisited_lt c c' i : (i < n)%nat -> ~ visited c i -> visited c' i -> (forall k, visited c k -> visited c' k) ->
  (size (unvisited c') < size (unvisited c))%nat.
Proof using All.
  intros Hi Hni Hi' Hv. apply subset_size. split.
  - intros k. unfold unvisited. rewrite !elem_of_filter. intros [H1 H2]. split; [|done].
    destruct (decide (idx c k = -1)) as [|Hne]; [done|]. by apply Hv in Hne.
  - intros Hsub. assert (i ∈ unvisited c) as Hin.
    { unfold unvisited. rewrite elem_of_filter, elem_of_set_seq. split; [|lia]. unfold visited in Hni. lia. }
    apply Hsub in Hin. unfold unvisited in Hin. rewrite elem_of_filter in Hin. by destruct Hin.
Qed.

(** *** Starting a node *)

Lemma start_spec c0 i : (i < n)%nat -> Inv c0 -> ~ visited c0 i ->
  wp0 (startNode i) (fun _ c => Loop c0 c i (fun _ => False) /\ visited c i /\ (forall k, visited c0 k -> visited c k)) c0.
Proof using All.
  intros Hi [H1 H2 H3 H4 H5 H6 H7 H8 H9 H10 H11] Hni.
  destruct (lookup_lt_is_Some_2 (mNodes c0) i) as [v Hv]; [lia|].
  unfold startNode. apply wp_bind, wp_get, wp_bind. apply (wp_updateNode _ _ _ _ v Hv). apply wp_modify.
  set (c := set_stack _ _).
  assert (forall k, k <> i -> mNodes c !! k = mNodes c0 !! k) as Hne by (intros k Hk; cbn; by rewrite list_lookup_insert_ne).
  assert (mNodes c !! i = Some (mkNode (mIndex c0) (mIndex c0) true)) as Hi'.
  { cbn. rewrite list_lookup_insert_eq; [done|lia]. }
  assert (idx c i = mIndex c0) as Ei by (unfold idx; by rewrite Hi').
  assert (low c i = mIndex c0) as Eli by (unfold low; by rewrite Hi').
  assert (forall k, k <> i -> idx c k = idx c0 k) as Eidx by (intros k Hk; by apply same_idx, Hne).
  assert (visited c i) as Hvi by (unfold visited; lia).
  assert (forall k, k <> i -> visited c k <-> visited c0 k) as Hvk by (intros k Hk; unfold visited; by rewrite Eidx).
  assert (i ∉ mStack c0) as Hns by (intros Hin; by apply Hni, H5).
  split; [|split; [done|]].
  2: { intros k Hk. destruct (decide (k = i)) as [->|]; [done|]. by apply Hvk. }
  constructor; try done.
  - constructor; cbn [mStack mIndex mSCCs c set_stack set_index set_nodes]; try done.
    + cbn. by rewrite length_insert.
    + lia.
    + intros k Hk. destruct (decide (k = i)) as [->|Hki]; [lia|]. rewrite Eidx by done. apply Hvk in Hk; [|done].
      specialize (H3 k Hk). lia.
    + intros k w. rewrite elem_of_cons. destruct (decide (k = i)) as [->|Hki].
      * rewrite Hi'. intros [= <-]. cbn. tauto.
      * rewrite Hne by done. intros Hw. rewrite (H4 k w Hw). tauto.
    + intros k. rewrite elem_of_cons. intros [->|Hk]; [done|]. destruct (decide (k = i)) as [->|Hki]; [done|].
      apply Hvk; [done|]. by apply H5.
    + constructor.
      * apply (sorted_ext c0); [|done]. intros k Hk. apply Eidx. by intros ->.
      * apply Forall_forall. intros k Hk. unfold above. rewrite Ei, Eidx by (by intros ->). by apply H3, H5.
    + intros k. rewrite H7, not_elem_of_cons. destruct (decide (k = i)) as [->|Hki]; [tauto|]. rewrite Hvk by done. tauto.
  - exists []. split; [done|]. split; intros k; [intros x|]; intros Hk; by apply elem_of_nil in Hk.
  - by left.
  - intros k Hk. apply Hne. by intros ->.
  - intros k Hk Hnk Hki. by apply Hvk in Hk.
  - cbn. lia.
Qed.

(** *** Lowering the link of the node in progress *)

Lemma low_update c i l v k : mNodes c !! i = Some v ->
  low (set_nodes (<[i := withLow l v]> (mNodes c)) c) k = if decide (k = i) then l else low c k.
Proof using All.
  intros Hv. unfold low. cbn. case_decide as Hk.
  - subst k. by rewrite list_lookup_insert_eq by (by eapply lookup_lt_Some).
  - by rewrite list_lookup_insert_ne.
Qed.

Lemma idx_update c i l v k : mNodes c !! i = Some v ->
  idx (set_nodes (<[i := withLow l v]> (mNodes c)) c) k = idx c k.
Proof using All.
  intros Hv. unfold idx. cbn. destruct (decide (k = i)) as [->|Hk].
  - rewrite list_lookup_insert_eq by (by eapply lookup_lt_Some). by rewrite Hv.
  - by rewrite list_lookup_insert_ne.
Qed.

(** The link may be lowered to the index of a node of the old stack. *)
Lemma Loop_lower c0 c i seen seen' l v :
  Loop c0 c i seen -> ~ visited c0 i -> mNodes c !! i = Some v -> l <= low c i ->
  (l = low c i \/ exists x, x ∈ mStack c0 /\ l = idx c0 x /\ reach i x) ->
  (forall j, seen' j -> visited c j /\ (j ∈ mStack c0 -> l <= idx c0 j)) ->
  Loop c0 (set_nodes (<[i := withLow l v]> (mNodes c)) c) i seen'.
Proof using All.
  intros [L1 (seg & L2 & L2' & L2'') L3 L4 L5 L6 L7 L8] Hni Hv Hl Hl' Hseen. set (c' := set_nodes _ c).
  assert (low c' i = l) as El by (unfold c'; rewrite (low_update c i l v) by done; by rewrite decide_True).
  assert (forall k, idx c' k = idx c k) as Ei by (intros k; by apply idx_update).
  assert (forall k, visited c' k <-> visited c k) as Hvis by (intros k; unfold visited; by rewrite Ei).
  constructor; try done.
  - by apply Inv_low.
  - exists seg. split; [done|]. split.
    + intros k x Hk Hx Hin. rewrite El. specialize (L2' k x Hk Hx Hin). lia.
    + intros k Hk. destruct (L2'' k Hk) as (x & Hx). exists x. by rewrite !Ei.
  - by rewrite Ei.
  - rewrite El. destruct Hl' as [->|Hx]; [done|by right].
  - intros k Hk. rewrite <- L5 by done. cbn. apply list_lookup_insert_ne. by intros <-.
  - intros k. rewrite Hvis, Ei. intros Hk Hnk Hki. destruct (L6 k Hk Hnk Hki) as (H1 & Hr & H2). split_and!; [done|done|].
    intros j Hj. rewrite Hvis. by apply H2.
  - intros j Hj. rewrite Hvis, El. by apply Hseen.
Qed.

Lemma stack_idx c0 c i seen x : Inv c0 -> Loop c0 c i seen -> x ∈ mStack c0 -> idx c x = idx c0 x.
Proof using All. intros H0 HL Hx. by apply same_idx, (lo_old _ _ _ _ HL), (inv_stack_visited _ H0). Qed.

Lemma low_le c0 c i seen : Inv c0 -> Loop c0 c i seen -> low c i <= mIndex c0.
Proof using All.
  intros H0 HL. destruct (lo_low _ _ _ _ HL) as [->|(x & Hx & -> & _)]; [lia|].
  apply (inv_stack_visited _ H0) in Hx. apply (inv_idx _ H0) in Hx. lia.
Qed.

Lemma post_visited c c' i k : Post c c' i -> visited c k -> visited c' k.
Proof using All. intros HP Hk. unfold visited. rewrite (same_idx c c'); [done|]. by apply (po_old _ _ _ HP). Qed.

(** After a recursive call the link is lowered to that of the child. *)
Lemma Loop_child c0 c c1 i j seen v :
  Inv c0 -> ~ visited c0 i -> visited c i -> edge i j -> Loop c0 c i seen -> ~ visited c j -> Post c c1 j ->
  mNodes c1 !! i = Some v ->
  Loop c0 (set_nodes (<[i := withLow (Z.min (low c1 i) (low c1 j)) v]> (mNodes c1)) c1) i (fun x => seen x \/ x = j).
Proof using All.
  intros H0 Hni Hvi Hij HL Hnj HP Hv. pose proof HL as [L1 (seg & L2 & L2' & L2'') L3 L4 L5 L6 L7 L8].
  pose proof HP as [P1 (segj & P2 & P3 & P4 & P4') P5 P6 P7 P8].
  set (l := Z.min _ _). set (c2 := set_nodes _ c1).
  assert (mNodes c1 !! i = mNodes c !! i) as Esame by (by apply P5).
  assert (low c1 i = low c i) as Elow by (unfold low; by rewrite Esame).
  assert (low c2 i = l) as El by (unfold c2; rewrite (low_update c1 i l v) by done; by rewrite decide_True).
  assert (forall k, idx c2 k = idx c1 k) as Ei by (intros k; by apply idx_update).
  assert (forall k, visited c2 k <-> visited c1 k) as Hvis by (intros k; unfold visited; by rewrite Ei).
  assert (forall k, visited c0 k -> visited c k) as Hv0.
  { intros k Hk. unfold visited. by rewrite (same_idx c0 c) by (by apply L5). }
  assert (forall k, visited c k -> visited c1 k) as Hv1 by (intros k; by apply (post_visited c c1 j)).
  assert (forall x, x ∈ mStack c0 -> idx c x = idx c0 x) as Estk by (intros x; by apply (stack_idx c0 c i seen)).
  pose proof (low_le _ _ _ _ H0 HL) as Hle.
  constructor; try done.
  - by apply Inv_low.
  - exists (segj ++ seg). split; [cbn; rewrite P2, L2; by rewrite app_assoc|]. split.
    + intros k x. rewrite elem_of_app, El. unfold l. rewrite Elow. intros [Hk|Hk] He Hx.
      * specialize (P4 k x Hk He). rewrite L2, Estk in P4 by done. assert (low c1 j <= idx c0 x); [|lia]. apply P4. set_solver.
      * specialize (L2' k x Hk He Hx). lia.
    + intros k. rewrite elem_of_app. intros [Hk|Hk].
      * destruct (P4' k Hk) as (x & Hx). exists x. by rewrite !Ei.
      * destruct (L2'' k Hk) as (x & Hx & Hlt & Hr). exists x. rewrite !Ei.
        assert (k ∈ mStack c) as Hkc by (rewrite L2; apply elem_of_app; by left).
        rewrite (same_idx c c1 x), (same_idx c c1 k) by (by apply P5, (inv_stack_visited _ L1)).
        split_and!; [|done|done]. cbn. rewrite P2. apply elem_of_app. by right.
  - rewrite Ei. rewrite (same_idx c c1) by done. done.
  - rewrite El. unfold l. rewrite Elow. destruct (Z.min_spec (low c i) (low c1 j)) as [[_ ->]|[Hlt ->]]; [done|].
    destruct (Z.eq_dec (low c1 j) (low c i)) as [->|Hne]; [done|].
    destruct P3 as [[_ E]|(x & Hx & E & Hr)].
    { destruct (P7 j P6 Hnj) as [Hj _]. lia. }
    right. exists x. rewrite L2 in Hx. apply elem_of_app in Hx as [Hx|Hx].
    { pose proof (inv_sorted _ L1) as Hs. rewrite L2 in Hs. apply list_elem_of_split in Hx as (l1 & l2 & ->).
      rewrite <- app_assoc in Hs. cbn in Hs. apply (sorted_app c l1 x (l2 ++ i :: mStack c0) i) in Hs; [lia|set_solver]. }
    apply elem_of_cons in Hx as [->|Hx]; [lia|]. split_and!; [done|by rewrite E, Estk|]. by apply (rtc_l _ i j).
  - intros k Hk. rewrite <- L5, <- P5 by auto. cbn. apply list_lookup_insert_ne. by intros <-.
  - intros k. rewrite Hvis, Ei. intros Hk Hnk Hki. destruct (decide (idx c k = -1)) as [Hun|Hvk].
    + destruct (P7 k Hk) as (H1 & Hr & H2); [by intros ?|]. split_and!; [lia|by apply (rtc_l _ i j)|]. intros j' Hj'. rewrite Hvis. by apply H2.
    + destruct (L6 k Hvk Hnk Hki) as (H1 & Hr & H2). rewrite (same_idx c c1) by (by apply P5). split_and!; [done|done|].
      intros j' Hj'. rewrite Hvis. by apply Hv1, H2.
  - cbn. lia.
  - intros x [Hx| ->]; rewrite Hvis, El.
    + destruct (L8 x Hx) as [H1 H2]. split; [by apply Hv1|]. intros Hin. specialize (H2 Hin). unfold l. lia.
    + split; [done|]. intros Hin. by destruct Hnj; apply Hv0, (inv_stack_visited _ H0).
Qed.

Lemma visit_spec (call : nat -> M Calculator unit) c0 c i j seen :
  Inv c0 -> ~ visited c0 i -> visited c i -> Loop c0 c i seen -> edge i j ->
  (~ visited c j -> wp0 (call j) (fun _ c' => Post c c' j) c) ->
  wp0 (visitSuccessor call i j)
    (fun _ c' => Loop c0 c' i (fun x => seen x \/ x = j) /\ forall k, visited c k -> visited c' k) c.
Proof using All.
  intros H0 Hni Hvi HL Hij Hcall. pose proof Hij as [_ Hj]. pose proof HL as [L1 (seg & L2 & L2' & L2'') L3 L4 L5 L6 L7 L8].
  assert (j < n)%nat as Hjn. { destruct (visited_some _ _ Hvi) as (v & Hv & _). apply lookup_lt_Some in Hv.
    rewrite (inv_length _ L1) in Hv. by apply (succ_lt i). }
  destruct (lookup_lt_is_Some_2 (mNodes c) j) as [w Hw]; [rewrite (inv_length _ L1); lia|].
  destruct (visited_some _ _ Hvi) as (v & Hv & _).
  unfold visitSuccessor. apply wp_bind, (wp_nodeAt _ _ _ w Hw). destruct (Z.eqb_spec (nIndex w) (-1)) as [E|Hne].
  - assert (~ visited c j) as Hnj by (unfold visited, idx; rewrite Hw; lia).
    apply wp_bind. eapply wp_mono; [by apply Hcall|]. intros [] c1 HP.
    destruct (visited_some _ _ (po_visited _ _ _ HP)) as (w1 & Hw1 & _).
    apply wp_bind, (wp_nodeAt _ _ _ w1 Hw1). assert (mNodes c1 !! i = Some v) as Hv1 by (by rewrite (po_old _ _ _ HP)).
    apply (wp_updateNode _ _ _ _ v Hv1). split.
    + pose proof (Loop_child c0 c c1 i j seen v H0 Hni Hvi Hij HL Hnj HP Hv1) as HL'.
      unfold low in HL'. rewrite Hv1, Hw1 in HL'. exact HL'.
    + intros k Hk. unfold visited. rewrite idx_update by done. by apply (post_visited c c1 j).
  - assert (visited c j) as Hvj by (unfold visited, idx; by rewrite Hw).
    assert (low c i = nLowLink v) as Ev by (unfold low; by rewrite Hv).
    destruct (nOnStack w) eqn:Eon.
    + apply (wp_updateNode _ _ _ _ v Hv). split; [|intros k Hk; unfold visited; by rewrite idx_update].
      assert (j ∈ mStack c0 -> nIndex w = idx c0 j) as Ej.
      { intros Hin. rewrite <- (stack_idx c0 c i seen j H0 HL Hin). unfold idx. by rewrite Hw. }
      apply (Loop_lower c0 c i seen); try done; rewrite <- ?Ev; [lia| |].
      * destruct (Z.min_spec (low c i) (nIndex w)) as [[_ ->]|[Hlt ->]]; [by left|].
        destruct (Z.eq_dec (nIndex w) (low c i)) as [->|Hne']; [by left|right]. exists j.
        assert (j ∈ mStack c) as Hin by (by apply (inv_stack _ L1 j w Hw)).
        assert (idx c j = nIndex w) as Eij by (unfold idx; by rewrite Hw). pose proof (low_le _ _ _ _ H0 HL).
        rewrite L2 in Hin. apply elem_of_app in Hin as [Hx|Hx].
        { pose proof (inv_sorted _ L1) as Hs. rewrite L2 in Hs. apply list_elem_of_split in Hx as (l1 & l2 & ->).
          rewrite <- app_assoc in Hs. cbn in Hs. apply (sorted_app c l1 j (l2 ++ i :: mStack c0) i) in Hs; [lia|set_solver]. }
        apply elem_of_cons in Hx as [->|Hx]; [lia|]. split_and!; [done|by apply Ej|by apply rtc_once].
      * intros x [Hx| ->].
        -- destruct (L8 x Hx) as [H1 H2]. split; [done|]. intros Hin. specialize (H2 Hin). lia.
        -- split; [done|]. intros Hin. rewrite <- Ej by done. lia.
    + split; [|done]. constructor; try done; [by exists seg|]. intros x [Hx| ->]; [by apply L8|]. split; [done|].
      intros Hin. assert (nOnStack w = true); [|congruence]. apply (inv_stack _ L1 j w Hw). rewrite L2. set_solver.
Qed.

Lemma visits_spec fuel (call : nat -> M Calculator unit) c0 i js : forall c seen,
  (forall c j, (j < n)%nat -> Inv c -> ~ visited c j -> (size (unvisited c) <= fuel)%nat ->
     wp0 (call j) (fun _ c' => Post c c' j) c) ->
  Inv c0 -> ~ visited c0 i -> visited c i -> (size (unvisited c) <= fuel)%nat ->
  (forall j, j ∈ js -> edge i j) -> Loop c0 c i seen ->
  wp0 (visitSuccessors call i js) (fun _ c' => Loop c0 c' i (fun x => seen x \/ x ∈ js)) c.
Proof using All.
  induction js as [|j js IH]; intros c seen Hcall H0 Hni Hvi Hf Hjs HL; cbn.
  { destruct HL as [L1 L2 L3 L4 L5 L6 L7 L8]. constructor; try done. intros x [Hx|Hx]; [by apply L8|set_solver]. }
  apply wp_bind. eapply wp_mono; [apply (visit_spec call c0 c i j seen); try done; [apply Hjs; set_solver|]|].
  - intros Hnj. apply Hcall; try done; [|apply HL]. destruct (Hjs j ltac:(set_solver)) as [Hi Hj]. by apply (succ_lt i).
  - intros [] c1 [HL1 Hmono]. eapply wp_mono; [apply (IH c1 (fun x => seen x \/ x = j)); try done; [by apply Hmono| |set_solver]|].
    + pose proof (unvisited_mono c c1 Hmono). lia.
    + intros [] c2 [L1 L2 L3 L4 L5 L6 L7 L8]. constructor; try done. intros x Hx. apply L8. set_solver.
Qed.

(** *** Popping a component *)

Lemma pop_spec fuel : forall i seg old c b,
  mStack c = seg ++ i :: old -> NoDup (mStack c) -> (forall k, k ∈ mStack c -> (k < length (mNodes c))%nat) ->
  (length seg < fuel)%nat -> bsOK b ->
  wp0 (popComponent fuel i b) (fun b' c' =>
    toSet b' = toSet b ∪ list_to_set (i :: seg) /\ bsOK b' /\ mStack c' = old /\ mIndex c' = mIndex c /\ mSCCs c' = mSCCs c /\
    forall k, mNodes c' !! k = if decide (k ∈ i :: seg) then withOnStack false <$> mNodes c !! k else mNodes c !! k) c.
Proof using All.
  induction fuel as [|fuel IH]; intros i seg old c b Hst Hnd Hlt Hf Hb; [lia|]. cbn [popComponent].
  apply wp_bind, wp_get. assert (exists j rest, mStack c = j :: rest) as (j & rest & Est).
  { rewrite Hst. destruct seg; eauto. }
  rewrite Est. apply wp_bind, wp_modify, wp_bind. rewrite Est in Hnd. apply NoDup_cons in Hnd as [Hnj Hnd].
  destruct (lookup_lt_is_Some_2 (mNodes c) j) as [v Hv]; [apply Hlt; rewrite Est; set_solver|].
  apply (wp_updateNode _ _ _ _ v); [done|]. rewrite Est in Hst. destruct (Nat.eqb_spec j i) as [->|Hne].
  - destruct seg as [|a seg]; cbn in Hst; [injection Hst as ->|injection Hst as <- Hst; exfalso; apply Hnj; rewrite Hst; set_solver].
    apply wp_ret. split_and!; try done.
    + rewrite toSet_set. set_solver.
    + by apply set_ok.
    + intros k. cbn. destruct (decide (k = i)) as [->|Hk].
      * rewrite decide_True by set_solver. rewrite list_lookup_insert_eq by (by eapply lookup_lt_Some). by rewrite Hv.
      * rewrite decide_False by set_solver. by rewrite list_lookup_insert_ne.
  - destruct seg as [|a seg]; cbn in Hst; [by injection Hst as ->|injection Hst as -> Hst]. cbn in Hf.
    eapply wp_mono; [apply (IH i seg old); cbn; [done|done| |lia|by apply set_ok]|].
    + intros k Hk. rewrite length_insert. apply Hlt. rewrite Est. set_solver.
    + intros b' c' (H1 & H2 & H3 & H4 & H5 & H6). split_and!; try done.
      * rewrite H1, toSet_set. set_solver.
      * intros k. rewrite H6. cbn. destruct (decide (k = a)) as [->|Hk].
        -- rewrite (decide_False (P := a ∈ i :: seg)) by set_solver. rewrite decide_True by set_solver.
           rewrite list_lookup_insert_eq by (by eapply lookup_lt_Some). by rewrite Hv.
        -- rewrite list_lookup_insert_ne by done. destruct (decide (k ∈ i :: seg)).
           ++ by rewrite decide_True by set_solver.
           ++ by rewrite decide_False by set_solver.
Qed.

(** The nodes above [i] on the stack are new. *)
Lemma seg_new c0 c i seen seg k :
  Inv c0 -> Loop c0 c i seen -> mStack c = seg ++ i :: mStack c0 -> k ∈ seg -> visited c k /\ k <> i /\ ~ visited c0 k.
Proof using All.
  intros H0 [L1 _ _ _ L5 _ _ _] Hst Hk.
  assert (k ∈ mStack c) as Hkst by (rewrite Hst; apply elem_of_app; by left). pose proof (inv_stack_visited _ L1 k Hkst) as Hvk.
  pose proof (sorted_NoDup _ _ (inv_sorted _ L1)) as Hnd. rewrite Hst in Hnd. apply NoDup_app in Hnd as (_ & Hnd & _).
  specialize (Hnd k Hk). rewrite elem_of_cons in Hnd. split_and!; [done|tauto|]. intros Hv0.
  destruct (visited_some _ _ Hv0) as (v & Hv & _). pose proof (L5 k Hv0) as Esame. rewrite Hv in Esame.
  apply Hnd. right. apply (inv_stack _ H0 k v Hv), (inv_stack _ L1 k v Esame). done.
Qed.

(** The edges of a component that is popped lead into it or into an earlier one. *)
Lemma pop_closed c0 c i seen seg k x :
  Inv c0 -> ~ visited c0 i -> Loop c0 c i seen -> (forall j, edge i j -> seen j) -> low c i = idx c i ->
  mStack c = seg ++ i :: mStack c0 -> (forall k x, k ∈ seg -> edge k x -> x ∈ mStack c0 -> low c i <= idx c0 x) ->
  k ∈ i :: seg -> edge k x -> x ∈ i :: seg \/ exists C, C ∈ mSCCs c /\ x ∈ toSet C.
Proof using All.
  intros H0 Hni HL Hseen Hlow Hst Hseg Hk He. pose proof HL as [L1 _ L3 L4 L5 L6 L7 L8].
  assert (visited c x /\ (x ∈ mStack c0 -> low c i <= idx c0 x)) as [Hvx Hx].
  { apply elem_of_cons in Hk as [->|Hk]; [by apply L8, Hseen|]. split; [|by apply (Hseg k)].
    destruct (seg_new c0 c i seen seg k) as (Hvk & Hki & Hn0); try done.
    destruct (L6 k Hvk Hn0 Hki) as (_ & _ & HH). by apply HH. }
  destruct (decide (x ∈ mStack c)) as [Hin|Hout]; [|right; by apply (inv_comps _ L1)].
  left. rewrite Hst in Hin. apply elem_of_app in Hin as [Hin|Hin]; [by right|].
  apply elem_of_cons in Hin as [->|Hin]; [by left|]. specialize (Hx Hin).
  apply (inv_stack_visited _ H0), (inv_idx _ H0) in Hin. lia.
Qed.

Section Popped.
Context (c0 c c1 : Calculator) (i : nat) (seen : nat -> Prop) (seg : list nat) (C : BitSet).
Hypotheses (H0 : Inv c0) (Hni : ~ visited c0 i) (HL : Loop c0 c i seen) (Hseen : forall j, edge i j -> seen j)
  (Hlow : low c i = idx c i) (Hst : mStack c = seg ++ i :: mStack c0)
  (Hseg : forall k x, k ∈ seg -> edge k x -> x ∈ mStack c0 -> low c i <= idx c0 x)
  (Hdown : forall k, k ∈ seg -> exists x, x ∈ mStack c /\ idx c x < idx c k /\ reach k x)
  (HC : toSet C = list_to_set (i :: seg)) (HCok : bsOK C)
  (Est : mStack c1 = mStack c0) (Emi : mIndex c1 = mIndex c) (Escc : mSCCs c1 = mSCCs c)
  (Enodes : forall k, mNodes c1 !! k = if decide (k ∈ i :: seg) then withOnStack false <$> mNodes c !! k else mNodes c !! k).

Let c' := set_sccs (mSCCs c1 ++ [C]) c1.

Lemma pop_idx k : idx c' k = idx c k.
Proof using All. unfold idx. cbn. rewrite Enodes. destruct (decide _); [|done]. by destruct (mNodes c !! k). Qed.

Lemma pop_visited k : visited c' k <-> visited c k.
Proof using All. unfold visited. by rewrite pop_idx. Qed.

Lemma pop_not_old k : k ∈ i :: seg -> k ∉ mStack c0.
Proof using All.
  destruct HL as [L1 _ _ _ _ _ _ _]. pose proof (sorted_NoDup _ _ (inv_sorted _ L1)) as Hnd. rewrite Hst in Hnd.
  apply NoDup_app in Hnd as (_ & Hnd & Hnd'). apply NoDup_cons in Hnd' as [Hi _]. rewrite elem_of_cons.
  intros [->|Hk]; [done|]. specialize (Hnd k Hk). set_solver.
Qed.

Lemma pop_reach k x : k ∈ i :: seg -> reach k x -> x ∈ i :: seg \/ exists D, D ∈ mSCCs c /\ x ∈ toSet D.
Proof using All.
  intros Hk. pose proof HL as [L1 _ _ _ _ _ _ _]. revert x. apply rtc_ind_r; [by left|]. intros x y _ He IH.
  destruct IH as [Hx|(D & HD & Hx)].
  - by apply (pop_closed c0 c i seen seg x y).
  - right. apply list_elem_of_lookup in HD as [z Hz]. destruct (inv_closed _ L1 z D x y Hz Hx He) as (z' & D' & _ & Hz' & Hy).
    exists D'. split; [by eapply list_elem_of_lookup_2|done].
Qed.

Lemma pop_up k : k ∈ i :: seg -> reach k i.
Proof using All.
  pose proof HL as [L1 _ _ _ _ _ _ _].
  assert (forall z k, (Z.to_nat (idx c k) < z)%nat -> k ∈ i :: seg -> reach k i) as H; [|apply (H (S (Z.to_nat (idx c k))) k); lia].
  clear k. intros z. induction z as [|z IH]; intros k Hz; [lia|]. intros Hk. apply elem_of_cons in Hk as Hk'. destruct Hk' as [->|Hks]; [constructor|].
  destruct (Hdown k Hks) as (x & Hx & Hlt & Hr). pose proof (inv_idx _ L1 x (inv_stack_visited _ L1 x Hx)) as Hxi.
  assert (x ∈ i :: seg) as Hin.
  { rewrite Hst in Hx. apply elem_of_app in Hx as [Hx|Hx]; [by right|]. apply elem_of_cons in Hx as [->|Hx]; [by left|].
    exfalso. destruct (pop_reach k x Hk Hr) as [Hx'|Hx']; [by apply pop_not_old in Hx'|].
    apply (inv_comps _ L1) in Hx' as [_ Hns]. apply Hns. rewrite Hst. apply elem_of_app. right. by right. }
  etrans; [exact Hr|]. apply IH; [lia|done].
Qed.

Lemma pop_down k : k ∈ i :: seg -> reach i k.
Proof using All.
  rewrite elem_of_cons. intros [->|Hk]; [constructor|]. destruct (seg_new c0 c i seen seg k) as (Hvk & Hki & Hn0); try done.
  by apply (lo_new _ _ _ _ HL k).
Qed.

Lemma pop_inv : Inv c'.
Proof using All.
  pose proof HL as [L1 _ L3 L4 L5 L6 L7 L8]. pose proof L1 as [I1 I2 I3 I4 I5 I6 I7 I8 I9 I10 I11].
  assert (forall k, k ∈ toSet C <-> k ∈ i :: seg) as HCin by (intros k; rewrite HC, elem_of_list_to_set; done).
  assert (forall k, k ∈ mStack c <-> k ∈ i :: seg \/ k ∈ mStack c0) as Hsplit by (intros k; rewrite Hst; set_solver).
  assert (forall k, k ∈ i :: seg -> forall D, D ∈ mSCCs c -> k ∉ toSet D) as Hfresh.
  { intros k Hk D HD HkD. destruct (proj1 (I7 k)) as [_ Hns]; [eauto|]. apply Hns, Hsplit. by left. }
  constructor; cbn [mIndex mStack mSCCs set_sccs c'].
  - assert (length (mNodes c1) = length (mNodes c)) as E; [|cbn; congruence].
    apply Nat.le_antisymm; apply Nat.le_ngt; intros Hlt; [destruct (lookup_lt_is_Some_2 (mNodes c1) (length (mNodes c)) Hlt) as [v Hv]|
      destruct (lookup_lt_is_Some_2 (mNodes c) (length (mNodes c1)) Hlt) as [v Hv]].
    + rewrite Enodes, (lookup_ge_None_2 (mNodes c)) in Hv by lia. by destruct (decide _).
    + pose proof (Enodes (length (mNodes c1))) as E. rewrite Hv, (lookup_ge_None_2 (mNodes c1)) in E by lia. by destruct (decide _).
  - by rewrite Emi.
  - intros k. rewrite pop_visited, pop_idx, Emi. apply I3.
  - intros k v. cbn. rewrite Enodes, Est. destruct (decide (k ∈ i :: seg)) as [Hk|Hk].
    + destruct (mNodes c !! k) as [w|]; [|done]. intros [= <-]. cbn. split; [done|]. intros Hin. by apply pop_not_old in Hk.
    + intros Hv. rewrite (I4 k v Hv), Hsplit. tauto.
  - intros k. rewrite Est, pop_visited. intros Hk. apply I5, Hsplit. by right.
  - rewrite Est. apply (sorted_ext c0); [|apply H0]. intros k Hk. rewrite pop_idx. by apply (stack_idx c0 c i seen).
  - intros k. rewrite Escc, Est, pop_visited. split.
    + intros (D & HD & Hk). apply elem_of_app in HD as [HD|HD].
      * destruct (proj1 (I7 k)) as [H1 H2]; [eauto|]. split; [done|]. intros Hin. apply H2, Hsplit. by right.
      * apply list_elem_of_singleton in HD as ->. apply HCin in Hk. split; [apply I5, Hsplit; by left|by apply pop_not_old].
    + intros [Hv Hn]. destruct (decide (k ∈ i :: seg)) as [Hk|Hk].
      * exists C. split; [set_solver|by apply HCin].
      * destruct (proj2 (I7 k)) as (D & HD & HkD); [|exists D; set_solver]. split; [done|]. rewrite Hsplit. tauto.
  - assert (forall x D, mSCCs c !! x = Some D -> toSet D ## toSet C) as HDC.
    { intros x D HD k HkD HkC. apply HCin in HkC. apply (Hfresh k HkC D); [by eapply list_elem_of_lookup_2|done]. }
    intros x y D1 D2. rewrite Escc, !lookup_snoc_Some. intros [[_ Hx]|[-> <-]] [[_ Hy]|[-> <-]] Hxy.
    + by apply (I8 x y).
    + by apply (HDC x).
    + symmetry. by apply (HDC y).
    + done.
  - intros x D k j. rewrite Escc, lookup_snoc_Some. intros [[Hx HD]|[-> <-]] Hk He.
    + destruct (I9 x D k j HD Hk He) as (y & D' & Hy & HD' & Hj). exists y, D'. split_and!; [done| |done].
      by apply lookup_app_l_Some.
    + apply HCin in Hk. destruct (pop_closed c0 c i seen seg k j H0 Hni HL Hseen Hlow Hst Hseg Hk He) as [Hj|(D' & HD' & Hj)].
      * exists (length (mSCCs c)), C. split_and!; [done| |by apply HCin]. by rewrite list_lookup_middle.
      * apply list_elem_of_lookup in HD' as [y Hy]. exists y, D'. pose proof (lookup_lt_Some _ _ _ Hy).
        split_and!; [lia| |done]. by apply lookup_app_l_Some.
  - intros D k j HD. rewrite Escc in HD. apply elem_of_app in HD as [HD|HD]; [by apply I10|].
    apply list_elem_of_singleton in HD as ->. rewrite !HCin. intros Hk Hj. etrans; [by apply pop_up|by apply pop_down].
  - rewrite Escc. apply Forall_app. split; [done|]. by constructor.
Qed.

End Popped.

Lemma finish_spec c0 c i seen :
  (i < n)%nat -> Inv c0 -> ~ visited c0 i -> visited c i -> Loop c0 c i seen -> (forall j, edge i j -> seen j) ->
  wp0 (finishNode i) (fun _ c' => Post c0 c' i) c.
Proof using All.
  intros Hi H0 Hni Hvi HL Hseen. pose proof HL as [L1 (seg & Hst & Hseg & Hdown) L3 L4 L5 L6 L7 L8].
  destruct (visited_some _ _ Hvi) as (v & Hv & _). unfold finishNode. apply wp_bind, (wp_nodeAt _ _ _ v Hv).
  assert (nLowLink v = low c i /\ nIndex v = idx c i) as [-> ->] by (unfold low, idx; by rewrite Hv).
  destruct (Z.eqb_spec (low c i) (idx c i)) as [Hlow|Hne].
  - apply wp_bind, wp_get, wp_bind. pose proof (sorted_NoDup _ _ (inv_sorted _ L1)) as Hnd.
    eapply wp_mono; [apply (pop_spec _ i seg (mStack c0) c); [done|done| | |]|].
    + intros k Hk. apply (inv_stack_visited _ L1) in Hk. destruct (visited_some _ _ Hk) as (w & Hw & _). by eapply lookup_lt_Some.
    + rewrite Hst, length_app. cbn. lia.
    + apply set_ok. apply replicate_ok with (n := 1%nat).
    + intros C c1 (HC & HCok & Est & Emi & Escc & Enodes). apply wp_modify.
      assert (toSet C = list_to_set (i :: seg)) as HC'.
      { rewrite HC, toSet_set. change emptyBitSet with (replicate 1 0). rewrite toSet_replicate. set_solver. }
      assert (forall k, idx (set_sccs (mSCCs c1 ++ [C]) c1) k = idx c k) as Eidx by (intros k; by eapply (pop_idx c0)).
      constructor.
      * by eapply (pop_inv c0).
      * exists []. split; [done|]. split_and!; [left; split; [done|]| |].
        -- rewrite Eidx, <- Hlow. unfold low. cbn. rewrite Enodes, decide_True by set_solver. by rewrite Hv.
        -- intros k x Hk. by apply elem_of_nil in Hk.
        -- intros k Hk. by apply elem_of_nil in Hk.
      * intros k Hk. cbn. rewrite Enodes, decide_False; [by apply L5|].
        assert (forall k, k ∈ i :: seg -> k ∉ mStack c0) as Hno by (intros k'; by eapply (pop_not_old c0 c c1 i seen seg C)).
        intros Hin. pose proof (Hno k Hin) as Hno'. destruct (visited_some _ _ Hk) as (w & Hw & _).
        pose proof (L5 k Hk) as Esame. rewrite Hw in Esame.
        apply Hno', (inv_stack _ H0 k w Hw), (inv_stack _ L1 k w Esame). rewrite Hst. set_solver.
      * unfold visited. by rewrite Eidx.
      * intros k Hk Hnk. unfold visited in Hk. rewrite Eidx in Hk |- *. destruct (decide (k = i)) as [->|Hki].
        -- split_and!; [lia|constructor|]. intros j Hj. unfold visited. rewrite Eidx. by apply L8, Hseen.
        -- destruct (L6 k Hk Hnk Hki) as (H1 & Hr & H2). split_and!; [done|done|]. intros j Hj. unfold visited. rewrite Eidx. by apply H2.
      * cbn. lia.
  - apply wp_ret. constructor; try done.
    + exists (seg ++ [i]). split; [by rewrite <- app_assoc|]. split_and!.
      * right. destruct L4 as [E|Hx]; [congruence|done].
      * intros k x. rewrite elem_of_app, list_elem_of_singleton. intros [Hk| ->] He Hx; [by apply (Hseg k)|]. by apply L8; [apply Hseen|].
      * intros k. rewrite elem_of_app, list_elem_of_singleton. intros [Hk| ->]; [by apply Hdown|].
        destruct L4 as [E|(x & Hx & E & Hr)]; [congruence|]. exists x. rewrite (stack_idx c0 c i seen x H0 HL Hx).
        pose proof (inv_idx _ H0 x (inv_stack_visited _ H0 x Hx)) as Hxi.
        split_and!; [rewrite Hst; apply elem_of_app; right; by right|lia|done].
    + intros k Hk Hnk. destruct (decide (k = i)) as [->|Hki]; [|by apply L6]. split_and!; [lia|constructor|].
      intros j Hj. by apply L8, Hseen.
    + lia.
Qed.

Lemma scc_spec fuel : forall c i,
  (i < n)%nat -> Inv c -> ~ visited c i -> (size (unvisited c) <= fuel)%nat ->
  wp0 (scc (fun i => inr (succ i)) fuel i) (fun _ c' => Post c c' i) c.
Proof using All.
  induction fuel as [|fuel IH]; intros c0 i Hi H0 Hni Hf; cbn.
  { exfalso. assert (i ∈ unvisited c0) as Hin.
    { unfold unvisited. rewrite elem_of_filter, elem_of_set_seq. split; [|lia]. unfold visited in Hni. lia. }
    assert (size (unvisited c0) = 0%nat) as E by lia. apply size_empty_iff in E. set_solver. }
  apply wp_bind. eapply wp_mono; [by apply start_spec|]. intros [] c (HL & Hvi & Hmono). apply wp_bind.
  pose proof (unvisited_lt c0 c i Hi Hni Hvi Hmono) as Hlt.
  eapply wp_mono; [apply (visits_spec fuel _ c0 i (bits (succ i)) c (fun _ => False)); try done|].
  - lia.
  - intros j Hj. split; [done|]. apply elem_bits; [by apply succ_ok|done].
  - intros [] c1 HL1.
    assert (visited c1 i) as Hv1. { unfold visited. rewrite (lo_idx _ _ _ _ HL1). pose proof (inv_index _ H0). lia. }
    apply (finish_spec c0 c1 i (fun x => False \/ x ∈ bits (succ i))); try done.
    intros j [_ Hj]. right. apply elem_bits; [by apply succ_ok|done].
Qed.

(** At the top level a call empties the stack. *)
Lemma top_call c c' i : mStack c = [] -> Post c c' i -> mStack c' = [].
Proof using All.
  intros Hst [_ (seg & -> & [[-> _]|(x & Hx & _)] & _ & _) _ _ _ _]; rewrite Hst in *; [done|]. by apply elem_of_nil in Hx.
Qed.

Lemma sccAll_spec nodes : forall c,
  Inv c -> mStack c = [] -> (forall i, i ∈ nodes -> (i < n)%nat) ->
  wp0 (sccAll (fun i => inr (succ i)) n nodes)
    (fun _ c' => Inv c' /\ mStack c' = [] /\ (forall k, visited c k \/ k ∈ nodes -> visited c' k)) c.
Proof using All.
  induction nodes as [|i nodes IH]; intros c Hc Hst Hn; cbn.
  { split_and!; try done. intros k [Hk|Hk]; [done|set_solver]. }
  destruct (lookup_lt_is_Some_2 (mNodes c) i) as [v Hv]; [rewrite (inv_length _ Hc); apply Hn; set_solver|].
  apply wp_bind, (wp_nodeAt _ _ _ v Hv), wp_bind.
  assert (wp0 (if nIndex v =? -1 then scc (fun i => inr (succ i)) n i else mret tt)
    (fun _ c1 => Inv c1 /\ mStack c1 = [] /\ visited c1 i /\ forall k, visited c k -> visited c1 k) c) as Hcall.
  { destruct (Z.eqb_spec (nIndex v) (-1)) as [E|Hne].
    - eapply wp_mono; [apply scc_spec; try done; [apply Hn; set_solver|unfold visited, idx; rewrite Hv; lia|]|].
      + transitivity (size (set_seq 0 n : gset nat)); [|by rewrite size_set_seq]. apply subseteq_size. intros k. unfold unvisited. rewrite elem_of_filter. tauto.
      + intros [] c1 HP. split_and!; [apply HP|by apply (top_call c c1 i)|exact (po_visited _ _ _ HP)|intros k; by apply (post_visited c c1 i)].
    - apply wp_ret. split_and!; try done. unfold visited, idx. by rewrite Hv. }
  eapply wp_mono; [exact Hcall|]. intros [] c1 (H1 & Hst1 & Hi1 & Hmono).
  eapply wp_mono; [apply IH; try done; set_solver|]. intros [] c2 (H2 & Hst2 & Hall). split_and!; try done.
  intros k [Hk|Hk]; [apply Hall; left; by apply Hmono|]. apply elem_of_cons in Hk as [->|Hk]; apply Hall; auto.
Qed.

Lemma calc_init_inv : Inv (mkCalculator (replicate n newNode) [] 0 []).
Proof using All.
  assert (forall k, idx (mkCalculator (replicate n newNode) [] 0 []) k = -1) as Hidx.
  { intros k. unfold idx. cbn. destruct (replicate n newNode !! k) as [v|] eqn:E; [|done].
    by apply lookup_replicate in E as [-> _]. }
  constructor; cbn; try done.
  - apply length_replicate.
  - intros k Hk. unfold visited in Hk. by rewrite Hidx in Hk.
  - intros k v Hv. apply lookup_replicate in Hv as [-> _]. cbn. rewrite elem_of_nil. done.
  - intros k Hk. by apply elem_of_nil in Hk.
  - constructor.
  - intros k. split; [intros (C & HC & _); by apply elem_of_nil in HC|]. intros [Hk _]. unfold visited in Hk. by rewrite Hidx in Hk.
  - intros C i j HC. by apply elem_of_nil in HC.
Qed.

(** The components are a partition of the nodes, and edges lead into the same
    component or an earlier one. *)
Lemma calculate_spec c :
  exists c', calculateSCCs (fun i => inr (succ i)) n c = Ok tt c' /\ Forall bsOK (mSCCs c') /\
    (forall k, (k < n)%nat <-> exists C, C ∈ mSCCs c' /\ k ∈ toSet C) /\
    (forall x y C D, mSCCs c' !! x = Some C -> mSCCs c' !! y = Some D -> x <> y -> toSet C ## toSet D) /\
    (forall x C i j, mSCCs c' !! x = Some C -> i ∈ toSet C -> edge i j ->
       exists y D, (y <= x)%nat /\ mSCCs c' !! y = Some D /\ j ∈ toSet D) /\
    (forall C i j, C ∈ mSCCs c' -> i ∈ toSet C -> j ∈ toSet C -> reach i j).
Proof using All.
  unfold calculateSCCs. pose proof (sccAll_spec (seq 0 n) _ calc_init_inv eq_refl) as H. unfold wp in H.
  destruct (sccAll _ n _ _) as [[] c'|f c'].
  - destruct H as (Hinv & Hst & Hall); [intros i Hi; apply elem_of_seq in Hi; lia|]. exists c'. pose proof Hinv as [I1 I2 I3 I4 I5 I6 I7 I8 I9 I10 I11].
    split_and!; try done. intros k. rewrite I7, Hst. split.
    + intros Hk. split; [|set_solver]. apply Hall. right. apply elem_of_seq. lia.
    + intros [Hk _]. destruct (visited_some _ _ Hk) as (v & Hv & _). apply lookup_lt_Some in Hv. lia.
  - exfalso. apply H. intros i Hi. apply elem_of_seq in Hi. lia.
Qed.

(** A path never leads into a later component. *)
Lemma reach_earlier (sccs : list BitSet) x C i j :
  (forall x C i j, sccs !! x = Some C -> i ∈ toSet C -> edge i j ->
     exists y D, (y <= x)%nat /\ sccs !! y = Some D /\ j ∈ toSet D) ->
  sccs !! x = Some C -> i ∈ toSet C -> reach i j -> exists y D, (y <= x)%nat /\ sccs !! y = Some D /\ j ∈ toSet D.
Proof using All.
  intros Hedge Hx Hi. revert j. apply rtc_ind_r; [by exists x, C|].
  intros j k _ He (y & D & Hy & HD & Hj). destruct (Hedge y D j k HD Hj He) as (z & E & Hz & HE & Hk). exists z, E. split_and!; [lia|done|done].
Qed.

End Proofs.

(** ** Successors given by a partial function *)

Section Partial.
Context (n : nat) (f : nat -> exc BitSet) (succ : nat -> BitSet).
Hypothesis f_succ : forall i, (i < n)%nat -> f i = inr (succ i).
Hypothesis succ_bits : forall i j, (i < n)%nat -> j ∈ bits (succ i) -> (j < n)%nat.

Lemma visits_ext (s1 s2 : nat -> M Calculator unit) i js :
  (forall j c, j ∈ js -> s1 j c = s2 j c) -> forall c, visitSuccessors s1 i js c = visitSuccessors s2 i js c.
Proof using Type.
  induction js as [|j js IH]; intros H c; [done|]. cbn. unfold visitSuccessor, bnd, mbind, M_bind.
  destruct (nodeAt j c) as [w c1|]; [|done]. destruct (nIndex w =? -1).
  - rewrite (H j c1) by (by left). destruct (s2 j c1) as [[] c2|]; [|done]. destruct (nodeAt j c2) as [w' c3|]; [|done].
    destruct (updateNode _ _ c3); [|done]. apply IH. intros k c' Hk. apply H. by right.
  - destruct (nOnStack w); [destruct (updateNode _ _ c1); [|done]|cbn]; apply IH; intros k c' Hk; apply H; by right.
Qed.

Lemma scc_ext fuel : forall i c, (i < n)%nat -> scc f fuel i c = scc (fun i => inr (succ i)) fuel i c.
Proof using f_succ succ_bits.
  induction fuel as [|fuel IH]; intros i c Hi; [done|]. cbn. unfold bnd, mbind, M_bind. destruct (startNode i c) as [[] c1|]; [|done].
  rewrite (f_succ i Hi). rewrite (visits_ext _ (scc (fun i => inr (succ i)) fuel)); [done|].
  intros j c' Hj. apply IH. by eapply succ_bits.
Qed.

Lemma calculate_ext c : calculateSCCs f n c = calculateSCCs (fun i => inr (succ i)) n c.
Proof using f_succ succ_bits.
  unfold calculateSCCs. assert (forall i, i ∈ seq 0 n -> (i < n)%nat) as H by (intros i Hi; apply elem_of_seq in Hi; lia).
  generalize (mkCalculator (replicate n newNode) [] 0 []). induction (seq 0 n) as [|i l IH]; intros c'; [done|]. cbn. unfold bnd, mbind, M_bind.
  destruct (nodeAt i c') as [v c1|]; [|done].
  assert (forall c, sccAll f n l c = sccAll (fun i => inr (succ i)) n l c) as IH' by (apply IH; intros j Hj; apply H; by right).
  destruct (nIndex v =? -1); [|by apply IH']. rewrite scc_ext by (apply H; by left). destruct (scc _ _ _ c1); [|done]. by apply IH'.
Qed.

End Partial.

(** C38: For a graph of [n] nodes whose successor sets name only nodes of the graph,
    [calculateSCCs] terminates without a fault, and the bit sets it leaves in
    [mSCCs] are exactly the strongly connected components: every node is in
    one of them, no node is in two, and two nodes are in the same one if and
    only if each can be reached from the other. *)
Theorem calculateSCCs_exact (n : nat) (succ : nat -> BitSet) (c : Calculator)
    (succ_ok : forall i, (i < n)%nat -> bsOK (succ i))
    (succ_lt : forall i j, (i < n)%nat -> j ∈ toSet (succ i) -> (j < n)%nat) :
  exists c', calculateSCCs (fun i => inr (succ i)) n c = Ok tt c' /\
    (forall k, (k < n)%nat <-> exists C, C ∈ mSCCs c' /\ k ∈ toSet C) /\
    (forall x y C D, mSCCs c' !! x = Some C -> mSCCs c' !! y = Some D -> x <> y -> toSet C ## toSet D) /\
    (forall C i j, C ∈ mSCCs c' -> i ∈ toSet C -> (j ∈ toSet C <-> reach n succ i j /\ reach n succ j i)).
Proof.
  destruct (calculate_spec n succ succ_ok succ_lt c) as (c' & E & _ & Hall & Hdisj & Hedge & Hstrong).
  exists c'. split_and!; try done. intros C i j HC Hi. split; [intros Hj; split; by apply (Hstrong C)|].
  intros [Hij Hji]. apply list_elem_of_lookup in HC as [x Hx].
  destruct (reach_earlier n succ succ_ok succ_lt _ x C i j Hedge Hx Hi Hij) as (y & D & Hy & HD & Hj).
  destruct (reach_earlier n succ succ_ok succ_lt _ y D j i Hedge HD Hj Hji) as (z & E' & Hz & HE' & Hi').
  destruct (decide (x = y)) as [->|Hne]; [congruence|].
  assert (z = x) as -> by (destruct (decide (z = x)) as [|Hzx]; [done|]; exfalso; by apply (Hdisj z x E' C HE' Hx Hzx i)). lia.
Qed.

(** A graph with the cycle 0 -> 1 -> 2 -> 0 and the node 3 it leads to. *)
Definition sampleSucc (i : nat) : BitSet :=
  match i with 0%nat => [2] | 1%nat => [4] | 2%nat => [9] | _ => [0] end.

Lemma calculateSCCs_exact_witness :
  exists c', calculateSCCs (fun i => inr (sampleSucc i)) 4 (mkCalculator [] [] 0 []) = Ok tt c' /\
    mSCCs c' = [[8]; [7]] /\ reach 4 sampleSucc 0 2 /\ reach 4 sampleSucc 2 0.
Proof.
  assert (forall i, (i < 4)%nat -> bsOK (sampleSucc i)) as Hok
    by (intros [|[|[|i]]] _; cbn; repeat constructor; unfold wordOK; lia).
  destruct (calculateSCCs_exact 4 sampleSucc (mkCalculator [] [] 0 [])) as (c' & E & _ & _ & H).
  - exact Hok.
  - intros i j Hi. rewrite <- elem_bits by by apply Hok. destruct i as [|[|[|i]]]; cbn [sampleSucc]; vm_compute bits; rewrite ?elem_of_cons, ?elem_of_nil; lia.
  - exists c'. split; [done|]. assert (mSCCs c' = [[8]; [7]]) as Hs by (vm_compute in E; by injection E as <-).
    split; [done|]. apply (H [7] 0%nat 2%nat); [rewrite Hs; set_solver| |]; by apply elem_toSet.
Defined.

End Tarjan.
