(* ===== verification/EvictionCache.v ===== *)
(** * The cache with random eviction

    [util/RandomEvictionCache.h].  The hash map is the list of its elements in the
    order a search meets them; a search takes the first element whose key matches,
    which for [std::unordered_map] means that it is in the same bucket and that the
    key's [==] holds.  The pointers of [mValuePtrs] point at elements of the map and
    are kept as the keys of those elements.  [rand_uniform] draws from the global
    engine of [util/Math.cpp]; the state of the engine is the number of draws so
    far, and the values drawn are a parameter. *)

From stdpp Require Import base list strings.
From S2P Require Import Prelude.

Import Width.
Local Open Scope Z_scope.
#[local] Arguments wp : simpl never.

(** ** Random draws *)

(** [draw n lo hi] is the value of the [n]-th call of [rand_uniform], when it is
    called with [lo] and [hi]. *)
Abbreviation Engine := nat (only parsing).
Definition rand_uniform (draw : nat -> Z -> Z -> Z) (lo hi : Z) : M Engine Z :=
  fun n => Ok (draw n lo hi) (S n).

(** What [std::uniform_int_distribution] promises. *)
Definition DrawLaws (draw : nat -> Z -> Z -> Z) : Prop :=
  forall n lo hi, lo <= hi -> lo <= draw n lo hi <= hi.

(** ** The cache *)

Record Counters := mkCounters { mHits : Z; mMisses : Z; mInserts : Z; mUpdates : Z; mEvicts : Z }.
Definition newCounters : Counters := mkCounters 0 0 0 0 0.
Definition countHit (c : Counters) := mkCounters (u64 (mHits c + 1)) (mMisses c) (mInserts c) (mUpdates c) (mEvicts c).
Definition countMiss (c : Counters) := mkCounters (mHits c) (u64 (mMisses c + 1)) (mInserts c) (mUpdates c) (mEvicts c).
Definition countInsert (c : Counters) := mkCounters (mHits c) (mMisses c) (u64 (mInserts c + 1)) (mUpdates c) (mEvicts c).
Definition countUpdate (c : Counters) := mkCounters (mHits c) (mMisses c) (mInserts c) (u64 (mUpdates c + 1)) (mEvicts c).
Definition countEvict (c : Counters) := mkCounters (mHits c) (mMisses c) (mInserts c) (mUpdates c) (u64 (mEvicts c + 1)).

Section Cache.
Context {K V : Type} (matches : K -> K -> bool) (draw : nat -> Z -> Z -> Z).

Record CacheValue := mkCacheValue { mLastAccess : Z; mValue : V }.

Record RandomEvictionCache := mkCache {
  mMaxSize : Z;
  mGeneration : Z;
  mValueMap : list (K * CacheValue);
  mValuePtrs : list K;
  mCounters : Counters
}.

Definition newCache (maxSize : Z) : RandomEvictionCache := mkCache maxSize 0 [] [] newCounters.

Definition set_map m c := mkCache (mMaxSize c) (mGeneration c) m (mValuePtrs c) (mCounters c).
Definition set_ptrs p c := mkCache (mMaxSize c) (mGeneration c) (mValueMap c) p (mCounters c).
Definition set_generation g c := mkCache (mMaxSize c) g (mValueMap c) (mValuePtrs c) (mCounters c).
Definition count (f : Counters -> Counters) c :=
  mkCache (mMaxSize c) (mGeneration c) (mValueMap c) (mValuePtrs c) (f (mCounters c)).

(** [find], [erase] and the write through the iterator of an element. *)
Fixpoint mapFind (k : K) (m : list (K * CacheValue)) : option (K * CacheValue) :=
  match m with
  | [] => None
  | e :: m => if matches k (fst e) then Some e else mapFind k m
  end.
Fixpoint mapErase (k : K) (m : list (K * CacheValue)) : list (K * CacheValue) :=
  match m with
  | [] => []
  | e :: m => if matches k (fst e) then m else e :: mapErase k m
  end.
Fixpoint mapWrite (k : K) (v : CacheValue) (m : list (K * CacheValue)) : list (K * CacheValue) :=
  match m with
  | [] => []
  | e :: m => if matches k (fst e) then (fst e, v) :: m else e :: mapWrite k v m
  end.

(** [mValuePtrs.at(i)] and the element it points at. *)
Definition ptrAt (i : nat) (c : RandomEvictionCache) : M Engine (K * CacheValue) :=
  match mValuePtrs c !! i with
  | None => throw "vector::at"
  | Some k => deref (mapFind k (mValueMap c)) "mValuePtrs"
  end.

(** [std::swap(victim, mValuePtrs.back()); mValuePtrs.pop_back()] *)
Definition swapPop (i : nat) (l : list K) : list K :=
  match last l with
  | None => l
  | Some b => take (length l - 1) (<[i := b]> l)
  end.

Definition evictOne (c : RandomEvictionCache) : M Engine RandomEvictionCache :=
  let sz := Z.of_nat (length (mValuePtrs c)) in
  if sz =? 0 then mret c
  else
    let* i1 := rand_uniform draw 0 (sz - 1) in
    let* vp1 := ptrAt (Z.to_nat i1) c in
    let* i2 := rand_uniform draw 0 (sz - 1) in
    let* vp2 := ptrAt (Z.to_nat i2) c in
    let '(i, victim) :=
      if mLastAccess (snd vp1) <? mLastAccess (snd vp2) then (i1, vp1) else (i2, vp2) in
    let c := set_map (mapErase (fst victim) (mValueMap c)) c in
    let c := set_ptrs (swapPop (Z.to_nat i) (mValuePtrs c)) c in
    mret (count countEvict c).

Definition put (k : K) (v : V) (c : RandomEvictionCache) : M Engine RandomEvictionCache :=
  let c := set_generation (u64 (mGeneration c + 1)) c in
  let newValue := mkCacheValue (mGeneration c) v in
  match mapFind k (mValueMap c) with
  | None =>
      let c := set_map ((k, newValue) :: mValueMap c) c in
      let c := set_ptrs (mValuePtrs c ++ [k]) c in
      let c := count countInsert c in
      if mMaxSize c <? Z.of_nat (length (mValuePtrs c)) then evictOne c else mret c
  | Some _ => mret (count countUpdate (set_map (mapWrite k newValue (mValueMap c)) c))
  end.

Definition exists_ (k : K) (countMisses : bool) (c : RandomEvictionCache) : bool * RandomEvictionCache :=
  let miss := match mapFind k (mValueMap c) with Some _ => false | None => true end in
  (negb miss, if miss && countMisses then count countMiss c else c).

Definition clear (c : RandomEvictionCache) : RandomEvictionCache := set_map [] (set_ptrs [] c).

Definition maybeGet (k : K) (c : RandomEvictionCache) : option V * RandomEvictionCache :=
  match mapFind k (mValueMap c) with
  | Some (_, cacheVal) =>
      let c := set_generation (u64 (mGeneration c + 1)) (count countHit c) in
      (Some (mValue cacheVal), set_map (mapWrite k (mkCacheValue (mGeneration c) (mValue cacheVal)) (mValueMap c)) c)
  | None => (None, count countMiss c)
  end.

(** [get] throws [std::range_error] on a miss. *)
Definition get_ (k : K) (c : RandomEvictionCache) : exc V * RandomEvictionCache :=
  let '(r, c) := maybeGet k c in
  (match r with Some v => inr v | None => inl (Throw "There is no such key in cache") end, c).

(** The two loops of [erase_if]: an element that is erased is replaced by the last
    one, which is looked at next; every turn erases an element or goes on to the
    next, so that as many turns as there are elements are enough. *)
Fixpoint eraseLoop (f : V -> bool) (fuel i : nat) (c : RandomEvictionCache) : exc RandomEvictionCache :=
  if (length (mValuePtrs c) <=? i)%nat then inr c
  else
    match fuel with
    | O => inl OutOfFuel
    | S fuel =>
        match mValuePtrs c !! i with
        | None => inl (Throw "vector::at")
        | Some k =>
            match mapFind k (mValueMap c) with
            | None => inl (NullPointer "mValuePtrs")
            | Some vp =>
                if f (mValue (snd vp)) then
                  let c := set_map (mapErase (fst vp) (mValueMap c)) c in
                  eraseLoop f fuel i (set_ptrs (swapPop i (mValuePtrs c)) c)
                else eraseLoop f fuel (S i) c
            end
        end
    end.
Definition erase_if (f : V -> bool) (c : RandomEvictionCache) : exc RandomEvictionCache :=
  eraseLoop f (length (mValuePtrs c)) 0 c.

(** ** Invariant *)

Definition keys (c : RandomEvictionCache) : list K := fst <$> mValueMap c.

(** No two keys of the map match, and there is one pointer for each element. *)
Record CacheOK (c : RandomEvictionCache) : Prop := {
  co_distinct : ForallOrdPairs (fun a b => matches a b = false) (keys c);
  co_ptrs : mValuePtrs c ≡ₚ keys c
}.

Hypothesis matches_refl : forall k, matches k k = true.
Hypothesis matches_sym : forall a b, matches a b = matches b a.

Lemma mapFind_Some k m e : mapFind k m = Some e -> e ∈ m /\ matches k (fst e) = true.
Proof using Type.
  induction m as [|x m IH]; cbn; [done|]. destruct (matches k (fst x)) eqn:Hm.
  - intros [= ->]. split; [apply elem_of_cons; by left|done].
  - intros H. destruct (IH H). split; [apply elem_of_cons; by right|done].
Qed.

Lemma mapFind_None k m e : mapFind k m = None -> e ∈ m -> matches k (fst e) = false.
Proof using Type.
  induction m as [|x m IH]; cbn; [by intros _ ?%elem_of_nil|]. destruct (matches k (fst x)) eqn:Hm; [done|].
  intros H He. apply elem_of_cons in He as [->|He]; auto.
Qed.

(** The search for a key of the map finds its own element. *)
Lemma find_own k v m :
  ForallOrdPairs (fun a b => matches a b = false) (fst <$> m) -> (k, v) ∈ m -> mapFind k m = Some (k, v).
Proof using matches_refl matches_sym.
  induction m as [|x m IH]; cbn; [by intros _ ?%elem_of_nil|].
  intros H He. inversion H as [|? ? Hx Hm]; subst. apply elem_of_cons in He as [<-|He]; cbn; [by rewrite matches_refl|].
  rewrite matches_sym. rewrite List.Forall_forall in Hx.
  rewrite (Hx k); [by apply IH|]. apply list_elem_of_In, list_elem_of_fmap. by exists (k, v).
Qed.

Lemma erase_sub k m e : e ∈ mapErase k m -> e ∈ m.
Proof using Type.
  induction m as [|x m IH]; cbn; [done|]. destruct (matches k (fst x)); rewrite !elem_of_cons; tauto.
Qed.

Lemma erase_distinct k m :
  ForallOrdPairs (fun a b => matches a b = false) (fst <$> m) ->
  ForallOrdPairs (fun a b => matches a b = false) (fst <$> mapErase k m).
Proof using Type.
  induction m as [|x m IH]; cbn; [done|]. intros H. inversion H as [|? ? Hx Hm]; subst.
  destruct (matches k (fst x)); [done|]. cbn. constructor; [|by apply IH].
  rewrite List.Forall_forall in Hx |- *. intros y Hy. apply Hx.
  apply list_elem_of_In, list_elem_of_fmap in Hy as (e & -> & He). apply list_elem_of_In, list_elem_of_fmap.
  exists e. split; [done|]. by eapply erase_sub.
Qed.

Lemma erase_perm k m e : mapFind k m = Some e -> e :: mapErase k m ≡ₚ m.
Proof using Type.
  induction m as [|x m IH]; cbn; [done|]. destruct (matches k (fst x)); [by intros [= ->]|].
  intros H. rewrite Permutation_swap. by rewrite (IH H).
Qed.

Lemma elem_erase k m x e : mapFind k m = Some x -> (e ∈ m <-> e = x \/ e ∈ mapErase k m).
Proof using Type.
  intros H. rewrite <- elem_of_cons. split; intros He.
  - by rewrite (erase_perm k m x H).
  - by rewrite (erase_perm k m x H) in He.
Qed.

Lemma write_keys k v m : fst <$> mapWrite k v m = fst <$> m.
Proof using Type. induction m as [|x m IH]; cbn; [done|]. destruct (matches k (fst x)); cbn; [done|]. by f_equal. Qed.

Lemma elem_write k v m e :
  e ∈ mapWrite k v m -> (exists x, mapFind k m = Some x /\ e = (fst x, v)) \/ e ∈ m.
Proof using Type.
  induction m as [|x m IH]; cbn; [by intros ?%elem_of_nil|].
  destruct (matches k (fst x)) eqn:Hx; rewrite !elem_of_cons.
  - intros [->|He]; [|tauto]. left. by exists x.
  - intros [->|He]; [tauto|]. destruct (IH He); tauto.
Qed.

(** Keys that match the same key match each other. *)
Definition matchesTrans : Prop := forall k a b, matches k a = true -> matches k b = true -> matches a b = true.

Lemma write_matching k v m e :
  matchesTrans -> ForallOrdPairs (fun a b => matches a b = false) (fst <$> m) ->
  e ∈ mapWrite k v m -> matches k (fst e) = true -> snd e = v.
Proof using Type.
  intros Ht. induction m as [|x m IH]; cbn; [by intros _ ?%elem_of_nil|]. intros H. inversion H as [|? ? Hx Hm]; subst.
  destruct (matches k (fst x)) eqn:Hkx; rewrite !elem_of_cons.
  - intros [->|He] Hke; [done|]. rewrite List.Forall_forall in Hx. specialize (Ht k (fst x) (fst e) Hkx Hke).
    rewrite Hx in Ht; [done|]. apply list_elem_of_In, list_elem_of_fmap. by exists e.
  - intros [->|He] Hke; [congruence|]. by apply IH.
Qed.

Lemma swapPop_perm i l k : l !! i = Some k -> k :: swapPop i l ≡ₚ l.
Proof using Type.
  intros Hi. unfold swapPop. destruct (last l) as [b|] eqn:Hl.
  2: { apply last_None in Hl as ->. done. }
  apply last_Some in Hl as [l' ->]. rewrite length_app. cbn [length]. replace (length l' + 1 - 1)%nat with (length l') by lia.
  destruct (decide (i < length l')%nat) as [Hlt|Hge].
  - rewrite insert_app_l by done. rewrite take_app_length' by by rewrite length_insert. rewrite lookup_app_l in Hi by done.
    apply list_elem_of_split_length in Hi as (l1 & l2 & -> & ->). rewrite insert_app_r_alt by done.
    rewrite Nat.sub_diag. cbn. rewrite <- !app_assoc. cbn. rewrite Permutation_middle.
    apply Permutation_app_head. constructor. apply Permutation_cons_append.
  - pose proof (lookup_lt_Some _ _ _ Hi) as Hb. rewrite length_app in Hb. cbn in Hb. assert (i = length l') as -> by lia.
    rewrite lookup_app_r, Nat.sub_diag in Hi by done. injection Hi as ->.
    rewrite insert_app_r_alt by done. rewrite take_app_length. by rewrite Permutation_app_comm.
Qed.

Lemma swapPop_length i l k : l !! i = Some k -> length (swapPop i l) = (length l - 1)%nat.
Proof using Type. intros H. pose proof (Permutation_length (swapPop_perm i l k H)) as E. cbn in E. lia. Qed.

(** A pointer can be followed. *)
Lemma ptr_find c i k : CacheOK c -> mValuePtrs c !! i = Some k -> exists v, mapFind k (mValueMap c) = Some (k, v).
Proof using matches_refl matches_sym.
  intros [H1 H2] Hi. apply list_elem_of_lookup_2 in Hi. rewrite H2 in Hi.
  apply list_elem_of_fmap in Hi as ([k' v] & -> & He). exists v. by apply find_own.
Qed.

(** Erasing the element a pointer points at, with the pointer. *)
Lemma erase_ok c i k :
  CacheOK c -> mValuePtrs c !! i = Some k ->
  CacheOK (set_ptrs (swapPop i (mValuePtrs c)) (set_map (mapErase k (mValueMap c)) c)).
Proof using matches_refl matches_sym.
  intros Hc Hi. destruct (ptr_find c i k Hc Hi) as [v Hf]. destruct Hc as [H1 H2]. constructor.
  - by apply erase_distinct.
  - unfold keys in *. cbn. apply (Permutation_cons_inv (a := k)). rewrite (swapPop_perm _ _ _ Hi), H2.
    symmetry. exact (Permutation_map fst (erase_perm _ _ _ Hf)).
Qed.

Section Specs.
Hypothesis draws : DrawLaws draw.

Lemma draw_at (l : list K) n :
  l <> [] -> exists k, l !! Z.to_nat (draw n 0 (Z.of_nat (length l) - 1)) = Some k.
Proof using draws.
  intros Hl. assert (0 < length l)%nat by (destruct l; [done|cbn; lia]).
  destruct (draws n 0 (Z.of_nat (length l) - 1)); [lia|]. apply lookup_lt_is_Some_2. lia.
Qed.

Lemma evictOne_spec c n :
  CacheOK c ->
  wp (fun _ => False) (evictOne c) (fun c' _ =>
    CacheOK c' /\ length (mValuePtrs c') = (length (mValuePtrs c) - 1)%nat /\ mMaxSize c' = mMaxSize c /\
    (forall e, e ∈ mValueMap c' -> e ∈ mValueMap c)) n.
Proof using draws matches_refl matches_sym.
  intros Hc. unfold evictOne. destruct (Z.eqb_spec (Z.of_nat (length (mValuePtrs c))) 0) as [E|E].
  { apply wp_ret. split_and!; try done. lia. }
  assert (mValuePtrs c <> []) as Hne by (intros E'; rewrite E' in E; done).
  unfold wp, bnd, mbind, M_bind, rand_uniform, ptrAt. cbn [M_ret].
  destruct (draw_at _ n Hne) as [k1 E1]. rewrite E1. destruct (ptr_find _ _ _ Hc E1) as [v1 F1]. rewrite F1. cbn.
  destruct (draw_at _ (S n) Hne) as [k2 E2]. rewrite E2. destruct (ptr_find _ _ _ Hc E2) as [v2 F2]. rewrite F2. cbn.
  destruct (mLastAccess v1 <? mLastAccess v2); cbn.
  - split_and!; [by destruct (erase_ok c _ k1 Hc E1); constructor|by apply (swapPop_length _ _ _ E1)|done|intros e; apply erase_sub].
  - split_and!; [by destruct (erase_ok c _ k2 Hc E2); constructor|by apply (swapPop_length _ _ _ E2)|done|intros e; apply erase_sub].
Qed.

(** What [put] leaves: elements that were there, and perhaps the one that was put;
    none that matches the key with another value. *)
Definition putLeft (k : K) (v : V) (c c' : RandomEvictionCache) : Prop :=
  (forall e, e ∈ mValueMap c' -> e ∈ mValueMap c \/ (matches k (fst e) = true /\ mValue (snd e) = v /\ (fst e = k \/ fst e ∈ keys c))) /\
  (matchesTrans -> forall e, e ∈ mValueMap c' -> matches k (fst e) = true -> mValue (snd e) = v).

Lemma put_fresh k v c c1 :
  mapFind k (mValueMap c) = None -> CacheOK c -> mValueMap c1 = (k, v) :: mValueMap c -> mValuePtrs c1 = mValuePtrs c ++ [k] ->
  CacheOK c1 /\ putLeft k (mValue v) c c1.
Proof using matches_refl.
  intros Hf [H1 H2] E1 E2. split; constructor; unfold keys in *; rewrite ?E1, ?E2.
  - cbn. constructor; [|exact H1]. apply List.Forall_forall. intros y Hy. apply list_elem_of_In, list_elem_of_fmap in Hy as (e & -> & He).
    by apply (mapFind_None k (mValueMap c)).
  - cbn. rewrite H2. symmetry. apply Permutation_cons_append.
  - intros e. rewrite elem_of_cons. intros [->|He]; [|by left]. right. cbn. rewrite matches_refl. auto.
  - intros _ e. rewrite elem_of_cons. intros [->|He] Hm; [done|]. by rewrite (mapFind_None k (mValueMap c)) in Hm.
Qed.

Lemma put_spec k v c n :
  CacheOK c -> Z.of_nat (length (mValuePtrs c)) <= mMaxSize c ->
  wp (fun _ => False) (put k v c) (fun c' _ =>
    CacheOK c' /\ Z.of_nat (length (mValuePtrs c')) <= mMaxSize c' /\ mMaxSize c' = mMaxSize c /\ putLeft k v c c') n.
Proof using draws matches_refl matches_sym.
  intros Hc Hsz. pose proof Hc as [H1 H2]. unfold put. cbn. destruct (mapFind k (mValueMap c)) as [e|] eqn:Hf; cbn.
  - apply wp_ret. split; [|split; [done|split; [done|]]]; split; cbn; unfold keys; cbn; rewrite ?write_keys; try done.
    + intros x Hx. destruct (elem_write k _ _ _ Hx) as [(y & Hy & ->)|]; [|by left].
      destruct (mapFind_Some _ _ _ Hy) as [Hy1 Hy2]. right. split_and!; [done|done|]. right. apply list_elem_of_fmap. by exists y.
    + intros Ht x Hx Hm. by rewrite (write_matching k _ _ x Ht H1 Hx Hm).
  - set (c1 := count countInsert _). destruct (put_fresh k (mkCacheValue (u64 (mGeneration c + 1)) v) c c1) as [Hc1 [Hl1 Hl2]]; try done.
    assert (length (mValuePtrs c1) = S (length (mValuePtrs c))) as Hl by (subst c1; cbn; rewrite length_app; cbn; lia).
    change (mValuePtrs c ++ [k]) with (mValuePtrs c1). rewrite Hl.
    destruct (Z.ltb_spec (mMaxSize c) (Z.of_nat (S (length (mValuePtrs c))))) as [Hlt|Hge].
    + eapply wp_mono; [by apply evictOne_spec|]. intros c' n' (Hc' & Hl' & Hm' & Hin). split_and!; auto.
      * rewrite Hl', Hl, Hm'. change (mMaxSize c1) with (mMaxSize c). lia.
      * split; auto.
    + apply wp_ret. split_and!; auto; [|by split]. rewrite Hl. done.
Qed.

Lemma maybeGet_spec k c r c' :
  CacheOK c -> maybeGet k c = (r, c') ->
  CacheOK c' /\ mValuePtrs c' = mValuePtrs c /\ mMaxSize c' = mMaxSize c /\
  (forall e', e' ∈ mValueMap c' -> exists e, e ∈ mValueMap c /\ fst e' = fst e /\ mValue (snd e') = mValue (snd e)) /\
  match r with
  | Some v => exists e, e ∈ mValueMap c /\ matches k (fst e) = true /\ mValue (snd e) = v
  | None => forall e, e ∈ mValueMap c -> matches k (fst e) = false
  end.
Proof using Type.
  intros [H1 H2]. unfold maybeGet. destruct (mapFind k (mValueMap c)) as [[k' v]|] eqn:Hf; intros [= <- <-]; cbn.
  - split_and!; try done.
    + split; unfold keys; cbn; by rewrite write_keys.
    + intros e' He'. destruct (mapFind_Some _ _ _ Hf) as [He _].
      destruct (elem_write k _ _ _ He') as [(y & Hy & ->)|?]; [|by exists e'].
      rewrite Hf in Hy. injection Hy as <-. by exists (k', v).
    + exists (k', v). by destruct (mapFind_Some _ _ _ Hf).
  - split_and!; try done; [by intros e' He'; exists e'|]. intros e He. by apply (mapFind_None k (mValueMap c)).
Qed.

End Specs.

Lemma swapPop_before i j l k : (j < i)%nat -> swapPop i l !! j = Some k -> l !! j = Some k.
Proof using Type.
  intros Hji. unfold swapPop. destruct (last l) as [b|]; [|done].
  intros H. apply lookup_take_Some in H as [H _]. by rewrite list_lookup_insert_ne in H by lia.
Qed.

Lemma eraseLoop_spec f fuel : forall i c,
  CacheOK c -> (length (mValuePtrs c) <= fuel + i)%nat ->
  (forall j k v, (j < i)%nat -> mValuePtrs c !! j = Some k -> (k, v) ∈ mValueMap c -> f (mValue v) = false) ->
  exists c', eraseLoop f fuel i c = inr c' /\ CacheOK c' /\ mMaxSize c' = mMaxSize c /\
    (length (mValuePtrs c') <= length (mValuePtrs c))%nat /\
    forall e, e ∈ mValueMap c' <-> e ∈ mValueMap c /\ f (mValue (snd e)) = false.
Proof using All.
  induction fuel as [|fuel IH]; intros i c Hc Hf Hlow; cbn; destruct (Nat.leb_spec (length (mValuePtrs c)) i) as [Hle|Hgt]; try lia.
  1-2: exists c; split_and!; try done; intros [k v]; split; [|tauto]; intros He; split; [done|];
    assert (k ∈ mValuePtrs c) as Hk by (rewrite (co_ptrs _ Hc); apply list_elem_of_fmap; by exists (k, v));
    apply list_elem_of_lookup in Hk as [j Hj]; apply (Hlow j k v); [|done|done]; apply lookup_lt_Some in Hj; lia.
  destruct (lookup_lt_is_Some_2 _ _ Hgt) as [k Hk]. rewrite Hk. destruct (ptr_find c i k Hc Hk) as [v Hv]. rewrite Hv. cbn.
  destruct (f (mValue v)) eqn:Hfv.
  - pose proof (swapPop_length _ _ _ Hk) as Hlen.
    destruct (IH i (set_ptrs (swapPop i (mValuePtrs c)) (set_map (mapErase k (mValueMap c)) c))) as (c' & E & Hc' & Hm & Hl & He).
    + by apply erase_ok.
    + cbn. lia.
    + cbn. intros j k' v' Hj Hk' Hv'. apply (Hlow j k' v' Hj); [by eapply swapPop_before|by eapply erase_sub].
    + exists c'. cbn in Hl, He. split_and!; try done; [lia|]. intros e. rewrite He, (elem_erase _ _ _ e Hv).
      split; [tauto|]. intros [[->|?] Hfe]; [cbn in Hfe; congruence|tauto].
  - apply IH; [done|lia|]. intros j k' v' Hj Hk' Hv'. destruct (decide (j = i)) as [->|]; [|apply (Hlow j k' v'); [lia|done|done]].
    rewrite Hk in Hk'. injection Hk' as <-. pose proof (find_own k v' _ (co_distinct _ Hc) Hv') as E. rewrite Hv in E. by injection E as <-.
Qed.

(** ** Runs of the cache *)

Inductive CacheOp :=
  | OpPut (k : K) (v : V)
  | OpGet (k : K)
  | OpExists (k : K) (countMisses : bool)
  | OpEraseIf (f : V -> bool)
  | OpClear.

Inductive answer := Got (v : option V) | Present (b : bool) | Done.

Definition execOp (op : CacheOp) (c : RandomEvictionCache) : M Engine (answer * RandomEvictionCache) :=
  match op with
  | OpPut k v => let* c := put k v c in mret (Done, c)
  | OpGet k => let '(v, c) := maybeGet k c in mret (Got v, c)
  | OpExists k b => let '(b, c) := exists_ k b c in mret (Present b, c)
  | OpEraseIf f => match erase_if f c with inl e => fail e | inr c => mret (Done, c) end
  | OpClear => mret (Done, clear c)
  end.

Fixpoint runCache (ops : list CacheOp) (c : RandomEvictionCache) : M Engine (list answer * RandomEvictionCache) :=
  match ops with
  | [] => mret ([], c)
  | op :: ops =>
      let* '(a, c) := execOp op c in
      let* '(l, c) := runCache ops c in
      mret (a :: l, c)
  end.

(** A map that forgets nothing. *)
Definition specOp (op : CacheOp) (m : K -> option V) : answer * (K -> option V) :=
  match op with
  | OpPut k v => (Done, fun x => if matches k x then Some v else m x)
  | OpGet k => (Got (m k), m)
  | OpExists k _ => (Present (bool_decide (is_Some (m k))), m)
  | OpEraseIf f => (Done, fun x => match m x with Some v => if f v then None else Some v | None => None end)
  | OpClear => (Done, fun _ => None)
  end.

Fixpoint specRun (ops : list CacheOp) (m : K -> option V) : list answer :=
  match ops with
  | [] => []
  | op :: ops => let '(a, m) := specOp op m in a :: specRun ops m
  end.

(** The cache may miss what the map has; a hit is what the map has. *)
Definition answerOK (cache spec : answer) : Prop :=
  match cache, spec with
  | Got (Some v), _ => spec = Got (Some v)
  | Got None, Got _ => True
  | Present true, _ => spec = Present true
  | Present false, Present _ => True
  | Done, Done => True
  | _, _ => False
  end.

Record Sim (c : RandomEvictionCache) (m : K -> option V) : Prop := {
  si_ok : CacheOK c;
  si_size : Z.of_nat (length (mValuePtrs c)) <= mMaxSize c;
  si_map : forall k v, (k, v) ∈ mValueMap c -> m k = Some (mValue v)
}.

Section Runs.
Hypothesis draws : DrawLaws draw.
Hypothesis matches_eq : forall a b, matches a b = true <-> a = b.

Lemma exec_sim op c m n :
  Sim c m ->
  wp (fun _ => False) (execOp op c) (fun r _ =>
    answerOK (fst r) (fst (specOp op m)) /\ Sim (snd r) (snd (specOp op m)) /\ mMaxSize (snd r) = mMaxSize c) n.
Proof using All.
  intros [Hc Hsz Hm]. destruct op as [k v|k|k b|f|]; cbn.
  - apply wp_bind. eapply wp_mono; [by apply put_spec|]. intros c' n' (Hc' & Hsz' & Hmax & Hl1 & Hl2).
    apply wp_ret. cbn. split_and!; try done. split; try done. intros k' v' He. destruct (matches k k') eqn:Hk.
    + f_equal. symmetry. apply (Hl2 ltac:(intros x a b; rewrite !matches_eq; congruence) (k', v') He Hk).
    + destruct (Hl1 _ He) as [He'|[Hk' _]]; [by apply Hm|]. cbn in Hk'. congruence.
  - destruct (maybeGet k c) as [r c'] eqn:E. destruct (maybeGet_spec k c r c' Hc E) as (Hc' & Hp & Hmax & Hel & Hr).
    apply wp_ret. cbn. split_and!; [|split|]; rewrite ?Hp, ?Hmax; try done.
    + destruct r as [v|]; [|done]. destruct Hr as ([k' cv] & He & Hk & <-). apply matches_eq in Hk. cbn in Hk |- *. subst k'. by rewrite (Hm k cv).
    + intros k' v' He. destruct (Hel _ He) as ([k'' v''] & He' & E1 & E2). cbn in E1, E2. subst k''. rewrite E2. by apply Hm.
  - unfold exists_. destruct (mapFind k (mValueMap c)) as [[k' v']|] eqn:Hf; cbn.
    + apply wp_ret. cbn. split_and!; try done. destruct (mapFind_Some _ _ _ Hf) as [He Hk]. apply matches_eq in Hk. cbn in Hk. subst k'.
      rewrite bool_decide_eq_true_2; [done|]. rewrite (Hm k v'); by eauto.
    + apply wp_ret. destruct b; cbn; split_and!; try done.
      split; [by destruct Hc|done..].
  - unfold erase_if. destruct (eraseLoop_spec f (length (mValuePtrs c)) 0 c Hc) as (c' & -> & Hc' & Hmax & Hl & Hel); [lia|intros; lia|].
    apply wp_ret. cbn. split_and!; try done. split; [done|lia|]. intros k v He. apply Hel in He as [He Hfv]. rewrite (Hm k v He). cbn in Hfv. by rewrite Hfv.
  - apply wp_ret. cbn. split_and!; try done. split; cbn; [split; [constructor|done]|lia|]. by intros k v ?%elem_of_nil.
Qed.

Lemma run_sim ops : forall c m n, Sim c m ->
  wp (fun _ => False) (runCache ops c) (fun r _ =>
    Forall2 answerOK (fst r) (specRun ops m) /\ Z.of_nat (length (mValueMap (snd r))) <= mMaxSize c) n.
Proof using All.
  induction ops as [|op ops IH]; intros c m n HS; cbn.
  - apply wp_ret. split; [constructor|]. destruct HS as [[_ Hp] Hsz _]. apply Permutation_length in Hp. unfold keys in Hp. rewrite length_fmap in Hp. cbn. lia.
  - apply wp_bind. eapply wp_mono; [by apply exec_sim|]. intros [a c'] n' (Ha & HS' & Hmax). cbn in *.
    destruct (specOp op m) as [a' m'] eqn:E. cbn in *. apply wp_bind. eapply wp_mono; [by apply IH|].
    intros [l c''] n'' [Hl Hs]. apply wp_ret. cbn in *. split; [by constructor|]. by rewrite <- Hmax.
Qed.

End Runs.

End Cache.

(** C40: For every sequence of insertions, look-ups, conditional erasures and clears,
    whatever is drawn for the evictions, the cache runs without a fault, never
    holds more than [mMaxSize] elements, and every hit returns the value a map
    that never forgets would return: eviction loses entries and nothing else. *)
Theorem cache_hits_are_current {K V : Type} (matches : K -> K -> bool) (draw : nat -> Z -> Z -> Z)
    (ops : list (@CacheOp K V)) (maxSize : Z) (n : nat)
    (draws : DrawLaws draw) (keyEq : forall a b, matches a b = true <-> a = b) (Hmax : 0 <= maxSize) :
  exists answers c n', runCache matches draw ops (newCache maxSize) n = Ok (answers, c) n' /\
    Forall2 answerOK answers (specRun matches ops (fun _ => None)) /\
    Z.of_nat (length (mValueMap c)) <= maxSize.
Proof.
  assert (forall k, matches k k = true) as Hrefl by (intros k; by apply keyEq).
  assert (forall a b, matches a b = matches b a) as Hsym.
  { intros a b. apply eq_bool_prop_intro. rewrite !Is_true_true, !keyEq. done. }
  pose proof (run_sim matches draw Hrefl Hsym draws keyEq ops (newCache maxSize) (fun _ => None) n) as H.
  unfold wp in H. destruct (runCache _ _ _ _ _) as [[answers c] n'|f n'].
  - destruct H as [H1 H2]; [|by exists answers, c, n'].
    split; cbn; [split; [constructor|done]|done|by intros k v ?%elem_of_nil].
  - exfalso. apply H. split; cbn; [split; [constructor|done]|done|by intros k v ?%elem_of_nil].
Qed.

Lemma cache_hits_are_current_witness :
  let ops := [OpPut 1 10; OpPut 2 20; OpGet 1; OpPut 3 30; OpGet 1; OpGet 2; OpEraseIf (fun v => v =? 20); OpExists 3 true] in
  exists c, runCache Z.eqb (fun n lo hi => if Nat.even n then lo else hi) ops (newCache 2) 0%nat =
      Ok ([Done; Done; Got (Some 10); Done; Got None; Got (Some 20); Done; Present true], c) 2%nat /\
    Z.of_nat (length (mValueMap c)) <= 2.
Proof.
  intros ops.
  destruct (cache_hits_are_current Z.eqb (fun n lo hi => if Nat.even n then lo else hi) ops 2 0%nat) as (l & c & n' & E & _ & H).
  - intros n lo hi Hle. cbn. destruct (Nat.even n); lia.
  - apply Z.eqb_eq.
  - lia.
  - exists c. split; [|done]. vm_compute in E |- *. by injection E as <- <- <-.
Defined.
