(* ===== verification/QuorumChecker.v ===== *)
(** * The quorum intersection checker

    [herder/QuorumIntersectionCheckerImpl.cpp]: the bit-set representation of the
    quorum sets, the graph and its strongly connected components, the contraction
    to the largest quorum of a set of nodes, the enumeration of the minimal quorums
    of one component, the search for two disjoint quorums, and the search for groups
    of nodes whose misconfiguration would split the network.

    A [QuorumMap] is the list of its entries in iteration order.  The mutable members
    of the checker, the cache of quorums included, are the state of a monad.  The
    random engine is global and its draws are a parameter, as is the interruption
    flag, which another thread may set: [interrupted n] is what the enumerator reads
    at its call number [n].  The checks under [#ifndef NDEBUG] are not compiled in. *)

From stdpp Require Import base list gmap sets strings.
From S2P Require Import Prelude QuorumSet Statement BitSet Tarjan EvictionCache.

Import Width.
Local Open Scope Z_scope.

(** ** Hashing *)

(** [BitSet::HashFunction]; [hasher] is [std::hash<uint64_t>]. *)
Definition hashBitSet (hasher : Z -> Z) (b : BitSet) : Z :=
  foldl (fun seed w => Z.lxor seed (u64 (hasher w + 2654435769 + u64 (Z.shiftl seed 6) + Z.shiftr seed 2))) 0 b.

(** A look-up in [std::unordered_map] compares with [==] the keys of one bucket;
    [bucket] maps a hash code to its bucket. *)
Definition sameKey (hasher bucket : Z -> Z) (a b : BitSet) : bool :=
  (bucket (hashBitSet hasher a) =? bucket (hashBitSet hasher b)) && bitset_equal a b.

(** ** Quorum sets as bit sets *)

Inductive QBitSet : Type :=
  QBits (mThreshold : Z) (mNodes : BitSet) (mInnerSets : list QBitSet) (mAllSuccessors : BitSet).

Definition mThreshold (q : QBitSet) : Z := let 'QBits t _ _ _ := q in t.
Definition mNodes (q : QBitSet) : BitSet := let 'QBits _ n _ _ := q in n.
Definition mInnerSets (q : QBitSet) : list QBitSet := let 'QBits _ _ i _ := q in i.
Definition mAllSuccessors (q : QBitSet) : BitSet := let 'QBits _ _ _ s := q in s.

Definition getSuccessors (nodes : BitSet) (inner : list QBitSet) : BitSet :=
  foldl (fun out i => bitset_inplace_union out (mAllSuccessors i)) nodes inner.

Definition newQBitSet (threshold : Z) (nodes : BitSet) (innerSets : list QBitSet) : QBitSet :=
  QBits threshold nodes innerSets (getSuccessors nodes innerSets).

(** The loop over the inner sets, with the number of successes still needed and the
    number of failures still allowed. *)
Fixpoint innerLoop (sat : QBitSet -> bool) (inner : list QBitSet) (innerThreshold innerFailLimit : Z) : bool :=
  match inner with
  | [] => false
  | i :: inner =>
      if sat i then
        if innerThreshold - 1 =? 0 then true else innerLoop sat inner (innerThreshold - 1) innerFailLimit
      else if innerFailLimit - 1 =? 0 then false
      else innerLoop sat inner innerThreshold (innerFailLimit - 1)
  end.

Fixpoint containsQuorumSlice (bs : BitSet) (qbs : QBitSet) : bool :=
  match qbs with
  | QBits threshold nodes inner successors =>
      let intersecting := Z.of_nat (bitset_intersection_count bs nodes) in
      if threshold <=? intersecting then true
      else
        let innerThreshold := threshold - intersecting in
        if Z.of_nat (length inner) <? innerThreshold then false
        else if Z.of_nat (bitset_intersection_count bs successors) <? threshold then false
        else
          let innerFailLimit := Z.of_nat (length inner) - innerThreshold + 1 in
          innerLoop (containsQuorumSlice bs) inner innerThreshold innerFailLimit
  end.

(** ** The state of the checker *)

Inductive Stat :=
  | mTotalNodes | mNumSCCs | mScanSCCSize | mCallsStarted | mFirstRecursionsTaken | mSecondRecursionsTaken
  | mMaxQuorumsSeen | mMinQuorumsSeen | mTerminations
  | mEarlyExit1s | mEarlyExit21s | mEarlyExit22s | mEarlyExit31s | mEarlyExit32s.

#[export] Instance stat_eq_dec : EqDecision Stat.
Proof. solve_decision. Defined.

Abbreviation Stats := (Stat -> Z) (only parsing).
Definition setStat (x : Stat) (v : Z) (s : Stats) : Stats := fun y => if decide (y = x) then v else s y.

Abbreviation QuorumMap := (list (NodeID * option SCPQuorumSet)) (only parsing).

Record Checker := mkChecker {
  mStats : Stats;
  mPotentialSplit : list NodeID * list NodeID;
  mBitNumPubKeys : list NodeID;
  mPubKeyBitNums : gmap NodeID nat;
  mGraph : list QBitSet;
  mInDegrees : list Z;
  mTSC : Tarjan.Calculator;
  mCachedQuorums : @RandomEvictionCache BitSet bool;
  mEngine : nat
}.

Definition set_stats x c := mkChecker x (mPotentialSplit c) (mBitNumPubKeys c) (mPubKeyBitNums c) (mGraph c) (mInDegrees c) (mTSC c) (mCachedQuorums c) (mEngine c).
Definition set_split x c := mkChecker (mStats c) x (mBitNumPubKeys c) (mPubKeyBitNums c) (mGraph c) (mInDegrees c) (mTSC c) (mCachedQuorums c) (mEngine c).
Definition set_keys x y c := mkChecker (mStats c) (mPotentialSplit c) x y (mGraph c) (mInDegrees c) (mTSC c) (mCachedQuorums c) (mEngine c).
Definition set_graph x c := mkChecker (mStats c) (mPotentialSplit c) (mBitNumPubKeys c) (mPubKeyBitNums c) x (mInDegrees c) (mTSC c) (mCachedQuorums c) (mEngine c).
Definition set_degrees x c := mkChecker (mStats c) (mPotentialSplit c) (mBitNumPubKeys c) (mPubKeyBitNums c) (mGraph c) x (mTSC c) (mCachedQuorums c) (mEngine c).
Definition set_tsc x c := mkChecker (mStats c) (mPotentialSplit c) (mBitNumPubKeys c) (mPubKeyBitNums c) (mGraph c) (mInDegrees c) x (mCachedQuorums c) (mEngine c).
Definition set_cache x e c := mkChecker (mStats c) (mPotentialSplit c) (mBitNumPubKeys c) (mPubKeyBitNums c) (mGraph c) (mInDegrees c) (mTSC c) x e.
Definition set_engine e c := set_cache (mCachedQuorums c) e c.

Definition bump (x : Stat) : M Checker unit := modify (fun c => set_stats (setStat x (u64 (mStats c x + 1)) (mStats c)) c).
Definition record (x : Stat) (n : nat) : M Checker unit := modify (fun c => set_stats (setStat x (Z.of_nat n) (mStats c)) c).

(** [mGraph.at(i)] *)
Definition graphAt (i : nat) : M Checker QBitSet := fun c =>
  match mGraph c !! i with Some q => Ok q c | None => Err (Throw "vector::at") c end.

(** ** Building the graph *)

Fixpoint convertSCPQuorumSet (pubKeyBitNums : gmap NodeID nat) (sqs : SCPQuorumSet) : QBitSet :=
  match sqs with
  | QSet threshold validators innerSets =>
      let nodeBits :=
        foldl (fun nodeBits v => match pubKeyBitNums !! v with Some i => bitset_set nodeBits i | None => nodeBits end)
          (bitSetWithCapacity (size pubKeyBitNums)) validators in
      newQBitSet threshold nodeBits (map (convertSCPQuorumSet pubKeyBitNums) innerSets)
  end.

(** The first loop gives the nodes with a known quorum set their numbers. *)
Fixpoint numberNodes (qmap : QuorumMap) (keys : list NodeID) (nums : gmap NodeID nat) : list NodeID * gmap NodeID nat :=
  match qmap with
  | [] => (keys, nums)
  | (id, Some _) :: qmap =>
      let n := length keys in
      numberNodes qmap (keys ++ [id]) (match nums !! id with Some _ => nums | None => <[id := n]> nums end)
  | (id, None) :: qmap => numberNodes qmap keys nums
  end.

(** The second loop. *)
Fixpoint convertNodes (qmap : QuorumMap) : M Checker unit :=
  match qmap with
  | [] => mret tt
  | (id, Some qset) :: qmap =>
      let* c := get in
      let* nodeNum := (match mPubKeyBitNums c !! id with Some n => mret n | None => fail (AssertFailure "i != mPubKeyBitNums.end()") end) in
      if (nodeNum =? length (mGraph c))%nat then
        do* modify (fun c => set_graph (mGraph c ++ [convertSCPQuorumSet (mPubKeyBitNums c) qset]) c) in
        convertNodes qmap
      else fail (AssertFailure "nodeNum == mGraph.size()")
  | (id, None) :: qmap => convertNodes qmap
  end.

Definition buildGraph (qmap : QuorumMap) : M Checker unit :=
  let '(keys, nums) := numberNodes qmap [] ∅ in
  do* modify (fun c => set_graph [] (set_keys keys nums c)) in
  do* convertNodes qmap in
  let* c := get in
  record mTotalNodes (size (mPubKeyBitNums c)).

Definition buildSCCs : M Checker unit := fun c =>
  let successors i :=
    match mGraph c !! i with Some q => inr (mAllSuccessors q) | None => inl (Throw "vector::at") end in
  match Tarjan.calculateSCCs successors (length (mGraph c)) (mTSC c) with
  | Ok _ tsc => record mNumSCCs (length (Tarjan.mSCCs tsc)) (set_tsc tsc c)
  | Err f tsc => Err f (set_tsc tsc c)
  end.

Definition MAX_CACHED_QUORUMS_SIZE : Z := 65535.

(** The constructor. *)
Definition initialChecker (engine : nat) : Checker :=
  mkChecker (fun _ => 0) ([], []) [] ∅ [] [] (Tarjan.mkCalculator [] [] 0 []) (newCache MAX_CACHED_QUORUMS_SIZE) engine.
Definition buildChecker (qmap : QuorumMap) : M Checker unit :=
  do* buildGraph qmap in buildSCCs.

(** ** Quorums *)

Definition containsQuorumSliceForNode (bs : BitSet) (node : nat) : M Checker bool :=
  if negb (bitset_get bs node) then mret false
  else let* q := graphAt node in mret (containsQuorumSlice bs q).

(** One pass over [nodes]; a node without a slice is removed at once. *)
Fixpoint filterPass (is_ : list nat) (filtered : BitSet) : M Checker BitSet :=
  match is_ with
  | [] => mret filtered
  | i :: is_ =>
      let* ok := containsQuorumSliceForNode filtered i in
      filterPass is_ (if ok : bool then filtered else bitset_unset filtered i)
  end.

(** Every pass but the last removes a node, so that the number of nodes plus one
    passes are enough. *)
Fixpoint contractLoop (fuel : nat) (nodes : BitSet) : M Checker BitSet :=
  match fuel with
  | O => fail OutOfFuel
  | S fuel =>
      let* filtered := filterPass (bits nodes) nodes in
      if (bitset_count filtered =? bitset_count nodes)%nat || bs_empty filtered then
        do* when (negb (bs_empty filtered)) (bump mMaxQuorumsSeen) in
        mret filtered
      else contractLoop fuel filtered
  end.
Definition contractToMaximalQuorum (nodes : BitSet) : M Checker BitSet :=
  contractLoop (S (bitset_count nodes)) nodes.

(** [streamWith] with the closure that collects the keys of the nodes. *)
Fixpoint collectKeys (is_ : list nat) (out : list NodeID) : M Checker (list NodeID) :=
  match is_ with
  | [] => mret out
  | i :: is_ =>
      let* c := get in
      match mBitNumPubKeys c !! i with
      | None => throw "vector::at"
      | Some k => collectKeys is_ (out ++ [k])
      end
  end.

Definition noteFoundDisjointQuorums (nodes disj : BitSet) : M Checker unit :=
  do* modify (set_split ([], [])) in
  let* first := collectKeys (bits nodes) [] in
  do* modify (set_split (first, [])) in
  let* second := collectKeys (bits disj) [] in
  modify (set_split (first, second)).

Section Checking.
Context (draw : nat -> Z -> Z -> Z) (hasher bucket : Z -> Z) (interrupted : Z -> bool).

(** Running an operation on the random engine. *)
Definition withEngine {A} (m : M nat A) : M Checker A := fun c =>
  match m (mEngine c) with
  | Ok a e => Ok a (set_engine e c)
  | Err f e => Err f (set_engine e c)
  end.

Definition isAQuorum (nodes : BitSet) : M Checker bool :=
  let* c := get in
  let '(pRes, cache) := maybeGet (sameKey hasher bucket) nodes (mCachedQuorums c) in
  do* modify (fun c => set_cache cache (mEngine c) c) in
  match pRes with
  | None =>
      let* q := contractToMaximalQuorum nodes in
      let result := negb (bs_empty q) in
      let* c := get in
      let* cache := withEngine (put (sameKey hasher bucket) draw nodes result (mCachedQuorums c)) in
      do* modify (fun c => set_cache cache (mEngine c) c) in
      mret result
  | Some res => mret res
  end.

Fixpoint minimalLoop (is_ : list nat) (minQ : BitSet) : M Checker bool :=
  match is_ with
  | [] => do* bump mMinQuorumsSeen in mret true
  | i :: is_ =>
      let minQ := bitset_unset minQ i in
      let* sub := isAQuorum minQ in
      if sub : bool then mret false else minimalLoop is_ (bitset_set minQ i)
  end.

(** The check that [nodes] is a quorum is compiled in, since the code is not built
    with NDEBUG; it counts as one more quorum seen. *)
Definition isMinimalQuorum (nodes : BitSet) : M Checker bool :=
  let* max := contractToMaximalQuorum nodes in
  do* dbgAssert (bitset_equal max nodes) "contractToMaximalQuorum(nodes) == nodes" in
  if bs_empty nodes then mret false else minimalLoop (bits nodes) nodes.

(** ** The enumerator *)

(** [hasDisjointQuorum] of an enumerator for [scanSCC]. *)
Definition hasDisjointQuorum (scanSCC nodes : BitSet) : M Checker bool :=
  let* disj := contractToMaximalQuorum (bitset_inplace_difference scanSCC nodes) in
  do* when (negb (bs_empty disj)) (noteFoundDisjointQuorums nodes disj) in
  mret (negb (bs_empty disj)).

Definition maxCommit (scanSCC : BitSet) : nat := Nat.div (bitset_count scanSCC) 2.

Record SplitState := mkSplit { maxNode : nat; maxCount : Z; maxDegree : Z }.

(** One edge to [j]: its in-degree grows, and it may become the best candidate. *)
Definition splitEdge (j : nat) (st : SplitState) : M Checker SplitState :=
  let* c := get in
  match mInDegrees c !! j with
  | None => throw "vector::at"
  | Some d =>
      let currDegree := u64 (d + 1) in
      do* modify (set_degrees (<[j := currDegree]> (mInDegrees c))) in
      if currDegree <? maxDegree st then mret st
      else if currDegree =? maxDegree st then
        let maxCount := u64 (maxCount st + 1) in
        let* r := withEngine (rand_uniform draw 0 maxCount) in
        if r =? 0 then mret (mkSplit (maxNode st) maxCount (maxDegree st))
        else mret (mkSplit j maxCount currDegree)
      else mret (mkSplit j 1 currDegree)
  end.

Fixpoint splitEdges (js : list nat) (st : SplitState) : M Checker SplitState :=
  match js with
  | [] => mret st
  | j :: js => let* st := splitEdge j st in splitEdges js st
  end.

Fixpoint splitNodes (remaining : BitSet) (is_ : list nat) (st : SplitState) : M Checker SplitState :=
  match is_ with
  | [] => mret st
  | i :: is_ =>
      let* q := graphAt i in
      let avail := bitset_inplace_intersection (mAllSuccessors q) remaining in
      let* st := splitEdges (bits avail) st in
      splitNodes remaining is_ st
  end.

Definition pickSplitNode (remaining : BitSet) : M Checker nat :=
  do* modify (fun c => set_degrees (replicate (length (mGraph c)) 0) c) in
  if bs_empty remaining then fail (AssertFailure "!mRemaining.empty()")
  else
    let* st := splitNodes remaining (bits remaining) (mkSplit (bitset_maximum remaining) 1 0) in
    mret (maxNode st).

(** Each call takes a node out of [remaining]: the number of remaining nodes plus
    one levels are enough. *)
Fixpoint anyMinQuorumHasDisjointQuorum (fuel : nat) (scanSCC committed remaining : BitSet) : M Checker bool :=
  match fuel with
  | O => fail OutOfFuel
  | S fuel =>
      let perimeter := bitset_inplace_union committed remaining in
      let* c := get in
      if interrupted (mStats c mCallsStarted) then throw "InterruptedException"
      else
        do* bump mCallsStarted in
        if (maxCommit scanSCC <? bitset_count committed)%nat then
          do* bump mEarlyExit1s in mret false
        else
          let* committedQuorum := contractToMaximalQuorum committed in
          if negb (bs_empty committedQuorum) then
            let* minimal := isMinimalQuorum committedQuorum in
            if minimal : bool then
              do* bump mEarlyExit31s in hasDisjointQuorum scanSCC committedQuorum
            else do* bump mEarlyExit32s in mret false
          else
            let* extensionQuorum := contractToMaximalQuorum perimeter in
            if bs_empty extensionQuorum then do* bump mEarlyExit21s in mret false
            else if negb (bitset_subseteq committed extensionQuorum) then do* bump mEarlyExit22s in mret false
            else if bs_empty remaining then do* bump mTerminations in mret false
            else
              let* split := pickSplitNode remaining in
              let remaining := bitset_unset remaining split in
              do* bump mFirstRecursionsTaken in
              let* r := anyMinQuorumHasDisjointQuorum fuel scanSCC committed remaining in
              if r : bool then mret true
              else
                let committed := bitset_set committed split in
                do* bump mSecondRecursionsTaken in
                anyMinQuorumHasDisjointQuorum fuel scanSCC committed remaining
  end.

(** ** The whole check *)

(** The loop over the components: the first one with a quorum is to be scanned, a
    second one ends the search. *)
Fixpoint scanSCCs (sccs : list BitSet) (scanSCC : BitSet) : M Checker (BitSet * bool) :=
  match sccs with
  | [] => mret (scanSCC, false)
  | scc :: sccs =>
      let* q := contractToMaximalQuorum scc in
      if bs_empty q then scanSCCs sccs scanSCC
      else if bs_empty scanSCC then
        do* record mScanSCCSize (bitset_count scc) in
        scanSCCs sccs scc
      else
        let* first := contractToMaximalQuorum scanSCC in
        do* noteFoundDisjointQuorums first q in
        mret (scanSCC, true)
  end.

Definition networkEnjoysQuorumIntersection : M Checker bool :=
  let* c := get in
  let* '(scanSCC, foundDisjoint) := scanSCCs (Tarjan.mSCCs (mTSC c)) emptyBitSet in
  if bs_empty scanSCC then mret true
  else
    let* foundDisjoint :=
      (if foundDisjoint : bool then mret true
       else anyMinQuorumHasDisjointQuorum (S (bitset_count scanSCC)) scanSCC emptyBitSet scanSCC) in
    mret (negb foundDisjoint).

Definition getPotentialSplit : M Checker (list NodeID * list NodeID) := let* c := get in mret (mPotentialSplit c).
Definition getMaxQuorumsFound : M Checker Z := let* c := get in mret (mStats c mMaxQuorumsSeen).

End Checking.

(** ** Intersection-critical groups *)

Fixpoint pointsToCandidate (p : SCPQuorumSet) (candidate : NodeID) : bool :=
  match p with
  | QSet _ validators innerSets =>
      existsb (fun k => k =? candidate) validators || existsb (fun i => pointsToCandidate i candidate) innerSets
  end.

(** [std::set<NodeID>] and the order of [std::set<std::set<NodeID>>]. *)
Definition nodeInsert (k : NodeID) (s : list NodeID) : list NodeID := setInsert Z.ltb k s.
Fixpoint groupLt (a b : list NodeID) : bool :=
  match a, b with
  | _, [] => false
  | [], _ :: _ => true
  | x :: a, y :: b => if x <? y then true else if y <? x then false else groupLt a b
  end.
Definition groupInsert (g : list NodeID) (s : list (list NodeID)) : list (list NodeID) := setInsert groupLt g s.

Fixpoint findCriticalityCandidates (p : SCPQuorumSet) (candidates : list (list NodeID)) (root : bool) : list (list NodeID) :=
  match p with
  | QSet _ validators innerSets =>
      let candidates := foldl (fun cs k => groupInsert [k] cs) candidates validators in
      let candidates :=
        if negb root && bool_decide (innerSets = [])
        then groupInsert (foldl (fun inner k => nodeInsert k inner) [] validators) candidates
        else candidates in
      foldl (fun cs i => findCriticalityCandidates i cs false) candidates innerSets
  end.

Definition allCandidates (qmap : QuorumMap) : list (list NodeID) :=
  foldl (fun cs d => match snd d with Some q => findCriticalityCandidates q cs true | None => cs end) [] qmap.

(** Those outside the group that depend on a member of it. *)
Definition pointsToGroup (qmap : QuorumMap) (group : list NodeID) : list NodeID :=
  foldl (fun s candidate =>
    foldl (fun s d =>
      match snd d with
      | Some q => if negb (existsb (Z.eqb (fst d)) group) && pointsToCandidate q candidate then nodeInsert (fst d) s else s
      | None => s
      end) s qmap) [] group.

Definition fickleQSet (qmap : QuorumMap) (group : list NodeID) : SCPQuorumSet :=
  let groupQSet := QSet (u32 (Z.of_nat (length group))) group [] in
  let pointsToGroupQSet := QSet 1 (pointsToGroup qmap group) [] in
  QSet 2 [] [groupQSet; pointsToGroupQSet].

(** [test_qmap[id] = info] and [qmap.find(id)->second]. *)
Fixpoint qmapWrite (id : NodeID) (info : option SCPQuorumSet) (qmap : QuorumMap) : QuorumMap :=
  match qmap with
  | [] => [(id, info)]
  | d :: qmap => if fst d =? id then (id, info) :: qmap else d :: qmapWrite id info qmap
  end.
Fixpoint qmapFind (id : NodeID) (qmap : QuorumMap) : option (option SCPQuorumSet) :=
  match qmap with
  | [] => None
  | d :: qmap => if fst d =? id then Some (snd d) else qmapFind id qmap
  end.

Definition installFickle (fickle : SCPQuorumSet) (group : list NodeID) (test_qmap : QuorumMap) : QuorumMap :=
  foldl (fun t candidate => qmapWrite candidate (Some fickle) t) test_qmap group.
Fixpoint restoreGroup (qmap : QuorumMap) (group : list NodeID) (test_qmap : QuorumMap) : exc QuorumMap :=
  match group with
  | [] => inr test_qmap
  | candidate :: group =>
      match qmapFind candidate qmap with
      | None => inl (NullPointer "qmap.find(candidate)")
      | Some info => restoreGroup qmap group (qmapWrite candidate info test_qmap)
      end
  end.

Section Criticality.
Context (draw : nat -> Z -> Z -> Z) (hasher bucket : Z -> Z) (interrupted : list NodeID -> Z -> bool).

(** [QuorumIntersectionChecker::create] and [networkEnjoysQuorumIntersection]. *)
Definition checkNetwork (flag : Z -> bool) (qmap : QuorumMap) : M nat bool := fun e =>
  match (do* buildChecker qmap in networkEnjoysQuorumIntersection draw hasher bucket flag) (initialChecker e) with
  | Ok b c => Ok b (mEngine c)
  | Err f c => Err f (mEngine c)
  end.

Fixpoint groupLoop (qmap : QuorumMap) (candidates : list (list NodeID)) (test_qmap : QuorumMap)
    (critical : list (list NodeID)) : M nat (list (list NodeID)) :=
  match candidates with
  | [] => mret critical
  | group :: candidates =>
      let test_qmap := installFickle (fickleQSet qmap group) group test_qmap in
      let* enjoys := checkNetwork (interrupted group) test_qmap in
      let critical := if enjoys : bool then critical else groupInsert group critical in
      match restoreGroup qmap group test_qmap with
      | inl f => fail f
      | inr test_qmap => groupLoop qmap candidates test_qmap critical
      end
  end.

Definition getIntersectionCriticalGroups (qmap : QuorumMap) : M nat (list (list NodeID)) :=
  groupLoop qmap (allCandidates qmap) qmap [].

End Criticality.
