(* ===== verification/QuorumSlices.v ===== *)
(** * Slices as bit sets

    The test [containsQuorumSlice] of the quorum intersection checker takes short
    cuts: it counts bits, and gives up early on inner sets that cannot reach the
    threshold any more.  On quorum sets that name no node twice and have positive
    thresholds it decides the same as [LocalNode::isQuorumSlice] on the public keys. *)

From stdpp Require Import base list gmap sets.
From S2P Require Import Prelude QuorumSet LocalNode BitSet QuorumChecker.

Import Width.
Local Open Scope Z_scope.
#[local] Arguments toSet : simpl never.
#[local] Arguments bitset_intersection_count : simpl never.

(** ** What a quorum set asks of a set of nodes *)

(** Induction that reaches the inner sets. *)
Fixpoint qbits_ind' (P : QBitSet -> Prop)
    (H : forall t n i s, Forall P i -> P (QBits t n i s)) (q : QBitSet) : P q :=
  match q with
  | QBits t n i s =>
      H t n i s
        ((fix go (l : list QBitSet) : Forall P l :=
            match l with
            | [] => Forall_nil_2 P
            | q' :: l' => Forall_cons_2 P q' l' (qbits_ind' P H q') (go l')
            end) i)
  end.

(** Enough of the nodes and of the inner sets. *)
Fixpoint satisfied (X : gset nat) (q : QBitSet) : bool :=
  match q with
  | QBits t nodes inner _ => t <=? Z.of_nat (size (X ∩ toSet nodes)) + count (satisfied X) inner
  end.

Definition succ (q : QBitSet) : gset nat := toSet (mAllSuccessors q).

(** Sets no two of which share a member. *)
Fixpoint apart (l : list (gset nat)) : Prop :=
  match l with
  | [] => True
  | X :: l => X ## ⋃ l /\ apart l
  end.

(** Positive thresholds, each node named once, and the successors are the nodes
    named. *)
Inductive WfQ : QBitSet -> Prop :=
  | WfQ_intro t nodes inner s :
      1 <= t -> bsOK nodes -> bsOK s ->
      toSet s = toSet nodes ∪ ⋃ (succ <$> inner) ->
      toSet nodes ## ⋃ (succ <$> inner) -> apart (succ <$> inner) ->
      Forall WfQ inner -> WfQ (QBits t nodes inner s).

Lemma satisfied_meets X q : WfQ q -> satisfied X q = true -> exists i, i ∈ X ∩ succ q.
Proof.
  induction q as [t nodes inner s IH] using qbits_ind'. intros Hw. inversion Hw as [? ? ? ? Ht _ _ Es _ _ Hin]; subst.
  unfold succ. cbn. rewrite Z.leb_le, Es. intros Hs.
  destruct (decide (size (X ∩ toSet nodes) = 0%nat)) as [E0|Hne].
  - destruct (List.filter (satisfied X) inner) as [|q l] eqn:El; [unfold count in Hs; rewrite El in Hs; cbn in Hs; lia|].
    assert (In q inner /\ satisfied X q = true) as [Hq Hsat] by (apply filter_In; rewrite El; by left).
    apply list_elem_of_In in Hq. rewrite Forall_forall in IH, Hin.
    destruct (IH q Hq (Hin q Hq) Hsat) as [i Hi]. exists i. rewrite elem_of_intersection in Hi |- *. destruct Hi as [Hx Hi].
    split; [done|]. apply elem_of_union. right. apply elem_of_union_list. exists (succ q). split; [|done]. by apply list_elem_of_fmap_2.
  - destruct (size_pos_elem_of (X ∩ toSet nodes)) as [i Hi]; [lia|]. exists i. set_solver.
Qed.

(** Every satisfied inner set has a node of its own. *)
Lemma satisfied_count X inner :
  Forall WfQ inner -> apart (succ <$> inner) -> count (satisfied X) inner <= Z.of_nat (size (X ∩ ⋃ (succ <$> inner))).
Proof.
  induction inner as [|q l IH]; intros Hw Hd; [unfold count; cbn; lia|].
  apply Forall_cons in Hw as [Hq Hl]. cbn in Hd |- *. destruct Hd as [Hd1 Hd2]. specialize (IH Hl Hd2).
  rewrite count_cons, intersection_union_l_L, size_union by set_solver.
  destruct (satisfied X q) eqn:Hs; [|lia].
  destruct (satisfied_meets X q Hq Hs) as [i Hi]. assert (size (X ∩ succ q) <> 0%nat); [|lia].
  intros E. apply size_empty_iff in E. set_solver.
Qed.

Lemma innerLoop_count sat inner : forall thr lim,
  1 <= thr -> 1 <= lim -> thr + lim = Z.of_nat (length inner) + 1 ->
  innerLoop sat inner thr lim = (thr <=? count sat inner).
Proof.
  induction inner as [|q l IH]; intros thr lim Ht Hl E; cbn [length innerLoop] in *; [lia|].
  rewrite count_cons. pose proof (count_bounds sat l) as Hb. destruct (sat q).
  - destruct (Z.eqb_spec (thr - 1) 0); [symmetry; apply Z.leb_le; lia|]. rewrite IH by lia.
    destruct (Z.leb_spec (thr - 1) (count sat l)); symmetry; [apply Z.leb_le|apply Z.leb_gt]; lia.
  - destruct (Z.eqb_spec (lim - 1) 0); [symmetry; apply Z.leb_gt; lia|]. rewrite IH by lia. done.
Qed.

(** The short cuts are sound. *)
Lemma contains_satisfied bs q : WfQ q -> containsQuorumSlice bs q = satisfied (toSet bs) q.
Proof.
  induction q as [t nodes inner s IH] using qbits_ind'. intros Hw. inversion Hw as [? ? ? ? Ht _ _ Es Hd1 Hd2 Hin]; subst.
  cbn. rewrite !intersection_count_size. pose proof (satisfied_count (toSet bs) inner Hin Hd2) as Hc.
  pose proof (count_bounds (satisfied (toSet bs)) inner) as Hb.
  assert (size (toSet bs ∩ toSet s) = size (toSet bs ∩ toSet nodes) + size (toSet bs ∩ ⋃ (succ <$> inner)))%nat as Esz.
  { rewrite Es, intersection_union_l_L. apply size_union. set_solver. }
  set (a := size (toSet bs ∩ toSet nodes)) in *. set (b := count (satisfied (toSet bs)) inner) in *.
  assert (count (containsQuorumSlice bs) inner = b) as Eb.
  { subst b. clear -IH Hin. induction inner as [|q l IHl]; [done|]. apply Forall_cons in IH as [Hq Hl], Hin as [Hw Hwl].
    rewrite !count_cons, (Hq Hw), (IHl Hl Hwl). done. }
  destruct (Z.leb_spec t (Z.of_nat a)); [symmetry; apply Z.leb_le; lia|].
  destruct (Z.ltb_spec (Z.of_nat (length inner)) (t - Z.of_nat a)); [symmetry; apply Z.leb_gt; lia|].
  destruct (Z.ltb_spec (Z.of_nat (size (toSet bs ∩ toSet s))) t); [symmetry; apply Z.leb_gt; lia|].
  rewrite innerLoop_count by lia. rewrite Eb.
  destruct (Z.leb_spec (t - Z.of_nat a) b); symmetry; [apply Z.leb_le|apply Z.leb_gt]; lia.
Qed.

(** Only the nodes named matter, and more of them never hurts. *)
Lemma satisfied_mono X Y q : WfQ q -> X ∩ succ q ⊆ Y -> satisfied X q = true -> satisfied Y q = true.
Proof.
  induction q as [t nodes inner s IH] using qbits_ind'. intros Hw Hsub. inversion Hw as [? ? ? ? _ _ _ Es _ _ Hin]; subst.
  unfold succ in Hsub. cbn in *. rewrite !Z.leb_le.
  assert (size (X ∩ toSet nodes) <= size (Y ∩ toSet nodes))%nat by (apply subseteq_size; set_solver).
  assert (count (satisfied X) inner <= count (satisfied Y) inner); [|lia].
  apply count_mono. rewrite Forall_forall in IH, Hin. intros q Hq. apply list_elem_of_In in Hq. apply (IH q Hq (Hin q Hq)).
  assert (succ q ⊆ toSet s); [|set_solver]. rewrite Es. intros i Hi. apply elem_of_union. right. apply elem_of_union_list.
  exists (succ q). split; [|done]. by apply list_elem_of_fmap_2.
Qed.

(** ** Conversion from public keys *)

(** Positive thresholds at every level. *)
Fixpoint positive (q : SCPQuorumSet) : bool :=
  match q with QSet t _ i => (1 <=? t) && forallb positive i end.

Lemma qset_wf_positive q : qset_wf q = true -> positive q = true.
Proof.
  induction q as [t v i IH] using qset_ind'. cbn. rewrite !andb_true_iff, !forallb_forall. intros [[H1 _] H2].
  split; [done|]. intros x Hx. rewrite List.Forall_forall in IH. auto.
Qed.

(** The quorum sets the checker is meant for. *)
Record checkable (q : SCPQuorumSet) : Prop := {
  ck_repr : qset_repr q;
  ck_positive : positive q = true;
  ck_nodup : NoDup (qset_nodes q)
}.

Section Convert.
Context (nums : gmap NodeID nat).
Definition numbers (l : list NodeID) : gset nat := list_to_set (omap (fun k => nums !! k) l).
#[local] Arguments numbers : simpl never.

Lemma elem_numbers l i : i ∈ numbers l <-> exists k, k ∈ l /\ nums !! k = Some i.
Proof using Type. unfold numbers. by rewrite elem_of_list_to_set, list_elem_of_omap. Qed.

Lemma numbers_cons k l : numbers (k :: l) = match nums !! k with Some i => {[i]} ∪ numbers l | None => numbers l end.
Proof using Type. unfold numbers. cbn. by destruct (nums !! k). Qed.

Lemma numbers_app l1 l2 : numbers (l1 ++ l2) = numbers l1 ∪ numbers l2.
Proof using Type. apply set_eq. intros i. rewrite elem_of_union, !elem_numbers. set_solver. Qed.

Lemma nodeBits_spec v : forall b, bsOK b ->
  let r := foldl (fun nodeBits v => match nums !! v with Some i => bitset_set nodeBits i | None => nodeBits end) b v in
  bsOK r /\ toSet r = toSet b ∪ numbers v.
Proof using Type.
  induction v as [|k v IH]; intros b Hb; cbn.
  - split; [done|]. unfold numbers. cbn. set_solver.
  - rewrite numbers_cons. destruct (nums !! k) as [i|]; [|by apply IH].
    destruct (IH (bitset_set b i)) as [H1 H2]; [by apply set_ok|]. split; [exact H1|]. etrans; [exact H2|]. rewrite toSet_set. set_solver.
Qed.

Lemma getSuccessors_spec inner : forall nodes, bsOK nodes -> Forall (fun q => bsOK (mAllSuccessors q)) inner ->
  bsOK (getSuccessors nodes inner) /\ toSet (getSuccessors nodes inner) = toSet nodes ∪ ⋃ (succ <$> inner).
Proof using Type.
  unfold getSuccessors. induction inner as [|q l IH]; intros nodes Hn Hl; cbn; [split; [done|set_solver]|].
  apply Forall_cons in Hl as [Hq Hl]. destruct (IH (bitset_inplace_union nodes (mAllSuccessors q))) as [H1 ->]; [by apply union_ok|done|].
  split; [done|]. rewrite toSet_union. unfold succ at 2. set_solver.
Qed.

Lemma WfQ_bsOK q : WfQ q -> bsOK (mAllSuccessors q).
Proof using Type. by inversion 1. Qed.

Lemma inner_succ i :
  Forall (fun q => succ (convertSCPQuorumSet nums q) = numbers (qset_nodes q)) i ->
  ⋃ (succ <$> (convertSCPQuorumSet nums <$> i)) = numbers (concat (map qset_nodes i)).
Proof using Type.
  induction 1 as [|q l Hq _ IH]; cbn; [done|]. by rewrite numbers_app, Hq, IH.
Qed.

Hypothesis nums_inj : forall a b i, nums !! a = Some i -> nums !! b = Some i -> a = b.

Lemma numbers_disjoint l1 l2 : (forall k, k ∈ l1 -> k ∉ l2) -> numbers l1 ## numbers l2.
Proof using nums_inj.
  intros H i. rewrite !elem_numbers. intros (k & Hk & E) (k' & Hk' & E'). apply (H k Hk). by rewrite (nums_inj k k' i E E').
Qed.

Lemma inner_apart i :
  Forall (fun q => succ (convertSCPQuorumSet nums q) = numbers (qset_nodes q)) i ->
  NoDup (concat (map qset_nodes i)) -> apart (succ <$> (convertSCPQuorumSet nums <$> i)).
Proof using nums_inj.
  induction 1 as [|q l Hq Hl IH]; cbn; [done|]. intros Hd. apply NoDup_app in Hd as (_ & Hd & Hn).
  split; [|by apply IH]. rewrite Hq, inner_succ by done. by apply numbers_disjoint.
Qed.

(** The bit-set form is well-formed and its successors are the nodes named. *)
Lemma convert_wf q :
  positive q = true -> NoDup (qset_nodes q) ->
  WfQ (convertSCPQuorumSet nums q) /\ succ (convertSCPQuorumSet nums q) = numbers (qset_nodes q).
Proof using nums_inj.
  induction q as [t v i IH] using qset_ind'. cbn [positive qset_nodes]. rewrite andb_true_iff, forallb_forall, Z.leb_le.
  intros [Ht Hp] Hd. apply NoDup_app in Hd as (Hv & Hvi & Hi).
  assert (Forall (fun q => WfQ (convertSCPQuorumSet nums q) /\ succ (convertSCPQuorumSet nums q) = numbers (qset_nodes q)) i) as H.
  { clear Hvi. induction IH as [|q l Hq _ IH']; [constructor|]. cbn in Hi. apply NoDup_app in Hi as (Hdq & _ & Hdl).
    constructor; [apply Hq; [apply Hp; by left|done]|]. apply IH'; [|done]. intros x Hx. apply Hp. by right. }
  assert (Forall (fun q => succ (convertSCPQuorumSet nums q) = numbers (qset_nodes q)) i) as Hs by (eapply Forall_impl; [exact H|naive_solver]).
  assert (Forall WfQ (convertSCPQuorumSet nums <$> i)) as Hw by (apply Forall_fmap; eapply Forall_impl; [exact H|intros ? []; done]).
  cbn [convertSCPQuorumSet]. unfold newQBitSet. set (nb := foldl _ _ _).
  destruct (nodeBits_spec v (bitSetWithCapacity (size nums))) as [Hok Enb]; [apply replicate_ok|].
  unfold bitSetWithCapacity in Enb at 2. rewrite toSet_replicate, union_empty_l_L in Enb. fold nb in Hok, Enb.
  destruct (getSuccessors_spec (convertSCPQuorumSet nums <$> i) nb Hok) as [Hok' Es].
  { eapply Forall_impl; [exact Hw|]. apply WfQ_bsOK. }
  split.
  - constructor; try done; [|by apply inner_apart]. rewrite Enb. change (map (convertSCPQuorumSet nums) i) with (convertSCPQuorumSet nums <$> i).
    rewrite inner_succ by done. by apply numbers_disjoint.
  - unfold succ at 1. cbn. change (map (convertSCPQuorumSet nums) i) with (convertSCPQuorumSet nums <$> i).
    rewrite Es, Enb, inner_succ by done. by rewrite numbers_app.
Qed.

Section Slices.
Context (X : gset nat) (U : list NodeID).
Hypothesis same : forall k i, nums !! k = Some i -> (i ∈ X <-> k ∈ U).
Hypothesis known : forall k, k ∈ U -> is_Some (nums !! k).

Lemma validators_count v : NoDup v -> Z.of_nat (size (X ∩ numbers v)) = count (inNodes U) v.
Proof using nums_inj same known.
  induction 1 as [|k v Hk Hd IH]; [unfold numbers; cbn; by rewrite intersection_empty_r_L, size_empty|].
  rewrite count_cons, numbers_cons, <- IH. destruct (nums !! k) as [i|] eqn:E.
  - assert (i ∉ numbers v) as Hni.
    { rewrite elem_numbers. intros (k' & Hk' & E'). apply Hk. by rewrite (nums_inj k k' i E E'). }
    destruct (inNodes U k) eqn:Hu.
    + apply inNodes_In, list_elem_of_In, (same k i E) in Hu. rewrite intersection_union_l_L, size_union by set_solver.
      assert (X ∩ {[i]} = {[i]}) as -> by set_solver. rewrite size_singleton. lia.
    + assert (i ∉ X) as Hi. { rewrite (same k i E), list_elem_of_In, <- inNodes_In. congruence. }
      assert (X ∩ ({[i]} ∪ numbers v) = X ∩ numbers v) as -> by set_solver. lia.
  - destruct (inNodes U k) eqn:Hu; [|lia]. apply inNodes_In, list_elem_of_In, known in Hu. rewrite E in Hu. by destruct Hu.
Qed.

Lemma convert_slice q :
  checkable q -> satisfied X (convertSCPQuorumSet nums q) = isQuorumSliceInternal U q.
Proof using nums_inj same known.
  induction q as [t v i IH] using qset_ind'. intros [Hr Hp Hd].
  rewrite slice_unfold by done. cbn [positive qset_nodes] in Hp, Hd. rewrite andb_true_iff, Z.leb_le, forallb_forall in Hp. destruct Hp as [Ht Hp].
  apply NoDup_app in Hd as (Hv & _ & Hi). unfold eff_threshold. rewrite (proj2 (Z.eqb_neq t 0)) by lia.
  cbn [convertSCPQuorumSet]. unfold newQBitSet. cbn [satisfied]. set (nb := foldl _ _ _). destruct (nodeBits_spec v (bitSetWithCapacity (size nums))) as [_ Enb]; [apply replicate_ok|].
  unfold bitSetWithCapacity in Enb at 2. rewrite toSet_replicate, union_empty_l_L in Enb. fold nb in Enb.
  rewrite Enb, validators_count by done. f_equal. f_equal.
  pose proof (qset_repr_Forall _ _ _ Hr) as Hri. clear -IH Hp Hi Hri.
  induction IH as [|q l Hq _ IH']; [done|]. cbn in Hi. apply NoDup_app in Hi as (Hdq & _ & Hdl). apply Forall_cons in Hri as [Hrq Hrl].
  cbn [map]. rewrite !count_cons, Hq, IH'; auto.
  - intros x Hx. apply Hp. by right.
  - split; [done|apply Hp; by left|done].
Qed.

End Slices.
End Convert.
