(* ===== verification/QuorumSearch.v ===== *)
(** * The search for disjoint quorums

    The operations of the quorum intersection checker on a graph of well-formed
    quorum sets: the contraction finds the largest quorum of a set of nodes, the
    cached test and the minimality test are exact, the split node is one of the
    remaining nodes, and the enumeration misses no pair of disjoint quorums. *)

From stdpp Require Import base list gmap sets strings.
From S2P Require Import Prelude QuorumSet LocalNode BitSet Tarjan EvictionCache QuorumChecker QuorumSlices.

Import Width.
Local Open Scope Z_scope.
#[local] Arguments toSet : simpl never.
#[local] Arguments wp : simpl never.
#[local] Arguments bits : simpl never.
#[local] Arguments bitset_count : simpl never.
#[local] Arguments bitset_unset : simpl never.
#[local] Arguments bitset_set : simpl never.
#[local] Arguments bitset_maximum : simpl never.
#[local] Arguments bs_empty : simpl never.

Section Search.
Context (g : list QBitSet).

(** ** Quorums of the graph *)

Definition slice (X : gset nat) (i : nat) : bool :=
  match g !! i with Some q => satisfied X q | None => false end.

(** Every member has a slice inside the set. *)
Definition closed (X : gset nat) : Prop := forall i, i ∈ X -> slice X i = true.
Definition quorumSet (X : gset nat) : Prop := X <> ∅ /\ closed X.
Definition minimalQ (X : gset nat) : Prop := quorumSet X /\ forall Y, quorumSet Y -> Y ⊆ X -> Y = X.
(** The largest closed subset. *)
Definition largest (B R : gset nat) : Prop := R ⊆ B /\ closed R /\ forall X, X ⊆ B -> closed X -> X ⊆ R.

Hypothesis g_wf : Forall WfQ g.
Hypothesis g_succ : forall i q j, g !! i = Some q -> j ∈ succ q -> (j < length g)%nat.

Lemma gslice_mono X Y i : X ⊆ Y -> slice X i = true -> slice Y i = true.
Proof using All.
  intros Hs. unfold slice. destruct (g !! i) as [q|] eqn:E; [|done].
  apply satisfied_mono; [by eapply Forall_lookup_1|set_solver].
Qed.

Lemma quorum_bound X i : closed X -> i ∈ X -> (i < length g)%nat.
Proof using All.
  intros Hc Hi. specialize (Hc i Hi). unfold slice in Hc. destruct (g !! i) eqn:E; [|done]. by eapply lookup_lt_Some.
Qed.

Lemma largest_quorum B R : largest B R -> R <> ∅ <-> exists X, quorumSet X /\ X ⊆ B.
Proof using All.
  intros (H1 & H2 & H3). split; [intros H; by exists R|]. intros (X & [Hne Hc] & HX) ->. apply Hne. specialize (H3 X HX Hc). set_solver.
Qed.

(** A finite quorum contains a minimal one; the double negation saves deciding
    whether a set contains a quorum. *)
Lemma minimal_exists X : quorumSet X -> ~ ~ exists M, minimalQ M /\ M ⊆ X.
Proof using All.
  remember (size X) as n eqn:Hn. revert X Hn. induction (lt_wf n) as [n _ IH]. intros X -> HX Hno.
  apply Hno. exists X. split; [|done]. split; [done|]. intros Y HY HYX.
  destruct (decide (Y = X)) as [|Hne]; [done|]. exfalso.
  apply (IH (size Y)) with Y; [apply subset_size; set_solver|done|done|].
  intros (M & HM & HMY). apply Hno. exists M. split; [done|set_solver].
Qed.

(** ** The state during the search *)

(** The graph is not changed; statistics, the cache and the random engine are. *)
Record Frame (c c' : Checker) : Prop := {
  fr_graph : mGraph c' = mGraph c;
  fr_keys : mBitNumPubKeys c' = mBitNumPubKeys c;
  fr_tsc : mTSC c' = mTSC c
}.

Lemma frame_refl c : Frame c c.
Proof using All. done. Qed.

Lemma frame_trans c1 c2 c3 : Frame c1 c2 -> Frame c2 c3 -> Frame c1 c3.
Proof using All. intros [] []. split; congruence. Qed.

Definition inGraph (b : BitSet) : Prop := bsOK b /\ forall i, i ∈ toSet b -> (i < length g)%nat.

(** ** Contraction *)

Section Contraction.
Context (E : fault -> Prop).

Lemma forNode_spec bs i c :
  mGraph c = g -> (i < length g)%nat ->
  wp E (containsQuorumSliceForNode bs i) (fun r c' => c' = c /\ r = bool_decide (i ∈ toSet bs) && slice (toSet bs) i) c.
Proof using All.
  intros Hg Hi. unfold containsQuorumSliceForNode. destruct (bitset_get bs i) eqn:Hb; cbn.
  - rewrite bool_decide_eq_true_2 by by apply elem_toSet. unfold wp, bnd, mbind, M_bind, graphAt, slice. rewrite Hg.
    destruct (lookup_lt_is_Some_2 _ _ Hi) as [q Hq]. rewrite Hq. cbn. split; [done|].
    apply contains_satisfied. by eapply Forall_lookup_1.
  - apply wp_ret. split; [done|]. rewrite bool_decide_eq_false_2; [done|]. rewrite elem_toSet. congruence.
Qed.

Lemma filterPass_spec l : forall filtered c,
  mGraph c = g -> bsOK filtered -> (forall i, i ∈ l -> (i < length g)%nat) ->
  wp E (filterPass l filtered) (fun r c' => c' = c /\ bsOK r /\ length r = length filtered /\ toSet r ⊆ toSet filtered /\
    (forall X, closed X -> X ⊆ toSet filtered -> X ⊆ toSet r) /\
    (toSet r = toSet filtered -> forall i, i ∈ l -> i ∈ toSet filtered -> slice (toSet filtered) i = true)) c.
Proof using All.
  induction l as [|i l IH]; intros filtered c Hg Hok Hl; cbn.
  { apply wp_ret. split_and!; try done. intros _ i Hi. by apply elem_of_nil in Hi. }
  apply wp_bind. eapply wp_mono; [apply forNode_spec; [done|apply Hl; by left]|]. intros ok c' [-> ->].
  assert (forall i, i ∈ l -> (i < length g)%nat) as Hl' by (intros j Hj; apply Hl; by right).
  destruct (bool_decide (i ∈ toSet filtered) && slice (toSet filtered) i) eqn:Hs.
  - eapply wp_mono; [by apply IH|]. intros r c' (-> & H1 & H2 & H3 & H4 & H5). split_and!; try done.
    intros Eq j Hj Hjf. apply elem_of_cons in Hj as [->|Hj]; [|by apply H5]. by apply andb_true_iff in Hs as [_ ?].
  - eapply wp_mono; [apply IH; [done|by apply unset_ok|done]|]. intros r c' (-> & H1 & H2 & H3 & H4 & H5).
    rewrite toSet_unset in H3, H4, H5. rewrite length_unset in H2. split_and!; try done; [set_solver| |].
    + intros X HX HXf. apply H4; [done|]. intros j Hj. apply elem_of_difference. split; [by apply HXf|]. rewrite elem_of_singleton. intros ->.
      rewrite bool_decide_eq_true_2 in Hs by by apply HXf. cbn in Hs. rewrite (gslice_mono X) in Hs; [done|done|by apply HX].
    + intros Eq. destruct (decide (i ∈ toSet filtered)) as [Hin|Hout]; [exfalso; set_solver|].
      assert (toSet filtered ∖ {[i]} = toSet filtered) as Ed by set_solver. rewrite Ed in H5.
      intros j Hj Hjf. apply elem_of_cons in Hj as [->|Hj]; [done|]. by apply H5.
Qed.

Lemma contract_spec fuel : forall nodes c,
  mGraph c = g -> inGraph nodes -> (bitset_count nodes < fuel)%nat ->
  wp E (contractLoop fuel nodes) (fun r c' => (exists st, c' = set_stats st c) /\ bsOK r /\ length r = length nodes /\
    largest (toSet nodes) (toSet r)) c.
Proof using All.
  induction fuel as [|fuel IH]; intros nodes c Hg [Hok Hlt] Hf; cbn; [lia|].
  apply wp_bind. eapply wp_mono; [apply filterPass_spec; [done|done|]|].
  { intros i. rewrite elem_bits by done. apply Hlt. }
  intros r c' (-> & Hrok & Hlen & Hsub & Hmax & Heq).
  destruct ((bitset_count r =? bitset_count nodes)%nat || bs_empty r) eqn:Hstop.
  - apply wp_bind. eapply wp_mono with (Q := fun _ c' => exists st, c' = set_stats st c).
    { destruct (negb (bs_empty r)); cbn; [apply wp_modify; by eexists|apply wp_ret; exists (mStats c); by destruct c]. }
    intros [] c' Hst. apply wp_ret. split_and!; try done. split_and!; try done; [|intros X HX Hc; by apply Hmax].
    apply orb_true_iff in Hstop as [Hc|He].
    + apply Nat.eqb_eq in Hc. rewrite !bitset_count_size in Hc. assert (toSet r = toSet nodes) as Eq by (apply set_subseteq_size_eq; [done|lia]).
      intros i Hi. rewrite Eq in Hi |- *. apply (Heq Eq i); [by apply elem_bits|done].
    + apply bs_empty_spec in He; [|done]. rewrite He. intros i Hi. set_solver.
  - apply orb_false_iff in Hstop as [Hc _]. apply Nat.eqb_neq in Hc. rewrite !bitset_count_size in Hc.
    pose proof (subseteq_size _ _ Hsub). rewrite bitset_count_size in Hf.
    eapply wp_mono; [apply IH; [done|split; [done|set_solver]|rewrite bitset_count_size; lia]|].
    intros r' c' (Hst & H1 & H2 & H3 & H4 & H5). split_and!; try done; [congruence|]. split_and!; [set_solver|done|].
    intros X HX Hcl. apply H5; [by apply Hmax|done].
Qed.

Lemma contract_largest nodes c :
  mGraph c = g -> inGraph nodes ->
  wp E (contractToMaximalQuorum nodes) (fun r c' => (exists st, c' = set_stats st c) /\ inGraph r /\ length r = length nodes /\
    largest (toSet nodes) (toSet r)) c.
Proof using All.
  intros Hg Hin. eapply wp_mono; [apply contract_spec; [done|done|lia]|]. intros r c' (H1 & H2 & H3 & H4). split_and!; try done.
  split; [done|]. intros i Hi. apply Hin, H4, Hi.
Qed.

End Contraction.

(** ** The cache of quorums *)

Context (draw : nat -> Z -> Z -> Z) (hasher bucket : Z -> Z).
Hypothesis draws : DrawLaws draw.
(** Keys that the map confuses have the same members: in particular when every
    set has a single word. *)
Hypothesis keys_distinct :
  (length g <= 64)%nat \/ forall a b, sameKey hasher bucket a b = true -> toSet a = toSet b.

Definition keyOK (b : BitSet) : Prop := inGraph b /\ ((length g <= 64)%nat -> length b = 1%nat).
Definition hasQuorum (X : gset nat) : Prop := exists Y, quorumSet Y /\ Y ⊆ X.

Lemma bitset_equal_sym a : forall b, bitset_equal a b = bitset_equal b a.
Proof using All.
  unfold bitset_equal. induction a as [|x a IH]; intros [|y b]; cbn; try done. by rewrite Z.eqb_sym, IH.
Qed.

Lemma sameKey_refl a : sameKey hasher bucket a a = true.
Proof using All. unfold sameKey. rewrite Z.eqb_refl. by apply bitset_equal_same. Qed.

Lemma sameKey_sym a b : sameKey hasher bucket a b = sameKey hasher bucket b a.
Proof using All. unfold sameKey. by rewrite Z.eqb_sym, bitset_equal_sym. Qed.

Lemma sameKey_toSet a b : keyOK a -> keyOK b -> sameKey hasher bucket a b = true -> toSet a = toSet b.
Proof using All.
  intros [_ Ha] [_ Hb]. destruct keys_distinct as [Hn|H]; [|apply H]. specialize (Ha Hn). specialize (Hb Hn).
  unfold sameKey. rewrite andb_true_iff. intros [_ H]. apply bitset_equal_same in H as ->; [done|congruence].
Qed.

Record CacheInv (c : Checker) : Prop := {
  ci_ok : CacheOK (sameKey hasher bucket) (mCachedQuorums c);
  ci_size : Z.of_nat (length (mValuePtrs (mCachedQuorums c))) <= mMaxSize (mCachedQuorums c);
  ci_sound : forall e, e ∈ mValueMap (mCachedQuorums c) -> keyOK (fst e) /\ (mValue (snd e) = true <-> hasQuorum (toSet (fst e)))
}.

(** The state of a search. *)
Context (names : list NodeID).
Hypothesis names_length : length names = length g.

Record Searching (c : Checker) : Prop := {
  se_graph : mGraph c = g;
  se_names : mBitNumPubKeys c = names;
  se_cache : CacheInv c
}.

Lemma searching_same c c' :
  mGraph c' = mGraph c -> mBitNumPubKeys c' = mBitNumPubKeys c -> mCachedQuorums c' = mCachedQuorums c ->
  Searching c -> Searching c'.
Proof using All. intros E1 E2 E3 [H1 H2 [H3 H4 H5]]. split; [congruence|congruence|]. split; rewrite E3; done. Qed.

Section Operations.
Context (E : fault -> Prop).

Definition wps {A} (m : M Checker A) (Q : A -> Checker -> Prop) (c : Checker) : Prop :=
  wp E m (fun a c' => Searching c' /\ Frame c c' /\ Q a c') c.

Lemma wps_bind {A B} (m : M Checker A) (k : A -> M Checker B) Q c :
  wps m (fun a c' => wps (k a) Q c') c -> wps (bnd m k) Q c.
Proof using All.
  unfold wps. intros H. apply wp_bind. eapply wp_mono; [exact H|]. intros a c' (_ & Hf & Hk).
  eapply wp_mono; [exact Hk|]. intros b c'' (Hs & Hf' & Hq). split_and!; [done|by eapply frame_trans|done].
Qed.

Lemma wps_mono {A} (m : M Checker A) (Q Q' : A -> Checker -> Prop) c :
  wps m Q c -> (forall a c', Searching c' -> Frame c c' -> Q a c' -> Q' a c') -> wps m Q' c.
Proof using All. unfold wps. intros H HQ. eapply wp_mono; [exact H|]. intros a c' (H1 & H2 & H3). auto. Qed.

Lemma wps_ret {A} (a : A) (Q : A -> Checker -> Prop) c : Searching c -> Q a c -> wps (mret a) Q c.
Proof using All. intros Hs Hq. apply wp_ret. by split_and!. Qed.

Lemma wps_get (Q : Checker -> Checker -> Prop) c : Searching c -> Q c c -> wps get Q c.
Proof using All. intros Hs Hq. apply wp_get. by split_and!. Qed.

Lemma wps_bump x (Q : unit -> Checker -> Prop) c :
  Searching c -> (forall c', Searching c' -> mPotentialSplit c' = mPotentialSplit c -> Q tt c') -> wps (bump x) Q c.
Proof using All.
  intros Hs HQ. apply wp_modify. split_and!; [by apply (searching_same c)|done|]. apply HQ; [by apply (searching_same c)|done].
Qed.

Lemma wps_contract nodes (Q : BitSet -> Checker -> Prop) c :
  Searching c -> inGraph nodes ->
  (forall r c', Searching c' -> inGraph r -> length r = length nodes -> largest (toSet nodes) (toSet r) -> Q r c') ->
  wps (contractToMaximalQuorum nodes) Q c.
Proof using All.
  intros Hs Hin HQ. eapply wp_mono; [apply contract_largest; [apply Hs|done]|].
  intros r c' ((st & ->) & H1 & H2 & H3). assert (Searching (set_stats st c)) as Hs' by by apply (searching_same c).
  split_and!; [done|done|]. by apply HQ.
Qed.

Lemma hasQuorum_largest nodes r : bsOK r -> largest (toSet nodes) (toSet r) -> bs_empty r = false <-> hasQuorum (toSet nodes).
Proof using All.
  intros Hok Hl. rewrite <- not_true_iff_false, (bs_empty_spec r Hok). exact (largest_quorum _ _ Hl).
Qed.

Lemma isAQuorum_spec nodes c :
  Searching c -> keyOK nodes ->
  wps (isAQuorum draw hasher bucket nodes) (fun r _ => r = true <-> hasQuorum (toSet nodes)) c.
Proof using All.
  intros Hs Hk. unfold isAQuorum. apply wps_bind, wps_get; [done|].
  destruct (maybeGet _ nodes (mCachedQuorums c)) as [pRes cache] eqn:Hget.
  destruct (se_cache _ Hs) as [C1 C2 C3].
  destruct (maybeGet_spec _ nodes _ _ _ C1 Hget) as (G1 & G2 & G3 & G4 & G5).
  set (c1 := set_cache cache (mEngine c) c).
  assert (Searching c1) as Hs1.
  { split; [apply Hs|apply Hs|]. split; cbn; [done|congruence|]. intros e' He'. destruct (G4 e' He') as (e & He & -> & ->). by apply C3. }
  apply wps_bind, wp_modify. split_and!; [done|done|]. fold c1. destruct pRes as [res|].
  - apply wps_ret; [done|]. destruct G5 as (e & He & Hm & <-). destruct (C3 e He) as [Hke ->].
    by rewrite (sameKey_toSet nodes (fst e)).
  - apply wps_bind, wps_contract; [done|apply Hk|]. intros r c2 Hs2 Hr _ Hl. apply wps_bind, wps_get; [done|].
    assert (negb (bs_empty r) = true <-> hasQuorum (toSet nodes)) as Hres.
    { rewrite negb_true_iff. apply hasQuorum_largest; [apply Hr|done]. }
    destruct (se_cache _ Hs2) as [D1 D2 D3].
    apply wps_bind. unfold wps, wp, withEngine.
    pose proof (put_spec _ draw sameKey_refl sameKey_sym draws nodes (negb (bs_empty r)) (mCachedQuorums c2) (mEngine c2) D1 D2) as Hput.
    unfold wp in Hput. destruct (put _ _ _ _ _ _) as [cache' e'|]; [|done].
    destruct Hput as (P1 & P2 & P3 & P4 & _).
    split_and!; [by apply (searching_same c2)|done|]. apply wps_bind, wp_modify.
    set (c3 := set_cache cache' _ _). assert (Searching c3) as Hs3.
    { split; [apply Hs2|apply Hs2|]. split; cbn; [done|done|]. intros e He. destruct (P4 e He) as [He'|(Hm & Hv & Hfst)]; [by apply D3|].
      assert (keyOK (fst e)) as Hke.
      { destruct Hfst as [->|Hfst]; [done|]. apply list_elem_of_fmap in Hfst as (e0 & -> & He0). by apply D3. }
      split; [done|]. by rewrite Hv, <- (sameKey_toSet nodes (fst e)). }
    split_and!; [done|done|]. by apply wps_ret.
Qed.

(** ** Minimality *)

Lemma keyOK_unset b i : keyOK b -> keyOK (bitset_unset b i).
Proof using All.
  intros [[H1 H2] H3]. split; [split|]; [by apply unset_ok| |intros Hn; rewrite length_unset; auto].
  intros j. rewrite toSet_unset. intros [Hj _]%elem_of_difference. auto.
Qed.

Lemma keyOK_set b i : (i < length g)%nat -> keyOK b -> keyOK (bitset_set b i).
Proof using All.
  intros Hi [[H1 H2] H3]. split; [split|]; [by apply set_ok| |].
  - intros j. rewrite toSet_set. intros [->%elem_of_singleton|Hj]%elem_of_union; auto.
  - intros Hn. rewrite length_set, H3 by done. rewrite Nat.div_small by lia. done.
Qed.

Lemma minimal_iff X : quorumSet X -> minimalQ X <-> forall i, i ∈ X -> ~ hasQuorum (X ∖ {[i]}).
Proof using All.
  intros HX. split.
  - intros [_ Hm] i Hi (Y & HY & Hsub). assert (Y ⊆ X) as HYX by (clear -Hsub; set_solver).
    rewrite (Hm Y HY HYX) in Hsub. clear -Hsub Hi. set_solver.
  - intros H. split; [done|]. intros Y HY Hsub. destruct (decide (X ∖ Y = ∅)) as [He|Hne].
    { apply (anti_symm (⊆)); [done|]. by apply empty_difference_subseteq_L. }
    apply set_choose_L in Hne as [i Hi]. exfalso. apply elem_of_difference in Hi as [Hi HiY]. apply (H i Hi). exists Y.
    split; [done|]. clear -Hsub HiY. set_solver.
Qed.

Lemma minimalLoop_spec X l : forall minQ c,
  Searching c -> keyOK minQ -> toSet minQ = X -> (forall i, i ∈ l -> i ∈ X) ->
  wps (minimalLoop draw hasher bucket l minQ) (fun r _ => r = true <-> forall i, i ∈ l -> ~ hasQuorum (X ∖ {[i]})) c.
Proof using All.
  induction l as [|i l IH]; intros minQ c Hs Hk EX Hl; cbn.
  - apply wps_bind, wps_bump; [done|]. intros c' Hs' _. apply wps_ret; [done|]. split; [|done]. intros _ i Hi. by apply elem_of_nil in Hi.
  - assert (i ∈ X) as Hi by (apply Hl; by left). apply wps_bind. eapply wps_mono; [apply isAQuorum_spec; [done|by apply keyOK_unset]|].
    intros sub c' Hs' _ Hsub. rewrite toSet_unset, EX in Hsub. destruct sub.
    + apply wps_ret; [done|]. split; [done|]. intros H. exfalso. apply (H i); [by left|by apply Hsub].
    + eapply wps_mono; [apply IH; [done| | |intros j Hj; apply Hl; by right]|].
      * apply keyOK_set; [|by apply keyOK_unset]. apply Hk. by rewrite EX.
      * rewrite toSet_set, toSet_unset, EX. apply set_eq. intros j. rewrite elem_of_union, elem_of_difference, elem_of_singleton.
        destruct (decide (j = i)) as [->|]; tauto.
      * intros r c'' _ _ ->. split; intros H j Hj.
        -- apply elem_of_cons in Hj as [->|Hj]; [|by apply H]. intros Hq. apply Hsub in Hq. done.
        -- apply H. by right.
Qed.

Lemma isMinimalQuorum_spec nodes c :
  Searching c -> keyOK nodes -> quorumSet (toSet nodes) ->
  wps (isMinimalQuorum draw hasher bucket nodes) (fun r _ => r = true <-> minimalQ (toSet nodes)) c.
Proof using All.
  intros Hs Hk Hq. pose proof Hk as [[Hok Hlt] _]. unfold isMinimalQuorum.
  apply wps_bind, wps_contract; [done|done|]. intros r c1 Hs1 Hr Hlen (Hsub & _ & Hmax).
  assert (r = nodes) as ->.
  { apply toSet_inj; [apply Hr|done|done|]. apply set_eq. intros i. split; [apply Hsub|]. apply Hmax; [done|apply Hq]. }
  clear Hsub Hmax Hr Hlen. rewrite (proj2 (bitset_equal_same nodes nodes eq_refl) eq_refl).
  apply wps_bind, wps_ret; [done|]. destruct (bs_empty nodes) eqn:He.
  { apply bs_empty_spec in He; [|done]. by destruct Hq. }
  eapply wps_mono; [apply (minimalLoop_spec (toSet nodes)); try done; intros i; by rewrite elem_bits|].
  intros r c' _ _ ->. rewrite minimal_iff by done. split; intros H i Hi; apply H; by apply elem_bits.
Qed.

(** ** Reporting two disjoint quorums *)

Definition named (X : gset nat) (l : list NodeID) : Prop := forall k, k ∈ l <-> exists i, i ∈ X /\ names !! i = Some k.

Definition splitFound (c : Checker) : Prop :=
  exists X Y, quorumSet X /\ quorumSet Y /\ X ## Y /\
    named X (fst (mPotentialSplit c)) /\ named Y (snd (mPotentialSplit c)).

Lemma collectKeys_spec l : forall out c,
  Searching c -> (forall i, i ∈ l -> (i < length g)%nat) ->
  wp E (collectKeys l out) (fun r c' => c' = c /\ forall k, k ∈ r <-> k ∈ out \/ exists i, i ∈ l /\ names !! i = Some k) c.
Proof using All.
  induction l as [|i l IH]; intros out c Hs Hl; cbn.
  - apply wp_ret. split; [done|]. intros k. split; [by left|]. intros [?|(i & Hi & _)]; [done|by apply elem_of_nil in Hi].
  - apply wp_bind, wp_get. rewrite (se_names _ Hs).
    destruct (lookup_lt_is_Some_2 names i) as [k Hk]; [rewrite names_length; apply Hl; by left|]. rewrite Hk.
    eapply wp_mono; [apply IH; [done|intros j Hj; apply Hl; by right]|]. intros r c' [-> Hr]. split; [done|].
    intros x. rewrite Hr, elem_of_app, list_elem_of_singleton. split.
    + intros [[?| ->]|(j & Hj & E')]; [by left|right; exists i; split; [by left|done]|right; exists j; split; [by right|done]].
    + intros [?|(j & Hj & E')]; [by left; left|]. apply elem_of_cons in Hj as [->|Hj]; [left; right; congruence|right; by exists j].
Qed.

Lemma note_spec nodes disj c :
  Searching c -> inGraph nodes -> inGraph disj ->
  wps (noteFoundDisjointQuorums nodes disj) (fun _ c' =>
    named (toSet nodes) (fst (mPotentialSplit c')) /\ named (toSet disj) (snd (mPotentialSplit c'))) c.
Proof using All.
  intros Hs [H1 H2] [H3 H4]. unfold noteFoundDisjointQuorums.
  apply wps_bind, wp_modify. split_and!; [by apply (searching_same c)|done|].
  apply wps_bind. eapply wp_mono; [apply collectKeys_spec; [by apply (searching_same c)|intros i; rewrite elem_bits by done; apply H2]|].
  intros first c1 [-> Hf]. split_and!; [by apply (searching_same c)|done|].
  apply wps_bind, wp_modify. split_and!; [by apply (searching_same c)|done|].
  apply wps_bind. eapply wp_mono; [apply collectKeys_spec; [by apply (searching_same c)|intros i; rewrite elem_bits by done; apply H4]|].
  intros second c2 [-> Hg]. split_and!; [by apply (searching_same c)|done|].
  apply wp_modify. split_and!; [by apply (searching_same c)|done| |]; intros k; cbn.
  - rewrite Hf, elem_of_nil. setoid_rewrite (elem_bits nodes); [|done]. tauto.
  - rewrite Hg, elem_of_nil. setoid_rewrite (elem_bits disj); [|done]. tauto.
Qed.

Lemma hasDisjoint_spec scanSCC nodes c :
  Searching c -> inGraph scanSCC -> inGraph nodes -> quorumSet (toSet nodes) ->
  wps (hasDisjointQuorum scanSCC nodes) (fun r c' =>
    if r : bool then splitFound c' else ~ hasQuorum (toSet scanSCC ∖ toSet nodes)) c.
Proof using All.
  intros Hs Hscc Hn Hq. unfold hasDisjointQuorum. apply wps_bind, wps_contract; [done| |].
  { destruct Hscc as [H1 H2], Hn as [H3 H4]. split; [by apply diff_ok|]. intros i. rewrite toSet_diff. intros [Hi _]%elem_of_difference. auto. }
  intros disj c' Hs' Hd _ Hl. rewrite toSet_diff in Hl.
  pose proof (bs_empty_spec disj (proj1 Hd)) as He. pose proof (largest_quorum _ _ Hl) as Hlq.
  destruct (bs_empty disj); cbn.
  - apply wps_bind, wps_ret; [done|]. apply wps_ret; [done|]. intros H. by apply Hlq in H as []; apply He.
  - apply wps_bind. eapply wps_mono; [by apply note_spec|]. intros [] c'' Hs'' _ [N1 N2]. apply wps_ret; [done|].
    exists (toSet nodes), (toSet disj). split_and!; try done.
    + split; [|apply Hl]. intros Ee. apply He in Ee. done.
    + destruct Hl as [Hl _]. clear -Hl. set_solver.
Qed.

(** ** The split node *)

Section Split.
Context (R : gset nat).
Hypothesis R_lt : forall j, j ∈ R -> (j < length g)%nat.

Definition splitOK (st : SplitState) (c : Checker) : Prop := maxNode st ∈ R /\ length (mInDegrees c) = length g.

Lemma splitEdge_spec j st c :
  Searching c -> splitOK st c -> j ∈ R -> wps (splitEdge draw j st) splitOK c.
Proof using All.
  intros Hs [Hm Hd] Hj. unfold splitEdge. apply wps_bind, wps_get; [done|].
  destruct (lookup_lt_is_Some_2 (mInDegrees c) j) as [d Ed]; [rewrite Hd; auto|]. rewrite Ed.
  apply wps_bind, wp_modify. set (c1 := set_degrees _ c). assert (Searching c1) as Hs1 by by apply (searching_same c).
  assert (length (mInDegrees c1) = length g) as Hd1 by (cbn; by rewrite length_insert).
  split_and!; [done|done|]. destruct (_ <? _); [by apply wps_ret|]. destruct (_ =? _); [|by apply wps_ret].
  apply wps_bind. unfold wps at 1, withEngine, rand_uniform, wp. cbn.
  assert (Searching (set_engine (S (mEngine c)) c1)) as Hs2 by by apply (searching_same c).
  split_and!; [done|done|]. destruct (_ =? 0); by apply wps_ret.
Qed.

Lemma splitEdges_spec js : forall st c,
  Searching c -> splitOK st c -> (forall j, j ∈ js -> j ∈ R) -> wps (splitEdges draw js st) splitOK c.
Proof using All.
  induction js as [|j js IH]; intros st c Hs Hst Hj; cbn; [by apply wps_ret|].
  apply wps_bind. eapply wps_mono; [apply splitEdge_spec; [done|done|apply Hj; by left]|].
  intros st' c' Hs' _ Hst'. apply IH; [done|done|]. intros k Hk. apply Hj. by right.
Qed.

Lemma splitNodes_spec remaining l : forall st c,
  bsOK remaining -> toSet remaining = R ->
  Searching c -> splitOK st c -> (forall i, i ∈ l -> i ∈ R) -> wps (splitNodes draw remaining l st) splitOK c.
Proof using All.
  intros st c Hok ER. revert st c. induction l as [|i l IH]; intros st c Hs Hst Hl; cbn; [by apply wps_ret|].
  apply wps_bind. unfold wps at 1, graphAt, wp. rewrite (se_graph _ Hs).
  destruct (lookup_lt_is_Some_2 g i) as [q Hq]; [apply R_lt, Hl; by left|]. rewrite Hq. split_and!; [done|done|].
  assert (bsOK (mAllSuccessors q)) as Hsok by (apply WfQ_bsOK; by eapply Forall_lookup_1).
  apply wps_bind. eapply wps_mono; [apply splitEdges_spec; [done|done|]|].
  - intros j. rewrite elem_bits by by apply inter_ok. rewrite toSet_inter, ER. intros [_ ?]%elem_of_intersection. done.
  - intros st' c' Hs' _ Hst'. apply IH; [done|done|]. intros k Hk. apply Hl. by right.
Qed.

End Split.

Lemma pickSplitNode_spec remaining c :
  Searching c -> inGraph remaining -> bs_empty remaining = false ->
  wps (pickSplitNode draw remaining) (fun k _ => k ∈ toSet remaining) c.
Proof using All.
  intros Hs [Hok Hlt] Hne. unfold pickSplitNode. apply wps_bind, wp_modify.
  assert (Searching (set_degrees (replicate (length (mGraph c)) 0) c)) as Hs1 by by apply (searching_same c).
  split_and!; [done|done|]. rewrite Hne. apply wps_bind.
  eapply wps_mono; [apply (splitNodes_spec (toSet remaining)); try done|].
  - split; [by apply bitset_maximum_member|]. cbn. by rewrite length_replicate, (se_graph _ Hs).
  - intros i. by rewrite elem_bits.
  - intros st c' Hs' _ [Hst _]. by apply wps_ret.
Qed.

(** ** The enumeration *)

Context (interrupted : Z -> bool).
Hypothesis may_interrupt : forall n, interrupted n = true -> E (Throw "InterruptedException").

Section Enumeration.
Context (scanSCC : BitSet).
Hypothesis scan_ok : inGraph scanSCC.

(** A minimal quorum the enumerator is responsible for, with another quorum in its
    complement. *)
Definition target (committed remaining M : gset nat) : Prop :=
  minimalQ M /\ committed ⊆ M /\ M ⊆ committed ∪ remaining /\
  (size M <= Nat.div (size (toSet scanSCC)) 2)%nat /\ hasQuorum (toSet scanSCC ∖ M).

Lemma enumerate_committed committed remaining cq c :
  Searching c -> keyOK cq -> largest (toSet committed) (toSet cq) -> bs_empty cq = false ->
  wps (let* minimal := isMinimalQuorum draw hasher bucket cq in
       if minimal : bool then do* bump mEarlyExit31s in hasDisjointQuorum scanSCC cq
       else do* bump mEarlyExit32s in mret false)
    (fun r c' => if r : bool then splitFound c' else forall M, ~ target (toSet committed) remaining M) c.
Proof using All.
  intros Hs Hk Hl He. assert (quorumSet (toSet cq)) as Hq.
  { split; [|apply Hl]. intros H. apply (bs_empty_spec cq) in H; [congruence|apply Hk]. }
  assert (forall M, target (toSet committed) remaining M -> toSet cq = M) as Heq.
  { intros M (HM & Hc & _). apply HM; [done|]. by transitivity (toSet committed); [apply Hl|]. }
  apply wps_bind. eapply wps_mono; [by apply isMinimalQuorum_spec|]. intros minimal c1 Hs1 _ Hmin. destruct minimal.
  - apply wps_bind, wps_bump; [done|]. intros c2 Hs2 _. eapply wps_mono; [apply hasDisjoint_spec; [done|done|apply Hk|done]|].
    intros [] c3 _ _ Hr; [done|]. intros M HM. apply Hr. rewrite (Heq M HM). apply HM.
  - apply wps_bind, wps_bump; [done|]. intros c2 Hs2 _. apply wps_ret; [done|]. intros M HM. enough (false = true) by done.
    apply Hmin. rewrite (Heq M HM). apply HM.
Qed.

Lemma target_split committed remaining k M :
  k ∈ remaining -> target committed remaining M ->
  target committed (remaining ∖ {[k]}) M \/ target ({[k]} ∪ committed) (remaining ∖ {[k]}) M.
Proof using All.
  intros Hk (H1 & H2 & H3 & H4 & H5). destruct (decide (k ∈ M)) as [Hin|Hout]; [right|left]; split_and!; try done.
  - clear -Hin H2. set_solver.
  - intros i Hi. specialize (H3 i Hi). clear -H3. destruct (decide (i = k)); set_solver.
  - intros i Hi. specialize (H3 i Hi). assert (i <> k) by congruence. clear -H3 H. set_solver.
Qed.

Lemma enumerate_spec fuel : forall committed remaining c,
  Searching c -> keyOK committed -> inGraph remaining -> (size (toSet remaining) < fuel)%nat ->
  wps (anyMinQuorumHasDisjointQuorum draw hasher bucket interrupted fuel scanSCC committed remaining)
    (fun r c' => if r : bool then splitFound c' else forall M, ~ target (toSet committed) (toSet remaining) M) c.
Proof using All.
  induction fuel as [|fuel IH]; intros committed remaining c Hs Hk Hr Hf; [lia|]. cbn [anyMinQuorumHasDisjointQuorum].
  apply wps_bind, wps_get; [done|]. destruct (interrupted _) eqn:Hi; [apply wp_fail; by eapply may_interrupt|].
  apply wps_bind, wps_bump; [done|]. intros c1 Hs1 _.
  destruct (Nat.ltb_spec (maxCommit scanSCC) (bitset_count committed)) as [Hc|Hc].
  { apply wps_bind, wps_bump; [done|]. intros c2 Hs2 _. apply wps_ret; [done|]. intros M (_ & HM & _ & Hsz & _).
    unfold maxCommit in Hc. rewrite !bitset_count_size in Hc. apply subseteq_size in HM. lia. }
  apply wps_bind, wps_contract; [done|apply Hk|]. intros cq c2 Hs2 Hcq Hlen Hl. destruct (bs_empty cq) eqn:He; cbn [negb].
  2: { apply enumerate_committed; [done| |done|done]. split; [done|]. intros Hn. rewrite Hlen. by apply Hk. }
  apply wps_bind, wps_contract; [done| |].
  { destruct Hk as [[K1 K2] _], Hr as [R1 R2]. split; [by apply union_ok|]. intros i. rewrite toSet_union. intros [?|?]%elem_of_union; auto. }
  intros ext c3 Hs3 Hext Hlen' Hl'. rewrite toSet_union in Hl'. rewrite length_union in Hlen'.
  assert (forall M, target (toSet committed) (toSet remaining) M -> M ⊆ toSet ext) as Hin.
  { intros M (HM & _ & Hsub & _). apply Hl'; [done|]. apply HM. }
  destruct (bs_empty ext) eqn:Hee.
  { apply wps_bind, wps_bump; [done|]. intros c4 Hs4 _. apply wps_ret; [done|]. intros M HM.
    apply (bs_empty_spec ext) in Hee; [|apply Hext]. specialize (Hin M HM). destruct HM as [[[Hne _] _] _].
    apply Hne. rewrite Hee in Hin. clear -Hin. set_solver. }
  pose proof (bitset_subseteq_spec committed ext (proj1 (proj1 Hk)) ltac:(lia)) as Hsub.
  destruct (bitset_subseteq committed ext); cbn [negb].
  2: { apply wps_bind, wps_bump; [done|]. intros c4 Hs4 _. apply wps_ret; [done|]. intros M HM.
    enough (false = true) by done. apply Hsub. etrans; [apply HM|by apply Hin]. }
  destruct (bs_empty remaining) eqn:Her.
  { apply wps_bind, wps_bump; [done|]. intros c4 Hs4 _. apply wps_ret; [done|]. intros M (HM & Hc1 & Hc2 & _).
    apply (bs_empty_spec remaining) in Her; [|apply Hr]. apply (bs_empty_spec cq) in He; [|apply Hcq].
    destruct HM as [[Hne Hcl] _]. apply Hne. destruct Hl as (_ & _ & Hl). rewrite He, Her in *.
    assert (M ⊆ ∅) as H0 by (apply Hl; [clear -Hc2; set_solver|done]). clear -H0. set_solver. }
  apply wps_bind. eapply wps_mono; [by apply pickSplitNode_spec|]. intros k c4 Hs4 _ Hin_k.
  assert (k < length g)%nat as Hkg by by apply Hr.
  assert (inGraph (bitset_unset remaining k)) as Hr'.
  { split; [apply unset_ok, Hr|]. intros i. rewrite toSet_unset. intros [? _]%elem_of_difference. by apply Hr. }
  assert (size (toSet (bitset_unset remaining k)) < fuel)%nat as Hf'.
  { rewrite toSet_unset. assert (toSet remaining ∖ {[k]} ⊂ toSet remaining) as Hss by (clear -Hin_k; set_solver). apply subset_size in Hss. lia. }
  apply wps_bind, wps_bump; [done|]. intros c5 Hs5 _. apply wps_bind. eapply wps_mono; [by apply IH|].
  intros r c6 Hs6 _ Hr1. destruct r; [by apply wps_ret|].
  apply wps_bind, wps_bump; [done|]. intros c7 Hs7 _. eapply wps_mono; [apply IH; [done|by apply keyOK_set|done|done]|].
  intros [] c8 _ _ Hr2; [done|]. intros M HM. rewrite toSet_unset in Hr1, Hr2. rewrite toSet_set in Hr2.
  destruct (target_split _ _ k M Hin_k HM); [by eapply Hr1|by eapply Hr2].
Qed.

End Enumeration.

(** ** The components *)

Section Components.
Context (sccs : list BitSet).
Hypothesis sccs_inGraph : forall C, C ∈ sccs -> inGraph C.
Hypothesis sccs_cover : forall i, (i < length g)%nat -> exists C, C ∈ sccs /\ i ∈ toSet C.
Hypothesis sccs_apart : forall x y C D, sccs !! x = Some C -> sccs !! y = Some D -> x <> y -> toSet C ## toSet D.
Hypothesis sccs_edges : forall x C i q j, sccs !! x = Some C -> i ∈ toSet C -> g !! i = Some q -> j ∈ succ q ->
  exists y D, (y <= x)%nat /\ sccs !! y = Some D /\ j ∈ toSet D.

(** The part of a quorum in the first component it meets is a quorum. *)
Lemma first_component M x C :
  closed M -> sccs !! x = Some C ->
  (forall y D, (y < x)%nat -> sccs !! y = Some D -> M ∩ toSet D = ∅) -> closed (M ∩ toSet C).
Proof using All.
  intros HM HC Hfirst i Hi. apply elem_of_intersection in Hi as [HiM HiC]. specialize (HM i HiM). unfold slice in *.
  destruct (g !! i) as [q|] eqn:Hq; [|done]. eapply satisfied_mono; [by eapply Forall_lookup_1| |exact HM].
  intros j [HjM Hj]%elem_of_intersection. destruct (sccs_edges x C i q j HC HiC Hq Hj) as (y & D & Hy & HD & HjD).
  apply elem_of_intersection. split; [done|]. destruct (decide (y = x)) as [->|Hne]; [congruence|].
  assert (j ∈ M ∩ toSet D) as Hin by by apply elem_of_intersection. rewrite (Hfirst y D) in Hin; [|lia|done]. by apply not_elem_of_empty in Hin.
Qed.

Lemma minimal_in_component M : minimalQ M -> exists C, C ∈ sccs /\ M ⊆ toSet C.
Proof using All.
  intros [[Hne Hcl] Hmin]. destruct (list_find (fun C => M ∩ toSet C <> ∅) sccs) as [[x C]|] eqn:Hf.
  - apply list_find_Some in Hf as (Hx & Hmeet & Hbefore). exists C. split; [by eapply list_elem_of_lookup_2|].
    rewrite <- (Hmin (M ∩ toSet C)); [clear; set_solver| |clear; set_solver]. split; [done|].
    apply (first_component M x); [done|done|]. intros y D Hy HD. apply dec_stable. by eapply Hbefore.
  - exfalso. apply set_choose_L in Hne as [i Hi]. destruct (sccs_cover i) as (C & HC & HiC); [by apply (quorum_bound M)|].
    apply list_find_None in Hf. rewrite Forall_forall in Hf. apply (Hf C HC). intros He. clear -He Hi HiC. set_solver.
Qed.

Definition scanned (done : list BitSet) (scan : BitSet) : Prop :=
  (toSet scan = ∅ /\ forall C, C ∈ done -> ~ hasQuorum (toSet C)) \/
  (scan ∈ done /\ hasQuorum (toSet scan) /\ forall C, C ∈ done -> hasQuorum (toSet C) -> C = scan).

Lemma hasQuorum_nonempty X : hasQuorum X -> X <> ∅.
Proof using All. intros (Y & [Hne _] & Hs) ->. apply Hne. clear -Hs. set_solver. Qed.

Lemma scanSCCs_spec rest : forall done scan c,
  Searching c -> sccs = done ++ rest -> bsOK scan -> scanned done scan ->
  wps (scanSCCs rest scan) (fun r c' => bsOK (fst r) /\
    if snd r : bool then splitFound c' /\ toSet (fst r) <> ∅ else scanned sccs (fst r)) c.
Proof using All.
  induction rest as [|scc rest IH]; intros prev scan c Hs Ed Hok Hsc; cbn.
  { rewrite app_nil_r in Ed. subst prev. by apply wps_ret. }
  assert (scc ∈ sccs) as Hin by (rewrite Ed; apply elem_of_app; right; by left). pose proof (sccs_inGraph _ Hin) as Hg.
  assert (sccs = (prev ++ [scc]) ++ rest) as Ed' by (by rewrite <- app_assoc).
  apply wps_bind, wps_contract; [done|done|]. intros q c1 Hs1 Hq _ Hl. pose proof (hasQuorum_largest scc q (proj1 Hq) Hl) as Hhas.
  pose proof (bs_empty_spec scan Hok) as Hscan. destruct (bs_empty q) eqn:Heq.
  - apply (IH (prev ++ [scc])); [done|done|done|]. assert (~ hasQuorum (toSet scc)) as Hno by (intros H; by apply Hhas in H).
    destruct Hsc as [[H1 H2]|(H1 & H2 & H3)]; [left|right]; split_and!; try done.
    + intros C. rewrite elem_of_app, list_elem_of_singleton. intros [?| ->]; auto.
    + apply elem_of_app. by left.
    + intros C. rewrite elem_of_app, list_elem_of_singleton. intros [?| ->]; [auto|done].
  - assert (hasQuorum (toSet scc)) as Hyes by by apply Hhas. destruct (bs_empty scan) eqn:Hes.
    + apply wps_bind, wp_modify. assert (Searching (set_stats (setStat mScanSCCSize (Z.of_nat (bitset_count scc)) (mStats c1)) c1)) as Hs2 by by apply (searching_same c1).
      split_and!; [done|done|]. apply (IH (prev ++ [scc])); [done|done|apply Hg|]. right.
      destruct Hsc as [[H1 H2]|(H1 & H2 & _)]; [|apply hasQuorum_nonempty in H2; by destruct H2; apply Hscan].
      split_and!; [apply elem_of_app; right; by left|done|]. intros C. rewrite elem_of_app, list_elem_of_singleton. intros [HC| ->] HCq; [by apply H2 in HCq|done].
    + destruct Hsc as [[H1 _]|(H1 & H2 & _)]; [by apply Hscan in H1|].
      assert (inGraph scan) as Hgs by (apply sccs_inGraph; rewrite Ed; apply elem_of_app; by left).
      apply wps_bind, wps_contract; [done|done|]. intros first c2 Hs2 Hfi _ Hlf. apply wps_bind.
      eapply wps_mono; [by apply note_spec|]. intros [] c3 Hs3 _ [N1 N2]. apply wps_ret; [done|]. cbn.
      split_and!; [done| |by apply hasQuorum_nonempty]. exists (toSet first), (toSet q). split_and!; [| | |done|done].
      * split; [by apply (largest_quorum _ _ Hlf)|apply Hlf].
      * split; [by apply (largest_quorum _ _ Hl)|apply Hl].
      * apply list_elem_of_lookup in H1 as [x Hx]. pose proof (lookup_lt_Some _ _ _ Hx).
        assert (toSet scan ## toSet scc) as Hd.
        { apply (sccs_apart x (length prev)); [rewrite Ed; by apply lookup_app_l_Some|rewrite Ed; by apply list_lookup_middle|lia]. }
        destruct Hlf as [Hlf _], Hl as [Hl _]. clear -Hd Hlf Hl. set_solver.
Qed.

(** Two disjoint quorums give the enumeration a target. *)
Lemma disjoint_target scan X Y :
  quorumSet X -> quorumSet Y -> X ## Y -> (forall C, C ∈ sccs -> hasQuorum (toSet C) -> toSet C = toSet scan) ->
  ~ ~ exists M, target scan ∅ (toSet scan) M.
Proof using All.
  intros HX HY Hd Hscan Hno.
  apply (minimal_exists X HX). intros (M1 & HM1 & H1). apply (minimal_exists Y HY). intros (M2 & HM2 & H2).
  assert (forall M, minimalQ M -> M ⊆ toSet scan) as Hin.
  { intros M HM. destruct (minimal_in_component M HM) as (C & HC & Hsub). rewrite <- (Hscan C HC); [done|]. exists M. split; [apply HM|done]. }
  pose proof (Hin M1 HM1) as S1. pose proof (Hin M2 HM2) as S2. assert (M1 ## M2) as Hd' by (clear -H1 H2 Hd; set_solver).
  assert (size M1 + size M2 <= size (toSet scan))%nat as Hsz.
  { rewrite <- size_union by done. apply subseteq_size. clear -S1 S2. set_solver. }
  pose proof (Nat.div_mod (size (toSet scan)) 2). pose proof (Nat.mod_upper_bound (size (toSet scan)) 2).
  assert (forall M M', minimalQ M -> minimalQ M' -> M ⊆ toSet scan -> M' ⊆ toSet scan -> M ## M' ->
    (size M <= Nat.div (size (toSet scan)) 2)%nat -> target scan ∅ (toSet scan) M) as Ht.
  { intros M M' HM HM' HS HS' HMM Hle. split_and!; [done|clear; set_solver|clear -HS; set_solver|done|].
    exists M'. split; [apply HM'|]. clear -HS' HMM. set_solver. }
  destruct (decide (size M1 <= Nat.div (size (toSet scan)) 2)%nat); apply Hno.
  - exists M1. by apply (Ht M1 M2).
  - exists M2. apply (Ht M2 M1); try done; lia.
Qed.

Lemma network_spec c :
  Searching c -> Tarjan.mSCCs (mTSC c) = sccs ->
  wps (networkEnjoysQuorumIntersection draw hasher bucket interrupted) (fun r c' =>
    if r : bool then forall X Y, quorumSet X -> quorumSet Y -> ~ X ## Y else splitFound c') c.
Proof using All.
  intros Hs Etsc. unfold networkEnjoysQuorumIntersection. apply wps_bind, wps_get; [done|]. rewrite Etsc. apply wps_bind.
  assert (bsOK emptyBitSet) as Hemp by (apply (replicate_ok 1)). assert (toSet emptyBitSet = ∅) as Eemp by (apply (toSet_replicate 1)).
  eapply wps_mono; [apply (scanSCCs_spec sccs []); try done|].
  { left. split; [done|]. intros C HC. by apply elem_of_nil in HC. }
  intros [scan found] c1 Hs1 _ [Hok Hfound]. cbn in Hok, Hfound. pose proof (bs_empty_spec scan Hok) as He.
  destruct (bs_empty scan) eqn:Hemp'.
  { apply wps_ret; [done|]. destruct found; [destruct Hfound as [_ Hne]; by destruct Hne; apply He|].
    intros X Y HX _ _. destruct Hfound as [[_ Hno]|(_ & Hq & _)]; [|apply hasQuorum_nonempty in Hq; by destruct Hq; apply He].
    apply (minimal_exists X HX). intros (M & HM & _). destruct (minimal_in_component M HM) as (C & HC & Hsub). apply (Hno C HC).
    exists M. split; [apply HM|done]. }
  apply wps_bind. destruct found.
  { apply wps_ret; [done|]. apply wps_ret; [done|]. apply Hfound. }
  destruct Hfound as [[H0 _]|(Hin & Hq & Hall)]; [by apply He in H0|]. pose proof (sccs_inGraph _ Hin) as Hg.
  eapply wps_mono; [apply (enumerate_spec scan Hg); [done| |done|rewrite bitset_count_size; lia]|].
  { split; [|done]. split; [done|]. rewrite Eemp. intros i Hi. by apply not_elem_of_empty in Hi. }
  intros r c2 Hs2 _ Hr. apply wps_ret; [done|]. destruct r; cbn; [done|]. intros X Y HX HY Hd. rewrite Eemp in Hr.
  apply (disjoint_target scan X Y HX HY Hd); [intros C HC HCq; by rewrite (Hall C HC HCq)|]. intros (M & HM). by eapply Hr.
Qed.

End Components.

End Operations.

End Search.
