(* ===== verification/QuorumNetwork.v ===== *)
(** * Quorum intersection of a network

    The checker built from a [QuorumMap] decides whether every two quorums of the
    network share a node, and when they do not it reports two disjoint quorums.
    Quorums are those of [LocalNode]: sets every member of which has a known quorum
    set with a slice inside the set. *)

From stdpp Require Import base list gmap sets strings.
From S2P Require Import Prelude QuorumSet LocalNode BitSet Tarjan EvictionCache QuorumChecker QuorumSlices QuorumSearch.

Import Width.
Local Open Scope Z_scope.
#[local] Arguments toSet : simpl never.
#[local] Arguments wp : simpl never.
#[local] Arguments Tarjan.calculateSCCs : simpl never.

(** ** Building the checker *)

(** The nodes whose quorum set is known, in the order of their numbers. *)
Definition knownNodes (qmap : list (NodeID * option SCPQuorumSet)) : list (NodeID * SCPQuorumSet) :=
  omap (fun d => match snd d with Some q => Some (fst d, q) | None => None end) qmap.

#[local] Arguments knownNodes : simpl never.

Lemma known_some k q l : knownNodes ((k, Some q) :: l) = (k, q) :: knownNodes l.
Proof. done. Qed.
Lemma known_none k l : knownNodes ((k, None) :: l) = knownNodes l.
Proof. done. Qed.

(** Numbers and keys are inverse to each other. *)
Definition inverse (keys : list NodeID) (nums : gmap NodeID nat) : Prop :=
  forall k i, nums !! k = Some i <-> keys !! i = Some k.

Lemma elem_knownNodes qmap k q : (k, q) ∈ knownNodes qmap <-> (k, Some q) ∈ qmap.
Proof.
  unfold knownNodes. rewrite list_elem_of_omap. split.
  - intros ([k' [q'|]] & Hin & E); [|done]. cbn in E. by injection E as -> ->.
  - intros H. by exists (k, Some q).
Qed.

Lemma knownNodes_NoDup qmap : NoDup (fst <$> qmap) -> NoDup (fst <$> knownNodes qmap).
Proof.
  induction qmap as [|[k [q|]] l IH]; rewrite ?known_some, ?known_none; cbn; intros H; [done|..]; apply NoDup_cons in H as [Hk Hl]; [|by apply IH].
  constructor; [|by apply IH]. intros Hin. apply Hk. apply list_elem_of_fmap in Hin as ([k' q'] & -> & Hin).
  apply elem_knownNodes in Hin. apply list_elem_of_fmap. by exists (k', Some q').
Qed.

Lemma empty_inverse : inverse [] ∅.
Proof. intros k i. by rewrite lookup_empty. Qed.

Lemma inverse_snoc keys nums k : inverse keys nums -> k ∉ keys -> inverse (keys ++ [k]) (<[k := length keys]> nums).
Proof.
  intros H Hk k' i. rewrite lookup_insert_Some, lookup_snoc_Some. split.
  - intros [[-> <-]|[Hne E]]; [by right|]. left. apply H in E. split; [by eapply lookup_lt_Some|done].
  - intros [[Hlt E]|[-> ->]]; [|by left]. right. split; [|by apply H]. intros ->. apply Hk. by eapply list_elem_of_lookup_2.
Qed.

Lemma numberNodes_spec qmap : forall keys nums,
  inverse keys nums -> NoDup (keys ++ (fst <$> knownNodes qmap)) ->
  fst (numberNodes qmap keys nums) = keys ++ (fst <$> knownNodes qmap) /\
  inverse (keys ++ (fst <$> knownNodes qmap)) (snd (numberNodes qmap keys nums)).
Proof.
  induction qmap as [|[k [q|]] l IH]; intros keys nums Hinv Hd; rewrite ?known_some, ?known_none in *; cbn in *; [by rewrite app_nil_r|..]; [|by apply IH].
  assert (k ∉ keys) as Hk by (apply NoDup_app in Hd as (_ & Hd & _); intros Hin; apply (Hd k Hin); by left).
  assert (nums !! k = None) as ->.
  { apply eq_None_not_Some. intros [i Hi]. apply Hinv, list_elem_of_lookup_2 in Hi. done. }
  replace (keys ++ k :: (knownNodes l).*1) with ((keys ++ [k]) ++ (knownNodes l).*1) in * by by rewrite <- app_assoc. apply IH; [by apply inverse_snoc|done].
Qed.

Section Build.
Context (qmap : list (NodeID * option SCPQuorumSet)).
Hypothesis qmap_keys : NoDup (fst <$> qmap).
Hypothesis qmap_checkable : forall k q, (k, Some q) ∈ qmap -> checkable q.

Definition nodeKeys : list NodeID := fst <$> knownNodes qmap.
Definition nodeNums : gmap NodeID nat := snd (numberNodes qmap [] ∅).
Definition network : list QBitSet := (fun d => convertSCPQuorumSet nodeNums (snd d)) <$> knownNodes qmap.

Lemma nums_inverse : inverse nodeKeys nodeNums.
Proof using All.
  apply (numberNodes_spec qmap [] ∅); [apply empty_inverse|by apply knownNodes_NoDup].
Qed.

Lemma numberNodes_keys : numberNodes qmap [] ∅ = (nodeKeys, nodeNums).
Proof using All.
  destruct (numberNodes_spec qmap [] ∅ empty_inverse (knownNodes_NoDup _ qmap_keys)) as [E _].
  unfold nodeNums, nodeKeys. cbn in E. rewrite <- E. by destruct (numberNodes qmap [] ∅).
Qed.

Lemma nums_injective a b i : nodeNums !! a = Some i -> nodeNums !! b = Some i -> a = b.
Proof using All. rewrite !(nums_inverse _ i). congruence. Qed.

Lemma convertNodes_spec l : forall pre c,
  mPubKeyBitNums c = nodeNums -> knownNodes qmap = pre ++ knownNodes l ->
  mGraph c = (fun d => convertSCPQuorumSet nodeNums (snd d)) <$> pre ->
  convertNodes l c = Ok tt (set_graph network c).
Proof using All.
  induction l as [|[k [q|]] l IH]; intros pre c Hn Hk Hg; rewrite ?known_some, ?known_none in Hk; cbn.
  - rewrite app_nil_r in Hk. unfold network. rewrite Hk, <- Hg. by destruct c.
  - unfold bnd, mbind, M_bind. cbn. rewrite Hn.
    assert (nodeNums !! k = Some (length pre)) as Ek.
    { apply nums_inverse. unfold nodeKeys. rewrite Hk. cbn. rewrite fmap_app, lookup_app_r by by rewrite length_fmap.
      by rewrite length_fmap, Nat.sub_diag. }
    rewrite Ek. cbn. rewrite Hg, length_fmap, Nat.eqb_refl. cbn.
    rewrite (IH (pre ++ [(k, q)])); [by destruct c|by cbn|by rewrite Hk, <- app_assoc|]. cbn. by rewrite fmap_app, Hn, Hg.
  - by apply (IH pre).
Qed.

Lemma network_lookup i k q : nodeKeys !! i = Some k -> (k, Some q) ∈ qmap -> network !! i = Some (convertSCPQuorumSet nodeNums q).
Proof using All.
  unfold nodeKeys, network. rewrite !list_lookup_fmap. intros H Hq. destruct (knownNodes qmap !! i) as [[k' q']|] eqn:E; [|done].
  injection H as ->. cbn. do 2 f_equal. apply list_elem_of_lookup_2, elem_knownNodes in E.
  apply (f_equal (fun o => default q o)) with (x := Some q') (y := Some q).
  clear -E Hq qmap_keys. induction qmap as [|d l IH]; [by apply elem_of_nil in E|]. cbn in qmap_keys. apply NoDup_cons in qmap_keys as [Hd Hl].
  assert (forall x, (k, Some x) ∈ l -> k ∈ fst <$> l) as Hf by (intros x Hx; apply list_elem_of_fmap; by exists (k, Some x)).
  apply elem_of_cons in E as [<-|E], Hq as [Hq|Hq]; [congruence| | |by apply IH].
  - exfalso. apply Hd. by eapply Hf.
  - subst d. exfalso. apply Hd. by eapply Hf.
Qed.

Lemma network_entry i Q : network !! i = Some Q -> exists k q, nodeKeys !! i = Some k /\ (k, Some q) ∈ qmap /\ Q = convertSCPQuorumSet nodeNums q.
Proof using All.
  unfold network, nodeKeys. rewrite !list_lookup_fmap. destruct (knownNodes qmap !! i) as [[k q]|] eqn:E; [|done].
  intros [= <-]. exists k, q. split_and!; try done. by apply list_elem_of_lookup_2, elem_knownNodes in E.
Qed.

Lemma knownNodes_length : (length nodeKeys <= length qmap)%nat.
Proof using All.
  unfold nodeKeys. rewrite length_fmap. clear. induction qmap as [|[k [q|]] l IH]; rewrite ?known_some, ?known_none; [apply le_n|cbn; lia..].
Qed.

Lemma network_length : length network = length nodeKeys.
Proof using All. unfold network, nodeKeys. by rewrite !length_fmap. Qed.

Lemma network_wf : Forall WfQ network.
Proof using All.
  apply Forall_lookup. intros i Q H. apply network_entry in H as (k & q & _ & Hq & ->). destruct (qmap_checkable k q Hq).
  by apply (convert_wf _ nums_injective).
Qed.

Lemma network_succ i Q j : network !! i = Some Q -> j ∈ succ Q -> (j < length network)%nat.
Proof using All.
  intros H. apply network_entry in H as (k & q & _ & Hq & ->). destruct (qmap_checkable k q Hq).
  destruct (convert_wf _ nums_injective q) as [_ ->]; [done|done|]. rewrite elem_numbers, network_length.
  intros (k' & _ & E). apply nums_inverse in E. by eapply lookup_lt_Some.
Qed.

Definition successors (i : nat) : BitSet := match network !! i with Some q => mAllSuccessors q | None => [] end.

Lemma successors_ok i : (i < length network)%nat -> bsOK (successors i).
Proof using All.
  intros Hi. destruct (lookup_lt_is_Some_2 _ _ Hi) as [q Hq]. unfold successors. rewrite Hq. apply WfQ_bsOK. eapply Forall_lookup_1; [apply network_wf|done].
Qed.

Lemma successors_lt i j : (i < length network)%nat -> j ∈ toSet (successors i) -> (j < length network)%nat.
Proof using All.
  intros Hi. destruct (lookup_lt_is_Some_2 _ _ Hi) as [q Hq]. unfold successors. rewrite Hq. by apply network_succ with i.
Qed.

(** The components found by the constructor. *)
Record ComponentsOK (sccs : list BitSet) : Prop := {
  co_ok : Forall bsOK sccs;
  co_cover : forall k, (k < length network)%nat <-> exists C, C ∈ sccs /\ k ∈ toSet C;
  co_apart : forall x y C D, sccs !! x = Some C -> sccs !! y = Some D -> x <> y -> toSet C ## toSet D;
  co_edges : forall x C i j, sccs !! x = Some C -> i ∈ toSet C -> Tarjan.edge (length network) successors i j ->
    exists y D, (y <= x)%nat /\ sccs !! y = Some D /\ j ∈ toSet D
}.

Lemma build_spec e :
  exists c, buildChecker qmap (initialChecker e) = Ok tt c /\
    mGraph c = network /\ mBitNumPubKeys c = nodeKeys /\ mCachedQuorums c = newCache MAX_CACHED_QUORUMS_SIZE /\
    mEngine c = e /\ ComponentsOK (Tarjan.mSCCs (mTSC c)).
Proof using All.
  unfold buildChecker, buildGraph. rewrite numberNodes_keys. unfold bnd, mbind, M_bind. cbn.
  rewrite (convertNodes_spec qmap []) by done. cbn. unfold buildSCCs. cbn.
  rewrite (Tarjan.calculate_ext (length network) _ successors).
  2: { intros i Hi. unfold successors. by destruct (lookup_lt_is_Some_2 _ _ Hi) as [q ->]. }
  2: { intros i j Hi. rewrite elem_bits by by apply successors_ok. by apply successors_lt. }
  destruct (Tarjan.calculate_spec (length network) successors successors_ok successors_lt (Tarjan.mkCalculator [] [] 0 [])) as (t & -> & T1 & T2 & T3 & T4 & _).
  eexists. cbn. split_and!; [done|done|done|done|done|]. by split.
Qed.

(** ** Quorums by public key *)

Definition netQuorum (U : list NodeID) : Prop :=
  U <> [] /\ forall k, k ∈ U -> exists q, (k, Some q) ∈ qmap /\ isQuorumSlice q U = true.

Lemma known_slice X U i k q :
  (forall k i, nodeNums !! k = Some i -> (i ∈ X <-> k ∈ U)) -> (forall k, k ∈ U -> is_Some (nodeNums !! k)) ->
  nodeKeys !! i = Some k -> (k, Some q) ∈ qmap -> slice network X i = isQuorumSlice q U.
Proof using All.
  intros Hsame Hknown Hi Hq. unfold slice. rewrite (network_lookup i k q Hi Hq).
  apply convert_slice; [exact nums_injective|done|done|by eapply qmap_checkable].
Qed.

Lemma entry_key k q : (k, Some q) ∈ qmap -> exists i, nodeKeys !! i = Some k.
Proof using All.
  intros H. apply elem_knownNodes, (list_elem_of_fmap_2 fst), list_elem_of_lookup in H as [i Hi]. by exists i.
Qed.

Lemma netQuorum_numbers U : netQuorum U -> quorumSet network (numbers nodeNums U).
Proof using All.
  intros [Hne HU].
  assert (forall k, k ∈ U -> is_Some (nodeNums !! k)) as Hknown.
  { intros k Hk. destruct (HU k Hk) as (q & Hq & _). destruct (entry_key k q Hq) as [i Hi]. apply nums_inverse in Hi. by eexists. }
  assert (forall k i, nodeNums !! k = Some i -> (i ∈ numbers nodeNums U <-> k ∈ U)) as Hsame.
  { intros k i E. rewrite elem_numbers. split; [|by exists k]. intros (k' & Hk' & E'). by rewrite (nums_injective k k' i). }
  split.
  - destruct U as [|k U]; [done|]. destruct (Hknown k) as [i Hi]; [by left|]. intros E0.
    assert (i ∈ numbers nodeNums (k :: U)) as Hin by (apply (Hsame k i Hi); by left). rewrite E0 in Hin. by apply not_elem_of_empty in Hin.
  - intros i Hi. apply elem_numbers in Hi as (k & Hk & E). destruct (HU k Hk) as (q & Hq & Hs).
    rewrite (known_slice _ U i k q Hsame Hknown); [done|by apply nums_inverse|done].
Qed.

Lemma named_netQuorum X U : quorumSet network X -> named nodeKeys X U -> netQuorum U.
Proof using All.
  intros [Hne Hc] HU.
  assert (forall k, k ∈ U -> is_Some (nodeNums !! k)) as Hknown.
  { intros k Hk. apply HU in Hk as (i & _ & Hi). apply nums_inverse in Hi. by eexists. }
  assert (forall k i, nodeNums !! k = Some i -> (i ∈ X <-> k ∈ U)) as Hsame.
  { intros k i E. rewrite (HU k). split; [intros Hi; exists i; split; [done|by apply nums_inverse]|].
    intros (i' & Hi' & E'). apply nums_inverse in E'. congruence. }
  assert (forall i, i ∈ X -> exists k q, nodeKeys !! i = Some k /\ (k, Some q) ∈ qmap) as Hentry.
  { intros i Hi. specialize (Hc i Hi). unfold slice in Hc. destruct (network !! i) as [Q|] eqn:E; [|done].
    apply network_entry in E as (k & q & Hk & Hq & _). by exists k, q. }
  split.
  - apply set_choose_L in Hne as [i Hi]. destruct (Hentry i Hi) as (k & q & Hk & _). intros ->.
    apply (elem_of_nil k), HU. by exists i.
  - intros k Hk. apply HU in Hk as (i & Hi & Ek). destruct (Hentry i Hi) as (k' & q & Ek' & Hq). assert (k' = k) as -> by congruence.
    exists q. split; [done|]. rewrite <- (known_slice X U i k q Hsame Hknown Ek Hq). by apply Hc.
Qed.

Lemma named_disjoint X Y U V k : X ## Y -> named nodeKeys X U -> named nodeKeys Y V -> k ∈ U -> k ∉ V.
Proof using All.
  intros Hd HU HV Hk Hk'. apply HU in Hk as (i & Hi & E). apply HV in Hk' as (j & Hj & E').
  apply nums_inverse in E, E'. assert (i = j) as -> by congruence. by apply (Hd j).
Qed.

(** ** The answer of the checker *)

Context (draw : nat -> Z -> Z -> Z) (hasher bucket : Z -> Z) (interrupted : Z -> bool).
Hypothesis draws : DrawLaws draw.
Hypothesis keys_distinct :
  (length nodeKeys <= 64)%nat \/ forall a b, sameKey hasher bucket a b = true -> toSet a = toSet b.

Definition interruption (f : fault) : Prop := f = Throw "InterruptedException" /\ exists n, interrupted n = true.

Lemma check_spec e :
  match (do* buildChecker qmap in networkEnjoysQuorumIntersection draw hasher bucket interrupted) (initialChecker e) with
  | Ok true c => forall U V, netQuorum U -> netQuorum V -> exists k, k ∈ U /\ k ∈ V
  | Ok false c =>
      netQuorum (fst (mPotentialSplit c)) /\ netQuorum (snd (mPotentialSplit c)) /\
      forall k, k ∈ fst (mPotentialSplit c) -> k ∉ snd (mPotentialSplit c)
  | Err f _ => interruption f
  end.
Proof using All.
  destruct (build_spec e) as (c & Eb & Hg & Hn & Hcache & _ & HC). unfold bnd, mbind, M_bind. rewrite Eb.
  rewrite <- network_length in keys_distinct.
  assert (Searching network hasher bucket nodeKeys c) as Hs.
  { split; [done|done|]. split; rewrite Hcache; cbn; [by split; [constructor|]|done|]. by intros x ?%elem_of_nil. }
  pose proof (network_spec network network_wf network_succ draw hasher bucket draws keys_distinct nodeKeys (eq_sym network_length)
    interruption interrupted ltac:(intros n H; split; [done|by exists n]) (Tarjan.mSCCs (mTSC c))) as Hnet.
  pose proof HC as [C1 C2 C3 C4]. rewrite Forall_forall in C1.
  specialize (Hnet ltac:(intros C HCin; split; [by apply C1|intros i Hi; apply C2; by exists C]) ltac:(intros i; apply C2) C3).
  specialize (Hnet ltac:(intros x C i q j Hx Hi Hq Hj; apply (C4 x C i j Hx Hi);
    split; [by eapply lookup_lt_Some|unfold successors; by rewrite Hq]) c Hs eq_refl).
  unfold wps, wp in Hnet. destruct (networkEnjoysQuorumIntersection draw hasher bucket interrupted c) as [[] c'|f c'].
  - intros U V HU HV. destruct Hnet as (_ & _ & Hnet). specialize (Hnet _ _ (netQuorum_numbers U HU) (netQuorum_numbers V HV)).
    destruct (decide (Exists (fun k => k ∈ V) U)) as [H|H]; [by apply Exists_exists in H|]. exfalso. apply Hnet.
    apply (numbers_disjoint _ nums_injective). intros k Hk Hk'. apply H, Exists_exists. by exists k.
  - destruct Hnet as (_ & _ & X & Y & HX & HY & Hd & N1 & N2). split_and!; [by apply (named_netQuorum X)|by apply (named_netQuorum Y)|].
    intros k. by apply (named_disjoint X Y).
  - done.
Qed.

End Build.

(** C3: The quorum intersection checker is exact.  For a map with distinct keys whose
    quorum sets have positive thresholds and name no node twice, with at most 64 entries
    or a key of the checker's cache without collisions, whatever is drawn at random within
    its range: the checker returns [true] only if every two quorums of the network share a
    node; when it returns [false] the two lists it reports are disjoint quorums; and it
    ends in no other way than an interruption that was asked for.  In particular the
    assertion of [isMinimalQuorum], that it is given a quorum, never fails. *)
Theorem networkEnjoysQuorumIntersection_exact (qmap : list (NodeID * option SCPQuorumSet))
    (draw : nat -> Z -> Z -> Z) (hasher bucket : Z -> Z) (interrupted : Z -> bool) (e : nat)
    (Hkeys : NoDup (fst <$> qmap)) (Hqsets : forall k q, (k, Some q) ∈ qmap -> checkable q) (Hdraw : DrawLaws draw)
    (Hmap : (length qmap <= 64)%nat \/ forall a b, sameKey hasher bucket a b = true -> toSet a = toSet b) :
  match (do* buildChecker qmap in networkEnjoysQuorumIntersection draw hasher bucket interrupted) (initialChecker e) with
  | Ok true _ => forall U V, netQuorum qmap U -> netQuorum qmap V -> exists k, k ∈ U /\ k ∈ V
  | Ok false c =>
      netQuorum qmap (fst (mPotentialSplit c)) /\ netQuorum qmap (snd (mPotentialSplit c)) /\
      forall k, k ∈ fst (mPotentialSplit c) -> k ∉ snd (mPotentialSplit c)
  | Err f _ => f = Throw "InterruptedException" /\ exists n, interrupted n = true
  end.
Proof.
  apply (check_spec qmap Hkeys Hqsets draw hasher bucket interrupted Hdraw).
  destruct Hmap as [H|H]; [left|by right]. etrans; [by apply knownNodes_length|done].
Qed.

(** Four nodes that trust any two of four: two and two can part. *)
Definition pairs : list (NodeID * option SCPQuorumSet) := (fun k => (k, Some (QSet 2 [1; 2; 3; 4] []))) <$> [1; 2; 3; 4].
Definition lowest (_ : nat) (lo _ : Z) : Z := lo.

Lemma checkable_compute q : qset_repr q -> positive q = true -> bool_decide (NoDup (qset_nodes q)) = true -> checkable q.
Proof. intros H1 H2 H3. split; [done|done|]. by apply bool_decide_eq_true in H3. Qed.

Lemma lowest_laws : DrawLaws lowest.
Proof. intros n lo hi H. unfold lowest. lia. Qed.

Lemma pairs_checkable k q : (k, Some q) ∈ pairs -> checkable q.
Proof.
  intros H. apply list_elem_of_fmap in H as (x & E & _). injection E as _ ->.
  apply checkable_compute; [split; [reflexivity|vm_compute; discriminate]|reflexivity|reflexivity].
Qed.

Lemma networkEnjoysQuorumIntersection_exact_witness :
  exists U V, netQuorum pairs U /\ netQuorum pairs V /\ forall k, k ∈ U -> k ∉ V.
Proof.
  pose proof (networkEnjoysQuorumIntersection_exact pairs lowest id id (fun _ => false) 0
    ltac:(by apply (bool_decide_eq_true_1 (NoDup pairs.*1))) pairs_checkable lowest_laws ltac:(left; cbn; lia)) as H.
  destruct ((do* buildChecker pairs in networkEnjoysQuorumIntersection lowest id id (fun _ => false)) (initialChecker 0)) as [[] c|f c] eqn:E.
  - exfalso. apply (f_equal (fun o => match o with Ok b _ => b | Err _ _ => true end)) in E. vm_compute in E. discriminate.
  - exists (fst (mPotentialSplit c)), (snd (mPotentialSplit c)). exact H.
  - exfalso. destruct H as [_ [n Hn]]. clear E. discriminate Hn.
Defined.

(** The bit-set test agrees with the protocol's.  For a quorum set that names no
    node twice and has positive thresholds, the optimised [containsQuorumSlice] on
    the numbers of a set of known nodes answers what [LocalNode::isQuorumSlice]
    answers on their public keys. *)
Theorem containsQuorumSlice_isQuorumSlice (nums : gmap NodeID nat) (bs : BitSet) (U : list NodeID) (q : SCPQuorumSet)
    (Hinj : forall a b i, nums !! a = Some i -> nums !! b = Some i -> a = b)
    (Hsame : forall k i, nums !! k = Some i -> (bitset_get bs i = true <-> k ∈ U))
    (Hknown : forall k, k ∈ U -> is_Some (nums !! k)) (Hq : checkable q) :
  containsQuorumSlice bs (convertSCPQuorumSet nums q) = isQuorumSlice q U.
Proof.
  destruct (convert_wf nums Hinj q) as [Hw _]; [apply Hq|apply Hq|]. rewrite contains_satisfied by done.
  apply convert_slice; [done| |done|done]. intros k i E. by rewrite elem_toSet, Hsame.
Qed.

Definition nested : SCPQuorumSet := QSet 2 [10] [QSet 1 [20; 30] []; QSet 2 [40; 50] []].
Definition nestedNums : gmap NodeID nat := <[10 := 0%nat]> (<[30 := 1%nat]> (<[40 := 2%nat]> ∅)).

Lemma containsQuorumSlice_isQuorumSlice_witness :
  containsQuorumSlice [3] (convertSCPQuorumSet nestedNums nested) = isQuorumSlice nested [10; 30] /\
  isQuorumSlice nested [10; 30] = true.
Proof.
  split; [|reflexivity]. apply containsQuorumSlice_isQuorumSlice.
  - intros a b i. unfold nestedNums. rewrite !lookup_insert_Some, !lookup_empty. intuition (congruence || lia).
  - intros k i. unfold nestedNums. rewrite !lookup_insert_Some, lookup_empty.
    rewrite elem_of_cons, list_elem_of_singleton. intros [[<- <-]|[_ [[<- <-]|[_ [[<- <-]|[_ Hn]]]]]]; [| | |done].
    + split; [by left|done].
    + split; [by right|done].
    + split; [done|intros [?|?]; lia].
  - intros k Hk. apply elem_of_cons in Hk as [->|Hk]; [by eexists|]. apply list_elem_of_singleton in Hk as ->. by eexists.
  - apply checkable_compute; [split; [reflexivity|vm_compute; discriminate]|reflexivity|reflexivity].
Defined.

(** Nodes 1 and 65 need each other; everyone else is on their own. *)
Definition wide : list (NodeID * option SCPQuorumSet) :=
  (fun k => (Z.of_nat k, Some (if bool_decide (k ∈ [1; 65])%nat then QSet 2 [1; 65] [] else QSet 1 [Z.of_nat k] []))) <$> seq 1 65.

(** Beyond 64 nodes the cache can answer for another set.  [BitSet]'s [==] compares
    only the words both operands have, so that the set of node 1 alone, one word
    long, equals the set of nodes 1 and 65; when the two fall into the same bucket
    of the cache, the answer stored for the second is returned for the first,
    which contains no quorum. *)
Theorem isAQuorum_confuses_widths :
  match (do* buildChecker wide in
         let* both := isAQuorum lowest id (fun _ => 0) [1; 1] in
         let* alone := isAQuorum lowest id (fun _ => 0) [1] in
         let* quorum := contractToMaximalQuorum [1] in
         mret (both, alone, bs_empty quorum)) (initialChecker 0) with
  | Ok r _ => r = (true, true, true)
  | Err _ _ => False
  end.
Proof.
  set (run := bnd (buildChecker wide) _ (initialChecker 0)). assert (match run with Ok r _ => Some r | Err _ _ => None end = Some (true, true, true)) as H by (vm_compute; reflexivity).
  clearbody run. destruct run as [r c|f c]; [by injection H|done].
Qed.
