(* ===== verification/QuorumAgreement.v ===== *)
(** * From the checker to agreement

    The agreement theorem of the consensus protocol assumes that quorums intersect;
    the quorum intersection checker decides that.  Together: a network whose quorum
    sets the checker has passed does not externalize two values for a slot. *)

From stdpp Require Import base list gmap sets strings.
From S2P Require Import Prelude QuorumSet LocalNode Statement SlotState Ballot BallotInv Nomination Frames SlotInv SlotFacts Consensus.
From S2P Require Import BitSet EvictionCache QuorumChecker QuorumSlices QuorumNetwork.

Local Open Scope Z_scope.

Section Agreement.
Context (cfg : NodeID -> option LocalNodeState) (qmap : list (NodeID * option SCPQuorumSet)).

(** The map lists the quorum sets of the nodes that run the code, and these name
    only such nodes. *)
Record Surveyed : Prop := {
  sv_keys : NoDup (fst <$> qmap);
  sv_entries : forall k q, (k, Some q) ∈ qmap <-> exists ln, cfg k = Some ln /\ mQSet ln = q;
  sv_checkable : forall k q, (k, Some q) ∈ qmap -> checkable q;
  sv_honest : forall n ln k, cfg n = Some ln -> k ∈ qset_nodes (mQSet ln) -> honest cfg k
}.

Hypothesis Hsurvey : Surveyed.
Hypothesis Hcfg : wellConfigured cfg.

(** The honest part of a quorum is a quorum of the map. *)
Lemma honest_part U m : Consensus.quorum cfg U -> In m U -> honest cfg m ->
  netQuorum qmap (filter (fun k => honest cfg k) U).
Proof using All.
  intros HU Hm Hh. split.
  - intros E. apply (elem_of_nil m). rewrite <- E. apply list_elem_of_filter. split; [done|by apply list_elem_of_In].
  - intros k Hk. apply list_elem_of_filter in Hk as [Hkh HkU]. unfold honest in Hkh. destruct (cfg k) as [ln|] eqn:Ek; [|done].
    exists (mQSet ln). split; [apply (sv_entries Hsurvey); by exists ln|].
    apply (LocalNode.slice_mono U); [by apply (Hcfg k)| |by apply (HU k); [apply list_elem_of_In|]].
    intros x Hx. rewrite !inNodes_In, <- !list_elem_of_In, list_elem_of_filter. intros HxU. split; [|done].
    apply (sv_honest Hsurvey k ln x Ek). by apply list_elem_of_In.
Qed.

Lemma pass_intersection :
  (forall U V, netQuorum qmap U -> netQuorum qmap V -> exists k, k ∈ U /\ k ∈ V) -> intersection cfg.
Proof using All.
  intros HI U V m n HU HV Hm Hmh Hn Hnh.
  destruct (HI _ _ (honest_part U m HU Hm Hmh) (honest_part V n HV Hn Hnh)) as (k & HkU & HkV).
  apply list_elem_of_filter in HkU as [Hk HkU], HkV as [_ HkV]. exists k. by rewrite <- !list_elem_of_In.
Qed.

End Agreement.

(** C2: A checked network agrees.  If the quorum intersection checker, run on the quorum
    sets of the nodes of a network, answers [true], then in every run of the
    consensus protocol over that network no two nodes externalize different
    values for a slot: the assumption of the agreement theorem is discharged by
    the checker's answer.  The network is [Surveyed]: the map has one entry for each node
    that runs the code, with its quorum set, and every node these sets name runs it, so
    that none is Byzantine; the sets have positive thresholds and name no node twice.
    There are at most 64 nodes or the key of the checker's cache has no collisions, and
    random draws stay in their range. *)
Theorem checked_network_agrees (cfg : NodeID -> option LocalNodeState) (qmap : list (NodeID * option SCPQuorumSet)) (index : Z)
    (draw : nat -> Z -> Z -> Z) (hasher bucket : Z -> Z) (interrupted : Z -> bool) (e e' : nat)
    (g : NodeID -> SlotState) (m n : NodeID) (v w : Value)
    (Hsurvey : Surveyed cfg qmap) (Hcfg : wellConfigured cfg) (Hdraw : DrawLaws draw)
    (Hmap : (length qmap <= 64)%nat \/ forall a b, sameKey hasher bucket a b = true -> toSet a = toSet b)
    (Hpass : checkNetwork draw hasher bucket interrupted qmap e = Ok true e')
    (Hrun : Consensus.network cfg index g) (Hm : honest cfg m) (Hn : honest cfg n)
    (Hv : In v (exts (g m))) (Hw : In w (exts (g n))) :
  v = w.
Proof.
  apply (externalized_agree cfg index Hcfg g m n v w); try done. apply (pass_intersection cfg qmap Hsurvey Hcfg).
  assert ((length (nodeKeys qmap) <= 64)%nat \/ forall a b, sameKey hasher bucket a b = true -> toSet a = toSet b) as Hk.
  { destruct Hmap as [H|H]; [left|by right]. etrans; [apply knownNodes_length; apply Hsurvey|done]. }
  pose proof (check_spec qmap (sv_keys _ _ Hsurvey) (sv_checkable _ _ Hsurvey) draw hasher bucket interrupted Hdraw Hk e) as H.
  unfold checkNetwork in Hpass. destruct (bnd (buildChecker qmap) _ (initialChecker e)) as [[] c|f c]; [exact H|done|done].
Qed.

(** The four nodes of the sample run, each trusting any three of the four. *)
Definition survey4 : list (NodeID * option SCPQuorumSet) := (fun k => (k, Some Example.q4)) <$> [1; 2; 3; 4].

Lemma survey4_ok : Surveyed (Run.cfgUpTo 4) survey4.
Proof.
  assert (forall k, (1 <=? k) && (k <=? 4) = true <-> k ∈ [1; 2; 3; 4]) as Hk.
  { intros k. rewrite andb_true_iff, !Z.leb_le, !elem_of_cons, elem_of_nil. lia. }
  assert (forall k q, (k, Some q) ∈ survey4 <-> k ∈ [1; 2; 3; 4] /\ q = Example.q4) as Hel.
  { intros k q. unfold survey4. rewrite list_elem_of_fmap. split; [by intros (x & [= -> ->] & Hx)|]. intros [Hx ->]. by exists k. }
  split.
  - by apply (bool_decide_eq_true_1 (NoDup survey4.*1)).
  - intros k q. rewrite Hel, <- Hk. unfold Run.cfgUpTo. split.
    + intros [-> ->]. by eexists.
    + intros (ln & E & <-). destruct (_ && _); [|done]. by injection E as <-.
  - intros k q H. apply Hel in H as [_ ->]. apply checkable_compute; [split; [reflexivity|vm_compute; discriminate]|reflexivity|reflexivity].
  - intros n ln k. unfold honest, Run.cfgUpTo. destruct ((1 <=? n) && (n <=? 4)); [|done]. intros [= <-] H. by apply Hk in H as ->.
Qed.

Lemma checked_network_agrees_witness :
  match Run.endState with
  | Some g => In Example.v1 (exts (g 1)) /\ forall w, In w (exts (g 2)) -> Example.v1 = w
  | None => False
  end.
Proof.
  assert (match Run.endState with Some g => In Example.v1 (exts (g 1)) | None => False end) as H.
  { vm_compute. by left. }
  destruct Run.endState as [g|] eqn:E; [|done]. split; [done|]. intros w Hw.
  eapply (checked_network_agrees (Run.cfgUpTo 4) survey4 9 lowest id id (fun _ => false) 0 _ g 1 2 Example.v1 w).
  - apply survey4_ok.
  - apply Run.cap_wellConfigured.
  - apply lowest_laws.
  - left. vm_compute. lia.
  - vm_compute. reflexivity.
  - by apply (Run.endState_network 4).
  - discriminate.
  - discriminate.
  - done.
  - done.
Defined.
