(* ===== verification/QuorumCritical.v ===== *)
(** * Intersection-critical groups

    [getIntersectionCriticalGroups] tries every candidate group of nodes: it gives the
    members a fickle quorum set in a copy of the map, asks the checker, and restores
    the copy.  The groups it returns are exactly the candidates whose fickleness
    splits the network, and each trial starts from the original map. *)

From stdpp Require Import base list gmap sets strings sorting.
From Stdlib Require Import Sorting.Sorted.
From S2P Require Import Prelude QuorumSet LocalNode Statement BitSet EvictionCache QuorumChecker QuorumSlices QuorumSearch QuorumNetwork.

Import Width.
Local Open Scope Z_scope.
#[local] Arguments wp : simpl never.

(** ** Ordered sets *)

Lemma elem_setInsert {A} (lt : A -> A -> bool) x l y :
  (forall a b, lt a b = false -> lt b a = false -> a = b) -> y ∈ setInsert lt x l <-> y = x \/ y ∈ l.
Proof.
  intros Htot. induction l as [|z l IH]; cbn; [rewrite list_elem_of_singleton, elem_of_nil; tauto|].
  destruct (lt x z) eqn:E1; [rewrite !elem_of_cons; tauto|]. destruct (lt z x) eqn:E2; [rewrite !elem_of_cons, IH; tauto|].
  rewrite (Htot x z E1 E2), !elem_of_cons. tauto.
Qed.

Lemma elem_nodeInsert k s x : x ∈ nodeInsert k s <-> x = k \/ x ∈ s.
Proof. apply elem_setInsert. intros a b H1 H2. rewrite Z.ltb_ge in H1, H2. lia. Qed.

Lemma groupLt_total a : forall b, groupLt a b = false -> groupLt b a = false -> a = b.
Proof.
  induction a as [|x a IH]; intros [|y b]; cbn; try done.
  destruct (Z.ltb_spec x y), (Z.ltb_spec y x); try done; try lia. intros H1 H2. assert (x = y) as -> by lia. f_equal. auto.
Qed.

Lemma elem_groupInsert g s x : x ∈ groupInsert g s <-> x = g \/ x ∈ s.
Proof. apply elem_setInsert. intros a b. apply groupLt_total. Qed.

Lemma nodeInsert_sorted k s : StronglySorted Z.lt s -> StronglySorted Z.lt (nodeInsert k s).
Proof.
  unfold nodeInsert. induction 1 as [|x s Hs IH Hx]; cbn; [by repeat constructor|].
  destruct (Z.ltb_spec k x).
  - constructor; [by constructor|]. constructor; [done|]. eapply Forall_impl; [exact Hx|]. intros y; cbn. lia.
  - destruct (Z.ltb_spec x k); [|by constructor]. constructor; [done|].
    apply Forall_forall. intros y Hy. apply elem_nodeInsert in Hy as [->|Hy]; [done|]. rewrite Forall_forall in Hx. auto.
Qed.

Lemma ltSorted_NoDup s : StronglySorted Z.lt s -> NoDup s.
Proof.
  induction 1 as [|x s _ IH Hx]; constructor; [|done]. intros Hin. rewrite Forall_forall in Hx. specialize (Hx x Hin). lia.
Qed.

Lemma insertAll_spec (v : list NodeID) : forall s, StronglySorted Z.lt s ->
  let r := foldl (fun inner k => nodeInsert k inner) s v in
  StronglySorted Z.lt r /\ forall x, x ∈ r <-> x ∈ s \/ x ∈ v.
Proof.
  induction v as [|k v IH]; intros s Hs; cbn; [split; [done|]; intros x; rewrite elem_of_nil; tauto|].
  destruct (IH (nodeInsert k s)) as [H1 H2]; [by apply nodeInsert_sorted|]. split; [exact H1|].
  intros x. etrans; [apply H2|]. rewrite elem_nodeInsert, elem_of_cons. tauto.
Qed.

(** ** The map of quorum sets *)

Section Map.
Context (qmap : list (NodeID * option SCPQuorumSet)).
Hypothesis qmap_keys : NoDup (fst <$> qmap).

(** The map with the group's entries replaced. *)
Definition override (fickle : SCPQuorumSet) (group : list NodeID) : list (NodeID * option SCPQuorumSet) :=
  (fun d => if decide (fst d ∈ group) then (fst d, Some fickle) else d) <$> qmap.

Lemma override_keys f group : fst <$> override f group = fst <$> qmap.
Proof using Type. unfold override. rewrite <- list_fmap_compose. apply list_fmap_ext. intros i d _. cbn. by destruct (decide _). Qed.

Lemma write_map (m : list (NodeID * option SCPQuorumSet)) k x :
  NoDup (fst <$> m) -> k ∈ fst <$> m -> qmapWrite k x m = (fun d => if decide (fst d = k) then (k, x) else d) <$> m.
Proof using Type.
  induction m as [|d m IH]; cbn; [by intros _ ?%elem_of_nil|]. intros Hd Hk. apply NoDup_cons in Hd as [Hn Hd].
  destruct (Z.eqb_spec (fst d) k) as [<-|Hne].
  - rewrite decide_True by done. f_equal. symmetry. rewrite <- (list_fmap_id m) at 2. apply list_fmap_ext. intros i e He. cbn.
    rewrite decide_False; [done|]. intros E. apply Hn. rewrite <- E. apply (list_elem_of_fmap_2 fst). by eapply list_elem_of_lookup_2.
  - rewrite decide_False by done. f_equal. apply IH; [done|]. apply elem_of_cons in Hk as [->|]; done.
Qed.

Lemma find_map k : k ∈ fst <$> qmap -> exists x, qmapFind k qmap = Some x /\ forall d, d ∈ qmap -> fst d = k -> d = (k, x).
Proof using qmap_keys.
  induction qmap as [|d m IH]; cbn; [by intros ?%elem_of_nil|]. cbn in qmap_keys. apply NoDup_cons in qmap_keys as [Hn Hd]. intros Hk.
  destruct (Z.eqb_spec (fst d) k) as [<-|Hne].
  - exists (snd d). split; [done|]. intros e He Ee. apply elem_of_cons in He as [->|He]; [by destruct d|].
    exfalso. apply Hn. rewrite <- Ee. by apply (list_elem_of_fmap_2 fst).
  - destruct IH as (x & Ex & Hx); [done|by apply elem_of_cons in Hk as [->|]|]. exists x. split; [done|].
    intros e He Ee. apply elem_of_cons in He as [->|He]; [done|auto].
Qed.

Lemma install_override f group : (forall k, k ∈ group -> k ∈ fst <$> qmap) -> installFickle f group qmap = override f group.
Proof using qmap_keys.
  intros Hin. unfold installFickle.
  assert (forall done todo, group = done ++ todo ->
    foldl (fun t candidate => qmapWrite candidate (Some f) t) (override f done) todo = override f (done ++ todo)) as H.
  2: { specialize (H [] group eq_refl). cbn in H. rewrite <- H. f_equal. unfold override. symmetry. rewrite <- (list_fmap_id qmap) at 2.
       apply list_fmap_ext. intros i d _. cbn. rewrite decide_False; [done|apply not_elem_of_nil]. }
  intros prev todo. revert prev. induction todo as [|k todo IH]; intros prev E; cbn; [by rewrite app_nil_r|].
  rewrite write_map; [|by rewrite override_keys|rewrite override_keys; apply Hin; rewrite E; set_solver].
  assert ((fun d => if decide (fst d = k) then (k, Some f) else d) <$> override f prev = override f (prev ++ [k])) as ->.
  { unfold override. rewrite <- list_fmap_compose. apply list_fmap_ext. intros i d _. cbn.
    destruct (decide (fst d ∈ prev)) as [Hp|Hp]; cbn; destruct (decide (fst d = k)) as [<-|Hne]; cbn.
    - rewrite decide_True by set_solver. done.
    - by rewrite decide_True by set_solver.
    - by rewrite decide_True by set_solver.
    - rewrite decide_False by set_solver. done. }
  rewrite IH by (by rewrite <- app_assoc). by rewrite <- app_assoc.
Qed.

(** Restoring the entries of the group gives the original map back. *)
Lemma restore_override f group :
  NoDup group -> (forall k, k ∈ group -> k ∈ fst <$> qmap) -> restoreGroup qmap group (override f group) = inr qmap.
Proof using qmap_keys.
  induction group as [|k group IH]; intros Hd Hin; cbn.
  - f_equal. unfold override. rewrite <- (list_fmap_id qmap) at 2. apply list_fmap_ext. intros i d _. cbn.
    rewrite decide_False; [done|apply not_elem_of_nil].
  - apply NoDup_cons in Hd as [Hk Hd]. destruct (find_map k) as (x & -> & Hx); [apply Hin; by left|].
    rewrite write_map; [|by rewrite override_keys|rewrite override_keys; apply Hin; by left].
    rewrite <- (IH Hd) by (intros j Hj; apply Hin; by right). f_equal. unfold override. rewrite <- list_fmap_compose.
    apply list_fmap_ext. intros i d Hd'. apply list_elem_of_lookup_2 in Hd'. cbn.
    destruct (decide (fst d = k)) as [E|Hne].
    + rewrite (decide_True (P := fst d ∈ k :: group)) by (rewrite E; by left). cbn. rewrite decide_True by done.
      rewrite decide_False by (rewrite E; done). symmetry. by apply Hx.
    + destruct (decide (fst d ∈ group)) as [Hg|Hg].
      * rewrite (decide_True (P := fst d ∈ k :: group)) by (by right). cbn. by rewrite decide_False.
      * rewrite (decide_False (P := fst d ∈ k :: group)) by (rewrite elem_of_cons; tauto). by rewrite decide_False.
Qed.

Lemma elem_override f group k q : (k, Some q) ∈ override f group -> (k ∈ group /\ q = f) \/ (k, Some q) ∈ qmap.
Proof using Type.
  unfold override. intros H. apply list_elem_of_fmap in H as (d & E & Hd). destruct (decide (fst d ∈ group)); [|right; by rewrite E].
  left. injection E as -> ->. done.
Qed.

End Map.

(** ** Candidates *)

Lemma insertSingles_spec (v : list NodeID) : forall cs x,
  x ∈ foldl (fun cs k => groupInsert [k] cs) cs v <-> x ∈ cs \/ exists k, k ∈ v /\ x = [k].
Proof.
  induction v as [|k v IH]; intros cs x; cbn.
  - split; [by left|]. intros [?|(k & Hk & _)]; [done|by apply elem_of_nil in Hk].
  - etrans; [apply IH|]. rewrite elem_groupInsert. split.
    + intros [[->|?]|(j & Hj & ->)]; [right; exists k; split; [by left|done]|by left|right; exists j; split; [by right|done]].
    + intros [?|(j & Hj & ->)]; [left; by right|]. apply elem_of_cons in Hj as [->|Hj]; [left; by left|right; by exists j].
Qed.

(** [q] is one of the inner sets of a quorum set, at any depth. *)
Inductive inner (q : SCPQuorumSet) : SCPQuorumSet -> Prop :=
  | inner_here t v i : q ∈ i -> inner q (QSet t v i)
  | inner_deep t v i r : r ∈ i -> inner q r -> inner q (QSet t v i).

(** The [std::set] of the members of [v]. *)
Definition groupOf (v G : list NodeID) : Prop := StronglySorted Z.lt G /\ forall k, k ∈ G <-> k ∈ v.

(** The groups a quorum set contributes: each validator by itself, and the validators
    of every inner set that has no inner sets of its own. *)
Definition contributes (q : SCPQuorumSet) (G : list NodeID) : Prop :=
  (exists k, k ∈ qset_nodes q /\ G = [k]) \/ (exists t v, inner (QSet t v []) q /\ groupOf v G).

(** The candidates: what the quorum sets of the network contribute. *)
Definition candidateGroup (qmap : list (NodeID * option SCPQuorumSet)) (G : list NodeID) : Prop :=
  exists n q, (n, Some q) ∈ qmap /\ contributes q G.

Lemma groupOf_insertAll v G : groupOf v G <-> G = foldl (fun inner k => nodeInsert k inner) [] v.
Proof.
  destruct (insertAll_spec v [] ltac:(constructor)) as [S1 S2]. split.
  - intros [HS HE]. apply (StronglySorted_unique_strong Z.lt); try done; [lia|].
    apply NoDup_Permutation; [by apply ltSorted_NoDup..|]. intros k. rewrite HE, S2, elem_of_nil. tauto.
  - intros ->. split; [done|]. intros k. rewrite S2, elem_of_nil. tauto.
Qed.

Lemma inner_inv q t v i : inner q (QSet t v i) <-> q ∈ i \/ exists r, r ∈ i /\ inner q r.
Proof.
  split.
  - intros H. inversion H; subst; eauto.
  - intros [?|(r & ? & ?)]; [by constructor|by eapply inner_deep].
Qed.

(** A loop that only adds to a set. *)
Lemma foldl_collect {A B} (f : list B -> A -> list B) (P : A -> B -> Prop) l :
  (forall cs x G, x ∈ l -> G ∈ f cs x <-> G ∈ cs \/ P x G) ->
  forall cs G, G ∈ foldl f cs l <-> G ∈ cs \/ exists x, x ∈ l /\ P x G.
Proof.
  induction l as [|x l IH]; intros H cs G; cbn.
  - split; [by left|]. intros [?|(x & Hx & _)]; [done|by apply elem_of_nil in Hx].
  - etrans; [apply IH; intros; apply H; by right|]. rewrite (H cs x G) by (by left).
    setoid_rewrite elem_of_cons. split.
    + intros [[?|?]|(y & ? & ?)]; eauto 6.
    + intros [?|(y & [->|?] & ?)]; eauto 6.
Qed.

Lemma findCandidates_iff p : forall cs root G,
  G ∈ findCriticalityCandidates p cs root <->
  G ∈ cs \/ contributes p G \/ (root = false /\ exists t v, p = QSet t v [] /\ groupOf v G).
Proof.
  induction p as [t v i IH] using qset_ind'. intros cs root G. cbn [findCriticalityCandidates].
  rewrite (foldl_collect _ (fun q G => contributes q G \/ exists t v, q = QSet t v [] /\ groupOf v G)).
  2: { intros cs' q G' Hq. rewrite Forall_forall in IH. rewrite (IH q Hq). naive_solver. }
  set (c1 := foldl (fun cs k => groupInsert [k] cs) cs v).
  assert (G ∈ c1 <-> G ∈ cs \/ exists k, k ∈ v /\ G = [k]) as H1 by apply insertSingles_spec.
  assert (G ∈ (if negb root && bool_decide (i = []) then groupInsert (foldl (fun inner k => nodeInsert k inner) [] v) c1 else c1) <->
    G ∈ c1 \/ (root = false /\ i = [] /\ groupOf v G)) as H2.
  { rewrite groupOf_insertAll. destruct root; cbn; [naive_solver|]. case_bool_decide; [rewrite elem_groupInsert|]; naive_solver. }
  rewrite H2, H1. clear H1 H2. unfold contributes. setoid_rewrite inner_inv. cbn [qset_nodes]. setoid_rewrite elem_of_app.
  assert (forall k, k ∈ concat (map qset_nodes i) <-> exists q, q ∈ i /\ k ∈ qset_nodes q) as Hc.
  { intros k. rewrite !list_elem_of_In, in_concat. setoid_rewrite in_map_iff. setoid_rewrite list_elem_of_In. naive_solver. }
  setoid_rewrite Hc. clear. split.
  - intros [[[?|(k & ? & ->)]|(-> & -> & ?)]|(q & Hq & [[(k & ? & ->)|(t' & v' & ? & ?)]|(t' & v' & -> & ?)])];
      [by left|..]; right; [left; left; eauto|right; eauto 6|left; left; eauto 6|left; right; eauto 8|left; right; eauto 8].
  - intros [?|[[(k & [?|(q & ? & ?)] & ->)|(t' & v' & [?|(r & ? & ?)] & ?)]|(-> & t' & v' & [= -> -> ->] & ?)]].
    + by do 3 left.
    + left; left; right. eauto.
    + right. exists q. split; [done|]. left. left. eauto.
    + right. eexists. split; [done|]. right. eauto.
    + right. exists r. split; [done|]. left. right. eauto.
    + left. right. done.
Qed.

(** The candidates the search examines. *)
Lemma allCandidates_iff qmap G : G ∈ allCandidates qmap <-> candidateGroup qmap G.
Proof.
  unfold allCandidates, candidateGroup.
  rewrite (foldl_collect _ (fun d G => exists q, snd d = Some q /\ contributes q G)).
  - rewrite elem_of_nil. split.
    + intros [[]|([n o] & Hd & q & Eo & Hc)]. cbn in Eo. subst. eauto.
    + intros (n & q & Hd & Hc). right. exists (n, Some q). eauto.
  - intros cs d G' _. destruct (snd d) as [q|]; [|naive_solver]. rewrite findCandidates_iff. naive_solver.
Qed.

Section Candidates.
(** Groups without repetitions, of nodes of the map. *)
Context (P : NodeID -> Prop).
Definition goodGroup (G : list NodeID) : Prop := NoDup G /\ forall k, k ∈ G -> P k.

Lemma inner_nodes q r k : inner q r -> k ∈ qset_nodes q -> k ∈ qset_nodes r.
Proof using Type.
  induction 1 as [t v i Hq|t v i r Hr Hi IH]; cbn; intros Hk; apply elem_of_app; right; rewrite list_elem_of_In, in_concat;
    eexists; (split; [apply in_map, list_elem_of_In; eassumption|apply list_elem_of_In; auto]).
Qed.

Lemma candidate_good qmap G :
  (forall k q n, (k, Some q) ∈ qmap -> n ∈ qset_nodes q -> P n) -> candidateGroup qmap G -> goodGroup G.
Proof using Type.
  intros HP (n & q & Hq & [(k & Hk & ->)|(t & v & Hi & HS & HE)]).
  - split; [apply NoDup_singleton|]. intros x Hx. apply list_elem_of_singleton in Hx as ->. eauto.
  - split; [by apply ltSorted_NoDup|]. intros k Hk. apply (HP n q k Hq). apply (inner_nodes (QSet t v [])); [done|].
    cbn. rewrite app_nil_r. by apply HE.
Qed.

End Candidates.

(** ** The fickle quorum set *)

Section Fickle.
Context (qmap : list (NodeID * option SCPQuorumSet)).

Lemma pointsTo_inner group cand l : forall s,
  StronglySorted Z.lt s -> (forall k, k ∈ s -> k ∉ group /\ k ∈ fst <$> qmap) -> (forall d, d ∈ l -> d ∈ qmap) ->
  let r := foldl (fun s d => match snd d with
    | Some q => if negb (existsb (Z.eqb (fst d)) group) && pointsToCandidate q cand then nodeInsert (fst d) s else s
    | None => s end) s l in
  StronglySorted Z.lt r /\ forall k, k ∈ r -> k ∉ group /\ k ∈ fst <$> qmap.
Proof.
  induction l as [|d l IH]; intros s Hs Hk Hl; cbn; [done|].
  assert (forall d, d ∈ l -> d ∈ qmap) as Hl' by (intros e He; apply Hl; by right).
  destruct (snd d) as [q|]; [|by apply IH]. destruct (negb (existsb (Z.eqb (fst d)) group) && pointsToCandidate q cand) eqn:E; [|by apply IH].
  apply IH; [by apply nodeInsert_sorted| |done]. intros k Hin. apply elem_nodeInsert in Hin as [->|Hin]; [|by apply Hk].
  apply andb_true_iff in E as [E _]. apply negb_true_iff in E. split.
  - intros Hg. enough (existsb (Z.eqb (fst d)) group = true) by congruence. apply existsb_exists. exists (fst d). by rewrite <- list_elem_of_In, Z.eqb_refl.
  - apply (list_elem_of_fmap_2 fst), Hl. by left.
Qed.

Lemma pointsToGroup_spec group :
  StronglySorted Z.lt (pointsToGroup qmap group) /\ forall k, k ∈ pointsToGroup qmap group -> k ∉ group /\ k ∈ fst <$> qmap.
Proof.
  unfold pointsToGroup. assert (forall s cs, StronglySorted Z.lt s -> (forall k, k ∈ s -> k ∉ group /\ k ∈ fst <$> qmap) ->
    let r := foldl (fun s candidate => foldl (fun s d => match snd d with
      | Some q => if negb (existsb (Z.eqb (fst d)) group) && pointsToCandidate q candidate then nodeInsert (fst d) s else s
      | None => s end) s qmap) s cs in
    StronglySorted Z.lt r /\ forall k, k ∈ r -> k ∉ group /\ k ∈ fst <$> qmap) as H.
  { intros s cs. revert s. induction cs as [|c cs IH]; intros s Hs Hk; cbn; [done|].
    destruct (pointsTo_inner group c qmap s Hs Hk) as [H1 H2]; [done|]. by apply IH. }
  apply H; [constructor|]. intros k Hk. by apply elem_of_nil in Hk.
Qed.

Lemma pointsToCandidate_iff q c : pointsToCandidate q c = true <-> c ∈ qset_nodes q.
Proof.
  induction q as [t v i IH] using qset_ind'. cbn. rewrite orb_true_iff, elem_of_app.
  assert (existsb (fun k => k =? c) v = true <-> c ∈ v) as ->.
  { rewrite existsb_exists, list_elem_of_In. setoid_rewrite Z.eqb_eq. naive_solver. }
  assert (existsb (fun q => pointsToCandidate q c) i = true <-> c ∈ concat (map qset_nodes i)) as ->; [|done].
  induction IH as [|q l Hq _ IHl]; cbn; [by rewrite elem_of_nil|]. by rewrite orb_true_iff, elem_of_app, Hq, IHl.
Qed.

(** A node outside the group whose quorum set names a member of it. *)
Definition dependsOn (d : NodeID) (group : list NodeID) : Prop :=
  d ∉ group /\ exists q c, (d, Some q) ∈ qmap /\ c ∈ group /\ c ∈ qset_nodes q.

Lemma pointsToGroup_iff group d : d ∈ pointsToGroup qmap group <-> dependsOn d group.
Proof.
  unfold pointsToGroup. rewrite (foldl_collect _ (fun c k => k ∉ group /\ exists q, (k, Some q) ∈ qmap /\ c ∈ qset_nodes q)).
  { unfold dependsOn. rewrite elem_of_nil. naive_solver. }
  intros s c k _. rewrite (foldl_collect _ (fun d k => k = fst d /\ k ∉ group /\ exists q, snd d = Some q /\ c ∈ qset_nodes q)).
  { split; intros [?|H]; [by left| |by left|]; right.
    - destruct H as ([n o] & Hd & -> & Hg & q & Eo & Hc). cbn in *. subst. eauto.
    - destruct H as (Hg & q & Hd & Hc). exists (k, Some q). eauto 6. }
  intros s' [n [q|]] k' _; cbn; [|naive_solver].
  assert (negb (existsb (Z.eqb n) group) = true <-> n ∉ group) as Hg.
  { rewrite negb_true_iff, <- not_true_iff_false, existsb_exists. setoid_rewrite <- list_elem_of_In.
    setoid_rewrite Z.eqb_eq. naive_solver. }
  destruct (negb (existsb (Z.eqb n) group) && pointsToCandidate q c) eqn:E.
  - apply andb_true_iff in E as [E1 E2]. apply Hg in E1. apply pointsToCandidate_iff in E2. rewrite elem_nodeInsert. naive_solver.
  - split; [by left|]. intros [?|(-> & H1 & q' & [= <-] & H2)]; [done|].
    apply Hg in H1. apply pointsToCandidate_iff in H2. by rewrite H1, H2 in E.
Qed.

Lemma fickle_checkable group :
  group <> [] -> NoDup group -> (forall k, k ∈ group -> k ∈ fst <$> qmap) ->
  2 * Z.of_nat (length qmap) + 2 <= INT32_MAX -> checkable (fickleQSet qmap group).
Proof.
  intros Hne Hd Hin Hsz. destruct (pointsToGroup_spec group) as [P1 P2].
  assert (forall l, NoDup l -> (forall k, k ∈ l -> k ∈ fst <$> qmap) -> Z.of_nat (length l) <= Z.of_nat (length qmap)) as Hlen.
  { intros l Hl Hsub. assert (length l <= length (fst <$> qmap))%nat as H; [|rewrite length_fmap in H; lia].
    apply submseteq_length, NoDup_submseteq; [done|]. exact Hsub. }
  pose proof (Hlen group Hd Hin) as H1. pose proof (Hlen (pointsToGroup qmap group) (ltSorted_NoDup _ P1) (fun k Hk => proj2 (P2 k Hk))) as H2.
  assert (1 <= Z.of_nat (length group)) as H3 by (destruct group; [done|cbn; lia]). unfold INT32_MAX in Hsz.
  unfold fickleQSet. rewrite u32_small by (unfold UINT32_MAX; lia). split.
  - split; [|cbn; unfold INT32_MAX; lia].
    cbn. rewrite !andb_true_iff, !Z.leb_le. unfold UINT32_MAX. lia.
  - cbn. rewrite !andb_true_iff, !Z.leb_le. lia.
  - cbn. rewrite !app_nil_r. apply NoDup_app. split_and!; [done| |by apply ltSorted_NoDup]. intros k Hk Hk'. by apply P2 in Hk' as [? _].
Qed.

End Fickle.

(** ** The search *)

Section Groups.
Context (qmap : list (NodeID * option SCPQuorumSet)).
Context (draw : nat -> Z -> Z -> Z) (hasher bucket : Z -> Z) (interrupted : list NodeID -> Z -> bool).

(** What the search is meant for. *)
Record Examined : Prop := {
  ex_keys : NoDup (fst <$> qmap);
  ex_checkable : forall k q, (k, Some q) ∈ qmap -> checkable q;
  ex_closed : forall k q n, (k, Some q) ∈ qmap -> n ∈ qset_nodes q -> n ∈ fst <$> qmap;
  ex_size : 2 * Z.of_nat (length qmap) + 2 <= INT32_MAX;
  ex_draws : DrawLaws draw;
  ex_hash : (length qmap <= 64)%nat \/ forall a b, sameKey hasher bucket a b = true -> toSet a = toSet b
}.

(** *** A fickle group, without its quorum set

    When the group is fickle, each of its members goes along with the whole group and
    any one node outside that depends on the group; everybody else is as before. *)
Definition fickleQuorum (group U : list NodeID) : Prop :=
  U <> [] /\ forall k, k ∈ U ->
    if decide (k ∈ group) then (forall g, g ∈ group -> g ∈ U) /\ exists d, d ∈ U /\ dependsOn qmap d group
    else exists q, (k, Some q) ∈ qmap /\ isQuorumSlice q U = true.

(** The fickle group splits the network: it belongs to two disjoint quorums, or lets
    there be two that are disjoint. *)
Definition splits (group : list NodeID) : Prop :=
  exists U V, fickleQuorum group U /\ fickleQuorum group V /\ forall k, k ∈ U -> k ∉ V.

Definition fickleMap (group : list NodeID) : list (NodeID * option SCPQuorumSet) :=
  installFickle (fickleQSet qmap group) group qmap.

Hypothesis Hex : Examined.

Definition stopped (f : fault) : Prop := f = Throw "InterruptedException" /\ exists G n, interrupted G n = true.

Lemma count_all {A} (f : A -> bool) l : LocalNode.count f l = Z.of_nat (length l) <-> forall x, x ∈ l -> f x = true.
Proof using Type.
  induction l as [|x l IH]; [split; [by intros _ x ?%elem_of_nil|done]|]. rewrite count_cons. pose proof (count_bounds f l).
  cbn [length]. setoid_rewrite elem_of_cons. destruct (f x) eqn:E.
  - rewrite Nat2Z.inj_succ. split; [intros Hc y [->|Hy]; [done|apply IH; [lia|done]]|].
    intros Hf. enough (LocalNode.count f l = Z.of_nat (length l)) by lia. apply IH. auto.
  - split; [lia|]. intros Hf. specialize (Hf x). rewrite E in Hf. by discriminate Hf; left.
Qed.

Lemma count_some {A} (f : A -> bool) l : 1 <= LocalNode.count f l <-> exists x, x ∈ l /\ f x = true.
Proof using Type.
  induction l as [|x l IH]; [split; [rewrite count_nil; lia|by intros (x & ?%elem_of_nil & _)]|]. rewrite count_cons. pose proof (count_bounds f l).
  setoid_rewrite elem_of_cons. destruct (f x) eqn:E; [split; [eauto|lia]|]. rewrite Z.add_0_l, IH. split; [intros (y & Hy & E2); eauto|intros (y & [->|Hy] & E2); [congruence|eauto]].
Qed.

Lemma fickle_slice group U :
  group <> [] -> NoDup group -> (forall k, k ∈ group -> k ∈ fst <$> qmap) ->
  isQuorumSlice (fickleQSet qmap group) U = true <->
  (forall g, g ∈ group -> g ∈ U) /\ exists d, d ∈ U /\ dependsOn qmap d group.
Proof using All.
  intros Hne Hd Hin.
  assert (checkable (fickleQSet qmap group)) as [Hr _ _] by (apply fickle_checkable; try done; apply Hex).
  unfold isQuorumSlice, fickleQSet in *. rewrite slice_unfold by done. apply qset_repr_Forall in Hr.
  apply Forall_cons in Hr as [H1 Hr]. apply Forall_cons in Hr as [H2 _].
  rewrite !count_cons, !slice_unfold, !count_nil by done. destruct (qset_repr_bounds _ _ _ H1) as [Ht _].
  assert (u32 (Z.of_nat (length group)) = Z.of_nat (length group)) as Eu by (apply u32_small; pose proof (qset_repr_bounds _ _ _ H1); cbn in *; unfold UINT32_MAX, INT32_MAX in *; lia).
  rewrite Eu. assert (eff_threshold (Z.of_nat (length group)) = Z.of_nat (length group)) as -> by (destruct group; done).
  change (eff_threshold 1) with 1. change (eff_threshold 2) with 2.
  pose proof (count_all (inNodes U) group) as Ha. pose proof (count_some (inNodes U) (pointsToGroup qmap group)) as Hs.
  pose proof (count_bounds (inNodes U) group). setoid_rewrite inNodes_In in Ha. setoid_rewrite inNodes_In in Hs.
  setoid_rewrite <- list_elem_of_In in Ha. setoid_rewrite <- list_elem_of_In in Hs. setoid_rewrite pointsToGroup_iff in Hs.
  assert ((exists d, d ∈ U /\ dependsOn qmap d group) <-> (exists d, dependsOn qmap d group /\ d ∈ U)) as -> by naive_solver.
  rewrite <- Ha, <- Hs. destruct (Z.leb_spec (Z.of_nat (length group)) (LocalNode.count (inNodes U) group + 0)),
    (Z.leb_spec 1 (LocalNode.count (inNodes U) (pointsToGroup qmap group) + 0)); cbn; split; try done; try lia.
Qed.

Lemma elem_override_iff f group k q :
  (forall x, x ∈ group -> x ∈ fst <$> qmap) ->
  (k, Some q) ∈ override qmap f group <-> if decide (k ∈ group) then q = f else (k, Some q) ∈ qmap.
Proof using Type.
  intros Hin. unfold override. rewrite list_elem_of_fmap. split.
  - intros ([n o] & E & Hd). cbn in E. destruct (decide (n ∈ group)); injection E as -> E; [rewrite decide_True by done; congruence|].
    rewrite decide_False by done. congruence.
  - destruct (decide (k ∈ group)) as [Hk|Hk].
    + intros ->. pose proof (Hin k Hk) as (d & -> & Hd)%list_elem_of_fmap. exists d. split; [by rewrite decide_True|done].
    + intros Hd. exists (k, Some q). cbn. by rewrite decide_False.
Qed.

(** The quorums of the map the search makes are those of a fickle group. *)
Lemma fickle_quorums group U :
  goodGroup (fun k => k ∈ fst <$> qmap) group -> netQuorum (fickleMap group) U <-> fickleQuorum group U.
Proof using All.
  intros [Hd Hin]. unfold netQuorum, fickleQuorum, fickleMap. rewrite install_override by (done || apply Hex).
  setoid_rewrite elem_override_iff; [|done]. split; intros [Hne H]; (split; [done|]); intros k Hk; specialize (H k Hk).
  - destruct H as (q & Hq & Hs). destruct (decide (k ∈ group)) as [Hg|Hg]; [subst q|by eauto].
    apply (fickle_slice group); try done. intros ->. by apply elem_of_nil in Hg.
  - destruct (decide (k ∈ group)) as [Hg|Hg]; [|done]. exists (fickleQSet qmap group). split; [done|].
    apply (fickle_slice group); try done. intros ->. by apply elem_of_nil in Hg.
Qed.

Lemma trial_spec group e :
  goodGroup (fun k => k ∈ fst <$> qmap) group ->
  wp stopped (checkNetwork draw hasher bucket (interrupted group) (fickleMap group)) (fun r _ => r = false <-> splits group) e.
Proof using All.
  intros Hgood. pose proof Hgood as [Hd Hin]. pose proof Hex as [K1 K2 K3 K4 K5 K6].
  assert (fickleMap group = override qmap (fickleQSet qmap group) group) as Em by by apply install_override.
  assert (NoDup (fst <$> fickleMap group)) as Hk by (rewrite Em, override_keys; done).
  assert (forall k q, (k, Some q) ∈ fickleMap group -> checkable q) as Hc.
  { intros k q H. rewrite Em in H. apply elem_override in H as [[Hg ->]|H]; [|by eapply K2].
    apply fickle_checkable; try done. intros ->. by apply elem_of_nil in Hg. }
  assert (length (fickleMap group) = length qmap) as Hl.
  { rewrite <- (length_fmap fst), Em, override_keys. by rewrite length_fmap. }
  assert ((length (nodeKeys (fickleMap group)) <= 64)%nat \/ forall a b, sameKey hasher bucket a b = true -> toSet a = toSet b) as Hh.
  { destruct K6 as [H|H]; [left|by right]. etrans; [by apply knownNodes_length|lia]. }
  pose proof (check_spec (fickleMap group) Hk Hc draw hasher bucket (interrupted group) K5 Hh e) as H.
  unfold wp, checkNetwork. destruct (bnd (buildChecker (fickleMap group)) _ (initialChecker e)) as [[] c|f c].
  - split; [done|]. intros (U & V & HU%fickle_quorums & HV%fickle_quorums & Hdis); [|done|done].
    destruct (H U V HU HV) as (k & H1 & H2). by apply Hdis in H1.
  - split; [|done]. intros _. exists (fst (mPotentialSplit c)), (snd (mPotentialSplit c)).
    destruct H as (H1%fickle_quorums & H2%fickle_quorums & H3); [|done|done]. done.
  - destruct H as [-> [n Hn]]. split; [done|]. by exists group, n.
Qed.

Lemma groupLoop_spec cands : forall crit e,
  Forall (goodGroup (fun k => k ∈ fst <$> qmap)) cands ->
  wp stopped (groupLoop draw hasher bucket interrupted qmap cands qmap crit)
    (fun r _ => forall G, G ∈ r <-> G ∈ crit \/ (G ∈ cands /\ splits G)) e.
Proof using All.
  induction cands as [|group cands IH]; intros crit e Hg; cbn.
  { apply wp_ret. intros G. split; [by left|]. intros [?|[H _]]; [done|by apply elem_of_nil in H]. }
  apply Forall_cons in Hg as [Hg Hgs]. apply wp_bind. eapply wp_mono; [by apply trial_spec|]. intros r e' Hr.
  pose proof Hg as [Hd Hin]. rewrite install_override by (apply Hex || done). rewrite restore_override by (apply Hex || done).
  eapply wp_mono; [by apply IH|]. intros res e'' Hres G. cbn beta in Hr, Hres. rewrite Hres, elem_of_cons. destruct r.
  - split; [intuition|]. intros [?|[[->|?] Hs]]; [by left|by apply Hr in Hs|by right].
  - rewrite elem_groupInsert. split; [|intuition]. intros [[->|?]|[? ?]]; [right; split; [by left|by apply Hr]|by left|right; split; [by right|done]].
Qed.

End Groups.

(** C26: The groups reported as intersection-critical are exactly the candidate groups
    whose fickleness splits the network.  The candidates are each validator of a quorum
    set by itself and the validators of each inner set that has none of its own; a group
    is fickle when its members need only the whole group and any one outside node that
    depends on it, and it splits the network when there are then two disjoint quorums.
    The map has distinct keys and every node named in it is a key; its quorum sets have
    positive thresholds and name no node twice; there are at most 64 nodes, or the key of
    the cache has no collisions; random draws stay in their range.  The search fails only when it is interrupted, and
    what one trial changes in the map does not reach the next. *)
Theorem getIntersectionCriticalGroups_exact (qmap : list (NodeID * option SCPQuorumSet))
    (draw : nat -> Z -> Z -> Z) (hasher bucket : Z -> Z) (interrupted : list NodeID -> Z -> bool) (e : nat)
    (Hex : Examined qmap draw hasher bucket) :
  match getIntersectionCriticalGroups draw hasher bucket interrupted qmap e with
  | Ok critical _ => forall G, G ∈ critical <-> candidateGroup qmap G /\ splits qmap G
  | Err f _ => f = Throw "InterruptedException" /\ exists G n, interrupted G n = true
  end.
Proof.
  pose proof (groupLoop_spec qmap draw hasher bucket interrupted Hex (allCandidates qmap) [] e) as H.
  unfold getIntersectionCriticalGroups, wp in *. destruct (groupLoop _ _ _ _ _ _ _ _ _) as [r e'|f e'].
  2: { apply H, Forall_forall. intros G HG. apply allCandidates_iff in HG. eapply candidate_good, HG. apply Hex. }
  intros G. etrans; [apply H|].
  - apply Forall_forall. intros G' HG. apply allCandidates_iff in HG. eapply candidate_good, HG. apply Hex.
  - rewrite allCandidates_iff, elem_of_nil. naive_solver.
Qed.

(** Three nodes that need one another pairwise, and a fourth that needs node 3. *)
Definition trio : list (NodeID * option SCPQuorumSet) :=
  [(1, Some (QSet 2 [1; 2; 3] [])); (2, Some (QSet 2 [1; 2; 3] [])); (3, Some (QSet 3 [1; 2; 3] [])); (4, Some (QSet 2 [3; 4] []))].

Lemma trio_examined : Examined trio lowest id id.
Proof.
  assert (forall k q, (k, Some q) ∈ trio -> q = QSet 2 [1; 2; 3] [] \/ q = QSet 3 [1; 2; 3] [] \/ q = QSet 2 [3; 4] []) as Hq.
  { intros k q H. unfold trio in H. rewrite !elem_of_cons, elem_of_nil in H. naive_solver. }
  split.
  - by apply (bool_decide_eq_true_1 (NoDup trio.*1)).
  - intros k q H. apply Hq in H as [->|[->| ->]];
      (apply checkable_compute; [split; [reflexivity|vm_compute; discriminate]|reflexivity|reflexivity]).
  - intros k q n H. cbn [fst trio fmap list_fmap]. apply Hq in H as [->|[->| ->]]; cbn [qset_nodes map concat app]; rewrite !elem_of_cons, elem_of_nil; lia.
  - vm_compute. discriminate.
  - apply lowest_laws.
  - left. vm_compute. lia.
Qed.

Lemma getIntersectionCriticalGroups_exact_witness :
  splits trio [3] /\ ~ splits trio [4].
Proof.
  pose proof (getIntersectionCriticalGroups_exact trio lowest id id (fun _ _ => false) 0 trio_examined) as H.
  assert (getIntersectionCriticalGroups lowest id id (fun _ _ => false) trio 0%nat = Ok [[3]] 33%nat) as E by (vm_compute; reflexivity).
  rewrite E in H. split.
  - apply (H [3]). by left.
  - intros Hs. assert ([4] ∈ [[3]]) as Hin by (apply H; split; [|done]; apply allCandidates_iff; vm_compute allCandidates; rewrite !elem_of_cons; tauto).
    by apply list_elem_of_singleton in Hin.
Defined.
