(* ===== verification/BucketEntries.v ===== *)
(** * Bucket entries and their order

    The records a bucket consists of ([Hcnet-ledger.x]) and the order buckets are
    sorted by ([bucket/LedgerCmp.h], over xdrpp's comparison of structures and
    unions): two entries are compared by the key they are about, never by their
    contents, and the metadata record comes before all others.  The order is
    total on keys, which is what lets a merge be a single pass. *)

From stdpp Require Import base list gmap strings countable.
From Stdlib Require Import Structures.OrderedTypeEx.
From S2P Require Import Prelude Exchange Entries.

Local Open Scope Z_scope.

(** ** Strict total orders as boolean functions *)

Class StrictTotal {A} (lt : A -> A -> bool) : Prop := {
  lt_irrefl x : lt x x = false;
  lt_trans x y z : lt x y = true -> lt y z = true -> lt x z = true;
  lt_total x y : lt x y = false -> lt y x = false -> x = y
}.

Section Orders.
Context {A : Type} (lt : A -> A -> bool) `{!StrictTotal lt}.

Lemma lt_asym x y : lt x y = true -> lt y x = false.
Proof using All.
  intros H. destruct (lt y x) eqn:E; [|done]. pose proof (lt_trans _ _ _ H E) as F.
  by rewrite lt_irrefl in F.
Qed.

Lemma lt_neq x y : lt x y = true -> x <> y.
Proof using All. intros H ->. by rewrite lt_irrefl in H. Qed.

End Orders.

#[export] Instance Z_strict : StrictTotal Z.ltb.
Proof. split; intros; [apply Z.ltb_irrefl|rewrite Z.ltb_lt in *; lia|rewrite Z.ltb_ge in *; lia]. Qed.

(** [lexCompare] of two pairs of values, the first deciding unless equal. *)
Definition lexCompare {A B} (ltA : A -> A -> bool) (ltB : B -> B -> bool)
    (lhs1 rhs1 : A) (lhs2 rhs2 : B) : bool :=
  if ltA lhs1 rhs1 then true else if ltA rhs1 lhs1 then false else ltB lhs2 rhs2.

#[export] Instance lex_strict {A B} (ltA : A -> A -> bool) (ltB : B -> B -> bool) :
  StrictTotal ltA -> StrictTotal ltB ->
  StrictTotal (fun p q => lexCompare ltA ltB p.1 q.1 p.2 q.2).
Proof.
  intros HA HB. split; unfold lexCompare.
  - intros x. rewrite !lt_irrefl. done.
  - intros [x1 x2] [y1 y2] [z1 z2]; cbn.
    destruct (ltA x1 y1) eqn:E1, (ltA y1 z1) eqn:E2.
    + by rewrite (lt_trans _ _ _ E1 E2).
    + destruct (ltA z1 y1) eqn:E3; [done|]. rewrite <- (lt_total _ _ E2 E3). by rewrite E1.
    + destruct (ltA y1 x1) eqn:E3; [done|]. rewrite (lt_total _ _ E1 E3). by rewrite E2.
    + destruct (ltA y1 x1) eqn:E3; [done|]. rewrite (lt_total _ _ E1 E3), E2.
      destruct (ltA z1 y1); [done|]. apply lt_trans.
  - intros [x1 x2] [y1 y2]; cbn. destruct (ltA x1 y1) eqn:E1, (ltA y1 x1) eqn:E2; try done.
    rewrite (lt_total _ _ E1 E2). intros H1 H2. by rewrite (lt_total _ _ H1 H2).
Qed.

(** Arrays of bytes, in lexicographic order. *)
Fixpoint bytesLt (a b : list Z) : bool :=
  match a, b with
  | [], [] => false
  | [], _ :: _ => true
  | _ :: _, [] => false
  | x :: a, y :: b => if x <? y then true else if y <? x then false else bytesLt a b
  end.

#[export] Instance bytes_strict : StrictTotal bytesLt.
Proof.
  split.
  - induction x as [|x a IH]; cbn; [done|]. by rewrite Z.ltb_irrefl.
  - induction x as [|x a IH]; intros [|y b] [|z c]; cbn; try done.
    repeat match goal with |- context [?u <? ?v] => destruct (Z.ltb_spec u v) end; try done; try lia.
    apply IH.
  - induction x as [|x a IH]; intros [|y b]; cbn; try done.
    destruct (Z.ltb_spec x y), (Z.ltb_spec y x); try done.
    intros H1 H2. f_equal; [lia|by apply IH].
Qed.

#[export] Instance string_strict : StrictTotal String.ltb.
Proof.
  split; unfold String.ltb.
  - intros x. pose proof (proj2 (String_as_OT.cmp_eq x x) eq_refl) as H. unfold String_as_OT.cmp in H. by rewrite H.
  - intros x y z. destruct (String.compare x y) eqn:E1, (String.compare y z) eqn:E2; try done.
    intros _ _. apply String_as_OT.cmp_lt in E1, E2.
    pose proof (proj2 (String_as_OT.cmp_lt x z) (String_as_OT.lt_trans _ _ _ E1 E2)) as H.
    unfold String_as_OT.cmp in H. by rewrite H.
  - intros x y. destruct (String.compare x y) eqn:E; [intros; by apply String.compare_eq_iff|done|].
    rewrite String.compare_antisym, E. done.
Qed.

(** ** The order of keys *)

(** The discriminants of the asset union. *)
Definition trustLineAssetType (a : TrustLineAsset) : Z :=
  match a with
  | TL_NATIVE => 0
  | TL_CREDIT_ALPHANUM4 _ _ => 1
  | TL_CREDIT_ALPHANUM12 _ _ => 2
  | TL_POOL_SHARE _ => 3
  end.

(** xdrpp's [operator<] on the asset union: the discriminants first, then the arm;
    the arms that are structures field by field. *)
Definition trustLineAssetLt (a b : TrustLineAsset) : bool :=
  if trustLineAssetType a <? trustLineAssetType b then true
  else if trustLineAssetType b <? trustLineAssetType a then false
  else match a, b with
       | TL_CREDIT_ALPHANUM4 c i, TL_CREDIT_ALPHANUM4 c' i' => lexCompare bytesLt Z.ltb c c' i i'
       | TL_CREDIT_ALPHANUM12 c i, TL_CREDIT_ALPHANUM12 c' i' => lexCompare bytesLt Z.ltb c c' i i'
       | TL_POOL_SHARE p, TL_POOL_SHARE p' => p <? p'
       | _, _ => false
       end.

Notation assetPair := (fun p q : list Z * Z => lexCompare bytesLt Z.ltb p.1 q.1 p.2 q.2).

#[export] Instance trustLineAsset_strict : StrictTotal trustLineAssetLt.
Proof.
  split.
  - intros []; cbn; try done; try apply Z.ltb_irrefl; apply (lt_irrefl (lt := assetPair) (_, _)).
  - intros [|c i|c i|p] [|c' i'|c' i'|p'] [|c'' i''|c'' i''|p'']; cbn; try done;
      [apply (lt_trans (lt := assetPair) (c, i) (c', i') (c'', i''))
      |apply (lt_trans (lt := assetPair) (c, i) (c', i') (c'', i''))|apply lt_trans].
  - intros [|c i|c i|p] [|c' i'|c' i'|p']; cbn; try done; intros H1 H2;
      [pose proof (lt_total (lt := assetPair) (c, i) (c', i') H1 H2)
      |pose proof (lt_total (lt := assetPair) (c, i) (c', i') H1 H2)|pose proof (lt_total _ _ H1 H2)];
      congruence.
Qed.

(** [LedgerEntryType], the discriminant of entries and keys alike. *)
Definition LedgerEntryType (k : LedgerKey) : Z :=
  match k with
  | KEY_ACCOUNT _ => 0
  | KEY_TRUSTLINE _ _ => 1
  | KEY_OFFER _ _ => 2
  | KEY_DATA _ _ => 3
  | KEY_CLAIMABLE_BALANCE _ => 4
  | KEY_LIQUIDITY_POOL _ => 5
  end.

(** The comparison reads the same fields of an entry as of a key, so it is written
    on keys, and an entry stands for its own ([LedgerEntryKey]). *)
Definition LedgerEntryIdCmp (a b : LedgerKey) : bool :=
  let aty := LedgerEntryType a in
  let bty := LedgerEntryType b in
  if aty <? bty then true
  else if bty <? aty then false
  else match a, b with
       | KEY_ACCOUNT i, KEY_ACCOUNT i' => i <? i'
       | KEY_TRUSTLINE i s, KEY_TRUSTLINE i' s' => lexCompare Z.ltb trustLineAssetLt i i' s s'
       | KEY_OFFER i o, KEY_OFFER i' o' => lexCompare Z.ltb Z.ltb i i' o o'
       | KEY_DATA i n, KEY_DATA i' n' => lexCompare Z.ltb String.ltb i i' n n'
       | KEY_CLAIMABLE_BALANCE c, KEY_CLAIMABLE_BALANCE c' => c <? c'
       | KEY_LIQUIDITY_POOL p, KEY_LIQUIDITY_POOL p' => p <? p'
       | _, _ => false
       end.

Section LedgerKeys.

Local Notation lex ltB := (fun p q => lexCompare Z.ltb ltB p.1 q.1 p.2 q.2).

#[export] Instance LedgerEntryIdCmp_strict : StrictTotal LedgerEntryIdCmp.
Proof.
  split.
  - intros []; cbn; try apply Z.ltb_irrefl;
      [apply (lt_irrefl (lt := lex trustLineAssetLt) (_, _))
      |apply (lt_irrefl (lt := lex Z.ltb) (_, _))|apply (lt_irrefl (lt := lex String.ltb) (_, _))].
  - intros [i|i s|i o|i n|c|p] [i'|i' s'|i' o'|i' n'|c'|p'] [i''|i'' s''|i'' o''|i'' n''|c''|p''];
      cbn; try done; try apply lt_trans;
      [apply (lt_trans (lt := lex trustLineAssetLt) (i, s) (i', s') (i'', s''))
      |apply (lt_trans (lt := lex Z.ltb) (i, o) (i', o') (i'', o''))
      |apply (lt_trans (lt := lex String.ltb) (i, n) (i', n') (i'', n''))].
  - intros [i|i s|i o|i n|c|p] [i'|i' s'|i' o'|i' n'|c'|p']; cbn; try done; intros H1 H2;
      [pose proof (lt_total _ _ H1 H2)
      |pose proof (lt_total (lt := lex trustLineAssetLt) (i, s) (i', s') H1 H2)
      |pose proof (lt_total (lt := lex Z.ltb) (i, o) (i', o') H1 H2)
      |pose proof (lt_total (lt := lex String.ltb) (i, n) (i', n') H1 H2)
      |pose proof (lt_total _ _ H1 H2)|pose proof (lt_total _ _ H1 H2)]; congruence.
Qed.

End LedgerKeys.

(** ** Bucket entries *)

Record BucketMetadata := mkMeta { meta_ledgerVersion : Z }.

Inductive BucketEntry :=
  | LIVEENTRY (liveEntry : LedgerEntry)
  | INITENTRY (liveEntry : LedgerEntry)
  | DEADENTRY (deadEntry : LedgerKey)
  | METAENTRY (metaEntry : BucketMetadata).

Definition BucketEntryType (e : BucketEntry) : Z :=
  match e with
  | METAENTRY _ => -1
  | LIVEENTRY _ => 0
  | DEADENTRY _ => 1
  | INITENTRY _ => 2
  end.

Definition isMETA (e : BucketEntry) : bool := match e with METAENTRY _ => true | _ => false end.
Definition isINIT (e : BucketEntry) : bool := match e with INITENTRY _ => true | _ => false end.
Definition isDEAD (e : BucketEntry) : bool := match e with DEADENTRY _ => true | _ => false end.

(** The key an entry is about; the metadata record has none. *)
Definition bucketKey (e : BucketEntry) : option LedgerKey :=
  match e with
  | LIVEENTRY e | INITENTRY e => Some (LedgerEntryKey e)
  | DEADENTRY k => Some k
  | METAENTRY _ => None
  end.

(** The tests of the source that throw for a fifth kind of entry cannot fire. *)
Definition BucketEntryIdCmp (a b : BucketEntry) : bool :=
  match a, b with
  | METAENTRY _, _ | _, METAENTRY _ => BucketEntryType a <? BucketEntryType b
  | (LIVEENTRY x | INITENTRY x), (LIVEENTRY y | INITENTRY y) =>
      LedgerEntryIdCmp (LedgerEntryKey x) (LedgerEntryKey y)
  | (LIVEENTRY x | INITENTRY x), DEADENTRY y => LedgerEntryIdCmp (LedgerEntryKey x) y
  | DEADENTRY x, (LIVEENTRY y | INITENTRY y) => LedgerEntryIdCmp x (LedgerEntryKey y)
  | DEADENTRY x, DEADENTRY y => LedgerEntryIdCmp x y
  end.

(** The order is the order of keys, the metadata below all of them. *)
Lemma idCmp_keys a b :
  BucketEntryIdCmp a b =
  match bucketKey a, bucketKey b with
  | Some k, Some k' => LedgerEntryIdCmp k k'
  | None, Some _ => true
  | _, None => false
  end.
Proof. by destruct a, b. Qed.

Lemma idCmp_irrefl a : BucketEntryIdCmp a a = false.
Proof. rewrite idCmp_keys. destruct (bucketKey a); [apply lt_irrefl|done]. Qed.

Lemma idCmp_trans a b c :
  BucketEntryIdCmp a b = true -> BucketEntryIdCmp b c = true -> BucketEntryIdCmp a c = true.
Proof.
  rewrite !idCmp_keys. destruct (bucketKey a), (bucketKey b), (bucketKey c); try done. apply lt_trans.
Qed.

Lemma idCmp_asym a b : BucketEntryIdCmp a b = true -> BucketEntryIdCmp b a = false.
Proof.
  intros H. destruct (BucketEntryIdCmp b a) eqn:E; [|done]. pose proof (idCmp_trans _ _ _ H E) as F.
  by rewrite idCmp_irrefl in F.
Qed.

Lemma idCmp_eq a b :
  BucketEntryIdCmp a b = false -> BucketEntryIdCmp b a = false -> bucketKey a = bucketKey b.
Proof.
  rewrite !idCmp_keys. destruct (bucketKey a), (bucketKey b); try done.
  intros H1 H2. f_equal. by apply (lt_total (lt := LedgerEntryIdCmp)).
Qed.

Lemma idCmp_key a a' b :
  bucketKey a = bucketKey a' -> BucketEntryIdCmp a b = BucketEntryIdCmp a' b.
Proof. intros H. by rewrite !idCmp_keys, H. Qed.

Lemma idCmp_key_r a b b' :
  bucketKey b = bucketKey b' -> BucketEntryIdCmp a b = BucketEntryIdCmp a b'.
Proof. intros H. by rewrite !idCmp_keys, H. Qed.
