(* ===== verification/Bucket.v ===== *)
(** * Buckets: reading, writing and merging

    A bucket is an immutable file of records in increasing order of key.  This file
    models the cursor that reads one ([bucket/BucketInputIterator.cpp]), the writer
    that buffers one record and collapses repeated keys
    ([bucket/BucketOutputIterator.cpp]), the building of a bucket from the changes
    of one ledger and the single-pass merge of an older with a newer bucket
    ([bucket/Bucket.cpp]).  The file is the list of its records; the empty bucket,
    which has no file, is the empty list. *)

From stdpp Require Import base list gmap strings sorting.
From S2P Require Import Prelude Exchange Entries BucketEntries.

Local Open Scope Z_scope.

Definition FIRST_PROTOCOL_SUPPORTING_INITENTRY_AND_METAENTRY : Z := 11.
Definition FIRST_PROTOCOL_SHADOWS_REMOVED : Z := 12.

(** ** Merge counters *)

Inductive MergeCounter :=
  | mPreInitEntryProtocolMerges | mPostInitEntryProtocolMerges
  | mRunningMergeReattachments | mFinishedMergeReattachments
  | mPreShadowRemovalProtocolMerges | mPostShadowRemovalProtocolMerges
  | mNewMetaEntries | mNewInitEntries | mNewLiveEntries | mNewDeadEntries
  | mOldMetaEntries | mOldInitEntries | mOldLiveEntries | mOldDeadEntries
  | mOldEntriesDefaultAccepted | mNewEntriesDefaultAccepted
  | mNewInitEntriesMergedWithOldDead | mOldInitEntriesMergedWithNewLive
  | mOldInitEntriesMergedWithNewDead | mNewEntriesMergedWithOldNeitherInit
  | mShadowScanSteps | mMetaEntryShadowElisions | mLiveEntryShadowElisions
  | mInitEntryShadowElisions | mDeadEntryShadowElisions
  | mOutputIteratorTombstoneElisions | mOutputIteratorBufferUpdates | mOutputIteratorActualWrites.

#[export] Instance MergeCounter_eq_dec : EqDecision MergeCounter.
Proof. solve_decision. Defined.

(** The structure of counters, by the name of the field. *)
Definition MergeCounters : Type := MergeCounter -> Z.
Definition zeroCounters : MergeCounters := fun _ => 0.
Definition bump (c : MergeCounter) (mc : MergeCounters) : MergeCounters :=
  fun c' => if decide (c = c') then u64 (mc c + 1) else mc c'.
Definition addCounters (mc delta : MergeCounters) : MergeCounters :=
  fun c => u64 (mc c + delta c).

Definition countShadowedEntryType (e : BucketEntry) : MergeCounter :=
  match e with
  | METAENTRY _ => mMetaEntryShadowElisions
  | INITENTRY _ => mInitEntryShadowElisions
  | LIVEENTRY _ => mLiveEntryShadowElisions
  | DEADENTRY _ => mDeadEntryShadowElisions
  end.
Definition countOldEntryType (e : BucketEntry) : MergeCounter :=
  match e with
  | METAENTRY _ => mOldMetaEntries
  | INITENTRY _ => mOldInitEntries
  | LIVEENTRY _ => mOldLiveEntries
  | DEADENTRY _ => mOldDeadEntries
  end.
Definition countNewEntryType (e : BucketEntry) : MergeCounter :=
  match e with
  | METAENTRY _ => mNewMetaEntries
  | INITENTRY _ => mNewInitEntries
  | LIVEENTRY _ => mNewLiveEntries
  | DEADENTRY _ => mNewDeadEntries
  end.

Definition checkProtocolLegality (entry : BucketEntry) (protocolVersion : Z) : exc unit :=
  if protocolVersionIsBefore protocolVersion FIRST_PROTOCOL_SUPPORTING_INITENTRY_AND_METAENTRY
     && (isINIT entry || isMETA entry)
  then exc_throw (Throw "unsupported entry type in bucket") else mret tt.

(** ** Reading *)

(** [mIn] is what is still to be read of the file, [mEntryPtr] the record the
    cursor stands on. *)
Record BucketInputIterator := mkInput {
  mEntryPtr : option BucketEntry;
  mIn : list BucketEntry;
  mSeenMetadata : bool;
  mSeenOtherEntries : bool;
  mMetadata : BucketMetadata
}.

Fixpoint loadEntry (file : list BucketEntry) (seenMeta seenOther : bool) (meta : BucketMetadata)
    : exc BucketInputIterator :=
  match file with
  | [] => mret (mkInput None [] seenMeta seenOther meta)
  | METAENTRY m :: rest =>
      if seenMeta then exc_throw (Throw "Malformed bucket: multiple META entries.")
      else if seenOther then exc_throw (Throw "Malformed bucket: META after other entries.")
      else loadEntry rest true seenOther m
  | e :: rest =>
      do* (if seenMeta then checkProtocolLegality e (meta_ledgerVersion meta) else mret tt) in
      mret (mkInput (Some e) rest seenMeta true meta)
  end.

Definition openBucket (file : list BucketEntry) : exc BucketInputIterator :=
  loadEntry file false false (mkMeta 0).

Definition nextEntry (it : BucketInputIterator) : exc BucketInputIterator :=
  loadEntry (mIn it) (mSeenMetadata it) (mSeenOtherEntries it) (mMetadata it).

Definition inputVersion (it : BucketInputIterator) : Z := meta_ledgerVersion (mMetadata it).

Definition getBucketVersion (file : list BucketEntry) : exc Z :=
  let* it := openBucket file in mret (inputVersion it).

Fixpoint containsLoop (fuel : nat) (it : BucketInputIterator) (id : BucketEntry) : exc bool :=
  match fuel, mEntryPtr it with
  | _, None => mret false
  | O, _ => exc_throw OutOfFuel
  | S n, Some e =>
      if negb (BucketEntryIdCmp e id || BucketEntryIdCmp id e) then mret true
      else let* it := nextEntry it in containsLoop n it id
  end.

Definition containsBucketIdentity (file : list BucketEntry) (id : BucketEntry) : exc bool :=
  let* it := openBucket file in containsLoop (S (length file)) it id.

(** ** Writing *)

(** [mOut] is what has been written to the file.  The counters are the ones the
    merge passed by reference. *)
Record BucketOutputIterator := mkOutput {
  mOut : list BucketEntry;
  mBuf : option BucketEntry;
  mKeepDeadEntries : bool;
  mMeta : BucketMetadata;
  mPutMeta : bool;
  mMergeCounters : MergeCounters
}.

Definition setOut f (o : BucketOutputIterator) :=
  mkOutput (f (mOut o)) (mBuf o) (mKeepDeadEntries o) (mMeta o) (mPutMeta o) (mMergeCounters o).
Definition setBuf b (o : BucketOutputIterator) :=
  mkOutput (mOut o) b (mKeepDeadEntries o) (mMeta o) (mPutMeta o) (mMergeCounters o).
Definition setPutMeta b (o : BucketOutputIterator) :=
  mkOutput (mOut o) (mBuf o) (mKeepDeadEntries o) (mMeta o) b (mMergeCounters o).
Definition setCounters mc (o : BucketOutputIterator) :=
  mkOutput (mOut o) (mBuf o) (mKeepDeadEntries o) (mMeta o) (mPutMeta o) mc.
Definition countOut c (o : BucketOutputIterator) := setCounters (bump c (mMergeCounters o)) o.

(** [BucketOutputIterator::put]: the new record flushes a smaller one from the
    buffer and replaces one with the same key. *)
Definition putEntry (e : BucketEntry) (o : BucketOutputIterator) : exc BucketOutputIterator :=
  do* checkProtocolLegality e (meta_ledgerVersion (mMeta o)) in
  do* (if isMETA e && mPutMeta o
       then exc_throw (Throw "putting META entry in bucket after initial entry") else mret tt) in
  if negb (mKeepDeadEntries o) && isDEAD e then mret (countOut mOutputIteratorTombstoneElisions o)
  else
    let* o := match mBuf o with
              | Some buf =>
                  do* releaseAssert (negb (BucketEntryIdCmp e buf)) "!mCmp(e, *mBuf)" in
                  mret (if BucketEntryIdCmp buf e
                        then setOut (fun w => w ++ [buf]) (countOut mOutputIteratorActualWrites o)
                        else o)
              | None => mret o
              end in
    mret (setBuf (Some e) (countOut mOutputIteratorBufferUpdates o)).

Definition openOutput (keepDeadEntries : bool) (meta : BucketMetadata) (mc : MergeCounters)
    : exc BucketOutputIterator :=
  let o := mkOutput [] None keepDeadEntries meta false mc in
  if protocolVersionStartsFrom (meta_ledgerVersion meta)
       FIRST_PROTOCOL_SUPPORTING_INITENTRY_AND_METAENTRY
  then let* o := putEntry (METAENTRY meta) o in mret (setPutMeta true o)
  else mret o.

(** The file [getBucket] closes, the buffered record flushed. *)
Definition outputFile (o : BucketOutputIterator) : list BucketEntry :=
  mOut o ++ match mBuf o with Some e => [e] | None => [] end.

Fixpoint putAll (l : list BucketEntry) (o : BucketOutputIterator) : exc BucketOutputIterator :=
  match l with
  | [] => mret o
  | e :: l => let* o := putEntry e o in putAll l o
  end.

(** ** The changes of one ledger *)

(** [std::sort] by [BucketEntryIdCmp]. *)
Definition entryLe (a b : BucketEntry) : Prop := BucketEntryIdCmp b a = false.
#[export] Instance entryLe_dec : RelDecision entryLe.
Proof. intros a b. unfold entryLe. apply _. Defined.

(** No two neighbours [std::adjacent_find] could report. *)
Fixpoint strictlyIncreasing (l : list BucketEntry) : bool :=
  match l with
  | a :: (b :: _) as rest => BucketEntryIdCmp a b && strictlyIncreasing rest
  | _ => true
  end.

Definition convertToBucketEntry (useInit : bool) (initEntries liveEntries : list LedgerEntry)
    (deadEntries : list LedgerKey) : exc (list BucketEntry) :=
  let bucket := ((if useInit then INITENTRY else LIVEENTRY) <$> initEntries)
                ++ (LIVEENTRY <$> liveEntries) ++ (DEADENTRY <$> deadEntries) in
  let bucket := merge_sort entryLe bucket in
  do* releaseAssert (strictlyIncreasing bucket) "adjacent_find(bucket) == bucket.end()" in
  mret bucket.

(** The file of [Bucket::fresh], before the bucket manager adopts it, and its counts. *)
Definition freshOutput (protocolVersion : Z) (initEntries liveEntries : list LedgerEntry)
    (deadEntries : list LedgerKey) : exc BucketOutputIterator :=
  let useInit := protocolVersionStartsFrom protocolVersion
                   FIRST_PROTOCOL_SUPPORTING_INITENTRY_AND_METAENTRY in
  let* entries := convertToBucketEntry useInit initEntries liveEntries deadEntries in
  let* out := openOutput true (mkMeta protocolVersion) zeroCounters in
  putAll entries out.

(** ** Merging *)

Record MergeState := mkMerge {
  oi : BucketInputIterator;
  ni : BucketInputIterator;
  out : BucketOutputIterator;
  shadowIterators : list BucketInputIterator
}.

Definition count (c : MergeCounter) : M MergeState unit :=
  modify (fun s => mkMerge (oi s) (ni s) (countOut c (out s)) (shadowIterators s)).
Definition putOut (e : BucketEntry) : M MergeState unit :=
  let* s := get in
  let* o := lift (putEntry e (out s)) in
  modify (fun s => mkMerge (oi s) (ni s) o (shadowIterators s)).
Definition advanceOld : M MergeState unit :=
  let* s := get in
  let* it := lift (nextEntry (oi s)) in
  modify (fun s => mkMerge it (ni s) (out s) (shadowIterators s)).
Definition advanceNew : M MergeState unit :=
  let* s := get in
  let* it := lift (nextEntry (ni s)) in
  modify (fun s => mkMerge (oi s) it (out s) (shadowIterators s)).

(** One shadow moved up to the first record that is not below [entry]. *)
Fixpoint advanceShadow (fuel : nat) (entry : BucketEntry) (si : BucketInputIterator)
    (mc : MergeCounters) : exc (BucketInputIterator * MergeCounters) :=
  match mEntryPtr si with
  | Some s =>
      if BucketEntryIdCmp s entry then
        match fuel with
        | O => exc_throw OutOfFuel
        | S n => let* si := nextEntry si in advanceShadow n entry si (bump mShadowScanSteps mc)
        end
      else mret (si, mc)
  | None => mret (si, mc)
  end.

(** The shadows are scanned in order up to the first that holds the key. *)
Fixpoint scanShadows (entry : BucketEntry) (its : list BucketInputIterator) (mc : MergeCounters)
    : exc (bool * list BucketInputIterator * MergeCounters) :=
  match its with
  | [] => mret (false, [], mc)
  | si :: rest =>
      let* '(si, mc) := advanceShadow (S (length (mIn si))) entry si mc in
      if match mEntryPtr si with Some s => negb (BucketEntryIdCmp entry s) | None => false end
      then mret (true, si :: rest, mc)
      else let* '(shadowed, rest, mc) := scanShadows entry rest mc in
           mret (shadowed, si :: rest, mc)
  end.

Definition maybePut (entry : BucketEntry) (keepShadowedLifecycleEntries : bool) : M MergeState unit :=
  if keepShadowedLifecycleEntries && (isINIT entry || isDEAD entry) then putOut entry
  else
    let* s := get in
    let* '(shadowed, its, mc) :=
      lift (scanShadows entry (shadowIterators s) (mMergeCounters (out s))) in
    do* modify (fun s => mkMerge (oi s) (ni s) (setCounters mc (out s)) its) in
    if shadowed then count (countShadowedEntryType entry) else putOut entry.

(** The version of the merge, whether shadows spare the life-cycle entries, and
    the counters. *)
Definition calculateMergeProtocolVersion (mc : MergeCounters) (maxProtocolVersion : Z)
    (oi ni : BucketInputIterator) (shadowIterators : list BucketInputIterator)
    : exc (Z * bool * MergeCounters) :=
  let protocolVersion := Z.max (inputVersion oi) (inputVersion ni) in
  let protocolVersion :=
    foldl (fun pv si =>
             let version := inputVersion si in
             if protocolVersionIsBefore version FIRST_PROTOCOL_SHADOWS_REMOVED
             then Z.max version pv else pv) protocolVersion shadowIterators in
  if maxProtocolVersion <? protocolVersion
  then exc_throw (Throw "bucket protocol version exceeds maxProtocolVersion")
  else
    let keepShadowedLifecycleEntries :=
      negb (protocolVersionIsBefore protocolVersion
              FIRST_PROTOCOL_SUPPORTING_INITENTRY_AND_METAENTRY) in
    let mc := if keepShadowedLifecycleEntries then bump mPostInitEntryProtocolMerges mc
              else bump mPreInitEntryProtocolMerges mc in
    if protocolVersionIsBefore protocolVersion FIRST_PROTOCOL_SHADOWS_REMOVED
    then mret (protocolVersion, keepShadowedLifecycleEntries, bump mPreShadowRemovalProtocolMerges mc)
    else
      do* (match shadowIterators with
           | [] => mret tt
           | _ => exc_throw (Throw "Shadows are not supported")
           end) in
      mret (protocolVersion, keepShadowedLifecycleEntries, bump mPostShadowRemovalProtocolMerges mc).

(** Exhausted cursors and different keys: the lesser record is taken as it is. *)
Definition mergeCasesWithDefaultAcceptance (protocolVersion : Z) (keep : bool) : M MergeState bool :=
  let* s := get in
  match mEntryPtr (oi s), mEntryPtr (ni s) with
  | o, None =>
      do* count mOldEntriesDefaultAccepted in
      let* o := deref o "*oi" in
      do* lift (checkProtocolLegality o protocolVersion) in
      do* count (countOldEntryType o) in
      do* maybePut o keep in
      do* advanceOld in
      mret true
  | None, Some n =>
      do* count mNewEntriesDefaultAccepted in
      do* lift (checkProtocolLegality n protocolVersion) in
      do* count (countNewEntryType n) in
      do* maybePut n keep in
      do* advanceNew in
      mret true
  | Some o, Some n =>
      if BucketEntryIdCmp o n then
        do* count mOldEntriesDefaultAccepted in
        do* lift (checkProtocolLegality o protocolVersion) in
        do* count (countOldEntryType o) in
        do* maybePut o keep in
        do* advanceOld in
        mret true
      else if BucketEntryIdCmp n o then
        do* count mNewEntriesDefaultAccepted in
        do* lift (checkProtocolLegality n protocolVersion) in
        do* count (countNewEntryType n) in
        do* maybePut n keep in
        do* advanceNew in
        mret true
      else mret false
  end.

Definition mergeCasesWithEqualKeys (protocolVersion : Z) (keep : bool) : M MergeState unit :=
  let* s := get in
  let* oldEntry := deref (mEntryPtr (oi s)) "*oi" in
  let* newEntry := deref (mEntryPtr (ni s)) "*ni" in
  do* lift (checkProtocolLegality oldEntry protocolVersion) in
  do* lift (checkProtocolLegality newEntry protocolVersion) in
  do* count (countOldEntryType oldEntry) in
  do* count (countNewEntryType newEntry) in
  do* match oldEntry, newEntry with
      | DEADENTRY _, INITENTRY e =>
          do* count mNewInitEntriesMergedWithOldDead in
          maybePut (LIVEENTRY e) keep
      | _, INITENTRY _ => throw "Malformed bucket: old non-DEAD + new INIT."
      | INITENTRY _, LIVEENTRY e =>
          do* count mOldInitEntriesMergedWithNewLive in
          maybePut (INITENTRY e) keep
      | INITENTRY _, DEADENTRY _ => count mOldInitEntriesMergedWithNewDead
      | INITENTRY _, METAENTRY _ => throw "Malformed bucket: old INIT + new non-DEAD."
      | _, _ =>
          do* count mNewEntriesMergedWithOldNeitherInit in
          maybePut newEntry keep
      end in
  do* advanceOld in
  advanceNew.

(** [while (oi || ni)].  [isShutdown k] is what the bucket manager answers the
    [k]-th time it is asked, every thousand records. *)
Fixpoint mergeLoop (isShutdown : nat -> bool) (protocolVersion : Z) (keep : bool)
    (fuel : nat) (iter : Z) (asked : nat) : M MergeState unit :=
  let* s := get in
  match mEntryPtr (oi s), mEntryPtr (ni s) with
  | None, None => mret tt
  | _, _ =>
      match fuel with
      | O => fail OutOfFuel
      | S fuel =>
          let poll := 1000 <=? iter + 1 in
          do* (if poll && isShutdown asked
               then throw "Incomplete bucket merge due to BucketManager shutdown" else mret tt) in
          let* accepted := mergeCasesWithDefaultAcceptance protocolVersion keep in
          do* (if negb accepted then mergeCasesWithEqualKeys protocolVersion keep else mret tt) in
          mergeLoop isShutdown protocolVersion keep fuel (if poll then 0 else iter + 1)
            (if poll then S asked else asked)
      end
  end.

Fixpoint openAll (files : list (list BucketEntry)) : exc (list BucketInputIterator) :=
  match files with
  | [] => mret []
  | f :: files => let* it := openBucket f in let* its := openAll files in mret (it :: its)
  end.

(** The writer [Bucket::merge] leaves behind, before the bucket manager adopts its
    file. *)
Definition mergeOutput (isShutdown : nat -> bool) (maxProtocolVersion : Z)
    (oldBucket newBucket : list BucketEntry) (shadows : list (list BucketEntry))
    (keepDeadEntries : bool) : exc BucketOutputIterator :=
  let* oi := openBucket oldBucket in
  let* ni := openBucket newBucket in
  let* shadowIterators := openAll shadows in
  let* '(protocolVersion, keep, mc) :=
    calculateMergeProtocolVersion zeroCounters maxProtocolVersion oi ni shadowIterators in
  let* o := openOutput keepDeadEntries (mkMeta protocolVersion) mc in
  match mergeLoop isShutdown protocolVersion keep (length oldBucket + length newBucket) 0 0
          (mkMerge oi ni o shadowIterators) with
  | Ok _ s => mret (out s)
  | Err f _ => exc_throw f
  end.
