(* ===== verification/BucketMerge.v ===== *)
(** * What a merge produces

    The reference merge of two sorted record lists, the relation between it and the
    single-pass loop of [Bucket::merge], and the meaning of the result: for every
    key the record written is the combination of the older and the newer record by
    the life-cycle table of the source. *)

From stdpp Require Import base list gmap strings sorting.
From S2P Require Import Prelude Exchange Entries BucketEntries Bucket.

Local Open Scope Z_scope.

#[local] Arguments wp : simpl never.
#[local] Arguments BucketEntryIdCmp : simpl never.

(** ** Well-formed files *)

Definition keyLt (a b : BucketEntry) : Prop := BucketEntryIdCmp a b = true.

#[export] Instance keyLt_transitive : Transitive keyLt.
Proof. intros a b c. apply idCmp_trans. Qed.

(** The version a file declares, 0 when it declares none. *)
Definition fileVersion (file : list BucketEntry) : Z :=
  match file with METAENTRY m :: _ => meta_ledgerVersion m | _ => 0 end.

(** The records that are about keys. *)
Definition body (file : list BucketEntry) : list BucketEntry :=
  match file with METAENTRY _ :: rest => rest | _ => file end.

Definition noMeta (e : BucketEntry) : Prop := isMETA e = false.
Definition noInit (e : BucketEntry) : Prop := isINIT e = false.

(** Increasing order (so at most one metadata record, in front), and life-cycle
    records only under the versions that have them. *)
Record WfFile (file : list BucketEntry) : Prop := {
  wf_sorted : StronglySorted keyLt file;
  wf_version : match file with
               | METAENTRY m :: _ =>
                   FIRST_PROTOCOL_SUPPORTING_INITENTRY_AND_METAENTRY <= meta_ledgerVersion m
               | _ => Forall noInit file
               end
}.

Lemma keyLt_meta a m : ~ keyLt a (METAENTRY m).
Proof. unfold keyLt. rewrite idCmp_keys. cbn. by destruct (bucketKey a). Qed.

Lemma sorted_noMeta e l : StronglySorted keyLt (e :: l) -> Forall noMeta l.
Proof.
  intros H. apply StronglySorted_inv in H as [_ H]. apply (Forall_impl _ _ _ H).
  intros [x|x|k|m] Hx; try done. by apply keyLt_meta in Hx.
Qed.

Lemma body_noMeta file : WfFile file -> Forall noMeta (body file).
Proof.
  intros [Hs _]. destruct file as [|[x|x|k|m] l]; cbn; try constructor; try done; by apply (sorted_noMeta _ _ Hs).
Qed.

Lemma body_sorted file : WfFile file -> StronglySorted keyLt (body file).
Proof. intros [Hs _]. destruct file as [|[x|x|k|m] l]; cbn; try done. by apply StronglySorted_inv in Hs as [? _]. Qed.

Lemma body_noInit file :
  WfFile file -> fileVersion file < FIRST_PROTOCOL_SUPPORTING_INITENTRY_AND_METAENTRY ->
  Forall noInit (body file).
Proof. intros [_ Hv]. destruct file as [|[x|x|k|m] l]; cbn in *; try done. lia. Qed.

(** ** Looking a key up *)

Fixpoint entryFor (k : LedgerKey) (l : list BucketEntry) : option BucketEntry :=
  match l with
  | [] => None
  | e :: l => if decide (bucketKey e = Some k) then Some e else entryFor k l
  end.

Lemma entryFor_Some k l e : entryFor k l = Some e -> e ∈ l /\ bucketKey e = Some k.
Proof.
  induction l as [|x l IH]; cbn; [done|]. destruct (decide _) as [H|H].
  - intros [= <-]. split; [left|done].
  - intros E. destruct (IH E) as [? ?]. split; [by right|done].
Qed.

Lemma entryFor_None k l : entryFor k l = None <-> Forall (fun e => bucketKey e <> Some k) l.
Proof.
  induction l as [|x l IH]; cbn; [split; constructor|]. rewrite Forall_cons, <- IH.
  destruct (decide _); split; [done|by intros [? _]|done|by intros [_ ?]].
Qed.

Lemma entryFor_app k l l' :
  entryFor k (l ++ l') = match entryFor k l with Some e => Some e | None => entryFor k l' end.
Proof. induction l as [|x l IH]; cbn; [done|]. by destruct (decide _). Qed.

Lemma keyLt_key a b : keyLt a b -> bucketKey a <> bucketKey b.
Proof.
  unfold keyLt. rewrite idCmp_keys. intros H E. rewrite E in H.
  destruct (bucketKey b); [by rewrite lt_irrefl in H|done].
Qed.

(** In a sorted list a record is the one found under its key. *)
Lemma entryFor_in k l e :
  StronglySorted keyLt l -> e ∈ l -> bucketKey e = Some k -> entryFor k l = Some e.
Proof.
  intros Hs. induction Hs as [|x l Hs IH Hx]; [intros H; by apply not_elem_of_nil in H|].
  intros [->|He]%elem_of_cons Hk; cbn; [by rewrite decide_True|].
  rewrite decide_False; [by apply IH|]. rewrite <- Hk. apply keyLt_key.
  rewrite Forall_forall in Hx. by apply Hx.
Qed.

Lemma entryFor_filter k l (P : BucketEntry -> bool) :
  StronglySorted keyLt l ->
  entryFor k (filter P l) = match entryFor k l with Some e => if P e then Some e else None | None => None end.
Proof.
  intros Hs. destruct (entryFor k l) as [e|] eqn:E.
  - apply entryFor_Some in E as [He Hk]. destruct (P e) eqn:HP.
    + apply entryFor_in; [|apply list_elem_of_filter; split; [by rewrite HP|done]|done].
      clear -Hs. induction Hs as [|x l Hs IH Hx]; [constructor|]. rewrite filter_cons.
      destruct (decide _); [|done]. constructor; [done|].
      apply Forall_forall. intros y [_ Hy]%list_elem_of_filter. rewrite Forall_forall in Hx. by apply Hx.
    + apply entryFor_None, Forall_forall. intros y [HPy Hy]%list_elem_of_filter Hky.
      pose proof (entryFor_in k l e Hs He Hk) as E1. pose proof (entryFor_in k l y Hs Hy Hky) as E2.
      assert (e = y) as <- by congruence. by rewrite HP in HPy.
  - apply entryFor_None in E. apply entryFor_None, Forall_forall.
    intros y [_ Hy]%list_elem_of_filter. rewrite Forall_forall in E. by apply E.
Qed.

(** ** The reference merge *)

(** The table of [mergeCasesWithEqualKeys]. *)
Definition combine (o n : BucketEntry) : option BucketEntry :=
  match o, n with
  | DEADENTRY _, INITENTRY e => Some (LIVEENTRY e)
  | INITENTRY _, LIVEENTRY e => Some (INITENTRY e)
  | INITENTRY _, DEADENTRY _ => None
  | _, _ => Some n
  end.

(** The rows of the table that are errors. *)
Definition clash (o n : BucketEntry) : bool := isINIT n && negb (isDEAD o).

Definition combineOpt (o n : option BucketEntry) : option BucketEntry :=
  match o, n with
  | Some o, Some n => combine o n
  | None, n => n
  | o, None => o
  end.

Fixpoint mergeRef (old : list BucketEntry) : list BucketEntry -> list BucketEntry :=
  fix inner (new : list BucketEntry) : list BucketEntry :=
    match old, new with
    | [], _ => new
    | _, [] => old
    | o :: old', n :: new' =>
        if BucketEntryIdCmp o n then o :: mergeRef old' new
        else if BucketEntryIdCmp n o then n :: inner new'
        else match combine o n with
             | Some e => e :: mergeRef old' new'
             | None => mergeRef old' new'
             end
    end.

Definition clashing (old new : list BucketEntry) : Prop :=
  exists o n, o ∈ old /\ n ∈ new /\ bucketKey o = bucketKey n /\ clash o n = true.

Lemma mergeRef_nil_r old : mergeRef old [] = old.
Proof. by destruct old. Qed.
Lemma mergeRef_nil_l new : mergeRef [] new = new.
Proof. by destruct new. Qed.
Lemma mergeRef_cons o old n new :
  mergeRef (o :: old) (n :: new) =
  if BucketEntryIdCmp o n then o :: mergeRef old (n :: new)
  else if BucketEntryIdCmp n o then n :: mergeRef (o :: old) new
  else match combine o n with
       | Some e => e :: mergeRef old new
       | None => mergeRef old new
       end.
Proof. reflexivity. Qed.

Lemma combine_key o n e : bucketKey o = bucketKey n -> combine o n = Some e -> bucketKey e = bucketKey n.
Proof. destruct o, n; cbn; intros H [= <-]; done. Qed.

(** Two sorted lists, taken apart the way the merge does. *)
Lemma merge_ind (P : list BucketEntry -> list BucketEntry -> Prop) :
  (forall new, P [] new) -> (forall old, P old []) ->
  (forall o old n new, keyLt o n -> P old (n :: new) -> P (o :: old) (n :: new)) ->
  (forall o old n new, keyLt n o -> P (o :: old) new -> P (o :: old) (n :: new)) ->
  (forall o old n new, BucketEntryIdCmp o n = false -> BucketEntryIdCmp n o = false ->
     P old new -> P (o :: old) (n :: new)) ->
  forall old new, P old new.
Proof.
  intros H1 H2 H3 H4 H5 old. induction old as [|o old IHo]; [done|].
  induction new as [|n new IHn]; [done|].
  destruct (BucketEntryIdCmp o n) eqn:E1; [by apply H3|].
  destruct (BucketEntryIdCmp n o) eqn:E2; [by apply H4|]. by apply H5.
Qed.

(** A lower bound of both lists is one of their merge. *)
Lemma mergeRef_bound x old new :
  Forall (keyLt x) old -> Forall (keyLt x) new -> Forall (keyLt x) (mergeRef old new).
Proof.
  revert old new. apply (merge_ind (fun old new => Forall (keyLt x) old -> Forall (keyLt x) new ->
                           Forall (keyLt x) (mergeRef old new))).
  - intros new _ H. by rewrite mergeRef_nil_l.
  - intros old H _. by rewrite mergeRef_nil_r.
  - intros o old n new E IH [Ho Hold]%Forall_cons Hn. rewrite mergeRef_cons, E. constructor; [done|by apply IH].
  - intros o old n new E IH Ho [Hn Hnew]%Forall_cons. rewrite mergeRef_cons, E, (idCmp_asym _ _ E).
    constructor; [done|by apply IH].
  - intros o old n new E1 E2 IH [Ho Hold]%Forall_cons [Hn Hnew]%Forall_cons. rewrite mergeRef_cons, E1, E2.
    destruct (combine o n) as [e|] eqn:Ec; [|by apply IH]. constructor; [|by apply IH].
    unfold keyLt in *. rewrite (idCmp_key_r x e n); [done|]. by eapply combine_key; [apply idCmp_eq|].
Qed.

Lemma sorted_cons_iff e l : StronglySorted keyLt (e :: l) <-> Forall (keyLt e) l /\ StronglySorted keyLt l.
Proof. split; [intros [? ?]%StronglySorted_inv; done|intros [? ?]; by constructor]. Qed.

Lemma below_weaken a b l : keyLt a b -> Forall (keyLt b) l -> Forall (keyLt a) l.
Proof. intros H Hl. apply (Forall_impl _ _ _ Hl). intros c. by apply idCmp_trans. Qed.

Lemma same_below a b l : bucketKey a = bucketKey b -> Forall (keyLt a) l -> Forall (keyLt b) l.
Proof. intros H Hl. apply (Forall_impl _ _ _ Hl). intros c. unfold keyLt. by rewrite (idCmp_key a b c H). Qed.

Lemma mergeRef_sorted old new :
  StronglySorted keyLt old -> StronglySorted keyLt new -> StronglySorted keyLt (mergeRef old new).
Proof.
  revert old new. apply (merge_ind (fun old new => StronglySorted keyLt old -> StronglySorted keyLt new ->
                           StronglySorted keyLt (mergeRef old new))).
  - intros new _ H. by rewrite mergeRef_nil_l.
  - intros old H _. by rewrite mergeRef_nil_r.
  - intros o old n new E IH [Ho Hold]%sorted_cons_iff Hn. rewrite mergeRef_cons, E. constructor; [by apply IH|].
    apply mergeRef_bound; [done|]. apply sorted_cons_iff in Hn as [Hn _]. constructor; [done|]. by eapply below_weaken.
  - intros o old n new E IH Ho [Hn Hnew]%sorted_cons_iff. rewrite mergeRef_cons, E, (idCmp_asym _ _ E).
    constructor; [by apply IH|]. apply mergeRef_bound; [|done]. apply sorted_cons_iff in Ho as [Ho _].
    constructor; [done|]. by eapply below_weaken.
  - intros o old n new E1 E2 IH [Ho Hold]%sorted_cons_iff [Hn Hnew]%sorted_cons_iff.
    rewrite mergeRef_cons, E1, E2. pose proof (idCmp_eq _ _ E1 E2) as Ek.
    destruct (combine o n) as [e|] eqn:Ec; [|by apply IH]. constructor; [by apply IH|].
    pose proof (combine_key _ _ _ Ek Ec) as He.
    apply mergeRef_bound; [apply (same_below o e)|apply (same_below n e)]; congruence.
Qed.

Lemma entryFor_below k x l : bucketKey x = Some k -> Forall (keyLt x) l -> entryFor k l = None.
Proof.
  intros Hk H. apply entryFor_None. apply (Forall_impl _ _ _ H). intros y Hy Hky.
  apply keyLt_key in Hy. congruence.
Qed.

(** Under every key the merge holds the combination of what the two lists hold. *)
Lemma mergeRef_entry k old new :
  StronglySorted keyLt old -> StronglySorted keyLt new ->
  entryFor k (mergeRef old new) = combineOpt (entryFor k old) (entryFor k new).
Proof.
  revert old new. apply (merge_ind (fun old new => StronglySorted keyLt old -> StronglySorted keyLt new ->
     entryFor k (mergeRef old new) = combineOpt (entryFor k old) (entryFor k new))).
  - intros new _ _. rewrite mergeRef_nil_l. cbn. done.
  - intros old _ _. rewrite mergeRef_nil_r. cbn. by destruct (entryFor k old).
  - intros o old n new E IH [Ho Hold]%sorted_cons_iff Hn. rewrite mergeRef_cons, E. cbn [entryFor].
    destruct (decide (bucketKey o = Some k)) as [Hk|Hk]; [|by apply IH].
    assert (entryFor k (n :: new) = None) as Hnone.
    { apply (entryFor_below k o); [done|]. apply sorted_cons_iff in Hn as [Hn _].
      constructor; [done|]. by eapply below_weaken. }
    cbn [entryFor] in Hnone. by rewrite Hnone.
  - intros o old n new E IH Ho [Hn Hnew]%sorted_cons_iff. rewrite mergeRef_cons, E, (idCmp_asym _ _ E).
    change (entryFor k (n :: mergeRef (o :: old) new)) with
      (if decide (bucketKey n = Some k) then Some n else entryFor k (mergeRef (o :: old) new)).
    change (entryFor k (n :: new)) with (if decide (bucketKey n = Some k) then Some n else entryFor k new).
    destruct (decide (bucketKey n = Some k)) as [Hk|Hk]; [|by apply IH].
    rewrite (entryFor_below k n (o :: old)); [done|done|]. apply sorted_cons_iff in Ho as [Ho _].
    constructor; [done|]. by eapply below_weaken.
  - intros o old n new E1 E2 IH [Ho Hold]%sorted_cons_iff [Hn Hnew]%sorted_cons_iff.
    rewrite mergeRef_cons, E1, E2. pose proof (idCmp_eq _ _ E1 E2) as Ek. cbn [entryFor]. rewrite Ek.
    destruct (decide (bucketKey n = Some k)) as [Hk|Hk].
    + cbn [combineOpt]. destruct (combine o n) as [e|] eqn:Ec.
      * cbn [entryFor]. rewrite decide_True; [done|]. by rewrite (combine_key _ _ _ Ek Ec).
      * rewrite IH by done. rewrite (entryFor_below k o), (entryFor_below k n) by (done || congruence). done.
    + destruct (combine o n) as [e|] eqn:Ec; [|by apply IH]. cbn [entryFor].
      rewrite decide_False; [by apply IH|]. by rewrite (combine_key _ _ _ Ek Ec).
Qed.

(** ** Cursors *)

(** What a cursor still has to deliver. *)
Definition rest (it : BucketInputIterator) : list BucketEntry :=
  match mEntryPtr it with Some e => e :: mIn it | None => [] end.

Record InOK (v : Z) (it : BucketInputIterator) : Prop := {
  in_version : inputVersion it = v;
  in_sorted : StronglySorted keyLt (rest it);
  in_noMeta : Forall noMeta (rest it);
  in_legal : mSeenMetadata it = true -> FIRST_PROTOCOL_SUPPORTING_INITENTRY_AND_METAENTRY <= v
}.

Lemma legal_since e v :
  FIRST_PROTOCOL_SUPPORTING_INITENTRY_AND_METAENTRY <= v -> checkProtocolLegality e v = inr tt.
Proof.
  intros H. unfold checkProtocolLegality, protocolVersionIsBefore.
  by rewrite (proj2 (Z.ltb_ge _ _) H).
Qed.

Lemma legal_old e v : noInit e -> noMeta e -> checkProtocolLegality e v = inr tt.
Proof. intros H1 H2. unfold checkProtocolLegality. rewrite H1, H2. by rewrite andb_false_r. Qed.

Lemma load_plain l sm so m :
  Forall noMeta l -> StronglySorted keyLt l ->
  (sm = true -> FIRST_PROTOCOL_SUPPORTING_INITENTRY_AND_METAENTRY <= meta_ledgerVersion m) ->
  exists it, loadEntry l sm so m = inr it /\ InOK (meta_ledgerVersion m) it /\ rest it = l.
Proof.
  intros Hm Hs Hv. destruct l as [|e l].
  - eexists. split; [reflexivity|]. split; [by split; [..|exact Hv]|done].
  - assert (checkProtocolLegality e (meta_ledgerVersion m) = inr tt \/ sm = false) as Hc.
    { destruct sm; [left; by apply legal_since, Hv|by right]. }
    exists (mkInput (Some e) l sm true m). split; [|split; [by split; [..|exact Hv]|done]].
    apply Forall_inv in Hm. destruct e; cbn [loadEntry]; try done;
      (destruct sm; [destruct Hc as [Hc|Hc]; [|done]; rewrite Hc|]; reflexivity).
Qed.

Lemma openBucket_ok file :
  WfFile file ->
  exists it, openBucket file = inr it /\ InOK (fileVersion file) it /\ rest it = body file.
Proof.
  intros Hwf. pose proof (body_noMeta _ Hwf) as Hm. pose proof (body_sorted _ Hwf) as Hs.
  destruct Hwf as [_ Hv]. unfold openBucket.
  destruct file as [|[x|x|k|m] l]; cbn [fileVersion body] in *; try (by apply (load_plain _ false false (mkMeta 0))).
  apply (load_plain l true false m); [done|done|intros _; exact Hv].
Qed.

Lemma nextEntry_ok v it e :
  InOK v it -> mEntryPtr it = Some e ->
  exists it', nextEntry it = inr it' /\ InOK v it' /\ rest it = e :: rest it'.
Proof.
  intros [Hv Hs Hm Hl] He. unfold rest in Hs, Hm. rewrite He in Hs, Hm.
  apply sorted_cons_iff in Hs as [_ Hs]. apply Forall_cons in Hm as [_ Hm]. unfold inputVersion in Hv. subst v.
  destruct (load_plain _ (mSeenMetadata it) (mSeenOtherEntries it) (mMetadata it) Hm Hs Hl)
    as (it' & E & Hok & Hr).
  exists it'. split; [exact E|]. split; [done|]. unfold rest at 1. by rewrite He, Hr.
Qed.

Lemma rest_nil it : mEntryPtr it = None <-> rest it = [].
Proof. unfold rest. by destruct (mEntryPtr it). Qed.

Lemma rest_head it e l : rest it = e :: l -> mEntryPtr it = Some e.
Proof. unfold rest. destruct (mEntryPtr it); [congruence|done]. Qed.

Lemma openAll_ok files :
  Forall WfFile files ->
  exists its, openAll files = inr its /\
    Forall2 (fun f it => InOK (fileVersion f) it /\ rest it = body f) files its.
Proof.
  induction 1 as [|f files Hf _ (its & E & Hits)]; [by exists []|].
  destruct (openBucket_ok f Hf) as (it & E1 & Hok & Hr). exists (it :: its). cbn.
  rewrite E1. cbn. rewrite E. split; [reflexivity|]. by constructor.
Qed.

(** ** The writer *)

(** The part of the writer's state that fixes how it treats records. *)
Definition sameWriter (o o' : BucketOutputIterator) : Prop :=
  mKeepDeadEntries o' = mKeepDeadEntries o /\ mMeta o' = mMeta o.

(** Whether the writer keeps a record. *)
Definition kept (o : BucketOutputIterator) (e : BucketEntry) : bool :=
  negb (negb (mKeepDeadEntries o) && isDEAD e).

Lemma putEntry_ok e o :
  checkProtocolLegality e (meta_ledgerVersion (mMeta o)) = inr tt -> noMeta e ->
  Forall (fun x => keyLt x e) (outputFile o) ->
  exists o', putEntry e o = inr o' /\ sameWriter o o' /\
    outputFile o' = outputFile o ++ (if kept o e then [e] else []).
Proof.
  intros Hl Hm Hlt. unfold putEntry, kept. rewrite Hl, Hm. cbn -[outputFile].
  destruct (negb (mKeepDeadEntries o) && isDEAD e); cbn -[outputFile].
  { eexists. split; [reflexivity|]. split; [done|]. by rewrite app_nil_r. }
  unfold outputFile in Hlt. destruct (mBuf o) as [buf|] eqn:Hb; cbn -[outputFile].
  - assert (keyLt buf e) as Hbe by (by apply Forall_app in Hlt as [_ Hlt]; apply Forall_inv in Hlt).
    rewrite (idCmp_asym _ _ Hbe), Hbe. cbn -[outputFile]. eexists. split; [reflexivity|]. split; [done|].
    unfold outputFile. cbn. by rewrite Hb.
  - eexists. split; [reflexivity|]. split; [done|]. unfold outputFile. cbn. by rewrite Hb, app_nil_r.
Qed.

Lemma openOutput_ok keepDead v mc :
  exists o, openOutput keepDead (mkMeta v) mc = inr o /\ mKeepDeadEntries o = keepDead /\
    mMeta o = mkMeta v /\
    outputFile o = if FIRST_PROTOCOL_SUPPORTING_INITENTRY_AND_METAENTRY <=? v
                   then [METAENTRY (mkMeta v)] else [].
Proof.
  unfold openOutput, protocolVersionStartsFrom. cbn [meta_ledgerVersion]. destruct (_ <=? v) eqn:E.
  - unfold putEntry. cbn [meta_ledgerVersion mMeta]. rewrite legal_since by (by apply Z.leb_le).
    cbn. rewrite andb_false_r. by eexists.
  - by eexists.
Qed.

(** ** Shadows *)

(** A shadow that holds a record for the key of [e]. *)
Definition sameKey (e x : BucketEntry) : bool :=
  negb (BucketEntryIdCmp x e) && negb (BucketEntryIdCmp e x).
Definition shadowedBy (S : list (list BucketEntry)) (e : BucketEntry) : bool :=
  existsb (existsb (sameKey e)) S.

(** A shadow cursor has passed only records below every candidate still to come. *)
Definition ShadowOK (P : BucketEntry -> Prop) (full : list BucketEntry) (si : BucketInputIterator) : Prop :=
  exists v dropped, full = dropped ++ rest si /\ InOK v si /\
    (forall x y, x ∈ dropped -> P y -> keyLt x y).

Lemma shadow_mono (P P' : BucketEntry -> Prop) full si :
  (forall y, P' y -> P y) -> ShadowOK P full si -> ShadowOK P' full si.
Proof. intros H (v & d & E & Hok & Hd). exists v, d. split; [done|]. split; [done|]. eauto. Qed.

Section Scan.
Context (P : BucketEntry -> Prop) (e : BucketEntry).
Hypothesis P_min : forall y, P y -> BucketEntryIdCmp y e = false.

Lemma below_candidates x y : keyLt x e -> P y -> keyLt x y.
Proof using All.
  intros Hx Hy. destruct (BucketEntryIdCmp e y) eqn:E; [by eapply idCmp_trans|].
  unfold keyLt in *. rewrite <- Hx. apply idCmp_key_r. by apply idCmp_eq; [apply P_min|].
Qed.

Lemma advanceShadow_ok fuel full si mc :
  (length (rest si) <= fuel)%nat -> ShadowOK P full si ->
  exists si' mc', advanceShadow fuel e si mc = inr (si', mc') /\ ShadowOK P full si' /\
    match mEntryPtr si' with Some s => BucketEntryIdCmp s e = false | None => True end.
Proof using All.
  revert si mc. induction fuel as [|fuel IH]; intros si mc Hf Hsh; pose proof Hsh as (v & d & E & Hok & Hd).
  - exists si, mc. assert (mEntryPtr si = None) as Hn by (apply rest_nil, nil_length_inv; lia).
    cbn. by rewrite Hn.
  - cbn [advanceShadow]. destruct (mEntryPtr si) as [s|] eqn:Hs; [|exists si, mc; by rewrite Hs].
    destruct (BucketEntryIdCmp s e) eqn:Hse; [|exists si, mc; by rewrite Hs].
    destruct (nextEntry_ok v si s Hok Hs) as (si1 & E1 & Hok1 & Hr). rewrite E1. cbn.
    apply IH; [rewrite Hr in Hf; cbn in Hf; lia|]. exists v, (d ++ [s]).
    split; [by rewrite <- app_assoc; cbn; rewrite <- Hr|]. split; [done|].
    intros x y [Hx| ->%list_elem_of_singleton]%elem_of_app Hy; [by apply Hd|by apply below_candidates].
Qed.

(** After the advance the cursor tells whether the shadow holds the key. *)
Lemma shadow_found full si :
  P e -> ShadowOK P full si ->
  match mEntryPtr si with Some s => BucketEntryIdCmp s e = false | None => True end ->
  match mEntryPtr si with Some s => negb (BucketEntryIdCmp e s) | None => false end
  = existsb (sameKey e) full.
Proof using All.
  intros He (v & d & -> & Hok & Hd) Hge. rewrite existsb_app.
  assert (existsb (sameKey e) d = false) as ->.
  { apply not_true_iff_false. intros (x & Hx%list_elem_of_In & Hk)%existsb_exists.
    pose proof (Hd x e Hx He) as Hlt. unfold sameKey in Hk. by rewrite Hlt in Hk. }
  cbn. destruct Hok as [_ Hs _ _]. unfold rest in *. destruct (mEntryPtr si) as [s|]; [|done].
  cbn. unfold sameKey at 1. rewrite Hge. cbn. destruct (BucketEntryIdCmp e s) eqn:Hes; cbn; [|done].
  symmetry. apply not_true_iff_false. intros (x & Hx%list_elem_of_In & Hk)%existsb_exists.
  apply sorted_cons_iff in Hs as [Hs _]. rewrite Forall_forall in Hs.
  assert (keyLt e x) as Hlt by (eapply idCmp_trans; [exact Hes|by apply Hs]).
  unfold sameKey in Hk. rewrite Hlt in Hk. by rewrite andb_false_r in Hk.
Qed.

Lemma scanShadows_ok S its mc :
  P e -> Forall2 (ShadowOK P) S its ->
  exists its' mc', scanShadows e its mc = inr (shadowedBy S e, its', mc') /\ Forall2 (ShadowOK P) S its'.
Proof using All.
  intros He H. revert mc. induction H as [|full si S its Hsi Hits IH]; intros mc; [by exists [], mc|].
  cbn [scanShadows]. destruct (advanceShadow_ok (Datatypes.S (length (mIn si))) full si mc)
    as (si1 & mc1 & E1 & Hok1 & Hge); [unfold rest; destruct (mEntryPtr si); cbn; lia|done|].
  rewrite E1. cbn -[scanShadows]. rewrite (shadow_found full si1 He Hok1 Hge).
  unfold shadowedBy. cbn [existsb]. destruct (existsb (sameKey e) full).
  - exists (si1 :: its), mc1. split; [reflexivity|]. by constructor.
  - destruct (IH mc1) as (its2 & mc2 & E2 & Hok2). rewrite E2. cbn.
    exists (si1 :: its2), mc2. split; [reflexivity|]. by constructor.
Qed.

End Scan.

(** ** The loop *)

Section Loop.
Context (v : Z) (keep keepDead : bool) (S : list (list BucketEntry)).

(** Whether a record of the merge reaches the file: life-cycle records are spared
    by the shadows, tombstones dropped on the oldest level. *)
Definition written (e : BucketEntry) : bool :=
  negb (negb (keep && (isINIT e || isDEAD e)) && shadowedBy S e)
  && negb (negb keepDead && isDEAD e).

Definition candidate (s : MergeState) (e : BucketEntry) : Prop := e ∈ rest (oi s) ++ rest (ni s).

Definition legal (e : BucketEntry) : Prop := checkProtocolLegality e v = inr tt.

Record MergeInv (s : MergeState) : Prop := {
  mi_old : exists vo, InOK vo (oi s);
  mi_new : exists vn, InOK vn (ni s);
  mi_legal : forall y, candidate s y -> legal y;
  mi_shadows : Forall2 (ShadowOK (candidate s)) S (shadowIterators s);
  mi_meta : mMeta (out s) = mkMeta v;
  mi_dead : mKeepDeadEntries (out s) = keepDead;
  mi_below : forall x y, x ∈ outputFile (out s) -> candidate s y -> keyLt x y
}.

(** [s'] is [s] after [outs] were written. *)
Record Wrote (s s' : MergeState) (outs : list BucketEntry) : Prop := {
  wr_old : oi s' = oi s;
  wr_new : ni s' = ni s;
  wr_shadows : Forall2 (ShadowOK (candidate s)) S (shadowIterators s');
  wr_writer : sameWriter (out s) (out s');
  wr_file : outputFile (out s') = outputFile (out s) ++ outs
}.

Lemma wrote_count s s' outs c s'' :
  Wrote s s' outs -> count c s' = Ok tt s'' -> Wrote s s'' outs.
Proof using All. intros [] [= <-]. by split. Qed.

(** A record with the least key among the candidates. *)
Definition least (s : MergeState) (c : BucketEntry) : Prop :=
  candidate s c /\ forall y, candidate s y -> BucketEntryIdCmp y c = false.

Lemma putOut_ok s s0 e c :
  MergeInv s0 -> Wrote s0 s [] -> least s0 c -> bucketKey e = bucketKey c -> noMeta e -> legal e ->
  exists s', putOut e s = Ok tt s' /\ Wrote s0 s' (if negb (negb keepDead && isDEAD e) then [e] else []).
Proof using All.
  intros HI HW [Hc _] Hk Hm Hl. destruct HW as [Ho Hn Hsh [Hw1 Hw2] Hf].
  destruct (putEntry_ok e (out s)) as (o' & E & [Hs1 Hs2] & Hfile).
  - by rewrite Hw2, (mi_meta _ HI).
  - done.
  - rewrite Hf, app_nil_r. apply Forall_forall. intros x Hx. unfold keyLt. rewrite (idCmp_key_r x e c Hk).
    by apply (mi_below _ HI).
  - unfold putOut, bnd, mbind, M_bind, get, lift. rewrite E. eexists. split; [reflexivity|].
    split; cbn; [done..| |].
    + by split; [rewrite Hs1|rewrite Hs2].
    + rewrite Hfile, Hf, app_nil_r. unfold kept. by rewrite Hw1, (mi_dead _ HI).
Qed.

Lemma maybePut_ok s s0 e c :
  MergeInv s0 -> Wrote s0 s [] -> least s0 c -> bucketKey e = bucketKey c -> noMeta e -> legal e ->
  exists s', maybePut e keep s = Ok tt s' /\ Wrote s0 s' (if written e then [e] else []).
Proof using All.
  intros HI HW Hleast Hk Hm Hl. unfold maybePut, written.
  destruct (keep && (isINIT e || isDEAD e)); cbn [negb andb]; [by apply (putOut_ok s s0 e c)|].
  set (P := fun y => candidate s0 y \/ y = e).
  assert (Forall2 (ShadowOK P) S (shadowIterators s)) as Hsh.
  { eapply Forall2_impl; [exact (wr_shadows _ _ _ HW)|]. intros full si (vv & d & E & Hok & Hd).
    exists vv, d. split; [done|]. split; [done|]. intros x y Hx [Hy| ->]; [by apply Hd|].
    unfold keyLt. rewrite (idCmp_key_r x e c Hk). apply Hd; [done|apply Hleast]. }
  destruct (scanShadows_ok P e) with (S := S) (its := shadowIterators s) (mc := mMergeCounters (out s))
    as (its & mc & E & Hsh'); [|by right|done|].
  { intros y [Hy| ->]; [|apply idCmp_irrefl]. rewrite (idCmp_key_r y e c Hk). by apply Hleast. }
  unfold bnd at 1, mbind, M_bind, get. unfold bnd at 1, mbind, M_bind, lift. rewrite E.
  unfold bnd, mbind, M_bind, modify. destruct HW as [Ho Hn _ [Hw1 Hw2] Hf].
  assert (Wrote s0 (mkMerge (oi s) (ni s) (setCounters mc (out s)) its) []) as HW'.
  { split; cbn; [done|done| |done|done]. eapply Forall2_impl; [exact Hsh'|].
    intros full si. apply shadow_mono. intros y Hy. by left. }
  destruct (shadowedBy S e); cbn [negb andb].
  - eexists. split; [reflexivity|]. by eapply wrote_count; [exact HW'|reflexivity].
  - by apply (putOut_ok _ s0 e c).
Qed.

Lemma candidate_rest s y : candidate s y <-> y ∈ rest (oi s) \/ y ∈ rest (ni s).
Proof using. apply elem_of_app. Qed.

(** Having written under the least key and moved past it keeps the invariant. *)
Lemma inv_step s s' s'' c outs :
  MergeInv s -> least s c -> Wrote s s' outs -> Forall (fun x => bucketKey x = bucketKey c) outs ->
  out s'' = out s' -> shadowIterators s'' = shadowIterators s' ->
  (exists vo, InOK vo (oi s'')) -> (exists vn, InOK vn (ni s'')) ->
  (forall y, candidate s'' y -> candidate s y /\ keyLt c y) ->
  MergeInv s'' /\ outputFile (out s'') = outputFile (out s) ++ outs.
Proof using All.
  intros HI [Hc _] HW Houts Eo Es HO HN Hsub. destruct HW as [_ _ Hsh [Hw1 Hw2] Hf].
  split; [|by rewrite Eo]. split; [done|done|..].
  - intros y Hy. apply (mi_legal _ HI). by apply Hsub.
  - rewrite Es. eapply Forall2_impl; [exact Hsh|]. intros full si. apply shadow_mono. intros y Hy. by apply Hsub.
  - by rewrite Eo, Hw2, (mi_meta _ HI).
  - by rewrite Eo, Hw1, (mi_dead _ HI).
  - intros x y Hx Hy. rewrite Eo, Hf in Hx. destruct (Hsub y Hy) as [Hy1 Hy2].
    apply elem_of_app in Hx as [Hx|Hx]; [by apply (mi_below _ HI)|].
    rewrite Forall_forall in Houts. unfold keyLt. by rewrite (idCmp_key x c y (Houts x Hx)).
Qed.

Lemma wrote_refl s : MergeInv s -> Wrote s s [].
Proof using All. intros HI. split; [done|done|apply (mi_shadows _ HI)|done|by rewrite app_nil_r]. Qed.

Definition acceptOld (o : BucketEntry) : M MergeState bool :=
  do* count mOldEntriesDefaultAccepted in
  do* lift (checkProtocolLegality o v) in
  do* count (countOldEntryType o) in
  do* maybePut o keep in
  do* advanceOld in
  mret true.
Definition acceptNew (n : BucketEntry) : M MergeState bool :=
  do* count mNewEntriesDefaultAccepted in
  do* lift (checkProtocolLegality n v) in
  do* count (countNewEntryType n) in
  do* maybePut n keep in
  do* advanceNew in
  mret true.

Lemma noMeta_in s y : MergeInv s -> candidate s y -> noMeta y.
Proof using All.
  intros HI [Hy|Hy]%candidate_rest;
    [destruct (mi_old _ HI) as [? [_ _ H _]]|destruct (mi_new _ HI) as [? [_ _ H _]]];
    rewrite Forall_forall in H; by apply H.
Qed.

Lemma written_key e c : bucketKey e = bucketKey c ->
  Forall (fun x => bucketKey x = bucketKey c) (if written e then [e] else []).
Proof using All. intros H. destruct (written e); by repeat constructor. Qed.

(** One state taken to the next: [outs] written, [old] and [new] left to merge. *)
Definition Moved (s s' : MergeState) (outs old new : list BucketEntry) : Prop :=
  MergeInv s' /\ outputFile (out s') = outputFile (out s) ++ outs /\
  rest (oi s') = old /\ rest (ni s') = new.

Lemma acceptOld_ok s o old :
  MergeInv s -> rest (oi s) = o :: old -> Forall (keyLt o) (rest (ni s)) ->
  exists s', acceptOld o s = Ok true s' /\ Moved s s' (if written o then [o] else []) old (rest (ni s)).
Proof using All.
  intros HI Ho Hn.
  assert (candidate s o) as Hco by (apply candidate_rest; left; rewrite Ho; left).
  destruct (mi_old _ HI) as [vo Hoi]. pose proof (in_sorted _ _ Hoi) as Hs. rewrite Ho in Hs.
  apply sorted_cons_iff in Hs as [Hold _]. rewrite Forall_forall in Hold, Hn.
  assert (least s o) as Hleast.
  { split; [done|]. intros y [Hy|Hy]%candidate_rest; [|by apply idCmp_asym, Hn].
    rewrite Ho in Hy. apply elem_of_cons in Hy as [->|Hy]; [apply idCmp_irrefl|by apply idCmp_asym, Hold]. }
  destruct (nextEntry_ok vo (oi s) o Hoi (rest_head _ _ _ Ho)) as (it & Eit & Hit & Hr).
  rewrite Ho in Hr. injection Hr as Hr.
  unfold acceptOld. unfold bnd at 1, mbind, M_bind. cbn [count modify].
  unfold bnd at 1, mbind, M_bind, lift. rewrite (mi_legal _ HI o Hco : checkProtocolLegality o v = inr tt).
  unfold bnd at 1, mbind, M_bind. cbn [count modify]. unfold bnd at 1, mbind, M_bind.
  match goal with |- context [maybePut o keep ?st] =>
    destruct (maybePut_ok st s o o HI) as (s1 & E1 & HW); [|done|done|by eapply noMeta_in|by apply (mi_legal _ HI)|]
  end.
  { eapply wrote_count; [|reflexivity]. eapply wrote_count; [by apply wrote_refl|reflexivity]. }
  rewrite E1. unfold advanceOld, bnd, mbind, M_bind, get, lift. rewrite (wr_old _ _ _ HW), Eit.
  cbn [modify]. eexists. split; [reflexivity|]. unfold Moved. cbn [oi ni].
  rewrite (wr_new _ _ _ HW). 
  match goal with |- MergeInv ?s'' /\ _ =>
    destruct (inv_step s s1 s'' o (if written o then [o] else [])) as [HI' Hf']; [..|by split]
  end; [done|done|exact HW|by apply written_key|done|done|..].
  - by exists vo.
  - apply HI.
  - intros y [Hy|Hy]%candidate_rest; cbn in Hy; rewrite candidate_rest.
    + rewrite <- Hr in Hy. split; [left; rewrite Ho; by right|by apply Hold].
    + split; [by right|by apply Hn].
Qed.

Lemma acceptNew_ok s n new :
  MergeInv s -> rest (ni s) = n :: new -> Forall (keyLt n) (rest (oi s)) ->
  exists s', acceptNew n s = Ok true s' /\ Moved s s' (if written n then [n] else []) (rest (oi s)) new.
Proof using All.
  intros HI Hn Ho.
  assert (candidate s n) as Hcn by (apply candidate_rest; right; rewrite Hn; left).
  destruct (mi_new _ HI) as [vn Hni]. pose proof (in_sorted _ _ Hni) as Hs. rewrite Hn in Hs.
  apply sorted_cons_iff in Hs as [Hnew _]. rewrite Forall_forall in Hnew, Ho.
  assert (least s n) as Hleast.
  { split; [done|]. intros y [Hy|Hy]%candidate_rest; [by apply idCmp_asym, Ho|].
    rewrite Hn in Hy. apply elem_of_cons in Hy as [->|Hy]; [apply idCmp_irrefl|by apply idCmp_asym, Hnew]. }
  destruct (nextEntry_ok vn (ni s) n Hni (rest_head _ _ _ Hn)) as (it & Eit & Hit & Hr).
  rewrite Hn in Hr. injection Hr as Hr.
  unfold acceptNew. unfold bnd at 1, mbind, M_bind. cbn [count modify].
  unfold bnd at 1, mbind, M_bind, lift. rewrite (mi_legal _ HI n Hcn : checkProtocolLegality n v = inr tt).
  unfold bnd at 1, mbind, M_bind. cbn [count modify]. unfold bnd at 1, mbind, M_bind.
  match goal with |- context [maybePut n keep ?st] =>
    destruct (maybePut_ok st s n n HI) as (s1 & E1 & HW); [|done|done|by eapply noMeta_in|by apply (mi_legal _ HI)|]
  end.
  { eapply wrote_count; [|reflexivity]. eapply wrote_count; [by apply wrote_refl|reflexivity]. }
  rewrite E1. unfold advanceNew, bnd, mbind, M_bind, get, lift. rewrite (wr_new _ _ _ HW), Eit.
  cbn [modify]. eexists. split; [reflexivity|]. unfold Moved. cbn [oi ni].
  rewrite (wr_old _ _ _ HW). 
  match goal with |- MergeInv ?s'' /\ _ =>
    destruct (inv_step s s1 s'' n (if written n then [n] else [])) as [HI' Hf']; [..|by split]
  end; [done|done|exact HW|by apply written_key|done|done|..].
  - apply HI.
  - by exists vn.
  - intros y [Hy|Hy]%candidate_rest; cbn in Hy; rewrite candidate_rest.
    + split; [by left|by apply Ho].
    + rewrite <- Hr in Hy. split; [right; rewrite Hn; by right|by apply Hnew].
Qed.

(** The records written for a pair with equal keys. *)
Definition writtenPair (o n : BucketEntry) : list BucketEntry :=
  match combine o n with Some e => if written e then [e] else [] | None => [] end.

Definition MALFORMED : fault := Throw "Malformed bucket: old non-DEAD + new INIT.".

Definition pairAction (o n : BucketEntry) : M MergeState unit :=
  match o, n with
  | DEADENTRY _, INITENTRY e =>
      do* count mNewInitEntriesMergedWithOldDead in maybePut (LIVEENTRY e) keep
  | _, INITENTRY _ => throw "Malformed bucket: old non-DEAD + new INIT."
  | INITENTRY _, LIVEENTRY e =>
      do* count mOldInitEntriesMergedWithNewLive in maybePut (INITENTRY e) keep
  | INITENTRY _, DEADENTRY _ => count mOldInitEntriesMergedWithNewDead
  | INITENTRY _, METAENTRY _ => throw "Malformed bucket: old INIT + new non-DEAD."
  | _, _ => do* count mNewEntriesMergedWithOldNeitherInit in maybePut n keep
  end.

Lemma pairAction_ok s s0 o n :
  MergeInv s0 -> Wrote s0 s [] -> candidate s0 o -> least s0 n -> bucketKey o = bucketKey n ->
  if clash o n then exists s', pairAction o n s = Err MALFORMED s'
  else exists s', pairAction o n s = Ok tt s' /\ Wrote s0 s' (writtenPair o n).
Proof using All.
  intros HI HW Ho Hn Hk. pose proof (noMeta_in _ _ HI Ho) as Hmo. pose proof (noMeta_in _ _ HI (proj1 Hn)) as Hmn.
  pose proof (mi_legal _ HI _ Ho) as Hlo. pose proof (mi_legal _ HI _ (proj1 Hn)) as Hln.
  assert (forall c e, bucketKey e = bucketKey n -> noMeta e -> legal e ->
    exists s', bnd (count c) (fun _ => maybePut e keep) s = Ok tt s' /\
      Wrote s0 s' (if written e then [e] else [])) as Hput.
  { intros c e He Hme Hle. unfold bnd, mbind, M_bind. cbn [count modify].
    apply (maybePut_ok _ s0 e n); try done. by eapply wrote_count; [exact HW|reflexivity]. }
  unfold writtenPair. destruct o, n; cbn; try done; try (by apply Hput); try (by eexists).
  eexists. split; [reflexivity|]. by eapply wrote_count; [exact HW|reflexivity].
Qed.

Lemma equalKeys_unfold s o n :
  mEntryPtr (oi s) = Some o -> mEntryPtr (ni s) = Some n -> legal o -> legal n ->
  exists s1, (MergeInv s -> Wrote s s1 []) /\
    mergeCasesWithEqualKeys v keep s =
    bnd (pairAction o n) (fun _ => bnd advanceOld (fun _ => advanceNew)) s1.
Proof using All.
  intros Ho Hn Hlo Hln. unfold mergeCasesWithEqualKeys. unfold bnd at 1, mbind, M_bind, get.
  rewrite Ho, Hn. unfold deref. unfold bnd at 1, mbind, M_bind, mret at 1, M_ret.
  unfold bnd at 1, mbind, M_bind, mret at 1, M_ret.
  unfold bnd at 1, mbind, M_bind, lift. rewrite Hlo. unfold bnd at 1, mbind, M_bind. rewrite Hln.
  unfold bnd at 1, mbind, M_bind. cbn [count modify]. unfold bnd at 1, mbind, M_bind. cbn [count modify].
  eexists. split; [|reflexivity]. intros HI.
  eapply wrote_count; [|reflexivity]. eapply wrote_count; [by apply wrote_refl|reflexivity].
Qed.

Lemma equalKeys_ok s o old n new :
  MergeInv s -> rest (oi s) = o :: old -> rest (ni s) = n :: new ->
  BucketEntryIdCmp o n = false -> BucketEntryIdCmp n o = false ->
  if clash o n then exists s', mergeCasesWithEqualKeys v keep s = Err MALFORMED s'
  else exists s', mergeCasesWithEqualKeys v keep s = Ok tt s' /\ Moved s s' (writtenPair o n) old new.
Proof using All.
  intros HI Ho Hn E1 E2. pose proof (idCmp_eq _ _ E1 E2) as Hk.
  assert (candidate s o) as Hco by (apply candidate_rest; left; rewrite Ho; left).
  assert (candidate s n) as Hcn by (apply candidate_rest; right; rewrite Hn; left).
  destruct (mi_old _ HI) as [vo Hoi]. destruct (mi_new _ HI) as [vn Hni].
  pose proof (in_sorted _ _ Hoi) as Hso. rewrite Ho in Hso. apply sorted_cons_iff in Hso as [Hold _].
  pose proof (in_sorted _ _ Hni) as Hsn. rewrite Hn in Hsn. apply sorted_cons_iff in Hsn as [Hnew _].
  apply (same_below _ n _ Hk) in Hold. rewrite Forall_forall in Hold, Hnew.
  assert (least s n) as Hleast.
  { split; [done|]. intros y [Hy|Hy]%candidate_rest; rewrite ?Ho, ?Hn in Hy;
      apply elem_of_cons in Hy as [->|Hy]; [done|by apply idCmp_asym, Hold|apply idCmp_irrefl|by apply idCmp_asym, Hnew]. }
  destruct (equalKeys_unfold s o n (rest_head _ _ _ Ho) (rest_head _ _ _ Hn)) as (s1 & HW1 & ->);
    [by apply (mi_legal _ HI)..|].
  pose proof (pairAction_ok s1 s o n HI (HW1 HI) Hco Hleast Hk) as Hpair.
  destruct (clash o n).
  { destruct Hpair as [s2 E]. exists s2. unfold bnd, mbind, M_bind. by rewrite E. }
  destruct Hpair as (s2 & E & HW).
  destruct (nextEntry_ok vo (oi s) o Hoi (rest_head _ _ _ Ho)) as (it & Eit & Hit & Hr).
  destruct (nextEntry_ok vn (ni s) n Hni (rest_head _ _ _ Hn)) as (it' & Eit' & Hit' & Hr').
  rewrite Ho in Hr. injection Hr as Hr. rewrite Hn in Hr'. injection Hr' as Hr'.
  unfold bnd at 1, mbind, M_bind. rewrite E.
  unfold advanceOld, advanceNew, bnd, mbind, M_bind, get, lift. rewrite (wr_old _ _ _ HW), Eit.
  cbn [modify ni]. rewrite (wr_new _ _ _ HW), Eit'. cbn [modify oi ni out shadowIterators].
  eexists. split; [reflexivity|]. unfold Moved. cbn [oi ni].
  match goal with |- MergeInv ?s'' /\ _ =>
    destruct (inv_step s s2 s'' n (writtenPair o n)) as [HI' Hf']; [..|by split]
  end; [done|done|exact HW| |done|done|by exists vo|by exists vn|].
  - unfold writtenPair. destruct (combine o n) eqn:Ec; [|constructor]. apply written_key. by eapply combine_key.
  - intros y [Hy|Hy]%candidate_rest; cbn in Hy; rewrite candidate_rest, Ho, Hn.
    + rewrite <- Hr in Hy. split; [left; by right|by apply Hold].
    + rewrite <- Hr' in Hy. split; [right; by right|by apply Hnew].
Qed.

(** ** Clashes along the merge *)

Lemma clashing_old o old n new :
  keyLt o n -> StronglySorted keyLt (n :: new) ->
  clashing (o :: old) (n :: new) <-> clashing old (n :: new).
Proof using All.
  intros Hon [Hn _]%sorted_cons_iff. split; intros (x & y & Hx & Hy & Hk & Hc).
  - exists x, y. split; [|done]. apply elem_of_cons in Hx as [->|Hx]; [|done].
    exfalso. revert Hk. apply keyLt_key. apply elem_of_cons in Hy as [->|Hy]; [done|].
    rewrite Forall_forall in Hn. by eapply idCmp_trans; [|apply Hn].
  - exists x, y. split; [by right|done].
Qed.

Lemma clashing_new o old n new :
  keyLt n o -> StronglySorted keyLt (o :: old) ->
  clashing (o :: old) (n :: new) <-> clashing (o :: old) new.
Proof using All.
  intros Hon [Ho _]%sorted_cons_iff. split; intros (x & y & Hx & Hy & Hk & Hc).
  - exists x, y. split; [done|]. apply elem_of_cons in Hy as [->|Hy]; [|done].
    exfalso. symmetry in Hk. revert Hk. apply keyLt_key. apply elem_of_cons in Hx as [->|Hx]; [done|].
    rewrite Forall_forall in Ho. by eapply idCmp_trans; [|apply Ho].
  - exists x, y. split; [done|]. split; [by right|done].
Qed.

Lemma clashing_both o old n new :
  bucketKey o = bucketKey n -> StronglySorted keyLt (o :: old) -> StronglySorted keyLt (n :: new) ->
  clashing (o :: old) (n :: new) <-> clash o n = true \/ clashing old new.
Proof using All.
  intros Hk [Ho _]%sorted_cons_iff [Hn _]%sorted_cons_iff. rewrite Forall_forall in Ho, Hn. split.
  - intros (x & y & Hx & Hy & Hxy & Hc).
    apply elem_of_cons in Hx as [->|Hx]; apply elem_of_cons in Hy as [->|Hy].
    + by left.
    + exfalso. pose proof (keyLt_key _ _ (Hn y Hy)). congruence.
    + exfalso. pose proof (keyLt_key _ _ (Ho x Hx)). congruence.
    + right. by exists x, y.
  - intros [Hc|(x & y & Hx & Hy & Hxy & Hc)]; [exists o, n|exists x, y]; repeat split; try done; by constructor.
Qed.

(** ** The whole loop *)

Definition LoopResult (s : MergeState) (old new : list BucketEntry) (r : outcome MergeState unit) : Prop :=
  match r with
  | Ok _ s' => ~ clashing old new /\ outputFile (out s') = outputFile (out s) ++ filter written (mergeRef old new)
  | Err f _ => f = MALFORMED /\ clashing old new
  end.

(** One turn of the loop. *)
Definition mergeStep : M MergeState unit :=
  let* accepted := mergeCasesWithDefaultAcceptance v keep in
  if negb accepted then mergeCasesWithEqualKeys v keep else mret tt.

(** A turn writes what the reference merge puts in front of the rest. *)
Definition Progress (s s' : MergeState) (old new : list BucketEntry) : Prop :=
  exists outs old1 new1, Moved s s' outs old1 new1 /\
    (length old1 + length new1 < length old + length new)%nat /\
    (clashing old new <-> clashing old1 new1) /\
    filter written (mergeRef old new) = outs ++ filter written (mergeRef old1 new1).

Lemma filter_cons_written e l :
  filter written (e :: l) = (if written e then [e] else []) ++ filter written l.
Proof using All. rewrite filter_cons. destruct (decide _) as [H|H]; destruct (written e); try done; by destruct H. Qed.

Lemma default_ok s :
  mergeCasesWithDefaultAcceptance v keep s =
  match mEntryPtr (oi s), mEntryPtr (ni s) with
  | None, None => bnd (count mOldEntriesDefaultAccepted) (fun _ => fail (NullPointer "*oi")) s
  | Some o, None => acceptOld o s
  | None, Some n => acceptNew n s
  | Some o, Some n =>
      if BucketEntryIdCmp o n then acceptOld o s
      else if BucketEntryIdCmp n o then acceptNew n s
      else Ok false s
  end.
Proof using All.
  unfold mergeCasesWithDefaultAcceptance. unfold bnd at 1, mbind, M_bind, get.
  destruct (mEntryPtr (oi s)) as [o|], (mEntryPtr (ni s)) as [n|]; try reflexivity.
  by destruct (BucketEntryIdCmp o n); [|destruct (BucketEntryIdCmp n o)].
Qed.

Lemma no_clash_nil_l new : ~ clashing [] new.
Proof using All. by intros (? & ? & ?%elem_of_nil & _). Qed.
Lemma no_clash_nil_r old : ~ clashing old [].
Proof using All. by intros (? & ? & _ & ?%elem_of_nil & _). Qed.

(** The turns that take the old, or the new, record as it is. *)
Lemma step_old s o old :
  MergeInv s -> rest (oi s) = o :: old -> Forall (keyLt o) (rest (ni s)) ->
  mergeCasesWithDefaultAcceptance v keep s = acceptOld o s ->
  (clashing (o :: old) (rest (ni s)) <-> clashing old (rest (ni s))) ->
  mergeRef (o :: old) (rest (ni s)) = o :: mergeRef old (rest (ni s)) ->
  exists s', mergeStep s = Ok tt s' /\ Progress s s' (o :: old) (rest (ni s)).
Proof using All.
  intros HI Ho Hn Hd Hc Hm. destruct (acceptOld_ok s o old HI Ho Hn) as (s1 & E & HM).
  exists s1. unfold mergeStep, bnd, mbind, M_bind. rewrite Hd, E. split; [done|].
  exists (if written o then [o] else []), old, (rest (ni s)). split; [done|]. split; [cbn; lia|].
  split; [done|]. rewrite Hm. apply filter_cons_written.
Qed.

Lemma step_new s n new :
  MergeInv s -> rest (ni s) = n :: new -> Forall (keyLt n) (rest (oi s)) ->
  mergeCasesWithDefaultAcceptance v keep s = acceptNew n s ->
  (clashing (rest (oi s)) (n :: new) <-> clashing (rest (oi s)) new) ->
  mergeRef (rest (oi s)) (n :: new) = n :: mergeRef (rest (oi s)) new ->
  exists s', mergeStep s = Ok tt s' /\ Progress s s' (rest (oi s)) (n :: new).
Proof using All.
  intros HI Hn Ho Hd Hc Hm. destruct (acceptNew_ok s n new HI Hn Ho) as (s1 & E & HM).
  exists s1. unfold mergeStep, bnd, mbind, M_bind. rewrite Hd, E. split; [done|].
  exists (if written n then [n] else []), (rest (oi s)), new. split; [done|]. split; [cbn; lia|].
  split; [done|]. rewrite Hm. apply filter_cons_written.
Qed.

Lemma step_both s o old n new :
  MergeInv s -> rest (oi s) = o :: old -> rest (ni s) = n :: new ->
  (exists s', mergeStep s = Ok tt s' /\ Progress s s' (o :: old) (n :: new)) \/
  (exists s', mergeStep s = Err MALFORMED s' /\ clashing (o :: old) (n :: new)).
Proof using All.
  intros HI Ho Hn.
  assert (StronglySorted keyLt (o :: old)) as Hso by (destruct (mi_old _ HI) as [? [_ H _ _]]; by rewrite <- Ho).
  assert (StronglySorted keyLt (n :: new)) as Hsn by (destruct (mi_new _ HI) as [? [_ H _ _]]; by rewrite <- Hn).
  pose proof (default_ok s) as Hd. rewrite (rest_head _ _ _ Ho), (rest_head _ _ _ Hn) in Hd.
  destruct (BucketEntryIdCmp o n) eqn:E1; [|destruct (BucketEntryIdCmp n o) eqn:E2].
  - left. rewrite <- Hn. apply step_old; [done|done| |done|by rewrite Hn; apply clashing_old|by rewrite Hn, mergeRef_cons, E1].
    rewrite Hn. apply sorted_cons_iff in Hsn as [Hsn _]. constructor; [done|]. by eapply below_weaken.
  - left. rewrite <- Ho. apply step_new; [done|done| |done|by rewrite Ho; apply clashing_new|by rewrite Ho, mergeRef_cons, E1, E2].
    rewrite Ho. apply sorted_cons_iff in Hso as [Hso _]. constructor; [done|]. by eapply below_weaken.
  - pose proof (equalKeys_ok s o old n new HI Ho Hn E1 E2) as Hpair. pose proof (idCmp_eq _ _ E1 E2) as Hk.
    unfold mergeStep, bnd, mbind, M_bind. rewrite Hd. cbn [negb]. destruct (clash o n) eqn:Hc.
    + right. destruct Hpair as [s' E]. exists s'. split; [done|]. rewrite clashing_both by done. by left.
    + left. destruct Hpair as (s1 & E & HM). exists s1. split; [done|].
      exists (writtenPair o n), old, new. split; [done|]. split; [cbn; lia|].
      rewrite clashing_both, Hc by done. split; [split; [by intros [?|?]|by right]|].
      rewrite mergeRef_cons, E1, E2. unfold writtenPair. destruct (combine o n); [apply filter_cons_written|done].
Qed.

Lemma mergeStep_ok s :
  MergeInv s -> rest (oi s) <> [] \/ rest (ni s) <> [] ->
  (exists s', mergeStep s = Ok tt s' /\ Progress s s' (rest (oi s)) (rest (ni s))) \/
  (exists s', mergeStep s = Err MALFORMED s' /\ clashing (rest (oi s)) (rest (ni s))).
Proof using All.
  intros HI Hne. pose proof (default_ok s) as Hd.
  destruct (rest (oi s)) as [|o old] eqn:Ho, (rest (ni s)) as [|n new] eqn:Hn.
  - by destruct Hne.
  - left. rewrite <- Ho. rewrite (proj2 (rest_nil _) Ho), (rest_head _ _ _ Hn) in Hd.
    apply step_new; [done|done|by rewrite Ho|done| |by rewrite Ho, !mergeRef_nil_l].
    rewrite Ho. split; intros H; by apply no_clash_nil_l in H.
  - left. rewrite <- Hn. rewrite (proj2 (rest_nil _) Hn), (rest_head _ _ _ Ho) in Hd.
    apply step_old; [done|done|by rewrite Hn|done| |by rewrite Hn, !mergeRef_nil_r].
    rewrite Hn. split; intros H; by apply no_clash_nil_r in H.
  - by apply step_both.
Qed.

Lemma mergeLoop_done isShutdown fuel iter asked s :
  rest (oi s) = [] -> rest (ni s) = [] -> mergeLoop isShutdown v keep fuel iter asked s = Ok tt s.
Proof using All.
  intros Ho Hn. destruct fuel; cbn; unfold bnd, mbind, M_bind, get;
    by rewrite (proj2 (rest_nil _) Ho), (proj2 (rest_nil _) Hn).
Qed.

Lemma mergeLoop_unfold isShutdown fuel iter asked s :
  (forall k, isShutdown k = false) -> rest (oi s) <> [] \/ rest (ni s) <> [] ->
  exists iter' asked', mergeLoop isShutdown v keep (Datatypes.S fuel) iter asked s =
    bnd mergeStep (fun _ => mergeLoop isShutdown v keep fuel iter' asked') s.
Proof using All.
  intros Hsd Hne. cbn [mergeLoop]. unfold bnd at 1, mbind, M_bind, get. rewrite Hsd, andb_false_r.
  do 2 eexists. unfold mergeStep, bnd, mbind, M_bind, mret, M_ret.
  destruct (mEntryPtr (oi s)) as [o|] eqn:Ho, (mEntryPtr (ni s)) as [n|] eqn:Hn;
    try (by destruct (mergeCasesWithDefaultAcceptance v keep s) as [[] ?|]).
  rewrite rest_nil in Ho. rewrite rest_nil in Hn. by destruct Hne.
Qed.

Lemma mergeLoop_ok isShutdown fuel iter asked s :
  (forall k, isShutdown k = false) ->
  (length (rest (oi s)) + length (rest (ni s)) <= fuel)%nat -> MergeInv s ->
  LoopResult s (rest (oi s)) (rest (ni s)) (mergeLoop isShutdown v keep fuel iter asked s).
Proof using All.
  intros Hsd. revert iter asked s. induction fuel as [|fuel IH]; intros iter asked s Hf HI.
  all: destruct (decide (rest (oi s) = [] /\ rest (ni s) = [])) as [[Ho Hn]|Hne].
  1,3: rewrite mergeLoop_done, Ho, Hn by done; cbn; rewrite app_nil_r; split; [apply no_clash_nil_l|done].
  { exfalso. apply Hne. split; apply nil_length_inv; lia. }
  assert (rest (oi s) <> [] \/ rest (ni s) <> []) as Hne'
    by (destruct (decide (rest (oi s) = [])); [right; intros ?; by apply Hne|by left]).
  destruct (mergeLoop_unfold isShutdown fuel iter asked s Hsd Hne') as (iter' & asked' & ->).
  unfold bnd, mbind, M_bind.
  destruct (mergeStep_ok s HI Hne') as [(s1 & E & outs & old1 & new1 & HM & Hlen & Hc & Hm)|(s1 & E & Hc)];
    rewrite E; [|done].
  destruct HM as (HI1 & Hfile & <- & <-). specialize (IH iter' asked' s1). unfold LoopResult in *.
  destruct (mergeLoop isShutdown v keep fuel iter' asked' s1) as [[] s2|f s2].
  - rewrite Hc, Hm, app_assoc, <- Hfile. apply IH; [lia|done].
  - rewrite Hc. apply IH; [lia|done].
Qed.
End Loop.

(** ** The whole merge *)

(** The version the merge runs under. *)
Definition mergeVersion (old new : list BucketEntry) (shadows : list (list BucketEntry)) : Z :=
  foldl (fun pv f => if fileVersion f <? FIRST_PROTOCOL_SHADOWS_REMOVED then Z.max (fileVersion f) pv else pv)
    (Z.max (fileVersion old) (fileVersion new)) shadows.

(** Why a merge is refused. *)
Definition refused (maxProtocolVersion : Z) (old new : list BucketEntry) (shadows : list (list BucketEntry))
    : Prop :=
  let v := mergeVersion old new shadows in
  maxProtocolVersion < v \/ (FIRST_PROTOCOL_SHADOWS_REMOVED <= v /\ shadows <> [])
  \/ clashing (body old) (body new).

(** The file of the reference merge. *)
Definition mergedFile (old new : list BucketEntry) (shadows : list (list BucketEntry)) (keepDead : bool)
    : list BucketEntry :=
  let v := mergeVersion old new shadows in
  let life := FIRST_PROTOCOL_SUPPORTING_INITENTRY_AND_METAENTRY <=? v in
  (if life then [METAENTRY (mkMeta v)] else [])
  ++ filter (written life keepDead (body <$> shadows)) (mergeRef (body old) (body new)).

Lemma mergeVersion_ge old new shadows :
  fileVersion old <= mergeVersion old new shadows /\ fileVersion new <= mergeVersion old new shadows.
Proof.
  unfold mergeVersion. assert (forall pv, pv <= foldl (fun pv f => if fileVersion f <? FIRST_PROTOCOL_SHADOWS_REMOVED
    then Z.max (fileVersion f) pv else pv) pv shadows) as H.
  { induction shadows as [|f l IH]; intros pv; cbn [foldl]; [lia|].
    destruct (_ <? _); [specialize (IH (Z.max (fileVersion f) pv))|specialize (IH pv)]; lia. }
  specialize (H (Z.max (fileVersion old) (fileVersion new))). lia.
Qed.

Lemma mergeVersion_none old new : mergeVersion old new [] = Z.max (fileVersion old) (fileVersion new).
Proof. reflexivity. Qed.

Lemma calculate_ok mc maxv oi ni its old new shadows :
  InOK (fileVersion old) oi -> InOK (fileVersion new) ni ->
  Forall2 (fun f it => InOK (fileVersion f) it /\ rest it = body f) shadows its ->
  let v := mergeVersion old new shadows in
  match calculateMergeProtocolVersion mc maxv oi ni its with
  | inr (v', keep, _) =>
      v' = v /\ keep = (FIRST_PROTOCOL_SUPPORTING_INITENTRY_AND_METAENTRY <=? v) /\ v <= maxv /\
      (FIRST_PROTOCOL_SHADOWS_REMOVED <= v -> shadows = [])
  | inl _ => maxv < v \/ (FIRST_PROTOCOL_SHADOWS_REMOVED <= v /\ shadows <> [])
  end.
Proof.
  intros Ho Hn Hs v. unfold calculateMergeProtocolVersion. rewrite (in_version _ _ Ho), (in_version _ _ Hn).
  assert (forall pv, foldl (fun pv si => if protocolVersionIsBefore (inputVersion si) FIRST_PROTOCOL_SHADOWS_REMOVED
            then Z.max (inputVersion si) pv else pv) pv its =
          foldl (fun pv f => if fileVersion f <? FIRST_PROTOCOL_SHADOWS_REMOVED then Z.max (fileVersion f) pv else pv)
            pv shadows) as ->.
  { induction Hs as [|f it fs its [Hf _] _ IH]; intros pv; cbn [foldl]; [done|].
    rewrite (in_version _ _ Hf). apply IH. }
  fold (mergeVersion old new shadows). fold v.
  destruct (Z.ltb_spec maxv v); [by left|].
  assert (negb (protocolVersionIsBefore v FIRST_PROTOCOL_SUPPORTING_INITENTRY_AND_METAENTRY) =
          (FIRST_PROTOCOL_SUPPORTING_INITENTRY_AND_METAENTRY <=? v)) as ->
    by (unfold protocolVersionIsBefore; by rewrite Z.leb_antisym).
  unfold protocolVersionIsBefore. destruct (Z.ltb_spec v FIRST_PROTOCOL_SHADOWS_REMOVED).
  - cbn. repeat split; [lia|lia].
  - destruct Hs as [|f it fs its _ _]; cbn; [done|]. right. by split.
Qed.

Lemma legal_candidate v file e :
  WfFile file -> fileVersion file <= v -> e ∈ body file -> legal v e.
Proof.
  intros Hwf Hv He. unfold legal.
  destruct (Z.le_gt_cases FIRST_PROTOCOL_SUPPORTING_INITENTRY_AND_METAENTRY v); [by apply legal_since|].
  pose proof (body_noMeta _ Hwf) as Hm. pose proof (body_noInit _ Hwf ltac:(lia)) as Hi.
  rewrite Forall_forall in Hm, Hi. apply legal_old; auto.
Qed.

Lemma shadows_open P shadows its :
  Forall2 (fun f it => InOK (fileVersion f) it /\ rest it = body f) shadows its ->
  Forall2 (ShadowOK P) (body <$> shadows) its.
Proof.
  induction 1 as [|f it fs its [Hf Hr] _ IH]; constructor; [|done].
  exists (fileVersion f), []. split; [by rewrite Hr|]. split; [done|]. by intros x y ?%elem_of_nil.
Qed.

Lemma body_length file : (length (body file) <= length file)%nat.
Proof. destruct file as [|[] ?]; cbn; lia. Qed.

Lemma below_meta m l : Forall noMeta l -> Forall (keyLt (METAENTRY m)) l.
Proof.
  intros H. apply (Forall_impl _ _ _ H). intros y Hy. unfold keyLt. rewrite idCmp_keys. by destruct y.
Qed.

(** The invariant holds when the loop starts. *)
Lemma start_inv old new shadows io it its o keepDead :
  WfFile old -> WfFile new ->
  InOK (fileVersion old) io /\ rest io = body old -> InOK (fileVersion new) it /\ rest it = body new ->
  Forall2 (fun f it => InOK (fileVersion f) it /\ rest it = body f) shadows its ->
  let v := mergeVersion old new shadows in
  mKeepDeadEntries o = keepDead -> mMeta o = mkMeta v ->
  outputFile o = (if FIRST_PROTOCOL_SUPPORTING_INITENTRY_AND_METAENTRY <=? v
                  then [METAENTRY (mkMeta v)] else []) ->
  MergeInv v keepDead (body <$> shadows) (mkMerge io it o its).
Proof.
  intros Ho Hn [Hio Hro] [Hin Hrn] Hits v Hkd Hmeta Hfile.
  destruct (mergeVersion_ge old new shadows) as [Hvo Hvn].
  split; cbn; [by eexists|by eexists| |by apply shadows_open|done|done|].
  - intros y [Hy|Hy]%candidate_rest; cbn in Hy; [rewrite Hro in Hy|rewrite Hrn in Hy];
      [by apply (legal_candidate v old)|by apply (legal_candidate v new)].
  - intros x y Hx Hy. rewrite Hfile in Hx. destruct (_ <=? v); [|by apply elem_of_nil in Hx].
    apply list_elem_of_singleton in Hx as ->. unfold candidate in Hy. cbn in Hy. rewrite Hro, Hrn in Hy.
    assert (Forall noMeta (body old ++ body new)) as Hm by (apply Forall_app; split; by apply body_noMeta).
    apply (below_meta (mkMeta v)) in Hm. rewrite Forall_forall in Hm. by apply Hm.
Qed.

Lemma mergeOutput_spec isShutdown maxv old new shadows keepDead :
  (forall k, isShutdown k = false) -> WfFile old -> WfFile new -> Forall WfFile shadows ->
  match mergeOutput isShutdown maxv old new shadows keepDead with
  | inr o => ~ refused maxv old new shadows /\ outputFile o = mergedFile old new shadows keepDead
  | inl _ => refused maxv old new shadows
  end.
Proof.
  intros Hsd Ho Hn Hs. unfold mergeOutput.
  destruct (openBucket_ok old Ho) as (io & Eo & Hio & Hro).
  destruct (openBucket_ok new Hn) as (it & En & Hin & Hrn).
  destruct (openAll_ok shadows Hs) as (its & Es & Hits).
  rewrite Eo. cbn [bnd mbind exc_bind]. rewrite En. cbn [bnd mbind exc_bind]. rewrite Es. cbn [bnd mbind exc_bind].
  pose proof (calculate_ok zeroCounters maxv io it its old new shadows Hio Hin Hits) as Hcalc. cbn zeta in Hcalc.
  destruct (calculateMergeProtocolVersion zeroCounters maxv io it its) as [f|[[v keep] mc]];
    cbn [bnd mbind exc_bind]; [unfold refused; tauto|].
  destruct Hcalc as (-> & -> & Hmax & Hsh). set (v := mergeVersion old new shadows) in *.
  set (life := FIRST_PROTOCOL_SUPPORTING_INITENTRY_AND_METAENTRY <=? v).
  destruct (openOutput_ok keepDead v mc) as (o & Eout & Hkd & Hmeta & Hfile). rewrite Eout. cbn [bnd mbind exc_bind].
  pose proof (start_inv old new shadows io it its o keepDead Ho Hn (conj Hio Hro) (conj Hin Hrn) Hits Hkd Hmeta Hfile)
    as HI. cbn zeta in HI. fold v in HI.
  pose proof (mergeLoop_ok v life keepDead (body <$> shadows) isShutdown (length old + length new) 0 0
    (mkMerge io it o its) Hsd) as Hloop.
  cbn [oi ni] in Hloop. rewrite Hro, Hrn in Hloop.
  specialize (Hloop ltac:(pose proof (body_length old); pose proof (body_length new); lia) HI).
  destruct (mergeLoop isShutdown v life (length old + length new) 0 0 _) as [[] s1|f s1].
  - destruct Hloop as [Hnc Hout]. cbn. split.
    + unfold refused. fold v. intros [?|[[? ?]|?]]; [lia|auto|done].
    + unfold mergedFile. fold v. fold life. rewrite Hout. cbn [out]. by rewrite Hfile.
  - cbn. destruct Hloop as [_ Hc]. right. by right.
Qed.
