(* ===== verification/BucketSpec.v ===== *)
(** * What a bucket says about the ledger

    A bucket takes the ledger from one state to a later one: a created entry was
    absent before, an updated or deleted one was there.  A merge of two consecutive
    buckets takes the ledger over both steps at once, without losing the information
    which entries were created; and the bucket built from one ledger's changes takes
    the ledger over those changes. *)

From stdpp Require Import base list gmap strings sorting.
From S2P Require Import Prelude Exchange Entries BucketEntries Bucket BucketMerge.

Local Open Scope Z_scope.

#[local] Arguments BucketEntryIdCmp : simpl never.

(** ** The merged file *)

Lemma wf_version_range file :
  WfFile file -> fileVersion file = 0 \/ FIRST_PROTOCOL_SUPPORTING_INITENTRY_AND_METAENTRY <= fileVersion file.
Proof. intros [_ H]. destruct file as [|[] ?]; cbn in *; auto. Qed.

Lemma wf_empty : WfFile [].
Proof. by repeat constructor. Qed.

(** A file of records about keys, with the metadata a version calls for. *)
Definition withMeta (v : Z) (l : list BucketEntry) : list BucketEntry :=
  (if FIRST_PROTOCOL_SUPPORTING_INITENTRY_AND_METAENTRY <=? v then [METAENTRY (mkMeta v)] else []) ++ l.

Lemma body_plain l : Forall noMeta l -> body l = l.
Proof. intros H. destruct l as [|[] ?]; try done. by apply Forall_inv in H. Qed.

Lemma body_withMeta v l : Forall noMeta l -> body (withMeta v l) = l.
Proof. intros H. unfold withMeta. destruct (_ <=? v); [done|]. by apply body_plain. Qed.

Lemma version_withMeta v l :
  Forall noMeta l -> v = 0 \/ FIRST_PROTOCOL_SUPPORTING_INITENTRY_AND_METAENTRY <= v ->
  fileVersion (withMeta v l) = v.
Proof.
  intros H Hv. unfold withMeta. destruct (Z.leb_spec FIRST_PROTOCOL_SUPPORTING_INITENTRY_AND_METAENTRY v); [done|].
  destruct Hv as [->|Hv]; [|lia]. destruct l as [|[] ?]; try done. by apply Forall_inv in H.
Qed.

Lemma wf_withMeta v l :
  Forall noMeta l -> StronglySorted keyLt l ->
  (v < FIRST_PROTOCOL_SUPPORTING_INITENTRY_AND_METAENTRY -> Forall noInit l) -> WfFile (withMeta v l).
Proof.
  intros Hm Hs Hi. unfold withMeta. destruct (Z.leb_spec FIRST_PROTOCOL_SUPPORTING_INITENTRY_AND_METAENTRY v) as [Hv|Hv].
  - split; [|exact Hv]. constructor; [done|]. by apply below_meta.
  - split; [done|]. destruct l as [|[] ?]; try (by apply Hi). by apply Forall_inv in Hm.
Qed.

Lemma mergeRef_Forall (P : BucketEntry -> Prop) old new :
  (forall o n e, P o -> P n -> combine o n = Some e -> P e) ->
  Forall P old -> Forall P new -> Forall P (mergeRef old new).
Proof.
  intros HP. revert old new. apply (merge_ind (fun old new => Forall P old -> Forall P new -> Forall P (mergeRef old new))).
  - intros new _ H. by rewrite mergeRef_nil_l.
  - intros old H _. by rewrite mergeRef_nil_r.
  - intros o old n new E IH [Ho Hold]%Forall_cons Hn. rewrite mergeRef_cons, E. constructor; auto.
  - intros o old n new E IH Ho [Hn Hnew]%Forall_cons. rewrite mergeRef_cons, E, (idCmp_asym _ _ E). constructor; auto.
  - intros o old n new E1 E2 IH [Ho Hold]%Forall_cons [Hn Hnew]%Forall_cons. rewrite mergeRef_cons, E1, E2.
    destruct (combine o n) as [e|] eqn:Ec; [constructor; [by apply (HP o n)|]|]; by apply IH.
Qed.

Lemma combine_noMeta o n e : noMeta o -> noMeta n -> combine o n = Some e -> noMeta e.
Proof. by destruct o, n; cbn; intros ? ? [= <-]. Qed.
Lemma combine_noInit o n e : noInit o -> noInit n -> combine o n = Some e -> noInit e.
Proof. by destruct o, n; cbn; intros ? ? [= <-]. Qed.

Lemma Forall_filter_sub {A} (P : A -> Prop) (Q : A -> bool) l : Forall P l -> Forall P (filter Q l).
Proof. intros H. apply Forall_forall. intros x [_ Hx]%list_elem_of_filter. rewrite Forall_forall in H. by apply H. Qed.

Lemma sorted_filter (Q : BucketEntry -> bool) l : StronglySorted keyLt l -> StronglySorted keyLt (filter Q l).
Proof.
  induction 1 as [|x l Hs IH Hx]; [constructor|]. rewrite filter_cons. destruct (decide _); [|done].
  constructor; [done|]. by apply Forall_filter_sub.
Qed.

Section Merged.
Context (old new : list BucketEntry) (shadows : list (list BucketEntry)) (keepDead : bool).
Hypothesis old_wf : WfFile old.
Hypothesis new_wf : WfFile new.

Definition mergedBody : list BucketEntry :=
  filter (written (FIRST_PROTOCOL_SUPPORTING_INITENTRY_AND_METAENTRY <=? mergeVersion old new shadows) keepDead
            (body <$> shadows)) (mergeRef (body old) (body new)).

Lemma mergedFile_eq : mergedFile old new shadows keepDead = withMeta (mergeVersion old new shadows) mergedBody.
Proof using All. reflexivity. Qed.

Lemma mergedBody_noMeta : Forall noMeta mergedBody.
Proof using All.
  apply Forall_filter_sub, mergeRef_Forall; [apply combine_noMeta|by apply body_noMeta..].
Qed.

Lemma body_merged : body (mergedFile old new shadows keepDead) = mergedBody.
Proof using All. rewrite mergedFile_eq. apply body_withMeta, mergedBody_noMeta. Qed.

Lemma merged_wf : WfFile (mergedFile old new shadows keepDead).
Proof using All.
  rewrite mergedFile_eq. apply wf_withMeta; [apply mergedBody_noMeta| |].
  - apply sorted_filter, mergeRef_sorted; by apply body_sorted.
  - intros Hv. destruct (mergeVersion_ge old new shadows). apply Forall_filter_sub, mergeRef_Forall.
    + apply combine_noInit.
    + apply body_noInit; [done|lia].
    + apply body_noInit; [done|lia].
Qed.

Lemma merged_entry k :
  entryFor k (body (mergedFile old new shadows keepDead)) =
  match combineOpt (entryFor k (body old)) (entryFor k (body new)) with
  | Some e => if written (FIRST_PROTOCOL_SUPPORTING_INITENTRY_AND_METAENTRY <=? mergeVersion old new shadows)
                   keepDead (body <$> shadows) e then Some e else None
  | None => None
  end.
Proof using All.
  rewrite body_merged. unfold mergedBody.
  rewrite entryFor_filter by (apply mergeRef_sorted; by apply body_sorted).
  by rewrite mergeRef_entry by (by apply body_sorted).
Qed.

Lemma merged_version :
  shadows = [] -> fileVersion (mergedFile old new shadows keepDead) = Z.max (fileVersion old) (fileVersion new).
Proof using All.
  intros Hs. rewrite mergedFile_eq, version_withMeta; [by rewrite Hs, mergeVersion_none|apply mergedBody_noMeta|].
  rewrite Hs, mergeVersion_none. pose proof (wf_version_range _ old_wf). pose proof (wf_version_range _ new_wf).
  unfold FIRST_PROTOCOL_SUPPORTING_INITENTRY_AND_METAENTRY in *. lia.
Qed.

End Merged.

(** ** From one ledger state to a later one *)

Abbreviation Ledger := (gmap LedgerKey LedgerEntry) (only parsing).

Definition takes (e : option BucketEntry) (before after : option LedgerEntry) : Prop :=
  match e with
  | Some (INITENTRY x) => before = None /\ after = Some x
  | Some (LIVEENTRY x) => is_Some before /\ after = Some x
  | Some (DEADENTRY _) => is_Some before /\ after = None
  | Some (METAENTRY _) => False
  | None => after = before
  end.

(** The file accounts for the step from [m] to [m']. *)
Definition Takes (file : list BucketEntry) (m m' : Ledger) : Prop :=
  forall k, takes (entryFor k (body file)) (m !! k) (m' !! k).

Lemma takes_nil m : Takes [] m m.
Proof. by intros k. Qed.

Lemma takes_nil_inv m m' : Takes [] m m' -> m' = m.
Proof. intros H. apply map_eq. intros k. apply H. Qed.

Lemma takes_combine o n a b c :
  takes o a b -> takes n b c ->
  takes (combineOpt o n) a c /\ (forall x y, o = Some x -> n = Some y -> clash x y = false).
Proof.
  destruct o as [[x|x|k|m]|], n as [[y|y|k'|m']|]; cbn; try done; intros Ho Hn;
    repeat match goal with H : _ /\ _ |- _ => destruct H end;
    repeat match goal with H : is_Some _ |- _ => destruct H end;
    subst; (split; [by eauto|intros ? ? [= <-] [= <-]; done]).
Qed.

(** Without shadows a merge of consecutive steps drops nothing. *)
Lemma merged_entry_takes old new keepDead a b c k :
  WfFile old -> WfFile new -> Takes old a b -> Takes new b c -> keepDead = true \/ a = ∅ ->
  entryFor k (body (mergedFile old new [] keepDead)) = combineOpt (entryFor k (body old)) (entryFor k (body new)).
Proof.
  intros Hwo Hwn Ho Hn Hdead. rewrite merged_entry by done.
  destruct (takes_combine _ _ _ _ _ (Ho k) (Hn k)) as [Ht _].
  destruct (combineOpt _ _) as [e|]; [|done]. unfold written, shadowedBy. cbn [fmap list_fmap existsb].
  rewrite andb_false_r. cbn [negb andb]. destruct Hdead as [-> | ->]; [done|].
  destruct (isDEAD e) eqn:Ed; [|by rewrite andb_false_r]. destruct e; try done. cbn in Ht.
  rewrite lookup_empty in Ht. by destruct Ht as [[] _].
Qed.

(** Two consecutive steps are one step of the merge. *)
Lemma merged_takes old new keepDead a b c :
  WfFile old -> WfFile new -> Takes old a b -> Takes new b c -> keepDead = true \/ a = ∅ ->
  Takes (mergedFile old new [] keepDead) a c.
Proof.
  intros Hwo Hwn Ho Hn Hdead k. rewrite (merged_entry_takes _ _ _ a b c) by done.
  apply (takes_combine _ _ _ _ _ (Ho k) (Hn k)).
Qed.

(** Such a merge goes through. *)
Lemma merge_accepted maxv old new a b c :
  WfFile old -> WfFile new -> Takes old a b -> Takes new b c ->
  Z.max (fileVersion old) (fileVersion new) <= maxv -> ~ refused maxv old new [].
Proof.
  intros Hwo Hwn Ho Hn Hmax [Hv|[[_ Hs]|(x & y & Hx & Hy & Hk & Hc)]].
  - rewrite mergeVersion_none in Hv. lia.
  - done.
  - pose proof (body_noMeta _ Hwo) as Hm. rewrite Forall_forall in Hm. specialize (Hm x Hx).
    destruct (bucketKey x) as [k|] eqn:Ek; [|by destruct x]. symmetry in Hk.
    destruct (takes_combine _ _ _ _ _ (Ho k) (Hn k)) as [_ Hnc].
    rewrite (Hnc x y) in Hc; [done|apply entryFor_in; auto using body_sorted..].
Qed.

(** ** Building a bucket from one ledger's changes *)

Lemma entryLe_total a b : entryLe a b \/ entryLe b a.
Proof. unfold entryLe. destruct (BucketEntryIdCmp b a) eqn:E; [right; by apply idCmp_asym|by left]. Qed.

#[export] Instance entryLe_Total : Total entryLe.
Proof. intros a b. apply entryLe_total. Qed.

#[export] Instance entryLe_trans : Transitive entryLe.
Proof.
  intros a b c. unfold entryLe. intros H1 H2. apply not_true_iff_false. intros H.
  destruct (BucketEntryIdCmp b c) eqn:E.
  - by rewrite (idCmp_trans _ _ _ E H) in H1.
  - by rewrite (idCmp_key b c a (idCmp_eq _ _ E H2)), H in H1.
Qed.

Lemma strictlyIncreasing_iff l : strictlyIncreasing l = true <-> StronglySorted keyLt l.
Proof.
  induction l as [|a [|b l] IH]; [by split; [constructor|]|by split; [repeat constructor|]|].
  change (strictlyIncreasing (a :: b :: l)) with (BucketEntryIdCmp a b && strictlyIncreasing (b :: l)).
  rewrite andb_true_iff, IH. split.
  - intros [Hab Hs]. pose proof Hs as [Hb _]%sorted_cons_iff. constructor; [done|].
    constructor; [done|]. by apply (below_weaken _ b).
  - intros [Ha Hs]%sorted_cons_iff. split; [by apply Forall_inv in Ha|done].
Qed.

Lemma sorted_keys_NoDup l : StronglySorted keyLt l -> NoDup (bucketKey <$> l).
Proof.
  induction 1 as [|e l Hs IH He]; [constructor|]. cbn. constructor; [|done].
  intros (x & Hk & Hx)%list_elem_of_fmap. rewrite Forall_forall in He. by apply (keyLt_key _ _ (He x Hx)).
Qed.

Lemma le_sorted_strict l :
  StronglySorted entryLe l -> NoDup (bucketKey <$> l) -> StronglySorted keyLt l.
Proof.
  induction 1 as [|e l Hs IH He]; [constructor|]. cbn. intros [Hk Hnd]%NoDup_cons. constructor; [by apply IH|].
  rewrite Forall_forall in He |- *. intros x Hx. unfold keyLt. destruct (BucketEntryIdCmp e x) eqn:E; [done|].
  exfalso. apply Hk. rewrite (idCmp_eq _ _ E (He x Hx)). by apply list_elem_of_fmap_2.
Qed.

(** The changes of one ledger. *)
Record Batch := mkBatch { initEntries : list LedgerEntry; liveEntries : list LedgerEntry; deadEntries : list LedgerKey }.

Definition batchEntries (useInit : bool) (b : Batch) : list BucketEntry :=
  ((if useInit then INITENTRY else LIVEENTRY) <$> initEntries b)
  ++ (LIVEENTRY <$> liveEntries b) ++ (DEADENTRY <$> deadEntries b).

Definition batchKeys (b : Batch) : list LedgerKey :=
  (LedgerEntryKey <$> initEntries b) ++ (LedgerEntryKey <$> liveEntries b) ++ deadEntries b.

Lemma batchEntries_keys useInit b : bucketKey <$> batchEntries useInit b = Some <$> batchKeys b.
Proof.
  unfold batchEntries, batchKeys. rewrite !fmap_app, <- !list_fmap_compose.
  by destruct useInit.
Qed.

Lemma batchEntries_noMeta useInit b : Forall noMeta (batchEntries useInit b).
Proof.
  unfold batchEntries. rewrite !Forall_app, !Forall_fmap.
  repeat split; apply Forall_forall; intros x _; by destruct useInit.
Qed.

Lemma convert_spec useInit b :
  match convertToBucketEntry useInit (initEntries b) (liveEntries b) (deadEntries b) with
  | inr l => NoDup (batchKeys b) /\ StronglySorted keyLt l /\ l ≡ₚ batchEntries useInit b
  | inl _ => ~ NoDup (batchKeys b)
  end.
Proof.
  unfold convertToBucketEntry. fold (batchEntries useInit b). set (l := merge_sort entryLe (batchEntries useInit b)).
  assert (l ≡ₚ batchEntries useInit b) as Hp by apply merge_sort_Permutation.
  assert (NoDup (batchKeys b) <-> NoDup (bucketKey <$> l)) as Hnd.
  { rewrite Hp, batchEntries_keys. symmetry. apply NoDup_fmap. by intros ?? [= ->]. }
  destruct (strictlyIncreasing l) eqn:E; cbn; rewrite Hnd.
  - apply strictlyIncreasing_iff in E. split; [by apply sorted_keys_NoDup|done].
  - intros H. apply not_true_iff_false in E. apply E, strictlyIncreasing_iff.
    apply le_sorted_strict; [|done]. apply (Sorted_StronglySorted _), Sorted_merge_sort, _.
Qed.

Lemma putAll_ok l o :
  mKeepDeadEntries o = true -> Forall noMeta l ->
  Forall (fun e => checkProtocolLegality e (meta_ledgerVersion (mMeta o)) = inr tt) l ->
  StronglySorted keyLt l -> (forall x, x ∈ outputFile o -> Forall (keyLt x) l) ->
  exists o', putAll l o = inr o' /\ outputFile o' = outputFile o ++ l.
Proof.
  revert o. induction l as [|e l IH]; intros o Hk Hm Hl Hs Hlt; [exists o; by rewrite app_nil_r|].
  apply Forall_cons in Hm as [Hme Hm]. apply Forall_cons in Hl as [Hle Hl]. apply sorted_cons_iff in Hs as [He Hs].
  destruct (putEntry_ok e o Hle Hme) as (o1 & E1 & [Hk1 Hm1] & Hf).
  { apply Forall_forall. intros x Hx. by apply (Forall_inv (Hlt x Hx)). }
  unfold kept in Hf. rewrite Hk in Hf. cbn in Hf.
  destruct (IH o1) as (o2 & E2 & Hf2); [by rewrite Hk1|done|by rewrite Hm1|done| |].
  - intros x. rewrite Hf. intros [Hx|Hx]%elem_of_app; [by apply (Forall_inv_tail (Hlt x Hx))|].
    by apply list_elem_of_singleton in Hx as ->.
  - exists o2. cbn. rewrite E1. cbn. split; [done|]. by rewrite Hf2, Hf, <- app_assoc.
Qed.

(** A ledger's changes become a bucket exactly when no key changes twice. *)
Lemma freshOutput_spec p b :
  match freshOutput p (initEntries b) (liveEntries b) (deadEntries b) with
  | inr o => NoDup (batchKeys b) /\
      exists l, outputFile o = withMeta p l /\ StronglySorted keyLt l /\
        l ≡ₚ batchEntries (FIRST_PROTOCOL_SUPPORTING_INITENTRY_AND_METAENTRY <=? p) b
  | inl _ => ~ NoDup (batchKeys b)
  end.
Proof.
  unfold freshOutput, protocolVersionStartsFrom.
  set (useInit := FIRST_PROTOCOL_SUPPORTING_INITENTRY_AND_METAENTRY <=? p).
  pose proof (convert_spec useInit b) as Hc.
  destruct (convertToBucketEntry _ _ _ _) as [f|l]; [exact Hc|]. cbn [bnd mbind exc_bind].
  destruct Hc as (Hnd & Hs & Hp). destruct (openOutput_ok true p zeroCounters) as (o & E & Hk & Hm & Hf).
  rewrite E. cbn [bnd mbind exc_bind].
  assert (Forall noMeta l) as Hml by (rewrite Hp; apply batchEntries_noMeta).
  destruct (putAll_ok l o) as (o' & E' & Hf'); [done|done| |done| |].
  - rewrite Hm. cbn. destruct (Z.leb_spec FIRST_PROTOCOL_SUPPORTING_INITENTRY_AND_METAENTRY p) as [Hv|Hv].
    + apply Forall_forall. intros e _. by apply legal_since.
    + rewrite Forall_forall in Hml |- *. intros e He. apply legal_old; [|by apply Hml].
      rewrite Hp in He. subst useInit.
      unfold batchEntries in He. rewrite !elem_of_app, !list_elem_of_fmap in He.
      by destruct He as [(? & -> & _)|[(? & -> & _)|(? & -> & _)]].
  - rewrite Hf. destruct (_ <=? p); intros x Hx; [|by apply elem_of_nil in Hx].
    apply list_elem_of_singleton in Hx as ->. by apply below_meta.
  - rewrite E'. split; [done|]. exists l. split; [|done]. by rewrite Hf', Hf.
Qed.

(** The changes applied to a ledger state. *)
Definition applyBatch (b : Batch) (m : Ledger) : Ledger :=
  foldr (fun k m => delete k m)
    (foldr (fun e m => <[LedgerEntryKey e := e]> m) m (initEntries b ++ liveEntries b)) (deadEntries b).

(** Changes a ledger close can produce: every key once, created entries new, the
    others there. *)
Record ValidBatch (b : Batch) (m : Ledger) : Prop := {
  vb_keys : NoDup (batchKeys b);
  vb_init e : e ∈ initEntries b -> m !! LedgerEntryKey e = None;
  vb_live e : e ∈ liveEntries b -> is_Some (m !! LedgerEntryKey e);
  vb_dead k : k ∈ deadEntries b -> is_Some (m !! k)
}.

Lemma inserts_lookup_ne l (m : Ledger) k :
  k ∉ LedgerEntryKey <$> l -> foldr (fun e m => <[LedgerEntryKey e := e]> m) m l !! k = m !! k.
Proof.
  induction l as [|e l IH]; cbn; [done|]. rewrite not_elem_of_cons. intros [Hk Hl].
  rewrite lookup_insert_ne by done. by apply IH.
Qed.

Lemma inserts_lookup l (m : Ledger) e :
  NoDup (LedgerEntryKey <$> l) -> e ∈ l ->
  foldr (fun e m => <[LedgerEntryKey e := e]> m) m l !! LedgerEntryKey e = Some e.
Proof.
  induction l as [|x l IH]; cbn; [by intros _ ?%elem_of_nil|]. intros [Hx Hl]%NoDup_cons [->|He]%elem_of_cons.
  - apply lookup_insert_eq.
  - rewrite lookup_insert_ne; [by apply IH|]. intros E. apply Hx. rewrite E. by apply list_elem_of_fmap_2.
Qed.

Lemma deletes_lookup l (m : Ledger) k :
  foldr (fun k m => delete k m) m l !! k = if decide (k ∈ l) then None else m !! k.
Proof.
  induction l as [|x l IH]; cbn; [by rewrite decide_False by apply not_elem_of_nil|].
  destruct (decide (x = k)) as [->|Hx].
  - rewrite lookup_delete_eq, decide_True; [done|by left].
  - rewrite lookup_delete_ne by done. rewrite IH. destruct (decide (k ∈ l)).
    + rewrite decide_True; [done|by right].
    + rewrite decide_False; [done|]. by intros [->|?]%elem_of_cons.
Qed.

Lemma applyBatch_change b m :
  NoDup (batchKeys b) ->
  (forall e, e ∈ initEntries b \/ e ∈ liveEntries b -> applyBatch b m !! LedgerEntryKey e = Some e) /\
  (forall k, k ∈ deadEntries b -> applyBatch b m !! k = None) /\
  (forall k, k ∉ batchKeys b -> applyBatch b m !! k = m !! k).
Proof.
  unfold batchKeys, applyBatch. rewrite app_assoc, <- fmap_app, NoDup_app. intros (H1 & H2 & _).
  split; [|split]; intros k Hk; rewrite deletes_lookup.
  - rewrite <- elem_of_app in Hk. rewrite decide_False; [by apply inserts_lookup|].
    apply H2. by apply list_elem_of_fmap_2.
  - by rewrite decide_True.
  - rewrite not_elem_of_app in Hk. destruct Hk. rewrite decide_False by done. by apply inserts_lookup_ne.
Qed.

Lemma perm_noMeta l b useInit : l ≡ₚ batchEntries useInit b -> Forall noMeta l.
Proof. intros ->. apply batchEntries_noMeta. Qed.

Lemma batch_entry b l useInit k :
  l ≡ₚ batchEntries useInit b -> is_Some (entryFor k l) <-> k ∈ batchKeys b.
Proof.
  intros Hp. transitivity (Some k ∈ bucketKey <$> l).
  - split.
    + intros [e [He Hk]%entryFor_Some]. rewrite <- Hk. by apply list_elem_of_fmap_2.
    + intros (e & Hk & He)%list_elem_of_fmap. destruct (entryFor k l) as [x|] eqn:E; [done|].
      apply entryFor_None in E. rewrite Forall_forall in E. by destruct (E e He).
  - rewrite Hp, batchEntries_keys, list_elem_of_fmap. split; [by intros (? & [= ->] & ?)|by exists k].
Qed.

Lemma takes_batch b m l :
  ValidBatch b m -> StronglySorted keyLt l -> l ≡ₚ batchEntries true b ->
  forall k, takes (entryFor k l) (m !! k) (applyBatch b m !! k).
Proof.
  intros [Hnd Hi Hl Hd] Hs Hp k. destruct (applyBatch_change b m Hnd) as (Ha & Hdel & Hrest).
  destruct (entryFor k l) as [e|] eqn:E.
  - apply entryFor_Some in E as [He Hk]. rewrite Hp in He. unfold batchEntries in He.
    rewrite !elem_of_app, !list_elem_of_fmap in He.
    destruct He as [(x & -> & Hx)|[(x & -> & Hx)|(x & -> & Hx)]]; cbn in Hk |- *; injection Hk as <-; auto.
  - cbn. apply Hrest. intros Hk. apply (batch_entry b l true k Hp) in Hk. rewrite E in Hk. by destruct Hk.
Qed.

(** The bucket of a valid batch takes the ledger over the batch, and has a record for
    every key of it. *)
Lemma fresh_takes p b m :
  FIRST_PROTOCOL_SUPPORTING_INITENTRY_AND_METAENTRY <= p -> ValidBatch b m ->
  exists o, freshOutput p (initEntries b) (liveEntries b) (deadEntries b) = inr o /\
    WfFile (outputFile o) /\ fileVersion (outputFile o) = p /\ Takes (outputFile o) m (applyBatch b m) /\
    forall k, is_Some (entryFor k (body (outputFile o))) <-> k ∈ batchKeys b.
Proof.
  intros Hp Hb. pose proof (freshOutput_spec p b) as Hf. destruct (freshOutput _ _ _ _) as [f|o].
  { exfalso. apply Hf, (vb_keys _ _ Hb). }
  destruct Hf as (_ & l & Hfile & Hs & Hperm). rewrite (proj2 (Z.leb_le _ _) Hp) in Hperm.
  pose proof (perm_noMeta _ _ _ Hperm) as Hm. exists o. rewrite Hfile. split; [done|].
  split; [apply wf_withMeta; [done|done|lia]|]. split; [apply version_withMeta; auto|].
  split; intros k; rewrite body_withMeta by done; [by apply takes_batch|by apply (batch_entry b l true)].
Qed.
