(* ===== verification/BucketLevels.v ===== *)
(** * The levels of the bucket list

    When a level of the bucket list spills into the next, and how many ledgers each
    half of a level covers, are functions of the ledger number alone
    ([bucket/BucketList.cpp]).  The source computes the sizes by a recursion over
    masks; they are shown to be the lengths of consecutive intervals of ledgers that
    together cover all ledgers closed so far. *)

From stdpp Require Import base list strings.
From S2P Require Import Prelude.

Local Open Scope Z_scope.

(** ** The source's arithmetic *)

Definition kNumLevels : nat := 11.

Definition levelSize (level : nat) : exc Z :=
  do* releaseAssert (Nat.ltb level kNumLevels) "level < kNumLevels" in
  mret (u32 (Z.shiftl 1 (2 * (Z.of_nat level + 1)))).

Definition levelHalf (level : nat) : exc Z :=
  let* size := levelSize level in mret (Z.shiftr size 1).

Definition mask (v m : Z) : Z := Z.land v (u32 (Z.lnot (u32 (m - 1)))).

Definition levelShouldSpill (ledger : Z) (level : nat) : exc bool :=
  if Nat.eqb level (kNumLevels - 1) then mret false
  else
    let* half := levelHalf level in
    let* size := levelSize level in
    mret ((ledger =? mask ledger half) || (ledger =? mask ledger size)).

Definition keepDeadEntries (level : nat) : bool := Nat.ltb level (kNumLevels - 1).

Definition shouldMergeWithEmptyCurr (ledger : Z) (level : nat) : exc bool :=
  match level with
  | O => mret false
  | S prev =>
      let* half := levelHalf prev in
      let mergeStartLedger := mask ledger half in
      let nextChangeLedger := u32 (mergeStartLedger + half) in
      levelShouldSpill nextChangeLedger level
  end.

(** [for (l = 0; l < level; l++) { sum += curr(l); sum += snap(l); }] *)
Fixpoint sumLevels (curr snap : nat -> exc Z) (level : nat) : exc Z :=
  match level with
  | O => mret 0
  | S l =>
      let* sum := sumLevels curr snap l in
      let* c := curr l in
      let* s := snap l in
      mret (u32 (u32 (sum + c) + s))
  end.

Fixpoint sizeOfCurrFuel (fuel : nat) (ledger : Z) (level : nat) : exc Z :=
  match fuel with
  | O => exc_throw OutOfFuel
  | S fuel =>
      do* releaseAssert (negb (ledger =? 0)) "ledger != 0" in
      do* releaseAssert (Nat.ltb level kNumLevels) "level < kNumLevels" in
      match level with
      | O => mret (if ledger =? 1 then 1 else 1 + ledger mod 2)
      | S prev =>
          let* size := levelSize level in
          let* half := levelHalf level in
          if negb (Nat.eqb level (kNumLevels - 1)) && negb (mask ledger half =? 0) then
            let sizeDelta := u32 (Z.shiftl 1 (2 * Z.of_nat level - 1)) in
            if (mask ledger half =? ledger) || (mask ledger size =? ledger) then mret sizeDelta
            else
              let* prevSize := levelSize prev in
              let* prevHalf := levelHalf prev in
              let previousRelevantLedger :=
                Z.max (Z.max (mask (ledger - 1) prevHalf) (mask (ledger - 1) prevSize))
                      (Z.max (mask (ledger - 1) half) (mask (ledger - 1) size)) in
              if (mask ledger prevHalf =? ledger) || (mask ledger prevSize =? ledger) then
                let* c := sizeOfCurrFuel fuel previousRelevantLedger level in
                mret (u32 (c + sizeDelta))
              else sizeOfCurrFuel fuel previousRelevantLedger level
          else
            let* blsize := sumLevels (sizeOfCurrFuel fuel ledger) (sizeOfSnapFuel fuel ledger) level in
            mret (u32 (ledger - blsize))
      end
  end
with sizeOfSnapFuel (fuel : nat) (ledger : Z) (level : nat) : exc Z :=
  match fuel with
  | O => exc_throw OutOfFuel
  | S fuel =>
      do* releaseAssert (negb (ledger =? 0)) "ledger != 0" in
      do* releaseAssert (Nat.ltb level kNumLevels) "level < kNumLevels" in
      if Nat.eqb level (kNumLevels - 1) then mret 0
      else
        let* size := levelSize level in
        if negb (mask ledger size =? 0) then levelHalf level
        else
          let* sum := sumLevels (sizeOfCurrFuel fuel ledger) (sizeOfSnapFuel fuel ledger) level in
          let* c := sizeOfCurrFuel fuel ledger level in
          mret (u32 (ledger - u32 (sum + c)))
  end.

(** A level calls itself at most five times, and then the levels below it. *)
Definition sizeFuel : nat := 6 * kNumLevels.
Definition sizeOfCurr : Z -> nat -> exc Z := sizeOfCurrFuel sizeFuel.
Definition sizeOfSnap : Z -> nat -> exc Z := sizeOfSnapFuel sizeFuel.

Definition oldestLedgerInCurr (ledger : Z) (level : nat) : exc Z :=
  do* releaseAssert (negb (ledger =? 0)) "ledger != 0" in
  do* releaseAssert (Nat.ltb level kNumLevels) "level < kNumLevels" in
  let* c := sizeOfCurr ledger level in
  if c =? 0 then mret UINT32_MAX
  else
    let* sum := sumLevels (sizeOfCurr ledger) (sizeOfSnap ledger) level in
    mret (u32 (u32 (ledger - sum - c) + 1)).

Definition oldestLedgerInSnap (ledger : Z) (level : nat) : exc Z :=
  do* releaseAssert (negb (ledger =? 0)) "ledger != 0" in
  do* releaseAssert (Nat.ltb level kNumLevels) "level < kNumLevels" in
  let* s := sizeOfSnap ledger level in
  if s =? 0 then mret UINT32_MAX
  else
    let* sum := sumLevels (sizeOfCurr ledger) (sizeOfSnap ledger) (S level) in
    mret (u32 (u32 (ledger - sum) + 1)).

(** The first level that does not spill, at most the last one. *)
Fixpoint maxMergeLevelFrom (todo : nat) (currLedger : Z) (i : nat) : exc nat :=
  match todo with
  | O => mret i
  | S todo =>
      let* spill := levelShouldSpill currLedger i in
      if negb spill then mret i else maxMergeLevelFrom todo currLedger (S i)
  end.
Definition getMaxMergeLevel (currLedger : Z) : exc nat :=
  maxMergeLevelFrom (kNumLevels - 1) currLedger 0.

(** ** Closed forms *)

(** Half the size of a level, [2 * 4 ^ i]. *)
Fixpoint half (i : nat) : Z := match i with O => 2 | S i => 4 * half i end.

(** How far behind the multiples of its half a level's boundary lies. *)
Fixpoint lag (i : nat) : Z := match i with O => 0 | S i => lag i + 2 * half i end.

Lemma half_pow i : half i = 2 ^ (2 * Z.of_nat i + 1).
Proof.
  induction i as [|i IH]; [done|]. cbn [half]. rewrite IH.
  replace (2 * Z.of_nat (S i) + 1) with ((2 * Z.of_nat i + 1) + 2) by lia.
  rewrite (Z.pow_add_r 2 _ 2) by lia. lia.
Qed.

Lemma half_pos i : 2 <= half i.
Proof. induction i as [|i IH]; cbn; lia. Qed.

Lemma lag_half i : 3 * lag i = 2 * half i - 4.
Proof. induction i as [|i IH]; cbn [lag half]; lia. Qed.

Lemma half_bound i : (i < kNumLevels)%nat -> half i <= 2097152.
Proof. unfold kNumLevels. intros H. do 11 (destruct i as [|i]; [cbn; lia|]). lia. Qed.

Lemma level_lt i : (i < kNumLevels)%nat -> Nat.ltb i kNumLevels = true.
Proof. apply Nat.ltb_lt. Qed.

Lemma levelSize_ok i : (i < kNumLevels)%nat -> levelSize i = inr (2 * half i).
Proof.
  intros H. unfold levelSize. rewrite level_lt by done. cbn [releaseAssert bnd mbind exc_bind mret exc_ret].
  rewrite Z.shiftl_1_l. f_equal.
  replace (2 * (Z.of_nat i + 1)) with ((2 * Z.of_nat i + 1) + 1) by lia.
  rewrite Z.pow_add_r, <- half_pow, Z.pow_1_r by lia. pose proof (half_bound i H). pose proof (half_pos i).
  rewrite u32_small by (widths; lia). lia.
Qed.

Lemma levelHalf_ok i : (i < kNumLevels)%nat -> levelHalf i = inr (half i).
Proof.
  intros H. unfold levelHalf. rewrite levelSize_ok by done. cbn. f_equal.
  rewrite Z.shiftr_div_pow2 by lia. rewrite Z.mul_comm. by apply Z.div_mul.
Qed.

(** [mask] rounds down to a multiple of a power of two. *)
Lemma mask_pow v k : 0 <= v <= UINT32_MAX -> 0 <= k < 32 -> mask v (2 ^ k) = 2 ^ k * (v / 2 ^ k).
Proof.
  intros Hv Hk. unfold mask.
  assert (2 ^ k <= 2 ^ 31) as Hp by (apply Z.pow_le_mono_r; lia).
  assert (0 < 2 ^ k) as Hp0 by (apply Z.pow_pos_nonneg; lia).
  change (2 ^ 31) with 2147483648 in Hp. rewrite (u32_small (2 ^ k - 1)) by (widths; lia).
  assert (forall z, u32 z = Z.land z (Z.ones 32)) as Hu by (intros z; by rewrite Z.land_ones).
  rewrite Hu, (Z.land_comm (Z.lnot _)), Z.land_assoc, <- Hu, u32_small by done.
  rewrite <- Z.ldiff_land. replace (2 ^ k - 1) with (Z.ones k) by (rewrite Z.ones_equiv; lia).
  rewrite Z.ldiff_ones_r by lia. rewrite Z.shiftl_mul_pow2, Z.shiftr_div_pow2 by lia. lia.
Qed.

Lemma half_exp i : (i < kNumLevels)%nat -> 0 <= 2 * Z.of_nat i + 1 < 32.
Proof. unfold kNumLevels. lia. Qed.

Lemma mask_half v i :
  0 <= v <= UINT32_MAX -> (i < kNumLevels)%nat -> mask v (half i) = half i * (v / half i).
Proof. intros Hv Hi. rewrite half_pow. apply mask_pow; [done|by apply half_exp]. Qed.

Lemma mask_size v i :
  0 <= v <= UINT32_MAX -> (i < kNumLevels)%nat -> mask v (2 * half i) = 2 * half i * (v / (2 * half i)).
Proof.
  intros Hv Hi. assert (2 * half i = 2 ^ (2 * Z.of_nat i + 2)) as ->.
  { rewrite half_pow. replace (2 * Z.of_nat i + 2) with ((2 * Z.of_nat i + 1) + 1) by lia.
    rewrite (Z.pow_add_r 2 (2 * Z.of_nat i + 1) 1), Z.pow_1_r by lia. lia. }
  apply mask_pow; [done|]. unfold kNumLevels in Hi. lia.
Qed.

Lemma round_eq v m : 0 < m -> (v =? m * (v / m)) = (v mod m =? 0).
Proof.
  intros Hm. pose proof (Z.div_mod v m ltac:(lia)).
  destruct (Z.eqb_spec v (m * (v / m))), (Z.eqb_spec (v mod m) 0); lia.
Qed.

Lemma round_zero v m : 0 <= v -> 0 < m -> (m * (v / m) =? 0) = (v <? m).
Proof.
  intros Hv Hm. destruct (Z.ltb_spec v m).
  - rewrite Z.div_small by lia. apply Z.eqb_eq. lia.
  - apply Z.eqb_neq. pose proof (Z.div_str_pos v m). lia.
Qed.

(** A multiple of a multiple is a multiple. *)
Lemma mod_multiple v m c : 0 < m -> 0 < c -> v mod (c * m) = 0 -> v mod m = 0.
Proof.
  intros Hm Hc H. apply Z.mod_divide in H as [q ->]; [|lia]. apply Z.mod_divide; [lia|]. exists (q * c). lia.
Qed.

Lemma spill_ok n i :
  0 <= n <= UINT32_MAX -> (i < kNumLevels - 1)%nat -> levelShouldSpill n i = inr (n mod half i =? 0).
Proof.
  intros Hn Hi. unfold levelShouldSpill.
  rewrite (proj2 (Nat.eqb_neq _ _)) by lia.
  rewrite levelHalf_ok, levelSize_ok by lia. cbn [bnd mbind exc_bind mret exc_ret].
  pose proof (half_pos i). rewrite mask_half, mask_size by (done || lia).
  rewrite !round_eq by lia. f_equal. destruct (Z.eqb_spec (n mod half i) 0) as [E|E]; [done|].
  cbn. apply Z.eqb_neq. intros E2. by apply E, (mod_multiple n (half i) 2); [lia|lia|].
Qed.

Lemma spill_last n : levelShouldSpill n (kNumLevels - 1) = inr false.
Proof. reflexivity. Qed.

(** ** The intervals of ledgers *)

(** The first ledger whose changes are in a level's [curr], and the first one that is
    newer; [snap] holds the ledgers before, down to the end of the next level's
    [curr].  The last level never spills and keeps everything older. *)
Definition currStart (n : Z) (i : nat) : Z :=
  if Nat.eqb i (kNumLevels - 1) then 1 else Z.max 1 (half i * (n / half i) - lag i).
Definition currEnd (n : Z) (i : nat) : Z :=
  match i with
  | O => n + 1
  | S p => Z.max 1 (half p * (n / half p) - lag p - half p)
  end.
Definition snapStart (n : Z) (i : nat) : Z :=
  if Nat.eqb i (kNumLevels - 1) then 1 else currEnd n (S i).

Lemma half_div n p : 0 <= n -> n / half (S p) = (n / half p) / 4.
Proof. intros Hn. pose proof (half_pos p). cbn [half]. rewrite Z.mul_comm, Z.div_div by lia. done. Qed.

Lemma half_round n i : 0 <= n -> 0 <= half i * (n / half i) <= n /\ n < half i * (n / half i) + half i.
Proof.
  intros Hn. pose proof (half_pos i). pose proof (Z.div_mod n (half i) ltac:(lia)).
  pose proof (Z.mod_pos_bound n (half i) ltac:(lia)). pose proof (Z.div_pos n (half i) ltac:(lia) ltac:(lia)).
  pose proof (Z.mul_nonneg_nonneg (half i) (n / half i) ltac:(lia) ltac:(lia)). lia.
Qed.

(** The next level rounds further down, by up to three halves. *)
Lemma half_round_S n p :
  0 <= n -> half (S p) * (n / half (S p)) = half p * (n / half p) - half p * ((n / half p) mod 4).
Proof.
  intros Hn. rewrite half_div by done. cbn [half]. pose proof (Z.div_mod (n / half p) 4 ltac:(lia)) as E.
  rewrite E at 2. lia.
Qed.

Lemma mod4_range z : 0 <= z mod 4 <= 3.
Proof. pose proof (Z.mod_pos_bound z 4). lia. Qed.

Lemma interval_order n i :
  0 <= n -> (i < kNumLevels)%nat -> 1 <= snapStart n i <= currStart n i /\ currStart n i <= currEnd n i <= n + 1.
Proof.
  intros Hn Hi. pose proof (half_pos i) as Hh. pose proof (half_round n i ltac:(lia)) as Hr.
  pose proof (lag_half i) as Hl. unfold snapStart, currStart.
  assert (currEnd n i <= n + 1 /\ 1 <= currEnd n i /\ half i * (n / half i) - lag i <= currEnd n i) as (H1 & H2 & H3).
  { destruct i as [|p]; cbn [currEnd]; [cbn [lag]; lia|]. pose proof (half_round n p ltac:(lia)).
    pose proof (half_pos p). pose proof (lag_half p). rewrite (half_round_S n p) by lia.
    pose proof (mod4_range (n / half p)). cbn [lag].
    pose proof (Z.mul_nonneg_nonneg (half p) ((n / half p) mod 4) ltac:(lia) ltac:(lia)). lia. }
  destruct (Nat.eqb i (kNumLevels - 1)); cbn [currEnd]; lia.
Qed.

(** ** The recursion computes the intervals *)

Section Sum.
Context (n : Z) (curr snap : nat -> exc Z).
Hypothesis n_range : 1 <= n <= UINT32_MAX.

Lemma sumLevels_ok i :
  (i < kNumLevels)%nat ->
  (forall l, (l < i)%nat -> curr l = inr (currEnd n l - currStart n l)) ->
  (forall l, (l < i)%nat -> snap l = inr (currStart n l - snapStart n l)) ->
  sumLevels curr snap i = inr (n + 1 - currEnd n i).
Proof using All.
  induction i as [|i IH]; intros Hi Hc Hs; [cbn; f_equal; lia|]. cbn [sumLevels].
  rewrite IH by (lia || (intros; (apply Hc || apply Hs); lia)). rewrite Hc, Hs by lia.
  cbn [bnd mbind exc_bind mret exc_ret]. f_equal.
  destruct (interval_order n i ltac:(lia) ltac:(lia)) as [H1 H2].
  destruct (interval_order n (S i) ltac:(lia) ltac:(lia)) as [H3 H4].
  assert (snapStart n i = currEnd n (S i)) as Hsn.
  { unfold snapStart. by rewrite (proj2 (Nat.eqb_neq _ _)) by lia. }
  rewrite Hsn in *. rewrite (u32_small (n + 1 - currEnd n i + _)), u32_small by (widths; lia). lia.
Qed.

End Sum.

(** How often a level calls itself before the ledger is a multiple of its half. *)
Definition selfCalls (n : Z) (p : nat) : Z :=
  (n / half p) mod 4 + (if n mod half p =? 0 then 0 else 1).

Lemma currEnd_far n p :
  half (S p) <= n -> currEnd n (S p) = half p * (n / half p) - lag p - half p.
Proof.
  intros H. cbn [currEnd half] in *. pose proof (half_pos p). pose proof (lag_half p).
  pose proof (half_round n p ltac:(lia)). lia.
Qed.

Lemma currStart_far n i :
  half i <= n -> (i < kNumLevels - 1)%nat -> currStart n i = half i * (n / half i) - lag i.
Proof.
  intros H Hi. unfold currStart. rewrite (proj2 (Nat.eqb_neq _ _)) by lia.
  pose proof (half_pos i). pose proof (lag_half i). pose proof (half_round n i ltac:(lia)).
  pose proof (Z.div_str_pos n (half i) ltac:(lia)).
  pose proof (Z.mul_le_mono_nonneg_l 1 (n / half i) (half i) ltac:(lia) ltac:(lia)). lia.
Qed.

Lemma size_far n p :
  half (S p) <= n -> (S p < kNumLevels - 1)%nat ->
  currEnd n (S p) - currStart n (S p) = half p * ((n / half p) mod 4) + half p.
Proof.
  intros H Hi. pose proof (half_pos (S p)). rewrite currEnd_far, currStart_far, half_round_S by lia. cbn [lag]. lia.
Qed.

(** The ledger at which the level last changed before [n]. *)
Lemma previous_ledger n p :
  1 <= n <= UINT32_MAX -> (S p < kNumLevels)%nat ->
  Z.max (Z.max (mask (n - 1) (half p)) (mask (n - 1) (2 * half p)))
        (Z.max (mask (n - 1) (half (S p))) (mask (n - 1) (2 * half (S p)))) = half p * ((n - 1) / half p).
Proof.
  intros Hn Hp. rewrite !mask_half, !mask_size by lia. pose proof (half_pos p).
  assert (forall c, 0 < c -> c * half p * ((n - 1) / (c * half p)) <= half p * ((n - 1) / half p)) as Hle.
  { intros c Hc. rewrite (Z.mul_comm c), <- Z.div_div by lia.
    pose proof (Z.mul_le_mono_nonneg_l _ _ (half p) ltac:(lia) (Z.mul_div_le ((n - 1) / half p) c ltac:(lia))). lia. }
  pose proof (Hle 2 ltac:(lia)). pose proof (Hle 4 ltac:(lia)). pose proof (Hle 8 ltac:(lia)). cbn [half].
  replace (2 * (4 * half p)) with (8 * half p) by lia. lia.
Qed.

Lemma selfCalls_aligned n p :
  0 <= n -> n mod half p = 0 -> n mod half (S p) <> 0 ->
  1 <= (n / half p) mod 4 /\ half p * ((n - 1) / half p) = n - half p /\
  ((n - half p) / half p) mod 4 = (n / half p) mod 4 - 1.
Proof.
  intros Hn H0 H4. pose proof (half_pos p) as Hh. set (q := n / half p) in *.
  assert (n = half p * q) as Hq by (pose proof (Z.div_mod n (half p) ltac:(lia)); lia).
  assert (q mod 4 <> 0) as Hq4.
  { intros E. apply H4. apply Z.mod_divide; [cbn [half]; lia|]. apply Z.mod_divide in E as [r E]; [|lia].
    exists r. cbn [half]. rewrite Hq, E. lia. }
  pose proof (mod4_range q). split; [lia|].
  assert ((n - 1) / half p = q - 1) as ->.
  { symmetry. apply (Z.div_unique _ _ _ (half p - 1)); [lia|]. rewrite Hq. lia. }
  split; [lia|]. replace (n - half p) with ((q - 1) * half p) by lia. rewrite Z.div_mul by lia.
  symmetry. apply (Z.mod_unique _ _ (q / 4)); [lia|]. pose proof (Z.div_mod q 4 ltac:(lia)). lia.
Qed.

Lemma selfCalls_unaligned n p :
  0 <= n -> n mod half p <> 0 -> (n - 1) / half p = n / half p /\ (half p * (n / half p)) mod half p = 0 /\
  (half p * (n / half p)) / half p = n / half p.
Proof.
  intros Hn H. pose proof (half_pos p) as Hh. pose proof (Z.div_mod n (half p) ltac:(lia)).
  pose proof (Z.mod_pos_bound n (half p) ltac:(lia)). split.
  - symmetry. apply (Z.div_unique _ _ _ (n mod half p - 1)); lia.
  - rewrite Z.mul_comm, Z.mod_mul, Z.div_mul by lia. done.
Qed.

Lemma delta_ok p : (S p < kNumLevels)%nat -> u32 (Z.shiftl 1 (2 * Z.of_nat (S p) - 1)) = half p.
Proof.
  intros H. rewrite Z.shiftl_1_l. replace (2 * Z.of_nat (S p) - 1) with (2 * Z.of_nat p + 1) by lia.
  rewrite <- half_pow. pose proof (half_pos p). pose proof (half_bound p ltac:(lia)). apply u32_small. widths. lia.
Qed.

Lemma mask_self n i c :
  0 <= n <= UINT32_MAX -> (i < kNumLevels)%nat -> c = 1 \/ c = 2 ->
  (mask n (c * half i) =? n) = (n mod (c * half i) =? 0).
Proof.
  intros Hn Hi Hc. pose proof (half_pos i). rewrite Z.eqb_sym.
  destruct Hc as [-> | ->]; [rewrite Z.mul_1_l, mask_half by done|rewrite mask_size by done]; apply round_eq; lia.
Qed.

Lemma mask_both n i :
  0 <= n <= UINT32_MAX -> (i < kNumLevels)%nat ->
  (mask n (half i) =? n) || (mask n (2 * half i) =? n) = (n mod half i =? 0).
Proof.
  intros Hn Hi. pose proof (half_pos i). rewrite mask_self by auto.
  rewrite <- (Z.mul_1_l (half i)) at 1. rewrite mask_self, Z.mul_1_l by auto.
  destruct (Z.eqb_spec (n mod half i) 0) as [E|E]; [done|].
  cbn. apply Z.eqb_neq. intros E2. by apply E, (mod_multiple n (half i) 2); [lia|lia|].
Qed.

(** One unfolding of the recursion, in closed form. *)
Lemma sizeOfCurr_unfold fuel n p :
  1 <= n <= UINT32_MAX -> (S p < kNumLevels)%nat ->
  sizeOfCurrFuel (S fuel) n (S p) =
  if negb (Nat.eqb (S p) (kNumLevels - 1)) && (half (S p) <=? n) then
    if n mod half (S p) =? 0 then inr (half p)
    else if n mod half p =? 0 then
      bnd (sizeOfCurrFuel fuel (half p * ((n - 1) / half p)) (S p)) (fun c => mret (u32 (c + half p)))
    else sizeOfCurrFuel fuel (half p * ((n - 1) / half p)) (S p)
  else bnd (sumLevels (sizeOfCurrFuel fuel n) (sizeOfSnapFuel fuel n) (S p)) (fun s => mret (u32 (n - s))).
Proof.
  intros Hn Hp. cbn [sizeOfCurrFuel]. rewrite (proj2 (Z.eqb_neq n 0)) by lia. rewrite level_lt by done.
  cbn [negb releaseAssert bnd mbind exc_bind mret exc_ret]. rewrite levelSize_ok, levelHalf_ok by lia.
  cbn [bnd mbind exc_bind]. rewrite (levelSize_ok p), (levelHalf_ok p) by lia. cbn [bnd mbind exc_bind].
  rewrite previous_ledger, delta_ok, !mask_both by lia. rewrite mask_half, round_zero by (pose proof (half_pos (S p)); lia).
  rewrite (Z.leb_antisym n (half (S p))). reflexivity.
Qed.

Lemma currSize_far fuel n p :
  half (S p) <= n <= UINT32_MAX -> (S p < kNumLevels - 1)%nat -> selfCalls n p < Z.of_nat fuel ->
  sizeOfCurrFuel fuel n (S p) = inr (currEnd n (S p) - currStart n (S p)).
Proof.
  revert n. induction fuel as [|fuel IH]; intros n Hn Hp Hf; unfold selfCalls in Hf.
  { pose proof (mod4_range (n / half p)). destruct (_ =? 0); lia. }
  pose proof (half_pos p) as Hh. assert (half (S p) = 4 * half p) as H4 by done.
  rewrite sizeOfCurr_unfold by lia. rewrite (proj2 (Nat.eqb_neq _ _)), (proj2 (Z.leb_le _ _)) by lia. cbn [negb andb].
  rewrite size_far by lia.
  destruct (Z.eqb_spec (n mod half (S p)) 0) as [E|E].
  - f_equal. enough (n / half p mod 4 = 0) by lia. apply Z.mod_divide in E as [q ->]; [|lia].
    replace (q * half (S p)) with (q * 4 * half p) by lia. rewrite Z.div_mul by lia. by apply Z.mod_mul.
  - pose proof (half_bound p ltac:(lia)). pose proof (mod4_range (n / half p)).
    destruct (Z.eqb_spec (n mod half p) 0) as [E0|E0].
    + destruct (selfCalls_aligned n p ltac:(lia) E0 E) as (Hq & -> & Hq').
      assert (half (S p) <= n - half p) as Hge.
      { destruct (half_round n (S p) ltac:(lia)) as [? _]. pose proof (half_round_S n p ltac:(lia)) as Hr.
        pose proof (Z.div_mod n (half p) ltac:(lia)). pose proof (Z.div_str_pos n (half (S p)) ltac:(lia)).
        pose proof (Z.mul_le_mono_nonneg_l 1 (n / half (S p)) (half (S p)) ltac:(lia) ltac:(lia)).
        pose proof (Z.mul_le_mono_nonneg_l 1 (n / half p mod 4) (half p) ltac:(lia) ltac:(lia)). lia. }
      rewrite IH; [|lia|lia|].
      * cbn [bnd mbind exc_bind mret exc_ret]. rewrite size_far, Hq' by lia. f_equal.
        assert (half p * (n / half p mod 4) <= half p * 3) by (apply Z.mul_le_mono_nonneg_l; lia).
        assert (0 <= half p * (n / half p mod 4 - 1)) by (apply Z.mul_nonneg_nonneg; lia).
        rewrite u32_small by (widths; lia). lia.
      * unfold selfCalls. rewrite Hq'. replace ((n - half p) mod half p) with 0; [cbn; lia|].
        symmetry. rewrite Zminus_mod, E0, Z.mod_same by lia. apply Z.mod_0_l. lia.
    + destruct (selfCalls_unaligned n p ltac:(lia) E0) as (Hq & Hm & Hd). rewrite Hq.
      assert (half (S p) <= half p * (n / half p)) as Hge.
      { pose proof (half_round_S n p ltac:(lia)). pose proof (Z.div_str_pos n (half (S p)) ltac:(lia)).
        pose proof (Z.mul_le_mono_nonneg_l 1 (n / half (S p)) (half (S p)) ltac:(lia) ltac:(lia)).
        pose proof (Z.mul_nonneg_nonneg (half p) (n / half p mod 4) ltac:(lia) ltac:(lia)). lia. }
      destruct (half_round n p ltac:(lia)) as [? _].
      rewrite IH; [|lia|lia|unfold selfCalls; rewrite Hm, Hd; cbn; lia].
      rewrite size_far, Hd by lia. done.
Qed.

Definition CurrOK (n : Z) (i : nat) : Prop :=
  forall fuel, (6 * i + 5 <= fuel)%nat -> sizeOfCurrFuel fuel n i = inr (currEnd n i - currStart n i).
Definition SnapOK (n : Z) (i : nat) : Prop :=
  forall fuel, (6 * i + 6 <= fuel)%nat -> sizeOfSnapFuel fuel n i = inr (currStart n i - snapStart n i).

Lemma sum_fuel n i fuel :
  1 <= n <= UINT32_MAX -> (i < kNumLevels)%nat -> (6 * i <= fuel)%nat ->
  (forall l, (l < i)%nat -> CurrOK n l /\ SnapOK n l) ->
  sumLevels (sizeOfCurrFuel fuel n) (sizeOfSnapFuel fuel n) i = inr (n + 1 - currEnd n i).
Proof.
  intros Hn Hi Hf H. apply sumLevels_ok; [done|done|intros l Hl; apply (proj1 (H l Hl)); lia|].
  intros l Hl. apply (proj2 (H l Hl)). lia.
Qed.

Lemma curr_near n i :
  0 <= n -> Nat.eqb i (kNumLevels - 1) = true \/ n < half i -> currStart n i = 1.
Proof.
  intros Hn H. unfold currStart. destruct (Nat.eqb i (kNumLevels - 1)); [done|]. destruct H as [H|H]; [done|].
  rewrite Z.div_small by lia. pose proof (lag_half i). pose proof (half_pos i). lia.
Qed.

Lemma curr_ok n i :
  1 <= n <= UINT32_MAX -> (i < kNumLevels)%nat ->
  (forall l, (l < i)%nat -> CurrOK n l /\ SnapOK n l) -> CurrOK n i.
Proof.
  intros Hn Hi IH fuel Hf. destruct fuel as [|fuel]; [lia|]. destruct i as [|p].
  - cbn [sizeOfCurrFuel]. rewrite (proj2 (Z.eqb_neq n 0)) by lia. cbn. f_equal.
    unfold currStart. cbn [Nat.eqb kNumLevels Nat.sub half lag]. pose proof (Z.div_mod n 2 ltac:(lia)).
    pose proof (Z.mod_pos_bound n 2). destruct (Z.eqb_spec n 1) as [->|]; [done|]. lia.
  - destruct (negb (Nat.eqb (S p) (kNumLevels - 1)) && (half (S p) <=? n)) eqn:Ec.
    + apply andb_true_iff in Ec as [E1 E2]. apply negb_true_iff, Nat.eqb_neq in E1. apply Z.leb_le in E2.
      apply currSize_far; [lia|lia|]. unfold selfCalls. pose proof (mod4_range (n / half p)). destruct (_ =? 0); lia.
    + rewrite sizeOfCurr_unfold, Ec by lia. rewrite sum_fuel by (done || lia).
      cbn [bnd mbind exc_bind mret exc_ret]. f_equal.
      destruct (interval_order n (S p) ltac:(lia) ltac:(lia)) as [H1 H2].
      assert (currStart n (S p) = 1) as Hs.
      { apply curr_near; [lia|]. apply andb_false_iff in Ec as [E|E];
          [left; by apply negb_false_iff in E|right; by apply Z.leb_gt in E]. }
      rewrite Hs in *. rewrite u32_small by (widths; lia). lia.
Qed.

Lemma snap_ok n i :
  1 <= n <= UINT32_MAX -> (i < kNumLevels)%nat ->
  (forall l, (l < i)%nat -> CurrOK n l /\ SnapOK n l) -> CurrOK n i -> SnapOK n i.
Proof.
  intros Hn Hi IH Hc fuel Hf. destruct fuel as [|fuel]; [lia|]. cbn [sizeOfSnapFuel].
  rewrite (proj2 (Z.eqb_neq n 0)) by lia. rewrite level_lt by done.
  cbn [negb releaseAssert bnd mbind exc_bind mret exc_ret].
  destruct (Nat.eqb i (kNumLevels - 1)) eqn:El.
  { unfold snapStart. rewrite El, curr_near by (lia || by left). f_equal. }
  apply Nat.eqb_neq in El. rewrite levelSize_ok, levelHalf_ok by done. cbn [bnd mbind exc_bind mret exc_ret].
  pose proof (half_pos i) as Hh. pose proof (lag_half i) as Hl. rewrite mask_size, round_zero by lia.
  assert (snapStart n i = currEnd n (S i)) as Hsn.
  { unfold snapStart. by rewrite (proj2 (Nat.eqb_neq _ _)) by lia. }
  rewrite Hsn. cbn [currEnd]. destruct (Z.ltb_spec n (2 * half i)) as [Hlt|Hge]; cbn [negb].
  - rewrite sum_fuel by (done || lia). cbn [bnd mbind exc_bind mret exc_ret]. rewrite (Hc fuel) by lia.
    cbn [bnd mbind exc_bind mret exc_ret]. f_equal.
    destruct (interval_order n i ltac:(lia) ltac:(lia)) as [H1 H2].
    assert (n / half i <= 1) by (apply Z.lt_succ_r, Z.div_lt_upper_bound; lia).
    pose proof (Z.mul_le_mono_nonneg_l (n / half i) 1 (half i) ltac:(lia) ltac:(lia)).
    rewrite (u32_small (_ + _)), u32_small by (widths; lia). lia.
  - f_equal. rewrite currStart_far by lia.
    assert (2 <= n / half i) by (apply Z.div_le_lower_bound; lia).
    pose proof (Z.mul_le_mono_nonneg_l 2 (n / half i) (half i) ltac:(lia) ltac:(lia)). lia.
Qed.

Lemma sizes_ok n i : 1 <= n <= UINT32_MAX -> (i < kNumLevels)%nat -> CurrOK n i /\ SnapOK n i.
Proof.
  intros Hn. induction i as [i IH] using lt_wf_ind. intros Hi.
  assert (forall l, (l < i)%nat -> CurrOK n l /\ SnapOK n l) as Hbelow by (intros l Hl; apply IH; lia).
  pose proof (curr_ok n i Hn Hi Hbelow) as Hc. split; [done|]. by apply snap_ok.
Qed.

Lemma sizeOf_ok n i :
  1 <= n <= UINT32_MAX -> (i < kNumLevels)%nat ->
  sizeOfCurr n i = inr (currEnd n i - currStart n i) /\ sizeOfSnap n i = inr (currStart n i - snapStart n i) /\
  sumLevels (sizeOfCurr n) (sizeOfSnap n) i = inr (n + 1 - currEnd n i).
Proof.
  intros Hn Hi.
  assert (forall j, (j < kNumLevels)%nat -> sizeOfCurr n j = inr (currEnd n j - currStart n j) /\
    sizeOfSnap n j = inr (currStart n j - snapStart n j)) as H.
  { intros j Hj. destruct (sizes_ok n j Hn Hj) as [Hc Hs]. split; [apply Hc|apply Hs]; unfold sizeFuel; lia. }
  split; [by apply H|]. split; [by apply H|]. apply sumLevels_ok; [done|done|..]; intros l Hl; apply H; lia.
Qed.

Lemma oldest_ok n i :
  1 <= n <= UINT32_MAX -> (i < kNumLevels)%nat ->
  oldestLedgerInCurr n i = inr (if currEnd n i - currStart n i =? 0 then UINT32_MAX else currStart n i) /\
  oldestLedgerInSnap n i = inr (if currStart n i - snapStart n i =? 0 then UINT32_MAX else snapStart n i).
Proof.
  intros Hn Hi. destruct (sizeOf_ok n i Hn Hi) as (Hc & Hs & Hsum).
  destruct (interval_order n i ltac:(lia) Hi) as [H1 H2]. unfold oldestLedgerInCurr, oldestLedgerInSnap.
  rewrite (proj2 (Z.eqb_neq n 0)), level_lt by (lia || done). cbn [negb releaseAssert bnd mbind exc_bind].
  rewrite Hc, Hs, Hsum. cbn [bnd mbind exc_bind mret exc_ret]. split.
  - destruct (Z.eqb_spec (currEnd n i - currStart n i) 0) as [E|E]; [done|]. f_equal. rewrite (u32_small (_ - _)), u32_small by (widths; lia). lia.
  - destruct (Z.eqb_spec (currStart n i - snapStart n i) 0) as [E|E]; [done|]. cbn [sumLevels].
    rewrite Hsum, Hc, Hs. cbn [bnd mbind exc_bind mret exc_ret]. f_equal.
    rewrite (u32_small (n + 1 - currEnd n i + _)), (u32_small (_ + (currStart n i - _))) by (widths; lia).
    rewrite (u32_small (n - _)), u32_small by (widths; lia). lia.
Qed.

(** ** The intervals from one ledger to the next *)

(** Whether the merge into a level starts from nothing, because the level's [curr]
    will have been snapped when the merge is needed. *)
Definition emptyNext (n : Z) (i : nat) : bool :=
  match i with
  | O => false
  | S q => negb (Nat.eqb i (kNumLevels - 1)) && ((half q * (n / half q) + half q) mod half i =? 0)
  end.

Lemma half_divides i : (i < kNumLevels)%nat -> (half i | 4294967296).
Proof.
  intros Hi. rewrite half_pow. exists (2 ^ (32 - (2 * Z.of_nat i + 1))).
  rewrite <- Z.pow_add_r by (unfold kNumLevels in Hi; lia). by replace (_ + _) with 32 by lia.
Qed.

Lemma u32_mod_half z i : (i < kNumLevels)%nat -> u32 z mod half i = z mod half i.
Proof.
  intros Hi. unfold u32. symmetry. apply Znumtheory.Zmod_div_mod; [pose proof (half_pos i); lia|lia|by apply half_divides].
Qed.

Lemma shouldMerge_ok n i :
  0 <= n <= UINT32_MAX -> (i < kNumLevels)%nat -> shouldMergeWithEmptyCurr n i = inr (emptyNext n i).
Proof.
  intros Hn Hi. destruct i as [|q]; [done|]. cbn [shouldMergeWithEmptyCurr].
  rewrite levelHalf_ok by lia. cbn [bnd mbind exc_bind]. rewrite mask_half by lia. unfold emptyNext.
  destruct (Nat.eqb_spec (S q) (kNumLevels - 1)) as [E|E]; [rewrite E; apply spill_last|].
  rewrite spill_ok by (apply u32_range || lia). by rewrite u32_mod_half by lia.
Qed.

Section Next.
Context (n : Z).
Hypothesis n_pos : 1 <= n.

Lemma div_stays i : n mod half i <> 0 -> n / half i = (n - 1) / half i.
Proof using All. intros H. by destruct (selfCalls_unaligned n i ltac:(lia) H) as [-> _]. Qed.

Lemma div_moves i : n mod half i = 0 -> half i * (n / half i) = n /\ half i * ((n - 1) / half i) = n - half i.
Proof using All.
  intros H. pose proof (half_pos i). pose proof (Z.div_mod n (half i) ltac:(lia)) as E. rewrite H in E.
  assert ((n - 1) / half i = n / half i - 1) as ->.
  { symmetry. apply (Z.div_unique _ _ _ (half i - 1)); lia. }
  lia.
Qed.

Lemma spill_below q : n mod half (S q) = 0 -> n mod half q = 0.
Proof using All. pose proof (half_pos q). cbn [half]. apply mod_multiple; lia. Qed.

(** A level that does not spill keeps its boundaries. *)
Lemma bounds_stay i :
  (i < kNumLevels - 1)%nat -> n mod half i <> 0 ->
  currStart n i = currStart (n - 1) i /\ snapStart n i = snapStart (n - 1) i /\ currEnd n (S i) = currEnd (n - 1) (S i).
Proof using All.
  intros Hi H. unfold currStart, snapStart, currEnd. rewrite (div_stays i H).
  by rewrite (proj2 (Nat.eqb_neq _ _)) by lia.
Qed.

(** A level that spills: its [curr] becomes its [snap]. *)
Lemma bounds_move i :
  (i < kNumLevels - 1)%nat -> n mod half i = 0 ->
  snapStart n i = currStart (n - 1) i /\ currEnd n (S i) = currStart (n - 1) i /\
  currStart n i = currEnd (n - 1) i /\ snapStart n i < currStart n i.
Proof using All.
  intros Hi H. destruct (div_moves i H) as [E1 E2]. pose proof (half_pos i). pose proof (lag_half i).
  assert (half i <= n) as Hge by (apply Z.divide_pos_le; [lia|]; by apply Z.mod_divide; [lia|]).
  unfold snapStart, currStart. rewrite (proj2 (Nat.eqb_neq i (kNumLevels - 1))) by lia. cbn [currEnd]. rewrite E1, E2.
  split; [lia|]. split; [lia|]. split; [|lia]. destruct i as [|q]; cbn [currEnd].
  - cbn [lag]. lia.
  - destruct (div_moves q (spill_below q H)) as [_ ->]. cbn [lag]. lia.
Qed.

Lemma last_bounds : currStart n (kNumLevels - 1) = currStart (n - 1) (kNumLevels - 1) /\
  snapStart n (kNumLevels - 1) = snapStart (n - 1) (kNumLevels - 1).
Proof using All. done. Qed.

(** The merge was started from nothing exactly when the level is snapped now. *)
Lemma emptyNext_spill q :
  n mod half q = 0 -> emptyNext (n - 1) (S q) = negb (Nat.eqb (S q) (kNumLevels - 1)) && (n mod half (S q) =? 0).
Proof using All.
  intros H. unfold emptyNext. destruct (div_moves q H) as [_ ->]. by replace (n - half q + half q) with n by lia.
Qed.

Lemma emptyNext_stays q : n mod half q <> 0 -> emptyNext n (S q) = emptyNext (n - 1) (S q).
Proof using All. intros H. unfold emptyNext. by rewrite (div_stays q H). Qed.

End Next.

(** Before the first ledger everything is empty. *)
Lemma bounds_zero i : currStart 0 i = 1 /\ currEnd 0 i = 1 /\ snapStart 0 i = 1.
Proof.
  assert (forall i, currEnd 0 i = 1) as H.
  { intros [|q]; [done|]. cbn [currEnd]. rewrite Zdiv_0_l. pose proof (lag_half q). pose proof (half_pos q). lia. }
  unfold currStart, snapStart. rewrite !H, Zdiv_0_l. pose proof (lag_half i). pose proof (half_pos i).
  destruct (Nat.eqb i (kNumLevels - 1)); lia.
Qed.
