(* ===== verification/BucketManager.v ===== *)
(** * The bucket manager and merges in the background

    The store of buckets by hash and the record of running and finished merges
    ([bucket/BucketManagerImpl.cpp], [bucket/BucketMergeMap.cpp],
    [bucket/MergeKey.cpp]), and the handle on a merge that runs on a worker thread
    ([bucket/FutureBucket.cpp]).  A worker's merge is atomic up to the point where
    it touches the shared state; at every point where the main thread looks at that
    state the workers may first finish any of the merges that are running, in the
    order the [schedule] says.  SHA-256 over the serialised records is the
    parameter [sha]; buckets are identified by it, and the empty bucket by zero. *)

From stdpp Require Import base list gmap strings.
From S2P Require Import Prelude Exchange Entries BucketEntries Bucket BucketLevels.

Local Open Scope Z_scope.

(** ** Buckets, merge keys and the map of finished merges *)

Record Bucket := mkBucket { mHash : Z; mFile : list BucketEntry }.

(** The bucket of the default constructor: no file, hash zero. *)
Definition emptyBucket : Bucket := mkBucket 0 [].

Record MergeKey := mkMergeKey {
  mk_keepDeadEntries : bool;
  mInputCurrBucket : Z;
  mInputSnapBucket : Z;
  mInputShadowBuckets : list Z
}.

#[export] Instance MergeKey_eq_dec : EqDecision MergeKey.
Proof. solve_decision. Defined.
#[export] Instance MergeKey_countable : Countable MergeKey.
Proof.
  apply (inj_countable'
    (fun k => (mk_keepDeadEntries k, mInputCurrBucket k, mInputSnapBucket k, mInputShadowBuckets k))
    (fun '(d, c, s, l) => mkMergeKey d c s l)). by intros [].
Defined.

Definition mergeKey (keepDead : bool) (curr snap : Bucket) (shadows : list Bucket) : MergeKey :=
  mkMergeKey keepDead (mHash curr) (mHash snap) (mHash <$> shadows).

(** The set of input hashes, each once. *)
Definition getMergeKeyHashes (key : MergeKey) : list Z :=
  remove_dups (mInputCurrBucket key :: mInputSnapBucket key :: mInputShadowBuckets key).

(** The two multimaps are lists of pairs. *)
Record BucketMergeMap := mkMergeMap {
  mMergeKeyToOutput : gmap MergeKey Z;
  mInputToOutput : list (Z * Z);
  mOutputToMergeKey : list (Z * MergeKey)
}.

Definition emptyMergeMap : BucketMergeMap := mkMergeMap ∅ [] [].

(** [emplace] into the map does not replace an entry. *)
Definition recordMerge (input : MergeKey) (output : Z) (m : BucketMergeMap) : BucketMergeMap :=
  mkMergeMap
    (match mMergeKeyToOutput m !! input with
     | Some _ => mMergeKeyToOutput m
     | None => <[input := output]> (mMergeKeyToOutput m)
     end)
    (mInputToOutput m ++ ((fun i => (i, output)) <$> getMergeKeyHashes input))
    (mOutputToMergeKey m ++ [(output, input)]).

Definition findMergeFor (input : MergeKey) (m : BucketMergeMap) : option Z :=
  mMergeKeyToOutput m !! input.

Definition getOutputsUsingInput (input : Z) (m : BucketMergeMap) : list Z :=
  snd <$> filter (fun p => p.1 = input) (mInputToOutput m).

(** Erases one pair, if there is one. *)
Fixpoint erasePair (p : Z * Z) (l : list (Z * Z)) : list (Z * Z) :=
  match l with
  | [] => []
  | q :: l => if decide (p = q) then l else q :: erasePair p l
  end.

Definition forgetAllMergesProducing (output : Z) (m : BucketMergeMap) : list MergeKey * BucketMergeMap :=
  let keys := snd <$> filter (fun p => p.1 = output) (mOutputToMergeKey m) in
  let inputs := foldl (fun l key => foldl (fun l i => erasePair (i, output) l) l (getMergeKeyHashes key))
                  (mInputToOutput m) keys in
  (remove_dups keys,
   mkMergeMap (foldl (fun f key => delete key f) (mMergeKeyToOutput m) keys) inputs
     (filter (fun p => p.1 <> output) (mOutputToMergeKey m))).

(** ** Futures *)

Inductive FutureBucketState := FB_CLEAR | FB_HASH_OUTPUT | FB_HASH_INPUTS | FB_LIVE_OUTPUT | FB_LIVE_INPUTS.

#[export] Instance FutureBucketState_eq_dec : EqDecision FutureBucketState.
Proof. solve_decision. Defined.

(** A hash in a string that may be empty is an [option]; the shared future is the
    number of the shared state it refers to. *)
Record FutureBucket := mkFuture {
  mState : FutureBucketState;
  fb_inputCurr : option Bucket;
  fb_inputSnap : option Bucket;
  fb_inputShadows : list Bucket;
  mOutputBucket : option Bucket;
  mOutputBucketFuture : option nat;
  mInputCurrBucketHash : option Z;
  mInputSnapBucketHash : option Z;
  mInputShadowBucketHashes : list Z;
  mOutputBucketHash : option Z
}.

Definition clearFuture : FutureBucket := mkFuture FB_CLEAR None None [] None None None None [] None.

Definition isLive (fb : FutureBucket) : bool :=
  bool_decide (mState fb = FB_LIVE_INPUTS) || bool_decide (mState fb = FB_LIVE_OUTPUT).
Definition isMerging (fb : FutureBucket) : bool := bool_decide (mState fb = FB_LIVE_INPUTS).
Definition hasHashes (fb : FutureBucket) : bool :=
  bool_decide (mState fb = FB_HASH_INPUTS) || bool_decide (mState fb = FB_HASH_OUTPUT).
Definition isClear (fb : FutureBucket) : bool := bool_decide (mState fb = FB_CLEAR).

Definition hasOutputHash (fb : FutureBucket) : exc bool :=
  if bool_decide (mState fb = FB_LIVE_OUTPUT) || bool_decide (mState fb = FB_HASH_OUTPUT)
  then do* releaseAssert (bool_decide (is_Some (mOutputBucketHash fb))) "!mOutputBucketHash.empty()" in mret true
  else mret false.

Definition getOutputHash (fb : FutureBucket) : exc Z :=
  do* releaseAssert (bool_decide (mState fb = FB_LIVE_OUTPUT) || bool_decide (mState fb = FB_HASH_OUTPUT))
        "mState == FB_LIVE_OUTPUT || mState == FB_HASH_OUTPUT" in
  match mOutputBucketHash fb with
  | Some h => mret h
  | None => exc_throw (AssertFailure "!mOutputBucketHash.empty()")
  end.

Definition getHashes (fb : FutureBucket) : list Z :=
  option_list (mInputCurrBucketHash fb) ++ option_list (mInputSnapBucketHash fb)
  ++ mInputShadowBucketHashes fb ++ option_list (mOutputBucketHash fb).

(** What [save] writes, and [load] reads back. *)
Inductive SavedFuture :=
  | SAVED_CLEAR
  | SAVED_INPUTS (curr snap : option Z) (shadow : list Z)
  | SAVED_OUTPUT (output : option Z).

Definition saveFuture (fb : FutureBucket) : SavedFuture :=
  match mState fb with
  | FB_LIVE_INPUTS | FB_HASH_INPUTS =>
      SAVED_INPUTS (mInputCurrBucketHash fb) (mInputSnapBucketHash fb) (mInputShadowBucketHashes fb)
  | FB_LIVE_OUTPUT | FB_HASH_OUTPUT => SAVED_OUTPUT (mOutputBucketHash fb)
  | FB_CLEAR => SAVED_CLEAR
  end.

Definition loadFuture (s : SavedFuture) : FutureBucket :=
  match s with
  | SAVED_CLEAR => clearFuture
  | SAVED_INPUTS curr snap shadow => mkFuture FB_HASH_INPUTS None None [] None None curr snap shadow None
  | SAVED_OUTPUT output => mkFuture FB_HASH_OUTPUT None None [] None None None None [] output
  end.

(** ** The state of the application *)

(** The merge a worker was asked for. *)
Record MergeTask := mkTask {
  t_curr : Bucket;
  t_snap : Bucket;
  t_shadows : list Bucket;
  t_maxProtocolVersion : Z;
  t_countMergeEvents : bool;
  t_level : nat
}.

Inductive FutureState :=
  | Pending (t : MergeTask)
  | Ready (r : exc Bucket).

Record BucketLevel := mkLevel { mNextCurr : FutureBucket; mCurr : Bucket; mSnap : Bucket }.

Record App := mkApp {
  mSharedBuckets : gmap Z Bucket;
  bucketDir : gmap Z (list BucketEntry);   (* the bucket files on disk *)
  mLiveFutures : gmap MergeKey nat;
  mFinishedMerges : BucketMergeMap;
  bmCounters : MergeCounters;
  mIsShutdown : bool;
  futures : list FutureState;              (* the shared states of the futures *)
  schedule : list (list nat);              (* what the workers finish, and when *)
  mLevels : list BucketLevel
}.

Definition onShared f (a : App) := mkApp (f (mSharedBuckets a)) (bucketDir a) (mLiveFutures a)
  (mFinishedMerges a) (bmCounters a) (mIsShutdown a) (futures a) (schedule a) (mLevels a).
Definition onDir f (a : App) := mkApp (mSharedBuckets a) (f (bucketDir a)) (mLiveFutures a)
  (mFinishedMerges a) (bmCounters a) (mIsShutdown a) (futures a) (schedule a) (mLevels a).
Definition onLive f (a : App) := mkApp (mSharedBuckets a) (bucketDir a) (f (mLiveFutures a))
  (mFinishedMerges a) (bmCounters a) (mIsShutdown a) (futures a) (schedule a) (mLevels a).
Definition onFinished f (a : App) := mkApp (mSharedBuckets a) (bucketDir a) (mLiveFutures a)
  (f (mFinishedMerges a)) (bmCounters a) (mIsShutdown a) (futures a) (schedule a) (mLevels a).
Definition onCounters f (a : App) := mkApp (mSharedBuckets a) (bucketDir a) (mLiveFutures a)
  (mFinishedMerges a) (f (bmCounters a)) (mIsShutdown a) (futures a) (schedule a) (mLevels a).
Definition onFutures f (a : App) := mkApp (mSharedBuckets a) (bucketDir a) (mLiveFutures a)
  (mFinishedMerges a) (bmCounters a) (mIsShutdown a) (f (futures a)) (schedule a) (mLevels a).
Definition setSchedule s (a : App) := mkApp (mSharedBuckets a) (bucketDir a) (mLiveFutures a)
  (mFinishedMerges a) (bmCounters a) (mIsShutdown a) (futures a) s (mLevels a).
Definition onLevels f (a : App) := mkApp (mSharedBuckets a) (bucketDir a) (mLiveFutures a)
  (mFinishedMerges a) (bmCounters a) (mIsShutdown a) (futures a) (schedule a) (f (mLevels a)).

Definition assertM (b : bool) (what : string) : M App unit := lift (releaseAssert b what).

Section Manager.
Context (sha : list BucketEntry -> Z).

(** ** The bucket manager *)

Definition incrMergeCounters (delta : MergeCounters) : M App unit :=
  modify (onCounters (fun mc => addCounters mc delta)).

Definition getBucketByHash (hash : Z) : M App (option Bucket) :=
  if hash =? 0 then mret (Some emptyBucket)
  else
    let* a := get in
    match mSharedBuckets a !! hash with
    | Some b => mret (Some b)
    | None =>
        match bucketDir a !! hash with
        | Some file =>
            let p := mkBucket hash file in
            do* modify (onShared (<[hash := p]>)) in
            mret (Some p)
        | None => mret None
        end
    end.

Definition adoptFileAsBucket (file : list BucketEntry) (hash : Z) (key : option MergeKey) : M App Bucket :=
  do* match key with
      | Some k => modify (onLive (delete k))
      | None => mret tt
      end in
  let* existing := getBucketByHash hash in
  let* b := match existing with
            | Some b => mret b
            | None =>
                let b := mkBucket hash file in
                do* modify (onDir (<[hash := file]>)) in
                do* modify (onShared (<[hash := b]>)) in
                mret b
            end in
  do* match key with
      | Some k => modify (onFinished (recordMerge k hash))
      | None => mret tt
      end in
  mret b.

Definition noteEmptyMergeOutput (key : MergeKey) : M App unit := modify (onLive (delete key)).

(** [BucketOutputIterator::getBucket]. *)
Definition getBucket (o : BucketOutputIterator) (key : option MergeKey) : M App Bucket :=
  match outputFile o with
  | [] =>
      do* match key with Some k => noteEmptyMergeOutput k | None => mret tt end in
      mret emptyBucket
  | file => adoptFileAsBucket file (sha file) key
  end.

(** [Bucket::fresh]. *)
Definition fresh (protocolVersion : Z) (initEntries liveEntries : list LedgerEntry)
    (deadEntries : list LedgerKey) (countMergeEvents : bool) : M App Bucket :=
  let* o := lift (freshOutput protocolVersion initEntries liveEntries deadEntries) in
  do* when countMergeEvents (incrMergeCounters (mMergeCounters o)) in
  getBucket o None.

(** [Bucket::merge]. *)
Definition merge (maxProtocolVersion : Z) (oldBucket newBucket : Bucket) (shadows : list Bucket)
    (keepDead countMergeEvents : bool) : M App Bucket :=
  let* a := get in
  let* o := lift (mergeOutput (fun _ => mIsShutdown a) maxProtocolVersion (mFile oldBucket)
                    (mFile newBucket) (mFile <$> shadows) keepDead) in
  do* when countMergeEvents (incrMergeCounters (mMergeCounters o)) in
  getBucket o (Some (mergeKey keepDead oldBucket newBucket shadows)).

(** ** Workers *)

(** The task of [startMerge]: an exception ends up in the future; a failed
    assertion ends the process. *)
Definition runTask (id : nat) : M App unit :=
  let* a := get in
  match futures a !! id with
  | Some (Pending t) =>
      let* r := (fun a =>
        match merge (t_maxProtocolVersion t) (t_curr t) (t_snap t) (t_shadows t)
                (keepDeadEntries (t_level t)) (t_countMergeEvents t) a with
        | Ok b a' => Ok (inr b) a'
        | Err (Throw _) a' => Ok (inl (Throw "Error merging bucket")) a'
        | Err f a' => Err f a'
        end) : M App (exc Bucket) in
      modify (onFutures (<[id := Ready r]>))
  | _ => mret tt
  end.

Fixpoint runTasks (ids : list nat) : M App unit :=
  match ids with
  | [] => mret tt
  | id :: ids => do* runTask id in runTasks ids
  end.

(** The workers get on with their work before the main thread looks. *)
Definition yield : M App unit :=
  let* a := get in
  match schedule a with
  | [] => mret tt
  | ids :: rest => do* modify (setSchedule rest) in runTasks ids
  end.

Definition futureIsReady (f : option nat) : M App bool :=
  do* yield in
  let* a := get in
  mret (match f with
        | Some id => match futures a !! id with Some (Ready _) => true | _ => false end
        | None => false
        end).

(** [get] waits for the worker. *)
Definition futureGet (id : nat) : M App Bucket :=
  do* yield in
  do* runTask id in
  let* a := get in
  match futures a !! id with
  | Some (Ready r) => lift r
  | _ => fail (Throw "no state")
  end.

Definition getMergeFuture (key : MergeKey) : M App (option nat) :=
  do* yield in
  let* a := get in
  match mLiveFutures a !! key with
  | Some id =>
      do* incrMergeCounters (bump mRunningMergeReattachments zeroCounters) in
      mret (Some id)
  | None =>
      match findMergeFor key (mFinishedMerges a) with
      | Some bucketHash =>
          let* bucket := getBucketByHash bucketHash in
          match bucket with
          | Some b =>
              let* a := get in
              do* modify (onFutures (fun l => l ++ [Ready (inr b)])) in
              do* incrMergeCounters (bump mFinishedMergeReattachments zeroCounters) in
              mret (Some (length (futures a)))
          | None => mret None
          end
      | None => mret None
      end
  end.

(** [emplace] keeps an existing entry. *)
Definition putMergeFuture (key : MergeKey) (id : nat) : M App unit :=
  modify (onLive (fun m => match m !! key with Some _ => m | None => <[key := id]> m end)).

(** ** Future buckets *)

Definition mergeComplete (fb : FutureBucket) : M App bool :=
  do* assertM (isLive fb) "isLive()" in
  match mOutputBucket fb with
  | Some _ => mret true
  | None => futureIsReady (mOutputBucketFuture fb)
  end.

Definition checkHashEq (b : option Bucket) (h : option Z) : M App unit :=
  let* b := deref b "b->getHash()" in
  assertM (bool_decide (h = Some (mHash b))) "b->getHash() == hexToBin256(h)".

Fixpoint checkShadowHashes (bs : list Bucket) (hs : list Z) : M App unit :=
  match bs, hs with
  | b :: bs, h :: hs => do* checkHashEq (Some b) (Some h) in checkShadowHashes bs hs
  | _, _ => mret tt
  end.

Definition checkHashesMatch (fb : FutureBucket) : M App unit :=
  do* when (negb (Nat.eqb (length (fb_inputShadows fb)) 0))
        (do* assertM (Nat.eqb (length (fb_inputShadows fb)) (length (mInputShadowBucketHashes fb)))
               "mInputShadowBuckets.size() == mInputShadowBucketHashes.size()" in
         checkShadowHashes (fb_inputShadows fb) (mInputShadowBucketHashes fb)) in
  do* when (bool_decide (is_Some (fb_inputSnap fb))) (checkHashEq (fb_inputSnap fb) (mInputSnapBucketHash fb)) in
  do* when (bool_decide (is_Some (fb_inputCurr fb))) (checkHashEq (fb_inputCurr fb) (mInputCurrBucketHash fb)) in
  let* complete := mergeComplete fb in
  when (complete && bool_decide (is_Some (mOutputBucketHash fb)))
    (checkHashEq (mOutputBucket fb) (mOutputBucketHash fb)).

Definition isNone {A} (o : option A) : bool := match o with None => true | Some _ => false end.
Definition isNil {A} (l : list A) : bool := match l with [] => true | _ => false end.

(** The assertions of each state; a failing one aborts. *)
Definition checkState (fb : FutureBucket) : M App unit :=
  match mState fb with
  | FB_CLEAR =>
      assertM (isNil (fb_inputShadows fb) && isNone (fb_inputSnap fb) && isNone (fb_inputCurr fb)
               && isNone (mOutputBucket fb) && isNone (mOutputBucketFuture fb)
               && isNil (mInputShadowBucketHashes fb) && isNone (mInputSnapBucketHash fb)
               && isNone (mInputCurrBucketHash fb) && isNone (mOutputBucketHash fb)) "FB_CLEAR"
  | FB_LIVE_INPUTS =>
      do* assertM (negb (isNone (fb_inputSnap fb)) && negb (isNone (fb_inputCurr fb))
                   && negb (isNone (mOutputBucketFuture fb)) && isNone (mOutputBucket fb)
                   && isNone (mOutputBucketHash fb)) "FB_LIVE_INPUTS" in
      checkHashesMatch fb
  | FB_LIVE_OUTPUT =>
      let* complete := mergeComplete fb in
      do* assertM (complete && negb (isNone (mOutputBucket fb)) && isNone (mOutputBucketFuture fb)
                   && negb (isNone (mOutputBucketHash fb))) "FB_LIVE_OUTPUT" in
      checkHashesMatch fb
  | FB_HASH_INPUTS =>
      assertM (isNone (fb_inputSnap fb) && isNone (fb_inputCurr fb) && isNone (mOutputBucket fb)
               && isNone (mOutputBucketFuture fb) && negb (isNone (mInputSnapBucketHash fb))
               && negb (isNone (mInputCurrBucketHash fb)) && isNone (mOutputBucketHash fb)) "FB_HASH_INPUTS"
  | FB_HASH_OUTPUT =>
      assertM (isNone (fb_inputSnap fb) && isNone (fb_inputCurr fb) && isNone (mOutputBucket fb)
               && isNone (mOutputBucketFuture fb) && isNone (mInputSnapBucketHash fb)
               && isNone (mInputCurrBucketHash fb) && negb (isNone (mOutputBucketHash fb))) "FB_HASH_OUTPUT"
  end.

(** Attaches to a merge with the same inputs, or starts one. *)
Definition startMerge (fb : FutureBucket) (maxProtocolVersion : Z) (countMergeEvents : bool) (level : nat)
    : M App FutureBucket :=
  do* assertM (bool_decide (mState fb = FB_LIVE_INPUTS)) "mState == FB_LIVE_INPUTS" in
  do* assertM (negb (isNone (fb_inputCurr fb))) "curr" in
  do* assertM (negb (isNone (fb_inputSnap fb))) "snap" in
  do* assertM (isNone (mOutputBucketFuture fb)) "!mOutputBucketFuture.valid()" in
  do* assertM (isNone (mOutputBucket fb)) "!mOutputBucket" in
  let* curr := deref (fb_inputCurr fb) "curr" in
  let* snap := deref (fb_inputSnap fb) "snap" in
  let shadows := fb_inputShadows fb in
  let withFuture id := mkFuture (mState fb) (fb_inputCurr fb) (fb_inputSnap fb) (fb_inputShadows fb)
    (mOutputBucket fb) (Some id) (mInputCurrBucketHash fb) (mInputSnapBucketHash fb)
    (mInputShadowBucketHashes fb) (mOutputBucketHash fb) in
  let mk := mergeKey (keepDeadEntries level) curr snap shadows in
  let* f := getMergeFuture mk in
  match f with
  | Some id =>
      let fb := withFuture id in
      do* checkState fb in
      mret fb
  | None =>
      let* a := get in
      let id := length (futures a) in
      do* modify (onFutures (fun l => l ++
            [Pending (mkTask curr snap shadows maxProtocolVersion countMergeEvents level)])) in
      do* putMergeFuture mk id in
      let fb := withFuture id in
      do* checkState fb in
      mret fb
  end.

(** The constructor that starts merging its inputs. *)
Definition newFuture (curr snap : Bucket) (shadows : list Bucket) (maxProtocolVersion : Z)
    (countMergeEvents : bool) (level : nat) : M App FutureBucket :=
  let* version := lift (getBucketVersion (mFile snap)) in
  do* (if protocolVersionStartsFrom version FIRST_PROTOCOL_SHADOWS_REMOVED && negb (isNil shadows)
       then throw "Invalid FutureBucket: ledger version doesn't support shadows" else mret tt) in
  startMerge
    (mkFuture FB_LIVE_INPUTS (Some curr) (Some snap) shadows None None
       (Some (mHash curr)) (Some (mHash snap)) (mHash <$> shadows) None)
    maxProtocolVersion countMergeEvents level.

Definition setLiveOutput (fb : FutureBucket) (output : option Bucket) : M App FutureBucket :=
  let* b := deref output "output->getHash()" in
  let fb := mkFuture FB_LIVE_OUTPUT (fb_inputCurr fb) (fb_inputSnap fb) (fb_inputShadows fb) (Some b)
              (mOutputBucketFuture fb) (mInputCurrBucketHash fb) (mInputSnapBucketHash fb)
              (mInputShadowBucketHashes fb) (Some (mHash b)) in
  do* checkState fb in
  mret fb.

(** Waits for the merge; the handle ends up holding the output alone. *)
Definition resolve (fb : FutureBucket) : M App (Bucket * FutureBucket) :=
  do* checkState fb in
  do* assertM (isLive fb) "isLive()" in
  if bool_decide (mState fb = FB_LIVE_OUTPUT) then
    let* b := deref (mOutputBucket fb) "mOutputBucket" in
    mret (b, fb)
  else
    let* b := match mOutputBucket fb with
              | Some b => mret b
              | None => let* id := deref (mOutputBucketFuture fb) "mOutputBucketFuture.get()" in futureGet id
              end in
    let fb := mkFuture FB_LIVE_OUTPUT None None [] (Some b) None None None [] (Some (mHash b)) in
    do* checkState fb in
    mret (b, fb).

(** The buckets behind a list of hashes. *)
Fixpoint shadowsByHash (hs : list Z) : M App (list Bucket) :=
  match hs with
  | [] => mret []
  | h :: hs =>
      let* b := getBucketByHash h in
      do* assertM (negb (isNone b)) "b" in
      let* b := deref b "b" in
      let* bs := shadowsByHash hs in
      mret (b :: bs)
  end.

Definition makeLive (fb : FutureBucket) (maxProtocolVersion : Z) (level : nat) : M App FutureBucket :=
  do* checkState fb in
  do* assertM (negb (isLive fb)) "!isLive()" in
  do* assertM (hasHashes fb) "hasHashes()" in
  let* output := lift (hasOutputHash fb) in
  if output then
    let* h := lift (getOutputHash fb) in
    let* b := getBucketByHash h in
    setLiveOutput fb b
  else
    do* assertM (bool_decide (mState fb = FB_HASH_INPUTS)) "mState == FB_HASH_INPUTS" in
    let* ch := deref (mInputCurrBucketHash fb) "mInputCurrBucketHash" in
    let* curr := getBucketByHash ch in
    let* sh := deref (mInputSnapBucketHash fb) "mInputSnapBucketHash" in
    let* snap := getBucketByHash sh in
    do* assertM (isNil (fb_inputShadows fb)) "mInputShadowBuckets.empty()" in
    let* shadows := shadowsByHash (mInputShadowBucketHashes fb) in
    let* fb := startMerge
      (mkFuture FB_LIVE_INPUTS curr snap shadows (mOutputBucket fb) (mOutputBucketFuture fb)
         (mInputCurrBucketHash fb) (mInputSnapBucketHash fb) (mInputShadowBucketHashes fb)
         (mOutputBucketHash fb)) maxProtocolVersion true level in
    do* assertM (isLive fb) "isLive()" in
    mret fb.

End Manager.
