(* ===== verification/BucketList.v ===== *)
(** * The bucket list

    The levels of the bucket list and the operations that move buckets through them
    at every ledger close ([bucket/BucketList.cpp]), the snapshot of the list by
    hashes ([history/HistoryArchive.cpp]), and the operations of the bucket manager
    that restore a list from such a snapshot and read the whole ledger out of it
    ([bucket/BucketManagerImpl.cpp]). *)

From stdpp Require Import base list gmap strings sorting.
From S2P Require Import Prelude Exchange Entries BucketEntries Bucket BucketLevels BucketManager.

Local Open Scope Z_scope.

Section BucketList.
Context (sha : list BucketEntry -> Z).

(** The settings the list reads. *)
Context (ARTIFICIALLY_REDUCE_MERGE_COUNTS_FOR_TESTING ARTIFICIALLY_PESSIMIZE_MERGES_FOR_TESTING : bool).

(** ** Levels *)

Definition levelAt (i : nat) : M App BucketLevel :=
  let* a := get in
  match mLevels a !! i with
  | Some l => mret l
  | None => throw "vector::_M_range_check"
  end.

Definition setLevel (i : nat) (l : BucketLevel) : M App unit := modify (onLevels (<[i := l]>)).

Definition setNext (i : nat) (fb : FutureBucket) : M App unit :=
  let* l := levelAt i in setLevel i (mkLevel fb (mCurr l) (mSnap l)).
Definition setCurr (i : nat) (b : Bucket) : M App unit :=
  let* l := levelAt i in setLevel i (mkLevel clearFuture b (mSnap l)).
Definition setSnap (i : nat) (b : Bucket) : M App unit :=
  let* l := levelAt i in setLevel i (mkLevel (mNextCurr l) (mCurr l) b).

(** [BucketLevel::commit]: the finished merge becomes the level's [curr]. *)
Definition commitLevel (i : nat) : M App unit :=
  let* l := levelAt i in
  do* when (isLive (mNextCurr l))
        (let* '(b, fb) := resolve sha (mNextCurr l) in
         do* setNext i fb in
         setCurr i b) in
  let* l := levelAt i in
  assertM (negb (isMerging (mNextCurr l))) "!mNextCurr.isMerging()".

(** [BucketLevel::prepare]: the merge that gives the level's next [curr]. *)
Definition prepareLevel (i : nat) (currLedger currLedgerProtocol : Z) (snap : Bucket)
    (shadows : list Bucket) (countMergeEvents : bool) : M App unit :=
  let* l := levelAt i in
  do* assertM (negb (isMerging (mNextCurr l))) "!mNextCurr.isMerging()" in
  let* withEmpty := lift (shouldMergeWithEmptyCurr currLedger i) in
  let curr := if withEmpty then emptyBucket else mCurr l in
  let* version := lift (getBucketVersion (mFile snap)) in
  let shadowsBasedOnProtocol :=
    if protocolVersionStartsFrom version FIRST_PROTOCOL_SHADOWS_REMOVED then [] else shadows in
  let* fb := newFuture sha curr snap shadowsBasedOnProtocol currLedgerProtocol countMergeEvents i in
  do* setNext i fb in
  assertM (isMerging fb) "mNextCurr.isMerging()".

(** [BucketLevel::snap]. *)
Definition snapLevel (i : nat) : M App Bucket :=
  let* l := levelAt i in
  do* setLevel i (mkLevel (mNextCurr l) emptyBucket (mCurr l)) in
  mret (mCurr l).

Definition newBucketList : list BucketLevel :=
  replicate kNumLevels (mkLevel clearFuture emptyBucket emptyBucket).

(** ** Merges that finish *)

Fixpoint resolveReadyFrom (todo i : nat) : M App unit :=
  match todo with
  | O => mret tt
  | S todo =>
      let* l := levelAt i in
      do* (if isMerging (mNextCurr l) then
             let* complete := mergeComplete sha (mNextCurr l) in
             when complete (let* '(_, fb) := resolve sha (mNextCurr l) in setNext i fb)
           else mret tt) in
      resolveReadyFrom todo (S i)
  end.
Definition resolveAnyReadyFutures : M App unit :=
  let* a := get in resolveReadyFrom (length (mLevels a)) 0.

Fixpoint resolvedUpTo (todo i : nat) : M App bool :=
  match todo with
  | O => mret true
  | S todo =>
      let* l := levelAt i in
      if isMerging (mNextCurr l) then mret false else resolvedUpTo todo (S i)
  end.
Definition futuresAllResolved (maxLevel : nat) : M App bool :=
  let* a := get in
  do* assertM (Nat.ltb maxLevel (length (mLevels a))) "maxLevel < mLevels.size()" in
  resolvedUpTo (S maxLevel) 0.

(** ** Adding a ledger *)

(** [shadows.pop_back(); shadows.pop_back();] *)
Definition popTwo (shadows : list Bucket) : M App (list Bucket) :=
  do* assertM (Nat.leb 2 (length shadows)) "shadows.size() >= 2" in
  mret (take (length shadows - 2) shadows).

(** The loop over the levels from the oldest down: each one that spills is snapped,
    its successor takes in the finished merge and starts the next one. *)
Fixpoint spillLevels (i : nat) (currLedger currLedgerProtocol : Z) (shadows : list Bucket)
    : M App (list Bucket) :=
  match i with
  | O => mret shadows
  | S prev =>
      let* shadows := popTwo shadows in
      let* spill := lift (levelShouldSpill currLedger prev) in
      do* when spill
            (let* snap := snapLevel prev in
             do* commitLevel i in
             prepareLevel i currLedger currLedgerProtocol snap shadows true) in
      spillLevels prev currLedger currLedgerProtocol shadows
  end.

Definition addBatch (currLedger currLedgerProtocol : Z) (initEntries liveEntries : list LedgerEntry)
    (deadEntries : list LedgerKey) : M App unit :=
  do* assertM (0 <? currLedger) "currLedger > 0" in
  let* a := get in
  let shadows := mLevels a ≫= (fun l => [mCurr l; mSnap l]) in
  let* shadows := popTwo shadows in
  let* shadows := spillLevels (length (mLevels a) - 1) currLedger currLedgerProtocol shadows in
  let countMergeEvents := negb ARTIFICIALLY_REDUCE_MERGE_COUNTS_FOR_TESTING in
  do* assertM (Nat.eqb (length shadows) 0) "shadows.size() == 0" in
  let* b := fresh sha currLedgerProtocol initEntries liveEntries deadEntries countMergeEvents in
  do* prepareLevel 0 currLedger currLedgerProtocol b shadows countMergeEvents in
  do* commitLevel 0 in
  when (negb ARTIFICIALLY_PESSIMIZE_MERGES_FOR_TESTING) resolveAnyReadyFutures.

(** ** Snapshots of the list *)

Record HistoryStateBucket := mkHSB { hsb_curr : Z; hsb_next : FutureBucket; hsb_snap : Z }.
Record HistoryArchiveState := mkHAS { currentLedger : Z; currentBuckets : list HistoryStateBucket }.

Definition makeHAS (ledgerSeq : Z) (levels : list BucketLevel) : HistoryArchiveState :=
  mkHAS ledgerSeq ((fun l => mkHSB (mHash (mCurr l)) (mNextCurr l) (mHash (mSnap l))) <$> levels).

(** What the serialised form of a snapshot keeps of the merges. *)
Definition savedHAS (has : HistoryArchiveState) : HistoryArchiveState :=
  mkHAS (currentLedger has)
    ((fun h => mkHSB (hsb_curr h) (loadFuture (saveFuture (hsb_next h))) (hsb_snap h)) <$> currentBuckets has).

(** The hash of the list, [hashSeq] being SHA-256 over a sequence of hashes. *)
Definition getHash (hashSeq : list Z -> Z) (levels : list BucketLevel) : Z :=
  hashSeq ((fun l => hashSeq [mHash (mCurr l); mHash (mSnap l)]) <$> levels).
Definition getBucketListHash (hashSeq : list Z -> Z) (has : HistoryArchiveState) : Z :=
  hashSeq ((fun h => hashSeq [hsb_curr h; hsb_snap h]) <$> currentBuckets has).

(** [BucketList::restartMerges]; the loop ends early at a level that was never
    reached. *)
Fixpoint restartFrom (todo i : nat) (maxProtocolVersion ledger : Z) : M App unit :=
  match todo with
  | O => mret tt
  | S todo =>
      let* l := levelAt i in
      let next := mNextCurr l in
      if hasHashes next && negb (isLive next) then
        let* fb := makeLive sha next maxProtocolVersion i in
        do* setNext i fb in
        restartFrom todo (S i) maxProtocolVersion ledger
      else
        match isClear next, i with
        | true, S prev =>
            let* below := levelAt prev in
            let snap := mSnap below in
            if mHash snap =? 0 then mret tt
            else
              let* version := lift (getBucketVersion (mFile snap)) in
              if protocolVersionIsBefore version FIRST_PROTOCOL_SHADOWS_REMOVED
              then throw "Invalid state: bucketlist level has clear future bucket but old snap"
              else
                let* half := lift (levelHalf prev) in
                let mergeStartLedger := mask ledger half in
                do* prepareLevel i mergeStartLedger version snap []
                      (negb ARTIFICIALLY_REDUCE_MERGE_COUNTS_FOR_TESTING) in
                restartFrom todo (S i) maxProtocolVersion ledger
        | _, _ => restartFrom todo (S i) maxProtocolVersion ledger
        end
  end.
Definition restartMerges (maxProtocolVersion ledger : Z) : M App unit :=
  let* a := get in restartFrom (length (mLevels a)) 0 maxProtocolVersion ledger.

Definition bucketsAt (has : HistoryArchiveState) (i : nat) : exc HistoryStateBucket :=
  match currentBuckets has !! i with
  | Some h => mret h
  | None => exc_throw (Throw "vector::_M_range_check")
  end.

Fixpoint assumeLevels (todo i : nat) (has : HistoryArchiveState) : M App unit :=
  match todo with
  | O => mret tt
  | S todo =>
      let* h := lift (bucketsAt has i) in
      let* curr := getBucketByHash (hsb_curr h) in
      let* snap := getBucketByHash (hsb_snap h) in
      match curr, snap with
      | Some curr, Some snap =>
          do* setCurr i curr in
          do* setSnap i snap in
          do* setNext i (hsb_next h) in
          assumeLevels todo (S i) has
      | _, _ => throw "Missing bucket files while assuming saved BucketList state"
      end
  end.

(** [BucketManagerImpl::assumeState], without the removal of unreferenced files. *)
Definition assumeState (has : HistoryArchiveState) (maxProtocolVersion : Z) : M App unit :=
  do* assumeLevels kNumLevels 0 has in
  restartMerges maxProtocolVersion (currentLedger has).

(** ** Reading the whole ledger *)

(** [loadEntriesFromBucket]: one bucket applied on top of the older ones. *)
Fixpoint loadEntries (fuel : nat) (it : BucketInputIterator) (m : gmap LedgerKey LedgerEntry)
    : exc (gmap LedgerKey LedgerEntry) :=
  match mEntryPtr it with
  | None => mret m
  | Some e =>
      match fuel with
      | O => exc_throw OutOfFuel
      | S fuel =>
          let* m := match e with
                    | LIVEENTRY x | INITENTRY x => mret (<[LedgerEntryKey x := x]> m)
                    | DEADENTRY k =>
                        match m !! k with
                        | Some _ => mret (delete k m)
                        | None => exc_throw (Throw "DEADENTRY does not exist in ledger")
                        end
                    | METAENTRY _ => exc_throw (Throw "Malformed bucket: unexpected non-INIT/LIVE/DEAD entry.")
                    end in
          let* it := nextEntry it in
          loadEntries fuel it m
      end
  end.

Definition loadEntriesFromBucket (b : Bucket) (m : gmap LedgerKey LedgerEntry)
    : exc (gmap LedgerKey LedgerEntry) :=
  let* it := openBucket (mFile b) in
  loadEntries (length (mFile b)) it m.

Fixpoint loadBuckets (hashes : list Z) (m : gmap LedgerKey LedgerEntry) : M App (gmap LedgerKey LedgerEntry) :=
  match hashes with
  | [] => mret m
  | h :: hashes =>
      if h =? 0 then loadBuckets hashes m
      else
        let* b := getBucketByHash h in
        match b with
        | None => throw "missing bucket"
        | Some b =>
            let* m := lift (loadEntriesFromBucket b m) in
            loadBuckets hashes m
        end
  end.

(** From the oldest bucket to the newest: the levels backwards, [snap] before [curr]. *)
Fixpoint oldestFirst (i : nat) (has : HistoryArchiveState) : exc (list Z) :=
  match i with
  | O => mret []
  | S i =>
      let* h := bucketsAt has i in
      let* newer := oldestFirst i has in
      mret (hsb_snap h :: hsb_curr h :: newer)
  end.

Definition loadCompleteLedgerState (has : HistoryArchiveState) : M App (gmap LedgerKey LedgerEntry) :=
  let* hashes := lift (oldestFirst kNumLevels has) in
  loadBuckets hashes ∅.

(** One bucket of live entries, in the order of the [std::map]. *)
Definition mergeBuckets (LEDGER_PROTOCOL_VERSION : Z) (has : HistoryArchiveState) : M App Bucket :=
  let* ledgerMap := loadCompleteLedgerState has in
  let* o := lift (openOutput false (mkMeta LEDGER_PROTOCOL_VERSION) zeroCounters) in
  let* o := lift (putAll (merge_sort entryLe (LIVEENTRY <$> (map_to_list ledgerMap).*2)) o) in
  getBucket sha o None.

End BucketList.
