(* ===== verification/HistoryArchive.v ===== *)
(** * Snapshots of the bucket list in a history archive

    The operations of [history/HistoryArchive.cpp] on a [HistoryArchiveState]: the
    merges of a snapshot, which buckets a snapshot needs that another does not have,
    the preparation of a snapshot for publication and the check of a snapshot that
    comes from an archive. *)

From stdpp Require Import base list gmap sets strings sorting.
From S2P Require Import Prelude Entries BucketEntries Bucket BucketLevels BucketManager BucketList.

Local Open Scope Z_scope.

(** The snapshot of an empty bucket list. *)
Definition emptyHAS : HistoryArchiveState := mkHAS 0 (replicate kNumLevels (mkHSB 0 clearFuture 0)).

(** [currentBuckets[i]], which does not check its index. *)
Definition bucketsIndex (has : HistoryArchiveState) (i : nat) : exc HistoryStateBucket :=
  match currentBuckets has !! i with
  | Some h => mret h
  | None => exc_throw (NullPointer "currentBuckets[i]")
  end.

Definition setNextOf (fb : FutureBucket) (h : HistoryStateBucket) : HistoryStateBucket :=
  mkHSB (hsb_curr h) fb (hsb_snap h).

Definition HAS_futuresAllResolved (has : HistoryArchiveState) : bool :=
  forallb (fun h => negb (isMerging (hsb_next h))) (currentBuckets has).

Definition futuresAllClear (has : HistoryArchiveState) : bool :=
  forallb (fun h => isClear (hsb_next h)) (currentBuckets has).

Definition allBuckets (has : HistoryArchiveState) : list Z :=
  merge_sort Z.le (elements (list_to_set (C := gset Z)
    (currentBuckets has ≫= (fun h => hsb_curr h :: hsb_snap h :: getHashes (hsb_next h))))).

Section HistoryArchive.
Context (sha : list BucketEntry -> Z).

(** ** The merges of a snapshot *)

Fixpoint resolveAll (hs : list HistoryStateBucket) : M App (list HistoryStateBucket) :=
  match hs with
  | [] => mret []
  | h :: hs =>
      let* h := (if isMerging (hsb_next h)
                 then let* '(_, fb) := resolve sha (hsb_next h) in mret (setNextOf fb h)
                 else mret h) in
      let* hs := resolveAll hs in
      mret (h :: hs)
  end.
Definition resolveAllFutures (has : HistoryArchiveState) : M App HistoryArchiveState :=
  let* hs := resolveAll (currentBuckets has) in mret (mkHAS (currentLedger has) hs).

Fixpoint resolveReady (hs : list HistoryStateBucket) : M App (list HistoryStateBucket) :=
  match hs with
  | [] => mret []
  | h :: hs =>
      let* complete := (if isMerging (hsb_next h) then mergeComplete sha (hsb_next h) else mret false) in
      let* h := (if complete : bool
                 then let* '(_, fb) := resolve sha (hsb_next h) in mret (setNextOf fb h)
                 else mret h) in
      let* hs := resolveReady hs in
      mret (h :: hs)
  end.
Definition HAS_resolveAnyReadyFutures (has : HistoryArchiveState) : M App HistoryArchiveState :=
  let* hs := resolveReady (currentBuckets has) in mret (mkHAS (currentLedger has) hs).

(** ** The buckets another snapshot does not have *)

(** The hashes the other snapshot has. *)
Fixpoint inhibited (bs : list HistoryStateBucket) (inhibit : gset Z) : M App (gset Z) :=
  match bs with
  | [] => mret inhibit
  | b :: bs =>
      let inhibit := {[hsb_curr b]} ∪ inhibit in
      let* next := (if isLive (hsb_next b)
                    then let* '(_, fb) := resolve sha (hsb_next b) in mret fb
                    else mret (hsb_next b)) in
      let* out := lift (hasOutputHash next) in
      let* inhibit := (if out : bool
                       then let* h := lift (getOutputHash next) in mret ({[h]} ∪ inhibit)
                       else mret inhibit) in
      inhibited bs ({[hsb_snap b]} ∪ inhibit)
  end.

(** [if (inhibit.find(j) == inhibit.end()) { ret.push_back(j); inhibit.insert(j); }] *)
Definition addDiffering (acc : gset Z * list Z) (j : Z) : gset Z * list Z :=
  if bool_decide (j ∈ acc.1) then acc else ({[j]} ∪ acc.1, acc.2 ++ [j]).

Fixpoint differingFrom (i : nat) (has : HistoryArchiveState) (acc : gset Z * list Z) : exc (list Z) :=
  match i with
  | O => mret acc.2
  | S i =>
      let* level := bucketsIndex has i in
      let s := hsb_snap level in
      let* out := hasOutputHash (hsb_next level) in
      let* n := (if out : bool then getOutputHash (hsb_next level) else mret s) in
      let c := hsb_curr level in
      differingFrom i has (foldl addDiffering acc [s; n; c])
  end.

Definition differingBuckets (has other : HistoryArchiveState) : M App (list Z) :=
  do* assertM (HAS_futuresAllResolved has) "futuresAllResolved()" in
  let* inhibit := inhibited (currentBuckets other) {[0]} in
  lift (differingFrom kNumLevels has (inhibit, [])).

(** ** Publication *)

Fixpoint prepareFrom (LEDGER_PROTOCOL_VERSION : Z) (todo i : nat) (has : HistoryArchiveState)
    : M App HistoryArchiveState :=
  match todo with
  | O => mret has
  | S todo =>
      let* level := lift (bucketsIndex has i) in
      let* prev := lift (bucketsIndex has (i - 1)) in
      let* snap := getBucketByHash (hsb_snap prev) in
      let* shadowless := (if negb (isClear (hsb_next level)) then
                            let* snap := deref snap "bucket" in
                            let* version := lift (getBucketVersion (mFile snap)) in
                            mret (protocolVersionStartsFrom version FIRST_PROTOCOL_SHADOWS_REMOVED)
                          else mret false) in
      let* next := (if shadowless : bool then mret clearFuture
                    else if hasHashes (hsb_next level) && negb (isLive (hsb_next level))
                    then makeLive sha (hsb_next level) LEDGER_PROTOCOL_VERSION i
                    else mret (hsb_next level)) in
      prepareFrom LEDGER_PROTOCOL_VERSION todo (S i)
        (mkHAS (currentLedger has) (<[i := setNextOf next level]> (currentBuckets has)))
  end.

Definition prepareForPublish (LEDGER_PROTOCOL_VERSION : Z) (has : HistoryArchiveState)
    : M App HistoryArchiveState :=
  let* level := lift (bucketsIndex has 0) in
  do* assertM (isClear (hsb_next level)) "currentBuckets[0].next.isClear()" in
  prepareFrom LEDGER_PROTOCOL_VERSION (kNumLevels - 1) 1 has.

(** ** The check of a snapshot *)

(** The version of a bucket, and whether a bucket that is not empty has been seen. *)
Definition processBucket (bucketHash : Z) (nonEmptySeen : bool) : M App (Z * bool) :=
  let* bucket := getBucketByHash bucketHash in
  do* assertM (negb (isNone bucket)) "bucket" in
  let* bucket := deref bucket "bucket" in
  if mHash bucket =? 0 then mret (0, nonEmptySeen)
  else
    let* version := lift (getBucketVersion (mFile bucket)) in
    mret (version, true).

(** From the oldest level to the newest; [minBucketVersion] is the version of the last
    bucket. *)
Fixpoint validFromLevel (j : nat) (has : HistoryArchiveState) (minBucketVersion : Z) (nonEmptySeen : bool)
    : M App bool :=
  match j with
  | O => mret true
  | S i =>
      let* level := lift (bucketsIndex has i) in
      let* '(snapVersion, nonEmptySeen) := processBucket (hsb_snap level) nonEmptySeen in
      if snapVersion <? minBucketVersion then mret false
      else
        let* '(currVersion, nonEmptySeen) := processBucket (hsb_curr level) nonEmptySeen in
        if currVersion <? snapVersion then mret false
        else
          match i with
          | O => mret (isClear (hsb_next level))
          | S p =>
              let* prev := lift (bucketsIndex has p) in
              let* '(prevSnapVersion, nonEmptySeen) := processBucket (hsb_snap prev) nonEmptySeen in
              if negb nonEmptySeen then validFromLevel i has currVersion nonEmptySeen
              else if protocolVersionStartsFrom prevSnapVersion FIRST_PROTOCOL_SHADOWS_REMOVED then
                if negb (isClear (hsb_next level)) then mret false
                else validFromLevel i has currVersion nonEmptySeen
              else
                let* out := lift (hasOutputHash (hsb_next level)) in
                if negb out then mret false else validFromLevel i has currVersion nonEmptySeen
          end
  end.

Definition containsValidBuckets (has : HistoryArchiveState) : M App bool :=
  validFromLevel kNumLevels has 0 false.

End HistoryArchive.
