(* ===== verification/BucketStore.v ===== *)
(** * The bucket store and background merges are transparent

    Under a collision-free hash every bucket the manager hands out is the one its
    name says, a merge found by its key has the contents a new run would give, and a
    future holds the merged file of its inputs whenever the worker finishes. *)

From stdpp Require Import base list gmap strings sorting.
From S2P Require Import Prelude Exchange Entries BucketEntries Bucket BucketMerge BucketSpec BucketLevels BucketManager.

Local Open Scope Z_scope.

#[local] Arguments wp : simpl never.
#[local] Arguments mergedFile : simpl never.

(** A run without faults that ends as [Q] says. *)
Definition runs {A} (m : M App A) (Q : A -> App -> Prop) (a : App) : Prop := wp (fun _ => False) m Q a.

Lemma runs_bind {A B} (m : M App A) (k : A -> M App B) Q a :
  runs m (fun x a' => runs (k x) Q a') a -> runs (bnd m k) Q a.
Proof. apply wp_bind. Qed.
Lemma runs_mono {A} (m : M App A) (Q Q' : A -> App -> Prop) a :
  runs m Q a -> (forall x a', Q x a' -> Q' x a') -> runs m Q' a.
Proof. apply wp_mono. Qed.
Lemma runs_ret {A} (x : A) (Q : A -> App -> Prop) a : Q x a -> runs (mret x) Q a.
Proof. done. Qed.
Lemma runs_get (Q : App -> App -> Prop) a : Q a a -> runs get Q a.
Proof. done. Qed.
Lemma runs_modify f (Q : unit -> App -> Prop) a : Q tt (f a) -> runs (modify f) Q a.
Proof. done. Qed.
Lemma runs_lift {A} (x : A) (Q : A -> App -> Prop) a : Q x a -> runs (lift (inr x)) Q a.
Proof. done. Qed.
Lemma runs_assert b what (Q : unit -> App -> Prop) a : b = true -> Q tt a -> runs (assertM b what) Q a.
Proof. by intros ->. Qed.
Lemma runs_deref {A} (x : A) what (Q : A -> App -> Prop) a : Q x a -> runs (deref (Some x) what) Q a.
Proof. done. Qed.
Lemma runs_when b m (Q : unit -> App -> Prop) a :
  (b = true -> runs m Q a) -> (b = false -> Q tt a) -> runs (when b m) Q a.
Proof. apply wp_when. Qed.

#[local] Arguments runs : simpl never.

Section Store.
Context (sha : list BucketEntry -> Z).
Hypothesis sha_inj : forall l l', sha l = sha l' -> l = l'.
Hypothesis sha_nonzero : forall l, sha l <> 0.

(** ** Buckets in the store *)

Definition Stored (d : gmap Z (list BucketEntry)) (b : Bucket) : Prop :=
  b = emptyBucket \/
  (mFile b <> [] /\ mHash b = sha (mFile b) /\ d !! mHash b = Some (mFile b)).

Lemma stored_empty a : Stored a emptyBucket.
Proof using. by left. Qed.

Lemma stored_same a a' b b' : Stored a b -> Stored a' b' -> mHash b = mHash b' -> b = b'.
Proof using sha_inj sha_nonzero.
  intros [-> |(H1 & H2 & _)] [-> |(H1' & H2' & _)] E; [done|..].
  - exfalso. cbn in E. rewrite H2' in E. by apply (sha_nonzero (mFile b')).
  - exfalso. cbn in E. rewrite H2 in E. by apply (sha_nonzero (mFile b)).
  - rewrite H2, H2' in E. apply sha_inj in E. destruct b, b'. cbn in *. congruence.
Qed.

Lemma stored_nil a b : Stored a b -> mFile b = [] -> b = emptyBucket.
Proof using. intros [? |(? & _)]; done. Qed.

Lemma stored_hash a b : Stored a b -> mHash b = 0 <-> b = emptyBucket.
Proof using sha_nonzero.
  intros [-> |(_ & H & _)]; [done|]. rewrite H. split; [intros E; by apply sha_nonzero in E|].
  intros ->. done.
Qed.

(** ** Merges *)

(** The file a merge of these inputs writes. *)
Definition taskFile (t : MergeTask) : list BucketEntry :=
  mergedFile (mFile (t_curr t)) (mFile (t_snap t)) (mFile <$> t_shadows t) (keepDeadEntries (t_level t)).

Definition taskKey (t : MergeTask) : MergeKey :=
  mergeKey (keepDeadEntries (t_level t)) (t_curr t) (t_snap t) (t_shadows t).

(** A merge that will go through. *)
Record TaskOK (a : gmap Z (list BucketEntry)) (t : MergeTask) : Prop := {
  to_curr : Stored a (t_curr t);
  to_snap : Stored a (t_snap t);
  to_shadows : Forall (Stored a) (t_shadows t);
  to_wf : WfFile (mFile (t_curr t)) /\ WfFile (mFile (t_snap t)) /\ Forall WfFile (mFile <$> t_shadows t);
  to_goes : ~ refused (t_maxProtocolVersion t) (mFile (t_curr t)) (mFile (t_snap t)) (mFile <$> t_shadows t)
}.

(** What a future's shared state holds, or will hold. *)
Definition Holds (a : gmap Z (list BucketEntry)) (st : FutureState) (F : list BucketEntry) : Prop :=
  match st with
  | Pending t => TaskOK a t /\ taskFile t = F
  | Ready (inr b) => Stored a b /\ mFile b = F
  | Ready (inl _) => False
  end.

Lemma same_inputs a a' l l' :
  Forall (Stored a) l -> Forall (Stored a') l' -> mHash <$> l = mHash <$> l' -> l = l'.
Proof using sha_inj sha_nonzero.
  intros H. revert l'. induction H as [|b l Hb _ IH]; intros [|b' l'] H' E; try done.
  apply Forall_cons in H' as [Hb' Hl']. cbn in E. injection E as E1 E2.
  f_equal; [by apply (stored_same a a')|by apply IH].
Qed.

(** Equal keys are equal merges. *)
Lemma taskKey_file a a' t t' :
  TaskOK a t -> TaskOK a' t' -> taskKey t = taskKey t' -> taskFile t = taskFile t'.
Proof using sha_inj sha_nonzero.
  intros H H' E. unfold taskKey, mergeKey in E. injection E as E1 E2 E3 E4. unfold taskFile. rewrite E1.
  rewrite (stored_same a a' _ _ (to_curr _ _ H) (to_curr _ _ H') E2).
  rewrite (stored_same a a' _ _ (to_snap _ _ H) (to_snap _ _ H') E3).
  by rewrite (same_inputs a a' _ _ (to_shadows _ _ H) (to_shadows _ _ H') E4).
Qed.

Lemma task_wf a t : TaskOK a t -> WfFile (taskFile t).
Proof using. intros H. apply merged_wf; apply (to_wf _ _ H). Qed.

(** ** The invariant of the store *)

Record StoreOK (a : App) : Prop := {
  so_shared h b : mSharedBuckets a !! h = Some b -> mHash b = h /\ b <> emptyBucket /\ Stored (bucketDir a) b;
  so_dir h f : bucketDir a !! h = Some f -> h = sha f /\ f <> [];
  so_futures id st : futures a !! id = Some st -> exists F, Holds (bucketDir a) st F;
  so_live key id : mLiveFutures a !! key = Some id ->
    exists st F, futures a !! id = Some st /\ Holds (bucketDir a) st F /\
      (exists t, TaskOK (bucketDir a) t /\ taskKey t = key /\ taskFile t = F);
  so_finished key h : findMergeFor key (mFinishedMerges a) = Some h ->
    exists t b, TaskOK (bucketDir a) t /\ taskKey t = key /\ Stored (bucketDir a) b /\ mHash b = h /\ mFile b = taskFile t;
  so_up : mIsShutdown a = false
}.

(** The store only grows, and futures only get ready. *)
Record Evolves (a a' : App) : Prop := {
  ev_dir : bucketDir a ⊆ bucketDir a';
  ev_futures id st F : futures a !! id = Some st -> Holds (bucketDir a) st F ->
    exists st', futures a' !! id = Some st' /\ Holds (bucketDir a') st' F;
  ev_levels : mLevels a' = mLevels a
}.

Lemma stored_grows d d' b : d ⊆ d' -> Stored d b -> Stored d' b.
Proof using. intros H [? |(? & ? & ?)]; [by left|right]. eauto using lookup_weaken. Qed.

Lemma task_grows d d' t : d ⊆ d' -> TaskOK d t -> TaskOK d' t.
Proof using.
  intros H [H1 H2 H3 H4 H5]. split; [by apply (stored_grows d)..| |done|done].
  apply (Forall_impl _ _ _ H3). intros b. by apply stored_grows.
Qed.

Lemma holds_grows d d' st F : d ⊆ d' -> Holds d st F -> Holds d' st F.
Proof using.
  intros H. destruct st as [t|[f|b]]; cbn; [|done|]; intros [H1 H2]; (split; [|done]);
    [by apply (task_grows d)|by apply (stored_grows d)].
Qed.

Lemma evolves_refl a : Evolves a a.
Proof using. split; eauto. Qed.
Lemma evolves_trans a b c : Evolves a b -> Evolves b c -> Evolves a c.
Proof using.
  intros [H1 H2 H3] [H1' H2' H3']. split; [by etrans| |congruence].
  intros id st F Hst HF. destruct (H2 id st F Hst HF) as (st' & E & HF'). by apply (H2' id st').
Qed.
Lemma evolves_stored a a' b : Evolves a a' -> Stored (bucketDir a) b -> Stored (bucketDir a') b.
Proof using. intros H. apply stored_grows, (ev_dir _ _ H). Qed.
Lemma evolves_task a a' t : Evolves a a' -> TaskOK (bucketDir a) t -> TaskOK (bucketDir a') t.
Proof using. intros H. apply task_grows, (ev_dir _ _ H). Qed.

(** A change of the state that leaves files and futures alone. *)
Lemma evolves_same a a' :
  bucketDir a' = bucketDir a -> futures a' = futures a -> mLevels a' = mLevels a -> Evolves a a'.
Proof using.
  intros Hd Hf Hl. split; [by rewrite Hd| |done]. intros id st F. rewrite Hf, Hd. by exists st.
Qed.

(** An operation that keeps the store and lets it grow. *)
Definition grows {A} (m : M App A) (Q : A -> App -> Prop) (a : App) : Prop :=
  runs m (fun x a' => StoreOK a' /\ Evolves a a' /\ Q x a') a.

#[local] Hint Resolve evolves_refl stored_empty : core.

Lemma grows_bind {A B} (m : M App A) (k : A -> M App B) (Q : A -> App -> Prop) (R : B -> App -> Prop) a :
  grows m Q a ->
  (forall x a', StoreOK a' -> Evolves a a' -> Q x a' -> grows (k x) R a') -> grows (bnd m k) R a.
Proof using.
  intros Hm Hk. apply runs_bind. eapply runs_mono; [exact Hm|]. cbn beta. intros x a' (HS & HE & HQ).
  eapply runs_mono; [by apply Hk|]. cbn beta. intros y a'' (HS' & HE' & HR).
  split; [done|]. split; [by eapply evolves_trans|done].
Qed.

Lemma grows_mono {A} (m : M App A) (Q Q' : A -> App -> Prop) a :
  grows m Q a -> (forall x a', StoreOK a' -> Evolves a a' -> Q x a' -> Q' x a') -> grows m Q' a.
Proof using.
  intros Hm H. eapply runs_mono; [exact Hm|]. cbn beta. intros x a' (HS & HE & HQ). auto.
Qed.

Lemma grows_ret {A} (x : A) (Q : A -> App -> Prop) a : StoreOK a -> Q x a -> grows (mret x) Q a.
Proof using. intros HS HQ. apply runs_ret. auto. Qed.
Lemma grows_get (Q : App -> App -> Prop) a : StoreOK a -> Q a a -> grows get Q a.
Proof using. intros HS HQ. apply runs_get. auto. Qed.
Lemma grows_lift {A} (x : A) (Q : A -> App -> Prop) a : StoreOK a -> Q x a -> grows (lift (inr x)) Q a.
Proof using. intros HS HQ. apply runs_lift. auto. Qed.
Lemma grows_deref {A} (x : A) what (Q : A -> App -> Prop) a : StoreOK a -> Q x a -> grows (deref (Some x) what) Q a.
Proof using. intros HS HQ. apply runs_deref. auto. Qed.
Lemma grows_assert b what (Q : unit -> App -> Prop) a : b = true -> StoreOK a -> Q tt a -> grows (assertM b what) Q a.
Proof using. intros -> HS HQ. apply runs_assert; [done|]. auto. Qed.

(** ** Changes beside the store *)

Definition sameStore (a a' : App) : Prop :=
  mSharedBuckets a' = mSharedBuckets a /\ bucketDir a' = bucketDir a /\ mLiveFutures a' = mLiveFutures a /\
  mFinishedMerges a' = mFinishedMerges a /\ mIsShutdown a' = mIsShutdown a /\ futures a' = futures a.

Lemma store_same a a' : sameStore a a' -> StoreOK a -> StoreOK a'.
Proof using.
  intros (E1 & E2 & E3 & E4 & E5 & E6) [H1 H2 H3 H4 H5 H6].
  split; [rewrite E1, E2|rewrite E2|rewrite E6, E2|rewrite E3, E6, E2|rewrite E4, E2|rewrite E5]; auto.
Qed.

Lemma grows_counters delta (Q : unit -> App -> Prop) a :
  StoreOK a -> (forall a', bucketDir a' = bucketDir a -> futures a' = futures a -> Q tt a') ->
  grows (incrMergeCounters delta) Q a.
Proof using.
  intros HS HQ. apply runs_modify. split; [by eapply store_same; [|exact HS]; repeat split|].
  split; [by apply evolves_same|by apply HQ].
Qed.

(** ** Buckets by hash *)

Lemma getBucketByHash_ok h a :
  StoreOK a ->
  grows (getBucketByHash h)
    (fun r a' => bucketDir a' = bucketDir a /\ futures a' = futures a /\ mLiveFutures a' = mLiveFutures a /\
       mFinishedMerges a' = mFinishedMerges a /\
       match r with
       | Some b => mHash b = h /\ Stored (bucketDir a') b
       | None => h <> 0 /\ bucketDir a !! h = None
       end) a.
Proof using.
  intros HS. unfold getBucketByHash. destruct (Z.eqb_spec h 0) as [->|Hh]; [apply grows_ret; auto 10|].
  apply runs_bind, runs_get. destruct (mSharedBuckets a !! h) as [b|] eqn:Es.
  { destruct (so_shared _ HS h b Es) as (? & _ & ?). apply grows_ret; auto 10. }
  destruct (bucketDir a !! h) as [f|] eqn:Ed; [|apply grows_ret; auto 10].
  apply runs_bind, runs_modify, runs_ret. destruct (so_dir _ HS h f Ed) as [Hsha Hne].
  assert (Stored (bucketDir a) (mkBucket h f)) as Hst by (right; auto).
  split; [|split; [by apply evolves_same|auto 10]].
  destruct HS as [H1 H2 H3 H4 H5 H6]. split; cbn; try done.
  intros h' b [[<- <-]|[Hne' Hb]]%lookup_insert_Some; [|by apply H1].
  split; [done|]. split; [|done]. by intros [= -> ->].
Qed.

(** A stored bucket is found under its hash. *)
Lemma getBucketByHash_stored b a :
  StoreOK a -> Stored (bucketDir a) b ->
  grows (getBucketByHash (mHash b))
    (fun r a' => r = Some b /\ bucketDir a' = bucketDir a /\ futures a' = futures a) a.
Proof using sha_inj sha_nonzero.
  intros HS Hb. eapply grows_mono; [by apply getBucketByHash_ok|]. cbn.
  intros r a' HS' HE (Hd & Hf & _ & _ & Hr). split; [|done]. destruct r as [b'|].
  - destruct Hr as [Hh Hb']. f_equal. by eapply stored_same.
  - destruct Hr as [Hh Hn]. destruct Hb as [-> |(_ & _ & Hb)]; [done|congruence].
Qed.

(** ** Adopting files *)

Lemma live_delete k a : StoreOK a -> StoreOK (onLive (delete k) a).
Proof using.
  intros [H1 H2 H3 H4 H5 H6]. split; cbn; try done.
  intros key id [_ Hk]%lookup_delete_Some. by apply H4.
Qed.

Lemma dir_insert file a :
  StoreOK a -> file <> [] -> bucketDir a !! sha file = None ->
  let a' := onShared (<[sha file := mkBucket (sha file) file]>) (onDir (<[sha file := file]>) a) in
  StoreOK a' /\ Evolves a a' /\ Stored (bucketDir a') (mkBucket (sha file) file).
Proof using.
  intros HS Hne Hnone a'.
  assert (bucketDir a ⊆ bucketDir a') as Hd by (by apply insert_subseteq).
  assert (Stored (bucketDir a') (mkBucket (sha file) file)) as Hst.
  { right. cbn. split; [done|]. split; [done|]. apply lookup_insert_eq. }
  split; [|split; [|done]].
  - destruct HS as [H1 H2 H3 H4 H5 H6]. split; [..|exact H6].
    + intros h b Hb. unfold a' in Hb. cbn in Hb.
      apply lookup_insert_Some in Hb as [[<- <-]|[_ Hb]]; [by split; [|split; [intros [= ? ?]|]]|].
      destruct (H1 h b Hb) as (? & ? & ?). eauto using stored_grows.
    + intros h f Hf. unfold a' in Hf. cbn in Hf.
      apply lookup_insert_Some in Hf as [[<- <-]|[_ Hf]]; [done|by apply H2].
    + intros id st Hst'. destruct (H3 id st Hst') as [F HF]. eauto using holds_grows.
    + intros key id Hk. destruct (H4 key id Hk) as (st & F & Hs & HF & t & Ht & Hr).
      exists st, F. split; [done|]. split; [by eapply holds_grows|]. eauto using task_grows.
    + intros key h Hk. destruct (H5 key h Hk) as (t & b & Ht & Hkey & Hb & Hr).
      exists t, b. split; [by eapply task_grows|]. split; [done|]. split; [by eapply stored_grows|done].
  - split; [exact Hd| |done]. intros id st F Hs HF. exists st. split; [done|]. by eapply holds_grows.
Qed.

Lemma record_finished t b a :
  StoreOK a -> TaskOK (bucketDir a) t -> Stored (bucketDir a) b -> mFile b = taskFile t ->
  StoreOK (onFinished (recordMerge (taskKey t) (mHash b)) a).
Proof using.
  intros HS Ht Hb Hf. destruct HS as [H1 H2 H3 H4 H5 H6]. split; cbn; try done.
  intros key h. unfold findMergeFor in *. cbn.
  destruct (mMergeKeyToOutput (mFinishedMerges a) !! taskKey t) eqn:E; [apply H5|].
  intros [[<- <-]|[_ Hk]]%lookup_insert_Some; [by exists t, b|by apply H5].
Qed.

(** The key of an adoption is the key of the merge that wrote the file. *)
Definition keyOf (a : App) (key : option MergeKey) (file : list BucketEntry) : Prop :=
  match key with
  | Some k => exists t, TaskOK (bucketDir a) t /\ taskKey t = k /\ taskFile t = file
  | None => True
  end.

Lemma keyOf_grows a a' key file : Evolves a a' -> keyOf a key file -> keyOf a' key file.
Proof using.
  intros HE. destruct key as [k|]; [|done]. intros (t & Ht & ?). exists t. split; [by apply (evolves_task a)|done].
Qed.

Lemma adopt_ok file key a :
  StoreOK a -> file <> [] -> keyOf a key file ->
  grows (adoptFileAsBucket file (sha file) key) (fun b a' => Stored (bucketDir a') b /\ mFile b = file) a.
Proof using sha_inj sha_nonzero.
  intros HS Hne Hkey. unfold adoptFileAsBucket.
  eapply (grows_bind _ _ (fun _ _ => True)).
  { destruct key; [apply runs_modify|by apply grows_ret]. split; [by apply live_delete|].
    split; [by apply evolves_same|done]. }
  intros [] a1 HS1 HE1 _. eapply grows_bind; [by apply getBucketByHash_ok|]. cbn.
  intros r a2 HS2 HE2 (Hd & _ & _ & _ & Hr).
  eapply (grows_bind _ _ (fun b a' => Stored (bucketDir a') b /\ mFile b = file /\ mHash b = sha file)).
  { destruct r as [b|].
    - destruct Hr as [Hh Hb]. apply grows_ret; [done|]. split; [done|].
      destruct Hb as [-> |(? & Hsha & _)]; [cbn in Hh; by destruct (sha_nonzero file)|].
      split; [|done]. apply sha_inj. congruence.
    - destruct Hr as [_ Hn]. rewrite <- Hd in Hn.
      destruct (dir_insert file a2 HS2 Hne Hn) as (HS3 & HE3 & Hst).
      apply runs_bind, runs_modify, runs_bind, runs_modify, runs_ret. auto. }
  intros b a3 HS3 HE3 (Hst & Hf & Hh).
  assert (keyOf a3 key file) as Hkey3 by eauto using keyOf_grows.
  eapply (grows_bind _ _ (fun _ a' => Stored (bucketDir a') b)).
  { destruct key as [k|]; [|by apply grows_ret]. destruct Hkey3 as (t & Ht & <- & Htf). apply runs_modify.
    rewrite <- Hh. split; [apply record_finished; congruence|]. split; [by apply evolves_same|]. exact Hst. }
  intros [] a4 HS4 HE4 Hst4. by apply grows_ret.
Qed.

Lemma getBucket_ok o key a :
  StoreOK a -> keyOf a key (outputFile o) ->
  grows (getBucket sha o key) (fun b a' => Stored (bucketDir a') b /\ mFile b = outputFile o) a.
Proof using sha_inj sha_nonzero.
  intros HS Hkey. unfold getBucket. destruct (outputFile o) as [|e l] eqn:E.
  - eapply (grows_bind _ _ (fun _ _ => True)).
    { destruct key; [apply runs_modify|by apply grows_ret]. split; [by apply live_delete|].
      split; [by apply evolves_same|done]. }
    intros [] a' HS' HE' _. apply grows_ret; auto.
  - by apply adopt_ok.
Qed.

(** ** Merging and working *)

Lemma merge_ok t a :
  StoreOK a -> TaskOK (bucketDir a) t ->
  grows (merge sha (t_maxProtocolVersion t) (t_curr t) (t_snap t) (t_shadows t) (keepDeadEntries (t_level t))
           (t_countMergeEvents t)) (fun b a' => Stored (bucketDir a') b /\ mFile b = taskFile t) a.
Proof using sha_inj sha_nonzero.
  intros HS Ht. unfold merge. apply runs_bind, runs_get.
  destruct (to_wf _ _ Ht) as (Hc & Hs & Hsh).
  pose proof (mergeOutput_spec (fun _ => mIsShutdown a) (t_maxProtocolVersion t) (mFile (t_curr t)) (mFile (t_snap t))
    (mFile <$> t_shadows t) (keepDeadEntries (t_level t)) (fun _ => so_up _ HS) Hc Hs Hsh) as Hspec.
  destruct (mergeOutput _ _ _ _ _ _) as [f|o]; [by apply (to_goes _ _ Ht) in Hspec|].
  destruct Hspec as [_ Hf]. apply runs_bind, runs_lift.
  eapply (grows_bind _ _ (fun _ _ => True)).
  { apply runs_when; intros _; [by apply grows_counters|auto]. }
  intros [] a1 HS1 HE1 _. eapply grows_mono; [apply getBucket_ok; [done|]|].
  - exists t. split; [by apply (evolves_task a)|]. split; [done|]. by rewrite Hf.
  - cbn. intros b a2 _ _ [Hb Hbf]. split; [done|]. by rewrite Hbf, Hf.
Qed.

Lemma holds_fun d d' st F F' : Holds d st F -> Holds d' st F' -> F = F'.
Proof using. destruct st as [t|[f|b]]; cbn; [|done|]; intros [_ <-] [_ <-]; done. Qed.

(** A future that gets ready with what it was to hold. *)
Lemma future_ready id st F b a :
  StoreOK a -> futures a !! id = Some st -> Holds (bucketDir a) st F -> Stored (bucketDir a) b -> mFile b = F ->
  let a' := onFutures (<[id := Ready (inr b)]>) a in
  StoreOK a' /\ Evolves a a' /\ futures a' !! id = Some (Ready (inr b)).
Proof using.
  intros HS Hst HF Hb Hbf a'.
  assert (futures a' !! id = Some (Ready (inr b))) as Hnew.
  { apply list_lookup_insert_eq. by eapply lookup_lt_Some. }
  assert (Holds (bucketDir a) (Ready (inr b)) F) as HF' by done.
  assert (forall id' st' F', futures a !! id' = Some st' -> Holds (bucketDir a) st' F' ->
            exists st'', futures a' !! id' = Some st'' /\ Holds (bucketDir a) st'' F') as Hkeep.
  { intros id' st' F' Hst' HF1. destruct (decide (id = id')) as [<-|Hne].
    - exists (Ready (inr b)). split; [done|]. assert (st' = st) as -> by congruence.
      by rewrite <- (holds_fun _ _ _ _ _ HF HF1).
    - exists st'. unfold a'. cbn. by rewrite list_lookup_insert_ne. }
  destruct HS as [H1 H2 H3 H4 H5 H6]. split; [|split; [by split|done]]. split; [done|done| | |done|done].
  - intros id' st' Hst'. destruct (decide (id = id')) as [<-|Hne].
    + exists F. assert (st' = Ready (inr b)) as -> by congruence. done.
    + unfold a' in Hst'. cbn in Hst'. rewrite list_lookup_insert_ne in Hst' by done. by apply H3 in Hst'.
  - intros key id' Hk. destruct (H4 key id' Hk) as (st' & F' & Hst' & HF1 & Ht).
    destruct (Hkeep id' st' F' Hst' HF1) as (st'' & ? & ?). by exists st'', F'.
Qed.

Lemma runTask_ok id a :
  StoreOK a ->
  grows (runTask sha id)
    (fun _ a' => forall st, futures a !! id = Some st -> exists b, futures a' !! id = Some (Ready (inr b))) a.
Proof using sha_inj sha_nonzero.
  intros HS. unfold runTask. apply runs_bind, runs_get.
  destruct (futures a !! id) as [[t|r]|] eqn:Hid.
  - destruct (so_futures _ HS id _ Hid) as [F HF]. pose proof HF as [Ht HtF].
    apply runs_bind. pose proof (merge_ok t a HS Ht) as Hm. unfold grows, runs, wp in Hm |- *.
    destruct (merge _ _ _ _ _ _ _ a) as [b a1|f a1]; [|done]. destruct Hm as (HS1 & HE1 & Hb & Hbf).
    destruct (ev_futures _ _ HE1 id _ F Hid HF) as (st1 & Hst1 & HF1).
    destruct (future_ready id st1 F b a1 HS1 Hst1 HF1 Hb ltac:(congruence)) as (HS2 & HE2 & Hr).
    split; [exact HS2|]. split; [by eapply evolves_trans|]. intros _ _. by exists b.
  - apply grows_ret; [done|]. intros st [= <-]. destruct (so_futures _ HS id _ Hid) as [F HF].
    destruct r as [f|b]; [done|by exists b].
  - apply grows_ret; [done|]. done.
Qed.

Lemma runTasks_ok ids a : StoreOK a -> grows (runTasks sha ids) (fun _ _ => True) a.
Proof using sha_inj sha_nonzero.
  revert a. induction ids as [|id ids IH]; intros a HS; [by apply grows_ret|]. cbn [runTasks].
  eapply grows_bind; [by apply runTask_ok|]. cbn. auto.
Qed.

Lemma yield_ok a : StoreOK a -> grows (yield sha) (fun _ _ => True) a.
Proof using sha_inj sha_nonzero.
  intros HS. unfold yield. apply runs_bind, runs_get. destruct (schedule a) as [|ids rest]; [by apply grows_ret|].
  eapply (grows_bind _ _ (fun _ _ => True)); [|intros; by apply runTasks_ok].
  apply runs_modify. split; [by eapply store_same; [|exact HS]; repeat split|]. split; [by apply evolves_same|done].
Qed.

Lemma futureIsReady_ok f a : StoreOK a -> grows (futureIsReady sha f) (fun _ _ => True) a.
Proof using sha_inj sha_nonzero.
  intros HS. unfold futureIsReady. eapply grows_bind; [by apply yield_ok|]. cbn beta. intros [] a1 HS1 HE1 _.
  eapply (grows_bind _ _ (fun _ _ => True)); [by apply grows_get|]. intros. by apply grows_ret.
Qed.

Lemma futureGet_ok id st F a :
  StoreOK a -> futures a !! id = Some st -> Holds (bucketDir a) st F ->
  grows (futureGet sha id) (fun b a' => Stored (bucketDir a') b /\ mFile b = F) a.
Proof using sha_inj sha_nonzero.
  intros HS Hst HF. unfold futureGet. eapply grows_bind; [by apply yield_ok|]. cbn beta. intros [] a1 HS1 HE1 _.
  destruct (ev_futures _ _ HE1 id st F Hst HF) as (st1 & Hst1 & HF1).
  eapply grows_bind; [by apply runTask_ok|]. cbn beta. intros [] a2 HS2 HE2 Hr.
  destruct (Hr st1 Hst1) as [b Hb]. destruct (ev_futures _ _ HE2 id st1 F Hst1 HF1) as (st2 & Hst2 & HF2).
  apply runs_bind, runs_get. rewrite Hb. assert (st2 = Ready (inr b)) as -> by congruence.
  apply grows_lift; [done|exact HF2].
Qed.

(** A new future. *)
Lemma future_push st F a :
  StoreOK a -> Holds (bucketDir a) st F ->
  let a' := onFutures (fun l => l ++ [st]) a in
  StoreOK a' /\ Evolves a a' /\ futures a' !! length (futures a) = Some st.
Proof using.
  intros HS HF a'.
  assert (forall id st', futures a !! id = Some st' -> futures a' !! id = Some st') as Hkeep.
  { intros id st' H. unfold a'. cbn. apply lookup_app_l_Some. done. }
  destruct HS as [H1 H2 H3 H4 H5 H6]. split; [|split].
  - split; [done|done| | |done|done].
    + intros id st' Hst'. unfold a' in Hst'. cbn in Hst'.
      apply lookup_app_Some in Hst' as [Hst'|[_ Hst']]; [by apply H3 in Hst'|].
      apply list_lookup_singleton_Some in Hst' as [_ <-]. by exists F.
    + intros key id Hk. destruct (H4 key id Hk) as (st' & F' & Hst' & ?). exists st', F'. split; [by apply Hkeep|done].
  - split; [done| |done]. intros id st' F' Hst' HF'. exists st'. split; [by apply Hkeep|done].
  - unfold a'. cbn. rewrite lookup_app_r by lia. by rewrite Nat.sub_diag.
Qed.

(** What a merge that is already known, or running, holds. *)
Lemma getMergeFuture_ok t a :
  StoreOK a -> TaskOK (bucketDir a) t ->
  grows (getMergeFuture sha (taskKey t))
    (fun r a' => match r with
                 | Some id => exists st, futures a' !! id = Some st /\ Holds (bucketDir a') st (taskFile t)
                 | None => mLiveFutures a' !! taskKey t = None
                 end) a.
Proof using sha_inj sha_nonzero.
  intros HS Ht. unfold getMergeFuture. eapply grows_bind; [by apply yield_ok|]. cbn beta. intros [] a1 HS1 HE1 _.
  apply (evolves_task _ _ _ HE1) in Ht. apply runs_bind, runs_get.
  destruct (mLiveFutures a1 !! taskKey t) as [id|] eqn:El.
  - destruct (so_live _ HS1 _ _ El) as (st & F & Hst & HF & t' & Ht' & Hk & <-).
    rewrite <- (taskKey_file _ _ _ _ Ht' Ht Hk).
    eapply grows_bind; [apply (grows_counters _ (fun _ a' => bucketDir a' = bucketDir a1 /\ futures a' = futures a1)); auto|].
    cbn beta. intros [] a2 HS2 HE2 [Hd Hf]. apply grows_ret; [done|]. exists st. by rewrite Hd, Hf.
  - destruct (findMergeFor (taskKey t) (mFinishedMerges a1)) as [h|] eqn:Ef; [|by apply grows_ret].
    destruct (so_finished _ HS1 _ _ Ef) as (t' & b & Ht' & Hk & Hb & <- & Hbf).
    rewrite (taskKey_file _ _ _ _ Ht' Ht Hk) in Hbf.
    eapply grows_bind; [by apply getBucketByHash_stored|]. cbn beta. intros r a2 HS2 HE2 (-> & Hd & Hf).
    apply runs_bind, runs_get. apply (evolves_stored _ _ _ HE2) in Hb.
    destruct (future_push (Ready (inr b)) (taskFile t) a2 HS2 (conj Hb Hbf)) as (HS3 & HE3 & Hnew).
    eapply (grows_bind _ _ (fun _ a' => futures a' !! length (futures a2) = Some (Ready (inr b)))).
    { apply runs_modify. auto. }
    intros [] a3 HS3' HE3' Hnew3.
    eapply grows_bind; [apply (grows_counters _ (fun _ a' => bucketDir a' = bucketDir a3 /\ futures a' = futures a3)); auto|].
    cbn beta. intros [] a4 HS4 HE4 [Hd4 Hf4]. apply grows_ret; [done|]. exists (Ready (inr b)). rewrite Hf4. split; [done|].
    split; [|done]. rewrite Hd4. by apply (evolves_stored _ _ _ HE3').
Qed.

(** ** Future buckets *)

(** The handle on a merge, with its inputs; and on a finished one. *)
Definition inputsFuture (t : MergeTask) (id : option nat) : FutureBucket :=
  mkFuture FB_LIVE_INPUTS (Some (t_curr t)) (Some (t_snap t)) (t_shadows t) None id
    (Some (mHash (t_curr t))) (Some (mHash (t_snap t))) (mHash <$> t_shadows t) None.
Definition outputFuture (b : Bucket) : FutureBucket :=
  mkFuture FB_LIVE_OUTPUT None None [] (Some b) None None None [] (Some (mHash b)).

(** A handle that yields a bucket with the contents [F], of a merge that keeps dead
    entries or not. *)
Definition FutureOK (a : App) (keepDead : bool) (fb : FutureBucket) (F : list BucketEntry) : Prop :=
  (exists t id st, fb = inputsFuture t (Some id) /\ TaskOK (bucketDir a) t /\ taskFile t = F /\
     keepDeadEntries (t_level t) = keepDead /\ futures a !! id = Some st /\ Holds (bucketDir a) st F) \/
  (exists b, fb = outputFuture b /\ Stored (bucketDir a) b /\ mFile b = F).

Lemma future_evolves a a' kd fb F : Evolves a a' -> FutureOK a kd fb F -> FutureOK a' kd fb F.
Proof using.
  intros HE [(t & id & st & -> & Ht & HtF & Hkd & Hst & HF)|(b & -> & Hb & Hbf)]; [left|right].
  - destruct (ev_futures _ _ HE id st F Hst HF) as (st' & ? & ?).
    exists t, id, st'. split; [done|]. split; [by eapply evolves_task|done].
  - exists b. split; [done|]. split; [by eapply evolves_stored|done].
Qed.

Lemma checkHashEq_ok b (Q : unit -> App -> Prop) a :
  StoreOK a -> Q tt a -> grows (checkHashEq (Some b) (Some (mHash b))) Q a.
Proof using.
  intros HS HQ. unfold checkHashEq. apply runs_bind, runs_deref. apply grows_assert; [|done|done].
  by apply bool_decide_eq_true.
Qed.

Lemma checkShadowHashes_ok bs a :
  StoreOK a -> grows (checkShadowHashes bs (mHash <$> bs)) (fun _ _ => True) a.
Proof using.
  revert a. induction bs as [|b bs IH]; intros a HS; [by apply grows_ret|]. cbn [checkShadowHashes fmap list_fmap].
  eapply (grows_bind _ _ (fun _ _ => True)); [by apply checkHashEq_ok|]. intros [] a1 HS1 _ _. by apply IH.
Qed.

Lemma mergeComplete_ok fb a :
  StoreOK a -> isLive fb = true ->
  grows (mergeComplete sha fb) (fun r _ => is_Some (mOutputBucket fb) -> r = true) a.
Proof using sha_inj sha_nonzero.
  intros HS Hl. unfold mergeComplete. eapply (grows_bind _ _ (fun _ _ => True)); [by apply grows_assert|].
  intros [] a1 HS1 _ _. destruct (mOutputBucket fb); [by apply grows_ret|].
  eapply grows_mono; [by apply futureIsReady_ok|]. cbn beta. intros ? ? _ _ _ [? ?]. done.
Qed.

Lemma checkInputs_ok t id a :
  StoreOK a -> grows (checkState sha (inputsFuture t (Some id))) (fun _ _ => True) a.
Proof using sha_inj sha_nonzero.
  intros HS. unfold checkState. cbn [mState inputsFuture]. eapply (grows_bind _ _ (fun _ _ => True)).
  { by apply grows_assert. }
  intros [] a1 HS1 _ _. unfold checkHashesMatch. cbn [fb_inputShadows fb_inputSnap fb_inputCurr mInputShadowBucketHashes
    mInputSnapBucketHash mInputCurrBucketHash inputsFuture mOutputBucketHash mOutputBucket].
  eapply (grows_bind _ _ (fun _ _ => True)).
  { apply runs_when; intros _; [|auto].
    eapply (grows_bind _ _ (fun _ _ => True)); [apply grows_assert; [|done|done]|].
    - rewrite length_fmap. apply Nat.eqb_refl.
    - intros [] a2 HS2 _ _. by apply checkShadowHashes_ok. }
  intros [] a2 HS2 _ _. eapply (grows_bind _ _ (fun _ _ => True)).
  { apply runs_when; intros _; [by apply checkHashEq_ok|auto]. }
  intros [] a3 HS3 _ _. eapply (grows_bind _ _ (fun _ _ => True)).
  { apply runs_when; intros _; [by apply checkHashEq_ok|auto]. }
  intros [] a4 HS4 _ _. eapply grows_bind; [by apply mergeComplete_ok|]. cbn beta. intros r a5 HS5 _ _.
  rewrite andb_false_r. by apply grows_ret.
Qed.

Lemma checkOutput_ok b a :
  StoreOK a -> grows (checkState sha (outputFuture b)) (fun _ _ => True) a.
Proof using sha_inj sha_nonzero.
  intros HS. unfold checkState. cbn [mState outputFuture].
  eapply grows_bind; [by apply mergeComplete_ok|]. cbn beta. intros r a1 HS1 _ Hr.
  rewrite Hr by (by eexists). eapply (grows_bind _ _ (fun _ _ => True)); [by apply grows_assert|].
  intros [] a2 HS2 _ _. unfold checkHashesMatch. cbn [fb_inputShadows fb_inputSnap fb_inputCurr length Nat.eqb negb
    outputFuture mOutputBucketHash mOutputBucket].
  eapply (grows_bind _ _ (fun _ _ => True)); [by apply grows_ret|]. intros [] a3 HS3 _ _.
  eapply (grows_bind _ _ (fun _ _ => True)); [by apply grows_ret|]. intros [] a4 HS4 _ _.
  eapply (grows_bind _ _ (fun _ _ => True)); [by apply grows_ret|]. intros [] a5 HS5 _ _.
  eapply grows_bind; [by apply mergeComplete_ok|]. cbn beta. intros r' a6 HS6 _ _.
  apply runs_when; intros _; [by apply checkHashEq_ok|auto].
Qed.

Lemma putMergeFuture_ok t id st a :
  StoreOK a -> TaskOK (bucketDir a) t -> futures a !! id = Some st -> Holds (bucketDir a) st (taskFile t) ->
  grows (putMergeFuture (taskKey t) id) (fun _ a' => futures a' = futures a /\ bucketDir a' = bucketDir a) a.
Proof using.
  intros HS Ht Hst HF. apply runs_modify. split; [|split; [by apply evolves_same|done]].
  destruct HS as [H1 H2 H3 H4 H5 H6]. split; try done. intros key id'. cbn.
  destruct (mLiveFutures a !! taskKey t); [apply H4|].
  intros [[<- <-]|[_ Hk]]%lookup_insert_Some; [|by apply H4]. exists st, (taskFile t).
  split; [done|]. split; [done|]. by exists t.
Qed.

Lemma startMerge_ok t a :
  StoreOK a -> TaskOK (bucketDir a) t ->
  grows (startMerge sha (inputsFuture t None) (t_maxProtocolVersion t) (t_countMergeEvents t) (t_level t))
    (fun fb a' => FutureOK a' (keepDeadEntries (t_level t)) fb (taskFile t) /\ mState fb = FB_LIVE_INPUTS) a.
Proof using sha_inj sha_nonzero.
  intros HS Ht. unfold startMerge.
  do 5 (eapply (grows_bind _ _ (fun _ a' => a' = a)); [by apply grows_assert|]; intros [] ? _ _ ->).
  cbn [fb_inputCurr fb_inputSnap inputsFuture fb_inputShadows]. apply runs_bind, runs_deref, runs_bind, runs_deref.
  change (mergeKey (keepDeadEntries (t_level t)) (t_curr t) (t_snap t) (t_shadows t)) with (taskKey t).
  eapply grows_bind; [by apply getMergeFuture_ok|]. cbn beta. intros r a1 HS1 HE1 Hr.
  apply (evolves_task _ _ _ HE1) in Ht.
  assert (forall id st a2, StoreOK a2 -> TaskOK (bucketDir a2) t -> futures a2 !! id = Some st ->
    Holds (bucketDir a2) st (taskFile t) ->
    grows (bnd (checkState sha (inputsFuture t (Some id))) (fun _ => mret (inputsFuture t (Some id))))
      (fun fb a' => FutureOK a' (keepDeadEntries (t_level t)) fb (taskFile t) /\ mState fb = FB_LIVE_INPUTS) a2) as Hend.
  { intros id st a2 HS2 Ht2 Hst HF. eapply grows_bind; [by apply checkInputs_ok|]. cbn beta. intros [] a3 HS3 HE3 _.
    apply grows_ret; [done|]. split; [|done]. apply (future_evolves a2); [done|]. left. by exists t, id, st. }
  destruct r as [id|].
  - destruct Hr as (st & Hst & HF). by apply (Hend id st).
  - apply runs_bind, runs_get. set (id := length (futures a1)).
    destruct (future_push (Pending t) (taskFile t) a1 HS1 (conj Ht eq_refl)) as (HS2 & HE2 & Hnew).
    eapply (grows_bind _ _ (fun _ a' => futures a' !! id = Some (Pending t) /\ TaskOK (bucketDir a') t)).
    { apply runs_modify. destruct t. by split; [|split]. }
    intros [] a2 HS2' HE2' [Hnew2 Ht2].
    eapply grows_bind; [by eapply putMergeFuture_ok|]. cbn beta. intros [] a3 HS3 HE3 [Hf3 Hd3].
    apply (Hend id (Pending t)); [done|by rewrite Hd3|by rewrite Hf3|]. rewrite Hd3. done.
Qed.

Lemma version_ok file : WfFile file -> getBucketVersion file = inr (fileVersion file).
Proof using.
  intros H. unfold getBucketVersion. destruct (openBucket_ok file H) as (it & E & Hok & _). rewrite E. cbn.
  f_equal. apply (in_version _ _ Hok).
Qed.

Lemma newFuture_ok t a :
  StoreOK a -> TaskOK (bucketDir a) t -> t_shadows t = [] ->
  grows (newFuture sha (t_curr t) (t_snap t) (t_shadows t) (t_maxProtocolVersion t) (t_countMergeEvents t) (t_level t))
    (fun fb a' => FutureOK a' (keepDeadEntries (t_level t)) fb (taskFile t) /\ mState fb = FB_LIVE_INPUTS) a.
Proof using sha_inj sha_nonzero.
  intros HS Ht Hsh. unfold newFuture. rewrite version_ok by apply (to_wf _ _ Ht).
  apply runs_bind, runs_lift. rewrite Hsh at 1. cbn [isNil negb]. rewrite andb_false_r.
  apply runs_bind, runs_ret. by apply startMerge_ok.
Qed.

Lemma resolve_ok kd fb F a :
  StoreOK a -> FutureOK a kd fb F ->
  grows (resolve sha fb) (fun r a' => r.2 = outputFuture r.1 /\ Stored (bucketDir a') r.1 /\ mFile r.1 = F) a.
Proof using sha_inj sha_nonzero.
  intros HS [(t & id & st & -> & Ht & HtF & Hkd & Hst & HF)|(b & -> & Hb & Hbf)]; unfold resolve.
  - eapply grows_bind; [by apply checkInputs_ok|]. cbn beta. intros [] a1 HS1 HE1 _.
    apply runs_bind, runs_assert; [done|]. cbn [mState mOutputBucket mOutputBucketFuture inputsFuture].
    rewrite bool_decide_false by done. destruct (ev_futures _ _ HE1 id st F Hst HF) as (st1 & Hst1 & HF1).
    eapply (grows_bind _ _ (fun b a' => Stored (bucketDir a') b /\ mFile b = F)).
    { apply runs_bind, runs_deref. by eapply futureGet_ok. }
    intros b a2 HS2 HE2 [Hb Hbf]. eapply grows_bind; [by apply checkOutput_ok|]. cbn beta.
    intros [] a3 HS3 HE3 _. apply grows_ret; [done|]. cbn. split; [done|]. split; [by eapply evolves_stored|done].
  - eapply grows_bind; [by apply checkOutput_ok|]. cbn beta. intros [] a1 HS1 HE1 _.
    apply runs_bind, runs_assert; [done|]. cbn [mState mOutputBucket outputFuture].
    rewrite bool_decide_true by done. apply runs_bind, runs_deref, grows_ret; [done|]. cbn.
    split; [done|]. split; [by eapply evolves_stored|done].
Qed.
End Store.

#[export] Hint Resolve evolves_refl stored_empty : core.
