(* ===== verification/BucketListInv.v ===== *)
(** * Every level holds its interval of ledgers

    The invariant of the bucket list: after ledger [n] the [curr] and [snap] of each
    level hold exactly the changes of the ledgers the arithmetic of the levels
    assigns to them, and the merge prepared for a level will give the [curr] it
    needs when the level below spills next.  [addBatch] preserves it, whatever the
    workers do in between. *)

From stdpp Require Import base list gmap strings sorting.
From S2P Require Import Prelude Exchange Entries BucketEntries Bucket BucketMerge BucketSpec BucketLevels BucketManager BucketStore BucketList.

Local Open Scope Z_scope.

#[local] Arguments wp : simpl never.
#[local] Arguments runs : simpl never.
#[local] Arguments mergedFile : simpl never.
#[local] Arguments currStart : simpl never.
#[local] Arguments currEnd : simpl never.
#[local] Arguments snapStart : simpl never.
#[local] Arguments emptyNext : simpl never.
#[local] Arguments kNumLevels : simpl never.

Section Invariant.
Context (sha : list BucketEntry -> Z).
Hypothesis sha_inj : forall l l', sha l = sha l' -> l = l'.
Hypothesis sha_nonzero : forall l, sha l <> 0.

(** The state of the ledger after each ledger close. *)
Context (st : Z -> gmap LedgerKey LedgerEntry).
Hypothesis st_start : st 0 = ∅.

(** The keys each ledger close changed and the protocol version it ran under. *)
Context (keysAt : Z -> list LedgerKey) (proto : Z -> Z).
Hypothesis proto_mono : forall i j, i <= j -> proto i <= proto j.

Definition changed (lo hi : Z) (k : LedgerKey) : Prop := exists j, lo <= j < hi /\ k ∈ keysAt j.

#[local] Hint Resolve evolves_refl stored_empty : core.

(** ** Files and buckets for an interval of ledgers *)

(** [F] holds the changes of the ledgers from [lo] up to, and without, [hi], written
    under a version without shadows of at most [pv].  A key that exists before and
    after has a record exactly when one of the ledgers changed it. *)
Record GoodFile (pv : Z) (F : list BucketEntry) (lo hi : Z) : Prop := {
  gf_wf : WfFile F;
  gf_takes : Takes F (st (lo - 1)) (st (hi - 1));
  gf_only k : is_Some (entryFor k (body F)) -> changed lo hi k;
  gf_all k : changed lo hi k -> is_Some (st (lo - 1) !! k) -> is_Some (st (hi - 1) !! k) ->
    is_Some (entryFor k (body F));
  gf_version : fileVersion F <= pv;
  gf_proto : lo < hi -> fileVersion F = proto (hi - 1);
  gf_new : lo < hi -> FIRST_PROTOCOL_SHADOWS_REMOVED <= fileVersion F;
  gf_empty : hi <= lo -> F = []
}.

Definition GoodBucket (a : App) (pv : Z) (b : Bucket) (lo hi : Z) : Prop :=
  Stored sha (bucketDir a) b /\ GoodFile pv (mFile b) lo hi.

Lemma goodFile_empty pv lo : 0 <= pv -> GoodFile pv [] lo lo.
Proof using.
  intros H. split; [apply wf_empty|apply takes_nil|by intros k [? [=]]| |done|lia|lia|done]. intros k (j & ? & _). lia.
Qed.

Lemma goodFile_weaken pv pv' F lo hi : pv <= pv' -> GoodFile pv F lo hi -> GoodFile pv' F lo hi.
Proof using. intros H []. split; auto. lia. Qed.

Lemma goodBucket_evolves a a' pv b lo hi : Evolves sha a a' -> GoodBucket a pv b lo hi -> GoodBucket a' pv b lo hi.
Proof using. intros HE [H1 H2]. split; [by apply (evolves_stored sha a)|done]. Qed.

(** ** Merging neighbours *)

Definition levelTask (pv : Z) (count : bool) (i : nat) (curr snap : Bucket) : MergeTask :=
  mkTask curr snap [] pv count i.

Lemma changed_split lo mid hi k :
  lo <= mid <= hi -> changed lo hi k <-> changed lo mid k \/ changed mid hi k.
Proof using.
  intros H. split.
  - intros (j & Hj & Hk). destruct (decide (j < mid)); [left|right]; exists j; (split; [lia|done]).
  - intros [(j & Hj & Hk)|(j & Hj & Hk)]; exists j; (split; [lia|done]).
Qed.

(** A key that is there before and after two steps has a record of both together if it
    has one of either. *)
Lemma combine_kept o n x y z :
  takes o x y -> takes n y z -> is_Some x -> is_Some z ->
  (is_Some y -> is_Some o \/ is_Some n) -> is_Some (combineOpt o n).
Proof using.
  destruct o as [[]|], n as [[]|]; cbn; intros Ho Hn Hx Hz H; try done; destruct_and?; simplify_eq; eauto;
    try by destruct Hx. by destruct (H Hx) as [[]|[]].
Qed.

(** Merging two neighbouring intervals gives their union; on the last level only
    from the beginning of time. *)
Lemma merged_good pv i F G lo mid hi :
  GoodFile pv F lo mid -> GoodFile pv G mid hi -> lo <= mid -> mid < hi ->
  keepDeadEntries i = true \/ lo = 1 -> GoodFile pv (mergedFile F G [] (keepDeadEntries i)) lo hi.
Proof using st_start proto_mono.
  intros [Fw Ft Fo Fa Fv Fp Fn Fe] [Gw Gt Go Ga Gv Gp Gn Ge] Hlo Hhi Hdead.
  assert (keepDeadEntries i = true \/ st (lo - 1) = ∅) as Hd by (destruct Hdead as [H|H]; [by left|right; by rewrite H]).
  assert (fileVersion F <= fileVersion G) as Hv.
  { rewrite (Gp Hhi). destruct (decide (lo < mid)) as [H|H]; [rewrite (Fp H); apply proto_mono; lia|].
    rewrite Fe by lia. specialize (Gn Hhi). rewrite (Gp Hhi) in Gn. unfold FIRST_PROTOCOL_SHADOWS_REMOVED in Gn. cbn. lia. }
  pose proof (merged_version F G [] (keepDeadEntries i) Fw Gw eq_refl) as Ev. rewrite Z.max_r in Ev by done.
  split; [by apply merged_wf|by apply (merged_takes _ _ _ _ (st (mid - 1)))| | |lia| |rewrite Ev; auto|lia].
  - intros k. rewrite (merged_entry_takes _ _ _ _ _ _ k Fw Gw Ft Gt Hd), (changed_split lo mid hi) by lia.
    destruct (entryFor k (body F)) eqn:E1; [intros _; left; apply Fo; by rewrite E1|].
    destruct (entryFor k (body G)) eqn:E2; [intros _; right; apply Go; by rewrite E2|]. by intros [].
  - intros k. rewrite (changed_split lo mid hi), (merged_entry_takes _ _ _ _ _ _ k Fw Gw Ft Gt Hd) by lia.
    intros Hk Hx Hz. apply (combine_kept _ _ _ _ _ (Ft k) (Gt k) Hx Hz). intros Hy. destruct Hk; auto.
  - intros _. by rewrite Ev, Gp.
Qed.

Lemma merge_intervals a pv count i curr snap lo mid hi :
  GoodBucket a pv curr lo mid -> GoodBucket a pv snap mid hi -> lo <= mid -> mid < hi ->
  keepDeadEntries i = true \/ lo = 1 ->
  TaskOK sha (bucketDir a) (levelTask pv count i curr snap) /\
  GoodFile pv (taskFile (levelTask pv count i curr snap)) lo hi.
Proof using st_start proto_mono.
  intros [Hc HF] [Hs HG] Hlo Hhi Hdead. split; [|by apply (merged_good pv i _ _ lo mid hi)].
  pose proof (gf_version _ _ _ _ HF). pose proof (gf_version _ _ _ _ HG).
  split; [done|done|constructor|by split; [apply HF|split; [apply HG|constructor]]|].
  apply (merge_accepted pv (mFile curr) (mFile snap) (st (lo - 1)) (st (mid - 1)) (st (hi - 1))); [apply HF|apply HG|apply HF|apply HG|lia].
Qed.

(** ** The invariant of a level *)

(** The merge prepared for a level gives the [curr] that is needed when the level
    below spills; there is none as long as that level has not spilled. *)
Definition NextOK (a : App) (pv n : Z) (i : nat) (fb : FutureBucket) : Prop :=
  match i with
  | O => fb = clearFuture
  | S q =>
      if snapStart n q <? currStart n q then
        exists F, FutureOK sha a (keepDeadEntries i) fb F /\
          GoodFile pv F (if emptyNext n i then currEnd n i else currStart n i) (currStart n q)
      else fb = clearFuture
  end.

Definition LevelOK (a : App) (pv n : Z) (i : nat) (l : BucketLevel) : Prop :=
  GoodBucket a pv (mCurr l) (currStart n i) (currEnd n i) /\
  GoodBucket a pv (mSnap l) (snapStart n i) (currStart n i) /\ NextOK a pv n i (mNextCurr l).

(** A level whose spill at ledger [n] has been dealt with, but not the one below. *)
Definition MidOK (a : App) (pv n : Z) (i : nat) (l : BucketLevel) : Prop :=
  GoodBucket a pv (mCurr l) (currStart n i) (currEnd (n - 1) i) /\
  GoodBucket a pv (mSnap l) (snapStart n i) (currStart n i) /\ NextOK a pv (n - 1) i (mNextCurr l).

Lemma next_evolves a a' pv n i fb : Evolves sha a a' -> NextOK a pv n i fb -> NextOK a' pv n i fb.
Proof using.
  intros HE. destruct i as [|q]; [done|]. cbn. destruct (_ <? _); [|done].
  intros (F & HF & ?). exists F. split; [by apply (future_evolves sha a)|done].
Qed.

Lemma level_evolves a a' pv n i l : Evolves sha a a' -> LevelOK a pv n i l -> LevelOK a' pv n i l.
Proof using.
  intros HE (H1 & H2 & H3). split; [by apply (goodBucket_evolves a)|]. split; [by apply (goodBucket_evolves a)|].
  by apply (next_evolves a).
Qed.
Lemma mid_evolves a a' pv n i l : Evolves sha a a' -> MidOK a pv n i l -> MidOK a' pv n i l.
Proof using.
  intros HE (H1 & H2 & H3). split; [by apply (goodBucket_evolves a)|]. split; [by apply (goodBucket_evolves a)|].
  by apply (next_evolves a).
Qed.

Lemma next_weaken a pv pv' n i fb : pv <= pv' -> NextOK a pv n i fb -> NextOK a pv' n i fb.
Proof using.
  intros H. destruct i as [|q]; [done|]. cbn. destruct (_ <? _); [|done].
  intros (F & HF & HG). exists F. split; [done|]. by apply (goodFile_weaken pv).
Qed.
Lemma level_weaken a pv pv' n i l : pv <= pv' -> LevelOK a pv n i l -> LevelOK a pv' n i l.
Proof using.
  intros H ([? ?] & [? ?] & ?). split; [split; [done|by apply (goodFile_weaken pv)]|].
  split; [split; [done|by apply (goodFile_weaken pv)]|by apply (next_weaken a pv)].
Qed.

(** ** Operations on one level *)

Lemma levelAt_ok i l (Q : BucketLevel -> App -> Prop) a :
  mLevels a !! i = Some l -> Q l a -> runs (levelAt i) Q a.
Proof using. intros Hl HQ. unfold levelAt. apply runs_bind, runs_get. by rewrite Hl. Qed.

(** The state after level [i] was replaced and the store grew. *)
Definition Replaced (a a' : App) (i : nat) (l : BucketLevel) : Prop :=
  StoreOK sha a' /\ Evolves sha (onLevels (<[i := l]>) a) a'.

Lemma store_levels f a : StoreOK sha a -> StoreOK sha (onLevels f a).
Proof using. intros HS. by eapply store_same; [|exact HS]; repeat split. Qed.

Lemma evolves_levels f a a' : Evolves sha a a' -> Evolves sha (onLevels f a) (onLevels f a').
Proof using. intros [H1 H2 H3]. split; [done|done|]. cbn. by rewrite H3. Qed.

Lemma snapLevel_ok i l (Q : Bucket -> App -> Prop) a :
  mLevels a !! i = Some l ->
  Q (mCurr l) (onLevels (<[i := mkLevel (mNextCurr l) emptyBucket (mCurr l)]>) a) -> runs (snapLevel i) Q a.
Proof using. intros Hl HQ. unfold snapLevel. apply runs_bind. by apply (levelAt_ok i l). Qed.

Lemma commit_clear i l (Q : unit -> App -> Prop) a :
  mLevels a !! i = Some l -> mNextCurr l = clearFuture -> Q tt a -> runs (commitLevel sha i) Q a.
Proof using.
  intros Hl Hc HQ. unfold commitLevel. apply runs_bind, (levelAt_ok i l); [done|]. rewrite Hc.
  apply runs_bind, runs_ret, runs_bind, (levelAt_ok i l); [done|]. rewrite Hc. by apply runs_assert.
Qed.

Lemma future_live a kd fb F : FutureOK sha a kd fb F -> isLive fb = true.
Proof using. by intros [(t & id & st' & -> & _)|(b & -> & _)]. Qed.

Lemma insert_set i l (L : list BucketLevel) : L !! i = Some l -> <[i := l]> L !! i = Some l.
Proof using. intros H. apply list_lookup_insert_eq. by eapply lookup_lt_Some. Qed.

Lemma commit_live i l kd F a :
  StoreOK sha a -> mLevels a !! i = Some l -> FutureOK sha a kd (mNextCurr l) F ->
  runs (commitLevel sha i)
    (fun _ a' => exists b, Stored sha (bucketDir a') b /\ mFile b = F /\
                   Replaced a a' i (mkLevel clearFuture b (mSnap l))) a.
Proof using sha_inj sha_nonzero.
  intros HS Hl HF. unfold commitLevel. apply runs_bind, (levelAt_ok i l); [done|].
  rewrite (future_live a kd _ F HF). cbn [when]. apply runs_bind, runs_bind.
  eapply runs_mono; [by eapply (resolve_ok sha sha_inj sha_nonzero _ _ F)|]. cbn beta.
  intros [b fb] a1 (HS1 & HE1 & Hfb & Hb & Hbf). cbn in Hfb, Hb, Hbf. subst fb.
  assert (mLevels a1 !! i = Some l) as Hl1 by (by rewrite (ev_levels _ _ _ HE1)).
  assert (i < length (mLevels a1))%nat as Hi by (by eapply lookup_lt_Some).
  apply runs_bind. unfold setNext. apply runs_bind, (levelAt_ok i l); [done|]. apply runs_modify.
  unfold setCurr. apply runs_bind. eapply levelAt_ok; [cbn; by apply list_lookup_insert_eq|]. apply runs_modify.
  apply runs_bind. eapply levelAt_ok; [cbn; apply list_lookup_insert_eq; by rewrite length_insert|].
  apply runs_assert; [done|]. exists b. cbn [mSnap]. split; [done|]. split; [done|].
  set (l' := mkLevel clearFuture b (mSnap l)).
  assert (onLevels <[i:=l']> (onLevels <[i:=mkLevel (outputFuture b) (mCurr l) (mSnap l)]> a1) =
          onLevels <[i:=l']> a1) as -> by (unfold onLevels; cbn; by rewrite list_insert_insert_eq).
  split; [by apply store_levels|by apply evolves_levels].
Qed.

Lemma prepare_ok i l n pv snap shadows count a :
  let curr := if emptyNext n i then emptyBucket else mCurr l in
  let t := levelTask pv count i curr snap in
  StoreOK sha a -> mLevels a !! i = Some l -> mNextCurr l = clearFuture ->
  0 <= n <= UINT32_MAX -> (i < kNumLevels)%nat ->
  FIRST_PROTOCOL_SHADOWS_REMOVED <= fileVersion (mFile snap) -> TaskOK sha (bucketDir a) t ->
  runs (prepareLevel sha i n pv snap shadows count)
    (fun _ a' => exists fb, FutureOK sha a' (keepDeadEntries i) fb (taskFile t) /\ Replaced a a' i (mkLevel fb (mCurr l) (mSnap l))) a.
Proof using sha_inj sha_nonzero.
  intros curr t HS Hl Hc Hn Hi Hv Ht. unfold prepareLevel. apply runs_bind, (levelAt_ok i l); [done|].
  rewrite Hc. apply runs_bind, runs_assert; [done|]. rewrite shouldMerge_ok by done. apply runs_bind, runs_lift.
  fold curr. rewrite version_ok by apply (to_wf _ _ _ Ht). apply runs_bind, runs_lift.
  unfold protocolVersionStartsFrom. rewrite (proj2 (Z.leb_le _ _) Hv).
  apply runs_bind. eapply runs_mono; [by apply (newFuture_ok sha sha_inj sha_nonzero t)|]. cbn beta.
  intros fb a1 (HS1 & HE1 & HF & Hm). apply runs_bind. unfold setNext. apply runs_bind.
  apply (levelAt_ok i l); [by rewrite (ev_levels _ _ _ HE1)|]. apply runs_modify.
  apply runs_assert; [unfold isMerging; by rewrite Hm|]. exists fb. split; [done|].
  split; [by apply store_levels|by apply evolves_levels].
Qed.

(** ** One step of the loop over the levels *)

Section Ledger.
Context (n pv : Z).
Hypothesis n_range : 1 <= n <= UINT32_MAX.
Hypothesis pv_new : FIRST_PROTOCOL_SHADOWS_REMOVED <= pv.

(** Level [i] has been dealt with up to its own spill, the levels above it are
    done, those below still as after the last ledger. *)
Definition Stage (a : App) (i : nat) : Prop :=
  length (mLevels a) = kNumLevels /\
  forall j l, mLevels a !! j = Some l ->
    if (i <? j)%nat then LevelOK a pv n j l
    else if (j =? i)%nat then MidOK a pv n j l
    else LevelOK a pv (n - 1) j l.

Lemma stage_above a i j l : Stage a i -> mLevels a !! j = Some l -> (i < j)%nat -> LevelOK a pv n j l.
Proof using. intros [_ H] Hl Hj. specialize (H j l Hl). by rewrite (proj2 (Nat.ltb_lt _ _) Hj) in H. Qed.
Lemma stage_at a i l : Stage a i -> mLevels a !! i = Some l -> MidOK a pv n i l.
Proof using. intros [_ H] Hl. specialize (H i l Hl). by rewrite Nat.ltb_irrefl, Nat.eqb_refl in H. Qed.
Lemma stage_below a i j l : Stage a i -> mLevels a !! j = Some l -> (j < i)%nat -> LevelOK a pv (n - 1) j l.
Proof using.
  intros [_ H] Hl Hj. specialize (H j l Hl).
  by rewrite (proj2 (Nat.ltb_ge _ _)), (proj2 (Nat.eqb_neq _ _)) in H by lia.
Qed.

Lemma stage_intro a i :
  length (mLevels a) = kNumLevels ->
  (forall j l, mLevels a !! j = Some l -> (i < j)%nat -> LevelOK a pv n j l) ->
  (forall l, mLevels a !! i = Some l -> MidOK a pv n i l) ->
  (forall j l, mLevels a !! j = Some l -> (j < i)%nat -> LevelOK a pv (n - 1) j l) -> Stage a i.
Proof using.
  intros Hlen H1 H2 H3. split; [done|]. intros j l Hl. destruct (Nat.ltb_spec i j); [by apply H1|].
  destruct (Nat.eqb_spec j i) as [->|]; [by apply H2|]. apply H3; [done|lia].
Qed.

Lemma spill_up q : n mod half q <> 0 -> n mod half (S q) <> 0.
Proof using n_range. intros H E. apply H. by apply (spill_below n ltac:(lia)). Qed.

(** The level below does not spill: nothing moves. *)
Lemma mid_level q a l :
  (S q < kNumLevels)%nat -> n mod half q <> 0 -> MidOK a pv n (S q) l -> LevelOK a pv n (S q) l.
Proof using n_range.
  intros Hq H (H1 & H2 & H3). destruct (bounds_stay n ltac:(lia) q ltac:(lia) H) as (Es & Ess & Ee).
  assert (currStart n (S q) = currStart (n - 1) (S q)) as Ec.
  { destruct (decide (S q = kNumLevels - 1)%nat) as [->|]; [apply (last_bounds n ltac:(lia))|].
    apply (bounds_stay n ltac:(lia) (S q) ltac:(lia)). by apply spill_up. }
  split; [by rewrite Ee|]. split; [done|]. unfold NextOK in *.
  rewrite Es, Ess, Ee, (emptyNext_stays n ltac:(lia) q H), Ec. done.
Qed.

Lemma level_mid q a l :
  (S q < kNumLevels)%nat -> n mod half q <> 0 -> LevelOK a pv (n - 1) q l -> MidOK a pv n q l.
Proof using n_range.
  intros Hq H (H1 & H2 & H3). destruct (bounds_stay n ltac:(lia) q ltac:(lia) H) as (Es & Ess & Ee).
  split; [by rewrite Es|]. split; [by rewrite Es, Ess|done].
Qed.

Lemma stage_stays q a : (S q < kNumLevels)%nat -> n mod half q <> 0 -> Stage a (S q) -> Stage a q.
Proof using n_range.
  intros Hq H HS. apply stage_intro; [apply HS|..].
  - intros j l Hl Hj. destruct (decide (j = S q)) as [->|]; [|eapply stage_above; [done..|lia]].
    apply mid_level; [done|done|by eapply stage_at].
  - intros l Hl. apply level_mid; [done|done|]. eapply stage_below; [done..|lia].
  - intros j l Hl Hj. eapply stage_below; [done..|lia].
Qed.

(** A level that spills. *)
Lemma spilled_mid q a l :
  (S q < kNumLevels)%nat -> n mod half q = 0 -> LevelOK a pv (n - 1) q l ->
  MidOK a pv n q (mkLevel (mNextCurr l) emptyBucket (mCurr l)).
Proof using n_range pv_new.
  intros Hq H (H1 & H2 & H3). destruct (bounds_move n ltac:(lia) q ltac:(lia) H) as (Es & Ee & Ec & Hlt).
  split; [|split; [|done]]; cbn [mCurr mSnap].
  - rewrite Ec. split; [done|]. apply goodFile_empty. unfold FIRST_PROTOCOL_SHADOWS_REMOVED in *. lia.
  - by rewrite Es, Ec.
Qed.

(** The [curr] a level has after it took in its finished merge. *)
Lemma committed_bounds q :
  (S q < kNumLevels)%nat -> n mod half q = 0 ->
  (if emptyNext (n - 1) (S q) then currEnd (n - 1) (S q) else currStart (n - 1) (S q)) = currStart n (S q).
Proof using n_range.
  intros Hq H. rewrite (emptyNext_spill n ltac:(lia) q H).
  destruct (Nat.eqb_spec (S q) (kNumLevels - 1)) as [E|E]; cbn [negb andb].
  - rewrite E. symmetry. apply (last_bounds n ltac:(lia)).
  - destruct (Z.eqb_spec (n mod half (S q)) 0) as [E'|E'].
    + symmetry. apply (bounds_move n ltac:(lia) (S q) ltac:(lia) E').
    + symmetry. apply (bounds_stay n ltac:(lia) (S q) ltac:(lia) E').
Qed.

(** A level whose turn is over but for the next merge. *)
Definition CommittedOK (a : App) (i : nat) (l : BucketLevel) : Prop :=
  GoodBucket a pv (mCurr l) (currStart n i) (currEnd n i) /\
  GoodBucket a pv (mSnap l) (snapStart n i) (currStart n i) /\ mNextCurr l = clearFuture.

Lemma commit_mid q a l :
  (S q < kNumLevels)%nat -> n mod half q = 0 -> StoreOK sha a -> mLevels a !! S q = Some l ->
  MidOK a pv n (S q) l ->
  runs (commitLevel sha (S q)) (fun _ a' => exists l', CommittedOK a' (S q) l' /\ Replaced a a' (S q) l') a.
Proof using sha_inj sha_nonzero n_range.
  intros Hq H HS Hl (H1 & H2 & H3). destruct (bounds_move n ltac:(lia) q ltac:(lia) H) as (Es & Ee & Ec & Hlt).
  cbn [NextOK] in H3. destruct (Z.ltb_spec (snapStart (n - 1) q) (currStart (n - 1) q)) as [Hne|Heq].
  - destruct H3 as (F & HF & HG). rewrite (committed_bounds q Hq H) in HG.
    eapply runs_mono; [by eapply commit_live|]. cbn beta. intros _ a' (b & Hb & Hbf & HR).
    exists (mkLevel clearFuture b (mSnap l)). split; [|done]. split; cbn [mCurr mSnap mNextCurr].
    + split; [done|]. rewrite Hbf, Ee. done.
    + split; [|done]. apply (goodBucket_evolves _ _ _ _ _ _ (proj2 HR)). done.
  - apply (commit_clear (S q) l); [done|done|]. exists l. split; [|split; [done|]].
    + split; [|done]. destruct (interval_order (n - 1) q ltac:(lia) ltac:(lia)) as [Ho _].
      assert (currEnd n (S q) = currEnd (n - 1) (S q)) as ->; [|done].
      rewrite Ee. unfold snapStart in Ho, Heq. rewrite (proj2 (Nat.eqb_neq q (kNumLevels - 1))) in Ho, Heq by lia. lia.
    + unfold onLevels. rewrite list_insert_id by done. by destruct a.
Qed.

Lemma prepare_committed q a l lq shadows count :
  (S q < kNumLevels)%nat -> n mod half q = 0 -> StoreOK sha a -> mLevels a !! S q = Some l ->
  CommittedOK a (S q) l -> GoodBucket a pv (mSnap lq) (snapStart n q) (currStart n q) ->
  runs (prepareLevel sha (S q) n pv (mSnap lq) shadows count)
    (fun _ a' => exists l', LevelOK a' pv n (S q) l' /\ Replaced a a' (S q) l') a.
Proof using sha_inj sha_nonzero st_start proto_mono n_range pv_new.
  intros Hq H HS Hl (H1 & H2 & H3) Hsnap.
  destruct (bounds_move n ltac:(lia) q ltac:(lia) H) as (Es & Ee & Ec & Hlt).
  assert (snapStart n q = currEnd n (S q)) as Esn by congruence.
  set (curr := if emptyNext n (S q) then emptyBucket else mCurr l).
  set (lo := if emptyNext n (S q) then currEnd n (S q) else currStart n (S q)).
  destruct (interval_order n (S q) ltac:(lia) Hq) as [_ Hord].
  assert (GoodBucket a pv curr lo (currEnd n (S q))) as Hcurr.
  { unfold curr, lo. destruct (emptyNext n (S q)); [|done]. split; [done|]. apply goodFile_empty.
    unfold FIRST_PROTOCOL_SHADOWS_REMOVED in *. lia. }
  rewrite Esn in Hsnap, Hlt.
  destruct (merge_intervals a pv count (S q) curr (mSnap lq) lo (currEnd n (S q)) (currStart n q)) as [Ht HG];
    [done|done|unfold lo; destruct (emptyNext n (S q)); lia|done| |].
  { unfold keepDeadEntries, lo. destruct (Nat.ltb_spec (S q) (kNumLevels - 1)); [by left|right].
    assert (S q = kNumLevels - 1)%nat as -> by lia. done. }
  eapply runs_mono; [apply (prepare_ok (S q) l n pv); try done; [lia|]|].
  - by apply (gf_new _ _ _ _ (proj2 Hsnap)).
  - cbn beta. intros _ a' (fb & HF & HR). exists (mkLevel fb (mCurr l) (mSnap l)). split; [|done].
    split; [apply (goodBucket_evolves _ _ _ _ _ _ (proj2 HR)); exact H1|].
    split; [apply (goodBucket_evolves _ _ _ _ _ _ (proj2 HR)); exact H2|].
    cbn [NextOK mNextCurr]. rewrite Esn, (proj2 (Z.ltb_lt _ _) Hlt). eexists. split; [exact HF|exact HG].
Qed.


Lemma replaced_level a a' i l' pv' n' j l : Replaced a a' i l' -> LevelOK a pv' n' j l -> LevelOK a' pv' n' j l.
Proof using. intros [_ HE] H. apply (level_evolves _ _ _ _ _ _ HE). exact H. Qed.
Lemma replaced_mid a a' i l' j l : Replaced a a' i l' -> MidOK a pv n j l -> MidOK a' pv n j l.
Proof using. intros [_ HE] H. apply (mid_evolves _ _ _ _ _ _ HE). exact H. Qed.
Lemma replaced_levels a a' i l' : Replaced a a' i l' -> mLevels a' = <[i := l']> (mLevels a).
Proof using. intros [_ HE]. apply (ev_levels _ _ _ HE). Qed.

Lemma spill_step q shadows a :
  (S q < kNumLevels)%nat -> n mod half q = 0 -> StoreOK sha a -> Stage a (S q) ->
  runs (let* snap := snapLevel q in
        do* commitLevel sha (S q) in
        prepareLevel sha (S q) n pv snap shadows true) (fun _ a' => StoreOK sha a' /\ Stage a' q) a.
Proof using sha_inj sha_nonzero st_start proto_mono n_range pv_new.
  intros Hq H HS HSt. pose proof (proj1 HSt) as Hlen.
  destruct (lookup_lt_is_Some_2 (mLevels a) q ltac:(lia)) as [lq Hlq].
  destruct (lookup_lt_is_Some_2 (mLevels a) (S q) ltac:(lia)) as [li Hli].
  apply runs_bind, (snapLevel_ok q lq); [done|]. set (lq' := mkLevel (mNextCurr lq) emptyBucket (mCurr lq)).
  set (a1 := onLevels <[q := lq']> a).
  assert (MidOK a1 pv n q lq') as Hmidq.
  { exact (spilled_mid q a lq Hq H (stage_below a (S q) q lq HSt Hlq ltac:(lia))). }
  assert (mLevels a1 !! S q = Some li) as Hli1 by (cbn; by rewrite list_lookup_insert_ne by lia).
  apply runs_bind. eapply runs_mono.
  { apply (commit_mid q a1 li); [done|done|by apply store_levels|done|]. exact (stage_at a (S q) li HSt Hli). }
  cbn beta. intros _ a2 (li2 & Hc2 & HR2).
  assert (mLevels a2 !! S q = Some li2) as Hli2.
  { rewrite (replaced_levels _ _ _ _ HR2). apply list_lookup_insert_eq. by eapply lookup_lt_Some. }
  pose proof (replaced_mid _ _ _ _ _ _ HR2 Hmidq) as Hmidq2.
  change (mCurr lq) with (mSnap lq'). eapply runs_mono.
  { apply (prepare_committed q a2 li2 lq'); [done|done|apply HR2|done|done|apply Hmidq2]. }
  cbn beta. intros _ a3 (li3 & Hl3 & HR3). split; [apply HR3|].
  assert (mLevels a3 = <[S q := li3]> (<[q := lq']> (mLevels a))) as HL.
  { rewrite (replaced_levels _ _ _ _ HR3), (replaced_levels _ _ _ _ HR2). by rewrite list_insert_insert_eq. }
  assert (forall j l pv' n', LevelOK a pv' n' j l -> LevelOK a3 pv' n' j l) as Hgrow.
  { intros j l pv' n' Hl. apply (replaced_level _ _ _ _ _ _ _ _ HR3), (replaced_level _ _ _ _ _ _ _ _ HR2). exact Hl. }
  apply stage_intro; rewrite HL.
  - by rewrite !length_insert.
  - intros j l Hl Hj. destruct (decide (j = S q)) as [->|Hne].
    + rewrite list_lookup_insert_eq in Hl by (rewrite length_insert; lia). by injection Hl as <-.
    + rewrite !list_lookup_insert_ne in Hl by lia. apply Hgrow. eapply stage_above; [done..|lia].
  - intros l Hl. rewrite list_lookup_insert_ne, list_lookup_insert_eq in Hl by lia. injection Hl as <-.
    by apply (replaced_mid _ _ _ _ _ _ HR3).
  - intros j l Hl Hj. rewrite !list_lookup_insert_ne in Hl by lia. apply Hgrow. eapply stage_below; [done..|lia].
Qed.

Lemma popTwo_ok (shadows : list Bucket) k (Q : list Bucket -> App -> Prop) a :
  length shadows = (k + 2)%nat -> (forall s, length s = k -> Q s a) -> runs (popTwo shadows) Q a.
Proof using.
  intros Hl HQ. unfold popTwo. apply runs_bind, runs_assert; [apply Nat.leb_le; lia|]. apply runs_ret, HQ.
  rewrite length_take. lia.
Qed.

Lemma spillLevels_ok i shadows a :
  (i < kNumLevels)%nat -> length shadows = (2 * i)%nat -> StoreOK sha a -> Stage a i ->
  runs (spillLevels sha i n pv shadows) (fun s a' => s = [] /\ StoreOK sha a' /\ Stage a' 0) a.
Proof using sha_inj sha_nonzero st_start proto_mono n_range pv_new.
  revert shadows a. induction i as [|q IH]; intros shadows a Hi Hs HS HSt.
  { apply runs_ret. split; [|done]. apply nil_length_inv. lia. }
  cbn [spillLevels]. apply runs_bind, (popTwo_ok _ (2 * q)); [lia|]. intros s Hs'.
  rewrite spill_ok by lia. apply runs_bind, runs_lift, runs_bind.
  eapply (runs_mono _ (fun _ a' => StoreOK sha a' /\ Stage a' q)).
  - apply runs_when.
    + intros E. apply Z.eqb_eq in E. by apply spill_step.
    + intros E. apply Z.eqb_neq in E. split; [done|]. by apply stage_stays.
  - cbn beta. intros _ a' [HS' HSt']. apply IH; [lia|done|done|done].
Qed.

(** ** The youngest level *)

Definition ListOK (a : App) (pv' n' : Z) : Prop :=
  length (mLevels a) = kNumLevels /\ forall j l, mLevels a !! j = Some l -> LevelOK a pv' n' j l.

Lemma list_stage a pv' : pv' <= pv -> ListOK a pv' (n - 1) -> Stage a (kNumLevels - 1).
Proof using n_range.
  intros Hp [Hlen H]. apply stage_intro; [done|..].
  - intros j l Hl Hj. apply lookup_lt_Some in Hl. lia.
  - intros l Hl. specialize (H _ _ Hl). apply (level_weaken _ _ pv) in H; [|done].
    destruct (last_bounds n ltac:(lia)) as [E1 E2]. destruct H as (H1 & H2 & H3).
    split; [by rewrite E1|]. split; [by rewrite E1, E2|done].
  - intros j l Hl Hj. apply (level_weaken _ pv'); [done|]. by apply H.
Qed.

Context (b : Batch).
Hypothesis b_valid : ValidBatch b (st (n - 1)).
Hypothesis b_step : st n = applyBatch b (st (n - 1)).
Hypothesis b_keys : keysAt n = batchKeys b.
Hypothesis b_proto : proto n = pv.

Lemma fresh_ok count a :
  StoreOK sha a ->
  grows sha (fresh sha pv (initEntries b) (liveEntries b) (deadEntries b) count)
    (fun x a' => GoodBucket a' pv x n (n + 1)) a.
Proof using sha_inj sha_nonzero n_range pv_new b_valid b_step b_keys b_proto.
  intros HS. unfold fresh.
  destruct (fresh_takes pv b (st (n - 1))) as (o & E & Hw & Hv & Ht & Hk); [|done|].
  { unfold FIRST_PROTOCOL_SUPPORTING_INITENTRY_AND_METAENTRY, FIRST_PROTOCOL_SHADOWS_REMOVED in *. lia. }
  rewrite E. apply runs_bind, runs_lift. eapply (grows_bind _ _ _ (fun _ _ => True)).
  { apply runs_when; intros _; [by apply grows_counters|auto]. }
  intros [] a1 HS1 HE1 _. eapply grows_mono; [by apply (getBucket_ok sha sha_inj sha_nonzero)|]. cbn beta.
  intros x a2 HS2 HE2 [Hx Hf]. split; [done|]. rewrite Hf.
  split; [done| | | |lia|intros _; rewrite Hv, <- b_proto; f_equal; lia|lia|lia].
  - replace (n + 1 - 1) with n by lia. by rewrite b_step.
  - intros k Hsome. exists n. split; [lia|]. rewrite b_keys. by apply Hk.
  - intros k (j & Hj & Hkj) _ _. assert (j = n) as -> by lia. rewrite b_keys in Hkj. by apply Hk.
Qed.

Lemma level0_ok count a :
  StoreOK sha a -> Stage a 0 ->
  runs (let* x := fresh sha pv (initEntries b) (liveEntries b) (deadEntries b) count in
        do* prepareLevel sha 0 n pv x [] count in
        commitLevel sha 0) (fun _ a' => StoreOK sha a' /\ ListOK a' pv n) a.
Proof using sha_inj sha_nonzero st_start proto_mono n_range pv_new b_valid b_step b_keys b_proto.
  intros HS HSt. pose proof (proj1 HSt) as Hlen.
  destruct (lookup_lt_is_Some_2 (mLevels a) 0 ltac:(unfold kNumLevels in *; lia)) as [l0 Hl0].
  destruct (stage_at a 0 l0 HSt Hl0) as (H1 & H2 & H3).
  apply runs_bind. eapply runs_mono; [by apply fresh_ok|]. cbn beta. intros x a1 (HS1 & HE1 & Hx).
  apply (goodBucket_evolves _ _ _ _ _ _ HE1) in H1, H2.
  assert (currEnd (n - 1) 0 = n) as Ee by (unfold currEnd; lia). rewrite Ee in H1.
  destruct (interval_order n 0 ltac:(lia) ltac:(unfold kNumLevels; lia)) as [_ Hord].
  assert (currStart n 0 <= n) as Hlo.
  { unfold currStart. change (Nat.eqb 0 (kNumLevels - 1)) with false. cbn [half lag]. pose proof (half_round n 0 ltac:(lia)) as Hr. cbn [half] in Hr. lia. }
  destruct (merge_intervals a1 pv count 0 (mCurr l0) x (currStart n 0) n (n + 1)) as [Ht HG]; [done|done|lia|lia|by left|].
  assert (mLevels a1 !! 0%nat = Some l0) as Hl1 by (by rewrite (ev_levels _ _ _ HE1)).
  apply runs_bind. eapply runs_mono.
  { apply (prepare_ok 0 l0 n pv); [done|done|done|lia|unfold kNumLevels; lia| |done].
    apply (gf_new _ _ _ _ (proj2 Hx)). lia. }
  cbn beta zeta. intros _ a2 (fb & HF & HR2). set (l2 := mkLevel fb (mCurr l0) (mSnap l0)) in *.
  assert (mLevels a2 !! 0%nat = Some l2) as Hl2.
  { rewrite (replaced_levels _ _ _ _ HR2). apply list_lookup_insert_eq. by eapply lookup_lt_Some. }
  eapply runs_mono; [apply (commit_live 0 l2 _ _ a2 (proj1 HR2) Hl2 HF)|]. cbn beta.
  intros _ a3 (b3 & Hb3 & Hf3 & HR3). split; [apply HR3|].
  assert (mLevels a3 = <[0%nat := mkLevel clearFuture b3 (mSnap l0)]> (mLevels a)) as HL.
  { rewrite (replaced_levels _ _ _ _ HR3), (replaced_levels _ _ _ _ HR2), (ev_levels _ _ _ HE1).
    by rewrite list_insert_insert_eq. }
  split; [by rewrite HL, length_insert|]. intros j l Hl. rewrite HL in Hl. destruct (decide (j = 0)%nat) as [->|Hj].
  - rewrite list_lookup_insert_eq in Hl by (by eapply lookup_lt_Some). injection Hl as <-.
    split; [split; [done|]; cbn [mCurr]; rewrite Hf3; exact HG|]. split; [|done]. cbn [mSnap].
    apply (goodBucket_evolves _ _ _ _ _ _ (proj2 HR3)), (goodBucket_evolves _ _ _ _ _ _ (proj2 HR2)). exact H2.
  - rewrite list_lookup_insert_ne in Hl by done.
    apply (replaced_level _ _ _ _ _ _ _ _ HR3), (replaced_level _ _ _ _ _ _ _ _ HR2), (level_evolves _ _ _ _ _ _ HE1).
    eapply stage_above; [done..|lia].
Qed.

End Ledger.

(** ** Merges that finish early *)

Lemma evolves_list a a' pv n : Evolves sha a a' -> ListOK a pv n -> ListOK a' pv n.
Proof using.
  intros HE [Hlen H]. split; [by rewrite (ev_levels _ _ _ HE)|]. intros j l. rewrite (ev_levels _ _ _ HE).
  intros Hl. apply (level_evolves a); [done|by apply H].
Qed.

Lemma list_setNext a pv n i l fb :
  ListOK a pv n -> mLevels a !! i = Some l -> NextOK a pv n i fb ->
  ListOK (onLevels (<[i := mkLevel fb (mCurr l) (mSnap l)]>) a) pv n.
Proof using.
  intros [Hlen H] Hl Hfb. split; [cbn; by rewrite length_insert|]. intros j l' Hl'. cbn in Hl'.
  destruct (decide (i = j)) as [<-|Hne]; [|rewrite list_lookup_insert_ne in Hl' by done; exact (H j l' Hl')].
  rewrite list_lookup_insert_eq in Hl' by (by eapply lookup_lt_Some). injection Hl' as <-.
  destruct (H i l Hl) as (H1 & H2 & _). split; [exact H1|]. split; [exact H2|exact Hfb].
Qed.

(** A live handle may be exchanged for any other with the same contents. *)
Lemma next_live a pv n i fb :
  NextOK a pv n i fb -> isLive fb = true ->
  exists F, FutureOK sha a (keepDeadEntries i) fb F /\ forall a' fb', FutureOK sha a' (keepDeadEntries i) fb' F -> NextOK a' pv n i fb'.
Proof using.
  destruct i as [|q]; cbn [NextOK]; [by intros ->|]. destruct (_ <? _); [|by intros ->].
  intros (F & HF & HG) _. exists F. split; [done|]. intros a' fb' HF'. by exists F.
Qed.

Lemma resolveReady_ok todo i a pv n :
  (i + todo <= kNumLevels)%nat -> StoreOK sha a -> ListOK a pv n ->
  runs (resolveReadyFrom sha todo i) (fun _ a' => StoreOK sha a' /\ ListOK a' pv n) a.
Proof using sha_inj sha_nonzero.
  revert i a. induction todo as [|todo IH]; intros i a Hi HS HL; [by apply runs_ret|]. cbn [resolveReadyFrom].
  destruct (lookup_lt_is_Some_2 (mLevels a) i) as [l Hl]; [rewrite (proj1 HL); lia|].
  apply runs_bind, (levelAt_ok i l); [done|]. apply runs_bind.
  eapply (runs_mono _ (fun _ a' => StoreOK sha a' /\ ListOK a' pv n)).
  2: { cbn beta. intros _ a' [HS' HL']. apply IH; [lia|done|done]. }
  destruct (isMerging (mNextCurr l)) eqn:Em; [|by apply runs_ret].
  assert (isLive (mNextCurr l) = true) as Hlive by (unfold isLive, isMerging in *; by rewrite Em).
  apply runs_bind. eapply runs_mono; [by apply mergeComplete_ok|]. cbn beta. intros c a1 (HS1 & HE1 & _).
  apply (evolves_list _ _ _ _ HE1) in HL. rewrite <- (ev_levels _ _ _ HE1) in Hl.
  destruct (proj2 HL i l Hl) as (_ & _ & Hnext). destruct (next_live _ _ _ _ _ Hnext Hlive) as (F & HF & Hswap).
  apply runs_when; intros _; [|done]. apply runs_bind.
  eapply runs_mono; [by eapply (resolve_ok sha sha_inj sha_nonzero _ _ F)|]. cbn beta.
  intros [b fb] a2 (HS2 & HE2 & Hfb & Hb & Hbf). cbn in Hfb, Hb, Hbf. subst fb.
  apply (evolves_list _ _ _ _ HE2) in HL. rewrite <- (ev_levels _ _ _ HE2) in Hl.
  unfold setNext. apply runs_bind, (levelAt_ok i l); [done|]. apply runs_modify.
  split; [by apply store_levels|]. apply list_setNext; [done|done|]. apply Hswap. right. by exists b.
Qed.

(** ** Adding a ledger *)

Lemma length_shadows (levels : list BucketLevel) :
  length (levels ≫= (fun l => [mCurr l; mSnap l])) = (2 * length levels)%nat.
Proof using. induction levels as [|l levels IH]; [done|]. cbn in *. lia. Qed.

Lemma addBatch_ok reduceCounts pessimize n pv pv' b a :
  1 <= n <= UINT32_MAX -> FIRST_PROTOCOL_SHADOWS_REMOVED <= pv -> pv' <= pv ->
  ValidBatch b (st (n - 1)) -> st n = applyBatch b (st (n - 1)) -> keysAt n = batchKeys b -> proto n = pv ->
  StoreOK sha a -> ListOK a pv' (n - 1) ->
  runs (addBatch sha reduceCounts pessimize n pv (initEntries b) (liveEntries b) (deadEntries b))
    (fun _ a' => StoreOK sha a' /\ ListOK a' pv n) a.
Proof using sha_inj sha_nonzero st_start proto_mono.
  intros Hn Hpv Hpv' Hb Hst Hkeys Hproto HS HL. pose proof (proj1 HL) as Hlen. unfold addBatch.
  apply runs_bind, runs_assert; [apply Z.ltb_lt; lia|]. apply runs_bind, runs_get.
  apply runs_bind, (popTwo_ok _ (2 * (kNumLevels - 1))); [rewrite length_shadows, Hlen; unfold kNumLevels; lia|].
  intros s Hs. rewrite Hlen. apply runs_bind. eapply runs_mono.
  { apply (spillLevels_ok n pv Hn Hpv (kNumLevels - 1)); [unfold kNumLevels; lia|done|done|].
    by apply (list_stage n pv Hn a pv'). }
  cbn beta. intros s' a1 (-> & HS1 & HSt1). apply runs_bind, runs_assert; [done|].
  pose proof (level0_ok n pv Hn Hpv b Hb Hst Hkeys Hproto (negb reduceCounts) a1 HS1 HSt1) as H0.
  unfold runs, wp in H0 |- *. unfold bnd, mbind, M_bind in H0 |- *.
  destruct (fresh _ _ _ _ _ _ a1) as [x a2|f a2]; [|done].
  destruct (prepareLevel _ _ _ _ _ _ _ a2) as [[] a3|f a3]; [|done].
  destruct (commitLevel _ _ a3) as [[] a4|f a4]; [|done]. destruct H0 as [HS4 HL4].
  change (runs (when (negb pessimize) (resolveAnyReadyFutures sha))
    (fun _ a' => StoreOK sha a' /\ ListOK a' pv n) a4).
  apply runs_when; intros _; [|done]. unfold resolveAnyReadyFutures. apply runs_bind, runs_get.
  apply resolveReady_ok; [rewrite (proj1 HL4); lia|done|done].
Qed.

End Invariant.
