(* ===== verification/BucketRestart.v ===== *)
(** * Bucket lists are determined by the history, and can be restored

    The invariant of a level fixes its buckets: two lists that both satisfy it for the
    same history hold the same files.  A list restored from a snapshot satisfies it
    again, whether the snapshot kept the merges that were running or dropped them. *)

From stdpp Require Import base list gmap strings sorting.
From S2P Require Import Prelude Exchange Entries BucketEntries Bucket BucketMerge BucketSpec BucketLevels BucketManager BucketStore BucketList BucketListInv.

Local Open Scope Z_scope.

#[local] Arguments wp : simpl never.
#[local] Arguments runs : simpl never.
#[local] Arguments mergedFile : simpl never.
#[local] Arguments currStart : simpl never.
#[local] Arguments currEnd : simpl never.
#[local] Arguments snapStart : simpl never.
#[local] Arguments emptyNext : simpl never.
#[local] Arguments kNumLevels : simpl never.

(** ** Files with the same records *)

Lemma sorted_head_least e l x k :
  StronglySorted keyLt (e :: l) -> entryFor k (e :: l) = Some x -> x = e \/ keyLt e x.
Proof.
  intros [He _]%sorted_cons_iff [[->|Hx]%elem_of_cons _]%entryFor_Some; [by left|right].
  rewrite Forall_forall in He. by apply He.
Qed.

Lemma keyed e : noMeta e -> exists k, bucketKey e = Some k.
Proof. destruct e; cbn; eauto. done. Qed.

Lemma records_ext l l' :
  Forall noMeta l -> Forall noMeta l' -> StronglySorted keyLt l -> StronglySorted keyLt l' ->
  (forall k, entryFor k l = entryFor k l') -> l = l'.
Proof.
  revert l'. induction l as [|e l IH]; intros [|e' l'] Hm Hm' Hs Hs' H; [done|..].
  - apply Forall_cons in Hm' as [[k Hk]%keyed _]. specialize (H k). cbn in H. by rewrite decide_True in H.
  - apply Forall_cons in Hm as [[k Hk]%keyed _]. specialize (H k). cbn in H. by rewrite decide_True in H.
  - apply Forall_cons in Hm as [[k Hk]%keyed Hm], Hm' as [[k' Hk']%keyed Hm'].
    assert (entryFor k (e :: l) = Some e) as E by (cbn; by rewrite decide_True).
    assert (entryFor k' (e' :: l') = Some e') as E' by (cbn; by rewrite decide_True).
    rewrite H in E. rewrite <- H in E'.
    assert (e = e') as ->.
    { destruct (sorted_head_least _ _ _ _ Hs' E) as [|H1]; [done|].
      destruct (sorted_head_least _ _ _ _ Hs E') as [|H2]; [done|]. apply idCmp_asym in H1. unfold keyLt in H2. congruence. }
    f_equal. rewrite Hk in Hk'. injection Hk' as ->. apply sorted_cons_iff in Hs as [He Hs], Hs' as [He' Hs'].
    apply IH; [done..|]. intros k. destruct (decide (k = k')) as [->|Hne].
    + by rewrite !(entryFor_below k' e').
    + specialize (H k). cbn in H. by rewrite !decide_False in H by congruence.
Qed.

Lemma file_parts F :
  WfFile F -> FIRST_PROTOCOL_SUPPORTING_INITENTRY_AND_METAENTRY <= fileVersion F ->
  F = METAENTRY (mkMeta (fileVersion F)) :: body F.
Proof.
  unfold FIRST_PROTOCOL_SUPPORTING_INITENTRY_AND_METAENTRY.
  intros _ H. destruct F as [|[x|x|k|[v]] l]; cbn in *; try lia. done.
Qed.

(** ** Boundaries of the levels *)

(** Once a level holds anything, all younger intervals do. *)
Lemma snap_filled n i :
  0 <= n -> (i < kNumLevels - 1)%nat -> snapStart n i < currStart n i \/ currStart n i = 1.
Proof.
  intros Hn Hi. unfold snapStart, currStart. rewrite (proj2 (Nat.eqb_neq _ _)) by lia. unfold currEnd.
  pose proof (half_pos i). lia.
Qed.

Lemma curr_filled n i :
  0 <= n -> (i < kNumLevels - 1)%nat -> 1 < currStart n i -> currStart n i < currEnd n i.
Proof.
  intros Hn Hi H. unfold currStart in *. rewrite (proj2 (Nat.eqb_neq _ _)) in * by lia.
  pose proof (half_pos i). pose proof (lag_half i). pose proof (half_round n i Hn).
  destruct i as [|p]; unfold currEnd; [cbn [lag] in *; lia|].
  pose proof (half_round_S n p Hn) as E. rewrite E in *. pose proof (mod4_range (n / half p)).
  pose proof (Z.mul_nonneg_nonneg (half p) ((n / half p) mod 4)). pose proof (half_pos p). cbn [lag] in *. lia.
Qed.

(** The levels above one that has never spilled are empty. *)
Lemma unspilled_above n q j :
  0 <= n -> (q < kNumLevels - 1)%nat -> currStart n q <= snapStart n q -> (q <= j < kNumLevels)%nat ->
  currStart n j = 1 /\ snapStart n j = 1.
Proof.
  intros Hn Hq H [Hj Hk]. induction Hj as [|j Hj IH].
  - destruct (snap_filled n q Hn Hq); [lia|]. destruct (interval_order n q Hn ltac:(lia)). lia.
  - destruct IH as [E1 E2]; [lia|]. destruct (interval_order n (S j) Hn ltac:(lia)).
    assert (snapStart n j = currEnd n (S j)) as E; [|lia].
    unfold snapStart. by rewrite (proj2 (Nat.eqb_neq _ _)) by lia.
Qed.

(** A merge is restarted with the ledger at which the level below last spilled. *)
Lemma emptyNext_start n q : 0 <= n -> emptyNext (half q * (n / half q)) (S q) = emptyNext n (S q).
Proof.
  intros Hn. pose proof (half_pos q). unfold emptyNext.
  assert (half q * (n / half q) / half q = n / half q) as -> by (rewrite Z.mul_comm; apply Z.div_mul; lia). done.
Qed.

Section Restart.
Context (sha : list BucketEntry -> Z).
Hypothesis sha_inj : forall l l', sha l = sha l' -> l = l'.
Hypothesis sha_nonzero : forall l, sha l <> 0.
Context (st : Z -> gmap LedgerKey LedgerEntry).
Hypothesis st_start : st 0 = ∅.
Context (keysAt : Z -> list LedgerKey) (proto : Z -> Z).
Hypothesis proto_mono : forall i j, i <= j -> proto i <= proto j.

Notation GoodFile := (GoodFile st keysAt proto).
Notation GoodBucket := (GoodBucket sha st keysAt proto).
Notation NextOK := (NextOK sha st keysAt proto).
Notation LevelOK := (LevelOK sha st keysAt proto).
Notation ListOK := (ListOK sha st keysAt proto).

(** ** The history determines the files *)

Lemma record_unique pv pv' F F' lo hi k e :
  GoodFile pv F lo hi -> GoodFile pv' F' lo hi -> entryFor k (body F) = Some e -> entryFor k (body F') = Some e.
Proof using.
  intros HF HF' E. pose proof (gf_takes _ _ _ _ _ _ _ HF k) as Ht. pose proof (gf_takes _ _ _ _ _ _ _ HF' k) as Ht'.
  pose proof (gf_only _ _ _ _ _ _ _ HF k) as Ho. pose proof (gf_all _ _ _ _ _ _ _ HF' k) as Ha.
  rewrite E in Ht, Ho. specialize (Ha (Ho ltac:(done))). apply entryFor_Some in E as [_ Ek].
  destruct (entryFor k (body F')) as [e'|] eqn:E'.
  - apply entryFor_Some in E' as [_ Ek']. destruct e, e'; cbn in *; destruct_and?; simplify_eq; try done;
      repeat match goal with H : is_Some _ |- _ => destruct H as [? H] end; congruence.
  - destruct e; cbn in *; destruct_and?; try done.
    + by destruct Ha.
    + congruence.
    + destruct H as [? H]. congruence.
Qed.

Lemma goodFile_unique pv pv' F F' lo hi : GoodFile pv F lo hi -> GoodFile pv' F' lo hi -> F = F'.
Proof using.
  intros HF HF'. destruct (decide (lo < hi)) as [H|H].
  2: { rewrite (gf_empty _ _ _ _ _ _ _ HF), (gf_empty _ _ _ _ _ _ _ HF'); [done|lia|lia]. }
  pose proof (gf_new _ _ _ _ _ _ _ HF H) as Hn. pose proof (gf_new _ _ _ _ _ _ _ HF' H) as Hn'.
  pose proof (gf_proto _ _ _ _ _ _ _ HF H) as Hp. pose proof (gf_proto _ _ _ _ _ _ _ HF' H) as Hp'.
  pose proof (gf_wf _ _ _ _ _ _ _ HF) as Hw. pose proof (gf_wf _ _ _ _ _ _ _ HF') as Hw'.
  unfold FIRST_PROTOCOL_SHADOWS_REMOVED, FIRST_PROTOCOL_SUPPORTING_INITENTRY_AND_METAENTRY in *.
  rewrite (file_parts F Hw), (file_parts F' Hw') by (unfold FIRST_PROTOCOL_SUPPORTING_INITENTRY_AND_METAENTRY; lia).
  rewrite Hp, Hp'. f_equal. apply records_ext; auto using body_noMeta, body_sorted.
  intros k. destruct (entryFor k (body F)) as [e|] eqn:E; [by rewrite (record_unique _ _ _ _ _ _ _ _ HF HF' E)|].
  destruct (entryFor k (body F')) as [e|] eqn:E'; [|done].
  by rewrite (record_unique _ _ _ _ _ _ _ _ HF' HF E') in E.
Qed.

Lemma stored_file d d' b b' : Stored sha d b -> Stored sha d' b' -> mFile b = mFile b' -> mHash b = mHash b'.
Proof using.
  intros [-> |(H1 & H2 & _)] [-> |(H1' & H2' & _)] E; [done|cbn in E; congruence|cbn in E; congruence|congruence].
Qed.

Lemma goodBucket_unique a a' pv pv' b b' lo hi :
  GoodBucket a pv b lo hi -> GoodBucket a' pv' b' lo hi -> mHash b = mHash b'.
Proof using. intros [Hb HF] [Hb' HF']. eapply stored_file; [done..|]. by eapply goodFile_unique. Qed.

(** Lists for the same history have the same hashes. *)
Lemma list_unique a a' pv pv' n :
  ListOK a pv n -> ListOK a' pv' n ->
  (fun l => (mHash (mCurr l), mHash (mSnap l))) <$> mLevels a = (fun l => (mHash (mCurr l), mHash (mSnap l))) <$> mLevels a'.
Proof using.
  intros [Hlen H] [Hlen' H']. apply list_eq_same_length with kNumLevels; [by rewrite length_fmap..|].
  intros i x y _. rewrite !list_lookup_fmap, !fmap_Some. intros (l & Hl & ->) (l' & Hl' & ->).
  destruct (H i l Hl) as (Hc & Hs & _). destruct (H' i l' Hl') as (Hc' & Hs' & _).
  by rewrite (goodBucket_unique _ _ _ _ _ _ _ _ Hc Hc'), (goodBucket_unique _ _ _ _ _ _ _ _ Hs Hs').
Qed.

(** ** A merge that is resumed *)

Lemma shadowsByHash_ok bs a :
  StoreOK sha a -> Forall (Stored sha (bucketDir a)) bs ->
  grows sha (shadowsByHash (mHash <$> bs)) (fun r a' => r = bs /\ bucketDir a' = bucketDir a) a.
Proof using sha_inj sha_nonzero.
  intros HS H. revert a HS H. induction bs as [|b bs IH]; intros a HS H; [by apply grows_ret|].
  apply Forall_cons in H as [Hb Hbs]. cbn [shadowsByHash fmap list_fmap].
  eapply grows_bind; [by apply (getBucketByHash_stored sha sha_inj sha_nonzero b)|]. cbn beta.
  intros r a1 HS1 HE1 (-> & Hd1 & _). apply runs_bind, runs_assert; [done|]. apply runs_bind, runs_deref.
  eapply grows_bind; [apply IH; [done|by rewrite Hd1]|]. cbn beta. intros r a2 HS2 HE2 (-> & Hd2).
  apply grows_ret; [done|]. by rewrite Hd2.
Qed.

Lemma refused_max maxv maxv' old new shadows :
  ~ refused maxv old new shadows -> mergeVersion old new shadows <= maxv' -> ~ refused maxv' old new shadows.
Proof using. unfold refused. intros H Hv [?|?]; [lia|]. apply H. by right. Qed.

(** The version a file was merged under. *)
Lemma merged_under old new shadows keepDead :
  WfFile old -> WfFile new ->
  FIRST_PROTOCOL_SUPPORTING_INITENTRY_AND_METAENTRY <= fileVersion (mergedFile old new shadows keepDead) ->
  mergeVersion old new shadows = fileVersion (mergedFile old new shadows keepDead).
Proof using.
  intros Ho Hn. rewrite mergedFile_eq by done. unfold withMeta.
  destruct (Z.leb_spec FIRST_PROTOCOL_SUPPORTING_INITENTRY_AND_METAENTRY (mergeVersion old new shadows)); [done|].
  cbn [app]. intros Hv. pose proof (mergedBody_noMeta old new shadows keepDead Ho Hn) as Hm.
  unfold FIRST_PROTOCOL_SUPPORTING_INITENTRY_AND_METAENTRY in *.
  destruct (mergedBody old new shadows keepDead) as [|[] ?]; cbn in Hv; try lia. by apply Forall_inv in Hm.
Qed.

(** A handle read back from what was saved resumes the merge it stands for. *)
Lemma makeLive_ok fb F maxv i a0 a :
  StoreOK sha a -> bucketDir a0 ⊆ bucketDir a -> FutureOK sha a0 (keepDeadEntries i) fb F ->
  FIRST_PROTOCOL_SUPPORTING_INITENTRY_AND_METAENTRY <= fileVersion F <= maxv ->
  grows sha (makeLive sha (loadFuture (saveFuture fb)) maxv i)
    (fun fb' a' => FutureOK sha a' (keepDeadEntries i) fb' F) a.
Proof using sha_inj sha_nonzero.
  intros HS Hd [(t & id & fs & -> & Ht & HtF & Hkd & _ & _)|(b & -> & Hb & Hbf)] HvF; unfold makeLive.
  - cbn [saveFuture loadFuture mState inputsFuture].
    apply (task_grows sha _ _ _ Hd) in Ht. destruct t as [tc ts tsh tv tcount tl]. cbn in Hkd.
    cbn [t_curr t_snap t_shadows mInputCurrBucketHash mInputSnapBucketHash mInputShadowBucketHashes] in *.
    apply runs_bind, runs_assert; [done|]. apply runs_bind, runs_assert; [done|].
    apply runs_bind, runs_assert; [done|]. apply runs_bind, runs_lift, runs_bind, runs_assert; [done|].
    apply runs_bind, runs_deref. destruct Ht as [Hc Hs Hsh Hwf Hgo]. cbn in Hc, Hs, Hsh, Hwf, Hgo.
    eapply grows_bind; [by apply (getBucketByHash_stored sha sha_inj sha_nonzero tc)|]. cbn beta.
    intros r a1 HS1 HE1 (-> & Hd1 & _). apply runs_bind, runs_deref. rewrite <- Hd1 in Hs, Hsh, Hc.
    eapply grows_bind; [by apply (getBucketByHash_stored sha sha_inj sha_nonzero ts)|]. cbn beta.
    intros r a2 HS2 HE2 (-> & Hd2 & _). apply runs_bind, runs_assert; [done|]. rewrite <- Hd2 in Hs, Hsh, Hc.
    eapply grows_bind; [by apply (shadowsByHash_ok tsh)|]. cbn beta. intros r a3 HS3 HE3 (-> & Hd3).
    rewrite <- Hd3 in Hs, Hsh, Hc.
    set (t := mkTask tc ts tsh maxv true i).
    assert (taskFile t = F) as HtF' by (rewrite <- HtF; unfold taskFile; cbn; by rewrite Hkd).
    eapply grows_bind; [apply (startMerge_ok sha sha_inj sha_nonzero t); [done|split; [done..|]]|].
    + cbn. eapply refused_max; [done|]. rewrite (merged_under _ _ _ (keepDeadEntries i)) by (apply Hwf || (rewrite <- HtF' in HvF; apply HvF)).
      rewrite <- HtF' in HvF. apply HvF.
    + cbn beta. rewrite HtF'. intros fb' a4 HS4 HE4 [HF Hm]. apply runs_bind, runs_assert; [unfold isLive; by rewrite Hm|].
      apply grows_ret; done.
  - cbn [saveFuture loadFuture mState outputFuture mOutputBucketHash].
    apply runs_bind, runs_assert; [done|]. apply runs_bind, runs_assert; [done|]. apply runs_bind, runs_assert; [done|].
    apply runs_bind, runs_lift, runs_bind, runs_lift. apply (stored_grows sha _ _ _ Hd) in Hb.
    eapply grows_bind; [by apply (getBucketByHash_stored sha sha_inj sha_nonzero b)|]. cbn beta.
    intros r a1 HS1 HE1 (-> & Hd1 & _). unfold setLiveOutput. apply runs_bind, runs_deref. rewrite <- Hd1 in Hb.
    eapply grows_bind; [by apply (checkOutput_ok sha sha_inj sha_nonzero b)|]. cbn beta. intros [] a2 HS2 HE2 _.
    apply grows_ret; [done|]. right. exists b. split; [done|]. split; [by apply (evolves_stored sha a1)|done].
Qed.

(** ** Levels read from a snapshot *)

(** A snapshot names the buckets of a list; the merges it keeps come from [next]. *)
Definition Names (has : HistoryArchiveState) (levels : list BucketLevel) (next : nat -> FutureBucket) : Prop :=
  forall i l, levels !! i = Some l ->
    currentBuckets has !! i = Some (mkHSB (mHash (mCurr l)) (next i) (mHash (mSnap l))).

Lemma setLevels_ok i l fb curr snap a (Q : unit -> App -> Prop) k :
  mLevels a !! i = Some l ->
  runs k Q (onLevels (<[i := mkLevel fb curr snap]>) a) ->
  runs (do* setCurr i curr in do* setSnap i snap in do* setNext i fb in k) Q a.
Proof using.
  intros Hl HQ. assert (i < length (mLevels a))%nat as Hi by (by eapply lookup_lt_Some).
  unfold setCurr, setSnap, setNext. apply runs_bind, runs_bind, (levelAt_ok i l); [done|]. apply runs_modify.
  apply runs_bind, runs_bind. eapply levelAt_ok; [cbn; by apply list_lookup_insert_eq|]. apply runs_modify.
  apply runs_bind, runs_bind. eapply levelAt_ok; [cbn; apply list_lookup_insert_eq; by rewrite length_insert|].
  apply runs_modify. unfold onLevels in *. cbn [mLevels mCurr mSnap] in *. rewrite !list_insert_insert_eq. exact HQ.
Qed.

Lemma assumeLevels_ok todo i has levels next a :
  (i + todo = kNumLevels)%nat -> length levels = kNumLevels -> length (mLevels a) = kNumLevels ->
  Names has levels next -> StoreOK sha a ->
  (forall j l, levels !! j = Some l -> Stored sha (bucketDir a) (mCurr l) /\ Stored sha (bucketDir a) (mSnap l)) ->
  (forall j l, (j < i)%nat -> levels !! j = Some l -> mLevels a !! j = Some (mkLevel (next j) (mCurr l) (mSnap l))) ->
  runs (assumeLevels todo i has)
    (fun _ a' => StoreOK sha a' /\ bucketDir a' = bucketDir a /\ length (mLevels a') = kNumLevels /\
       forall j l, levels !! j = Some l -> mLevels a' !! j = Some (mkLevel (next j) (mCurr l) (mSnap l))) a.
Proof using sha_inj sha_nonzero.
  revert i a. induction todo as [|todo IH]; intros i a Hi Hlen Hlen' Hn HS Hst Hdone.
  { apply runs_ret. split; [done|]. split; [done|]. split; [done|]. intros j l Hl. apply Hdone; [|done].
    apply lookup_lt_Some in Hl. lia. }
  cbn [assumeLevels]. destruct (lookup_lt_is_Some_2 levels i ltac:(lia)) as [l Hl].
  unfold bucketsAt. rewrite (Hn i l Hl). apply runs_bind, runs_lift. cbn [hsb_curr hsb_snap hsb_next].
  destruct (Hst i l Hl) as [Hc Hs]. apply runs_bind.
  eapply runs_mono; [by apply (getBucketByHash_stored sha sha_inj sha_nonzero (mCurr l))|]. cbn beta.
  intros r a1 (HS1 & HE1 & -> & Hd1 & _). apply runs_bind. rewrite <- Hd1 in Hs.
  eapply runs_mono; [by apply (getBucketByHash_stored sha sha_inj sha_nonzero (mSnap l))|]. cbn beta.
  intros r a2 (HS2 & HE2 & -> & Hd2 & _).
  assert (mLevels a2 = mLevels a) as HL2 by (by rewrite (ev_levels _ _ _ HE2), (ev_levels _ _ _ HE1)).
  destruct (lookup_lt_is_Some_2 (mLevels a2) i ltac:(rewrite HL2; lia)) as [l2 Hl2].
  apply (setLevels_ok i l2); [done|].
  eapply runs_mono; [apply (IH (S i))|].
  - lia.
  - done.
  - cbn. by rewrite length_insert, HL2.
  - done.
  - by apply store_levels.
  - cbn. rewrite Hd2, Hd1. done.
  - intros j l' Hj Hl'. cbn. destruct (decide (j = i)) as [->|Hne].
    + rewrite Hl in Hl'. injection Hl' as <-. apply list_lookup_insert_eq. rewrite HL2. lia.
    + rewrite list_lookup_insert_ne by done. rewrite HL2. apply Hdone; [lia|done].
  - cbn beta. intros _ a' (HS' & Hd' & ? & ?). split; [done|]. split; [|done]. rewrite Hd'. cbn. congruence.
Qed.

(** ** Restarting the merges *)

Section Merges.
Context (n pv maxv : Z).
Hypothesis n_range : 0 <= n <= UINT32_MAX.
Hypothesis pv_max : pv <= maxv.

(** The merge of a level as a snapshot keeps it: dropped, or by its hashes. *)
Definition SavedNext (dir : gmap Z (list BucketEntry)) (i : nat) (fb : FutureBucket) : Prop :=
  fb = clearFuture \/
  match i with
  | O => False
  | S q => snapStart n q < currStart n q /\
      exists a0 fb0 F, bucketDir a0 ⊆ dir /\ FutureOK sha a0 (keepDeadEntries i) fb0 F /\
        GoodFile pv F (if emptyNext n i then currEnd n i else currStart n i) (currStart n q) /\
        fb = loadFuture (saveFuture fb0)
  end.

(** The levels below [i] have their merges again. *)
Definition Restarted (a : App) (i : nat) : Prop :=
  length (mLevels a) = kNumLevels /\
  forall j l, mLevels a !! j = Some l ->
    GoodBucket a pv (mCurr l) (currStart n j) (currEnd n j) /\
    GoodBucket a pv (mSnap l) (snapStart n j) (currStart n j) /\
    if (j <? i)%nat then NextOK a pv n j (mNextCurr l) else SavedNext (bucketDir a) j (mNextCurr l).

Lemma savedNext_grows d d' i fb : d ⊆ d' -> SavedNext d i fb -> SavedNext d' i fb.
Proof using.
  intros Hd [H|H]; [by left|right]. destruct i as [|q]; [done|].
  destruct H as (Hlt & a0 & fb0 & F & H0 & H). split; [done|]. exists a0, fb0, F. split; [by etrans|done].
Qed.

Lemma restarted_set a a' i l fb :
  Restarted a i -> mLevels a !! i = Some l -> Replaced sha a a' i (mkLevel fb (mCurr l) (mSnap l)) ->
  NextOK a' pv n i fb -> Restarted a' (S i).
Proof using.
  intros [Hlen H] Hl HR Hfb. pose proof (replaced_levels sha _ _ _ _ HR) as HL.
  assert (bucketDir a ⊆ bucketDir a') as Hd by exact (ev_dir _ _ _ (proj2 HR)).
  split; [by rewrite HL, length_insert|]. intros j l'. rewrite HL. destruct (decide (j = i)) as [->|Hne].
  - rewrite list_lookup_insert_eq by (by eapply lookup_lt_Some). intros [= <-].
    destruct (H i l Hl) as (Hc & Hs & _). cbn [mCurr mSnap mNextCurr].
    split; [exact (goodBucket_evolves sha st keysAt proto _ _ _ _ _ _ (proj2 HR) Hc)|].
    split; [exact (goodBucket_evolves sha st keysAt proto _ _ _ _ _ _ (proj2 HR) Hs)|].
    by rewrite (proj2 (Nat.ltb_lt _ _)) by lia.
  - rewrite list_lookup_insert_ne by done. intros Hl'. destruct (H j l' Hl') as (Hc & Hs & Hn).
    split; [exact (goodBucket_evolves sha st keysAt proto _ _ _ _ _ _ (proj2 HR) Hc)|].
    split; [exact (goodBucket_evolves sha st keysAt proto _ _ _ _ _ _ (proj2 HR) Hs)|].
    destruct (Nat.ltb_spec j (S i)), (Nat.ltb_spec j i); try lia.
    + exact (next_evolves sha st keysAt proto _ _ _ _ _ _ (proj2 HR) Hn).
    + by apply (savedNext_grows (bucketDir a)).
Qed.

Lemma restarted_skip a i l :
  Restarted a i -> mLevels a !! i = Some l -> NextOK a pv n i (mNextCurr l) -> Restarted a (S i).
Proof using.
  intros [Hlen H] Hl Hn. split; [done|]. intros j l' Hl'. destruct (H j l' Hl') as (Hc & Hs & Hj).
  split; [done|]. split; [done|]. destruct (Nat.ltb_spec j (S i)), (Nat.ltb_spec j i); try done; try lia.
  assert (j = i) as -> by lia. rewrite Hl in Hl'. by injection Hl' as <-.
Qed.

(** Nothing to restart from a level on that was never reached. *)
Lemma restarted_rest a q :
  Restarted a (S q) -> (S q < kNumLevels)%nat -> currStart n q <= snapStart n q -> ListOK a pv n.
Proof using n_range.
  intros [Hlen H] Hq Hle. split; [done|]. intros j l Hl. destruct (H j l Hl) as (Hc & Hs & Hj).
  split; [done|]. split; [done|]. destruct (Nat.ltb_spec j (S q)) as [Hlt|Hge]; [done|].
  destruct j as [|p]; [lia|]. assert (S p < kNumLevels)%nat by (rewrite <- Hlen; by eapply lookup_lt_Some).
  destruct (unspilled_above n q p ltac:(lia) ltac:(lia) Hle ltac:(lia)) as [E1 E2].
  destruct Hj as [->|[? _]]; [|lia]. cbn [NextOK]. by rewrite (proj2 (Z.ltb_ge _ _)) by lia.
Qed.

Lemma goodFile_version pv0 pv1 F lo hi : GoodFile pv0 F lo hi -> fileVersion F <= pv1 -> GoodFile pv1 F lo hi.
Proof using. intros [] H. by split. Qed.

(** A dropped merge is started afresh from the buckets it was made of. *)
Lemma restart_dropped q a l lq count :
  (S q < kNumLevels)%nat -> StoreOK sha a -> mLevels a !! S q = Some l -> mNextCurr l = clearFuture ->
  GoodBucket a pv (mCurr l) (currStart n (S q)) (currEnd n (S q)) ->
  GoodBucket a pv (mSnap lq) (snapStart n q) (currStart n q) -> snapStart n q < currStart n q ->
  runs (prepareLevel sha (S q) (mask n (half q)) (fileVersion (mFile (mSnap lq))) (mSnap lq) [] count)
    (fun _ a' => exists fb, NextOK a' pv n (S q) fb /\ Replaced sha a a' (S q) (mkLevel fb (mCurr l) (mSnap l))) a.
Proof using sha_inj sha_nonzero st_start proto_mono n_range.
  intros Hq HS Hl Hclear Hc Hs Hlt. set (v := fileVersion (mFile (mSnap lq))).
  assert (snapStart n q = currEnd n (S q)) as Esn by (unfold snapStart; by rewrite (proj2 (Nat.eqb_neq _ _)) by lia).
  set (lo := if emptyNext n (S q) then currEnd n (S q) else currStart n (S q)).
  set (curr := if emptyNext n (S q) then emptyBucket else mCurr l).
  destruct (interval_order n (S q) ltac:(lia) Hq) as [_ Hord].
  pose proof (gf_new _ _ _ _ _ _ _ (proj2 Hs) Hlt) as Hv12. pose proof (gf_proto _ _ _ _ _ _ _ (proj2 Hs) Hlt) as Hvp.
  pose proof (gf_version _ _ _ _ _ _ _ (proj2 Hs)) as Hvs.
  assert (0 <= v) as Hv0 by (unfold FIRST_PROTOCOL_SHADOWS_REMOVED in Hv12; unfold v; lia).
  assert (GoodBucket a v curr lo (currEnd n (S q))) as Hcurr.
  { unfold curr, lo. destruct (emptyNext n (S q)); [split; [apply stored_empty|by apply goodFile_empty]|].
    destruct Hc as [Hc HF]. split; [done|]. apply (goodFile_version pv); [done|].
    destruct (decide (currStart n (S q) < currEnd n (S q))) as [H|H].
    - rewrite (gf_proto _ _ _ _ _ _ _ HF H). unfold v. rewrite Hvp. apply proto_mono. lia.
    - rewrite (gf_empty _ _ _ _ _ _ _ HF) by lia. done. }
  destruct Hs as [Hs HFs]. rewrite Esn in HFs, Hlt.
  assert (GoodBucket a v (mSnap lq) (currEnd n (S q)) (currStart n q)) as Hsnap
    by (split; [done|]; by apply (goodFile_version pv)).
  destruct (merge_intervals sha st st_start keysAt proto proto_mono a v count (S q) curr (mSnap lq) lo (currEnd n (S q)) (currStart n q))
    as [Ht HG]; [done|done|unfold lo; destruct (emptyNext n (S q)); lia|done| |].
  { unfold keepDeadEntries, lo. destruct (Nat.ltb_spec (S q) (kNumLevels - 1)); [by left|right].
    assert (S q = kNumLevels - 1)%nat as -> by lia. done. }
  rewrite mask_half by lia. pose proof (half_round n q ltac:(lia)) as Hr.
  assert (curr = if emptyNext (half q * (n / half q)) (S q) then emptyBucket else mCurr l) as Ec
    by (by rewrite emptyNext_start by lia).
  eapply runs_mono.
  - apply (prepare_ok sha sha_inj sha_nonzero (S q) l); [done|done|done|lia|done|done|].
    rewrite <- Ec. exact Ht.
  - cbn beta zeta. rewrite <- Ec. intros _ a' (fb & HF & HR). exists fb. split; [|done]. cbn [NextOK].
    rewrite Esn, (proj2 (Z.ltb_lt _ _) Hlt). eexists. split; [exact HF|].
    apply (goodFile_weaken st keysAt proto v); [|exact HG]. done.
Qed.

Lemma bucket_empty_iff a b lo hi : GoodBucket a pv b lo hi -> mHash b = 0 <-> hi <= lo.
Proof using sha_nonzero.
  intros [Hb HF]. rewrite (stored_hash sha sha_nonzero _ _ Hb). split.
  - intros ->. destruct (decide (lo < hi)) as [H|H]; [|lia]. pose proof (gf_new _ _ _ _ _ _ _ HF H) as Hn. done.
  - intros H. apply (stored_nil sha (bucketDir a)); [done|]. by apply (gf_empty _ _ _ _ _ _ _ HF).
Qed.

Lemma restartFrom_ok reduceCounts todo i a :
  (i + todo = kNumLevels)%nat -> StoreOK sha a -> Restarted a i ->
  runs (restartFrom sha reduceCounts todo i maxv n) (fun _ a' => StoreOK sha a' /\ ListOK a' pv n) a.
Proof using sha_inj sha_nonzero st_start proto_mono n_range pv_max.
  revert i a. induction todo as [|todo IH]; intros i a Hi HS HR.
  { apply runs_ret. split; [done|]. destruct HR as [Hlen H]. split; [done|]. intros j l Hl.
    pose proof (H j l Hl) as (? & ? & Hj). apply lookup_lt_Some in Hl. by rewrite (proj2 (Nat.ltb_lt _ _)) in Hj by lia. }
  cbn [restartFrom]. destruct (lookup_lt_is_Some_2 (mLevels a) i ltac:(rewrite (proj1 HR); lia)) as [l Hl].
  apply runs_bind, (levelAt_ok i l); [done|]. destruct (proj2 HR i l Hl) as (Hc & Hs & Hn).
  rewrite Nat.ltb_irrefl in Hn. destruct Hn as [Hn|Hn].
  - rewrite Hn. cbn [hasHashes isLive isClear clearFuture mState bool_decide andb orb]. destruct i as [|q].
    { apply IH; [lia|done|]. by apply (restarted_skip a 0 l). }
    destruct (lookup_lt_is_Some_2 (mLevels a) q ltac:(rewrite (proj1 HR); lia)) as [lq Hlq].
    apply runs_bind, (levelAt_ok q lq); [done|]. destruct (proj2 HR q lq Hlq) as (_ & Hsq & _).
    destruct (Z.eqb_spec (mHash (mSnap lq)) 0) as [E|E].
    { apply runs_ret. split; [done|]. apply (restarted_rest a q); [done|lia|]. by apply (bucket_empty_iff a (mSnap lq)). }
    assert (snapStart n q < currStart n q) as Hlt.
    { apply Z.lt_nge. intros H. by apply E, (bucket_empty_iff a _ _ _ Hsq). }
    rewrite version_ok by apply (proj2 Hsq). apply runs_bind, runs_lift.
    pose proof (gf_new _ _ _ _ _ _ _ (proj2 Hsq) Hlt) as Hv12.
    unfold protocolVersionIsBefore. rewrite (proj2 (Z.ltb_ge _ _) Hv12).
    rewrite levelHalf_ok by lia. apply runs_bind, runs_lift, runs_bind.
    eapply runs_mono; [by apply (restart_dropped q a l lq); try done; lia|]. cbn beta.
    intros _ a' (fb & Hfb & HRep). apply IH; [lia|apply HRep|]. by apply (restarted_set a a' (S q) l fb).
  - destruct i as [|q]; [done|]. destruct Hn as (Hlt & a0 & fb0 & F & Hd & HF & HG & Hfb).
    destruct (interval_order n (S q) ltac:(lia) ltac:(lia)) as [_ Hord].
    assert (snapStart n q = currEnd n (S q)) as Esn by (unfold snapStart; by rewrite (proj2 (Nat.eqb_neq _ _)) by lia).
    assert ((if emptyNext n (S q) then currEnd n (S q) else currStart n (S q)) < currStart n q) as Hlo
      by (destruct (emptyNext n (S q)); lia).
    pose proof (gf_new _ _ _ _ _ _ _ HG Hlo) as Hv12. pose proof (gf_version _ _ _ _ _ _ _ HG) as Hvp.
    assert (hasHashes (mNextCurr l) && negb (isLive (mNextCurr l)) = true) as ->
      by (rewrite Hfb; by destruct HF as [(? & ? & ? & -> & _)|(? & -> & _)]).
    rewrite Hfb. apply runs_bind. eapply runs_mono.
    { apply (makeLive_ok fb0 F maxv (S q) a0); [done|done|done|].
      unfold FIRST_PROTOCOL_SHADOWS_REMOVED, FIRST_PROTOCOL_SUPPORTING_INITENTRY_AND_METAENTRY in *. lia. }
    cbn beta. intros fb a1 (HS1 & HE1 & HF1). apply runs_bind. unfold setNext.
    apply runs_bind, (levelAt_ok (S q) l); [by rewrite (ev_levels _ _ _ HE1)|]. apply runs_modify.
    apply IH; [lia|by apply store_levels|]. apply (restarted_set a _ (S q) l fb); [done|done| |].
    + split; [by apply store_levels|by apply evolves_levels].
    + cbn [NextOK]. rewrite (proj2 (Z.ltb_lt _ _) Hlt). exists F. split; [exact HF1|exact HG].
Qed.

(** ** Restoring a list *)

Lemma next_saved d a0 j fb :
  NextOK a0 pv n j fb -> bucketDir a0 ⊆ d -> SavedNext d j (loadFuture (saveFuture fb)).
Proof using.
  intros H Hd. destruct j as [|q]; cbn [NextOK] in H; [left; by rewrite H|].
  destruct (Z.ltb_spec (snapStart n q) (currStart n q)) as [Hlt|]; [|left; by rewrite H].
  destruct H as (F & HF & HG). right. split; [done|]. by exists a0, fb, F.
Qed.

Lemma assumeState_ok reduceCounts has next a0 a :
  ListOK a0 pv n -> StoreOK sha a -> length (mLevels a) = kNumLevels ->
  currentLedger has = n -> Names has (mLevels a0) next ->
  (forall j l, mLevels a0 !! j = Some l ->
     Stored sha (bucketDir a) (mCurr l) /\ Stored sha (bucketDir a) (mSnap l) /\ SavedNext (bucketDir a) j (next j)) ->
  runs (assumeState sha reduceCounts has maxv) (fun _ a' => StoreOK sha a' /\ ListOK a' pv n) a.
Proof using sha_inj sha_nonzero st_start proto_mono n_range pv_max.
  intros [Hlen0 HL0] HS Hlen Hn Hnames Hst. unfold assumeState. rewrite Hn. apply runs_bind. eapply runs_mono.
  { apply (assumeLevels_ok kNumLevels 0 has (mLevels a0) next); try done; [|lia].
    intros j l Hl. destruct (Hst j l Hl) as (? & ? & _). done. }
  cbn beta. intros _ a1 (HS1 & Hd1 & Hlen1 & HL1). unfold restartMerges. apply runs_bind, runs_get. rewrite Hlen1.
  apply restartFrom_ok; [done|done|]. split; [done|]. intros j l Hl.
  destruct (lookup_lt_is_Some_2 (mLevels a0) j) as [l0 Hl0].
  { rewrite Hlen0, <- Hlen1. by eapply lookup_lt_Some. }
  rewrite (HL1 j l0 Hl0) in Hl. injection Hl as <-. destruct (Hst j l0 Hl0) as (Hc & Hs & Hnx).
  destruct (HL0 j l0 Hl0) as ([_ Fc] & [_ Fs] & _). rewrite <- Hd1 in Hc, Hs, Hnx.
  split; [by split|]. split; [by split|done].
Qed.

End Merges.

End Restart.
