(* ===== verification/HistoryArchiveSpec.v ===== *)
(** * Published snapshots are valid and complete

    A snapshot of a bucket list that satisfies the invariant is prepared for
    publication without failing, loses its merges and passes the check an archive's
    reader makes; the buckets it differs in from another snapshot are all a reader of
    the other one lacks. *)

From stdpp Require Import base list gmap sets strings sorting.
From S2P Require Import Prelude Exchange Entries BucketEntries Bucket BucketMerge BucketSpec BucketLevels BucketManager BucketStore BucketList HistoryArchive BucketListInv BucketRestart.

Local Open Scope Z_scope.

#[local] Arguments wp : simpl never.
#[local] Arguments runs : simpl never.
#[local] Arguments currStart : simpl never.
#[local] Arguments currEnd : simpl never.
#[local] Arguments snapStart : simpl never.
#[local] Arguments kNumLevels : simpl never.

(** A snapshot without its merges. *)
Definition clearedHAS (has : HistoryArchiveState) : HistoryArchiveState :=
  mkHAS (currentLedger has) (setNextOf clearFuture <$> currentBuckets has).

(** ** The buckets another snapshot does not have *)

Lemma addDiffering_ok acc j :
  (forall x, x ∈ (addDiffering acc j).1 <-> x = j \/ x ∈ acc.1) /\
  (forall x, x ∈ (addDiffering acc j).2 <-> x ∈ acc.2 \/ (x = j /\ j ∉ acc.1)).
Proof.
  unfold addDiffering. destruct (bool_decide_reflect (j ∈ acc.1)) as [H|H]; cbn; split; intros x.
  - split; [by right|]. by intros [->|].
  - split; [by left|]. by intros [|[_ ?]].
  - rewrite elem_of_union, elem_of_singleton. done.
  - rewrite elem_of_app, list_elem_of_singleton. naive_solver.
Qed.

(** The accumulated list holds, each once, what is wanted and was not there. *)
Record Collected (inhibit : gset Z) (wanted : list Z) (acc : gset Z * list Z) : Prop := {
  col_set x : x ∈ acc.1 <-> x ∈ inhibit \/ x ∈ wanted;
  col_list x : x ∈ acc.2 <-> x ∉ inhibit /\ x ∈ wanted;
  col_nodup : NoDup acc.2
}.

Lemma collected_add inhibit wanted acc j :
  Collected inhibit wanted acc -> Collected inhibit (wanted ++ [j]) (addDiffering acc j).
Proof.
  intros [H1 H2 H3]. destruct (addDiffering_ok acc j) as [A1 A2]. split.
  - intros x. rewrite A1, H1, elem_of_app, list_elem_of_singleton. naive_solver.
  - intros x. rewrite A2, H2, elem_of_app, list_elem_of_singleton, H1. split.
    + intros [[? ?]|[-> Hn]]; [by auto|]. split; [|by right]. intros ?. apply Hn. by left.
    + intros [Hn [Hx| ->]]; [by auto|]. destruct (decide (j ∈ wanted)); [by auto|]. right. split; [done|]. by intros [?|?].
  - unfold addDiffering. destruct (bool_decide_reflect (j ∈ acc.1)) as [H|H]; cbn; [done|].
    apply NoDup_app. split; [done|]. split; [|apply NoDup_singleton]. intros x Hx ->%list_elem_of_singleton.
    apply H, H1. right. by apply H2.
Qed.

(** The buckets a level of a snapshot refers to. *)
Definition levelHashes (h : HistoryStateBucket) : list Z :=
  [hsb_snap h;
   match hasOutputHash (hsb_next h), mOutputBucketHash (hsb_next h) with
   | inr true, Some o => o
   | _, _ => hsb_snap h
   end; hsb_curr h].

(** A future that is finished names its output. *)
Definition namesOutput (h : HistoryStateBucket) : Prop :=
  mState (hsb_next h) = FB_LIVE_OUTPUT \/ mState (hsb_next h) = FB_HASH_OUTPUT ->
  is_Some (mOutputBucketHash (hsb_next h)).

Lemma output_cases h :
  namesOutput h ->
  (let* out := hasOutputHash (hsb_next h) in
   if out : bool then getOutputHash (hsb_next h) else mret (hsb_snap h)) =
  inr (match hasOutputHash (hsb_next h), mOutputBucketHash (hsb_next h) with
       | inr true, Some o => o
       | _, _ => hsb_snap h
       end).
Proof.
  unfold namesOutput, hasOutputHash, getOutputHash. destruct (mState (hsb_next h)); cbn; intros H; try done;
    destruct H as [o Ho]; auto; rewrite Ho; done.
Qed.

Lemma differingFrom_ok has i inhibit wanted acc :
  (i <= length (currentBuckets has))%nat -> Forall namesOutput (currentBuckets has) ->
  Collected inhibit wanted acc ->
  exists acc', differingFrom i has acc = inr acc'.2 /\
    Collected inhibit (wanted ++ (reverse (take i (currentBuckets has)) ≫= levelHashes)) acc'.
Proof.
  revert wanted acc. induction i as [|i IH]; intros wanted acc Hi Hn Hc.
  { exists acc. split; [done|]. cbn. by rewrite app_nil_r. }
  cbn [differingFrom]. destruct (lookup_lt_is_Some_2 (currentBuckets has) i ltac:(lia)) as [h Hh].
  unfold bucketsIndex. rewrite Hh. cbn [bnd mbind exc_bind mret exc_ret].
  assert (namesOutput h) as Hh'. { rewrite Forall_forall in Hn. apply Hn. by eapply list_elem_of_lookup_2. }
  pose proof (output_cases h Hh') as Ho. destruct (hasOutputHash (hsb_next h)) as [|out] eqn:Eo; [done|].
  cbn [bnd mbind exc_bind] in Ho |- *. rewrite Ho. cbn [bnd mbind exc_bind].
  destruct (IH (wanted ++ levelHashes h) (foldl addDiffering acc (levelHashes h)) ltac:(lia) Hn) as (acc' & E & Hacc').
  { unfold levelHashes. cbn [foldl]. rewrite (cons_middle (hsb_snap h)), app_assoc.
    match goal with |- Collected _ (_ ++ [?y; ?z]) _ => change [y; z] with ([y] ++ [z]) end.
    rewrite app_assoc. by repeat apply collected_add. }
  exists acc'. split.
  - rewrite <- E. unfold levelHashes. by rewrite Eo.
  - rewrite (take_S_r _ _ _ Hh), reverse_app. cbn. by rewrite <- app_assoc in Hacc'.
Qed.

Lemma inhibited_ok sha bs inhibit a :
  Forall (fun b => isLive (hsb_next b) = false) bs -> Forall namesOutput bs ->
  exists inhibit', inhibited sha bs inhibit a = Ok inhibit' a /\
    forall x, x ∈ inhibit' <-> x ∈ inhibit \/ x ∈ (bs ≫= levelHashes).
Proof.
  revert inhibit. induction bs as [|b bs IH]; intros inhibit Hl Hn.
  { exists inhibit. split; [done|]. intros x. rewrite elem_of_nil. naive_solver. }
  apply Forall_cons in Hl as [Hb Hl], Hn as [Hnb Hn]. cbn [inhibited]. rewrite Hb.
  pose proof (output_cases b Hnb) as Ho.
  set (o := match hasOutputHash (hsb_next b), mOutputBucketHash (hsb_next b) with
            | inr true, Some o => o | _, _ => hsb_snap b end) in Ho.
  destruct (IH ({[hsb_snap b]} ∪ ({[o]} ∪ ({[hsb_curr b]} ∪ inhibit))) Hl Hn) as (s & E & Hs).
  exists s. split.
  - unfold bnd, mbind, M_bind, lift, mret, M_ret. destruct (hasOutputHash (hsb_next b)) as [|[]]; [done|..].
    + cbn [bnd mbind exc_bind] in Ho. rewrite Ho. exact E.
    + rewrite <- E. f_equal. assert (o = hsb_snap b) as -> by done. apply set_eq. intros x.
      rewrite !elem_of_union. naive_solver.
  - intros x. rewrite Hs, !elem_of_union, !elem_of_singleton. cbn. fold o.
    rewrite !elem_of_cons. naive_solver.
Qed.

(** ** Publication *)

Section Publication.
Context (sha : list BucketEntry -> Z).
Hypothesis sha_inj : forall l l', sha l = sha l' -> l = l'.
Hypothesis sha_nonzero : forall l, sha l <> 0.
Context (st : Z -> gmap LedgerKey LedgerEntry).
Context (keysAt : Z -> list LedgerKey) (proto : Z -> Z).
Hypothesis proto_mono : forall i j, i <= j -> proto i <= proto j.
Context (n pv : Z) (a0 : App).
Hypothesis n_range : 0 <= n.

Notation GoodBucket := (GoodBucket sha st keysAt proto).
Notation NextOK := (NextOK sha st keysAt proto).
Notation ListOK := (ListOK sha st keysAt proto).

Hypothesis list_ok : ListOK a0 pv n.

Lemma level_there i : (i < kNumLevels)%nat -> exists l, mLevels a0 !! i = Some l.
Proof using list_ok. intros Hi. apply lookup_lt_is_Some_2. rewrite (proj1 list_ok). done. Qed.

Lemma cleared_names : Names (clearedHAS (makeHAS n (mLevels a0))) (mLevels a0) (fun _ => clearFuture).
Proof using. intros i l Hl. cbn. by rewrite !list_lookup_fmap, Hl. Qed.

(** The merges up to level [i] are dropped. *)
Definition Dropped (i : nat) (has : HistoryArchiveState) : Prop :=
  currentLedger has = n /\ length (currentBuckets has) = kNumLevels /\
  Names has (mLevels a0) (fun j => match mLevels a0 !! j with
                                   | Some l => if (j <? i)%nat then clearFuture else mNextCurr l
                                   | None => clearFuture
                                   end).

Lemma dropped_all has : Dropped kNumLevels has -> has = clearedHAS (makeHAS n (mLevels a0)).
Proof using list_ok.
  intros (Hn & Hlen & H). destruct has as [ledger bs]. cbn in Hn, Hlen. subst ledger. unfold clearedHAS. f_equal.
  apply (list_eq_same_length _ _ kNumLevels); [cbn; by rewrite !length_fmap, (proj1 list_ok)|done|].
  intros i x y Hi Hx Hy. destruct (level_there i Hi) as [l Hl]. cbn in Hx, Hy.
  rewrite !list_lookup_fmap, Hl in Hy. specialize (H i l Hl). cbn beta in H. cbn [currentBuckets] in H. rewrite Hl, (proj2 (Nat.ltb_lt _ _) Hi) in H.
  rewrite H in Hx. cbn in Hy. by simplify_eq.
Qed.

Lemma dropped_step i has h :
  (i < kNumLevels)%nat -> Dropped i has -> currentBuckets has !! i = Some h ->
  Dropped (S i) (mkHAS (currentLedger has) (<[i := setNextOf clearFuture h]> (currentBuckets has))).
Proof using.
  intros Hi (Hn & Hlen & H) Hh. split; [done|]. split; [cbn; by rewrite length_insert|]. intros j l Hl.
  specialize (H j l Hl). cbn beta in H |- *. cbn [currentBuckets]. rewrite Hl in H |- *. destruct (decide (j = i)) as [->|Hne].
  - rewrite list_lookup_insert_eq by lia. rewrite (proj2 (Nat.ltb_lt _ _)) by lia.
    rewrite Hh in H. injection H as ->. done.
  - rewrite list_lookup_insert_ne by done. rewrite H.
    destruct (Nat.ltb_spec j (S i)), (Nat.ltb_spec j i); try done; lia.
Qed.

Lemma prepareFrom_ok maxv todo i has a :
  (1 <= i)%nat -> (i + todo = kNumLevels)%nat -> Dropped i has -> StoreOK sha a -> Evolves sha a0 a ->
  grows sha (prepareFrom sha maxv todo i has) (fun has' _ => has' = clearedHAS (makeHAS n (mLevels a0))) a.
Proof using sha_inj sha_nonzero list_ok.
  revert i has a. induction todo as [|todo IH]; intros i has a Hi1 Hi HD HS HE.
  { apply grows_ret; [done|]. apply dropped_all. by replace kNumLevels with i by lia. }
  cbn [prepareFrom]. destruct i as [|q]; [lia|]. destruct (level_there (S q) ltac:(lia)) as [l Hl].
  destruct (level_there q ltac:(lia)) as [lq Hlq]. pose proof HD as (_ & _ & H).
  pose proof (H (S q) l Hl) as Hh. pose proof (H q lq Hlq) as Hhq. cbn beta in Hh, Hhq. rewrite Hl, Nat.ltb_irrefl in Hh.
  unfold bucketsIndex. rewrite Hh. apply runs_bind, runs_lift. replace (S q - 1)%nat with q by lia.
  rewrite Hhq. apply runs_bind, runs_lift. cbn [hsb_snap hsb_next].
  destruct (proj2 list_ok q lq Hlq) as (_ & [Hs HF] & _). destruct (proj2 list_ok (S q) l Hl) as (_ & _ & Hnx).
  eapply grows_bind; [apply (getBucketByHash_stored sha sha_inj sha_nonzero (mSnap lq)); [done|by apply (evolves_stored sha a0)]|].
  cbn beta. intros r a1 HS1 HE1 (-> & Hd1 & Hf1).
  assert (Evolves sha a0 a1) as HE01 by (by eapply evolves_trans).
  assert (grows sha (prepareFrom sha maxv todo (S (S q))
            (mkHAS (currentLedger has) (<[S q := setNextOf clearFuture (mkHSB (mHash (mCurr l)) (mNextCurr l) (mHash (mSnap l)))]>
               (currentBuckets has)))) (fun has' _ => has' = clearedHAS (makeHAS n (mLevels a0))) a1) as Hrest.
  { apply IH; [lia|lia|by apply dropped_step; [lia|..]|done|done]. }
  cbn [BucketListInv.NextOK] in Hnx. destruct (Z.ltb_spec (snapStart n q) (currStart n q)) as [Hlt|Hge].
  - destruct Hnx as (F & HFut & _). 
    assert (isClear (mNextCurr l) = false) as -> by (by destruct HFut as [(? & ? & ? & -> & _)|(? & -> & _)]).
    apply runs_bind, runs_bind, runs_deref. rewrite version_ok by apply HF. apply runs_bind, runs_lift, runs_ret.
    unfold protocolVersionStartsFrom. rewrite (proj2 (Z.leb_le _ _)) by (by apply (gf_new _ _ _ _ _ _ _ HF)).
    apply runs_bind, runs_ret. exact Hrest.
  - rewrite Hnx in Hrest |- *. apply runs_bind, runs_ret, runs_bind, runs_ret. exact Hrest.
Qed.

Lemma prepareForPublish_ok maxv a :
  StoreOK sha a -> Evolves sha a0 a ->
  grows sha (prepareForPublish sha maxv (makeHAS n (mLevels a0))) (fun has' _ => has' = clearedHAS (makeHAS n (mLevels a0))) a.
Proof using sha_inj sha_nonzero list_ok.
  intros HS HE. unfold prepareForPublish. destruct (level_there 0 ltac:(unfold kNumLevels; lia)) as [l Hl].
  unfold bucketsIndex. cbn [makeHAS currentBuckets]. rewrite list_lookup_fmap, Hl. apply runs_bind, runs_lift.
  destruct (proj2 list_ok 0%nat l Hl) as (_ & _ & Hnx). cbn in Hnx |- *. rewrite Hnx.
  apply runs_bind, runs_assert; [done|].
  apply prepareFrom_ok; [lia|unfold kNumLevels; lia| |done|done].
  split; [done|]. split; [cbn; by rewrite length_fmap, (proj1 list_ok)|].
  intros j l' Hl'. cbn. rewrite list_lookup_fmap, Hl'. cbn. destruct j as [|j]; [|done].
  rewrite Hl in Hl'. injection Hl' as <-. by rewrite Hnx.
Qed.

(** ** The check of a published snapshot *)

(** The version of the bucket that ends before a ledger. *)
Definition versionAt (b : Z) : Z := if 1 <? b then proto (b - 1) else 0.

Lemma processBucket_ok b lo hi seen a :
  StoreOK sha a -> GoodBucket a pv b lo hi -> lo < hi \/ hi = 1 -> 1 <= lo <= hi ->
  grows sha (processBucket (mHash b) seen)
    (fun r _ => r = (versionAt hi, seen || (1 <? hi)) /\ (lo < hi -> FIRST_PROTOCOL_SHADOWS_REMOVED <= versionAt hi)) a.
Proof using sha_inj sha_nonzero.
  intros HS HG Hlt Hlo. pose proof (bucket_empty_iff sha sha_nonzero st keysAt proto pv a b lo hi HG) as Hempty.
  destruct HG as [Hb HF]. unfold processBucket.
  eapply grows_bind; [by apply (getBucketByHash_stored sha sha_inj sha_nonzero b)|].
  cbn beta. intros r a1 HS1 HE1 (-> & _). apply runs_bind, runs_assert; [done|]. apply runs_bind, runs_deref.
  unfold versionAt. destruct (Z.eqb_spec (mHash b) 0) as [E|E].
  - apply Hempty in E. assert (hi = 1 /\ lo = 1) as [-> ->] by lia. apply grows_ret; [done|].
    split; [by rewrite orb_false_r|lia].
  - assert (lo < hi) as H by (apply Z.lt_nge; intros ?; by apply E, Hempty).
    rewrite version_ok by apply HF. apply runs_bind, runs_lift, grows_ret; [done|].
    rewrite <- (gf_proto _ _ _ _ _ _ _ HF H), (proj2 (Z.ltb_lt 1 hi)) by lia. split; [by rewrite orb_true_r|].
    intros _. by apply (gf_new _ _ _ _ _ _ _ HF).
Qed.

Lemma versionAt_mono b b' : 1 <= b <= b' -> (b < b' -> 0 <= versionAt b') -> versionAt b <= versionAt b'.
Proof using proto_mono.
  intros H H0. unfold versionAt in *. destruct (Z.ltb_spec 1 b), (Z.ltb_spec 1 b'); try lia. apply proto_mono. lia.
Qed.

(** Where the curr of a level and the snap of the one below end. *)
Definition oldEnd (i : nat) : Z := match i with O => n + 1 | S q => snapStart n q end.

Lemma oldEnd_curr i : (i < kNumLevels)%nat -> oldEnd i = currEnd n i.
Proof using. destruct i as [|q]; [done|]. intros Hi. cbn. unfold snapStart. by rewrite (proj2 (Nat.eqb_neq _ _)) by lia. Qed.

(** Each of the two buckets of a level is filled or nothing is older. *)
Lemma level_filled i :
  (i < kNumLevels)%nat -> 1 <= snapStart n i <= currStart n i /\ currStart n i <= oldEnd i /\
  (snapStart n i < currStart n i \/ currStart n i = 1) /\ (currStart n i < oldEnd i \/ oldEnd i = 1).
Proof using n_range.
  intros Hi. destruct (interval_order n i n_range Hi) as [H1 H2]. rewrite oldEnd_curr by done.
  destruct (decide (i = kNumLevels - 1)%nat) as [->|Hne].
  - assert (currStart n (kNumLevels - 1) = 1 /\ snapStart n (kNumLevels - 1) = 1) as [E1 E2] by done. lia.
  - pose proof (snap_filled n i n_range ltac:(lia)) as Hf. destruct (decide (1 < currStart n i)) as [H|H].
    + pose proof (curr_filled n i n_range ltac:(lia) H). lia.
    + lia.
Qed.

(** A node that has the buckets of the list. *)
Definition Holding (a : App) : Prop :=
  forall i l, mLevels a0 !! i = Some l ->
    GoodBucket a pv (mCurr l) (currStart n i) (currEnd n i) /\
    GoodBucket a pv (mSnap l) (snapStart n i) (currStart n i).

Lemma holding_evolves a a' : Evolves sha a a' -> Holding a -> Holding a'.
Proof using.
  intros HE H i l Hl. destruct (H i l Hl). split; by apply (goodBucket_evolves sha st keysAt proto a).
Qed.

Lemma validFromLevel_ok j seen a :
  (j <= kNumLevels)%nat -> StoreOK sha a -> Holding a ->
  (seen = true -> exists i, j = S i /\ 1 < currStart n i) ->
  grows sha (validFromLevel j (clearedHAS (makeHAS n (mLevels a0))) (versionAt (oldEnd j)) seen) (fun r _ => r = true) a.
Proof using All.
  revert seen a. induction j as [|i IH]; intros seen a Hj HS HE Hseen; [by apply grows_ret|]. cbn [validFromLevel].
  assert (seen = true -> 1 < currStart n i) as Hseen' by (intros (? & [= <-] & ?)%Hseen; done).
  destruct (level_there i Hj) as [l Hl]. unfold bucketsIndex at 1. rewrite (cleared_names i l Hl).
  apply runs_bind, runs_lift. cbn [hsb_curr hsb_snap hsb_next]. destruct (level_filled i Hj) as (Ho1 & Ho2 & Hf1 & Hf2). cbn [oldEnd].
  destruct (HE i l Hl) as [_ Hs].
  eapply grows_bind; [by apply (processBucket_ok (mSnap l) (snapStart n i) (currStart n i))|].
  cbn beta. intros [v1 s1] a1 HS1 HE1 [[= -> ->] Hv1]. pose proof (holding_evolves _ _ HE1 HE) as HE01.
  rewrite (proj2 (Z.ltb_ge _ _)) by (apply versionAt_mono; [lia|intros H; specialize (Hv1 H); revert Hv1; apply Z.le_trans; done]).
  destruct (HE01 i l Hl) as [Hc _]. rewrite <- oldEnd_curr in Hc by done.
  eapply grows_bind; [apply (processBucket_ok (mCurr l) (currStart n i) (oldEnd i)); try done; lia|].
  cbn beta. intros [v2 s2] a2 HS2 HE2 [[= -> ->] Hv2]. pose proof (holding_evolves _ _ HE2 HE01) as HE02.
  rewrite (proj2 (Z.ltb_ge _ _)) by (apply versionAt_mono; [lia|intros H; specialize (Hv2 H); revert Hv2; apply Z.le_trans; done]).
  destruct i as [|q]; [by apply grows_ret|].
  destruct (level_there q ltac:(lia)) as [lq Hlq]. unfold bucketsIndex at 1. rewrite (cleared_names q lq Hlq).
  apply runs_bind, runs_lift. cbn [hsb_snap]. destruct (HE02 q lq Hlq) as [_ Hsq].
  destruct (level_filled q ltac:(lia)) as (Hq1 & _ & Hqf & _).
  eapply grows_bind; [by apply (processBucket_ok (mSnap lq) (snapStart n q) (currStart n q))|].
  cbn beta. intros [v3 s3] a3 HS3 HE3 [[= -> ->] Hv3]. pose proof (holding_evolves _ _ HE3 HE02) as HE03.
  cbn [oldEnd] in Ho2. set (seen' := _ || (1 <? currStart n q)).
  assert (seen' = true -> 1 < currStart n q) as Hs'.
  { unfold seen'. rewrite !orb_true_iff, !Z.ltb_lt. cbn [oldEnd]. intros [[[H|H]|H]|H]; [specialize (Hseen' H)|..]; lia. }
  assert (grows sha (validFromLevel (S q) (clearedHAS (makeHAS n (mLevels a0))) (versionAt (oldEnd (S q))) seen')
    (fun r _ => r = true) a3) as Hrest by (apply IH; [lia|done|done|]; intros H; exists q; auto).
  destruct seen'; cbn [negb]; [|exact Hrest]. specialize (Hs' eq_refl). specialize (Hv3 ltac:(lia)).
  unfold protocolVersionStartsFrom. rewrite (proj2 (Z.leb_le _ _) Hv3). exact Hrest.
Qed.

Lemma containsValidBuckets_ok a :
  StoreOK sha a -> Holding a ->
  grows sha (containsValidBuckets (clearedHAS (makeHAS n (mLevels a0)))) (fun r _ => r = true) a.
Proof using All. intros HS HE. exact (validFromLevel_ok kNumLevels false a (le_n _) HS HE ltac:(done)). Qed.

End Publication.
