(* ===== verification/BucketHash.v ===== *)
(** * Encoding buckets as numbers

    The records of a bucket are countable, so there is a function from files to
    positive numbers without collisions: what is asked of SHA-256 can be had. *)

From stdpp Require Import base list gmap strings countable.
From S2P Require Import Prelude Exchange Entries BucketEntries.

Local Open Scope Z_scope.

(** ** Claim predicates are trees *)

Fixpoint predEnc (p : ClaimPredicate) : gen_tree (Z * Z) :=
  match p with
  | CLAIM_PREDICATE_UNCONDITIONAL => GenLeaf (0, 0)
  | CLAIM_PREDICATE_AND l => GenNode 1 (predEnc <$> l)
  | CLAIM_PREDICATE_OR l => GenNode 2 (predEnc <$> l)
  | CLAIM_PREDICATE_NOT None => GenNode 3 []
  | CLAIM_PREDICATE_NOT (Some p) => GenNode 3 [predEnc p]
  | CLAIM_PREDICATE_BEFORE_ABSOLUTE_TIME t => GenLeaf (1, t)
  | CLAIM_PREDICATE_BEFORE_RELATIVE_TIME t => GenLeaf (2, t)
  end.

Fixpoint predDec (t : gen_tree (Z * Z)) : ClaimPredicate :=
  match t with
  | GenLeaf (0, _) => CLAIM_PREDICATE_UNCONDITIONAL
  | GenLeaf (1, t) => CLAIM_PREDICATE_BEFORE_ABSOLUTE_TIME t
  | GenLeaf (_, t) => CLAIM_PREDICATE_BEFORE_RELATIVE_TIME t
  | GenNode 1 l => CLAIM_PREDICATE_AND (predDec <$> l)
  | GenNode 2 l => CLAIM_PREDICATE_OR (predDec <$> l)
  | GenNode _ [] => CLAIM_PREDICATE_NOT None
  | GenNode _ (t :: _) => CLAIM_PREDICATE_NOT (Some (predDec t))
  end.

Lemma pred_round : forall p, predDec (predEnc p) = p.
Proof.
  fix IH 1. intros [|l|l|[p|]|t|t]; cbn; try reflexivity.
  - f_equal. induction l as [|x l IHl]; cbn; [reflexivity|]. f_equal; [apply IH|apply IHl].
  - f_equal. induction l as [|x l IHl]; cbn; [reflexivity|]. f_equal; [apply IH|apply IHl].
  - by rewrite IH.
Qed.

#[export] Instance ClaimPredicate_eq_dec : EqDecision ClaimPredicate.
Proof.
  intros p q. destruct (decide (predEnc p = predEnc q)) as [E|E]; [left|right; congruence].
  by rewrite <- (pred_round p), E, pred_round.
Defined.
#[export] Instance ClaimPredicate_countable : Countable ClaimPredicate.
Proof. apply (inj_countable' predEnc predDec), pred_round. Defined.

(** ** The parts of entries *)

Ltac by_fields enc dec := apply (inj_countable' enc dec); by intros [].

#[export] Instance Price_eq_dec : EqDecision Price.
Proof. solve_decision. Defined.
#[export] Instance Price_countable : Countable Price.
Proof. by_fields (fun p => (price_n p, price_d p)) (fun '(a, b) => mkPrice a b). Defined.
#[export] Instance Liabilities_eq_dec : EqDecision Liabilities.
Proof. solve_decision. Defined.
#[export] Instance Liabilities_countable : Countable Liabilities.
Proof. by_fields (fun l => (liab_buying l, liab_selling l)) (fun '(a, b) => mkLiabilities a b). Defined.

#[export] Instance SignerKey_eq_dec : EqDecision SignerKey.
Proof. solve_decision. Defined.
#[export] Instance SignerKey_countable : Countable SignerKey.
Proof.
  apply (inj_countable'
    (fun k => match k with
              | SIGNER_KEY_TYPE_ED25519 k => (0%nat, k, [])
              | SIGNER_KEY_TYPE_PRE_AUTH_TX h => (1%nat, h, [])
              | SIGNER_KEY_TYPE_HASH_X h => (2%nat, h, [])
              | SIGNER_KEY_TYPE_ED25519_SIGNED_PAYLOAD k l => (3%nat, k, l)
              end)
    (fun '(t, k, l) => match t with
                       | 0%nat => SIGNER_KEY_TYPE_ED25519 k
                       | 1%nat => SIGNER_KEY_TYPE_PRE_AUTH_TX k
                       | 2%nat => SIGNER_KEY_TYPE_HASH_X k
                       | _ => SIGNER_KEY_TYPE_ED25519_SIGNED_PAYLOAD k l
                       end)). by intros [].
Defined.
#[export] Instance Signer_eq_dec : EqDecision Signer.
Proof. solve_decision. Defined.
#[export] Instance Signer_countable : Countable Signer.
Proof. by_fields (fun s => (signer_key s, signer_weight s)) (fun '(a, b) => mkSigner a b). Defined.

#[export] Instance AccountV3_eq_dec : EqDecision AccountEntryExtensionV3.
Proof. solve_decision. Defined.
#[export] Instance AccountV3_countable : Countable AccountEntryExtensionV3.
Proof. by_fields (fun s => (seqLedger s, seqTime s)) (fun '(a, b) => mkAccountV3 a b). Defined.
#[export] Instance AccountV2_eq_dec : EqDecision AccountEntryExtensionV2.
Proof. solve_decision. Defined.
#[export] Instance AccountV2_countable : Countable AccountEntryExtensionV2.
Proof.
  by_fields (fun s => (numSponsored s, numSponsoring s, signerSponsoringIDs s, v2_ext s))
    (fun '(a, b, c, d) => mkAccountV2 a b c d).
Defined.
#[export] Instance AccountV1_eq_dec : EqDecision AccountEntryExtensionV1.
Proof. solve_decision. Defined.
#[export] Instance AccountV1_countable : Countable AccountEntryExtensionV1.
Proof. by_fields (fun s => (v1_liabilities s, v1_ext s)) (fun '(a, b) => mkAccountV1 a b). Defined.
#[export] Instance AccountEntry_eq_dec : EqDecision AccountEntry.
Proof. solve_decision. Defined.
#[export] Instance AccountEntry_countable : Countable AccountEntry.
Proof.
  by_fields (fun s => (acc_accountID s, acc_balance s, acc_seqNum s, acc_numSubEntries s, acc_inflationDest s,
                        acc_flags s, acc_homeDomain s, acc_thresholds s, acc_signers s, acc_ext s))
    (fun '(a, b, c, d, e, f, g, h, i, j) => mkAccount a b c d e f g h i j).
Defined.

#[export] Instance TrustLineV2_eq_dec : EqDecision TrustLineEntryExtensionV2.
Proof. solve_decision. Defined.
#[export] Instance TrustLineV2_countable : Countable TrustLineEntryExtensionV2.
Proof. by_fields liquidityPoolUseCount mkTrustLineV2. Defined.
#[export] Instance TrustLineV1_eq_dec : EqDecision TrustLineEntryExtensionV1.
Proof. solve_decision. Defined.
#[export] Instance TrustLineV1_countable : Countable TrustLineEntryExtensionV1.
Proof. by_fields (fun s => (tlv1_liabilities s, tlv1_ext s)) (fun '(a, b) => mkTrustLineV1 a b). Defined.
#[export] Instance TrustLineEntry_eq_dec : EqDecision TrustLineEntry.
Proof. solve_decision. Defined.
#[export] Instance TrustLineEntry_countable : Countable TrustLineEntry.
Proof.
  by_fields (fun s => (tl_accountID s, tl_asset s, tl_balance s, tl_limit s, tl_flags s, tl_ext s))
    (fun '(a, b, c, d, e, f) => mkTrustLine a b c d e f).
Defined.

#[export] Instance OfferEntry_eq_dec : EqDecision OfferEntry.
Proof. solve_decision. Defined.
#[export] Instance OfferEntry_countable : Countable OfferEntry.
Proof.
  by_fields (fun s => (oe_sellerID s, oe_offerID s, oe_selling s, oe_buying s, oe_amount s, oe_price s, oe_flags s))
    (fun '(a, b, c, d, e, f, g) => mkOffer a b c d e f g).
Defined.
#[export] Instance DataEntry_eq_dec : EqDecision DataEntry.
Proof. solve_decision. Defined.
#[export] Instance DataEntry_countable : Countable DataEntry.
Proof. by_fields (fun s => (data_accountID s, data_dataName s, data_dataValue s)) (fun '(a, b, c) => mkData a b c). Defined.
#[export] Instance Claimant_eq_dec : EqDecision Claimant.
Proof. solve_decision. Defined.
#[export] Instance Claimant_countable : Countable Claimant.
Proof. by_fields (fun s => (destination s, predicate s)) (fun '(a, b) => mkClaimant a b). Defined.
#[export] Instance ClaimableBalanceEntry_eq_dec : EqDecision ClaimableBalanceEntry.
Proof. solve_decision. Defined.
#[export] Instance ClaimableBalanceEntry_countable : Countable ClaimableBalanceEntry.
Proof.
  by_fields (fun s => (cb_balanceID s, cb_claimants s, cb_asset s, cb_amount s, cb_flags s))
    (fun '(a, b, c, d, e) => mkClaimableBalance a b c d e).
Defined.
#[export] Instance LiquidityPoolEntry_eq_dec : EqDecision LiquidityPoolEntry.
Proof. solve_decision. Defined.
#[export] Instance LiquidityPoolEntry_countable : Countable LiquidityPoolEntry.
Proof.
  by_fields (fun s => (lp_liquidityPoolID s, lp_assetA s, lp_assetB s, lp_fee s, reserveA s, reserveB s,
                        totalPoolShares s, poolSharesTrustLineCount s))
    (fun '(a, b, c, d, e, f, g, h) => mkPool a b c d e f g h).
Defined.

(** ** Entries and records *)

#[export] Instance LedgerEntryData_eq_dec : EqDecision LedgerEntryData.
Proof. solve_decision. Defined.

Definition dataEnc (d : LedgerEntryData)
    : AccountEntry + TrustLineEntry + OfferEntry + DataEntry + ClaimableBalanceEntry + LiquidityPoolEntry :=
  match d with
  | ACCOUNT a => inl (inl (inl (inl (inl a))))
  | TRUSTLINE t => inl (inl (inl (inl (inr t))))
  | OFFER o => inl (inl (inl (inr o)))
  | DATA d => inl (inl (inr d))
  | CLAIMABLE_BALANCE c => inl (inr c)
  | LIQUIDITY_POOL p => inr p
  end.
Definition dataDec
    (e : AccountEntry + TrustLineEntry + OfferEntry + DataEntry + ClaimableBalanceEntry + LiquidityPoolEntry)
    : LedgerEntryData :=
  match e with
  | inl (inl (inl (inl (inl a)))) => ACCOUNT a
  | inl (inl (inl (inl (inr t)))) => TRUSTLINE t
  | inl (inl (inl (inr o))) => OFFER o
  | inl (inl (inr d)) => DATA d
  | inl (inr c) => CLAIMABLE_BALANCE c
  | inr p => LIQUIDITY_POOL p
  end.
#[export] Instance LedgerEntryData_countable : Countable LedgerEntryData.
Proof. by_fields dataEnc dataDec. Defined.

#[export] Instance LedgerEntry_eq_dec : EqDecision LedgerEntry.
Proof. solve_decision. Defined.
#[export] Instance LedgerEntry_countable : Countable LedgerEntry.
Proof. by_fields (fun s => (lastModifiedLedgerSeq s, le_data s, le_ext s)) (fun '(a, b, c) => mkEntry a b c). Defined.

#[export] Instance BucketMetadata_eq_dec : EqDecision BucketMetadata.
Proof. solve_decision. Defined.
#[export] Instance BucketEntry_eq_dec : EqDecision BucketEntry.
Proof. solve_decision. Defined.

Definition recordEnc (e : BucketEntry) : LedgerEntry + LedgerEntry + LedgerKey + Z :=
  match e with
  | LIVEENTRY e => inl (inl (inl e))
  | INITENTRY e => inl (inl (inr e))
  | DEADENTRY k => inl (inr k)
  | METAENTRY m => inr (meta_ledgerVersion m)
  end.
Definition recordDec (x : LedgerEntry + LedgerEntry + LedgerKey + Z) : BucketEntry :=
  match x with
  | inl (inl (inl e)) => LIVEENTRY e
  | inl (inl (inr e)) => INITENTRY e
  | inl (inr k) => DEADENTRY k
  | inr v => METAENTRY (mkMeta v)
  end.
#[export] Instance BucketEntry_countable : Countable BucketEntry.
Proof. apply (inj_countable' recordEnc recordDec). by intros [| | |[]]. Defined.

(** A hash without collisions. *)
Definition perfectHash (file : list BucketEntry) : Z := Zpos (encode file).

Lemma perfectHash_inj l l' : perfectHash l = perfectHash l' -> l = l'.
Proof. intros [= E]. by apply (inj encode) in E. Qed.

Lemma perfectHash_nonzero l : perfectHash l <> 0.
Proof. done. Qed.
