(* ===== verification/BucketListFacts.v ===== *)
(** * The bucket list holds the ledger

    The theorems about whole histories: whatever the ledgers change and whenever the
    background merges finish, the bucket list never fails, each level holds exactly
    the ledgers the size functions say, and reading the buckets from the oldest to
    the newest gives back the ledger. *)

From stdpp Require Import base list gmap sets strings sorting.
From S2P Require Import Prelude Exchange Entries BucketEntries Bucket BucketMerge BucketSpec BucketLevels BucketManager BucketStore BucketList HistoryArchive BucketListInv BucketRestart HistoryArchiveSpec BucketHash.

Local Open Scope Z_scope.

#[local] Arguments wp : simpl never.
#[local] Arguments runs : simpl never.
#[local] Arguments currStart : simpl never.
#[local] Arguments currEnd : simpl never.
#[local] Arguments snapStart : simpl never.
#[local] Arguments kNumLevels : simpl never.

(** ** Reading buckets *)

Lemma loadEntries_ok fuel it v (m m' : gmap LedgerKey LedgerEntry) :
  (length (rest it) <= fuel)%nat -> InOK v it ->
  (forall k, takes (entryFor k (rest it)) (m !! k) (m' !! k)) -> loadEntries fuel it m = inr m'.
Proof.
  revert it m. induction fuel as [|fuel IH]; intros it m Hf Hok Ht.
  { assert (rest it = []) as Hr by (apply nil_length_inv; lia). cbn. rewrite (proj2 (rest_nil _) Hr).
    rewrite Hr in Ht. cbn in Ht. cbn. f_equal. apply map_eq. intros k. by rewrite Ht. }
  cbn [loadEntries]. destruct (mEntryPtr it) as [e|] eqn:Ee.
  2: { rewrite (proj1 (rest_nil _) Ee) in Ht. cbn in Ht. cbn. f_equal. apply map_eq. intros k. by rewrite Ht. }
  destruct (nextEntry_ok v it e Hok Ee) as (it' & E & Hok' & Hr).
  pose proof (in_sorted _ _ Hok) as Hs. pose proof (in_noMeta _ _ Hok) as Hm. rewrite Hr in Hs, Hm, Ht, Hf.
  apply sorted_cons_iff in Hs as [He _]. apply Forall_inv in Hm. cbn in Hf.
  destruct (bucketKey e) as [k0|] eqn:Ek; [|by destruct e].
  pose proof (entryFor_below k0 e _ Ek He) as Hnone.
  assert (exists m1, match e with
            | LIVEENTRY x | INITENTRY x => mret (<[LedgerEntryKey x := x]> m)
            | DEADENTRY k => match m !! k with
                             | Some _ => mret (delete k m)
                             | None => exc_throw (Throw "DEADENTRY does not exist in ledger")
                             end
            | METAENTRY _ => exc_throw (Throw "Malformed bucket: unexpected non-INIT/LIVE/DEAD entry.")
            end = inr m1 /\ m1 !! k0 = m' !! k0 /\ forall k, k <> k0 -> m1 !! k = m !! k) as (m1 & E1 & Hk0 & Hk).
  { specialize (Ht k0). cbn [entryFor] in Ht. rewrite decide_True in Ht by done.
    destruct e as [x|x|k|mm]; cbn in Ek; try done; injection Ek as <-; cbn in Ht; destruct Ht as [Hb Ha].
    - eexists. split; [reflexivity|]. rewrite lookup_insert_eq. split; [done|]. intros k Hk. by rewrite lookup_insert_ne.
    - eexists. split; [reflexivity|]. rewrite lookup_insert_eq. split; [done|]. intros k Hk. by rewrite lookup_insert_ne.
    - destruct Hb as [x Hb]. rewrite Hb. eexists. split; [reflexivity|]. rewrite lookup_delete_eq.
      split; [done|]. intros k' Hk'. by rewrite lookup_delete_ne. }
  rewrite E1. cbn [bnd mbind exc_bind]. rewrite E. cbn [bnd mbind exc_bind]. apply IH; [lia|done|].
  intros k. destruct (decide (k = k0)) as [->|Hne]; [by rewrite Hnone, Hk0|].
  rewrite Hk by done. specialize (Ht k). cbn [entryFor] in Ht. rewrite decide_False in Ht by congruence. done.
Qed.

Lemma loadBucket_ok b m m' : WfFile (mFile b) -> Takes (mFile b) m m' -> loadEntriesFromBucket b m = inr m'.
Proof.
  intros Hw Ht. unfold loadEntriesFromBucket. destruct (openBucket_ok _ Hw) as (it & E & Hok & Hr).
  rewrite E. cbn [bnd mbind exc_bind]. eapply loadEntries_ok; [|done|].
  - rewrite Hr. apply body_length.
  - rewrite Hr. exact Ht.
Qed.

Section Reading.
Context (sha : list BucketEntry -> Z).
Hypothesis sha_inj : forall l l', sha l = sha l' -> l = l'.
Hypothesis sha_nonzero : forall l, sha l <> 0.
Context (st : Z -> gmap LedgerKey LedgerEntry) (keysAt : Z -> list LedgerKey) (proto : Z -> Z).

Notation GoodBucket := (GoodBucket sha st keysAt proto).
Notation ListOK := (ListOK sha st keysAt proto).

Lemma loadOne_ok b pv lo hi hs a (Q : gmap LedgerKey LedgerEntry -> App -> Prop) :
  StoreOK sha a -> GoodBucket a pv b lo hi ->
  (forall a', StoreOK sha a' -> Evolves sha a a' -> runs (loadBuckets hs (st (hi - 1))) Q a') ->
  runs (loadBuckets (mHash b :: hs) (st (lo - 1))) Q a.
Proof using sha_inj sha_nonzero.
  intros HS [Hb HF] HQ. pose proof (gf_wf _ _ _ _ _ _ _ HF) as Hw. pose proof (gf_takes _ _ _ _ _ _ _ HF) as Ht. cbn [loadBuckets]. destruct (Z.eqb_spec (mHash b) 0) as [E|E].
  - apply (stored_hash sha sha_nonzero _ _ Hb) in E as ->. rewrite <- (takes_nil_inv _ _ Ht). apply HQ; [done|].
    apply evolves_refl.
  - apply runs_bind. eapply runs_mono; [by apply (getBucketByHash_stored sha sha_inj sha_nonzero b)|]. cbn beta.
    intros r a1 (HS1 & HE1 & -> & _). rewrite (loadBucket_ok b _ _ Hw Ht). apply runs_bind, runs_lift. by apply HQ.
Qed.

Lemma bucketsAt_ok n levels i l :
  levels !! i = Some l ->
  bucketsAt (makeHAS n levels) i = inr (mkHSB (mHash (mCurr l)) (mNextCurr l) (mHash (mSnap l))).
Proof using. intros H. unfold bucketsAt. cbn. by rewrite list_lookup_fmap, H. Qed.

Lemma readLevels_ok n pv i a0 a :
  (i <= kNumLevels)%nat -> ListOK a0 pv n -> StoreOK sha a -> Evolves sha a0 a ->
  exists hs, oldestFirst i (makeHAS n (mLevels a0)) = inr hs /\
    runs (loadBuckets hs (st (oldEnd n i - 1))) (fun m _ => m = st n) a.
Proof using sha_inj sha_nonzero.
  revert a. induction i as [|i IH]; intros a Hi HL HS HE.
  { exists []. split; [done|]. apply runs_ret. cbn. f_equal. lia. }
  destruct (lookup_lt_is_Some_2 (mLevels a0) i) as [l Hl]; [rewrite (proj1 HL); lia|].
  destruct (proj2 HL i l Hl) as (Hcurr & Hsnap & _).
  destruct (IH a ltac:(lia) HL HS HE) as (hs & Ehs & _).
  exists (mHash (mSnap l) :: mHash (mCurr l) :: hs). split.
  { cbn [oldestFirst]. rewrite (bucketsAt_ok n _ i l Hl). cbn [bnd mbind exc_bind]. rewrite Ehs. done. }
  cbn [oldEnd]. eapply loadOne_ok; [done|by apply (goodBucket_evolves sha st keysAt proto a0)|]. intros a1 HS1 HE1.
  assert (Evolves sha a0 a1) as HE01 by (by eapply evolves_trans).
  eapply loadOne_ok; [done|by apply (goodBucket_evolves sha st keysAt proto a0)|]. intros a2 HS2 HE2.
  assert (Evolves sha a0 a2) as HE02 by (by eapply evolves_trans).
  destruct (IH a2 ltac:(lia) HL HS2 HE02) as (hs' & Ehs' & Hrun). rewrite Ehs in Ehs'. injection Ehs' as <-.
  by rewrite oldEnd_curr in Hrun by lia.
Qed.

Lemma load_ok n pv a :
  st 0 = ∅ -> StoreOK sha a -> ListOK a pv n ->
  runs (loadCompleteLedgerState (makeHAS n (mLevels a))) (fun m _ => m = st n) a.
Proof using sha_inj sha_nonzero.
  intros H0 HS HL. unfold loadCompleteLedgerState.
  destruct (readLevels_ok n pv kNumLevels a a ltac:(lia) HL HS (evolves_refl sha a)) as (hs & -> & Hrun).
  apply runs_bind, runs_lift. rewrite <- H0. exact Hrun.
Qed.

End Reading.

(** ** Histories *)

(** The batches of consecutive ledgers, each with the protocol version it was closed
    under. *)
Abbreviation History := (list (Z * Batch)) (only parsing).

Definition ledgerAfter (h : History) : gmap LedgerKey LedgerEntry :=
  foldl (fun m pb => applyBatch pb.2 m) ∅ h.

(** Versions from 12 on that never decrease, and batches that fit the ledger.  The first
    ledger has version 0 in the source unless USE_CONFIG_FOR_GENESIS gives it the configured
    one (LedgerManagerImpl::startNewLedger): these are the histories of networks started
    with that setting.  Merges under shadows and records without INIT entries, which
    versions before 12 and 11 have, are covered for a single merge only. *)
Fixpoint validFrom (pv : Z) (m : gmap LedgerKey LedgerEntry) (h : History) : Prop :=
  match h with
  | [] => True
  | (p, b) :: h => pv <= p /\ ValidBatch b m /\ validFrom p (applyBatch b m) h
  end.
Definition ValidHistory (h : History) : Prop := validFrom FIRST_PROTOCOL_SHADOWS_REMOVED ∅ h.

Fixpoint addBatches (sha : list BucketEntry -> Z) (reduceCounts pessimize : bool) (n : Z) (h : History)
    : M App unit :=
  match h with
  | [] => mret tt
  | (p, b) :: h =>
      do* addBatch sha reduceCounts pessimize n p (initEntries b) (liveEntries b) (deadEntries b) in
      addBatches sha reduceCounts pessimize (n + 1) h
  end.

(** A node that has just been started, with the bucket files it finds on its disk. *)
Definition startedApp (schedule : list (list nat)) (dir : gmap Z (list BucketEntry)) : App :=
  mkApp ∅ dir ∅ emptyMergeMap zeroCounters false [] schedule newBucketList.
Definition newApp (schedule : list (list nat)) : App := startedApp schedule ∅.

(** What each ledger of a history leaves, changes and runs under. *)
Definition stateAt (h : History) (n : Z) : gmap LedgerKey LedgerEntry := ledgerAfter (take (Z.to_nat n) h).
Definition keysOf (h : History) (n : Z) : list LedgerKey :=
  match h !! Z.to_nat (n - 1) with Some (_, b) => batchKeys b | None => [] end.
Definition protoAt (h : History) (n : Z) : Z := foldr Z.max 0 (take (Z.to_nat n) h).*1.

Lemma max_app l l' : foldr Z.max 0 (l ++ l') = Z.max (foldr Z.max 0 l) (foldr Z.max 0 l').
Proof.
  assert (forall l, 0 <= foldr Z.max 0 l) as H by (intros k; induction k; cbn; lia).
  induction l as [|x l IH]; cbn; [specialize (H l'); lia|]. rewrite IH. lia.
Qed.

Lemma protoAt_mono h i j : i <= j -> protoAt h i <= protoAt h j.
Proof.
  intros H. unfold protoAt. replace (Z.to_nat j) with (Z.to_nat i + (Z.to_nat j - Z.to_nat i))%nat by lia.
  rewrite <- take_take_drop, fmap_app, max_app. lia.
Qed.

Lemma protoAt_max h n maxv : 0 <= maxv -> Forall (fun pb => pb.1 <= maxv) h -> protoAt h n <= maxv.
Proof.
  intros H0 H. unfold protoAt. apply (Forall_take _ (Z.to_nat n)) in H. induction H; cbn; lia.
Qed.

(** A ledger close moves all three one step. *)
Lemma at_step h0 p b h1 :
  let h := h0 ++ (p, b) :: h1 in
  let n := Z.of_nat (length h0) + 1 in
  stateAt h (n - 1) = ledgerAfter h0 /\ stateAt h n = applyBatch b (ledgerAfter h0) /\
  keysOf h n = batchKeys b /\ protoAt h n = Z.max (protoAt h (n - 1)) (Z.max p 0).
Proof.
  intros h n. unfold stateAt, keysOf, protoAt. replace (Z.to_nat (n - 1)) with (length h0) by lia.
  replace (Z.to_nat n) with (S (length h0)) by lia.
  assert (h !! length h0 = Some (p, b)) as Hat by (unfold h; by rewrite lookup_app_r, Nat.sub_diag by lia).
  rewrite Hat, (take_S_r _ _ _ Hat), fmap_app, max_app. unfold h. rewrite take_app_length. unfold ledgerAfter.
  by rewrite foldl_app.
Qed.

Section Histories.
Context (sha : list BucketEntry -> Z).
Hypothesis sha_inj : forall l l', sha l = sha l' -> l = l'.
Hypothesis sha_nonzero : forall l, sha l <> 0.

(** The invariant after the first [n] ledgers of a history. *)
Definition Follows (h : History) (n : nat) (a : App) : Prop :=
  StoreOK sha a /\
  ListOK sha (stateAt h) (keysOf h) (protoAt h) a (protoAt h (Z.of_nat n)) (Z.of_nat n).

Lemma started_store schedule a dir : StoreOK sha a -> dir ⊆ bucketDir a -> StoreOK sha (startedApp schedule dir).
Proof using.
  intros HS Hd. split; cbn; try done; try (intros; by rewrite lookup_empty in * ).
  intros x f Hx. apply (so_dir _ _ HS). by eapply lookup_weaken.
Qed.

Lemma new_store schedule : StoreOK sha (newApp schedule).
Proof using. split; cbn; try done; intros; by rewrite lookup_empty in *. Qed.

Lemma new_follows h schedule : Follows h 0 (newApp schedule).
Proof using.
  split; [apply new_store|]. split; [done|]. intros j l Hl. apply lookup_replicate in Hl as [-> Hj].
  destruct (bounds_zero j) as (E1 & E2 & E3). split; [|split].
  - change (Z.of_nat 0) with 0. rewrite E1, E2. split; [apply stored_empty|by apply goodFile_empty].
  - change (Z.of_nat 0) with 0. rewrite E1, E3. split; [apply stored_empty|by apply goodFile_empty].
  - destruct j as [|q]; [done|]. cbn [NextOK]. destruct (bounds_zero q) as (Eq1 & _ & Eq2).
    change (Z.of_nat 0) with 0. by rewrite Eq1, Eq2.
Qed.

(** Running the middle part of a history. *)
Lemma run_ok reduceCounts pessimize h0 h1 h2 a :
  let h := h0 ++ h1 ++ h2 in
  Z.of_nat (length h) <= UINT32_MAX -> Follows h (length h0) a ->
  validFrom (Z.max (protoAt h (Z.of_nat (length h0))) FIRST_PROTOCOL_SHADOWS_REMOVED) (ledgerAfter h0) (h1 ++ h2) ->
  runs (addBatches sha reduceCounts pessimize (Z.of_nat (length h0) + 1) h1)
    (fun _ a' => Follows h (length (h0 ++ h1)) a' /\
       validFrom (Z.max (protoAt h (Z.of_nat (length (h0 ++ h1)))) FIRST_PROTOCOL_SHADOWS_REMOVED)
         (ledgerAfter (h0 ++ h1)) h2) a.
Proof using sha_inj sha_nonzero.
  revert h0 a. induction h1 as [|[p b] h1 IH]; intros h0 a h Hlen HF Hv.
  { apply runs_ret. by rewrite app_nil_r. }
  destruct Hv as (Hp & Hb & Hv). destruct HF as [HS HL]. set (n := Z.of_nat (length h0) + 1).
  destruct (at_step h0 p b (h1 ++ h2)) as (E0 & E1 & Ek & Ep). fold n in E0, E1, Ek, Ep.
  change (h0 ++ (p, b) :: h1 ++ h2) with h in E0, E1, Ek, Ep.
  replace (Z.of_nat (length h0)) with (n - 1) in Hp, HL by lia.
  assert (protoAt h n = p) as Epn by (unfold FIRST_PROTOCOL_SHADOWS_REMOVED in *; lia).
  assert (Z.of_nat (length h) = n + Z.of_nat (length (h1 ++ h2))) as El by (unfold h; rewrite length_app; cbn; lia).
  assert (Z.of_nat (length (h0 ++ [(p, b)])) = n) as En by (rewrite length_app; cbn; lia).
  assert (h = (h0 ++ [(p, b)]) ++ h1 ++ h2) as Eh by (unfold h; by rewrite <- app_assoc).
  cbn [addBatches]. apply runs_bind. eapply runs_mono.
  - apply (addBatch_ok sha sha_inj sha_nonzero (stateAt h) eq_refl (keysOf h) (protoAt h) (protoAt_mono h) _ _ n p (protoAt h (n - 1)));
      [lia|lia| |by rewrite E0|by rewrite E0|done|done|done|exact HL]. lia.
  - cbn beta. intros _ a1 [HS1 HL1]. rewrite <- En. replace (h0 ++ (p, b) :: h1) with ((h0 ++ [(p, b)]) ++ h1) by (by rewrite <- app_assoc).
    rewrite Eh. apply IH; rewrite <- Eh; [done|split; [done|]|]; rewrite En, Epn; [done|].
    replace (Z.max p FIRST_PROTOCOL_SHADOWS_REMOVED) with p by lia. unfold ledgerAfter. by rewrite foldl_app.
Qed.

(** Running a history from the start. *)
Lemma start_ok reduceCounts pessimize schedule h1 h2 :
  ValidHistory (h1 ++ h2) -> Z.of_nat (length (h1 ++ h2)) <= UINT32_MAX ->
  runs (addBatches sha reduceCounts pessimize 1 h1)
    (fun _ a' => Follows (h1 ++ h2) (length h1) a' /\
       validFrom (Z.max (protoAt (h1 ++ h2) (Z.of_nat (length h1))) FIRST_PROTOCOL_SHADOWS_REMOVED)
         (ledgerAfter h1) h2) (newApp schedule).
Proof using sha_inj sha_nonzero.
  intros Hv Hlen. apply (run_ok reduceCounts pessimize [] h1 h2); [done|apply new_follows|done].
Qed.

Lemma runs_Ok {A} (m : M App A) (Q : A -> App -> Prop) a : runs m Q a -> exists x a', m a = Ok x a' /\ Q x a'.
Proof using. unfold runs, wp. destruct (m a) as [x a'|]; [eauto|done]. Qed.

(** Running the rest of a history. *)
Lemma rest_ok reduceCounts pessimize h1 h2 a :
  Z.of_nat (length (h1 ++ h2)) <= UINT32_MAX -> Follows (h1 ++ h2) (length h1) a ->
  validFrom (Z.max (protoAt (h1 ++ h2) (Z.of_nat (length h1))) FIRST_PROTOCOL_SHADOWS_REMOVED) (ledgerAfter h1) h2 ->
  exists a', addBatches sha reduceCounts pessimize (Z.of_nat (length h1) + 1) h2 a = Ok tt a' /\
    Follows (h1 ++ h2) (length (h1 ++ h2)) a'.
Proof using sha_inj sha_nonzero.
  intros Hlen HF Hv. pose proof (run_ok reduceCounts pessimize h1 h2 [] a) as H. rewrite app_nil_r in H.
  destruct (runs_Ok _ _ _ (H Hlen HF Hv)) as ([] & a' & E & HF' & _). by exists a'.
Qed.

Lemma follows_hash hashSeq h n a a' :
  Follows h n a -> Follows h n a' -> getHash hashSeq (mLevels a) = getHash hashSeq (mLevels a').
Proof using.
  intros [_ H] [_ H']. pose proof (list_unique _ _ _ _ _ _ _ _ _ H H') as E. unfold getHash. f_equal.
  assert (forall ls : list BucketLevel, (fun l => hashSeq [mHash (mCurr l); mHash (mSnap l)]) <$> ls =
    (fun p => hashSeq [p.1; p.2]) <$> ((fun l => (mHash (mCurr l), mHash (mSnap l))) <$> ls)) as Hf
    by (intros ls; by rewrite <- list_fmap_compose).
  by rewrite !Hf, E.
Qed.

End Histories.

(** ** Restoring a list *)

Section Restoring.
Context (sha : list BucketEntry -> Z).
Hypothesis sha_inj : forall l l', sha l = sha l' -> l = l'.
Hypothesis sha_nonzero : forall l, sha l <> 0.
Context (h : History) (n : nat) (maxv : Z).
Hypothesis h_length : Z.of_nat (length h) <= UINT32_MAX.
Hypothesis n_length : (n <= length h)%nat.
Hypothesis h_max : Forall (fun pb => pb.1 <= maxv) h.
Hypothesis maxv_pos : 0 <= maxv.

Lemma assume_follows reduceCounts has next a0 a :
  Follows sha h n a0 -> StoreOK sha a -> length (mLevels a) = kNumLevels -> currentLedger has = Z.of_nat n -> Names has (mLevels a0) next ->
  (forall j l, mLevels a0 !! j = Some l -> Stored sha (bucketDir a) (mCurr l) /\ Stored sha (bucketDir a) (mSnap l) /\
     (next j = clearFuture \/ bucketDir a0 ⊆ bucketDir a /\ next j = loadFuture (saveFuture (mNextCurr l)))) ->
  runs (assumeState sha reduceCounts has maxv) (fun _ a' => Follows sha h n a') a.
Proof using All.
  intros [HS HL] HSa Hlen Hn Hnames H.
  apply (assumeState_ok sha sha_inj sha_nonzero (stateAt h) eq_refl (keysOf h) (protoAt h) (protoAt_mono h)
    (Z.of_nat n) (protoAt h (Z.of_nat n)) maxv ltac:(lia) (protoAt_max h _ _ maxv_pos h_max) _ _ next a0);
    [done|done|done|done|done|].
  intros j l Hl. destruct (H j l Hl) as (Hc & Hs & Hx). split; [done|]. split; [done|].
  destruct Hx as [-> |[Hd ->]]; [by left|]. apply (next_saved sha _ _ _ _ _ _ a0); [|done].
  destruct (proj2 HL j l Hl) as (_ & _ & Hnext). exact Hnext.
Qed.

Lemma saved_names a0 :
  Names (savedHAS (makeHAS (Z.of_nat n) (mLevels a0))) (mLevels a0)
    (fun j => match mLevels a0 !! j with Some l => loadFuture (saveFuture (mNextCurr l)) | None => clearFuture end).
Proof using. intros i l Hl. cbn. by rewrite !list_lookup_fmap, Hl. Qed.

Lemma restart_follows reduceCounts schedule a0 :
  Follows sha h n a0 ->
  runs (assumeState sha reduceCounts (savedHAS (makeHAS (Z.of_nat n) (mLevels a0))) maxv)
    (fun _ a' => Follows sha h n a') (startedApp schedule (bucketDir a0)).
Proof using All.
  intros HF. eapply (assume_follows _ _ _ a0); [done|by apply (started_store sha _ a0); [apply HF|]|done|done|apply saved_names|].
  intros j l Hl. destruct (proj2 (proj2 HF) j l Hl) as ([Hc _] & [Hs _] & _). rewrite Hl. auto.
Qed.

(** The files of the buckets with these hashes. *)
Definition download (hashes : list Z) (dir : gmap Z (list BucketEntry)) : gmap Z (list BucketEntry) :=
  filter (fun p => p.1 ∈ hashes) dir.

Lemma stored_download hashes dir b :
  Stored sha dir b -> (mHash b <> 0 -> mHash b ∈ hashes) -> Stored sha (download hashes dir) b.
Proof using sha_nonzero.
  intros Hb Hin. pose proof (stored_hash sha sha_nonzero _ _ Hb) as Hz. destruct Hb as [Hb|(H1 & H2 & H3)]; [by left|right].
  split; [done|]. split; [done|]. apply map_lookup_filter_Some_2; [done|]. cbn. apply Hin.
  rewrite H2. apply sha_nonzero.
Qed.

Lemma cleared_named a0 : Forall namesOutput (currentBuckets (clearedHAS (makeHAS (Z.of_nat n) (mLevels a0)))).
Proof using. apply Forall_forall. intros x (y & -> & _)%list_elem_of_fmap. by intros [?|?]. Qed.

Lemma cleared_resolved a0 : HAS_futuresAllResolved (clearedHAS (makeHAS (Z.of_nat n) (mLevels a0))) = true.
Proof using. apply forallb_forall. by intros x (y & -> & _)%list_elem_of_In%list_elem_of_fmap. Qed.

End Restoring.

(** What [differingBuckets] computes, for snapshots whose merges are finished. *)
Lemma differing_ok sha has other a :
  length (currentBuckets has) = kNumLevels -> HAS_futuresAllResolved has = true ->
  Forall namesOutput (currentBuckets has) -> Forall namesOutput (currentBuckets other) ->
  Forall (fun b => isLive (hsb_next b) = false) (currentBuckets other) ->
  exists hashes, differingBuckets sha has other a = Ok hashes a /\ NoDup hashes /\
    forall x, x ∈ hashes <-> x <> 0 /\ x ∈ (currentBuckets has ≫= levelHashes) /\ x ∉ (currentBuckets other ≫= levelHashes).
Proof.
  intros Hlen Hr Hn Hn' Hl'. destruct (inhibited_ok sha (currentBuckets other) {[0]} a Hl' Hn') as (s & E & Hs).
  destruct (differingFrom_ok has kNumLevels s [] (s, [])) as (acc & Ed & Hc); [lia|done| |].
  { split; cbn; [intros x; rewrite elem_of_nil; naive_solver| |constructor].
    intros x. rewrite elem_of_nil. naive_solver. }
  exists acc.2. split; [|split; [apply Hc|]].
  - unfold differingBuckets, assertM, bnd, mbind, M_bind. rewrite Hr. cbn. rewrite E. by rewrite Ed.
  - intros x. rewrite (col_list _ _ _ Hc), Hs, elem_of_singleton. rewrite app_nil_l, take_ge by lia.
    assert (x ∈ reverse (currentBuckets has) ≫= levelHashes <-> x ∈ currentBuckets has ≫= levelHashes) as ->.
    { rewrite !list_elem_of_bind. by setoid_rewrite elem_of_reverse. }
    clear. tauto.
Qed.

Lemma empty_hashes x : x ∈ (currentBuckets emptyHAS ≫= levelHashes) -> x = 0.
Proof.
  intros (y & Hx & [-> _]%elem_of_replicate)%list_elem_of_bind. unfold levelHashes in Hx. cbn in Hx.
  rewrite !elem_of_cons, elem_of_nil in Hx. tauto.
Qed.

(** ** A node that reads a published snapshot *)

Section Reader.
Context (sha : list BucketEntry -> Z).
Hypothesis sha_inj : forall l l', sha l = sha l' -> l = l'.
Hypothesis sha_nonzero : forall l, sha l <> 0.
Context (h : History) (n : nat) (a0 a : App) (schedule : list (list nat)) (hashes : list Z).
Hypothesis publisher : Follows sha h n a0.
Hypothesis published : StoreOK sha a /\ Evolves sha a0 a.
Let has := clearedHAS (makeHAS (Z.of_nat n) (mLevels a0)).
Hypothesis hashes_all : forall x, x <> 0 -> x ∈ (currentBuckets has ≫= levelHashes) -> x ∈ hashes.
Let reader := startedApp schedule (download hashes (bucketDir a)).

Lemma level_hashes j l x :
  mLevels a0 !! j = Some l -> x = mHash (mCurr l) \/ x = mHash (mSnap l) -> x ∈ (currentBuckets has ≫= levelHashes).
Proof using.
  intros Hl Hx. apply list_elem_of_bind. exists (mkHSB (mHash (mCurr l)) clearFuture (mHash (mSnap l))). split.
  - unfold levelHashes. cbn [hsb_curr hsb_snap]. rewrite !elem_of_cons. clear -Hx. tauto.
  - unfold has. cbn. apply list_elem_of_fmap. exists (mkHSB (mHash (mCurr l)) (mNextCurr l) (mHash (mSnap l))).
    split; [done|]. apply list_elem_of_fmap. exists l. split; [done|]. by eapply list_elem_of_lookup_2.
Qed.

Lemma reader_store : StoreOK sha reader.
Proof using published. apply (started_store sha _ a); [apply published|]. apply map_filter_subseteq. Qed.

Lemma reader_stored j l :
  mLevels a0 !! j = Some l -> Stored sha (bucketDir reader) (mCurr l) /\ Stored sha (bucketDir reader) (mSnap l).
Proof using publisher published hashes_all sha_nonzero.
  intros Hl. destruct (proj2 (proj2 publisher) j l Hl) as ([Hc _] & [Hs _] & _).
  split; (apply stored_download; [done|by apply (evolves_stored sha a0); [apply published|]|]);
    intros Hx; apply hashes_all; try done; apply (level_hashes j l); auto.
Qed.

Lemma reader_holding :
  Holding sha (stateAt h) (keysOf h) (protoAt h) (Z.of_nat n) (protoAt h (Z.of_nat n)) a0 reader.
Proof using publisher published hashes_all sha_nonzero.
  intros j l Hl. destruct (reader_stored j l Hl) as [Hc Hs].
  destruct (proj2 (proj2 publisher) j l Hl) as ([_ Fc] & [_ Fs] & _). by split; split.
Qed.

End Reader.

(** ** Properties *)

(** C4: The bucket list holds the ledger.  For every history whose batches fit the ledger
    they are added to, all of them under protocol versions from 12 on that never decrease,
    and a hash of buckets without collisions that is never zero: whatever order the
    background merges finish in and whatever the two test settings are, adding the batches
    never fails, and applying the buckets of the resulting list from the oldest to the
    newest gives exactly the ledger the batches lead to. *)
Theorem bucketList_holds_ledger sha reduceCounts pessimize schedule h :
  (forall l l', sha l = sha l' -> l = l') -> (forall l, sha l <> 0) ->
  ValidHistory h -> Z.of_nat (length h) <= UINT32_MAX ->
  exists a a', addBatches sha reduceCounts pessimize 1 h (newApp schedule) = Ok tt a /\
    loadCompleteLedgerState (makeHAS (Z.of_nat (length h)) (mLevels a)) a = Ok (ledgerAfter h) a'.
Proof.
  intros Hi Hz Hv Hlen. rewrite <- (app_nil_r h) in Hv, Hlen.
  destruct (runs_Ok _ _ _ (start_ok sha Hi Hz reduceCounts pessimize schedule h [] Hv Hlen)) as ([] & a & E & [HS HL] & _).
  rewrite app_nil_r in HL. exists a.
  destruct (runs_Ok _ _ _ (load_ok sha Hi Hz (stateAt h) (keysOf h) (protoAt h) _ _ a eq_refl HS HL)) as (m & a' & E' & ->).
  exists a'. split; [done|]. rewrite E'. f_equal. unfold stateAt. by rewrite Nat2Z.id, firstn_all.
Qed.

(** C6: The hash of the bucket list is a function of the history alone.  Two nodes
    that add the same batches, from ledger 1 on and all under protocol versions from 12 on
    (no shadows), end with lists of the same hash, however differently their background
    merges are scheduled and whatever their test settings; the hash of buckets has no
    collisions and is never zero. *)
Theorem bucketList_hash_deterministic sha hashSeq reduce1 reduce2 pessimize1 pessimize2 schedule1 schedule2 h :
  (forall l l', sha l = sha l' -> l = l') -> (forall l, sha l <> 0) ->
  ValidHistory h -> Z.of_nat (length h) <= UINT32_MAX ->
  exists a1 a2, addBatches sha reduce1 pessimize1 1 h (newApp schedule1) = Ok tt a1 /\
    addBatches sha reduce2 pessimize2 1 h (newApp schedule2) = Ok tt a2 /\
    getHash hashSeq (mLevels a1) = getHash hashSeq (mLevels a2).
Proof.
  intros Hi Hz Hv Hlen. rewrite <- (app_nil_r h) in Hv, Hlen.
  destruct (runs_Ok _ _ _ (start_ok sha Hi Hz reduce1 pessimize1 schedule1 h [] Hv Hlen)) as ([] & a1 & E1 & H1 & _).
  destruct (runs_Ok _ _ _ (start_ok sha Hi Hz reduce2 pessimize2 schedule2 h [] Hv Hlen)) as ([] & a2 & E2 & H2 & _).
  exists a1, a2. split; [done|]. split; [done|]. by apply (follows_hash sha _ (h ++ []) (length h)).
Qed.

(** C5: A restart loses nothing.  A node that stops after any ledger of a history and
    starts again from the bucket files on its disk and the snapshot it saved, with
    the merges that were running kept only as the hashes of their inputs or outputs,
    restores its list without failing; from then on it adds the rest of the history
    exactly like a node that never stopped, up to the hash of the list.  Every batch of the
    history, from ledger 1 on, is under a protocol version from 12 on (no shadows) and at
    most the node's maximum; the hash of buckets has no collisions and is never zero. *)
Theorem restart_transparent sha hashSeq reduceCounts pessimize schedule1 schedule2 maxv h1 h2 :
  (forall l l', sha l = sha l' -> l = l') -> (forall l, sha l <> 0) ->
  ValidHistory (h1 ++ h2) -> Z.of_nat (length (h1 ++ h2)) <= UINT32_MAX ->
  0 <= maxv -> Forall (fun pb => pb.1 <= maxv) (h1 ++ h2) ->
  let n := Z.of_nat (length h1) in
  exists a r a' r', addBatches sha reduceCounts pessimize 1 h1 (newApp schedule1) = Ok tt a /\
    assumeState sha reduceCounts (savedHAS (makeHAS n (mLevels a))) maxv (startedApp schedule2 (bucketDir a)) = Ok tt r /\
    addBatches sha reduceCounts pessimize (n + 1) h2 a = Ok tt a' /\
    addBatches sha reduceCounts pessimize (n + 1) h2 r = Ok tt r' /\
    getHash hashSeq (mLevels r) = getHash hashSeq (mLevels a) /\
    getHash hashSeq (mLevels r') = getHash hashSeq (mLevels a').
Proof.
  intros Hi Hz Hv Hlen Hm0 Hmax n.
  destruct (runs_Ok _ _ _ (start_ok sha Hi Hz reduceCounts pessimize schedule1 h1 h2 Hv Hlen)) as ([] & a & E & HF & Hv2).
  assert (length h1 <= length (h1 ++ h2))%nat as Hl by (rewrite length_app; lia).
  destruct (runs_Ok _ _ _ (restart_follows sha Hi Hz (h1 ++ h2) _ maxv Hlen Hl Hmax Hm0 reduceCounts schedule2 a HF))
    as ([] & r & Er & HFr).
  destruct (rest_ok sha Hi Hz reduceCounts pessimize h1 h2 a Hlen HF Hv2) as (a' & Ea' & HFa').
  destruct (rest_ok sha Hi Hz reduceCounts pessimize h1 h2 r Hlen HFr Hv2) as (r' & Er' & HFr').
  exists a, r, a', r'. do 4 (split; [done|]). split; by eapply follows_hash.
Qed.

(** C7: Catching up from an archive.  After any ledger of a history the snapshot of
    the list can be published; a new node that downloads exactly the buckets in which
    the published snapshot differs from an empty one finds the snapshot valid,
    restores the list from it, and its hash is the one the snapshot promises; adding
    the rest of the history leads it to the same hash as the publisher.  Every batch of the
    history, from ledger 1 on, is under a protocol version from 12 on (no shadows) and at
    most the maximum of both nodes; the hash of buckets has no collisions and is never
    zero. *)
Theorem catchup_from_archive sha hashSeq reduceCounts pessimize schedule1 schedule2 maxv h1 h2 :
  (forall l l', sha l = sha l' -> l = l') -> (forall l, sha l <> 0) ->
  ValidHistory (h1 ++ h2) -> Z.of_nat (length (h1 ++ h2)) <= UINT32_MAX ->
  0 <= maxv -> Forall (fun pb => pb.1 <= maxv) (h1 ++ h2) ->
  let n := Z.of_nat (length h1) in
  exists a has p hashes r0 r a' r', addBatches sha reduceCounts pessimize 1 h1 (newApp schedule1) = Ok tt a /\
    prepareForPublish sha maxv (makeHAS n (mLevels a)) a = Ok has p /\
    differingBuckets sha has emptyHAS p = Ok hashes p /\
    containsValidBuckets has (startedApp schedule2 (download hashes (bucketDir p))) = Ok true r0 /\
    assumeState sha reduceCounts has maxv r0 = Ok tt r /\
    getHash hashSeq (mLevels r) = getBucketListHash hashSeq has /\
    addBatches sha reduceCounts pessimize (n + 1) h2 a = Ok tt a' /\
    addBatches sha reduceCounts pessimize (n + 1) h2 r = Ok tt r' /\
    getHash hashSeq (mLevels r') = getHash hashSeq (mLevels a').
Proof.
  intros Hi Hz Hv Hlen Hm0 Hmax n. set (h := h1 ++ h2) in *.
  destruct (runs_Ok _ _ _ (start_ok sha Hi Hz reduceCounts pessimize schedule1 h1 h2 Hv Hlen)) as ([] & a & E & HF & Hv2).
  assert (length h1 <= length h)%nat as Hl by (unfold h; rewrite length_app; lia).
  destruct (runs_Ok _ _ _ (prepareForPublish_ok sha Hi Hz _ _ _ n _ a (proj2 HF) maxv a (proj1 HF) (evolves_refl sha a)))
    as (has & p & Ep & HSp & HEp & ->). set (has := clearedHAS (makeHAS n (mLevels a))) in *.
  destruct (differing_ok sha has emptyHAS p) as (hashes & Ed & _ & Hh);
    [cbn; by rewrite !length_fmap, (proj1 (proj2 HF))|by apply cleared_resolved|by apply cleared_named|..].
  { by repeat constructor; intros [?|?]. }
  { by repeat constructor. }
  assert (forall x, x <> 0 -> x ∈ (currentBuckets has ≫= levelHashes) -> x ∈ hashes) as Hall.
  { intros x Hx Hin. apply Hh. split; [done|]. split; [done|]. by intros ?%empty_hashes. }
  pose proof (reader_store sha a p schedule2 hashes (conj HSp HEp)) as HSr.
  pose proof (reader_stored sha Hz h _ a p schedule2 hashes HF (conj HSp HEp) Hall) as Hst.
  pose proof (reader_holding sha Hz h _ a p schedule2 hashes HF (conj HSp HEp) Hall) as Hhold.
  destruct (runs_Ok _ _ _ (containsValidBuckets_ok sha Hi Hz (stateAt h) (keysOf h) (protoAt h) (protoAt_mono h) n _ a
    ltac:(lia) (proj2 HF) _ HSr Hhold)) as (ok & r0 & Er0 & HSr0 & HEr0 & ->).
  destruct (runs_Ok _ _ _ (assume_follows sha Hi Hz h (length h1) maxv Hlen Hl Hmax Hm0 reduceCounts has
    (fun _ => clearFuture) a r0 HF HSr0 ltac:(by rewrite (ev_levels _ _ _ HEr0)) eq_refl (cleared_names n a)
    ltac:(intros j l Hjl; destruct (Hst j l Hjl); split; [by eapply evolves_stored|split; [by eapply evolves_stored|by left]])))
    as ([] & r & Er & HFr).
  assert (getHash hashSeq (mLevels a) = getBucketListHash hashSeq has) as Ehash.
  { unfold getHash, getBucketListHash, has. cbn. by rewrite <- !list_fmap_compose. }
  destruct (rest_ok sha Hi Hz reduceCounts pessimize h1 h2 a Hlen HF Hv2) as (a' & Ea' & HFa').
  destruct (rest_ok sha Hi Hz reduceCounts pessimize h1 h2 r Hlen HFr Hv2) as (r' & Er' & HFr').
  exists a, has, p, hashes, r0, r, a', r'. do 5 (split; [done|]).
  split; [rewrite <- Ehash; by eapply follows_hash|]. split; [done|]. split; [done|]. by eapply follows_hash.
Qed.

(** The size functions tell exactly which ledgers a level covers.  After [n]
    ledgers the [curr] of level [i] takes the ledger over the [sizeOfCurr n i]
    ledgers before those the younger levels hold, its [snap] over the
    [sizeOfSnap n i] ledgers before, the oldest-ledger functions give the first
    ledger of each, an empty one counting as the greatest number, and the last level
    reaches back to the first ledger.  None of the functions fails or overflows. *)
Theorem level_intervals sha reduceCounts pessimize schedule h :
  (forall l l', sha l = sha l' -> l = l') -> (forall l, sha l <> 0) ->
  ValidHistory h -> 1 <= Z.of_nat (length h) <= UINT32_MAX ->
  let n := Z.of_nat (length h) in
  exists a, addBatches sha reduceCounts pessimize 1 h (newApp schedule) = Ok tt a /\
    forall i, (i < kNumLevels)%nat -> exists l c s younger,
      mLevels a !! i = Some l /\ sizeOfCurr n i = inr c /\ sizeOfSnap n i = inr s /\
      sumLevels (sizeOfCurr n) (sizeOfSnap n) i = inr younger /\
      0 <= c /\ 0 <= s /\ 0 <= younger /\ younger + c + s <= n /\ (i = (kNumLevels - 1)%nat -> younger + c + s = n) /\
      Takes (mFile (mCurr l)) (stateAt h (n - younger - c)) (stateAt h (n - younger)) /\
      Takes (mFile (mSnap l)) (stateAt h (n - younger - c - s)) (stateAt h (n - younger - c)) /\
      oldestLedgerInCurr n i = inr (if c =? 0 then UINT32_MAX else n - younger - c + 1) /\
      oldestLedgerInSnap n i = inr (if s =? 0 then UINT32_MAX else n - younger - c - s + 1).
Proof.
  intros Hi Hz Hv [Hn Hlen] n. rewrite <- (app_nil_r h) in Hv, Hlen.
  destruct (runs_Ok _ _ _ (start_ok sha Hi Hz reduceCounts pessimize schedule h [] Hv Hlen)) as ([] & a & E & [_ HL] & _).
  rewrite app_nil_r in HL, Hlen. fold n in HL, Hlen, Hn. exists a. split; [done|]. intros i Hlt.
  destruct (lookup_lt_is_Some_2 (mLevels a) i) as [l Hl]; [rewrite (proj1 HL); lia|].
  destruct (proj2 HL i l Hl) as ([_ Fc] & [_ Fs] & _). destruct (sizeOf_ok n i ltac:(lia) Hlt) as (Ec & Es & Ey).
  destruct (oldest_ok n i ltac:(lia) Hlt) as [Oc Os]. destruct (interval_order n i ltac:(lia) Hlt) as [H1 H2].
  exists l, (currEnd n i - currStart n i), (currStart n i - snapStart n i), (n + 1 - currEnd n i).
  do 4 (split; [done|]). do 4 (split; [lia|]).
  split. { intros ->. assert (snapStart n (kNumLevels - 1) = 1) as Ef by done. lia. }
  pose proof (gf_takes _ _ _ _ _ _ _ Fc) as Tc. pose proof (gf_takes _ _ _ _ _ _ _ Fs) as Ts.
  assert (n - (n + 1 - currEnd n i) = currEnd n i - 1) as -> by lia.
  assert (currEnd n i - 1 - (currEnd n i - currStart n i) = currStart n i - 1) as -> by lia.
  assert (currStart n i - 1 - (currStart n i - snapStart n i) = snapStart n i - 1) as -> by lia.
  split; [done|]. split; [done|].
  rewrite Oc, Os. rewrite !Z.sub_add. done.
Qed.

(** C31: A merge of two buckets is exact.  For well-formed input and shadow files, and a
    node that is not shutting down, the merge loop finishes; it fails exactly
    when the version is above the limit, shadows are given to a version that has
    none, or a key is created that the older bucket did not delete; otherwise the
    output is a well-formed bucket that holds, for every key, the combination of the
    records of the two inputs, unless a shadow covers it or it is a deletion that
    need not be kept. *)
Theorem merge_exact isShutdown maxv old new shadows keepDead :
  (forall k, isShutdown k = false) -> WfFile old -> WfFile new -> Forall WfFile shadows ->
  match mergeOutput isShutdown maxv old new shadows keepDead with
  | inr o =>
      ~ refused maxv old new shadows /\ WfFile (outputFile o) /\
      forall k, entryFor k (body (outputFile o)) =
        match combineOpt (entryFor k (body old)) (entryFor k (body new)) with
        | Some e => if written (FIRST_PROTOCOL_SUPPORTING_INITENTRY_AND_METAENTRY <=? mergeVersion old new shadows)
                         keepDead (body <$> shadows) e then Some e else None
        | None => None
        end
  | inl _ => refused maxv old new shadows
  end.
Proof.
  intros Hsd Ho Hn Hs. pose proof (mergeOutput_spec isShutdown maxv old new shadows keepDead Hsd Ho Hn Hs) as H.
  destruct (mergeOutput _ _ _ _ _ _) as [f|o]; [done|]. destruct H as [Hr ->].
  split; [done|]. split; [by apply merged_wf|]. intros k. by apply merged_entry.
Qed.

(** One ledger's changes become a bucket exactly when no key changes twice.  The
    bucket is well formed, carries the protocol version from 11 on, and its records
    are the created, updated and deleted entries, creations being plain updates
    before version 11. *)
Theorem fresh_exact p b :
  match freshOutput p (initEntries b) (liveEntries b) (deadEntries b) with
  | inr o =>
      NoDup (batchKeys b) /\ WfFile (outputFile o) /\
      fileVersion (outputFile o) = (if FIRST_PROTOCOL_SUPPORTING_INITENTRY_AND_METAENTRY <=? p then p else 0) /\
      body (outputFile o) ≡ₚ batchEntries (FIRST_PROTOCOL_SUPPORTING_INITENTRY_AND_METAENTRY <=? p) b
  | inl _ => ~ NoDup (batchKeys b)
  end.
Proof.
  pose proof (freshOutput_spec p b) as H. destruct (freshOutput _ _ _ _) as [f|o]; [done|].
  destruct H as (Hnd & l & -> & Hs & Hp). pose proof (perm_noMeta _ _ _ Hp) as Hm. split; [done|].
  split; [apply wf_withMeta; [done|done|]|split; [|by rewrite body_withMeta]].
  - intros Hv. rewrite (proj2 (Z.leb_gt _ _)) in Hp by lia. rewrite Hp. unfold batchEntries.
    rewrite !Forall_app, !Forall_fmap. repeat split; by apply Forall_true.
  - unfold withMeta. destruct (_ <=? p); [done|]. destruct l as [|[] ?]; try done. by apply Forall_inv in Hm.
Qed.

(** [differingBuckets] gives, each once, exactly the buckets a snapshot refers to
    that are neither empty nor referred to by the other snapshot, for snapshots whose
    merges are finished or dropped. *)
Theorem differingBuckets_exact sha has other a :
  length (currentBuckets has) = kNumLevels -> HAS_futuresAllResolved has = true ->
  Forall namesOutput (currentBuckets has) -> Forall namesOutput (currentBuckets other) ->
  Forall (fun b => isLive (hsb_next b) = false) (currentBuckets other) ->
  exists hashes, differingBuckets sha has other a = Ok hashes a /\ NoDup hashes /\
    forall x, x ∈ hashes <-> x <> 0 /\ x ∈ (currentBuckets has ≫= levelHashes) /\ x ∉ (currentBuckets other ≫= levelHashes).
Proof. apply differing_ok. Qed.

(** ** Witnesses *)

Definition validBatchb (b : Batch) (m : gmap LedgerKey LedgerEntry) : bool :=
  bool_decide (NoDup (batchKeys b))
  && forallb (fun e => bool_decide (m !! LedgerEntryKey e = None)) (initEntries b)
  && forallb (fun e => bool_decide (is_Some (m !! LedgerEntryKey e))) (liveEntries b)
  && forallb (fun k => bool_decide (is_Some (m !! k))) (deadEntries b).

Lemma validBatch_check b m : validBatchb b m = true -> ValidBatch b m.
Proof.
  unfold validBatchb. rewrite !andb_true_iff, bool_decide_eq_true, !forallb_forall. intros [[[H1 H2] H3] H4].
  split; [done|..]; intros x Hx; apply list_elem_of_In in Hx; [apply H2 in Hx|apply H3 in Hx|apply H4 in Hx];
    by apply bool_decide_eq_true in Hx.
Qed.

Fixpoint validFromb (pv : Z) (m : gmap LedgerKey LedgerEntry) (h : History) : bool :=
  match h with
  | [] => true
  | (p, b) :: h => (pv <=? p) && validBatchb b m && validFromb p (applyBatch b m) h
  end.

Lemma validFrom_check pv m h : validFromb pv m h = true -> validFrom pv m h.
Proof.
  revert pv m. induction h as [|[p b] h IH]; intros pv m; [done|]. cbn. rewrite !andb_true_iff, Z.leb_le.
  intros [[Hp Hb] Hh]. split; [done|]. split; [by apply validBatch_check|by apply IH].
Qed.

Definition sampleAccount (id balance : Z) : LedgerEntry :=
  mkEntry 1 (ACCOUNT (mkAccount id balance 0 0 None 0 [] [1; 0; 0; 0] [] None)) None.

(** Two accounts, one updated, one deleted and created again, with a protocol upgrade. *)
Definition sampleHistory : History :=
  [(12, mkBatch [sampleAccount 1 100; sampleAccount 2 100] [] []);
   (12, mkBatch [] [sampleAccount 1 50] []);
   (13, mkBatch [] [] [KEY_ACCOUNT 2]);
   (13, mkBatch [sampleAccount 2 7] [] []);
   (13, mkBatch [] [] []);
   (19, mkBatch [] [sampleAccount 1 60] [KEY_ACCOUNT 2]);
   (19, mkBatch [sampleAccount 3 1] [] [])].

Lemma sampleHistory_valid : ValidHistory sampleHistory.
Proof. apply validFrom_check. vm_compute. reflexivity. Qed.

Lemma bucketList_holds_ledger_witness :
  ledgerAfter sampleHistory !! KEY_ACCOUNT 1 = Some (sampleAccount 1 60) /\
  ledgerAfter sampleHistory !! KEY_ACCOUNT 2 = None /\
  exists a a', addBatches perfectHash false false 1 sampleHistory (newApp [[0]; [2; 1]]%nat) = Ok tt a /\
    loadCompleteLedgerState (makeHAS 7 (mLevels a)) a = Ok (ledgerAfter sampleHistory) a'.
Proof.
  split; [by vm_compute|]. split; [by vm_compute|].
  apply (bucketList_holds_ledger perfectHash false false [[0]; [2; 1]]%nat sampleHistory perfectHash_inj
    perfectHash_nonzero sampleHistory_valid). by vm_compute.
Defined.

Lemma bucketList_hash_deterministic_witness :
  exists a1 a2, addBatches perfectHash false false 1 sampleHistory (newApp []) = Ok tt a1 /\
    addBatches perfectHash true true 1 sampleHistory (newApp [[0; 1]; []; [3]]%nat) = Ok tt a2 /\
    getHash (foldr Z.add 0) (mLevels a1) = getHash (foldr Z.add 0) (mLevels a2).
Proof.
  apply (bucketList_hash_deterministic perfectHash (foldr Z.add 0) false true false true [] [[0; 1]; []; [3]]%nat
    sampleHistory perfectHash_inj perfectHash_nonzero sampleHistory_valid). by vm_compute.
Defined.

Lemma restart_transparent_witness :
  exists a r a' r', addBatches perfectHash false false 1 (take 4 sampleHistory) (newApp []) = Ok tt a /\
    assumeState perfectHash false (savedHAS (makeHAS 4 (mLevels a))) 19 (startedApp [[0]]%nat (bucketDir a)) = Ok tt r /\
    addBatches perfectHash false false 5 (drop 4 sampleHistory) a = Ok tt a' /\
    addBatches perfectHash false false 5 (drop 4 sampleHistory) r = Ok tt r' /\
    getHash (foldr Z.add 0) (mLevels r) = getHash (foldr Z.add 0) (mLevels a) /\
    getHash (foldr Z.add 0) (mLevels r') = getHash (foldr Z.add 0) (mLevels a').
Proof.
  apply (restart_transparent perfectHash (foldr Z.add 0) false false [] [[0]]%nat 19 (take 4 sampleHistory)
    (drop 4 sampleHistory) perfectHash_inj perfectHash_nonzero sampleHistory_valid);
    [by vm_compute|lia|by repeat constructor].
Defined.

Lemma catchup_from_archive_witness :
  exists a has p hashes r0 r a' r', addBatches perfectHash false false 1 (take 4 sampleHistory) (newApp []) = Ok tt a /\
    prepareForPublish perfectHash 19 (makeHAS 4 (mLevels a)) a = Ok has p /\
    differingBuckets perfectHash has emptyHAS p = Ok hashes p /\
    containsValidBuckets has (startedApp [[0]]%nat (download hashes (bucketDir p))) = Ok true r0 /\
    assumeState perfectHash false has 19 r0 = Ok tt r /\
    getHash (foldr Z.add 0) (mLevels r) = getBucketListHash (foldr Z.add 0) has /\
    addBatches perfectHash false false 5 (drop 4 sampleHistory) a = Ok tt a' /\
    addBatches perfectHash false false 5 (drop 4 sampleHistory) r = Ok tt r' /\
    getHash (foldr Z.add 0) (mLevels r') = getHash (foldr Z.add 0) (mLevels a').
Proof.
  apply (catchup_from_archive perfectHash (foldr Z.add 0) false false [] [[0]]%nat 19 (take 4 sampleHistory)
    (drop 4 sampleHistory) perfectHash_inj perfectHash_nonzero sampleHistory_valid);
    [by vm_compute|lia|by repeat constructor].
Defined.

Lemma level_intervals_witness :
  sizeOfCurr 7 0 = inr 2 /\ sizeOfSnap 7 0 = inr 2 /\ sizeOfCurr 7 1 = inr 3 /\
  exists a, addBatches perfectHash false false 1 sampleHistory (newApp []) = Ok tt a /\
    exists l, mLevels a !! 1%nat = Some l /\ Takes (mFile (mCurr l)) ∅ (stateAt sampleHistory 3).
Proof.
  split; [by vm_compute|]. split; [by vm_compute|]. split; [by vm_compute|].
  destruct (level_intervals perfectHash false false [] sampleHistory perfectHash_inj perfectHash_nonzero
    sampleHistory_valid ltac:(by vm_compute)) as (a & E & H).
  exists a. split; [exact E|]. destruct (H 1%nat ltac:(unfold kNumLevels; lia)) as (l & c & s & y & Hl & Hc & Hs & Hy & H').
  exists l. split; [exact Hl|]. change (Z.of_nat (length sampleHistory)) with 7 in *.
  assert (c = 3) as -> by (vm_compute in Hc; congruence). assert (y = 4) as -> by (vm_compute in Hy; congruence).
  exact (proj1 (proj2 (proj2 (proj2 (proj2 (proj2 H')))))).
Defined.

Definition sampleOld : list BucketEntry :=
  [METAENTRY (mkMeta 12); INITENTRY (sampleAccount 1 5); LIVEENTRY (sampleAccount 2 5)].
Definition sampleNew : list BucketEntry := [METAENTRY (mkMeta 13); DEADENTRY (KEY_ACCOUNT 1); LIVEENTRY (sampleAccount 2 6)].

Lemma merge_exact_witness :
  match mergeOutput (fun _ => false) 19 sampleOld sampleNew [] true with
  | inr o => outputFile o = [METAENTRY (mkMeta 13); LIVEENTRY (sampleAccount 2 6)] /\ WfFile (outputFile o)
  | inl _ => False
  end.
Proof.
  assert (WfFile sampleOld) as Ho by (split; [repeat constructor|done]).
  assert (WfFile sampleNew) as Hn by (split; [repeat constructor|done]).
  pose proof (merge_exact (fun _ => false) 19 sampleOld sampleNew [] true (fun _ => eq_refl) Ho Hn (List.Forall_nil _)) as H.
  destruct (mergeOutput (fun _ => false) 19 sampleOld sampleNew [] true) as [f|o] eqn:E.
  - vm_compute in E. discriminate E.
  - split; [|exact (proj1 (proj2 H))]. vm_compute in E. injection E as <-. vm_compute. reflexivity.
Defined.

Definition sampleHAS (curr : Z) : HistoryArchiveState :=
  mkHAS 1 (mkHSB curr clearFuture 5 :: replicate 10 (mkHSB 0 clearFuture 0)).

Lemma differingBuckets_exact_witness :
  exists hashes, differingBuckets perfectHash (sampleHAS 7) (sampleHAS 6) (newApp []) = Ok hashes (newApp []) /\ NoDup hashes /\ 7 ∈ hashes.
Proof.
  assert (forall c, Forall namesOutput (currentBuckets (sampleHAS c))) as Hn
    by (intros c; repeat constructor; intros [H|H]; discriminate H).
  destruct (differingBuckets_exact perfectHash (sampleHAS 7) (sampleHAS 6) (newApp []) eq_refl eq_refl (Hn 7) (Hn 6)
    ltac:(repeat constructor)) as (hashes & E & Hnd & H).
  exists hashes. split; [exact E|]. split; [exact Hnd|]. apply H. split; [lia|].
  split; [by apply (bool_decide_unpack _); vm_compute|by apply (bool_decide_unpack _); vm_compute].
Defined.
