(* ===== verification/WorkModel.v ===== *)
(** * Asynchronous work (src/work)

    Long-running tasks are trees of work objects that the main thread advances one
    crank at a time.  This file models the state machine every work shares
    ([BasicWork]), the works that own other works ([Work], [WorkSequence],
    [ConditionalWork], [BatchWork]), and the root that posts the cranks
    ([WorkScheduler]).

    A work owns the works below it, so the objects form a tree and a shared pointer
    to a child is a position in its parent.  A callback made by [wakeSelfUpCallback]
    is always held by a child and always wakes its parent.  The virtual methods that
    subclasses outside this directory implement are the operations of [Implementers]. *)

From stdpp Require Import base list gmap strings.
From S2P Require Import Prelude.

(** ** States *)

Inductive State : Type :=
  | WORK_RUNNING
  | WORK_WAITING
  | WORK_ABORTED
  | WORK_SUCCESS
  | WORK_FAILURE.

Inductive InternalState : Type :=
  | PENDING
  | RUNNING
  | WAITING
  | ABORTING
  | ABORTED
  | RETRYING
  | SUCCESS
  | FAILURE.

#[export] Instance State_eq_dec : EqDecision State.
Proof. solve_decision. Defined.
#[export] Instance InternalState_eq_dec : EqDecision InternalState.
Proof. solve_decision. Defined.

Definition ALLOWED_TRANSITIONS : list (InternalState * InternalState) :=
  [ (PENDING, RUNNING);
    (PENDING, ABORTING);
    (RUNNING, RUNNING);
    (RUNNING, WAITING);
    (RUNNING, SUCCESS);
    (RUNNING, FAILURE);
    (RUNNING, RETRYING);
    (RUNNING, ABORTING);
    (WAITING, RUNNING);
    (WAITING, ABORTING);
    (RETRYING, WAITING);
    (SUCCESS, PENDING);
    (FAILURE, PENDING);
    (ABORTING, ABORTING);
    (ABORTING, ABORTED);
    (ABORTED, PENDING) ].

Definition assertValidTransition (t : InternalState * InternalState) : exc unit :=
  if decide (t ∈ ALLOWED_TRANSITIONS) then mret tt
  else exc_throw (Throw "BasicWork error: illegal state transition").

Definition getInternalState (s : State) : InternalState :=
  match s with
  | WORK_SUCCESS => SUCCESS
  | WORK_FAILURE => FAILURE
  | WORK_WAITING => WAITING
  | WORK_RUNNING => RUNNING
  | WORK_ABORTED => ABORTED
  end.

Definition RETRY_NEVER : nat := 0.
Definition RETRY_ONCE : nat := 1.
Definition RETRY_A_FEW : nat := 5.
Definition RETRY_A_LOT : nat := 32.

(** The bounds, in seconds, that [getRetryDelay] draws its delay from. *)
Definition getRetryDelay (mRetries : Z) : Z * Z :=
  let upperBound := u64 (Z.shiftl 1 (Z.min 9 mRetries)) in
  let lowerBound := if (upperBound <? 2)%Z then 1%Z else (upperBound / 2 + 1)%Z in
  (lowerBound, upperBound).

(** ** Objects *)

(** The callables a work stores or is woken with: nothing, the scheduler's
    [scheduleOne], or the parent's [wakeUp] with its own inner callback. *)
Inductive Callback : Type :=
  | nullCallback
  | scheduleOneCallback
  | wakeSelfUpCallback (innerCallback : Callback).

Record BasicWork : Type := mkBasicWork {
  mName : string;
  mState : InternalState;
  mRetries : nat;
  mMaxRetries : nat;
  mRetryTimer : bool;       (* the timer exists *)
  mWaitingTimer : bool;
  mNotifyCallback : Callback }.

(** The state that implementers keep in their own members: that of a plain
    [BasicWork], that of a [Work], the iterator of a [BatchWork] and a [ConditionFn]. *)
Class Members : Type := {
  LeafS : Type;
  UserS : Type;
  IterS : Type;
  CondS : Type }.

Section Objects.
Context `{Members}.

Inductive Subclass : Type :=
  | UserWork (u : UserS)
  | BatchWork (mBatch : gmap string nat) (iter : IterS)
  | WorkScheduler.

(** [mChildren] pairs every child with its address, the number of children added
    before it.  [mNextChild] is an index, or nothing at [mChildren.end()]. *)
Record WorkFields (W : Type) : Type := mkWorkFields {
  mChildren : list (nat * W);
  mNextChild : option nat;
  mDoneChildren : nat;
  mTotalChildren : nat;
  mAbortChildrenButNotSelf : bool;
  subclass : Subclass }.

(** [mCurrentExecuting] is null or the work at [mNextInSequence]. *)
Record SequenceFields (W : Type) : Type := mkSequenceFields {
  mSequenceOfWork : list W;
  mNextInSequence : nat;
  mCurrentExecuting : bool;
  mStopAtFirstFailure : bool }.

Record ConditionalFields (W : Type) : Type := mkConditionalFields {
  mCondition : option CondS;
  mConditionedWork : W;
  mWorkStarted : bool }.

Inductive Kind (W : Type) : Type :=
  | KLeaf (l : LeafS)
  | KWork (f : WorkFields W)
  | KSequence (f : SequenceFields W)
  | KConditional (f : ConditionalFields W).

Inductive Work : Type := MkWork (b : BasicWork) (k : Kind Work).

End Objects.

Arguments mkWorkFields {_ W}.
Arguments mkSequenceFields {W}.
Arguments mkConditionalFields {_ W}.
Arguments mChildren {_ W}.
Arguments mNextChild {_ W}.
Arguments mDoneChildren {_ W}.
Arguments mTotalChildren {_ W}.
Arguments mAbortChildrenButNotSelf {_ W}.
Arguments subclass {_ W}.
Arguments mSequenceOfWork {W}.
Arguments mNextInSequence {W}.
Arguments mCurrentExecuting {W}.
Arguments mStopAtFirstFailure {W}.
Arguments mCondition {_ W}.
Arguments mConditionedWork {_ W}.
Arguments mWorkStarted {_ W}.
Arguments KLeaf {_ W}.
Arguments KWork {_ W}.
Arguments KSequence {_ W}.
Arguments KConditional {_ W}.

(** The virtual methods of the subclasses outside this directory.  An [onRun] or
    [doWork] also says whether it armed the waiting timer; a [doWork] sees its
    children and returns the works it adds. *)
Class Implementers `{Members} : Type := {
  leaf_onRun : LeafS -> LeafS * State * bool;
  leaf_onAbort : LeafS -> LeafS * bool;
  leaf_onReset : LeafS -> LeafS;
  leaf_onSuccess : LeafS -> LeafS;
  leaf_onFailureRaise : LeafS -> LeafS;
  leaf_onFailureRetry : LeafS -> LeafS;
  user_doWork : UserS -> list (nat * Work) -> UserS * list Work * State * bool;
  user_doReset : UserS -> UserS;
  user_onSuccess : UserS -> UserS;
  user_onFailureRaise : UserS -> UserS;
  user_onFailureRetry : UserS -> UserS;
  hasNext : IterS -> bool;
  yieldMoreWork : IterS -> IterS * Work;
  resetIter : IterS -> IterS;
  condition : CondS -> CondS * bool;
  MAX_CONCURRENT_SUBPROCESSES : nat }.

(** ** Field updates *)

Definition setMState (st : InternalState) (b : BasicWork) : BasicWork :=
  mkBasicWork (mName b) st (mRetries b) (mMaxRetries b) (mRetryTimer b) (mWaitingTimer b)
    (mNotifyCallback b).
Definition setRetries (n : nat) (b : BasicWork) : BasicWork :=
  mkBasicWork (mName b) (mState b) n (mMaxRetries b) (mRetryTimer b) (mWaitingTimer b)
    (mNotifyCallback b).
Definition setRetryTimer (t : bool) (b : BasicWork) : BasicWork :=
  mkBasicWork (mName b) (mState b) (mRetries b) (mMaxRetries b) t (mWaitingTimer b)
    (mNotifyCallback b).
Definition setWaitingTimer (t : bool) (b : BasicWork) : BasicWork :=
  mkBasicWork (mName b) (mState b) (mRetries b) (mMaxRetries b) (mRetryTimer b) t
    (mNotifyCallback b).
Definition setNotifyCallback (c : Callback) (b : BasicWork) : BasicWork :=
  mkBasicWork (mName b) (mState b) (mRetries b) (mMaxRetries b) (mRetryTimer b)
    (mWaitingTimer b) c.

Section Updates.
Context `{Members}.

Definition base (w : Work) : BasicWork := let '(MkWork b _) := w in b.
Definition kind (w : Work) : Kind Work := let '(MkWork _ k) := w in k.
Definition state (w : Work) : InternalState := mState (base w).
Definition onBase (g : BasicWork -> BasicWork) (w : Work) : Work := MkWork (g (base w)) (kind w).

Definition setChildren {W} (cs : list (nat * W)) (next : option nat) (done : nat)
    (f : WorkFields W) : WorkFields W :=
  mkWorkFields cs next done (mTotalChildren f) (mAbortChildrenButNotSelf f) (subclass f).
Definition setAbortChildren {W} (a : bool) (f : WorkFields W) : WorkFields W :=
  mkWorkFields (mChildren f) (mNextChild f) (mDoneChildren f) (mTotalChildren f) a (subclass f).
Definition setSubclass {W} (s : Subclass) (f : WorkFields W) : WorkFields W :=
  mkWorkFields (mChildren f) (mNextChild f) (mDoneChildren f) (mTotalChildren f)
    (mAbortChildrenButNotSelf f) s.
Definition setSequence {W} (l : list W) (next : nat) (cur : bool) (f : SequenceFields W) :
    SequenceFields W :=
  mkSequenceFields l next cur (mStopAtFirstFailure f).

End Updates.

(** Apply a fallible operation to the element at an index, or to every element. *)
Definition adjust {A} (g : A -> exc A) : nat -> list A -> exc (list A) :=
  fix go i l {struct l} :=
    match l with
    | [] => mret []
    | x :: l' =>
        match i with
        | O => let* x' := g x in mret (x' :: l')
        | S i' => let* r := go i' l' in mret (x :: r)
        end
    end.

Definition traverse {A} (g : A -> exc A) : list A -> exc (list A) :=
  fix go l :=
    match l with
    | [] => mret []
    | x :: l' => let* x' := g x in let* r := go l' in mret (x' :: r)
    end.

(** An operation on a child, at the child's address. *)
Definition onChild {W} (g : W -> exc W) (c : nat * W) : exc (nat * W) :=
  let* w := g c.2 in mret (c.1, w).

(** ** BasicWork *)

Section Code.
Context `{Implementers}.

Definition isDone (w : Work) : bool :=
  match state w with SUCCESS | FAILURE | ABORTED => true | _ => false end.

Definition isAborting (w : Work) : bool := bool_decide (state w = ABORTING).

Definition getState (w : Work) : State :=
  match state w with
  | RUNNING | PENDING | ABORTING => WORK_RUNNING
  | WAITING | RETRYING => WORK_WAITING
  | SUCCESS => WORK_SUCCESS
  | FAILURE => WORK_FAILURE
  | ABORTED => WORK_ABORTED
  end.

(** ** WorkUtils *)

Definition allSuccessful (works : list Work) : bool :=
  forallb (fun w => bool_decide (getState w = WORK_SUCCESS)) works.
Definition anyFailed (works : list Work) : bool :=
  existsb (fun w => bool_decide (getState w = WORK_FAILURE)) works.
Definition anyRunning (works : list Work) : bool :=
  existsb (fun w => bool_decide (getState w = WORK_RUNNING)) works.

Definition getWorkStatus (works : list Work) : State :=
  if allSuccessful works then WORK_SUCCESS
  else if anyFailed works then WORK_FAILURE
  else if negb (anyRunning works) then WORK_WAITING
  else WORK_RUNNING.

(** ** Children of a Work *)

Definition children (f : WorkFields Work) : list Work := (mChildren f).*2.
Definition allChildrenSuccessful (f : WorkFields Work) : bool := allSuccessful (children f).
Definition allChildrenDone (f : WorkFields Work) : bool := forallb isDone (children f).
Definition anyChildRunning (f : WorkFields Work) : bool := anyRunning (children f).
Definition anyChildRaiseFailure (f : WorkFields Work) : bool := anyFailed (children f).
Definition checkChildrenStatus (f : WorkFields Work) : State := getWorkStatus (children f).

(** The iterator at an index: [end()] when there is no such element. *)
Definition iterator {A} (l : list A) (i : nat) : option nat :=
  if decide (i < length l)%nat then Some i else None.

Definition clearChildren (f : WorkFields Work) : exc (WorkFields Work) :=
  do* releaseAssert (allChildrenDone f) "allChildrenDone()" in
  mret (setChildren [] None (mDoneChildren f + length (mChildren f)) f).

(** The loop of [yieldNextRunningChild] from [mNextChild] on: [pre] are the children
    before the iterator.  It returns the children left, the iterator, the index of the
    running child found and the number of children erased. *)
Fixpoint yieldLoop (pre rest : list (nat * Work)) (erased : nat) :
    list (nat * Work) * option nat * option nat * nat :=
  match rest with
  | [] => (pre, None, None, erased)
  | c :: rest' =>
      if decide (getState c.2 = WORK_RUNNING) then
        (pre ++ c :: rest', iterator (pre ++ c :: rest') (S (length pre)),
         Some (length pre), erased)
      else if isDone c.2 then yieldLoop pre rest' (S erased)
      else yieldLoop (pre ++ [c]) rest' erased
  end.

Definition yieldNextRunningChild (f : WorkFields Work) : WorkFields Work * option nat :=
  let i := default (length (mChildren f)) (mNextChild f) in
  let '(cs, next, found, erased) :=
    yieldLoop (take i (mChildren f)) (drop i (mChildren f)) 0 in
  match found with
  | Some j => (setChildren cs next (mDoneChildren f + erased) f, Some j)
  | None => (setChildren cs (iterator cs 0) (mDoneChildren f + erased) f, None)
  end.

(** ** Virtual methods dispatched on the class *)

(** [Work::doReset]. *)
Definition doReset (s : Subclass) : Subclass :=
  match s with
  | UserWork u => UserWork (user_doReset u)
  | BatchWork _ it => BatchWork ∅ (resetIter it)
  | WorkScheduler => WorkScheduler
  end.

Definition Work_onReset (f : WorkFields Work) : exc (WorkFields Work) :=
  let* f := clearChildren f in
  let f := setAbortChildren false f in
  mret (setSubclass (doReset (subclass f)) f).

Definition WorkSequence_onReset (f : SequenceFields Work) : exc (SequenceFields Work) :=
  do* releaseAssert (forallb isDone (take (mNextInSequence f) (mSequenceOfWork f)))
    "all works before mNextInSequence are done" in
  mret (setSequence (mSequenceOfWork f) 0 false f).

Definition ConditionalWork_onReset (f : ConditionalFields Work) : ConditionalFields Work :=
  mkConditionalFields (mCondition f) (mConditionedWork f) false.

Definition onReset (w : Work) : exc Work :=
  match kind w with
  | KLeaf l => mret (MkWork (base w) (KLeaf (leaf_onReset l)))
  | KWork f => let* f := Work_onReset f in mret (MkWork (base w) (KWork f))
  | KSequence f => let* f := WorkSequence_onReset f in mret (MkWork (base w) (KSequence f))
  | KConditional f => mret (MkWork (base w) (KConditional (ConditionalWork_onReset f)))
  end.

(** [onSuccess], [onFailureRaise] and [onFailureRetry]: only implementers override them. *)
Definition onHook (leaf : LeafS -> LeafS) (user : UserS -> UserS) (w : Work) : Work :=
  match kind w with
  | KLeaf l => MkWork (base w) (KLeaf (leaf l))
  | KWork f =>
      match subclass f with
      | UserWork u => MkWork (base w) (KWork (setSubclass (UserWork (user u)) f))
      | _ => w
      end
  | _ => w
  end.
Definition onSuccess : Work -> Work := onHook leaf_onSuccess user_onSuccess.
Definition onFailureRaise : Work -> Work := onHook leaf_onFailureRaise user_onFailureRaise.
Definition onFailureRetry : Work -> Work := onHook leaf_onFailureRetry user_onFailureRetry.

(** ** State transitions *)

Definition resetWaitingTimer (b : BasicWork) : BasicWork := setWaitingTimer false b.

(** Cancelling the retry timer runs its handler, which does not look at the error
    code: it asserts the state, and wakes the work when it is [WAITING].  The callers
    have checked a transition that no [WAITING] work can make, so only the assertion
    matters here. *)
Definition reset (w : Work) : exc Work :=
  do* (if mRetryTimer (base w)
       then releaseAssert (bool_decide (state w ∈ [WAITING; ABORTED; ABORTING]))
              "retry timer handler: WAITING, ABORTED or ABORTING"
       else mret tt) in
  onReset (onBase (setRetryTimer false) w).

(** [setState] from the transition check to the assignment of [mState]. *)
Definition enterState (st : InternalState) (w : Work) : exc Work :=
  do* assertValidTransition (state w, st) in
  let* w := if decide (state w = PENDING /\ st = RUNNING)
            then let* w := reset w in mret (onBase (setRetries 0) w)
            else mret w in
  let* w := match st with
            | SUCCESS => mret (onSuccess w)
            | FAILURE => reset (onFailureRaise w)
            | RETRYING => reset (onFailureRetry w)
            | ABORTED => reset w
            | _ => mret w
            end in
  mret (onBase (setMState st) w).

(** The nested [setState(WAITING)] neither retries nor waits again. *)
Definition waitForRetry (w : Work) : exc Work :=
  if mRetryTimer (base w) then exc_throw (Throw "Retry timer already exists!")
  else enterState WAITING (onBase (setRetryTimer true) w).

Definition setState (st : InternalState) (w : Work) : exc Work :=
  let st := if decide (st = FAILURE /\ mRetries (base w) < mMaxRetries (base w))%nat
            then RETRYING else st in
  let* w := enterState st w in
  if decide (state w = RETRYING) then waitForRetry w else mret w.

(** The callbacks that [wakeUp] invokes after the transition are returned, to be run
    by the work's parent or by the scheduler. *)
Definition wakeUp (innerCallback : Callback) (w : Work) : exc (Work * list Callback) :=
  if decide (state w = WAITING) then
    let* w := setState RUNNING w in
    let w := onBase resetWaitingTimer w in
    mret (w, [innerCallback; mNotifyCallback (base w)])
  else mret (w, []).

(** The handler of the retry timer when it expires. *)
Definition retryTimerFired (w : Work) : exc (Work * list Callback) :=
  do* releaseAssert (bool_decide (state w ∈ [WAITING; ABORTED; ABORTING]))
    "retry timer handler: WAITING, ABORTED or ABORTING" in
  if decide (state w = WAITING) then
    wakeUp nullCallback
      (onBase (fun b => setRetryTimer false (setRetries (S (mRetries b)) b)) w)
  else mret (w, []).

Definition startWork (notificationCallback : Callback) (w : Work) : exc Work :=
  let* w := if decide (state w = PENDING) then mret w else setState PENDING w in
  let* w := setState RUNNING (onBase (setNotifyCallback notificationCallback) w) in
  do* releaseAssert (bool_decide (mRetries (base w) = 0%nat)) "mRetries == 0" in
  mret w.

Definition setupWaitingCallback (w : Work) : exc Work :=
  do* releaseAssert (bool_decide (state w = RUNNING)) "mState == RUNNING" in
  mret (onBase (setWaitingTimer true) w).

(** ** shutdown *)

Definition BasicWork_shutdown (w : Work) : exc Work :=
  if isDone w then mret w else setState ABORTING (onBase resetWaitingTimer w).

Fixpoint shutdown (w : Work) : exc Work :=
  match w with
  | MkWork b k =>
      let* k :=
        match k with
        | KLeaf l => mret (KLeaf l)
        | KWork f =>
            (* shutdownChildren *)
            let* cs := traverse (onChild (fun c => if isDone c then mret c else shutdown c))
                         (mChildren f) in
            mret (KWork (setChildren cs (mNextChild f) (mDoneChildren f) f))
        | KSequence f =>
            if mCurrentExecuting f then
              let* l := adjust shutdown (mNextInSequence f) (mSequenceOfWork f) in
              mret (KSequence (setSequence l (mNextInSequence f) true f))
            else mret (KSequence f)
        | KConditional f =>
            if mWorkStarted f then
              let* c := shutdown (mConditionedWork f) in
              mret (KConditional (mkConditionalFields (mCondition f) c true))
            else mret (KConditional f)
        end in
      BasicWork_shutdown (MkWork b k)
  end.

Definition shutdownChildren (f : WorkFields Work) : exc (WorkFields Work) :=
  let* cs := traverse (onChild (fun c => if isDone c then mret c else shutdown c))
               (mChildren f) in
  mret (setChildren cs (mNextChild f) (mDoneChildren f) f).

(** ** Adding children *)

Definition addChild (child : Work) (f : WorkFields Work) : WorkFields Work :=
  let resetIter := bool_decide (mChildren f = []) in
  let cs := mChildren f ++ [(mTotalChildren f, child)] in
  mkWorkFields cs (if resetIter then iterator cs 0 else mNextChild f) (mDoneChildren f)
    (S (mTotalChildren f)) (mAbortChildrenButNotSelf f) (subclass f).

(** [Work::addWork] up to the call of [wakeSelf]: the child is started before it is
    filed, nothing reads it in between. *)
Definition addStarted (cb : Callback) (child : Work) (f : WorkFields Work) :
    exc (WorkFields Work) :=
  let* child := startWork (wakeSelfUpCallback cb) child in
  mret (addChild child f).

(** [addWork] from a [doWork]: the work is [RUNNING], so [wakeSelf] does nothing. *)
Fixpoint addWorks (new : list Work) (f : WorkFields Work) : exc (WorkFields Work) :=
  match new with
  | [] => mret f
  | w :: new' => let* f := addStarted nullCallback w f in addWorks new' f
  end.

(** ** BatchWork *)

(** The state of the child that an entry of [mBatch] points to. *)
Definition childAt (i : nat) (f : WorkFields Work) : option Work :=
  snd <$> find (fun c => Nat.eqb c.1 i) (mChildren f).

(** Forget the entries of completed children. *)
Definition cleanBatch (mBatch : gmap string nat) (f : WorkFields Work) : gmap string nat :=
  filter (fun e => (getState <$> childAt e.2 f) <> Some WORK_SUCCESS) mBatch.

(** The loop of [addMoreWorkIfNeeded]; every round adds an entry, so
    [MAX_CONCURRENT_SUBPROCESSES] rounds are enough. *)
Fixpoint addMoreWork (n : nat) (mBatch : gmap string nat) (it : IterS)
    (f : WorkFields Work) : exc (gmap string nat * IterS * WorkFields Work) :=
  if (size mBatch <? MAX_CONCURRENT_SUBPROCESSES)%nat && hasNext it then
    match n with
    | O => exc_throw OutOfFuel
    | S n' =>
        let (it, w) := yieldMoreWork it in
        let i := mTotalChildren f in
        let* f := addStarted nullCallback w f in
        match mBatch !! mName (base w) with
        | Some _ => exc_throw (Throw "BatchWork error: inserting duplicate work!")
        | None => addMoreWork n' (<[mName (base w) := i]> mBatch) it f
        end
    end
  else mret (mBatch, it, f).

(** [isAborting()] is false: [doWork] runs only in the state [RUNNING]. *)
Definition BatchWork_doWork (mBatch : gmap string nat) (it : IterS) (f : WorkFields Work) :
    exc (WorkFields Work * State) :=
  if anyChildRaiseFailure f then mret (f, WORK_FAILURE)
  else
    let mBatch := cleanBatch mBatch f in
    let* '(mBatch, it, f) := addMoreWork MAX_CONCURRENT_SUBPROCESSES mBatch it f in
    let f := setSubclass (BatchWork mBatch it) f in
    if allChildrenSuccessful f then mret (f, WORK_SUCCESS)
    else if negb (anyChildRunning f) then mret (f, WORK_WAITING)
    else mret (f, WORK_RUNNING).

(** ** Work::onRun and Work::onAbort *)

(** [doWork] of the class, with the flag of [setupWaitingCallback]. *)
Definition doWork (f : WorkFields Work) : exc (WorkFields Work * State * bool) :=
  match subclass f with
  | UserWork u =>
      let '(u, new, st, timer) := user_doWork u (mChildren f) in
      let* f := addWorks new (setSubclass (UserWork u) f) in
      mret (f, st, timer)
  | BatchWork mBatch it =>
      let* '(f, st) := BatchWork_doWork mBatch it f in
      mret (f, st, false)
  | WorkScheduler =>
      mret (f, if anyChildRunning f then WORK_RUNNING else WORK_WAITING, false)
  end.

Section Crank.
Context (crankWork : Work -> exc Work).

Definition Work_onAbort (f : WorkFields Work) : exc (WorkFields Work * bool) :=
  let (f, child) := yieldNextRunningChild f in
  match child with
  | Some j =>
      let* cs := adjust (onChild (fun c =>
                   do* releaseAssert (isAborting c) "child->isAborting()" in
                   crankWork c)) j (mChildren f) in
      mret (setChildren cs (mNextChild f) (mDoneChildren f) f, false)
  | None => mret (f, allChildrenDone f)
  end.

Definition Work_onRun (f : WorkFields Work) : exc (WorkFields Work * State * bool) :=
  if mAbortChildrenButNotSelf f then
    let* '(f, done) := Work_onAbort f in
    mret (f, if (done : bool) then WORK_FAILURE else WORK_RUNNING, false)
  else
    let (f, child) := yieldNextRunningChild f in
    match child with
    | Some j =>
        let* cs := adjust (onChild crankWork) j (mChildren f) in
        mret (setChildren cs (mNextChild f) (mDoneChildren f) f, WORK_RUNNING, false)
    | None =>
        let* '(f, st, timer) := doWork f in
        if decide (st = WORK_SUCCESS) then
          do* releaseAssert (allChildrenSuccessful f) "allChildrenSuccessful()" in
          let* f := clearChildren f in
          mret (f, st, timer)
        else if bool_decide (st = WORK_FAILURE) && negb (allChildrenDone f) then
          let* f := shutdownChildren f in
          mret (setAbortChildren true f, WORK_RUNNING, timer)
        else mret (f, st, timer)
    end.

(** ** WorkSequence *)

(** One activation of [WorkSequence::onRun]; [again] is [this->onRun()]. *)
Definition sequenceRound (again : SequenceFields Work -> exc (SequenceFields Work * State))
    (f : SequenceFields Work) : exc (SequenceFields Work * State) :=
  let i := mNextInSequence f in
  let l := mSequenceOfWork f in
  match l !! i with
  | None => mret (f, getWorkStatus l)
  | Some w =>
      let crank (l : list Work) :=
        let* l := adjust crankWork i l in
        mret (setSequence l i true f, WORK_RUNNING) in
      if mCurrentExecuting f then
        let st := getState w in
        if bool_decide (st = WORK_SUCCESS) ||
           (bool_decide (st = WORK_FAILURE) && negb (mStopAtFirstFailure f))
        then again (setSequence l (S i) false f)
        else if decide (st = WORK_RUNNING) then crank l
        else mret (f, st)
      else
        let* l := adjust (startWork (wakeSelfUpCallback nullCallback)) i l in
        crank l
  end.

(** The second activation has no current work, so there is no third one. *)
Definition WorkSequence_onRun : SequenceFields Work -> exc (SequenceFields Work * State) :=
  sequenceRound (sequenceRound (fun _ => exc_throw OutOfFuel)).

Definition WorkSequence_onAbort (f : SequenceFields Work) : exc (SequenceFields Work * bool) :=
  match mSequenceOfWork f !! mNextInSequence f with
  | Some w =>
      if mCurrentExecuting f && negb (isDone w) then
        let* l := adjust crankWork (mNextInSequence f) (mSequenceOfWork f) in
        mret (setSequence l (mNextInSequence f) true f, false)
      else mret (f, true)
  | None => mret (f, true)
  end.

(** ** ConditionalWork *)

(** [onRun] once the work is started. *)
Definition conditionedRun (cond : option CondS) (w : Work) :
    exc (ConditionalFields Work * State) :=
  let* w := crankWork w in
  mret (mkConditionalFields cond w true, getState w).

(** The flag says that the waiting timer was armed. *)
Definition ConditionalWork_onRun (f : ConditionalFields Work) :
    exc (ConditionalFields Work * State * bool) :=
  if mWorkStarted f then
    let* '(f, st) := conditionedRun (mCondition f) (mConditionedWork f) in
    mret (f, st, false)
  else
    match mCondition f with
    | None => exc_throw (Throw "std::bad_function_call")
    | Some c =>
        let (c, holds) := condition c in
        if holds then
          let* w := startWork (wakeSelfUpCallback nullCallback) (mConditionedWork f) in
          let* '(f, st) := conditionedRun None w in
          mret (f, st, false)
        else
          mret (mkConditionalFields (Some c) (mConditionedWork f) false, WORK_WAITING, true)
    end.

Definition ConditionalWork_onAbort (f : ConditionalFields Work) :
    exc (ConditionalFields Work * bool) :=
  if mWorkStarted f && negb (isDone (mConditionedWork f)) then
    let* w := crankWork (mConditionedWork f) in
    mret (mkConditionalFields (mCondition f) w true, false)
  else mret (f, true).

(** ** crankWork *)

(** The waiting timer is armed while the work is still [RUNNING]. *)
Definition armed (r : Work * State * bool) : exc (Work * State) :=
  let '(w, st, timer) := r in
  if (timer : bool) then let* w := setupWaitingCallback w in mret (w, st) else mret (w, st).

Definition onRun (w : Work) : exc (Work * State) :=
  match kind w with
  | KLeaf l =>
      let '(l, st, timer) := leaf_onRun l in
      armed (MkWork (base w) (KLeaf l), st, timer)
  | KWork f =>
      let* '(f, st, timer) := Work_onRun f in
      armed (MkWork (base w) (KWork f), st, timer)
  | KSequence f =>
      let* '(f, st) := WorkSequence_onRun f in
      mret (MkWork (base w) (KSequence f), st)
  | KConditional f =>
      let* '(f, st, timer) := ConditionalWork_onRun f in
      armed (MkWork (base w) (KConditional f), st, timer)
  end.

Definition onAbort (w : Work) : exc (Work * bool) :=
  match kind w with
  | KLeaf l => let (l, done) := leaf_onAbort l in mret (MkWork (base w) (KLeaf l), done)
  | KWork f =>
      let* '(f, done) := Work_onAbort f in mret (MkWork (base w) (KWork f), done)
  | KSequence f =>
      let* '(f, done) := WorkSequence_onAbort f in mret (MkWork (base w) (KSequence f), done)
  | KConditional f =>
      let* '(f, done) := ConditionalWork_onAbort f in
      mret (MkWork (base w) (KConditional f), done)
  end.

End Crank.

(** Every level of recursion goes down one level of the tree. *)
Fixpoint crankFuel (n : nat) (w : Work) : exc Work :=
  match n with
  | O => exc_throw OutOfFuel
  | S n' =>
      do* releaseAssert (negb (isDone w) && negb (bool_decide (state w = WAITING)))
        "!isDone() && mState != WAITING" in
      if decide (state w = ABORTING) then
        let* '(w, doneAborting) := onAbort (crankFuel n') w in
        setState (if (doneAborting : bool) then ABORTED else ABORTING) w
      else
        let* '(w, st) := onRun (crankFuel n') w in
        setState (getInternalState st) w
  end.

End Code.

Section Height.
Context `{Members}.

Fixpoint height (w : Work) : nat :=
  match w with
  | MkWork _ k =>
      S match k with
        | KLeaf _ => 0
        | KWork f => list_max ((fun c => height c.2) <$> mChildren f)
        | KSequence f => list_max (height <$> mSequenceOfWork f)
        | KConditional f => height (mConditionedWork f)
        end
  end.

End Height.

Definition crankWork `{Implementers} (w : Work) : exc Work := crankFuel (height w) w.

(** ** WorkWithCallback *)

(** [onRun]: the callback throws a [std::runtime_error] or returns whether it worked. *)
Definition WorkWithCallback_onRun (mCallback : exc bool) : exc State :=
  match mCallback with
  | inl (Throw _) => mret WORK_FAILURE
  | inl f => exc_throw f
  | inr res => mret (if res then WORK_SUCCESS else WORK_FAILURE)
  end.

(** ** Constructors *)

Section Constructors.
Context `{Members}.

Definition newBasicWork (name : string) (maxRetries : nat) : BasicWork :=
  mkBasicWork name PENDING 0 maxRetries false false nullCallback.
Definition newLeaf (name : string) (maxRetries : nat) (l : LeafS) : Work :=
  MkWork (newBasicWork name maxRetries) (KLeaf l).
Definition newWork (name : string) (maxRetries : nat) (s : Subclass) : Work :=
  MkWork (newBasicWork name maxRetries) (KWork (mkWorkFields [] None 0 0 false s)).
Definition newBatchWork (name : string) (it : IterS) : Work :=
  newWork name RETRY_NEVER (BatchWork ∅ it).
Definition newWorkSequence (name : string) (sequence : list Work) (maxRetries : nat)
    (stopAtFirstFailure : bool) : Work :=
  MkWork (newBasicWork name maxRetries)
    (KSequence (mkSequenceFields sequence 0 false stopAtFirstFailure)).
Definition newConditionalWork (name : string) (c : CondS) (conditionedWork : Work) : Work :=
  MkWork (newBasicWork name RETRY_NEVER)
    (KConditional (mkConditionalFields (Some c) conditionedWork false)).

End Constructors.

(** ** The scheduler and the main thread *)

(** The root of the tree, [WorkScheduler::mScheduled], and the number of its closures
    in the queue of the main thread. *)
Record World `{Members} : Type := mkWorld {
  root : Work;
  mScheduled : bool;
  posted : nat }.
Arguments mkWorld {_}.

Section Scheduler.
Context `{Implementers}.

Definition scheduleOne (s : World) : World :=
  if mScheduled s then s else mkWorld (root s) true (S (posted s)).

(** The loop of the posted closure: one crank, then as many as [shouldYield] allows. *)
Fixpoint crankLoop (budget : nat) (w : Work) : exc Work :=
  let* w := crankWork w in
  match budget with
  | O => mret w
  | S budget' =>
      if decide (getState w = WORK_RUNNING) then crankLoop budget' w else mret w
  end.

(** The main thread runs a posted closure. *)
Definition runPosted (budget : nat) (s : World) : exc World :=
  match posted s with
  | O => mret s
  | S n =>
      let* w := crankLoop budget (root s) in
      let s := mkWorld w false n in
      mret (if decide (getState w = WORK_RUNNING) then scheduleOne s else s)
  end.

(** [WorkScheduler::create]. *)
Definition createScheduler : exc World :=
  let* w := startWork nullCallback (newWork "work-scheduler" RETRY_NEVER WorkScheduler) in
  let* w := crankWork w in
  mret (mkWorld w false 0).

(** Run the callbacks a work invoked on its parent: [wakeSelfUpCallback] is the
    parent's [wakeUp], the others are left for the scheduler. *)
Fixpoint notifyParent (cbs : list Callback) (parent : Work) : exc (Work * list Callback) :=
  match cbs with
  | [] => mret (parent, [])
  | wakeSelfUpCallback inner :: cbs' =>
      let* '(parent, up) := wakeUp inner parent in
      let* '(parent, up') := notifyParent cbs' parent in
      mret (parent, up ++ up')
  | scheduleOneCallback :: cbs' =>
      let* '(parent, up) := notifyParent cbs' parent in
      mret (parent, scheduleOneCallback :: up)
  | nullCallback :: cbs' => notifyParent cbs' parent
  end.

(** [adjust] for an operation that also returns callbacks. *)
Fixpoint adjustWith {A} (g : A -> exc (A * list Callback)) (i : nat) (l : list A) :
    exc (list A * list Callback) :=
  match l, i with
  | [], _ => mret ([], [])
  | x :: l', O => let* '(x, cbs) := g x in mret (x :: l', cbs)
  | x :: l', S i' => let* '(r, cbs) := adjustWith g i' l' in mret (x :: r, cbs)
  end.

(** Run an event handler of the work at a path, and the callbacks it leads to. *)
Fixpoint atPath (g : Work -> exc (Work * list Callback)) (p : list nat) (w : Work) :
    exc (Work * list Callback) :=
  match p with
  | [] => g w
  | i :: p' =>
      let* '(k, cbs) :=
        match kind w with
        | KLeaf l => mret (KLeaf l, [])
        | KWork f =>
            let* '(cs, cbs) := adjustWith (fun c : nat * Work =>
                let* '(c', cbs) := atPath g p' c.2 in mret ((c.1, c'), cbs))
              i (mChildren f) in
            mret (KWork (setChildren cs (mNextChild f) (mDoneChildren f) f), cbs)
        | KSequence f =>
            let* '(l, cbs) := adjustWith (atPath g p') i (mSequenceOfWork f) in
            mret (KSequence (setSequence l (mNextInSequence f) (mCurrentExecuting f) f), cbs)
        | KConditional f =>
            let* '(c, cbs) := atPath g p' (mConditionedWork f) in
            mret (KConditional (mkConditionalFields (mCondition f) c (mWorkStarted f)), cbs)
        end in
      notifyParent cbs (MkWork (base w) k)
  end.

(** The callbacks that reach the scheduler object. *)
Definition runCallbacks (cbs : list Callback) (s : World) : World :=
  foldl (fun s cb => match cb with scheduleOneCallback => scheduleOne s | _ => s end) s cbs.

Definition onTree (g : Work -> exc (Work * list Callback)) (p : list nat) (s : World) :
    exc World :=
  let* '(w, cbs) := atPath g p (root s) in
  mret (runCallbacks cbs (mkWorld w (mScheduled s) (posted s))).

(** [WorkScheduler::scheduleWork], and [addWork] with its final [wakeSelf()]. *)
Definition scheduleWork (child : Work) (s : World) : exc World :=
  if isAborting (root s) || isDone (root s) then mret s
  else
    match kind (root s) with
    | KWork f =>
        let* f := addStarted scheduleOneCallback child f in
        let* '(w, cbs) := wakeUp scheduleOneCallback (MkWork (base (root s)) (KWork f)) in
        mret (runCallbacks cbs (mkWorld w (mScheduled s) (posted s)))
    | _ => exc_throw (Throw "the scheduler is a Work")
    end.

(** [WorkScheduler::shutdown]. *)
Definition schedulerShutdown (s : World) : exc World :=
  if isDone (root s) then mret s
  else
    let* w := shutdown (root s) in
    mret (scheduleOne (mkWorld w (mScheduled s) (posted s))).

(** What happens to the tree: the main thread runs the posted closure, a timer of
    the work at a path expires, an implementer's own event wakes its work, a work is
    scheduled, the application shuts down. *)
Inductive Event : Type :=
  | RunPosted (budget : nat)
  | RetryTimer (p : list nat)
  | WaitingTimer (p : list nat)
  | WakeUp (p : list nat)
  | ScheduleWork (child : Work)
  | Shutdown.

(** A handler that runs only when its timer exists. *)
Definition ifTimer (timer : BasicWork -> bool) (g : Work -> exc (Work * list Callback))
    (w : Work) : exc (Work * list Callback) :=
  if timer (base w) then g w else mret (w, []).

Definition step (s : World) (e : Event) : exc World :=
  match e with
  | RunPosted budget => runPosted budget s
  | RetryTimer p => onTree (ifTimer mRetryTimer retryTimerFired) p s
  | WaitingTimer p => onTree (ifTimer mWaitingTimer (wakeUp nullCallback)) p s
  | WakeUp p => onTree (wakeUp nullCallback) p s
  | ScheduleWork child => scheduleWork child s
  | Shutdown => schedulerShutdown s
  end.

Fixpoint run (s : World) (es : list Event) : exc World :=
  match es with
  | [] => mret s
  | e :: es' => let* s := step s e in run s es'
  end.

End Scheduler.
