(* ===== verification/WorkCrank.v ===== *)
(** * Asynchronous work: the operations keep the invariant

    [startWork], [wakeUp], the retry timer, [shutdown] and [crankWork] of every class
    succeed on a well-formed work and leave one. *)

From stdpp Require Import base list gmap strings sets.
From S2P Require Import Prelude WorkModel WorkInv.

Section Crank.
Context `{Lawful}.

(** ** Heights *)

Lemma list_max_in (l : list nat) x : x ∈ l -> (x <= list_max l)%nat.
Proof.
  intros Hx. pose proof (proj1 (list_max_le l (list_max l)) (Nat.le_refl _)) as HF.
  rewrite List.Forall_forall in HF. apply HF. by apply list_elem_of_In.
Qed.

Lemma height_subs b k : height (MkWork b k) = S (list_max (height <$> subs k)).
Proof.
  destruct k as [l|f|f|f]; cbn; try done.
  - by rewrite <-list_fmap_compose.
  - by rewrite Nat.max_0_r.
Qed.

Lemma height_sub b k c : c ∈ subs k -> (height c < height (MkWork b k))%nat.
Proof.
  intros Hc. rewrite height_subs. apply le_n_S, list_max_in.
  by apply list_elem_of_fmap_2.
Qed.

Lemma height_incl b b' k k' :
  (forall c, c ∈ subs k' -> c ∈ subs k) -> (height (MkWork b' k') <= height (MkWork b k))%nat.
Proof.
  intros Hi. rewrite !height_subs. apply le_n_S, list_max_le, List.Forall_forall.
  intros x Hx. apply list_elem_of_In, list_elem_of_fmap in Hx as (c & -> & Hc).
  apply list_max_in. apply list_elem_of_fmap_2. auto.
Qed.

(** ** Starting *)

Lemma setState_running b k k' :
  mState b = PENDING -> reset (MkWork b k) = inr (MkWork (setRetryTimer false b) k') ->
  setState RUNNING (MkWork b k) =
  inr (MkWork (setMState RUNNING (setRetries 0 (setRetryTimer false b))) k').
Proof.
  destruct b as [? s ? ? ? ? ?]. cbn [mState]. intros -> E.
  unfold setState. cbn [base]. rewrite decide_False by (by intros [? _]).
  unfold enterState, state. cbn [base mState].
  change (assertValidTransition (PENDING, RUNNING)) with (inr tt : exc unit).
  rewrite (decide_True (P := PENDING = PENDING /\ _)) by done.
  unfold bnd at 1 2 3, mbind, exc_bind. cbn -[reset]. rewrite E. done.
Qed.

(** A startable work is ready for the reset that starts it. *)
Lemma Startable_reset b b' k :
  WF (MkWork b k) -> Startable (MkWork b k) -> mMaxRetries b' = mMaxRetries b ->
  ResetOK b' k.
Proof.
  intros (Hb & HK & Hs)%WF_inv Hst Hm.
  assert (Hrest : resting b = true).
  { unfold Startable, isDone, state in Hst. cbn in Hst. unfold resting.
    destruct Hst as [->|[Hd _]]; [done|]. by destruct (mState b). }
  destruct k as [l|f|f|f]; cbn in *; [done| | |].
  - destruct (work_resting _ _ HK Hrest) as [-> _]. set_solver.
  - pose proof (seq_resting _ _ HK Hrest) as Hcur.
    assert (Hstill : forall w, w ∈ mSequenceOfWork f -> still w = true).
    { intros w Hw. apply list_elem_of_lookup in Hw as [i Hi].
      eapply (seq_still _ _ HK); [done|by right]. }
    split_and!; [intros i w Hi Hlt; by apply (seq_before _ _ HK i w)|done| |].
    + rewrite Hm. apply (seq_restart _ _ HK).
    + intros _ w Hw. destruct Hst as [Hp|[_ Hr]].
      * apply (seq_pending _ _ HK); [by left|done].
      * inversion Hr; subst. apply still_startable; auto.
  - rewrite Hm. split_and!; [apply (cond_never _ _ HK)|apply (cond_still _ _ HK); by right|].
    intros _.
    destruct Hst as [Hp|[_ Hr]]; [|inversion Hr].
    apply (cond_pending _ _ HK). by left.
Qed.

Lemma startWork_ok cb w :
  WF w -> Startable w ->
  exists w', startWork cb w = inr w' /\ WF w' /\ state w' = RUNNING /\
    mNotifyCallback (base w') = cb /\ (Restartable w -> Restartable w') /\
    isScheduler (kind w') = isScheduler (kind w) /\ (height w' <= height w)%nat.
Proof.
  destruct w as [b k]. intros HW Hst.
  set (b0 := setNotifyCallback cb (setMState PENDING b)).
  set (b' := setMState RUNNING (setRetries 0 (setRetryTimer false b0))).
  pose proof (Startable_reset b b' k HW Hst eq_refl) as HR.
  apply WF_inv in HW as (Hb & HK & Hs).
  assert (Hnt : mRetryTimer b = false /\ mWaitingTimer b = false).
  { unfold Startable, isDone, state in Hst. cbn in Hst. destruct Hb as [_ Hr Hw _ _].
    split; apply not_true_is_false; intros Ht.
    - destruct (Hr Ht) as [E|E]; rewrite E in Hst; destruct Hst as [?|[? ?]]; done.
    - destruct (Hw Ht) as [E _]; rewrite E in Hst; destruct Hst as [?|[? ?]]; done. }
  assert (Hb' : BaseOK b').
  { destruct Hnt as [? Hnw]. split; cbn; try done; try lia. by rewrite Hnw. }
  destruct (reset_ok b0 b' k) as (k' & E & HK' & Hi & [Hr Hsc _]);
    [cbn; by rewrite (proj1 Hnt)|done|done|by right|done|].
  exists (MkWork b' k'). split_and!; try done.
  - assert (E0 : (if decide (mState b = PENDING) then mret (MkWork b k)
                  else setState PENDING (MkWork b k)) = inr (MkWork (setMState PENDING b) k)).
    { case_decide as Hp; [destruct b; cbn in *; by subst|].
      apply setState_plain; [|by right; right; left].
      destruct Hst as [?|[Hd _]]; [done|]. unfold isDone, state in Hd. cbn in Hd.
      destruct (mState b); try done; allowed. }
    unfold startWork, state. cbn [base]. rewrite E0. cbn -[setState].
    change (onBase (setNotifyCallback cb) (MkWork (setMState PENDING b) k)) with (MkWork b0 k).
    rewrite (setState_running b0 k k' eq_refl E). done.
  - apply WF_make; [done..|]. by eapply SubsOK_incl.
  - intros HR'. by eapply Restartable_base, Hr, Restartable_base.
  - by apply height_incl.
Qed.

(** ** Waking up *)

Definition awake (b : BasicWork) : BasicWork := setWaitingTimer false (setMState RUNNING b).

Lemma retrying_waiting b : mState b = WAITING -> retrying b = mRetryTimer b.
Proof. unfold retrying. intros ->. done. Qed.

Lemma BaseOK_awake b : BaseOK b -> mState b = WAITING -> retrying b = false -> BaseOK (awake b).
Proof.
  intros [? ? ? ? ?] Hst Hr. rewrite retrying_waiting in Hr by done.
  split; cbn; try done. by rewrite Hr.
Qed.

Lemma wakeUp_ok inner b k :
  BaseOK b -> mState b = WAITING -> retrying b = false -> KindOK (awake b) k -> SubsOK k ->
  wakeUp inner (MkWork b k) = inr (MkWork (awake b) k, [inner; mNotifyCallback b]) /\
  WF (MkWork (awake b) k).
Proof.
  intros Hb Hst Hr HK Hs. split; [|apply WF_make; [by apply BaseOK_awake|done..]].
  unfold wakeUp, state. cbn [base]. rewrite decide_True by done.
  rewrite setState_plain; [done| |].
  - rewrite Hst. allowed.
  - do 3 right. by rewrite Hst.
Qed.

Lemma active_waiting b : mState b = WAITING -> retrying b = false -> active b = true.
Proof. intros Hst. rewrite retrying_waiting by done. unfold active. rewrite Hst. by intros ->. Qed.

(** A waiting work may run again; a [ConditionalWork] only with its conditioned work. *)
Lemma KindOK_awake b k :
  KindOK b k -> mState b = WAITING -> retrying b = false ->
  (forall f, k = KConditional f -> mWorkStarted f = false) -> KindOK (awake b) k.
Proof.
  intros HK Hst Hr Hc. pose proof (active_waiting b Hst Hr) as Ha.
  destruct k as [l|f|f|f]; cbn in *; [done| | |].
  - destruct HK as [Htr Hre Hab Hsp Hg Hw Hb Hrw Hbw].
    split; cbn; try done; [by left| |by auto..].
    intros [?|Hm]; [done|]. apply Hsp. by right.
  - destruct HK as [Hn Hcu Hbf Hsl Hrs Hre Hrw Hp Haf Hw].
    split; cbn; try done.
    + intros Hcur. destruct (Hcu Hcur) as (w & ? & ? & ? & ?). exists w. split_and!; try done.
      intros _. auto.
    + intros i w Hi Hlt. destruct (Hbf i w Hi Hlt). split; [done|]. auto.
    + by intros [?|?].
    + intros _. apply Haf. done.
  - specialize (Hc f eq_refl). destruct HK as [Hn Hsd Hsi Hp Hpo Hsy Hsp].
    split; cbn; try done; [intros; congruence|by auto| |].
    + intros _. apply Hp. by right.
    + intros _ ?. congruence.
Qed.

(** ** The retry timer *)

Lemma KindOK_retry b k :
  BaseOK b -> KindOK b k -> retrying b = true ->
  KindOK (awake (setRetryTimer false (setRetries (S (mRetries b)) b))) k.
Proof.
  intros Hb HK Hr. pose proof (base_left _ Hb Hr) as Hleft.
  assert (Hst : mState b = WAITING /\ mRetryTimer b = true).
  { unfold retrying in Hr. apply andb_true_iff in Hr as [Hr ?].
    by apply bool_decide_eq_true in Hr. }
  destruct Hst as [Hst Ht].
  assert (Hrest : resting b = true) by (unfold resting; by rewrite Hst).
  destruct k as [l|f|f|f]; cbn in *; [done| | |].
  - destruct HK as [Htr Hre Hab Hsp Hg Hw Hbt Hrw Hbw].
    destruct (Hre Hrest) as [Hcs Hm]. rewrite Hcs in *.
    split; cbn; rewrite ?Hcs; try done; [congruence|set_solver|set_solver|].
    intros m it Hsub _ _. rewrite (Hrw m it Hsub Hr). split; [done|set_solver|].
    unfold ahead. rewrite Hcs. intros i c. rewrite drop_nil. set_solver.
  - destruct HK as [Hn Hcu Hbf Hsl Hrs Hre Hrw Hp Haf Hw].
    pose proof (Hre Hrest) as Hcur. pose proof (Hrw Hr) as Hz.
    split; cbn; rewrite ?Hcur, ?Hz; try done; try lia.
    + intros i w Hi _. eapply Hsl; [done|by right].
    + by intros [?|?].
    + intros _ i w Hi _. apply Hp; [by right|]. by eapply list_elem_of_lookup_2.
  - exfalso. rewrite (cond_never _ _ HK) in Hleft. unfold RETRY_NEVER in *. lia.
Qed.

(** ** Shutting down *)

(** A child after [shutdown]. *)
Definition ShutChild (c c' : nat * Work) : Prop :=
  c'.1 = c.1 /\ WF c'.2 /\ Keeps c.2 c'.2 /\ stopping c'.2 = true.

Lemma stopping_started w : stopping w = true -> state w <> PENDING.
Proof. unfold stopping, isDone, isAborting. by intros Hs E; rewrite E in Hs. Qed.

Lemma Forall2_addresses {A} (R : nat * A -> nat * A -> Prop) l l' :
  (forall c c', R c c' -> c'.1 = c.1) -> Forall2 R l l' -> l'.*1 = l.*1.
Proof. intros HR. induction 1 as [|c c' l l' Hc _ IH]; cbn; [done|]. by rewrite (HR _ _ Hc), IH. Qed.

Lemma ShutChild_in l l' c :
  Forall2 ShutChild l l' -> c ∈ l'.*2 ->
  exists c0, c0 ∈ l.*2 /\ WF c /\ Keeps c0 c /\ stopping c = true.
Proof.
  intros HF ([i w] & -> & Hc)%list_elem_of_fmap.
  destruct (Forall2_in_r _ _ _ _ HF Hc) as ([i0 w0] & Hin & _ & ? & ? & ?).
  exists w0. split_and!; try done. by apply (list_elem_of_fmap_2 snd _ (i0, w0)).
Qed.

(** A work that stops, or that only stops its children. *)
Lemma WorkOK_stopped b f :
  TreeOK (innerOf (KWork f)) f -> (forall c, c ∈ (mChildren f).*2 -> stopping c = true) ->
  mState b = ABORTING \/ (mState b = RUNNING /\ mAbortChildrenButNotSelf f = true) ->
  WorkOK b f.
Proof.
  intros Ht Hs Hst.
  assert (Hr : resting b = false /\ retrying b = false /\ mState b <> WAITING).
  { unfold resting, retrying. destruct Hst as [->|[-> _]]; done. }
  destruct Hr as (Hr1 & Hr2 & Hr3).
  assert (Hact : active b = true -> mAbortChildrenButNotSelf f = false -> False).
  { unfold active. destruct Hst as [->|[_ ->]]; done. }
  split; try congruence; try done.
  - intros _. naive_solver.
  - intros Ha Hm. by destruct (Hact Ha Hm).
  - intros m it _ Ha Hm. by destruct (Hact Ha Hm).
Qed.

Lemma WorkOK_stopping b f f' :
  TreeOK (innerOf (KWork f)) f -> Forall2 ShutChild (mChildren f) (mChildren f') ->
  mNextChild f' = mNextChild f -> mTotalChildren f' = mTotalChildren f ->
  innerOf (KWork f') = innerOf (KWork f) ->
  mState b = ABORTING \/ (mState b = RUNNING /\ mAbortChildrenButNotSelf f' = true) ->
  WorkOK b f'.
Proof.
  intros [Hn Had Hto Hsd] HF En Et Ei Hst.
  pose proof (Forall2_length _ _ _ HF) as Hl.
  assert (Ea : (mChildren f').*1 = (mChildren f).*1)
    by (apply (Forall2_addresses ShutChild); [by intros ?? []|done]).
  apply WorkOK_stopped; [|by intros c (? & ? & ? & ? & ?)%(ShutChild_in _ _ _ HF)|done].
  split; try congruence.
  - intros i. rewrite En, <-Hl. apply Hn.
  - intros i. rewrite Ea, Et. apply Hto.
  - intros c Hc. destruct (ShutChild_in _ _ _ HF Hc) as (c0 & Hc0 & _ & HK & Hs).
    split; [by apply stopping_started|]. rewrite (keeps_notify _ _ HK), Ei. by apply Hsd.
Qed.

(** What [shutdown] does to a work. *)
Definition ShutOK (w w' : Work) : Prop :=
  WF w' /\ Keeps w w' /\ state w' = (if isDone w then state w else ABORTING).

Lemma ShutOK_stopping w w' : ShutOK w w' -> stopping w' = true.
Proof.
  intros (_ & _ & E). unfold stopping, isDone, isAborting in *. rewrite E.
  by destruct (state w).
Qed.

Lemma shutdownChildren_list f :
  (forall c, c ∈ (mChildren f).*2 -> exists c', shutdown c = inr c' /\ ShutOK c c') ->
  (forall c, c ∈ (mChildren f).*2 -> WF c) ->
  exists cs, traverse (onChild (fun c => if isDone c then mret c else shutdown c))
               (mChildren f) = inr cs /\ Forall2 ShutChild (mChildren f) cs.
Proof.
  intros Hsh HW. apply traverse_ok. intros [i c] Hc.
  assert (Hc2 : c ∈ (mChildren f).*2) by (by apply (list_elem_of_fmap_2 snd _ (i, c))).
  unfold onChild. cbn. destruct (isDone c) eqn:Hd.
  - exists (i, c). split; [done|]. split_and!; cbn; [done|by apply HW|apply Keeps_refl|].
    unfold stopping. by rewrite Hd.
  - destruct (Hsh c Hc2) as (c' & -> & Hok). exists (i, c'). split; [done|].
    pose proof (ShutOK_stopping _ _ Hok). destruct Hok as (? & ? & ?). by split_and!.
Qed.

Definition aborting (b : BasicWork) : BasicWork := setMState ABORTING (resetWaitingTimer b).

Lemma BasicWork_shutdown_ok b k k' :
  BaseOK b -> Keeps (MkWork b k) (MkWork b k') -> SubsOK k' ->
  (isDone (MkWork b k) = true -> KindOK b k') ->
  (isDone (MkWork b k) = false -> KindOK (aborting b) k') ->
  exists w', BasicWork_shutdown (MkWork b k') = inr w' /\ ShutOK (MkWork b k) w'.
Proof.
  intros Hb HK Hs Hd Hn. unfold BasicWork_shutdown, ShutOK.
  change (isDone (MkWork b k')) with (isDone (MkWork b k)).
  destruct (isDone (MkWork b k)) eqn:E.
  - eexists. split; [done|]. split_and!; [|done..]. apply WF_make; auto.
  - exists (MkWork (aborting b) k'). split_and!; [|apply WF_make; auto|by apply Keeps_base|done].
    + unfold onBase. cbn [base kind]. rewrite setState_plain; [done| |by right; left].
      pose proof (base_retrying _ Hb) as Hr. unfold isDone, state in E. cbn in E |- *.
      destruct (mState b); try done; allowed.
    + destruct Hb as [? Hrt ? ? ?]. split; cbn; try done. by right.
Qed.

Lemma SequenceOK_stopping b f w w' :
  SequenceOK b f -> mCurrentExecuting f = true ->
  mSequenceOfWork f !! mNextInSequence f = Some w -> Keeps w w' -> stopping w' = true ->
  (forall b', mMaxRetries b' = mMaxRetries b -> mState b' = ABORTING ->
   SequenceOK b' (setSequence (<[mNextInSequence f := w']> (mSequenceOfWork f))
                    (mNextInSequence f) true f)).
Proof.
  intros [Hn Hcu Hbf Hsl Hrs Hre Hrw Hp Haf Hw] Hcur Hi HK Hst b' Hm Hb'.
  pose proof (lookup_lt_Some _ _ _ Hi) as Hlt.
  assert (Hr : resting b' = false /\ retrying b' = false /\ active b' = false).
  { unfold resting, retrying, active. by rewrite Hb'. }
  destruct Hr as (Hr1 & Hr2 & Hr3).
  split; cbn; rewrite ?length_insert; try done; try congruence.
  - intros _. exists w'. rewrite list_lookup_insert_eq by done.
    split_and!; [done| |congruence|done].
    rewrite (keeps_notify _ _ HK). destruct (Hcu Hcur) as (w0 & ? & ? & _). congruence.
  - intros i x Hx Hl. rewrite list_lookup_insert_ne in Hx by lia.
    split; [by apply (Hbf i)|]. congruence.
  - intros i x Hx [Hne|?]; [|done]. rewrite list_lookup_insert_ne in Hx by done.
    eapply Hsl; [done|by left].
  - rewrite Hm. intros Hpos x [->|Hx]%elem_of_insert; [|auto].
    apply (keeps_restart _ _ HK), Hrs; [done|]. by eapply list_elem_of_lookup_2.
  - intros [?|?]; congruence.
Qed.

Lemma shutdown_work b f :
  BaseOK b -> KindOK b (KWork f) -> SubsOK (KWork f) ->
  (forall c, c ∈ subs (KWork f) -> exists c', shutdown c = inr c' /\ ShutOK c c') ->
  exists w', shutdown (MkWork b (KWork f)) = inr w' /\ ShutOK (MkWork b (KWork f)) w'.
Proof.
  intros Hb HK HS IH.
  assert (HW : forall c, c ∈ subs (KWork f) -> WF c) by (intros; by apply HS).
  assert (Hsch : forall c, c ∈ subs (KWork f) -> isScheduler (kind c) = false)
    by (intros; by apply HS).
  cbn [shutdown].
  destruct (shutdownChildren_list f IH HW) as (cs & E & HF). rewrite E. cbn -[BasicWork_shutdown].
  apply BasicWork_shutdown_ok; [done|split; [constructor|done|done]| | |].
  - intros c Hc. cbn in Hc. destruct (ShutChild_in _ _ _ HF Hc) as (c0 & ? & ? & Hk & _).
    split; [done|]. rewrite (keeps_scheduler _ _ Hk). by apply Hsch.
  - intros Hd. assert (Hcs : mChildren f = []).
    { apply (work_resting _ _ HK). unfold isDone, state in Hd. cbn in Hd.
      unfold resting. by destruct (mState b). }
    rewrite Hcs in HF. apply Forall2_nil_inv_l in HF as ->.
    rewrite <-Hcs. destruct f. exact HK.
  - intros _. eapply WorkOK_stopping; [exact (work_tree _ _ HK)|done..|by left].
Qed.

Lemma shutdown_sequence b f :
  BaseOK b -> KindOK b (KSequence f) -> SubsOK (KSequence f) ->
  (forall c, c ∈ subs (KSequence f) -> exists c', shutdown c = inr c' /\ ShutOK c c') ->
  exists w', shutdown (MkWork b (KSequence f)) = inr w' /\ ShutOK (MkWork b (KSequence f)) w'.
Proof.
  intros Hb HK HS IH.
  assert (HW : forall c, c ∈ subs (KSequence f) -> WF c) by (intros; by apply HS).
  assert (Hsch : forall c, c ∈ subs (KSequence f) -> isScheduler (kind c) = false)
    by (intros; by apply HS).
  cbn [shutdown].
  destruct (mCurrentExecuting f) eqn:Hcur.
  - destruct (seq_current _ _ HK Hcur) as (w & Hi & _).
    pose proof (list_elem_of_lookup_2 _ _ _ Hi) as Hin.
    destruct (IH w Hin) as (w' & E & Hok).
    pose proof (ShutOK_stopping _ _ Hok) as Hst. destruct Hok as (HW' & Hk & _).
    rewrite (adjust_ok _ _ _ _ _ Hi E). cbn -[BasicWork_shutdown].
    apply BasicWork_shutdown_ok; [done| | | |].
    + split; [|done|done]. inversion 1; subst. constructor.
      cbn. intros x [->|Hx]%elem_of_insert; [|auto]. apply (keeps_restart _ _ Hk). auto.
    + intros c [->|Hc]%elem_of_insert; [|auto].
      split; [done|]. rewrite (keeps_scheduler _ _ Hk). by apply Hsch.
    + intros Hd. assert (resting b = true); [|by rewrite (seq_resting _ _ HK) in Hcur].
      unfold isDone, state in Hd. cbn in Hd. unfold resting. by destruct (mState b).
    + intros _. eapply SequenceOK_stopping; done.
  - cbn -[BasicWork_shutdown]. apply BasicWork_shutdown_ok; [done|apply Keeps_refl| |done|].
    + intros c Hc. auto.
    + intros _. destruct HK as [Hn Hcu Hbf Hsl Hrs Hre Hrw Hp Haf Hw].
      split; cbn; try done; try congruence.
      * intros i x Hx Hl. by destruct (Hbf i x Hx Hl).
      * by intros [?|?].
Qed.

Lemma shutdown_conditional b f :
  BaseOK b -> KindOK b (KConditional f) -> SubsOK (KConditional f) ->
  (forall c, c ∈ subs (KConditional f) -> exists c', shutdown c = inr c' /\ ShutOK c c') ->
  exists w', shutdown (MkWork b (KConditional f)) = inr w' /\ ShutOK (MkWork b (KConditional f)) w'.
Proof.
  intros Hb HK HS IH.
  assert (HW : forall c, c ∈ subs (KConditional f) -> WF c) by (intros; by apply HS).
  assert (Hsch : forall c, c ∈ subs (KConditional f) -> isScheduler (kind c) = false)
    by (intros; by apply HS).
  cbn [shutdown].
  destruct (mWorkStarted f) eqn:Hstd.
  - destruct (IH (mConditionedWork f)) as (w' & E & Hok); [cbn; set_solver|].
    pose proof (ShutOK_stopping _ _ Hok) as Hst. destruct Hok as (HW' & Hk & _).
    pose proof (stopping_started w' Hst) as Hnp.
    destruct HK as [Hn Hsd Hsi Hp Hpo Hsy Hsp]. destruct (Hsd Hstd) as (Hnot & Hwt & _).
    rewrite E. cbn -[BasicWork_shutdown].
    apply BasicWork_shutdown_ok; [done| | | |].
    + split; [inversion 1|done|done].
    + intros c Hc. apply list_elem_of_singleton in Hc as ->.
      split; [done|]. cbn. rewrite (keeps_scheduler _ _ Hk). apply Hsch. cbn. set_solver.
    + intros Hd. assert (Hrest : resting b = true).
      { unfold isDone, state in Hd. cbn in Hd. unfold resting. by destruct (mState b). }
      destruct (IH (mConditionedWork f)) as (w'' & E' & _ & _ & Est); [cbn; set_solver|].
      assert (w'' = w') as -> by congruence. specialize (Hsi (or_intror Hrest)).
      unfold isDone, state in Hd. cbn in Hd.
      split; cbn; try done; unfold active.
      * intros _. by rewrite (keeps_notify _ _ Hk).
      * intros _. destruct (Hsd Hstd) as (_ & _ & Hnp').
        unfold still in *. rewrite (bool_decide_false _ Hnp'), orb_false_r in Hsi.
        rewrite Hsi in Est. unfold isDone in *. by rewrite Est, Hsi.
      * destruct (mState b); naive_solver.
      * destruct (mState b); naive_solver.
    + intros _. split; cbn; try done.
      * intros _. by rewrite (keeps_notify _ _ Hk).
      * by intros [?|?].
      * by intros [?|[? ?]].
  - cbn -[BasicWork_shutdown]. apply BasicWork_shutdown_ok; [done|apply Keeps_refl| |done|].
    + intros c Hc. auto.
    + intros _. destruct HK as [Hn Hsd Hsi Hp Hpo Hsy Hsp].
      split; cbn; try done; try congruence; [by auto|]. by intros [?|[? ?]].
Qed.

Lemma shutdown_ok w : WF w -> exists w', shutdown w = inr w' /\ ShutOK w w'.
Proof.
  induction 1 as [b k Hb HK HW IH Hsch].
  assert (HS : SubsOK k) by (intros c Hc; auto).
  destruct k as [l|f|f|f].
  - apply BasicWork_shutdown_ok; [done|apply Keeps_refl|done..].
  - by apply shutdown_work.
  - by apply shutdown_sequence.
  - by apply shutdown_conditional.
Qed.

End Crank.
