(* ===== verification/WorkRun.v ===== *)
(** * Asynchronous work: a crank

    The round-robin over the children of a [Work], the [doWork] of the classes, the
    [onRun] and [onAbort] of every class, and [crankWork]: on a well-formed work that
    is running or aborting a crank succeeds and leaves a well-formed work. *)

From stdpp Require Import base list gmap strings sets.
From S2P Require Import Prelude WorkModel WorkInv WorkCrank.

Section Run.
Context `{Lawful}.

(** ** The next running child *)

Lemma yieldLoop_spec rest pre e cs next found e' :
  yieldLoop pre rest e = (cs, next, found, e') ->
  sublist cs (pre ++ rest) /\
  (forall x, x ∈ pre ++ rest -> x ∈ cs \/ (x ∈ rest /\ isDone x.2 = true)) /\
  match found with
  | Some j =>
      next = iterator cs (S j) /\
      (exists c, cs !! j = Some c /\ c ∈ rest /\ getState c.2 = WORK_RUNNING) /\
      (forall x, x ∈ drop (S j) cs -> x ∈ rest)
  | None => forall x, x ∈ rest -> getState x.2 <> WORK_RUNNING
  end.
Proof.
  revert pre e. induction rest as [|c rest IH]; intros pre e; cbn.
  - intros [= <- <- <- <-]. rewrite app_nil_r. split_and!; [done| |set_solver]. auto.
  - case_decide as Hr; [|destruct (isDone c.2) eqn:Hd].
    + intros [= <- <- <- <-]. split_and!; [done|auto|done| |].
      * exists c. rewrite list_lookup_middle by done. split_and!; [done|set_solver|done].
      * intros x. rewrite drop_app_ge by lia. replace (S (length pre) - length pre)%nat with 1%nat by lia.
        cbn. set_solver.
    + intros (Hs & Hin & Hf)%IH. split_and!.
      * etrans; [exact Hs|]. apply sublist_app; [done|]. by apply sublist_cons.
      * intros x [Hx|[->|Hx]%elem_of_cons]%elem_of_app; [|by right; set_solver|];
          (destruct (Hin x) as [?|[? ?]]; [set_solver|by left|right; set_solver]).
      * destruct found; [|set_solver]. destruct Hf as (? & (c' & ? & ? & ?) & Hd').
        split_and!; [done|exists c'; set_solver|set_solver].
    + intros (Hs & Hin & Hf)%IH. rewrite <-app_assoc in Hs, Hin. split_and!; [done| |].
      * intros x Hx. destruct (Hin x Hx) as [?|[? ?]]; [by left|right; set_solver].
      * destruct found; [|set_solver]. destruct Hf as (? & (c' & ? & ? & ?) & Hd').
        split_and!; [done|exists c'; set_solver|set_solver].
Qed.

Lemma iterator_Some {A} (l : list A) i j : iterator l i = Some j -> j = i /\ (i < length l)%nat.
Proof. unfold iterator. case_decide; [|done]. by intros [= ->]. Qed.

Lemma iterator_ahead f i :
  mNextChild f = iterator (mChildren f) i -> ahead f = drop i (mChildren f).
Proof.
  unfold ahead, iterator. intros ->. case_decide; cbn; [done|].
  rewrite !drop_ge by lia. done.
Qed.

(** What [yieldNextRunningChild] does: it drops done children of the current round and
    finds a running one, or starts a new round. *)
Record Yielded (f f' : WorkFields Work) (r : option nat) : Prop := {
  yd_sublist : sublist (mChildren f') (mChildren f);
  yd_dropped : forall x, x ∈ mChildren f -> x ∈ mChildren f' \/ (x ∈ ahead f /\ isDone x.2 = true);
  yd_total : mTotalChildren f' = mTotalChildren f;
  yd_abort : mAbortChildrenButNotSelf f' = mAbortChildrenButNotSelf f;
  yd_subclass : subclass f' = subclass f;
  yd_next : mNextChild f' = iterator (mChildren f') (match r with Some j => S j | None => 0 end);
  yd_found : forall j, r = Some j ->
    (exists c, mChildren f' !! j = Some c /\ c ∈ ahead f /\ getState c.2 = WORK_RUNNING) /\
    (forall x, x ∈ ahead f' -> x ∈ ahead f);
  yd_none : r = None -> forall x, x ∈ ahead f -> getState x.2 <> WORK_RUNNING }.

Lemma yield_spec f : exists f' r, yieldNextRunningChild f = (f', r) /\ Yielded f f' r.
Proof.
  unfold yieldNextRunningChild.
  destruct (yieldLoop _ _ _) as [[[cs next] found] e] eqn:E.
  apply yieldLoop_spec in E as (Hs & Hin & Hf). rewrite take_drop in Hs, Hin.
  destruct found as [j|]; eexists _, _; (split; [done|]).
  - destruct Hf as (-> & Hc & Hd). split; cbn; try done.
    intros ? [= <-]. split; [done|]. intros x.
    pose proof (iterator_ahead (setChildren cs (iterator cs (S j)) (mDoneChildren f + e) f)
      (S j) eq_refl) as Ea. unfold ahead in *. cbn in Ea |- *. rewrite Ea. apply Hd.
  - split; cbn; done.
Qed.

Lemma sublist_elem {A} (l l' : list A) x : sublist l l' -> x ∈ l -> x ∈ l'.
Proof. induction 1; set_solver. Qed.

Lemma TreeOK_yield inner f f' r : Yielded f f' r -> TreeOK inner f -> TreeOK inner f'.
Proof.
  intros [Hs _ Ht _ _ Hn _ _] [? Had Hto Hst]. split.
  - intros i Hi. rewrite Hn in Hi. by apply iterator_Some in Hi as [-> ?].
  - eapply sublist_NoDup; [exact Had|]. by apply fmap_sublist.
  - intros i Hi. rewrite Ht. apply Hto. eapply sublist_elem; [by apply fmap_sublist|done].
  - intros c Hc. apply Hst. eapply sublist_elem; [by apply fmap_sublist|done].
Qed.

Lemma yield_children f f' r c : Yielded f f' r -> c ∈ (mChildren f').*2 -> c ∈ (mChildren f).*2.
Proof. intros Hy Hc. eapply sublist_elem; [apply fmap_sublist, (yd_sublist _ _ _ Hy)|done]. Qed.

Lemma yield_found f f' j :
  Yielded f f' (Some j) ->
  exists i c, mChildren f' !! j = Some (i, c) /\ c ∈ (mChildren f).*2 /\
    (i, c) ∈ ahead f /\ getState c = WORK_RUNNING.
Proof.
  intros Hy. destruct (yd_found _ _ _ Hy j eq_refl) as [([i c] & Hj & Ha & Hr) _].
  exists i, c. split_and!; try done. eapply yield_children; [done|].
  apply (list_elem_of_fmap_2 snd _ (i, c)). by eapply list_elem_of_lookup_2.
Qed.

(** ** A child is cranked *)

(** What a crank does to a running or aborting work. *)
Record CrankOK (w w' : Work) : Prop := {
  crank_WF : WF w';
  crank_keeps : Keeps w w';
  crank_going : state w = RUNNING -> going w' = true;
  crank_stopping : state w = ABORTING -> stopping w' = true }.

Definition Cranks (n : nat) (crank : Work -> exc Work) : Prop :=
  forall w, WF w -> (height w <= n)%nat -> state w = RUNNING \/ state w = ABORTING ->
    exists w', crank w = inr w' /\ CrankOK w w'.

Lemma running_states w :
  getState w = WORK_RUNNING -> state w <> PENDING -> state w = RUNNING \/ state w = ABORTING.
Proof. unfold getState. destruct (state w); naive_solver. Qed.

Lemma going_started w : going w = true -> state w <> PENDING.
Proof. unfold going. by intros Hg E; rewrite E in Hg. Qed.

Lemma CrankOK_started w w' : CrankOK w w' -> state w = RUNNING \/ state w = ABORTING ->
  state w' <> PENDING.
Proof.
  intros [_ _ Hg Hs] [E|E]; [by apply going_started, Hg|by apply stopping_started, Hs].
Qed.

(** Put back the child at [j]. *)
Definition putChild (j i : nat) (c : Work) (f : WorkFields Work) : WorkFields Work :=
  setChildren (<[j := (i, c)]> (mChildren f)) (mNextChild f) (mDoneChildren f) f.

Lemma onChild_adjust (g : Work -> exc Work) f j i c c' :
  mChildren f !! j = Some (i, c) -> g c = inr c' ->
  adjust (onChild g) j (mChildren f) = inr (mChildren (putChild j i c' f)).
Proof.
  intros Hj Hg. eapply adjust_ok; [exact Hj|]. unfold onChild. cbn. by rewrite Hg.
Qed.

Lemma putChild_addresses f j i c c' :
  mChildren f !! j = Some (i, c) -> (mChildren (putChild j i c' f)).*1 = (mChildren f).*1.
Proof.
  intros Hj. cbn. rewrite list_fmap_insert. apply list_insert_id.
  by rewrite list_lookup_fmap, Hj.
Qed.

Lemma putChild_in f j i c x :
  x ∈ (mChildren (putChild j i c f)).*2 -> x = c \/ x ∈ (mChildren f).*2.
Proof. cbn. rewrite list_fmap_insert. apply elem_of_insert. Qed.

Lemma TreeOK_put inner f j i c c' :
  TreeOK inner f -> mChildren f !! j = Some (i, c) ->
  Keeps c c' -> state c' <> PENDING -> TreeOK inner (putChild j i c' f).
Proof.
  intros [Hn Had Hto Hst] Hj HK Hs. pose proof (putChild_addresses f j i c c' Hj) as Ea.
  split.
  - cbn. intros x Hx. rewrite length_insert. auto.
  - by rewrite Ea.
  - rewrite Ea. apply Hto.
  - intros x [->|Hx]%putChild_in; [|auto]. split; [done|].
    rewrite (keeps_notify _ _ HK). apply Hst.
    apply (list_elem_of_fmap_2 snd _ (i, c)). by eapply list_elem_of_lookup_2.
Qed.

Lemma SubsOK_put f j i c' :
  SubsOK (KWork f) -> WF c' -> isScheduler (kind c') = false ->
  SubsOK (KWork (putChild j i c' f)).
Proof. intros Hs HW Hn x [->|Hx]%putChild_in; [done|by apply Hs]. Qed.

(** Nothing ahead of the iterator is touched when the child before it is put back. *)
Lemma ahead_put f j i c :
  mNextChild f = iterator (mChildren f) (S j) -> ahead (putChild j i c f) = ahead f.
Proof.
  intros Hn. rewrite (iterator_ahead f (S j) Hn).
  rewrite (iterator_ahead (putChild j i c f) (S j)).
  - cbn. rewrite drop_insert_lt; [done|lia].
  - cbn. rewrite Hn. unfold iterator. by rewrite length_insert.
Qed.

(** ** Aborting the children *)

Lemma stopping_running c : stopping c = true -> getState c = WORK_RUNNING -> state c = ABORTING.
Proof. unfold stopping, isDone, isAborting, getState. by destruct (state c). Qed.

Lemma isAborting_true c : state c = ABORTING -> isAborting c = true.
Proof. unfold isAborting. by intros ->. Qed.

Lemma Work_onAbort_ok n crank f :
  Cranks n crank -> (forall c, c ∈ (mChildren f).*2 -> height c <= n)%nat ->
  TreeOK (innerOf (KWork f)) f -> SubsOK (KWork f) ->
  (forall c, c ∈ (mChildren f).*2 -> stopping c = true) ->
  exists f' done, Work_onAbort crank f = inr (f', done) /\ SubsOK (KWork f') /\
    TreeOK (innerOf (KWork f')) f' /\
    (forall c, c ∈ (mChildren f').*2 -> stopping c = true) /\
    isScheduler (KWork f') = isScheduler (KWork f) /\
    mAbortChildrenButNotSelf f' = mAbortChildrenButNotSelf f /\
    (done = true -> forall c, c ∈ (mChildren f').*2 -> isDone c = true).
Proof.
  intros Hcr Hh Ht Hs Hstop.
  destruct (yield_spec f) as (f1 & r & Ey & Hy). unfold Work_onAbort. rewrite Ey.
  assert (Hsch : isScheduler (KWork f1) = isScheduler (KWork f))
    by (unfold isScheduler; by rewrite (yd_subclass _ _ _ Hy)).
  assert (Ht1 : TreeOK (innerOf (KWork f1)) f1).
  { unfold innerOf. rewrite Hsch. by eapply TreeOK_yield. }
  assert (Hs1 : SubsOK (KWork f1))
    by (intros c Hc; apply Hs; by eapply yield_children).
  assert (Hab : mAbortChildrenButNotSelf f1 = mAbortChildrenButNotSelf f)
    by apply (yd_abort _ _ _ Hy).
  destruct r as [j|].
  - destruct (yield_found _ _ _ Hy) as (i & c & Hj & Hc & _ & Hrun).
    pose proof (stopping_running c (Hstop c Hc) Hrun) as Hst.
    destruct (Hcr c) as (c' & Ec & Hok); [by apply Hs|by apply Hh|by right|].
    destruct Hok as [HW' HK' _ Hst'].
    rewrite (onChild_adjust _ f1 j i c c' Hj) by (by rewrite isAborting_true).
    exists (putChild j i c' f1), false. split_and!; [done| | | |done|done|done].
    + apply SubsOK_put; [done..|]. rewrite (keeps_scheduler _ _ HK'). by apply Hs.
    + apply (TreeOK_put _ f1 j i c c'); [done..|]. by apply stopping_started, Hst'.
    + intros x [->|Hx]%putChild_in; [by apply Hst'|]. apply Hstop. by eapply yield_children.
  - exists f1, (allChildrenDone f1). split_and!; [done..| |done|done|].
    + intros c Hc. apply Hstop. by eapply yield_children.
    + unfold allChildrenDone, children. intros Hd c Hc.
      rewrite forallb_forall in Hd. apply Hd. by apply list_elem_of_In.
Qed.

(** ** Adding children *)

Lemma Fresh_startable w : Fresh w -> WF w /\ Startable w.
Proof. intros (? & ? & ?). split; [done|by left]. Qed.

Lemma addChild_next w f :
  mNextChild f = iterator (mChildren f) 0 ->
  mNextChild (addChild w f) = iterator (mChildren (addChild w f)) 0.
Proof.
  intros Hn. cbn. case_bool_decide as Hc; [done|]. rewrite Hn. unfold iterator.
  rewrite length_app. destruct (mChildren f); [done|]. cbn. rewrite !decide_True by lia. done.
Qed.

Lemma TreeOK_add inner w f :
  TreeOK inner f -> state w <> PENDING ->
  mNotifyCallback (base w) = wakeSelfUpCallback inner -> TreeOK inner (addChild w f).
Proof.
  intros [Hn Had Hto Hst] Hs Hc. split; cbn.
  - intros i. rewrite length_app. cbn. case_bool_decide as He.
    + intros Hi. apply iterator_Some in Hi as [-> _]. lia.
    + intros Hi. pose proof (Hn i Hi). lia.
  - rewrite fmap_app. cbn. apply NoDup_app. split_and!; [done| |apply NoDup_singleton].
    intros i Hi ->%list_elem_of_singleton. pose proof (Hto _ Hi). lia.
  - intros i. rewrite fmap_app. intros [Hi|Hi]%elem_of_app; cbn in *.
    + pose proof (Hto _ Hi). lia.
    + apply list_elem_of_singleton in Hi. lia.
  - intros c. rewrite fmap_app. intros [Hi|Hi]%elem_of_app; [auto|]. cbn in Hi.
    apply list_elem_of_singleton in Hi as ->. done.
Qed.

(** The children [doWork] works on and leaves: none has been told to stop, and the
    next round starts from the first. *)
Record RoundOK (f : WorkFields Work) : Prop := {
  rd_tree : TreeOK (innerOf (KWork f)) f;
  rd_subs : SubsOK (KWork f);
  rd_going : forall c, c ∈ (mChildren f).*2 -> going c = true;
  rd_abort : mAbortChildrenButNotSelf f = false;
  rd_next : mNextChild f = iterator (mChildren f) 0 }.

Lemma addStarted_ok w f :
  RoundOK f -> isScheduler (KWork f) = false -> Fresh w ->
  exists w', addStarted nullCallback w f = inr (addChild w' f) /\ RoundOK (addChild w' f) /\
    state w' = RUNNING.
Proof.
  intros [Ht Hs Hg Hab Hn] Hsc Hf. pose proof (Fresh_startable w Hf) as [HW Hst].
  destruct (startWork_ok (wakeSelfUpCallback nullCallback) w HW Hst)
    as (w' & E & HW' & Hr & Hnc & _ & Hsc' & _).
  exists w'. split_and!; [|split|done].
  - unfold addStarted. by rewrite E.
  - apply TreeOK_add; [done|by rewrite Hr|]. rewrite Hnc.
    unfold innerOf. change (isScheduler (KWork (addChild w' f))) with (isScheduler (KWork f)).
    by rewrite Hsc.
  - intros c. cbn. rewrite fmap_app. intros [Hc|Hc]%elem_of_app; [by apply Hs|].
    cbn in Hc. apply list_elem_of_singleton in Hc as ->. rewrite Hsc'.
    split; [done|]. by destruct Hf as (_ & _ & ?).
  - intros c. cbn. rewrite fmap_app. intros [Hc|Hc]%elem_of_app; [by apply Hg|].
    cbn in Hc. apply list_elem_of_singleton in Hc as ->. unfold going. by rewrite Hr.
  - done.
  - by apply addChild_next.
Qed.

Lemma addWorks_ok new f :
  RoundOK f -> isScheduler (KWork f) = false -> (forall w, w ∈ new -> Fresh w) ->
  exists f', addWorks new f = inr f' /\ RoundOK f' /\ subclass f' = subclass f /\
    (new = [] -> f' = f).
Proof.
  revert f. induction new as [|w new IH]; intros f Hf Hsc Hnew; cbn.
  - exists f. done.
  - destruct (addStarted_ok w f Hf Hsc) as (w' & -> & Hf' & _); [set_solver|]. cbn.
    destruct (IH (addChild w' f)) as (f' & E & ? & ? & _); [done..|set_solver|].
    exists f'. split_and!; done.
Qed.

(** ** BatchWork *)

Lemma childAt_in f i c :
  NoDup (mChildren f).*1 -> (i, c) ∈ mChildren f -> childAt i f = Some c.
Proof.
  unfold childAt. induction (mChildren f) as [|[j d] l IH]; cbn; [set_solver|].
  intros Hnd Hin. apply NoDup_cons in Hnd as [Hj Hnd]. destruct (Nat.eqb_spec j i) as [->|Hne].
  - apply elem_of_cons in Hin as [[= ->]|Hin]; [done|]. destruct Hj.
    by apply (list_elem_of_fmap_2 fst _ (i, c)).
  - apply IH; [done|]. apply elem_of_cons in Hin as [[= -> ->]|Hin]; done.
Qed.

Lemma anyFailed_false l c : anyFailed l = false -> c ∈ l -> state c <> FAILURE.
Proof.
  intros Hf Hc E. apply not_true_iff_false in Hf. apply Hf. apply existsb_exists.
  exists c. split; [by apply list_elem_of_In|]. unfold getState. by rewrite E.
Qed.

Lemma anyRunning_false l c : anyRunning l = false -> c ∈ l -> state c <> RUNNING.
Proof.
  intros Hf Hc E. apply not_true_iff_false in Hf. apply Hf. apply existsb_exists.
  exists c. split; [by apply list_elem_of_In|]. unfold getState. by rewrite E.
Qed.

Lemma allSuccessful_spec l :
  allSuccessful l = true <-> forall c, c ∈ l -> state c = SUCCESS.
Proof.
  unfold allSuccessful. rewrite forallb_forall. split; intros Hl c Hc.
  - specialize (Hl c (proj1 (list_elem_of_In _ _) Hc)). apply bool_decide_eq_true in Hl.
    unfold getState in Hl. by destruct (state c).
  - unfold getState. by rewrite (Hl c (proj2 (list_elem_of_In _ _) Hc)).
Qed.

Lemma going_done c : going c = true -> isDone c = true -> state c <> FAILURE -> state c = SUCCESS.
Proof. unfold going, isDone. by destruct (state c). Qed.

Lemma round_ahead f : RoundOK f -> ahead f = mChildren f.
Proof. intros [_ _ _ _ Hn]. rewrite (iterator_ahead f 0 Hn). apply drop_0. Qed.

Lemma cleanBatch_ok m it f :
  RoundOK f -> anyChildRaiseFailure f = false ->
  (forall name, name ∈ remaining it -> m !! name = None) ->
  (forall name i, m !! name = Some i -> i ∈ (mChildren f).*1) ->
  BatchOK (cleanBatch m f) it f.
Proof.
  intros Hf Hfail Hnew Hch. split.
  - intros name Hn. unfold cleanBatch. apply map_lookup_filter_None_2. left. auto.
  - intros name i Hi. unfold cleanBatch in Hi. apply map_lookup_filter_Some in Hi as [Hi _]. eauto.
  - rewrite (round_ahead f Hf). intros i c Hc Hd.
    assert (Hin : c ∈ (mChildren f).*2) by (by apply (list_elem_of_fmap_2 snd _ (i, c))).
    assert (Hok : state c = SUCCESS).
    { apply going_done; [by apply (rd_going _ Hf)|done|].
      by apply (anyFailed_false (children f)). }
    split; [done|]. intros name Hi. unfold cleanBatch in Hi.
    apply map_lookup_filter_Some in Hi as [_ Hi]. apply Hi. cbn.
    rewrite (childAt_in f i c (tree_addresses _ _ (rd_tree _ Hf)) Hc). cbn.
    unfold getState. by rewrite Hok.
Qed.

Lemma BatchOK_add m it it' f w name :
  BatchOK m it f -> RoundOK f -> RoundOK (addChild w f) -> state w = RUNNING ->
  remaining it = name :: remaining it' ->
  BatchOK (<[name := mTotalChildren f]> m) it' (addChild w f).
Proof.
  intros [Hnew Hch Hseen] Hf Hf' Hw Hr. split.
  - intros x Hx. rewrite lookup_insert_ne; [apply Hnew; rewrite Hr; set_solver|].
    pose proof (remaining_NoDup it) as Hnd. rewrite Hr in Hnd.
    apply NoDup_cons in Hnd as [Hni _]. by intros ->.
  - intros x i. cbn. rewrite fmap_app. cbn.
    destruct (decide (x = name)) as [->|Hne].
    + rewrite lookup_insert_eq. intros [= <-]. set_solver.
    + rewrite lookup_insert_ne by done. intros Hi. apply elem_of_app. left. eauto.
  - rewrite (round_ahead _ Hf'). cbn. intros i c [Hc|Hc]%elem_of_app Hd.
    + rewrite <-(round_ahead _ Hf) in Hc. destruct (Hseen i c Hc Hd) as [? Hni].
      split; [done|]. intros x. destruct (decide (x = name)) as [->|Hne].
      * rewrite lookup_insert_eq. intros [= E].
        pose proof (tree_total _ _ (rd_tree _ Hf) i) as Hlt. subst i.
        rewrite (round_ahead _ Hf) in Hc.
        specialize (Hlt (list_elem_of_fmap_2 fst _ _ Hc)). lia.
      * by rewrite lookup_insert_ne.
    + apply list_elem_of_singleton in Hc as [= -> ->]. unfold isDone in Hd. by rewrite Hw in Hd.
Qed.

Lemma addMoreWork_ok n m it f :
  RoundOK f -> isScheduler (KWork f) = false -> BatchOK m it f ->
  (MAX_CONCURRENT_SUBPROCESSES <= n + size m)%nat ->
  exists m' it' f', addMoreWork n m it f = inr (m', it', f') /\ RoundOK f' /\
    subclass f' = subclass f /\ BatchOK m' it' f' /\
    (forall x, x ∈ mChildren f -> x ∈ mChildren f') /\
    ((size m' < MAX_CONCURRENT_SUBPROCESSES)%nat -> hasNext it' = false).
Proof.
  revert m it f. induction n as [|n IH]; intros m it f Hf Hsc Hb Hn; cbn [addMoreWork].
  - rewrite (proj2 (Nat.ltb_ge _ _)) by lia. cbn. exists m, it, f. split_and!; try done. lia.
  - destruct (Nat.ltb_spec (size m) MAX_CONCURRENT_SUBPROCESSES) as [Hlt|Hge]; cbn.
    2: { exists m, it, f. split_and!; try done. lia. }
    destruct (hasNext it) eqn:Hh; [|by exists m, it, f; split_and!].
    destruct (yieldMoreWork it) as [it' w] eqn:Ey.
    destruct (yieldMoreWork_ok it it' w Ey Hh) as [Hw Hr].
    destruct (addStarted_ok w f Hf Hsc Hw) as (w' & -> & Hf' & Hrun). cbn.
    assert (Hnone : m !! mName (base w) = None).
    { apply (batch_new _ _ _ Hb). rewrite Hr. set_solver. }
    rewrite Hnone.
    destruct (IH (<[mName (base w) := mTotalChildren f]> m) it' (addChild w' f))
      as (m' & it'' & f' & E & ? & ? & ? & Hinc & ?); [done|done|by eapply BatchOK_add| |].
    + rewrite map_size_insert_None by done. lia.
    + exists m', it'', f'. split_and!; try done. intros x Hx. apply Hinc. cbn. set_solver.
Qed.

(** ** doWork *)

(** What [doWork] leaves, for the state it asks for. *)
Record Worked (f f' : WorkFields Work) (st : State) (timer : bool) : Prop := {
  wk_round : RoundOK f';
  wk_scheduler : isScheduler (KWork f') = isScheduler (KWork f);
  wk_state : st <> WORK_ABORTED;
  wk_timer : timer = true -> st = WORK_WAITING;
  wk_success : st = WORK_SUCCESS -> forall c, c ∈ (mChildren f').*2 -> state c = SUCCESS;
  wk_waiting : st = WORK_WAITING -> forall c, c ∈ (mChildren f').*2 -> state c <> RUNNING;
  wk_batch : forall m it, subclass f' = BatchWork m it -> st <> WORK_FAILURE -> BatchOK m it f';
  wk_batchWaits : forall m it, subclass f' = BatchWork m it -> st = WORK_WAITING ->
    exists c, c ∈ (mChildren f').*2 /\ state c = WAITING }.

Lemma RoundOK_subclass f s :
  RoundOK f -> isScheduler (KWork (setSubclass s f)) = isScheduler (KWork f) ->
  RoundOK (setSubclass s f).
Proof.
  intros [[? ? ? ?] ? ? ? ?] Hsc. split; cbn; try done. split; cbn; try done.
  unfold innerOf in *. by rewrite Hsc.
Qed.

Lemma not_success_waits m it f :
  RoundOK f -> BatchOK m it f -> allChildrenSuccessful f = false -> anyChildRunning f = false ->
  exists c, c ∈ (mChildren f).*2 /\ state c = WAITING.
Proof.
  intros Hf Hb Hs Hr.
  assert (Hex : exists c, c ∈ children f /\ state c <> SUCCESS).
  { destruct (decide (Exists (fun c => state c <> SUCCESS) (children f))) as [He|Hn].
    - by apply Exists_exists in He.
    - exfalso. apply not_true_iff_false in Hs. apply Hs, allSuccessful_spec. intros c Hc.
      destruct (decide (state c = SUCCESS)) as [|Hne]; [done|]. destruct Hn.
      apply Exists_exists. by exists c. }
  destruct Hex as (c & Hc & Hns). exists c. split; [done|].
  pose proof (rd_going _ Hf c Hc) as Hg. pose proof (anyRunning_false _ c Hr Hc) as Hnr.
  unfold children in Hc. apply list_elem_of_fmap in Hc as ([i c'] & -> & Hc). cbn in *.
  destruct (isDone c') eqn:Hd.
  - destruct (batch_seen _ _ _ Hb i c') as [? _]; [by rewrite (round_ahead f Hf)|done|done].
  - unfold going, isDone in *. by destruct (state c').
Qed.

Lemma BatchWork_doWork_ok m it f :
  RoundOK f -> subclass f = BatchWork m it ->
  (forall name, name ∈ remaining it -> m !! name = None) ->
  (forall name i, m !! name = Some i -> i ∈ (mChildren f).*1) ->
  exists f' st, BatchWork_doWork m it f = inr (f', st) /\ Worked f f' st false.
Proof.
  intros Hf Hsub Hnew Hch. unfold BatchWork_doWork.
  assert (Hsc : isScheduler (KWork f) = false) by (cbn; by rewrite Hsub).
  destruct (anyChildRaiseFailure f) eqn:Hfail.
  { exists f, WORK_FAILURE. split; [done|]. split; done. }
  pose proof (cleanBatch_ok m it f Hf Hfail Hnew Hch) as Hb.
  destruct (addMoreWork_ok MAX_CONCURRENT_SUBPROCESSES (cleanBatch m f) it f Hf Hsc Hb)
    as (m' & it' & f' & E & Hf' & Hsub' & Hb' & _ & _); [lia|]. rewrite E. cbn -[allChildrenSuccessful anyChildRunning].
  set (g := setSubclass (BatchWork m' it') f').
  assert (Hg : RoundOK g) by (apply RoundOK_subclass; [done|cbn; by rewrite Hsub', Hsub]).
  assert (Hbg : BatchOK m' it' g) by (destruct Hb'; split; done).
  assert (Hsg : isScheduler (KWork g) = isScheduler (KWork f)) by (by rewrite Hsc).
  destruct (allChildrenSuccessful g) eqn:Hs; [|destruct (anyChildRunning g) eqn:Hr; cbn].
  - exists g, WORK_SUCCESS. split; [done|]. split; try done.
    + intros _. by apply allSuccessful_spec.
    + by intros ? ? [= <- <-].
  - exists g, WORK_RUNNING. split; [done|]. split; try done. by intros ? ? [= <- <-].
  - exists g, WORK_WAITING. split; [done|]. split; try done.
    + intros _ c Hc. by apply (anyRunning_false (children g)).
    + by intros ? ? [= <- <-].
    + intros _ _ _ _. by eapply not_success_waits.
Qed.

Lemma doWork_ok f :
  RoundOK f ->
  (forall m it, subclass f = BatchWork m it ->
     (forall name, name ∈ remaining it -> m !! name = None) /\
     (forall name i, m !! name = Some i -> i ∈ (mChildren f).*1)) ->
  exists f' st timer, doWork f = inr (f', st, timer) /\ Worked f f' st timer.
Proof.
  intros Hf Hbatch. unfold doWork. destruct (subclass f) as [u|m it|] eqn:Hsub.
  - destruct (user_doWork u (mChildren f)) as [[[u' new] st] timer] eqn:E.
    destruct (user_doWork_ok _ _ _ _ _ _ E) as (Hst & Ht & Hnew & Hsucc & Hwait).
    assert (Hsc : isScheduler (KWork f) = false) by (cbn; by rewrite Hsub).
    destruct (addWorks_ok new (setSubclass (UserWork u') f)) as (f' & -> & Hf' & Hs' & Hid);
      [by apply RoundOK_subclass|done|done|]. cbn in Hs'.
    exists f', st, timer. split; [done|]. split; try done.
    + rewrite Hsc. cbn. by rewrite Hs'.
    + intros E'. destruct (Hsucc E') as [Hn Hall]. by rewrite (Hid Hn).
    + intros E'. destruct (Hwait E') as [Hn Hall]. by rewrite (Hid Hn).
    + intros m it. by rewrite Hs'.
    + intros m it. by rewrite Hs'.
  - destruct (Hbatch m it eq_refl) as [Hnew Hch].
    destruct (BatchWork_doWork_ok m it f Hf Hsub Hnew Hch) as (f' & st & -> & Hw).
    by exists f', st, false.
  - exists f, (if anyChildRunning f then WORK_RUNNING else WORK_WAITING), false.
    split; [done|]. split; try done; try (by intros m it; rewrite Hsub).
    + by destruct (anyChildRunning f).
    + by destruct (anyChildRunning f).
    + destruct (anyChildRunning f) eqn:Hr; [done|]. intros _ c Hc.
      by apply (anyRunning_false (children f)).
Qed.

(** ** Work::onRun *)

(** The base of a work in its [onRun]. *)
Definition InRun (b : BasicWork) : Prop := mState b = RUNNING /\ mRetryTimer b = false.

Lemma InRun_flags b st : InRun b -> retrying (setMState st b) = false.
Proof. intros [_ Ht]. unfold retrying. cbn. by rewrite Ht, andb_false_r. Qed.

(** A work whose children go on. *)
Lemma WorkOK_going b f :
  mState b = RUNNING \/ (mState b = WAITING /\ mRetryTimer b = false) ->
  TreeOK (innerOf (KWork f)) f -> mAbortChildrenButNotSelf f = false ->
  (forall c, c ∈ (mChildren f).*2 -> going c = true) ->
  (mState b = WAITING -> forall c, c ∈ (mChildren f).*2 -> state c <> RUNNING) ->
  (forall m it, subclass f = BatchWork m it -> BatchOK m it f) ->
  (forall m it, subclass f = BatchWork m it -> mState b = WAITING ->
     exists c, c ∈ (mChildren f).*2 /\ state c = WAITING) ->
  WorkOK b f.
Proof.
  intros Hb Ht Ha Hg Hw Hm Hmw.
  assert (Hr : resting b = false /\ retrying b = false /\ mState b <> ABORTING).
  { unfold resting, retrying. destruct Hb as [->|[-> ->]]; done. }
  destruct Hr as (Hr1 & Hr2 & Hr3). split; try congruence; try done; auto.
  - intros [?|?]; congruence.
  - intros m it Hsub Hwt _. eauto.
Qed.

(** The children that the round drops have left [mBatch]. *)
Lemma yield_batch m it f f1 r name i :
  Yielded f f1 r -> BatchOK m it f -> m !! name = Some i -> i ∈ (mChildren f1).*1.
Proof.
  intros Hy [_ Hch Hseen] Hi. pose proof (Hch name i Hi) as Hin.
  apply list_elem_of_fmap in Hin as ([x d] & -> & Hin). cbn in *.
  destruct (yd_dropped _ _ _ Hy _ Hin) as [Hin'|[Ha Hd]].
  - by apply (list_elem_of_fmap_2 fst _ (x, d)).
  - destruct (Hseen x d Ha Hd) as [_ Hno]. by destruct (Hno name).
Qed.

(** The child found by the round is cranked. *)
Lemma Work_cranked n crank b f f1 j :
  Cranks n crank -> (forall c, c ∈ (mChildren f).*2 -> height c <= n)%nat ->
  InRun b -> WorkOK b f -> SubsOK (KWork f) -> mAbortChildrenButNotSelf f = false ->
  Yielded f f1 (Some j) ->
  exists i c', adjust (onChild crank) j (mChildren f1) = inr (mChildren (putChild j i c' f1)) /\
    SubsOK (KWork (putChild j i c' f1)) /\
    (forall b', WorkOK (setMState RUNNING b') (putChild j i c' f1)).
Proof.
  intros Hcr Hh [Hb Hbt] HK Hs Hm Hy.
  destruct (yield_found _ _ _ Hy) as (i & c & Hj & Hc & _ & Hrun).
  assert (Hact : active b = true) by (unfold active; by rewrite Hb).
  pose proof (work_going _ _ HK Hact Hm) as Hgo.
  assert (Hst : state c = RUNNING).
  { specialize (Hgo c Hc). unfold going, getState in *. by destruct (state c). }
  destruct (Hcr c) as (c' & Ec & [HW' HK' Hg' _]); [by apply Hs|by apply Hh|by left|].
  exists i, c'. split_and!; [by eapply onChild_adjust| |].
  { apply SubsOK_put; [|done|].
    - intros x Hx. apply Hs. by eapply yield_children.
    - rewrite (keeps_scheduler _ _ HK'). by apply Hs. }
  intros b'. apply WorkOK_going; [by left| | | |done| |done].
  - apply (TreeOK_put _ f1 j i c c'); [|done|done|by apply going_started, Hg'].
    unfold innerOf, isScheduler. cbn. rewrite (yd_subclass _ _ _ Hy).
    eapply TreeOK_yield; [done|apply (work_tree _ _ HK)].
  - cbn. by rewrite (yd_abort _ _ _ Hy).
  - intros x [->|Hx]%putChild_in; [auto|]. apply Hgo. by eapply yield_children.
  - cbn. rewrite (yd_subclass _ _ _ Hy). intros m it Hsub.
    pose proof (work_batch _ _ HK m it Hsub Hact Hm) as Hbat.
    pose proof Hbat as [Hnew Hch Hseen]. split; [done| |].
    + intros name x Hx. rewrite (putChild_addresses f1 j i c c' Hj). by eapply yield_batch.
    + rewrite ahead_put by apply (yd_next _ _ _ Hy). intros x d Hx. apply Hseen.
      by apply (proj2 (yd_found _ _ _ Hy j eq_refl)).
Qed.

(** What [Work::onRun] leaves, for the state it asks for. *)
Definition RanOK (f f' : WorkFields Work) (st : State) (timer : bool) : Prop :=
  SubsOK (KWork f') /\ (timer = true -> st = WORK_WAITING) /\
  isScheduler (KWork f') = isScheduler (KWork f) /\
  (forall b, InRun b -> Ready st b (KWork f')).

Lemma WorkOK_cleared b f f' :
  resting b = true -> retrying b = false -> clearChildren f = inr f' ->
  mAbortChildrenButNotSelf f = false -> WorkOK b f'.
Proof.
  unfold clearChildren. destruct (allChildrenDone f); [|done]. intros Hr Hnr [= <-] Ha.
  assert (Hb : active b = false /\ mState b <> WAITING /\ mState b <> ABORTING).
  { unfold resting, retrying, active in *. destruct (mState b); cbn in *; naive_solver congruence. }
  destruct Hb as (Hb1 & Hb2 & Hb3).
  split; cbn; try done; try congruence; try set_solver.
  split; cbn; [done|constructor|set_solver|set_solver].
Qed.

Lemma allSuccessful_done l : allSuccessful l = true -> forallb isDone l = true.
Proof.
  intros Hs. apply forallb_done. intros c Hc. unfold isDone.
  by rewrite (proj1 (allSuccessful_spec l) Hs c Hc).
Qed.

(** After [doWork]: success clears the children, failure stops them first. *)
Lemma Work_worked f f' st timer :
  Worked f f' st timer ->
  exists f2 st2,
    (if decide (st = WORK_SUCCESS) then
       do* releaseAssert (allChildrenSuccessful f') "allChildrenSuccessful()" in
       let* f := clearChildren f' in
       mret (f, st, timer)
     else if bool_decide (st = WORK_FAILURE) && negb (allChildrenDone f') then
       let* f := shutdownChildren f' in
       mret (setAbortChildren true f, WORK_RUNNING, timer)
     else mret (f', st, timer)) = inr (f2, st2, timer) /\ RanOK f f2 st2 timer.
Proof.
  intros [Hr Hsc Hst Ht Hsu Hwt Hba Hbw]. pose proof Hr as [Htr Hs Hgo Hab Hn].
  case_decide as Es; [|destruct (decide (st = WORK_FAILURE)) as [Ef|Ef]].
  - subst st. assert (Hall : allChildrenSuccessful f' = true)
      by (apply allSuccessful_spec; auto).
    rewrite Hall. destruct (clearChildren f') as [|f2] eqn:Ec.
    { exfalso. unfold clearChildren, allChildrenDone in Ec.
      by rewrite allSuccessful_done in Ec. }
    cbn. exists f2, WORK_SUCCESS. split; [done|].
    pose proof Ec as Ec'. unfold clearChildren in Ec'.
    destruct (allChildrenDone f'); [|done]. injection Ec' as <-. split_and!; try done.
    + intros c Hc. cbn in Hc. set_solver.
    + intros b Hb. eapply WorkOK_cleared; [done|by apply InRun_flags|exact Ec|done].
  - subst st. rewrite bool_decide_true by done. cbn [andb].
    destruct (allChildrenDone f') eqn:Hd; cbn [negb].
    + exists f', WORK_FAILURE. split; [done|]. split_and!; try done. intros b Hb c Hc.
      unfold allChildrenDone, children in Hd. rewrite forallb_forall in Hd.
      apply Hd. by apply list_elem_of_In.
    + destruct (shutdownChildren_list f') as (cs & E & HF);
        [intros c Hc; apply shutdown_ok; by apply Hs|intros c Hc; by apply Hs|].
      unfold shutdownChildren. rewrite E. cbn. eexists _, WORK_RUNNING. split; [done|].
      split_and!; [|intros Htt; by specialize (Ht Htt)|done|].
      * intros c Hc. cbn in Hc. destruct (ShutChild_in _ _ _ HF Hc) as (c0 & ? & ? & Hk & _).
        split; [done|]. rewrite (keeps_scheduler _ _ Hk). by apply Hs.
      * intros b Hb. eapply WorkOK_stopping; [exact Htr|done..|]. by right.
  - rewrite bool_decide_false by done. cbn. exists f', st. split; [done|]. split_and!; try done.
    intros b [Hb Hbt]. destruct st; try done; apply WorkOK_going; cbn; eauto; try done.
Qed.

Lemma RoundOK_yield b f f1 :
  InRun b -> WorkOK b f -> SubsOK (KWork f) -> mAbortChildrenButNotSelf f = false ->
  Yielded f f1 None -> RoundOK f1.
Proof.
  intros [Hb _] HK Hs Hm Hy. split.
  - unfold innerOf, isScheduler. rewrite (yd_subclass _ _ _ Hy).
    eapply TreeOK_yield; [done|apply (work_tree _ _ HK)].
  - intros x Hx. apply Hs. by eapply yield_children.
  - intros x Hx. apply (work_going _ _ HK); [unfold active; by rewrite Hb|done|].
    by eapply yield_children.
  - by rewrite (yd_abort _ _ _ Hy).
  - apply (yd_next _ _ _ Hy).
Qed.

Lemma Work_onRun_ok n crank b f :
  Cranks n crank -> (forall c, c ∈ (mChildren f).*2 -> height c <= n)%nat ->
  InRun b -> WorkOK b f -> SubsOK (KWork f) ->
  exists f' st timer, Work_onRun crank f = inr (f', st, timer) /\ RanOK f f' st timer.
Proof.
  intros Hcr Hh Hb HK Hs. unfold Work_onRun.
  destruct (mAbortChildrenButNotSelf f) eqn:Hm.
  - destruct (Work_onAbort_ok n crank f) as (f' & d & -> & Hs' & Ht' & Hst' & Hsc' & Hm' & Hd);
      [done|done|apply (work_tree _ _ HK)|done|apply (work_stopping _ _ HK); by right|].
    exists f', (if d then WORK_FAILURE else WORK_RUNNING), false. split; [done|].
    split_and!; try done. intros b' [Hb' _]. destruct d; cbn; [by apply Hd|].
    apply WorkOK_stopped; [done|done|]. right. split; [done|]. congruence.
  - destruct (yield_spec f) as (f1 & r & -> & Hy). destruct r as [j|].
    + destruct (Work_cranked n crank b f f1 j) as (i & c' & -> & Hs' & HK'); try done.
      eexists _, WORK_RUNNING, false. split; [done|]. split_and!; [done|done| |].
      * cbn. by rewrite (yd_subclass _ _ _ Hy).
      * intros b' _. apply HK'.
    + pose proof (RoundOK_yield b f f1 Hb HK Hs Hm Hy) as Hr.
      destruct (doWork_ok f1 Hr) as (f2 & st & timer & -> & Hw).
      { intros m it. rewrite (yd_subclass _ _ _ Hy). intros Hsub.
        pose proof (work_batch _ _ HK m it Hsub) as Hbat.
        unfold active in Hbat. rewrite (proj1 Hb) in Hbat. specialize (Hbat eq_refl Hm).
        split; [by apply (batch_new _ _ _ Hbat)|]. intros name x Hx. by eapply yield_batch. }
      destruct (Work_worked f1 f2 st timer Hw) as (f3 & st3 & E & Hs3 & Ht3 & Hsc3 & HR3).
      exists f3, st3, timer. split; [exact E|]. split_and!; try done.
      rewrite Hsc3. unfold isScheduler. by rewrite (yd_subclass _ _ _ Hy).
Qed.

(** ** WorkSequence::onRun *)

(** The current work of a running sequence has been started or cranked. *)
Lemma SequenceOK_current b f w w' :
  InRun b -> SequenceOK b f -> mSequenceOfWork f !! mNextInSequence f = Some w ->
  (Restartable w -> Restartable w') -> going w' = true ->
  mNotifyCallback (base w') = wakeSelfUpCallback nullCallback ->
  SequenceOK (setMState RUNNING b)
    (setSequence (<[mNextInSequence f := w']> (mSequenceOfWork f)) (mNextInSequence f) true f).
Proof.
  intros [Hb Hbt] [Hn Hcu Hbf Hsl Hrs Hre Hrw Hp Haf Hw] Hi HR Hg Hnot.
  pose proof (lookup_lt_Some _ _ _ Hi) as Hlt.
  assert (Hact : active b = true) by (unfold active; by rewrite Hb).
  split; cbn; rewrite ?length_insert; try done.
  - intros _. exists w'. rewrite list_lookup_insert_eq by done. by split_and!.
  - intros i x Hx Hl. rewrite list_lookup_insert_ne in Hx by lia.
    destruct (Hbf i x Hx Hl). auto.
  - intros i x Hx [Hne|?]; [|done]. rewrite list_lookup_insert_ne in Hx by done.
    eapply Hsl; [done|by left].
  - intros Hpos x [->|Hx]%elem_of_insert; [|auto].
    apply HR, Hrs; [done|]. by eapply list_elem_of_lookup_2.
  - intros [?|?]; done.
  - intros _ i x Hx [Hl|[_ ?]]; [|done]. rewrite list_lookup_insert_ne in Hx by lia.
    eapply Haf; [done|done|by left].
Qed.

Lemma Restartable_insert b b' f i w w' next cur :
  mSequenceOfWork f !! i = Some w -> (Restartable w -> Restartable w') ->
  Restartable (MkWork b (KSequence f)) ->
  Restartable (MkWork b' (KSequence (setSequence (<[i := w']> (mSequenceOfWork f)) next cur f))).
Proof.
  intros Hi HR Hr. inversion Hr; subst. constructor. cbn.
  intros x [->|Hx]%elem_of_insert; [|auto]. apply HR. apply list_elem_of_lookup_2 in Hi. auto.
Qed.

(** What [WorkSequence::onRun] leaves, for the state it asks for. *)
Definition RanSequence (b : BasicWork) (f f' : SequenceFields Work) (st : State) : Prop :=
  SubsOK (KSequence f') /\ Ready st b (KSequence f') /\
  (Restartable (MkWork b (KSequence f)) -> Restartable (MkWork b (KSequence f'))).

Lemma sequence_crank n crank b f w0 w :
  Cranks n crank -> InRun b -> SequenceOK b f -> SubsOK (KSequence f) ->
  mSequenceOfWork f !! mNextInSequence f = Some w0 -> (Restartable w0 -> Restartable w) ->
  WF w -> state w = RUNNING -> (height w <= n)%nat -> isScheduler (kind w) = false ->
  mNotifyCallback (base w) = wakeSelfUpCallback nullCallback ->
  exists f', (let* l := adjust crank (mNextInSequence f)
                          (<[mNextInSequence f := w]> (mSequenceOfWork f)) in
              mret (setSequence l (mNextInSequence f) true f, WORK_RUNNING))
             = inr (f', WORK_RUNNING) /\ RanSequence b f f' WORK_RUNNING.
Proof.
  intros Hcr Hb HK Hs Hi HR HW Hrun Hh Hsc Hnot.
  pose proof (lookup_lt_Some _ _ _ Hi) as Hlt.
  destruct (Hcr w HW Hh (or_introl Hrun)) as (w' & Ew & [HW' [HR' Hsc' Hnot'] Hg' _]).
  rewrite (adjust_ok crank _ _ w w'); [|by rewrite list_lookup_insert_eq|done].
  rewrite list_insert_insert_eq. cbn. eexists. split; [done|]. split_and!.
  - intros x [->|Hx]%elem_of_insert; [|by apply Hs]. split; [done|]. congruence.
  - eapply SequenceOK_current; [done|done|exact Hi|auto|auto|congruence].
  - eapply Restartable_insert; [exact Hi|auto].
Qed.

Lemma sequence_end b f :
  InRun b -> SequenceOK b f -> mCurrentExecuting f = false ->
  mSequenceOfWork f !! mNextInSequence f = None ->
  Ready (getWorkStatus (mSequenceOfWork f)) b (KSequence f).
Proof.
  intros [Hb Hbt] [Hn Hcu Hbf Hsl Hrs Hre Hrw Hp Haf Hw] Hcur Hi.
  apply lookup_ge_None in Hi.
  assert (Hact : active b = true) by (unfold active; by rewrite Hb).
  assert (Hall : forall w, w ∈ mSequenceOfWork f -> isDone w = true /\ state w <> ABORTED).
  { intros w Hwi. apply list_elem_of_lookup in Hwi as [i Hi']. apply lookup_lt_Some in Hi' as Hl.
    destruct (Hbf i w Hi'); [lia|]. auto. }
  unfold getWorkStatus. destruct (allSuccessful _) eqn:Es; [|destruct (anyFailed _) eqn:Ef].
  - cbn. split; cbn; try done; try congruence.
    + intros i w Hi' Hl. split; [|done]. eapply Hall. by eapply list_elem_of_lookup_2.
    + intros [?|Hr]; [done|]. by rewrite (InRun_flags b SUCCESS) in Hr.
  - cbn. split_and!; [|intros w Hwi| |done].
    + intros i w Hi' Hl. by apply (Hbf i w).
    + unfold still. by rewrite (proj1 (Hall w Hwi)).
    + apply Hrs.
  - exfalso. apply not_true_iff_false in Es. apply Es, allSuccessful_spec. intros w Hwi.
    pose proof (anyFailed_false _ w Ef Hwi). destruct (Hall w Hwi).
    unfold isDone in *. by destruct (state w).
Qed.

(** A round of a sequence with no current work. *)
Lemma sequence_start n crank again b f :
  Cranks n crank -> (forall c, c ∈ mSequenceOfWork f -> height c <= n)%nat ->
  InRun b -> SequenceOK b f -> SubsOK (KSequence f) -> mCurrentExecuting f = false ->
  exists f' st, sequenceRound crank again f = inr (f', st) /\ RanSequence b f f' st.
Proof.
  intros Hcr Hh Hb HK Hs Hcur. unfold sequenceRound.
  destruct (mSequenceOfWork f !! mNextInSequence f) as [w|] eqn:Hi.
  - rewrite Hcur. pose proof (list_elem_of_lookup_2 _ _ _ Hi) as Hin.
    assert (Hst : Startable w).
    { apply (seq_after _ _ HK) with (i := mNextInSequence f);
        [unfold active; by rewrite (proj1 Hb)|done|by right]. }
    destruct (Hs w Hin) as [HW Hsc].
    destruct (startWork_ok (wakeSelfUpCallback nullCallback) w HW Hst)
      as (w' & E & HW' & Hr & Hnc & HR & Hsc' & Hh').
    rewrite (adjust_ok _ _ _ _ _ Hi E). cbn -[adjust].
    destruct (sequence_crank n crank b f w w') as (f' & E' & Hran); try done.
    + specialize (Hh w Hin). lia.
    + congruence.
    + exists f', WORK_RUNNING. split; [exact E'|done].
  - exists f, (getWorkStatus (mSequenceOfWork f)). split; [done|].
    split_and!; [done|by apply sequence_end|done].
Qed.

Lemma sequence_advance b f w :
  InRun b -> SequenceOK b f -> mCurrentExecuting f = true ->
  mSequenceOfWork f !! mNextInSequence f = Some w -> isDone w = true -> going w = true ->
  SequenceOK b (setSequence (mSequenceOfWork f) (S (mNextInSequence f)) false f).
Proof.
  intros [Hb Hbt] [Hn Hcu Hbf Hsl Hrs Hre Hrw Hp Haf Hw] Hcur Hi Hd Hg.
  pose proof (lookup_lt_Some _ _ _ Hi) as Hlt.
  assert (Hact : active b = true) by (unfold active; by rewrite Hb).
  assert (Hnr : retrying b = false) by (unfold retrying; by rewrite Hb).
  split; cbn; try done; try lia; try congruence.
  - intros i x Hx Hl. destruct (decide (i = mNextInSequence f)) as [->|Hne].
    + simplify_eq. split; [done|]. intros _. unfold going in Hg. by intros E; rewrite E in Hg.
    + apply (Hbf i x Hx). lia.
  - intros i x Hx _. destruct (decide (i = mNextInSequence f)) as [->|Hne].
    + simplify_eq. unfold still. by rewrite Hd.
    + eapply Hsl; [done|by left].
  - intros _ i x Hx Hl. eapply Haf; [done|done|]. left. lia.
Qed.

(** The current work waits, or has failed for good. *)
Lemma sequence_pause b f w :
  InRun b -> SequenceOK b f -> mCurrentExecuting f = true ->
  mSequenceOfWork f !! mNextInSequence f = Some w -> going w = true ->
  state w = WAITING \/ state w = FAILURE -> Ready (getState w) b (KSequence f).
Proof.
  intros Hb HK Hcur Hi Hg Hw. pose proof HK as [Hn Hcu Hbf Hsl Hrs Hre Hrw Hp Haf _].
  assert (Hact : active b = true) by (unfold active; by rewrite (proj1 Hb)).
  pose proof (InRun_flags b WAITING Hb) as Hnr.
  unfold getState. destruct Hw as [Est|Est]; rewrite Est; cbn.
  - split; cbn; try done.
    + intros _. destruct (Hcu Hcur) as (w0 & ? & ? & Hg0 & _). exists w0. split_and!; [done|done|auto|done].
    + intros i x Hx Hl. destruct (Hbf i x Hx Hl). auto.
    + unfold resting. cbn. by rewrite (proj2 Hb).
    + by rewrite Hnr.
    + intros [?|?]; congruence.
    + intros _. by apply Haf.
    + intros _ _. split; [done|]. by exists w.
  - split_and!; [by intros i x Hx Hl; apply (Hbf i x)| |done|done].
    intros x Hx. apply list_elem_of_lookup in Hx as [i Hx].
    destruct (decide (i = mNextInSequence f)) as [->|Hne]; [|by eapply Hsl; [done|left]].
    simplify_eq. unfold still, isDone. by rewrite Est.
Qed.

Lemma WorkSequence_onRun_ok n crank b f :
  Cranks n crank -> (forall c, c ∈ mSequenceOfWork f -> height c <= n)%nat ->
  InRun b -> SequenceOK b f -> SubsOK (KSequence f) ->
  exists f' st, WorkSequence_onRun crank f = inr (f', st) /\ RanSequence b f f' st.
Proof.
  intros Hcr Hh Hb HK Hs. unfold WorkSequence_onRun.
  destruct (mCurrentExecuting f) eqn:Hcur; [|by eapply sequence_start].
  assert (Hact : active b = true) by (unfold active; by rewrite (proj1 Hb)).
  destruct (seq_current _ _ HK Hcur) as (w & Hi & Hnot & Hg & _). specialize (Hg Hact).
  pose proof (list_elem_of_lookup_2 _ _ _ Hi) as Hin. destruct (Hs w Hin) as [HW Hsc].
  unfold sequenceRound at 1. rewrite Hi, Hcur.
  destruct (bool_decide (getState w = WORK_SUCCESS) ||
            (bool_decide (getState w = WORK_FAILURE) && negb (mStopAtFirstFailure f))) eqn:Hend.
  - assert (Hd : isDone w = true).
    { unfold isDone. unfold getState in Hend. by destruct (state w). }
    pose proof (sequence_advance b f w Hb HK Hcur Hi Hd Hg) as HK'.
    destruct (sequence_start n crank (fun _ => exc_throw OutOfFuel) b
      (setSequence (mSequenceOfWork f) (S (mNextInSequence f)) false f) Hcr Hh Hb HK' Hs eq_refl)
      as (f' & st & E & ? & ? & HR). exists f', st. split; [exact E|].
    split_and!; [done|done|]. intros Hr. apply HR. inversion Hr; subst. by constructor.
  - destruct (decide (getState w = WORK_RUNNING)) as [Hrun|Hrun].
    + assert (Hst : state w = RUNNING).
      { unfold going, getState in *. by destruct (state w). }
      destruct (sequence_crank n crank b f w w) as (f' & E & Hran); auto.
      rewrite list_insert_id in E by done. by exists f', WORK_RUNNING.
    + exists f, (getState w). split; [done|]. split_and!; [done| |done].
      apply sequence_pause; try done. unfold going, getState in *. destruct (state w); auto; done.
Qed.

(** ** ConditionalWork::onRun *)

Lemma going_state w : going w = true -> getInternalState (getState w) = state w.
Proof. unfold going, getState. by destruct (state w). Qed.

(** The conditioned work has been cranked. *)
Lemma conditionedRun_ok n crank b c0 w :
  Cranks n crank -> InRun b -> mMaxRetries b = RETRY_NEVER -> mWaitingTimer b = false ->
  WF w -> state w = RUNNING -> (height w <= n)%nat -> isScheduler (kind w) = false ->
  mNotifyCallback (base w) = wakeSelfUpCallback nullCallback ->
  exists f' st, conditionedRun crank c0 w = inr (f', st) /\ SubsOK (KConditional f') /\
    Ready st b (KConditional f').
Proof.
  intros Hcr Hb Hm Hwt HW Hrun Hh Hsc Hnot. unfold conditionedRun.
  destruct (Hcr w HW Hh (or_introl Hrun)) as (w' & -> & [HW' [_ Hsc' Hnot'] Hg' _]).
  specialize (Hg' Hrun). cbn. eexists _, _. split; [done|]. split.
  - intros x ->%list_elem_of_singleton. cbn. split; [done|]. congruence.
  - pose proof (going_state w' Hg') as Eg.
    assert (Hna : getState w' <> WORK_ABORTED).
    { unfold going, getState in *. by destruct (state w'). }
    assert (HC : forall st, state w' = st -> ConditionalOK (setMState st b)
      (mkConditionalFields c0 w' true)).
    { intros st Est. split; cbn; try done.
      - intros _. split_and!; [congruence|done|by apply going_started].
      - intros [?|Hr]; [done|]. unfold going in Hg'. unfold resting in Hr. cbn in Hr.
        unfold still, isDone. rewrite Est in *. destruct st; try done. by rewrite (proj2 Hb) in Hr.
      - intros [->|[_ ?]]; [|done]. unfold going in Hg'. by rewrite Est in Hg'.
      - intros ->. unfold going in Hg'. by rewrite Est in Hg'. }
    destruct (getState w') eqn:Eg'; cbn in Eg |- *; try done; try (apply HC; congruence).
    split_and!; [done| |done]. unfold still, isDone. by rewrite <-Eg.
Qed.

Lemma ConditionalWork_onRun_ok n crank b f :
  Cranks n crank -> (height (mConditionedWork f) <= n)%nat ->
  InRun b -> mWaitingTimer b = false -> ConditionalOK b f -> SubsOK (KConditional f) ->
  exists f' st timer, ConditionalWork_onRun crank f = inr (f', st, timer) /\
    SubsOK (KConditional f') /\ (timer = true -> st = WORK_WAITING) /\
    Ready st (setWaitingTimer timer b) (KConditional f').
Proof.
  intros Hcr Hh Hb Hwt [Hn Hsd Hsi Hp Hpo Hsy Hsp] Hs. unfold ConditionalWork_onRun.
  assert (Hact : active b = true) by (unfold active; by rewrite (proj1 Hb)).
  assert (Hb' : InRun (setWaitingTimer false b)) by done.
  destruct (Hs (mConditionedWork f)) as [HW Hsc]; [cbn; set_solver|].
  destruct (mWorkStarted f) eqn:Hst.
  - destruct (conditionedRun_ok n crank (setWaitingTimer false b) (mCondition f)
      (mConditionedWork f)) as (f' & st & -> & ? & ?); try done.
    + rewrite Hsy by done. apply Hb.
    + by apply Hsd.
    + by exists f', st, false.
  - destruct Hp as (_ & Hc & Hstart); [by right|].
    destruct (mCondition f) as [c|]; [|done]. destruct (condition c) as [c' [|]].
    + destruct (startWork_ok (wakeSelfUpCallback nullCallback) _ HW Hstart)
        as (w' & -> & HW' & Hr & Hnc & _ & Hsc' & Hh'). cbn.
      destruct (conditionedRun_ok n crank (setWaitingTimer false b) None w')
        as (f' & st & -> & ? & ?); try done; [lia|congruence|]. by exists f', st, false.
    + eexists _, WORK_WAITING, true. split; [done|]. split_and!; [|done|].
      * intros x ->%list_elem_of_singleton. done.
      * cbn. split; cbn; try done. intros _. apply Hsi. by left.
Qed.

(** ** onAbort of a sequence and of a conditional work *)

Lemma stopping_crank n crank w :
  Cranks n crank -> WF w -> (height w <= n)%nat -> stopping w = true -> isDone w = false ->
  exists w', crank w = inr w' /\ CrankOK w w' /\ stopping w' = true.
Proof.
  intros Hcr HW Hh Hs Hd. unfold stopping, isAborting in Hs. rewrite Hd in Hs. cbn in Hs.
  apply bool_decide_eq_true in Hs.
  destruct (Hcr w HW Hh (or_intror Hs)) as (w' & E & Hok). exists w'. split_and!; try done.
  by apply Hok.
Qed.

(** What [onAbort] leaves. *)
Definition AbortedOK (b : BasicWork) (k k' : Kind Work) (done : bool) : Prop :=
  SubsOK k' /\ Keeps (MkWork b k) (MkWork b k') /\
  (if done then ResetOK (setMState ABORTED b) k' else KindOK b k').

Lemma WorkSequence_onAbort_ok n crank b f :
  Cranks n crank -> (forall c, c ∈ mSequenceOfWork f -> height c <= n)%nat ->
  mState b = ABORTING -> SequenceOK b f -> SubsOK (KSequence f) ->
  exists f' done, WorkSequence_onAbort crank f = inr (f', done) /\
    AbortedOK b (KSequence f) (KSequence f') done.
Proof.
  intros Hcr Hh Hb HK Hs. unfold WorkSequence_onAbort.
  assert (Hdone : (forall w, mCurrentExecuting f = true ->
      mSequenceOfWork f !! mNextInSequence f = Some w -> isDone w = true) ->
    AbortedOK b (KSequence f) (KSequence f) true).
  { intros Hcd. split_and!; [done|apply Keeps_refl|].
    destruct HK as [Hn Hcu Hbf Hsl Hrs Hre Hrw Hp Haf Hw].
    split_and!; [by intros i x Hx Hl; apply (Hbf i x)| |done|done].
    intros x Hx. apply list_elem_of_lookup in Hx as [i Hx].
    destruct (mCurrentExecuting f) eqn:Hc; [|by eapply Hsl; [done|right]].
    destruct (decide (i = mNextInSequence f)) as [->|Hne]; [|by eapply Hsl; [done|left]].
    unfold still. by rewrite (Hcd x). }
  destruct (mSequenceOfWork f !! mNextInSequence f) as [w|] eqn:Hi;
    [|exists f, true; split; [done|]; by apply Hdone].
  destruct (mCurrentExecuting f) eqn:Hcur; cbn [andb];
    [|exists f, true; split; [done|]; by apply Hdone].
  destruct (isDone w) eqn:Hd; cbn [negb].
  { exists f, true. split; [done|]. apply Hdone. intros ? _ [= <-]. done. }
  destruct (seq_current _ _ HK Hcur) as (w0 & Hi0 & _ & _ & Hst). simplify_eq.
  pose proof (list_elem_of_lookup_2 _ _ _ Hi) as Hin. destruct (Hs w Hin) as [HW Hsc].
  destruct (stopping_crank n crank w) as (w' & E & [HW' HKp _ _] & Hst'); auto.
  rewrite (adjust_ok _ _ _ _ _ Hi E). cbn. eexists _, false. split; [done|]. split_and!.
  - intros x [->|Hx]%elem_of_insert; [|by apply Hs]. split; [done|].
    by rewrite (keeps_scheduler _ _ HKp).
  - split; [|done|done]. eapply Restartable_insert; [exact Hi|apply HKp].
  - by eapply (SequenceOK_stopping b f w w').
Qed.

Lemma ConditionalWork_onAbort_ok n crank b f :
  Cranks n crank -> (height (mConditionedWork f) <= n)%nat ->
  mState b = ABORTING -> ConditionalOK b f -> SubsOK (KConditional f) ->
  exists f' done, ConditionalWork_onAbort crank f = inr (f', done) /\
    AbortedOK b (KConditional f) (KConditional f') done.
Proof.
  intros Hcr Hh Hb [Hn Hsd Hsi Hp Hpo Hsy Hsp] Hs. unfold ConditionalWork_onAbort.
  assert (Hna : active (setMState ABORTED b) = false) by done.
  destruct (mWorkStarted f) eqn:Hst; cbn [andb].
  2: { exists f, true. split; [done|]. split_and!; [done|apply Keeps_refl|].
       split_and!; [done|apply Hsi; by left|done]. }
  destruct (isDone (mConditionedWork f)) eqn:Hd; cbn [negb].
  { exists f, true. split; [done|]. split_and!; [done|apply Keeps_refl|].
    split_and!; [done|unfold still; by rewrite Hd|done]. }
  destruct (Hs (mConditionedWork f)) as [HW Hsc]; [cbn; set_solver|].
  destruct (stopping_crank n crank (mConditionedWork f)) as (w' & -> & [HW' HKp _ _] & Hst'); auto.
  cbn. eexists _, false. split; [done|]. split_and!.
  - intros x ->%list_elem_of_singleton. cbn. split; [done|]. by rewrite (keeps_scheduler _ _ HKp).
  - split; [inversion 1|done|done].
  - split; cbn; try done.
    + intros _. rewrite (keeps_notify _ _ HKp). destruct (Hsd eq_refl) as (? & ? & ?).
      split_and!; [done|done|by apply stopping_started].
    + intros [?|Hr]; [done|]. unfold resting in Hr. by rewrite Hb in Hr.
    + intros Hc. exfalso. unfold active in Hc. rewrite Hb in Hc. naive_solver.
    + unfold active. by rewrite Hb.
Qed.

(** ** crankWork *)

Lemma armed_ok b k st timer :
  mState b = RUNNING -> mWaitingTimer b = false ->
  armed (MkWork b k, st, timer) = inr (MkWork (setWaitingTimer timer b) k, st).
Proof.
  intros Hb Hw. destruct timer; cbn.
  - unfold setupWaitingCallback, state. cbn [base]. rewrite Hb. done.
  - destruct b. cbn in Hw. by subst.
Qed.

Lemma running_base b : BaseOK b -> mState b = RUNNING -> InRun b /\ mWaitingTimer b = false.
Proof.
  intros [_ Hr Hw _ _] Hb. unfold InRun.
  split_and!; [done| |]; apply not_true_is_false; intros Ht.
  - destruct (Hr Ht); congruence.
  - destruct (Hw Ht). congruence.
Qed.

Lemma Midway_timer st timer b :
  BaseOK b -> InRun b -> (timer = true -> st = WORK_WAITING) ->
  Midway st (setWaitingTimer timer b).
Proof. intros Hb [? ?] Ht. split; cbn; try done. apply (base_count _ Hb). Qed.

(** What [onRun] leaves of a work. *)
Definition RanWork (w : Work) (b : BasicWork) (k : Kind Work) (st : State) : Prop :=
  Midway st b /\ SubsOK k /\ Ready st b k /\ Keeps w (MkWork b k).

Lemma onRun_ok n crank b0 k0 :
  Cranks n crank -> WF (MkWork b0 k0) -> mState b0 = RUNNING ->
  (height (MkWork b0 k0) <= S n)%nat ->
  exists b k st, onRun crank (MkWork b0 k0) = inr (MkWork b k, st) /\
    RanWork (MkWork b0 k0) b k st.
Proof.
  intros Hcr (Hb & HK & Hs)%WF_inv Hst Hh.
  destruct (running_base b0 Hb Hst) as [Hin Hwt].
  assert (Hsub : forall c, c ∈ subs k0 -> (height c <= n)%nat).
  { intros c Hc. pose proof (height_sub b0 k0 c Hc). lia. }
  destruct k0 as [l|f|f|f]; unfold onRun; cbn [kind base].
  - destruct (leaf_onRun l) as [[l' st] timer] eqn:E.
    destruct (leaf_onRun_ok _ _ _ _ E) as [Hna Ht]. rewrite armed_ok by done.
    eexists _, _, _. split; [done|]. split_and!; [by apply Midway_timer|done| |].
    + by destruct st.
    + split; [constructor|done|done].
  - destruct (Work_onRun_ok n crank b0 f) as (f' & st & timer & -> & Hs' & Ht & Hsc & HR); try done.
    cbn -[armed]. rewrite armed_ok by done. eexists _, _, _. split; [done|].
    split_and!; [by apply Midway_timer|done|by apply HR|]. split; [constructor|done|done].
  - destruct (WorkSequence_onRun_ok n crank b0 f) as (f' & st & -> & Hs' & HR & Hk); try done.
    eexists _, _, _. split; [done|]. split_and!; [|done|done|by split].
    replace b0 with (setWaitingTimer false b0) by (destruct b0; cbn in Hwt; by subst).
    by apply Midway_timer.
  - destruct (ConditionalWork_onRun_ok n crank b0 f) as (f' & st & timer & -> & Hs' & Ht & HR);
      try done; [apply Hsub; cbn; set_solver|].
    cbn -[armed]. rewrite armed_ok by done. eexists _, _, _. split; [done|].
    split_and!; [by apply Midway_timer|done|done|]. split; [inversion 1|done|done].
Qed.

Lemma onAbort_ok n crank b k0 :
  Cranks n crank -> WF (MkWork b k0) -> mState b = ABORTING ->
  (height (MkWork b k0) <= S n)%nat ->
  exists k done, onAbort crank (MkWork b k0) = inr (MkWork b k, done) /\ AbortedOK b k0 k done.
Proof.
  intros Hcr (Hb & HK & Hs)%WF_inv Hst Hh.
  assert (Hsub : forall c, c ∈ subs k0 -> (height c <= n)%nat).
  { intros c Hc. pose proof (height_sub b k0 c Hc). lia. }
  destruct k0 as [l|f|f|f]; unfold onAbort; cbn [kind base].
  - destruct (leaf_onAbort l) as [l' d]. exists (KLeaf l'), d. split; [done|].
    split_and!; [done|by split; [constructor| |]|by destruct d].
  - destruct (Work_onAbort_ok n crank f) as (f' & d & -> & Hs' & Ht & Hstop & Hsc & Hm & Hd);
      [done|done|apply (work_tree _ _ HK)|done|apply (work_stopping _ _ HK); by left|].
    exists (KWork f'), d. split; [done|].
    split_and!; [done|by split; [constructor| |]|]. destruct d; cbn; [by apply Hd|].
    apply WorkOK_stopped; [done|done|by left].
  - destruct (WorkSequence_onAbort_ok n crank b f) as (f' & d & -> & Hok); try done.
    by exists (KSequence f'), d.
  - destruct (ConditionalWork_onAbort_ok n crank b f) as (f' & d & -> & Hok); try done;
      [apply Hsub; cbn; set_solver|]. by exists (KConditional f'), d.
Qed.

Lemma crankFuel_running n b k :
  mState b = RUNNING ->
  crankFuel (S n) (MkWork b k) =
  let* '(w, st) := onRun (crankFuel n) (MkWork b k) in setState (getInternalState st) w.
Proof.
  intros Hst. cbn [crankFuel]. unfold isDone, state. cbn [base]. by rewrite Hst.
Qed.

Lemma crankFuel_aborting n b k :
  mState b = ABORTING ->
  crankFuel (S n) (MkWork b k) =
  let* '(w, doneAborting) := onAbort (crankFuel n) (MkWork b k) in
  setState (if (doneAborting : bool) then ABORTED else ABORTING) w.
Proof.
  intros Hst. cbn [crankFuel]. unfold isDone, state. cbn [base]. by rewrite Hst.
Qed.

Lemma crank_running n b k :
  Cranks n (crankFuel n) -> WF (MkWork b k) -> mState b = RUNNING ->
  (height (MkWork b k) <= S n)%nat ->
  exists w', crankFuel (S n) (MkWork b k) = inr w' /\ WF w' /\ Keeps (MkWork b k) w' /\
    going w' = true.
Proof.
  intros Hcr HW Hst Hh. destruct (onRun_ok n _ b k Hcr HW Hst Hh) as (b' & k' & st & E & Hran).
  destruct Hran as (Hmid & Hs & HR & HKp).
  destruct (setState_run st b' k' Hmid Hs HR) as (w' & E' & HW' & HKp' & Hg & _).
  exists w'. split_and!; [|done|by eapply Keeps_trans|done].
  rewrite crankFuel_running by done. rewrite E. exact E'.
Qed.

Lemma crank_aborting n b k :
  Cranks n (crankFuel n) -> WF (MkWork b k) -> mState b = ABORTING ->
  (height (MkWork b k) <= S n)%nat ->
  exists k1 d w', onAbort (crankFuel n) (MkWork b k) = inr (MkWork b k1, d) /\
    crankFuel (S n) (MkWork b k) = inr w' /\ WF w' /\ Keeps (MkWork b k) w' /\
    if d then state w' = ABORTED else w' = MkWork b k1.
Proof.
  intros Hcr HW Hst Hh. destruct (onAbort_ok n _ b k Hcr HW Hst Hh) as (k' & d & E & Hs & HKp & HR).
  pose proof (WF_inv _ _ HW) as (Hb & _ & _). exists k', d.
  assert (Ecr : crankFuel (S n) (MkWork b k) =
    setState (if d then ABORTED else ABORTING) (MkWork b k')).
  { rewrite crankFuel_aborting by done. by rewrite E. }
  rewrite Ecr. destruct d.
  - destruct (setState_aborted b k' Hb Hst Hs HR) as (w' & E' & ? & ? & ?).
    exists w'. split_and!; try done. by eapply Keeps_trans.
  - exists (MkWork b k'). split_and!; [done| |by apply WF_make|done|done].
    rewrite setState_plain; [|rewrite Hst; allowed|by right; left].
    destruct b. cbn in Hst. by subst.
Qed.

Lemma crankFuel_ok n : Cranks n (crankFuel n).
Proof.
  induction n as [|n IH]; intros [b k] HW Hh Hst.
  - rewrite height_subs in Hh. lia.
  - destruct Hst as [Hst|Hst].
    + destruct (crank_running n b k IH HW Hst Hh) as (w' & E & ? & ? & ?).
      exists w'. split; [done|]. split; try done. by rewrite Hst.
    + destruct (crank_aborting n b k IH HW Hst Hh) as (k1 & d & w' & _ & E & ? & ? & Hd).
      exists w'. split; [done|]. split; try done; [by rewrite Hst|].
      intros _. unfold stopping, isDone, isAborting, state. destruct d.
      * unfold state in Hd. by rewrite Hd.
      * subst w'. unfold state in Hst. cbn in *. by rewrite Hst.
Qed.

Lemma crankWork_ok w :
  WF w -> state w = RUNNING \/ state w = ABORTING ->
  exists w', crankWork w = inr w' /\ CrankOK w w'.
Proof. intros HW Hst. by apply crankFuel_ok. Qed.

End Run.
