(* ===== verification/WorkEvents.v ===== *)
(** * Asynchronous work: events

    Timers, implementers' own events, scheduling and shutdown change a tree anywhere,
    and wake the works above.  The invariant of the whole system says, on top of a
    well-formed tree, that the scheduler has posted a crank exactly when it has
    something to run; every event keeps it. *)

From stdpp Require Import base list gmap strings sets.
From S2P Require Import Prelude WorkModel WorkInv WorkCrank WorkRun.

Section Events.
Context `{Lawful}.

(** ** The work at a path *)

Definition subAt (k : Kind Work) (i : nat) : option Work :=
  match k with
  | KLeaf _ => None
  | KWork f => snd <$> (mChildren f !! i)
  | KSequence f => mSequenceOfWork f !! i
  | KConditional f => Some (mConditionedWork f)
  end.

Definition setSub (k : Kind Work) (i : nat) (c : Work) : Kind Work :=
  match k with
  | KLeaf l => KLeaf l
  | KWork f =>
      match mChildren f !! i with
      | Some (a, _) => KWork (putChild i a c f)
      | None => KWork f
      end
  | KSequence f =>
      KSequence (setSequence (<[i := c]> (mSequenceOfWork f)) (mNextInSequence f)
                   (mCurrentExecuting f) f)
  | KConditional f => KConditional (mkConditionalFields (mCondition f) c (mWorkStarted f))
  end.

Fixpoint workAt (p : list nat) (w : Work) : option Work :=
  match p with
  | [] => Some w
  | i :: p' => subAt (kind w) i ≫= workAt p'
  end.

Lemma subAt_subs k i c : subAt k i = Some c -> c ∈ subs k.
Proof.
  destruct k as [l|f|f|f]; cbn; [done| | |].
  - intros ([a d] & Hi & ->)%fmap_Some. apply (list_elem_of_fmap_2 snd _ (a, d)).
    by eapply list_elem_of_lookup_2.
  - apply list_elem_of_lookup_2.
  - intros [= ->]. set_solver.
Qed.

Lemma setSub_subs k i c x : x ∈ subs (setSub k i c) -> x = c \/ x ∈ subs k.
Proof.
  destruct k as [l|f|f|f]; cbn; [by right| | |].
  - destruct (mChildren f !! i) as [[a d]|]; [apply putChild_in|by right].
  - apply elem_of_insert.
  - set_solver.
Qed.

Lemma setSub_scheduler k i c : isScheduler (setSub k i c) = isScheduler k.
Proof. destruct k as [l|f|f|f]; cbn; try done. by destruct (mChildren f !! i) as [[a d]|]. Qed.

Lemma setSub_restart b b' k i c c' :
  subAt k i = Some c -> (Restartable c -> Restartable c') ->
  Restartable (MkWork b k) -> Restartable (MkWork b' (setSub k i c')).
Proof.
  intros Hi HR Hr. destruct k as [l|f|f|f]; cbn in *; [constructor| | |inversion Hr].
  - destruct (mChildren f !! i) as [[a d]|]; constructor.
  - by eapply Restartable_insert.
Qed.

Lemma subAt_setSub k i c c' : subAt k i = Some c -> subAt (setSub k i c') i = Some c'.
Proof.
  destruct k as [l|f|f|f]; cbn; [done| | |done].
  - intros ([a d] & Hi & ->)%fmap_Some. rewrite Hi. cbn.
    rewrite list_lookup_insert_eq; [done|]. by eapply lookup_lt_Some.
  - intros Hi. apply list_lookup_insert_eq. by eapply lookup_lt_Some.
Qed.

(** One step of [atPath]. *)
Lemma adjustWith_ok {A} (g : A -> exc (A * list Callback)) i l x x' cbs :
  l !! i = Some x -> g x = inr (x', cbs) -> adjustWith g i l = inr (<[i := x']> l, cbs).
Proof.
  revert i. induction l as [|y l IH]; intros [|i]; cbn; try done.
  - intros [= ->] ->. done.
  - intros Hi Hg. rewrite (IH _ Hi Hg). done.
Qed.

Lemma adjustWith_none {A} (g : A -> exc (A * list Callback)) i l :
  l !! i = None -> adjustWith g i l = inr (l, []).
Proof.
  revert i. induction l as [|y l IH]; intros [|i]; cbn; try done.
  intros Hi. rewrite (IH _ Hi). done.
Qed.

Lemma atPath_sub g i p b k c c' cbs :
  subAt k i = Some c -> atPath g p c = inr (c', cbs) ->
  atPath g (i :: p) (MkWork b k) = notifyParent cbs (MkWork b (setSub k i c')).
Proof.
  intros Hi E. cbn [atPath kind base]. destruct k as [l|f|f|f]; cbn in Hi; [done| | |].
  - apply fmap_Some in Hi as ([a d] & Hi & ->). cbn in E.
    erewrite adjustWith_ok; [|exact Hi|cbn; by rewrite E]. cbn [setSub]. by rewrite Hi.
  - erewrite adjustWith_ok; [|exact Hi|exact E]. done.
  - injection Hi as ->. rewrite E. done.
Qed.

Lemma atPath_none g i p b k :
  subAt k i = None -> atPath g (i :: p) (MkWork b k) = inr (MkWork b k, []).
Proof.
  intros Hi. cbn [atPath kind base]. destruct k as [l|f|f|f]; cbn in Hi; [done| | |done].
  - rewrite adjustWith_none; [by destruct f|]. by destruct (mChildren f !! i).
  - rewrite adjustWith_none; [by destruct f|done].
Qed.

(** ** Replacing a work below *)

Lemma same_flags c c' : state c' = state c ->
  isDone c' = isDone c /\ isAborting c' = isAborting c /\ going c' = going c /\
  stopping c' = stopping c /\ still c' = still c.
Proof. intros E. unfold stopping, still, isDone, isAborting, going. by rewrite E. Qed.

Lemma Startable_same c c' :
  state c' = state c -> (Restartable c -> Restartable c') -> Startable c -> Startable c'.
Proof.
  intros E HR [Hp|[Hd Hr]]; [left; congruence|right].
  by rewrite (proj1 (same_flags _ _ E)); auto.
Qed.

Lemma ahead_put_in f j a c c' (x : nat * Work) :
  mChildren f !! j = Some (a, c) -> x ∈ ahead (putChild j a c' f) ->
  x ∈ ahead f \/ (x = (a, c') /\ (a, c) ∈ ahead f).
Proof.
  intros Hj. unfold ahead. cbn. rewrite length_insert.
  set (n := default (length (mChildren f)) (mNextChild f)). rewrite drop_insert.
  case_decide as Hle; [|by left]. intros [->|?]%elem_of_insert; [|by left].
  right. split; [done|]. apply (list_elem_of_lookup_2 _ (j - n)).
  rewrite lookup_drop. replace (n + (j - n))%nat with j by lia. done.
Qed.

Lemma putChild_child (f : WorkFields Work) j a c : mChildren f !! j = Some (a, c) -> c ∈ (mChildren f).*2.
Proof.
  intros Hj. apply (list_elem_of_fmap_2 snd _ (a, c)). by eapply list_elem_of_lookup_2.
Qed.

Lemma BatchOK_put m it f j a c c' :
  BatchOK m it f -> mChildren f !! j = Some (a, c) ->
  (isDone c' = true -> state c' = state c) -> BatchOK m it (putChild j a c' f).
Proof.
  intros [Hnew Hch Hseen] Hj Hst. split; [done| |].
  - intros name i Hi. rewrite (putChild_addresses f j a c c' Hj). eauto.
  - intros i d Hd Hdone. destruct (ahead_put_in f j a c c' _ Hj Hd) as [Ha|[[= -> ->] Ha]];
      [eauto|]. specialize (Hst Hdone). rewrite Hst. apply Hseen; [done|].
    unfold isDone in *. by rewrite <-Hst.
Qed.

Lemma WorkOK_same b f j a c c' :
  WorkOK b f -> mChildren f !! j = Some (a, c) -> state c' = state c -> Keeps c c' ->
  WorkOK b (putChild j a c' f).
Proof.
  intros [Ht Hre Hab Hsp Hg Hw Hb Hrw Hbw] Hj Est HK.
  destruct (same_flags c c' Est) as (Ed & Ea & Eg & Es & _).
  pose proof (putChild_child f j a c Hj) as Hc. split; cbn; try done.
  - eapply TreeOK_put; [exact Ht|exact Hj|done|]. rewrite Est. by apply (tree_started _ _ Ht).
  - intros Hr. destruct (Hre Hr) as [Hcs ?]. rewrite Hcs in Hj. done.
  - intros Hs x [->|Hx]%putChild_in; [rewrite Es|]; eauto.
  - intros Ha Hm x [->|Hx]%putChild_in; [rewrite Eg|]; eauto.
  - intros Hwt x [->|Hx]%putChild_in; [rewrite Est|]; eauto.
  - intros m it Hsub Ha Hm. eapply BatchOK_put; [by apply Hb|exact Hj|done].
  - intros m it Hsub Hwt Hr. destruct (Hbw m it Hsub Hwt Hr) as (x & Hx & Hxs).
    apply list_elem_of_fmap in Hx as ([i d] & -> & Hx). apply list_elem_of_lookup in Hx as [n Hn].
    destruct (decide (n = j)) as [->|Hne].
    + exists c'. simplify_eq. split; [|cbn in Hxs; congruence].
      apply (list_elem_of_fmap_2 snd _ (a, c')). apply (list_elem_of_lookup_2 _ j).
      apply list_lookup_insert_eq. by eapply lookup_lt_Some.
    + exists d. split; [|done]. apply (list_elem_of_fmap_2 snd _ (i, d)).
      apply (list_elem_of_lookup_2 _ n). by rewrite list_lookup_insert_ne.
Qed.

Lemma SequenceOK_same b f j c c' :
  SequenceOK b f -> mSequenceOfWork f !! j = Some c -> state c' = state c -> Keeps c c' ->
  SequenceOK b (setSequence (<[j := c']> (mSequenceOfWork f)) (mNextInSequence f)
                  (mCurrentExecuting f) f).
Proof.
  intros [Hn Hcu Hbf Hsl Hrs Hre Hrw Hp Haf Hw] Hj Est HK.
  destruct (same_flags c c' Est) as (Ed & Ea & Eg & Es & Et).
  assert (Hlk : forall i w, <[j := c']> (mSequenceOfWork f) !! i = Some w ->
    exists w0, mSequenceOfWork f !! i = Some w0 /\ state w = state w0 /\ Keeps w0 w).
  { intros i w Hi. destruct (decide (i = j)) as [->|Hne].
    - rewrite list_lookup_insert_eq in Hi by (by eapply lookup_lt_Some). simplify_eq.
      by exists c.
    - rewrite list_lookup_insert_ne in Hi by done. exists w. split_and!; [done..|apply Keeps_refl]. }
  assert (Hin : forall w, w ∈ <[j := c']> (mSequenceOfWork f) ->
    exists w0, w0 ∈ mSequenceOfWork f /\ state w = state w0 /\ Keeps w0 w).
  { intros w Hwi. apply list_elem_of_lookup in Hwi as [i Hi].
    destruct (Hlk i w Hi) as (w0 & ? & ? & ?). exists w0. split_and!; try done.
    by eapply list_elem_of_lookup_2. }
  assert (Hfw : forall i w, mSequenceOfWork f !! i = Some w -> exists w',
    <[j := c']> (mSequenceOfWork f) !! i = Some w' /\ state w' = state w /\ Keeps w w').
  { intros i w Hi. destruct (decide (i = j)) as [->|Hne].
    - simplify_eq. exists c'. split_and!; try done.
      apply list_lookup_insert_eq. by eapply lookup_lt_Some.
    - exists w. rewrite list_lookup_insert_ne by done. split_and!; [done..|apply Keeps_refl]. }
  split; cbn; rewrite ?length_insert; try done.
  - intros Hcur. destruct (Hcu Hcur) as (w & Hi & Hnt & Hg & Hst).
    destruct (Hfw _ _ Hi) as (w' & Hi' & Es' & Hk'). destruct (same_flags w w' Es') as (_ & _ & E1 & E2 & _).
    exists w'. rewrite E1, E2, (keeps_notify _ _ Hk'). by split_and!.
  - intros i w Hi Hl. destruct (Hlk i w Hi) as (w0 & Hi0 & Es' & _).
    rewrite (proj1 (same_flags w0 w Es')), Es'. eauto.
  - intros i w Hi Hor. destruct (Hlk i w Hi) as (w0 & Hi0 & Es' & _).
    destruct (same_flags w0 w Es') as (_ & _ & _ & _ & ->). eauto.
  - intros Hpos w Hwi. destruct (Hin w Hwi) as (w0 & Hw0 & _ & Hk'). apply (keeps_restart _ _ Hk'). auto.
  - intros Hpr w Hwi. destruct (Hin w Hwi) as (w0 & Hw0 & Es' & Hk').
    eapply Startable_same; [exact Es'|apply Hk'|auto].
  - intros Ha i w Hi Hor. destruct (Hlk i w Hi) as (w0 & Hi0 & Es' & Hk').
    eapply Startable_same; [exact Es'|apply Hk'|eauto].
  - intros Hwt Hr. destruct (Hw Hwt Hr) as (Hcur & w & Hi & Hws). split; [done|].
    destruct (Hfw _ _ Hi) as (w' & Hi' & Es' & _). exists w'. split; [done|congruence].
Qed.

Lemma KindOK_same b k i c c' :
  KindOK b k -> subAt k i = Some c -> state c' = state c -> Keeps c c' ->
  KindOK b (setSub k i c').
Proof.
  intros HK Hi Est Hk. destruct k as [l|f|f|f]; cbn in Hi |- *; [done| | |].
  - apply fmap_Some in Hi as ([a d] & Hi & ->). rewrite Hi. by eapply WorkOK_same.
  - by eapply SequenceOK_same.
  - injection Hi as <-. destruct HK as [Hn Hsd Hsi Hp Hpo Hsy Hsp].
    destruct (same_flags _ _ Est) as (_ & _ & _ & E1 & E2).
    split; cbn; rewrite ?E1, ?E2, ?Est, ?(keeps_notify _ _ Hk); try done.
    intros Hor. destruct (Hp Hor) as (? & ? & Hs). split_and!; try done.
    eapply Startable_same; [exact Est|apply Hk|done].
Qed.

(** ** Waking the works above *)

(** A work that waits below another one is its current business. *)
Lemma waiting_below b k i c :
  BaseOK b -> KindOK b k -> subAt k i = Some c -> state c = WAITING ->
  active b = true /\ mNotifyCallback (base c) = wakeSelfUpCallback (innerOf k).
Proof.
  intros Hb HK Hi Hc.
  assert (Hns : still c = false /\ stopping c = false).
  { unfold still, stopping, isDone, isAborting. by rewrite Hc. }
  destruct Hns as [Hnst Hnsp].
  assert (Hcase : resting b = true \/ mState b = ABORTING \/ active b = true).
  { pose proof (base_retrying _ Hb). unfold resting, active.
    destruct (mState b); auto; try done. destruct (mRetryTimer b); auto. }
  destruct k as [l|f|f|f]; cbn in Hi, HK; [done| | |].
  - apply fmap_Some in Hi as ([a d] & Hi & ->). cbn [snd] in *.
    pose proof (putChild_child f i a d Hi) as Hin. split; [|by apply (tree_started _ _ (work_tree _ _ HK))].
    destruct Hcase as [Hr|[Ha|?]]; [| |done].
    + destruct (work_resting _ _ HK Hr) as [Hcs _]. by rewrite Hcs in Hi.
    + rewrite (work_stopping _ _ HK (or_introl Ha) d Hin) in Hnsp. done.
  - destruct (mCurrentExecuting f) eqn:Hcur.
    2: { rewrite (seq_still _ _ HK i c Hi (or_intror Hcur)) in Hnst. done. }
    destruct (decide (i = mNextInSequence f)) as [->|Hne].
    2: { rewrite (seq_still _ _ HK i c Hi (or_introl Hne)) in Hnst. done. }
    destruct (seq_current _ _ HK Hcur) as (w & Hw & Hnot & _ & Hst). simplify_eq.
    split; [|done]. destruct Hcase as [Hr|[Ha|?]]; [| |done].
    + rewrite (seq_resting _ _ HK Hr) in Hcur. done.
    + rewrite (Hst Ha) in Hnsp. done.
  - injection Hi as <-. destruct (mWorkStarted f) eqn:Hst.
    2: { rewrite (cond_still _ _ HK (or_introl Hst)) in Hnst. done. }
    split; [|by apply (cond_started _ _ HK)].
    destruct Hcase as [Hr|[Ha|?]]; [| |done].
    + rewrite (cond_still _ _ HK (or_intror Hr)) in Hnst. done.
    + rewrite (cond_stopping _ _ HK Ha Hst) in Hnsp. done.
Qed.

Lemma WorkOK_wake b f j a c c' :
  WorkOK b f -> active b = true -> mChildren f !! j = Some (a, c) -> state c = WAITING ->
  state c' = RUNNING -> Keeps c c' -> WorkOK (awake b) (putChild j a c' f).
Proof.
  intros [Ht Hre Hab Hsp Hg Hw Hb Hrw Hbw] Ha Hj Hc Hc' HK.
  pose proof (putChild_child f j a c Hj) as Hin.
  assert (Hm : mAbortChildrenButNotSelf f = false).
  { apply not_true_is_false. intros Hm. pose proof (Hsp (or_intror Hm) c Hin) as Hs.
    unfold stopping, isDone, isAborting in Hs. by rewrite Hc in Hs. }
  apply WorkOK_going; [by left| |done| |done| |done].
  - eapply TreeOK_put; [exact Ht|exact Hj|done|by rewrite Hc'].
  - intros x [->|Hx]%putChild_in; [unfold going; by rewrite Hc'|by apply Hg].
  - intros m it Hsub. eapply BatchOK_put; [by apply Hb|exact Hj|].
    unfold isDone. by rewrite Hc'.
Qed.

Lemma SequenceOK_awake b f :
  SequenceOK b f -> active b = true -> SequenceOK (setMState RUNNING (setRetryTimer false b)) f.
Proof.
  intros [Hn Hcu Hbf Hsl Hrs Hre Hrw Hp Haf Hw] Ha. split; cbn; try done.
  - intros Hcur. destruct (Hcu Hcur) as (w & ? & ? & ? & ?). exists w. split_and!; try done. auto.
  - intros i w Hi Hl. destruct (Hbf i w Hi Hl). auto.
  - by intros [?|?].
  - intros _. by apply Haf.
Qed.

Lemma KindOK_wake b k i c c' :
  BaseOK b -> KindOK b k -> active b = true -> subAt k i = Some c -> state c = WAITING ->
  state c' = RUNNING -> Keeps c c' -> KindOK (awake b) (setSub k i c').
Proof.
  intros Hb HK Ha Hi Hc Hc' Hk. destruct k as [l|f|f|f]; cbn in Hi, HK |- *; [done| | |].
  - apply fmap_Some in Hi as ([a d] & Hi & ->). rewrite Hi. by eapply WorkOK_wake.
  - assert (Hns : still c = false) by (unfold still, isDone; by rewrite Hc).
    destruct (mCurrentExecuting f) eqn:Hcur.
    2: { rewrite (seq_still _ _ HK i c Hi (or_intror Hcur)) in Hns. done. }
    destruct (decide (i = mNextInSequence f)) as [->|Hne].
    2: { rewrite (seq_still _ _ HK i c Hi (or_introl Hne)) in Hns. done. }
    destruct (seq_current _ _ HK Hcur) as (w & Hw & Hnot & _ & _). simplify_eq.
    pose proof (SequenceOK_awake b f HK Ha) as HK'.
    destruct (SequenceOK_current (setMState RUNNING (setRetryTimer false b)) f c c')
      as []; try done.
    + apply Hk.
    + unfold going. by rewrite Hc'.
    + by rewrite (keeps_notify _ _ Hk).
  - injection Hi as <-. destruct (mWorkStarted f) eqn:Hst.
    2: { pose proof (cond_still _ _ HK (or_introl Hst)) as Hs.
         unfold still, isDone in Hs. by rewrite Hc in Hs. }
    destruct (cond_started _ _ HK Hst) as (Hnot & Hwt & _).
    split; cbn; try done.
    + apply (cond_never _ _ HK).
    + intros _. rewrite (keeps_notify _ _ Hk), Hc'. done.
    + by intros [?|?].
    + by intros [?|[_ ?]].
Qed.

Definition abortFlag (k : Kind Work) : bool :=
  match k with KWork f => mAbortChildrenButNotSelf f | _ => false end.

Lemma setSub_flag k i c : abortFlag (setSub k i c) = abortFlag k.
Proof. destruct k as [l|f|f|f]; cbn; try done. by destruct (mChildren f !! i) as [[a d]|]. Qed.

(** What an event below does to a work: nothing to its own state, or it wakes it. *)
Definition Woken (w w' : Work) (cbs : list Callback) : Prop :=
  WF w' /\ Keeps w w' /\ abortFlag (kind w') = abortFlag (kind w) /\
  ((base w' = base w /\ cbs = []) \/
   (state w = WAITING /\ state w' = RUNNING /\ mRetryTimer (base w') = false /\
    cbs = [innerOf (kind w); mNotifyCallback (base w)])).

Lemma awake_running b : BaseOK b -> mState b = RUNNING -> awake b = b.
Proof.
  intros Hb Hst. destruct (running_base b Hb Hst) as [_ Hw].
  destruct b. cbn in *. by subst.
Qed.

Lemma innerOf_null k : isScheduler k = false -> innerOf k = nullCallback.
Proof. unfold innerOf. by intros ->. Qed.

(** The parent of a work that was woken. *)
Lemma notifyParent_ok b k i c c' cbs :
  WF (MkWork b k) -> subAt k i = Some c -> state c = WAITING -> state c' = RUNNING ->
  WF c' -> Keeps c c' -> cbs = [innerOf (kind c); mNotifyCallback (base c)] ->
  exists w' cbs', notifyParent cbs (MkWork b (setSub k i c')) = inr (w', cbs') /\
    Woken (MkWork b k) w' cbs' /\ kind w' = setSub k i c' /\ state w' = RUNNING.
Proof.
  intros (Hb & HK & Hs)%WF_inv Hi Hc Hc' HW' Hk ->.
  destruct (Hs c (subAt_subs _ _ _ Hi)) as [HWc Hsc].
  destruct (waiting_below b k i c Hb HK Hi Hc) as [Ha Hnot].
  pose proof (KindOK_wake b k i c c' Hb HK Ha Hi Hc Hc' Hk) as HK'.
  assert (Hs' : SubsOK (setSub k i c')).
  { intros x [->|Hx]%setSub_subs; [|by apply Hs]. split; [done|].
    by rewrite (keeps_scheduler _ _ Hk). }
  assert (Hkeep : forall b', mNotifyCallback b' = mNotifyCallback b ->
    Keeps (MkWork b k) (MkWork b' (setSub k i c'))).
  { intros b' Eb. split; cbn; [|apply setSub_scheduler|done].
    eapply setSub_restart; [exact Hi|apply Hk]. }
  rewrite (innerOf_null _ Hsc), Hnot. cbn [notifyParent].
  destruct (decide (mState b = WAITING)) as [Hw|Hw].
  - assert (Hr : retrying b = false).
    { rewrite retrying_waiting by done. unfold active in Ha. rewrite Hw in Ha.
      by apply negb_true_iff. }
    destruct (wakeUp_ok (innerOf k) b (setSub k i c') Hb Hw Hr HK' Hs') as [-> HWf].
    eexists _, _. split; [done|]. split_and!; [|done|done].
    split_and!; [done|by apply Hkeep|apply setSub_flag|].
    right. split_and!; try done. cbn. by rewrite <-retrying_waiting.
  - assert (Hst : mState b = RUNNING).
    { unfold active in Ha. by destruct (mState b). }
    unfold wakeUp, state. cbn [base]. rewrite decide_False by done. cbn.
    eexists _, _. split; [done|]. split_and!; [|done|done]. split_and!; [|by apply Hkeep|apply setSub_flag|by left].
    apply WF_make; [done| |done]. by rewrite <-(awake_running b Hb Hst).
Qed.

(** ** An event at a path *)

Lemma workAt_below p w t :
  WF w -> isScheduler (kind w) = false -> workAt p w = Some t ->
  WF t /\ isScheduler (kind t) = false.
Proof.
  revert w. induction p as [|i p IH]; intros [b k] HW Hsc; cbn; [by intros [= <-]|].
  destruct (subAt k i) as [c|] eqn:Hi; [|done]. apply WF_inv in HW as (_ & _ & Hs).
  destruct (Hs c (subAt_subs _ _ _ Hi)). by apply IH.
Qed.

Lemma atPath_ok g p w :
  WF w ->
  (forall t, workAt p w = Some t -> WF t -> p = [] \/ isScheduler (kind t) = false ->
     exists t' cbs, g t = inr (t', cbs) /\ Woken t t' cbs) ->
  exists w' cbs, atPath g p w = inr (w', cbs) /\ Woken w w' cbs /\
    (forall t, workAt p w = Some t ->
       exists t' c, g t = inr (t', c) /\ workAt p w' = Some t').
Proof.
  revert w. induction p as [|i p IH]; intros [b k] HW Hg.
  - destruct (Hg _ eq_refl HW (or_introl eq_refl)) as (w' & cbs & E & Hwk).
    exists w', cbs. split_and!; [done..|]. intros t [= <-]. by exists w', cbs.
  - pose proof (WF_inv _ _ HW) as (Hb & HK & Hs).
    destruct (subAt k i) as [c|] eqn:Hi.
    2: { exists (MkWork b k), []. rewrite atPath_none by done.
         split_and!; [done| |cbn; by rewrite Hi]. split_and!; [done|apply Keeps_refl|done|by left]. }
    destruct (Hs c (subAt_subs _ _ _ Hi)) as [HWc Hsc].
    destruct (IH c HWc) as (c' & cbs & E & (HWc' & Hk & _ & Hor) & Hat).
    { intros t Ht HWt _. apply Hg; [cbn; by rewrite Hi|done|right].
      by eapply (workAt_below p c t). }
    rewrite (atPath_sub g i p b k c c' cbs Hi E).
    assert (Hfin : forall w', kind w' = setSub k i c' -> forall t, workAt (i :: p) (MkWork b k) = Some t ->
      exists t' c, g t = inr (t', c) /\ workAt (i :: p) w' = Some t').
    { intros w' Ek t Ht. cbn in Ht. rewrite Hi in Ht. cbn in Ht.
      destruct (Hat t Ht) as (t' & x & ? & ?). exists t', x. split; [done|].
      cbn. rewrite Ek, (subAt_setSub k i c c' Hi). done. }
    destruct Hor as [[Eb ->]|(Hc & Hc' & _ & Ecbs)].
    + assert (Est : state c' = state c) by (unfold state; by rewrite Eb).
      exists (MkWork b (setSub k i c')), []. split_and!; [done| |by apply Hfin].
      split_and!; [|split; cbn; [|apply setSub_scheduler|done]|apply setSub_flag|by left].
      * apply WF_make; [done|by eapply KindOK_same|].
        intros x [->|Hx]%setSub_subs; [|by apply Hs]. split; [done|].
        by rewrite (keeps_scheduler _ _ Hk).
      * eapply setSub_restart; [exact Hi|apply Hk].
    + destruct (notifyParent_ok b k i c c' cbs HW Hi Hc Hc' HWc' Hk Ecbs)
        as (w' & cbs' & E' & Hwk & Ek & _).
      exists w', cbs'. split_and!; [done..|by apply Hfin].
Qed.

(** ** The handlers *)

Lemma wakeUp_handler w :
  WF w -> isScheduler (kind w) = false ->
  (state w = WAITING -> mRetryTimer (base w) = false) ->
  (state w = WAITING -> forall f, kind w = KConditional f -> mWorkStarted f = false) ->
  exists w' cbs, wakeUp nullCallback w = inr (w', cbs) /\ Woken w w' cbs /\
    (state w = WAITING -> state w' = RUNNING).
Proof.
  destruct w as [b k]. intros HW Hsc Hr Hc. pose proof (WF_inv _ _ HW) as (Hb & HK & Hs).
  destruct (decide (mState b = WAITING)) as [Hw|Hw].
  - assert (Hnr : retrying b = false) by (rewrite retrying_waiting by done; by apply Hr).
    destruct (wakeUp_ok nullCallback b k Hb Hw Hnr (KindOK_awake b k HK Hw Hnr (Hc Hw)) Hs)
      as [-> HWf].
    eexists _, _. split; [done|]. split; [|done]. split_and!; [done|by apply Keeps_base|done|].
    right. split_and!; try done; [by apply Hr|]. cbn. by rewrite (innerOf_null k Hsc).
  - exists (MkWork b k), []. unfold wakeUp, state. cbn [base]. rewrite decide_False by done.
    split_and!; [done| |done]. split_and!; [done|apply Keeps_refl|done|by left].
Qed.

Lemma waitingTimer_handler w :
  WF w -> isScheduler (kind w) = false \/ mWaitingTimer (base w) = false ->
  exists w' cbs, ifTimer mWaitingTimer (wakeUp nullCallback) w = inr (w', cbs) /\ Woken w w' cbs /\
    (mWaitingTimer (base w) = true -> state w' = RUNNING).
Proof.
  intros HW Hsc. unfold ifTimer. destruct (mWaitingTimer (base w)) eqn:Ht.
  - destruct Hsc as [Hsc|?]; [|done]. destruct w as [b k].
    pose proof (WF_inv _ _ HW) as (Hb & HK & Hs). destruct (base_waiting _ Hb Ht) as [Hw Hr].
    destruct (wakeUp_handler (MkWork b k) HW Hsc) as (w' & cbs & E & Hwk & Hst); [done| |].
    + intros _ f Hf. cbn in Hf. subst k. cbn in Ht. apply not_true_is_false. intros Hs'.
      destruct (cond_started _ _ HK Hs') as (_ & ? & _). congruence.
    + exists w', cbs. split_and!; [done..|]. intros _. by apply Hst.
  - exists w, []. split_and!; [done| |done]. split_and!; [done|apply Keeps_refl|done|by left].
Qed.

Lemma retryTimer_handler w :
  WF w -> isScheduler (kind w) = false \/ retrying (base w) = false ->
  exists w' cbs, ifTimer mRetryTimer retryTimerFired w = inr (w', cbs) /\ Woken w w' cbs /\
    (retrying (base w) = true -> state w' = RUNNING).
Proof.
  destruct w as [b k]. intros HW Hsc. unfold ifTimer. cbn [base kind] in *.
  pose proof (WF_inv _ _ HW) as (Hb & HK & Hs).
  destruct (mRetryTimer b) eqn:Ht.
  - unfold retryTimerFired, state. cbn [base].
    destruct (base_retry _ Hb Ht) as [Hw|Ha].
    + assert (Hr : retrying b = true) by (by rewrite retrying_waiting).
      destruct Hsc as [Hsc|?]; [|congruence].
      rewrite Hw. rewrite decide_True by done.
      set (b0 := setRetryTimer false (setRetries (S (mRetries b)) b)).
      assert (Hb0 : BaseOK b0).
      { pose proof (base_left _ Hb Hr). split; cbn; try done; try lia; try congruence.
        unfold retrying. cbn. by rewrite andb_false_r. }
      assert (Hr0 : retrying b0 = false) by (by apply retrying_waiting).
      destruct (wakeUp_ok nullCallback b0 k Hb0 Hw Hr0 (KindOK_retry b k Hb HK Hr) Hs) as [E HWf].
      cbn -[wakeUp]. unfold onBase. cbn [base kind]. fold b0. rewrite E.
      eexists _, _. split; [done|]. split; [|done]. split_and!; [done|by apply Keeps_base|done|].
      right. split_and!; try done. cbn. by rewrite (innerOf_null k Hsc).
    + rewrite Ha. cbn. eexists _, _. split; [done|]. split; [|unfold retrying; by rewrite Ha].
      split_and!; [done|apply Keeps_refl|done|by left].
  - eexists _, _. split; [done|]. split; [|unfold retrying; by rewrite Ht, andb_false_r].
    split_and!; [done|apply Keeps_refl|done|by left].
Qed.

(** ** The whole system *)

(** The scheduler: it waits or runs until it is shut down. *)
Record RootOK (w : Work) : Prop := {
  root_WF : WF w;
  root_scheduler : isScheduler (kind w) = true;
  root_notify : mNotifyCallback (base w) = nullCallback;
  root_retrying : retrying (base w) = false;
  root_timer : mWaitingTimer (base w) = false;
  root_state : match state w with RUNNING | WAITING | ABORTING | ABORTED => True | _ => False end;
  root_children : state w = RUNNING \/ state w = WAITING -> abortFlag (kind w) = false }.

(** A crank is posted exactly when there is something to run. *)
Record WorldOK (s : World) : Prop := {
  world_root : RootOK (root s);
  world_scheduled : mScheduled s = true <-> getState (root s) = WORK_RUNNING;
  world_posted : posted s = if mScheduled s then 1 else 0 }.

Lemma scheduler_onRun crank f f' st timer :
  subclass f = WorkScheduler -> mAbortChildrenButNotSelf f = false ->
  Work_onRun crank f = inr (f', st, timer) ->
  (st = WORK_RUNNING \/ st = WORK_WAITING) /\ timer = false /\
  mAbortChildrenButNotSelf f' = false.
Proof.
  intros Hsub Hm. unfold Work_onRun. rewrite Hm.
  destruct (yield_spec f) as (f1 & r & -> & Hy).
  pose proof (yd_abort _ _ _ Hy) as Ha. pose proof (yd_subclass _ _ _ Hy) as Hs.
  rewrite Hm in Ha. rewrite Hsub in Hs. destruct r as [j|].
  - intros (cs & _ & [= <- <- <-])%exc_bind_inr. cbn. rewrite Ha. auto.
  - unfold doWork. rewrite Hs. cbn.
    destruct (anyChildRunning f1); cbn; intros [= <- <- <-]; auto.
Qed.

Lemma root_fields w : isScheduler (kind w) = true -> exists f, kind w = KWork f /\ subclass f = WorkScheduler.
Proof.
  destruct (kind w) as [l|f|f|f]; cbn; try done. intros Hs. exists f.
  by destruct (subclass f).
Qed.

Lemma root_running w :
  RootOK w -> state w = RUNNING ->
  exists w', crankWork w = inr w' /\ RootOK w' /\ (state w' = RUNNING \/ state w' = WAITING).
Proof.
  intros [HW Hsc Hn Hr Ht _ Hm] Hst. destruct w as [b k].
  destruct (root_fields _ Hsc) as (f & Ek & Hsub). cbn in Ek. subst k. cbn in Hm, Hn, Hr, Ht.
  unfold state in Hst. cbn in Hst.
  destruct (crankWork_ok (MkWork b (KWork f)) HW (or_introl Hst)) as (w' & E & [HW' [_ Hsc' Hn'] _ _]).
  exists w'. split; [done|]. pose proof (WF_inv _ _ HW) as (Hb & HK & Hs).
  destruct (running_base b Hb Hst) as [Hin Hwt].
  unfold crankWork in E. rewrite height_subs in E.
  remember (list_max (height <$> subs (KWork f))) as n eqn:En.
  destruct (Work_onRun_ok n (crankFuel n) b f (crankFuel_ok n)) as (f' & st & timer & E1 & Hran); try done.
  { intros c Hc. pose proof (height_sub b (KWork f) c Hc) as Hh. rewrite height_subs in Hh. lia. }
  destruct (scheduler_onRun _ _ _ _ _ Hsub (Hm (or_introl Hst)) E1) as (Hst' & -> & Hm').
  assert (Ew : w' = MkWork (setMState (getInternalState st) b) (KWork f')).
  { rewrite crankFuel_running in E by done. unfold onRun in E. cbn [kind base] in E.
    rewrite E1 in E. cbn -[setState] in E.
    rewrite setState_plain in E; [by injection E as <-| |].
    - rewrite Hst. destruct Hst' as [->| ->]; allowed.
    - rewrite Hst. destruct Hst' as [->| ->]; auto. }
  subst w'. cbn in Hsc', Hn'. split; [|destruct Hst' as [->| ->]; auto].
  split; cbn; try done; try congruence.
  - rewrite Hsc'. by rewrite Hsub.
  - by apply InRun_flags.
  - by destruct Hst' as [->| ->].
Qed.

Lemma root_stopping w w' :
  RootOK w -> WF w' -> Keeps w w' -> state w' = ABORTING \/ state w' = ABORTED -> RootOK w'.
Proof.
  intros [HW Hsc Hn Hr Ht _ Hm] HW' [_ Hsc' Hn'] Hst'. destruct w' as [b k].
  pose proof (WF_inv _ _ HW') as (Hb & _ & _). unfold state in *. cbn in *.
  split; cbn; try done; try congruence.
  - unfold retrying. by destruct Hst' as [->| ->].
  - apply not_true_is_false. intros Hwt. destruct (base_waiting _ Hb Hwt). naive_solver congruence.
  - unfold state. cbn. by destruct Hst' as [->| ->].
  - unfold state. cbn. destruct Hst' as [->| ->]; by intros [?|?].
Qed.

Lemma root_crank w :
  RootOK w -> getState w = WORK_RUNNING ->
  exists w', crankWork w = inr w' /\ RootOK w' /\
    (state w = ABORTING -> state w' = ABORTING \/ state w' = ABORTED).
Proof.
  intros Hw Hst. pose proof (root_state _ Hw) as Hs.
  destruct (decide (state w = RUNNING)) as [Hr|Hr].
  - destruct (root_running w Hw Hr) as (w' & E & ? & _). exists w'. split_and!; [done..|]. congruence.
  - assert (Ha : state w = ABORTING) by (unfold getState in Hst; by destruct (state w)).
    destruct (crankWork_ok w (root_WF _ Hw) (or_intror Ha)) as (w' & E & [HW' HK _ Hstop]).
    specialize (Hstop Ha).
    destruct w as [b k]. unfold crankWork in E. rewrite height_subs in E.
    destruct (crank_aborting (list_max (height <$> subs k)) b k (crankFuel_ok _) (root_WF _ Hw) Ha) as (k1 & d & w'' & _ & E' & _ & _ & Hd);
      [by rewrite height_subs|]. rewrite E in E'. injection E' as <-.
    assert (Hor : state w' = ABORTING \/ state w' = ABORTED).
    { destruct d; [by right|]. left. by subst w'. }
    exists w'. split_and!; [|by eapply root_stopping|done].
    unfold crankWork. by rewrite height_subs.
Qed.

Lemma crankLoop_ok budget w :
  RootOK w -> getState w = WORK_RUNNING ->
  exists w', crankLoop budget w = inr w' /\ RootOK w'.
Proof.
  revert w. induction budget as [|n IH]; intros w Hw Hst; cbn.
  - destruct (root_crank w Hw Hst) as (w' & -> & Hw' & _). by exists w'.
  - destruct (root_crank w Hw Hst) as (w' & -> & Hw' & _). cbn.
    case_decide as Hr; [by apply IH|by exists w'].
Qed.

Lemma RootOK_done w : RootOK w -> isDone w = false <-> state w <> ABORTED.
Proof. intros Hw. pose proof (root_state _ Hw) as Hs. unfold isDone. by destruct (state w). Qed.

Lemma runPosted_ok budget s : WorldOK s -> exists s', runPosted budget s = inr s' /\ WorldOK s'.
Proof.
  intros [Hw Hs Hp]. unfold runPosted. rewrite Hp. destruct (mScheduled s) eqn:Em.
  - destruct (crankLoop_ok budget (root s) Hw (proj1 Hs eq_refl)) as (w' & -> & Hw'). cbn.
    case_decide as Hr; eexists; (split; [done|]); split; cbn; try done; by split.
  - exists s. split; [done|]. split; [done|by rewrite Em|by rewrite Em].
Qed.

(** The scheduler after an event below it. *)
Lemma root_woken s w' cbs :
  WorldOK s -> Woken (root s) w' cbs ->
  WorldOK (runCallbacks cbs (mkWorld w' (mScheduled s) (posted s))).
Proof.
  intros [[HW Hsc Hn Hr Ht Hst Hm] Hs Hp] (HW' & HK & Hfl & Hor).
  destruct Hor as [[Eb ->]|(Hwt & Hrun & Hrt & ->)].
  - assert (Est : state w' = state (root s)) by (unfold state; by rewrite Eb).
    cbn. split; cbn; [split| |done]; rewrite ?(keeps_scheduler _ _ HK), ?Eb, ?Est, ?Hfl; try done.
    unfold getState. rewrite Est. exact Hs.
  - assert (Hns : mScheduled s = false).
    { apply not_true_is_false. intros E. apply Hs in E. unfold getState in E. by rewrite Hwt in E. }
    assert (Hroot : RootOK w').
    { split; rewrite ?(keeps_scheduler _ _ HK), ?(keeps_notify _ _ HK), ?Hfl, ?Hrun; try done.
      - unfold state in Hrun. unfold retrying. by rewrite Hrun.
      - destruct w' as [b' k']. apply WF_inv in HW' as (Hb' & _ & _).
        by destruct (running_base b' Hb' Hrun).
      - intros _. apply Hm. by right. }
    rewrite Hn. unfold innerOf. rewrite Hsc. cbn. unfold scheduleOne. cbn. rewrite Hns.
    split; cbn; [done| |by rewrite Hp, Hns]. unfold getState. by rewrite Hrun.
Qed.

(** ** Scheduling a work *)

Lemma WorkOK_add b f w :
  WorkOK b f -> active b = true -> mAbortChildrenButNotSelf f = false ->
  isScheduler (KWork f) = true -> state w = RUNNING ->
  mNotifyCallback (base w) = wakeSelfUpCallback scheduleOneCallback ->
  WorkOK (awake b) (addChild w f).
Proof.
  intros [Htr Hre Hab Hsp Hg Hw Hb Hrw Hbw] Ha Hm Hsc Hst Hn.
  assert (Hnb : forall m it, subclass f <> BatchWork m it).
  { intros m it E. cbn in Hsc. by rewrite E in Hsc. }
  apply WorkOK_going; [by left| |done| |done| |done].
  - apply TreeOK_add; [done|by rewrite Hst|]. rewrite Hn. unfold innerOf.
    change (isScheduler (KWork (addChild w f))) with (isScheduler (KWork f)). by rewrite Hsc.
  - cbn. intros c. rewrite fmap_app. intros [Hc|Hc]%elem_of_app; [by apply Hg|].
    cbn in Hc. apply list_elem_of_singleton in Hc as ->. unfold going. by rewrite Hst.
  - cbn. intros m it E. by destruct (Hnb m it).
Qed.

Lemma scheduleWork_ok child s :
  WorldOK s -> Fresh child -> exists s', scheduleWork child s = inr s' /\ WorldOK s' /\
    (state (root s) = RUNNING \/ state (root s) = WAITING -> state (root s') = RUNNING).
Proof.
  intros Hs Hf. pose proof Hs as [Hw Hsch Hp]. unfold scheduleWork.
  destruct (isAborting (root s) || isDone (root s)) eqn:Estop.
  { exists s. split_and!; [done|done|]. intros Hor. exfalso.
    unfold isAborting, isDone in Estop. by destruct Hor as [E|E]; rewrite E in Estop. }
  assert (Hst : state (root s) = RUNNING \/ state (root s) = WAITING).
  { pose proof (root_state _ Hw) as Hrs. unfold isAborting, isDone in Estop.
    destruct (state (root s)); auto; done. }
  destruct Hw as [HW Hsc Hn Hr Ht _ Hm]. specialize (Hm Hst).
  destruct (root_fields _ Hsc) as (f & Ek & Hsub). rewrite Ek.
  destruct (root s) as [b k] eqn:Er. cbn in Ek. subst k. cbn [base kind] in *.
  pose proof (WF_inv _ _ HW) as (Hb & HK & Hsub').
  destruct (Fresh_startable child Hf) as [HWc Hstart].
  destruct (startWork_ok (wakeSelfUpCallback scheduleOneCallback) child HWc Hstart)
    as (c' & E & HWc' & Hrun & Hnc & _ & Hsc' & _).
  unfold addStarted. rewrite E. cbn -[wakeUp addChild].
  assert (Hact : active b = true).
  { unfold state in Hst. cbn in Hst. unfold active. destruct Hst as [->|E']; [done|].
    rewrite retrying_waiting in Hr by done. by rewrite E', Hr. }
  pose proof (WorkOK_add b f c' HK Hact Hm Hsc Hrun Hnc) as HK'.
  assert (Hs' : SubsOK (KWork (addChild c' f))).
  { intros x. cbn. rewrite fmap_app. intros [Hx|Hx]%elem_of_app; [by apply Hsub'|].
    cbn in Hx. apply list_elem_of_singleton in Hx as ->. split; [done|].
    rewrite Hsc'. by destruct Hf as (_ & _ & ?). }
  assert (Hkeep : forall b', mNotifyCallback b' = mNotifyCallback b ->
    Keeps (MkWork b (KWork f)) (MkWork b' (KWork (addChild c' f)))).
  { intros b' Eb. split; [constructor|done|done]. }
  unfold state in Hst. cbn in Hst. destruct Hst as [Hst|Hst].
  - unfold wakeUp, state. cbn [base]. rewrite decide_False by congruence. cbn -[addChild].
    eexists. split; [done|]. split; [|done].
    apply (root_woken s (MkWork b (KWork (addChild c' f))) []); [done|]. rewrite Er.
    split_and!; [|by apply Hkeep|done|by left].
    apply WF_make; [done| |done]. by rewrite <-(awake_running b Hb Hst).
  - destruct (wakeUp_ok scheduleOneCallback b (KWork (addChild c' f)) Hb Hst Hr HK' Hs') as [-> HWf].
    cbn -[addChild]. eexists. split; [done|].
    split; [|intros _; destruct (mNotifyCallback b); unfold scheduleOne; cbn;
      destruct (mScheduled s); done].
    apply (root_woken s (MkWork (awake b) (KWork (addChild c' f)))
             [scheduleOneCallback; mNotifyCallback b]); [done|]. rewrite Er.
    split_and!; [done|by apply Hkeep|done|]. right. split_and!; try done.
    + cbn. by rewrite <-retrying_waiting.
    + unfold innerOf. cbn [kind base]. by rewrite Hsc.
Qed.

Lemma schedulerShutdown_ok s :
  WorldOK s -> exists s', schedulerShutdown s = inr s' /\ WorldOK s' /\
    stopping (root s') = true /\ (isDone (root s) = true -> s' = s).
Proof.
  intros Hs. pose proof Hs as [Hw Hsch Hp]. unfold schedulerShutdown.
  destruct (isDone (root s)) eqn:Hd.
  { exists s. split_and!; try done. unfold stopping. by rewrite Hd. }
  destruct (shutdown_ok (root s) (root_WF _ Hw)) as (w' & -> & HW' & HK & Est).
  rewrite Hd in Est. cbn. eexists. split; [done|].
  assert (Hroot : RootOK w') by (eapply root_stopping; [exact Hw|done|done|by left]).
  split_and!; [|unfold scheduleOne; cbn; destruct (mScheduled s);
    unfold stopping, isAborting; cbn; rewrite Est; by rewrite orb_true_r|done].
  unfold scheduleOne. cbn. rewrite Hp.
  destruct (mScheduled s); split; cbn; try done; unfold getState; by rewrite Est.
Qed.

(** ** Every event keeps the invariant *)

(** What may happen: an implementer's own event wakes a leaf or a [Work] of its own
    that is not waiting to retry, and the works scheduled are new. *)
Definition Legal (s : World) (e : Event) : Prop :=
  match e with
  | WakeUp p => forall t, workAt p (root s) = Some t -> state t = WAITING ->
      mRetryTimer (base t) = false /\
      match kind t with
      | KLeaf _ => True
      | KWork f => match subclass f with UserWork _ => True | _ => False end
      | _ => False
      end
  | ScheduleWork child => Fresh child
  | _ => True
  end.

Lemma onTree_ok g p s :
  WorldOK s ->
  (forall t, workAt p (root s) = Some t -> WF t ->
     (p = [] /\ t = root s) \/ isScheduler (kind t) = false ->
     exists t' cbs, g t = inr (t', cbs) /\ Woken t t' cbs) ->
  exists s', onTree g p s = inr s' /\ WorldOK s' /\
    (forall t, workAt p (root s) = Some t ->
       exists t' c, g t = inr (t', c) /\ workAt p (root s') = Some t').
Proof.
  intros Hs Hg. unfold onTree.
  destruct (atPath_ok g p (root s) (root_WF _ (world_root _ Hs))) as (w' & cbs & -> & Hwk & Hat).
  { intros t Ht HW [->|Hsc]; apply Hg; auto. left. split; [done|]. cbn in Ht. congruence. }
  cbn -[runCallbacks]. eexists. split; [done|]. split; [by apply root_woken|].
  assert (Er : forall cbs s0, root (runCallbacks cbs s0) = root s0).
  { clear. induction cbs as [|cb cbs IH]; intros s0; [done|]. cbn.
    unfold runCallbacks in IH. rewrite IH. destruct cb; try done.
    unfold scheduleOne. by destruct (mScheduled s0). }
  rewrite Er. exact Hat.
Qed.

Lemma step_ok s e : WorldOK s -> Legal s e -> exists s', step s e = inr s' /\ WorldOK s'.
Proof.
  intros Hs Hl. pose proof (world_root _ Hs) as Hw. destruct e as [n|p|p|p|c|]; cbn.
  - by apply runPosted_ok.
  - destruct (onTree_ok (ifTimer mRetryTimer retryTimerFired) p s Hs) as (s' & -> & ? & _);
      [|by exists s'].
    intros t _ HW Hor. destruct (retryTimer_handler t HW) as (t' & cbs & ? & ? & _); eauto.
    destruct Hor as [[_ ->]|?]; [right; apply (root_retrying _ Hw)|by left].
  - destruct (onTree_ok (ifTimer mWaitingTimer (wakeUp nullCallback)) p s Hs) as (s' & -> & ? & _);
      [|by exists s'].
    intros t _ HW Hor. destruct (waitingTimer_handler t HW) as (t' & cbs & ? & ? & _); eauto.
    destruct Hor as [[_ ->]|?]; [right; apply (root_timer _ Hw)|by left].
  - destruct (onTree_ok (wakeUp nullCallback) p s Hs) as (s' & -> & ? & _); [|by exists s'].
    intros t Ht HW Hor. specialize (Hl t Ht). destruct (decide (state t = WAITING)) as [Hwt|Hwt].
    + destruct (Hl Hwt) as [Hr Hk].
      destruct (wakeUp_handler t HW) as (t' & cbs & ? & ? & _); eauto.
      * destruct (kind t) as [|f| |]; try done. cbn. by destruct (subclass f).
      * intros _ f Ek. by rewrite Ek in Hk.
    + exists t, []. unfold wakeUp. rewrite decide_False by done. split; [done|].
      split_and!; [done|apply Keeps_refl|done|by left].
  - destruct (scheduleWork_ok c s Hs Hl) as (s' & ? & ? & _). by exists s'.
  - destruct (schedulerShutdown_ok s Hs) as (s' & ? & ? & _). by exists s'.
Qed.

(** The scheduler as [create] makes it. *)
Lemma createScheduler_ok : exists s, createScheduler = inr s /\ WorldOK s.
Proof.
  eexists. split; [vm_compute; reflexivity|]. split; cbn; [|done|done].
  split; cbn; try done. apply WF_make.
  - split; cbn; try done.
  - apply WorkOK_going; cbn; [by right| |done|set_solver|set_solver|done|done]. split; cbn; [done|constructor|set_solver|set_solver].
  - intros c Hc. cbn in Hc. set_solver.
Qed.

End Events.
