(* ===== verification/WorkLive.v ===== *)
(** * Asynchronous work: progress

    Why work goes on: an abort has a cost that every crank lowers and no other event
    raises, whatever is above a running work runs, and a work that waits has, at or
    below it, something that will wake it. *)

From stdpp Require Import base list gmap strings sets.
From S2P Require Import Prelude WorkModel WorkInv WorkCrank WorkRun WorkEvents.

Section Stopping.
Context `{Lawful}.

(** ** Nothing wakes in a tree that stops *)

Inductive Quiet : Work -> Prop :=
  | Quiet_intro b k :
      mState b <> WAITING -> (forall c, c ∈ subs k -> Quiet c) -> Quiet (MkWork b k).

Lemma stopping_quiet w : WF w -> stopping w = true \/ still w = true -> Quiet w.
Proof.
  induction 1 as [b k Hb HK HW IH Hsch]. intros Hst.
  assert (Hcase : resting b = true /\ mState b <> WAITING \/ mState b = ABORTING).
  { unfold stopping, still, isDone, isAborting, state in Hst. cbn in Hst. unfold resting.
    destruct (mState b); naive_solver. }
  constructor; [by destruct Hcase as [[_ ?]| ->]|].
  destruct k as [l|f|f|f]; cbn in HK, IH |- *.
  - set_solver.
  - intros c Hc. apply IH; [done|left].
    destruct Hcase as [[Hr _]|Ha].
    + destruct (work_resting _ _ HK Hr) as [E _]. rewrite E in Hc. cbn in Hc. set_solver.
    + apply (work_stopping _ _ HK); [by left|done].
  - intros c Hc. apply IH; [done|]. apply list_elem_of_lookup in Hc as [i Hi].
    destruct (mCurrentExecuting f) eqn:Hcur.
    2: { right. eapply (seq_still _ _ HK); [done|by right]. }
    destruct Hcase as [[Hr _]|Ha]; [by rewrite (seq_resting _ _ HK Hr) in Hcur|].
    destruct (decide (i = mNextInSequence f)) as [->|Hne].
    + left. destruct (seq_current _ _ HK Hcur) as (w & Hw & _ & _ & Hs). simplify_eq. auto.
    + right. eapply (seq_still _ _ HK); [done|by left].
  - intros c ->%list_elem_of_singleton. apply IH; [set_solver|].
    destruct (mWorkStarted f) eqn:Hs; [|right; apply (cond_still _ _ HK); by left].
    destruct Hcase as [[Hr _]|Ha]; [right; apply (cond_still _ _ HK); by right|].
    left. by apply (cond_stopping _ _ HK).
Qed.

Lemma setSub_id k i c : subAt k i = Some c -> setSub k i c = k.
Proof.
  destruct k as [l|f|f|f]; cbn; [done| | |].
  - intros ([a d] & Hi & ->)%fmap_Some. rewrite Hi. unfold putChild. cbn.
    rewrite list_insert_id by done. by destruct f.
  - intros Hi. rewrite list_insert_id by done. by destruct f.
  - intros [= <-]. by destruct f.
Qed.

Lemma atPath_quiet g p w :
  WF w -> Quiet w -> (forall t, WF t -> state t <> WAITING -> g t = inr (t, [])) ->
  atPath g p w = inr (w, []).
Proof.
  intros HW HQ Hg. revert w HW HQ. induction p as [|i p IH]; intros [b k] HW HQ.
  - apply Hg; [done|]. by inversion HQ.
  - destruct (subAt k i) as [c|] eqn:Hi; [|by apply atPath_none].
    inversion HQ as [? ? Hst Hsub]; subst. apply WF_inv in HW as (_ & _ & Hs).
    pose proof (subAt_subs _ _ _ Hi) as Hin.
    rewrite (atPath_sub g i p b k c c [] Hi (IH c (proj1 (Hs c Hin)) (Hsub c Hin))).
    by rewrite setSub_id.
Qed.

Lemma handlers_quiet t :
  WF t -> state t <> WAITING ->
  wakeUp nullCallback t = inr (t, []) /\
  ifTimer mWaitingTimer (wakeUp nullCallback) t = inr (t, []) /\
  ifTimer mRetryTimer retryTimerFired t = inr (t, []).
Proof.
  intros HW Hst. destruct t as [b k]. apply WF_inv in HW as (Hb & _ & _).
  assert (E : wakeUp nullCallback (MkWork b k) = inr (MkWork b k, [])).
  { unfold wakeUp. by rewrite decide_False. }
  split_and!; [done|unfold ifTimer; by destruct (mWaitingTimer _)|].
  unfold ifTimer. cbn [base]. destruct (mRetryTimer b) eqn:Ht; [|done].
  destruct (base_retry _ Hb Ht) as [?|Ha]; [done|].
  unfold retryTimerFired, state. cbn [base]. by rewrite Ha.
Qed.

Lemma traverse_id {A} (g : A -> exc A) l :
  (forall x, x ∈ l -> g x = inr x) -> traverse g l = inr l.
Proof.
  intros Hg. destruct (traverse_ok g eq l) as (l' & E & HF).
  { intros x Hx. exists x. split; [auto|done]. }
  rewrite E. f_equal. symmetry. apply list_eq_Forall2. by eapply Forall2_impl.
Qed.

(** Shutting down once more changes nothing. *)
Lemma shutdown_again w : WF w -> stopping w = true -> shutdown w = inr w.
Proof.
  induction 1 as [b k Hb HK HW IH Hsch]. intros Hst.
  assert (Hbase : BasicWork_shutdown (MkWork b k) = inr (MkWork b k)).
  { unfold BasicWork_shutdown. unfold stopping in Hst.
    destruct (isDone (MkWork b k)); [done|]. cbn in Hst. apply bool_decide_eq_true in Hst.
    unfold state in Hst. cbn in Hst.
    assert (Hwt : mWaitingTimer b = false).
    { apply not_true_is_false. intros E. destruct (base_waiting _ Hb E). congruence. }
    unfold onBase. cbn [base kind]. rewrite setState_plain; [|cbn; rewrite Hst; allowed|by right; left].
    destruct b. cbn in *. by subst. }
  assert (Hcase : resting b = true \/ mState b = ABORTING).
  { unfold stopping, isDone, isAborting, state in Hst. cbn in Hst. unfold resting.
    destruct (mState b); naive_solver. }
  destruct k as [l|f|f|f]; cbn [shutdown]; cbn in HK, IH.
  - exact Hbase.
  - rewrite traverse_id.
    + cbn -[BasicWork_shutdown]. unfold setChildren. destruct f. exact Hbase.
    + intros [i c] Hc. assert (Hin : c ∈ (mChildren f).*2)
        by (by apply (list_elem_of_fmap_2 snd _ (i, c))).
      unfold onChild. cbn. destruct (isDone c) eqn:Hd; [done|].
      rewrite IH; [done|done|]. destruct Hcase as [Hr|Ha].
      * destruct (work_resting _ _ HK Hr) as [E _]. rewrite E in Hc. set_solver.
      * apply (work_stopping _ _ HK); [by left|done].
  - destruct (mCurrentExecuting f) eqn:Hcur; [|exact Hbase].
    destruct Hcase as [Hr|Ha]; [by rewrite (seq_resting _ _ HK Hr) in Hcur|].
    destruct (seq_current _ _ HK Hcur) as (w & Hi & _ & _ & Hs).
    rewrite (adjust_ok shutdown _ _ w w Hi) by (apply IH; [by eapply list_elem_of_lookup_2|auto]).
    rewrite list_insert_id by done. cbn -[BasicWork_shutdown]. unfold setSequence.
    destruct f. cbn in Hcur. subst. exact Hbase.
  - destruct (mWorkStarted f) eqn:Hs; [|exact Hbase].
    rewrite IH; [|set_solver|].
    + cbn -[BasicWork_shutdown]. destruct f. cbn in Hs. subst. exact Hbase.
    + destruct Hcase as [Hr|Ha]; [|by apply (cond_stopping _ _ HK)].
      pose proof (cond_still _ _ HK (or_intror Hr)) as Hsi.
      destruct (cond_started _ _ HK Hs) as (_ & _ & Hnp).
      unfold still in Hsi. rewrite (bool_decide_false _ Hnp), orb_false_r in Hsi.
      unfold stopping. by rewrite Hsi.
Qed.

(** ** The cost of an abort *)

(** Cranks an aborting tree may still need.  A round that ends without finding a
    running child costs one more. *)
Definition idleRound (f : WorkFields Work) : nat :=
  if existsb (fun c => bool_decide (getState c.2 = WORK_RUNNING)) (ahead f) then 0 else 1.

Fixpoint abortCost (w : Work) : nat :=
  match w with
  | MkWork b k =>
      if isDone (MkWork b k) then 0
      else S match k with
             | KLeaf l => abortBound l
             | KWork f => idleRound f + 2 * list_sum ((fun c => abortCost c.2) <$> mChildren f)
             | KSequence f => 2 * list_sum (abortCost <$> mSequenceOfWork f)
             | KConditional f => 2 * abortCost (mConditionedWork f)
             end
  end.

Lemma abortCost_done w : isDone w = true -> abortCost w = 0.
Proof. destruct w as [b k]. intros Hd. cbn. unfold isDone, state in *. cbn in *. by destruct (mState b). Qed.

Lemma list_sum_insert {A} (g : A -> nat) l i x x' :
  l !! i = Some x -> g x' < g x -> list_sum (g <$> <[i := x']> l) < list_sum (g <$> l).
Proof.
  revert i. induction l as [|y l IH]; intros [|i]; cbn; try done.
  - intros [= ->]. lia.
  - intros Hi Hlt. apply Nat.add_lt_mono_l. exact (IH i Hi Hlt).
Qed.

Lemma sum_app {A} (g : A -> nat) l l' :
  list_sum (g <$> l ++ l') = list_sum (g <$> l) + list_sum (g <$> l').
Proof. by rewrite fmap_app, list_sum_app. Qed.

(** Dropping done children costs nothing. *)
Lemma yieldLoop_cost (g : nat * Work -> nat) rest pre e cs next found e' :
  (forall c, isDone c.2 = true -> g c = 0) ->
  yieldLoop pre rest e = (cs, next, found, e') ->
  list_sum (g <$> cs) = list_sum (g <$> pre ++ rest).
Proof.
  intros Hg. revert pre e. induction rest as [|c rest IH]; intros pre e; cbn.
  - intros [= <- _ _ _]. by rewrite app_nil_r.
  - case_decide; [by intros [= <- _ _ _]|]. destruct (isDone c.2) eqn:Hd; intros E%IH; rewrite E.
    + rewrite !sum_app. cbn. by rewrite (Hg c Hd).
    + by rewrite <-app_assoc.
Qed.

Lemma yield_cost f f' r :
  yieldNextRunningChild f = (f', r) ->
  list_sum ((fun c => abortCost c.2) <$> mChildren f') =
  list_sum ((fun c => abortCost c.2) <$> mChildren f).
Proof.
  unfold yieldNextRunningChild. destruct (yieldLoop _ _ _) as [[[cs next] found] e] eqn:E.
  apply (yieldLoop_cost (fun c => abortCost c.2)) in E;
    [|intros c Hc; by apply abortCost_done]. rewrite take_drop in E.
  destruct found; intros [= <- _]; done.
Qed.

(** A crank of something below that aborts brings it closer to its end. *)
Definition Costs (n : nat) (crank : Work -> exc Work) : Prop :=
  forall w w', WF w -> state w = ABORTING -> (height w <= n)%nat -> crank w = inr w' ->
    abortCost w' < abortCost w.

Lemma idleRound_le f : idleRound f <= 1.
Proof. unfold idleRound. destruct (existsb _ _); lia. Qed.

Lemma idleRound_ahead f :
  (forall x, x ∈ ahead f -> getState x.2 <> WORK_RUNNING) -> idleRound f = 1.
Proof.
  intros Hn. unfold idleRound. destruct (existsb _ _) eqn:E; [|done].
  apply existsb_exists in E as (x & Hx & Hr). apply bool_decide_eq_true in Hr.
  by destruct (Hn x); [apply list_elem_of_In|].
Qed.

Lemma idleRound_found f x :
  x ∈ ahead f -> getState x.2 = WORK_RUNNING -> idleRound f = 0.
Proof.
  intros Hx Hr. unfold idleRound. destruct (existsb _ _) eqn:E; [done|].
  exfalso. apply not_true_iff_false in E. apply E, existsb_exists. exists x.
  split; [by apply list_elem_of_In|]. by rewrite Hr.
Qed.

Lemma Work_onAbort_cost n crank f f' :
  Cranks n crank -> Costs n crank ->
  (forall c, c ∈ (mChildren f).*2 -> WF c /\ height c <= n /\ stopping c = true)%nat ->
  Work_onAbort crank f = inr (f', false) ->
  idleRound f' + 2 * list_sum ((fun c => abortCost c.2) <$> mChildren f') <
  idleRound f + 2 * list_sum ((fun c => abortCost c.2) <$> mChildren f).
Proof.
  intros Hcr Hco Hsub. unfold Work_onAbort.
  destruct (yield_spec f) as (f1 & r & Ey & Hy). rewrite Ey.
  rewrite <-(yield_cost f f1 r Ey). destruct r as [j|].
  - destruct (yield_found _ _ _ Hy) as (i & c & Hj & Hc & _ & Hrun).
    destruct (Hsub c Hc) as (HW & Hh & Hst). pose proof (stopping_running c Hst Hrun) as Ha.
    destruct (Hcr c HW Hh (or_intror Ha)) as (c' & Ec & _).
    rewrite (onChild_adjust _ f1 j i c c' Hj) by (by rewrite isAborting_true).
    cbn -[abortCost list_sum]. intros [= <-].
    pose proof (Hco c c' HW Ha Hh Ec) as Hlt.
    pose proof (list_sum_insert (fun c => abortCost c.2) _ j (i, c) (i, c') Hj Hlt) as Hs.
    pose proof (idleRound_le (putChild j i c' f1)). unfold putChild in *. cbn [mChildren] in *.
    cbn -[abortCost list_sum idleRound] in *. lia.
  - intros [= <- Hd]. rewrite (idleRound_ahead f) by apply (yd_none _ _ _ Hy eq_refl).
    assert (Hex : exists x, x ∈ mChildren f1 /\ isDone x.2 = false).
    { destruct (decide (Exists (fun x => isDone x.2 = false) (mChildren f1))) as [He|Hn].
      - by apply Exists_exists in He.
      - exfalso. apply not_true_iff_false in Hd. apply Hd. apply forallb_done.
        intros c Hc. apply list_elem_of_fmap in Hc as (x & -> & Hx).
        destruct (isDone x.2) eqn:E; [done|]. destruct Hn. apply Exists_exists. by exists x. }
    destruct Hex as (x & Hx & Hnd).
    assert (Hxa : x ∈ ahead f1).
    { rewrite (iterator_ahead f1 0 (yd_next _ _ _ Hy)). by rewrite drop_0. }
    assert (Hin : x.2 ∈ (mChildren f).*2).
    { eapply yield_children; [done|]. by apply list_elem_of_fmap_2. }
    destruct (Hsub _ Hin) as (_ & _ & Hst).
    rewrite (idleRound_found f1 x Hxa); [lia|].
    unfold stopping, isAborting in Hst. rewrite Hnd in Hst. cbn in Hst.
    apply bool_decide_eq_true in Hst. unfold getState. by rewrite Hst.
Qed.

Lemma abortCost_aborting b k :
  mState b = ABORTING ->
  abortCost (MkWork b k) =
  S match k with
    | KLeaf l => abortBound l
    | KWork f => idleRound f + 2 * list_sum ((fun c => abortCost c.2) <$> mChildren f)
    | KSequence f => 2 * list_sum (abortCost <$> mSequenceOfWork f)
    | KConditional f => 2 * abortCost (mConditionedWork f)
    end.
Proof. intros Hst. cbn. unfold isDone, state. cbn. by rewrite Hst. Qed.

Lemma stopping_aborting w : stopping w = true -> isDone w = false -> state w = ABORTING.
Proof. unfold stopping, isDone, isAborting. by destruct (state w). Qed.

Lemma onAbort_cost n crank b k k1 :
  Cranks n crank -> Costs n crank -> WF (MkWork b k) -> mState b = ABORTING ->
  (height (MkWork b k) <= S n)%nat ->
  onAbort crank (MkWork b k) = inr (MkWork b k1, false) ->
  abortCost (MkWork b k1) < abortCost (MkWork b k).
Proof.
  intros Hcr Hco (Hb & HK & Hs)%WF_inv Hst Hh. rewrite !abortCost_aborting by done.
  assert (Hsub : forall c, c ∈ subs k -> (height c <= n)%nat).
  { intros c Hc. pose proof (height_sub b k c Hc). lia. }
  destruct k as [l|f|f|f]; unfold onAbort; cbn [kind base].
  - destruct (leaf_onAbort l) as [l' d] eqn:E. intros [= <- ->].
    apply leaf_onAbort_ok in E. lia.
  - intros ([f' d] & E & [= <- ->])%exc_bind_inr. apply le_n_S.
    eapply Work_onAbort_cost; [exact Hcr|done| |exact E].
    intros c Hc. split_and!; [by apply Hs|by apply Hsub|].
    apply (work_stopping _ _ HK); [by left|done].
  - intros ([f' d] & E & [= <- ->])%exc_bind_inr. unfold WorkSequence_onAbort in E.
    destruct (mSequenceOfWork f !! mNextInSequence f) as [w|] eqn:Hi; [|done].
    destruct (mCurrentExecuting f && negb (isDone w)) eqn:Hc; [|done].
    apply andb_true_iff in Hc as [Hcur Hd]. apply negb_true_iff in Hd.
    destruct (seq_current _ _ HK Hcur) as (w0 & Hi0 & _ & _ & Hst'). simplify_eq.
    pose proof (list_elem_of_lookup_2 _ _ _ Hi) as Hin.
    pose proof (stopping_aborting w (Hst' Hst) Hd) as Ha. destruct (Hs w Hin) as [HW _].
    destruct (Hcr w HW (Hsub w Hin) (or_intror Ha)) as (w' & Ew & _).
    rewrite (adjust_ok _ _ _ _ _ Hi Ew) in E. cbn in E. injection E as <-.
    cbn [mSequenceOfWork setSequence].
    pose proof (list_sum_insert abortCost _ _ w w' Hi (Hco w w' HW Ha (Hsub w Hin) Ew)). lia.
  - intros ([f' d] & E & [= <- ->])%exc_bind_inr. unfold ConditionalWork_onAbort in E.
    destruct (mWorkStarted f && negb (isDone (mConditionedWork f))) eqn:Hc; [|done].
    apply andb_true_iff in Hc as [Hsd Hd]. apply negb_true_iff in Hd.
    pose proof (stopping_aborting _ (cond_stopping _ _ HK Hst Hsd) Hd) as Ha.
    assert (Hin : mConditionedWork f ∈ subs (KConditional f)) by (cbn; set_solver).
    destruct (Hs _ Hin) as [HW _].
    destruct (Hcr _ HW (Hsub _ Hin) (or_intror Ha)) as (w' & Ew & _).
    rewrite Ew in E. cbn in E. injection E as <-. cbn [mConditionedWork].
    pose proof (Hco _ w' HW Ha (Hsub _ Hin) Ew). lia.
Qed.

Lemma crankFuel_cost n : Costs n (crankFuel n).
Proof.
  induction n as [|n IH]; intros [b k] w' HW Hst Hh E; [done|].
  destruct (crank_aborting n b k (crankFuel_ok n) HW Hst Hh) as (k1 & d & w'' & Ea & E' & _ & _ & Hd).
  rewrite E in E'. injection E' as <-. destruct d.
  - rewrite abortCost_aborting by done. rewrite abortCost_done; [lia|].
    unfold isDone. by rewrite Hd.
  - subst w'. eapply onAbort_cost; [apply crankFuel_ok|exact IH|done..].
Qed.

Lemma crankWork_cost w w' :
  WF w -> state w = ABORTING -> crankWork w = inr w' -> abortCost w' < abortCost w.
Proof. intros HW Hst E. by eapply (crankFuel_cost (height w)). Qed.

End Stopping.

(** ** Runs *)

Section Runs.
Context `{Lawful}.

(** Every event of the sequence is legal when it happens. *)
Fixpoint LegalRun (s : World) (es : list Event) : Prop :=
  match es with
  | [] => True
  | e :: es' => Legal s e /\ forall s', step s e = inr s' -> LegalRun s' es'
  end.

(** The states the system reaches after [WorkScheduler::create]. *)
Definition Reachable (s : World) : Prop :=
  exists s0 es, createScheduler = inr s0 /\ LegalRun s0 es /\ run s0 es = inr s.

Lemma events_ok es s : WorldOK s -> LegalRun s es -> exists s', run s es = inr s' /\ WorldOK s'.
Proof.
  revert s. induction es as [|e es IH]; intros s Hs Hl; cbn; [by exists s|].
  destruct Hl as [He Hl]. destruct (step_ok s e Hs He) as (s1 & E & Hs1). rewrite E. cbn. auto.
Qed.

Lemma Reachable_ok s : Reachable s -> WorldOK s.
Proof.
  intros (s0 & es & E0 & Hl & E). destruct createScheduler_ok as (s0' & E0' & Hs0).
  rewrite E0 in E0'. injection E0' as <-.
  destruct (events_ok es s0 Hs0 Hl) as (s' & E' & ?). congruence.
Qed.

(** ** Stopping *)

Lemma root_stops w :
  RootOK w -> stopping w = true -> state w = ABORTING \/ state w = ABORTED.
Proof.
  intros Hw Hst. pose proof (root_state _ Hw). unfold stopping, isDone, isAborting in Hst.
  destruct (state w); auto; done.
Qed.

Lemma crankLoop_cost budget w w' :
  RootOK w -> state w = ABORTING -> crankLoop budget w = inr w' ->
  stopping w' = true /\ abortCost w' < abortCost w.
Proof.
  revert w. induction budget as [|n IH]; intros w Hw Ha; cbn;
    (destruct (root_crank w Hw) as (w1 & E1 & Hw1 & Hs1); [unfold getState; by rewrite Ha|]);
    pose proof (crankWork_cost w w1 (root_WF _ Hw) Ha E1) as Hlt; rewrite E1; cbn;
    specialize (Hs1 Ha);
    assert (Hst : stopping w1 = true)
      by (unfold stopping, isDone, isAborting; by destruct Hs1 as [->| ->]).
  - by intros [= <-].
  - case_decide as Hr; [|by intros [= <-]]. intros E.
    assert (Ha1 : state w1 = ABORTING).
    { destruct Hs1 as [?|E']; [done|]. unfold getState in Hr. by rewrite E' in Hr. }
    destruct (IH w1 Hw1 Ha1 E). split; [done|lia].
Qed.

(** The closures run by the main thread in a sequence of events. *)
Definition cranks (e : Event) : nat := match e with RunPosted _ => 1 | _ => 0 end.

Lemma onTree_quiet g p s :
  WorldOK s -> stopping (root s) = true ->
  (forall t, WF t -> state t <> WAITING -> g t = inr (t, [])) -> onTree g p s = inr s.
Proof.
  intros Hs Hst Hg. pose proof (root_WF _ (world_root _ Hs)) as HW. unfold onTree.
  rewrite (atPath_quiet g p (root s) HW); [by destruct s| |done].
  apply stopping_quiet; auto.
Qed.

Lemma stopping_step s e s' :
  WorldOK s -> stopping (root s) = true -> step s e = inr s' ->
  stopping (root s') = true /\ abortCost (root s') <= abortCost (root s) - cranks e.
Proof.
  intros Hs Hst. pose proof (world_root _ Hs) as Hw.
  assert (Hsame : forall n, inr s = (inr s' : exc World) -> n = 0 ->
    stopping (root s') = true /\ abortCost (root s') <= abortCost (root s) - n).
  { intros n [= <-] ->. split; [done|lia]. }
  destruct e as [n|p|p|p|c|]; cbn [step cranks].
  - unfold runPosted. rewrite (world_posted _ Hs). destruct (mScheduled s) eqn:Em.
    + intros (w' & E & [= <-])%exc_bind_inr.
      assert (Ha : state (root s) = ABORTING).
      { destruct (root_stops _ Hw Hst) as [?|E']; [done|].
        apply (world_scheduled _ Hs) in Em. unfold getState in Em. by rewrite E' in Em. }
      destruct (crankLoop_cost n (root s) w' Hw Ha E) as [Hst' Hlt].
      case_decide; unfold scheduleOne; cbn; split; (done || lia).
    + intros [= <-]. split; [done|]. rewrite (abortCost_done (root s)); [lia|].
      destruct (root_stops _ Hw Hst) as [E'|E']; [|unfold isDone; by rewrite E'].
      exfalso. apply not_true_iff_false in Em. apply Em, (world_scheduled _ Hs).
      unfold getState. by rewrite E'.
  - rewrite onTree_quiet; [|done|done|intros; by apply handlers_quiet]. auto.
  - rewrite onTree_quiet; [|done|done|intros; by apply handlers_quiet]. auto.
  - rewrite onTree_quiet; [|done|done|intros; by apply handlers_quiet]. auto.
  - unfold scheduleWork. unfold stopping in Hst. rewrite orb_comm in Hst. rewrite Hst. auto.
  - unfold schedulerShutdown. destruct (isDone (root s)) eqn:Hd; [auto|].
    rewrite shutdown_again by (done || apply (root_WF _ Hw)). cbn.
    unfold scheduleOne. cbn. intros [= <-]. destruct (mScheduled s); cbn; split; (done || lia).
Qed.

Lemma stopping_run es s s' :
  WorldOK s -> LegalRun s es -> stopping (root s) = true -> run s es = inr s' ->
  stopping (root s') = true /\ WorldOK s' /\
  abortCost (root s') <= abortCost (root s) - list_sum (cranks <$> es).
Proof.
  revert s. induction es as [|e es IH]; intros s Hs Hl Hst; cbn.
  - intros [= <-]. split_and!; [done|done|lia].
  - destruct Hl as [He Hl]. destruct (step_ok s e Hs He) as (s1 & E & Hs1). rewrite E. cbn.
    destruct (stopping_step s e s1 Hs Hst E) as [Hst1 Hc1]. intros Er.
    destruct (IH s1 Hs1 (Hl s1 E) Hst1 Er) as (? & ? & Hc). split_and!; [done|done|].
    unfold list_sum in *. lia.
Qed.

Lemma abortCost_zero w : RootOK w -> stopping w = true -> abortCost w = 0 -> state w = ABORTED.
Proof.
  intros Hw Hst Hc. destruct (root_stops w Hw Hst) as [Ha|]; [|done].
  destruct w as [b k]. rewrite abortCost_aborting in Hc; done.
Qed.

(** ** Waking *)

(** Whatever is above a running work runs. *)
Lemma running_above p w t :
  WF w -> workAt p w = Some t -> state t = RUNNING -> state w = RUNNING.
Proof.
  revert w. induction p as [|i p IH]; intros [b k] HW; cbn; [by intros [= <-]|].
  destruct (subAt k i) as [c|] eqn:Hi; [|done]. cbn. intros Ht Hr.
  apply WF_inv in HW as (Hb & HK & Hs). destruct (Hs c (subAt_subs _ _ _ Hi)) as [HWc _].
  specialize (IH c HWc Ht Hr). unfold state. cbn.
  assert (Hf : still c = false /\ stopping c = false)
    by (unfold still, stopping, isDone, isAborting; by rewrite IH).
  destruct Hf as [Hns Hnp].
  assert (Hcase : resting b = true \/ mState b = ABORTING \/
                  (mState b = WAITING /\ retrying b = false) \/ mState b = RUNNING).
  { pose proof (base_retrying _ Hb). unfold resting, retrying.
    destruct (mState b); auto; try done. destruct (mRetryTimer b); auto. }
  destruct k as [l|f|f|f]; cbn in Hi, HK; [done| | |].
  - apply fmap_Some in Hi as ([a d] & Hi & ->). cbn [snd] in *.
    pose proof (putChild_child f i a d Hi) as Hin.
    destruct Hcase as [Hc|[Hc|[[Hc _]|?]]]; [| | |done].
    + destruct (work_resting _ _ HK Hc) as [E _]. by rewrite E in Hi.
    + rewrite (work_stopping _ _ HK (or_introl Hc) d Hin) in Hnp. done.
    + by destruct (work_waits _ _ HK Hc d Hin).
  - assert (Hcur : mCurrentExecuting f = true /\ i = mNextInSequence f).
    { pose proof (seq_still _ _ HK i c Hi) as Hsl. rewrite Hns in Hsl.
      split; [apply not_false_is_true|apply dec_stable]; intros E; discriminate Hsl; auto. }
    destruct Hcur as [Hcur ->]. destruct (seq_current _ _ HK Hcur) as (w0 & Hw0 & _ & _ & Hst).
    simplify_eq. destruct Hcase as [Hc|[Hc|[[Hc Hnr]|?]]]; [| | |done].
    + by rewrite (seq_resting _ _ HK Hc) in Hcur.
    + rewrite (Hst Hc) in Hnp. done.
    + destruct (seq_waits _ _ HK Hc Hnr) as (_ & w1 & Hw1 & E). simplify_eq. congruence.
  - injection Hi as <-. destruct (mWorkStarted f) eqn:Hsd.
    2: { rewrite (cond_still _ _ HK (or_introl Hsd)) in Hns. done. }
    destruct Hcase as [Hc|[Hc|[[Hc Hnr]|?]]]; [| | |done].
    + rewrite (cond_still _ _ HK (or_intror Hc)) in Hns. done.
    + rewrite (cond_stopping _ _ HK Hc Hsd) in Hnp. done.
    + rewrite <-(cond_sync _ _ HK (active_waiting b Hc Hnr) Hsd). done.
Qed.

Lemma workAt_app p q w : workAt (p ++ q) w = workAt p w ≫= workAt q.
Proof.
  revert w. induction p as [|i p IH]; intros w; [done|]. cbn.
  destruct (subAt (kind w) i); cbn; [apply IH|done].
Qed.

Lemma workAt_WF p w t : WF w -> workAt p w = Some t -> WF t.
Proof.
  revert w. induction p as [|i p IH]; intros [b k] HW; cbn; [by intros [= <-]|].
  destruct (subAt k i) as [c|] eqn:Hi; [|done]. apply WF_inv in HW as (_ & _ & Hs).
  apply IH. by apply (Hs c (subAt_subs _ _ _ Hi)).
Qed.

(** An event that wakes the work at a path leaves it and everything above running. *)
Lemma event_wakes g p s t :
  WorldOK s -> workAt p (root s) = Some t ->
  (forall u, workAt p (root s) = Some u -> WF u ->
     (p = [] /\ u = root s) \/ isScheduler (kind u) = false ->
     exists u' cbs, g u = inr (u', cbs) /\ Woken u u' cbs /\ state u' = RUNNING) ->
  exists s' t', onTree g p s = inr s' /\ workAt p (root s') = Some t' /\ state t' = RUNNING /\
    (forall q r u, p = q ++ r -> workAt q (root s') = Some u -> state u = RUNNING) /\
    posted s' = 1%nat.
Proof.
  intros Hs Ht Hg.
  destruct (onTree_ok g p s Hs) as (s' & E & Hs' & Hat).
  { intros u Hu HW Hor. destruct (Hg u Hu HW Hor) as (u' & cbs & ? & ? & _). eauto. }
  destruct (Hat t Ht) as (t' & c & Eg & Ht').
  pose proof (root_WF _ (world_root _ Hs')) as HW'.
  assert (Hrun : state t' = RUNNING).
  { destruct (Hg t Ht) as (u' & cbs & E' & _ & ?); [| |congruence].
    - eapply workAt_WF; [|exact Ht]. apply (root_WF _ (world_root _ Hs)).
    - destruct p as [|i p]; [left; split; [done|]; by injection Ht|right].
      cbn in Ht. destruct (subAt (kind (root s)) i) as [d|] eqn:Hi; [|done].
      pose proof (root_WF _ (world_root _ Hs)) as HW. destruct (root s) as [b k].
      apply WF_inv in HW as (_ & _ & Hsub). destruct (Hsub d (subAt_subs _ _ _ Hi)).
      by eapply workAt_below. }
  assert (Habove : forall q r u, p = q ++ r -> workAt q (root s') = Some u -> state u = RUNNING).
  { intros q r u -> Hu. rewrite workAt_app, Hu in Ht'. cbn in Ht'.
    eapply running_above; [|exact Ht'|done]. by eapply workAt_WF. }
  exists s', t'. split_and!; try done. rewrite (world_posted _ Hs').
  rewrite (proj2 (world_scheduled _ Hs')); [done|].
  unfold getState. by rewrite (Habove [] p (root s') eq_refl eq_refl).
Qed.

(** What a waiting work waits for, when it is not for the works below it: its timers,
    or the event of its implementer, which a leaf and a [Work] of the implementer's own
    without an unfinished child may do. *)
Definition awaits (w : Work) : Prop :=
  mRetryTimer (base w) = true \/ mWaitingTimer (base w) = true \/
  match kind w with
  | KLeaf _ => True
  | KWork f =>
      match subclass f with
      | UserWork _ => forall c, c ∈ (mChildren f).*2 -> isDone c = true
      | _ => False
      end
  | _ => False
  end.

Lemma waiting_source w :
  WF w -> isScheduler (kind w) = false -> state w = WAITING ->
  exists p t, workAt p w = Some t /\ state t = WAITING /\ awaits t.
Proof.
  induction 1 as [b k Hb HK HW IH Hsch]. intros Hsc Hst. unfold state in Hst. cbn in Hst, Hsc.
  assert (Hself : awaits (MkWork b k) ->
    exists p t, workAt p (MkWork b k) = Some t /\ state t = WAITING /\ awaits t).
  { intros Ha. by exists [], (MkWork b k). }
  assert (Hdown : forall i c, subAt k i = Some c -> state c = WAITING ->
    exists p t, workAt p (MkWork b k) = Some t /\ state t = WAITING /\ awaits t).
  { intros i c Hi Hc. pose proof (subAt_subs _ _ _ Hi) as Hin.
    destruct (IH c Hin (Hsch c Hin) Hc) as (p & t & Hp & ? & ?). exists (i :: p), t.
    cbn. rewrite Hi. done. }
  destruct (mRetryTimer b) eqn:Hrt; [by apply Hself; left|].
  assert (Hr : retrying b = false) by (by rewrite retrying_waiting).
  destruct k as [l|f|f|f]; cbn in HK.
  - apply Hself. by right; right.
  - destruct (subclass f) as [u|m it|] eqn:Hsub; [|..|by cbn in Hsc; rewrite Hsub in Hsc].
    + destruct (List.find (fun p => negb (isDone p.2)) (mChildren f)) as [[a c]|] eqn:Hf.
      * apply List.find_some in Hf as [Hc Hd]. apply list_elem_of_In, list_elem_of_lookup in Hc as [i Hi].
        apply (Hdown i c); [cbn; by rewrite Hi|].
        assert (Hin : c ∈ (mChildren f).*2) by (by eapply putChild_child).
        pose proof (work_waits _ _ HK Hst c Hin) as Hnr.
        assert (Hg : going c = true).
        { apply (work_going _ _ HK); [by apply active_waiting| |done]. apply not_true_is_false. intros Ha.
          destruct (work_abort _ _ HK Ha) as [E|E]; by rewrite E in Hst. }
        cbn in Hd. unfold going, isDone in *. by destruct (state c).
      * apply Hself. right; right. cbn. rewrite Hsub. intros c Hc.
        apply list_elem_of_fmap in Hc as ([a d] & -> & Hc).
        pose proof (List.find_none _ _ Hf (a, d) (proj1 (list_elem_of_In _ _) Hc)) as Hd. by apply negb_false_iff in Hd.
    + destruct (work_batchWaits _ _ HK m it Hsub Hst Hr) as (c & Hc & Hcs).
      apply list_elem_of_fmap in Hc as ([a d] & -> & Hc). apply list_elem_of_lookup in Hc as [i Hi].
      apply (Hdown i d); [cbn; by rewrite Hi|done].
  - destruct (seq_waits _ _ HK Hst Hr) as (_ & c & Hi & Hc). by apply (Hdown (mNextInSequence f) c).
  - destruct (mWorkStarted f) eqn:Hsd.
    + apply (Hdown 0 (mConditionedWork f)); [done|].
      rewrite (cond_sync _ _ HK (active_waiting b Hst Hr) Hsd). done.
    + apply Hself. right; left. by apply (cond_polls _ _ HK).
Qed.

End Runs.
