(* ===== verification/WorkFairness.v ===== *)
(** * Asynchronous work: round-robin

    The scheduler cranks its running children in turn: whatever the others do, a
    running child is cranked within two rounds.  The fuel of [crankFuel] does not
    matter once it is enough. *)

From stdpp Require Import base list gmap strings sets.
From S2P Require Import Prelude WorkModel WorkInv WorkCrank WorkRun WorkEvents.

(** ** More fuel gives the same result *)

Definition refines {A} (m m' : exc A) : Prop := forall a, m = inr a -> m' = inr a.

Lemma refines_refl {A} (m : exc A) : refines m m.
Proof. by intros a. Qed.

Lemma refines_bind {A B} (m m' : exc A) (k k' : A -> exc B) :
  refines m m' -> (forall a, refines (k a) (k' a)) -> refines (bnd m k) (bnd m' k').
Proof. intros Hm Hk b (a & E & Eb)%exc_bind_inr. rewrite (Hm a E). by apply Hk. Qed.

Lemma refines_throw {A} f (m : exc A) : refines (exc_throw f) m.
Proof. by intros a. Qed.

#[local] Hint Resolve refines_refl refines_throw : core.

Lemma refines_adjust {A} (g g' : A -> exc A) i l :
  (forall x, refines (g x) (g' x)) -> refines (adjust g i l) (adjust g' i l).
Proof.
  intros Hg. revert i. induction l as [|x l IH]; intros [|i]; cbn; auto;
    apply refines_bind; auto.
Qed.

Section Fuel.
Context `{Implementers}.
Context (crank crank' : Work -> exc Work) (Hcr : forall w, refines (crank w) (crank' w)).

Lemma refines_onChild c : refines (onChild crank c) (onChild crank' c).
Proof using Hcr. apply refines_bind; auto. Qed.

Lemma refines_Work_onAbort f : refines (Work_onAbort crank f) (Work_onAbort crank' f).
Proof using Hcr.
  unfold Work_onAbort. destruct (yieldNextRunningChild f) as [f1 [j|]]; [|auto].
  apply refines_bind; [|auto]. apply refines_adjust. intros x.
  apply refines_bind; [|auto]. apply refines_bind; auto.
Qed.

Lemma refines_Work_onRun f : refines (Work_onRun crank f) (Work_onRun crank' f).
Proof using Hcr.
  unfold Work_onRun. destruct (mAbortChildrenButNotSelf f).
  - apply refines_bind; [apply refines_Work_onAbort|]. intros [f' d]. auto.
  - destruct (yieldNextRunningChild f) as [f1 [j|]]; [|auto].
    apply refines_bind; [|auto]. apply refines_adjust, refines_onChild.
Qed.

Lemma refines_sequence again again' f :
  (forall f, refines (again f) (again' f)) ->
  refines (sequenceRound crank again f) (sequenceRound crank' again' f).
Proof using Hcr.
  intros Ha. unfold sequenceRound.
  destruct (mSequenceOfWork f !! mNextInSequence f) as [w|]; [|auto].
  destruct (mCurrentExecuting f).
  - destruct (_ || _); [auto|]. destruct (decide _); [|auto].
    apply refines_bind; [by apply refines_adjust|auto].
  - apply refines_bind; [auto|]. intros l. apply refines_bind; [by apply refines_adjust|auto].
Qed.

Lemma refines_onRun w : refines (onRun crank w) (onRun crank' w).
Proof using Hcr.
  unfold onRun. destruct (kind w) as [l|f|f|f]; [auto| | |].
  - apply refines_bind; [apply refines_Work_onRun|auto].
  - apply refines_bind; [|auto]. unfold WorkSequence_onRun.
    apply refines_sequence. intros f'. apply refines_sequence. auto.
  - apply refines_bind; [|auto]. unfold ConditionalWork_onRun, conditionedRun.
    destruct (mWorkStarted f); [apply refines_bind; [apply refines_bind; auto|auto]|].
    destruct (mCondition f) as [c|]; [|auto]. destruct (condition c) as [c' [|]]; [|auto].
    apply refines_bind; [auto|]. intros x. apply refines_bind; [apply refines_bind; auto|auto].
Qed.

Lemma refines_onAbort w : refines (onAbort crank w) (onAbort crank' w).
Proof using Hcr.
  unfold onAbort. destruct (kind w) as [l|f|f|f]; [auto| | |]; (apply refines_bind; [|auto]).
  - apply refines_Work_onAbort.
  - unfold WorkSequence_onAbort. destruct (mSequenceOfWork f !! _); [|auto].
    destruct (_ && _); [|auto]. apply refines_bind; [by apply refines_adjust|auto].
  - unfold ConditionalWork_onAbort. destruct (_ && _); [|auto]. apply refines_bind; auto.
Qed.

End Fuel.

Section Robin.
Context `{Lawful}.

Lemma crankFuel_mono n m w : (n <= m)%nat -> refines (crankFuel n w) (crankFuel m w).
Proof.
  revert m w. induction n as [|n IH]; intros m w Hle; [by intros a|].
  destruct m as [|m]; [lia|]. cbn [crankFuel]. apply refines_bind; [auto|]. intros _.
  assert (Hcr : forall x, refines (crankFuel n x) (crankFuel m x)) by (intros; apply IH; lia).
  destruct (decide _); (apply refines_bind; [|auto]).
  - by apply refines_onAbort.
  - by apply refines_onRun.
Qed.

Lemma crankFuel_enough n w w' :
  WF w -> state w = RUNNING \/ state w = ABORTING -> crankFuel n w = inr w' ->
  crankWork w = inr w'.
Proof.
  intros HW Hst E. destruct (crankWork_ok w HW Hst) as (w'' & E' & _).
  pose proof (crankFuel_mono n (n + height w) w ltac:(lia) w' E) as E1.
  pose proof (crankFuel_mono (height w) (n + height w) w ltac:(lia) w'' E') as E2.
  congruence.
Qed.

(** ** The order of a round *)

Lemma yieldLoop_order rest pre e cs next j e' :
  yieldLoop pre rest e = (cs, next, Some j, e') ->
  exists l1 c l2, rest = l1 ++ c :: l2 /\ cs !! j = Some c /\ drop (S j) cs = l2 /\
    (forall x, x ∈ l1 -> getState x.2 <> WORK_RUNNING).
Proof.
  revert pre e. induction rest as [|c rest IH]; intros pre e; cbn; [done|].
  case_decide as Hr.
  - intros [= <- _ <- _]. exists [], c, rest. split_and!; [done| | |set_solver].
    + by rewrite list_lookup_middle.
    + rewrite drop_app_ge by lia. by replace (S (length pre) - length pre)%nat with 1%nat by lia.
  - destruct (isDone c.2); intros (l1 & c0 & l2 & -> & Hj & Hd & Hn)%IH;
      exists (c :: l1), c0, l2; (split_and!; [done|done|done|]);
      intros x [->|Hx]%elem_of_cons; auto.
Qed.

Lemma yield_order f f1 j :
  yieldNextRunningChild f = (f1, Some j) ->
  exists l1 c, ahead f = l1 ++ c :: ahead f1 /\ mChildren f1 !! j = Some c /\
    (forall x, x ∈ l1 -> getState x.2 <> WORK_RUNNING).
Proof.
  intros E. destruct (yield_spec f) as (f1' & r & E' & Hy). rewrite E in E'.
  injection E' as <- <-. rewrite (iterator_ahead f1 (S j) (yd_next _ _ _ Hy)).
  unfold yieldNextRunningChild in E. destruct (yieldLoop _ _ _) as [[[cs next] found] e] eqn:El.
  destruct found as [j'|]; [|done]. injection E as <- <-. cbn [mChildren setChildren].
  apply yieldLoop_order in El as (l1 & c & l2 & E1 & Hj & Hd & Hn).
  exists l1, c. split_and!; [|done|done]. rewrite Hd. exact E1.
Qed.

(** One crank of a running scheduler. *)
Lemma scheduler_crank w f f1 r :
  RootOK w -> state w = RUNNING -> kind w = KWork f -> yieldNextRunningChild f = (f1, r) ->
  exists w', crankWork w = inr w' /\ RootOK w' /\
    match r with
    | Some j => exists i c c', mChildren f1 !! j = Some (i, c) /\ crankWork c = inr c' /\
        kind w' = KWork (putChild j i c' f1) /\ state w' = RUNNING
    | None => kind w' = KWork f1 /\ (anyChildRunning f1 = true -> state w' = RUNNING)
    end.
Proof.
  intros Hw Hst Ek Ey. destruct (root_running w Hw Hst) as (w' & E & Hw' & _).
  exists w'. split_and!; [done|done|]. destruct Hw as [HW Hsc _ _ _ _ Hm].
  specialize (Hm (or_introl Hst)). rewrite Ek in Hm. cbn in Hm.
  destruct (root_fields _ Hsc) as (f0 & Ek0 & Hsub). rewrite Ek in Ek0. injection Ek0 as <-.
  destruct w as [b k]. cbn in Ek. subst k. unfold state in Hst. cbn in Hst.
  apply WF_inv in HW as (Hb & HK & Hs). destruct (running_base b Hb Hst) as [Hin _].
  destruct (yield_spec f) as (f1' & r' & Ey' & Hy). rewrite Ey in Ey'. injection Ey' as <- <-.
  unfold crankWork in E. rewrite height_subs in E.
  remember (list_max (height <$> subs (KWork f))) as n eqn:En.
  rewrite crankFuel_running in E by done. unfold onRun, Work_onRun in E. cbn [kind base] in E.
  rewrite Hm, Ey in E. destruct r as [j|].
  - destruct (yield_found _ _ _ Hy) as (i & c & Hj & Hc & _ & Hrun).
    assert (Hcr : state c = RUNNING).
    { assert (Hg : going c = true).
      { apply (work_going _ _ HK); [unfold active; by rewrite Hst|done|done]. }
      unfold going, getState in *. by destruct (state c). }
    pose proof (height_sub b (KWork f) c Hc) as Hh. rewrite height_subs in Hh.
    destruct (crankFuel_ok n c) as (c' & Ec & _); [by apply Hs|lia|by left|].
    rewrite (onChild_adjust _ f1 j i c c' Hj Ec) in E. cbn -[setState] in E.
    rewrite setState_plain in E; [|rewrite Hst; allowed|by do 3 right; rewrite Hst].
    injection E as <-. exists i, c, c'. split_and!; try done.
    eapply crankFuel_enough; [by apply Hs|by left|exact Ec].
  - unfold doWork in E. rewrite (yd_subclass _ _ _ Hy), Hsub in E.
    destruct (anyChildRunning f1) eqn:Ea; cbn -[setState] in E;
      rewrite decide_False, bool_decide_false in E by done; cbn -[setState] in E;
      (rewrite setState_plain in E; [|rewrite Hst; allowed|rewrite Hst; auto]);
      injection E as <-; done.
Qed.

(** ** Every running child has its turn *)

Fixpoint crankN (k : nat) (w : Work) : exc Work :=
  match k with
  | O => mret w
  | S k' => let* w := crankWork w in crankN k' w
  end.

(** After [k] cranks of the scheduler, the next one cranks the child at the address
    [i], which is still [c]. *)
Definition turn (k : nat) (w : Work) (i : nat) (c : Work) : Prop :=
  exists wk fk f1 j wk' c', crankN k w = inr wk /\ kind wk = KWork fk /\
    yieldNextRunningChild fk = (f1, Some j) /\ mChildren f1 !! j = Some (i, c) /\
    crankWork wk = inr wk' /\ crankWork c = inr c' /\ kind wk' = KWork (putChild j i c' f1).

Lemma turn_later k w w' i c : crankWork w = inr w' -> turn k w' i c -> turn (S k) w i c.
Proof.
  intros E (wk & fk & f1 & j & wk' & c' & Ek & Hrest).
  exists wk, fk, f1, j, wk', c'. split; [|done]. cbn. by rewrite E.
Qed.

(** A child keeps its place while others are cranked. *)
Lemma keeps_place f j i0 c0 c' i c :
  NoDup (mChildren f).*1 -> mChildren f !! j = Some (i0, c0) -> i <> i0 ->
  (i, c) ∈ mChildren f -> (i, c) ∈ mChildren (putChild j i0 c' f).
Proof.
  intros Hnd Hj Hne Hin. apply list_elem_of_lookup in Hin as [n Hn].
  apply (list_elem_of_lookup_2 _ n). cbn. rewrite list_lookup_insert_ne; [done|].
  intros ->. congruence.
Qed.

Lemma address_unique (f : WorkFields Work) i c c' :
  NoDup (mChildren f).*1 -> (i, c) ∈ mChildren f -> (i, c') ∈ mChildren f -> c' = c.
Proof.
  intros Hnd Ha Hb. pose proof (childAt_in f i c Hnd Ha). pose proof (childAt_in f i c' Hnd Hb).
  congruence.
Qed.

Lemma ahead_children (f : WorkFields Work) x : x ∈ ahead f -> x ∈ mChildren f.
Proof.
  unfold ahead. intros Hx. apply list_elem_of_lookup in Hx as [n Hn].
  rewrite lookup_drop in Hn. by eapply list_elem_of_lookup_2.
Qed.

Lemma root_tree w f : RootOK w -> kind w = KWork f -> TreeOK (innerOf (KWork f)) f.
Proof.
  intros Hw Ek. destruct w as [b k]. cbn in Ek. subst k.
  pose proof (WF_inv _ _ (root_WF _ Hw)) as (_ & HK & _). apply (work_tree _ _ HK).
Qed.

(** A child that the round has still to reach. *)
Lemma turn_ahead d w f i c :
  RootOK w -> state w = RUNNING -> kind w = KWork f -> (length (ahead f) <= d)%nat ->
  (i, c) ∈ ahead f -> state c = RUNNING -> exists k, (k < d)%nat /\ turn k w i c.
Proof.
  revert w f. induction d as [|d IH]; intros w f Hw Hst Ek Hlen Hin Hc.
  { destruct (ahead f); [set_solver|cbn in Hlen; lia]. }
  pose proof (root_tree w f Hw Ek) as Ht.
  destruct (yieldNextRunningChild f) as [f1 r] eqn:Ey.
  destruct (yield_spec f) as (f1' & r' & Ey' & Hy). rewrite Ey in Ey'. injection Ey' as <- <-.
  destruct (scheduler_crank w f f1 r Hw Hst Ek Ey) as (w' & E & Hw' & Hr).
  assert (Hrun : getState c = WORK_RUNNING) by (unfold getState; by rewrite Hc).
  destruct r as [j|]; [|by destruct (yd_none _ _ _ Hy eq_refl (i, c) Hin)].
  destruct Hr as (i0 & c0 & c' & Hj & Ec & Ek' & Hst').
  destruct (yield_order f f1 j Ey) as (l1 & x & Ea & Hj' & Hn). rewrite Hj in Hj'. injection Hj' as <-.
  destruct (decide (i = i0)) as [->|Hne].
  - assert (c = c0) as <-.
    { apply (address_unique f i0 c0 c (tree_addresses _ _ Ht)); [|by apply ahead_children].
      apply ahead_children. rewrite Ea. set_solver. }
    exists 0. split; [lia|]. by exists w, f, f1, j, w', c'.
  - assert (Hin1 : (i, c) ∈ ahead f1).
    { rewrite Ea in Hin. apply elem_of_app in Hin as [Hin|Hin]; [by destruct (Hn _ Hin)|].
      apply elem_of_cons in Hin as [[= -> ->]|Hin]; [done|done]. }
    pose proof (ahead_put f1 j i0 c' (yd_next _ _ _ Hy)) as Eap.
    destruct (IH w' (putChild j i0 c' f1) Hw' Hst' Ek') as (k & Hk & Hturn); [| |done|].
    + rewrite Eap. rewrite Ea, length_app in Hlen. cbn in Hlen. lia.
    + by rewrite Eap.
    + exists (S k). split; [lia|]. by eapply turn_later.
Qed.

Lemma anyRunning_true l c : c ∈ l -> getState c = WORK_RUNNING -> anyRunning l = true.
Proof.
  intros Hc Hr. apply existsb_exists. exists c. split; [by apply list_elem_of_In|].
  by rewrite Hr.
Qed.

(** Any running child: at worst the round ends first. *)
Lemma turn_comes d w f i c :
  RootOK w -> state w = RUNNING -> kind w = KWork f -> (length (ahead f) <= d)%nat ->
  (i, c) ∈ mChildren f -> state c = RUNNING ->
  exists k, (k <= d + length (mChildren f))%nat /\ turn k w i c.
Proof.
  revert w f. induction d as [d IH] using lt_wf_ind. intros w f Hw Hst Ek Hlen Hin Hc.
  pose proof (root_tree w f Hw Ek) as Ht. pose proof (tree_addresses _ _ Ht) as Hnd.
  destruct (decide (i ∈ (ahead f).*1)) as [Hia|Hnia].
  { apply list_elem_of_fmap in Hia as ([i' c1] & Ei & Hia). cbn in Ei. subst i'.
    assert (c1 = c) as -> by (eapply address_unique; [exact Hnd|done|by apply ahead_children]).
    destruct (turn_ahead d w f i c Hw Hst Ek Hlen Hia Hc) as (k & Hk & Hturn).
    exists k. split; [lia|done]. }
  destruct (yieldNextRunningChild f) as [f1 r] eqn:Ey.
  destruct (yield_spec f) as (f1' & r' & Ey' & Hy). rewrite Ey in Ey'. injection Ey' as <- <-.
  destruct (scheduler_crank w f f1 r Hw Hst Ek Ey) as (w' & E & Hw' & Hr).
  assert (Hin1 : (i, c) ∈ mChildren f1).
  { destruct (yd_dropped _ _ _ Hy _ Hin) as [?|[Ha _]]; [done|].
    destruct Hnia. by apply (list_elem_of_fmap_2 fst _ (i, c)). }
  pose proof (sublist_length _ _ (yd_sublist _ _ _ Hy)) as Hl.
  destruct r as [j|].
  - destruct Hr as (i0 & c0 & c' & Hj & Ec & Ek' & Hst').
    destruct (yield_order f f1 j Ey) as (l1 & x & Ea & Hj' & _). rewrite Hj in Hj'. injection Hj' as <-.
    assert (Hne : i <> i0).
    { intros ->. apply Hnia. rewrite Ea, fmap_app. cbn. set_solver. }
    rewrite Ea, length_app in Hlen. cbn in Hlen.
    destruct (IH (d - 1)%nat ltac:(lia) w' (putChild j i0 c' f1) Hw' Hst' Ek')
      as (k & Hk & Hturn); [| |done|].
    + rewrite ahead_put by apply (yd_next _ _ _ Hy). lia.
    + eapply keeps_place; [|exact Hj|done|done].
      apply (tree_addresses _ _ (TreeOK_yield _ _ _ _ Hy Ht)).
    + cbn in Hk. rewrite length_insert in Hk. exists (S k). split; [lia|]. by eapply turn_later.
  - destruct Hr as [Ek' Hst'].
    assert (Hrun : state w' = RUNNING).
    { apply Hst', (anyRunning_true _ c); [by apply (list_elem_of_fmap_2 snd _ (i, c))|].
      unfold getState. by rewrite Hc. }
    assert (Ea : ahead f1 = mChildren f1).
    { rewrite (iterator_ahead f1 0 (yd_next _ _ _ Hy)). apply drop_0. }
    destruct (turn_ahead (length (mChildren f1)) w' f1 i c Hw' Hrun Ek')
      as (k & Hk & Hturn); [by rewrite Ea|by rewrite Ea|done|].
    exists (S k). split; [lia|]. by eapply turn_later.
Qed.

End Robin.
