(* ===== verification/WorkFacts.v ===== *)
(** * Asynchronous work: theorems

    The properties of the work scheduler: no event makes an assertion fail, a shutdown
    ends, a work that is woken is cranked, running works take turns, unfinished work is
    never forgotten, and a batch that succeeds has run all of its works.  [Sample] is a
    set of implementers on which the hypotheses hold. *)

From stdpp Require Import base list gmap strings sets.
From S2P Require Import Prelude WorkModel WorkInv WorkCrank WorkRun WorkEvents WorkLive.
From S2P Require Import WorkFairness.

(** ** Batches *)

Section Batch.
Context `{Lawful}.

(** A batch whose children all succeeded has nothing left in [mBatch]. *)
Lemma batch_emptied m it f :
  RoundOK f -> BatchOK m it f -> (forall c, c ∈ (mChildren f).*2 -> state c = SUCCESS) -> m = ∅.
Proof.
  intros Hf [_ Hch Hseen] Hall. apply map_empty. intros name.
  destruct (m !! name) as [i|] eqn:E; [|done]. exfalso.
  pose proof (Hch name i E) as Hi. apply list_elem_of_fmap in Hi as ([i' c] & -> & Hin). cbn in E.
  destruct (Hseen i' c) as [_ Hno].
  - by rewrite (round_ahead f Hf).
  - unfold isDone. rewrite (Hall c); [done|]. by apply (list_elem_of_fmap_2 snd _ (i', c)).
  - by destruct (Hno name).
Qed.

Lemma BatchWork_doWork_success m it f f' :
  RoundOK f -> isScheduler (KWork f) = false ->
  (forall name, name ∈ remaining it -> m !! name = None) ->
  (forall name i, m !! name = Some i -> i ∈ (mChildren f).*1) ->
  BatchWork_doWork m it f = inr (f', WORK_SUCCESS) ->
  (forall c, c ∈ (mChildren f).*2 -> state c = SUCCESS) /\
  exists it', subclass f' = BatchWork ∅ it' /\ remaining it' = [].
Proof.
  intros Hf Hsc Hnew Hch. unfold BatchWork_doWork.
  destruct (anyChildRaiseFailure f) eqn:Hfail; [done|].
  pose proof (cleanBatch_ok m it f Hf Hfail Hnew Hch) as Hb.
  destruct (addMoreWork_ok MAX_CONCURRENT_SUBPROCESSES (cleanBatch m f) it f Hf Hsc Hb)
    as (m' & it' & f1 & -> & Hf1 & Hsub1 & Hb1 & Hinc & Hend); [lia|].
  cbn -[allChildrenSuccessful anyChildRunning].
  destruct (allChildrenSuccessful _) eqn:Hs;
    [|destruct (anyChildRunning _); cbn; intros [= _ ?]; done].
  intros [= <-]. pose proof (proj1 (allSuccessful_spec _) Hs) as Hall. cbn in Hall.
  assert (m' = ∅) as -> by (by eapply batch_emptied).
  split.
  - intros c Hc. apply Hall. apply list_elem_of_fmap in Hc as (x & -> & Hx).
    apply list_elem_of_fmap_2. auto.
  - exists it'. split; [done|]. apply hasNext_ok, Hend. rewrite map_size_empty.
    apply max_subprocesses.
Qed.

Lemma batch_onRun crank b f m it f' timer :
  InRun b -> WorkOK b f -> SubsOK (KWork f) -> subclass f = BatchWork m it ->
  Work_onRun crank f = inr (f', WORK_SUCCESS, timer) ->
  (forall c, c ∈ (mChildren f).*2 -> state c = SUCCESS) /\
  exists it', subclass f' = BatchWork ∅ it' /\ remaining it' = [].
Proof.
  intros Hb HK Hs Hsub. unfold Work_onRun. destruct (mAbortChildrenButNotSelf f) eqn:Hm.
  { by intros ([f1 [|]] & _ & [=])%exc_bind_inr. }
  destruct (yield_spec f) as (f1 & r & -> & Hy). destruct r as [j|].
  { by intros (cs & _ & [=])%exc_bind_inr. }
  pose proof (RoundOK_yield b f f1 Hb HK Hs Hm Hy) as Hr.
  pose proof (yd_subclass _ _ _ Hy) as Hsub1. rewrite Hsub in Hsub1.
  assert (Hbat : BatchOK m it f).
  { apply (work_batch _ _ HK m it Hsub); [unfold active; by rewrite (proj1 Hb)|done]. }
  intros ([[f2 st] t] & E & Ef)%exc_bind_inr. unfold doWork in E. rewrite Hsub1 in E.
  apply exc_bind_inr in E as ([f2' st'] & E & [= <- <- <-]).
  case_decide as Hst; [subst st'|by destruct (_ && _);
    [apply exc_bind_inr in Ef as (? & _ & [=])|injection Ef as _ -> _]].
  destruct (BatchWork_doWork_success m it f1 f2' Hr) as (Hall & it' & Hs2 & Hrem); try done.
  - cbn. by rewrite Hsub1.
  - apply (batch_new _ _ _ Hbat).
  - intros name i Hi. by eapply yield_batch.
  - split.
    + intros c Hc. apply list_elem_of_fmap in Hc as ([i d] & -> & Hc). cbn.
      destruct (yd_dropped _ _ _ Hy _ Hc) as [Hin|[Ha Hd]].
      * apply Hall. by apply (list_elem_of_fmap_2 snd _ (i, d)).
      * by apply (batch_seen _ _ _ Hbat i d).
    + apply exc_bind_inr in Ef as (_ & _ & Ef). apply exc_bind_inr in Ef as (f3 & Ec & [= <- _]).
      unfold clearChildren in Ec. apply exc_bind_inr in Ec as (_ & _ & [= <-]).
      by exists it'.
Qed.

Lemma batch_crank w f m it w' :
  WF w -> kind w = KWork f -> subclass f = BatchWork m it -> state w = RUNNING ->
  crankWork w = inr w' -> state w' = SUCCESS ->
  (forall c, c ∈ (mChildren f).*2 -> state c = SUCCESS) /\
  exists f' it', kind w' = KWork f' /\ subclass f' = BatchWork ∅ it' /\ remaining it' = [].
Proof.
  intros HW Ek Hsub Hst E Hst'. destruct w as [b k]. cbn in Ek. subst k.
  unfold state in Hst. cbn in Hst. pose proof (WF_inv _ _ HW) as (Hb & HK & Hs).
  destruct (running_base b Hb Hst) as [Hin Hwt].
  unfold crankWork in E. rewrite height_subs in E.
  remember (list_max (height <$> subs (KWork f))) as n eqn:En.
  destruct (onRun_ok n (crankFuel n) b (KWork f) (crankFuel_ok n) HW Hst)
    as (b1 & k1 & st & E1 & Hmid & Hs1 & HR & _); [rewrite height_subs; lia|].
  rewrite crankFuel_running, E1 in E by done. cbn -[setState] in E.
  assert (st = WORK_SUCCESS) as ->.
  { destruct (setState_run st b1 k1 Hmid Hs1 HR) as (w'' & E' & _ & _ & _ & Hg).
    rewrite E in E'. injection E' as <-. destruct (decide (st = WORK_FAILURE)) as [->|Hne].
    - destruct (setState_failure_ok b1 k1 Hmid Hs1 HR) as (w'' & E' & _ & _ & Hend).
      cbn [getInternalState] in E. rewrite E in E'. injection E' as <-.
      rewrite Hst' in Hend. naive_solver.
    - rewrite Hst' in Hg. specialize (Hg Hne). by destruct st. }
  unfold onRun in E1. cbn [kind base] in E1.
  apply exc_bind_inr in E1 as ([[f1 st1] timer] & E1 & Ea). rewrite armed_ok in Ea by done.
  injection Ea as <- <- ->.
  destruct (batch_onRun _ b f m it f1 timer Hin HK Hs Hsub E1) as (Hall & it' & Hsub1 & Hrem).
  split; [done|]. exists f1, it'. split; [|done].
  cbn [getInternalState] in E. rewrite setState_success in E by apply Hmid. injection E as <-.
  unfold onSuccess, onHook. cbn [kind]. by rewrite Hsub1.
Qed.

End Batch.

(** ** New works *)

Section New.
Context `{Ghost}.

Lemma BaseOK_new name n : BaseOK (newBasicWork name n).
Proof. split; cbn; try done. lia. Qed.

Lemma Fresh_leaf name n l : Fresh (newLeaf name n l).
Proof.
  split_and!; [|done|done]. apply WF_make; [apply BaseOK_new|done|]. intros c. cbn. set_solver.
Qed.

Lemma Fresh_work name n s :
  s <> WorkScheduler -> Fresh (newWork name n s).
Proof.
  intros Hs. split_and!; [|done|by destruct s].
  apply WF_make; [apply BaseOK_new| |intros c; cbn; set_solver].
  split; cbn; try done; [|set_solver..]. split; cbn; [done|constructor|set_solver|set_solver].
Qed.

Lemma Fresh_sequence name l n stop :
  (forall w, w ∈ l -> Fresh w) -> ((0 < n)%nat -> forall w, w ∈ l -> Restartable w) ->
  Fresh (newWorkSequence name l n stop).
Proof.
  intros Hl Hr. split_and!; [|done|done].
  apply WF_make; [apply BaseOK_new| |intros c Hc; by destruct (Hl c Hc) as (? & _ & ?)].
  split; cbn; try done; try lia.
  - intros i w Hi _. unfold still.
    destruct (Hl w) as (_ & -> & _); [by eapply list_elem_of_lookup_2|]. by rewrite orb_true_r.
  - intros _ w Hw. left. by destruct (Hl w Hw) as (_ & ? & _).
Qed.

Lemma Fresh_conditional name c w : Fresh w -> Fresh (newConditionalWork name c w).
Proof.
  intros (HW & Hp & Hs). split_and!; [|done|done].
  apply WF_make; [apply BaseOK_new| |intros x ->%list_elem_of_singleton; done].
  split; cbn; try done.
  - intros _. unfold still. rewrite Hp. apply orb_true_r.
  - intros _. split_and!; [done|done|by left].
Qed.

End New.

(** ** Sample implementers

    A leaf counts down, waits on its timer and succeeds, or always fails at 100; a
    [Work] adds one child and follows it; a batch counts down and names its works in
    unary; a condition holds after some calls. *)
Module Sample.

Fixpoint unary (n : nat) : string :=
  match n with O => EmptyString | S m => String.append "x" (unary m) end.

Fixpoint names (n : nat) : list string :=
  match n with O => [] | S m => unary n :: names m end.

#[export] Instance members : Members := {|
  LeafS := nat; UserS := bool; IterS := nat; CondS := nat |}.

Definition countdown (n : nat) : nat * State * bool :=
  match n with
  | O => (0, WORK_SUCCESS, false)
  | 1 => (0, WORK_WAITING, true)
  | S m => if Nat.eqb n 100 then (n, WORK_FAILURE, false) else (m, WORK_RUNNING, false)
  end.

#[export] Instance implementers : Implementers := {|
  leaf_onRun := countdown;
  leaf_onAbort := fun n => match n with O => (0, true) | S m => (m, false) end;
  leaf_onReset := fun n => n;
  leaf_onSuccess := fun n => n;
  leaf_onFailureRaise := fun n => n;
  leaf_onFailureRetry := fun n => n;
  user_doWork := fun started cs =>
    if started then (true, [], getWorkStatus cs.*2, false)
    else (true, [newLeaf "child" RETRY_ONCE 2], WORK_RUNNING, false);
  user_doReset := fun _ => false;
  user_onSuccess := fun u => u;
  user_onFailureRaise := fun u => u;
  user_onFailureRetry := fun u => u;
  hasNext := fun n => negb (Nat.eqb n 0);
  yieldMoreWork := fun n => (Nat.pred n, newLeaf (unary n) RETRY_NEVER 2);
  resetIter := fun _ => 3;
  condition := fun n => (Nat.pred n, Nat.eqb n 0);
  MAX_CONCURRENT_SUBPROCESSES := 2 |}.

#[export] Instance ghost : Ghost := {| remaining := names; abortBound := fun n => n |}.

Lemma unary_length n : String.length (unary n) = n.
Proof. induction n as [|n IH]; [done|]. change (S (String.length (unary n)) = S n). by rewrite IH. Qed.

Lemma names_length n x : x ∈ names n -> (String.length x <= n)%nat.
Proof.
  induction n as [|n IH]; cbn [names]; [set_solver|].
  intros [->|Hx]%elem_of_cons; [by rewrite unary_length|]. specialize (IH Hx). lia.
Qed.

Lemma names_NoDup n : NoDup (names n).
Proof.
  induction n as [|n IH]; cbn [names]; constructor; [|done].
  intros Hin%names_length. rewrite unary_length in Hin. lia.
Qed.

Lemma getWorkStatus_ok (l : list Work) :
  getWorkStatus l <> WORK_ABORTED /\
  (getWorkStatus l = WORK_SUCCESS -> forall c, c ∈ l -> state c = SUCCESS) /\
  (getWorkStatus l = WORK_WAITING -> forall c, c ∈ l -> state c <> RUNNING).
Proof.
  unfold getWorkStatus. destruct (allSuccessful l) eqn:Es; [|destruct (anyFailed l);
    [|destruct (anyRunning l) eqn:Er]]; cbn; split_and!; try done.
  - intros _. by apply allSuccessful_spec.
  - intros _ c Hc. by apply (anyRunning_false l).
Qed.

#[export] Instance lawful : Lawful.
Proof.
  split.
  - intros n n' st timer. cbn. unfold countdown. destruct n as [|[|n]]; [by intros [= _ <- <-]..|].
    destruct (Nat.eqb _ _); by intros [= _ <- <-].
  - intros [|n] n' [=]; cbn. lia.
  - intros [|] cs u' new st timer [= _ <- <- <-].
    + destruct (getWorkStatus_ok cs.*2) as (? & ? & ?). split_and!; auto; [done|set_solver].
    + split_and!; try done. intros w ->%list_elem_of_singleton. apply Fresh_leaf.
  - apply names_NoDup.
  - intros [|n]; cbn; done.
  - intros [|n] it' w [= <- <-] Hn; [done|]. split; [apply Fresh_leaf|done].
  - cbn. lia.
Qed.

End Sample.

(** ** Properties *)

Section Properties.
Context `{Lawful}.

(** C9: whatever sequence of legal events happens after the scheduler is created (closures
    run by the main thread, timers, implementers' events, works scheduled, shutdown),
    no assertion fails, no illegal transition is thrown and no recursion runs out: the
    tree of works stays well formed, and the scheduler has a closure posted exactly when
    it has something to run, never two.  Legal: an implementer's event wakes only a leaf or
    a [Work] of its own that is not in its retry delay (such a wake-up is what
    [wakeUp_interrupts_retry] is about), and the works scheduled are new.  Implementers are
    [Lawful]: among other things a [doWork] does not return WAITING while a child can run,
    which the comment of [addWork] would allow. *)
Theorem work_events_never_fault (s0 : World) (es : list Event) :
  createScheduler = inr s0 -> LegalRun s0 es ->
  exists s, run s0 es = inr s /\ WF (root s) /\ (posted s <= 1)%nat /\
    (posted s = 1%nat <-> getState (root s) = WORK_RUNNING) /\
    (posted s = 1%nat <-> mScheduled s = true).
Proof.
  intros E Hl. destruct createScheduler_ok as (s0' & E' & Hs0).
  rewrite E in E'. injection E' as <-.
  destruct (events_ok es s0 Hs0 Hl) as (s & Er & [Hw Hsch Hp]).
  exists s. split_and!; [done|apply (root_WF _ Hw)|by rewrite Hp; destruct (mScheduled s); lia| |].
  - rewrite <-Hsch, Hp. by destruct (mScheduled s).
  - rewrite Hp. by destruct (mScheduled s).
Qed.

(** C8: a shutdown ends.  From any reachable state [shutdown] succeeds, and whatever
    legal events follow, once the main thread has run as many closures as the tree has abort
    cost the scheduler is ABORTED, nothing is posted any more and nothing failed.  The
    abort cost counts the calls the leaves' [onAbort] need, each of which is assumed to
    end after finitely many ([Lawful]). *)
Theorem shutdown_completes (s : World) :
  Reachable s ->
  exists s1, schedulerShutdown s = inr s1 /\
    forall es, LegalRun s1 es -> (abortCost (root s1) <= list_sum (cranks <$> es))%nat ->
      exists s2, run s1 es = inr s2 /\ state (root s2) = ABORTED /\ posted s2 = 0%nat.
Proof.
  intros Hs%Reachable_ok. destruct (schedulerShutdown_ok s Hs) as (s1 & E1 & Hs1 & Hst & _).
  exists s1. split; [done|]. intros es Hl Hc.
  destruct (events_ok es s1 Hs1 Hl) as (s2 & E2 & Hs2).
  destruct (stopping_run es s1 s2 Hs1 Hl Hst E2) as (Hst2 & _ & Hcost).
  assert (Ha : state (root s2) = ABORTED).
  { apply abortCost_zero; [apply (world_root _ Hs2)|done|lia]. }
  exists s2. split_and!; [done|done|]. rewrite (world_posted _ Hs2).
  destruct (mScheduled s2) eqn:Em; [|done]. apply (world_scheduled _ Hs2) in Em.
  unfold getState in Em. by rewrite Ha in Em.
Qed.

(** C10: no wake-up is lost, with lawful implementers.  When a waiting timer or a retry timer of any work of the
    tree fires, or an implementer's event wakes its work, that work is RUNNING, so is
    everything above it up to the scheduler, and a crank is posted. *)
Theorem woken_work_runs (s : World) (p : list nat) (t : Work) (e : Event) :
  Reachable s -> workAt p (root s) = Some t ->
  (e = WaitingTimer p /\ mWaitingTimer (base t) = true) \/
  (e = RetryTimer p /\ retrying (base t) = true) \/
  (e = WakeUp p /\ state t = WAITING /\ Legal s e) ->
  exists s' t', step s e = inr s' /\ workAt p (root s') = Some t' /\ state t' = RUNNING /\
    (forall q r u, p = q ++ r -> workAt q (root s') = Some u -> state u = RUNNING) /\
    posted s' = 1%nat.
Proof.
  intros Hs%Reachable_ok Ht He. pose proof (world_root _ Hs) as Hw.
  pose proof (root_retrying _ Hw) as Hrr. pose proof (root_timer _ Hw) as Hrt.
  destruct He as [[-> Hwt]|[[-> Hr]|(-> & Hwt & Hl)]]; cbn [step];
    (eapply event_wakes; [done|exact Ht|]); intros u Hu HW Hor; rewrite Ht in Hu; injection Hu as <-.
  - destruct (waitingTimer_handler t HW) as (u' & cbs & ? & ? & Hrun);
      [destruct Hor as [[_ ->]|?]; auto|]. exists u', cbs. auto.
  - destruct (retryTimer_handler t HW) as (u' & cbs & ? & ? & Hrun);
      [destruct Hor as [[_ ->]|?]; auto|]. exists u', cbs. auto.
  - destruct (Hl t Ht Hwt) as [Hr Hk].
    destruct (wakeUp_handler t HW) as (u' & cbs & ? & ? & Hrun);
      [|done|intros _ f Ek; by rewrite Ek in Hk|exists u', cbs; auto].
    destruct (kind t) as [|f| |]; try done. cbn. by destruct (subclass f).
Qed.

(** C12: unfinished work is never forgotten by the scheduler.  In a reachable state, a work
    given to the scheduler that has not finished either has a crank coming, or waits; and
    then it has, at or below it, a waiting work whose waiting or retry timer is armed, or
    a leaf, or a user [Work] all of whose children have finished, that returned WAITING
    without a timer, so that it is for its implementer to wake it.  Implementers are [Lawful]; in particular a [doWork] does not
    return WAITING while one of its children is RUNNING.  The comment of [addWork] in
    Work.h lets it do so, and such a child is indeed forgotten. *)
Theorem unfinished_work_is_awaited (s : World) (f : WorkFields Work) (i a : nat) (c : Work) :
  Reachable s -> kind (root s) = KWork f -> mChildren f !! i = Some (a, c) -> isDone c = false ->
  posted s = 1%nat \/
  exists p t, workAt (i :: p) (root s) = Some t /\ state t = WAITING /\ awaits t.
Proof.
  intros Hs%Reachable_ok Ek Hi Hd. pose proof (world_root _ Hs) as Hw.
  rewrite (world_posted _ Hs). destruct (mScheduled s) eqn:Em; [by left|right].
  destruct (root s) as [b k] eqn:Er. cbn in Ek. subst k. cbn [workAt kind].
  pose proof (WF_inv _ _ (root_WF _ Hw)) as (Hb & HK & Hsub).
  assert (Hin : c ∈ (mChildren f).*2) by (by eapply putChild_child).
  destruct (Hsub c Hin) as [HWc Hsc].
  assert (Hst : mState b = WAITING).
  { pose proof (root_state _ Hw) as Hrs. unfold state in Hrs. cbn in Hrs.
    assert (Hn : getState (MkWork b (KWork f)) <> WORK_RUNNING).
    { intros E. rewrite <-Er in E. apply (world_scheduled _ Hs) in E. congruence. }
    unfold getState, state in Hn. cbn in Hn. destruct (mState b) eqn:E; try done.
    assert (Hr : resting b = true) by (unfold resting; by rewrite E).
    destruct (work_resting _ _ HK Hr) as [Hc _]. by rewrite Hc in Hi. }
  pose proof (root_retrying _ Hw) as Hr. cbn in Hr.
  assert (Hcw : state c = WAITING).
  { pose proof (work_waits _ _ HK Hst c Hin) as Hnr.
    assert (Hg : going c = true).
    { apply (work_going _ _ HK); [by apply active_waiting| |done].
      apply (root_children _ Hw). by right. }
    unfold going, isDone in *. by destruct (state c). }
  destruct (waiting_source c HWc Hsc Hcw) as (p & t & Hp & ? & ?). exists p, t.
  cbn. rewrite Hi. done.
Qed.

(** C11: scheduling is fair, with lawful implementers.  In a reachable state, a work given to the scheduler that can
    run is cranked after at most twice as many cranks of the scheduler as it has
    children, and is as it was until then. *)
Theorem running_works_take_turns (s : World) (f : WorkFields Work) (i : nat) (c : Work) :
  Reachable s -> kind (root s) = KWork f -> (i, c) ∈ mChildren f -> state c = RUNNING ->
  exists k, (k <= 2 * length (mChildren f))%nat /\ turn k (root s) i c.
Proof.
  intros Hs%Reachable_ok Ek Hin Hc. pose proof (world_root _ Hs) as Hw.
  assert (Hst : state (root s) = RUNNING).
  { apply list_elem_of_lookup in Hin as [j Hj].
    apply (running_above [j] (root s) c (root_WF _ Hw)); [|done]. cbn. rewrite Ek. cbn.
    by rewrite Hj. }
  destruct (turn_comes (length (ahead f)) (root s) f i c Hw Hst Ek (Nat.le_refl _) Hin Hc)
    as (k & Hk & Hturn).
  exists k. split; [|done]. unfold ahead in Hk. rewrite length_drop in Hk. lia.
Qed.

(** A batch that succeeds is complete.  When a crank makes a running [BatchWork]
    succeed, all its children succeeded, none is left in [mBatch], and its iterator has no
    more names to yield. *)
Theorem batch_success_is_complete (w : Work) (f : WorkFields Work) m it (w' : Work) :
  WF w -> kind w = KWork f -> subclass f = BatchWork m it -> state w = RUNNING ->
  crankWork w = inr w' -> state w' = SUCCESS ->
  (forall c, c ∈ (mChildren f).*2 -> state c = SUCCESS) /\
  exists f' it', kind w' = KWork f' /\ subclass f' = BatchWork ∅ it' /\ remaining it' = [].
Proof. apply batch_crank. Qed.

(** C36: a wake-up during the retry delay is not ignored.  The guard of [wakeUp] sees only
    the state WAITING, which a work keeps while its retry timer runs: the work runs with
    the timer armed and its retry uncounted, and the timer's handler then fails its
    assertion. *)
Theorem wakeUp_interrupts_retry (w : Work) (cb : Callback) :
  WF w -> retrying (base w) = true ->
  exists w' cbs, wakeUp cb w = inr (w', cbs) /\ state w' = RUNNING /\
    mRetries (base w') = mRetries (base w) /\ mRetryTimer (base w') = true /\
    retryTimerFired w' =
      inl (AssertFailure "retry timer handler: WAITING, ABORTED or ABORTING").
Proof.
  destruct w as [b k]. intros HW Hr. cbn in Hr. unfold retrying in Hr.
  apply andb_true_iff in Hr as [Hst Ht]. apply bool_decide_eq_true in Hst.
  exists (MkWork (awake b) k), [cb; mNotifyCallback b]. split_and!; try done.
  unfold wakeUp, state. cbn [base]. rewrite decide_True by done.
  rewrite setState_plain; [done|rewrite Hst; allowed|by do 3 right; rewrite Hst].
Qed.

(** C37: a [ConditionalWork] whose condition has held runs once.  [onReset] does not restore
    the condition that [onRun] dropped when it held, so that a finished one, started again
    by a [WorkSequence] that retries, throws at its first crank. *)
Theorem conditional_runs_once (b : BasicWork) (f : ConditionalFields Work) (cb : Callback) :
  WF (MkWork b (KConditional f)) -> isDone (MkWork b (KConditional f)) = true ->
  mCondition f = None ->
  exists w', startWork cb (MkWork b (KConditional f)) = inr w' /\
    crankWork w' = inl (Throw "std::bad_function_call").
Proof.
  intros HW Hd Hc. apply WF_inv in HW as (Hb & _ & _).
  unfold isDone, state in Hd. cbn in Hd.
  assert (Ht : mRetryTimer b = false).
  { apply not_true_is_false. intros Ht. destruct (base_retry _ Hb Ht) as [E|E]; by rewrite E in Hd. }
  set (b' := setMState RUNNING (setRetries 0 (setRetryTimer false
    (setNotifyCallback cb (setMState PENDING b))))).
  exists (MkWork b' (KConditional (ConditionalWork_onReset f))). split.
  - unfold startWork, state. cbn [base].
    rewrite decide_False by (by intros E; rewrite E in Hd).
    rewrite setState_plain; [|destruct (mState b); try done; allowed|by right; right; left].
    set (b0 := setNotifyCallback cb (setMState PENDING b)). cbn -[setState].
    change (onBase (setNotifyCallback cb) _) with (MkWork b0 (KConditional f)).
    rewrite (setState_running b0 (KConditional f) (KConditional (ConditionalWork_onReset f)));
      [done|done|]. unfold reset. cbn. by rewrite Ht.
  - unfold crankWork. rewrite height_subs. rewrite crankFuel_running by done.
    unfold onRun, ConditionalWork_onRun. cbn. by rewrite Hc.
Qed.

End Properties.

(** ** The properties on the sample implementers *)
Module SampleRun.
Import Sample.

Definition sequence : Work :=
  newWorkSequence "seq" [newLeaf "a" RETRY_NEVER 2;
                         newConditionalWork "c" 1 (newLeaf "b" RETRY_NEVER 0)] RETRY_NEVER true.
Definition batch : Work := newBatchWork "batch" 3.
Definition failing : Work := newLeaf "f" RETRY_ONCE 100.

Lemma sequence_fresh : Fresh sequence.
Proof.
  apply Fresh_sequence; [|unfold RETRY_NEVER; lia]. intros w [->| ->%list_elem_of_singleton]%elem_of_cons.
  - apply Fresh_leaf.
  - apply Fresh_conditional, Fresh_leaf.
Qed.

Lemma batch_fresh : Fresh batch.
Proof. by apply Fresh_work. Qed.

Lemma failing_fresh : Fresh failing.
Proof. apply Fresh_leaf. Qed.

(** The works are scheduled and run until all of them wait; then more events. *)
Definition waiting : list Event :=
  [ScheduleWork sequence; ScheduleWork batch; ScheduleWork failing; RunPosted 60].
Definition going_on : list Event :=
  [WaitingTimer [0; 0]; RetryTimer [2]; RunPosted 60; WaitingTimer [0; 1]; RunPosted 9].

Ltac legal :=
  repeat (split; [first [exact sequence_fresh | exact batch_fresh | exact failing_fresh | exact I]
                 | intros ? _]); exact I.

Definition result (m : exc World) : World :=
  match m with inr s => s | inl _ => mkWorld failing false 0 end.
Definition start : World := result createScheduler.
Definition after (es : list Event) : World := result (run start es).

Lemma waiting_reachable : Reachable (after waiting).
Proof.
  exists start, waiting. split_and!; [by vm_compute| |by vm_compute]. legal.
Qed.

Lemma work_events_never_fault_witness :
  exists s, run start (waiting ++ going_on) = inr s /\ WF (root s) /\ (posted s <= 1)%nat /\
    (posted s = 1%nat <-> getState (root s) = WORK_RUNNING) /\
    (posted s = 1%nat <-> mScheduled s = true).
Proof.
  apply (work_events_never_fault start (waiting ++ going_on)); [by vm_compute|].
  cbn [app waiting going_on]. legal.
Defined.

Lemma shutdown_completes_witness :
  exists s1, schedulerShutdown (after waiting) = inr s1 /\
    forall es, LegalRun s1 es -> (abortCost (root s1) <= list_sum (cranks <$> es))%nat ->
      exists s2, run s1 es = inr s2 /\ state (root s2) = ABORTED /\ posted s2 = 0%nat.
Proof. apply (shutdown_completes (after waiting)). exact waiting_reachable. Defined.

Lemma woken_work_runs_witness :
  exists s' t', step (after waiting) (RetryTimer [2]) = inr s' /\
    workAt [2] (root s') = Some t' /\ state t' = RUNNING /\
    (forall q r u, [2] = q ++ r -> workAt q (root s') = Some u -> state u = RUNNING) /\
    posted s' = 1%nat.
Proof.
  eapply (woken_work_runs (after waiting) [2] _ (RetryTimer [2])).
  - exact waiting_reachable.
  - vm_compute. reflexivity.
  - right. left. by vm_compute.
Defined.

Lemma unfinished_work_is_awaited_witness :
  posted (after waiting) = 1%nat \/
  exists p t, workAt (1 :: p) (root (after waiting)) = Some t /\ state t = WAITING /\ awaits t.
Proof.
  eapply (unfinished_work_is_awaited (after waiting) _ 1 1).
  - exact waiting_reachable.
  - vm_compute. reflexivity.
  - vm_compute. reflexivity.
  - by vm_compute.
Defined.

Definition twoRunning : list Event := [ScheduleWork sequence; ScheduleWork batch; RunPosted 2].

Lemma twoRunning_reachable : Reachable (after twoRunning).
Proof.
  exists start, twoRunning. split_and!; [by vm_compute| |by vm_compute]. legal.
Qed.

Lemma running_works_take_turns_witness :
  exists (f : WorkFields Work) c k, (k <= 2 * length (mChildren f))%nat /\ turn k (root (after twoRunning)) 1 c.
Proof.
  eexists _, _. eapply (running_works_take_turns (after twoRunning) _ 1).
  - exact twoRunning_reachable.
  - vm_compute. reflexivity.
  - vm_compute. apply list_elem_of_further, list_elem_of_here.
  - by vm_compute.
Defined.

(** A batch whose three works have been run to their end. *)
Definition batchEnds : list Event :=
  [ScheduleWork batch; RunPosted 20; WaitingTimer [0; 0]; WaitingTimer [0; 1]; RunPosted 20;
   WaitingTimer [0; 0]; RunPosted 1].
Definition batchEnd : Work := default failing (workAt [0] (root (after batchEnds))).

Lemma reachable_WF es p w :
  LegalRun start es -> run start es = inr (after es) ->
  workAt p (root (after es)) = Some w -> WF w.
Proof.
  intros Hl E Hw. assert (Hs : WorldOK (after es)).
  { apply Reachable_ok. exists start, es. split_and!; [by vm_compute|done|done]. }
  eapply (workAt_WF p (root (after es))); [apply (root_WF _ (world_root _ Hs))|done].
Qed.

Lemma batch_success_is_complete_witness :
  exists f w', kind batchEnd = KWork f /\ crankWork batchEnd = inr w' /\
    (forall c, c ∈ (mChildren f).*2 -> state c = SUCCESS) /\
    exists f' it', kind w' = KWork f' /\ subclass f' = BatchWork ∅ it' /\ remaining it' = [].
Proof.
  eexists _, _. split; [vm_compute; reflexivity|]. split; [vm_compute; reflexivity|].
  eapply (batch_success_is_complete batchEnd).
  - eapply (reachable_WF batchEnds [0]); [legal|by vm_compute|by vm_compute].
  - vm_compute. reflexivity.
  - vm_compute. reflexivity.
  - by vm_compute.
  - vm_compute. reflexivity.
  - by vm_compute.
Defined.

Definition retryingWork : Work := default sequence (workAt [2] (root (after waiting))).

Lemma wakeUp_interrupts_retry_witness :
  exists w' cbs, wakeUp nullCallback retryingWork = inr (w', cbs) /\ state w' = RUNNING /\
    mRetries (base w') = mRetries (base retryingWork) /\ mRetryTimer (base w') = true /\
    retryTimerFired w' =
      inl (AssertFailure "retry timer handler: WAITING, ABORTED or ABORTING").
Proof.
  apply (wakeUp_interrupts_retry retryingWork nullCallback).
  - eapply (reachable_WF waiting [2]); [legal|by vm_compute|by vm_compute].
  - by vm_compute.
Defined.

(** The sequence has run to its end, its conditional work with it. *)
Definition sequenceEnds : list Event := waiting ++ going_on.

Definition endedBase (name : string) : BasicWork :=
  mkBasicWork name SUCCESS 0 RETRY_NEVER false false (wakeSelfUpCallback nullCallback).
Definition endedFields : ConditionalFields Work :=
  mkConditionalFields None (MkWork (endedBase "b") (KLeaf 0)) true.

Lemma conditional_runs_once_witness :
  workAt [0; 1] (root (after sequenceEnds)) =
    Some (MkWork (endedBase "c") (KConditional endedFields)) /\
  exists w', startWork nullCallback (MkWork (endedBase "c") (KConditional endedFields)) = inr w' /\
    crankWork w' = inl (Throw "std::bad_function_call").
Proof.
  split; [vm_compute; reflexivity|].
  apply (conditional_runs_once (endedBase "c") endedFields nullCallback).
  - apply (reachable_WF sequenceEnds [0; 1]).
    + unfold sequenceEnds. cbn [app waiting going_on]. legal.
    + by vm_compute.
    + by vm_compute.
  - by vm_compute.
  - by vm_compute.
Defined.

End SampleRun.
