(* ===== verification/QuorumTracker.v ===== *)
(** * The transitive quorum

    Model of [src/herder/QuorumTracker.cpp] and of the part of
    [src/herder/PendingEnvelopes.cpp] that keeps a tracker up to date.  An
    [SCPQuorumSetPtr] that is not null is an address with the quorum set stored there, and
    [==] on pointers compares addresses.  The unordered map [mQuorum] is a [gmap], the
    [std::set] of the closest validators a [gset]; references to the values of an unordered
    map stay valid when others are added, so that [expand] reads the entry of [id] from the
    map each time the code does through its reference [nodeInfo]. *)

From stdpp Require Import base list gmap strings fin_sets.
From S2P Require Import Prelude QuorumSet LocalNode.

Local Open Scope Z_scope.

(** ** Data *)

Record SCPQuorumSetPtr := mkPtr { address : nat; pointee : SCPQuorumSet }.

Record NodeInfo := mkNodeInfo {
  mQuorumSet : option SCPQuorumSetPtr;
  mDistance : Z;
  mClosestValidators : gset NodeID }.

Record QuorumTracker := mkTracker {
  mLocalNodeID : NodeID;
  mQuorum : gmap NodeID NodeInfo }.

Definition newQuorumTracker (localNodeID : NodeID) : QuorumTracker := mkTracker localNodeID ∅.

Definition setQuorumSet (p : option SCPQuorumSetPtr) (i : NodeInfo) : NodeInfo :=
  mkNodeInfo p (mDistance i) (mClosestValidators i).
Definition setDistance (d : Z) (i : NodeInfo) : NodeInfo :=
  mkNodeInfo (mQuorumSet i) d (mClosestValidators i).
Definition setClosest (c : gset NodeID) (i : NodeInfo) : NodeInfo :=
  mkNodeInfo (mQuorumSet i) (mDistance i) c.

(** ** Operations *)

Definition isNodeDefinitelyInQuorum (id : NodeID) (t : QuorumTracker) : bool :=
  bool_decide (is_Some (mQuorum t !! id)).

(** The end of the callback of [expand], when the closest validators of [qNode] are to be
    extended or replaced; [qNodeInfo] is its entry. *)
Definition extendClosest (id qNode : NodeID) (newDist : Z) (qNodeInfo : NodeInfo)
    (m : gmap NodeID NodeInfo) : gmap NodeID NodeInfo :=
  let closest :=
    if newDist =? 1 then {[ qNode ]} ∪ mClosestValidators qNodeInfo
    else mClosestValidators qNodeInfo ∪ from_option mClosestValidators ∅ (m !! id) in
  <[qNode := setClosest closest qNodeInfo]> m.

(** The callback [expand] gives to [forAllNodes]. *)
Definition visitMember (id : NodeID) (newDist : Z) (qNode : NodeID)
    (m : gmap NodeID NodeInfo) : exc (bool * gmap NodeID NodeInfo) :=
  match m !! qNode with
  | None => mret (true, extendClosest id qNode newDist (mkNodeInfo None newDist ∅) m)
  | Some qNodeInfo =>
      if mDistance qNodeInfo <? newDist then mret (true, m)
      else if bool_decide (is_Some (mQuorumSet qNodeInfo)) then mret (false, m)
      else if newDist <? mDistance qNodeInfo then
        mret (true, extendClosest id qNode newDist (setDistance newDist (setClosest ∅ qNodeInfo)) m)
      else
        do* assertOrThrow (newDist =? mDistance qNodeInfo) "newDist == qNodeInfo.mDistance" in
        mret (true, extendClosest id qNode newDist qNodeInfo m)
  end.

(** A callback that may throw, for [forAllNodes]: an exception ends the walk. *)
Definition throwing {S} (proc : NodeID -> S -> exc (bool * S)) (n : NodeID) (s : exc S)
    : bool * exc S :=
  match s with
  | inl f => (false, inl f)
  | inr s =>
      match proc n s with
      | inl f => (false, inl f)
      | inr (go, s') => (go, inr s')
      end
  end.

Definition ptrEq (p q : SCPQuorumSetPtr) : bool := (address p =? address q)%nat.

Definition expand (id : NodeID) (qSet : option SCPQuorumSetPtr) (t : QuorumTracker)
    : exc (bool * QuorumTracker) :=
  match qSet with
  | None => exc_throw (Throw "qSet")
  | Some qSet =>
      match mQuorum t !! id with
      | None => mret (false, t)
      | Some nodeInfo =>
          match mQuorumSet nodeInfo with
          | Some old => mret (ptrEq old qSet, t)
          | None =>
              let newDist := mDistance nodeInfo + 1 in
              let m := <[id := setQuorumSet (Some qSet) nodeInfo]> (mQuorum t) in
              let '(ok, r) := forAllNodes (throwing (visitMember id newDist)) (pointee qSet) (inr m) in
              let* m := r in
              mret (ok, mkTracker (mLocalNodeID t) m)
          end
      end
  end.

Definition pushMembers (qSet : SCPQuorumSet) (backlog : list NodeID) : list NodeID :=
  snd (forAllNodes (fun id backlog => (true, backlog ++ [id])) qSet backlog).

(** The loop of [rebuild]; each iteration takes one unit of fuel. *)
Fixpoint rebuildLoop (fuel : nat) (lookup : NodeID -> option SCPQuorumSetPtr)
    (backlog : list NodeID) (t : QuorumTracker) : exc QuorumTracker :=
  match backlog with
  | [] => mret t
  | node :: _ =>
      match fuel with
      | O => exc_throw OutOfFuel
      | S fuel =>
          match mQuorum t !! node with
          | None => exc_throw (Throw "Invalid state while rebuilding quorum state: node not in quorum map")
          | Some info =>
              match mQuorumSet info, lookup node with
              | None, Some qSet =>
                  let backlog := pushMembers (pointee qSet) backlog in
                  let* '(success, t) := expand node (Some qSet) t in
                  if success : bool then rebuildLoop fuel lookup (tail backlog) t
                  else exc_throw (Throw "Invalid state while rebuilding quorum state: expand failed")
              | _, _ => rebuildLoop fuel lookup (tail backlog) t
              end
          end
      end
  end.

Definition rebuild (fuel : nat) (lookup : NodeID -> option SCPQuorumSetPtr) (t : QuorumTracker)
    : exc QuorumTracker :=
  let m := <[mLocalNodeID t := mkNodeInfo None 0 ∅]> ∅ in
  rebuildLoop fuel lookup [mLocalNodeID t] (mkTracker (mLocalNodeID t) m).

Definition findClosestValidators (nodeOutsideQset : NodeID) (t : QuorumTracker) : exc (gset NodeID) :=
  do* assertOrThrow (isNodeDefinitelyInQuorum nodeOutsideQset t)
    "isNodeDefinitelyInQuorum(nodeOutsideQset)" in
  mret (from_option mClosestValidators ∅ (mQuorum t !! nodeOutsideQset)).

(** ** The tracker of the pending envelopes *)

(** Where a quorum set can be found: the node's own, the latest message of the node, the
    database; [getQSet] finds a quorum set by its hash. *)
Record Sources := mkSources {
  localQSetHash : Z;
  companionHashOfLatestMessage : NodeID -> option Z;
  getNodeQuorumSet : NodeID -> option Z;
  getQSet : Z -> option SCPQuorumSetPtr }.

(** The function [rebuildQuorumTrackerState] rebuilds with. *)
Definition lookupQSet (src : Sources) (localNodeID id : NodeID) : option SCPQuorumSetPtr :=
  if id =? localNodeID then getQSet src (localQSetHash src)
  else
    match companionHashOfLatestMessage src id ≫= getQSet src with
    | Some res => Some res
    | None => getNodeQuorumSet src id ≫= getQSet src
    end.

Record Pending := mkPending { mQuorumTracker : QuorumTracker; mRebuildQuorum : bool }.

Definition newPending (localNodeID : NodeID) : Pending := mkPending (newQuorumTracker localNodeID) true.

Definition forceRebuildQuorum (s : Pending) : Pending := mkPending (mQuorumTracker s) true.

Definition rebuildQuorumTrackerState (fuel : nat) (src : Sources) (s : Pending) : exc Pending :=
  let t := mQuorumTracker s in
  let* t := rebuild fuel (lookupQSet src (mLocalNodeID t)) t in
  mret (mkPending t (mRebuildQuorum s)).

(** [PendingEnvelopes::isNodeDefinitelyInQuorum]. *)
Definition askInQuorum (fuel : nat) (src : Sources) (node : NodeID) (s : Pending)
    : exc (bool * Pending) :=
  let* s :=
    if mRebuildQuorum s then
      let* s := rebuildQuorumTrackerState fuel src s in mret (mkPending (mQuorumTracker s) false)
    else mret s in
  mret (isNodeDefinitelyInQuorum node (mQuorumTracker s), s).

(** [envelopeProcessed] of a statement of [id] whose quorum set has the hash [h]. *)
Definition envelopeProcessed (src : Sources) (id : NodeID) (h : Z) (s : Pending) : exc Pending :=
  let* '(ok, t) := expand id (getQSet src h) (mQuorumTracker s) in
  mret (mkPending t (if ok : bool then mRebuildQuorum s else true)).

(** ** The graph of the quorum sets *)

(** [edge look a b]: [b] is in the quorum set of [a]. *)
Definition edge (look : NodeID -> option SCPQuorumSetPtr) (a b : NodeID) : Prop :=
  exists p, look a = Some p /\ b ∈ qset_nodes (pointee p).

Inductive path (look : NodeID -> option SCPQuorumSetPtr) (a : NodeID) : nat -> NodeID -> Prop :=
  | path_nil : path look a 0 a
  | path_snoc k b c : path look a k b -> edge look b c -> path look a (S k) c.

Definition shortest (look : NodeID -> option SCPQuorumSetPtr) (a : NodeID) (k : nat) (b : NodeID) : Prop :=
  path look a k b /\ forall j, path look a j b -> (k <= j)%nat.

(** [v] is in the quorum set of [a], and [b] is [k - 1] steps further. *)
Definition closestVia (look : NodeID -> option SCPQuorumSetPtr) (a v : NodeID) (k : nat) (b : NodeID) : Prop :=
  exists j, k = S j /\ edge look a v /\ path look v j b.

(** What the comments of [NodeInfo] promise, of the entry of [n]. *)
Record Entry (look : NodeID -> option SCPQuorumSetPtr) (a n : NodeID) (i : NodeInfo) : Prop := mkEntry {
  entry_qset : mQuorumSet i = look n;
  entry_closest : exists k, mDistance i = Z.of_nat k /\ shortest look a k n /\
    forall v, v ∈ mClosestValidators i <-> closestVia look a v k n }.

(** [t] is the transitive quorum of the local node in the graph of [look]. *)
Definition Tracks (look : NodeID -> option SCPQuorumSetPtr) (t : QuorumTracker) : Prop :=
  forall n,
    match mQuorum t !! n with
    | Some i => Entry look (mLocalNodeID t) n i
    | None => forall k, ~ path look (mLocalNodeID t) k n
    end.

(** ** Walks *)

Lemma forAllList_app {S} (proc : NodeID -> S -> bool * S) l l' s :
  forAllList proc (l ++ l') s =
    let '(go, s') := forAllList proc l s in
    if go then forAllList proc l' s' else (false, s').
Proof.
  revert s. induction l as [|n l IH]; intros s; cbn; [by destruct forAllList|].
  destruct (proc n s) as [[] s']; [apply IH|done].
Qed.

Lemma forAllNodes_list {S} (proc : NodeID -> S -> bool * S) q s :
  forAllNodes proc q s = forAllList proc (qset_nodes q) s.
Proof.
  revert s. induction q as [t v i IH] using qset_ind'. intros s.
  cbn [forAllNodes qset_nodes]. rewrite forAllList_app.
  destruct (forAllList proc v s) as [[] s0]; [|done]. clear s. revert s0.
  induction IH as [|q l Hq _ IHl]; intros s; cbn; [done|].
  rewrite forAllList_app, Hq. destruct forAllList as [[] s']; [apply IHl|done].
Qed.

Lemma pushMembers_eq q l : pushMembers q l = l ++ qset_nodes q.
Proof.
  unfold pushMembers. rewrite forAllNodes_list. generalize (qset_nodes q) as l'. intros l'.
  revert l. induction l' as [|n l' IH]; intros l; cbn; [by rewrite app_nil_r|].
  by rewrite IH, <-app_assoc.
Qed.

(** ** One visit of a member

    [visited d c o] is the entry after a visit at distance [d] through a node whose closest
    validators are [c], [None] when the visit makes [expand] fail. *)

Definition visited (d : Z) (c : gset NodeID) (o : option NodeInfo) : option NodeInfo :=
  match o with
  | None => Some (mkNodeInfo None d c)
  | Some i =>
      if mDistance i <? d then Some i
      else match mQuorumSet i with
           | Some _ => None
           | None => Some (mkNodeInfo None d (if d <? mDistance i then c else c ∪ mClosestValidators i))
           end
  end.

Definition through (d : Z) (c : gset NodeID) (n : NodeID) : gset NodeID :=
  if d =? 1 then {[ n ]} else c.

Lemma visitMember_eq id d n m i :
  m !! id = Some i -> mDistance i < d ->
  visitMember id d n m =
    inr (match visited d (through d (mClosestValidators i) n) (m !! n) with
         | Some e => (true, <[n := e]> m)
         | None => (false, m)
         end).
Proof.
  intros Hid Hd. unfold visitMember, visited, extendClosest, through. rewrite Hid. cbn [from_option].
  destruct (m !! n) as [[q dn c]|] eqn:En; cbn.
  - destruct (Z.ltb_spec dn d); [by rewrite insert_id|].
    destruct q as [q|]; cbn; [done|].
    destruct (Z.ltb_spec d dn); cbn.
    + destruct (d =? 1); do 4 f_equal; unfold setClosest; cbn; f_equal; set_solver.
    + replace dn with d by lia. rewrite Z.eqb_refl. cbn.
      destruct (d =? 1); do 4 f_equal; unfold setClosest; cbn; f_equal; set_solver.
  - destruct (d =? 1); do 4 f_equal; unfold setClosest; cbn; f_equal; set_solver.
Qed.

Lemma visited_twice d c o e : visited d c o = Some e -> visited d c (Some e) = Some e.
Proof.
  destruct o as [[q dn cn]|]; cbn.
  - destruct (Z.ltb_spec dn d).
    + intros [= <-]. cbn. by rewrite (proj2 (Z.ltb_lt dn d)).
    + destruct q; [done|]. intros [= <-]. cbn. rewrite Z.ltb_irrefl. do 2 f_equal.
      destruct (d <? dn); set_solver.
  - intros [= <-]. cbn. rewrite Z.ltb_irrefl. do 2 f_equal. set_solver.
Qed.

Lemma visited_near d c i : mDistance i < d -> visited d c (Some i) = Some i.
Proof. intros H. cbn. by rewrite (proj2 (Z.ltb_lt _ _) H). Qed.

Lemma walk_spec id d i l m :
  m !! id = Some i -> mDistance i < d ->
  exists go m', forAllList (throwing (visitMember id d)) l (inr m) = (go, inr m') /\
    (go = true -> forall n,
      m' !! n = (if decide (n ∈ l) then visited d (through d (mClosestValidators i) n) (m !! n)
                 else m !! n) /\ (n ∈ l -> is_Some (m' !! n))) /\
    ((forall n, n ∈ l -> is_Some (visited d (through d (mClosestValidators i) n) (m !! n))) -> go = true).
Proof.
  intros Hid Hd. revert m Hid. induction l as [|n l IH]; intros m Hid.
  { exists true, m. split_and!; [done| |done]. intros _ n. rewrite decide_False by apply not_elem_of_nil.
    split; [done|]. by intros ?%not_elem_of_nil. }
  cbn [forAllList]. unfold throwing at 1. rewrite (visitMember_eq id d n m i Hid Hd).
  destruct (visited d _ (m !! n)) as [e|] eqn:Ev.
  2:{ exists false, m. split_and!; [done|done|]. intros H. destruct (H n) as [? E]; [by left|].
      congruence. }
  destruct (IH (<[n := e]> m)) as (go & m' & Ew & Hs & Hg).
  { destruct (decide (n = id)) as [->|Hn]; [|by rewrite lookup_insert_ne].
    rewrite Hid, visited_near in Ev by done. by rewrite lookup_insert_eq. }
  exists go, m'. split_and!; [done| |].
  - intros Hgo x. specialize (Hs Hgo x) as [Hx Hsome]. destruct (decide (x = n)) as [->|Hxn].
    + rewrite lookup_insert_eq in Hx. rewrite (decide_True (P := n ∈ n :: l)) by by left.
      assert (m' !! n = Some e) as ->.
      { rewrite Hx. case_decide; [by eapply visited_twice|done]. }
      by rewrite Ev.
    + rewrite lookup_insert_ne in Hx by done. split.
      * rewrite Hx. destruct (decide (x ∈ l)); [rewrite (decide_True (P := x ∈ n :: l)) by by right|
          rewrite (decide_False (P := x ∈ n :: l)) by (by intros [?|?]%elem_of_cons)]; done.
      * intros [?|?]%elem_of_cons; [done|auto].
  - intros H. apply Hg. intros x Hx. destruct (decide (x = n)) as [->|Hxn].
    + rewrite lookup_insert_eq. erewrite visited_twice; eauto.
    + rewrite lookup_insert_ne by done. apply H. by right.
Qed.

(** [expand] of a node that has no quorum set yet. *)
Lemma expand_spec t id p i :
  mQuorum t !! id = Some i -> mQuorumSet i = None ->
  let d := mDistance i + 1 in
  let m := <[id := setQuorumSet (Some p) i]> (mQuorum t) in
  let entry n := visited d (through d (mClosestValidators i) n) (m !! n) in
  exists go m', expand id (Some p) t = inr (go, mkTracker (mLocalNodeID t) m') /\
    (go = true -> forall n,
      m' !! n = (if decide (n ∈ qset_nodes (pointee p)) then entry n else m !! n) /\
      (n ∈ qset_nodes (pointee p) -> is_Some (m' !! n))) /\
    ((forall n, n ∈ qset_nodes (pointee p) -> is_Some (entry n)) -> go = true).
Proof.
  intros Hid Hq d m entry.
  destruct (walk_spec id d (setQuorumSet (Some p) i) (qset_nodes (pointee p)) m)
    as (go & m' & Ew & Hs & Hg); [apply lookup_insert_eq|cbn; lia|].
  exists go, m'. split_and!; [|done|done].
  unfold expand. rewrite Hid, Hq. fold d m. by rewrite forAllNodes_list, Ew.
Qed.

(** ** Paths *)

Lemma path_cons look a v j n : edge look a v -> path look v j n -> path look a (S j) n.
Proof.
  intros He Hp. induction Hp as [|k b c _ IH Hbc]; [|by econstructor].
  apply (path_snoc look a 0 a v); [constructor|done].
Qed.

Lemma path_zero look a n : path look a 0 n -> n = a.
Proof. by inversion 1. Qed.

Lemma path_agree look look' a j n :
  (forall k b, path look a k b -> look' b = look b) -> path look a j n -> path look' a j n.
Proof.
  intros H Hp. induction Hp as [|k b c Hb IH (p & Ep & Hc)]; [constructor|].
  apply (path_snoc look' a k b c); [done|]. exists p. by rewrite (H k b Hb).
Qed.

Lemma shortest_unique look a j k n : shortest look a j n -> shortest look a k n -> j = k.
Proof. intros [Hj Hjm] [Hk Hkm]. specialize (Hjm k Hk). specialize (Hkm j Hj). lia. Qed.

Lemma tracked_path look t j n :
  Tracks look t -> path look (mLocalNodeID t) j n ->
  exists i k, mQuorum t !! n = Some i /\ mDistance i = Z.of_nat k /\ (k <= j)%nat.
Proof.
  intros HT Hp. specialize (HT n). destruct (mQuorum t !! n) as [i|]; [|by destruct (HT j)].
  destruct HT as [_ (k & Hk & [_ Hm] & _)]. exists i, k. auto.
Qed.

(** Only the quorum sets of the tracked nodes matter. *)
Lemma Tracks_agree look look' t :
  Tracks look t -> (forall n, is_Some (mQuorum t !! n) -> look' n = look n) -> Tracks look' t.
Proof.
  intros HT Hl.
  assert (Hp : forall j b, path look (mLocalNodeID t) j b -> look' b = look b).
  { intros j b Hb. apply Hl. destruct (tracked_path _ _ _ _ HT Hb) as (i & ? & -> & _). eauto. }
  assert (Hp' : forall j b, path look' (mLocalNodeID t) j b -> path look (mLocalNodeID t) j b).
  { intros j b Hb. induction Hb as [|k b c _ IH (p & Ep & Hc)]; [constructor|].
    apply (path_snoc look _ k b c); [done|]. exists p. by rewrite <-(Hp k b IH). }
  assert (Hpp : forall j b, path look' (mLocalNodeID t) j b <-> path look (mLocalNodeID t) j b).
  { intros j b. split; [apply Hp'|by apply path_agree]. }
  assert (Hv : forall v k b, closestVia look (mLocalNodeID t) v k b <-> closestVia look' (mLocalNodeID t) v k b).
  { intros v k b. split; intros (j & -> & He & Hb).
    - assert (Hv : forall k c, path look v k c -> path look (mLocalNodeID t) (S k) c).
      { intros k c. by apply path_cons. }
      exists j. split_and!; [done| |].
      + destruct He as (p & Ep & Hm). exists p. by rewrite (Hp 0%nat _ (path_nil _ _)).
      + apply (path_agree look); [|done]. intros k c Hc. apply (Hp (S k)). auto.
    - assert (Hv : forall k c, path look' v k c -> path look' (mLocalNodeID t) (S k) c).
      { intros k c. by apply path_cons. }
      exists j. split_and!; [done| |].
      + destruct He as (p & Ep & Hm). exists p. by rewrite <-(Hp 0%nat _ (path_nil _ _)).
      + apply (path_agree look'); [|done]. intros k c Hc. symmetry. apply (Hp (S k)). auto. }
  intros n. specialize (HT n). specialize (Hl n). destruct (mQuorum t !! n) as [i|].
  - destruct HT as [Hq (k & Hk & [Hs Hm] & Hc)]. split; [rewrite Hq; symmetry; eauto|].
    exists k. split_and!; [done| |intros v; by rewrite Hc].
    split; [by apply Hpp|]. intros j ?%Hpp. auto.
  - intros k ?%Hpp. by apply (HT k).
Qed.

(** The graph determines the tracker. *)
Lemma Tracks_unique look t t' :
  mLocalNodeID t = mLocalNodeID t' -> Tracks look t -> Tracks look t' -> t = t'.
Proof.
  destruct t as [a m], t' as [a' m']. cbn. intros <- HT HT'. f_equal. apply map_eq. intros n.
  specialize (HT n). specialize (HT' n). cbn in *.
  destruct (m !! n) as [[q d c]|], (m' !! n) as [[q' d' c']|].
  - destruct HT as [Hq (k & Hk & Hs & Hc)], HT' as [Hq' (k' & Hk' & Hs' & Hc')]. cbn in *.
    pose proof (shortest_unique _ _ _ _ _ Hs Hs') as <-. do 2 f_equal; [congruence..|].
    apply set_eq. intros v. by rewrite Hc, Hc'.
  - destruct HT as [_ (k & _ & [Hs _] & _)]. by destruct (HT' k).
  - destruct HT' as [_ (k & _ & [Hs _] & _)]. by destruct (HT k).
  - done.
Qed.

(** ** Expansion keeps the promises of the entries *)

(** The quorum sets the tracker itself holds. *)
Definition known (t : QuorumTracker) (n : NodeID) : option SCPQuorumSetPtr :=
  mQuorum t !! n ≫= mQuorumSet.

Definition Exact (t : QuorumTracker) : Prop := Tracks (known t) t.

Lemma known_edge t b c : edge (known t) b c -> exists i p,
  mQuorum t !! b = Some i /\ mQuorumSet i = Some p /\ c ∈ qset_nodes (pointee p).
Proof.
  intros (p & Ep & Hc). unfold known in Ep. destruct (mQuorum t !! b) as [i|]; [|done]. by exists i, p.
Qed.

Lemma Tracks_Exact look t : Tracks look t -> Exact t.
Proof.
  intros HT. apply (Tracks_agree look); [done|]. intros n [i Hi]. specialize (HT n).
  unfold known. rewrite Hi in *. cbn. apply HT.
Qed.

Section Expansion.
Context (t t' : QuorumTracker) (id : NodeID) (p : SCPQuorumSetPtr) (i : NodeInfo).
Context (HT : Exact t) (Hid : mQuorum t !! id = Some i) (Hnone : mQuorumSet i = None)
  (Hex : expand id (Some p) t = inr (true, t')).

Let members := qset_nodes (pointee p).
Let d := mDistance i + 1.
Let G := known t.

Lemma expansion_local : mLocalNodeID t' = mLocalNodeID t.
Proof using Hex Hid Hnone.
  destruct (expand_spec t id p i Hid Hnone) as (go & m' & E & _). rewrite Hex in E.
  by injection E as _ ->.
Qed.

(** The entries after the expansion: that of [id] has the quorum set, those of members
    have been visited, the others are as before. *)
Lemma expansion_entry n :
  mQuorum t' !! n =
    if decide (n = id) then Some (setQuorumSet (Some p) i)
    else if decide (n ∈ members) then visited d (through d (mClosestValidators i) n) (mQuorum t !! n)
    else mQuorum t !! n.
Proof using Hex Hid Hnone.
  destruct (expand_spec t id p i Hid Hnone) as (go & m' & E & Hs & _). rewrite Hex in E.
  injection E as <- ->. cbn [mQuorum]. destruct (Hs eq_refl n) as [-> _].
  destruct (decide (n = id)) as [->|Hn].
  - rewrite lookup_insert_eq, visited_near by (cbn; lia). by case_decide.
  - by rewrite lookup_insert_ne.
Qed.

Lemma expansion_member n : n ∈ members -> is_Some (mQuorum t' !! n).
Proof using Hex Hid Hnone.
  destruct (expand_spec t id p i Hid Hnone) as (go & m' & E & Hs & _). rewrite Hex in E.
  injection E as <- ->. by destruct (Hs eq_refl n).
Qed.

(** An entry with a quorum set does not change. *)
Lemma expansion_expanded n e :
  mQuorum t !! n = Some e -> is_Some (mQuorumSet e) -> mQuorum t' !! n = Some e.
Proof using Hex Hid Hnone.
  intros Hn [q Hq]. pose proof (expansion_entry n) as E.
  rewrite decide_False in E by (intros ->; congruence). destruct (decide (n ∈ members)) as [Hm|Hm].
  - destruct (expansion_member n Hm) as [e' He']. rewrite Hn in E. rewrite E in *. cbn in *.
    destruct (mDistance e <? d); [done|]. by rewrite Hq in He'.
  - by rewrite E.
Qed.

(** How an entry can change. *)
Lemma expansion_changes n e' :
  mQuorum t' !! n = Some e' ->
  (exists e, mQuorum t !! n = Some e /\ mDistance e' = mDistance e /\
     (mClosestValidators e' = mClosestValidators e \/
      n ∈ members /\ mDistance e' = d /\
      mClosestValidators e' = through d (mClosestValidators i) n ∪ mClosestValidators e)) \/
  (n ∈ members /\ mDistance e' = d /\ mClosestValidators e' = through d (mClosestValidators i) n /\
   forall e, mQuorum t !! n = Some e -> d < mDistance e).
Proof using Hex Hid Hnone.
  rewrite expansion_entry. destruct (decide (n = id)) as [->|Hn].
  { intros [= <-]. left. exists i. auto. }
  destruct (decide (n ∈ members)) as [Hm|Hm]; [|intros ->; left; exists e'; auto].
  unfold visited. destruct (mQuorum t !! n) as [[q dn cn]|]; cbn.
  - destruct (Z.ltb_spec dn d); [intros [= <-]; left; eexists; split_and!; eauto|].
    destruct q; [done|]. intros [= <-]. cbn. destruct (Z.ltb_spec d dn).
    + right. split_and!; try done. intros e [= <-]. done.
    + left. eexists. split; [done|]. cbn. split; [lia|]. right. auto.
  - intros [= <-]. right. by split_and!.
Qed.

(** A tracked member is not left further than [d]. *)
Lemma expansion_near n : n ∈ members -> exists e', mQuorum t' !! n = Some e' /\ mDistance e' <= d.
Proof using Hex Hid Hnone.
  intros Hm. destruct (expansion_member n Hm) as [e' He']. exists e'. split; [done|].
  rewrite expansion_entry in He'. destruct (decide (n = id)) as [->|Hn].
  { injection He' as <-. cbn. lia. }
  rewrite decide_True in He' by done. unfold visited in He'. destruct (mQuorum t !! n) as [e|].
  - destruct (Z.ltb_spec (mDistance e) d); [injection He' as <-; lia|].
    destruct (mQuorumSet e); [done|]. injection He' as <-. cbn. lia.
  - injection He' as <-. cbn. lia.
Qed.

Lemma expansion_known n : known t' n = if decide (n = id) then Some p else known t n.
Proof using Hex Hid Hnone.
  unfold known. rewrite expansion_entry. destruct (decide (n = id)); [done|].
  case_decide; [|done]. destruct (expansion_member n) as [e' He']; [done|].
  rewrite expansion_entry, decide_False, decide_True in He' by done.
  unfold visited in *. destruct (mQuorum t !! n) as [[q dn cn]|]; [|done]. cbn in *.
  destruct (dn <? d); [done|]. by destruct q.
Qed.

Lemma expansion_edge b c :
  edge (known t') b c <-> edge (known t) b c \/ (b = id /\ c ∈ members).
Proof using Hex Hid Hnone.
  assert (Hk : known t id = None) by (unfold known; by rewrite Hid).
  unfold edge. setoid_rewrite expansion_known. destruct (decide (b = id)) as [->|Hb].
  - rewrite Hk. split; [intros (q & [= <-] & ?); auto|intros [(? & ? & _)|[_ ?]]; [done|eauto]].
  - split; [auto|intros [?|[? _]]; [done|done]].
Qed.

Lemma expansion_path a j n : path (known t) a j n -> path (known t') a j n.
Proof using Hex Hid Hnone.
  intros Hp. induction Hp; [constructor|]. econstructor; [done|]. apply expansion_edge. auto.
Qed.

(** The entry of a tracked node in the old graph. *)
Lemma exact_entry n e : mQuorum t !! n = Some e ->
  exists k, mDistance e = Z.of_nat k /\ shortest (known t) (mLocalNodeID t) k n /\
    forall v, v ∈ mClosestValidators e <-> closestVia (known t) (mLocalNodeID t) v k n.
Proof using HT. intros Hn. specialize (HT n). rewrite Hn in HT. by destruct HT as [_ ?]. Qed.

(** A step of the old graph leaves from an entry that has not changed. *)
Lemma old_step b c : edge (known t) b c ->
  exists e ec, mQuorum t !! b = Some e /\ mQuorum t' !! b = Some e /\
    mQuorum t !! c = Some ec /\ mDistance ec <= mDistance e + 1.
Proof using HT Hex Hid Hnone.
  intros He. destruct (known_edge t b c He) as (e & q & Hb & Hq & Hc).
  destruct (exact_entry b e Hb) as (k & Hk & [Hp _] & _).
  destruct (tracked_path (known t) t (S k) c HT) as (ec & kc & Hec & Hkc & Hle); [by econstructor|].
  exists e, ec. split_and!; [done|by apply expansion_expanded|done|lia].
Qed.

Lemma expansion_closer n e : mQuorum t !! n = Some e ->
  exists e', mQuorum t' !! n = Some e' /\ mDistance e' <= mDistance e.
Proof using Hex Hid Hnone.
  intros Hn. destruct (mQuorum t' !! n) as [e'|] eqn:E.
  - exists e'. split; [done|]. destruct (expansion_changes n e' E) as [(e0 & He0 & -> & _)|(_ & -> & _ & Hlt)].
    + by simplify_eq.
    + specialize (Hlt e Hn). lia.
  - rewrite expansion_entry in E. destruct (decide (n = id)); [done|].
    destruct (decide (n ∈ members)) as [Hm|Hm]; [|congruence].
    destruct (expansion_member n Hm) as [x Hx].
    rewrite expansion_entry, decide_False, decide_True in Hx by done. congruence.
Qed.

(** No path of the new graph is shorter than the distance. *)
Lemma expansion_distance_le j n : path (known t') (mLocalNodeID t) j n ->
  exists e', mQuorum t' !! n = Some e' /\ mDistance e' <= Z.of_nat j.
Proof using HT Hex Hid Hnone.
  intros Hp. induction Hp as [|k b c _ (e' & He' & Hd) Hbc].
  - destruct (tracked_path (known t) t 0 (mLocalNodeID t) HT (path_nil _ _)) as (e & k & He & Hk & Hle).
    destruct (expansion_closer _ e He) as (e' & He' & ?). exists e'. split; [done|lia].
  - apply expansion_edge in Hbc as [Hbc|[-> Hc]].
    + destruct (old_step b c Hbc) as (e & ec & Hb & Hb' & Hc & Hle). simplify_eq.
      destruct (expansion_closer c ec Hc) as (e1 & ? & ?). exists e1. split; [done|lia].
    + destruct (expansion_near c Hc) as (e1 & ? & Hle). exists e1. split; [done|].
      rewrite expansion_entry, decide_True in He' by done. injection He' as <-. cbn in *. lia.
Qed.

Lemma id_path : exists k, mDistance i = Z.of_nat k /\ path (known t') (mLocalNodeID t) k id.
Proof using HT Hex Hid Hnone.
  destruct (exact_entry id i Hid) as (k & Hk & [Hp _] & _). exists k. split; [done|].
  by apply expansion_path.
Qed.

Lemma member_path k n : mDistance i = Z.of_nat k -> n ∈ members ->
  path (known t') (mLocalNodeID t) (S k) n.
Proof using HT Hex Hid Hnone.
  intros Hk Hn. destruct id_path as (k' & Hk' & Hp). assert (k' = k) as -> by lia.
  apply (path_snoc _ _ k id); [done|]. apply expansion_edge. auto.
Qed.

Lemma expansion_shortest n e' : mQuorum t' !! n = Some e' ->
  exists k, mDistance e' = Z.of_nat k /\ shortest (known t') (mLocalNodeID t) k n.
Proof using HT Hex Hid Hnone.
  intros He'.
  assert (Hmin : forall k, mDistance e' = Z.of_nat k -> forall j, path (known t') (mLocalNodeID t) j n -> (k <= j)%nat).
  { intros k Hk j Hj. destruct (expansion_distance_le j n Hj) as (e1 & ? & ?). simplify_eq. lia. }
  destruct (expansion_changes n e' He') as [(e & He & Ed & _)|(Hm & Ed & _)].
  - destruct (exact_entry n e He) as (k & Hk & [Hp _] & _). exists k. rewrite Ed.
    split; [done|]. split; [by apply expansion_path|]. apply Hmin. lia.
  - destruct id_path as (k & Hk & Hp). exists (S k). split; [lia|].
    split; [by apply member_path|]. apply Hmin. lia.
Qed.

(** The closest validators are right. *)
Lemma through_sound k n v : mDistance i = Z.of_nat k -> n ∈ members ->
  v ∈ through d (mClosestValidators i) n -> closestVia (known t') (mLocalNodeID t) v (S k) n.
Proof using HT Hex Hid Hnone.
  intros Hk Hm. unfold through. destruct (exact_entry id i Hid) as (k' & Hk' & [Hp _] & Hc).
  assert (k' = k) as -> by lia. destruct (Z.eqb_spec d 1) as [E|E].
  - intros ->%elem_of_singleton. assert (k = 0%nat) as -> by lia. apply path_zero in Hp as Ea.
    exists 0%nat. split_and!; [done| |constructor]. apply expansion_edge. right. by rewrite <-Ea.
  - intros (j & -> & He & Hj)%Hc. exists (S j). split_and!; [done|apply expansion_edge; auto|].
    apply (path_snoc _ _ j id); [by apply expansion_path|]. apply expansion_edge. auto.
Qed.

Lemma closest_sound n e' k v : mQuorum t' !! n = Some e' -> mDistance e' = Z.of_nat k ->
  v ∈ mClosestValidators e' -> closestVia (known t') (mLocalNodeID t) v k n.
Proof using HT Hex Hid Hnone.
  intros He' Hk Hv.
  assert (Hthrough : n ∈ members -> mDistance e' = d -> v ∈ through d (mClosestValidators i) n ->
    closestVia (known t') (mLocalNodeID t) v k n).
  { intros Hm Ed Ht. destruct id_path as (k0 & Hk0 & _). assert (k = S k0) as -> by lia.
    by apply through_sound. }
  destruct (expansion_changes n e' He') as [(e & He & Ed & Hc)|(Hm & Ed & Hc & _)];
    [|apply Hthrough; [done..|by rewrite <-Hc]].
  assert (Hold : v ∈ mClosestValidators e -> closestVia (known t') (mLocalNodeID t) v k n).
  { destruct (exact_entry n e He) as (k0 & Hk0 & _ & Hc0). assert (k0 = k) as -> by lia.
    intros (j & -> & Hav & Hj)%Hc0. exists j.
    split_and!; [done|apply expansion_edge; auto|by apply expansion_path]. }
  destruct Hc as [Hc|(Hm & Hd & Hc)]; rewrite Hc in Hv; [auto|].
  apply elem_of_union in Hv as [?|?]; auto.
Qed.

Lemma kept_closest n e e' v : mQuorum t !! n = Some e -> mQuorum t' !! n = Some e' ->
  mDistance e' = mDistance e -> v ∈ mClosestValidators e -> v ∈ mClosestValidators e'.
Proof using HT Hex Hid Hnone.
  intros He He' Ed Hv. destruct (expansion_changes n e' He') as [(e0 & He0 & _ & Hc)|(_ & Ed' & _ & Hlt)].
  - simplify_eq. destruct Hc as [->|(_ & _ & ->)]; set_solver.
  - specialize (Hlt e He). lia.
Qed.

Lemma new_closest n e' v : n ∈ members -> mQuorum t' !! n = Some e' -> mDistance e' = d ->
  v ∈ through d (mClosestValidators i) n -> v ∈ mClosestValidators e'.
Proof using HT Hex Hid Hnone.
  intros Hm He' Ed Hv. rewrite expansion_entry in He'. destruct (decide (n = id)) as [->|Hn].
  { injection He' as <-. cbn in *. lia. }
  rewrite decide_True in He' by done. unfold visited in He'. destruct (mQuorum t !! n) as [e|].
  - destruct (Z.ltb_spec (mDistance e) d); [injection He' as <-; lia|].
    destruct (mQuorumSet e); [done|]. injection He' as <-. cbn. destruct (d <? _); set_solver.
  - by injection He' as <-.
Qed.

Lemma closest_complete v j n e' : edge (known t') (mLocalNodeID t) v -> path (known t') v j n ->
  mQuorum t' !! n = Some e' -> mDistance e' = Z.of_nat (S j) -> v ∈ mClosestValidators e'.
Proof using HT Hex Hid Hnone.
  intros Hav Hp. revert e'. induction Hp as [|j b n Hp IH Hbn]; intros e' He' Hd.
  - apply expansion_edge in Hav as [Hav|[Ea Hm]].
    + destruct (old_step _ _ Hav) as (ea & ev & Ha & _ & Hv & Hle).
      destruct (exact_entry _ ea Ha) as (ka & Hka & [_ Hma] & _).
      specialize (Hma 0%nat (path_nil _ _)).
      destruct (expansion_closer v ev Hv) as (e1 & He1 & Hle1). simplify_eq.
      apply (kept_closest v ev e'); [done..|lia|].
      destruct (exact_entry v ev Hv) as (kv & Hkv & _ & Hcv). apply Hcv. exists 0%nat.
      split_and!; [lia|done|constructor].
    + destruct (exact_entry id i Hid) as (k & Hk & [_ Hmi] & _).
      assert (k = 0%nat) as -> by (specialize (Hmi 0%nat); rewrite Ea in Hmi; specialize (Hmi (path_nil _ _)); lia).
      assert (d = 1) as Hd1 by (unfold d; lia).
      apply (new_closest v e'); [done..|lia|]. unfold through. rewrite Hd1. cbn. set_solver.
  - assert (Hab : path (known t') (mLocalNodeID t) (S j) b) by (by eapply path_cons).
    destruct (expansion_distance_le _ b Hab) as (eb & Heb & Hleb).
    destruct (expansion_shortest b eb Heb) as (kb & Hkb & [Hpb _]).
    destruct (expansion_distance_le (S kb) n) as (e1 & He1 & Hle1); [by econstructor|]. simplify_eq.
    assert (Hvb : v ∈ mClosestValidators eb) by (apply IH; [done|lia]).
    apply expansion_edge in Hbn as [Hbn|[-> Hm]].
    + destruct (old_step b n Hbn) as (e0 & en & Hb0 & Hb1 & Hn & Hle). simplify_eq.
      destruct (expansion_closer n en Hn) as (e1 & ? & Hle2). simplify_eq.
      apply (kept_closest n en e'); [done..|lia|].
      destruct (exact_entry b eb Hb0) as (k0 & Hk0 & _ & Hcb).
      destruct (exact_entry n en Hn) as (kn & Hkn & _ & Hcn).
      apply Hcb in Hvb as (j0 & -> & Hav0 & Hp0). apply Hcn. exists (S j0).
      split_and!; [lia|done|by econstructor].
    + assert (eb = setQuorumSet (Some p) i) as ->.
      { rewrite expansion_entry, decide_True in Heb by done. by injection Heb as <-. }
      cbn in *. apply (new_closest n e'); [done..|unfold d; lia|]. unfold through.
      destruct (Z.eqb_spec d 1); [unfold d in *; lia|done].
Qed.

Lemma expansion_exact : Exact t'.
Proof using HT Hex Hid Hnone.
  intros n. rewrite expansion_local. destruct (mQuorum t' !! n) as [e'|] eqn:He'.
  - split; [unfold known; by rewrite He'|]. destruct (expansion_shortest n e' He') as (k & Hk & Hs).
    exists k. split_and!; [done|done|]. intros v. split.
    + by apply closest_sound.
    + intros (j & -> & Hav & Hp). by eapply closest_complete.
  - intros k Hp. destruct (expansion_distance_le k n Hp) as (? & ? & _). congruence.
Qed.

End Expansion.

(** ** The breadth-first traversal *)

Section Rebuild.
Context (lookup : NodeID -> option SCPQuorumSetPtr).

(** The traversal is at distance [d]: [near] is what is left of that level, [far] the part of
    the next that is known.  A node is pending if its quorum set is to be found but is not
    in the tracker yet. *)
Record Level (t : QuorumTracker) (d : Z) (near far : list NodeID) : Prop := mkLevel {
  lv_exact : Exact t;
  lv_known n p : known t n = Some p -> lookup n = Some p;
  lv_tracked n : n ∈ near ++ far -> is_Some (mQuorum t !! n);
  lv_near n e : n ∈ near -> mQuorum t !! n = Some e -> mDistance e <= d;
  lv_pending n e : mQuorum t !! n = Some e -> mQuorumSet e = None -> is_Some (lookup n) ->
    n ∈ near ++ far /\ d <= mDistance e /\ (mDistance e <= d -> n ∈ near);
  lv_bound n e : mQuorum t !! n = Some e -> mDistance e <= d + 1;
  lv_done n e : mQuorum t !! n = Some e -> is_Some (mQuorumSet e) -> mDistance e <= d }.

(** The next level starts. *)
Lemma Level_next t d far : Level t d [] far -> Level t (d + 1) far [].
Proof.
  intros [He Hk Ht _ Hp Hb Hd]. split; try done.
  - intros n Hn. apply Ht. by rewrite app_nil_r in Hn.
  - intros n e _. apply Hb.
  - intros n e Hn Hq Hl. destruct (Hp n e Hn Hq Hl) as (Hf & Hle & Hnear).
    rewrite app_nil_r. split; [done|]. split; [|done].
    destruct (decide (mDistance e <= d)) as [?%Hnear%not_elem_of_nil|]; [done|lia].
  - intros n e Hn. specialize (Hb n e Hn). lia.
  - intros n e Hn Hq. specialize (Hd n e Hn Hq). lia.
Qed.

(** A node that is not pending is dropped from the backlog. *)
Lemma Level_skip t d n near far :
  Level t d (n :: near) far -> known t n <> None \/ lookup n = None -> Level t d near far.
Proof.
  intros [He Hk Ht Hn Hp Hb Hd] Hskip. split; try done.
  - intros x Hx. apply Ht. by right.
  - intros x e Hx. apply Hn. by right.
  - intros x e Hx Hq Hl. destruct (Hp x e Hx Hq Hl) as (Hf & Hle & Hnear).
    assert (x <> n).
    { intros ->. destruct Hskip as [Hs|Hs]; [|rewrite Hs in Hl; by destruct Hl].
      apply Hs. unfold known. by rewrite Hx. }
    split_and!; [|done|].
    + by apply elem_of_cons in Hf as [?|?].
    + intros H0. by apply Hnear, elem_of_cons in H0 as [?|?].
Qed.

Section Visit.
Context (t : QuorumTracker) (d : Z) (id : NodeID) (near far : list NodeID)
  (p : SCPQuorumSetPtr) (i : NodeInfo).
Context (HL : Level t d (id :: near) far) (Hid : mQuorum t !! id = Some i)
  (Hnone : mQuorumSet i = None) (Hl : lookup id = Some p).

Lemma visit_distance : mDistance i = d.
Proof using HL Hid Hnone Hl.
  destruct HL as [_ _ _ Hn Hp _ _]. destruct (Hp id i Hid Hnone) as (_ & Hle & _); [by rewrite Hl|].
  specialize (Hn id i). assert (mDistance i <= d) by (apply Hn; [by left|done]). lia.
Qed.

(** Closer nodes are expanded first, so that no expansion fails. *)
Lemma visit_succeeds : exists t', expand id (Some p) t = inr (true, t').
Proof using HL Hid Hnone Hl.
  destruct (expand_spec t id p i Hid Hnone) as (go & m' & E & _ & Hgo).
  rewrite E. rewrite Hgo; [by eexists|]. intros n Hn. pose proof visit_distance as Hd.
  destruct (decide (n = id)) as [->|Hne].
  { rewrite lookup_insert_eq, visited_near by (cbn; lia). done. }
  rewrite lookup_insert_ne by done. unfold visited. destruct (mQuorum t !! n) as [e|] eqn:En; [|done].
  destruct (Z.ltb_spec (mDistance e) (mDistance i + 1)); [done|].
  destruct (mQuorumSet e) as [q|] eqn:Eq; [|done].
  pose proof (lv_done _ _ _ _ HL n e En) as Hle. rewrite Eq in Hle. specialize (Hle (ex_intro _ q eq_refl)). lia.
Qed.

Lemma visit_entry t' n e' :
  expand id (Some p) t = inr (true, t') -> mQuorum t' !! n = Some e' ->
  (exists e, mQuorum t !! n = Some e /\ mDistance e' = mDistance e) \/
  (mQuorum t !! n = None /\ n ∈ qset_nodes (pointee p) /\ mDistance e' = d + 1).
Proof using HL Hid Hnone Hl.
  intros E He'. destruct (expansion_changes t t' id p i Hid Hnone E n e' He')
    as [(e & He & Hd & _)|(Hm & Hd & _ & Hlt)]; [left; eauto|].
  rewrite visit_distance in *. destruct (mQuorum t !! n) as [e|] eqn:En; [|auto].
  specialize (Hlt e eq_refl). pose proof (lv_bound _ _ _ _ HL n e En). lia.
Qed.

Lemma Level_visit t' :
  expand id (Some p) t = inr (true, t') -> Level t' d near (far ++ qset_nodes (pointee p)).
Proof using HL Hid Hnone Hl.
  intros E. pose proof HL as [He Hk Ht Hn Hp Hb Hd].
  pose proof (expansion_known t t' id p i Hid Hnone E) as Hkn.
  split.
  - by eapply expansion_exact.
  - intros n q. rewrite Hkn. destruct (decide (n = id)) as [->|]; [congruence|apply Hk].
  - intros n Hin. rewrite app_assoc in Hin. apply elem_of_app in Hin as [Hin|Hin].
    + destruct (Ht n) as [e En]; [by right|].
      destruct (expansion_closer t t' id p i Hid Hnone E n e En) as (e' & -> & _). eauto.
    + by eapply expansion_member.
  - intros n e' Hin He'. destruct (visit_entry t' n e' E He') as [(e & En & ->)|(En & _ & _)].
    + apply (Hn n e); [by right|done].
    + destruct (Ht n) as [? ?]; [right; apply elem_of_app; auto|congruence].
  - intros n e' He' Hq Hs.
    assert (n <> id) by (intros ->; specialize (Hkn id); unfold known in Hkn;
      rewrite He', decide_True in Hkn by done; cbn in Hkn; congruence).
    destruct (visit_entry t' n e' E He') as [(e & En & Ed)|(En & Hm & Ed)].
    + specialize (Hkn n). unfold known in Hkn. rewrite He', En, decide_False in Hkn by done.
      cbn in Hkn. destruct (Hp n e En) as (Hf & Hle & Hnear); [congruence|done|]. rewrite Ed.
      split_and!; [|done|].
      * rewrite app_assoc. apply elem_of_app. left. by apply elem_of_cons in Hf as [?|?].
      * intros H'. by apply Hnear, elem_of_cons in H' as [?|?].
    + split_and!; [|lia|lia]. rewrite app_assoc. apply elem_of_app. auto.
  - intros n e' He'. destruct (visit_entry t' n e' E He') as [(e & En & ->)|(_ & _ & ->)]; [eauto|lia].
  - intros n e' He' Hq. destruct (decide (n = id)) as [->|Hne].
    + destruct (visit_entry t' id e' E He') as [(e & En & ->)|(En & _ & _)]; [|congruence].
      simplify_eq. rewrite visit_distance. lia.
    + specialize (Hkn n). rewrite decide_False in Hkn by done. unfold known in Hkn.
      rewrite He' in Hkn. cbn in Hkn. destruct (mQuorum t !! n) as [e|] eqn:En.
      * cbn in Hkn. destruct (visit_entry t' n e' E He') as [(e0 & E0 & ->)|(E0 & _)]; [|congruence].
        rewrite En in E0. injection E0 as <-. apply (Hd n e En). by rewrite <-Hkn.
      * cbn in Hkn. rewrite Hkn in Hq. by destruct Hq.
Qed.

End Visit.

(** ** Termination *)

Definition members (n : NodeID) : nat :=
  match lookup n with Some p => length (qset_nodes (pointee p)) | None => 0 end.

(** The members still to be put in the backlog. *)
Definition unexplored (t : QuorumTracker) (U : list NodeID) : nat :=
  sum_list_with (fun n => if known t n then 0%nat else members n) U.

Lemma unexplored_expand t t' id p U :
  (forall n, known t' n = if decide (n = id) then Some p else known t n) ->
  known t id = None -> id ∈ U -> (unexplored t' U + members id <= unexplored t U)%nat.
Proof.
  intros Hk Hid. assert (Hle : forall U, (unexplored t' U <= unexplored t U)%nat).
  { clear U. induction U as [|n U IH]; cbn; [done|]. rewrite Hk. case_decide; cbn;
    [|destruct (known t n)]; unfold unexplored in IH; lia. }
  induction U as [|n U IH]; [by intros ?%not_elem_of_nil|]. intros [<-|Hin]%elem_of_cons; cbn.
  - rewrite Hk, decide_True, Hid by done. specialize (Hle U). unfold unexplored in Hle. lia.
  - specialize (IH Hin). rewrite Hk. case_decide; unfold unexplored in *; cbn; destruct (known t n); lia.
Qed.

(** [U] holds the local node and the members of the quorum sets of its nodes. *)
Definition closedNodes (a : NodeID) (U : list NodeID) : Prop :=
  a ∈ U /\ forall n c, n ∈ U -> edge lookup n c -> c ∈ U.

Lemma closed_tracked t U n e :
  closedNodes (mLocalNodeID t) U -> Exact t ->
  (forall n p, known t n = Some p -> lookup n = Some p) -> mQuorum t !! n = Some e -> n ∈ U.
Proof.
  intros [Ha Hc] He Hk Hn. specialize (He n). rewrite Hn in He. destruct He as [_ (k & _ & [Hp _] & _)].
  clear Hn e. induction Hp as [|k b c _ IH (p & Ep & Hm)]; [done|].
  apply (Hc b); [done|]. exists p. auto.
Qed.

Lemma Level_done t d : Level t d [] [] -> Tracks lookup t.
Proof.
  intros [He Hk Ht _ Hp _ _]. apply (Tracks_agree (known t)); [done|]. intros n [e En].
  destruct (known t n) as [p|] eqn:E; [auto|]. destruct (lookup n) as [q|] eqn:El; [|done].
  destruct (Hp n e En) as (Hf%not_elem_of_nil & _); [|by rewrite El|done].
  unfold known in E. by rewrite En in E.
Qed.

Lemma rebuildLoop_ok fuel U t d near far :
  Level t d near far -> closedNodes (mLocalNodeID t) U ->
  (length (near ++ far) + unexplored t U <= fuel)%nat ->
  exists t', rebuildLoop fuel lookup (near ++ far) t = inr t' /\
    mLocalNodeID t' = mLocalNodeID t /\ Tracks lookup t'.
Proof.
  revert t d near far. induction fuel as [|fuel IH]; intros t d near far HL HU Hf.
  { assert (near ++ far = []) as E by (apply nil_length_inv; lia). rewrite E.
    apply app_nil in E as [-> ->]. exists t. split_and!; [done..|by eapply Level_done]. }
  (* the front of the backlog is in the current level, or starts the next *)
  assert (exists d near', match near ++ far with [] => Level t d [] [] | n :: l => exists far',
    l = near' ++ far' /\ Level t d (n :: near') far' end) as (d' & near' & HL').
  { destruct near as [|n near]; [|by exists d, near, far].
    cbn [app]. destruct far as [|n far]; [by exists d, []|].
    exists (d + 1), far, []. rewrite app_nil_r. split; [done|]. by apply Level_next. }
  destruct (near ++ far) as [|n l] eqn:El.
  { exists t. split_and!; [done..|by eapply Level_done]. }
  destruct HL' as (far' & -> & HL'). clear HL El. cbn [rebuildLoop].
  destruct (lv_tracked _ _ _ _ HL' n) as [e En]; [by left|]. rewrite En.
  assert (Hskip : known t n <> None \/ lookup n = None ->
    exists t', rebuildLoop fuel lookup (near' ++ far') t = inr t' /\
      mLocalNodeID t' = mLocalNodeID t /\ Tracks lookup t').
  { intros Hs. apply (IH t d'); [by eapply Level_skip|done|cbn in Hf; lia]. }
  assert (Ek : known t n = mQuorumSet e) by (unfold known; by rewrite En).
  destruct (mQuorumSet e) as [q|] eqn:Eq; [apply Hskip; left; congruence|].
  destruct (lookup n) as [p|] eqn:Elk; [|by apply Hskip; right].
  destruct (visit_succeeds t d' n near' far' p e HL' En Eq Elk) as [t' Et].
  rewrite Et, pushMembers_eq. cbn [bnd mbind exc_bind app tail]. rewrite <-app_assoc.
  pose proof (expansion_local t t' n p e En Eq Et) as Hloc. rewrite <-Hloc.
  apply (IH t' d').
  - by eapply Level_visit.
  - by rewrite Hloc.
  - pose proof (unexplored_expand t t' n p U (expansion_known t t' n p e En Eq Et) Ek) as Hu.
    unfold members in Hu. rewrite Elk in Hu.
    assert (n ∈ U) by (eapply closed_tracked; [done|apply HL'|apply HL'|done]).
    specialize (Hu ltac:(done)). rewrite app_assoc, length_app. cbn in Hf. lia.
Qed.

End Rebuild.

Lemma Level_start lookup a :
  Level lookup (mkTracker a (<[a := mkNodeInfo None 0 ∅]> ∅)) 0 [a] [].
Proof.
  set (t := mkTracker a _).
  assert (Hm : forall n e, mQuorum t !! n = Some e -> n = a /\ e = mkNodeInfo None 0 ∅).
  { intros n e. cbn. rewrite lookup_insert_Some, lookup_empty. naive_solver. }
  assert (Hk : forall n, known t n = None).
  { intros n. unfold known. destruct (mQuorum t !! n) as [e|] eqn:E; [|done]. by destruct (Hm n e E) as [_ ->]. }
  assert (He : forall b c, ~ edge (known t) b c) by (intros b c (p & Ep & _); by rewrite Hk in Ep).
  assert (Hp : forall k n, path (known t) a k n -> n = a).
  { intros k n Hp. inversion Hp as [|k' b c _ Hbc]; [done|]. by apply He in Hbc. }
  split; try (intros n e **; destruct (Hm n e) as [-> ->]; [done|cbn; try lia; set_solver]).
  - intros n. destruct (mQuorum t !! n) as [e|] eqn:E.
    + destruct (Hm n e E) as [-> ->]. split; [by rewrite Hk|]. exists 0%nat. split_and!; [done| |].
      * split; [constructor|lia].
      * intros v. split; [set_solver|]. by intros (j & ? & _).
    + cbn. intros k ->%Hp. cbn in E. by rewrite lookup_insert_eq in E.
  - intros n p. by rewrite Hk.
  - intros n ->%list_elem_of_singleton. cbn. rewrite lookup_insert_eq. done.
Qed.

Lemma rebuild_ok fuel lookup U t :
  closedNodes lookup (mLocalNodeID t) U ->
  (1 + sum_list_with (members lookup) U <= fuel)%nat ->
  exists t', rebuild fuel lookup t = inr t' /\ mLocalNodeID t' = mLocalNodeID t /\ Tracks lookup t'.
Proof.
  intros HU Hf. unfold rebuild. set (t0 := mkTracker _ _).
  apply (rebuildLoop_ok lookup fuel U t0 0 [mLocalNodeID t] []); [apply Level_start|done|].
  assert (unexplored lookup t0 U <= sum_list_with (members lookup) U)%nat; [|cbn; lia].
  unfold unexplored. clear. induction U as [|n U IH]; cbn; [done|]. destruct (known t0 n); lia.
Qed.

Lemma expand_ok t id p :
  exists ok t', expand id (Some p) t = inr (ok, t') /\ mLocalNodeID t' = mLocalNodeID t /\
    (Exact t -> ok = true -> Exact t' /\ (forall n, n <> id -> known t' n = known t n) /\
      exists q, known t' id = Some q /\ address q = address p).
Proof.
  destruct (mQuorum t !! id) as [i|] eqn:Hid.
  2:{ exists false, t. unfold expand. by rewrite Hid. }
  destruct (mQuorumSet i) as [old|] eqn:Hq.
  - exists (ptrEq old p), t. unfold expand. rewrite Hid, Hq. split_and!; [done..|].
    intros HT He%Nat.eqb_eq. split_and!; [done..|]. exists old. split; [unfold known; by rewrite Hid|done].
  - destruct (expand_spec t id p i Hid Hq) as (ok & m' & E & _).
    exists ok, (mkTracker (mLocalNodeID t) m'). split_and!; [done..|]. intros HT ->.
    pose proof (expansion_known _ _ id p i Hid Hq E) as Hk. split; [by eapply expansion_exact|]. split.
    + intros n Hn. by rewrite Hk, decide_False.
    + exists p. by rewrite Hk, decide_True.
Qed.

(** ** The tracker between rebuilds *)

Inductive TrackerEvent :=
  | Processed (src : Sources) (id : NodeID) (h : Z)
  | Asked (src : Sources) (node : NodeID)
  | Forced.

Definition trackerStep (fuel : nat) (s : Pending) (e : TrackerEvent) : exc Pending :=
  match e with
  | Processed src id h => envelopeProcessed src id h s
  | Asked src node => let* '(_, s) := askInQuorum fuel src node s in mret s
  | Forced => mret (forceRebuildQuorum s)
  end.

Fixpoint trackerRun (fuel : nat) (s : Pending) (es : list TrackerEvent) : exc Pending :=
  match es with
  | [] => mret s
  | e :: es => let* s := trackerStep fuel s e in trackerRun fuel s es
  end.

(** The nodes that can be reached are finitely many, few enough for [fuel]. *)
Definition reachesFinitely (fuel : nat) (a : NodeID) (src : Sources) : Prop :=
  exists U, closedNodes (lookupQSet src a) a U /\
    (1 + sum_list_with (members (lookupQSet src a)) U <= fuel)%nat.

Definition plausible (fuel : nat) (a : NodeID) (e : TrackerEvent) : Prop :=
  match e with
  | Asked src _ => reachesFinitely fuel a src
  | _ => True
  end.

(** A statement is processed whose quorum set is at hand. *)
Definition qsetKnown (e : TrackerEvent) : Prop :=
  match e with
  | Processed src _ h => is_Some (getQSet src h)
  | _ => True
  end.

Definition Current (a : NodeID) (s : Pending) : Prop :=
  mLocalNodeID (mQuorumTracker s) = a /\ (mRebuildQuorum s = false -> Exact (mQuorumTracker s)).

Lemma ask_ok fuel a src node s :
  Current a s -> reachesFinitely fuel a src ->
  exists b s', askInQuorum fuel src node s = inr (b, s') /\ Current a s' /\ mRebuildQuorum s' = false /\
    (b = true <-> exists k, path (known (mQuorumTracker s')) a k node) /\
    (mRebuildQuorum s = true -> Tracks (lookupQSet src a) (mQuorumTracker s')).
Proof.
  intros [<- Hs] (U & HU & Hf). unfold askInQuorum.
  assert (exists s', (if mRebuildQuorum s then
      let* s := rebuildQuorumTrackerState fuel src s in mret (mkPending (mQuorumTracker s) false)
    else mret s) = inr s' /\ Current (mLocalNodeID (mQuorumTracker s)) s' /\ mRebuildQuorum s' = false /\
    (mRebuildQuorum s = true -> Tracks (lookupQSet src (mLocalNodeID (mQuorumTracker s))) (mQuorumTracker s')))
    as (s' & -> & [Hl Hc] & Hr & Ht).
  { destruct s as [t []]; cbn in *.
    - unfold rebuildQuorumTrackerState. cbn.
      destruct (rebuild_ok fuel _ U t HU Hf) as (t' & -> & Hl & HT). cbn.
      eexists. split_and!; [done| |done|done]. split; [done|]. intros _. by eapply Tracks_Exact.
    - eexists. split_and!; [done| |done|done]. split; [done|auto]. }
  cbn. do 2 eexists. split_and!; [done|by split|done| |done].
  specialize (Hc Hr node). rewrite Hl in Hc. unfold isNodeDefinitelyInQuorum. rewrite bool_decide_eq_true.
  destruct (mQuorum _ !! node) as [i|].
  - destruct Hc as [_ (k & _ & [Hp _] & _)]. split; eauto.
  - split; [by intros [? ?]|]. intros [k Hk]. by destruct (Hc k).
Qed.

(** Between rebuilds the map is either right or marked to be rebuilt. *)
Lemma envelopeProcessed_ok a src id h s :
  Current a s -> is_Some (getQSet src h) ->
  exists s', envelopeProcessed src id h s = inr s' /\ Current a s'.
Proof.
  intros [Hl Hc] [p Hp]. unfold envelopeProcessed. rewrite Hp.
  destruct (expand_ok (mQuorumTracker s) id p) as (ok & t' & -> & Hl' & Ht). cbn.
  eexists. split; [done|]. split; cbn; [congruence|]. destruct ok; [|done]. intros Hr.
  apply Ht; [auto|done].
Qed.

(** A run ends, and throws only in [expand] at a quorum set that is not at hand. *)
Lemma trackerRun_ok fuel a es s :
  Current a s -> Forall (plausible fuel a) es ->
  match trackerRun fuel s es with
  | inr s' => Current a s' /\ Forall qsetKnown es
  | inl f => f = Throw "qSet" /\ ~ Forall qsetKnown es
  end.
Proof.
  intros Hs Hes. revert s Hs. induction Hes as [|e es He _ IH]; intros s Hs; [by split|].
  assert ((qsetKnown e /\ exists s', trackerStep fuel s e = inr s' /\ Current a s') \/
          (~ qsetKnown e /\ trackerStep fuel s e = inl (Throw "qSet"))) as [(Hk & s' & E & Hs')|[Hk E]].
  { destruct e as [src id h|src node|]; cbn in *.
    - destruct (getQSet src h) as [p|] eqn:Ep.
      + left. split; [by eexists|]. apply envelopeProcessed_ok; [done|by rewrite Ep].
      + right. split; [by intros [? ?]|]. unfold envelopeProcessed. by rewrite Ep.
    - left. split; [done|]. destruct (ask_ok fuel a src node s Hs He) as (b & s' & -> & Hs' & _). by exists s'.
    - left. split; [done|]. exists (forceRebuildQuorum s). split; [done|]. by split; [apply Hs|]. }
  - cbn. rewrite E. cbn. specialize (IH s' Hs'). destruct (trackerRun fuel s' es).
    + split; [apply IH|]. intros HF. apply IH. by inversion HF.
    + split; [apply IH|constructor; [done|apply IH]].
  - cbn. rewrite E. cbn. split; [done|]. intros HF. by inversion HF.
Qed.

Lemma newPending_current a : Current a (newPending a).
Proof. by split. Qed.

(** ** Theorems *)

(** C15: [rebuild] computes the transitive quorum.  Whatever quorum sets [lookup] finds, as
    long as finitely many nodes can be reached, it ends without throwing, and the map has
    an entry for exactly the nodes that can be reached from the local node; each has the
    quorum set that was found, the length of a shortest path as its distance, and as its
    closest validators exactly the members of the local quorum set that lie on a shortest
    path. *)
Theorem rebuild_exact fuel lookup U t :
  closedNodes lookup (mLocalNodeID t) U ->
  (1 + sum_list_with (members lookup) U <= fuel)%nat ->
  exists t', rebuild fuel lookup t = inr t' /\ mLocalNodeID t' = mLocalNodeID t /\
    forall n,
      match mQuorum t' !! n with
      | None => forall k, ~ path lookup (mLocalNodeID t) k n
      | Some i => mQuorumSet i = lookup n /\
          exists k, mDistance i = Z.of_nat k /\ shortest lookup (mLocalNodeID t) k n /\
            forall v, v ∈ mClosestValidators i <-> closestVia lookup (mLocalNodeID t) v k n
      end.
Proof.
  intros HU Hf. destruct (rebuild_ok fuel lookup U t HU Hf) as (t' & E & Hl & HT).
  exists t'. split_and!; [done..|]. intros n. specialize (HT n). rewrite Hl in HT.
  destruct (mQuorum t' !! n); [|done]. by destruct HT.
Qed.

(** An expansion that succeeds is as good as a rebuild.  In a map that is right for the
    quorum sets it holds, if [expand] returns [true] the map it leaves is the one
    [rebuild] would make from the quorum sets now known: those known before, and the one
    of the expanded node. *)
Theorem expand_equals_rebuild fuel U t id p t' :
  Exact t -> expand id (Some p) t = inr (true, t') ->
  closedNodes (known t') (mLocalNodeID t) U ->
  (1 + sum_list_with (members (known t')) U <= fuel)%nat ->
  rebuild fuel (known t') t = inr t' /\
  (forall n, n <> id -> known t' n = known t n) /\
  exists q, known t' id = Some q /\ address q = address p.
Proof.
  intros HT E HU Hf. destruct (expand_ok t id p) as (ok & t0 & E0 & Hl & H).
  rewrite E in E0. injection E0 as <- <-. destruct (H HT eq_refl) as (HT' & Hk). split; [|done].
  destruct (rebuild_ok fuel (known t') U t HU Hf) as (t1 & E1 & Hl1 & HT1). rewrite E1. f_equal.
  apply (Tracks_unique (known t')); [congruence|done|done].
Qed.

(** C16: the node is never told a stale answer.  Whatever statements are processed, questions
    asked and rebuilds forced: as long as the quorum set of every processed statement is at
    hand, no operation throws, and a question whether a node is in
    the transitive quorum is answered by reachability in the graph of the quorum sets the
    tracker holds; after an expansion that failed, these are the ones found afresh.  A
    statement whose quorum set is not at hand, which [getQSet] answers with a null pointer,
    makes [expand] throw, and nothing else does.  (The nodes that can be reached at a
    question are finitely many.) *)
Theorem in_quorum_answers_are_current fuel a es src node :
  Forall (plausible fuel a) es -> reachesFinitely fuel a src ->
  match trackerRun fuel (newPending a) es with
  | inr s =>
      Forall qsetKnown es /\
      exists b s', askInQuorum fuel src node s = inr (b, s') /\ Exact (mQuorumTracker s') /\
        (b = true <-> exists k, path (known (mQuorumTracker s')) a k node) /\
        (mRebuildQuorum s = true -> Tracks (lookupQSet src a) (mQuorumTracker s'))
  | inl f => f = Throw "qSet" /\ ~ Forall qsetKnown es
  end.
Proof.
  intros Hes Hsrc. pose proof (trackerRun_ok fuel a es _ (newPending_current a) Hes) as H.
  destruct (trackerRun fuel (newPending a) es) as [f|s]; [done|]. destruct H as [Hs Hk]. split; [done|].
  destruct (ask_ok fuel a src node s Hs Hsrc) as (b & s' & Ea & [_ He] & Hr & Hb & Ht).
  exists b, s'. split_and!; auto.
Qed.

(** ** A network of five nodes

    Node 1 trusts 2 and 3, both reach 4, and 4 reaches 5 and back to 1. *)

Module SampleTracker.

Definition q1 : SCPQuorumSetPtr := mkPtr 1 (QSet 2 [1] [QSet 1 [2; 3] []]).
Definition q2 : SCPQuorumSetPtr := mkPtr 2 (QSet 1 [4] []).
Definition q3 : SCPQuorumSetPtr := mkPtr 3 (QSet 1 [2; 4] []).
Definition q4 : SCPQuorumSetPtr := mkPtr 4 (QSet 1 [5; 1] []).

Definition sources (latest : NodeID -> option Z) : Sources :=
  mkSources 1 latest (fun _ => None)
    (fun h => if h =? 1 then Some q1 else if h =? 2 then Some q2
              else if h =? 3 then Some q3 else if h =? 4 then Some q4 else None).

Definition all : Sources := sources (fun id => if id <=? 4 then Some id else None).
Definition half : Sources := sources (fun id => if id <=? 3 then Some id else None).

Definition universe : list NodeID := [1; 2; 3; 4; 5].

Lemma closed_by_check lookup a U :
  bool_decide (a ∈ U) = true ->
  forallb (fun n => match lookup n with
                    | Some p => forallb (fun c => bool_decide (c ∈ U)) (qset_nodes (pointee p))
                    | None => true
                    end) U = true ->
  closedNodes lookup a U.
Proof.
  intros Ha%bool_decide_eq_true Hc. split; [done|]. intros n c Hn (p & Ep & Hm).
  rewrite forallb_forall in Hc. specialize (Hc n). rewrite Ep in Hc.
  specialize (Hc ltac:(by apply list_elem_of_In)). rewrite forallb_forall in Hc.
  specialize (Hc c ltac:(by apply list_elem_of_In)). by apply bool_decide_eq_true in Hc.
Qed.

Lemma rebuild_exact_witness :
  exists t', rebuild 20 (lookupQSet all 1) (newQuorumTracker 1) = inr t' /\ mLocalNodeID t' = 1 /\
    forall n,
      match mQuorum t' !! n with
      | None => forall k, ~ path (lookupQSet all 1) 1 k n
      | Some i => mQuorumSet i = lookupQSet all 1 n /\
          exists k, mDistance i = Z.of_nat k /\ shortest (lookupQSet all 1) 1 k n /\
            forall v, v ∈ mClosestValidators i <-> closestVia (lookupQSet all 1) 1 v k n
      end.
Proof.
  apply (rebuild_exact 20 (lookupQSet all 1) universe (newQuorumTracker 1)).
  - apply closed_by_check; reflexivity.
  - vm_compute. lia.
Defined.

(** The state after a rebuild that did not find the quorum set of node 4, and the expansion
    that adds it. *)
Definition before : QuorumTracker :=
  match rebuild 20 (lookupQSet half 1) (newQuorumTracker 1) with
  | inr t => t
  | inl _ => newQuorumTracker 1
  end.
Definition after : QuorumTracker :=
  match expand 4 (Some q4) before with inr (_, t) => t | inl _ => before end.

Lemma before_exact : Exact before.
Proof.
  destruct (rebuild_ok 20 (lookupQSet half 1) universe (newQuorumTracker 1)) as (t & E & _ & HT).
  - apply closed_by_check; reflexivity.
  - vm_compute. lia.
  - unfold before. rewrite E. by eapply Tracks_Exact.
Qed.

Lemma expand_equals_rebuild_witness :
  rebuild 20 (known after) before = inr after /\
  (forall n, n <> 4 -> known after n = known before n) /\
  exists q, known after 4 = Some q /\ address q = 4%nat.
Proof.
  apply (expand_equals_rebuild 20 universe before 4 q4 after).
  - apply before_exact.
  - vm_compute. reflexivity.
  - apply closed_by_check; reflexivity.
  - vm_compute. lia.
Defined.

(** Node 4 changes its quorum set, so that the expansion fails and the question rebuilds. *)
Definition changed : Sources :=
  mkSources 1 (fun id => if id <=? 3 then Some id else if id =? 4 then Some 3 else None)
    (fun _ => None) (getQSet all).

Definition events : list TrackerEvent :=
  [Asked half 5; Processed all 4 4; Asked all 5; Processed all 4 3].

Lemma finite src : closedNodes (lookupQSet src 1) 1 universe ->
  (1 + sum_list_with (members (lookupQSet src 1)) universe <= 20)%nat -> reachesFinitely 20 1 src.
Proof. by exists universe. Qed.

Lemma in_quorum_answers_are_current_witness :
  exists s b s', trackerRun 20 (newPending 1) events = inr s /\
    askInQuorum 20 changed 5 s = inr (b, s') /\
    (b = true <-> exists k, path (known (mQuorumTracker s')) 1 k 5) /\
    (mRebuildQuorum s = true -> Tracks (lookupQSet changed 1) (mQuorumTracker s')).
Proof.
  assert (Forall (plausible 20 1) events) as He.
  { repeat constructor; cbn; try done; apply finite; try (apply closed_by_check; reflexivity); vm_compute; lia. }
  assert (reachesFinitely 20 1 changed) as Hf by (apply finite; [apply closed_by_check; reflexivity|vm_compute; lia]).
  pose proof (in_quorum_answers_are_current 20 1 events changed 5 He Hf) as H.
  destruct (trackerRun 20 (newPending 1) events) as [f|s].
  - exfalso. destruct H as [_ H]. apply H. repeat constructor; cbn; by eexists.
  - destruct H as (_ & b & s' & H1 & _ & H2 & H3). by exists s, b, s'.
Defined.

(** The answers themselves: node 5 is unknown, then known, then forgotten. *)
Lemma answers :
  (let* '(b, s) := askInQuorum 20 half 5 (newPending 1) in
   let* s := envelopeProcessed all 4 4 s in
   let* '(b', s) := askInQuorum 20 all 5 s in
   let* s := envelopeProcessed all 4 3 s in
   let* '(b'', s) := askInQuorum 20 changed 5 s in
   mret [b; b'; b'']) = inr [false; true; false].
Proof. reflexivity. Qed.

End SampleTracker.
