(* ===== verification/Checkpoints.v ===== *)
(** * Checkpoints and the range of a catchup

    Model of the checkpoint arithmetic of [src/history/HistoryManager.h], of
    [src/ledger/LedgerRange.cpp], [src/ledger/CheckpointRange.cpp],
    [src/catchup/CatchupConfiguration.cpp] and [src/catchup/CatchupRange.cpp].  A
    [uint32_t] is a [Z] and every sum, difference and product wraps with [u32]. *)

From Stdlib Require Import Ascii String.
From stdpp Require Import base list strings.
From S2P Require Import Prelude.

Local Open Scope Z_scope.

(** ** HistoryManager *)

(** The only member of the configuration the frequency depends on. *)
Record HistoryManager := mkHistoryManager { ARTIFICIALLY_ACCELERATE_TIME_FOR_TESTING : bool }.

Definition getCheckpointFrequency (hm : HistoryManager) : Z :=
  if ARTIFICIALLY_ACCELERATE_TIME_FOR_TESTING hm then 8 else 64.

Definition GENESIS_LEDGER_SEQ : Z := 1.

Definition checkpointContainingLedger (hm : HistoryManager) (ledger : Z) : Z :=
  let freq := getCheckpointFrequency hm in
  u32 (u32 (u32 (ledger / freq + 1) * freq) - 1).

Definition publishCheckpointOnLedgerClose (hm : HistoryManager) (ledger : Z) : bool :=
  checkpointContainingLedger hm ledger =? ledger.

Definition sizeOfCheckpointContaining (hm : HistoryManager) (ledger : Z) : Z :=
  let freq := getCheckpointFrequency hm in
  if ledger <? freq then u32 (freq - 1) else freq.

Definition firstLedgerInCheckpointContaining (hm : HistoryManager) (ledger : Z) : Z :=
  let last := checkpointContainingLedger hm ledger in
  let size := sizeOfCheckpointContaining hm ledger in
  u32 (last - u32 (size - 1)).

Definition isFirstLedgerInCheckpoint (hm : HistoryManager) (ledger : Z) : bool :=
  firstLedgerInCheckpointContaining hm ledger =? ledger.

Definition isLastLedgerInCheckpoint (hm : HistoryManager) (ledger : Z) : bool :=
  checkpointContainingLedger hm ledger =? ledger.

Definition firstLedgerAfterCheckpointContaining (hm : HistoryManager) (ledger : Z) : Z :=
  let first := firstLedgerInCheckpointContaining hm ledger in
  let size := sizeOfCheckpointContaining hm ledger in
  u32 (first + size).

Definition lastLedgerBeforeCheckpointContaining (hm : HistoryManager) (ledger : Z) : exc Z :=
  let last := checkpointContainingLedger hm ledger in
  let size := sizeOfCheckpointContaining hm ledger in
  do* releaseAssert (size <=? last) "last >= size" in
  mret (u32 (last - size)).

Definition ledgerToTriggerCatchup (hm : HistoryManager) (firstLedgerOfBufferedCheckpoint : Z) : exc Z :=
  do* releaseAssert (isFirstLedgerInCheckpoint hm firstLedgerOfBufferedCheckpoint)
    "isFirstLedgerInCheckpoint(firstLedgerOfBufferedCheckpoint)" in
  mret (u32 (firstLedgerOfBufferedCheckpoint + 1)).

(** ** LedgerRange *)

Record LedgerRange := mkLedgerRange { lr_first : Z; lr_count : Z }.

Definition newLedgerRange (first count : Z) : exc LedgerRange :=
  do* releaseAssert ((count =? 0) || (0 <? first)) "count == 0 || mFirst > 0" in
  mret (mkLedgerRange first count).

Definition lr_inclusive (first last : Z) : exc LedgerRange :=
  do* releaseAssert (last <? UINT32_MAX) "last < std::numeric_limits<uint32_t>::max()" in
  newLedgerRange first (u32 (u32 (last - first) + 1)).

Definition lr_limit (r : LedgerRange) : Z := u32 (lr_first r + lr_count r).

Definition lr_last (r : LedgerRange) : exc Z :=
  if lr_count r =? 0 then
    exc_throw (Throw "last() cannot be called on LedgerRange when mCount == 0")
  else mret (u32 (lr_limit r - 1)).

(** ** CheckpointRange *)

Record CheckpointRange := mkCheckpointRange { cr_first : Z; cr_count : Z; cr_frequency : Z }.

Definition newCheckpointRange (first count frequency : Z) : exc CheckpointRange :=
  do* releaseAssert (0 <? first) "mFirst > 0" in
  do* releaseAssert (u32 (first + 1) mod frequency =? 0) "(mFirst + 1) % mFrequency == 0" in
  mret (mkCheckpointRange first count frequency).

Definition cr_inclusive (first last frequency : Z) : exc CheckpointRange :=
  do* releaseAssert (last <? UINT32_MAX) "last < std::numeric_limits<uint32_t>::max()" in
  do* releaseAssert (first <=? last) "last >= first" in
  do* releaseAssert (u32 (first + 1) mod frequency =? 0) "(first + 1) % frequency == 0" in
  do* releaseAssert (u32 (last + 1) mod frequency =? 0) "(last + 1) % frequency == 0" in
  let count := u32 (1 + u32 (last - first) / frequency) in
  newCheckpointRange first count frequency.

Definition getLedgerCount (c : CheckpointRange) : Z := u32 (cr_count c * cr_frequency c).

Definition getLedgerRange (c : CheckpointRange) : exc LedgerRange :=
  newLedgerRange (cr_first c) (getLedgerCount c).

Definition cr_limit (c : CheckpointRange) : Z := u32 (cr_first c + getLedgerCount c).

Definition cr_last (c : CheckpointRange) : exc Z :=
  if cr_count c =? 0 then
    exc_throw (Throw "last() cannot be called on CheckpointRange when mCount == 0")
  else mret (u32 (cr_first c + u32 (u32 (cr_count c - 1) * cr_frequency c))).

Definition checkpointCount (firstCheckpoint : Z) (r : LedgerRange) (hm : HistoryManager) : exc Z :=
  if lr_count r =? 0 then mret 0
  else
    let* last := lr_last r in
    let lastCheckpoint := checkpointContainingLedger hm last in
    mret (u32 (1 + u32 (lastCheckpoint - firstCheckpoint) / getCheckpointFrequency hm)).

(** The constructor from a range of ledgers. *)
Definition checkpointRangeOf (ledgerRange : LedgerRange) (hm : HistoryManager) : exc CheckpointRange :=
  let first := checkpointContainingLedger hm (lr_first ledgerRange) in
  let* count := checkpointCount first ledgerRange hm in
  let freq := getCheckpointFrequency hm in
  let c := mkCheckpointRange first count freq in
  do* releaseAssert (0 <? first) "mFirst > 0" in
  do* releaseAssert (u32 (first + 1) mod freq =? 0) "(mFirst + 1) % mFrequency == 0" in
  do* releaseAssert (first <=? cr_limit c) "limit() >= mFirst" in
  do* releaseAssert (u32 (cr_limit c + 1) mod freq =? 0) "(limit() + 1) % mFrequency == 0" in
  if count =? 0 then mret c
  else
    let* last := cr_last c in
    do* releaseAssert (first <=? last) "last() >= mFirst" in
    do* releaseAssert (u32 (last + 1) mod freq =? 0) "(last() + 1) % mFrequency == 0" in
    mret c.

(** ** CatchupConfiguration *)

Inductive Mode := OFFLINE_BASIC | OFFLINE_COMPLETE | ONLINE | LOCAL_BUCKETS_ONLY.

Definition CURRENT : Z := 0.

(** The members that hold an archive state and a header are only tested for presence. *)
Record CatchupConfiguration := mkConfiguration {
  cc_count : Z;
  ledgerHashPair : Z * option Z;
  mMode : Mode;
  hasHAS : bool;
  hasHistoryEntry : bool }.

Definition toLedger (c : CatchupConfiguration) : Z := fst (ledgerHashPair c).
Definition localBucketsOnly (c : CatchupConfiguration) : bool :=
  match mMode c with LOCAL_BUCKETS_ONLY => true | _ => false end.
Definition offline (c : CatchupConfiguration) : bool :=
  match mMode c with OFFLINE_BASIC | OFFLINE_COMPLETE => true | _ => false end.
Definition online (c : CatchupConfiguration) : bool :=
  match mMode c with ONLINE => true | _ => false end.

Definition checkConfiguration (c : CatchupConfiguration) : exc unit :=
  if localBucketsOnly c then
    do* releaseAssert (hasHAS c && hasHistoryEntry c) "mHAS && mHistoryEntry" in
    do* releaseAssert (negb (toLedger c =? CURRENT)) "toLedger() != CatchupConfiguration::CURRENT" in
    releaseAssert (cc_count c =? 0) "count() == 0"
  else releaseAssert (negb (hasHAS c) && negb (hasHistoryEntry c)) "!mHAS && !mHistoryEntry".

Definition newConfiguration (pair : Z * option Z) (count : Z) (mode : Mode) : exc CatchupConfiguration :=
  let c := mkConfiguration count pair mode false false in
  do* checkConfiguration c in mret c.

(** The constructor from an archive state and the header of ledger [ledgerSeq]. *)
Definition localConfiguration (ledgerSeq hash : Z) : exc CatchupConfiguration :=
  let c := mkConfiguration 0 (ledgerSeq, Some hash) LOCAL_BUCKETS_ONLY true true in
  do* checkConfiguration c in mret c.

Definition resolve (c : CatchupConfiguration) (remoteCheckpoint : Z) : exc CatchupConfiguration :=
  do* checkConfiguration c in
  if toLedger c =? CURRENT then
    mret (mkConfiguration (cc_count c) (remoteCheckpoint, snd (ledgerHashPair c)) (mMode c)
            (hasHAS c) (hasHistoryEntry c))
  else mret c.

(** *** Numbers of the command line

    [std::stoul] in base 10: it skips white space, takes a sign and the longest run of
    digits, throws if there are none or if the value does not fit an [unsigned long],
    negates modulo 2^64 after a minus sign, and gives the number of characters read. *)

Definition isSpace (c : ascii) : bool :=
  let n := N_of_ascii c in ((9 <=? n) && (n <=? 13) || (n =? 32))%N.
Definition digitOf (c : ascii) : option Z :=
  let n := Z.of_N (N_of_ascii c) in
  if (48 <=? n) && (n <=? 57) then Some (n - 48) else None.

Fixpoint skipSpace (l : list ascii) : nat * list ascii :=
  match l with
  | c :: l' => if isSpace c then let '(k, r) := skipSpace l' in (S k, r) else (0%nat, l)
  | [] => (0%nat, [])
  end.

Fixpoint readDigits (acc : Z) (l : list ascii) : nat * Z :=
  match l with
  | c :: l' =>
      match digitOf c with
      | Some d => let '(k, v) := readDigits (acc * 10 + d) l' in (S k, v)
      | None => (0%nat, acc)
      end
  | [] => (0%nat, acc)
  end.

Definition takeSign (l : list ascii) : nat * bool * list ascii :=
  match l with
  | c :: l' =>
      if Ascii.eqb c "-" then (1%nat, true, l')
      else if Ascii.eqb c "+" then (1%nat, false, l') else (0%nat, false, l)
  | [] => (0%nat, false, [])
  end.

Definition stoul (l : list ascii) : exc (Z * nat) :=
  let '(spaces, l) := skipSpace l in
  let '(sign, minus, l) := takeSign l in
  let '(digits, v) := readDigits 0 l in
  if (digits =? 0)%nat then exc_throw (Throw "std::invalid_argument")
  else if UINT64_MAX <? v then exc_throw (Throw "std::out_of_range")
  else mret (if minus : bool then u64 (- v) else v, (spaces + sign + digits)%nat).

Definition parseLedger (str : list ascii) : exc Z :=
  if decide (str = String.list_ascii_of_string "current") then mret CURRENT
  else
    let* '(result, pos) := stoul str in
    if (pos <? length str)%nat || (result <? 2) then
      exc_throw (Throw "is not a valid ledger number")
    else mret (u32 result).

Definition parseLedgerCount (str : list ascii) : exc Z :=
  if decide (str = String.list_ascii_of_string "max") then mret UINT32_MAX
  else
    let* '(result, pos) := stoul str in
    if (pos <? length str)%nat then exc_throw (Throw "is not a valid ledger count")
    else mret (u32 result).

(** ** CatchupRange *)

Record CatchupRange := mkCatchupRange {
  applyBuckets : bool;
  mApplyBucketsAtLedger : Z;
  mReplayRange : LedgerRange }.

Definition replayLedgers (r : CatchupRange) : bool := 0 <? lr_count (mReplayRange r).

Definition checkRange (r : CatchupRange) : exc unit :=
  let buckets := applyBuckets r in
  let replay := replayLedgers r in
  do* releaseAssert (buckets || replay) "applyBuckets() || replayLedgers()" in
  if negb buckets && replay then
    do* releaseAssert (mApplyBucketsAtLedger r =? 0) "mApplyBucketsAtLedger == 0" in
    releaseAssert (negb (lr_first (mReplayRange r) =? 0)) "mReplayRange.mFirst != 0"
  else if buckets && replay then
    do* releaseAssert (negb (mApplyBucketsAtLedger r =? 0)) "mApplyBucketsAtLedger != 0" in
    do* releaseAssert (negb (lr_first (mReplayRange r) =? 0)) "mReplayRange.mFirst != 0" in
    releaseAssert (u32 (mApplyBucketsAtLedger r + 1) =? lr_first (mReplayRange r))
      "mApplyBucketsAtLedger + 1 == mReplayRange.mFirst"
  else
    do* releaseAssert (buckets && negb replay) "applyBuckets() && !replayLedgers()" in
    releaseAssert (lr_first (mReplayRange r) =? 0) "mReplayRange.mFirst == 0".

Definition bucketsOnly (applyBucketsAtLedger : Z) : exc CatchupRange :=
  let* none := newLedgerRange 0 0 in
  let r := mkCatchupRange true applyBucketsAtLedger none in
  do* checkRange r in mret r.
Definition replayOnly (replayRange : LedgerRange) : exc CatchupRange :=
  let r := mkCatchupRange false 0 replayRange in
  do* checkRange r in mret r.
Definition bucketsAndReplay (applyBucketsAtLedger : Z) (replayRange : LedgerRange) : exc CatchupRange :=
  let r := mkCatchupRange true applyBucketsAtLedger replayRange in
  do* checkRange r in mret r.

Definition checkCatchupPreconditions (lastClosedLedger : Z) (configuration : CatchupConfiguration)
    : exc unit :=
  if (lastClosedLedger <? GENESIS_LEDGER_SEQ) && negb (localBucketsOnly configuration) then
    exc_throw (Throw "lastClosedLedger == 0")
  else if toLedger configuration <=? lastClosedLedger then
    exc_throw (Throw "configuration.toLedger() <= lastClosedLedger")
  else if toLedger configuration <=? GENESIS_LEDGER_SEQ then
    exc_throw (Throw "configuration.toLedger() <= LedgerManager::GENESIS_LEDGER_SEQ")
  else if toLedger configuration =? CURRENT then
    exc_throw (Throw "configuration.toLedger() == CatchupConfiguration::CURRENT")
  else mret tt.

Definition calculateCatchupRange (lcl : Z) (cfg : CatchupConfiguration) (hm : HistoryManager)
    : exc CatchupRange :=
  do* checkCatchupPreconditions lcl cfg in
  let init := GENESIS_LEDGER_SEQ in
  let fullReplayCount := u32 (toLedger cfg - lcl) in
  if init <? lcl then
    let* replay := newLedgerRange (u32 (lcl + 1)) fullReplayCount in
    replayOnly replay
  else
    do* releaseAssert ((lcl =? init) || localBucketsOnly cfg) "lcl == init || cfg.localBucketsOnly()" in
    let* fullReplay := newLedgerRange (u32 (init + 1)) fullReplayCount in
    if fullReplayCount <=? cc_count cfg then replayOnly fullReplay
    else if (cc_count cfg =? 0) && (isLastLedgerInCheckpoint hm (toLedger cfg) || localBucketsOnly cfg)
    then bucketsOnly (toLedger cfg)
    else
      let targetStart := u32 (u32 (toLedger cfg - cc_count cfg) + 1) in
      let firstInCheckpoint := firstLedgerInCheckpointContaining hm targetStart in
      if firstInCheckpoint =? init then replayOnly fullReplay
      else
        let* applyBucketsAt := lastLedgerBeforeCheckpointContaining hm targetStart in
        let* replay := newLedgerRange firstInCheckpoint (u32 (toLedger cfg - applyBucketsAt)) in
        bucketsAndReplay applyBucketsAt replay.

(** The constructor from the last closed ledger and a configuration. *)
Definition catchupRange (lastClosedLedger : Z) (configuration : CatchupConfiguration)
    (hm : HistoryManager) : exc CatchupRange :=
  let* r := calculateCatchupRange lastClosedLedger configuration hm in
  do* (if localBucketsOnly configuration then releaseAssert (applyBuckets r) "applyBuckets()"
       else mret tt) in
  do* checkRange r in
  mret r.

Definition getFullRangeIncludingBucketApply (r : CatchupRange) : exc LedgerRange :=
  if applyBuckets r then newLedgerRange (mApplyBucketsAtLedger r) (u32 (lr_count (mReplayRange r) + 1))
  else mret (mReplayRange r).

Definition range_count (r : CatchupRange) : Z :=
  if applyBuckets r then u32 (lr_count (mReplayRange r) + 1) else lr_count (mReplayRange r).

Definition range_first (r : CatchupRange) : Z :=
  if applyBuckets r then mApplyBucketsAtLedger r else lr_first (mReplayRange r).

Definition range_last (r : CatchupRange) : exc Z :=
  if negb (lr_count (mReplayRange r) =? 0) then lr_last (mReplayRange r)
  else
    do* releaseAssert (applyBuckets r) "mApplyBuckets" in
    mret (mApplyBucketsAtLedger r).

Definition getBucketApplyLedger (r : CatchupRange) : exc Z :=
  if negb (applyBuckets r) then
    exc_throw (Throw "getBucketApplyLedger() cannot be called on CatchupRange when mApplyBuckets == false")
  else mret (mApplyBucketsAtLedger r).

(** ** The checkpoints *)

Lemma frequency_cases hm : getCheckpointFrequency hm = 8 \/ getCheckpointFrequency hm = 64.
Proof. unfold getCheckpointFrequency. destruct hm as [[]]; auto. Qed.

(** Arithmetic of [uint32_t] with a frequency that is known. *)
Ltac u32_lia :=
  unfold u32, UINT32_MAX, GENESIS_LEDGER_SEQ, CURRENT in *; Z.to_euclidean_division_equations; lia.

Section Frequency.
Context (hm : HistoryManager).
Let freq := getCheckpointFrequency hm.

(** No wrap-around shows, also in the last checkpoint of the type. *)
Lemma checkpoint_eq l : 0 <= l <= UINT32_MAX ->
  checkpointContainingLedger hm l = l / freq * freq + freq - 1.
Proof. unfold checkpointContainingLedger, freq. destruct (frequency_cases hm) as [-> | ->]; intros; u32_lia. Qed.

Lemma checkpoint_size_eq l : 0 <= l <= UINT32_MAX ->
  sizeOfCheckpointContaining hm l = if l <? freq then freq - 1 else freq.
Proof. unfold sizeOfCheckpointContaining, freq. destruct (frequency_cases hm) as [-> | ->]; done. Qed.

Lemma first_ledger_eq l : 0 <= l <= UINT32_MAX ->
  firstLedgerInCheckpointContaining hm l = if l <? freq then 1 else l / freq * freq.
Proof.
  intros Hl. unfold firstLedgerInCheckpointContaining.
  rewrite checkpoint_eq, checkpoint_size_eq by done. unfold freq.
  destruct (frequency_cases hm) as [-> | ->]; destruct (Z.ltb_spec l 8), (Z.ltb_spec l 64); try u32_lia.
Qed.

Lemma last_before_eq l : 0 <= l <= UINT32_MAX ->
  lastLedgerBeforeCheckpointContaining hm l = inr (if l <? freq then 0 else l / freq * freq - 1).
Proof.
  intros Hl. unfold lastLedgerBeforeCheckpointContaining.
  rewrite checkpoint_eq, checkpoint_size_eq by done. unfold freq, releaseAssert.
  destruct (frequency_cases hm) as [-> | ->];
    [destruct (Z.ltb_spec l 8)|destruct (Z.ltb_spec l 64)];
    (rewrite (proj2 (Z.leb_le _ _)) by u32_lia); cbn; f_equal; u32_lia.
Qed.

End Frequency.

(** ** What a catchup covers *)

(** A closed form of [calculateCatchupRange] on its five cases. *)
Lemma newLedgerRange_pos first count : 0 < first -> newLedgerRange first count = inr (mkLedgerRange first count).
Proof. intros H. unfold newLedgerRange. rewrite (proj2 (Z.ltb_lt _ _)), orb_true_r by lia. done. Qed.

Lemma replayOnly_ok first count : 0 < first -> 0 < count ->
  replayOnly (mkLedgerRange first count) = inr (mkCatchupRange false 0 (mkLedgerRange first count)).
Proof.
  intros Hf Hc. unfold replayOnly, checkRange, replayLedgers. cbn.
  rewrite (proj2 (Z.ltb_lt _ _)) by lia. cbn. by rewrite (proj2 (Z.eqb_neq _ _)) by lia.
Qed.

Lemma bucketsOnly_ok l :
  bucketsOnly l = inr (mkCatchupRange true l (mkLedgerRange 0 0)).
Proof. done. Qed.

Lemma bucketsAndReplay_ok l count : 0 < l < UINT32_MAX -> 0 < count ->
  bucketsAndReplay l (mkLedgerRange (l + 1) count) =
    inr (mkCatchupRange true l (mkLedgerRange (l + 1) count)).
Proof.
  intros Hl Hc. unfold bucketsAndReplay, checkRange, replayLedgers. cbn.
  rewrite (proj2 (Z.ltb_lt _ _)) by lia. cbn. rewrite !(proj2 (Z.eqb_neq _ _)) by lia. cbn.
  by rewrite u32_small, Z.eqb_refl by lia.
Qed.

Definition wf32 (z : Z) : Prop := 0 <= z <= UINT32_MAX.

(** The ranges [r] by which the node gets from [lcl] to [target] replaying at least [count]
    ledgers, or all there are, and after buckets as few more as checkpoints allow. *)
Record Covers (hm : HistoryManager) (lcl target count : Z) (r : CatchupRange) : Prop := mkCovers {
  covers_last : range_last r = inr target;
  (** what is applied continues the last closed ledger or the buckets without a gap *)
  covers_start : if applyBuckets r
    then lcl = GENESIS_LEDGER_SEQ /\ lcl < mApplyBucketsAtLedger r <= target /\
         checkpointContainingLedger hm (mApplyBucketsAtLedger r) = mApplyBucketsAtLedger r /\
         (0 < lr_count (mReplayRange r) -> lr_first (mReplayRange r) = mApplyBucketsAtLedger r + 1)
    else lr_first (mReplayRange r) = lcl + 1;
  covers_count : lr_count (mReplayRange r) =
    target - (if applyBuckets r then mApplyBucketsAtLedger r else lcl);
  covers_enough : Z.min count (target - lcl) <= lr_count (mReplayRange r);
  covers_few : applyBuckets r = true ->
    lr_count (mReplayRange r) < count + getCheckpointFrequency hm }.

(** The preconditions [checkCatchupPreconditions] leaves. *)
Definition canCatchUp (lcl : Z) (cfg : CatchupConfiguration) : bool :=
  ((GENESIS_LEDGER_SEQ <=? lcl) || localBucketsOnly cfg) &&
  (lcl <? toLedger cfg) && (GENESIS_LEDGER_SEQ <? toLedger cfg).

Lemma preconditions_ok lcl cfg : canCatchUp lcl cfg = true -> checkCatchupPreconditions lcl cfg = inr tt.
Proof.
  unfold canCatchUp, checkCatchupPreconditions. intros [[Hl Ht%Z.ltb_lt]%andb_prop Hg%Z.ltb_lt]%andb_prop.
  rewrite (proj2 (Z.leb_gt _ _) Ht), (proj2 (Z.leb_gt _ _) Hg).
  rewrite (proj2 (Z.eqb_neq _ _)) by (unfold CURRENT, GENESIS_LEDGER_SEQ in *; lia).
  destruct (localBucketsOnly cfg); [by rewrite andb_false_r|]. rewrite orb_false_r in Hl.
  apply Z.leb_le in Hl. by rewrite (proj2 (Z.ltb_ge _ _) Hl).
Qed.

Lemma preconditions_fail lcl cfg : wf32 lcl -> canCatchUp lcl cfg = false ->
  exists what, checkCatchupPreconditions lcl cfg = inl (Throw what).
Proof.
  unfold canCatchUp, checkCatchupPreconditions. intros [Hl _] H.
  destruct (Z.ltb_spec lcl GENESIS_LEDGER_SEQ), (Z.leb_spec GENESIS_LEDGER_SEQ lcl); try lia;
    destruct (localBucketsOnly cfg); cbn in *; eauto;
    destruct (Z.leb_spec (toLedger cfg) lcl), (Z.ltb_spec lcl (toLedger cfg)); try lia; eauto;
    destruct (Z.leb_spec (toLedger cfg) GENESIS_LEDGER_SEQ), (Z.ltb_spec GENESIS_LEDGER_SEQ (toLedger cfg));
    try lia; eauto; done.
Qed.

Lemma replay_covers hm lcl target count :
  wf32 count -> GENESIS_LEDGER_SEQ <= lcl -> lcl < target <= UINT32_MAX ->
  Covers hm lcl target count (mkCatchupRange false 0 (mkLedgerRange (lcl + 1) (target - lcl))).
Proof.
  intros [Hc _] Hl Ht. split; cbn; try lia.
  unfold range_last, lr_last, lr_limit. cbn. rewrite (proj2 (Z.eqb_neq _ _)) by lia. cbn. f_equal. u32_lia.
Qed.

Section Target.
Context (hm : HistoryManager) (target count : Z).
Context (Hc : 0 <= count) (Ht : GENESIS_LEDGER_SEQ < target <= UINT32_MAX).

Lemma buckets_covers : isLastLedgerInCheckpoint hm target = true ->
  Covers hm GENESIS_LEDGER_SEQ target 0 (mkCatchupRange true target (mkLedgerRange 0 0)).
Proof using Ht.
  intros Hlast%Z.eqb_eq. pose proof (frequency_cases hm). split; cbn; try (unfold GENESIS_LEDGER_SEQ in *; lia); done.
Qed.

Lemma target_start : count < target - GENESIS_LEDGER_SEQ ->
  ~ (count = 0 /\ isLastLedgerInCheckpoint hm target = true) ->
  let start := target - count + 1 in
  u32 (u32 (target - count) + 1) = start /\ wf32 start.
Proof using Hc Ht.
  intros Hlt Hlast start. unfold GENESIS_LEDGER_SEQ in Ht. assert (start <= UINT32_MAX).
  { destruct (Z_le_dec start UINT32_MAX) as [|Hn]; [done|]. exfalso. apply Hlast. split; [lia|].
    apply Z.eqb_eq. rewrite checkpoint_eq by lia. assert (target = UINT32_MAX) as -> by lia.
    destruct (frequency_cases hm) as [-> | ->]; reflexivity. }
  unfold wf32, start, GENESIS_LEDGER_SEQ, UINT32_MAX in *. rewrite (u32_small (target - count)), u32_small; unfold UINT32_MAX; lia.
Qed.

Lemma replay_after_buckets_covers : count < target - GENESIS_LEDGER_SEQ ->
  let start := target - count + 1 in
  let freq := getCheckpointFrequency hm in
  let at_ := start / freq * freq - 1 in
  wf32 start -> freq <= start -> at_ < target ->
  Covers hm GENESIS_LEDGER_SEQ target count
    (mkCatchupRange true at_ (mkLedgerRange (at_ + 1) (target - at_))).
Proof using Hc Ht.
  intros Hlt start freq at_ [_ Hs] Hf Hat.
  assert (Hb : freq - 1 <= at_ <= start - 1 /\ start - at_ <= freq /\ u32 at_ = at_ /\ 7 <= freq).
  { unfold at_, freq in *. destruct (frequency_cases hm) as [E|E]; rewrite E in *; u32_lia. }
  destruct Hb as (Hb1 & Hb2 & Hb3 & Hb4). split; cbn [applyBuckets mApplyBucketsAtLedger mReplayRange lr_count lr_first].
  - unfold range_last, lr_last, lr_limit. cbn. rewrite (proj2 (Z.eqb_neq _ _)) by lia. cbn. f_equal. u32_lia.
  - split_and!; [done|unfold GENESIS_LEDGER_SEQ; lia|lia| |done].
    rewrite checkpoint_eq by lia. unfold at_, freq in *. destruct (frequency_cases hm) as [E|E]; rewrite E in *; u32_lia.
  - done.
  - unfold start in *. lia.
  - unfold start, freq in *. lia.
Qed.

End Target.

(** What the constructors return has passed [checkRange]. *)
Lemma calculated_range_checked lcl cfg hm r :
  calculateCatchupRange lcl cfg hm = inr r -> checkRange r = inr tt.
Proof.
  assert (H1 : forall x, replayOnly x = inr r -> checkRange r = inr tt).
  { intros x. unfold replayOnly. destruct (checkRange (mkCatchupRange _ _ _)) as [|[]] eqn:E; [done|]. by intros [= <-]. }
  assert (H2 : forall x, bucketsOnly x = inr r -> checkRange r = inr tt).
  { intros x. by intros [= <-]. }
  assert (H3 : forall x y, bucketsAndReplay x y = inr r -> checkRange r = inr tt).
  { intros x y. unfold bucketsAndReplay. destruct (checkRange (mkCatchupRange _ _ _)) as [|[]] eqn:E; [done|]. by intros [= <-]. }
  unfold calculateCatchupRange. destruct (checkCatchupPreconditions _ _); [done|]. cbn.
  destruct (_ <? lcl).
  { destruct (newLedgerRange _ _); [done|]. apply H1. }
  destruct (releaseAssert _ _); [done|]. cbn. destruct (newLedgerRange _ _) as [|full]; [done|]. cbn.
  destruct (_ <=? _); [apply H1|]. destruct (_ && _); [apply H2|]. destruct (_ =? _); [apply H1|].
  destruct (lastLedgerBeforeCheckpointContaining _ _); [done|]. cbn.
  destruct (newLedgerRange _ _); [done|]. apply H3.
Qed.

(** From genesis: cases 2 to 5 of [calculateCatchupRange]. *)
Lemma genesis_catchup_covers hm cfg :
  GENESIS_LEDGER_SEQ < toLedger cfg <= UINT32_MAX -> wf32 (cc_count cfg) -> localBucketsOnly cfg = false ->
  exists r, calculateCatchupRange GENESIS_LEDGER_SEQ cfg hm = inr r /\
    Covers hm GENESIS_LEDGER_SEQ (toLedger cfg) (cc_count cfg) r.
Proof.
  intros Ht Hc Hm. unfold calculateCatchupRange. rewrite preconditions_ok.
  2:{ unfold canCatchUp. rewrite (proj2 (Z.ltb_lt _ _)) by lia. done. }
  cbn [bnd mbind exc_bind]. rewrite Z.ltb_irrefl, Z.eqb_refl, Hm. cbn [orb releaseAssert mret exc_ret].
  set (target := toLedger cfg) in *. set (count := cc_count cfg) in *.
  rewrite (u32_small (target - _)) by (unfold GENESIS_LEDGER_SEQ in *; lia).
  change (u32 (GENESIS_LEDGER_SEQ + 1)) with (GENESIS_LEDGER_SEQ + 1). rewrite newLedgerRange_pos by done.
  cbn [bnd mbind exc_bind].
  assert (Hfull : exists r, replayOnly (mkLedgerRange (GENESIS_LEDGER_SEQ + 1) (target - GENESIS_LEDGER_SEQ)) = inr r /\
    Covers hm GENESIS_LEDGER_SEQ target count r).
  { rewrite replayOnly_ok by (unfold GENESIS_LEDGER_SEQ in *; lia). eexists. split; [done|].
    by apply replay_covers. }
  destruct (Z.leb_spec (target - GENESIS_LEDGER_SEQ) count) as [|Hlt]; [done|].
  rewrite orb_false_r. destruct ((count =? 0) && isLastLedgerInCheckpoint hm target) eqn:E3.
  { apply andb_prop in E3 as [E0%Z.eqb_eq Hlast]. rewrite E0. eexists. split; [apply bucketsOnly_ok|].
    by apply buckets_covers. }
  assert (Hn : ~ (count = 0 /\ isLastLedgerInCheckpoint hm target = true)).
  { intros [E0 El]. by rewrite E0, El in E3. }
  destruct (target_start hm target count (proj1 Hc) Ht Hlt Hn) as [-> Hstart].
  set (start := target - count + 1) in *. set (freq := getCheckpointFrequency hm).
  rewrite first_ledger_eq, last_before_eq by done. fold freq.
  pose proof (frequency_cases hm : freq = 8 \/ freq = 64) as Hfreq.
  destruct (Z.ltb_spec start freq) as [Hs|Hs]; [done|].
  assert (Hdiv : freq <= start / freq * freq <= start).
  { unfold wf32 in Hstart. destruct Hfreq as [-> | ->]; u32_lia. }
  rewrite (proj2 (Z.eqb_neq _ _)) by (unfold GENESIS_LEDGER_SEQ; lia).
  cbn [bnd mbind exc_bind]. set (at_ := start / freq * freq - 1).
  assert (Hat : at_ < target).
  { destruct (decide (at_ = target)) as [E|]; [|unfold at_, start in *; unfold wf32 in Hc; lia].
    exfalso. apply Hn. unfold at_, start, wf32 in *. split; [lia|]. apply Z.eqb_eq.
    rewrite checkpoint_eq by (unfold GENESIS_LEDGER_SEQ in *; lia). fold freq.
    destruct Hfreq as [Ef|Ef]; rewrite Ef in *; u32_lia. }
  assert (0 < at_) by (unfold at_; lia).
  replace (start / freq * freq) with (at_ + 1) by (unfold at_; lia).
  rewrite (u32_small (target - at_)), newLedgerRange_pos by lia. cbn [bnd mbind exc_bind].
  rewrite bucketsAndReplay_ok by lia. eexists. split; [done|].
  apply (replay_after_buckets_covers hm target count (proj1 Hc) Ht Hlt); done.
Qed.

(** Past genesis: case 1. *)
Lemma later_catchup_covers hm lcl cfg :
  GENESIS_LEDGER_SEQ < lcl -> lcl < toLedger cfg <= UINT32_MAX -> wf32 (cc_count cfg) ->
  exists r, calculateCatchupRange lcl cfg hm = inr r /\ applyBuckets r = false /\
    Covers hm lcl (toLedger cfg) (cc_count cfg) r.
Proof.
  intros Hl Ht Hc. unfold calculateCatchupRange. rewrite preconditions_ok.
  2:{ unfold canCatchUp. rewrite (proj2 (Z.leb_le _ _)), !(proj2 (Z.ltb_lt _ _)) by lia. done. }
  cbn [bnd mbind exc_bind]. rewrite (proj2 (Z.ltb_lt _ _)) by done.
  unfold GENESIS_LEDGER_SEQ in *. rewrite !u32_small by lia.
  rewrite newLedgerRange_pos by lia. cbn [bnd mbind exc_bind]. rewrite replayOnly_ok by lia.
  eexists. split_and!; [done..|]. apply replay_covers; [done|unfold GENESIS_LEDGER_SEQ; lia|lia].
Qed.

(** From the buckets of the node itself. *)
Lemma local_catchup hm lcl cfg :
  lcl <= GENESIS_LEDGER_SEQ -> wf32 lcl -> wf32 (toLedger cfg) -> canCatchUp lcl cfg = true ->
  localBucketsOnly cfg = true -> cc_count cfg = 0 ->
  calculateCatchupRange lcl cfg hm = inr (mkCatchupRange true (toLedger cfg) (mkLedgerRange 0 0)).
Proof.
  intros Hl [Hl0 _] [_ Ht] Hcan Hm Hc. unfold calculateCatchupRange. rewrite preconditions_ok by done.
  unfold canCatchUp in Hcan. apply andb_prop in Hcan as [[_ Hlt%Z.ltb_lt]%andb_prop _].
  cbn [bnd mbind exc_bind]. rewrite (proj2 (Z.ltb_ge _ _) Hl), Hm, orb_true_r. cbn [releaseAssert mret exc_ret].
  rewrite newLedgerRange_pos, Hc, (u32_small (_ - _)) by (done || lia). cbn [bnd mbind exc_bind].
  rewrite (proj2 (Z.leb_gt _ _)) by lia. rewrite orb_true_r. done.
Qed.

(** ** Checkpoints of a range of ledgers *)

Lemma checkpointCount_eq hm first count : 0 < first -> 0 < count ->
  first + count - 1 <= UINT32_MAX ->
  let freq := getCheckpointFrequency hm in
  checkpointCount (first / freq * freq + freq - 1) (mkLedgerRange first count) hm =
    inr (1 + ((first + count - 1) / freq - first / freq)).
Proof.
  intros Hf Hc Hl freq. unfold checkpointCount, lr_last, lr_limit. cbn [lr_count lr_first].
  rewrite (proj2 (Z.eqb_neq _ _)) by lia. cbn [bnd mbind exc_bind mret exc_ret].
  replace (u32 (u32 (first + count) - 1)) with (first + count - 1) by u32_lia.
  rewrite checkpoint_eq by lia. fold freq. f_equal.
  assert (freq = 8 \/ freq = 64) as [-> | ->] by apply frequency_cases; u32_lia.
Qed.

Lemma releaseAssert_true b what : b = true -> releaseAssert b what = inr tt.
Proof. by intros ->. Qed.

Lemma checkpointRangeOf_eq hm first count : 0 < first -> 0 < count ->
  let freq := getCheckpointFrequency hm in
  first + count - 1 + freq <= UINT32_MAX ->
  checkpointRangeOf (mkLedgerRange first count) hm =
    inr (mkCheckpointRange (first / freq * freq + freq - 1)
           (1 + ((first + count - 1) / freq - first / freq)) freq).
Proof.
  intros Hf Hc freq Hl. assert (Hfreq : freq = 8 \/ freq = 64) by apply frequency_cases.
  unfold checkpointRangeOf. cbn [lr_first].
  rewrite checkpoint_eq, checkpointCount_eq by (destruct Hfreq; lia). fold freq.
  cbn [bnd mbind exc_bind]. unfold cr_last, cr_limit, getLedgerCount. cbn [cr_first cr_count cr_frequency].
  assert (Hdiv : first / freq <= (first + count - 1) / freq) by (destruct Hfreq as [E|E]; rewrite E; u32_lia).
  rewrite !(proj2 (Z.eqb_neq (1 + _) _)) by lia.
  assert (Hb : 0 <= first / freq /\ (first + count - 1) / freq * freq + freq <= UINT32_MAX /\
    (first + count - 1) / freq <= UINT32_MAX).
  { destruct Hfreq as [E|E]; rewrite E in *; u32_lia. }
  revert Hdiv Hb. generalize (first / freq) as a, ((first + count - 1) / freq) as b. intros a b Hdiv Hb.
  rewrite (u32_small ((1 + (b - a)) * freq)), (u32_small (1 + (b - a) - 1)), (u32_small ((1 + (b - a) - 1) * freq))
    by (destruct Hfreq as [E|E]; rewrite E in *; lia).
  repeat (rewrite releaseAssert_true; [cbn [bnd mbind exc_bind mret exc_ret]|
    rewrite ?Z.ltb_lt, ?Z.leb_le, ?Z.eqb_eq; destruct Hfreq as [E|E]; rewrite E in *; u32_lia]); done.
Qed.

(** ** Numbers of the command line *)

(** The value of a numeral. *)
Definition numeral (ds : list ascii) : Z := snd (readDigits 0 ds).

Lemma readDigits_all acc ds : Forall (fun c => is_Some (digitOf c)) ds -> fst (readDigits acc ds) = length ds.
Proof.
  intros H. revert acc. induction H as [|c ds [d Hd] _ IH]; intros acc; cbn; [done|]. rewrite Hd.
  specialize (IH (acc * 10 + d)). destruct (readDigits _ ds). cbn in *. lia.
Qed.

Lemma digit_plain c d : digitOf c = Some d -> isSpace c = false /\ Ascii.eqb c "-" = false /\ Ascii.eqb c "+" = false.
Proof. destruct c as [[] [] [] [] [] [] [] []]; vm_compute; by intros. Qed.

Lemma stoul_numeral ds : ds <> [] -> Forall (fun c => is_Some (digitOf c)) ds -> numeral ds <= UINT64_MAX ->
  stoul ds = inr (numeral ds, length ds).
Proof.
  intros Hne Hd Hv. destruct ds as [|c ds]; [done|]. inversion Hd as [|? ? [d Hc] _]; subst.
  destruct (digit_plain c d Hc) as (Hs & Hm & Hp).
  pose proof (readDigits_all 0 (c :: ds) Hd) as Hlen. unfold numeral in *. unfold stoul.
  cbn [skipSpace]. rewrite Hs. cbn [takeSign]. rewrite Hm, Hp.
  destruct (readDigits 0 (c :: ds)) as [k v]. cbn [fst snd] in *. subst k. cbn [length Nat.eqb].
  by rewrite (proj2 (Z.ltb_ge _ _)) by lia.
Qed.

(** A numeral is taken modulo 2^32, although it is compared with 2 as a 64-bit number. *)
Lemma parseLedger_numeral ds : ds <> [] -> Forall (fun c => is_Some (digitOf c)) ds ->
  2 <= numeral ds <= UINT64_MAX -> parseLedger ds = inr (u32 (numeral ds)).
Proof.
  intros Hne Hd Hv. unfold parseLedger. rewrite decide_False.
  2:{ intros ->. inversion Hd as [|? ? [? Hc] _]; subst. by vm_compute in Hc. }
  rewrite stoul_numeral by (done || lia). cbn [bnd mbind exc_bind].
  by rewrite Nat.ltb_irrefl, (proj2 (Z.ltb_ge _ _)) by lia.
Qed.

Lemma parseLedger_wraps : parseLedger (String.list_ascii_of_string "4294967296") = inr CURRENT.
Proof. reflexivity. Qed.

(** ** Theorems *)

(** C17: what a catchup covers.  [invalid_argument] is thrown exactly when the preconditions
    fail; otherwise, unless the catchup is from local buckets, the range is computed without
    overflow or abort and ends at the target.  On a node past genesis all the ledgers after
    the last closed one are replayed, whatever count was asked for, and no buckets are
    applied.  At genesis, the replay starts just after genesis, or after a checkpoint whose
    buckets are applied; at least the ledgers asked for are replayed, as far as there are
    that many, and after buckets fewer than one checkpoint more.  A catchup from local buckets
    applies them at the target and replays nothing; on a node past genesis it aborts,
    although the preconditions hold. *)
Theorem catchup_range_exact hm lcl cfg :
  wf32 lcl -> wf32 (toLedger cfg) -> wf32 (cc_count cfg) -> checkConfiguration cfg = inr tt ->
  if canCatchUp lcl cfg then
    if localBucketsOnly cfg then
      catchupRange lcl cfg hm =
        if lcl <=? GENESIS_LEDGER_SEQ
        then inr (mkCatchupRange true (toLedger cfg) (mkLedgerRange 0 0))
        else inl (AssertFailure "applyBuckets()")
    else exists r, catchupRange lcl cfg hm = inr r /\ Covers hm lcl (toLedger cfg) (cc_count cfg) r
  else exists what, catchupRange lcl cfg hm = inl (Throw what).
Proof.
  intros Hl Ht Hc Hcfg. unfold catchupRange. destruct (canCatchUp lcl cfg) eqn:Hcan.
  2:{ destruct (preconditions_fail lcl cfg Hl Hcan) as [what E]. exists what.
      unfold calculateCatchupRange. by rewrite E. }
  pose proof (fun r => calculated_range_checked lcl cfg hm r) as Hck.
  pose proof Hcan as Hcan'. unfold canCatchUp in Hcan'.
  apply andb_prop in Hcan' as [[Hg Hlt%Z.ltb_lt]%andb_prop Hgt%Z.ltb_lt].
  destruct (localBucketsOnly cfg) eqn:Hm.
  - unfold checkConfiguration in Hcfg. rewrite Hm in Hcfg.
    assert (cc_count cfg = 0) as E0.
    { destruct (hasHAS cfg && hasHistoryEntry cfg), (negb (toLedger cfg =? CURRENT)); try done.
      destruct (Z.eqb_spec (cc_count cfg) 0); done. }
    destruct (Z.leb_spec lcl GENESIS_LEDGER_SEQ) as [Hle|Hle].
    + by rewrite local_catchup.
    + destruct (later_catchup_covers hm lcl cfg) as (r & -> & Hr & _); [done|destruct Ht; lia|done|].
      cbn. by rewrite Hr.
  - rewrite orb_false_r in Hg. apply Z.leb_le in Hg. destruct Ht as [_ Ht].
    assert (exists r, calculateCatchupRange lcl cfg hm = inr r /\ Covers hm lcl (toLedger cfg) (cc_count cfg) r)
      as (r & E & HC).
    { destruct (decide (lcl = GENESIS_LEDGER_SEQ)) as [->|].
      - apply genesis_catchup_covers; done.
      - destruct (later_catchup_covers hm lcl cfg) as (r & ? & _ & ?); [lia|lia|done|eauto]. }
    exists r. split; [|done]. rewrite E. cbn. by rewrite (Hck r E).
Qed.

(** The checkpoints of a range of ledgers.  Below the last checkpoints of the type, the
    constructor of [CheckpointRange] does not abort, and the checkpoints it gives are
    exactly those that contain a ledger of the range. *)
Theorem checkpoint_range_exact hm first count :
  0 < first -> 0 < count -> first + count - 1 + getCheckpointFrequency hm <= UINT32_MAX ->
  exists c, checkpointRangeOf (mkLedgerRange first count) hm = inr c /\
    cr_frequency c = getCheckpointFrequency hm /\
    forall cp, (exists k, 0 <= k < cr_count c /\ cp = cr_first c + k * cr_frequency c) <->
      exists l, first <= l < first + count /\ checkpointContainingLedger hm l = cp.
Proof.
  intros Hf Hc Hl. rewrite checkpointRangeOf_eq by done. eexists. split_and!; [done..|].
  set (freq := getCheckpointFrequency hm) in *. cbn [cr_first cr_count cr_frequency].
  assert (Hfreq : freq = 8 \/ freq = 64) by apply frequency_cases. intros cp. split.
  - intros (k & Hk & ->). exists (Z.max first ((first / freq + k) * freq)).
    assert (Hb : first <= Z.max first ((first / freq + k) * freq) < first + count)
      by (destruct Hfreq as [E|E]; rewrite E in *; u32_lia).
    split; [done|]. rewrite checkpoint_eq by (destruct Hfreq; lia). fold freq.
    destruct Hfreq as [E|E]; rewrite E in *; u32_lia.
  - intros (l & Hb & <-). exists (l / freq - first / freq).
    rewrite checkpoint_eq by (destruct Hfreq; lia). fold freq.
    destruct Hfreq as [E|E]; rewrite E in *; u32_lia.
Qed.

Module SampleRanges.

Definition live : HistoryManager := mkHistoryManager false.
Definition recent : CatchupConfiguration := mkConfiguration 100 (1000, None) OFFLINE_BASIC false false.

Lemma catchup_range_exact_witness :
  (exists r, catchupRange 1 recent live = inr r /\ Covers live 1 1000 100 r) /\
  catchupRange 1 recent live = inr (mkCatchupRange true 895 (mkLedgerRange 896 105)).
Proof.
  split; [|reflexivity].
  apply (catchup_range_exact live 1 recent); vm_compute; done.
Defined.

Lemma checkpoint_range_exact_witness :
  exists c, checkpointRangeOf (mkLedgerRange 896 105) live = inr c /\
    cr_frequency c = getCheckpointFrequency live /\
    forall cp, (exists k, 0 <= k < cr_count c /\ cp = cr_first c + k * cr_frequency c) <->
      exists l, 896 <= l < 896 + 105 /\ checkpointContainingLedger live l = cp.
Proof. apply (checkpoint_range_exact live 896 105); [lia|lia|vm_compute; done]. Defined.

End SampleRanges.
