(* ===== verification/VerifyChain.v ===== *)
(** * Verification of a downloaded ledger chain

    Model of [src/catchup/VerifyLedgerChainWork.cpp].  The work reads one file of ledger
    headers for each checkpoint of its range, from the last to the first, and checks that
    the headers form a chain of hashes that ends in a trusted hash.  The files come from
    an archive that is not trusted.  [sha] stands for [sha256] of the XDR of a header. *)

From stdpp Require Import base list strings.
From S2P Require Import Prelude Entries WorkModel Checkpoints.

Local Open Scope Z_scope.

(** ** Data *)

Inductive LedgerVerificationStatus :=
  | VERIFY_STATUS_OK
  | VERIFY_STATUS_ERR_BAD_HASH
  | VERIFY_STATUS_ERR_BAD_LEDGER_VERSION
  | VERIFY_STATUS_ERR_OVERSHOT
  | VERIFY_STATUS_ERR_UNDERSHOT
  | VERIFY_STATUS_ERR_MISSING_ENTRIES.

Record LedgerHeaderHistoryEntry := mkEntry { hhe_hash : Z; hhe_header : LedgerHeader }.

Abbreviation LedgerNumHashPair := (Z * option Z)%type (only parsing).

(** What [XDRInputFileStream::readOne] does for the next record of a file: it reads an
    entry, or throws [xdr_bad_message_size], or another exception of XDR.  After the last
    record it returns [false]. *)
Inductive XDRRecord :=
  | Entry_ (e : LedgerHeaderHistoryEntry)
  | BadMessageSize
  | Malformed.

(** What the work is constructed with, and the files of the download directory by
    checkpoint; a file may be missing. *)
Record Chain := mkChain {
  historyManager : HistoryManager;
  LEDGER_PROTOCOL_VERSION : Z;
  mRange : LedgerRange;
  mLastClosed : LedgerNumHashPair;
  mTrustedMaxLedger : option LedgerNumHashPair;
  files : Z -> option (list XDRRecord) }.

(** The members that change. *)
Record VerifyState := mkVerify {
  mCurrCheckpoint : Z;
  mVerifiedAhead : LedgerNumHashPair;
  mVerifiedMinLedgerPrev : option LedgerNumHashPair;
  mMaxVerifiedLedgerOfMinCheckpoint : LedgerHeaderHistoryEntry;
  mVerifiedLedgers : list LedgerNumHashPair }.

Definition zeroHeader : LedgerHeader :=
  mkHeader 0 0 (mkHcnetValue 0 0 []) 0 0 0 0 0 0 0 0 0 0 [0; 0; 0; 0] None.
Definition zeroEntry : LedgerHeaderHistoryEntry := mkEntry 0 zeroHeader.

Definition seqOf (e : LedgerHeaderHistoryEntry) : Z := ledgerSeq (hhe_header e).

(** ** Operations *)

Definition setCheckpoint (c : Z) (s : VerifyState) : VerifyState :=
  mkVerify c (mVerifiedAhead s) (mVerifiedMinLedgerPrev s) (mMaxVerifiedLedgerOfMinCheckpoint s)
    (mVerifiedLedgers s).
Definition setAhead (p : LedgerNumHashPair) (s : VerifyState) : VerifyState :=
  mkVerify (mCurrCheckpoint s) p (mVerifiedMinLedgerPrev s) (mMaxVerifiedLedgerOfMinCheckpoint s)
    (mVerifiedLedgers s).
Definition setMin (o : option LedgerNumHashPair) (e : LedgerHeaderHistoryEntry) (s : VerifyState) : VerifyState :=
  mkVerify (mCurrCheckpoint s) (mVerifiedAhead s) o e (mVerifiedLedgers s).
Definition pushVerified (p : LedgerNumHashPair) (s : VerifyState) : VerifyState :=
  mkVerify (mCurrCheckpoint s) (mVerifiedAhead s) (mVerifiedMinLedgerPrev s)
    (mMaxVerifiedLedgerOfMinCheckpoint s) (mVerifiedLedgers s ++ [p]).

Section Verify.
Context (sha : LedgerHeader -> Z) (ch : Chain).

Definition verifyLedgerHistoryEntry (hhe : LedgerHeaderHistoryEntry) : LedgerVerificationStatus :=
  let calculated := sha (hhe_header hhe) in
  if negb (calculated =? hhe_hash hhe) then VERIFY_STATUS_ERR_BAD_HASH else VERIFY_STATUS_OK.

Definition verifyLedgerHistoryLink (prev : Z) (curr : LedgerHeaderHistoryEntry) : LedgerVerificationStatus :=
  match verifyLedgerHistoryEntry curr with
  | VERIFY_STATUS_OK =>
      if negb (prev =? previousLedgerHash (hhe_header curr)) then VERIFY_STATUS_ERR_BAD_HASH
      else VERIFY_STATUS_OK
  | entryResult => entryResult
  end.

Definition verifyLastLedgerInCheckpoint (ledger : LedgerHeaderHistoryEntry) (verifiedAhead : LedgerNumHashPair)
    : M VerifyState LedgerVerificationStatus :=
  do* dbgAssert (seqOf ledger =? fst verifiedAhead) "ledger.header.ledgerSeq == verifiedAhead.first" in
  match snd verifiedAhead with
  | None => mret VERIFY_STATUS_OK
  | Some trustedHash =>
      if negb (hhe_hash ledger =? trustedHash) then mret VERIFY_STATUS_ERR_BAD_HASH
      else mret VERIFY_STATUS_OK
  end.

(** The last checkpoint of the range, where the work starts. *)
Definition lastCheckpoint : exc Z :=
  if lr_count (mRange ch) =? 0 then mret 0
  else
    let* last := lr_last (mRange ch) in
    mret (checkpointContainingLedger (historyManager ch) last).

(** The constructor. *)
Definition newVerifyLedgerChainWork : exc VerifyState :=
  let* c := lastCheckpoint in
  do* releaseAssert (GENESIS_LEDGER_SEQ <=? fst (mLastClosed ch))
    "lastClosedLedger.first >= LedgerManager::GENESIS_LEDGER_SEQ" in
  do* releaseAssert (bool_decide (is_Some (snd (mLastClosed ch)))) "lastClosedLedger.second" in
  mret (mkVerify c (0, None) None zeroEntry []).

(** [VerifyLedgerChainWork::onReset]; the promise keeps its value. *)
Definition verifyOnReset : M VerifyState unit :=
  let* c := lift lastCheckpoint in
  modify (fun s => mkVerify c (0, None) (mVerifiedMinLedgerPrev s) zeroEntry []).

(** The comparison with the last closed ledger. *)
Definition checkLastClosed (curr : LedgerHeaderHistoryEntry) : M VerifyState LedgerVerificationStatus :=
  if seqOf curr =? fst (mLastClosed ch) then
    let* lclHash := deref (snd (mLastClosed ch)) "*mLastClosed.second" in
    mret (if negb (sha (hhe_header curr) =? lclHash) then VERIFY_STATUS_ERR_BAD_HASH else VERIFY_STATUS_OK)
  else if seqOf curr =? u32 (fst (mLastClosed ch) + 1) then
    let* lclHash := deref (snd (mLastClosed ch)) "*mLastClosed.second" in
    mret (verifyLedgerHistoryLink lclHash curr)
  else mret VERIFY_STATUS_OK.

(** The comparison with the previous ledger of the file, if there is one. *)
Definition checkPrevious (prev : option LedgerHeaderHistoryEntry) (curr : LedgerHeaderHistoryEntry)
    : LedgerVerificationStatus :=
  match prev with
  | None => verifyLedgerHistoryEntry curr
  | Some prev =>
      let expectedSeq := u32 (seqOf prev + 1) in
      if seqOf curr <? expectedSeq then VERIFY_STATUS_ERR_UNDERSHOT
      else if expectedSeq <? seqOf curr then VERIFY_STATUS_ERR_OVERSHOT
      else verifyLedgerHistoryLink (hhe_hash prev) curr
  end.

(** The loop over the records: [found] holds [first] and [prev] after the first iteration.
    It returns the status that ends the verification, or [first] and [curr]. *)
Fixpoint scanRecords (records : list XDRRecord)
    (found : option (LedgerHeaderHistoryEntry * LedgerHeaderHistoryEntry))
    : M VerifyState (LedgerVerificationStatus + LedgerHeaderHistoryEntry * LedgerHeaderHistoryEntry) :=
  match records with
  | [] => mret (inr (default (zeroEntry, zeroEntry) found))
  | BadMessageSize :: _ => mret (inl VERIFY_STATUS_ERR_BAD_LEDGER_VERSION)
  | Malformed :: _ => throw "malformed XDR file"
  | Entry_ curr :: records =>
      if LEDGER_PROTOCOL_VERSION ch <? ledgerVersion (hhe_header curr)
      then mret (inl VERIFY_STATUS_ERR_BAD_LEDGER_VERSION)
      else
        let* lclResult := checkLastClosed curr in
        match lclResult with
        | VERIFY_STATUS_OK =>
            match checkPrevious (snd <$> found) curr with
            | VERIFY_STATUS_OK =>
                let first := default curr (fst <$> found) in
                let* last := lift (lr_last (mRange ch)) in
                if seqOf curr =? last then mret (inr (first, curr))
                else scanRecords records (Some (first, curr))
            | status => mret (inl status)
            end
        | status => mret (inl status)
        end
  end.

Definition FileSystemException : string := "FileSystemException".

(** The hash-link the last ledger of the checkpoint has to agree with. *)
Definition incomingLink (incoming : LedgerNumHashPair) (curr : LedgerHeaderHistoryEntry)
    : M VerifyState LedgerNumHashPair :=
  let* last := lift (lr_last (mRange ch)) in
  if seqOf curr =? last then
    do* dbgAssert (fst incoming =? 0) "incoming.first == 0" in
    do* dbgAssert (negb (bool_decide (is_Some (snd incoming)))) "!incoming.second.has_value()" in
    do* dbgAssert (bool_decide (is_Some (mTrustedMaxLedger ch))) "futureIsReady(mTrustedMaxLedger)" in
    let* incoming := deref (mTrustedMaxLedger ch) "mTrustedMaxLedger.get()" in
    do* dbgAssert (fst incoming =? seqOf curr) "incoming.first == curr.header.ledgerSeq" in
    mret incoming
  else
    do* dbgAssert (bool_decide (is_Some (snd incoming))) "incoming.second" in
    do* dbgAssert (negb (fst incoming =? 0)) "incoming.first != 0" in
    mret incoming.

(** The end of [verifyHistoryOfSingleCheckpoint], after the loop. *)
Definition finishCheckpoint (first curr : LedgerHeaderHistoryEntry) : M VerifyState LedgerVerificationStatus :=
  let* s := get in
  let* last := lift (lr_last (mRange ch)) in
  if negb (seqOf curr =? mCurrCheckpoint s) && negb (seqOf curr =? last)
  then mret VERIFY_STATUS_ERR_MISSING_ENTRIES
  else
    let outgoing := (u32 (seqOf first - 1), Some (previousLedgerHash (hhe_header first))) in
    do* modify (setAhead outgoing) in
    let* incoming := incomingLink (mVerifiedAhead s) curr in
    let* verifyTrustedHash := verifyLastLedgerInCheckpoint curr incoming in
    match verifyTrustedHash with
    | VERIFY_STATUS_OK =>
        do* (if mCurrCheckpoint s =? checkpointContainingLedger (historyManager ch) (lr_first (mRange ch)) then
               (* a promise that already has a value keeps it *)
               modify (fun s => setMin (Some (default outgoing (mVerifiedMinLedgerPrev s))) curr s)
             else mret tt) in
        do* modify (pushVerified (seqOf curr, Some (hhe_hash curr))) in
        mret VERIFY_STATUS_OK
    | status =>
        do* dbgAssert (bool_decide (is_Some (snd incoming))) "incoming.second" in
        mret status
    end.

Definition verifyHistoryOfSingleCheckpoint : M VerifyState LedgerVerificationStatus :=
  let* s := get in
  match files ch (mCurrCheckpoint s) with
  | None => throw FileSystemException
  | Some records =>
      let* r := scanRecords records None in
      match r with
      | inl status => mret status
      | inr (first, curr) => finishCheckpoint first curr
      end
  end.

(** The [try] of [onRun]: [None] is the result when a file cannot be read. *)
Definition catchFileSystemException (m : M VerifyState LedgerVerificationStatus)
    : M VerifyState (option LedgerVerificationStatus) := fun s =>
  match m s with
  | Ok status s' => Ok (Some status) s'
  | Err (Throw what) s' =>
      if decide (what = FileSystemException) then Ok None s' else Err (Throw what) s'
  | Err f s' => Err f s'
  end.

(** [VerifyLedgerChainWork::onRun]. *)
Definition verifyOnRun : M VerifyState State :=
  if lr_count (mRange ch) =? 0 then mret WORK_SUCCESS
  else
    let* s := get in
    let firstCheckpoint := checkpointContainingLedger (historyManager ch) (lr_first (mRange ch)) in
    if mCurrCheckpoint s <? firstCheckpoint
    then throw "Verification undershot first ledger in the range."
    else
      let* result := catchFileSystemException verifyHistoryOfSingleCheckpoint in
      match result with
      | Some VERIFY_STATUS_OK =>
          if mCurrCheckpoint s =? firstCheckpoint then mret WORK_SUCCESS
          else
            do* modify (fun s => setCheckpoint
              (u32 (mCurrCheckpoint s - getCheckpointFrequency (historyManager ch))) s) in
            mret WORK_RUNNING
      | _ => mret WORK_FAILURE
      end.

(** The work is cranked as long as it is running. *)
Fixpoint verifyChain (fuel : nat) : M VerifyState State :=
  match fuel with
  | O => fail OutOfFuel
  | S fuel =>
      let* st := verifyOnRun in
      match st with
      | WORK_RUNNING => verifyChain fuel
      | _ => mret st
      end
  end.

End Verify.

(** ** Chains of headers *)

(** Unfolds a step of the monad. *)
Ltac mrun := unfold deref, dbgAssert, throw, fail, lift, get, modify, bnd, mbind, M_bind, mret, M_ret;
  cbv beta iota.

Section Chains.
Context (sha : LedgerHeader -> Z) (ch : Chain).

(** [e] continues [prev]. *)
Definition linked (prev e : LedgerHeaderHistoryEntry) : Prop :=
  seqOf e = u32 (seqOf prev + 1) /\ previousLedgerHash (hhe_header e) = hhe_hash prev.

(** The newest entry comes first. *)
Fixpoint links (l : list LedgerHeaderHistoryEntry) : Prop :=
  match l with
  | [] => True
  | e :: l' => match l' with [] => True | prev :: _ => linked prev e end /\ links l'
  end.

(** [e] comes from a file of the archive. *)
Definition Archived (e : LedgerHeaderHistoryEntry) : Prop :=
  exists cp records, files ch cp = Some records /\ Entry_ e ∈ records.

(** What is known of each entry by itself. *)
Record Good (e : LedgerHeaderHistoryEntry) : Prop := mkGood {
  good_archived : Archived e;
  good_type : wf32 (seqOf e);
  good_hash : sha (hhe_header e) = hhe_hash e;
  good_version : ledgerVersion (hhe_header e) <= LEDGER_PROTOCOL_VERSION ch;
  good_lcl lclHash : snd (mLastClosed ch) = Some lclHash -> seqOf e = fst (mLastClosed ch) ->
    hhe_hash e = lclHash;
  good_after_lcl lclHash : snd (mLastClosed ch) = Some lclHash ->
    seqOf e = u32 (fst (mLastClosed ch) + 1) -> seqOf e <> fst (mLastClosed ch) ->
    previousLedgerHash (hhe_header e) = lclHash }.

(** A verified chain from [first] to [curr]. *)
Record Segment (first curr : LedgerHeaderHistoryEntry) (l : list LedgerHeaderHistoryEntry) : Prop := mkSegment {
  seg_links : links l;
  seg_good : Forall Good l;
  seg_curr : head l = Some curr;
  seg_first : last l = Some first }.

Lemma links_app l x y l' : links (l ++ [x]) -> links (y :: l') -> linked y x -> links ((l ++ [x]) ++ y :: l').
Proof.
  intros Hl Hl' Hxy. rewrite <-app_assoc. cbn [app]. induction l as [|e l IH]; cbn [app] in *; [done|].
  destruct Hl as [Hh Hl]. split; [|auto]. by destruct l.
Qed.

Lemma Segment_app first x y curr A B :
  Segment x curr A -> Segment first y B -> linked y x -> Segment first curr (A ++ B).
Proof.
  intros [HlA HgA HcA HfA] [HlB HgB HcB HfB] Hxy.
  apply last_Some in HfA as [A' ->]. destruct B as [|y' B]; [done|]. injection HcB as ->. split.
  - by apply links_app.
  - by apply Forall_app.
  - by destruct A'.
  - rewrite last_app, HfB. done.
Qed.

Lemma Segment_one e : Good e -> Segment e e [e].
Proof. intros He. split; [done|by constructor|done|done]. Qed.

Lemma Segment_cons first prev e l : Good e -> linked prev e -> Segment first prev l -> Segment first e (e :: l).
Proof. intros He Hl Hs. by apply (Segment_app first e prev e [e] l); [apply Segment_one|..]. Qed.

Lemma entry_ok e : verifyLedgerHistoryEntry sha e = VERIFY_STATUS_OK -> sha (hhe_header e) = hhe_hash e.
Proof. unfold verifyLedgerHistoryEntry. by destruct (Z.eqb_spec (sha (hhe_header e)) (hhe_hash e)). Qed.

Lemma link_ok prev e : verifyLedgerHistoryLink sha prev e = VERIFY_STATUS_OK ->
  sha (hhe_header e) = hhe_hash e /\ previousLedgerHash (hhe_header e) = prev.
Proof.
  unfold verifyLedgerHistoryLink. destruct (verifyLedgerHistoryEntry sha e) eqn:E; try done.
  apply entry_ok in E. by destruct (Z.eqb_spec prev (previousLedgerHash (hhe_header e))).
Qed.

Lemma previous_ok prev e : checkPrevious sha prev e = VERIFY_STATUS_OK ->
  sha (hhe_header e) = hhe_hash e /\ match prev with Some p => linked p e | None => True end.
Proof.
  destruct prev as [p|]; cbn; [|by intros ?%entry_ok].
  destruct (Z.ltb_spec (seqOf e) (u32 (seqOf p + 1))); [done|].
  destruct (Z.ltb_spec (u32 (seqOf p + 1)) (seqOf e)); [done|].
  intros [??]%link_ok. repeat split; [done|lia|done].
Qed.

Lemma lcl_ok e s s' :
  checkLastClosed sha ch e s = Ok VERIFY_STATUS_OK s' ->
  s' = s /\
  (forall lclHash, snd (mLastClosed ch) = Some lclHash -> seqOf e = fst (mLastClosed ch) ->
     sha (hhe_header e) = lclHash) /\
  (forall lclHash, snd (mLastClosed ch) = Some lclHash -> seqOf e = u32 (fst (mLastClosed ch) + 1) ->
     seqOf e <> fst (mLastClosed ch) -> previousLedgerHash (hhe_header e) = lclHash).
Proof.
  unfold checkLastClosed. destruct (Z.eqb_spec (seqOf e) (fst (mLastClosed ch))) as [E|E].
  - destruct (snd (mLastClosed ch)) as [h|]; [|done]. mrun.
    destruct (Z.eqb_spec (sha (hhe_header e)) h); [|done]. intros [= ->]. naive_solver.
  - destruct (Z.eqb_spec (seqOf e) (u32 (fst (mLastClosed ch) + 1))).
    + destruct (snd (mLastClosed ch)) as [h|]; [|done]. mrun. intros [= [_ Hp]%link_ok ->]. naive_solver.
    + intros [= ->]. naive_solver.
Qed.

(** The loop leaves a verified chain, unless the file is empty. *)
Lemma scan_sound records found l0 s s' first curr :
  (forall e, Entry_ e ∈ records -> Archived e /\ wf32 (seqOf e)) ->
  match found with Some (f, p) => Segment f p l0 | None => l0 = [] end ->
  scanRecords sha ch records found s = Ok (inr (first, curr)) s' ->
  s' = s /\
  ((found = None /\ first = zeroEntry /\ curr = zeroEntry) \/
   exists l, Segment first curr l /\ (length l <= length l0 + length records)%nat).
Proof.
  revert found l0. induction records as [|r records IH]; intros found l0 Ht Hf.
  { cbn [scanRecords]. mrun. intros [= E ->]. split; [done|]. destruct found as [[f p]|]; injection E as <- <-; [right|by left].
    exists l0. split; [done|cbn; lia]. }
  destruct r as [e| |]; cbn [scanRecords]; [|done|done].
  destruct (Z.ltb_spec (LEDGER_PROTOCOL_VERSION ch) (ledgerVersion (hhe_header e))) as [|Hver]; [done|].
  mrun. destruct (checkLastClosed sha ch e s) as [[] s0|] eqn:Elcl; try done.
  apply lcl_ok in Elcl as (-> & Hlcl & Hafter).
  destruct (checkPrevious sha (snd <$> found) e) eqn:Ep; try done. apply previous_ok in Ep as [Hsha Hprev].
  assert (He : Good e).
  { destruct (Ht e) as [??]; [by left|]. split; try done. intros h Hh Hs. rewrite <-Hsha. by apply (Hlcl h). }
  set (f := default e (fst <$> found)).
  assert (Hseg : Segment f e (e :: l0)).
  { destruct found as [[f0 p]|]; cbn in *; [by eapply Segment_cons|]. rewrite Hf. by apply Segment_one. }
  destruct (lr_last (mRange ch)) as [|last_]; [done|].
  destruct (seqOf e =? last_).
  - intros [= <- <- <-]. split; [done|]. right. exists (e :: l0). split; [done|cbn; lia].
  - intros E. destruct (IH (Some (f, e)) (e :: l0)) as (-> & [(? & _)|(l & Hl & Hlen)]);
      [intros x Hx; apply Ht; by right|done|done|done|].
    split; [done|]. right. exists l. split; [done|]. cbn in *. lia.
Qed.

End Chains.
