(* ===== verification/VerifyFacts.v ===== *)
(** * What the verification of a ledger chain guarantees

    Soundness and completeness of [VerifyChain], and two weaknesses of it.  Nothing is
    assumed of the hash function: where a header the work accepted is not the one of the
    true chain, the archive holds a second preimage of the hash of a true header. *)

From stdpp Require Import base list strings.
From S2P Require Import Prelude Entries WorkModel Checkpoints VerifyChain.

Local Open Scope Z_scope.

#[export] Instance HcnetValue_eq_dec : EqDecision HcnetValue.
Proof. solve_decision. Defined.
#[export] Instance LedgerHeader_eq_dec : EqDecision LedgerHeader.
Proof. solve_decision. Defined.

(** The true chain: [honest n] is the header of ledger [n]. *)
Record Honest (sha : LedgerHeader -> Z) (honest : Z -> LedgerHeader) (last : Z) : Prop := mkHonest {
  honest_seq n : 1 <= n <= last -> ledgerSeq (honest n) = n;
  honest_link n : 1 <= n < last -> previousLedgerHash (honest (n + 1)) = sha (honest n) }.

(** The archive has a header that is not in the true chain but has the hash of one that
    is: a second preimage of the hash function. *)
Definition Forged (sha : LedgerHeader -> Z) (ch : Chain) (honest : Z -> LedgerHeader) (last : Z) : Prop :=
  exists e n, Archived ch e /\ 1 <= n <= last /\ hhe_header e <> honest n /\ sha (hhe_header e) = sha (honest n).

Section Soundness.
Context (sha : LedgerHeader -> Z) (ch : Chain) (top : Z).
Context (Htop : lr_last (mRange ch) = inr top) (Hwf : 0 < top <= UINT32_MAX)
  (Hrange : 0 < lr_first (mRange ch) <= top) (Hcount : lr_count (mRange ch) <> 0).
Context (Htyped : forall e, Archived ch e -> wf32 (seqOf e))
  (Hshort : forall cp records, files ch cp = Some records -> Z.of_nat (length records) + top <= UINT32_MAX).

Let freq := getCheckpointFrequency (historyManager ch).
Let bottom := checkpointContainingLedger (historyManager ch) (lr_first (mRange ch)).

(** ** Positions in a chain *)

Lemma links_seq l e k x : links l -> Forall (Good sha ch) l -> head l = Some e -> l !! k = Some x ->
  seqOf x = u32 (seqOf e - Z.of_nat k).
Proof.
  revert e k. induction l as [|y l IH]; intros e k Hl Hg He Hk; [done|]. injection He as ->.
  inversion Hg as [|? ? Hge Hgl]; subst. destruct k as [|k].
  - injection Hk as <-. rewrite Z.sub_0_r. symmetry. apply u32_small, Hge.
  - cbn in Hk. destruct l as [|p l]; [done|]. destruct Hl as [[Hs _] Hl].
    rewrite (IH p k Hl Hgl eq_refl Hk). inversion Hgl as [|? ? Hgp _]; subst.
    pose proof (good_type _ _ _ Hgp) as Hp. pose proof (good_type _ _ _ Hge) as Hte. unfold wf32 in *.
    rewrite Hs. rewrite Nat2Z.inj_succ. u32_lia.
Qed.

Lemma Segment_length first curr l : Segment sha ch first curr l ->
  0 < Z.of_nat (length l) /\ l !! (length l - 1)%nat = Some first.
Proof.
  intros [_ _ _ Hf]. apply last_Some in Hf as [l' ->]. rewrite length_app. cbn. split; [lia|].
  rewrite lookup_app_r by lia. by replace (length l' + 1 - 1 - length l')%nat with 0%nat by lia.
Qed.

(** The first entry is where the length of the chain says, or above the range. *)
Lemma Segment_first first curr l :
  Segment sha ch first curr l -> seqOf curr <= top -> Z.of_nat (length l) + top <= UINT32_MAX ->
  Z.of_nat (length l) - 1 = seqOf curr - seqOf first \/ top < seqOf first.
Proof.
  intros HS Hc Hlen. destruct (Segment_length _ _ _ HS) as [Hpos Hfirst]. destruct HS as [Hl Hg Hh Hf].
  pose proof (links_seq l curr _ first Hl Hg Hh Hfirst) as E.
  assert (0 <= seqOf curr) by (destruct l; [done|]; injection Hh as <-; inversion Hg as [|? ? Hgc _]; apply Hgc).
  rewrite Nat2Z.inj_sub in E by lia. rewrite E. unfold u32, UINT32_MAX in *.
  Z.to_euclidean_division_equations. lia.
Qed.

(** ** The state between two cranks *)

(** [above] is the chain verified so far, from [e] to the last ledger of the range. *)
Record Progress (s : VerifyState) (above : list LedgerHeaderHistoryEntry)
    (e last : LedgerHeaderHistoryEntry) : Prop := mkProgress {
  pr_segment : Segment sha ch e last above;
  pr_last : seqOf last = top;
  pr_trusted : exists o, mTrustedMaxLedger ch = Some (top, o) /\ (forall h, o = Some h -> hhe_hash last = h);
  pr_ahead : mVerifiedAhead s = (u32 (seqOf e - 1), Some (previousLedgerHash (hhe_header e)));
  pr_position : Z.of_nat (length above) - 1 = top - seqOf e \/ top < seqOf e;
  pr_verified n o : (n, o) ∈ mVerifiedLedgers s -> exists x k,
    above !! k = Some x /\ seqOf x = n /\ o = Some (hhe_hash x) /\ Z.of_nat k = top - n }.

Definition atStart (s : VerifyState) : Prop :=
  mVerifiedAhead s = (0, None) /\ mVerifiedLedgers s = [] /\
  mCurrCheckpoint s = checkpointContainingLedger (historyManager ch) top.

Lemma incoming_ok inc i curr s s' :
  incomingLink ch inc curr s = Ok i s' ->
  s' = s /\
  if decide (seqOf curr = top) then inc = (0, None) /\ mTrustedMaxLedger ch = Some i
  else i = inc /\ is_Some (snd inc).
Proof.
  unfold incomingLink. mrun. rewrite Htop. destruct inc as [n [h|]]; cbn [fst snd].
  - destruct (Z.eqb_spec (seqOf curr) top) as [E|E].
    + destruct (n =? 0); by cbn.
    + cbn. destruct (n =? 0); cbn; [done|]. intros [= <- <-]. by rewrite decide_False.
  - destruct (Z.eqb_spec (seqOf curr) top) as [E|E]; [|done].
    destruct (Z.eqb_spec n 0) as [->|]; cbn; [|done]. destruct (mTrustedMaxLedger ch) as [[m o]|]; [|done]. cbn.
    destruct (Z.eqb_spec m (seqOf curr)); [|done]. intros [= <- <-]. by rewrite decide_True.
Qed.

Lemma last_ok inc curr s s' :
  verifyLastLedgerInCheckpoint curr inc s = Ok VERIFY_STATUS_OK s' ->
  s' = s /\ fst inc = seqOf curr /\ forall h, snd inc = Some h -> hhe_hash curr = h.
Proof.
  unfold verifyLastLedgerInCheckpoint. mrun.
  destruct (Z.eqb_spec (seqOf curr) (fst inc)) as [E|E]; [|done].
  destruct (snd inc) as [h|]; [destruct (Z.eqb_spec (hhe_hash curr) h); [|done]|];
    intros [= <-]; split_and!; naive_solver.
Qed.

(** The state a verified checkpoint leaves. *)
Definition finished (first curr : LedgerHeaderHistoryEntry) (s : VerifyState) : VerifyState :=
  let outgoing := (u32 (seqOf first - 1), Some (previousLedgerHash (hhe_header first))) in
  pushVerified (seqOf curr, Some (hhe_hash curr))
    (if mCurrCheckpoint s =? bottom
     then setMin (Some (default outgoing (mVerifiedMinLedgerPrev s))) curr (setAhead outgoing s)
     else setAhead outgoing s).

(** What a crank that verifies its checkpoint does. *)
Lemma finish_ok first curr s s' :
  finishCheckpoint ch first curr s = Ok VERIFY_STATUS_OK s' ->
  s' = finished first curr s /\
  (seqOf curr = mCurrCheckpoint s \/ seqOf curr = top) /\
  exists incoming,
    (if decide (seqOf curr = top) then mVerifiedAhead s = (0, None) /\ mTrustedMaxLedger ch = Some incoming
     else incoming = mVerifiedAhead s /\ is_Some (snd (mVerifiedAhead s))) /\
    fst incoming = seqOf curr /\ (forall h, snd incoming = Some h -> hhe_hash curr = h).
Proof.
  unfold finishCheckpoint. mrun. rewrite Htop.
  destruct (negb (seqOf curr =? mCurrCheckpoint s) && negb (seqOf curr =? top)) eqn:Eend; [done|].
  destruct (incomingLink _ _ _ _) as [i s1|] eqn:Ei; [|done]. apply incoming_ok in Ei as [-> Hi].
  destruct (verifyLastLedgerInCheckpoint _ _ _) as [st s2|] eqn:El; [|done].
  destruct st; try (by destruct (bool_decide _)). apply last_ok in El as (-> & Hs & Hh).
  intros E. split_and!.
  - revert E. unfold finished, bottom. destruct (mCurrCheckpoint s =? _); cbn; intros E; by injection E.
  - apply andb_false_iff in Eend as [E1|E1]; apply negb_false_iff, Z.eqb_eq in E1; auto.
  - exists i. by split_and!.
Qed.

(** ** A crank *)

Lemma bottom_bounds : bottom < lr_first (mRange ch) + freq /\ lr_first (mRange ch) <= bottom /\
  checkpointContainingLedger (historyManager ch) bottom = bottom.
Proof.
  unfold bottom, freq. destruct (frequency_cases (historyManager ch)) as [E|E];
    rewrite !checkpoint_eq, ?E; rewrite ?E; try u32_lia; rewrite checkpoint_eq; rewrite E; u32_lia.
Qed.

Lemma scan_failure records found s s' :
  scanRecords sha ch records found s <> Ok (inl VERIFY_STATUS_OK) s'.
Proof.
  revert found. induction records as [|r records IH]; intros found; cbn [scanRecords]; [done|].
  destruct r as [e| |]; [|done..]. destruct (_ <? _); [done|]. mrun.
  destruct (checkLastClosed sha ch e s) as [st s1|] eqn:El; [|done].
  assert (s1 = s) as ->.
  { revert El. unfold checkLastClosed. mrun. destruct (_ =? _), (snd (mLastClosed ch)); try done; cbn; try congruence;
      destruct (_ =? _); congruence. }
  destruct st; try done. destruct (checkPrevious _ _ _); try done.
  destruct (lr_last _); [done|]. destruct (_ =? _); [done|]. apply IH.
Qed.

(** A checkpoint that is verified adds its headers to the chain. *)
Lemma checkpoint_sound s s' :
  0 < mCurrCheckpoint s ->
  verifyHistoryOfSingleCheckpoint sha ch s = Ok VERIFY_STATUS_OK s' ->
  exists first curr l, Segment sha ch first curr l /\ Z.of_nat (length l) + top <= UINT32_MAX /\
    finishCheckpoint ch first curr s = Ok VERIFY_STATUS_OK s'.
Proof.
  intros Hpos. unfold verifyHistoryOfSingleCheckpoint. mrun.
  destruct (files ch (mCurrCheckpoint s)) as [records|] eqn:Ef; [|done].
  destruct (scanRecords sha ch records None s) as [[st|[first curr]] s1|] eqn:Es; try done.
  { intros [= -> ->]. by apply scan_failure in Es. }
  intros E. apply (scan_sound sha ch records None []) in Es as (-> & Hs); [| |done].
  2:{ intros e He. assert (Archived ch e) by (by exists (mCurrCheckpoint s), records). auto. }
  destruct Hs as [(_ & -> & ->)|(l & Hl & Hlen)].
  - apply finish_ok in E as (_ & [H0|H0] & _); cbn in H0; lia.
  - exists first, curr, l. split_and!; [done| |done]. specialize (Hshort _ _ Ef). cbn in Hlen. lia.
Qed.

(** The first crank. *)
Lemma first_checkpoint_sound s s' :
  atStart s -> verifyHistoryOfSingleCheckpoint sha ch s = Ok VERIFY_STATUS_OK s' ->
  exists above first last, Progress s' above first last /\ s' = finished first last s.
Proof.
  intros (Ha & Hv & Hcp) E. apply checkpoint_sound in E as (first & curr & l & HS & Hlen & E).
  2:{ rewrite Hcp, checkpoint_eq by lia. destruct (frequency_cases (historyManager ch)) as [-> | ->]; u32_lia. }
  apply finish_ok in E as (-> & _ & inc & Hinc & Hs & Hh). rewrite Ha in Hinc.
  destruct (decide (seqOf curr = top)) as [Et|]; [|by destruct Hinc as (_ & [? ?])].
  destruct Hinc as [_ Ht]. exists l, first, curr. split; [|done].
  assert (Hfin : mVerifiedAhead (finished first curr s) = (u32 (seqOf first - 1), Some (previousLedgerHash (hhe_header first))) /\
    mVerifiedLedgers (finished first curr s) = mVerifiedLedgers s ++ [(seqOf curr, Some (hhe_hash curr))]).
  { unfold finished. by destruct (_ =? _). }
  destruct Hfin as [Hf1 Hf2]. split; try done.
  - exists (snd inc). rewrite Ht. destruct inc as [n o]. cbn in *. subst n. by rewrite Et.
  - rewrite <-Et. destruct (Segment_first first curr l HS) as [?|?]; [lia|lia|by left|right; lia].
  - intros n o. rewrite Hf2, Hv. cbn. intros [= -> ->]%list_elem_of_singleton. exists curr, 0%nat.
    destruct HS as [_ _ Hc _]. split_and!; [by destruct l|done|done|lia].
Qed.

(** The others: the hash-link from the checkpoint ahead joins the chains. *)
Lemma next_checkpoint_sound s s' above e lst :
  0 < mCurrCheckpoint s < top -> Progress s above e lst ->
  verifyHistoryOfSingleCheckpoint sha ch s = Ok VERIFY_STATUS_OK s' ->
  exists first curr l, Progress s' (above ++ l) first lst /\ s' = finished first curr s /\
    seqOf curr = mCurrCheckpoint s /\ Segment sha ch first curr l /\
    Z.of_nat (length above) = top - mCurrCheckpoint s.
Proof.
  intros Hcp [HS Hl Ht Ha Hp Hv] E. apply checkpoint_sound in E as (first & curr & l & HSl & Hlen & E); [|lia].
  apply finish_ok in E as (-> & Hend & inc & Hinc & Hs & Hh). rewrite Ha in Hinc.
  destruct (decide (seqOf curr = top)) as [Et|Et]; [by destruct Hinc|]. destruct Hinc as [-> _]. cbn in Hs, Hh.
  destruct Hend as [Hc|]; [|done]. specialize (Hh _ eq_refl).
  assert (Hge : wf32 (seqOf e)).
  { destruct HS as [_ Hg _ Hf]. apply last_Some in Hf as [l' ->]. apply Forall_app in Hg as [_ Hg].
    inversion Hg as [|? ? G _]. apply G. }
  unfold wf32 in Hge.
  assert (He : seqOf e = mCurrCheckpoint s + 1 /\ Z.of_nat (length above) - 1 = top - seqOf e) by (destruct Hp; u32_lia).
  destruct He as [He Hlen'].
  assert (Hlink : linked curr e). { split; [rewrite Hc, He; symmetry; apply u32_small; lia|done]. }
  assert (Hf2 : mVerifiedLedgers (finished first curr s) = mVerifiedLedgers s ++ [(seqOf curr, Some (hhe_hash curr))])
    by (unfold finished; by destruct (_ =? _)).
  exists first, curr, l. split_and!; [|done|done|done|lia]. split; try done.
  - by eapply Segment_app.
  - unfold finished. by destruct (_ =? _).
  - rewrite length_app, Nat2Z.inj_add. destruct (Segment_first first curr l HSl) as [?|?]; [lia|lia|left; lia|by right].
  - intros n o. rewrite Hf2. intros [Hin|[= -> ->]%list_elem_of_singleton]%elem_of_app.
    + destruct (Hv n o Hin) as (x & k & Hx & ? & ? & ?). exists x, k. split_and!; [|done..].
      by apply lookup_app_l_Some.
    + exists curr, (length above). split_and!; [|done|done|lia].
      rewrite lookup_app_r, Nat.sub_diag by lia. destruct HSl as [_ _ Hcu _]. by destruct l.
Qed.

(** ** A run *)

Definition isCheckpoint (c : Z) : Prop := checkpointContainingLedger (historyManager ch) c = c.

(** Every checkpoint of the range above [c] has been verified. *)
Definition verifiedAbove (c : Z) (s : VerifyState) : Prop :=
  forall cp, isCheckpoint cp -> c < cp <= top -> exists o, (cp, o) ∈ mVerifiedLedgers s.

Record Running (s : VerifyState) : Prop := mkRunning {
  rn_promise : mVerifiedMinLedgerPrev s = None;
  rn_checkpoint : isCheckpoint (mCurrCheckpoint s);
  rn_bounds : bottom <= mCurrCheckpoint s <= UINT32_MAX;
  rn_above : verifiedAbove (mCurrCheckpoint s) s;
  rn_progress : atStart s \/ mCurrCheckpoint s < top /\ exists above e lst, Progress s above e lst }.

(** The outcome of a run that succeeds. *)
Record Verified (s : VerifyState) (above : list LedgerHeaderHistoryEntry)
    (first lst curr : LedgerHeaderHistoryEntry) : Prop := mkVerified {
  vf_progress : Progress s above first lst;
  vf_all : verifiedAbove (bottom - 1) s;
  vf_max : mMaxVerifiedLedgerOfMinCheckpoint s = curr;
  vf_position : exists k, above !! k = Some curr /\ seqOf curr = Z.min bottom top /\
    Z.of_nat k = top - seqOf curr;
  vf_prev : mVerifiedMinLedgerPrev s = Some (u32 (seqOf first - 1), Some (previousLedgerHash (hhe_header first))) }.

Lemma checkpoint_multiple c : 0 <= c <= UINT32_MAX -> isCheckpoint c <-> (c + 1) mod freq = 0.
Proof.
  intros Hc. unfold isCheckpoint. rewrite checkpoint_eq by done. fold freq.
  assert (freq = 8 \/ freq = 64) as [-> | ->] by apply frequency_cases; u32_lia.
Qed.

(** One crank of [onRun] verifies the checkpoint and moves to the one before. *)
Lemma verified_crank s s' st :
  Running s -> verifyOnRun sha ch s = Ok st s' -> st = WORK_RUNNING \/ st = WORK_SUCCESS ->
  exists s1 above first lst curr, Progress s1 above first lst /\ s1 = finished first curr s /\
    (exists k, above !! k = Some curr /\ seqOf curr = Z.min (mCurrCheckpoint s) top /\
       Z.of_nat k = top - seqOf curr) /\
    if mCurrCheckpoint s =? bottom then st = WORK_SUCCESS /\ s' = s1
    else st = WORK_RUNNING /\ s' = setCheckpoint (u32 (mCurrCheckpoint s - freq)) s1.
Proof.
  intros [_ Hcp Hb _ Hpr]. pose proof bottom_bounds as (_ & Hbot & _).
  unfold verifyOnRun. rewrite (proj2 (Z.eqb_neq _ _)) by done. mrun. fold bottom.
  rewrite (proj2 (Z.ltb_ge _ _)) by lia. unfold catchFileSystemException.
  destruct (verifyHistoryOfSingleCheckpoint sha ch s) as [r s1|[]] eqn:E.
  2:{ destruct (decide _); [|done]. intros [= <- <-]. by intros [?|?]. }
  2-4: done.
  destruct r; try (intros [= <- <-]; by intros [?|?]).
  assert (Hs1 : exists above first lst curr, Progress s1 above first lst /\ s1 = finished first curr s /\
    exists k, above !! k = Some curr /\ seqOf curr = Z.min (mCurrCheckpoint s) top /\ Z.of_nat k = top - seqOf curr).
  { destruct Hpr as [Hst|(Hlt & above & e & lst & Hpr)].
    - destruct (first_checkpoint_sound s s1 Hst E) as (above & first & lst & HP & ->).
      exists above, first, lst, lst. split_and!; [done..|]. exists 0%nat.
      destruct HP as [[_ _ Hh _] Hl _ _ _ _]. destruct Hst as (_ & _ & Hc).
      split_and!; [by destruct above| |lia]. rewrite Hl, Hc, checkpoint_eq by lia.
      destruct (frequency_cases (historyManager ch)) as [-> | ->]; u32_lia.
    - destruct (next_checkpoint_sound s s1 above e lst ltac:(lia) Hpr E)
        as (first & curr & l & HP & -> & Hc & HSl & Hlen).
      exists (above ++ l), first, lst, curr. split_and!; [done..|]. exists (length above).
      destruct HSl as [_ _ Hh _].
      split_and!; [|lia|lia]. rewrite lookup_app_r, Nat.sub_diag by lia. by destruct l. }
  destruct Hs1 as (above & first & lst & curr & HP & E1 & Hk).
  intros Hst _. exists s1, above, first, lst, curr. split_and!; [done..|].
  assert (mCurrCheckpoint s1 = mCurrCheckpoint s) as Ecp by (rewrite E1; unfold finished; by destruct (_ =? _)).
  destruct (mCurrCheckpoint s =? bottom); injection Hst as <- <-; [done|]. by rewrite Ecp.
Qed.

Lemma finished_ledgers first curr s :
  mVerifiedLedgers (finished first curr s) = mVerifiedLedgers s ++ [(seqOf curr, Some (hhe_hash curr))].
Proof. unfold finished. by destruct (_ =? _). Qed.

(** Between two checkpoints there is no other. *)
Lemma verifiedAbove_next first curr s c' :
  isCheckpoint (mCurrCheckpoint s) -> 0 < mCurrCheckpoint s <= UINT32_MAX ->
  mCurrCheckpoint s - freq <= c' -> verifiedAbove (mCurrCheckpoint s) s ->
  seqOf curr = Z.min (mCurrCheckpoint s) top -> verifiedAbove c' (finished first curr s).
Proof.
  intros Hc Hb Hc' Ha Hs cp Hcp Hlt. rewrite finished_ledgers.
  destruct (decide (mCurrCheckpoint s < cp)) as [Hgt|Hle].
  - destruct (Ha cp Hcp) as [o Ho]; [lia|]. exists o. apply elem_of_app. by left.
  - exists (Some (hhe_hash curr)). apply elem_of_app. right. apply list_elem_of_singleton. f_equal.
    assert (Hcp0 : 0 <= cp).
    { unfold isCheckpoint, checkpointContainingLedger in Hcp. pose proof (u32_range (u32 (u32 (cp / freq + 1) * freq) - 1)).
      unfold freq in *. lia. }
    apply checkpoint_multiple in Hc; [|lia]. apply checkpoint_multiple in Hcp; [|lia]. revert Hc Hcp Hc'.
    assert (freq = 8 \/ freq = 64) as [-> | ->] by apply frequency_cases; intros; u32_lia.
Qed.

Lemma verified_run fuel s s' :
  Running s -> verifyChain sha ch fuel s = Ok WORK_SUCCESS s' ->
  exists above first lst curr, Verified s' above first lst curr.
Proof.
  revert s. induction fuel as [|fuel IH]; intros s HR; [done|]. cbn [verifyChain]. mrun.
  destruct (verifyOnRun sha ch s) as [st s1|] eqn:E; [|done].
  pose proof (verified_crank s s1 st HR E) as Hcrank. pose proof HR as [Hprom Hcp Hb Ha Hpr].
  pose proof bottom_bounds as (_ & Hbot & Hbcp).
  assert (Hfreq : freq = 8 \/ freq = 64) by apply frequency_cases.
  destruct st; try done.
  - destruct Hcrank as (s2 & above & first & lst & curr & HP & E2 & (k & Hk & Hs & Hkk) & Hend); [by left|].
    destruct (Z.eqb_spec (mCurrCheckpoint s) bottom) as [|Hne]; [by destruct Hend|]. destruct Hend as [_ ->].
    assert (Hmul : (mCurrCheckpoint s + 1) mod freq = 0 /\ (bottom + 1) mod freq = 0).
    { split; apply checkpoint_multiple; (lia || done). }
    assert (Hstep : u32 (mCurrCheckpoint s - freq) = mCurrCheckpoint s - freq /\ bottom <= mCurrCheckpoint s - freq).
    { destruct Hmul as [H1 H2]. revert H1 H2. destruct Hfreq as [-> | ->]; u32_lia. }
    destruct Hstep as [Eu Hle]. rewrite Eu. apply IH. split.
    + rewrite E2. unfold finished. rewrite (proj2 (Z.eqb_neq _ _)) by done. done.
    + cbn. apply checkpoint_multiple; [lia|]. destruct Hmul as [H1 _]. revert H1. destruct Hfreq as [-> | ->]; u32_lia.
    + cbn. lia.
    + cbn. rewrite E2. apply (verifiedAbove_next first curr s); (done || lia).
    + right. cbn. split.
      * destruct Hpr as [(_ & _ & Hc)|[Hlt _]]; [|lia]. rewrite Hc, checkpoint_eq by lia. fold freq.
        destruct Hfreq as [-> | ->]; u32_lia.
      * exists above, first, lst. destruct HP. by split.
  - destruct Hcrank as (s2 & above & first & lst & curr & HP & E2 & Hk & Hend); [by right|].
    destruct (Z.eqb_spec (mCurrCheckpoint s) bottom) as [Heq|Hne]; [|by destruct Hend]. destruct Hend as [_ ->].
    intros [= <-]. exists above, first, lst, curr. split.
    + done.
    + rewrite E2. destruct Hk as (k & _ & Hs & _).
      apply (verifiedAbove_next first curr s); [done|lia|destruct Hfreq; lia|done|done].
    + rewrite E2. unfold finished. by rewrite (proj2 (Z.eqb_eq _ _) Heq).
    + by rewrite Heq in Hk.
    + rewrite E2. unfold finished. rewrite (proj2 (Z.eqb_eq _ _) Heq). cbn. by rewrite Hprom.
Qed.

(** ** Authenticity *)

(** The entry [k] steps before the last is the true one, or it is forged. *)
Definition authentic (honest : Z -> LedgerHeader) (l : list LedgerHeaderHistoryEntry) (k : nat) : Prop :=
  forall x, l !! k = Some x -> Z.of_nat k < top ->
    hhe_header x = honest (top - Z.of_nat k) /\ hhe_hash x = sha (honest (top - Z.of_nat k)).

Lemma links_lookup l k x y : links l -> l !! k = Some x -> l !! S k = Some y -> linked y x.
Proof.
  revert k. induction l as [|e l IH]; intros k Hl Hx Hy; [done|]. destruct Hl as [Hh Hl]. destruct k as [|k].
  - injection Hx as <-. cbn in Hy. by destruct l; [|injection Hy as <-].
  - by apply (IH k).
Qed.

Lemma same_header (honest : Z -> LedgerHeader) first lst l k x n :
  Segment sha ch first lst l -> l !! k = Some x -> hhe_hash x = sha (honest n) -> 1 <= n <= top ->
  Forged sha ch honest top \/ hhe_header x = honest n /\ hhe_hash x = sha (honest n).
Proof.
  intros [_ Hg _ _] Hx Hh Hn. apply (Forall_lookup_1 _ _ _ _ Hg) in Hx.
  destruct (decide (hhe_header x = honest n)); [by right|left]. exists x, n.
  split_and!; [apply Hx|lia|lia|done|]. rewrite <-Hh. apply Hx.
Qed.

Lemma segment_authentic honest first lst l n :
  Honest sha honest top -> Segment sha ch first lst l -> hhe_hash lst = sha (honest top) ->
  Forged sha ch honest top \/ forall k, (k < n)%nat -> authentic honest l k.
Proof.
  intros [Hseq Hlink] HS Htr. induction n as [|n [|IH]]; [right; lia|by left|].
  assert (Hn : Forged sha ch honest top \/ authentic honest l n).
  { destruct (l !! n) as [x|] eqn:Ex; [|right; intros y Hy; congruence].
    destruct (decide (Z.of_nat n < top)) as [Hlt|]; [|right; by intros y Hy].
    assert (Hh : hhe_hash x = sha (honest (top - Z.of_nat n))).
    { destruct n as [|n].
      - rewrite Z.sub_0_r, <-Htr. destruct HS as [_ _ Hc _]. destruct l; [done|]. cbn in *. congruence.
      - assert (exists y, l !! n = Some y) as [y Hy].
        { apply lookup_lt_is_Some. apply lookup_lt_Some in Ex. lia. }
        destruct (IH n ltac:(lia) y Hy ltac:(lia)) as [Hyh _]. destruct HS as [Hl _ _ _].
        destruct (links_lookup l n y x Hl Hy Ex) as [_ Hp]. rewrite <-Hp, Hyh.
        rewrite <-(Hlink (top - Z.of_nat (S n))) by lia. do 2 f_equal. lia. }
    destruct (same_header honest first lst l n x _ HS Ex Hh ltac:(lia)) as [|Hx]; [by left|right].
    intros y Hy _. congruence. }
  destruct Hn as [|Hn]; [by left|right]. intros k Hk. destruct (decide (k = n)) as [->|]; [done|].
  apply IH. lia.
Qed.

(** What the members tell after a success, in terms of the true chain. *)
Record Authentic (honest : Z -> LedgerHeader) (s : VerifyState) : Prop := mkAuthentic {
  au_ledgers n o : (n, o) ∈ mVerifiedLedgers s -> 1 <= n -> o = Some (sha (honest n));
  au_checkpoints n : isCheckpoint n -> bottom <= n <= top ->
    (n, Some (sha (honest n))) ∈ mVerifiedLedgers s;
  au_max : hhe_header (mMaxVerifiedLedgerOfMinCheckpoint s) = honest (Z.min bottom top);
  au_prev : exists n h, mVerifiedMinLedgerPrev s = Some (n, Some h) /\
    (1 <= n < top -> h = sha (honest n) /\
       (** the local chain is on the true one, if it reaches the verified part *)
       forall lclHash, snd (mLastClosed ch) = Some lclHash -> n <= fst (mLastClosed ch) < top ->
         lclHash = sha (honest (fst (mLastClosed ch)))) }.

Lemma verified_authentic honest s above first lst curr :
  Honest sha honest top -> mTrustedMaxLedger ch = Some (top, Some (sha (honest top))) ->
  Verified s above first lst curr -> Forged sha ch honest top \/ Authentic honest s.
Proof.
  intros HH Htr [[HS Hl (o & Ho & Hoh) _ Hpos Hv] Hall Hmax (k0 & Hk0 & Hc0 & Hkk0) Hprev].
  pose proof bottom_bounds as (_ & Hbot & _).
  assert (Hlh : hhe_hash lst = sha (honest top)) by (apply Hoh; congruence).
  destruct (segment_authentic honest first lst above (length above) HH HS Hlh) as [|HA]; [by left|right].
  assert (HA' : forall k x, above !! k = Some x -> Z.of_nat k < top ->
    hhe_header x = honest (top - Z.of_nat k) /\ hhe_hash x = sha (honest (top - Z.of_nat k))).
  { intros k x Hx Hk. apply (HA k); [|done..]. by apply lookup_lt_Some in Hx. }
  assert (Hled : forall n o, (n, o) ∈ mVerifiedLedgers s -> 1 <= n -> o = Some (sha (honest n))).
  { intros n o' Hin Hn. destruct (Hv n o' Hin) as (x & k & Hx & Hs & -> & Hk).
    destruct (HA' k x Hx) as [_ ->]; [lia|]. do 3 f_equal. lia. }
  split.
  - done.
  - intros n Hn Hb. destruct (Hall n Hn) as [o' Hin]; [lia|]. by rewrite <-(Hled n o' Hin) by lia.
  - rewrite Hmax. destruct (HA' k0 curr Hk0) as [-> _]; [lia|]. f_equal. lia.
  - eexists _, _. split; [done|]. intros Hn.
    destruct (Segment_length first lst above HS) as [Hlen Hfirst].
    assert (Hwf1 : wf32 (seqOf first)).
    { destruct HS as [_ Hg _ _]. apply (Forall_lookup_1 _ _ _ _ Hg) in Hfirst. apply Hfirst. }
    unfold wf32 in Hwf1.
    assert (Hex : Z.of_nat (length above) - 1 = top - seqOf first /\ u32 (seqOf first - 1) = seqOf first - 1)
      by (destruct Hpos; u32_lia).
    destruct Hex as [Hex Eu]. rewrite Eu in *.
    destruct (HA' _ first Hfirst) as [Hfh _]; [lia|].
    replace (top - Z.of_nat (length above - 1)) with (seqOf first) in Hfh by lia.
    assert (Hp : previousLedgerHash (hhe_header first) = sha (honest (seqOf first - 1))).
    { rewrite Hfh. destruct HH as [_ Hlink]. rewrite <-Hlink by lia. do 2 f_equal. lia. }
    split; [done|]. intros lclHash Hlcl Hin. set (lcl := fst (mLastClosed ch)) in *.
    destruct (decide (lcl = seqOf first - 1)) as [E|E].
    + rewrite E, <-Hp. destruct HS as [_ Hg _ _]. apply (Forall_lookup_1 _ _ _ _ Hg) in Hfirst.
      symmetry. apply (good_after_lcl _ _ _ Hfirst lclHash Hlcl); fold lcl; [|lia].
      rewrite E, u32_small by lia. lia.
    + assert (exists x, above !! Z.to_nat (top - lcl) = Some x) as [x Hx].
      { apply lookup_lt_is_Some. lia. }
      destruct (HA' _ x Hx) as [_ Hxh]; [lia|]. rewrite Z2Nat.id in Hxh by lia.
      replace (top - (top - lcl)) with lcl in Hxh by lia. rewrite <-Hxh.
      destruct HS as [Hlk Hg Hh _]. pose proof (links_seq above lst _ x Hlk Hg Hh Hx) as Hxs.
      apply (Forall_lookup_1 _ _ _ _ Hg) in Hx. symmetry. apply (good_lcl _ _ _ Hx lclHash Hlcl).
      fold lcl. rewrite Hxs, Z2Nat.id, u32_small by lia. lia.
Qed.

End Soundness.

(** ** An archive that holds the true chain *)

Section Completeness.
Context (sha : LedgerHeader -> Z) (ch : Chain) (honest : Z -> LedgerHeader) (top : Z).
Let freq := getCheckpointFrequency (historyManager ch).
Let bottom := checkpointContainingLedger (historyManager ch) (lr_first (mRange ch)).
Let above := checkpointContainingLedger (historyManager ch) top.

Definition entryOf (n : Z) : LedgerHeaderHistoryEntry := mkEntry (sha (honest n)) (honest n).
(** [k] ledgers from [n] on. *)
Definition recordsFrom (n : Z) (k : nat) : list XDRRecord :=
  map (fun i => Entry_ (entryOf (n + Z.of_nat i))) (seq 0 k).

(** The archive has the file of each checkpoint of the range, with exactly its ledgers. *)
Record TrueArchive : Prop := mkTrueArchive {
  ta_files c : isCheckpoint ch c -> bottom <= c <= above ->
    let first := firstLedgerInCheckpointContaining (historyManager ch) c in
    files ch c = Some (recordsFrom first (Z.to_nat (c - first + 1)));
  ta_chain : Honest sha honest above;
  ta_version n : 1 <= n <= top -> ledgerVersion (honest n) <= LEDGER_PROTOCOL_VERSION ch;
  ta_trusted : exists o, mTrustedMaxLedger ch = Some (top, o) /\ forall h, o = Some h -> h = sha (honest top);
  ta_local : exists h, snd (mLastClosed ch) = Some h /\ 1 <= fst (mLastClosed ch) < UINT32_MAX /\
    (fst (mLastClosed ch) <= above -> h = sha (honest (fst (mLastClosed ch)))) }.

Context (Htop : lr_last (mRange ch) = inr top) (Hwf : 0 < top <= UINT32_MAX)
  (Hrange : 0 < lr_first (mRange ch) <= top) (Hcount : lr_count (mRange ch) <> 0) (HA : TrueArchive).

Lemma freq_cases : freq = 8 \/ freq = 64.
Proof. apply frequency_cases. Qed.

Lemma above_eq : above = top / freq * freq + freq - 1.
Proof. unfold above. by rewrite checkpoint_eq by lia. Qed.
Lemma bottom_eq : bottom = lr_first (mRange ch) / freq * freq + freq - 1.
Proof. unfold bottom. by rewrite checkpoint_eq by lia. Qed.

Lemma above_bounds : top <= above <= UINT32_MAX /\ above < top + freq /\ 0 < bottom <= above.
Proof. rewrite above_eq, bottom_eq. destruct freq_cases as [-> | ->]; u32_lia. Qed.

Lemma entry_seq n : 1 <= n <= above -> seqOf (entryOf n) = n.
Proof. destruct HA as [_ [Hs _] _ _ _]. apply Hs. Qed.

Lemma entryOf_ok n : verifyLedgerHistoryEntry sha (entryOf n) = VERIFY_STATUS_OK.
Proof. unfold verifyLedgerHistoryEntry. cbn. by rewrite Z.eqb_refl. Qed.

Lemma entryOf_link n h : 1 <= n < above -> h = sha (honest n) ->
  verifyLedgerHistoryLink sha h (entryOf (n + 1)) = VERIFY_STATUS_OK.
Proof.
  intros Hn ->. unfold verifyLedgerHistoryLink. rewrite entryOf_ok. cbn.
  destruct HA as [_ [_ Hl] _ _ _]. by rewrite Hl, Z.eqb_refl by done.
Qed.

Lemma lcl_agrees n s : 1 <= n <= above -> checkLastClosed sha ch (entryOf n) s = Ok VERIFY_STATUS_OK s.
Proof.
  intros Hn. destruct (ta_local HA) as (h & Eh & Hlcl & Hh). unfold checkLastClosed.
  rewrite entry_seq, Eh by done. destruct (Z.eqb_spec n (fst (mLastClosed ch))) as [->|Hne].
  { mrun. cbn [hhe_header entryOf]. rewrite Hh, Z.eqb_refl by lia. done. }
  rewrite u32_small by lia. destruct (Z.eqb_spec n (fst (mLastClosed ch) + 1)) as [->|]; [|done].
  mrun. by rewrite entryOf_link by (auto; lia).
Qed.

Lemma recordsFrom_S n k : recordsFrom n (S k) = Entry_ (entryOf n) :: recordsFrom (n + 1) k.
Proof.
  unfold recordsFrom. cbn [seq map]. rewrite Z.add_0_r. f_equal. rewrite <-seq_shift, map_map.
  apply map_ext. intros i. do 2 f_equal. lia.
Qed.

(** The loop reads the ledgers of the file up to the end of the range. *)
Lemma scan_complete k n found s :
  1 <= n <= top -> n + Z.of_nat k <= above -> 
  match found with Some (f, p) => p = entryOf (n - 1) /\ 1 <= n - 1 | None => True end ->
  scanRecords sha ch (recordsFrom n (S k)) found s =
    Ok (inr (default (entryOf n) (fst <$> found), entryOf (Z.min (n + Z.of_nat k) top))) s.
Proof.
  revert n found. induction k as [|k IH]; intros n found Hn Hk Hf.
  all: rewrite recordsFrom_S; cbn [scanRecords].
  all: rewrite (proj2 (Z.ltb_ge _ _)) by (apply (ta_version HA); lia).
  all: mrun; rewrite lcl_agrees by lia.
  all: assert (checkPrevious sha (snd <$> found) (entryOf n) = VERIFY_STATUS_OK) as ->;
    [destruct found as [[f p]|]; cbn; [|apply entryOf_ok]; destruct Hf as [-> Hf];
     rewrite !entry_seq, u32_small by lia; replace (n - 1 + 1) with n by lia; rewrite Z.ltb_irrefl;
     replace n with (n - 1 + 1) at 2 by lia; apply entryOf_link; [lia|done]|].
  all: rewrite Htop, entry_seq by lia.
  - rewrite Z.add_0_r, (Z.min_l n top) by lia. by destruct (n =? top).
  - destruct (Z.eqb_spec n top) as [->|Hne].
    { by replace (Z.min (top + Z.of_nat (S k)) top) with top by lia. }
    replace (Z.min (n + Z.of_nat (S k)) top) with (Z.min (n + 1 + Z.of_nat k) top) by lia.
    apply (IH (n + 1)); [lia|lia|]. replace (n + 1 - 1) with n by lia. split; [done|lia].
Qed.

(** The state before the crank for checkpoint [c]. *)
Record Expecting (c : Z) (s : VerifyState) : Prop := mkExpecting {
  ex_checkpoint : mCurrCheckpoint s = c;
  ex_ahead : mVerifiedAhead s = if decide (c = above) then (0, None) else (c, Some (sha (honest c)));
  ex_promise : mVerifiedMinLedgerPrev s = None }.

Lemma first_in_checkpoint c : isCheckpoint ch c -> 0 < c <= UINT32_MAX ->
  firstLedgerInCheckpointContaining (historyManager ch) c = if c <? freq then 1 else c - freq + 1.
Proof.
  intros Hc Hb. rewrite first_ledger_eq by lia. unfold isCheckpoint in Hc. rewrite checkpoint_eq in Hc by lia.
  fold freq in Hc |- *. destruct (c <? freq); lia.
Qed.

Lemma lower_checkpoint c : isCheckpoint ch c -> 0 < c <= above -> c <> above -> c < top.
Proof.
  intros Hc Hb Hne. pose proof above_bounds as (Ha & _ & _). unfold isCheckpoint in Hc.
  rewrite checkpoint_eq in Hc by lia. fold freq in Hc. rewrite above_eq in Hne, Hb.
  revert Hc Hne Hb. destruct freq_cases as [-> | ->]; intros; u32_lia.
Qed.

Lemma finish_complete c s :
  isCheckpoint ch c -> bottom <= c <= above -> Expecting c s ->
  let first := firstLedgerInCheckpointContaining (historyManager ch) c in
  finishCheckpoint ch (entryOf first) (entryOf (Z.min c top)) s =
    Ok VERIFY_STATUS_OK (finished ch (entryOf first) (entryOf (Z.min c top)) s).
Proof.
  intros Hc Hb [Hcp Ha Hp] first. pose proof above_bounds as (Hab & _ & Hbo).
  destruct (ta_trusted HA) as (o & Ho & Hoh).
  assert (Hseq : seqOf (entryOf (Z.min c top)) = Z.min c top) by (apply entry_seq; lia).
  assert (Hend : negb (Z.min c top =? mCurrCheckpoint s) && negb (Z.min c top =? top) = false).
  { rewrite Hcp. destruct (Z.min_spec c top) as [[_ ->]|[_ ->]]; rewrite Z.eqb_refl; [done|apply andb_false_r]. }
  unfold finishCheckpoint, incomingLink, verifyLastLedgerInCheckpoint. mrun.
  rewrite Htop, Hseq, Hend, Ha. unfold finished. rewrite Hseq.
  destruct (decide (c = above)) as [->|Hne].
  - rewrite Z.min_r, Z.eqb_refl by lia. cbn. rewrite Ho. cbn. rewrite !Z.eqb_refl. cbn.
    destruct o as [h|]; cbn.
    + rewrite (Hoh h eq_refl), Z.eqb_refl. cbn. by destruct (mCurrCheckpoint s =? _).
    + by destruct (mCurrCheckpoint s =? _).
  - assert (Hlt : c < top) by (apply lower_checkpoint; [done|lia|done]).
    rewrite Z.min_l, (proj2 (Z.eqb_neq c top)) by lia. cbn. rewrite (proj2 (Z.eqb_neq c 0)) by lia. cbn.
    rewrite !Z.eqb_refl. cbn. by destruct (mCurrCheckpoint s =? _).
Qed.

Lemma checkpoint_complete c s :
  isCheckpoint ch c -> bottom <= c <= above -> Expecting c s ->
  verifyHistoryOfSingleCheckpoint sha ch s =
    Ok VERIFY_STATUS_OK (finished ch (entryOf (firstLedgerInCheckpointContaining (historyManager ch) c))
                           (entryOf (Z.min c top)) s).
Proof.
  intros Hc Hb He. pose proof above_bounds as (Hab & Hab' & Hbo). unfold verifyHistoryOfSingleCheckpoint. mrun.
  rewrite (ex_checkpoint _ _ He), (ta_files HA c Hc Hb).
  pose proof (first_in_checkpoint c Hc ltac:(lia)) as Hf.
  set (first := firstLedgerInCheckpointContaining (historyManager ch) c) in *.
  assert (Hfb : 1 <= first <= top /\ first <= c).
  { unfold isCheckpoint in Hc. rewrite checkpoint_eq in Hc by lia. fold freq in Hc. revert Hf Hc Hab'.
    destruct freq_cases as [-> | ->]; intros ->; [destruct (Z.ltb_spec c 8)|destruct (Z.ltb_spec c 64)]; lia. }
  replace (Z.to_nat (c - first + 1)) with (S (Z.to_nat (c - first))) by lia.
  rewrite scan_complete; [|lia|lia|done]. cbn [fmap option_fmap option_map default].
  rewrite Z2Nat.id by lia. replace (first + (c - first)) with c by lia. by apply finish_complete.
Qed.

(** The outcome: the promise and the header catchup uses. *)
Definition completed (s : VerifyState) : Prop :=
  let first := firstLedgerInCheckpointContaining (historyManager ch) (lr_first (mRange ch)) in
  hhe_header (mMaxVerifiedLedgerOfMinCheckpoint s) = honest (Z.min bottom top) /\
  mVerifiedMinLedgerPrev s = Some (first - 1, Some (previousLedgerHash (honest first))).

Lemma same_first : firstLedgerInCheckpointContaining (historyManager ch) bottom =
  firstLedgerInCheckpointContaining (historyManager ch) (lr_first (mRange ch)).
Proof.
  pose proof above_bounds as (Hab & _ & Hbo). rewrite !first_ledger_eq by lia. fold freq. rewrite bottom_eq.
  destruct freq_cases as [-> | ->];
    [destruct (Z.ltb_spec (lr_first (mRange ch) / 8 * 8 + 8 - 1) 8), (Z.ltb_spec (lr_first (mRange ch)) 8)|
     destruct (Z.ltb_spec (lr_first (mRange ch) / 64 * 64 + 64 - 1) 64), (Z.ltb_spec (lr_first (mRange ch)) 64)]; u32_lia.
Qed.

(** One crank on a true file: the lowest checkpoint ends the work, another leads to the
    one below it. *)
Lemma crank_complete k c s :
  isCheckpoint ch c -> c = bottom + Z.of_nat k * freq -> c <= above -> Expecting c s ->
  match k with
  | O => exists s', verifyOnRun sha ch s = Ok WORK_SUCCESS s' /\ completed s'
  | S k => exists s', verifyOnRun sha ch s = Ok WORK_RUNNING s' /\ isCheckpoint ch (c - freq) /\
      c - freq = bottom + Z.of_nat k * freq /\ c - freq <= above /\ Expecting (c - freq) s'
  end.
Proof.
  intros Hc Ek Hca He. pose proof above_bounds as (Hab & _ & Hbo). pose proof freq_cases as Hf.
  assert (Hcb : bottom <= c <= above) by (destruct Hf as [Ef|Ef]; rewrite Ef in Ek; lia).
  pose proof (checkpoint_complete c s Hc Hcb He) as E.
  unfold verifyOnRun; rewrite (proj2 (Z.eqb_neq _ _)) by done.
  mrun; fold bottom; rewrite (ex_checkpoint _ _ He), (proj2 (Z.ltb_ge _ _)) by lia.
  unfold catchFileSystemException; rewrite E.
  unfold finished; rewrite (ex_checkpoint _ _ He); fold bottom. destruct k as [|k].
  - assert (c = bottom) as -> by lia. rewrite Z.eqb_refl. eexists. split; [done|].
    split; [done|]. cbn. rewrite (ex_promise _ _ He). cbn. rewrite same_first. do 2 f_equal.
    assert (Hfb : 1 <= firstLedgerInCheckpointContaining (historyManager ch) (lr_first (mRange ch)) <= above).
    { rewrite first_ledger_eq by lia. fold freq. destruct (_ <? _) eqn:El; [lia|]. apply Z.ltb_ge in El.
      revert El. destruct Hf as [-> | ->]; intros; u32_lia. }
    rewrite entry_seq by done. by rewrite u32_small by lia.
  - rewrite Nat2Z.inj_succ, Z.mul_succ_l in Ek.
    assert (0 <= Z.of_nat k * freq) by (destruct Hf as [-> | ->]; lia).
    rewrite (proj2 (Z.eqb_neq c bottom)) by lia. cbn [mCurrCheckpoint setAhead pushVerified].
    rewrite (ex_checkpoint _ _ He).
    assert (Hge : 0 < c - freq <= UINT32_MAX) by lia. fold freq. rewrite u32_small by lia.
    eexists. split; [done|]. split_and!.
    + unfold isCheckpoint in *. rewrite checkpoint_eq in * by lia. fold freq in Hc |- *. revert Hc.
      destruct Hf as [-> | ->]; intros; u32_lia.
    + lia.
    + lia.
    + split; [done| |by rewrite <-(ex_promise _ _ He)]. rewrite decide_False by lia. cbn.
      rewrite first_in_checkpoint by (done || lia).
      rewrite (proj2 (Z.ltb_ge c freq)) by lia. rewrite entry_seq, u32_small by lia.
      f_equal; [lia|]. do 2 f_equal. destruct (ta_chain HA) as [_ Hl]. rewrite <-(Hl (c - freq)) by lia.
      reflexivity.
Qed.

(** As many cranks as there are checkpoints are needed and enough. *)
Lemma chain_complete k c s :
  isCheckpoint ch c -> c = bottom + Z.of_nat k * freq -> c <= above -> Expecting c s ->
  (exists s', completed s' /\ forall n, (k < n)%nat -> verifyChain sha ch n s = Ok WORK_SUCCESS s') /\
  forall n, (n <= k)%nat -> exists s', verifyChain sha ch n s = Err OutOfFuel s'.
Proof.
  assert (Hone : forall n s0 st s1, verifyOnRun sha ch s0 = Ok st s1 -> verifyChain sha ch (S n) s0 =
    match st with WORK_RUNNING => verifyChain sha ch n s1 | _ => Ok st s1 end).
  { intros n s0 st s1 E. cbn [verifyChain]. unfold bnd, mbind, M_bind. rewrite E. by destruct st. }
  revert c s. induction k as [|k IH]; intros c s Hc Ek Hca He; pose proof (crank_complete _ c s Hc Ek Hca He) as H.
  - destruct H as (s' & E & Hs'). split.
    + exists s'. split; [done|]. intros [|n] Hn; [lia|]. by rewrite (Hone _ _ _ _ E).
    + intros n Hn. assert (n = 0%nat) as -> by lia. by eexists.
  - destruct H as (s1 & E & H1 & H2 & H3 & H4). destruct (IH _ s1 H1 H2 H3 H4) as [(s' & Hs' & Hok) Hless]. split.
    + exists s'. split; [done|]. intros [|n] Hn; [lia|]. rewrite (Hone _ _ _ _ E). apply Hok. lia.
    + intros [|n] Hn; [by eexists|]. rewrite (Hone _ _ _ _ E). apply Hless. lia.
Qed.

End Completeness.

(** ** Theorems *)

Lemma range_count_ne r n : lr_last r = inr n -> lr_count r <> 0.
Proof. unfold lr_last. by destruct (Z.eqb_spec (lr_count r) 0). Qed.

Lemma new_state ch top s0 :
  lr_last (mRange ch) = inr top -> newVerifyLedgerChainWork ch = inr s0 ->
  s0 = mkVerify (checkpointContainingLedger (historyManager ch) top) (0, None) None zeroEntry [].
Proof.
  intros Htop. pose proof (range_count_ne _ _ Htop) as Hc. unfold newVerifyLedgerChainWork, lastCheckpoint.
  rewrite (proj2 (Z.eqb_neq _ _) Hc), Htop. cbn. destruct (_ <=? _); [|done]. cbn.
  destruct (bool_decide _); [|done]. by intros [= <-].
Qed.

(** C13: catchup trusts only the true chain.  Whatever files an archive serves, if the
    verification of a range against the trusted hash of its last ledger succeeds, the hash
    it reports of each checkpoint is that of the true chain, no checkpoint of the range is
    left out, the header whose buckets catchup will apply is the true one, the link to the
    ledgers before is the true hash, and the node's own last closed ledger is on the true
    chain if it is not below that link; unless the archive has found a second preimage of
    the hash of a true header. *)
Theorem verified_chain_is_authentic sha ch honest top fuel s0 s :
  lr_last (mRange ch) = inr top -> 0 < lr_first (mRange ch) <= top -> top <= UINT32_MAX ->
  (forall e, Archived ch e -> wf32 (seqOf e)) ->
  (forall cp records, files ch cp = Some records -> Z.of_nat (length records) + top <= UINT32_MAX) ->
  Honest sha honest top -> mTrustedMaxLedger ch = Some (top, Some (sha (honest top))) ->
  newVerifyLedgerChainWork ch = inr s0 -> verifyChain sha ch fuel s0 = Ok WORK_SUCCESS s ->
  Forged sha ch honest top \/ Authentic sha ch top honest s.
Proof.
  intros Htop Hr Hmax Hty Hsh HH Htr Hnew Hrun. pose proof (range_count_ne _ _ Htop) as Hc.
  pose proof (new_state ch top s0 Htop Hnew) as E0.
  destruct (verified_run sha ch top Htop ltac:(lia) Hr Hc Hty Hsh fuel s0 s) as (above & first & lst & curr & HV); [|done|].
  - rewrite E0. split; cbn.
    + done.
    + unfold isCheckpoint. rewrite !checkpoint_eq by (try rewrite checkpoint_eq; destruct (frequency_cases (historyManager ch)) as [E|E]; rewrite ?E; u32_lia).
      destruct (frequency_cases (historyManager ch)) as [E|E]; rewrite E; u32_lia.
    + rewrite !checkpoint_eq by lia. destruct (frequency_cases (historyManager ch)) as [E|E]; rewrite E; u32_lia.
    + intros cp Hcp Hlt. cbn in *. rewrite checkpoint_eq in Hlt by lia.
      destruct (frequency_cases (historyManager ch)) as [E|E]; rewrite E in Hlt; u32_lia.
    + by left.
  - eapply verified_authentic; (done || lia).
Qed.

(** C14: a true archive is accepted.  Suppose the archive holds the file of each checkpoint
    of the range with exactly its ledgers and the true headers, all of a protocol version
    the node supports; the node's last closed ledger, if the files reach it, is on the true
    chain; and the trusted ledger is the last of the range, with the true hash if it has
    one.  Then the work succeeds after exactly one crank for each checkpoint, with the true
    header and link for the catchup: that many cranks or more give the success, fewer leave
    it running. *)
Theorem true_archive_is_accepted sha ch honest top s0 :
  lr_last (mRange ch) = inr top -> 0 < lr_first (mRange ch) <= top -> top <= UINT32_MAX ->
  TrueArchive sha ch honest top -> newVerifyLedgerChainWork ch = inr s0 ->
  let hm := historyManager ch in
  let cranks := Z.to_nat ((checkpointContainingLedger hm top - checkpointContainingLedger hm (lr_first (mRange ch)))
                / getCheckpointFrequency hm + 1) in
  (exists s, completed ch honest top s /\
    forall n, (cranks <= n)%nat -> verifyChain sha ch n s0 = Ok WORK_SUCCESS s) /\
  forall n, (n < cranks)%nat -> exists s, verifyChain sha ch n s0 = Err OutOfFuel s.
Proof.
  intros Htop Hr Hmax HA Hnew hm cranks. pose proof (range_count_ne _ _ Htop) as Hc.
  rewrite (new_state ch top s0 Htop Hnew).
  pose proof (frequency_cases hm) as Hf. pose proof (checkpoint_eq hm) as Heq.
  assert (Hb : (0 < cranks)%nat /\ checkpointContainingLedger hm top =
    checkpointContainingLedger hm (lr_first (mRange ch)) + Z.of_nat (cranks - 1) * getCheckpointFrequency hm).
  { unfold cranks. rewrite !Heq by lia. destruct Hf as [-> | ->]; u32_lia. }
  destruct Hb as [Hb1 Hb2].
  destruct (chain_complete sha ch honest top Htop ltac:(lia) Hr Hc HA (cranks - 1) (checkpointContainingLedger hm top)
    (mkVerify (checkpointContainingLedger (historyManager ch) top) (0, None) None zeroEntry [])) as [(s & Hs & Hok) Hless].
  - unfold isCheckpoint. fold hm. rewrite (Heq top) by lia. rewrite Heq; destruct Hf as [-> | ->]; u32_lia.
  - done.
  - done.
  - split; cbn; [done|by rewrite decide_True|done].
  - split; [|intros n Hn; apply Hless; lia]. exists s. split; [done|]. intros n Hn. apply Hok. lia.
Qed.

(** ** Archives with and without gaps

    Checkpoints of eight ledgers, as in tests; the hash of a header is a number made of its
    sequence number. *)

Module SampleChain.

Definition sha (h : LedgerHeader) : Z := 1000 + ledgerSeq h.
Definition honest (n : Z) : LedgerHeader :=
  mkHeader 0 (999 + n) (mkHcnetValue 0 0 []) 0 0 n 0 0 0 0 0 0 0 [0; 0; 0; 0] None.

Lemma honest_chain last : Honest sha honest last.
Proof. split; [done|]. intros n _. unfold sha. cbn. lia. Qed.

Definition chainOf (first count : Z) (lclHash : Z) (files : Z -> option (list XDRRecord)) : Chain :=
  let top := first + count - 1 in
  mkChain (mkHistoryManager true) 0 (mkLedgerRange first count) (7, Some lclHash)
    (Some (top, Some (sha (honest top)))) files.

Definition archive (c : Z) : option (list XDRRecord) :=
  if c =? 15 then Some (recordsFrom sha honest 8 8)
  else if c =? 23 then Some (recordsFrom sha honest 16 8) else None.

(** Ledgers 8 to 20, after the last closed ledger 7. *)
Definition catchup : Chain := chainOf 8 13 1007 archive.
Definition start (ch : Chain) : VerifyState :=
  match newVerifyLedgerChainWork ch with inr s => s | inl _ => mkVerify 0 (0, None) None zeroEntry [] end.
Definition finish (ch : Chain) (n : nat) : VerifyState :=
  match verifyChain sha ch n (start ch) with Ok _ s | Err _ s => s end.

Lemma catchup_typed e : Archived catchup e -> wf32 (seqOf e).
Proof.
  intros (cp & records & Hf & He). revert Hf. cbn. unfold archive.
  destruct (cp =? 15); [|destruct (cp =? 23); [|done]]; intros [= <-]; apply list_elem_of_In in He;
    unfold wf32, UINT32_MAX; cbn in He; repeat destruct He as [[= <-]|He]; cbn; try lia; done.
Qed.

Lemma catchup_short cp records : files catchup cp = Some records -> Z.of_nat (length records) + 20 <= UINT32_MAX.
Proof. cbn. unfold archive. destruct (cp =? 15); [|destruct (cp =? 23); [|done]]; intros [= <-]; by vm_compute. Qed.

Lemma verified_chain_is_authentic_witness :
  Forged sha catchup honest 20 \/ Authentic sha catchup 20 honest (finish catchup 2).
Proof.
  apply (verified_chain_is_authentic sha catchup honest 20 2 (start catchup)).
  - reflexivity.
  - cbn. lia.
  - vm_compute. done.
  - apply catchup_typed.
  - apply catchup_short.
  - apply honest_chain.
  - reflexivity.
  - reflexivity.
  - vm_compute. reflexivity.
Defined.

Lemma catchup_true : TrueArchive sha catchup honest 20.
Proof.
  split.
  - intros c Hc Hb first. unfold isCheckpoint in Hc. cbn in Hb. unfold first.
    assert (c = 15 \/ c = 23) as [-> | ->]; [|reflexivity..].
    revert Hb Hc. unfold checkpointContainingLedger. cbn. u32_lia.
  - apply honest_chain.
  - intros n _. cbn. lia.
  - exists (Some 1020). split; [done|]. by intros h [= <-].
  - exists 1007. split_and!; [done|cbn; lia|cbn; unfold UINT32_MAX; lia|done].
Qed.

Lemma true_archive_is_accepted_witness :
  (exists s, verifyChain sha catchup 2 (start catchup) = Ok WORK_SUCCESS s /\ completed catchup honest 20 s) /\
  exists s, verifyChain sha catchup 1 (start catchup) = Err OutOfFuel s.
Proof.
  destruct (true_archive_is_accepted sha catchup honest 20 (start catchup)) as [(s & Hs & Hok) Hless].
  - reflexivity.
  - cbn. lia.
  - vm_compute. done.
  - apply catchup_true.
  - reflexivity.
  - split; [exists s; split; [apply Hok; vm_compute; lia|done]|]. apply Hless. vm_compute. lia.
Defined.

(** The file of checkpoint 15 without ledgers 8 to 11, and the file of checkpoint 23 without
    ledgers 16 to 18. *)
Definition gapBelow (c : Z) : option (list XDRRecord) :=
  if c =? 15 then Some (recordsFrom sha honest 12 4) else archive c.
Definition gapAbove (c : Z) : option (list XDRRecord) :=
  if c =? 23 then Some (recordsFrom sha honest 19 5) else archive c.
Definition cutShort (c : Z) : option (list XDRRecord) :=
  if c =? 23 then Some (recordsFrom sha honest 16 2 ++ [Malformed]) else archive c.

(** Files with missing entries are not always refused.  If the file of the lowest
    checkpoint lacks its first ledgers, the work reports the whole range verified, and
    the node's own last closed ledger is not compared with the chain although it has
    another hash.  If the file of another checkpoint lacks its first ledgers, or is cut
    short within a record, the work does not fail but aborts the process or lets the
    exception escape. *)
Theorem missing_entries_mishandled :
  verifyOnRun sha (chainOf 8 8 666 gapBelow) (start (chainOf 8 8 666 gapBelow)) =
    Ok WORK_SUCCESS (mkVerify 15 (11, Some 1011) (Some (11, Some 1011)) (entryOf sha honest 15) [(15, Some 1015)]) /\
  verifyChain sha (chainOf 8 8 666 archive) 1 (start (chainOf 8 8 666 archive)) =
    Ok WORK_FAILURE (start (chainOf 8 8 666 archive)) /\
  (exists s, verifyChain sha (chainOf 8 13 1007 gapAbove) 2 (start (chainOf 8 13 1007 gapAbove)) =
     Err (AssertFailure "ledger.header.ledgerSeq == verifiedAhead.first") s) /\
  (exists s, verifyChain sha (chainOf 8 13 1007 cutShort) 1 (start (chainOf 8 13 1007 cutShort)) =
     Err (Throw "malformed XDR file") s).
Proof.
  split_and!; [vm_compute; reflexivity|vm_compute; reflexivity| |]; eexists; vm_compute; reflexivity.
Qed.

End SampleChain.
