(* ===== verification/Signatures.v ===== *)
(** * Signatures of a transaction

    Model of [src/transactions/SignatureChecker.cpp], of the verifying part of
    [src/transactions/SignatureUtils.cpp] and of the functions of
    [src/transactions/TransactionFrame.cpp] and [OperationFrame.cpp] that collect the signers.
    A byte is a [Z]; a key or hash of 32 bytes is the [Z] its bytes spell, most significant
    first.  [sha256] and [verifySig] stand for the hash function and the Ed25519
    verification of the cryptographic library. *)

From stdpp Require Import base list strings.
From S2P Require Import Prelude Entries.

Local Open Scope Z_scope.

Record DecoratedSignature := mkSignature { hint : list Z; signature : list Z }.

(** The [n] bytes of [z]. *)
Fixpoint bytesOf (n : nat) (z : Z) : list Z :=
  match n with
  | O => []
  | S n => bytesOf n (z / 256) ++ [z mod 256]
  end.

Definition UINT8_MAX : Z := 255.
(** A [uint32_t] added to an [int] and stored in an [int]. *)
Definition addWeight (total w : Z) : Z :=
  let z := u32 (total + w) in if INT32_MAX <? z then z - 4294967296 else z.

(** ** SignatureUtils *)

Definition doesHintMatch (bs : list Z) (h : list Z) : bool :=
  if (length bs <? length h)%nat then false
  else bool_decide (drop (length bs - length h) bs = h).

Definition getHint (bs : list Z) : list Z :=
  match bs with
  | [] => [0; 0; 0; 0]
  | _ => if (length bs <? 4)%nat then bs ++ repeat 0 (4 - length bs) else drop (length bs - 4) bs
  end.

Definition getSignedPayloadHint (k : Z) (payload : list Z) : list Z :=
  zip_with Z.lxor (getHint (bytesOf 32 k)) (getHint payload).

Section Checker.
Context (sha256 : list Z -> Z) (verifySig : Z -> list Z -> list Z -> bool).

Definition verify (sig : DecoratedSignature) (pubKey : Z) (hash : Z) : bool :=
  if negb (doesHintMatch (bytesOf 32 pubKey) (hint sig)) then false
  else verifySig pubKey (signature sig) (bytesOf 32 hash).

Definition verifyEd25519SignedPayload (sig : DecoratedSignature) (k : Z) (payload : list Z) : bool :=
  if negb (doesHintMatch (getSignedPayloadHint k payload) (hint sig)) then false
  else verifySig k (signature sig) payload.

Definition verifyHashX (sig : DecoratedSignature) (hashX : Z) : bool :=
  if negb (doesHintMatch (bytesOf 32 hashX) (hint sig)) then false
  else hashX =? sha256 (signature sig).

(** ** SignatureChecker *)

Record SignatureChecker := mkChecker {
  mProtocolVersion : Z;
  mContentsHash : Z;
  mSignatures : list DecoratedSignature;
  mUsedSignatures : list bool }.

Definition newSignatureChecker (protocolVersion contentsHash : Z) (signatures : list DecoratedSignature)
    : SignatureChecker :=
  mkChecker protocolVersion contentsHash signatures (repeat false (length signatures)).

Definition setUsed (used : list bool) (c : SignatureChecker) : SignatureChecker :=
  mkChecker (mProtocolVersion c) (mContentsHash c) (mSignatures c) used.

Inductive SignerKeyType := ED25519 | PRE_AUTH_TX | HASH_X | ED25519_SIGNED_PAYLOAD.
#[export] Instance SignerKeyType_eq_dec : EqDecision SignerKeyType.
Proof. solve_decision. Defined.

Definition keyType (k : SignerKey) : SignerKeyType :=
  match k with
  | SIGNER_KEY_TYPE_ED25519 _ => ED25519
  | SIGNER_KEY_TYPE_PRE_AUTH_TX _ => PRE_AUTH_TX
  | SIGNER_KEY_TYPE_HASH_X _ => HASH_X
  | SIGNER_KEY_TYPE_ED25519_SIGNED_PAYLOAD _ _ => ED25519_SIGNED_PAYLOAD
  end.

(** [split], as a function of the type. *)
Definition split (signersV : list Signer) (t : SignerKeyType) : list Signer :=
  filter (fun s => keyType (signer_key s) = t) signersV.

Definition weightOf (version : Z) (s : Signer) : Z :=
  let w := signer_weight s in
  if protocolVersionStartsFrom version 10 && (UINT8_MAX <? w) then UINT8_MAX else w.

(** The loop over the pre-authorised transactions. *)
Fixpoint checkPreAuth (version contentsHash neededWeight : Z) (signers : list Signer) (totalWeight : Z)
    : bool * Z :=
  match signers with
  | [] => (false, totalWeight)
  | s :: signers =>
      match signer_key s with
      | SIGNER_KEY_TYPE_PRE_AUTH_TX h =>
          if h =? contentsHash then
            let totalWeight := addWeight totalWeight (weightOf version s) in
            if neededWeight <=? totalWeight then (true, totalWeight)
            else checkPreAuth version contentsHash neededWeight signers totalWeight
          else checkPreAuth version contentsHash neededWeight signers totalWeight
      | _ => checkPreAuth version contentsHash neededWeight signers totalWeight
      end
  end.

(** The inner loop of [verifyAll]: the first signer that accepts, and the others. *)
Fixpoint takeSigner (accepts : Signer -> bool) (signers : list Signer) : option (Signer * list Signer) :=
  match signers with
  | [] => None
  | s :: rest =>
      if accepts s then Some (s, rest)
      else match takeSigner accepts rest with
           | Some (x, rest) => Some (x, s :: rest)
           | None => None
           end
  end.

(** [verifyAll], from signature [i] on. *)
Fixpoint verifyAll (version neededWeight : Z) (verify : DecoratedSignature -> Signer -> bool)
    (i : nat) (sigs : list DecoratedSignature) (signers : list Signer) (totalWeight : Z) (used : list bool)
    : bool * Z * list bool :=
  match sigs with
  | [] => (false, totalWeight, used)
  | sig :: sigs =>
      match takeSigner (verify sig) signers with
      | None => verifyAll version neededWeight verify (S i) sigs signers totalWeight used
      | Some (s, rest) =>
          let used := <[i := true]> used in
          let totalWeight := addWeight totalWeight (weightOf version s) in
          if neededWeight <=? totalWeight then (true, totalWeight, used)
          else verifyAll version neededWeight verify (S i) sigs rest totalWeight used
      end
  end.

(** Whether a signature is one of the signer's. *)
Definition accepts (contentsHash : Z) (sig : DecoratedSignature) (s : Signer) : bool :=
  match signer_key s with
  | SIGNER_KEY_TYPE_ED25519 k => verify sig k contentsHash
  | SIGNER_KEY_TYPE_HASH_X h => verifyHashX sig h
  | SIGNER_KEY_TYPE_ED25519_SIGNED_PAYLOAD k payload => verifyEd25519SignedPayload sig k payload
  | SIGNER_KEY_TYPE_PRE_AUTH_TX _ => false
  end.

Definition checkSignature (signersV : list Signer) (neededWeight : Z) (c : SignatureChecker)
    : bool * SignatureChecker :=
  if protocolVersionEquals (mProtocolVersion c) 7 then (true, c)
  else
    let version := mProtocolVersion c in
    let all l total used :=
      verifyAll version neededWeight (accepts (mContentsHash c)) 0 (mSignatures c) l total used in
    let '(ok, total) := checkPreAuth version (mContentsHash c) neededWeight (split signersV PRE_AUTH_TX) 0 in
    if ok then (true, c)
    else
      let '(ok, total, used) := all (split signersV HASH_X) total (mUsedSignatures c) in
      if ok then (true, setUsed used c)
      else
        let '(ok, total, used) := all (split signersV ED25519) total used in
        if ok then (true, setUsed used c)
        else
          let '(ok, total, used) := all (split signersV ED25519_SIGNED_PAYLOAD) total used in
          (ok, setUsed used c).

Definition checkAllSignaturesUsed (c : SignatureChecker) : bool :=
  if protocolVersionEquals (mProtocolVersion c) 7 then true
  else forallb id (mUsedSignatures c).

(** ** The signers of an account *)

(** [TransactionFrame::checkSignature] and [FeeBumpTransactionFrame::checkSignature]. *)
Definition accountSigners (acc : AccountEntry) : list Signer :=
  let master := default 0 (acc_thresholds acc !! 0%nat) in
  (if negb (master =? 0) then [mkSigner (SIGNER_KEY_TYPE_ED25519 (acc_accountID acc)) master] else [])
    ++ acc_signers acc.

Definition txCheckSignature (acc : AccountEntry) (neededWeight : Z) (c : SignatureChecker)
    : bool * SignatureChecker :=
  checkSignature (accountSigners acc) neededWeight c.

Definition checkSignatureNoAccount (accountID : AccountID) (c : SignatureChecker) : bool * SignatureChecker :=
  checkSignature [mkSigner (SIGNER_KEY_TYPE_ED25519 accountID) 1] 0 c.

Definition checkExtraSigners (extraSigners : list SignerKey) (c : SignatureChecker) : bool * SignatureChecker :=
  match extraSigners with
  | [] => (true, c)
  | _ => let signers := map (fun k => mkSigner k 1) extraSigners in
         checkSignature signers (Z.of_nat (length signers)) c
  end.

Inductive ThresholdLevel := LOW | MEDIUM | HIGH.

Definition getNeededThreshold (acc : AccountEntry) (level : ThresholdLevel) : Z :=
  default 0 (acc_thresholds acc !!
    match level with LOW => 1%nat | MEDIUM => 2%nat | HIGH => 3%nat end).

Inductive OpAuthResult := opAuthorized | opBAD_AUTH | opNO_ACCOUNT.

(** [OperationFrame::checkSignature]; [source] is the account that was loaded, [opSource] the
    source the operation names. *)
Definition opCheckSignature (source : option AccountEntry) (opSource : option AccountID)
    (level : ThresholdLevel) (forApply : bool) (c : SignatureChecker) : OpAuthResult * SignatureChecker :=
  match source with
  | Some acc =>
      let '(ok, c) := txCheckSignature acc (getNeededThreshold acc level) c in
      (if ok : bool then opAuthorized else opBAD_AUTH, c)
  | None =>
      match forApply, opSource with
      | false, Some id =>
          let '(ok, c) := checkSignatureNoAccount id c in
          (if ok : bool then opAuthorized else opBAD_AUTH, c)
      | _, _ => (opNO_ACCOUNT, c)
      end
  end.

(** ** Who has signed *)

(** [s] has signed: the transaction is the one it authorised, or a signature is its. *)
Definition signed (c : SignatureChecker) (s : Signer) : bool :=
  match signer_key s with
  | SIGNER_KEY_TYPE_PRE_AUTH_TX h => h =? mContentsHash c
  | _ => existsb (fun sig => accepts (mContentsHash c) sig s) (mSignatures c)
  end.

Definition totalOf (version : Z) (l : list Signer) : Z := foldr (fun s z => weightOf version s + z) 0 l.

Lemma totalOf_app v l l' : totalOf v (l ++ l') = totalOf v l + totalOf v l'.
Proof. induction l as [|s l IH]; cbn; [done|]. unfold totalOf in *. lia. Qed.

#[export] Instance totalOf_perm v : Proper ((≡ₚ) ==> (=)) (totalOf v).
Proof. intros l l' H. unfold totalOf. induction H; cbn; lia. Qed.

Section Weights.
Context (c : SignatureChecker) (needed : Z) (all : list Signer).
Context (Hv : 10 <= mProtocolVersion c) (Hw : Forall (fun s => 0 <= signer_weight s) all)
  (Hn : Z.of_nat (length all) * UINT8_MAX <= INT32_MAX).

Let v := mProtocolVersion c.

Lemma weight_bounds s : s ∈ all -> 0 <= weightOf v s <= UINT8_MAX.
Proof.
  intros Hs. apply (proj1 (Forall_forall _ _) Hw) in Hs. unfold weightOf, protocolVersionStartsFrom.
  rewrite (proj2 (Z.leb_le _ _)) by done. cbn. destruct (Z.ltb_spec UINT8_MAX (signer_weight s)); unfold UINT8_MAX in *; lia.
Qed.

Lemma total_bounds l : l ⊆+ all -> 0 <= totalOf v l <= Z.of_nat (length l) * UINT8_MAX.
Proof.
  induction l as [|s l IH]; intros Hl; cbn; [done|].
  assert (Hs : s ∈ all) by (eapply elem_of_submseteq; [by left|done]).
  pose proof (weight_bounds s Hs). assert (l ⊆+ all) as Hl' by (etrans; [by apply submseteq_cons|done]).
  specialize (IH Hl'). unfold totalOf in *. lia.
Qed.

(** The sum is exact. *)
Lemma addWeight_exact l s : l ++ [s] ⊆+ all -> addWeight (totalOf v l) (weightOf v s) = totalOf v (l ++ [s]).
Proof.
  intros Hl. pose proof (total_bounds _ Hl) as Hb. apply submseteq_length in Hl.
  rewrite totalOf_app in *. rewrite length_app in *. cbn in *. rewrite Z.add_0_r in *.
  assert (Z.of_nat (length l + 1) * UINT8_MAX <= INT32_MAX) by (unfold UINT8_MAX in *; lia).
  unfold addWeight. rewrite u32_small by (unfold UINT32_MAX, INT32_MAX in *; lia).
  by rewrite (proj2 (Z.ltb_ge _ _)) by lia.
Qed.

(** The signers [acc] have been counted and are not enough. *)
Record Counted (acc : list Signer) (total : Z) : Prop := mkCounted {
  ct_total : total = totalOf v acc;
  ct_signed : Forall (fun s => signed c s = true) acc;
  ct_short : acc <> [] -> total < needed }.

(** The outcome of one kind of signers [l]: some have been counted, and they are enough, or
    they are all there is. *)
Definition Outcome (l acc : list Signer) (complete : list Signer -> Prop) (ok : bool) (total : Z) : Prop :=
  exists T, T ⊆+ l /\ Forall (fun s => signed c s = true) T /\
    if ok then T <> [] /\ needed <= totalOf v (acc ++ T)
    else Counted (acc ++ T) total /\ complete T.

Definition signersOf (l : list Signer) : list Signer := filter (fun s => signed c s = true) l.

Lemma Outcome_none l acc total (complete : list Signer -> Prop) :
  Counted acc total -> complete [] -> Outcome l acc complete false total.
Proof.
  intros Hc Hf. exists []. rewrite app_nil_r. split; [apply submseteq_nil_l|]. split; [done|]. by split.
Qed.

Lemma Outcome_weaken l l' acc (complete complete' : list Signer -> Prop) ok total :
  l ⊆+ l' -> (forall T, complete T -> complete' T) -> Outcome l acc complete ok total ->
  Outcome l' acc complete' ok total.
Proof.
  intros Hl Hc (T & HT & Hf & Hok). exists T. split; [by etrans|]. split; [done|].
  destruct ok; [done|]. destruct Hok. auto.
Qed.

(** Another signer that has signed is counted. *)
Lemma Outcome_count l rest acc s total (complete complete' : list Signer -> Prop) (ok : bool) total' :
  l ≡ₚ s :: rest -> acc ++ [s] ⊆+ all -> Counted acc total -> signed c s = true ->
  (forall T, complete' T -> complete (s :: T)) ->
  (let total := addWeight total (weightOf v s) in
   if needed <=? total then ok = true
   else total < needed -> Outcome rest (acc ++ [s]) complete' ok total') ->
  Outcome l acc complete ok total'.
Proof.
  intros Hl Hall [Htot Hsg Hsh] Hs Hcomp. cbn zeta. rewrite Htot, addWeight_exact by done.
  destruct (Z.leb_spec needed (totalOf v (acc ++ [s]))) as [Hle|Hlt].
  - intros ->. exists [s]. split_and!; [|by constructor|done|done]. rewrite Hl.
    apply submseteq_skip, submseteq_nil_l.
  - intros H. destruct (H Hlt) as (T & HT & Hf & Hok). exists (s :: T).
    split; [rewrite Hl; by apply submseteq_skip|]. split; [by constructor|].
    rewrite <-app_assoc in Hok. cbn [app] in Hok. destruct ok; destruct Hok; split; auto.
Qed.

Lemma Counted_snoc acc s total : acc ++ [s] ⊆+ all -> Counted acc total -> signed c s = true ->
  addWeight total (weightOf v s) < needed -> Counted (acc ++ [s]) (addWeight total (weightOf v s)).
Proof.
  intros Hall [-> Hsg _] Hs Hlt. split; [by apply addWeight_exact| |done]. apply Forall_app. by split; [|constructor].
Qed.

Lemma preAuth_outcome l acc total ok total' :
  Forall (fun s => keyType (signer_key s) = PRE_AUTH_TX) l -> acc ++ l ⊆+ all -> Counted acc total ->
  checkPreAuth v (mContentsHash c) needed l total = (ok, total') ->
  Outcome l acc (fun T => T ≡ₚ signersOf l) ok total'.
Proof.
  intros Ht. revert acc total. induction Ht as [|s l Hs _ IH]; intros acc total Hl Hc.
  { intros [= <- <-]. by apply Outcome_none. }
  cbn [checkPreAuth]. destruct (signer_key s) as [|h| |] eqn:Ek; try done.
  assert (Hsig : signed c s = (h =? mContentsHash c)) by (unfold signed; by rewrite Ek).
  assert (Hl' : acc ++ l ⊆+ all) by (etrans; [apply submseteq_app; [done|by apply submseteq_cons]|done]).
  destruct (h =? mContentsHash c).
  - assert (Hsl : (acc ++ [s]) ++ l ⊆+ all) by (by rewrite <-app_assoc).
    assert (Hsa : acc ++ [s] ⊆+ all) by (etrans; [by apply submseteq_inserts_r|done]).
    intros E. apply (Outcome_count (s :: l) l acc s total _ (fun T => T ≡ₚ signersOf l)); [done..| |].
    { intros T HT. unfold signersOf. rewrite filter_cons_True by done. by constructor. }
    cbn zeta. destruct (needed <=? _); [by injection E as <- _|].
    intros Hlt. apply (IH _ (addWeight total (weightOf v s)) Hsl); [|done]. by apply Counted_snoc.
  - intros E. apply (Outcome_weaken l _ _ (fun T => T ≡ₚ signersOf l)); [by apply submseteq_cons| |by eapply IH].
    intros T ->. unfold signersOf. by rewrite filter_cons_False by (by rewrite Hsig).
Qed.

(** *** Signatures *)

Lemma takeSigner_Some f l s rest : takeSigner f l = Some (s, rest) -> f s = true /\ l ≡ₚ s :: rest.
Proof.
  revert rest. induction l as [|x l IH]; intros rest; cbn; [done|]. destruct (f x) eqn:Ef.
  - intros [= <- <-]. done.
  - destruct (takeSigner f l) as [[y r]|]; [|done]. intros [= <- <-].
    destruct (IH r eq_refl) as [Hy Hp]. split; [done|]. rewrite Hp. constructor.
Qed.

Lemma takeSigner_None f l : takeSigner f l = None -> Forall (fun s => f s = false) l.
Proof.
  induction l as [|x l IH]; cbn; [done|]. destruct (f x) eqn:Ef; [done|].
  destruct (takeSigner f l) as [[]|]; [done|]. intros _. constructor; auto.
Qed.

Definition signedBy (sigs : list DecoratedSignature) (s : Signer) : bool :=
  existsb (fun sig => accepts (mContentsHash c) sig s) sigs.

(** No signature is accepted by two of the signers. *)
Definition oneSigner (sigs : list DecoratedSignature) (l : list Signer) : Prop :=
  forall sig, sig ∈ sigs -> (length (filter (fun s => accepts (mContentsHash c) sig s = true) l) <= 1)%nat.

(** The signers left after one has been taken have not made that signature. *)
Lemma oneSigner_rest sig sigs l s rest :
  oneSigner (sig :: sigs) l -> l ≡ₚ s :: rest -> accepts (mContentsHash c) sig s = true ->
  oneSigner sigs rest /\
  filter (fun x => signedBy (sig :: sigs) x = true) l ≡ₚ s :: filter (fun x => signedBy sigs x = true) rest.
Proof.
  intros H1 Hl Hs. split.
  - intros sg Hsg. etrans; [|apply (H1 sg); by right]. rewrite Hl, filter_cons.
    destruct (decide _); cbn; lia.
  - rewrite Hl, filter_cons_True by (cbn; by rewrite Hs). constructor.
    assert (Hrest : forall x, x ∈ rest -> accepts (mContentsHash c) sig x = false).
    { intros x Hx. apply not_true_is_false. intros Hax. specialize (H1 sig ltac:(by left)).
      rewrite Hl, filter_cons_True in H1 by done. cbn in H1.
      assert (x ∈ filter (fun s => accepts (mContentsHash c) sig s = true) rest) as Hin
        by (by apply list_elem_of_filter).
      destruct (filter _ rest); [by apply not_elem_of_nil in Hin|cbn in H1; lia]. }
    clear Hl. induction rest as [|x rest IH]; [done|]. rewrite !filter_cons. cbn [signedBy existsb].
    rewrite (Hrest x) by by left. cbn [orb]. destruct (decide _); rewrite IH; (done || intros; apply Hrest; by right).
Qed.

Lemma verifyAll_outcome sigs i l acc total used ok total' used' :
  (forall sig, sig ∈ sigs -> sig ∈ mSignatures c) ->
  Forall (fun s => keyType (signer_key s) <> PRE_AUTH_TX) l -> acc ++ l ⊆+ all -> Counted acc total ->
  verifyAll v needed (accepts (mContentsHash c)) i sigs l total used = (ok, total', used') ->
  Outcome l acc (fun T => oneSigner sigs l -> T ≡ₚ filter (fun x => signedBy sigs x = true) l) ok total'.
Proof.
  revert i l acc total used. induction sigs as [|sig sigs IH]; intros i l acc total used Hsub Ht Hl Hc; cbn.
  { intros [= <- <- <-]. apply Outcome_none; [done|]. intros _. clear. by induction l. }
  assert (Hsub' : forall sg, sg ∈ sigs -> sg ∈ mSignatures c) by (intros sg ?; apply Hsub; by right).
  destruct (takeSigner _ l) as [[s rest]|] eqn:Et.
  - apply takeSigner_Some in Et as [Hs Hp]. rewrite Hp in Hl.
    assert (Hsl : (acc ++ [s]) ++ rest ⊆+ all) by (by rewrite <-app_assoc).
    assert (Hsa : acc ++ [s] ⊆+ all) by (etrans; [by apply submseteq_inserts_r|done]).
    assert (Htr : Forall (fun s => keyType (signer_key s) <> PRE_AUTH_TX) (s :: rest)) by (by rewrite <-Hp).
    inversion Htr as [|? ? Hts Htr']; subst.
    assert (Hsig : signed c s = true).
    { unfold signed. assert (existsb (fun sig => accepts (mContentsHash c) sig s) (mSignatures c) = true).
      { apply existsb_exists. exists sig. split; [|done]. apply list_elem_of_In, Hsub. by left. }
      by destruct (signer_key s). }
    intros E. eapply (Outcome_count l rest acc s total); [done..| |].
    2:{ cbn zeta. destruct (needed <=? _); [by injection E as <- _ _|]. intros Hlt.
        apply (IH (S i) rest _ (addWeight total (weightOf v s)) (<[i := true]> used) Hsub' Htr' Hsl); [|done]. by apply Counted_snoc. }
    intros T HT H1. destruct (oneSigner_rest sig sigs l s rest H1 Hp Hs) as [H2 ->]. by rewrite (HT H2).
  - apply takeSigner_None in Et. intros E.
    eapply Outcome_weaken; [done| |by eapply IH]. intros T HT H1.
    assert (H2 : oneSigner sigs l) by (intros sg Hsg; apply H1; by right).
    etrans; [exact (HT H2)|]. clear -Et. induction Et as [|x l Hx _ IH]; [done|].
    rewrite !filter_cons. cbn [signedBy existsb]. rewrite Hx. cbn [orb]. by destruct (decide _); rewrite IH.
Qed.

(** ** All kinds together *)

Lemma signed_by s : keyType (signer_key s) <> PRE_AUTH_TX -> signed c s = signedBy (mSignatures c) s.
Proof. unfold signed, signedBy. by destruct (signer_key s). Qed.

Lemma filter_signed l : Forall (fun s => keyType (signer_key s) <> PRE_AUTH_TX) l ->
  filter (fun x => signedBy (mSignatures c) x = true) l = signersOf l.
Proof.
  intros H. unfold signersOf. induction H as [|s l Hs _ IH]; [done|]. rewrite !filter_cons, (signed_by s Hs).
  by destruct (decide _); rewrite IH.
Qed.

(** One more kind of signers, after those of [before]. *)
Definition Sofar (before acc : list Signer) (total : Z) : Prop :=
  acc ⊆+ before /\ Counted acc total /\ (oneSigner (mSignatures c) all -> acc ≡ₚ signersOf before).

Definition Enough : Prop :=
  exists T, T ⊆+ all /\ T <> [] /\ Forall (fun s => signed c s = true) T /\ needed <= totalOf v T.

Lemma phase_next before acc total l ok total' (complete : list Signer -> Prop) :
  Sofar before acc total -> before ++ l ⊆+ all -> Outcome l acc complete ok total' ->
  (forall T, complete T -> oneSigner (mSignatures c) all -> T ≡ₚ signersOf l) ->
  if ok then Enough else exists acc', Sofar (before ++ l) acc' total'.
Proof.
  intros (Hb & Hc & Ha) Hl (T & HT & HF & Hok) Hcomp. destruct ok.
  - destruct Hok as [Hne Hle]. exists (acc ++ T). split_and!.
    + etrans; [|done]. by apply submseteq_app.
    + intros E. apply Hne. by apply app_nil in E as [_ ->].
    + apply Forall_app. split; [apply Hc|done].
    + done.
  - destruct Hok as [Hc' HT']. exists (acc ++ T). split_and!; [by apply submseteq_app|done|].
    intros H1. rewrite (Ha H1), (Hcomp T HT' H1). unfold signersOf. by rewrite filter_app.
Qed.

Lemma oneSigner_split t : oneSigner (mSignatures c) all -> oneSigner (mSignatures c) (split all t).
Proof.
  intros H sig Hsig. etrans; [|apply (H sig Hsig)]. apply submseteq_length. unfold split.
  apply sublist_submseteq. clear. induction all as [|s l IH]; [done|]. rewrite !filter_cons.
  destruct (decide (keyType _ = t)); [rewrite filter_cons|]; destruct (decide (accepts _ _ _ = true)); first [exact IH|by constructor].
Qed.

Lemma verify_phase before acc total t ok total' used used' :
  t <> PRE_AUTH_TX -> Sofar before acc total -> before ++ split all t ⊆+ all ->
  verifyAll v needed (accepts (mContentsHash c)) 0 (mSignatures c) (split all t) total used = (ok, total', used') ->
  if ok then Enough else exists acc', Sofar (before ++ split all t) acc' total'.
Proof.
  intros Ht HS Hl E.
  assert (Hty : Forall (fun s => keyType (signer_key s) <> PRE_AUTH_TX) (split all t)).
  { apply Forall_forall. intros s [<- _]%list_elem_of_filter. done. }
  eapply phase_next; [done|done| |].
  - eapply verifyAll_outcome; [done|done| |apply HS|done]. etrans; [|done].
    apply submseteq_app; [apply HS|done].
  - cbn beta. intros T HT H1. rewrite <-filter_signed by done. by apply HT, oneSigner_split.
Qed.

Lemma split_all : split all PRE_AUTH_TX ++ split all HASH_X ++ split all ED25519 ++ split all ED25519_SIGNED_PAYLOAD ≡ₚ all.
Proof.
  unfold split. clear. induction all as [|s l IH]; [done|]. rewrite !filter_cons.
  destruct (signer_key s); cbn [keyType]; repeat (destruct (decide _); try done); cbn [app];
    repeat rewrite <-Permutation_middle; by constructor.
Qed.

Lemma checkSignature_outcome ok c' :
  checkSignature all needed c = (ok, c') ->
  if ok then Enough else exists acc total, Counted acc total /\ acc ⊆+ all /\
    (oneSigner (mSignatures c) all -> acc ≡ₚ signersOf all).
Proof.
  unfold checkSignature, protocolVersionEquals. rewrite (proj2 (Z.eqb_neq _ _)) by lia.
  pose proof split_all as Hall.
  assert (H1 : split all PRE_AUTH_TX ⊆+ all) by (rewrite <-Hall at 2; by apply submseteq_inserts_r).
  assert (H2 : split all PRE_AUTH_TX ++ split all HASH_X ⊆+ all)
    by (rewrite <-Hall at 3; rewrite app_assoc; by apply submseteq_inserts_r).
  assert (H3 : (split all PRE_AUTH_TX ++ split all HASH_X) ++ split all ED25519 ⊆+ all)
    by (rewrite <-Hall at 4; rewrite !app_assoc; by apply submseteq_inserts_r).
  assert (H4 : ((split all PRE_AUTH_TX ++ split all HASH_X) ++ split all ED25519) ++ split all ED25519_SIGNED_PAYLOAD ≡ₚ all)
    by (by rewrite <-!app_assoc).
  destruct (checkPreAuth _ _ _ _ _) as [ok1 t1] eqn:E1.
  apply (preAuth_outcome _ [] 0) in E1; [|by apply Forall_forall; intros s [? _]%list_elem_of_filter|done|by split].
  apply (phase_next [] [] 0) in E1; [|by split_and!|exact H1|by intros T HT _]. cbn [app] in E1.
  destruct ok1; [by intros [= <- _]|]. destruct E1 as [acc1 S1].
  destruct (verifyAll _ _ _ _ _ (split all HASH_X) _ _) as [[ok2 t2] u2] eqn:E2.
  eapply (verify_phase _ _ _ HASH_X) in E2; [|done|exact S1|exact H2].
  destruct ok2; [by intros [= <- _]|]. destruct E2 as [acc2 S2].
  destruct (verifyAll _ _ _ _ _ (split all ED25519) _ _) as [[ok3 t3] u3] eqn:E3.
  eapply (verify_phase _ _ _ ED25519) in E3; [|done|exact S2|exact H3].
  destruct ok3; [by intros [= <- _]|]. destruct E3 as [acc3 S3].
  destruct (verifyAll _ _ _ _ _ (split all ED25519_SIGNED_PAYLOAD) _ _) as [[ok4 t4] u4] eqn:E4.
  eapply (verify_phase _ _ _ ED25519_SIGNED_PAYLOAD) in E4; [|done|exact S3|by rewrite H4].
  intros [= <- _]. destruct ok4; [done|]. destruct E4 as (acc4 & Hb & Hc & Ha).
  exists acc4, t4. split_and!; [done|by rewrite <-H4|]. intros Hone. rewrite (Ha Hone). unfold signersOf. by rewrite H4.
Qed.

Lemma Enough_all : Enough -> signersOf all <> [] /\ needed <= totalOf v (signersOf all).
Proof.
  intros (T & HT & Hne & HF & Hle). destruct (submseteq_Permutation _ _ HT) as [k Hk].
  assert (HTs : signersOf all ≡ₚ T ++ signersOf k).
  { unfold signersOf. rewrite Hk, filter_app. f_equiv.
    clear -HF. induction HF as [|s T Hs _ IH]; [done|]. by rewrite filter_cons_True, IH. }
  assert (0 <= totalOf v (signersOf k)).
  { apply total_bounds. rewrite Hk. apply submseteq_inserts_l, sublist_submseteq, sublist_filter. }
  split; [|rewrite HTs, totalOf_app; lia].
  intros E. rewrite E in HTs. apply Permutation_nil_l in HTs. symmetry in HTs. by apply app_nil in HTs as [-> _].
Qed.

End Weights.

(** ** Which signatures have been used *)

Lemma verifyAll_used v needed contents i sigs l total used ok total' used' j :
  verifyAll v needed (accepts contents) i sigs l total used = (ok, total', used') ->
  used' !! j = Some true -> used !! j = Some true \/
  exists sig s, (i <= j)%nat /\ sigs !! (j - i)%nat = Some sig /\ s ∈ l /\ accepts contents sig s = true.
Proof.
  revert i l total used. induction sigs as [|sig sigs IH]; intros i l total used; cbn.
  { intros [= <- <- <-]. auto. }
  assert (Hnext : forall l' total used, verifyAll v needed (accepts contents) (S i) sigs l' total used = (ok, total', used') ->
    (forall s, s ∈ l' -> s ∈ l) -> used' !! j = Some true -> used !! j = Some true \/
    exists sg s, (i <= j)%nat /\ (sig :: sigs) !! (j - i)%nat = Some sg /\ s ∈ l /\ accepts contents sg s = true).
  { intros l' total0 used0 E Hl Hj. destruct (IH _ _ _ _ E Hj) as [|(sg & s & Hle & Hs & Hsl & Ha)]; [auto|].
    right. exists sg, s. split_and!; [lia| |auto|done]. by replace (j - i)%nat with (S (j - S i)) by lia. }
  destruct (takeSigner _ l) as [[s rest]|] eqn:Et; [|intros E; by apply (Hnext l total used)].
  apply takeSigner_Some in Et as [Hs Hp].
  assert (Hhere : <[i := true]> used !! j = Some true -> used !! j = Some true \/
    exists sg s, (i <= j)%nat /\ (sig :: sigs) !! (j - i)%nat = Some sg /\ s ∈ l /\ accepts contents sg s = true).
  { destruct (decide (i = j)) as [->|Hij]; [|rewrite list_lookup_insert_ne by done; auto]. intros _. right.
    exists sig, s. rewrite Nat.sub_diag. split_and!; [lia|done|rewrite Hp; by left|done]. }
  destruct (needed <=? _); [intros [= <- <- <-]; apply Hhere|].
  intros E Hj. destruct (Hnext rest _ _ E) as [H|H]; [|done|by apply Hhere|by right].
  intros x Hx. rewrite Hp. by right.
Qed.

Lemma checkSignature_used signers needed c j :
  mUsedSignatures (snd (checkSignature signers needed c)) !! j = Some true ->
  mUsedSignatures c !! j = Some true \/
  exists sig s, mSignatures c !! j = Some sig /\ s ∈ signers /\ accepts (mContentsHash c) sig s = true.
Proof.
  unfold checkSignature. destruct (protocolVersionEquals _ 7); [by left|].
  destruct (checkPreAuth _ _ _ _ _) as [[] t1]; [by left|].
  assert (Hstep : forall v t total used ok total' used',
    verifyAll v needed (accepts (mContentsHash c)) 0 (mSignatures c) (split signers t) total used = (ok, total', used') ->
    used' !! j = Some true -> used !! j = Some true \/
    exists sig s, mSignatures c !! j = Some sig /\ s ∈ signers /\ accepts (mContentsHash c) sig s = true).
  { intros v t total used ok total' used' E Hj.
    destruct (verifyAll_used _ _ _ _ _ _ _ _ _ _ _ _ E Hj) as [|(sg & s & _ & Hs & Hin & Ha)]; [auto|].
    rewrite Nat.sub_0_r in Hs. apply list_elem_of_filter in Hin as [_ Hin]. right. by exists sg, s. }
  destruct (verifyAll _ _ _ _ _ (split signers HASH_X) _ _) as [[[] t2] u2] eqn:E2;
    [intros Hj; by eapply Hstep|].
  destruct (verifyAll _ _ _ _ _ (split signers ED25519) _ _) as [[[] t3] u3] eqn:E3.
  { intros Hj. destruct (Hstep _ _ _ _ _ _ _ E3 Hj) as [H|H]; [by eapply Hstep|by right]. }
  destruct (verifyAll _ _ _ _ _ (split signers ED25519_SIGNED_PAYLOAD) _ _) as [[ok4 t4] u4] eqn:E4.
  intros Hj. destruct (Hstep _ _ _ _ _ _ _ E4 Hj) as [H|H]; [|by right].
  destruct (Hstep _ _ _ _ _ _ _ E3 H) as [H'|H']; [by eapply Hstep|by right].
Qed.

Lemma checkSignature_fixed signers needed c :
  mSignatures (snd (checkSignature signers needed c)) = mSignatures c /\
  mContentsHash (snd (checkSignature signers needed c)) = mContentsHash c /\
  mProtocolVersion (snd (checkSignature signers needed c)) = mProtocolVersion c.
Proof.
  unfold checkSignature. destruct (protocolVersionEquals _ 7); [done|].
  destruct (checkPreAuth _ _ _ _ _) as [[] t1]; [done|].
  repeat (destruct (verifyAll _ _ _ _ _ _ _ _) as [[[] ?] ?]); done.
Qed.

Lemma verifyAll_length v needed f i sigs l total used :
  length (snd (verifyAll v needed f i sigs l total used)) = length used.
Proof.
  revert i l total used. induction sigs as [|sig sigs IH]; intros i l total used; cbn; [done|].
  destruct (takeSigner _ l) as [[s rest]|]; [|apply IH].
  destruct (needed <=? _); [cbn [snd]; by rewrite length_insert|]. by rewrite IH, length_insert.
Qed.

Lemma checkSignature_length signers needed c :
  length (mUsedSignatures (snd (checkSignature signers needed c))) = length (mUsedSignatures c).
Proof.
  unfold checkSignature. destruct (protocolVersionEquals _ 7); [done|].
  destruct (checkPreAuth _ _ _ _ _) as [[] t1]; [done|].
  pose proof (verifyAll_length (mProtocolVersion c) needed (accepts (mContentsHash c)) 0 (mSignatures c)) as H.
  destruct (verifyAll _ _ _ _ _ (split signers HASH_X) _ _) as [[b2 t2] u2] eqn:E2.
  pose proof (H (split signers HASH_X) t1 (mUsedSignatures c)) as H2. rewrite E2 in H2. cbn in H2.
  destruct b2; [done|].
  destruct (verifyAll _ _ _ _ _ (split signers ED25519) _ _) as [[b3 t3] u3] eqn:E3.
  pose proof (H (split signers ED25519) t2 u2) as H3. rewrite E3 in H3. cbn in H3.
  destruct b3; [cbn; congruence|].
  destruct (verifyAll _ _ _ _ _ (split signers ED25519_SIGNED_PAYLOAD) _ _) as [[b4 t4] u4] eqn:E4.
  pose proof (H (split signers ED25519_SIGNED_PAYLOAD) t3 u3) as H4. rewrite E4 in H4. cbn in *. congruence.
Qed.

(** The checks one transaction makes. *)
Definition runChecks (calls : list (list Signer * Z)) (c : SignatureChecker) : SignatureChecker :=
  foldl (fun c '(signers, needed) => snd (checkSignature signers needed c)) c calls.

Lemma runChecks_fixed calls c :
  length (mUsedSignatures (runChecks calls c)) = length (mUsedSignatures c) /\
  mProtocolVersion (runChecks calls c) = mProtocolVersion c.
Proof.
  revert c. induction calls as [|[signers needed] calls IH]; intros c; [done|].
  change (runChecks ((signers, needed) :: calls) c) with (runChecks calls (snd (checkSignature signers needed c))).
  destruct (IH (snd (checkSignature signers needed c))) as [-> ->].
  split; [apply checkSignature_length|apply checkSignature_fixed].
Qed.

Lemma runChecks_used calls c j sig :
  mSignatures c !! j = Some sig -> mUsedSignatures (runChecks calls c) !! j = Some true ->
  mUsedSignatures c !! j = Some true \/
  exists signers needed s, (signers, needed) ∈ calls /\ s ∈ signers /\ accepts (mContentsHash c) sig s = true.
Proof.
  revert c. induction calls as [|[signers needed] calls IH]; intros c Hs; cbn; [auto|].
  destruct (checkSignature_fixed signers needed c) as (E1 & E2 & _). intros Hj.
  destruct (IH (snd (checkSignature signers needed c))) as [H|(l & n & s & Hin & Hsl & Ha)];
    [by rewrite E1|done| |].
  - destruct (checkSignature_used _ _ _ _ H) as [|(sg & s & Hsg & Hsl & Ha)]; [by left|right].
    simplify_eq. exists signers, needed, s. split_and!; [by left|done|done].
  - right. rewrite E2 in Ha. exists l, n, s. split_and!; [by right|done|done].
Qed.

End Checker.

(** ** Theorems *)

(** C32: authorisation by weight.  From protocol 10 on, [checkSignature] accepts only if some
    of the signers, at least one and each counted once, have signed and their weights,
    each at most 255, add up to what is needed; no sum overflows.  If no signature
    belongs to two signers, it accepts exactly when the weights of all signers that have
    signed are enough. *)
Theorem checkSignature_exact sha256 verifySig c signers needed :
  10 <= mProtocolVersion c -> Forall (fun s => 0 <= signer_weight s) signers ->
  Z.of_nat (length signers) * UINT8_MAX <= INT32_MAX ->
  let ok := fst (checkSignature sha256 verifySig signers needed c) in
  let have := filter (fun s => signed sha256 verifySig c s = true) signers in
  (ok = true -> exists T, T ⊆+ signers /\ T <> [] /\
     Forall (fun s => signed sha256 verifySig c s = true) T /\ needed <= totalOf (mProtocolVersion c) T) /\
  (oneSigner sha256 verifySig c (mSignatures c) signers ->
     (ok = true <-> have <> [] /\ needed <= totalOf (mProtocolVersion c) have)).
Proof.
  intros Hv Hw Hn ok have. unfold ok. destruct (checkSignature sha256 verifySig signers needed c) as [b c'] eqn:E.
  apply checkSignature_outcome in E; [|done..]. cbn [fst]. destruct b.
  - split; [done|]. intros _. split; [|done]. intros _. by apply Enough_all.
  - split; [done|]. intros Hone. split; [done|]. intros [Hne Hle].
    destruct E as (acc & total & [Ht _ Hsh] & _ & Ha). specialize (Ha Hone). fold have in Ha.
    assert (Hacc : acc <> []) by (intros ->; by apply Permutation_nil_l in Ha).
    specialize (Hsh Hacc). rewrite Ht in Hsh. unfold signersOf in Ha. rewrite Ha in Hsh. unfold have in Hle. lia.
Qed.

(** No signature is superfluous.  If [checkAllSignaturesUsed] holds after the checks of a
    transaction, each of its signatures was made by one of the signers asked for. *)
Theorem used_signatures_have_signers sha256 verifySig version contents sigs calls sig :
  version <> 7 ->
  checkAllSignaturesUsed (runChecks sha256 verifySig calls (newSignatureChecker version contents sigs)) = true ->
  sig ∈ sigs ->
  exists signers needed s, (signers, needed) ∈ calls /\ s ∈ signers /\
    accepts sha256 verifySig contents sig s = true.
Proof.
  intros Hv Hall Hin. set (c := newSignatureChecker version contents sigs) in *.
  destruct (runChecks_fixed sha256 verifySig calls c) as [Hlen Hver].
  unfold checkAllSignaturesUsed, protocolVersionEquals in Hall. rewrite Hver in Hall.
  cbn [c newSignatureChecker mProtocolVersion] in Hall. rewrite (proj2 (Z.eqb_neq _ _)) in Hall by done.
  apply list_elem_of_lookup in Hin as [j Hj].
  assert (exists b, mUsedSignatures (runChecks sha256 verifySig calls c) !! j = Some b) as [b Hb].
  { apply lookup_lt_is_Some. rewrite Hlen. cbn. rewrite repeat_length. by eapply lookup_lt_Some. }
  assert (b = true) as ->.
  { rewrite forallb_forall in Hall. apply (Hall b). apply list_elem_of_In. by eapply list_elem_of_lookup_2. }
  destruct (runChecks_used sha256 verifySig calls c j sig Hj Hb) as [H|H]; [|done].
  exfalso. cbn in H. apply list_elem_of_lookup_2, list_elem_of_In, repeat_spec in H. done.
Qed.

(** ** An account with three signers *)

Module SampleSignatures.

(** A signature is the number of its key, the hash of a preimage its first byte. *)
Definition sha (l : list Z) : Z := default 0 (head l).
Definition verifier (k : Z) (sig msg : list Z) : bool := bool_decide (sig = [k]).

Definition signers : list Signer :=
  [mkSigner (SIGNER_KEY_TYPE_ED25519 1) 3; mkSigner (SIGNER_KEY_TYPE_HASH_X 2) 1;
   mkSigner (SIGNER_KEY_TYPE_PRE_AUTH_TX 77) 1000].
Definition sigOf (k : Z) : DecoratedSignature := mkSignature [0; 0; 0; k] [k].
Definition checker : SignatureChecker := newSignatureChecker 19 77 [sigOf 1; sigOf 2].

Lemma checkSignature_exact_witness :
  let have := filter (fun s => signed sha verifier checker s = true) signers in
  (fst (checkSignature sha verifier signers 259 checker) = true <-> have <> [] /\ 259 <= totalOf 19 have) /\
  totalOf 19 have = 259.
Proof.
  cbn zeta. split; [|vm_compute; reflexivity].
  apply (checkSignature_exact sha verifier checker signers 259).
  - cbn. lia.
  - repeat constructor; cbn; lia.
  - vm_compute. done.
  - intros sig [->|[->|?%not_elem_of_nil]%elem_of_cons]%elem_of_cons; [vm_compute; lia|vm_compute; lia|done].
Defined.

Lemma used_signatures_have_signers_witness :
  exists l needed s, (l, needed) ∈ [(signers, 259)] /\ s ∈ l /\ accepts sha verifier 77 (sigOf 2) s = true.
Proof.
  apply (used_signatures_have_signers sha verifier 19 77 [sigOf 1; sigOf 2] [(signers, 259)] (sigOf 2)).
  - lia.
  - vm_compute. reflexivity.
  - by right; left.
Defined.

End SampleSignatures.
