(* ===== verification/Balances.v ===== *)
(** * Balances and liabilities

    Model of the functions of [src/transactions/TransactionUtils.cpp] that read
    and change the balance and the liabilities of an account or a trust line, of
    [addBalance] of [src/util/types.cpp], and of the liabilities of an offer.  A
    function that changes an entry returns the entry it leaves; [int64_t] and
    [uint32_t] arithmetic is written with its wrap-around.  An account or trust
    line in which balance and liabilities fit each other is [Fits]; the lemmas
    say by how much it can be changed, and that the changes keep it so. *)

From stdpp Require Import base list gmap strings.
From S2P Require Import Prelude Exchange Entries.

Local Open Scope Z_scope.

(** [addBalance] of [util/types.cpp]: the new balance, or [None] for [false]. *)
Definition addToBalance (balance delta maxBalance : Z) : exc (option Z) :=
  do* assertOrThrow (0 <=? balance) "balance >= 0" in
  do* assertOrThrow (0 <=? maxBalance) "maxBalance >= 0" in
  if delta =? 0 then mret (Some balance)
  else if delta <? i64 (- balance) then mret None
  else if i64 (maxBalance - balance) <? delta then mret None
  else mret (Some (i64 (balance + delta))).

(** ** Extensions *)

Definition prepareAccountEntryExtensionV1 (ae : AccountEntry) : AccountEntryExtensionV1 :=
  match acc_ext ae with
  | None => mkAccountV1 (mkLiabilities 0 0) None
  | Some v1 => v1
  end.

Definition prepareTrustLineEntryExtensionV1 (tl : TrustLineEntry) : TrustLineEntryExtensionV1 :=
  match tl_ext tl with
  | None => mkTrustLineV1 (mkLiabilities 0 0) None
  | Some v1 => v1
  end.

Definition hasAccountEntryExtV2 (ae : AccountEntry) : option AccountEntryExtensionV2 :=
  match acc_ext ae with Some v1 => v1_ext v1 | None => None end.

(** ** Changes of one field *)

Definition withData (d : LedgerEntryData) (le : LedgerEntry) : LedgerEntry :=
  mkEntry (lastModifiedLedgerSeq le) d (le_ext le).
Definition setAccountBalance (b : Z) (a : AccountEntry) : AccountEntry :=
  mkAccount (acc_accountID a) b (acc_seqNum a) (acc_numSubEntries a) (acc_inflationDest a) (acc_flags a)
    (acc_homeDomain a) (acc_thresholds a) (acc_signers a) (acc_ext a).
Definition setAccountExt (e : AccountEntryExtensionV1) (a : AccountEntry) : AccountEntry :=
  mkAccount (acc_accountID a) (acc_balance a) (acc_seqNum a) (acc_numSubEntries a) (acc_inflationDest a)
    (acc_flags a) (acc_homeDomain a) (acc_thresholds a) (acc_signers a) (Some e).
Definition setTrustLineBalance (b : Z) (t : TrustLineEntry) : TrustLineEntry :=
  mkTrustLine (tl_accountID t) (tl_asset t) b (tl_limit t) (tl_flags t) (tl_ext t).
Definition setTrustLineExt (e : TrustLineEntryExtensionV1) (t : TrustLineEntry) : TrustLineEntry :=
  mkTrustLine (tl_accountID t) (tl_asset t) (tl_balance t) (tl_limit t) (tl_flags t) (Some e).
Definition setBuying (b : Z) (l : Liabilities) : Liabilities := mkLiabilities b (liab_selling l).
Definition setSelling (s : Z) (l : Liabilities) : Liabilities := mkLiabilities (liab_buying l) s.
Definition setAccountLiabilities (f : Liabilities -> Liabilities) (a : AccountEntry) : AccountEntry :=
  let v1 := prepareAccountEntryExtensionV1 a in
  setAccountExt (mkAccountV1 (f (v1_liabilities v1)) (v1_ext v1)) a.
Definition setTrustLineLiabilities (f : Liabilities -> Liabilities) (t : TrustLineEntry) : TrustLineEntry :=
  let v1 := prepareTrustLineEntryExtensionV1 t in
  setTrustLineExt (mkTrustLineV1 (f (tlv1_liabilities v1)) (tlv1_ext v1)) t.

(** ** Authorisation *)

(** Reading the trust line of another kind of entry throws. *)
Definition trustLine (le : LedgerEntry) : exc TrustLineEntry :=
  match le_data le with TRUSTLINE t => mret t | _ => exc_throw (Throw "union member trustLine is not active") end.

Definition TRUSTLINE_AUTH_FLAGS : Z := 3.

Definition isAuthorized (le : LedgerEntry) : exc bool :=
  let* t := trustLine le in mret (negb (Z.land (tl_flags t) AUTHORIZED_FLAG =? 0)).

Definition isAuthorizedToMaintainLiabilitiesUnsafe (flags : Z) : bool :=
  negb (Z.land flags TRUSTLINE_AUTH_FLAGS =? 0).

Definition isAuthorizedToMaintainLiabilities (le : LedgerEntry) : exc bool :=
  let* t := trustLine le in
  mret match tl_asset t with
       | TL_POOL_SHARE _ => true
       | _ => isAuthorizedToMaintainLiabilitiesUnsafe (tl_flags t)
       end.

Section WithHeader.
Context (header : LedgerHeader).

Definition checkAuthorization (entry : LedgerEntry) : exc bool :=
  if protocolVersionIsBefore (ledgerVersion header) 10 then isAuthorized entry
  else let* ok := isAuthorizedToMaintainLiabilities entry in
       if ok : bool then mret true else exc_throw (Throw "Invalid authorization").

(** ** Reserves and limits *)

(** The overload of [getMinBalance] on the numbers of an account. *)
Definition getMinBalanceOf (numSubentries numSponsoring numSponsored : Z) : exc Z :=
  if protocolVersionIsBefore (ledgerVersion header) 14 && (negb (numSponsored =? 0) || negb (numSponsoring =? 0))
  then exc_throw (Throw "unexpected sponsorship state")
  else if protocolVersionIsBefore (ledgerVersion header) 9
  then mret (u32 (u32 (2 + numSubentries) * baseReserve header))
  else
    let effEntries := 2 + numSubentries + numSponsoring - numSponsored in
    if effEntries <? 0 then exc_throw (Throw "unexpected account state")
    else mret (i64 (effEntries * baseReserve header)).

Definition getMinBalance (acc : AccountEntry) : exc Z :=
  match hasAccountEntryExtV2 acc with
  | Some v2 =>
      if protocolVersionStartsFrom (ledgerVersion header) 14
      then getMinBalanceOf (acc_numSubEntries acc) (numSponsoring v2) (numSponsored v2)
      else getMinBalanceOf (acc_numSubEntries acc) 0 0
  | None => getMinBalanceOf (acc_numSubEntries acc) 0 0
  end.

Definition unknownType {A} : exc A := exc_throw (Throw "Unknown LedgerEntry type").

(** The two getters of liabilities, by the field they read. *)
Definition getLiabilities (field : Liabilities -> Z) (le : LedgerEntry) : exc Z :=
  if protocolVersionIsBefore (ledgerVersion header) 10
  then exc_throw (Throw "Liabilities accessed before version 10")
  else match le_data le with
       | ACCOUNT acc => mret match acc_ext acc with None => 0 | Some v1 => field (v1_liabilities v1) end
       | TRUSTLINE tl => mret match tl_ext tl with None => 0 | Some v1 => field (tlv1_liabilities v1) end
       | _ => unknownType
       end.
Definition getBuyingLiabilities (le : LedgerEntry) : exc Z := getLiabilities liab_buying le.
Definition getSellingLiabilities (le : LedgerEntry) : exc Z := getLiabilities liab_selling le.

Definition getAvailableBalance (le : LedgerEntry) : exc Z :=
  let* avail :=
    match le_data le with
    | ACCOUNT acc => let* minBalance := getMinBalance acc in mret (i64 (acc_balance acc - minBalance))
    | TRUSTLINE tl => do* checkAuthorization le in mret (tl_balance tl)
    | _ => unknownType
    end in
  if protocolVersionStartsFrom (ledgerVersion header) 10
  then let* selling := getSellingLiabilities le in mret (i64 (avail - selling))
  else mret avail.

Definition getMaxAmountReceive (le : LedgerEntry) : exc Z :=
  match le_data le with
  | ACCOUNT acc =>
      if protocolVersionStartsFrom (ledgerVersion header) 10
      then let* buying := getBuyingLiabilities le in mret (i64 (INT64_MAX - i64 (acc_balance acc + buying)))
      else mret INT64_MAX
  | TRUSTLINE tl =>
      let* ok := checkAuthorization le in
      if negb ok then mret 0
      else
        let amount := i64 (tl_limit tl - tl_balance tl) in
        if protocolVersionStartsFrom (ledgerVersion header) 10
        then let* buying := getBuyingLiabilities le in mret (i64 (amount - buying))
        else mret amount
  | _ => unknownType
  end.

Definition getMinimumLimit (le : LedgerEntry) : exc Z :=
  let* tl := trustLine le in
  if protocolVersionStartsFrom (ledgerVersion header) 10
  then let* buying := getBuyingLiabilities le in mret (i64 (tl_balance tl + buying))
  else mret (tl_balance tl).

(** ** Changing a balance *)

Definition addBalanceSkipAuthorization (entry : LedgerEntry) (amount : Z) : exc (bool * LedgerEntry) :=
  let* tl := trustLine entry in
  let* newBalance := addToBalance (tl_balance tl) amount (tl_limit tl) in
  match newBalance with
  | None => mret (false, entry)
  | Some newBalance =>
      let done := (true, withData (TRUSTLINE (setTrustLineBalance newBalance tl)) entry) in
      if protocolVersionStartsFrom (ledgerVersion header) 10 then
        let* selling := getSellingLiabilities entry in
        if newBalance <? selling then mret (false, entry)
        else
          let* buying := getBuyingLiabilities entry in
          if i64 (tl_limit tl - buying) <? newBalance then mret (false, entry) else mret done
      else mret done
  end.

Definition addBalance (entry : LedgerEntry) (delta : Z) : exc (bool * LedgerEntry) :=
  match le_data entry with
  | ACCOUNT acc =>
      if delta =? 0 then mret (true, entry)
      else
        let* newBalance := addToBalance (acc_balance acc) delta INT64_MAX in
        match newBalance with
        | None => mret (false, entry)
        | Some newBalance =>
            let done := (true, withData (ACCOUNT (setAccountBalance newBalance acc)) entry) in
            if protocolVersionStartsFrom (ledgerVersion header) 10 then
              let* minBalance := getMinBalance acc in
              let* tooLow :=
                if delta <? 0
                then let* selling := getSellingLiabilities entry in mret (i64 (newBalance - minBalance) <? selling)
                else mret false in
              if tooLow : bool then mret (false, entry)
              else
                let* buying := getBuyingLiabilities entry in
                if i64 (INT64_MAX - buying) <? newBalance then mret (false, entry) else mret done
            else mret done
        end
  | TRUSTLINE _ =>
      if delta =? 0 then mret (true, entry)
      else
        let* ok := checkAuthorization entry in
        if negb ok then mret (false, entry) else addBalanceSkipAuthorization entry delta
  | _ => unknownType
  end.

(** ** Changing liabilities *)

Definition addBuyingLiabilities (entry : LedgerEntry) (delta : Z) : exc (bool * LedgerEntry) :=
  let* buyingLiab := getBuyingLiabilities entry in
  if delta =? 0 then mret (true, entry)
  else
    match le_data entry with
    | ACCOUNT acc =>
        let maxLiabilities := i64 (INT64_MAX - acc_balance acc) in
        let* res := addToBalance buyingLiab delta maxLiabilities in
        mret match res with
             | Some b => (true, withData (ACCOUNT (setAccountLiabilities (setBuying b) acc)) entry)
             | None => (false, entry)
             end
    | TRUSTLINE tl =>
        let* ok := checkAuthorization entry in
        if negb ok then mret (false, entry)
        else
          let maxLiabilities := i64 (tl_limit tl - tl_balance tl) in
          let* res := addToBalance buyingLiab delta maxLiabilities in
          mret match res with
               | Some b => (true, withData (TRUSTLINE (setTrustLineLiabilities (setBuying b) tl)) entry)
               | None => (false, entry)
               end
    | _ => unknownType
    end.

Definition addSellingLiabilities (entry : LedgerEntry) (delta : Z) : exc (bool * LedgerEntry) :=
  let* sellingLiab := getSellingLiabilities entry in
  if delta =? 0 then mret (true, entry)
  else
    match le_data entry with
    | ACCOUNT acc =>
        let* minBalance := getMinBalance acc in
        let maxLiabilities := i64 (acc_balance acc - minBalance) in
        if maxLiabilities <? 0 then mret (false, entry)
        else
          let* res := addToBalance sellingLiab delta maxLiabilities in
          mret match res with
               | Some s => (true, withData (ACCOUNT (setAccountLiabilities (setSelling s) acc)) entry)
               | None => (false, entry)
               end
    | TRUSTLINE tl =>
        let* ok := checkAuthorization entry in
        if negb ok then mret (false, entry)
        else
          let maxLiabilities := tl_balance tl in
          let* res := addToBalance sellingLiab delta maxLiabilities in
          mret match res with
               | Some s => (true, withData (TRUSTLINE (setTrustLineLiabilities (setSelling s) tl)) entry)
               | None => (false, entry)
               end
    | _ => unknownType
    end.

(** ** The liabilities of an offer *)

Definition offerExchange (oe : OfferEntry) : exc ExchangeResultV10 :=
  if protocolVersionIsBefore (ledgerVersion header) 10
  then exc_throw (Throw "Offer liabilities calculated before version 10")
  else exchangeV10WithoutPriceErrorThresholds (oe_price oe) (oe_amount oe) INT64_MAX INT64_MAX INT64_MAX NORMAL.
Definition getOfferBuyingLiabilities (oe : OfferEntry) : exc Z :=
  let* res := offerExchange oe in mret (sheepSent res).
Definition getOfferSellingLiabilities (oe : OfferEntry) : exc Z :=
  let* res := offerExchange oe in mret (wheatReceived res).

End WithHeader.

(** ** What an entry holds

    From protocol version 10 on, an account or a trust line is an amount of one
    asset, with a floor it must not be sold below, a ceiling it must not be
    bought beyond, and the amounts that offers may still buy and sell. *)

Record Holding := mkHolding {
  h_balance : Z;
  h_buying : Z;
  h_selling : Z;
  h_low : Z;
  h_high : Z
}.

Definition authorised (t : TrustLineEntry) : bool :=
  match tl_asset t with
  | TL_POOL_SHARE _ => true
  | _ => isAuthorizedToMaintainLiabilitiesUnsafe (tl_flags t)
  end.

(** An account whose reserve cannot be computed, and a trust line that may not
    maintain liabilities, hold nothing. *)
Definition view (header : LedgerHeader) (d : LedgerEntryData) : option Holding :=
  match d with
  | ACCOUNT a =>
      let l := v1_liabilities (prepareAccountEntryExtensionV1 a) in
      match getMinBalance header a with
      | inr low => Some (mkHolding (acc_balance a) (liab_buying l) (liab_selling l) low INT64_MAX)
      | inl _ => None
      end
  | TRUSTLINE t =>
      let l := tlv1_liabilities (prepareTrustLineEntryExtensionV1 t) in
      if authorised t
      then Some (mkHolding (tl_balance t) (liab_buying l) (liab_selling l) 0 (tl_limit t))
      else None
  | _ => None
  end.

(** The balance leaves room for what is to be bought and, when something is to
    be sold, covers it above the floor. *)
Record Sound (h : Holding) : Prop := mkSound {
  so_balance : 0 <= h_balance h;
  so_buying : 0 <= h_buying h;
  so_selling : 0 <= h_selling h;
  so_low : 0 <= h_low h <= INT64_MAX;
  so_high : h_balance h + h_buying h <= h_high h <= INT64_MAX;
  so_covered : 0 < h_selling h -> h_selling h <= h_balance h - h_low h
}.

Definition available (h : Holding) : Z := h_balance h - h_low h - h_selling h.
Definition receivable (h : Holding) : Z := h_high h - h_balance h - h_buying h.

(** The three changes, on holdings. *)
Definition canMove (h : Holding) (delta : Z) : bool :=
  (delta =? 0) || (if 0 <? delta then delta <=? receivable h else - delta <=? available h).
Definition canPromiseToBuy (h : Holding) (delta : Z) : bool :=
  (delta =? 0) || ((- h_buying h <=? delta) && (delta <=? receivable h)).
Definition canPromiseToSell (h : Holding) (delta : Z) : bool :=
  (delta =? 0) ||
  ((h_low h <=? h_balance h) && (- h_selling h <=? delta) && (delta <=? available h)).

Definition moved (delta : Z) (h : Holding) : Holding :=
  mkHolding (h_balance h + delta) (h_buying h) (h_selling h) (h_low h) (h_high h).
Definition promisedToBuy (delta : Z) (h : Holding) : Holding :=
  mkHolding (h_balance h) (h_buying h + delta) (h_selling h) (h_low h) (h_high h).
Definition promisedToSell (delta : Z) (h : Holding) : Holding :=
  mkHolding (h_balance h) (h_buying h) (h_selling h + delta) (h_low h) (h_high h).

(** What the changes leave alone: all but the balance and the liabilities. *)
Definition blank (d : LedgerEntryData) : LedgerEntryData :=
  match d with
  | ACCOUNT a => ACCOUNT (setAccountLiabilities (fun _ => mkLiabilities 0 0) (setAccountBalance 0 a))
  | TRUSTLINE t => TRUSTLINE (setTrustLineLiabilities (fun _ => mkLiabilities 0 0) (setTrustLineBalance 0 t))
  | d => d
  end.

(** [r] is the result of a change of [e], with holding [h], that succeeds iff
    [ok] and leaves [h']. *)
Definition Changes (header : LedgerHeader) (e : LedgerEntry) (h : Holding) (ok : bool) (h' : Holding)
    (r : exc (bool * LedgerEntry)) : Prop :=
  exists e', r = inr (ok, e') /\
    view header (le_data e') = Some (if ok then h' else h) /\
    (ok = false -> e' = e) /\
    blank (le_data e') = blank (le_data e) /\
    lastModifiedLedgerSeq e' = lastModifiedLedgerSeq e /\ le_ext e' = le_ext e /\
    LedgerEntryKey e' = LedgerEntryKey e.

(** An [int64_t]. *)
Definition int64 (z : Z) : Prop := - INT64_MAX - 1 <= z <= INT64_MAX.

Lemma addToBalance_eq b d m :
  0 <= b <= m -> m <= INT64_MAX -> int64 d ->
  addToBalance b d m = inr (if (- b <=? d) && (d <=? m - b) then Some (b + d) else None).
Proof.
  unfold int64. intros Hb Hm Hd. unfold addToBalance.
  rewrite (proj2 (Z.leb_le 0 b)), (proj2 (Z.leb_le 0 m)) by lia. cbn.
  rewrite !i64_small by (widths; lia).
  destruct (Z.eqb_spec d 0) as [->|].
  { rewrite (proj2 (Z.leb_le (- b) 0)), (proj2 (Z.leb_le 0 (m - b))) by lia. cbn. by rewrite Z.add_0_r. }
  rewrite Z.ltb_antisym. destruct (Z.leb_spec (- b) d); cbn; [|done].
  rewrite Z.ltb_antisym. destruct (Z.leb_spec d (m - b)); cbn; [|done].
  by rewrite i64_small by (widths; lia).
Qed.

Section Limits.
Context (header : LedgerHeader) (Hv : 10 <= ledgerVersion header).

Lemma from10 : protocolVersionIsBefore (ledgerVersion header) 10 = false.
Proof using Hv. unfold protocolVersionIsBefore. lia. Qed.
Lemma starts10 : protocolVersionStartsFrom (ledgerVersion header) 10 = true.
Proof using Hv. unfold protocolVersionStartsFrom. lia. Qed.

Lemma getLiabilities_eq e h :
  view header (le_data e) = Some h ->
  getBuyingLiabilities header e = inr (h_buying h) /\ getSellingLiabilities header e = inr (h_selling h).
Proof using Hv.
  unfold getBuyingLiabilities, getSellingLiabilities, getLiabilities. rewrite from10. unfold view.
  destruct (le_data e) as [a|t| | | |]; try done.
  - destruct (getMinBalance header a); [done|]. intros [= <-].
    unfold prepareAccountEntryExtensionV1. by destruct (acc_ext a).
  - destruct (authorised t); [|done]. intros [= <-].
    unfold prepareTrustLineEntryExtensionV1. by destruct (tl_ext t).
Qed.

Lemma checkAuthorization_eq e t h :
  le_data e = TRUSTLINE t -> view header (le_data e) = Some h -> checkAuthorization header e = inr true.
Proof using Hv.
  intros E. unfold checkAuthorization, isAuthorizedToMaintainLiabilities, trustLine. rewrite from10, E.
  cbn. unfold authorised. by destruct (tl_asset t); [destruct isAuthorizedToMaintainLiabilitiesUnsafe..|].
Qed.

(** The two kinds of entry that hold something, with the parts of the holding. *)
Lemma view_cases e h :
  view header (le_data e) = Some h ->
  (exists a, le_data e = ACCOUNT a /\ acc_balance a = h_balance h /\
     getMinBalance header a = inr (h_low h) /\ h_high h = INT64_MAX) \/
  (exists t, le_data e = TRUSTLINE t /\ tl_balance t = h_balance h /\ h_low h = 0 /\
     h_high h = tl_limit t /\ checkAuthorization header e = inr true).
Proof using Hv.
  intros H. pose proof H as H'. unfold view in H. destruct (le_data e) as [a|t| | | |] eqn:E; try done.
  - left. exists a. destruct (getMinBalance header a) eqn:Em; [done|]. by injection H as <-.
  - right. exists t. rewrite <- E in H'. rewrite (checkAuthorization_eq e t h E H').
    destruct (authorised t); [|done]. by injection H as <-.
Qed.

Lemma available_eq e h :
  view header (le_data e) = Some h -> Sound h -> getAvailableBalance header e = inr (available h).
Proof using Hv.
  intros H [S1 S2 S3 S4 S5 S6]. pose proof (proj2 (getLiabilities_eq e h H)) as Hl.
  unfold getAvailableBalance. rewrite starts10, Hl. unfold available.
  destruct (view_cases e h H) as [(a & E & Eb & Em & Eh)|(t & E & Eb & Em & Eh & Ea)]; rewrite E.
  - rewrite Em, Eb. cbn. rewrite (i64_small (h_balance h - _)), i64_small by (widths; lia). done.
  - rewrite Ea. cbn. rewrite i64_small by (widths; lia). do 2 f_equal. lia.
Qed.

Lemma receivable_eq e h :
  view header (le_data e) = Some h -> Sound h -> getMaxAmountReceive header e = inr (receivable h).
Proof using Hv.
  intros H [S1 S2 S3 S4 S5 S6]. pose proof (proj1 (getLiabilities_eq e h H)) as Hl.
  unfold getMaxAmountReceive. rewrite starts10, Hl. unfold receivable.
  destruct (view_cases e h H) as [(a & E & Eb & Em & Eh)|(t & E & Eb & Em & Eh & Ea)]; rewrite E.
  - rewrite Eb. cbn. rewrite (i64_small (_ + _)), i64_small by (widths; lia). f_equal. lia.
  - rewrite Ea. cbn. rewrite <- Eh, Eb. rewrite (i64_small (h_high h - _)), i64_small by (widths; lia). done.
Qed.

(** *** The three changes *)

Lemma minBalance_liabilities f a : getMinBalance header (setAccountLiabilities f a) = getMinBalance header a.
Proof.
  unfold getMinBalance, hasAccountEntryExtV2, setAccountLiabilities, prepareAccountEntryExtensionV1.
  by destruct (acc_ext a).
Qed.

Lemma change_refused e h h' :
  view header (le_data e) = Some h -> Changes header e h false h' (inr (false, e)).
Proof. intros H. exists e. by repeat split. Qed.

Lemma change_none e h h' :
  view header (le_data e) = Some h -> h' = h -> Changes header e h true h' (inr (true, e)).
Proof. intros H ->. exists e. by repeat split. Qed.

Lemma change_made e h h' d :
  view header d = Some h' -> blank d = blank (le_data e) ->
  LedgerEntryKey (withData d e) = LedgerEntryKey e ->
  Changes header e h true h' (inr (true, withData d e)).
Proof. intros H B K. exists (withData d e). by repeat split. Qed.

Lemma account_moved e h a b :
  le_data e = ACCOUNT a -> view header (le_data e) = Some h ->
  Changes header e h true (moved (b - h_balance h) h)
    (inr (true, withData (ACCOUNT (setAccountBalance b a)) e)).
Proof.
  intros E H. rewrite E in H. apply change_made; rewrite ?E; [|done|by unfold LedgerEntryKey; rewrite E].
  cbn in *. change (getMinBalance header (setAccountBalance b a)) with (getMinBalance header a).
  destruct (getMinBalance header a); [done|]. injection H as <-. unfold moved. cbn. do 2 f_equal. lia.
Qed.

Lemma trustLine_moved e h t b :
  le_data e = TRUSTLINE t -> view header (le_data e) = Some h ->
  Changes header e h true (moved (b - h_balance h) h)
    (inr (true, withData (TRUSTLINE (setTrustLineBalance b t)) e)).
Proof.
  intros E H. rewrite E in H. apply change_made; rewrite ?E; [|done|by unfold LedgerEntryKey; rewrite E].
  cbn in *. change (authorised (setTrustLineBalance b t)) with (authorised t).
  destruct (authorised t); [|done]. injection H as <-. unfold moved. cbn. do 2 f_equal. lia.
Qed.

Lemma account_promised e h a f :
  le_data e = ACCOUNT a -> view header (le_data e) = Some h ->
  let l := f (mkLiabilities (h_buying h) (h_selling h)) in
  Changes header e h true (mkHolding (h_balance h) (liab_buying l) (liab_selling l) (h_low h) (h_high h))
    (inr (true, withData (ACCOUNT (setAccountLiabilities f a)) e)).
Proof.
  intros E H. rewrite E in H. apply change_made; rewrite ?E; [| |by unfold LedgerEntryKey; rewrite E].
  - cbn in *. rewrite minBalance_liabilities. destruct (getMinBalance header a); [done|]. injection H as <-.
    cbn. by destruct (v1_liabilities _).
  - by destruct a as [????????? [[]|]].
Qed.

Lemma trustLine_promised e h t f :
  le_data e = TRUSTLINE t -> view header (le_data e) = Some h ->
  let l := f (mkLiabilities (h_buying h) (h_selling h)) in
  Changes header e h true (mkHolding (h_balance h) (liab_buying l) (liab_selling l) (h_low h) (h_high h))
    (inr (true, withData (TRUSTLINE (setTrustLineLiabilities f t)) e)).
Proof.
  intros E H. rewrite E in H. apply change_made; rewrite ?E; [| |by unfold LedgerEntryKey; rewrite E].
  - cbn in *. change (authorised (setTrustLineLiabilities f t)) with (authorised t).
    destruct (authorised t); [|done]. injection H as <-. cbn. by destruct (tlv1_liabilities _).
  - by destruct t as [????? [[]|]].
Qed.

(** Decide the next comparison. *)
Ltac next_test :=
  match goal with
  | |- context [i64 ?z] => rewrite (i64_small z) by (widths; lia)
  | |- context [?a <=? ?b] => destruct (Z.leb_spec a b)
  | |- context [?a <? ?b] => destruct (Z.ltb_spec a b)
  end; cbn [andb orb negb bnd mbind exc_bind mret exc_ret].
Ltac tests := repeat (next_test; try lia).

Lemma addBalance_eq e h d :
  view header (le_data e) = Some h -> Sound h -> int64 d ->
  Changes header e h (canMove h d) (moved d h) (addBalance header e d).
Proof using Hv.
  intros H So Hd. pose proof So as [S1 S2 S3 S4 S5 S6]. pose proof (getLiabilities_eq e h H) as [Lb Ls].
  unfold addBalance, canMove, available, receivable.
  destruct (Z.eqb_spec d 0) as [->|Hd0]; cbn [orb].
  { assert (moved 0 h = h) by (unfold moved; rewrite Z.add_0_r; by destruct h).
    destruct (view_cases e h H) as [(a & -> & _)|(t & -> & _)]; by apply change_none. }
  destruct (view_cases e h H) as [(a & E & Eb & Em & Eh)|(t & E & Eb & Em & Eh & Ea)]; rewrite E.
  - pose proof (account_moved e h a (h_balance h + d) E H) as Hm.
    replace (h_balance h + d - h_balance h) with d in Hm by lia.
    rewrite Eb, addToBalance_eq by (done || widths; lia). cbn [bnd mbind exc_bind].
    rewrite starts10, Em, Lb, Ls.
    tests; by (apply Hm || apply change_refused).
  - pose proof (trustLine_moved e h t (h_balance h + d) E H) as Hm.
    replace (h_balance h + d - h_balance h) with d in Hm by lia.
    unfold addBalanceSkipAuthorization, trustLine. rewrite Ea, E. cbn [bnd mbind exc_bind mret exc_ret negb].
    rewrite Eb, <- Eh, addToBalance_eq by (done || widths; lia). cbn [bnd mbind exc_bind].
    rewrite starts10, Lb, Ls.
    tests; by (apply Hm || apply change_refused).
Qed.

Lemma addBuyingLiabilities_eq e h d :
  view header (le_data e) = Some h -> Sound h -> int64 d ->
  Changes header e h (canPromiseToBuy h d) (promisedToBuy d h) (addBuyingLiabilities header e d).
Proof using Hv.
  intros H So Hd. pose proof So as [S1 S2 S3 S4 S5 S6]. pose proof (getLiabilities_eq e h H) as [Lb Ls].
  unfold addBuyingLiabilities, canPromiseToBuy, receivable. rewrite Lb. cbn [bnd mbind exc_bind].
  destruct (Z.eqb_spec d 0) as [->|Hd0]; cbn [orb].
  { apply change_none; [done|]. unfold promisedToBuy. rewrite Z.add_0_r. by destruct h. }
  destruct (view_cases e h H) as [(a & E & Eb & Em & Eh)|(t & E & Eb & Em & Eh & Ea)]; rewrite E.
  - pose proof (account_promised e h a (setBuying (h_buying h + d)) E H) as Hm.
    rewrite Eb, i64_small, addToBalance_eq by (done || widths; lia). cbn [bnd mbind exc_bind mret exc_ret].
    tests; by (apply Hm || apply change_refused).
  - pose proof (trustLine_promised e h t (setBuying (h_buying h + d)) E H) as Hm.
    rewrite Ea. cbn [bnd mbind exc_bind mret exc_ret negb].
    rewrite Eb, <- Eh, i64_small, addToBalance_eq by (done || widths; lia). cbn [bnd mbind exc_bind mret exc_ret].
    tests; by (apply Hm || apply change_refused).
Qed.

Lemma addSellingLiabilities_eq e h d :
  view header (le_data e) = Some h -> Sound h -> int64 d ->
  Changes header e h (canPromiseToSell h d) (promisedToSell d h) (addSellingLiabilities header e d).
Proof using Hv.
  intros H So Hd. pose proof So as [S1 S2 S3 S4 S5 S6]. pose proof (getLiabilities_eq e h H) as [Lb Ls].
  unfold addSellingLiabilities, canPromiseToSell, available. rewrite Ls. cbn [bnd mbind exc_bind].
  destruct (Z.eqb_spec d 0) as [->|Hd0]; cbn [orb].
  { apply change_none; [done|]. unfold promisedToSell. rewrite Z.add_0_r. by destruct h. }
  destruct (view_cases e h H) as [(a & E & Eb & Em & Eh)|(t & E & Eb & Em & Eh & Ea)]; rewrite E.
  - pose proof (account_promised e h a (setSelling (h_selling h + d)) E H) as Hm.
    rewrite Eb, Em. cbn [bnd mbind exc_bind]. rewrite i64_small by (widths; lia).
    destruct (Z.ltb_spec (h_balance h - h_low h) 0).
    { tests; by apply change_refused. }
    rewrite addToBalance_eq by (done || widths; lia). cbn [bnd mbind exc_bind mret exc_ret].
    tests; by (apply Hm || apply change_refused).
  - pose proof (trustLine_promised e h t (setSelling (h_selling h + d)) E H) as Hm.
    rewrite Ea. cbn [bnd mbind exc_bind mret exc_ret negb].
    rewrite Eb, addToBalance_eq by (done || widths; lia). cbn [bnd mbind exc_bind mret exc_ret].
    tests; by (apply Hm || apply change_refused).
Qed.

End Limits.

(** ** Sequences of changes *)

Inductive BalanceOp := Move (delta : Z) | PromiseToBuy (delta : Z) | PromiseToSell (delta : Z).

Definition deltaOf (op : BalanceOp) : Z :=
  match op with Move d | PromiseToBuy d | PromiseToSell d => d end.

Definition runOp (header : LedgerHeader) (op : BalanceOp) (e : LedgerEntry) : exc (bool * LedgerEntry) :=
  match op with
  | Move d => addBalance header e d
  | PromiseToBuy d => addBuyingLiabilities header e d
  | PromiseToSell d => addSellingLiabilities header e d
  end.

Definition specOp (op : BalanceOp) (h : Holding) : bool * Holding :=
  let '(ok, h') :=
    match op with
    | Move d => (canMove h d, moved d h)
    | PromiseToBuy d => (canPromiseToBuy h d, promisedToBuy d h)
    | PromiseToSell d => (canPromiseToSell h d, promisedToSell d h)
    end in
  (ok, if ok : bool then h' else h).

(** The answers and the entry, or the holding, that a sequence ends with. *)
Fixpoint runOps (header : LedgerHeader) (ops : list BalanceOp) (e : LedgerEntry) : exc (list bool * LedgerEntry) :=
  match ops with
  | [] => mret ([], e)
  | op :: ops =>
      let* '(ok, e) := runOp header op e in
      let* '(oks, e) := runOps header ops e in
      mret (ok :: oks, e)
  end.
Fixpoint specOps (ops : list BalanceOp) (h : Holding) : list bool * Holding :=
  match ops with
  | [] => ([], h)
  | op :: ops =>
      let '(ok, h) := specOp op h in
      let '(oks, h) := specOps ops h in
      (ok :: oks, h)
  end.

Lemma specOp_sound op h : Sound h -> Sound (snd (specOp op h)).
Proof.
  intros So. pose proof So as [S1 S2 S3 S4 S5 S6].
  destruct op as [d|d|d]; cbv beta iota delta [specOp snd];
    unfold canMove, canPromiseToBuy, canPromiseToSell, available, receivable;
    match goal with |- Sound (if ?b then _ else _) => destruct b eqn:Eb; [|done] end;
    constructor; cbn; destruct (Z.ltb_spec 0 d); lia.
Qed.

Section Refinement.
Context (header : LedgerHeader) (Hv : 10 <= ledgerVersion header).

Lemma runOp_refines op e h :
  view header (le_data e) = Some h -> Sound h -> int64 (deltaOf op) ->
  exists e', runOp header op e = inr (fst (specOp op h), e') /\
    view header (le_data e') = Some (snd (specOp op h)) /\
    blank (le_data e') = blank (le_data e) /\
    lastModifiedLedgerSeq e' = lastModifiedLedgerSeq e /\ le_ext e' = le_ext e.
Proof using Hv.
  intros H So Hd.
  assert (exists ok h', specOp op h = (ok, if ok : bool then h' else h) /\
            Changes header e h ok h' (runOp header op e)) as (ok & h' & -> & C).
  { destruct op as [d|d|d]; cbn in *; eexists _, _; (split; [reflexivity|]).
    - by apply addBalance_eq.
    - by apply addBuyingLiabilities_eq.
    - by apply addSellingLiabilities_eq. }
  destruct C as (e' & E & Hview & _ & B & L & X & _). by exists e'.
Qed.

(** C33: From protocol version 10 on, an account or authorised trust line whose
    balance and liabilities fit each other behaves, under any sequence of changes
    of its balance and its buying and selling liabilities by any 64-bit amounts, as
    an amount between a floor and a ceiling: no call throws, each is refused
    exactly when the amount would leave the room that [getAvailableBalance] and
    [getMaxAmountReceive] report or take back more liabilities than there are, a
    refused one leaves balance and liabilities as they were, the results are those
    of exact arithmetic, so that no 64-bit operation overflows, the entry keeps
    fitting, and nothing else of it changes but an empty extension being added. *)
Theorem balances_refine_holding ops e h :
  view header (le_data e) = Some h -> Sound h -> Forall (fun op => int64 (deltaOf op)) ops ->
  exists e', runOps header ops e = inr (fst (specOps ops h), e') /\
    view header (le_data e') = Some (snd (specOps ops h)) /\ Sound (snd (specOps ops h)) /\
    getAvailableBalance header e' = inr (available (snd (specOps ops h))) /\
    getMaxAmountReceive header e' = inr (receivable (snd (specOps ops h))) /\
    blank (le_data e') = blank (le_data e) /\
    lastModifiedLedgerSeq e' = lastModifiedLedgerSeq e /\ le_ext e' = le_ext e.
Proof using Hv.
  revert e h. induction ops as [|op ops IH]; intros e h H So Hd.
  - exists e. cbn. pose proof (available_eq header Hv e h H So). by pose proof (receivable_eq header Hv e h H So).
  - apply Forall_cons in Hd as [Hop Hops].
    destruct (runOp_refines op e h H So Hop) as (e1 & E1 & H1 & B1 & L1 & X1).
    pose proof (specOp_sound op h So) as So1.
    cbn [runOps specOps]. rewrite E1. destruct (specOp op h) as [ok h1]. cbn in H1, So1 |- *.
    destruct (IH e1 h1 H1 So1 Hops) as (e2 & E2 & H2 & So2 & A2 & R2 & B2 & L2 & X2).
    exists e2. rewrite E2. destruct (specOps ops h1) as [oks h2]. cbn in *.
    rewrite B2, L2, X2. by split_and!.
Qed.

End Refinement.

(** ** Samples *)

Module SampleBalances.

Definition header : LedgerHeader := mkHeader 19 0 (mkHcnetValue 0 0 []) 0 0 100 0 0 0 0 100 5000000 0 [] None.

(** A trust line for an asset of issuer 9, with a limit of 152 units. *)
Definition line (balance : Z) (l : option TrustLineEntryExtensionV1) : LedgerEntry :=
  mkEntry 1 (TRUSTLINE (mkTrustLine 1 (TL_CREDIT_ALPHANUM4 [85; 83; 68; 0] 9) balance 152 AUTHORIZED_FLAG l)) None.

(** Promise to buy 151, receive 1, fail to receive another one. *)
Lemma balances_refine_holding_witness :
  exists e', runOps header [PromiseToBuy 151; Move 1; Move 1] (line 0 None) = inr ([true; true; false], e') /\
    getMaxAmountReceive header e' = inr 0.
Proof.
  destruct (balances_refine_holding header ltac:(cbn; lia) [PromiseToBuy 151; Move 1; Move 1] (line 0 None)
    (mkHolding 0 0 0 0 152)) as (e' & E & _ & _ & _ & R & _).
  - reflexivity.
  - constructor; cbn; widths; lia.
  - repeat constructor; unfold int64; cbn; widths; lia.
  - exists e'. exact (conj E R).
Defined.

(** An offer of 101 at the price 3/2, which stands adjusted when its seller can
    receive 152, promises to buy 151.  The seller may then receive 1 by other
    means, and when the promise is taken back to cross the offer, what the seller
    can receive is 151, for which [adjustOffer] changes the amount to 100. *)
Example adjusted_offer_is_adjusted_again :
  adjustOffer (mkPrice 3 2) 101 152 = inr 101 /\
  getOfferBuyingLiabilities header
    (mkOffer 1 7 ASSET_TYPE_NATIVE (ASSET_TYPE_CREDIT_ALPHANUM4 [85; 83; 68; 0] 9) 101 (mkPrice 3 2) 0) = inr 151 /\
  (let* '(oks, e) := runOps header [PromiseToBuy 151; Move 1; PromiseToBuy (- 151)] (line 0 None) in
   let* room := getMaxAmountReceive header e in
   mret (oks, room)) = inr ([true; true; true], 151) /\
  adjustOffer (mkPrice 3 2) 101 151 = inr 100.
Proof. by vm_compute. Qed.

End SampleBalances.
